(* ===== verification/_CoqProject ===== *)
-Q . S2P
Prelude.v
CharClass.v
Memory.v
Strings.v
Buffer.v
Utf8.v
Parser.v
Script.v
Subst.v
Base64.v
Cancel.v
Ready.v
Split.v
SplitWords.v
Eval.v
EvalSafety.v
EvalShell.v
EvalLoop.v
Spilornis.v
Lists.v
Glob.v
Numbers.v
Hash.v
Results.v
Secure.v
ExprTree.v
ExprArith.v
Pow10.v
Doubles.v
ExprEval.v
ExprParse.v
ExprFuel.v
ExprSafety.v
ExprTokens.v
ExprCalc.v
ExprShell.v
VarTables.v
VarState.v
VarRefs.v
Namespaces.v
Vars.v
VarInv.v
NsTree.v
VarResolve.v
VarSteps.v
VarWrites.v
VarUnset.v
VarFrames.v
VarNs.v
VarHistory.v
VarHost.v
VarTheorems.v
Cache.v
CacheInv.v
CacheFind.v
CacheOps.v
CacheKeep.v
CacheLists.v
CacheClear.v
CachePool.v
CacheJoin.v
CacheCalm.v
ListCommand.v
CacheHistory.v
CacheInterp.v
CacheHost.v
CacheTheorems.v
