(* ===== verification/Prelude.v ===== *)
(** * Verification of the TH8 interpreter

    TH8 is an embeddable Tcl interpreter in C.  An interpreter (Th8_Interp in
    src/src/th8_int_core.h) belongs to one thread; a host creates it over a
    table of platform callbacks, evaluates scripts in it, and may cancel it
    from any other thread.  Evaluating a script goes through these parts:

    - the scanners cut the script into commands and words;
    - substitution turns a word into a value, calling back for variables and
      nested commands, and collects its output in a growable buffer;
    - every byte count of a value carries two tag bits, taint and
      sensitivity, that substitution must propagate;
    - every unit of work first passes the readiness check, which enforces
      stack, step, time and debugger limits and observes cancellation;
    - every allocation is counted against the interpreter's limit;
    - the evaluator runs a script as callbacks on a chain, so that evaluation
      can be suspended, frozen, unwound or continued by what a command pushes;
    - a value is a list as well: it is split into elements, and built by
      quoting each element, with a cache of parses keyed by the value;
    - strings are converted to numbers through a cache of representations, which
      also keeps the splits of lists, the strings of lists and freed buffers;
    - a variable is found by its name in the frame of a procedure, in a
      namespace or in an array, and may be reached through links;
    - an expression is cut into tokens, built into a tree and evaluated on
      integers, doubles, strings and lists;
    - tables of commands, variables and packages are hash tables that can be
      walked in insertion order;
    - the result of a command is a string that the interpreter owns, borrows
      or keeps in a page-protected region when it is sensitive; variables made
      secure are stored encrypted and reach the script through that region.

    ** Files, in order of dependency

    - Prelude (this file): bytes as [Z], the [ch] scope for C character
      constants, results [res], machine-integer wrapping, shared tactics and
      list lemmas.
    - CharClass: the property table th8CharProp and th8IsSpace to
      th8IsBinDig (th8_core.c).
    - Memory: TH8_SAFE_ADD_SIZE and TH8_SAFE_MUL_SIZE (th8_int.h), tagged
      lengths (th8.h), Th8_SafeAlloc and its kin (th8_mem.c), and the
      accounting of th8MallocCommon, Th8_Free and th8ReallocCommon
      (th8_core.c).  State: [Th8_Mem], the counter fields of the interpreter
      and the live blocks.
    - Strings: Th8_StringAppend and th8CheckResultSize (th8_core.c), over the
      interface [StringInterp].
    - Buffer: Th8_Buffer with th8BufWrite (th8_core.c), and the class [Sink]
      that is all substitution knows of it.
    - Utf8: Th8_Utf8Decode to Th8_Utf8Validate (th8_core.c).
    - Parser: th8NextSpace, th8NextEscape, th8NextVarName, th8NextCommand and
      th8NextWord (th8_core.c), with the scope stack Th8ParseStack and the
      inductive grammar of blocks and words.
    - Script: the scan for the next command (in th8EvalIteration) with the
      count of lines, th8ParseCommand and Th8_Complete (th8_core.c).
    - Subst: th8SubstEscape, th8SubstCommand, th8SubstWord and Th8_Subst
      (th8_core.c), over the interfaces [Sink] and [SubstInterp].
    - Base64: th8_base64.c.
    - Cancel: the request word, its message slot and their users, from
      th8CancelReqOr to th8ClearCancel (th8_core.c).
    - Ready: Th8_Ready, th8CheckStack, th8Step, th8DebugCheck and the
      breakpoint table (th8_core.c).
    - Split: th8SplitCommand, and the same work done across callbacks,
      th8NRSubstAndBuild, th8NRCmdSubstDone and the argument vector of
      th8NRCmdDispatch (th8_core.c), over the interfaces [WordInterp] and
      [WordStore].  The result of a word may be refused by the allocator; the
      class [SplitTags] names the two calls whose lengths carry tags.
    - SplitWords: the grammar of commands ([command]), what their words
      evaluate to ([eval_words]), and th8SplitCommand against both.
    - Eval: the callback chain (Th8_NRAddCallback, th8RunCallbacks), the
      callbacks th8EvalIteration, th8EvalPostCmd, th8EvalStateCleanup,
      th8NRCmdDispatch and th8NRCmdSubstDone, th8InvokeCommand, th8EvalLocal,
      th8EvalCommon, Th8_EvalDownlevel, Th8_Freeze and Th8_Thaw
      (th8_core.c), over the interface [EvalInterp].  A script is its bytes
      with a length that may carry tags, or TH8_NOLEN, which Th8_Eval,
      Th8_EvalDownlevel and Th8_NREval measure.  State: [machine], with
      the chain, the suspended chain, the heap of the blocks the callbacks
      own, and the counters of the interpreter.
    - EvalSafety: which callback owns which block, and that no step uses a
      freed one.
    - EvalShell: a small instance of [EvalInterp] and runs of it.
    - EvalLoop: evaluation as a recursive function, and the trampoline
      against it.
    - Spilornis: the list parser and quoter of externals/spilornis,
      Spilornis.c, as th8_spilornis.h configures it.
    - Lists: Th8_SplitList and Th8_ListAppend (th8_core.c), over the interface
      [ListInterp] of a cache of parsed lists.
    - Glob: th8_glob.c.
    - Numbers: Th8_ToInt, Th8_ToWideInt, Th8_ToBoolean and the formatters
      (th8_core.c), over the class [ReprCache].
    - Hash: th8_hash.c.
    - Results: the result of the interpreter, from th8ReleaseOldResult and
      Th8_SetResult to Th8_TakeResult, th8FreeSensitive, Th8_ErrorMessage,
      Th8_SetResultSensitive (th8_core.c), th8ProtectedAlloc (th8_protect.c)
      and the decryption into the region of th8SecureDecrypt
      (plugins/crypto/th8_secure.c).  State: [results], blocks with their
      owner and contents, freed ones included.
    - Secure: secure variables (plugins/crypto/th8_secure.c): the page of key
      slots with its bitmap, padding, nonces, th8SecureEncrypt, and creating,
      reading, setting and deleting variables, with the routing of Th8_SetVar
      (th8_vars.c), over the interfaces [Cipher] and [VarInterp].
    - ExprTree: the operators and tokens of expressions and the tree builder
      th8ExprMakeTree (th8_expr.c, th8_expr.h), with the grammar [derives] in
      three styles: [Documented], where ** and the conditional group to the
      right, [Implemented], where they group to the left, and [Unchained], where
      they are operands of themselves in parentheses only.
    - ExprArith: the integer operators, from the switch of th8ExprEvalNode
      (th8_expr.c), against the unbounded integers.
    - Pow10: the tables of powers of ten th8Pow10Lemire, th8Pow10Sig and
      th8Pow10E (th8_core.c), row by row against the powers.
    - Doubles: Th8_ToDouble, th8ScaleByPow10, th8BignumDecideRound and
      Th8_SetResultDouble with th8ExtractDigits17 (th8_core.c), on the bits of
      a double.
    - ExprEval: th8ExprEval and th8ExprEvalNode (th8_expr.c), over the
      interfaces [ExprInterp] and [Doubles]; what C leaves undefined is an
      error [fault].
    - ExprParse: th8ExprParse, th8ExprEvalFunc, th8ExprEvalOne,
      th8ExprFindTopComma and Th8_Expr (th8_expr.c).
    - ExprFuel, ExprSafety: that they come to an end, and without a fault as
      long as copies of results are granted ([copies_granted]) and the overflow
      check is on ([overflow_check_on]).
    - ExprTokens, ExprCalc: from the text of an integer expression to its
      value, for an interpreter with [CalmLaws].  What may be written, by symbols
      and precedences, is [prints]; what it denotes on the unbounded integers is
      [denote ideal].
    - ExprShell: a small instance of [ExprInterp] and runs of it.
    - VarTables: the hash tables of Hash as finite maps, and counting what they
      refer to.
    - VarState, Vars: variables, frames and namespaces, all of th8_vars.c, with
      the frames of calls and uplevels (th8_core.c).  State: [interp], a store of
      variables by address with their reference counts, the frames with their
      links, the namespaces; over the interface [VarEnv].
    - VarRefs: freeing variables, and the reference counts.
    - Namespaces: finding, creating, entering, deleting and draining namespaces
      (th8_core.c).
    - VarInv, NsTree: the invariant of the variables and of the tree of
      namespaces.
    - VarResolve, VarSteps, VarWrites, VarUnset, VarFrames, VarNs: that each
      operation resolves, keeps, writes, removes, and enters and leaves as it
      should.
    - VarHistory, VarHost, VarTheorems: the histories of operations, a small
      instance of [VarEnv] with its runs, and the theorems.
    - Cache: the keyed cache and the pool of buffers, th8_cache.c, with what
      Th8_ToInt and Th8_SplitList (th8_core.c) and the list command
      (plugins/th8_lists.c) keep in it, and th8MemNeedMemory (th8_mem.c).  State:
      [cache], the table, the blocks that entries and callers own, the lock; over
      the interface [CacheEnv].
    - CacheCalm: a platform that clears the cache to find memory, where memory
      is not refused ([no_pressure]).
    - CacheInv: who owns which block.  CacheFind, CacheOps: finding, making and
      removing entries.  CacheKeep, CacheLists, CacheJoin: the cache as a map for
      numbers, splits and strings of lists.  CacheClear, CachePool: clearing, and
      the buffers.
    - ListCommand: the list command with the cache and without.
    - CacheHistory, CacheInterp, CacheHost, CacheTheorems: the histories of
      operations, the cache as the [ListInterp] of Lists, a small instance of
      [CacheEnv] with its runs, and the theorems.

    Definitions carry the names of the C functions, types and variables.  A
    loop is a Fixpoint named after its function; a buffer [&z[i]] of [n - i]
    bytes is the list of the bytes from [i] on.

    ** Theorems

    Refinement of a specification written apart from the code: the scanners
    accept exactly the grammar (Parser), substitution publishes exactly the
    pieces substituted with the union of their tags and the buffer agrees with
    the list of the pieces (Subst, Buffer), the matcher decides the pattern
    relation (Glob), the tree builder gives the expressions of the grammar their
    trees and, without colons, nothing else (ExprTree), an integer expression
    written by the documented precedences is evaluated to what it denotes on the
    unbounded integers (ExprCalc), each integer operator is exact or reports
    overflow (ExprArith), a decimal whose double is normal is read within half a
    unit in the last place (Doubles), a command is split into the values of its
    words as its grammar has them (SplitWords), the table is an ordered dictionary and its sort gives
    insertion order (Hash), base64 decoding agrees with a reference (Base64),
    the number parsers agree with the value of the digits (Numbers), the
    callback-driven splitting does what the synchronous one does (Split), the
    trampoline does what the recursive evaluation loop does (EvalLoop), a name
    resolves to the variable it denotes (VarTheorems), and the cache is a memo
    that may forget, whatever hashes collide (CacheTheorems); so a list split
    through it is the split computed afresh (Lists, CacheInterp), and the list
    command gives the same list with the cache and without (ListCommand).

    Invariants over all sequences and interleavings of steps: no interleaving
    of cancellation frees or reads a dead message or leaves one behind
    (Cancel), the byte counter equals the usable size of the live blocks
    (Memory), and whatever commands, other threads and the allocator do, the
    evaluator uses no freed block and leaves the callback chain as it found it
    (EvalSafety); through any calls of commands and of the host, results free
    each block once and only what they own, and sensitive bytes are zeroed
    before their memory is given back (Results); stored secure values stay
    decryptable, no slot is shared and a free slot holds no key (Secure).
    Over all histories of reads, writes, removals, links, calls, uplevels and
    namespace evaluations and deletions that avoid the faults of
    [VarHistory.avoids_faults], no freed variable or namespace is used,
    reference counts are exact, no block is lost, and every variable is well
    typed (VarTheorems); over all histories of the cache that avoid those
    of [CacheHistory.cache_avoids_faults], where memory pressure does not clear
    it, no block is used after it was freed, none is freed twice or lost, the lock is free again, and a
    buffer that was handed out is its owner's alone (CacheTheorems).
    Whatever the text, evaluating an expression ends (ExprFuel) and, where results
    can be copied and overflow is checked, reads no null pointer and overflows no
    integer (ExprSafety).

    Limits: the readiness check permits no more steps than the budget and
    stops after the deadline (Ready); checked sizes never under-allocate
    (Memory); precomputed output sizes hold the output (Base64); the blocks that
    list splitting allocates after its first pass hold what the second pass
    writes (Spilornis); scanners stay
    inside their buffer and make progress (Parser).

    Round trips: UTF-8, base64, decimal numbers, braced words, escaped
    patterns, and lists: any elements joined split into themselves, a joined
    list is one element of another (Spilornis), and elements appended one by
    one come back with their tags (Lists), a result that is set is the one that
    is taken (Results), a secure value is read back (Secure), and a variable is
    read back as it was set while all others stay as they were (VarTheorems).

    Divergences found on the way are theorems as well: an exponential number
    of polls for a mismatch (Glob), a leaked message (Cancel), lenient UTF-8
    validation (Utf8), escapes above 2^31 (Subst), scripts lost by a second
    freeze or by a freeze inside a command with brackets (EvalShell), list
    escapes cut to a byte or read with a signed char (Spilornis), a cache
    entry that outlives the count it was made for (Lists), a result set from
    itself (Results), and secure values read with their padding, lost by a
    failed assignment, or whose slot unset never gives back (Secure),
    exponents and conditionals grouped to the wrong side (ExprTree), halfway
    decimals rounded to the odd double and the least double read as zero
    (Doubles), and expressions that take an empty operand for zero, run
    commands of branches that are not selected, or substitute the result of a
    function once more (ExprShell); variables and namespaces that outlive or
    escape their rules, and links under names that are not found again (VarHost); and a cache that is cleared while it is searched
    or copied from, that reads past a tainted name, or that keeps a list which was
    cut short for want of memory (CacheHost).

    ** Bounds and fuel

    Recursion is structural except where the C loop advances by more than one
    byte; there the fuel is the length of the buffer, and each step consumes at
    least one byte, so the fuel is never exhausted (the lemmas on the loops are
    stated for any fuel that is at least the length).  The merge sort of Hash
    takes the length of the array as fuel for its passes, whose width doubles.
    The trampoline of Eval, and the loop of EvalLoop, take any fuel: a script
    need not end; the theorems say what holds for every fuel, and that enough
    fuel for the loop is enough for the trampoline.  The list parser takes the
    length of its text as fuel; each element consumes at least one byte.
    The tokenizer of expressions and the evaluation of function arguments take
    the length of the text, the search for the shortest form of a double its 17
    digits, the power of integers 64 rounds.
    Freeing a variable takes as fuel the addresses above it, since an array
    refers to younger variables only; walking the name of a namespace one more
    than its length; freeing a tree of namespaces the number of them; the size
    class of a buffer its 12 classes.
    The recursion of Glob is bounded by the code's own depth cap of 50.  The
    int counters of the sort are unbounded integers in the model, so tables of
    2^26 entries and more are out of its scope.  Sizes are 64-bit; the list
    scanner tests a word of eight bytes at a time, as on a 64-bit target.

    ** Parameters

    The platform allocator, the clock, the address of the stack probe, random
    bytes, the signedness of char, the debug callback, variable reads, nested
    evaluation, the arithmetic of big integers, mathematical functions, the
    cipher, the page size and the answers of the platform are
    arguments or fields of interfaces; where a theorem needs something of them
    it is a named hypothesis (such as [honest] in Memory), with a witness.

    A history of variables or of the cache is any sequence of legal operations:
    [VarHistory.legal] and [CacheHistory.legal_cache] ask what the callers in the
    repository ensure.  Histories in which the code fails are set apart by
    conditions of their own, which every theorem on histories states.
    [VarHistory.avoids_faults] leaves out links whose table entry is refused by the
    allocator, namespaces created under a name with a NUL byte or a final colon, and
    deleting the global namespace; [CacheHistory.cache_avoids_faults] splits
    without a count of the elements and removals under the length with its tags;
    [CacheCalm.no_pressure] a platform that clears the cache where memory is
    refused; [Secure.untagged_name] names of secure variables with tags in their
    length.  For each of them an example in VarHost, CacheHost or Secure is a run
    that goes wrong.

    ** Not modelled, and the plan

    The arguments of procedure frames, the export, import and listing of
    namespaces, commands and ensembles, the freeing of expression trees and the
    registry of functions, coroutines, the asynchronous event queue, saving and
    loading secure variables through the key-value store, and list sorting would
    come next, in this order.  The variable errorInfo that an error message sets is
    not part of the errors of Results.  The mutex of the cache is a counter, its
    setup is the platform's.  The rounding and truncation of doubles and big
    integers are left to libraries.  Platform layers,
    I/O, bindings to third-party libraries, test instrumentation and generated
    stub tables are system calls or calls to code outside the repository and
    stay out. *)

From Stdlib Require Export ZArith Lia Bool Ascii.
From stdpp Require Export base list numbers strings.
From Stdlib Require Strings.Byte.

#[export] Set Default Goal Selector "!".
Open Scope Z_scope.

(** ** Characters

    A C [char] is modelled by the [Z] in [0, 256) that the byte denotes.
    The scope [ch] writes such a byte as the one-character string, so that
    a C character constant reads the same way in the model, and can be used
    as a pattern. *)

Definition ch_parse (l : list Byte.byte) : option Z :=
  match l with
  | [b] => Some (Z.of_N (Byte.to_N b))
  | _ => None
  end.

Definition ch_print (z : Z) : option (list Byte.byte) :=
  if (32 <=? z) && (z <? 127) && negb (z =? 34)
  then match Byte.of_N (Z.to_N z) with Some b => Some [b] | None => None end
  else None.

Declare Scope ch_scope.
Delimit Scope ch_scope with ch.
String Notation Z ch_parse ch_print : ch_scope.

(** The two character constants a string literal cannot hold here. *)
Abbreviation DQUOTE := 34 (only parsing).
Abbreviation NEWLINE := 10 (only parsing).

(** A buffer, with its length, is the list of its bytes. *)
Abbreviation bytes := (list Z) (only parsing).

Definition bytes_of_string (s : string) : bytes :=
  map (λ a, Z.of_N (N_of_ascii a)) (String.list_ascii_of_string s).

Definition is_byte (c : Z) : Prop := 0 <= c < 256.
Definition is_bytes (z : bytes) : Prop := Forall is_byte z.

(** The length of a buffer as the [size_t] the code passes around. *)
Definition zlen {A} (z : list A) : Z := Z.of_nat (length z).

(** ** Return codes of the interpreter (src/src/th8.h). *)
Definition TH8_OK : Z := 0.
Definition TH8_ERROR : Z := 1.
Definition TH8_RETURN : Z := 2.
Definition TH8_BREAK : Z := 3.
Definition TH8_CONTINUE : Z := 4.
Definition TH8_SUSPEND : Z := 6.
Definition TH8_YIELD : Z := 7.

(** A fallible operation: the value of its OUT parameter, or the error. *)
Inductive res (E A : Type) : Type :=
| Ok (a : A)
| Err (e : E).
Arguments Ok {E A} a.
Arguments Err {E A} e.

Definition res_bind {E A B} (m : res E A) (k : A → res E B) : res E B :=
  match m with Ok a => k a | Err e => Err e end.

Declare Scope res_scope.
Delimit Scope res_scope with res.
Notation "'let*' x ':=' m 'in' k" := (res_bind m (λ x, k))
  (at level 10, x pattern, m at level 100, k at level 200) : res_scope.

Definition is_ok {E A} (m : res E A) : bool :=
  match m with Ok _ => true | Err _ => false end.

(** ** Tactics *)

(** Split every boolean conjunction, disjunction and comparison in sight. *)
Ltac bool_to_prop :=
  repeat match goal with
  | H : (_ && _)%bool = true |- _ => apply andb_true_iff in H; destruct H
  | H : (_ || _)%bool = false |- _ => apply orb_false_iff in H; destruct H
  | H : negb _ = true |- _ => apply negb_true_iff in H
  | H : negb _ = false |- _ => apply negb_false_iff in H
  | H : (_ =? _) = true |- _ => apply Z.eqb_eq in H
  | H : (_ =? _) = false |- _ => apply Z.eqb_neq in H
  | H : (_ <=? _) = true |- _ => apply Z.leb_le in H
  | H : (_ <=? _) = false |- _ => apply Z.leb_gt in H
  | H : (_ <? _) = true |- _ => apply Z.ltb_lt in H
  | H : (_ <? _) = false |- _ => apply Z.ltb_ge in H
  end.

(** Case analysis on the scrutinee of the first [if] of the goal. *)
Ltac case_if :=
  match goal with
  | |- context [if ?b then _ else _] =>
      lazymatch type of b with bool => destruct b eqn:? end
  end.

(** The same on a hypothesis. *)
Ltac case_if_in H :=
  match type of H with
  | context [if ?b then _ else _] =>
      lazymatch type of b with bool => destruct b eqn:? end
  end.

(** Linear arithmetic with division and remainder by constants. *)
Ltac divlia := Z.div_mod_to_equations; lia.

Ltac inv_res :=
  repeat match goal with
  | H : Ok _ = Ok _ |- _ => injection H as H
  | H : Err _ = Err _ |- _ => injection H as H
  | H : Ok _ = Err _ |- _ => discriminate H
  | H : Err _ = Ok _ |- _ => discriminate H
  end.

(** ** Lists *)

Lemma zlen_nonneg {A} (z : list A) : 0 <= zlen z.
Proof. unfold zlen; lia. Qed.

Lemma zlen_app {A} (z w : list A) : zlen (z ++ w) = zlen z + zlen w.
Proof. unfold zlen; rewrite length_app; lia. Qed.

Lemma zlen_cons {A} (x : A) z : zlen (x :: z) = 1 + zlen z.
Proof. unfold zlen; simpl length; lia. Qed.

Lemma zlen_nil {A} : zlen (@nil A) = 0.
Proof. done. Qed.

(** The sub-buffer [z[i..i+n)] of C's [&z[i], n] arguments. *)
Definition sub (i n : nat) (z : bytes) : bytes := take n (drop i z).

(** Number of leading elements satisfying [p]: the [while (i < n && p(z[i])) i++]
    loops of the scanners. *)
Fixpoint span (p : Z → bool) (z : bytes) : nat :=
  match z with
  | c :: z' => if p c then S (span p z') else O
  | [] => O
  end.

(** [i < n && z[i] == c] at the head of a suffix. *)
Definition next_is (c : Z) (z : bytes) : bool :=
  match z with x :: _ => x =? c | [] => false end.

Lemma span_le p z : (span p z <= length z)%nat.
Proof. induction z as [|c z IH]; simpl; [|destruct (p c)]; lia. Qed.

Lemma span_forall p z : Forall (λ c, p c = true) (take (span p z) z).
Proof.
  induction z as [|c z IH]; simpl; [constructor|].
  destruct (p c) eqn:E; simpl; [by constructor|constructor].
Qed.

Lemma span_stop p z c : z !! span p z = Some c → p c = false.
Proof.
  induction z as [|x z IH]; simpl; [done|].
  destruct (p x) eqn:E; simpl; [done|]. by intros [= <-].
Qed.

(** Induction on the length of a list: a scanner's recursive call drops one
    or more bytes. *)
Lemma list_len_ind {A} (P : list A → Prop) :
  (∀ z, (∀ z', (length z' < length z)%nat → P z') → P z) → ∀ z, P z.
Proof.
  intros H z. remember (length z) as n eqn:En. revert z En.
  induction (lt_wf n) as [n _ IH]. intros z ->.
  apply H. intros z' Hz'. by apply (IH (length z')).
Qed.

(** A finite check over all bytes. *)
Definition all_bytes (p : Z → bool) : bool :=
  forallb (λ n, p (Z.of_nat n)) (seq 0 256).

Lemma all_bytes_spec p : all_bytes p = true → ∀ c, is_byte c → p c = true.
Proof.
  intros H c [Hlo Hhi]. unfold all_bytes in H.
  rewrite forallb_forall in H.
  specialize (H (Z.to_nat c)). rewrite Z2Nat.id in H by lia.
  apply H, in_seq. lia.
Qed.

(** Reduce a boolean equation that holds of every byte to its evaluation. *)
Ltac by_all_bytes c Hc p :=
  revert c Hc;
  let H := fresh in
  assert (H : all_bytes p = true) by (vm_compute; reflexivity);
  intros c Hc; exact (all_bytes_spec _ H c Hc).

(** ** Machine integers and bit operations

    A w-bit unsigned value is a [Z] in [0, 2^w); conversions wrap. *)

Definition wrap (w z : Z) : Z := z mod 2 ^ w.

(** Two's complement reading of the low [w] bits. *)
Definition swrap (w z : Z) : Z :=
  (z + 2 ^ (w - 1)) mod 2 ^ w - 2 ^ (w - 1).

(** The C conversion to [char], as the byte it stores. *)
Definition to_char (z : Z) : Z := Z.land z 0xFF.

Lemma to_char_byte z : is_byte (to_char z).
Proof.
  unfold to_char, is_byte. change 0xFF with (Z.ones 8). rewrite Z.land_ones by lia.
  apply Z.mod_pos_bound; lia.
Qed.

Lemma to_char_id z : is_byte z → to_char z = z.
Proof.
  unfold to_char, is_byte. change 0xFF with (Z.ones 8). rewrite Z.land_ones by lia.
  intros; apply Z.mod_small; lia.
Qed.

Lemma swrap_id w z : 0 < w → - 2 ^ (w - 1) <= z < 2 ^ (w - 1) → swrap w z = z.
Proof.
  intros Hw Hz. unfold swrap. rewrite Z.mod_small; [lia|].
  replace (2 ^ w) with (2 * 2 ^ (w - 1)); [lia|].
  rewrite <- Z.pow_succ_r by lia. f_equal; lia.
Qed.

Lemma swrap_range w z : 0 < w → - 2 ^ (w - 1) <= swrap w z < 2 ^ (w - 1).
Proof.
  intros Hw. unfold swrap.
  assert (2 ^ w = 2 * 2 ^ (w - 1)) as ->.
  { rewrite <- Z.pow_succ_r by lia. f_equal; lia. }
  assert (0 < 2 ^ (w - 1)) by (apply Z.pow_pos_nonneg; lia).
  pose proof (Z.mod_pos_bound (z + 2 ^ (w - 1)) (2 * 2 ^ (w - 1))). lia.
Qed.

(** A shifted high part and a low part that fits below it do not overlap. *)
Lemma lor_shiftl_add x y k :
  0 <= k → 0 <= y < 2 ^ k → Z.lor (Z.shiftl x k) y = x * 2 ^ k + y.
Proof.
  intros Hk Hy. rewrite <- Z.add_nocarry_lor; [by rewrite Z.shiftl_mul_pow2|].
  apply Z.bits_inj'. intros n Hn. rewrite Z.land_spec, Z.bits_0.
  destruct (decide (n < k)).
  - rewrite Z.shiftl_spec_low by done. done.
  - rewrite <- (Z.mod_small y (2 ^ k)) by done.
    rewrite Z.mod_pow2_bits_high by lia. apply andb_false_r.
Qed.

Lemma land_ones_mod z k : 0 <= k → Z.land z (2 ^ k - 1) = z mod 2 ^ k.
Proof. intros. rewrite <- Z.land_ones, Z.ones_equiv, Z.sub_1_r by done. done. Qed.

(** ** Hints *)
Create HintDb th8.
Create Rewrite HintDb th8len.
#[export] Hint Rewrite @zlen_app @zlen_cons @zlen_nil : th8len.
#[export] Hint Resolve zlen_nonneg : th8.
#[export] Hint Unfold is_byte : th8.
