(* ===== verification/CharClass.v ===== *)
(** * CharClass: the character classification table of src/src/th8_core.c.

    [th8CharProp] is the 256-entry property table; the eight classifiers mask
    one entry of it or compare ranges. *)

From S2P Require Import Prelude.

(** The table's initialised entries; C zero-fills the rest of the array. *)
Definition th8CharProp_init : list Z :=
  [0; 0; 0; 0; 0; 0; 0; 0;
   0; 1; 1; 1; 1; 1; 0; 0;
   0; 0; 0; 0; 0; 0; 0; 0;
   0; 0; 0; 0; 0; 0; 0; 0;
   1; 0; 0x10; 0; 0x10; 0; 0; 0;
   0; 0; 0; 0; 0; 0; 0; 0;
   0x22; 0x22; 0x22; 0x22; 0x22; 0x22; 0x22; 0x22;
   0x22; 0x22; 0; 0x10; 0; 0; 0; 0;
   0; 0x28; 0x28; 0x28; 0x28; 0x28; 0x28; 0x08;
   0x08; 0x08; 0x08; 0x08; 0x08; 0x08; 0x08; 0x08;
   0x08; 0x08; 0x08; 0x08; 0x08; 0x08; 0x08; 0x08;
   0x08; 0x08; 0x08; 0x10; 0x10; 0x10; 0; 0x08;
   0; 0x28; 0x28; 0x28; 0x28; 0x28; 0x28; 0x08;
   0x08; 0x08; 0x08; 0x08; 0x08; 0x08; 0x08; 0x08;
   0x08; 0x08; 0x08; 0x08; 0x08; 0x08; 0x08; 0x08;
   0x08; 0x08; 0x08; 0x10; 0; 0x10; 0; 0].

Definition th8CharProp (c : Z) : Z := nth (Z.to_nat c) th8CharProp_init 0.

Definition has_prop (mask c : Z) : bool :=
  (0 <=? c) && (c <? 256) && negb (Z.land (th8CharProp c) mask =? 0).

Definition th8IsSpace (c : Z) : bool := has_prop 0x01 c.
Definition th8IsDigit (c : Z) : bool := has_prop 0x02 c.
Definition th8IsAlpha (c : Z) : bool := has_prop 0x08 c.
Definition th8IsAlnum (c : Z) : bool := has_prop 0x0A c.
Definition th8IsSpecial (c : Z) : bool := has_prop 0x11 c.
Definition th8IsHexDig (c : Z) : bool := has_prop 0x22 c.
Definition th8IsOctDig (c : Z) : bool := ("0"%ch <=? c) && (c <=? "7"%ch).
Definition th8IsBinDig (c : Z) : bool := (c =? "0"%ch) || (c =? "1"%ch).

(** ** The sets the table is meant to encode *)

Definition between (lo hi c : Z) : bool := (lo <=? c) && (c <=? hi).

(** Every classifier is false outside [0, 255]. *)
Lemma has_prop_range mask c : ¬ is_byte c → has_prop mask c = false.
Proof.
  unfold has_prop, is_byte; intros H.
  destruct (0 <=? c) eqn:?, (c <? 256) eqn:?; bool_to_prop; simpl; try done; lia.
Qed.

(** Equality of two byte predicates, decided by evaluation and extended to
    every [int] argument. *)
Lemma class_ext (f g : Z → bool) :
  (∀ c, ¬ is_byte c → f c = g c) →
  all_bytes (λ c, Bool.eqb (f c) (g c)) = true →
  ∀ c, f c = g c.
Proof.
  intros Hout Hin c.
  destruct (decide (0 <= c)), (decide (c < 256)).
  1: apply Bool.eqb_prop, (all_bytes_spec _ Hin c); split; done.
  all: apply Hout; unfold is_byte; lia.
Qed.

Lemma between_out lo hi c : 0 <= lo → hi < 256 → ¬ is_byte c → between lo hi c = false.
Proof.
  unfold between, is_byte; intros ?? Hc.
  destruct (lo <=? c) eqn:?, (c <=? hi) eqn:?; bool_to_prop; simpl; try done; lia.
Qed.

Lemma eqb_out k c : is_byte k → ¬ is_byte c → (c =? k) = false.
Proof. unfold is_byte; intros. apply Z.eqb_neq; lia. Qed.

Ltac class_by_eval :=
  apply class_ext; [intros c Hc; unfold th8IsSpace, th8IsDigit, th8IsAlpha, th8IsAlnum,
      th8IsSpecial, th8IsHexDig;
      rewrite ?has_prop_range by done;
      rewrite ?between_out by (done || lia);
      rewrite ?eqb_out by (done || unfold is_byte; lia); done
    | vm_compute; reflexivity].

(** The white-space class is exactly space and the controls 9 to 13, the
    newline included. *)
Lemma th8IsSpace_spec c : th8IsSpace c = (c =? 32) || between 9 13 c.
Proof. revert c; class_by_eval. Qed.

Lemma th8IsDigit_spec c : th8IsDigit c = between "0"%ch "9"%ch c.
Proof. revert c; class_by_eval. Qed.

Lemma th8IsAlpha_spec c :
  th8IsAlpha c =
  between "A"%ch "Z"%ch c || (between "a"%ch "z"%ch c || (c =? "_"%ch)).
Proof. revert c; class_by_eval. Qed.

Lemma th8IsAlnum_spec c : th8IsAlnum c = th8IsAlpha c || th8IsDigit c.
Proof. revert c; class_by_eval. Qed.

Lemma th8IsHexDig_spec c :
  th8IsHexDig c =
  between "0"%ch "9"%ch c || (between "A"%ch "F"%ch c || between "a"%ch "f"%ch c).
Proof. revert c; class_by_eval. Qed.

Lemma th8IsOctDig_spec c : th8IsOctDig c = between "0"%ch "7"%ch c.
Proof. done. Qed.

Create Rewrite HintDb charclass.
#[export] Hint Rewrite th8IsSpace_spec th8IsDigit_spec th8IsAlpha_spec th8IsAlnum_spec
  th8IsHexDig_spec : charclass.
