(* ===== verification/Memory.v ===== *)
(** * Memory: size arithmetic, tagged lengths and the interpreter's memory
    accounting (src/src/th8_core.c, src/src/th8_int.h, src/src/th8_mem.c).

    The platform's heap is code the interpreter only calls: a request is a
    function of the platform's reply, and the blocks it has handed out, with
    the usable size [xMemorySize] reports for each, are part of the state so
    that the accounting can be compared with them. *)

From stdpp Require Import gmap.
From S2P Require Import Prelude.

(** ** Overflow-checked size_t arithmetic *)

Definition SIZE_MAX : Z := 2 ^ 64 - 1.
Definition is_size (n : Z) : Prop := 0 <= n <= SIZE_MAX.

(** The overflow flag and the value stored through [pOut]. *)
Definition TH8_SAFE_MUL_SIZE (a b : Z) : bool * Z :=
  if negb (b =? 0) && (SIZE_MAX / b <? a) then (true, 0) else (false, a * b).

Definition TH8_SAFE_ADD_SIZE (a b : Z) : bool * Z :=
  if SIZE_MAX - b <? a then (true, 0) else (false, a + b).

Definition Th8_SafeMul (a b : Z) : Z * Z :=
  let '(over, out) := TH8_SAFE_MUL_SIZE a b in
  (if over then TH8_ERROR else TH8_OK, out).

Definition Th8_SafeAdd (a b : Z) : Z * Z :=
  let '(over, out) := TH8_SAFE_ADD_SIZE a b in
  (if over then TH8_ERROR else TH8_OK, out).

(** The checked value, or [None] on the overflow branch. *)
Definition mul_size (a b : Z) : option Z :=
  let '(over, out) := TH8_SAFE_MUL_SIZE a b in if over then None else Some out.
Definition add_size (a b : Z) : option Z :=
  let '(over, out) := TH8_SAFE_ADD_SIZE a b in if over then None else Some out.

(** ** Tagged lengths *)

Definition TH8_LEN_MASK : Z := 0x0fffffff.
Definition TH8_TAINT_BIT : Z := 0x10000000.
Definition TH8_SENSITIVE_BIT : Z := 0x20000000.
Definition TH8_TAG_BITS : Z := Z.lor TH8_TAINT_BIT TH8_SENSITIVE_BIT.
Definition TH8_MX_STRLEN : Z := 100 * 1024 * 1024.
Definition TH8_MX_ALLOC : Z := 256 * 1024 * 1024.

Definition TH8_LEN (n : Z) : Z := Z.land n TH8_LEN_MASK.
Definition TH8_TAINTED (n : Z) : bool := negb (Z.land n TH8_TAINT_BIT =? 0).
Definition TH8_SENSITIVE (n : Z) : bool := negb (Z.land n TH8_SENSITIVE_BIT =? 0).

(** ** The accounting state *)

Record Th8_Mem : Type := mkMem {
  nAllocBytes : Z;
  nAllocPeak : Z;
  nAllocLimit : Z;         (* 0 means no limit *)
  blocks : gmap Z Z        (* live block address to usable size *)
}.

(** What an allocation returns: a block, or NULL, with whether [xPanic] was
    called on the way (a panic callback that returns falls through to NULL). *)
Inductive alloc_out : Type :=
| Ptr (p : Z)
| Null (panicked : bool).

Definition th8AccountAlloc (s : Th8_Mem) (nAccounted : Z) : Th8_Mem :=
  let '(over, nNew) := TH8_SAFE_ADD_SIZE (nAllocBytes s) nAccounted in
  let bytes := if over then SIZE_MAX else nNew in
  mkMem bytes (if nAllocPeak s <? bytes then bytes else nAllocPeak s)
        (nAllocLimit s) (blocks s).

Definition set_bytes (s : Th8_Mem) (n : Z) : Th8_Mem :=
  mkMem n (nAllocPeak s) (nAllocLimit s) (blocks s).
Definition set_blocks (s : Th8_Mem) (m : gmap Z Z) : Th8_Mem :=
  mkMem (nAllocBytes s) (nAllocPeak s) (nAllocLimit s) m.

(** The limit test of th8MallocCommon and th8ReallocCommon for [n] more bytes. *)
Definition over_limit (s : Th8_Mem) (n : Z) : bool :=
  (0 <? nAllocLimit s) &&
  ((nAllocLimit s <? nAllocBytes s) || (nAllocLimit s - nAllocBytes s <? n)).

Section operations.
(** Whether the platform provides [xMemorySize]. *)
Context (hasMemorySize : bool).

(** [reply] is what [xMalloc] answers: NULL, or an address and its usable
    size. *)
Definition th8MallocCommon (reply : option (Z * Z)) (s : Th8_Mem) (nByte : Z)
    (bPanic : bool) : alloc_out * Th8_Mem :=
  if over_limit s nByte then (Null bPanic, s)
  else
    match reply with
    | Some (p, usable) =>
        (Ptr p,
         th8AccountAlloc (set_blocks s (<[p := usable]> (blocks s)))
           (if hasMemorySize then usable else nByte))
    | None => (Null bPanic, s)
    end.

Definition Th8_Malloc reply s nByte := th8MallocCommon reply s nByte true.
Definition Th8_AttemptMalloc reply s nByte := th8MallocCommon reply s nByte false.

(** The usable size [xMemorySize] reports for a block. *)
Definition xMemorySize (s : Th8_Mem) (p : Z) : Z := default 0 (blocks s !! p).

Definition Th8_Free (s : Th8_Mem) (p : option Z) : Th8_Mem :=
  match p with
  | None => s
  | Some a =>
      let s' :=
        if hasMemorySize then
          let nBlock := xMemorySize s a in
          if nBlock <=? nAllocBytes s then set_bytes s (nAllocBytes s - nBlock)
          else set_bytes s 0
        else s in
      set_blocks s' (delete a (blocks s'))
  end.

Definition th8ReallocCommon (reply : option (Z * Z)) (s : Th8_Mem) (p : option Z)
    (nByte : Z) (bPanic : bool) : alloc_out * Th8_Mem :=
  let nOldSize :=
    match p with
    | Some a => if hasMemorySize then xMemorySize s a else 0
    | None => 0
    end in
  if (nOldSize <? nByte) && over_limit s (nByte - nOldSize) then (Null bPanic, s)
  else
    match reply with
    | Some (pNew, usable) =>
        let s1 := if nOldSize <=? nAllocBytes s
                  then set_bytes s (nAllocBytes s - nOldSize)
                  else set_bytes s 0 in
        let m := match p with Some a => delete a (blocks s1) | None => blocks s1 end in
        (Ptr pNew,
         th8AccountAlloc (set_blocks s1 (<[pNew := usable]> m))
           (if hasMemorySize then usable else nByte))
    | None => (Null bPanic, s)
    end.

(** th8MemNeedMemory: clearing the cache frees the blocks [victims], then
    the request is retried once through the same core. *)
Definition th8MemNeedMemory (victims : list Z) (reply : option (Z * Z)) (s : Th8_Mem)
    (nByte : Z) (bPanic : bool) : alloc_out * Th8_Mem :=
  th8MallocCommon reply (fold_left (λ s p, Th8_Free s (Some p)) victims s) nByte bPanic.

(** [retry] is [None] when the platform has no [xNeedMemory]. *)
Definition Th8_SafeAlloc (reply : option (Z * Z))
    (retry : option (list Z * option (Z * Z))) (s : Th8_Mem) (nByte : Z)
    : alloc_out * Th8_Mem :=
  if (nByte =? 0) || (TH8_MX_ALLOC <? nByte) then (Null false, s)
  else
    match th8MallocCommon reply s nByte false, retry with
    | (Null _, s'), Some (victims, reply') =>
        th8MemNeedMemory victims reply' s' nByte false
    | r, _ => r
    end.

Section sized.
Context (reply : option (Z * Z)) (retry : option (list Z * option (Z * Z))).
Context (s : Th8_Mem).

(** Allocate a checked size, or return NULL when its computation overflows. *)
Definition alloc_checked (n : option Z) : alloc_out * Th8_Mem :=
  match n with
  | Some nByte => Th8_SafeAlloc reply retry s nByte
  | None => (Null false, s)
  end.

Definition Th8_SafeAllocStr (nLen : Z) := alloc_checked (add_size nLen 1).
Definition Th8_SafeAllocMul (a b : Z) := alloc_checked (mul_size a b).
Definition Th8_SafeAllocAdd (a b : Z) := alloc_checked (add_size a b).
Definition Th8_SafeAllocMulAdd (a b c : Z) :=
  alloc_checked (nProduct ← mul_size a b; add_size nProduct c).
Definition Th8_SafeAllocStrAdd (k n : Z) :=
  alloc_checked (nSum ← add_size k n; add_size nSum 1).
Definition Th8_SafeAllocStrMul (n sz : Z) :=
  alloc_checked (nProduct ← mul_size n sz; add_size nProduct sz).
Definition Th8_SafeAllocMulAdd2 (a b c d e : Z) :=
  alloc_checked
    (t1 ← mul_size a b; t2 ← mul_size c d; t3 ← add_size t1 t2; add_size t3 e).

(** Resizing, with the panicking and the attempting core. *)
Definition Th8_SafeRealloc (p : option Z) (nByte : Z) : alloc_out * Th8_Mem :=
  if (nByte =? 0) || (TH8_MX_ALLOC <? nByte) then (Null false, s)
  else th8ReallocCommon reply s p nByte true.
Definition Th8_SafeAttemptRealloc (p : option Z) (nByte : Z) : alloc_out * Th8_Mem :=
  if (nByte =? 0) || (TH8_MX_ALLOC <? nByte) then (Null false, s)
  else th8ReallocCommon reply s p nByte false.
End sized.
End operations.

(** The memory state of a fresh interpreter with the given limit. *)
Definition mem_init (limit : Z) : Th8_Mem := mkMem 0 0 limit ∅.

(** ** Facts *)

Lemma TH8_LEN_range n : 0 <= TH8_LEN n <= TH8_LEN_MASK.
Proof.
  unfold TH8_LEN, TH8_LEN_MASK. change 0x0fffffff with (Z.ones 28).
  rewrite Z.land_ones by lia. pose proof (Z.mod_pos_bound n (2 ^ 28) ltac:(lia)).
  change (Z.ones 28) with (2 ^ 28 - 1). lia.
Qed.

Lemma mul_size_spec a b n :
  0 <= a → 0 <= b → mul_size a b = Some n ↔ n = a * b ∧ a * b <= SIZE_MAX.
Proof.
  intros Ha Hb. unfold mul_size, TH8_SAFE_MUL_SIZE.
  assert (0 <= SIZE_MAX) by (unfold SIZE_MAX; lia).
  destruct (b =? 0) eqn:E; simpl; bool_to_prop; [subst|].
  { rewrite Z.mul_0_r. split; [intros [= <-]; lia|by intros [-> _]]. }
  destruct (SIZE_MAX / b <? a) eqn:E2; bool_to_prop.
  - split; [done|]. intros [_ H2]. exfalso.
    assert (a <= SIZE_MAX / b) by (apply Z.div_le_lower_bound; lia). lia.
  - assert (a * b <= SIZE_MAX).
    { pose proof (Z.mul_div_le SIZE_MAX b ltac:(lia)). nia. }
    split; [intros [= <-]; lia|by intros [-> _]].
Qed.

Lemma add_size_spec a b n :
  add_size a b = Some n ↔ n = a + b ∧ a + b <= SIZE_MAX.
Proof.
  unfold add_size, TH8_SAFE_ADD_SIZE.
  destruct (SIZE_MAX - b <? a) eqn:E; bool_to_prop.
  - split; [done|lia].
  - split; [intros [= <-]; lia|by intros [-> _]].
Qed.

Definition total (m : gmap Z Z) : Z := map_fold (λ _ u acc, u + acc) 0 m.

Lemma total_empty : total ∅ = 0.
Proof. apply map_fold_empty. Qed.

Lemma total_insert m p u : m !! p = None → total (<[p := u]> m) = u + total m.
Proof.
  intros H. unfold total.
  rewrite (map_fold_insert_L (λ _ u acc, u + acc)); [done|intros; lia|done].
Qed.

Lemma total_delete m p u : m !! p = Some u → total m = u + total (delete p m).
Proof.
  intros H. rewrite <- (insert_delete_id m p u H) at 1.
  by rewrite total_insert by apply lookup_delete_eq.
Qed.

Lemma total_nonneg m : map_Forall (λ _ u, 0 <= u) m → 0 <= total m.
Proof.
  induction m as [|p u m Hp IH] using map_ind; [by rewrite total_empty|].
  rewrite map_Forall_insert by done. intros [Hu Hm]. rewrite total_insert by done.
  specialize (IH Hm). lia.
Qed.

Lemma total_lookup_le m p u :
  map_Forall (λ _ u, 0 <= u) m → m !! p = Some u → 0 <= u <= total m.
Proof.
  intros Hm Hp. rewrite (total_delete m p u Hp). pose proof (Hm p u Hp). simpl in *.
  assert (0 <= total (delete p m)) by (apply total_nonneg, map_Forall_delete; done). lia.
Qed.

(** The platform's contract for a reply to a request of [nByte] bytes while
    the blocks [m] stay live: a fresh address, a usable size that covers the
    request with at most [slack] bytes of rounding, everything within the
    address space. *)
Definition honest (slack : Z) (m : gmap Z Z) (nByte : Z) (reply : option (Z * Z)) : Prop :=
  match reply with
  | None => True
  | Some (p, u) => m !! p = None ∧ nByte <= u <= nByte + slack ∧ total m + u <= SIZE_MAX
  end.

Definition live (s : Th8_Mem) (p : option Z) : Prop :=
  match p with None => True | Some a => is_Some (blocks s !! a) end.

Definition others (s : Th8_Mem) (p : option Z) : gmap Z Z :=
  match p with None => blocks s | Some a => delete a (blocks s) end.

Definition usable_of (s : Th8_Mem) (p : option Z) : Z :=
  match p with None => 0 | Some a => xMemorySize s a end.

(** One operation of the interpreter on its memory, with an honest platform
    that provides [xMemorySize] and whose [xRealloc] does not enlarge a block
    asked to keep or shrink. *)
Inductive mem_step (slack : Z) (s : Th8_Mem) : Th8_Mem → Prop :=
| step_malloc reply nByte bPanic :
    0 <= nByte → honest slack (blocks s) nByte reply →
    mem_step slack s (snd (th8MallocCommon true reply s nByte bPanic))
| step_free p :
    live s p → mem_step slack s (Th8_Free true s p)
| step_realloc reply p nByte bPanic :
    0 <= nByte → live s p → honest slack (others s p) nByte reply →
    (nByte <= usable_of s p → ∀ q u, reply = Some (q, u) → u <= usable_of s p) →
    mem_step slack s (snd (th8ReallocCommon true reply s p nByte bPanic)).

Definition mem_reach (slack : Z) := rtc (mem_step slack).

Record mem_ok (slack : Z) (s : Th8_Mem) : Prop := {
  ok_sizes : map_Forall (λ _ u, 0 <= u) (blocks s);
  ok_exact : nAllocBytes s = total (blocks s);
  ok_peak : nAllocBytes s <= nAllocPeak s;
  ok_limit : 0 < nAllocLimit s → nAllocBytes s <= nAllocLimit s + slack
}.

Lemma account_exact s n :
  nAllocBytes s + n <= SIZE_MAX →
  nAllocBytes (th8AccountAlloc s n) = nAllocBytes s + n ∧
  nAllocPeak s <= nAllocPeak (th8AccountAlloc s n) ∧
  nAllocBytes (th8AccountAlloc s n) <= nAllocPeak (th8AccountAlloc s n) ∧
  nAllocLimit (th8AccountAlloc s n) = nAllocLimit s ∧
  blocks (th8AccountAlloc s n) = blocks s.
Proof.
  intros H. unfold th8AccountAlloc, TH8_SAFE_ADD_SIZE.
  destruct (SIZE_MAX - n <? nAllocBytes s) eqn:E; bool_to_prop; [lia|]. simpl.
  destruct (nAllocPeak s <? nAllocBytes s + n) eqn:E2; bool_to_prop; split_and!; try done; lia.
Qed.

Lemma malloc_ok slack s reply nByte bPanic :
  0 <= slack → mem_ok slack s → 0 <= nByte → honest slack (blocks s) nByte reply →
  mem_ok slack (snd (th8MallocCommon true reply s nByte bPanic)).
Proof.
  intros Hsl [Hs He Hp Hl] Hn Hh. unfold th8MallocCommon.
  destruct (over_limit s nByte) eqn:Eo; [done|].
  destruct reply as [[p u]|]; [|done]. destruct Hh as (Hf & Hu & Ht). simpl.
  destruct (account_exact (set_blocks s (<[p:=u]> (blocks s))) u) as (H1 & H2 & H3 & H4 & H5);
    [simpl; lia|]. simpl in *.
  split; rewrite ?H5, ?H1, ?H4.
  - apply map_Forall_insert; [done|]. split; [lia|done].
  - rewrite total_insert by done. lia.
  - lia.
  - intros Hlim. unfold over_limit in Eo. apply andb_false_iff in Eo as [Eo|Eo]; bool_to_prop; lia.
Qed.

Lemma free_ok slack s p : mem_ok slack s → live s p → mem_ok slack (Th8_Free true s p).
Proof.
  intros [Hs He Hp Hl] Hlive. destruct p as [a|]; [|by split].
  destruct Hlive as [u Hu]. unfold Th8_Free, xMemorySize. rewrite Hu. simpl.
  pose proof (total_lookup_le _ _ _ Hs Hu) as Hle. pose proof (total_delete _ _ _ Hu) as Ht.
  destruct (u <=? nAllocBytes s) eqn:E; bool_to_prop; [|lia].
  split; simpl; [by apply map_Forall_delete|lia..].
Qed.

Lemma realloc_ok_step slack s reply p nByte bPanic :
  0 <= slack → mem_ok slack s → 0 <= nByte → live s p → honest slack (others s p) nByte reply →
  (nByte <= usable_of s p → ∀ q u, reply = Some (q, u) → u <= usable_of s p) →
  mem_ok slack (snd (th8ReallocCommon true reply s p nByte bPanic)).
Proof.
  intros Hsl [Hs He Hp Hl] Hn Hlive Hh Hshrink. unfold th8ReallocCommon.
  assert (Hold : match p with Some a => xMemorySize s a | None => 0 end = usable_of s p)
    by done.
  rewrite Hold. set (old := usable_of s p) in *.
  assert (Hoth : 0 <= old <= total (blocks s) ∧ total (blocks s) = old + total (others s p) ∧
    map_Forall (λ _ u, 0 <= u) (others s p)).
  { subst old. destruct p as [a|]; simpl; [|pose proof (total_nonneg _ Hs); split_and!; try done; lia].
    destruct Hlive as [u Hu]. unfold xMemorySize. rewrite Hu. simpl.
    pose proof (total_lookup_le _ _ _ Hs Hu). pose proof (total_delete _ _ _ Hu).
    split_and!; try lia. by apply map_Forall_delete. }
  destruct Hoth as (Hb & Hsum & Hos).
  destruct ((old <? nByte) && over_limit s (nByte - old)) eqn:Eo; [done|].
  destruct reply as [[q u]|]; [|done]. destruct Hh as (Hf & Hu & Ht). simpl.
  destruct (old <=? nAllocBytes s) eqn:E; bool_to_prop; [|lia]. simpl.
  replace (match p with Some a => delete a (blocks s) | None => blocks s end)
    with (others s p) by done.
  destruct (account_exact (set_blocks (set_bytes s (nAllocBytes s - old)) (<[q:=u]> (others s p))) u)
    as (H1 & H2 & H3 & H4 & H5); [simpl; lia|]. simpl in *.
  split; rewrite ?H5, ?H1, ?H4.
  - apply map_Forall_insert; [done|]. split; [lia|done].
  - rewrite total_insert by done. lia.
  - lia.
  - intros Hlim. specialize (Hl Hlim). unfold over_limit in Eo.
    apply andb_false_iff in Eo as [Eo|Eo]; bool_to_prop.
    + specialize (Hshrink Eo q u eq_refl). lia.
    + apply andb_false_iff in Eo as [Eo|Eo]; bool_to_prop; lia.
Qed.

Lemma mem_step_ok slack s s' : 0 <= slack → mem_ok slack s → mem_step slack s s' → mem_ok slack s'.
Proof. destruct 3; eauto using malloc_ok, free_ok, realloc_ok_step. Qed.

(** ** Properties *)

(** C39.  Exact accounting and soundness of the memory limit: starting from a
    fresh interpreter, after any sequence of allocations, reallocations and
    frees against an honest platform, the byte counter equals the usable bytes
    of the live blocks, the peak is at least the counter, and with a limit set
    the counter exceeds it by at most one allocation's rounding. *)
Theorem mem_accounting_sound (slack limit : Z) (s : Th8_Mem)
  (Hslack : 0 <= slack) (Hlimit : 0 <= limit) (Hreach : mem_reach slack (mem_init limit) s) :
  nAllocBytes s = total (blocks s) ∧
  nAllocBytes s <= nAllocPeak s ∧
  (0 < limit → nAllocBytes s <= limit + slack).
Proof.
  assert (mem_ok slack s ∧ nAllocLimit s = limit) as [[]].
  2: split_and!; [done..|]; intros; subst; auto.
  revert Hreach. generalize (eq_refl limit : nAllocLimit (mem_init limit) = limit).
  assert (Hi : mem_ok slack (mem_init limit)).
  { split; simpl; [apply map_Forall_empty|by rewrite total_empty|lia|lia]. }
  revert Hi. generalize (mem_init limit). intros s0 Hok Hl Hreach. revert Hok Hl.
  induction Hreach as [|s0 s1 s2 Hstep _ IH]; [done|]. intros Hok Hl.
  apply IH; [by eapply mem_step_ok|]. rewrite <- Hl.
  destruct Hstep; unfold th8MallocCommon, Th8_Free, th8ReallocCommon, th8AccountAlloc,
    TH8_SAFE_ADD_SIZE; repeat (case_match; simpl; try done).
Qed.

Definition mem_after_malloc : Th8_Mem :=
  snd (th8MallocCommon true (Some (4096, 32)) (mem_init 100) 24 false).

Lemma mem_accounting_sound_witness :
  nAllocBytes mem_after_malloc = total (blocks mem_after_malloc) ∧
  nAllocBytes mem_after_malloc <= nAllocPeak mem_after_malloc ∧
  (0 < 100 → nAllocBytes mem_after_malloc <= 100 + 16).
Proof.
  apply (mem_accounting_sound 16 100); [lia..|].
  apply rtc_once. apply step_malloc; [lia|]. split_and!; [reflexivity|lia|lia|].
  vm_compute. discriminate.
Defined.

Lemma account_blocks s n : blocks (th8AccountAlloc s n) = blocks s.
Proof. unfold th8AccountAlloc, TH8_SAFE_ADD_SIZE. by case_if. Qed.

Lemma malloc_ptr hasMs reply s nByte bPanic p s' :
  th8MallocCommon hasMs reply s nByte bPanic = (Ptr p, s') →
  ∃ u, reply = Some (p, u) ∧ blocks s' !! p = Some u.
Proof.
  unfold th8MallocCommon. case_if; [done|]. destruct reply as [[q u]|]; [|done].
  intros [= <- <-]. exists u; split; [done|]. rewrite account_blocks; simpl.
  apply lookup_insert_eq.
Qed.

Lemma malloc_null_state hasMs reply s nByte bPanic b s' :
  th8MallocCommon hasMs reply s nByte bPanic = (Null b, s') → s' = s ∧ b = bPanic.
Proof. unfold th8MallocCommon. case_if; [by intros [= <- <-]|]. destruct reply as [[q u]|]; by intros [= <- <-]. Qed.

Lemma SafeAlloc_ptr hasMs reply retry s nByte p s' :
  Th8_SafeAlloc hasMs reply retry s nByte = (Ptr p, s') →
  nByte ≠ 0 ∧ nByte <= TH8_MX_ALLOC ∧
  ∃ u, blocks s' !! p = Some u ∧
    (reply = Some (p, u) ∨ ∃ victims, retry = Some (victims, Some (p, u))).
Proof.
  unfold Th8_SafeAlloc. case_if; [done|]. bool_to_prop.
  destruct (th8MallocCommon hasMs reply s nByte false) as [[q|b] s1] eqn:E.
  - intros [= <- <-]. apply malloc_ptr in E as (u & ? & ?); eauto 7.
  - destruct retry as [[victims reply']|]; [|done].
    intros (u & ? & ?)%malloc_ptr; subst; eauto 7.
Qed.

(** No allocation helper under-allocates: the block returned for
    [a*b + c*d + e] bytes covers the exact product sum, which is positive and
    within TH8_MX_ALLOC; when the exact value is zero, exceeds TH8_MX_ALLOC or
    does not fit size_t, the result is NULL and the accounting is untouched. *)
Theorem Th8_SafeAllocMulAdd2_covers (hasMs : bool) (reply : option (Z * Z))
  (retry : option (list Z * option (Z * Z))) (s : Th8_Mem) (a b c d e : Z)
  (Hpos : 0 <= a ∧ 0 <= b ∧ 0 <= c ∧ 0 <= d ∧ 0 <= e)
  (Hreply : ∀ p u, reply = Some (p, u) → a * b + c * d + e <= u)
  (Hretry : ∀ v p u, retry = Some (v, Some (p, u)) → a * b + c * d + e <= u) :
  let size := a * b + c * d + e in
  (∀ p s', Th8_SafeAllocMulAdd2 hasMs reply retry s a b c d e = (Ptr p, s') →
     0 < size <= TH8_MX_ALLOC ∧ ∃ u, blocks s' !! p = Some u ∧ size <= u) ∧
  (size = 0 ∨ TH8_MX_ALLOC < size →
     Th8_SafeAllocMulAdd2 hasMs reply retry s a b c d e = (Null false, s)).
Proof.
  destruct Hpos as (Ha & Hb & Hc & Hd & He). cbv zeta.
  unfold Th8_SafeAllocMulAdd2. simpl.
  assert (H1 := λ n, mul_size_spec a b n Ha Hb). assert (H2 := λ n, mul_size_spec c d n Hc Hd).
  assert (0 <= a * b) by nia. assert (0 <= c * d) by nia.
  destruct (mul_size a b) as [t1|]; simpl;
    [destruct (proj1 (H1 t1) eq_refl) as [-> _]|done].
  destruct (mul_size c d) as [t2|]; simpl;
    [destruct (proj1 (H2 t2) eq_refl) as [-> _]|done].
  assert (H3 := add_size_spec (a * b) (c * d)).
  destruct (add_size (a * b) (c * d)) as [t3|]; simpl;
    [destruct (proj1 (H3 t3) eq_refl) as [-> _]|done].
  assert (H4 := add_size_spec (a * b + c * d) e).
  destruct (add_size (a * b + c * d) e) as [n|]; simpl;
    [destruct (proj1 (H4 n) eq_refl) as [-> _]|done].
  split.
  - intros p s' (Hnz & Hmx & u & Hu & Hr)%SafeAlloc_ptr. split; [lia|].
    exists u; split; [done|]. destruct Hr as [Hr|[v Hr]]; eauto.
  - intros Hz. unfold Th8_SafeAlloc.
    destruct Hz as [Hz|Hz]; [by rewrite Hz|].
    by rewrite (proj2 (Z.ltb_lt _ _) Hz), orb_true_r.
Qed.

Definition alloc_42 : alloc_out * Th8_Mem :=
  Th8_SafeAllocMulAdd2 true (Some (64, 48)) None (mem_init 0) 2 8 2 8 10.

Lemma Th8_SafeAllocMulAdd2_covers_witness :
  0 < 42 <= TH8_MX_ALLOC ∧ ∃ u, blocks (snd alloc_42) !! 64 = Some u ∧ 42 <= u.
Proof.
  apply (Th8_SafeAllocMulAdd2_covers true (Some (64, 48)) None (mem_init 0) 2 8 2 8 10);
    [lia|intros p u [= _ <-]; lia|discriminate|reflexivity].
Defined.

(** The saturated counter is not permanent: after an allocation whose
    reported usable size overflows the counter, freeing that same block puts
    the counter at zero although the older blocks are still live. *)
Theorem poison_not_permanent (s : Th8_Mem) (nByte p : Z)
  (Hfresh : blocks s !! p = None) (Hlim : over_limit s nByte = false)
  (Hbytes : 0 < nAllocBytes s) :
  let s1 := snd (th8MallocCommon true (Some (p, SIZE_MAX)) s nByte false) in
  nAllocBytes s1 = SIZE_MAX ∧
  nAllocBytes (Th8_Free true s1 (Some p)) = 0 ∧
  blocks (Th8_Free true s1 (Some p)) = blocks s.
Proof.
  cbv zeta. unfold th8MallocCommon. rewrite Hlim. simpl snd.
  assert (Hover : (SIZE_MAX - SIZE_MAX <? nAllocBytes s) = true) by (apply Z.ltb_lt; lia).
  unfold Th8_Free, xMemorySize. rewrite account_blocks. simpl blocks.
  rewrite lookup_insert_eq. simpl default.
  unfold th8AccountAlloc, TH8_SAFE_ADD_SIZE; simpl nAllocBytes. rewrite Hover. simpl.
  split; [done|]. split; [done|]. by rewrite delete_insert_id.
Qed.

Lemma poison_not_permanent_witness :
  nAllocBytes (Th8_Free true (snd (th8MallocCommon true (Some (1, SIZE_MAX))
    mem_after_malloc 8 false)) (Some 1)) = 0.
Proof.
  apply (poison_not_permanent mem_after_malloc 8 1); reflexivity.
Defined.
