(* ===== verification/Strings.v ===== *)
(** * Strings: appending to a string of the interpreter (Th8_StringAppend and
    th8CheckResultSize of src/src/th8_core.c, TH8_SIZECHECK of src/src/th8.h,
    TH8_STR_APPEND of src/src/th8_int.h).

    A string with its tagged length is a pair; a NULL string has length 0.  The
    buffer pool, the panic callback and the results are the interpreter's. *)

From S2P Require Import Prelude Memory.
#[local] Open Scope Z_scope.

Class StringInterp (I : Type) : Type := {
  th8OversizeString : I → I;              (* the panic callback, which may return *)
  nResultLimit : I → Z;
  th8BufferAlloc : I → Z → bool * I;      (* false: no memory *)
  set_limit_exceeded : I → I;             (* result size limit exceeded *)
  set_append_failed : I → I               (* out of memory, and bResultBuildFailed *)
}.

Section strings.
Context {I : Type} `{StI : StringInterp I}.

Definition TH8_SIZECHECK (i : I) (n : Z) : I := if TH8_MX_STRLEN <? n then th8OversizeString i else i.

Definition th8CheckResultSize (i : I) (n : Z) : Z * I :=
  let nLimit := if nResultLimit i =? 0 then TH8_MX_STRLEN else nResultLimit i in
  if nLimit <? n then (TH8_ERROR, set_limit_exceeded i) else (TH8_OK, i).

(** On failure the string is left as it was. *)
Definition Th8_StringAppend (i : I) (str app : bytes * Z) : option (bytes * Z) * I :=
  let nTag := Z.lor (Z.land (snd str) TH8_TAG_BITS) (Z.land (snd app) TH8_TAG_BITS) in
  let nNew := TH8_LEN (snd str) + TH8_LEN (snd app) in
  let '(rc, i) := th8CheckResultSize (TH8_SIZECHECK i nNew) nNew in
  if negb (rc =? TH8_OK) then (None, i)
  else
    let '(ok, i) := th8BufferAlloc i (nNew + 1) in
    if ok then (Some (fst str ++ fst app, Z.lor nNew nTag), i) else (None, set_append_failed i).

(** A sequence of TH8_STR_APPEND, up to the first that fails. *)
Fixpoint append_all (i : I) (str : bytes * Z) (apps : list (bytes * Z)) : option (bytes * Z) * I :=
  match apps with
  | [] => (Some str, i)
  | app :: apps =>
      let '(s, i) := Th8_StringAppend i str app in
      match s with Some s => append_all i s apps | None => (None, i) end
  end.
End strings.

(** ** Tagged lengths *)

(** The tag bits of a length. *)
Definition tag_of (n : Z) : Z := Z.land n TH8_TAG_BITS.

Lemma len_mask_mod n : TH8_LEN n = n mod 2 ^ 28.
Proof. unfold TH8_LEN. change TH8_LEN_MASK with (2 ^ 28 - 1). by apply land_ones_mod. Qed.

Lemma TH8_LEN_small n : 0 <= n <= TH8_LEN_MASK → TH8_LEN n = n.
Proof. intros Hn. rewrite len_mask_mod. apply Z.mod_small. change (2 ^ 28) with (TH8_LEN_MASK + 1). lia. Qed.

Lemma tag_of_small n : 0 <= n <= TH8_LEN_MASK → tag_of n = 0.
Proof.
  intros Hn. unfold tag_of. rewrite <- (TH8_LEN_small n) by done. unfold TH8_LEN.
  rewrite <- Z.land_assoc. change (Z.land TH8_LEN_MASK TH8_TAG_BITS) with 0. apply Z.land_0_r.
Qed.

Lemma tag_of_idem n : tag_of (tag_of n) = tag_of n.
Proof. unfold tag_of. by rewrite <- Z.land_assoc, Z.land_diag. Qed.

Lemma tag_of_lor a b : tag_of (Z.lor a b) = Z.lor (tag_of a) (tag_of b).
Proof. apply Z.land_lor_distr_l. Qed.

Lemma LEN_tag_of n : TH8_LEN (tag_of n) = 0.
Proof.
  unfold TH8_LEN, tag_of. rewrite <- Z.land_assoc.
  change (Z.land TH8_TAG_BITS TH8_LEN_MASK) with 0. apply Z.land_0_r.
Qed.

Lemma LEN_lor a b : TH8_LEN (Z.lor a b) = Z.lor (TH8_LEN a) (TH8_LEN b).
Proof. apply Z.land_lor_distr_l. Qed.

(** A length with tags is read back, and so are its tags. *)
Lemma LEN_with_tag n t : 0 <= n <= TH8_LEN_MASK → TH8_LEN (Z.lor n (tag_of t)) = n.
Proof. intros Hn. by rewrite LEN_lor, LEN_tag_of, Z.lor_0_r, TH8_LEN_small. Qed.

Lemma tag_with_tag n t : 0 <= n <= TH8_LEN_MASK → tag_of (Z.lor n (tag_of t)) = tag_of t.
Proof. intros Hn. by rewrite tag_of_lor, tag_of_idem, tag_of_small. Qed.

Section append.
Context {I : Type} `{StI : StringInterp I}.

(** The buffer pool has memory, and the limit is that of every string. *)
Definition unlimited : Prop :=
  (∀ i n, fst (th8BufferAlloc i n) = true) ∧ (∀ i, nResultLimit i = 0).

(** An append that fits joins the bytes and the tags. *)
Lemma StringAppend_fits (i : I) z n z' n' : unlimited →
  TH8_LEN n = zlen z → TH8_LEN n' = zlen z' → zlen z + zlen z' <= TH8_MX_STRLEN →
  ∃ i', Th8_StringAppend i (z, n) (z', n') =
    (Some (z ++ z', Z.lor (zlen z + zlen z') (Z.lor (tag_of n) (tag_of n'))), i').
Proof.
  intros [Ha Hl] Hn Hn' Hfit. unfold Th8_StringAppend, TH8_SIZECHECK, th8CheckResultSize.
  cbn [fst snd]. rewrite Hn, Hn', (proj2 (Z.ltb_ge TH8_MX_STRLEN _)), Hl by done. cbn [Z.eqb].
  rewrite (proj2 (Z.ltb_ge TH8_MX_STRLEN _)) by done. cbn [negb Z.eqb TH8_OK].
  specialize (Ha i (zlen z + zlen z' + 1)). destruct (th8BufferAlloc _ _) as [ok i']. simpl in Ha. subst ok.
  by eexists.
Qed.
End append.
