(* ===== verification/Buffer.v ===== *)
(** * Buffer: the growable output buffer (th8BufInit, th8BufFree, th8BufWrite
    and th8BufAddChar of src/src/th8_core.c).

    A buffer collects the bytes of a result and, in [nTag], the tag bits
    (taint, sensitivity) of everything written to it.  A write that cannot be
    completed sets the sticky [bFail], after which the contents stop growing.
    The interface [Sink] is what the substitution engine asks of an output; the
    buffer implements it, and so does the plain list of the pieces written,
    which is the buffer's specification. *)

From S2P Require Import Prelude Memory.

Record Th8_Buffer : Type := mkBuffer {
  zBuf : bytes;          (* the nBuf bytes in use *)
  nAlloc : Z;            (* 0 when zBuf is NULL *)
  nTag : Z;
  bFail : bool
}.

Definition nBuf (b : Th8_Buffer) : Z := zlen (zBuf b).

Definition th8BufInit : Th8_Buffer := mkBuffer [] 0 0 false.

(** Releasing the storage: the fields return to the empty state; the flag says
    whether the bytes were securely zeroed first. *)
Definition th8BufFree (b : Th8_Buffer) : bool * Th8_Buffer :=
  (negb (nAlloc b =? 0) && TH8_SENSITIVE (nTag b), th8BufInit).

(** An output to which the substitution engine writes [n] bytes of [z], the
    count [n] carrying tag bits. *)
Class Sink (B : Type) : Type := sink_write : B → bytes → Z → B.

Definition sink_char `{Sink B} (b : B) (c : Z) : B := sink_write b [c] 1.

Section buffer.
(** Whether th8BufferAlloc grants the given size.  One buffer asks for
    strictly growing sizes, so a function of the size is general. *)
Context (alloc_ok : Z → bool).

Definition fail (b : Th8_Buffer) (tag : Z) : Th8_Buffer :=
  mkBuffer (zBuf b) (nAlloc b) tag true.

(** The new capacity, or [None] on an overflow or over-limit branch. *)
Definition grown_size (b : Th8_Buffer) (n : Z) : option Z :=
  nSum ← add_size (nBuf b) n;
  nDbl ← mul_size nSum 2;
  nNew ← add_size nDbl 32;
  if TH8_MX_STRLEN <? nNew then None else Some nNew.

Definition th8BufWrite (b : Th8_Buffer) (z : bytes) (n : Z) : Th8_Buffer :=
  let tag := Z.lor (nTag b) (Z.land n TH8_TAG_BITS) in
  let n := TH8_LEN n in
  if bFail b then mkBuffer (zBuf b) (nAlloc b) tag true
  else if n =? 0 then mkBuffer (zBuf b) (nAlloc b) tag false
  else
    let store cap := mkBuffer (zBuf b ++ take (Z.to_nat n) z) cap tag false in
    if nAlloc b - nBuf b <? n then
      match grown_size b n with
      | None => fail b tag
      | Some nNew => if alloc_ok nNew then store nNew else fail b tag
      end
    else store (nAlloc b).

Definition th8BufAddChar (b : Th8_Buffer) (c : Z) : Th8_Buffer := th8BufWrite b [c] 1.

#[export] Instance buffer_sink : Sink Th8_Buffer := th8BufWrite.
End buffer.

(** ** The specification: the list of pieces written, last first *)

Definition piece : Type := bytes * Z.
#[export] Instance pieces_sink : Sink (list piece) := λ ps z n, (z, n) :: ps.

Definition pieces_bytes (ps : list piece) : bytes :=
  concat (rev (map (λ p, take (Z.to_nat (TH8_LEN (snd p))) (fst p)) ps)).
Definition pieces_tag (ps : list piece) : Z :=
  fold_right (λ p t, Z.lor t (Z.land (snd p) TH8_TAG_BITS)) 0 ps.

Definition pieces_size (ps : list piece) : Z :=
  fold_right (λ p t, t + TH8_LEN (snd p)) 0 ps.

(** The bytes in use fit the storage, which stays below TH8_MX_STRLEN. *)
Record buf_ok (b : Th8_Buffer) : Prop := {
  buf_fits : nBuf b <= nAlloc b;
  buf_max : 0 <= nAlloc b <= TH8_MX_STRLEN
}.

(** The buffer against the pieces written to it.  A failure has a cause: the
    allocator refused, or the pieces are too large to hold. *)
Record buf_rel (alloc_ok : Z → bool) (b : Th8_Buffer) (ps : list piece) : Prop := {
  rel_ok : buf_ok b;
  rel_tag : nTag b = pieces_tag ps;
  rel_size : nBuf b <= pieces_size ps;
  rel_prefix : zBuf b `prefix_of` pieces_bytes ps;
  rel_bytes : bFail b = false → zBuf b = pieces_bytes ps;
  rel_cause : bFail b = true →
    (∃ n, alloc_ok n = false) ∨ TH8_MX_STRLEN < 2 * pieces_size ps + 32
}.

Lemma buf_rel_init alloc_ok : buf_rel alloc_ok th8BufInit [].
Proof. split; done. Qed.

Lemma pieces_bytes_cons z n ps :
  pieces_bytes ((z, n) :: ps) = pieces_bytes ps ++ take (Z.to_nat (TH8_LEN n)) z.
Proof. unfold pieces_bytes. simpl. by rewrite concat_app, concat_cons, app_nil_r. Qed.

Lemma store_ok b z n cap :
  nBuf b + n <= cap <= TH8_MX_STRLEN → 0 <= n → 0 <= nBuf b →
  ∀ tag, buf_ok (mkBuffer (zBuf b ++ take (Z.to_nat n) z) cap tag false).
Proof.
  intros Hc Hn Hb tag. split; unfold nBuf; simpl; rewrite ?zlen_app; unfold nBuf, zlen in *;
    rewrite ?length_take; lia.
Qed.

Lemma grown_size_ge b n nNew :
  0 <= nBuf b → 0 <= n → grown_size b n = Some nNew → nBuf b + n <= nNew <= TH8_MX_STRLEN.
Proof.
  intros Hb Hn. unfold grown_size. simpl.
  destruct (add_size (nBuf b) n) as [n1|] eqn:E1; simpl; [|done].
  apply add_size_spec in E1 as [-> ?].
  destruct (mul_size (nBuf b + n) 2) as [n2|] eqn:E2; simpl; [|done].
  apply mul_size_spec in E2 as [-> ?]; [|lia..].
  destruct (add_size ((nBuf b + n) * 2) 32) as [n3|] eqn:E3; simpl; [|done].
  apply add_size_spec in E3 as [-> ?].
  case_if; [done|]. intros [= <-]. bool_to_prop. lia.
Qed.

Lemma grown_size_none b n :
  0 <= nBuf b → 0 <= n → grown_size b n = None → TH8_MX_STRLEN < 2 * (nBuf b + n) + 32.
Proof.
  intros Hb Hn. unfold grown_size. simpl.
  assert (TH8_MX_STRLEN < SIZE_MAX) by (vm_compute; done).
  assert (H1 := add_size_spec (nBuf b) n).
  destruct (add_size (nBuf b) n) as [n1|]; simpl.
  2: { intros _. destruct (Z.le_gt_cases (nBuf b + n) SIZE_MAX) as [Hle|]; [|lia].
       discriminate (proj2 (H1 _) (conj eq_refl Hle)). }
  destruct (proj1 (H1 n1) eq_refl) as [-> _].
  assert (H2 := λ k, mul_size_spec (nBuf b + n) 2 k ltac:(lia) ltac:(lia)).
  destruct (mul_size (nBuf b + n) 2) as [n2|]; simpl.
  2: { intros _. destruct (Z.le_gt_cases ((nBuf b + n) * 2) SIZE_MAX) as [Hle|]; [|lia].
       discriminate (proj2 (H2 _) (conj eq_refl Hle)). }
  destruct (proj1 (H2 n2) eq_refl) as [-> _].
  assert (H3 := add_size_spec ((nBuf b + n) * 2) 32).
  destruct (add_size ((nBuf b + n) * 2) 32) as [n3|]; simpl.
  2: { intros _. destruct (Z.le_gt_cases ((nBuf b + n) * 2 + 32) SIZE_MAX) as [Hle|]; [|lia].
       discriminate (proj2 (H3 _) (conj eq_refl Hle)). }
  destruct (proj1 (H3 n3) eq_refl) as [-> _].
  case_if; [bool_to_prop; lia|done].
Qed.

Section writes.
Context (alloc_ok : Z → bool).

Lemma buf_rel_failed b z n ps :
  buf_rel alloc_ok b ps →
  bFail b = true ∨ (∃ k, alloc_ok k = false) ∨ TH8_MX_STRLEN < 2 * (nBuf b + TH8_LEN n) + 32 →
  buf_rel alloc_ok (fail b (Z.lor (nTag b) (Z.land n TH8_TAG_BITS))) ((z, n) :: ps).
Proof.
  intros [[Hfit Hmax] Htag Hsz Hpre Hb Hc] Hcause. pose proof (TH8_LEN_range n).
  split; try done.
  - simpl; by rewrite Htag.
  - simpl; unfold nBuf in *; simpl; lia.
  - rewrite pieces_bytes_cons. by apply prefix_app_r.
  - intros _. simpl. destruct Hcause as [Hf|[Hk|Hm]]; [|by left|right; lia].
    destruct (Hc Hf); [by left|right; lia].
Qed.

Lemma buf_rel_stored b z n ps cap :
  buf_rel alloc_ok b ps → bFail b = false → nBuf b + TH8_LEN n <= cap <= TH8_MX_STRLEN →
  buf_rel alloc_ok (mkBuffer (zBuf b ++ take (Z.to_nat (TH8_LEN n)) z) cap
    (Z.lor (nTag b) (Z.land n TH8_TAG_BITS)) false) ((z, n) :: ps).
Proof.
  intros [_ Htag Hsz _ Hb _] Hf Hcap. pose proof (TH8_LEN_range n).
  split; try done; rewrite ?pieces_bytes_cons, <- ?(Hb Hf); try done.
  - apply store_ok; [done|lia|apply zlen_nonneg].
  - simpl; by rewrite Htag.
  - unfold nBuf in *; simpl. rewrite zlen_app. unfold zlen in *; rewrite length_take. lia.
Qed.

Lemma buf_rel_write b ps z n :
  buf_rel alloc_ok b ps → buf_rel alloc_ok (th8BufWrite alloc_ok b z n) ((z, n) :: ps).
Proof.
  intros Hrel. pose proof Hrel as [[Hfit Hmax] Htag Hsz Hpre Hbytes Hc].
  unfold th8BufWrite. cbv zeta.
  pose proof (TH8_LEN_range n) as Hn. pose proof (zlen_nonneg (zBuf b)) as Hz.
  fold (nBuf b) in Hz.
  destruct (bFail b) eqn:Ef; [apply buf_rel_failed; auto|].
  destruct (TH8_LEN n =? 0) eqn:E0; bool_to_prop.
  { split; try done; rewrite ?pieces_bytes_cons, ?E0, ?app_nil_r; auto.
    - simpl; by rewrite Htag.
    - simpl; unfold nBuf in *; simpl; lia. }
  case_if; bool_to_prop; [|apply buf_rel_stored; auto; lia].
  destruct (grown_size b (TH8_LEN n)) as [nNew|] eqn:Eg.
  - case_if; [|apply buf_rel_failed; eauto].
    apply buf_rel_stored; auto. apply (grown_size_ge b (TH8_LEN n)); auto; lia.
  - apply buf_rel_failed; auto. do 2 right. apply grown_size_none; auto; lia.
Qed.
End writes.

(** ** Properties *)

(** After any sequence of writes the buffer agrees with the list of the
    pieces written: it holds their concatenation, tag bits stripped from every
    count, unless a write failed, and its tag is the union of all their tags
    even then; after a failure, which needs a refused allocation or more than
    half of TH8_MX_STRLEN, it still holds a prefix of them.  The bytes always
    fit the storage, which never exceeds TH8_MX_STRLEN. *)
Theorem th8BufWrite_refines (alloc_ok : Z → bool) (ps : list piece) :
  let b := fold_left (λ b p, th8BufWrite alloc_ok b (fst p) (snd p)) ps th8BufInit in
  nTag b = pieces_tag (rev ps) ∧
  zBuf b `prefix_of` pieces_bytes (rev ps) ∧
  (bFail b = false → zBuf b = pieces_bytes (rev ps)) ∧
  (bFail b = true →
     (∃ n, alloc_ok n = false) ∨ TH8_MX_STRLEN < 2 * pieces_size (rev ps) + 32) ∧
  nBuf b <= nAlloc b <= TH8_MX_STRLEN.
Proof.
  cbv zeta.
  assert (H : ∀ b qs, buf_rel alloc_ok b qs → buf_rel alloc_ok
    (fold_left (λ b p, th8BufWrite alloc_ok b (fst p) (snd p)) ps b) (rev ps ++ qs)).
  { induction ps as [|[z n] ps IH]; intros b qs Hb; simpl; [done|].
    rewrite <- app_assoc. apply IH. by apply buf_rel_write. }
  destruct (H _ _ (buf_rel_init alloc_ok)) as [[? []] ? ? ? ? ?]. rewrite app_nil_r in *. auto 6.
Qed.
