(* ===== verification/Utf8.v ===== *)
(** * Utf8: UTF-8 decoding, encoding, indexing and validation
    (src/src/th8_core.c).

    [Th8_Utf8Decode] reads one code point leniently, [Th8_Utf8Encode] writes
    one; length, position and validation walk a buffer with the decoder. *)

From S2P Require Import Prelude.

(** The code point, or -1, and the byte count stored in [*pnByte] (of an empty
    input, which stores nothing, the count is 0 here). *)
Definition Th8_Utf8Decode (z : bytes) : Z * nat :=
  match z with
  | [] => (-1, 0%nat)
  | c :: z1 =>
      if c <? 0x80 then (c, 1%nat)
      else if (Z.land c 0xE0 =? 0xC0) && (2 <=? zlen z) then
        (Z.lor (Z.shiftl (Z.land c 0x1F) 6) (Z.land (nth 1 z 0) 0x3F), 2%nat)
      else if (Z.land c 0xF0 =? 0xE0) && (3 <=? zlen z) then
        (Z.lor (Z.lor (Z.shiftl (Z.land c 0x0F) 12)
                      (Z.shiftl (Z.land (nth 1 z 0) 0x3F) 6))
               (Z.land (nth 2 z 0) 0x3F), 3%nat)
      else if (Z.land c 0xF8 =? 0xF0) && (4 <=? zlen z) then
        (Z.lor (Z.lor (Z.lor (Z.shiftl (Z.land c 0x07) 18)
                             (Z.shiftl (Z.land (nth 1 z 0) 0x3F) 12))
                      (Z.shiftl (Z.land (nth 2 z 0) 0x3F) 6))
               (Z.land (nth 3 z 0) 0x3F), 4%nat)
      else (-1, 1%nat)
  end.

(** The bytes written to [z[]]; their number is the return value. *)
Definition Th8_Utf8Encode (codepoint : Z) : bytes :=
  if codepoint <? 0x80 then [to_char codepoint]
  else if codepoint <? 0x800 then
    [to_char (Z.lor 0xC0 (Z.shiftr codepoint 6));
     to_char (Z.lor 0x80 (Z.land codepoint 0x3F))]
  else if codepoint <? 0x10000 then
    [to_char (Z.lor 0xE0 (Z.shiftr codepoint 12));
     to_char (Z.lor 0x80 (Z.land (Z.shiftr codepoint 6) 0x3F));
     to_char (Z.lor 0x80 (Z.land codepoint 0x3F))]
  else
    [to_char (Z.lor 0xF0 (Z.shiftr codepoint 18));
     to_char (Z.lor 0x80 (Z.land (Z.shiftr codepoint 12) 0x3F));
     to_char (Z.lor 0x80 (Z.land (Z.shiftr codepoint 6) 0x3F));
     to_char (Z.lor 0x80 (Z.land codepoint 0x3F))].

(** One turn of the loop per decoded character: the input length is fuel. *)
Fixpoint Th8_Utf8Len_loop (fuel : nat) (z : bytes) : Z :=
  match fuel with
  | O => 0
  | S fuel' =>
      match z with
      | [] => 0
      | _ => 1 + Th8_Utf8Len_loop fuel' (drop (snd (Th8_Utf8Decode z)) z)
      end
  end.
Definition Th8_Utf8Len (z : bytes) : Z := Th8_Utf8Len_loop (length z) z.

(** The returned pointer as its offset from [z]. *)
Fixpoint Th8_Utf8Advance_loop (fuel : nat) (z : bytes) (nChar c : Z) : nat :=
  match fuel with
  | O => O
  | S fuel' =>
      match z with
      | [] => O
      | _ =>
          if c <? nChar then
            let nByte := snd (Th8_Utf8Decode z) in
            (nByte + Th8_Utf8Advance_loop fuel' (drop nByte z) nChar (c + 1))%nat
          else O
      end
  end.
Definition Th8_Utf8Advance (z : bytes) (nChar : Z) : nat :=
  Th8_Utf8Advance_loop (length z) z nChar 0.

Definition Th8_Utf8Index (z : bytes) (iChar : Z) : option nat :=
  if iChar <? 0 then None
  else
    let p := Th8_Utf8Advance z iChar in
    if (length z <? p)%nat then None else Some p.

(** [Err i] is TH8_ERROR with [*piOffset] set to [i]. *)
Fixpoint Th8_Utf8Validate_loop (fuel : nat) (z : bytes) (i : nat) : res nat unit :=
  match fuel with
  | O => Ok tt
  | S fuel' =>
      match z with
      | [] => Ok tt
      | _ =>
          let '(cp, nByte) := Th8_Utf8Decode z in
          if cp <? 0 then Err i
          else if (0xD800 <=? cp) && (cp <=? 0xDFFF) then Err i
          else if 0x10FFFF <? cp then Err i
          else Th8_Utf8Validate_loop fuel' (drop nByte z) (i + nByte)
      end
  end.
Definition Th8_Utf8Validate (z : bytes) : res nat unit :=
  Th8_Utf8Validate_loop (length z) z 0.

(** ** Bit facts *)

Lemma lead2 c : is_byte c → (Z.land c 0xE0 =? 0xC0) = ((0xC0 <=? c) && (c <? 0xE0)).
Proof.
  intros Hc. apply Bool.eqb_prop.
  by_all_bytes c Hc (λ c, Bool.eqb (Z.land c 0xE0 =? 0xC0) ((0xC0 <=? c) && (c <? 0xE0))).
Qed.
Lemma lead3 c : is_byte c → (Z.land c 0xF0 =? 0xE0) = ((0xE0 <=? c) && (c <? 0xF0)).
Proof.
  intros Hc. apply Bool.eqb_prop.
  by_all_bytes c Hc (λ c, Bool.eqb (Z.land c 0xF0 =? 0xE0) ((0xE0 <=? c) && (c <? 0xF0))).
Qed.
Lemma lead4 c : is_byte c → (Z.land c 0xF8 =? 0xF0) = ((0xF0 <=? c) && (c <? 0xF8)).
Proof.
  intros Hc. apply Bool.eqb_prop.
  by_all_bytes c Hc (λ c, Bool.eqb (Z.land c 0xF8 =? 0xF0) ((0xF0 <=? c) && (c <? 0xF8))).
Qed.

(** The marker bits of a byte and its payload: [mark] is a multiple of [2^k]. *)
Lemma mark_payload m x k :
  0 <= k → 0 <= x < 2 ^ k → Z.lor (m * 2 ^ k) x = m * 2 ^ k + x ∧
  Z.land (m * 2 ^ k + x) (2 ^ k - 1) = x.
Proof.
  intros Hk Hx. split.
  - rewrite <- Z.shiftl_mul_pow2 by done. rewrite lor_shiftl_add by done.
    by rewrite Z.shiftl_mul_pow2.
  - rewrite land_ones_mod by done. rewrite Z.add_comm, Z.mod_add by lia.
    apply Z.mod_small; lia.
Qed.

Lemma lor_80 x : 0 <= x < 64 → Z.lor 0x80 x = 0x80 + x.
Proof. intros. apply (mark_payload 2 x 6); lia. Qed.
Lemma lor_C0 x : 0 <= x < 32 → Z.lor 0xC0 x = 0xC0 + x.
Proof. intros. apply (mark_payload 6 x 5); lia. Qed.
Lemma lor_E0 x : 0 <= x < 16 → Z.lor 0xE0 x = 0xE0 + x.
Proof. intros. apply (mark_payload 14 x 4); lia. Qed.
Lemma lor_F0 x : 0 <= x < 8 → Z.lor 0xF0 x = 0xF0 + x.
Proof. intros. apply (mark_payload 30 x 3); lia. Qed.
Lemma land_1F c : 0xC0 <= c < 0xE0 → Z.land c 0x1F = c - 0xC0.
Proof. intros. rewrite <- (proj2 (mark_payload 6 (c - 0xC0) 5 ltac:(lia) ltac:(lia))). f_equal; lia. Qed.
Lemma land_0F c : 0xE0 <= c < 0xF0 → Z.land c 0x0F = c - 0xE0.
Proof. intros. rewrite <- (proj2 (mark_payload 14 (c - 0xE0) 4 ltac:(lia) ltac:(lia))). f_equal; lia. Qed.
Lemma land_07 c : 0xF0 <= c < 0xF8 → Z.land c 0x07 = c - 0xF0.
Proof. intros. rewrite <- (proj2 (mark_payload 30 (c - 0xF0) 3 ltac:(lia) ltac:(lia))). f_equal; lia. Qed.

Lemma encode_arith cp :
  0 <= cp < 0x200000 →
  Th8_Utf8Encode cp =
  if cp <? 0x80 then [cp]
  else if cp <? 0x800 then [0xC0 + cp / 64; 0x80 + cp mod 64]
  else if cp <? 0x10000 then [0xE0 + cp / 4096; 0x80 + (cp / 64) mod 64; 0x80 + cp mod 64]
  else [0xF0 + cp / 262144; 0x80 + (cp / 4096) mod 64; 0x80 + (cp / 64) mod 64;
        0x80 + cp mod 64].
Proof.
  intros Hcp. unfold Th8_Utf8Encode.
  rewrite !Z.shiftr_div_pow2 by lia.
  change 0x3F with (2 ^ 6 - 1). rewrite !land_ones_mod by lia.
  change (2 ^ 18) with 262144. change (2 ^ 12) with 4096. change (2 ^ 6) with 64.
  assert (∀ x, 0 <= x mod 64 < 64) by (intros; apply Z.mod_pos_bound; lia).
  rewrite !lor_80 by done.
  repeat case_if; bool_to_prop.
  - by rewrite to_char_id by (unfold is_byte; lia).
  - rewrite lor_C0 by divlia. rewrite !to_char_id by (unfold is_byte; divlia). done.
  - rewrite lor_E0 by divlia. rewrite !to_char_id by (unfold is_byte; divlia). done.
  - rewrite lor_F0 by divlia. rewrite !to_char_id by (unfold is_byte; divlia). done.
Qed.

Lemma lor_add_6 x y : 0 <= y < 64 → Z.lor (Z.shiftl x 6) y = x * 64 + y.
Proof. intros. rewrite lor_shiftl_add by lia. done. Qed.

Lemma lor_add_12 x y z : 0 <= y < 64 → 0 <= z < 64 →
  Z.lor (Z.lor (Z.shiftl x 12) (Z.shiftl y 6)) z = x * 4096 + y * 64 + z.
Proof.
  intros. rewrite (Z.shiftl_mul_pow2 y) by lia. change (2 ^ 6) with 64.
  rewrite (lor_shiftl_add x (y * 64) 12) by lia.
  replace (x * 2 ^ 12 + y * 64) with (Z.shiftl (x * 64 + y) 6)
    by (rewrite Z.shiftl_mul_pow2 by lia; lia).
  rewrite lor_add_6 by done. lia.
Qed.

Lemma lor_add_18 x y z t : 0 <= y < 64 → 0 <= z < 64 → 0 <= t < 64 →
  Z.lor (Z.lor (Z.lor (Z.shiftl x 18) (Z.shiftl y 12)) (Z.shiftl z 6)) t =
  x * 262144 + y * 4096 + z * 64 + t.
Proof.
  intros. rewrite (Z.shiftl_mul_pow2 y) by lia. change (2 ^ 12) with 4096.
  rewrite (lor_shiftl_add x (y * 4096) 18) by lia.
  replace (x * 2 ^ 18 + y * 4096) with (Z.shiftl (x * 64 + y) 12)
    by (rewrite Z.shiftl_mul_pow2 by lia; lia).
  rewrite lor_add_12 by done. lia.
Qed.

(** Decoding on bytes, with the bit operations evaluated. *)
Lemma decode_arith c z :
  is_byte c →
  Th8_Utf8Decode (c :: z) =
  let z' := c :: z in
  if c <? 0x80 then (c, 1%nat)
  else if (0xC0 <=? c) && (c <? 0xE0) && (2 <=? zlen z') then
    ((c - 0xC0) * 64 + nth 1 z' 0 mod 64, 2%nat)
  else if (0xE0 <=? c) && (c <? 0xF0) && (3 <=? zlen z') then
    ((c - 0xE0) * 4096 + nth 1 z' 0 mod 64 * 64 + nth 2 z' 0 mod 64, 3%nat)
  else if (0xF0 <=? c) && (c <? 0xF8) && (4 <=? zlen z') then
    ((c - 0xF0) * 262144 + nth 1 z' 0 mod 64 * 4096 + nth 2 z' 0 mod 64 * 64
     + nth 3 z' 0 mod 64, 4%nat)
  else (-1, 1%nat).
Proof.
  intros Hc. unfold Th8_Utf8Decode. cbv zeta.
  rewrite lead2, lead3, lead4 by done.
  change 0x3F with (2 ^ 6 - 1). rewrite !land_ones_mod by lia. change (2 ^ 6) with 64.
  assert (∀ x, 0 <= x mod 64 < 64) by (intros; apply Z.mod_pos_bound; lia).
  rewrite lor_add_6, lor_add_12, lor_add_18 by done.
  repeat case_if; bool_to_prop; try done; repeat f_equal;
    [by apply land_1F|by apply land_0F|by apply land_07].
Qed.

(** ** Properties *)

Lemma decode_encode_core cp rest :
  0 <= cp < 0x200000 →
  Th8_Utf8Decode (Th8_Utf8Encode cp ++ rest) = (cp, length (Th8_Utf8Encode cp)) ∧
  is_bytes (Th8_Utf8Encode cp) ∧ (1 <= length (Th8_Utf8Encode cp) <= 4)%nat.
Proof.
  intros Hcp. rewrite encode_arith by done. pose proof (zlen_nonneg rest).
  repeat case_if; bool_to_prop; simpl app;
    (split; [|split; [repeat constructor; unfold is_byte; divlia|simpl; lia]]);
    (rewrite decode_arith by (unfold is_byte; divlia)); cbv zeta; simpl nth;
    rewrite ?zlen_cons; repeat case_if; repeat (bool_to_prop; simpl in *);
    try lia; try (f_equal; divlia);
    repeat match goal with
    | H : (_ && _)%bool = false |- _ => apply andb_false_iff in H as [?|?]
    end; bool_to_prop; divlia.
Qed.

(** Encoding then decoding a code point of at most 21 bits gives it back,
    with the byte count written, whatever bytes follow. *)
Theorem Utf8_decode_encode (cp : Z) (rest : bytes) (Hcp : 0 <= cp < 0x200000) :
  Th8_Utf8Decode (Th8_Utf8Encode cp ++ rest) = (cp, length (Th8_Utf8Encode cp)) ∧
  is_bytes (Th8_Utf8Encode cp) ∧ (1 <= length (Th8_Utf8Encode cp) <= 4)%nat.
Proof. by apply decode_encode_core. Qed.

Lemma Utf8_decode_encode_witness :
  Th8_Utf8Decode (Th8_Utf8Encode 0x20AC ++ [65]) = (0x20AC, 3%nat).
Proof. apply (Utf8_decode_encode 0x20AC [65]). lia. Defined.

Lemma decode_progress c z :
  (1 <= snd (Th8_Utf8Decode (c :: z)) <= length (c :: z))%nat.
Proof.
  unfold Th8_Utf8Decode, zlen. repeat case_if; bool_to_prop; simpl in *; lia.
Qed.

(** A Unicode scalar value. *)
Definition is_scalar (cp : Z) : Prop :=
  (0 <= cp < 0xD800) ∨ (0xDFFF < cp <= 0x10FFFF).

Definition encode_all (cps : list Z) : bytes := concat (map Th8_Utf8Encode cps).

Lemma scalar_range cp : is_scalar cp → 0 <= cp < 0x200000.
Proof. unfold is_scalar; lia. Qed.

Lemma encode_cons cp : 0 <= cp < 0x200000 → ∃ c w, Th8_Utf8Encode cp = c :: w.
Proof.
  intros Hcp. destruct (decode_encode_core cp [] Hcp) as (_ & _ & H).
  destruct (Th8_Utf8Encode cp); simpl in *; [lia|eauto].
Qed.

(** A loop turn over an encoded character, in the form its callers meet. *)
Lemma decode_step cp rest :
  is_scalar cp →
  ∃ c w, Th8_Utf8Encode cp ++ rest = c :: w ∧
    Th8_Utf8Decode (c :: w) = (cp, length (Th8_Utf8Encode cp)) ∧
    drop (length (Th8_Utf8Encode cp)) (c :: w) = rest ∧
    length (c :: w) = (length (Th8_Utf8Encode cp) + length rest)%nat ∧
    (1 <= length (Th8_Utf8Encode cp))%nat.
Proof.
  intros Hs%scalar_range. destruct (encode_cons cp Hs) as (c & w & E).
  exists c, (w ++ rest). rewrite E. split; [done|].
  destruct (decode_encode_core cp rest Hs) as (H & _ & Hl). rewrite E in *.
  simpl app in H. split; [done|]. split; [by rewrite app_comm_cons, drop_app_length|].
  rewrite app_comm_cons, length_app. split; [done|lia].
Qed.

Lemma Len_loop_fuel fuel z :
  (length z <= fuel)%nat → Th8_Utf8Len_loop fuel z = Th8_Utf8Len z.
Proof.
  unfold Th8_Utf8Len. revert fuel; induction z as [z IH] using list_len_ind; intros fuel Hf.
  destruct z as [|c z]; [by destruct fuel|]. pose proof (decode_progress c z) as Hp.
  destruct fuel as [|fuel]; [simpl in Hf; lia|]. cbn [length Th8_Utf8Len_loop].
  f_equal. rewrite (IH _) by (rewrite ?length_drop; simpl length in *; lia).
  by rewrite (IH _) with (fuel := length z) by (rewrite ?length_drop; simpl length in *; lia).
Qed.

Lemma Validate_loop_fuel fuel z i :
  (length z <= fuel)%nat →
  Th8_Utf8Validate_loop fuel z i = Th8_Utf8Validate_loop (length z) z i.
Proof.
  revert fuel i; induction z as [z IH] using list_len_ind; intros fuel i Hf.
  destruct z as [|c z]; [by destruct fuel|]. pose proof (decode_progress c z) as Hp.
  destruct fuel as [|fuel]; [simpl in Hf; lia|]. cbn [length Th8_Utf8Validate_loop].
  destruct (Th8_Utf8Decode (c :: z)) as [cp n]; simpl in Hp. repeat case_if; try done.
  rewrite (IH (drop n (c :: z))) by (rewrite length_drop; simpl length in *; lia).
  by rewrite (IH (drop n (c :: z))) with (fuel := length z)
    by (rewrite length_drop; simpl length in *; lia).
Qed.

Lemma Advance_loop_fuel fuel z nChar k :
  (length z <= fuel)%nat →
  Th8_Utf8Advance_loop fuel z nChar k = Th8_Utf8Advance_loop (length z) z nChar k.
Proof.
  revert fuel k; induction z as [z IH] using list_len_ind; intros fuel k Hf.
  destruct z as [|c z]; [by destruct fuel|]. pose proof (decode_progress c z) as Hp.
  destruct fuel as [|fuel]; [simpl in Hf; lia|]. cbn [length Th8_Utf8Advance_loop].
  destruct (k <? nChar); [|done]. f_equal.
  rewrite (IH (drop _ (c :: z))) by (rewrite length_drop; simpl length in *; lia).
  by rewrite (IH (drop _ (c :: z))) with (fuel := length z)
    by (rewrite length_drop; simpl length in *; lia).
Qed.

(** On the encoding of any list of Unicode scalar values the buffer
    functions see exactly those characters: the length is their number,
    validation accepts, and the position of character [k] is the size of the
    encoding of the first [k] (of all of them, past the end). *)
Theorem Utf8_wellformed (cps : list Z) (k : nat) (Hs : Forall is_scalar cps) :
  Th8_Utf8Len (encode_all cps) = zlen cps ∧
  Th8_Utf8Validate (encode_all cps) = Ok tt ∧
  Th8_Utf8Advance (encode_all cps) (Z.of_nat k) = length (encode_all (take k cps)).
Proof.
  unfold Th8_Utf8Validate, Th8_Utf8Advance. generalize O as i.
  replace (Z.of_nat k) with (0 + Z.of_nat k) by lia. generalize 0 as j. revert k.
  induction Hs as [|cp cps Hcp _ IH]; intros k j i.
  { by destruct k. }
  change (encode_all (cp :: cps)) with (Th8_Utf8Encode cp ++ encode_all cps).
  destruct (decode_step cp (encode_all cps) Hcp) as (c & w & -> & Hd & Hdr & Hl & H1).
  rewrite <- (Len_loop_fuel (S (length w))) by done.
  simpl length in *. cbn [Th8_Utf8Len_loop Th8_Utf8Validate_loop Th8_Utf8Advance_loop].
  rewrite !Hd. simpl snd. rewrite !Hdr.
  rewrite Len_loop_fuel, Validate_loop_fuel by lia.
  split; [|split].
  - destruct (IH O 0 0%nat) as (-> & _). by rewrite zlen_cons.
  - replace (cp <? 0) with false by (symmetry; apply Z.ltb_ge; unfold is_scalar in *; lia).
    replace ((0xD800 <=? cp) && (cp <=? 0xDFFF)) with false
      by (symmetry; apply andb_false_iff; rewrite !Z.leb_gt; unfold is_scalar in *; lia).
    replace (0x10FFFF <? cp) with false
      by (symmetry; apply Z.ltb_ge; unfold is_scalar in *; lia).
    apply (IH O 0).
  - destruct k as [|k].
    { replace (j <? j + Z.of_nat 0) with false by (symmetry; apply Z.ltb_ge; lia). done. }
    replace (j <? j + Z.of_nat (S k)) with true by (symmetry; apply Z.ltb_lt; lia).
    rewrite Advance_loop_fuel by lia.
    replace (j + Z.of_nat (S k)) with (j + 1 + Z.of_nat k) by lia.
    destruct (IH k (j + 1) 0%nat) as (_ & _ & ->).
    simpl take. change (encode_all (cp :: ?l)) with (Th8_Utf8Encode cp ++ encode_all l).
    by rewrite length_app.
Qed.

Lemma Utf8_wellformed_witness :
  Th8_Utf8Len (encode_all [65; 0x20AC; 0x1F600]) = 3 ∧
  Th8_Utf8Validate (encode_all [65; 0x20AC; 0x1F600]) = Ok tt ∧
  Th8_Utf8Advance (encode_all [65; 0x20AC; 0x1F600]) 2 = 4%nat.
Proof.
  apply (Utf8_wellformed [65; 0x20AC; 0x1F600] 2).
  repeat constructor; unfold is_scalar; lia.
Defined.

Lemma Advance_loop_le fuel z nChar k :
  (Th8_Utf8Advance_loop fuel z nChar k <= length z)%nat.
Proof.
  revert z k; induction fuel as [|fuel IH]; intros z k; simpl; [lia|].
  destruct z as [|c z]; [done|]. destruct (k <? nChar); [|lia].
  pose proof (decode_progress c z). specialize (IH (drop (snd (Th8_Utf8Decode (c :: z))) (c :: z)) (k + 1)).
  rewrite length_drop in IH. lia.
Qed.

(** Positions stay inside the buffer, so Th8_Utf8Index answers NULL for
    a negative index only: an index past the last character gives the end of
    the string, although the comment promises NULL there. *)
Theorem Th8_Utf8Index_spec (z : bytes) (i : Z) :
  (Th8_Utf8Advance z i <= length z)%nat ∧
  Th8_Utf8Index z i = if i <? 0 then None else Some (Th8_Utf8Advance z i).
Proof.
  split; [apply Advance_loop_le|]. unfold Th8_Utf8Index.
  destruct (i <? 0); [done|]. cbv zeta.
  destruct (Nat.ltb_spec (length z) (Th8_Utf8Advance z i)) as [H|]; [|done].
  pose proof (Advance_loop_le (length z) z i 0). unfold Th8_Utf8Advance in *. lia.
Qed.

(** Validation looks at lead bytes and decoded values only: a two-byte
    lead followed by any byte at all is accepted, and so is the overlong
    encoding of NUL, although the comment says that overlong forms are
    rejected. *)
Theorem Th8_Utf8Validate_lenient (d : Z) :
  Th8_Utf8Validate [0xC3; d] = Ok tt ∧ Th8_Utf8Validate [0xC0; 0x80] = Ok tt.
Proof.
  split; [|done]. unfold Th8_Utf8Validate. cbn [length Th8_Utf8Validate_loop].
  rewrite decode_arith by (unfold is_byte; lia). cbv zeta. rewrite !zlen_cons, zlen_nil.
  change (nth 1 [0xC3; d] 0) with d. cbn -[Z.modulo Z.mul Z.add Z.sub].
  pose proof (Z.mod_pos_bound d 64 ltac:(lia)).
  repeat case_if; bool_to_prop; try lia; done.
Qed.
