(* ===== verification/Parser.v ===== *)
(** * Parser: the script scanners of src/src/th8_core.c.

    The scanners measure a token at the head of a buffer: white space, a
    backslash escape, a [$] reference, a bracketed or braced block, a word.
    Each takes the buffer [&zInput[0]] of [nInput] bytes as a list and returns
    the byte count it stores through its OUT parameter.  A loop over an index
    [i] is the recursion on the suffix [&zInput[i]], so a read is only made
    under the [i < nInput] guard that the code has. *)

From S2P Require Import Prelude CharClass Memory.

(** The reasons for which a scanner returns TH8_ERROR, by message. *)
Inductive parse_error : Type :=
| ETruncatedEscape
| EUnterminatedVar
| EEmptyInput
| EExpectedOpener
| ENestingTooDeep
| EUnmatchedBraces
| EUnmatchedBrackets
| EUnmatchedQuote.

#[export] Instance parse_error_eq_dec : EqDecision parse_error.
Proof. solve_decision. Defined.

(** ** White space *)

Definition is_blank (c : Z) : bool := (c =? " "%ch) || (c =? 9).

Fixpoint th8NextSpace_loop (fuel : nat) (z : bytes) : nat :=
  match fuel with
  | O => O
  | S fuel' =>
      match z with
      | [] => O
      | c :: z' =>
          if (c =? "\"%ch) && next_is NEWLINE z' then
            let z'' := tail z' in
            let k := span is_blank z'' in
            (2 + k + th8NextSpace_loop fuel' (drop k z''))%nat
          else if th8IsSpace c then S (th8NextSpace_loop fuel' z')
          else O
      end
  end.

Definition th8NextSpace (z : bytes) : nat := th8NextSpace_loop (length z) z.

Definition th8EndOfLine (z : bytes) : bool :=
  let i := span (λ c, negb (c =? NEWLINE) && th8IsSpace c) z in
  match drop i z with
  | [] => true
  | c :: _ => c =? NEWLINE
  end.

(** ** Backslash escapes *)

(** The [case] labels whose escape is always two bytes. *)
Definition simple_escape (c : Z) : bool :=
  existsb (Z.eqb c) ["a"%ch; "b"%ch; "f"%ch; "n"%ch; "r"%ch; "t"%ch; "v"%ch; "\"%ch].

Definition th8NextEscape (z : bytes) : res parse_error nat :=
  match z with
  | [] | [_] => Err ETruncatedEscape
  | _ :: e :: z2 =>
      let i :=
        if simple_escape e then 2%nat
        else if e =? "x"%ch then (2 + span th8IsHexDig z2)%nat
        else if e =? "u"%ch then (2 + span th8IsHexDig (take 4 z2))%nat
        else if e =? "U"%ch then (2 + span th8IsHexDig (take 8 z2))%nat
        else if e =? NEWLINE then (2 + span is_blank z2)%nat
        else if th8IsOctDig e then (2 + span th8IsOctDig (take 2 z2))%nat
        else 2%nat in
      if (length z <? i)%nat then Err ETruncatedEscape else Ok i
  end.

(** ** Variable references *)

(** [A-Za-z0-9_] characters and [::] separators. *)
Fixpoint scan_name (z : bytes) : nat :=
  match z with
  | [] => O
  | c :: z' =>
      if th8IsAlnum c || (c =? "_"%ch) then S (scan_name z')
      else match z' with
           | d :: z'' =>
               if (c =? ":"%ch) && (d =? ":"%ch) then S (S (scan_name z''))
               else O
           | [] => O
           end
  end.

(** From the byte after the open parenthesis: the bytes up to and with the
    first unescaped close parenthesis. *)
Fixpoint scan_index (z : bytes) : option nat :=
  match z with
  | [] => None
  | c :: z' =>
      if c =? ")"%ch then Some 1%nat
      else if c =? "\"%ch then
        match z' with
        | [] => None
        | _ :: z'' => (λ n, S (S n)) <$> scan_index z''
        end
      else S <$> scan_index z'
  end.

Definition th8NextVarName (z : bytes) : res parse_error nat :=
  match z with
  | [] | [_] => Ok 1%nat
  | _ :: c1 :: z2 =>
      if c1 =? "{"%ch then
        let k := span (λ c, negb (c =? "}"%ch)) z2 in
        if (length z2 <=? k)%nat then Err EUnterminatedVar
        else Ok (2 + k + 1)%nat
      else
        let i0 := if (c1 =? ":"%ch) && next_is ":"%ch z2 then 3%nat else 1%nat in
        let i := (i0 + scan_name (drop i0 z))%nat in
        match drop i z with
        | c :: z' =>
            if c =? "("%ch then
              match scan_index z' with
              | Some k => Ok (i + 1 + k)%nat
              | None => Err EUnterminatedVar
              end
            else Ok i
        | [] => Ok i
        end
  end.

(** ** The nesting stack *)


Definition TH8_PARSE_NEST_INLINE : Z := 256.

(** The open scopes, innermost first, and the capacity of their storage. *)
Record Th8ParseStack : Type := mkParseStack {
  ps_items : list Z;
  ps_cap : Z
}.

Definition ps_top (s : Th8ParseStack) : Z := zlen (ps_items s).

Definition th8ParseStackInit : Th8ParseStack :=
  mkParseStack [] TH8_PARSE_NEST_INLINE.

(** What one byte does inside an open scope. *)
Inductive scope_action : Type :=
| ASkip            (* a backslash: the next byte is skipped *)
| APush (c : Z)    (* a nested scope opens *)
| APop             (* the scope closes *)
| ALit.            (* no meaning in this scope *)

(** The three [ctx] branches of th8NextCommand, repeated in th8NextWord. *)
Definition scope_step (ctx c : Z) : scope_action :=
  if ctx =? "{"%ch then
    if c =? "\"%ch then ASkip
    else if c =? "{"%ch then APush "{"%ch
    else if c =? "}"%ch then APop
    else ALit
  else if ctx =? "["%ch then
    if c =? "\"%ch then ASkip
    else if c =? DQUOTE then APush DQUOTE
    else if c =? "{"%ch then APush "{"%ch
    else if c =? "["%ch then APush "["%ch
    else if c =? "]"%ch then APop
    else ALit
  else
    if c =? "\"%ch then ASkip
    else if c =? DQUOTE then APop
    else if c =? "["%ch then APush "["%ch
    else ALit.

(** The error for the innermost scope still open at end of input. *)
Definition unmatched (inner : Z) : parse_error :=
  if inner =? "{"%ch then EUnmatchedBraces
  else if inner =? "["%ch then EUnmatchedBrackets
  else EUnmatchedQuote.

Section scanners.
(** Whether the platform grants a reallocation to the given capacity.  The
    capacities one stack asks for are all different, so a function of the
    size covers every behaviour of the allocator during one scan. *)
Context (realloc_ok : Z → bool).

Definition th8ParseStackPush (s : Th8ParseStack) (c : Z) : option Th8ParseStack :=
  if ps_cap s <=? ps_top s then
    if SIZE_MAX / 2 <? ps_cap s then None
    else
      let newCap := ps_cap s * 2 in
      if realloc_ok newCap then Some (mkParseStack (c :: ps_items s) newCap)
      else None
  else Some (mkParseStack (c :: ps_items s) (ps_cap s)).

Definition ps_pop (s : Th8ParseStack) : Th8ParseStack :=
  mkParseStack (tail (ps_items s)) (ps_cap s).

(** The scanning loop of th8NextCommand, [i] bytes in. *)
Fixpoint th8NextCommand_loop (z : bytes) (stack : Th8ParseStack) (i : nat)
  : res parse_error nat :=
  match ps_items stack with
  | [] => Ok i
  | ctx :: _ =>
      match z with
      | [] => Err (unmatched ctx)
      | c :: z' =>
          match scope_step ctx c with
          | ASkip =>
              match z' with
              | [] => th8NextCommand_loop z' stack (S i)
              | _ :: z'' => th8NextCommand_loop z'' stack (S (S i))
              end
          | APush c' =>
              match th8ParseStackPush stack c' with
              | None => Err ENestingTooDeep
              | Some stack' => th8NextCommand_loop z' stack' (S i)
              end
          | APop => th8NextCommand_loop z' (ps_pop stack) (S i)
          | ALit => th8NextCommand_loop z' stack (S i)
          end
      end
  end.

Definition th8NextCommand (z : bytes) : res parse_error nat :=
  match z with
  | [] => Err EEmptyInput
  | first :: z' =>
      if negb (first =? "{"%ch) && negb (first =? "["%ch) then Err EExpectedOpener
      else match th8ParseStackPush th8ParseStackInit first with
           | None => Err ENestingTooDeep
           | Some stack => th8NextCommand_loop z' stack 1
           end
  end.

Definition word_opener (c : Z) : bool :=
  (c =? "{"%ch) || (c =? "["%ch) || (c =? DQUOTE).

(** The scanning loop of th8NextWord. *)
Fixpoint th8NextWord_loop (isCmd : bool) (z : bytes) (stack : Th8ParseStack) (iEnd : nat)
  : res parse_error nat :=
  match z with
  | [] =>
      match ps_items stack with
      | [] => Ok iEnd
      | inner :: _ => Err (unmatched inner)
      end
  | c :: z' =>
      match ps_items stack with
      | [] =>
          if th8IsSpace c then Ok iEnd
          else if isCmd && (c =? ";"%ch) then Ok iEnd
          else if c =? "\"%ch then
            match z' with
            | [] => th8NextWord_loop isCmd z' stack (S iEnd)
            | d :: z'' =>
                if d =? NEWLINE then Ok iEnd
                else th8NextWord_loop isCmd z'' stack (S (S iEnd))
            end
          else if word_opener c then
            match th8ParseStackPush stack c with
            | None => Err ENestingTooDeep
            | Some stack' => th8NextWord_loop isCmd z' stack' (S iEnd)
            end
          else th8NextWord_loop isCmd z' stack (S iEnd)
      | ctx :: _ =>
          match scope_step ctx c with
          | ASkip =>
              match z' with
              | [] => th8NextWord_loop isCmd z' stack (S iEnd)
              | _ :: z'' => th8NextWord_loop isCmd z'' stack (S (S iEnd))
              end
          | APush c' =>
              match th8ParseStackPush stack c' with
              | None => Err ENestingTooDeep
              | Some stack' => th8NextWord_loop isCmd z' stack' (S iEnd)
              end
          | APop => th8NextWord_loop isCmd z' (ps_pop stack) (S iEnd)
          | ALit => th8NextWord_loop isCmd z' stack (S iEnd)
          end
      end
  end.

Definition th8NextWord (isCmd : bool) (z : bytes) : res parse_error nat :=
  match z with
  | [] => Ok O
  | first :: z' =>
      if (first =? DQUOTE) || (first =? "{"%ch) then
        match th8ParseStackPush th8ParseStackInit first with
        | None => Err ENestingTooDeep
        | Some stack => th8NextWord_loop isCmd z' stack 1
        end
      else th8NextWord_loop isCmd z th8ParseStackInit 0
  end.
End scanners.

(** ** The grammar the scanners decide

    [closer ctx] ends the scope that [ctx] opens; [may_open ctx c] holds of the
    bytes that open a nested scope in it.  [scope_body ctx w] holds of the
    bytes that follow the opener, up to and with the matching closer. *)

Definition closer (ctx : Z) : Z :=
  if ctx =? "{"%ch then "}"%ch else if ctx =? "["%ch then "]"%ch else DQUOTE.

Definition may_open (ctx c : Z) : bool :=
  if ctx =? "{"%ch then c =? "{"%ch
  else if ctx =? "["%ch then word_opener c
  else c =? "["%ch.

Inductive scope_body : Z → bytes → Prop :=
| body_close ctx :
    scope_body ctx [closer ctx]
| body_escape ctx x w :
    scope_body ctx w → scope_body ctx ("\"%ch :: x :: w)
| body_open ctx c w1 w2 :
    may_open ctx c = true → scope_body c w1 → scope_body ctx w2 →
    scope_body ctx (c :: w1 ++ w2)
| body_lit ctx c w :
    c ≠ "\"%ch → c ≠ closer ctx → may_open ctx c = false → scope_body ctx w →
    scope_body ctx (c :: w).

(** A word: plain bytes, escapes of anything but a newline and whole
    nested scopes; a backslash may stand alone only as the last byte of the
    input, which [last] records. *)
Definition word_stop (isCmd : bool) (z : bytes) : bool :=
  match z with
  | [] => true
  | c :: z' =>
      th8IsSpace c || (isCmd && (c =? ";"%ch)) || ((c =? "\"%ch) && next_is NEWLINE z')
  end.

Arguments word_stop : simpl never.

Inductive word_body (isCmd last : bool) : bytes → Prop :=
| word_nil : word_body isCmd last []
| word_lone_backslash : last = true → word_body isCmd last ["\"%ch]
| word_escape x w :
    x ≠ NEWLINE → word_body isCmd last w → word_body isCmd last ("\"%ch :: x :: w)
| word_open c w1 w2 :
    word_opener c = true → scope_body c w1 → word_body isCmd last w2 →
    word_body isCmd last (c :: w1 ++ w2)
| word_lit c w :
    c ≠ "\"%ch → word_opener c = false → word_stop isCmd [c] = false →
    word_body isCmd last w → word_body isCmd last (c :: w).

(** Scopes closed one after the other, the innermost first. *)
Inductive scopes_body : list Z → bytes → Prop :=
| scopes_nil : scopes_body [] []
| scopes_cons ctx s w1 w2 :
    scope_body ctx w1 → scopes_body s w2 → scopes_body (ctx :: s) (w1 ++ w2).

#[export] Hint Constructors scope_body scopes_body word_body : th8.

(** [scope_step] read as the grammar's alternatives, whatever the scope. *)
Lemma scope_step_spec ctx c :
  scope_step ctx c =
  if c =? "\"%ch then ASkip
  else if c =? closer ctx then APop
  else if may_open ctx c then APush c
  else ALit.
Proof.
  unfold scope_step, closer, may_open, word_opener.
  repeat case_if; bool_to_prop; subst; try done; repeat (simpl in *; case_if);
    bool_to_prop; subst; try done; simpl in *; try congruence;
    repeat match goal with H : (_ || _)%bool = true |- _ => apply orb_true_iff in H as [?|?] end;
    bool_to_prop; subst; try done.
Qed.

Lemma closer_not_backslash ctx : closer ctx ≠ "\"%ch.
Proof. unfold closer; repeat case_if; done. Qed.

Lemma may_open_not_backslash ctx : may_open ctx "\"%ch = false.
Proof. unfold may_open; repeat case_if; done. Qed.

Lemma may_open_not_closer ctx : may_open ctx (closer ctx) = false.
Proof. unfold may_open, closer; repeat case_if; done. Qed.

Lemma scope_body_nonempty ctx : ¬ scope_body ctx [].
Proof. inversion 1. Qed.

(** One byte of an open scope, in the grammar and in the code. *)
Definition scope_step_rel (ctx : Z) (s : list Z) (c : Z) (w : bytes) : Prop :=
  match scope_step ctx c with
  | ASkip => ∃ x w', w = x :: w' ∧ scopes_body (ctx :: s) w'
  | APush c' => scopes_body (c' :: ctx :: s) w
  | APop => scopes_body s w
  | ALit => scopes_body (ctx :: s) w
  end.

Lemma scopes_body_step ctx s c w :
  scopes_body (ctx :: s) (c :: w) ↔ scope_step_rel ctx s c w.
Proof.
  unfold scope_step_rel; rewrite scope_step_spec. split.
  - inversion 1 as [|? ? w1 w2 Hb Hs Heq Hw]; subst.
    inversion Hb; subst; simplify_list_eq.
    + rewrite may_open_not_closer, Z.eqb_refl.
      destruct (closer ctx =? _) eqn:E; bool_to_prop; [by destruct (closer_not_backslash ctx)|done].
    + rename w0 into w1. eexists _, _; split; [done|]. by constructor.
    + rename w0 into w1, w3 into w1'.
      destruct (c =? "\"%ch) eqn:E1; bool_to_prop; [subst; by rewrite may_open_not_backslash in *|].
      destruct (c =? closer ctx) eqn:E2; bool_to_prop; [subst; by rewrite may_open_not_closer in *|].
      match goal with H : may_open _ _ = true |- _ => rewrite H end.
      rewrite <- ?app_assoc; auto with th8.
    + repeat match goal with H : c ≠ _ |- _ => apply Z.eqb_neq in H; rewrite H end.
      match goal with H : may_open _ _ = false |- _ => rewrite H end.
      by constructor.
  - destruct (c =? "\"%ch) eqn:E1; bool_to_prop.
    { intros (x & w' & -> & H). subst. inversion H as [|? ? w1 w2]; subst.
      apply (scopes_cons ctx s ("\"%ch :: x :: w1) w2); auto with th8. }
    destruct (c =? closer ctx) eqn:E2; bool_to_prop.
    { subst. intros H. apply (scopes_cons ctx s [closer ctx] w); auto with th8. }
    destruct (may_open ctx c) eqn:E3.
    + intros H. inversion H as [|? ? w1 w' Hb Hs]; subst.
      inversion Hs as [|? ? w2 w3]; subst. rewrite app_assoc.
      apply (scopes_cons ctx s (c :: w1 ++ w2) w3); auto with th8.
    + intros H. inversion H as [|? ? w1 w2]; subst.
      apply (scopes_cons ctx s (c :: w1) w2); auto with th8.
Qed.

Lemma scopes_body_cons_nil ctx s : ¬ scopes_body (ctx :: s) [].
Proof.
  inversion 1 as [|? ? w1 w2 Hb Hs Heq Hw]. destruct w1; [by apply scope_body_nonempty in Hb|done].
Qed.

Lemma scopes_body_nil_inv w : scopes_body [] w → w = [].
Proof. by inversion 1. Qed.

Section scanner_facts.
Context (realloc_ok : Z → bool).

Lemma push_items s c s' :
  th8ParseStackPush realloc_ok s c = Some s' → ps_items s' = c :: ps_items s.
Proof. unfold th8ParseStackPush; repeat case_if; intros; simplify_eq; done. Qed.

(** The storage never refuses a push that keeps the depth within [N]. *)
Definition stack_room (N : Z) (s : Th8ParseStack) (z : bytes) : Prop :=
  ps_top s + zlen z <= N ∧ 256 <= ps_cap s <= Z.max 256 (2 * N) ∧ N < 2 ^ 61.

Lemma push_room N s c x z :
  (∀ n, realloc_ok n = true) → stack_room N s (x :: z) →
  ∃ s', th8ParseStackPush realloc_ok s c = Some s' ∧
        ps_items s' = c :: ps_items s ∧ stack_room N s' z.
Proof.
  intros Hok (Htop & Hcap & HN). unfold th8ParseStackPush, SIZE_MAX.
  rewrite zlen_cons in Htop. pose proof (zlen_nonneg z).
  unfold stack_room, ps_top in *.
  destruct (ps_cap s <=? _) eqn:E; bool_to_prop.
  - destruct (_ <? ps_cap s) eqn:E2; bool_to_prop.
    { assert ((2 ^ 64 - 1) / 2 = 2 ^ 63 - 1) by reflexivity. lia. }
    rewrite Hok. eexists; do 2 (split; [reflexivity|]). cbn [ps_items ps_cap].
    rewrite zlen_cons. lia.
  - eexists; do 2 (split; [reflexivity|]). cbn [ps_items ps_cap]. rewrite zlen_cons. lia.
Qed.

Lemma pop_room N s x z : stack_room N s (x :: z) → stack_room N (ps_pop s) z.
Proof.
  unfold stack_room, ps_top, ps_pop; simpl; rewrite zlen_cons.
  destruct (ps_items s); simpl; rewrite ?zlen_cons; lia.
Qed.

Lemma room_tail N s x z : stack_room N s (x :: z) → stack_room N s z.
Proof. unfold stack_room; rewrite zlen_cons; lia. Qed.

#[local] Hint Resolve pop_room room_tail : th8.

Lemma NextCommand_loop_sound z : ∀ stack i n,
  th8NextCommand_loop realloc_ok z stack i = Ok n →
  ∃ w rest, z = w ++ rest ∧ scopes_body (ps_items stack) w ∧ n = (i + length w)%nat.
Proof.
  induction z as [z IH] using list_len_ind; intros stack i n.
  destruct z as [|c z]; cbn [th8NextCommand_loop].
  { destruct (ps_items stack); intros; inv_res; subst.
    exists [], []; simpl; split_and!; [done|constructor|lia]. }
  destruct (ps_items stack) as [|ctx s] eqn:Es.
  { intros; inv_res; subst. exists [], (c :: z). simpl; split_and!; [done|constructor|lia]. }
  pose proof (scopes_body_step ctx s c) as Hstep; unfold scope_step_rel in Hstep.
  destruct (scope_step ctx c) as [|c'| |].
  - destruct z as [|x z]; simpl.
    { rewrite Es. intros; inv_res. }
    intros (w & rest & -> & Hw & ->)%IH; [|simpl; lia]. rewrite Es in Hw.
    exists (c :: x :: w), rest; simpl; split_and!; [done| |lia]. apply Hstep; eauto.
  - destruct (th8ParseStackPush _ stack c') as [s'|] eqn:Ep; [|intros; inv_res].
    intros (w & rest & -> & Hw & ->)%IH; [|simpl; lia].
    rewrite (push_items _ _ _ Ep), Es in Hw.
    exists (c :: w), rest; simpl; split_and!; [done| |lia]. by apply Hstep.
  - intros (w & rest & -> & Hw & ->)%IH; [|simpl; lia]. simpl in Hw; rewrite Es in Hw.
    exists (c :: w), rest; simpl; split_and!; [done| |lia]. by apply Hstep.
  - intros (w & rest & -> & Hw & ->)%IH; [|simpl; lia]. rewrite Es in Hw.
    exists (c :: w), rest; simpl; split_and!; [done| |lia]. by apply Hstep.
Qed.

Lemma NextCommand_loop_complete N w rest : ∀ stack i,
  (∀ n, realloc_ok n = true) → stack_room N stack (w ++ rest) →
  scopes_body (ps_items stack) w →
  th8NextCommand_loop realloc_ok (w ++ rest) stack i = Ok (i + length w)%nat.
Proof.
  induction w as [w IH] using list_len_ind; intros stack i Hok Hroom Hw.
  destruct (ps_items stack) as [|ctx s] eqn:Es.
  { apply scopes_body_nil_inv in Hw; subst; simpl.
    destruct rest; simpl; rewrite Es; f_equal; lia. }
  destruct w as [|c w]; [by apply scopes_body_cons_nil in Hw|].
  simpl in Hroom |- *; rewrite Es.
  apply scopes_body_step in Hw; unfold scope_step_rel in Hw.
  destruct (scope_step ctx c) as [|c'| |].
  - destruct Hw as (x & w' & -> & Hw). simpl in *.
    rewrite IH; [f_equal; lia|lia|done|eauto with th8|by rewrite Es].
  - destruct (push_room N stack c' c (w ++ rest)) as (s' & -> & Hs' & Hr); [done..|].
    rewrite IH; [f_equal; lia|simpl; lia|done|done|by rewrite Hs', Es].
  - rewrite IH; [f_equal; lia|simpl; lia|done|eauto with th8|by simpl; rewrite Es].
  - rewrite IH; [f_equal; lia|simpl; lia|done|eauto with th8|by rewrite Es].
Qed.

Lemma init_room c z : zlen z < 2 ^ 60 → stack_room (1 + zlen z) th8ParseStackInit (c :: z).
Proof.
  intros. pose proof (zlen_nonneg z). unfold stack_room, ps_top; simpl; rewrite zlen_nil, zlen_cons.
  unfold TH8_PARSE_NEST_INLINE. lia.
Qed.

(** With storage granted, the only failure of the scan is an open scope. *)
Lemma NextCommand_loop_error N z : ∀ stack i e,
  (∀ n, realloc_ok n = true) → stack_room N stack z →
  th8NextCommand_loop realloc_ok z stack i = Err e → ∃ ctx, e = unmatched ctx.
Proof.
  induction z as [z IH] using list_len_ind; intros stack i e Hok Hroom.
  destruct z as [|c z]; cbn [th8NextCommand_loop];
    destruct (ps_items stack) as [|ctx s] eqn:Es; try (intros; inv_res; subst; by eauto).
  destruct (scope_step ctx c) as [|c'| |].
  - destruct z as [|x z]; [eapply IH|eapply IH]; simpl; eauto with th8; lia.
  - destruct (push_room N stack c' c z) as (s' & -> & Hs' & Hr); [done..|].
    eapply IH; eauto; simpl; lia.
  - eapply IH; eauto with th8; simpl; lia.
  - eapply IH; eauto with th8; simpl; lia.
Qed.

Lemma word_lit_not_stop isCmd c w : word_stop isCmd [c] = false → c ≠ "\"%ch → word_stop isCmd (c :: w) = false.
Proof.
  unfold word_stop; simpl; intros H Hc. apply Z.eqb_neq in Hc as ->.
  by rewrite andb_false_r, orb_false_r in *.
Qed.

(** The split of the input at which the word scan stops with [s] scopes open. *)
Definition word_split (isCmd : bool) (s : list Z) (z : bytes) (n : nat) : Prop :=
  ∃ w1 w2 rest, z = w1 ++ w2 ++ rest ∧ scopes_body s w1 ∧
    word_body isCmd (bool_decide (rest = [])) w2 ∧ word_stop isCmd rest = true ∧
    n = length (w1 ++ w2).

Lemma word_split_scope isCmd ctx s c z n :
  word_split isCmd (ctx :: s) (c :: z) n ↔
  ∃ n', n = S n' ∧
  match scope_step ctx c with
  | ASkip => ∃ x z' n'', z = x :: z' ∧ n' = S n'' ∧ word_split isCmd (ctx :: s) z' n''
  | APush c' => word_split isCmd (c' :: ctx :: s) z n'
  | APop => word_split isCmd s z n'
  | ALit => word_split isCmd (ctx :: s) z n'
  end.
Proof.
  split.
  - intros (w1 & w2 & rest & Hz & H1 & H2 & Hr & ->).
    destruct w1 as [|c' w1]; [by apply scopes_body_cons_nil in H1|].
    simplify_list_eq. apply scopes_body_step in H1; unfold scope_step_rel in H1.
    eexists; split; [done|]. destruct (scope_step ctx c').
    + destruct H1 as (x & w' & -> & H1). eexists _, _, _; split; [done|]. split; [done|].
      eexists _, _, _; eauto.
    + eexists _, _, _; eauto.
    + eexists _, _, _; eauto.
    + eexists _, _, _; eauto.
  - pose proof (scopes_body_step ctx s c) as Hstep; unfold scope_step_rel in Hstep.
    intros (n' & -> & H). destruct (scope_step ctx c).
    + destruct H as (x & z' & n'' & -> & -> & w1 & w2 & rest & -> & H1 & H2 & Hr & ->).
      exists (c :: x :: w1), w2, rest; split_and!; try done. apply Hstep; eauto.
    + destruct H as (w1 & w2 & rest & -> & H1 & H2 & Hr & ->).
      exists (c :: w1), w2, rest; split_and!; try done. by apply Hstep.
    + destruct H as (w1 & w2 & rest & -> & H1 & H2 & Hr & ->).
      exists (c :: w1), w2, rest; split_and!; try done. by apply Hstep.
    + destruct H as (w1 & w2 & rest & -> & H1 & H2 & Hr & ->).
      exists (c :: w1), w2, rest; split_and!; try done. by apply Hstep.
Qed.

Lemma word_stop_opener isCmd c z : word_opener c = true → word_stop isCmd (c :: z) = false.
Proof.
  unfold word_opener, word_stop. intros H.
  repeat (apply orb_true_iff in H as [H|H]); bool_to_prop; subst; destruct isCmd; done.
Qed.

Lemma word_split_top isCmd c z n :
  word_split isCmd [] (c :: z) n ↔
  if word_stop isCmd (c :: z) then n = O
  else if c =? "\"%ch then
    match z with
    | [] => n = 1%nat
    | _ :: z' => ∃ n', n = S (S n') ∧ word_split isCmd [] z' n'
    end
  else ∃ n', n = S n' ∧ word_split isCmd (if word_opener c then [c] else []) z n'.
Proof.
  split.
  - intros (w1 & w2 & rest & Hz & H1 & H2 & Hr & ->).
    apply scopes_body_nil_inv in H1; subst w1; simpl in *.
    destruct H2 as [|Hl|x w Hx Hw|c' w1 w2 Ho Hb Hw|c' w Hc Ho Hs Hw]; simplify_list_eq.
    + by rewrite Hr.
    + apply bool_decide_eq_true in Hl; subst; simpl. destruct isCmd; done.
    + assert (word_stop isCmd ("\"%ch :: x :: w ++ rest) = false) as ->.
      { unfold word_stop; simpl. apply Z.eqb_neq in Hx as ->. destruct isCmd; done. }
      simpl. exists (length w); split; [done|]. eexists [], _, _; eauto with th8.
    + rewrite word_stop_opener by done. rewrite Ho.
      destruct (c' =? "\"%ch) eqn:E; bool_to_prop; [by subst|].
      eexists; split; [done|]. exists w1, w2, rest; split_and!; [by rewrite app_assoc|..]; try done.
      rewrite <- (app_nil_r w1); auto with th8.
    + rewrite word_lit_not_stop by done. apply Z.eqb_neq in Hc as ->. rewrite Ho.
      eexists; split; [done|]. eexists [], _, _; eauto with th8.
  - destruct (word_stop isCmd (c :: z)) eqn:Est.
    { intros ->. exists [], [], (c :: z); split_and!; eauto with th8. }
    destruct (c =? "\"%ch) eqn:E; bool_to_prop.
    + subst. destruct z as [|x z].
      { intros ->. exists [], ["\"%ch], []; split_and!; eauto with th8. }
      intros (n' & -> & w1 & w2 & rest & -> & H1 & H2 & Hr & ->).
      apply scopes_body_nil_inv in H1; subst w1.
      exists [], ("\"%ch :: x :: w2), rest; split_and!; eauto with th8.
      simpl. apply word_escape; [|done]. intros ->. unfold word_stop in Est; simpl in Est.
      by rewrite orb_true_r in Est.
    + intros (n' & -> & w1 & w2 & rest & -> & H1 & H2 & Hr & ->).
      exists [], (c :: w1 ++ w2), rest; split_and!; auto with th8.
      { by simplify_list_eq. }
      destruct (word_opener c) eqn:Eo.
      * inversion H1 as [|? ? w1' w1'' Hb Hn]; subst.
        apply scopes_body_nil_inv in Hn; subst. rewrite app_nil_r. by constructor.
      * apply scopes_body_nil_inv in H1; subst. apply word_lit; try done.
        unfold word_stop in *; simpl in *. apply orb_false_iff in Est as [-> _].
        by rewrite andb_false_r.
Qed.

Lemma word_split_nil isCmd s n :
  word_split isCmd s [] n ↔ s = [] ∧ n = O.
Proof.
  split.
  - intros (w1 & w2 & rest & Hz & H1 & H2 & Hr & ->).
    symmetry in Hz. apply app_nil in Hz as [-> Hz]. apply app_nil in Hz as [-> ->].
    inversion H1 as [|? ? w1' w1'' Hb Hn Hs Heq]; [done|].
    apply app_nil in Heq as [-> _]. by apply scope_body_nonempty in Hb.
  - intros [-> ->]. exists [], [], []; split_and!; eauto with th8.
Qed.

Lemma NextWord_loop_sound isCmd z : ∀ stack i n,
  th8NextWord_loop realloc_ok isCmd z stack i = Ok n →
  ∃ n', n = (i + n')%nat ∧ word_split isCmd (ps_items stack) z n'.
Proof.
  induction z as [z IH] using list_len_ind; intros stack i n.
  destruct z as [|c z]; cbn [th8NextWord_loop].
  { destruct (ps_items stack) eqn:Es; intros; inv_res; subst.
    exists O; split; [lia|]. by apply word_split_nil. }
  destruct (ps_items stack) as [|ctx s] eqn:Es.
  - setoid_rewrite word_split_top. unfold word_stop.
    destruct (th8IsSpace c); [intros; inv_res; exists O; split; [lia|done]|].
    destruct (isCmd && (c =? ";"%ch)); [intros; inv_res; exists O; split; [lia|done]|].
    destruct (c =? "\"%ch) eqn:E; simpl.
    + destruct z as [|d z]; simpl.
      { rewrite Es. intros; inv_res; subst. exists 1%nat; split; [lia|done]. }
      destruct (d =? NEWLINE); [intros; inv_res; exists O; split; [lia|done]|].
      intros (n' & -> & H)%IH; [|simpl; lia]. rewrite Es in H.
      exists (S (S n')); split; [lia|eauto].
    + destruct (word_opener c) eqn:Eo.
      * destruct (th8ParseStackPush _ stack c) as [s'|] eqn:Ep; [|intros; inv_res].
        intros (n' & -> & H)%IH; [|simpl; lia]. rewrite (push_items _ _ _ Ep), Es in H.
        exists (S n'); split; [lia|eauto].
      * intros (n' & -> & H)%IH; [|simpl; lia]. rewrite Es in H.
        exists (S n'); split; [lia|eauto].
  - setoid_rewrite word_split_scope. destruct (scope_step ctx c) as [|c'| |].
    + destruct z as [|x z]; simpl; [rewrite Es; intros; inv_res|].
      intros (n' & -> & H)%IH; [|simpl; lia]. rewrite Es in H.
      exists (S (S n')); split; [lia|]. eexists; split; [done|]. eauto 7.
    + destruct (th8ParseStackPush _ stack c') as [s'|] eqn:Ep; [|intros; inv_res].
      intros (n' & -> & H)%IH; [|simpl; lia]. rewrite (push_items _ _ _ Ep), Es in H.
      exists (S n'); split; [lia|eauto].
    + intros (n' & -> & H)%IH; [|simpl; lia]. simpl in H; rewrite Es in H.
      exists (S n'); split; [lia|eauto].
    + intros (n' & -> & H)%IH; [|simpl; lia]. rewrite Es in H.
      exists (S n'); split; [lia|eauto].
Qed.

Lemma NextWord_loop_complete N isCmd z : ∀ stack i n,
  (∀ n, realloc_ok n = true) → stack_room N stack z →
  word_split isCmd (ps_items stack) z n →
  th8NextWord_loop realloc_ok isCmd z stack i = Ok (i + n)%nat.
Proof.
  induction z as [z IH] using list_len_ind; intros stack i n Hok Hroom.
  destruct z as [|c z]; cbn [th8NextWord_loop].
  { intros [-> ->]%word_split_nil. f_equal; lia. }
  destruct (ps_items stack) as [|ctx s] eqn:Es.
  - rewrite word_split_top. unfold word_stop.
    destruct (th8IsSpace c); [intros ->; f_equal; lia|].
    destruct (isCmd && (c =? ";"%ch)); [intros ->; f_equal; lia|].
    destruct (c =? "\"%ch) eqn:E; simpl.
    + destruct z as [|d z]; simpl; [rewrite Es; intros ->; f_equal; lia|].
      destruct (d =? NEWLINE); [intros ->; f_equal; lia|].
      intros (n' & -> & H). rewrite IH with (n := n'); [f_equal; lia|simpl; lia|done|eauto with th8|by rewrite Es].
    + intros (n' & -> & H). destruct (word_opener c) eqn:Eo.
      * destruct (push_room N stack c c z) as (s' & -> & Hs' & Hr); [done..|].
        rewrite IH with (n := n'); [f_equal; lia|simpl; lia|done|done|by rewrite Hs', Es].
      * rewrite IH with (n := n'); [f_equal; lia|simpl; lia|done|eauto with th8|by rewrite Es].
  - rewrite word_split_scope. intros (n' & -> & H). destruct (scope_step ctx c) as [|c'| |].
    + destruct H as (x & z' & n'' & -> & -> & H).
      rewrite IH with (n := n''); [f_equal; lia|simpl; lia|done|eauto with th8|by rewrite Es].
    + destruct (push_room N stack c' c z) as (s' & -> & Hs' & Hr); [done..|].
      rewrite IH with (n := n'); [f_equal; lia|simpl; lia|done|done|by rewrite Hs', Es].
    + rewrite IH with (n := n'); [f_equal; lia|simpl; lia|done|eauto with th8|by simpl; rewrite Es].
    + rewrite IH with (n := n'); [f_equal; lia|simpl; lia|done|eauto with th8|by rewrite Es].
Qed.

Lemma NextWord_loop_error N isCmd z : ∀ stack i e,
  (∀ n, realloc_ok n = true) → stack_room N stack z →
  th8NextWord_loop realloc_ok isCmd z stack i = Err e → ∃ ctx, e = unmatched ctx.
Proof.
  induction z as [z IH] using list_len_ind; intros stack i e Hok Hroom.
  destruct z as [|c z]; cbn [th8NextWord_loop];
    destruct (ps_items stack) as [|ctx s] eqn:Es; try (intros; inv_res; subst; by eauto).
  - repeat case_if; try (intros; inv_res; done).
    + destruct z as [|d z]; [eapply IH; simpl; eauto with th8; lia|].
      case_if; [intros; inv_res|]. eapply IH; simpl; eauto with th8; lia.
    + destruct (push_room N stack c c z) as (s' & -> & Hs' & Hr); [done..|].
      eapply IH; eauto; simpl; lia.
    + eapply IH; eauto with th8; simpl; lia.
  - destruct (scope_step ctx c) as [|c'| |].
    + destruct z as [|x z]; eapply IH; simpl; eauto with th8; lia.
    + destruct (push_room N stack c' c z) as (s' & -> & Hs' & Hr); [done..|].
      eapply IH; eauto; simpl; lia.
    + eapply IH; eauto with th8; simpl; lia.
    + eapply IH; eauto with th8; simpl; lia.
Qed.

(** The opener that th8NextWord consumes first opens the same scope as in
    the loop, so the special case does not change the word. *)
Lemma NextWord_unfold isCmd z :
  th8NextWord realloc_ok isCmd z = th8NextWord_loop realloc_ok isCmd z th8ParseStackInit 0.
Proof.
  destruct z as [|c z]; [done|]. unfold th8NextWord.
  destruct ((c =? DQUOTE) || (c =? "{"%ch)) eqn:E; [|done].
  cbn [th8NextWord_loop ps_items th8ParseStackInit].
  apply orb_true_iff in E as [E|E]; bool_to_prop; subst; destruct isCmd; done.
Qed.
End scanner_facts.

(** ** Properties *)

(** The block a successful th8NextCommand measures: an opening brace or
    bracket followed by a body of that scope. *)
Definition block_at (z : bytes) (n : nat) : Prop :=
  ∃ first w rest, z = first :: w ++ rest ∧ (first = "{"%ch ∨ first = "["%ch) ∧
    scope_body first w ∧ n = S (length w).

Lemma NextCommand_block_at (realloc_ok : Z → bool) (z : bytes) (n : nat)
  :
  (∀ k, realloc_ok k = true) → zlen z < 2 ^ 60 →
  th8NextCommand realloc_ok z = Ok n ↔ block_at z n.
Proof.
  intros Hok Hlen.
  unfold th8NextCommand, block_at. destruct z as [|c z].
  { split; [intros; inv_res|]. intros (? & ? & ? & ? & _); done. }
  rewrite zlen_cons in Hlen.
  destruct ((c =? "{"%ch) || (c =? "["%ch)) eqn:E.
  - assert (negb (c =? "{"%ch) && negb (c =? "["%ch) = false) as -> by
      (apply orb_true_iff in E as [E|E]; rewrite E; [done|apply andb_false_r]).
    apply orb_true_iff in E; rewrite !Z.eqb_eq in E.
    destruct (push_room realloc_ok (1 + zlen z) th8ParseStackInit c c z) as (s & -> & Hs & Hr);
      [done|apply init_room; lia|]. simpl in Hs. split.
    + intros (w & rest & -> & Hw & ->)%NextCommand_loop_sound. rewrite Hs in Hw.
      inversion Hw as [|? ? w1 w2 Hb Hn]; subst. apply scopes_body_nil_inv in Hn; subst.
      rewrite app_nil_r. exists c, w1, rest; eauto.
    + intros (first & w & rest & Heq & Hf & Hb & ->). simplify_eq.
      erewrite NextCommand_loop_complete; [done|done|done|]. rewrite Hs.
      rewrite <- (app_nil_r w); auto with th8.
  - apply orb_false_iff in E as [E1 E2]; rewrite E1, E2; simpl. split; [intros; inv_res|].
    intros (first & w & rest & Heq & Hf & Hb & ->). simplify_eq. bool_to_prop. tauto.
Qed.

(** C38.  th8NextCommand decides the block grammar: with the nesting stack's
    storage granted it returns TH8_OK with count [n] exactly when the first
    [n] bytes are a balanced braced or bracketed block in which braces,
    brackets and quotes nest by the rules of their innermost scope. *)
Theorem th8NextCommand_refines (realloc_ok : Z → bool) (z : bytes) (n : nat)
  (Hok : ∀ k, realloc_ok k = true) (Hlen : zlen z < 2 ^ 60) :
  th8NextCommand realloc_ok z = Ok n ↔ block_at z n.
Proof. by apply NextCommand_block_at. Qed.

Lemma th8NextCommand_refines_witness :
  th8NextCommand (λ _, true) (bytes_of_string "[a {]} b] c") = Ok 9%nat ↔
  block_at (bytes_of_string "[a {]} b] c") 9.
Proof. apply (th8NextCommand_refines (λ _, true)); [done|vm_compute; done]. Defined.

(** The word a successful th8NextWord measures: a maximal word of the word
    grammar, ended by white space, a separator, a line continuation or the
    end of the input. *)
Definition word_at (isCmd : bool) (z : bytes) (n : nat) : Prop :=
  ∃ w rest, z = w ++ rest ∧ word_body isCmd (bool_decide (rest = [])) w ∧
    word_stop isCmd rest = true ∧ n = length w.

Lemma NextWord_word_at (realloc_ok : Z → bool) (isCmd : bool) (z : bytes) (n : nat)
  :
  (∀ k, realloc_ok k = true) → zlen z < 2 ^ 60 →
  th8NextWord realloc_ok isCmd z = Ok n ↔ word_at isCmd z n.
Proof.
  intros Hok Hlen.
  rewrite NextWord_unfold. transitivity (word_split isCmd [] z n).
  - split.
    + intros (n' & -> & H)%NextWord_loop_sound. done.
    + intros H. rewrite NextWord_loop_complete with (N := 1 + zlen z) (n := n); try done.
      pose proof (zlen_nonneg z). unfold stack_room, ps_top; simpl. rewrite zlen_nil.
      unfold TH8_PARSE_NEST_INLINE; lia.
  - split.
    + intros (w1 & w2 & rest & -> & H1 & H2 & Hr & ->). apply scopes_body_nil_inv in H1; subst.
      exists w2, rest; auto.
    + intros (w & rest & -> & H2 & Hr & ->). exists [], w, rest; split_and!; auto with th8.
Qed.

(** th8NextWord decides the word grammar: with storage granted it returns
    TH8_OK with count [n] exactly when the first [n] bytes are a word followed
    by a word terminator, where [;] terminates only in command mode. *)
Theorem th8NextWord_refines (realloc_ok : Z → bool) (isCmd : bool) (z : bytes) (n : nat)
  (Hok : ∀ k, realloc_ok k = true) (Hlen : zlen z < 2 ^ 60) :
  th8NextWord realloc_ok isCmd z = Ok n ↔ word_at isCmd z n.
Proof. by apply NextWord_word_at. Qed.

Lemma th8NextWord_refines_witness :
  th8NextWord (λ _, true) true (bytes_of_string "a{b c}\ [d]; x") = Ok 11%nat ↔
  word_at true (bytes_of_string "a{b c}\ [d]; x") 11.
Proof. apply (th8NextWord_refines (λ _, true)); [done|vm_compute; done]. Defined.

(** The two block scanners fail only for the reason they report: with
    storage granted, on a well-formed opener the error is the one of an open
    scope (never [ENestingTooDeep]) and then no prefix of the input is a
    block, respectively a word; otherwise it is the contract violation. *)
Theorem scanner_errors (realloc_ok : Z → bool) (isCmd : bool) (z : bytes)
  (Hok : ∀ k, realloc_ok k = true) (Hlen : zlen z < 2 ^ 60) :
  (∀ e, th8NextWord realloc_ok isCmd z = Err e →
     (∃ ctx, e = unmatched ctx) ∧ ∀ n, ¬ word_at isCmd z n) ∧
  (∀ e, th8NextCommand realloc_ok z = Err e →
     (∀ n, ¬ block_at z n) ∧
     match z with
     | [] => e = EEmptyInput
     | c :: _ => if (c =? "{"%ch) || (c =? "["%ch) then ∃ ctx, e = unmatched ctx
                 else e = EExpectedOpener
     end).
Proof.
  split; intros e He; split.
  - rewrite NextWord_unfold in He. eapply (NextWord_loop_error _ (1 + zlen z)); [done| |done].
    pose proof (zlen_nonneg z). unfold stack_room, ps_top; simpl. rewrite zlen_nil.
    unfold TH8_PARSE_NEST_INLINE; lia.
  - intros n Hn%(NextWord_word_at realloc_ok); [|done..]. congruence.
  - intros n Hn%(NextCommand_block_at realloc_ok); [|done..]. congruence.
  - unfold th8NextCommand in He. destruct z as [|c z]; [by inv_res|].
    rewrite zlen_cons in Hlen.
    destruct (c =? "{"%ch), (c =? "["%ch); cbn [negb andb orb] in *; [..|by inv_res].
    all: destruct (push_room realloc_ok (1 + zlen z) th8ParseStackInit c c z)
      as (s & Hs & _ & Hr); [done|apply init_room; lia|]; rewrite Hs in He.
    all: eapply NextCommand_loop_error; eauto.
Qed.

Lemma scanner_errors_witness :
  th8NextCommand (λ _, true) (bytes_of_string "[a {b] c") = Err EUnmatchedBraces ∧
  ∀ n, ¬ block_at (bytes_of_string "[a {b] c") n.
Proof.
  split; [reflexivity|].
  destruct (scanner_errors (λ _, true) true (bytes_of_string "[a {b] c")) as [_ H];
    [done|vm_compute; done|].
  exact (proj1 (H EUnmatchedBraces eq_refl)).
Defined.

(** ** White space, escapes and variable references *)

Lemma th8NextSpace_loop_spec fuel z :
  (length z <= fuel)%nat →
  let n := th8NextSpace_loop fuel z in
  (n <= length z)%nat ∧
  Forall (λ c, th8IsSpace c = true ∨ c = "\"%ch) (take n z) ∧
  match drop n z with
  | [] => True
  | c :: z' => th8IsSpace c = false ∧ (c = "\"%ch → next_is NEWLINE z' = false)
  end.
Proof.
  revert z; induction fuel as [|fuel IH]; intros z Hz; simpl.
  { destruct z; simpl in *; [split_and!; auto; constructor|lia]. }
  destruct z as [|c z]; simpl in *; [split_and!; auto; constructor|].
  destruct ((c =? "\"%ch) && next_is NEWLINE z) eqn:E.
  - apply andb_true_iff in E as [E1 E2]. bool_to_prop; subst.
    destruct z as [|d z]; simpl in *; [done|]. bool_to_prop; subst.
    pose proof (span_le is_blank z) as Hk. pose proof (span_forall is_blank z) as Hf.
    set (k := span is_blank z) in *.
    destruct (IH (drop k z)) as (H1 & H2 & H3); [rewrite length_drop; lia|].
    rewrite length_drop in H1. split; [lia|]. rewrite drop_drop in H3. split; [|done].
    constructor; [by right|]. constructor; [by left|].
    rewrite <- take_take_drop. apply Forall_app; split; [|done].
    eapply Forall_impl; [exact Hf|]. intros x Hx; left. unfold is_blank in Hx.
    apply orb_true_iff in Hx as [?|?]; bool_to_prop; by subst.
  - destruct (th8IsSpace c) eqn:Es.
    + destruct (IH z) as (H1 & H2 & H3); [lia|]. split; [lia|]. split; [|done].
      constructor; auto.
    + split; [lia|]. split; [constructor|]. split; [done|]. intros ->. done.
Qed.

(** th8NextSpace consumes a prefix made of white space (newlines
    included) and line continuations, and stops only at the end of the input
    or at a byte that is neither; the fuel, the input length, never runs out. *)
Theorem th8NextSpace_spec (z : bytes) :
  let n := th8NextSpace z in
  (n <= length z)%nat ∧
  Forall (λ c, th8IsSpace c = true ∨ c = "\"%ch) (take n z) ∧
  match drop n z with
  | [] => True
  | c :: z' => th8IsSpace c = false ∧ (c = "\"%ch → next_is NEWLINE z' = false)
  end.
Proof. by apply th8NextSpace_loop_spec. Qed.

(** A newline is skipped like any other white space, although the
    function's comment says that newlines are not consumed. *)
Theorem th8NextSpace_takes_newline (z : bytes) :
  th8NextSpace (NEWLINE :: z) = S (th8NextSpace z).
Proof. done. Qed.

Lemma span_take_le p n z : (span p (take n z) <= length z)%nat.
Proof. etransitivity; [apply span_le|]. rewrite length_take; lia. Qed.

Lemma scan_name_le z : (scan_name z <= length z)%nat.
Proof.
  induction z as [z IH] using list_len_ind. destruct z as [|c z]; [done|]. simpl.
  destruct (th8IsAlnum c || _); simpl; [specialize (IH z); simpl in IH; lia|].
  destruct z as [|d z]; simpl; [lia|].
  destruct (_ && _); [specialize (IH z); simpl in *; lia|lia].
Qed.

Lemma scan_index_bounds z k : scan_index z = Some k → (1 <= k <= length z)%nat.
Proof.
  revert k; induction z as [z IH] using list_len_ind. intros k. destruct z as [|c z]; [done|].
  simpl. destruct (c =? _); [intros [= <-]; lia|]. destruct (c =? _).
  - destruct z as [|d z]; [done|]. intros (n & H & ->)%fmap_Some.
    apply IH in H; simpl in *; lia.
  - intros (n & H & ->)%fmap_Some. apply IH in H; simpl in *; lia.
Qed.

(** An escape of two bytes or more always scans. *)
Lemma NextEscape_two (c d : Z) (z : bytes) :
  ∃ n, th8NextEscape (c :: d :: z) = Ok n ∧ (2 <= n <= 2 + length z)%nat.
Proof.
  assert (∀ i, (2 <= i <= 2 + length z)%nat →
    ∃ n, (if (length (c :: d :: z) <? i)%nat then Err ETruncatedEscape else Ok i) = Ok n ∧
         (2 <= n <= 2 + length z)%nat) as Hi.
  { intros i Hi. exists i. simpl length. split; [|done].
    by destruct (Nat.ltb_spec (S (S (length z))) i); [lia|]. }
  unfold th8NextEscape. apply Hi.
  pose proof (span_le th8IsHexDig z). pose proof (span_le is_blank z).
  pose proof (span_take_le th8IsHexDig 4 z). pose proof (span_take_le th8IsHexDig 8 z).
  pose proof (span_take_le th8IsOctDig 2 z). repeat case_if; lia.
Qed.

Lemma NextVarName_two (c d : Z) (z : bytes) n :
  th8NextVarName (c :: d :: z) = Ok n → (1 <= n <= 2 + length z)%nat.
Proof.
  unfold th8NextVarName. destruct (d =? "{"%ch).
  + destruct (Nat.leb_spec (length z) (span (λ c, negb (c =? "}"%ch)) z));
      intros; inv_res; subst; lia.
  + set (i0 := if (d =? ":"%ch) && next_is ":"%ch z then 3%nat else 1%nat).
    assert ((1 <= i0 <= 2 + length z)%nat).
    { subst i0. destruct z; simpl; repeat case_if; lia. }
    pose proof (scan_name_le (drop i0 (c :: d :: z))) as Hn.
    rewrite length_drop in Hn. simpl length in Hn.
    set (i := (i0 + scan_name _)%nat) in *.
    destruct (drop i (c :: d :: z)) as [|x w] eqn:Ed; [intros; inv_res; subst; lia|].
    apply (f_equal length) in Ed. rewrite length_drop in Ed. simpl in Ed.
    destruct (x =? "("%ch); [|intros; inv_res; subst; lia].
    destruct (scan_index w) eqn:Ek; intros; inv_res; subst.
    apply scan_index_bounds in Ek. lia.
Qed.

Lemma NextEscape_bounds z n : th8NextEscape z = Ok n → (2 <= n <= length z)%nat.
Proof.
  destruct z as [|c [|d z]]; [done..|]. destruct (NextEscape_two c d z) as (n' & -> & H).
  intros. inv_res. subst. simpl. lia.
Qed.

Lemma NextVarName_bounds z n :
  z ≠ [] → th8NextVarName z = Ok n → (1 <= n <= length z)%nat.
Proof.
  destruct z as [|c [|d z]]; intros Hz H; [done|injection H as <-; simpl; lia|].
  apply NextVarName_two in H. simpl. lia.
Qed.

Section bounds.
Context (realloc_ok : Z → bool).

Lemma NextCommand_bounds z n :
  th8NextCommand realloc_ok z = Ok n → (2 <= n <= length z)%nat.
Proof.
  unfold th8NextCommand. destruct z as [|c z]; [done|]. case_if; [done|].
  destruct (th8ParseStackPush _ _ _) as [s|] eqn:E; [|done]. apply push_items in E.
  intros (w & rest & -> & Hw & ->)%NextCommand_loop_sound. rewrite E in Hw.
  destruct w as [|x w]; [by apply scopes_body_cons_nil in Hw|].
  simpl. rewrite length_app. lia.
Qed.

Lemma NextWord_bounds isCmd z n : th8NextWord realloc_ok isCmd z = Ok n → (n <= length z)%nat.
Proof.
  rewrite NextWord_unfold. intros (n' & -> & w1 & w2 & rest & -> & _ & _ & _ & ->)%NextWord_loop_sound.
  rewrite !length_app. lia.
Qed.
End bounds.

(** The scanners stay inside the buffer and make progress: an escape of
    at least two bytes always scans, to at least two bytes and at most the
    whole input, and a variable reference to at least its [$]. *)
Theorem scanners_in_bounds (c d : Z) (z : bytes) :
  (∃ n, th8NextEscape (c :: d :: z) = Ok n ∧ (2 <= n <= 2 + length z)%nat) ∧
  (∀ n, th8NextVarName (c :: d :: z) = Ok n → (1 <= n <= 2 + length z)%nat).
Proof.
  split; [apply NextEscape_two|apply NextVarName_two].
Qed.

Lemma scan_name_alnum name rest :
  Forall (λ c, th8IsAlnum c = true) name →
  scan_name (name ++ rest) = (length name + scan_name rest)%nat.
Proof.
  induction 1 as [|c name Hc _ IH]; simpl; [done|]. by rewrite Hc, IH.
Qed.

Lemma scan_name_paren w : scan_name ("("%ch :: w) = O.
Proof. by destruct w. Qed.

Lemma scan_index_plain idx rest :
  Forall (λ c, c ≠ ")"%ch ∧ c ≠ "\"%ch) idx →
  scan_index (idx ++ ")"%ch :: rest) = Some (S (length idx)).
Proof.
  induction 1 as [|c idx [H1 H2] _ IH]; simpl; [done|].
  apply Z.eqb_neq in H1 as ->. apply Z.eqb_neq in H2 as ->. by rewrite IH.
Qed.

Lemma alnum_not c k : th8IsAlnum c = true → th8IsAlnum k = false → (c =? k) = false.
Proof. intros Hc Hk. apply Z.eqb_neq. congruence. Qed.

(** In [$name(index)] the subscript ends at the first close parenthesis
    that no backslash precedes: an open parenthesis inside the subscript does
    not nest, although the function's comment speaks of depth tracking. *)
Theorem th8NextVarName_subscript (name idx rest : bytes)
  (Hname : Forall (λ c, th8IsAlnum c = true) name) (Hne : name ≠ [])
  (Hidx : Forall (λ c, c ≠ ")"%ch ∧ c ≠ "\"%ch) idx) :
  th8NextVarName ("$"%ch :: name ++ "("%ch :: idx ++ ")"%ch :: rest) =
  Ok (1 + length name + 1 + length idx + 1)%nat.
Proof.
  destruct name as [|c1 name]; [done|]. unfold th8NextVarName. simpl app.
  inversion Hname as [|? ? Hc1 Hn]; subst.
  rewrite !(alnum_not c1) by done. cbn [andb drop].
  change (c1 :: name ++ ?w) with ((c1 :: name) ++ w).
  rewrite scan_name_alnum, scan_name_paren, Nat.add_0_r by done. cbn [Nat.add drop].
  rewrite drop_app_length. simpl. rewrite scan_index_plain by done. f_equal; lia.
Qed.

Lemma th8NextVarName_subscript_witness :
  th8NextVarName (bytes_of_string "$a(x(y)z)") = Ok 7%nat.
Proof.
  apply (th8NextVarName_subscript ["a"%ch] (bytes_of_string "x(y") (bytes_of_string "z)"));
    [repeat constructor|discriminate|].
  repeat (constructor; [split; vm_compute; discriminate|]). constructor.
Defined.
