(* ===== verification/Script.v ===== *)
(** * Script: the commands of a script (th8CountNewlines and the scanning half
    of th8EvalIteration, th8ParseCommand and Th8_Complete of
    src/src/th8_core.c).

    The evaluator skips semicolons, white space and comments, then scans words
    until the end of the command, and counts newlines on the way.  The
    tokenizer th8ParseCommand scans the same texts for tools, and Th8_Complete
    tells a shell whether a text is a whole script.  Reading past the end of
    the script is an outcome of its own. *)

From S2P Require Import Prelude CharClass Memory Parser.

(** Adds the newlines among the first [n] bytes to the line counter; [None]
    when the buffer ends before. *)
Fixpoint th8CountNewlines (z : bytes) (n : nat) (nLine : Z) : option Z :=
  match n, z with
  | O, _ => Some nLine
  | S _, [] => None
  | S n', c :: z' => th8CountNewlines z' n' (if c =? NEWLINE then nLine + 1 else nLine)
  end.

(** A comment runs to the end of its line. *)
Fixpoint comment_len (z : bytes) : nat :=
  match z with
  | [] => O
  | _ :: z' => if th8EndOfLine z then O else S (comment_len z')
  end.

Definition skip_semicolon (z : bytes) : bytes :=
  match z with c :: z' => if c =? ";"%ch then z' else z | [] => [] end.

(** [for (;;)]: to the first byte of a command, or to the end of the input.  A
    comment takes a byte or more, so the length of the input and one is fuel
    enough. *)
Fixpoint skip_loop (fuel : nat) (z : bytes) (nLine : Z) : option (bytes * Z) :=
  match fuel with
  | O => None
  | S fuel' =>
      let z := skip_semicolon z in
      let nSpace := th8NextSpace z in
      nLine ← th8CountNewlines z nSpace nLine;
      let z := drop nSpace z in
      match z with
      | [] => Some ([], nLine)
      | c :: _ =>
          if c =? "#"%ch then
            let k := comment_len z in
            nLine ← th8CountNewlines z k nLine;
            skip_loop fuel' (drop k z) nLine
          else Some (z, nLine)
      end
  end.

Inductive scan_end : Type :=
| Ended (zInput : bytes) (nLine : Z)       (* the command ends before zInput *)
| Failed (e : parse_error) (nLine : Z)
| Overread.                                (* a read past the end of the script *)

Definition ends_command (z : bytes) : bool :=
  match z with [] => true | c :: _ => (c =? ";"%ch) || th8EndOfLine z end.

Section scan.
Context (realloc_ok : Z → bool).

(** The scan of the words of a command.  When th8NextWord fails it leaves
    [nWord] at the length of the word before, and the newlines of that many
    bytes are counted all the same. *)
Fixpoint scan_loop (fuel : nat) (z : bytes) (nWord : nat) (nLine : Z) : scan_end :=
  if ends_command z then Ended z nLine
  else
    match fuel with
    | O => Ended z nLine
    | S fuel' =>
        let nSpace := th8NextSpace z in
        match th8CountNewlines z nSpace nLine with
        | None => Overread
        | Some nLine =>
            let z := drop nSpace z in
            match th8NextWord realloc_ok true z with
            | Ok nWord =>
                match th8CountNewlines z nWord nLine with
                | None => Overread
                | Some nLine => scan_loop fuel' (drop nWord z) nWord nLine
                end
            | Err e =>
                match th8CountNewlines z nWord nLine with
                | None => Overread
                | Some nLine => Failed e nLine
                end
            end
        end
    end.

(** What th8EvalIteration finds at the current position: the command text is
    what lies between [zFirst] and [zInput]. *)
Inductive scan : Type :=
| Exhausted (nLine : Z)
| Command (zFirst zInput : bytes) (nLine : Z)
| ScanFailed (e : parse_error) (zFirst : bytes) (nLine : Z)
| ScanOverread.

Definition next_command (z : bytes) (nLine : Z) : scan :=
  match skip_loop (S (length z)) z nLine with
  | None => ScanOverread
  | Some ([], nLine) => Exhausted nLine
  | Some (zFirst, nLine) =>
      match scan_loop (length zFirst) zFirst 0 nLine with
      | Ended zInput nLine => Command zFirst zInput nLine
      | Failed e nLine => ScanFailed e zFirst nLine
      | Overread => ScanOverread
      end
  end.

(** ** th8ParseCommand *)

(** A word of the command: its offset and length in the script, its line, and
    whether it is a TH8_TOKEN_SIMPLE_WORD. *)
Record Th8_Token : Type := mkToken { t_zData : nat; t_nData : nat; t_nLine : Z; t_simple : bool }.

Record Th8_Parse : Type := mkParse {
  p_zCommand : option nat; p_nCommand : nat; p_nLine : Z; p_aWord : list Th8_Token;
  p_zComment : option nat; p_nComment : nat; p_zAfter : nat
}.

Definition at_terminator (z : bytes) : bool :=
  match z with [] => true | c :: _ => (c =? ";"%ch) || (c =? NEWLINE) || (c =? 13) end.

Fixpoint skip_lead (z : bytes) (nLine : Z) : bytes * Z :=
  match z with
  | [] => ([], nLine)
  | c :: z' =>
      if th8IsSpace c || (c =? NEWLINE) || (c =? 13) || (c =? ";"%ch)
      then skip_lead z' (if c =? NEWLINE then nLine + 1 else nLine)
      else (z, nLine)
  end.

(** The comment loop; an escaped byte is taken with its backslash. *)
Fixpoint parse_comment (z : bytes) : nat :=
  match z with
  | [] => O
  | c :: z' =>
      if c =? NEWLINE then O
      else if c =? "\"%ch then
        match z' with [] => 1%nat | _ :: z'' => S (S (parse_comment z'')) end
      else S (parse_comment z')
  end.

Definition simple_word (w : bytes) : bool :=
  match w with
  | c :: _ =>
      (c =? "{"%ch) ||
      forallb (λ c, negb ((c =? "$"%ch) || (c =? "["%ch) || (c =? "\"%ch))) w
  | [] => true
  end.

(** [grow] says whether the word array could grow to the given capacity. *)
Fixpoint parse_words (grow : Z → bool) (fuel n0 : nat) (z : bytes) (nLine nAlloc : Z)
    (ws : list Th8_Token) : Z * bytes * list Th8_Token :=
  if at_terminator z then (TH8_OK, z, ws)
  else
    match fuel with
    | O => (TH8_OK, z, ws)
    | S fuel' =>
        let z := drop (th8NextSpace z) z in
        if at_terminator z then (TH8_OK, z, ws)
        else
          match th8NextWord realloc_ok true z with
          | Err _ => (TH8_ERROR, z, [])
          | Ok O => (TH8_OK, z, ws)
          | Ok nWord =>
              let nNew := if nAlloc =? 0 then 8 else nAlloc * 2 in
              let full := nAlloc <=? zlen ws in
              if full && negb (grow nNew) then (TH8_ERROR, z, [])
              else
                parse_words grow fuel' n0 (drop nWord z) nLine (if full then nNew else nAlloc)
                  (ws ++ [mkToken (n0 - length z) nWord nLine (simple_word (take nWord z))])
          end
    end.

Definition th8ParseCommand (grow : Z → bool) (zScript : bytes) (nLine : Z) : Z * Th8_Parse :=
  let n0 := length zScript in
  let '(z, nLine') := skip_lead zScript nLine in
  let pos (z : bytes) := (n0 - length z)%nat in
  match z with
  | [] => (TH8_OK, mkParse None 0 nLine [] None 0 (pos z))
  | c :: _ =>
      if c =? "#"%ch then
        let k := parse_comment z in
        let z' := drop k z in
        (TH8_OK, mkParse None 0 nLine [] (Some (pos z)) k (pos (tail z')))
      else
        let '(rc, z', ws) := parse_words grow (length z) n0 z nLine' 0 [] in
        if negb (rc =? TH8_OK) then (rc, mkParse (Some (pos z)) 0 nLine' [] None 0 (pos z'))
        else
          let z' := if at_terminator z' then tail z' else z' in
          (TH8_OK, mkParse (Some (pos z)) (pos z' - pos z) nLine' ws None 0 (pos z'))
  end.
End scan.

(** ** Th8_Complete *)

Record nesting : Type := mkNesting { nBrace : Z; nBracket : Z; inQuote : bool }.

Definition nest_char (s : nesting) (c : Z) : nesting :=
  if inQuote s then mkNesting (nBrace s) (nBracket s) (negb (c =? DQUOTE))
  else if c =? "{"%ch then mkNesting (nBrace s + 1) (nBracket s) false
  else if c =? "}"%ch then mkNesting (if 0 <? nBrace s then nBrace s - 1 else nBrace s) (nBracket s) false
  else if c =? "["%ch then mkNesting (nBrace s) (nBracket s + 1) false
  else if c =? "]"%ch then
    mkNesting (nBrace s) (if 0 <? nBracket s then nBracket s - 1 else nBracket s) false
  else if c =? DQUOTE then mkNesting (nBrace s) (nBracket s) true
  else s.

Fixpoint complete_loop (z : bytes) (s : nesting) : nesting :=
  match z with
  | [] => s
  | c :: z' =>
      if c =? "\"%ch then
        match z' with [] => nest_char s c | _ :: z'' => complete_loop z'' s end
      else complete_loop z' (nest_char s c)
  end.

Definition Th8_Complete (zScript : bytes) : bool :=
  let s := complete_loop zScript (mkNesting 0 0 false) in
  (nBrace s =? 0) && (nBracket s =? 0) && negb (inQuote s).

(** ** Counting *)

Fixpoint newlines (z : bytes) : Z :=
  match z with [] => 0 | c :: z' => (if c =? NEWLINE then 1 else 0) + newlines z' end.

Lemma newlines_app z w : newlines (z ++ w) = newlines z + newlines w.
Proof. induction z; simpl; lia. Qed.

Lemma count_in z : ∀ n l, (n <= length z)%nat →
  th8CountNewlines z n l = Some (l + newlines (take n z)).
Proof.
  induction z as [|c z IH]; intros [|n] l Hn; simpl in *; try lia; [f_equal; lia..|].
  rewrite IH by lia. f_equal. case_if; lia.
Qed.

Lemma count_over z : ∀ n l, (length z < n)%nat → th8CountNewlines z n l = None.
Proof.
  induction z as [|c z IH]; intros [|n] l Hn; simpl in *; try lia; [done|]. apply IH. lia.
Qed.

(** ** Progress *)

Lemma NextSpace_le z : (th8NextSpace z <= length z)%nat.
Proof. by apply (th8NextSpace_loop_spec (length z) z). Qed.

(** Where no space can be skipped, no space is. *)
Lemma NextSpace_after z :
  match drop (th8NextSpace z) z with
  | [] => True
  | c :: z' => th8IsSpace c = false ∧ (c = "\"%ch → next_is NEWLINE z' = false)
  end.
Proof. by apply (th8NextSpace_loop_spec (length z) z). Qed.

Lemma comment_len_le z : (comment_len z <= length z)%nat.
Proof. induction z as [|c z IH]; [done|]. cbn [comment_len length]. case_if; lia. Qed.

Lemma comment_len_pos c z : c = "#"%ch → (1 <= comment_len (c :: z))%nat.
Proof. intros ->. cbn [comment_len]. case_if; [|lia]. done. Qed.

Section scan_facts.
Context (realloc_ok : Z → bool).

(** A byte that is neither white space, a continuation nor a semicolon starts a
    word of a byte or more. *)
Lemma NextWord_pos c z n :
  th8IsSpace c = false → (c = "\"%ch → next_is NEWLINE z = false) → c ≠ ";"%ch →
  th8NextWord realloc_ok true (c :: z) = Ok n → (1 <= n)%nat.
Proof.
  intros Hs Hc Hsemi. rewrite NextWord_unfold. intros (n' & -> & Hw)%NextWord_loop_sound.
  apply word_split_top in Hw. unfold word_stop in Hw. rewrite Hs in Hw.
  apply Z.eqb_neq in Hsemi. rewrite Hsemi in Hw. simpl in Hw.
  destruct (c =? "\"%ch) eqn:E; bool_to_prop; [rewrite (Hc E) in Hw|]; simpl in Hw.
  - destruct z; [lia|]. destruct Hw as (? & -> & _). lia.
  - destruct Hw as (? & -> & _). lia.
Qed.

(** ** The top of th8EvalIteration *)

(** Skipping stays inside the script, consumes what it skips, and stops at a
    byte that can start a command. *)
Lemma skip_loop_spec fuel : ∀ z l, (length z < fuel)%nat →
  ∃ skipped rest, skip_loop fuel z l = Some (rest, l + newlines skipped) ∧ z = skipped ++ rest ∧
    match rest with
    | [] => True
    | c :: z' => th8IsSpace c = false ∧ (c = "\"%ch → next_is NEWLINE z' = false) ∧ c ≠ "#"%ch ∧
                 (c = ";"%ch → skipped ≠ [])
    end.
Proof.
  induction fuel as [|fuel IH]; intros z l Hf; [lia|]. cbn [skip_loop].
  assert (Hsemi : ∃ s, z = s ++ skip_semicolon z ∧ newlines s = 0 ∧
    match skip_semicolon z with c :: _ => c = ";"%ch → s ≠ [] | [] => True end).
  { destruct z as [|c z]; [by exists []|]. simpl. destruct (c =? ";"%ch) eqn:E; bool_to_prop.
    - exists [c]. subst. split_and!; [done..|]. by destruct z.
    - by exists []. }
  destruct Hsemi as (s & Hz & Hs0 & Hs). set (z1 := skip_semicolon z) in *. clearbody z1. subst z.
  rewrite length_app in Hf. pose proof (NextSpace_le z1) as Hle.
  rewrite count_in by done. simpl. pose proof (NextSpace_after z1) as Hafter.
  set (n := th8NextSpace z1) in *.
  assert (Hz1 : z1 = take n z1 ++ drop n z1) by (by rewrite take_drop).
  destruct (drop n z1) as [|c z2] eqn:Ed.
  { exists (s ++ take n z1), []. rewrite newlines_app, Hs0. split_and!; [do 2 f_equal; lia| |done].
    by rewrite Hz1 at 1; rewrite app_assoc. }
  destruct (c =? "#"%ch) eqn:Eh; bool_to_prop.
  - pose proof (comment_len_le (c :: z2)). pose proof (comment_len_pos c z2 Eh).
    set (k := comment_len (c :: z2)) in *. rewrite count_in by done. cbn [mbind option_bind].
    assert (Hl : length z1 = (n + length (c :: z2))%nat)
      by (rewrite Hz1 at 1; rewrite length_app, length_take; lia).
    destruct (IH (drop k (c :: z2)) (l + newlines (take n z1) + newlines (take k (c :: z2))))
      as (s2 & rest & -> & Hr & Hp); [rewrite length_drop; simpl in *; lia|].
    exists (s ++ take n z1 ++ take k (c :: z2) ++ s2), rest.
    rewrite !newlines_app, Hs0. split_and!; [do 2 f_equal; lia| |].
    + rewrite Hz1 at 1. rewrite <- !app_assoc, <- Hr. by rewrite take_drop.
    + destruct rest as [|d rest]; [done|]. destruct Hp as (? & ? & ? & ?). split_and!; [done..|].
      intros _ Hn. apply app_nil in Hn as [_ Hn]. apply app_nil in Hn as [_ Hn].
      apply app_nil in Hn as [Hn _]. apply (f_equal length) in Hn. rewrite length_take in Hn.
      simpl in *. lia.
  - exists (s ++ take n z1), (c :: z2). rewrite newlines_app, Hs0.
    destruct Hafter as [Ha1 Ha2].
    split_and!; [do 2 f_equal; lia|by rewrite Hz1 at 1; rewrite app_assoc|done..|]. intros Hc Hn.
    apply app_nil in Hn as [Hn1 Hn2]. rewrite Hn2 in Hz1. simpl in Hz1. subst z1. by apply Hs.
Qed.

(** The scan of the words ends at the end of the command, with every newline
    counted, or with an error. *)
Lemma scan_loop_spec fuel : ∀ z n l, (length z <= fuel)%nat →
  match scan_loop realloc_ok fuel z n l with
  | Ended rest l' =>
      ∃ cmd, z = cmd ++ rest ∧ l' = l + newlines cmd ∧ ends_command rest = true ∧
        (ends_command z = false → cmd ≠ [])
  | Failed e l' =>
      ∃ w bad k, z = w ++ bad ∧ th8NextWord realloc_ok true bad = Err e ∧
        (k <= length bad)%nat ∧ l' = l + newlines (w ++ take k bad)
  | Overread =>
      ∃ w bad e, z = w ++ bad ∧ th8NextWord realloc_ok true bad = Err e ∧
        (length bad < n ∨ length bad < length w)%nat
  end.
Proof.
  induction fuel as [|fuel IH]; intros z n l Hf.
  { destruct z; [|simpl in Hf; lia]. simpl. exists []. split_and!; [done|simpl; lia|done|done]. }
  cbn [scan_loop]. destruct (ends_command z) eqn:Ee.
  { exists []. split_and!; [done|simpl; lia|done|done]. }
  pose proof (NextSpace_le z) as Hle. pose proof (NextSpace_after z) as Hafter.
  rewrite count_in by done. set (s := th8NextSpace z) in *.
  assert (Hz : z = take s z ++ drop s z) by (by rewrite take_drop).
  assert (Hlen : length (drop s z) = (length z - s)%nat) by apply length_drop.
  destruct (th8NextWord realloc_ok true (drop s z)) as [k|e] eqn:Ew.
  - pose proof (NextWord_bounds realloc_ok true _ _ Ew) as Hk. rewrite count_in by done.
    assert (Hpos : (1 <= s + k)%nat).
    { destruct (decide (s = 0%nat)) as [Hs|]; [|lia]. rewrite Hs, drop_0 in *.
      destruct z as [|c z]; [done|]. destruct Hafter as [Hc1 Hc2].
      assert (1 <= k)%nat; [|lia]. eapply NextWord_pos; [done|done| |exact Ew].
      intros ->. done. }
    set (rest := drop k (drop s z)) in *.
    assert (Hr : z = take s z ++ take k (drop s z) ++ rest)
      by (subst rest; by rewrite !take_drop).
    specialize (IH rest k (l + newlines (take s z) + newlines (take k (drop s z)))).
    assert (Hrl : length rest = (length z - s - k)%nat)
      by (subst rest; rewrite length_drop, Hlen; lia).
    specialize (IH ltac:(lia)). destruct (scan_loop _ _ _ _ _) as [rest' l'|e l'|].
    + destruct IH as (cmd & Hc & -> & He & _). exists (take s z ++ take k (drop s z) ++ cmd).
      rewrite !newlines_app. split_and!; [by rewrite <- !app_assoc, <- Hc|lia|done|].
      intros _ Hn. apply (f_equal length) in Hn. rewrite !length_app, !length_take in Hn.
      simpl in Hn. lia.
    + destruct IH as (w & bad & j & Hc & He & Hj & ->).
      exists (take s z ++ take k (drop s z) ++ w), bad, j.
      rewrite <- !app_assoc, !newlines_app, <- Hc. split_and!; [done..|lia].
    + destruct IH as (w & bad & e & Hc & He & Hj).
      exists (take s z ++ take k (drop s z) ++ w), bad, e. rewrite <- !app_assoc, <- Hc.
      split_and!; [done..|]. right. rewrite !length_app, !length_take. lia.
  - destruct (decide (n <= length (drop s z))%nat).
    + rewrite count_in by done. exists (take s z), (drop s z), n. rewrite newlines_app.
      split_and!; [done..|lia].
    + rewrite count_over by lia. exists (take s z), (drop s z), e. split_and!; [done..|]. left. lia.
Qed.
End scan_facts.

(** ** Properties *)

(** Finding the next command is total and stays inside the script unless a
    word fails to scan.  It consumes a byte or more, counts exactly the newlines
    it consumes, and cuts the script into what is skipped, the command, and a
    rest that is empty or starts with a semicolon or the end of a line; a script
    is exhausted only when all of it was skipped.  A read past the end takes a
    failing word that has fewer bytes after it than the words before it. *)
Theorem next_command_spec (realloc_ok : Z → bool) (z : bytes) (nLine : Z) :
  match next_command realloc_ok z nLine with
  | Exhausted l => l = nLine + newlines z
  | Command zFirst zInput l =>
      ∃ skipped cmd, z = skipped ++ zFirst ∧ zFirst = cmd ++ zInput ∧
        l = nLine + newlines (skipped ++ cmd) ∧ ends_command zInput = true ∧
        (length zInput < length z)%nat
  | ScanFailed e zFirst l =>
      ∃ skipped w bad, z = skipped ++ zFirst ∧ zFirst = w ++ bad ∧
        th8NextWord realloc_ok true bad = Err e
  | ScanOverread =>
      ∃ skipped w bad e, z = skipped ++ w ++ bad ∧
        th8NextWord realloc_ok true bad = Err e ∧ (length bad < length w)%nat
  end.
Proof.
  unfold next_command.
  destruct (skip_loop_spec (S (length z)) z nLine) as (sk & rest & -> & -> & Hr); [lia|].
  destruct rest as [|c rest]; [by rewrite app_nil_r|]. destruct Hr as (Hs & Hc & _ & Hsemi).
  pose proof (scan_loop_spec realloc_ok (length (c :: rest)) (c :: rest) 0
                (nLine + newlines sk) (le_n _)) as H.
  destruct (scan_loop _ _ _ _ _) as [zi l|e l|].
  - destruct H as (cmd & Hz & -> & He & Hne). exists sk, cmd. rewrite newlines_app.
    split_and!; [done..|lia|done|]. rewrite Hz, !length_app.
    destruct sk; [|simpl; lia]. destruct cmd; [|simpl; lia]. exfalso. apply Hne; [|done].
    simpl. destruct (c =? ";"%ch) eqn:E; bool_to_prop; [by destruct (Hsemi E)|]. simpl.
    unfold th8EndOfLine. simpl. rewrite Hs, andb_false_r. simpl.
    apply Z.eqb_neq. intros ->. done.
  - destruct H as (w & bad & k & Hz & He & _ & _). exists sk, w, bad. by rewrite Hz.
  - destruct H as (w & bad & e & Hz & He & [Hl|Hl]); [lia|]. exists sk, w, bad, e. by rewrite Hz.
Qed.

(** *** Plain words *)

(** A byte that any word takes as it is. *)
Definition plain (c : Z) : bool :=
  negb (th8IsSpace c || (c =? ";"%ch) || (c =? "\"%ch) || word_opener c).

Definition plain_word (w : bytes) : Prop := Forall (λ c, plain c = true) w ∧ w ≠ [].

Section plain_facts.
Context (realloc_ok : Z → bool).

Lemma plain_inv c : plain c = true →
  th8IsSpace c = false ∧ (c =? ";"%ch) = false ∧ (c =? "\"%ch) = false ∧ word_opener c = false.
Proof. unfold plain. intros H. bool_to_prop. rewrite !Z.eqb_neq. auto. Qed.

Lemma NextWord_loop_plain w rest : ∀ s i,
  ps_items s = [] → Forall (λ c, plain c = true) w → word_stop true rest = true →
  th8NextWord_loop realloc_ok true (w ++ rest) s i = Ok (i + length w)%nat.
Proof.
  induction w as [|c w IH]; intros s i Hs Hw Hr.
  - simpl. rewrite Nat.add_0_r. destruct rest as [|d rest]; simpl; rewrite Hs; [done|].
    unfold word_stop in Hr. destruct (th8IsSpace d); [done|].
    destruct (d =? ";"%ch); [done|]. simpl in *. apply andb_true_iff in Hr as [-> Hn].
    destruct rest as [|x rest]; [done|]. simpl in Hn. by rewrite Hn.
  - inversion Hw as [|? ? Hc Hw']; subst. apply plain_inv in Hc as (H1 & H2 & H3 & H4).
    simpl. rewrite Hs, H1, H2, H3, H4. rewrite IH by done. f_equal. lia.
Qed.

Lemma NextWord_plain w rest :
  Forall (λ c, plain c = true) w → word_stop true rest = true →
  th8NextWord realloc_ok true (w ++ rest) = Ok (length w).
Proof. intros. rewrite NextWord_unfold. by rewrite NextWord_loop_plain. Qed.

(** An open brace whose scope holds none of the bytes that could close it. *)
Lemma NextWord_open t :
  Forall (λ c, c ≠ "{"%ch ∧ c ≠ "}"%ch ∧ c ≠ "\"%ch) t →
  th8NextWord realloc_ok true ("{"%ch :: t) = Err EUnmatchedBraces.
Proof.
  intros Ht. unfold th8NextWord. cbn [Z.eqb Pos.eqb orb].
  destruct (th8ParseStackPush _ _ _) as [s|] eqn:E; [|done]. apply push_items in E. revert E.
  generalize 1%nat. induction Ht as [|c t (H1 & H2 & H3) _ IH]; intros i E; simpl; rewrite E; [done|].
  unfold scope_step. cbn [Z.eqb Pos.eqb].
  apply Z.eqb_neq in H1 as ->. apply Z.eqb_neq in H2 as ->. apply Z.eqb_neq in H3 as ->. by apply IH.
Qed.

Lemma NextSpace_plain c z : plain c = true → th8NextSpace (c :: z) = O.
Proof.
  intros (H1 & _ & H3 & _)%plain_inv. unfold th8NextSpace. simpl. by rewrite H1, H3.
Qed.

Lemma ends_plain c z : plain c = true → ends_command (c :: z) = false.
Proof.
  intros (H1 & H2 & _)%plain_inv. simpl. rewrite H2. unfold th8EndOfLine. simpl.
  rewrite H1, andb_false_r. simpl. apply Z.eqb_neq. intros ->. done.
Qed.

(** A command that starts with a plain word: the word is taken, and the scan
    goes on behind it. *)
Lemma next_command_plain w rest nLine :
  plain_word w → nth 0 w 0 ≠ "#"%ch → word_stop true rest = true →
  next_command realloc_ok (w ++ rest) nLine =
  match scan_loop realloc_ok (length (w ++ rest) - 1) rest (length w) (nLine + newlines w) with
  | Ended zInput l => Command (w ++ rest) zInput l
  | Failed e l => ScanFailed e (w ++ rest) l
  | Overread => ScanOverread
  end.
Proof.
  intros [Hw Hne] Hh Hr. destruct w as [|c w]; [done|]. simpl in Hh.
  assert (Hc : plain c = true) by (by inversion Hw). pose proof (plain_inv c Hc) as (_ & H2 & _).
  unfold next_command. cbn [skip_loop]. rewrite <- app_comm_cons. unfold skip_semicolon. rewrite H2.
  rewrite NextSpace_plain by done. cbn [th8CountNewlines mbind option_bind drop].
  apply Z.eqb_neq in Hh as ->. cbn [length scan_loop]. rewrite ends_plain, NextSpace_plain by done.
  rewrite (count_in _ 0) by lia. rewrite drop_0, take_0, app_comm_cons, NextWord_plain by done.
  rewrite count_in by (rewrite length_app; lia).
  rewrite take_app_length, drop_app_length.
  replace (S (length (w ++ rest)) - 1)%nat with (length (w ++ rest)) by lia.
  by replace (nLine + newlines []) with nLine by (simpl; lia).
Qed.
End plain_facts.

(** The scan of a command reads past the end of the script: whenever a
    plain word is followed by a brace that is not closed and fewer bytes than
    the word has are left, the newlines of as many bytes as the word has are
    counted from the brace on. *)
Theorem scan_overread (realloc_ok : Z → bool) (w t : bytes) (nLine : Z)
  (Hw : plain_word w) (Hcomment : nth 0 w 0 ≠ "#"%ch)
  (Ht : Forall (λ c, c ≠ "{"%ch ∧ c ≠ "}"%ch ∧ c ≠ "\"%ch) t)
  (Hlen : (length ("{"%ch :: t) < length w)%nat) :
  next_command realloc_ok (w ++ " "%ch :: "{"%ch :: t) nLine = ScanOverread.
Proof.
  rewrite next_command_plain by done. rewrite length_app.
  destruct (length w + _ - 1)%nat as [|fuel] eqn:E; [simpl in *; lia|]. cbn [scan_loop].
  change (ends_command (" "%ch :: "{"%ch :: t)) with false.
  change (th8NextSpace (" "%ch :: "{"%ch :: t)) with 1%nat.
  rewrite count_in by (simpl; lia). cbn [drop]. rewrite NextWord_open by done.
  by rewrite count_over.
Qed.

Lemma scan_overread_witness :
  next_command (λ _, true) (bytes_of_string "puts {") 1 = ScanOverread.
Proof.
  apply (scan_overread (λ _, true) (bytes_of_string "puts") [] 1);
    [split; [repeat constructor|discriminate]|discriminate|constructor|simpl; lia].
Defined.

(** A line continuation in front of an empty line merges the commands on
    both sides: the white space after the continuation is skipped together with
    the newline that ends the command. *)
Theorem continuation_merges_commands (realloc_ok : Z → bool) (w1 w2 : bytes) (nLine : Z)
  (H1 : plain_word w1) (Hcomment : nth 0 w1 0 ≠ "#"%ch) (H2 : plain_word w2) :
  let z := w1 ++ " "%ch :: "\"%ch :: NEWLINE :: NEWLINE :: w2 in
  next_command realloc_ok z nLine = Command z [] (nLine + newlines z).
Proof.
  cbv zeta. rewrite next_command_plain by done. destruct H2 as [H2 Hne].
  destruct w2 as [|c w2]; [done|]. assert (Hc : plain c = true) by (by inversion H2).
  rewrite length_app.
  destruct (length w1 + _ - 1)%nat as [|[|fuel]] eqn:E; [simpl in *; lia..|]. cbn [scan_loop].
  change (ends_command (" "%ch :: "\"%ch :: NEWLINE :: NEWLINE :: c :: w2)) with false.
  assert (Hs : th8NextSpace (" "%ch :: "\"%ch :: NEWLINE :: NEWLINE :: c :: w2) = 4%nat).
  { pose proof (plain_inv c Hc) as (Hc1 & _ & Hc3 & _).
    unfold th8NextSpace. simpl. by rewrite Hc1, Hc3. }
  rewrite Hs, count_in by (simpl; lia). cbn [drop].
  pose proof (NextWord_plain realloc_ok (c :: w2) [] H2 eq_refl) as Hw. rewrite app_nil_r in Hw.
  rewrite Hw, count_in, drop_all, firstn_all by done. cbn [scan_loop ends_command].
  f_equal. rewrite newlines_app. cbn [newlines take]. ring.
Qed.

Lemma continuation_merges_commands_witness :
  let z := bytes_of_string "a" ++ " "%ch :: "\"%ch :: NEWLINE :: NEWLINE :: bytes_of_string "b" in
  next_command (λ _, true) z 1 = Command z [] 3.
Proof.
  apply (continuation_merges_commands (λ _, true) (bytes_of_string "a") (bytes_of_string "b") 1);
    [split; [repeat constructor|discriminate]|discriminate|split; [repeat constructor|discriminate]].
Defined.

(** Blanks at the end of a line make th8ParseCommand take the next line into the
    command; the evaluator ends it. *)
Example parse_merges_lines :
  let z := bytes_of_string "a " ++ NEWLINE :: bytes_of_string "b" in
  map t_zData (p_aWord (snd (th8ParseCommand (λ _, true) (λ _, true) z 1))) = [0; 3]%nat ∧
  next_command (λ _, true) z 1 = Command z (drop 1 z) 1.
Proof. split; vm_compute; reflexivity. Qed.

(** Th8_Complete counts a quote inside braces, which the scanner takes as an
    ordinary byte: it asks for more input after a whole script. *)
Example complete_quote_in_braces :
  let z := bytes_of_string "a {" ++ DQUOTE :: bytes_of_string "}" in
  Th8_Complete z = false ∧ next_command (λ _, true) z 1 = Command z [] 1.
Proof. split; vm_compute; reflexivity. Qed.
