(* ===== verification/Subst.v ===== *)
(** * Subst: backslash, variable and command substitution (th8HexVal,
    th8SubstEscape, th8SubstCommand, th8SubstWord and Th8_Subst of
    src/src/th8_core.c).

    The engine is written against two interfaces: an output [Sink] and the
    interpreter operations it calls back, [SubstInterp], so that what holds of
    it holds for every evaluator and every variable store. *)

From S2P Require Import Prelude CharClass Memory Buffer Utf8 Parser.

(** ** Escapes *)

Definition th8HexVal (c : Z) : Z :=
  if between "0"%ch "9"%ch c then c - "0"%ch
  else if between "a"%ch "f"%ch c then c - "a"%ch + 10
  else if between "A"%ch "F"%ch c then c - "A"%ch + 10
  else -1.

(** [val = (val << 4) | th8HexVal(c)] in a 32-bit int, over the digits; a
    shift out of the sign bit is taken as two's complement. *)
Definition hex_accum (ds : bytes) : Z :=
  fold_left (λ val c, swrap 32 (Z.lor (Z.shiftl val 4) (th8HexVal c))) ds 0.
Definition oct_accum (ds : bytes) : Z :=
  fold_left (λ val c, swrap 32 (Z.lor (Z.shiftl val 3) (c - "0"%ch))) ds 0.

(** The bytes an escape sequence is replaced by. *)
Definition th8SubstEscape (zEsc : bytes) : bytes :=
  match zEsc with
  | [] | [_] => ["\"%ch]
  | _ :: e :: ds =>
      if e =? "a"%ch then [7]
      else if e =? "b"%ch then [8]
      else if e =? "f"%ch then [12]
      else if e =? "n"%ch then [10]
      else if e =? "r"%ch then [13]
      else if e =? "t"%ch then [9]
      else if e =? "v"%ch then [11]
      else if e =? "\"%ch then ["\"%ch]
      else if e =? NEWLINE then [" "%ch]
      else if e =? "x"%ch then [to_char (Z.land (hex_accum ds) 0xFF)]
      else if (e =? "u"%ch) || (e =? "U"%ch) then
        let val := hex_accum ds in
        let val := if 0x10FFFF <? val then 0xFFFD else val in
        let val := if (0xD800 <=? val) && (val <=? 0xDFFF) then 0xFFFD else val in
        Th8_Utf8Encode val
      else if th8IsOctDig e then [to_char (Z.land (oct_accum (e :: ds)) 0xFF)]
      else [e]
  end.

(** ** What the engine asks of the interpreter *)

Class SubstInterp (I : Type) : Type := {
  Th8_Ready : I → Z * I;                        (* return code *)
  Th8_Eval : I → bytes → Z * I;                 (* evaluate a script *)
  th8SubstVarName : I → bytes → Z * I;          (* look a [$] reference up *)
  Th8_GetResult : I → bytes * Z;                (* bytes, tagged length *)
  Th8_SetResult : I → bytes → Z → Z * I;        (* bytes, tagged length *)
  Th8_ErrorMessage : I → parse_error → I;
  set_out_of_memory : I → I;
  isListMode : I → bool
}.

Definition TH8_SUBST_BACKSLASHES : Z := 1.
Definition TH8_SUBST_COMMANDS : Z := 2.
Definition TH8_SUBST_VARIABLES : Z := 4.

Definition flag (flags bit : Z) : bool := negb (Z.land flags bit =? 0).

Section engine.
Context {I : Type} `{SI : SubstInterp I}.
Context (realloc_ok : Z → bool).

(** Strips the brackets and evaluates the script between them. *)
Definition th8SubstCommand (it : I) (zWord : bytes) : Z * I :=
  Th8_Eval it (sub 1 (length zWord - 2) zWord).

Section sink.
Context {B : Type} `{SK : Sink B}.

(** Write the interpreter's result to the output. *)
Definition write_result (it : I) (buf : B) : B :=
  let '(zRes, nRes) := Th8_GetResult it in sink_write buf zRes nRes.

Definition write_escape (buf : B) (zEsc : bytes) : B :=
  let w := th8SubstEscape zEsc in sink_write buf w (zlen w).

(** *** th8SubstWord *)

(** The inside of a braced word: only a line continuation is replaced. *)
Fixpoint SubstWord_brace (fuel : nat) (z : bytes) (buf : B) : B :=
  match fuel with
  | O => buf
  | S fuel' =>
      match z with
      | [] => buf
      | c :: z' =>
          if (c =? "\"%ch) && next_is NEWLINE z' then
            let z'' := tail z' in
            SubstWord_brace fuel' (drop (span is_blank z'') z'') (sink_char buf " "%ch)
          else SubstWord_brace fuel' z' (sink_char buf c)
      end
  end.

(** A bare or quoted word, [start] to [end]; the input length is fuel. *)
Fixpoint SubstWord_loop (fuel : nat) (z : bytes) (buf : B) (it : I) : Z * B * I :=
  match fuel with
  | O => (TH8_OK, buf, it)
  | S fuel' =>
      match z with
      | [] => (TH8_OK, buf, it)
      | c :: z' =>
          if c =? "\"%ch then
            match th8NextEscape z with
            | Err _ => (TH8_ERROR, buf, it)
            | Ok nEsc =>
                SubstWord_loop fuel' (drop nEsc z) (write_escape buf (take nEsc z)) it
            end
          else if (c =? "["%ch) && negb (isListMode it) then
            match th8NextCommand realloc_ok z with
            | Err e => (TH8_ERROR, buf, Th8_ErrorMessage it e)
            | Ok nCmd =>
                let '(rc, it1) := th8SubstCommand it (take nCmd z) in
                if negb (rc =? TH8_OK) then (rc, buf, it1)
                else SubstWord_loop fuel' (drop nCmd z) (write_result it1 buf) it1
            end
          else if (c =? "$"%ch) && negb (isListMode it) then
            match th8NextVarName z with
            | Err _ => (TH8_ERROR, buf, it)
            | Ok nVar =>
                if (nVar <=? 1)%nat then SubstWord_loop fuel' z' (sink_char buf "$"%ch) it
                else
                  let '(rc, it1) := th8SubstVarName it (take nVar z) in
                  if negb (rc =? TH8_OK) then (rc, buf, it1)
                  else SubstWord_loop fuel' (drop nVar z) (write_result it1 buf) it1
            end
          else SubstWord_loop fuel' z' (sink_char buf c) it
      end
  end.

Definition SubstWord_body (zWord : bytes) (buf : B) (it : I) : Z * B * I :=
  let nn := length zWord in
  let inner := sub 1 (nn - 2) zWord in
  let bracketed a b :=
    (1 <? nn)%nat && (nth 0 zWord 0 =? a) && (nth (nn - 1) zWord 0 =? b) in
  if bracketed "{"%ch "}"%ch then
    (TH8_OK, SubstWord_brace (length inner) inner buf, it)
  else
    let z := if bracketed DQUOTE DQUOTE then inner else zWord in
    SubstWord_loop (length z) z buf it.

(** *** Th8_Subst *)

Fixpoint Subst_loop (flags : Z) (fuel : nat) (z : bytes) (buf : B) (it : I)
    : Z * B * I :=
  match fuel with
  | O => (TH8_OK, buf, it)
  | S fuel' =>
      match z with
      | [] => (TH8_OK, buf, it)
      | c :: z' =>
          let '(ready, it) := Th8_Ready it in
          if negb (ready =? TH8_OK) then (TH8_ERROR, buf, it)
          else if (c =? "\"%ch) && flag flags TH8_SUBST_BACKSLASHES then
            match th8NextEscape z with
            | Err _ => Subst_loop flags fuel' z' (sink_char buf c) it
            | Ok nEsc =>
                Subst_loop flags fuel' (drop nEsc z) (write_escape buf (take nEsc z)) it
            end
          else if (c =? "$"%ch) && flag flags TH8_SUBST_VARIABLES then
            let nVar := match th8NextVarName z with Ok n => n | Err _ => O end in
            if (nVar <=? 1)%nat then Subst_loop flags fuel' z' (sink_char buf c) it
            else
              let '(rc, it1) := th8SubstVarName it (take nVar z) in
              if negb (rc =? TH8_OK) then (rc, buf, it1)
              else Subst_loop flags fuel' (drop nVar z) (write_result it1 buf) it1
          else if (c =? "["%ch) && flag flags TH8_SUBST_COMMANDS then
            match th8NextCommand realloc_ok z with
            | Err e => (TH8_ERROR, buf, Th8_ErrorMessage it e)
            | Ok nCmd =>
                let '(rc, it1) := th8SubstCommand it (take nCmd z) in
                if rc =? TH8_BREAK then (TH8_OK, buf, it1)
                else if rc =? TH8_CONTINUE then
                  Subst_loop flags fuel' (drop nCmd z) buf it1
                else if (rc =? TH8_RETURN) || (rc =? TH8_OK) then
                  Subst_loop flags fuel' (drop nCmd z) (write_result it1 buf) it1
                else (rc, buf, it1)
            end
          else Subst_loop flags fuel' z' (sink_char buf c) it
      end
  end.
End sink.

(** The buffered engine publishes its result with the tags it collected, or
    fails when a write failed. *)
Definition publish (extra : Z) (out : Z * Th8_Buffer * I) : Z * I :=
  let '(rc, buf, it) := out in
  if negb (rc =? TH8_OK) then (rc, it)
  else if bFail buf then (TH8_ERROR, set_out_of_memory it)
  else Th8_SetResult it (zBuf buf) (Z.lor (Z.lor (nBuf buf) (nTag buf)) extra).

Context (alloc_ok : Z → bool).

Definition th8SubstWord (it : I) (zWord : bytes) : Z * I :=
  publish 0 (SubstWord_body (SK := buffer_sink alloc_ok) zWord th8BufInit it).

(** [tag] is the tag carried by the length of the template. *)
Definition Th8_Subst (it : I) (z : bytes) (tag flags : Z) : Z * I :=
  publish (Z.land tag TH8_TAG_BITS)
    (Subst_loop (SK := buffer_sink alloc_ok) flags (length z) z th8BufInit it).
End engine.

(** ** The engine does not look into its output

    Related outputs stay related, and nothing else of a run depends on them:
    the buffer can be replaced by the list of the pieces written. *)
Section parametric.
Context {I : Type} `{SI : SubstInterp I} (realloc_ok : Z → bool).
Context {B1 B2 : Type} (SK1 : Sink B1) (SK2 : Sink B2) (R : B1 → B2 → Prop).
Context (HR : ∀ b1 b2 z n, R b1 b2 → R (SK1 b1 z n) (SK2 b2 z n)).

Definition out_rel (o1 : Z * B1 * I) (o2 : Z * B2 * I) : Prop :=
  o1.1.1 = o2.1.1 ∧ R o1.1.2 o2.1.2 ∧ o1.2 = o2.2.

Lemma write_result_param it b1 b2 :
  R b1 b2 → R (write_result (SK := SK1) it b1) (write_result (SK := SK2) it b2).
Proof. unfold write_result, sink_write. destruct (Th8_GetResult it). apply HR. Qed.

Lemma sink_char_param c b1 b2 :
  R b1 b2 → R (sink_char (B := B1) b1 c) (sink_char (B := B2) b2 c).
Proof. apply HR. Qed.

Lemma write_escape_param zEsc b1 b2 :
  R b1 b2 → R (write_escape (SK := SK1) b1 zEsc) (write_escape (SK := SK2) b2 zEsc).
Proof. apply HR. Qed.

#[local] Hint Resolve write_result_param sink_char_param write_escape_param : core.

Lemma SubstWord_brace_param fuel z : ∀ b1 b2, R b1 b2 →
  R (SubstWord_brace (SK := SK1) fuel z b1) (SubstWord_brace (SK := SK2) fuel z b2).
Proof.
  revert z; induction fuel as [|fuel IH]; intros z b1 b2 Hb; simpl; [done|].
  destruct z as [|c z]; [done|]. case_if; apply IH; auto.
Qed.

Lemma SubstWord_loop_param fuel z : ∀ b1 b2 it, R b1 b2 →
  out_rel (SubstWord_loop realloc_ok (SK := SK1) fuel z b1 it)
          (SubstWord_loop realloc_ok (SK := SK2) fuel z b2 it).
Proof.
  revert z; induction fuel as [|fuel IH]; intros z b1 b2 it Hb;
    cbn [SubstWord_loop]; [done|].
  destruct z as [|c z]; [done|].
  repeat (case_match; try done; auto using IH).
Qed.

Lemma SubstWord_body_param z b1 b2 it : R b1 b2 →
  out_rel (SubstWord_body realloc_ok (SK := SK1) z b1 it)
          (SubstWord_body realloc_ok (SK := SK2) z b2 it).
Proof.
  intros Hb. unfold SubstWord_body. cbv zeta. case_if.
  - split; [done|]. split; [|done]. by apply SubstWord_brace_param.
  - by apply SubstWord_loop_param.
Qed.

Lemma Subst_loop_param flags fuel z : ∀ b1 b2 it, R b1 b2 →
  out_rel (Subst_loop realloc_ok (SK := SK1) flags fuel z b1 it)
          (Subst_loop realloc_ok (SK := SK2) flags fuel z b2 it).
Proof.
  revert z; induction fuel as [|fuel IH]; intros z b1 b2 it Hb;
    cbn [Subst_loop]; [done|].
  destruct z as [|c z]; [done|].
  repeat (case_match; try done; auto using IH).
Qed.
End parametric.

(** ** The published result *)
Section results.
Context {I : Type} `{SI : SubstInterp I}.
Context (realloc_ok alloc_ok : Z → bool).

(** The pieces a run writes, first to last, with its return code and state. *)
Definition Subst_run (it : I) (z : bytes) (flags : Z) : Z * list piece * I :=
  Subst_loop realloc_ok flags (length z) z [] it.
Definition SubstWord_run (it : I) (z : bytes) : Z * list piece * I :=
  SubstWord_body realloc_ok z [] it.

(** What a run with the given outcome must answer. *)
Definition answers (extra : Z) (run : Z * list piece * I) (out : Z * I) : Prop :=
  let '(rc, ps, it') := run in
  if negb (rc =? TH8_OK) then out = (rc, it')
  else
    (out = Th8_SetResult it' (pieces_bytes ps)
             (Z.lor (Z.lor (zlen (pieces_bytes ps)) (pieces_tag ps)) extra)
     ∧ zlen (pieces_bytes ps) <= TH8_MX_STRLEN) ∨
    (out = (TH8_ERROR, set_out_of_memory it')
     ∧ ((∃ n, alloc_ok n = false) ∨ TH8_MX_STRLEN < 2 * pieces_size ps + 32)).

Lemma publish_answers extra (o1 : Z * Th8_Buffer * I) (o2 : Z * list piece * I) :
  out_rel (buf_rel alloc_ok) o1 o2 → answers extra o2 (publish extra o1).
Proof.
  destruct o1 as [[rc b] it], o2 as [[rc' ps] it']. intros (Hrc & [Hok Ht Hs Hp Hb Hc] & Hit).
  simpl in *; subst. case_if; [done|].
  destruct (bFail b) eqn:Ef; [right; auto|left]. rewrite <- (Hb eq_refl), <- Ht.
  split; [done|]. destruct Hok as [H1 [_ H2]]. unfold nBuf in H1. lia.
Qed.
End results.

(** ** Tags of a published length *)

Lemma land_pow2_testbit n k :
  0 <= k → negb (Z.land n (2 ^ k) =? 0) = Z.testbit n k.
Proof.
  intros Hk. destruct (Z.testbit n k) eqn:E.
  - apply negb_true_iff, Z.eqb_neq. intros H.
    apply (f_equal (λ x, Z.testbit x k)) in H.
    rewrite Z.land_spec, E, Z.pow2_bits_true, Z.bits_0 in H by done. done.
  - apply negb_false_iff, Z.eqb_eq. apply Z.bits_inj'. intros j Hj.
    rewrite Z.land_spec, Z.bits_0, Z.pow2_bits_eqb by done.
    destruct (Z.eqb_spec k j); [subst; by rewrite E|apply andb_false_r].
Qed.

Lemma tainted_testbit n : TH8_TAINTED n = Z.testbit n 28.
Proof. apply (land_pow2_testbit n 28). lia. Qed.
Lemma sensitive_testbit n : TH8_SENSITIVE n = Z.testbit n 29.
Proof. apply (land_pow2_testbit n 29). lia. Qed.

Lemma small_testbit L k : 0 <= L <= TH8_MX_STRLEN → 28 <= k → Z.testbit L k = false.
Proof.
  unfold TH8_MX_STRLEN. intros HL Hk. rewrite <- (Z.mod_small L (2 ^ 28)) by lia.
  apply Z.mod_pow2_bits_high; lia.
Qed.

Lemma tag_bits_testbit k : 0 <= k → Z.testbit TH8_TAG_BITS k = (k =? 28) || (k =? 29).
Proof.
  intros Hk. unfold TH8_TAG_BITS, TH8_TAINT_BIT, TH8_SENSITIVE_BIT.
  change 0x10000000 with (2 ^ 28). change 0x20000000 with (2 ^ 29).
  rewrite Z.lor_spec, !Z.pow2_bits_eqb by lia. by rewrite (Z.eqb_sym 28), (Z.eqb_sym 29).
Qed.

Lemma pieces_tag_testbit ps k : 0 <= k →
  Z.testbit (pieces_tag ps) k =
  ((k =? 28) || (k =? 29)) && existsb (λ p, Z.testbit (snd p) k) ps.
Proof.
  intros Hk. induction ps as [|p ps IH]; simpl; [by rewrite Z.bits_0, andb_false_r|].
  rewrite Z.lor_spec, Z.land_spec, IH, tag_bits_testbit by done. 
  destruct ((k =? 28) || (k =? 29)); simpl; [|by rewrite andb_false_r].
  by rewrite andb_true_r, orb_comm.
Qed.

(** A length below TH8_MX_STRLEN joined with tags: each part reads back. *)
Lemma tagged_length L ps tag :
  0 <= L <= TH8_MX_STRLEN →
  let n := Z.lor (Z.lor L (pieces_tag ps)) (Z.land tag TH8_TAG_BITS) in
  TH8_LEN n = L ∧
  TH8_TAINTED n = existsb (λ p, TH8_TAINTED (snd p)) ps || TH8_TAINTED tag ∧
  TH8_SENSITIVE n = existsb (λ p, TH8_SENSITIVE (snd p)) ps || TH8_SENSITIVE tag.
Proof.
  intros HL n. subst n. split; [|split].
  - unfold TH8_LEN, TH8_LEN_MASK. change 0x0fffffff with (Z.ones 28).
    apply Z.bits_inj'. intros k Hk.
    rewrite Z.land_spec, !Z.lor_spec, pieces_tag_testbit, Z.land_spec, tag_bits_testbit,
      Z.testbit_ones_nonneg by lia.
    destruct (Z.ltb_spec k 28).
    + replace (k =? 28) with false by (symmetry; apply Z.eqb_neq; lia).
      replace (k =? 29) with false by (symmetry; apply Z.eqb_neq; lia).
      by rewrite andb_false_r, !orb_false_r, andb_true_r.
    + by rewrite andb_false_r, small_testbit by lia.
  - rewrite tainted_testbit, !Z.lor_spec, pieces_tag_testbit, Z.land_spec, tag_bits_testbit,
      (small_testbit L 28) by lia.
    rewrite tainted_testbit. simpl. rewrite andb_true_r. f_equal.
    induction ps as [|p ps IH]; simpl; [done|]. by rewrite tainted_testbit, IH.
  - rewrite sensitive_testbit, !Z.lor_spec, pieces_tag_testbit, Z.land_spec, tag_bits_testbit,
      (small_testbit L 29) by lia.
    rewrite sensitive_testbit. simpl. rewrite andb_true_r. f_equal.
    induction ps as [|p ps IH]; simpl; [done|]. by rewrite sensitive_testbit, IH.
Qed.

Lemma Subst_answers {I : Type} `{SI : SubstInterp I} realloc_ok alloc_ok it z tag flags :
  answers alloc_ok (Z.land tag TH8_TAG_BITS) (Subst_run realloc_ok it z flags)
    (Th8_Subst realloc_ok alloc_ok it z tag flags).
Proof.
  apply publish_answers, Subst_loop_param; [apply buf_rel_write|apply buf_rel_init].
Qed.

Lemma SubstWord_answers {I : Type} `{SI : SubstInterp I} realloc_ok alloc_ok it z :
  answers alloc_ok 0 (SubstWord_run realloc_ok it z)
    (th8SubstWord realloc_ok alloc_ok it z).
Proof.
  apply publish_answers, SubstWord_body_param; [apply buf_rel_write|apply buf_rel_init].
Qed.

(** ** Properties *)

(** C40.  Substitution publishes exactly what the pieces say: Th8_Subst and
    th8SubstWord return the code of an early stop, or set as result the
    concatenation of the literal characters, escapes and substituted values in
    order, with the union of all their tags and of the template's; the only
    other outcome is the out-of-memory error, and then an allocation was
    refused or the pieces exceed half of TH8_MX_STRLEN. *)
Theorem Subst_publishes {I : Type} `{SI : SubstInterp I} (realloc_ok alloc_ok : Z → bool)
  (it : I) (z : bytes) (tag flags : Z) :
  answers alloc_ok (Z.land tag TH8_TAG_BITS) (Subst_run realloc_ok it z flags)
    (Th8_Subst realloc_ok alloc_ok it z tag flags) ∧
  answers alloc_ok 0 (SubstWord_run realloc_ok it z)
    (th8SubstWord realloc_ok alloc_ok it z).
Proof. split; [apply Subst_answers|apply SubstWord_answers]. Qed.

(** Taint and sensitivity are tracked exactly: when a substitution run
    reaches its end and the result is published, the published length reads
    back as the number of bytes, and it is tainted (sensitive) exactly when
    the template or at least one substituted piece was. *)
Theorem Subst_tags_exact {I : Type} `{SI : SubstInterp I} (realloc_ok alloc_ok : Z → bool)
  (it it' : I) (z : bytes) (tag flags : Z) (ps : list piece)
  (Hrun : Subst_run realloc_ok it z flags = (TH8_OK, ps, it'))
  (Halloc : ∀ n, alloc_ok n = true) (Hsize : 2 * pieces_size ps + 32 <= TH8_MX_STRLEN) :
  ∃ n, Th8_Subst realloc_ok alloc_ok it z tag flags =
       Th8_SetResult it' (pieces_bytes ps) n ∧
    TH8_LEN n = zlen (pieces_bytes ps) ∧
    TH8_TAINTED n = existsb (λ p, TH8_TAINTED (snd p)) ps || TH8_TAINTED tag ∧
    TH8_SENSITIVE n = existsb (λ p, TH8_SENSITIVE (snd p)) ps || TH8_SENSITIVE tag.
Proof.
  pose proof (Subst_answers realloc_ok alloc_ok it z tag flags) as H.
  rewrite Hrun in H. simpl in H. destruct H as [[-> HL]|[_ [[k Hk]|]]]; [|congruence|lia].
  eexists; split; [done|]. apply tagged_length. pose proof (zlen_nonneg (pieces_bytes ps)). lia.
Qed.

(** ** A small interpreter, to evaluate the engine on concrete scripts

    Evaluating a script or reading a variable yields its own text, tainted for
    a variable; every readiness check is counted. *)
Record echo : Type := mkEcho { checks : Z; result : bytes * Z; failed : bool }.

#[export] Instance echo_interp : SubstInterp echo := {
  Th8_Ready it := (TH8_OK, mkEcho (checks it + 1) (result it) (failed it));
  Th8_Eval it z := (TH8_OK, mkEcho (checks it) (z, zlen z) (failed it));
  th8SubstVarName it z := (TH8_OK, mkEcho (checks it) (z, Z.lor (zlen z) TH8_TAINT_BIT) (failed it));
  Th8_GetResult it := result it;
  Th8_SetResult it z n := (TH8_OK, mkEcho (checks it) (z, n) (failed it));
  Th8_ErrorMessage it e := mkEcho (checks it) (result it) true;
  set_out_of_memory it := mkEcho (checks it) (result it) true;
  isListMode it := false
}.

Definition echo_init : echo := mkEcho 0 ([], 0) false.
Definition grant : Z → bool := λ _, true.

Definition echo_run : Z * list piece * echo :=
  Subst_run grant echo_init (bytes_of_string "a$b[c]\n") 7.

Lemma Subst_tags_exact_witness :
  ∃ n, Th8_Subst grant grant echo_init (bytes_of_string "a$b[c]\n") 0 7 =
       Th8_SetResult echo_run.2 (pieces_bytes echo_run.1.2) n ∧
    TH8_LEN n = 5 ∧ TH8_TAINTED n = true ∧ TH8_SENSITIVE n = false.
Proof.
  apply (Subst_tags_exact grant grant echo_init echo_run.2 (bytes_of_string "a$b[c]\n") 0 7
    echo_run.1.2); [vm_compute; reflexivity|reflexivity|vm_compute; discriminate].
Defined.

(** ** Text without substitutions *)

(** A character that Th8_Subst copies with the given flags. *)
Definition inert (flags c : Z) : bool :=
  negb ((c =? "\"%ch) && flag flags TH8_SUBST_BACKSLASHES) &&
  negb ((c =? "$"%ch) && flag flags TH8_SUBST_VARIABLES) &&
  negb ((c =? "["%ch) && flag flags TH8_SUBST_COMMANDS).

Section inert_text.
Context {I : Type} `{SI : SubstInterp I} (realloc_ok alloc_ok : Z → bool).

(** The state after one readiness check per character. *)
Definition poll (n : nat) (it : I) : I := Nat.iter n (λ it, snd (Th8_Ready it)) it.

Lemma poll_S n it : poll (S n) it = poll n (snd (Th8_Ready it)).
Proof. unfold poll. by rewrite Nat.iter_succ_r. Qed.

Definition char_pieces (z : bytes) : list piece := map (λ c, ([c], 1)) z.

Lemma Subst_loop_inert flags fuel z : ∀ ps it,
  (length z <= fuel)%nat → (∀ it, fst (Th8_Ready it) = TH8_OK) →
  Forall (λ c, inert flags c = true) z →
  Subst_loop realloc_ok flags fuel z ps it =
  (TH8_OK, rev (char_pieces z) ++ ps, poll (length z) it).
Proof.
  revert z; induction fuel as [|fuel IH]; intros z ps it Hf Hr Hz.
  { destruct z; [done|simpl in Hf; lia]. }
  destruct z as [|c z]; [done|]. inversion Hz as [|? ? Hc Hz']; subst.
  cbn [Subst_loop]. specialize (Hr it) as Hri.
  destruct (Th8_Ready it) as [r it1] eqn:Er. simpl in Hri; subst r. rewrite Z.eqb_refl.
  cbn [negb]. unfold inert in Hc. bool_to_prop. rewrite H, H1, H0.
  rewrite IH by (done || (simpl in Hf; lia)).
  change (char_pieces (c :: z)) with (([c], 1) :: char_pieces z). cbn [rev length].
  rewrite <- app_assoc, poll_S, Er. done.
Qed.

Lemma char_pieces_spec z :
  pieces_bytes (rev (char_pieces z)) = z ∧ pieces_tag (rev (char_pieces z)) = 0 ∧
  pieces_size (rev (char_pieces z)) = zlen z.
Proof.
  induction z as [|c z (H1 & H2 & H3)] using rev_ind; [done|].
  assert (rev (char_pieces (z ++ [c])) = ([c], 1) :: rev (char_pieces z)) as ->.
  { unfold char_pieces. by rewrite map_app, rev_app_distr. }
  rewrite pieces_bytes_cons. simpl. rewrite H1, H2, H3, zlen_app. done.
Qed.
End inert_text.

(** Substitution of text that has no active character for the given
    flags is the identity, keeps the template's tags, and makes exactly one
    readiness check per character. *)
Theorem Subst_inert_identity {I : Type} `{SI : SubstInterp I}
  (realloc_ok alloc_ok : Z → bool) (it : I) (z : bytes) (tag flags : Z)
  (Halloc : ∀ n, alloc_ok n = true) (Hsize : 2 * zlen z + 32 <= TH8_MX_STRLEN)
  (Hready : ∀ it, fst (Th8_Ready it) = TH8_OK)
  (Hinert : Forall (λ c, inert flags c = true) z) :
  Th8_Subst realloc_ok alloc_ok it z tag flags =
  Th8_SetResult (poll (length z) it) z (Z.lor (zlen z) (Z.land tag TH8_TAG_BITS)).
Proof.
  pose proof (Subst_answers realloc_ok alloc_ok it z tag flags) as H.
  unfold Subst_run in H. rewrite Subst_loop_inert in H by done. rewrite app_nil_r in H.
  destruct (char_pieces_spec z) as (H1 & H2 & H3). simpl in H. rewrite H1, H2, H3 in H.
  rewrite Z.lor_0_r in H. destruct H as [[-> _]|[_ [[k Hk]|]]]; [done|congruence|lia].
Qed.

Lemma Subst_inert_identity_witness :
  Th8_Subst grant grant echo_init (bytes_of_string "a$b{c}") TH8_TAINT_BIT 3 =
  (TH8_OK, mkEcho 6 (bytes_of_string "a$b{c}", Z.lor 6 TH8_TAINT_BIT) false).
Proof.
  transitivity (Th8_SetResult (poll 6 echo_init) (bytes_of_string "a$b{c}")
    (Z.lor 6 (Z.land TH8_TAINT_BIT TH8_TAG_BITS))); [|vm_compute; reflexivity].
  apply (Subst_inert_identity grant grant echo_init (bytes_of_string "a$b{c}") TH8_TAINT_BIT 3);
    [reflexivity|vm_compute; discriminate|reflexivity|repeat constructor].
Defined.

(** ** Braced words *)

Definition no_continuation (w : bytes) : Prop := ∀ w1 w2, w ≠ w1 ++ "\"%ch :: NEWLINE :: w2.

Lemma no_continuation_cons c w : no_continuation (c :: w) →
  (c =? "\"%ch) && next_is NEWLINE w = false ∧ no_continuation w.
Proof.
  intros Hw. split.
  - destruct (c =? "\"%ch) eqn:E; [|done]. destruct w as [|d w]; [done|]. simpl.
    destruct (d =? NEWLINE) eqn:E2; [|done]. bool_to_prop; subst. by destruct (Hw [] w).
  - intros w1 w2 ->. by apply (Hw (c :: w1) w2).
Qed.

Lemma SubstWord_brace_literal fuel w : ∀ ps : list piece,
  (length w <= fuel)%nat → no_continuation w →
  SubstWord_brace fuel w ps = rev (char_pieces w) ++ ps.
Proof.
  revert w; induction fuel as [|fuel IH]; intros w ps Hf Hw.
  { destruct w; [done|simpl in Hf; lia]. }
  destruct w as [|c w]; [done|]. apply no_continuation_cons in Hw as [Hc Hw].
  cbn [SubstWord_brace]. rewrite Hc, IH by (done || (simpl in Hf; lia)).
  simpl. by rewrite <- app_assoc.
Qed.

Lemma sub_braced w : sub 1 (length ("{"%ch :: w ++ ["}"%ch]) - 2) ("{"%ch :: w ++ ["}"%ch]) = w.
Proof.
  unfold sub. simpl. rewrite length_app, Nat.add_1_r. simpl.
  rewrite drop_0, Nat.sub_0_r. apply take_app_length.
Qed.

Lemma bracketed_last w : nth (length ("{"%ch :: w ++ ["}"%ch]) - 1) ("{"%ch :: w ++ ["}"%ch]) 0 = "}"%ch.
Proof.
  simpl. rewrite length_app, Nat.add_1_r. simpl. rewrite app_nth2, Nat.sub_diag by lia. done.
Qed.

(** A braced word is literal: when the braces of [w] balance, the scanner
    takes the whole of [{w}] as one word in front of a terminator, and
    substituting it gives back [w] untouched, without a single call to the
    interpreter, provided [w] has no line continuation. *)
Theorem braced_word_literal {I : Type} `{SI : SubstInterp I}
  (realloc_ok alloc_ok : Z → bool) (it : I) (isCmd : bool) (w rest : bytes)
  (Hrealloc : ∀ n, realloc_ok n = true) (Halloc : ∀ n, alloc_ok n = true)
  (Hsize : 2 * zlen w + 32 <= TH8_MX_STRLEN)
  (Hlen : zlen ("{"%ch :: w ++ "}"%ch :: rest) < 2 ^ 60)
  (Hbody : scope_body "{"%ch (w ++ ["}"%ch])) (Hstop : word_stop isCmd rest = true)
  (Hcont : no_continuation w) :
  th8NextWord realloc_ok isCmd ("{"%ch :: w ++ "}"%ch :: rest) = Ok (2 + length w)%nat ∧
  th8SubstWord realloc_ok alloc_ok it ("{"%ch :: w ++ ["}"%ch]) = Th8_SetResult it w (zlen w).
Proof.
  split.
  - apply NextWord_word_at; [done..|]. exists ("{"%ch :: w ++ ["}"%ch]), rest.
    split; [by simplify_list_eq|]. split; [|split; [done|]].
    + rewrite <- (app_nil_r (w ++ _)). apply word_open; [done|done|constructor].
    + simpl. rewrite length_app. simpl. lia.
  - pose proof (SubstWord_answers realloc_ok alloc_ok it ("{"%ch :: w ++ ["}"%ch])) as H.
    unfold SubstWord_run, SubstWord_body in H. cbv zeta in H.
    rewrite bracketed_last, sub_braced in H.
    replace (1 <? length ("{"%ch :: w ++ ["}"%ch]))%nat with true in H
      by (symmetry; apply Nat.ltb_lt; simpl; rewrite length_app; simpl; lia).
    simpl nth in H. cbn [Z.eqb Pos.eqb andb] in H.
    rewrite SubstWord_brace_literal, app_nil_r in H by done.
    destruct (char_pieces_spec w) as (H1 & H2 & H3). simpl in H. rewrite H1, H2, H3 in H.
    rewrite !Z.lor_0_r in H. destruct H as [[-> _]|[_ [[k Hk]|]]]; [done|congruence|lia].
Qed.

Lemma braced_word_literal_witness :
  th8NextWord grant true
    ("{"%ch :: bytes_of_string "a $b [c" ++ "}"%ch :: bytes_of_string " d") = Ok 9%nat ∧
  th8SubstWord grant grant echo_init ("{"%ch :: bytes_of_string "a $b [c" ++ ["}"%ch]) =
  Th8_SetResult echo_init (bytes_of_string "a $b [c") 7.
Proof.
  apply (braced_word_literal grant grant echo_init true (bytes_of_string "a $b [c")
    (bytes_of_string " d")); try reflexivity; try (vm_compute; discriminate).
  - repeat (apply body_lit; [discriminate|discriminate|reflexivity|]). apply (body_close "{"%ch).
  - intros w1 w2 H. apply (f_equal (existsb (Z.eqb NEWLINE))) in H.
    rewrite existsb_app in H. simpl in H. rewrite orb_true_r in H. discriminate.
Defined.

(** ** Numeric escapes *)

Definition is_hex (c : Z) : Prop := th8IsHexDig c = true.

(** The value the digits denote. *)
Definition hex_value (ds : bytes) : Z := fold_left (λ v c, v * 16 + th8HexVal c) ds 0.

Lemma th8HexVal_range c : is_hex c → 0 <= th8HexVal c < 16.
Proof.
  unfold is_hex. rewrite th8IsHexDig_spec. unfold th8HexVal, between. intros H.
  repeat case_if; bool_to_prop; try lia.
Qed.

Lemma hex_value_snoc ds c : hex_value (ds ++ [c]) = hex_value ds * 16 + th8HexVal c.
Proof. unfold hex_value. by rewrite fold_left_app. Qed.

Lemma hex_accum_snoc ds c :
  hex_accum (ds ++ [c]) = swrap 32 (Z.lor (Z.shiftl (hex_accum ds) 4) (th8HexVal c)).
Proof. unfold hex_accum. by rewrite fold_left_app. Qed.

Lemma hex_value_bound ds : Forall is_hex ds → 0 <= hex_value ds < 16 ^ zlen ds.
Proof.
  induction ds as [|c ds IH] using rev_ind; [done|].
  intros [Hds Hc]%Forall_app. apply Forall_singleton, th8HexVal_range in Hc.
  specialize (IH Hds). rewrite hex_value_snoc, zlen_app. change (zlen [c]) with 1.
  rewrite Z.pow_add_r by (apply zlen_nonneg || lia). lia.
Qed.

Lemma swrap_congr w x y : 0 < w → swrap w (swrap w x * 16 + y) = swrap w (x * 16 + y).
Proof.
  intros Hw. unfold swrap. set (h := 2 ^ (w - 1)). set (m := 2 ^ w). f_equal.
  replace (((x + h) mod m - h) * 16 + y + h) with ((x + h) mod m * 16 + (y + h - h * 16)) by lia.
  replace (x * 16 + y + h) with ((x + h) * 16 + (y + h - h * 16)) by lia.
  rewrite <- (Zplus_mod_idemp_l ((x + h) mod m * 16)), Zmult_mod_idemp_l, Zplus_mod_idemp_l.
  done.
Qed.

Lemma hex_accum_spec ds : Forall is_hex ds → hex_accum ds = swrap 32 (hex_value ds).
Proof.
  induction ds as [|c ds IH] using rev_ind; [done|].
  intros [Hds Hc]%Forall_app. apply Forall_singleton, th8HexVal_range in Hc.
  rewrite hex_accum_snoc, hex_value_snoc, IH, lor_shiftl_add by (done || lia).
  by rewrite swrap_congr.
Qed.

Lemma swrap32_split v :
  0 <= v < 2 ^ 32 → swrap 32 v = if v <? 2 ^ 31 then v else v - 2 ^ 32.
Proof.
  intros Hv. unfold swrap. change (32 - 1) with 31. case_if; bool_to_prop.
  - rewrite Z.mod_small by lia. lia.
  - replace (v + 2 ^ 31) with (v - 2 ^ 31 + 1 * 2 ^ 32) by lia.
    rewrite Z.mod_add by lia. rewrite Z.mod_small by lia. lia.
Qed.

Lemma to_char_mod v : to_char v = v mod 256.
Proof. apply (land_ones_mod v 8). lia. Qed.

(** A Unicode escape of at most eight digits denotes the UTF-8 encoding
    of its value, U+FFFD standing for surrogates and values above U+10FFFF,
    as long as the value is below 2^31; from there on the int is negative and
    passes the clamp, so that the escape yields one byte, the low eight bits
    of the value, instead of U+FFFD. *)
Theorem unicode_escape (u : Z) (ds : bytes)
  (Hu : u = "u"%ch ∨ u = "U"%ch) (Hds : Forall is_hex ds) (Hlen : zlen ds <= 8) :
  let v := hex_value ds in
  th8SubstEscape ("\"%ch :: u :: ds) =
  if v <? 2 ^ 31 then
    Th8_Utf8Encode (if (v <? 0xD800) || ((0xDFFF <? v) && (v <=? 0x10FFFF))
                    then v else 0xFFFD)
  else [v mod 256].
Proof.
  cbv zeta. pose proof (hex_value_bound ds Hds) as Hv.
  assert (16 ^ zlen ds <= 2 ^ 32).
  { change (2 ^ 32) with (16 ^ 8). apply Z.pow_le_mono_r; lia. }
  unfold th8SubstEscape. cbv zeta. rewrite hex_accum_spec, swrap32_split by (done || lia).
  set (v := hex_value ds) in *.
  destruct Hu as [-> | ->]; cbn [Z.eqb Pos.eqb orb].
  all: destruct (v <? 2 ^ 31) eqn:E; bool_to_prop.
  2, 4: replace (0x10FFFF <? v - 2 ^ 32) with false by (symmetry; apply Z.ltb_ge; lia);
    replace (0xD800 <=? v - 2 ^ 32) with false by (symmetry; apply Z.leb_gt; lia);
    cbn [andb]; unfold Th8_Utf8Encode;
    replace (v - 2 ^ 32 <? 0x80) with true by (symmetry; apply Z.ltb_lt; lia);
    rewrite to_char_mod; f_equal;
    replace (v - 2 ^ 32) with (v + (- 16777216) * 256) by lia; by rewrite Z.mod_add by lia.
  all: f_equal; destruct (0x10FFFF <? v) eqn:E1; bool_to_prop; cbn [Z.leb Z.compare Pos.compare Pos.compare_cont andb].
  1, 3: replace (v <? 0xD800) with false by (symmetry; apply Z.ltb_ge; lia);
    replace (v <=? 0x10FFFF) with false by (symmetry; apply Z.leb_gt; lia);
    by rewrite andb_false_r.
  all: replace (v <=? 0x10FFFF) with true by (symmetry; apply Z.leb_le; lia);
    rewrite andb_true_r, (Z.ltb_antisym 0xD800 v), (Z.ltb_antisym v 0xDFFF);
    by destruct (0xD800 <=? v), (v <=? 0xDFFF).
Qed.

Lemma unicode_escape_witness :
  th8SubstEscape (bytes_of_string "\UFFFFFF41") = ["A"%ch].
Proof.
  apply (unicode_escape "U"%ch (bytes_of_string "FFFFFF41"));
    [by right|repeat constructor|vm_compute; discriminate].
Defined.

(** A hexadecimal escape takes every digit that follows and yields the
    one byte of its last two digits; with no digit at all it yields a NUL
    byte, not the letter x of the scanner's comment. *)
Theorem hex_escape (ds rest : bytes)
  (Hds : Forall is_hex ds)
  (Hrest : match rest with [] => True | c :: _ => th8IsHexDig c = false end) :
  th8NextEscape ("\"%ch :: "x"%ch :: ds ++ rest) = Ok (2 + length ds)%nat ∧
  th8SubstEscape ("\"%ch :: "x"%ch :: ds) = [hex_value ds mod 256] ∧
  th8SubstEscape ["\"%ch; "x"%ch] = [0].
Proof.
  split; [|split; [|done]].
  - assert (Hs : span th8IsHexDig (ds ++ rest) = length ds).
    { induction Hds as [|c ds Hc _ IH]; simpl.
      - destruct rest as [|c rest]; simpl; [done|]. by rewrite Hrest.
      - by rewrite Hc, IH. }
    unfold th8NextEscape. cbn [simple_escape existsb Z.eqb Pos.eqb orb]. rewrite Hs.
    cbn [length]. rewrite length_app.
    destruct (Nat.ltb_spec (S (S (length ds + length rest))) (2 + length ds)); [lia|done].
  - unfold th8SubstEscape. cbn [Z.eqb Pos.eqb]. rewrite hex_accum_spec by done.
    change 0xFF with (2 ^ 8 - 1). rewrite land_ones_mod by lia. rewrite to_char_mod.
    f_equal. unfold swrap. change (2 ^ (32 - 1)) with (8388608 * 256). change (2 ^ 8) with 256.
    rewrite Z.mod_mod by lia. set (v := hex_value ds).
    rewrite Zminus_mod, (Z.mod_mul 8388608 256), Z.sub_0_r, Z.mod_mod by lia.
    change (2 ^ 32) with (256 * 16777216).
    rewrite Z.rem_mul_r by lia. rewrite (Z.mul_comm 256), Z.mod_add, Z.mod_mod by lia.
    by rewrite Z.mod_add by lia.
Qed.

Lemma hex_escape_witness :
  th8NextEscape (bytes_of_string "\x1234g") = Ok 6%nat ∧
  th8SubstEscape (bytes_of_string "\x1234") = [0x34] ∧
  th8SubstEscape ["\"%ch; "x"%ch] = [0].
Proof.
  apply (hex_escape (bytes_of_string "1234") (bytes_of_string "g"));
    [repeat constructor|reflexivity].
Defined.
