(* ===== verification/Base64.v ===== *)
(** * Base64: the codec of src/src/th8_base64.c (th8Base64Encode and
    th8Base64Decode).

    Both functions size their output before they allocate it and then store
    without further tests, so besides the round trip the file proves that the
    computed sizes hold every byte stored.  Decoding is compared with a
    reference that drops white space, groups the rest by four and decodes the
    groups one at a time. *)

From S2P Require Import Prelude Memory.

(** ** Tables *)

Definition th8B64Enc : bytes :=
  bytes_of_string "ABCDEFGHIJKLMNOPQRSTUVWXYZabcdefghijklmnopqrstuvwxyz0123456789+/".

Definition th8B64Dec : list Z :=
  [0xFF; 0xFF; 0xFF; 0xFF; 0xFF; 0xFF; 0xFF; 0xFF;
   0xFF; 65;   65;   65;   65;   65;   0xFF; 0xFF;
   0xFF; 0xFF; 0xFF; 0xFF; 0xFF; 0xFF; 0xFF; 0xFF;
   0xFF; 0xFF; 0xFF; 0xFF; 0xFF; 0xFF; 0xFF; 0xFF;
   65;   0xFF; 0xFF; 0xFF; 0xFF; 0xFF; 0xFF; 0xFF;
   0xFF; 0xFF; 0xFF; 62;   0xFF; 0xFF; 0xFF; 63;
   52;   53;   54;   55;   56;   57;   58;   59;
   60;   61;   0xFF; 0xFF; 0xFF; 64;   0xFF; 0xFF;
   0xFF; 0;    1;    2;    3;    4;    5;    6;
   7;    8;    9;    10;   11;   12;   13;   14;
   15;   16;   17;   18;   19;   20;   21;   22;
   23;   24;   25;   0xFF; 0xFF; 0xFF; 0xFF; 0xFF;
   0xFF; 26;   27;   28;   29;   30;   31;   32;
   33;   34;   35;   36;   37;   38;   39;   40;
   41;   42;   43;   44;   45;   46;   47;   48;
   49;   50;   51;   0xFF; 0xFF; 0xFF; 0xFF; 0xFF] ++ replicate 128 0xFF.

Definition enc (v : Z) : Z := nth (Z.to_nat v) th8B64Enc 0.
Definition dec (c : Z) : Z := nth (Z.to_nat c) th8B64Dec 0xFF.

Inductive b64_error : Type :=
| SizeOverflow
| OutOfMemory
| InvalidCharacter.   (* sets the result to "invalid base64 character" *)

(** ** Encoding *)

(** The size the encoder allocates, or [None] on an overflow branch. *)
Definition encode_size (nIn : Z) : option Z :=
  nTmp ← add_size nIn 2;
  nRaw ← mul_size (nTmp / 3) 4;
  let nLines := if 0 <? nRaw then (nRaw - 1) / 76 else 0 in
  nTmp ← mul_size nLines 2;
  add_size nRaw nTmp.

(** The four characters of one chunk of [nChunk] bytes. *)
Definition encode_chunk (nChunk a b c : Z) : bytes :=
  let triple := Z.lor (Z.lor (Z.shiftl a 16) (Z.shiftl b 8)) c in
  [enc (Z.land (Z.shiftr triple 18) 0x3F);
   enc (Z.land (Z.shiftr triple 12) 0x3F);
   if 2 <=? nChunk then enc (Z.land (Z.shiftr triple 6) 0x3F) else "="%ch;
   if 3 <=? nChunk then enc (Z.land triple 0x3F) else "="%ch].

(** The encoding loop from the input left, at column [linePos]. *)
Fixpoint encode_loop (z : bytes) (linePos : Z) : bytes :=
  match z with
  | [] => []
  | [a] => encode_chunk 1 a 0 0
  | [a; b] => encode_chunk 2 a b 0
  | a :: b :: c :: z' =>
      let linePos := linePos + 4 in
      encode_chunk 3 a b c ++
      (if (76 <=? linePos) && (0 <? zlen z')
       then 13 :: 10 :: encode_loop z' 0
       else encode_loop z' linePos)
  end.

Section codec.
(** Whether TH8_ALLOC_STR grants the given size. *)
Context (alloc_ok : Z → bool).

Definition th8Base64Encode (z : bytes) : res b64_error bytes :=
  match encode_size (zlen z) with
  | None => Err SizeOverflow
  | Some nOut =>
      if alloc_ok nOut then Ok (encode_loop z 0) else Err OutOfMemory
  end.

(** ** Decoding *)

Definition decode_size (nIn : Z) : option Z :=
  if (SIZE_MAX - 3) / 3 * 4 <? nIn then None else Some (nIn / 4 * 3 + 3).

(** The bytes stored for a full group of four sextets. *)
Definition decode_group (padCount b0 b1 b2 b3 : Z) : bytes :=
  let triple :=
    Z.lor (Z.lor (Z.lor (Z.shiftl b0 18) (Z.shiftl b1 12)) (Z.shiftl b2 6)) b3 in
  [Z.land (Z.shiftr triple 16) 0xFF] ++
  (if padCount <? 2 then [Z.land (Z.shiftr triple 8) 0xFF] else []) ++
  (if padCount <? 1 then [Z.land triple 0xFF] else []).

(** The decoding loop: the group read so far, its padding count, and the
    bytes stored; [None] on an invalid character. *)
Fixpoint decode_loop (z buf : bytes) (padCount : Z) (out : bytes) : option bytes :=
  match z with
  | [] => Some out
  | c :: z' =>
      let v := dec c in
      if v =? 65 then decode_loop z' buf padCount out
      else if v =? 0xFF then None
      else
        let padCount := if v =? 64 then padCount + 1 else padCount in
        let buf := buf ++ [if v =? 64 then 0 else v] in
        match buf with
        | [b0; b1; b2; b3] =>
            decode_loop z' [] 0 (out ++ decode_group padCount b0 b1 b2 b3)
        | _ => decode_loop z' buf padCount out
        end
  end.

Definition th8Base64Decode (z : bytes) : res b64_error bytes :=
  match decode_size (zlen z) with
  | None => Err SizeOverflow
  | Some nOutMax =>
      if alloc_ok nOutMax then
        match decode_loop z [] 0 [] with
        | Some out => Ok out
        | None => Err InvalidCharacter
        end
      else Err OutOfMemory
  end.
End codec.

Example encode_ex :
  encode_loop (bytes_of_string "Man, M") 0 = bytes_of_string "TWFuLCBN".
Proof. reflexivity. Qed.

Example encode_pad : encode_loop [255] 0 = bytes_of_string "/w==".
Proof. reflexivity. Qed.

(** ** The reference decoder *)

(** The table values of the characters that are not white space. *)
Definition b64_kept (z : bytes) : list Z := filter (λ v, v ≠ 65) (map dec z).

Definition strip (v : Z) : Z := if v =? 64 then 0 else v.
Definition pads (vs : list Z) : Z := zlen (filter (λ v, v = 64) vs).

(** Decode group by group; an incomplete last group is dropped. *)
Fixpoint decode_groups (vs : list Z) : bytes :=
  match vs with
  | b0 :: b1 :: b2 :: b3 :: vs' =>
      decode_group (pads [b0; b1; b2; b3]) (strip b0) (strip b1) (strip b2) (strip b3)
        ++ decode_groups vs'
  | _ => []
  end.

Definition b64_valid (z : bytes) : bool := forallb (λ v, negb (v =? 0xFF)) (b64_kept z).

Lemma pads_snoc p v : pads (p ++ [v]) = pads p + (if v =? 64 then 1 else 0).
Proof.
  unfold pads. rewrite filter_app, zlen_app, filter_cons, filter_nil.
  destruct (v =? 64) eqn:E; bool_to_prop; case_decide; try done; unfold zlen; simpl; lia.
Qed.

Lemma b64_kept_cons c z :
  b64_kept (c :: z) = if dec c =? 65 then b64_kept z else dec c :: b64_kept z.
Proof.
  unfold b64_kept. simpl map. rewrite filter_cons.
  destruct (dec c =? 65) eqn:E; bool_to_prop; case_decide; done || lia.
Qed.

Lemma b64_kept_app z w : b64_kept (z ++ w) = b64_kept z ++ b64_kept w.
Proof. unfold b64_kept. by rewrite map_app, filter_app. Qed.

(** A pending group [p] of fewer than four values is the loop's buffer and
    padding count. *)
Lemma decode_loop_spec z : ∀ p out,
  (length p < 4)%nat →
  decode_loop z (map strip p) (pads p) out =
  if b64_valid z then Some (out ++ decode_groups (p ++ b64_kept z)) else None.
Proof.
  unfold b64_valid. induction z as [|c z IH]; intros p out Hp; simpl.
  { rewrite app_nil_r. do 4 (destruct p as [|? p]; [by rewrite app_nil_r|]). simpl in Hp; lia. }
  rewrite b64_kept_cons. destruct (dec c =? 65) eqn:E1; [by apply IH|].
  simpl forallb. destruct (dec c =? 0xFF) eqn:E2; simpl; [done|].
  replace (if dec c =? 64 then pads p + 1 else pads p) with (pads (p ++ [dec c]))
    by (rewrite pads_snoc; case_if; lia).
  change (map strip p ++ [if dec c =? 64 then 0 else dec c])
    with (map strip p ++ map strip [dec c]).
  rewrite <- map_app.
  assert (Hsnoc : p ++ dec c :: b64_kept z = (p ++ [dec c]) ++ b64_kept z)
    by (by rewrite <- app_assoc).
  rewrite Hsnoc.
  destruct p as [|p0 [|p1 [|p2 [|p3 p]]]]; simpl in Hp; try lia;
    [apply (IH [_]); simpl; lia | apply (IH [_;_]); simpl; lia |
     apply (IH [_;_;_]); simpl; lia |].
  cbn [map app].
  change (decode_loop z [] 0) with (decode_loop z (map strip []) (pads [])).
  rewrite (IH [] _ ltac:(simpl; lia)). case_match; [|done]. by rewrite <- app_assoc.
Qed.

Lemma zlen_decode_group n b0 b1 b2 b3 : zlen (decode_group n b0 b1 b2 b3) <= 3.
Proof. unfold decode_group. cbv zeta. repeat case_if; unfold zlen; simpl; lia. Qed.

Lemma zlen_decode_groups vs : zlen (decode_groups vs) <= zlen vs / 4 * 3.
Proof.
  induction vs as [vs IH] using list_len_ind.
  destruct vs as [|b0 [|b1 [|b2 [|b3 vs]]]]; try (unfold zlen; simpl; done).
  cbn [decode_groups]. rewrite zlen_app.
  specialize (IH vs ltac:(simpl; lia)).
  pose proof (zlen_decode_group (pads [b0; b1; b2; b3]) (strip b0) (strip b1) (strip b2) (strip b3)).
  autorewrite with th8len. unfold zlen in *. divlia.
Qed.

Lemma zlen_b64_kept z : zlen (b64_kept z) <= zlen z.
Proof.
  unfold b64_kept, zlen. pose proof (length_filter (λ v, v ≠ 65) (map dec z)) as H.
  rewrite length_map in H. lia.
Qed.

(** ** The encoder's output, as the decoder reads it *)

Lemma dec_enc v : 0 <= v < 64 → dec (enc v) = v.
Proof.
  intros Hv.
  assert (H : forallb (λ n, dec (enc (Z.of_nat n)) =? Z.of_nat n) (seq 0 64) = true)
    by (vm_compute; done).
  rewrite forallb_forall in H. specialize (H (Z.to_nat v)).
  rewrite Z2Nat.id, Z.eqb_eq in H by lia. apply H, in_seq. lia.
Qed.

Lemma land_63 v : 0 <= Z.land v 0x3F < 64.
Proof. change 0x3F with (2 ^ 6 - 1). rewrite land_ones_mod by lia. apply Z.mod_pos_bound; lia. Qed.

Definition sextet (v : Z) : Z := Z.land v 0x3F.

Definition chunk_sextets (nChunk a b c : Z) : list Z :=
  let triple := Z.lor (Z.lor (Z.shiftl a 16) (Z.shiftl b 8)) c in
  [sextet (Z.shiftr triple 18); sextet (Z.shiftr triple 12);
   if 2 <=? nChunk then sextet (Z.shiftr triple 6) else 64;
   if 3 <=? nChunk then sextet triple else 64].

Lemma kept_sextet v z : b64_kept (enc (Z.land v 0x3F) :: z) = sextet v :: b64_kept z.
Proof.
  rewrite b64_kept_cons, dec_enc by apply land_63. pose proof (land_63 v).
  case_if; bool_to_prop; [lia|done].
Qed.

Lemma kept_chunk nChunk a b c z :
  b64_kept (encode_chunk nChunk a b c ++ z) = chunk_sextets nChunk a b c ++ b64_kept z.
Proof.
  unfold encode_chunk, chunk_sextets. simpl app. rewrite !kept_sextet.
  destruct (2 <=? nChunk), (3 <=? nChunk); rewrite ?kept_sextet; try done;
    rewrite b64_kept_cons; simpl; by rewrite ?kept_sextet.
Qed.

Lemma triple_value a b c :
  is_byte a → is_byte b → is_byte c →
  Z.lor (Z.lor (Z.shiftl a 16) (Z.shiftl b 8)) c = a * 65536 + b * 256 + c.
Proof.
  intros Ha Hb Hc. unfold is_byte in *.
  rewrite (lor_shiftl_add a _ 16) by (rewrite ?Z.shiftl_mul_pow2; lia).
  rewrite Z.shiftl_mul_pow2 by lia.
  replace (a * 2 ^ 16 + b * 2 ^ 8) with (Z.shiftl (a * 2 ^ 8 + b) 8)
    by (rewrite Z.shiftl_mul_pow2; lia).
  rewrite lor_shiftl_add by lia. lia.
Qed.

Lemma sextets_value s0 s1 s2 s3 :
  0 <= s0 < 64 → 0 <= s1 < 64 → 0 <= s2 < 64 → 0 <= s3 < 64 →
  Z.lor (Z.lor (Z.lor (Z.shiftl s0 18) (Z.shiftl s1 12)) (Z.shiftl s2 6)) s3 =
  s0 * 262144 + s1 * 4096 + s2 * 64 + s3.
Proof.
  intros. rewrite (lor_shiftl_add s0 _ 18) by (rewrite ?Z.shiftl_mul_pow2; lia).
  rewrite (Z.shiftl_mul_pow2 s1) by lia.
  replace (s0 * 2 ^ 18 + s1 * 2 ^ 12) with (Z.shiftl (s0 * 2 ^ 6 + s1) 12)
    by (rewrite Z.shiftl_mul_pow2; lia).
  rewrite lor_shiftl_add by (rewrite ?Z.shiftl_mul_pow2; lia).
  rewrite (Z.shiftl_mul_pow2 s2) by lia.
  replace ((s0 * 2 ^ 6 + s1) * 2 ^ 12 + s2 * 2 ^ 6)
    with (Z.shiftl ((s0 * 2 ^ 6 + s1) * 2 ^ 6 + s2) 6) by (rewrite Z.shiftl_mul_pow2; lia).
  rewrite lor_shiftl_add by lia. lia.
Qed.

(** Evaluate the comparisons between constants. *)
Ltac red_cmp := cbv [Z.leb Z.ltb Z.compare Pos.compare Pos.compare_cont]; cbv iota.

(** One chunk of the encoder's input comes back from its four characters. *)
Lemma chunk_back nChunk a b c :
  1 <= nChunk <= 3 → is_byte a → is_byte b → is_byte c →
  (nChunk < 2 → b = 0) → (nChunk < 3 → c = 0) →
  decode_groups (chunk_sextets nChunk a b c) = take (Z.to_nat nChunk) [a; b; c].
Proof.
  intros Hn Ha Hb Hc Hb0 Hc0. unfold chunk_sextets, sextet. rewrite triple_value by done.
  unfold is_byte in *.
  change 0x3F with (2 ^ 6 - 1). rewrite !land_ones_mod, !Z.shiftr_div_pow2 by lia.
  set (t := a * 65536 + b * 256 + c) in *.
  assert (Hm : ∀ v, 0 <= v mod 2 ^ 6 < 64 ∧ v mod 2 ^ 6 ≠ 64) by (intros; divlia).
  assert (Hs : ∀ v, strip (v mod 2 ^ 6) = v mod 2 ^ 6)
    by (intros v; unfold strip; case_if; bool_to_prop; [destruct (Hm v); lia|done]).
  assert (Hp : ∀ v l, pads (v mod 2 ^ 6 :: l) = pads l)
    by (intros v l; unfold pads; rewrite filter_cons; case_decide;
        [destruct (Hm v); done|done]).
  cbn [decode_groups]. rewrite app_nil_r, !Hp, !Hs. unfold decode_group.
  change 0xFF with (2 ^ 8 - 1).
  assert (nChunk = 1 ∨ nChunk = 2 ∨ nChunk = 3) as [->|[->| ->]] by lia;
    red_cmp; rewrite ?Hp, ?Hs.
  - change (pads [64; 64]) with 2. change (strip 64) with 0.
    rewrite sextets_value by (apply Hm || lia). red_cmp.
    rewrite land_ones_mod, Z.shiftr_div_pow2 by lia.
    specialize (Hb0 ltac:(lia)). specialize (Hc0 ltac:(lia)).
    change (take (Z.to_nat 1) [a; b; c]) with [a]. simpl app. f_equal. subst t. divlia.
  - change (pads [64]) with 1. change (strip 64) with 0.
    rewrite sextets_value by (apply Hm || lia). red_cmp.
    rewrite !land_ones_mod, !Z.shiftr_div_pow2 by lia. specialize (Hc0 ltac:(lia)).
    change (take (Z.to_nat 2) [a; b; c]) with [a; b]. simpl app.
    subst t. f_equal; [|f_equal]; divlia.
  - change (pads []) with 0. rewrite sextets_value by apply Hm. red_cmp.
    rewrite !land_ones_mod, !Z.shiftr_div_pow2 by lia.
    change (take (Z.to_nat 3) [a; b; c]) with [a; b; c]. simpl app.
    subst t. f_equal; [|f_equal; [|f_equal]]; divlia.
Qed.

Lemma decode_groups_chunk nChunk a b c vs :
  decode_groups (chunk_sextets nChunk a b c ++ vs) =
  decode_groups (chunk_sextets nChunk a b c) ++ decode_groups vs.
Proof. unfold chunk_sextets. cbn [app decode_groups]. by rewrite app_nil_r. Qed.

Lemma kept_crlf z : b64_kept (13 :: 10 :: z) = b64_kept z.
Proof. by rewrite !b64_kept_cons. Qed.

(** Induction over the chunks of the encoder. *)
Lemma chunk_ind (P : bytes → Prop) :
  P [] → (∀ a, P [a]) → (∀ a b, P [a; b]) → (∀ a b c z, P z → P (a :: b :: c :: z)) →
  ∀ z, P z.
Proof.
  intros H0 H1 H2 H3 z. induction z as [z IH] using list_len_ind.
  destruct z as [|a [|b [|c z]]]; auto. apply H3, IH. simpl; lia.
Qed.

Lemma encode_groups z : ∀ linePos, is_bytes z → decode_groups (b64_kept (encode_loop z linePos)) = z.
Proof.
  induction z as [|a|a b|a b c z IH] using chunk_ind; intros lp Hz;
    [done| | |]; repeat (apply Forall_cons in Hz as [? Hz]).
  - cbn [encode_loop]. rewrite <- (app_nil_r (encode_chunk 1 a 0 0)), kept_chunk, decode_groups_chunk.
    rewrite chunk_back by (done || lia || unfold is_byte; lia). done.
  - cbn [encode_loop]. rewrite <- (app_nil_r (encode_chunk 2 a b 0)), kept_chunk, decode_groups_chunk.
    rewrite chunk_back by (done || lia || unfold is_byte; lia). done.
  - cbn [encode_loop]. rewrite kept_chunk, decode_groups_chunk, chunk_back by (done || lia).
    simpl app. do 3 f_equal. case_if; [rewrite kept_crlf|]; by apply IH.
Qed.

Lemma encode_valid z : ∀ linePos, is_bytes z → b64_valid (encode_loop z linePos) = true.
Proof.
  assert (Hc : ∀ n a b c w, b64_valid (encode_chunk n a b c ++ w) = b64_valid w).
  { intros. unfold b64_valid. rewrite kept_chunk, forallb_app.
    assert (Hs : ∀ v, negb (sextet v =? 255) = true)
      by (intros v; unfold sextet; pose proof (land_63 v); destruct (_ =? _) eqn:E; bool_to_prop; [lia|done]).
    unfold chunk_sextets. cbn [forallb]. rewrite !Hs.
    destruct (2 <=? n), (3 <=? n); by rewrite ?Hs. }
  induction z as [|a|a b|a b c z IH] using chunk_ind; intros lp Hz;
    [done| | |]; repeat (apply Forall_cons in Hz as [? Hz]); cbn [encode_loop].
  - by rewrite <- (app_nil_r (encode_chunk 1 a 0 0)), Hc.
  - by rewrite <- (app_nil_r (encode_chunk 2 a b 0)), Hc.
  - rewrite Hc. case_if; [unfold b64_valid; rewrite kept_crlf|]; by apply IH.
Qed.

(** The encoder's length, from column [4 * k] of the line. *)
Lemma encode_length z : ∀ k, 0 <= k < 19 →
  zlen (encode_loop z (4 * k)) =
  let q := (zlen z + 2) / 3 in
  4 * q + 2 * (if 0 <? q then (k + q - 1) / 19 else 0).
Proof.
  induction z as [|a|a b|a b c z IH] using chunk_ind; intros k Hk; cbn [encode_loop].
  - done.
  - change (zlen (encode_chunk 1 a 0 0)) with 4. change (zlen [a]) with 1. simpl. divlia.
  - change (zlen (encode_chunk 2 a b 0)) with 4. change (zlen [a; b]) with 2. simpl. divlia.
  - rewrite zlen_app. change (zlen (encode_chunk 3 a b c)) with 4.
    pose proof (zlen_nonneg z). rewrite !zlen_cons.
    replace ((1 + (1 + (1 + zlen z)) + 2) / 3) with (1 + (zlen z + 2) / 3) by divlia.
    set (q := (zlen z + 2) / 3) in *.
    assert (Hq : (0 <? q) = (0 <? zlen z)).
    { subst q. apply Bool.eq_iff_eq_true. rewrite !Z.ltb_lt. divlia. }
    cbv zeta. replace (0 <? 1 + q) with true by (symmetry; apply Z.ltb_lt; subst q; divlia).
    destruct ((76 <=? 4 * k + 4) && (0 <? zlen z)) eqn:E.
    + bool_to_prop. rewrite !zlen_cons. change 0 with (4 * 0) at 1. rewrite IH by lia.
      cbv zeta. rewrite Hq. replace (0 <? zlen z) with true by (symmetry; by apply Z.ltb_lt).
      assert (k = 18) as -> by lia. divlia.
    + replace (4 * k + 4) with (4 * (k + 1)) in * by lia.
      destruct (decide (k = 18)) as [->|].
      * simpl in E. bool_to_prop. assert (z = []) as -> by (destruct z as [|? w]; [done|rewrite zlen_cons in E; pose proof (zlen_nonneg w); lia]).
        done.
      * rewrite IH by lia. cbv zeta. rewrite Hq. case_if; bool_to_prop; [divlia|].
        assert (q = 0) by (subst q; rewrite (Z.le_antisymm (zlen z) 0) by lia; done).
        rewrite Z.div_small by lia. lia.
Qed.

(** ** Theorems *)

Lemma encode_size_spec nIn n :
  is_size nIn → encode_size nIn = Some n →
  let q := (nIn + 2) / 3 in n = 4 * q + 2 * (if 0 <? q then (q - 1) / 19 else 0).
Proof.
  unfold is_size, encode_size. intros Hn. cbn.
  destruct (add_size nIn 2) as [t|] eqn:E1; [|done]. apply add_size_spec in E1.
  destruct E1 as [-> _]. simpl.
  destruct (mul_size _ 4) as [r|] eqn:E2; [|done].
  apply mul_size_spec in E2; [|divlia..]. destruct E2 as [-> _]. simpl.
  set (q := (nIn + 2) / 3) in *.
  destruct (mul_size _ 2) as [l|] eqn:E3; [|done].
  apply mul_size_spec in E3; [|case_if; bool_to_prop; divlia|lia]. destruct E3 as [-> _]. simpl.
  intros E4. apply add_size_spec in E4.
  destruct E4 as [-> _]. repeat case_if; bool_to_prop; divlia.
Qed.

(** Decoding what th8Base64Encode produced gives the input back, for
    every byte string, line breaks included. *)
Theorem Base64_roundtrip alloc_ok z z64 :
  is_bytes z → th8Base64Encode alloc_ok z = Ok z64 → alloc_ok (zlen z64 / 4 * 3 + 3) = true →
  zlen z64 <= (SIZE_MAX - 3) / 3 * 4 →
  th8Base64Decode alloc_ok z64 = Ok z.
Proof.
  intros Hz He Ha Hs. unfold th8Base64Encode in He. case_match; [|done]. case_if_in He; [|done].
  injection He as <-. unfold th8Base64Decode, decode_size.
  case_if; bool_to_prop; [lia|]. rewrite Ha.
  rewrite (decode_loop_spec _ [] [] ltac:(simpl; lia)), encode_valid by done.
  simpl. by rewrite encode_groups.
Qed.

Lemma Base64_roundtrip_witness :
  th8Base64Decode (λ _, true) (bytes_of_string "AP8QfyBA") = Ok [0; 255; 16; 127; 32; 64].
Proof.
  apply (Base64_roundtrip (λ _, true)).
  - repeat (apply Forall_cons; split; [unfold is_byte; lia|]). constructor.
  - vm_compute. reflexivity.
  - reflexivity.
  - vm_compute. discriminate.
Defined.

(** The sizes computed before the loops hold what the loops store: the
    encoder fills its allocation exactly, and the decoder stays strictly below
    the size it allocated on every input, valid or not. *)
Theorem Base64_sizes alloc_ok z out :
  is_size (zlen z) →
  (th8Base64Encode alloc_ok z = Ok out → encode_size (zlen z) = Some (zlen out)) ∧
  (th8Base64Decode alloc_ok z = Ok out →
   ∃ nOutMax, decode_size (zlen z) = Some nOutMax ∧ is_size (nOutMax + 1) ∧ zlen out < nOutMax).
Proof.
  intros Hn. split.
  - unfold th8Base64Encode. destruct (encode_size _) as [n|] eqn:E; [|done].
    case_if; [|done]. intros [= <-]. apply encode_size_spec in E; [|done].
    f_equal. rewrite E. symmetry. change 0 with (4 * 0). rewrite (encode_length z 0) by lia. done.
  - unfold th8Base64Decode, decode_size. case_if; [done|]. bool_to_prop. case_if; [|done].
    rewrite (decode_loop_spec _ [] [] ltac:(simpl; lia)).
    destruct (b64_valid z); [|done]. intros [= <-]. eexists. split; [done|].
    pose proof (zlen_decode_groups (b64_kept z)). pose proof (zlen_b64_kept z).
    pose proof (zlen_nonneg (b64_kept z)). simpl.
    split; [unfold is_size, SIZE_MAX in *; divlia|divlia].
Qed.

Lemma Base64_sizes_witness :
  encode_size 1 = Some 4.
Proof.
  refine (proj1 (Base64_sizes (λ _, true) [77] (bytes_of_string "TQ==") _) _).
  - split; vm_compute; discriminate.
  - vm_compute. reflexivity.
Defined.

(** th8Base64Decode agrees with the reference decoder: white space is
    dropped, any other character outside the alphabet is an error, the rest is
    decoded in groups of four in which [=] counts as padding wherever it
    stands, and one, two or three characters left over are ignored. *)
Theorem th8Base64Decode_spec alloc_ok z :
  th8Base64Decode alloc_ok z =
  match decode_size (zlen z) with
  | None => Err SizeOverflow
  | Some nOutMax =>
      if alloc_ok nOutMax then
        if b64_valid z then Ok (decode_groups (b64_kept z)) else Err InvalidCharacter
      else Err OutOfMemory
  end.
Proof.
  unfold th8Base64Decode. case_match; [|done]. case_if; [|done].
  rewrite (decode_loop_spec _ [] [] ltac:(simpl; lia)). by destruct (b64_valid z).
Qed.

(** Text that no RFC 4648 encoder produces decodes without an error: padding
    in the middle of a group, and an incomplete last group. *)
Example decode_lenient :
  decode_loop (bytes_of_string "T=Fu") [] 0 [] = Some [76; 1] ∧
  decode_loop (bytes_of_string "TWFuT") [] 0 [] = Some (bytes_of_string "Man").
Proof. split; reflexivity. Qed.
