(* ===== verification/Cancel.v ===== *)
(** * Cancel: script cancellation across threads (th8CancelReqOr to
    th8CancelReqClear, Th8_CancelEval, Th8_IsCanceled, Th8_IsBeingUnwound,
    th8SaveCancel, th8RestoreCancel, th8CheckCancel and th8ClearCancel of
    src/src/th8_core.c).

    A cancellation is requested by any thread, or by a signal handler, and is
    acted on by the thread that owns the interpreter.  The two shared words are
    updated by compare-and-exchange only: [nCancelReq] carries the canceled bit
    with the request's flags, [nCancelReqMsg] a pointer to a message buffer from
    the raw platform allocator.  Everything else is the owner's.

    Each C function is a program of atomic actions in continuation-passing
    style; the programs of all threads interleave at every action.  An action
    that the code's ownership rules forbid has no successor: reading or freeing
    a block that is not live, freeing through the wrong allocator, and the
    owner's fields or the accounted allocator used from another thread. *)

From S2P Require Import Prelude.
From stdpp Require Import gmap fin_maps relations.
Open Scope Z_scope.

Definition TH8_CANCEL_UNWIND : Z := 0x01.
Definition TH8_CANCEL_SIGNAL : Z := 0x02.
Definition TH8_CR_CANCELED : Z := 0x100.
Definition TH8_CANCEL_FLAG_MASK : Z := Z.lor TH8_CANCEL_UNWIND TH8_CANCEL_SIGNAL.

(** ** State *)

(** The allocator a block came from. *)
Inductive origin : Type := Raw | Accounted.
#[export] Instance origin_eq_dec : EqDecision origin.
Proof. solve_decision. Defined.

Record block : Type := mkBlock { bOrigin : origin; bData : bytes }.

(** What th8SaveCancel moves out of the interpreter. *)
Record Th8_CancelSave : Type := mkSave {
  sv_bCanceled : Z;
  sv_cancelFlags : Z;
  sv_bCancelMsgOwned : bool;
  sv_zCancelMsg : option nat
}.

(** The fields only the owning thread touches; [saves] are the buffers of the
    [finally] blocks in progress, innermost first. *)
Record owner : Type := mkOwner {
  cancelFlags : Z;
  bCancelMsgOwned : bool;
  zCancelMsg : option nat;
  zResult : bytes;
  saves : list Th8_CancelSave
}.

Record shared : Type := mkShared {
  nCancelReq : Z;
  nCancelReqMsg : option nat;
  heap : gmap nat block;
  own : owner
}.

Definition set_flags (o : owner) (f : Z) : owner :=
  mkOwner f (bCancelMsgOwned o) (zCancelMsg o) (zResult o) (saves o).
Definition set_msg (o : owner) (owned : bool) (q : option nat) : owner :=
  mkOwner (cancelFlags o) owned q (zResult o) (saves o).
Definition set_result (o : owner) (z : bytes) : owner :=
  mkOwner (cancelFlags o) (bCancelMsgOwned o) (zCancelMsg o) z (saves o).
Definition set_saves (o : owner) (l : list Th8_CancelSave) : owner :=
  mkOwner (cancelFlags o) (bCancelMsgOwned o) (zCancelMsg o) (zResult o) l.

(** ** Programs *)

Inductive prog : Type :=
| Done
| IntCmpXchg (new cmp : Z) (k : Z → prog)         (* one CAS on nCancelReq *)
| ReqLoop (f : Z → Z) (seen : option Z) (k : Z → prog)
    (* do old = load; while (CAS(f old, old) != old) on nCancelReq *)
| MsgLoop (new : option nat) (seen : option (option nat)) (k : option nat → prog)
    (* the same loop on nCancelReqMsg *)
| Alloc (o : origin) (z : bytes) (k : option nat → prog)  (* allocate and fill *)
| Read (o : origin) (b : nat) (k : bytes → prog)
| Free (o : origin) (b : nat) (k : prog)
| OwnGet (k : owner → prog)
| OwnSet (o : owner) (k : prog).

(** One action of a thread; [reply] is what an allocation returns. *)
Definition exec (isOwner : bool) (reply : option nat) (s : shared) (p : prog)
    : option (shared * prog) :=
  let '(mkShared req msg h o) := s in
  match p with
  | Done => None
  | IntCmpXchg new cmp k => Some (mkShared (if req =? cmp then new else req) msg h o, k req)
  | ReqLoop f None k => Some (s, ReqLoop f (Some req) k)
  | ReqLoop f (Some old) k =>
      if req =? old then Some (mkShared (f old) msg h o, k old)
      else Some (s, ReqLoop f None k)
  | MsgLoop new None k => Some (s, MsgLoop new (Some msg) k)
  | MsgLoop new (Some old) k =>
      if decide (msg = old) then Some (mkShared req new h o, k old)
      else Some (s, MsgLoop new None k)
  | Alloc g z k =>
      if bool_decide (g = Raw) || isOwner then
        match reply with
        | Some b => Some (mkShared req msg (<[b := mkBlock g z]> h) o, k (Some b))
        | None => Some (s, k None)
        end
      else None
  | Read g b k =>
      match h !! b with
      | Some (mkBlock g' z) =>
          if bool_decide (g' = g) && (bool_decide (g = Raw) || isOwner) then Some (s, k z) else None
      | None => None
      end
  | Free g b k =>
      match h !! b with
      | Some (mkBlock g' _) =>
          if bool_decide (g' = g) && (bool_decide (g = Raw) || isOwner)
          then Some (mkShared req msg (delete b h) o, k) else None
      | None => None
      end
  | OwnGet k => if isOwner then Some (s, k o) else None
  | OwnSet o' k => if isOwner then Some (mkShared req msg h o', k) else None
  end.

(** ** The functions *)

Definition th8CancelReqOr (bits : Z) (k : prog) : prog :=
  ReqLoop (λ old, Z.lor old bits) None (λ _, k).

Definition th8CancelMsgXchg (newVal : option nat) (k : option nat → prog) : prog :=
  MsgLoop newVal None k.

Definition th8CancelMsgBuild (zMsg : bytes) (k : option nat → prog) : prog :=
  Alloc Raw zMsg k.

Definition th8CancelMsgFree (pBuf : option nat) (k : prog) : prog :=
  match pBuf with Some b => Free Raw b k | None => k end.

(** [zMsg] is [None] for a NULL message. *)
Definition th8CancelReqPublish (zMsg : option bytes) (flags : Z) (k : prog) : prog :=
  let post := th8CancelReqOr (Z.lor TH8_CR_CANCELED (Z.land flags TH8_CANCEL_FLAG_MASK)) k in
  match zMsg with
  | Some ((_ :: _) as z) =>
      th8CancelMsgBuild z (λ pBuf,
        match pBuf with
        | Some _ => th8CancelMsgXchg pBuf (λ pOld, th8CancelMsgFree pOld post)
        | None => post
        end)
  | _ => post
  end.

Definition th8CancelReqAdopt (k : prog) : prog :=
  IntCmpXchg 0 0 (λ req,
    if Z.land req TH8_CR_CANCELED =? 0 then k
    else
      OwnGet (λ o, OwnSet (set_flags o (Z.lor (cancelFlags o) (Z.land req TH8_CANCEL_FLAG_MASK)))
        (th8CancelMsgXchg None (λ pBuf,
          match pBuf with
          | None => k
          | Some b =>
              OwnGet (λ o,
                match zCancelMsg o with
                | None =>
                    Read Raw b (λ z, Alloc Accounted z (λ q,
                      match q with
                      | Some _ => OwnSet (set_msg o true q) (th8CancelMsgFree pBuf k)
                      | None => th8CancelMsgFree pBuf k
                      end))
                | Some _ => th8CancelMsgFree pBuf k
                end)
          end)))).

Definition th8CancelReqClear (k : prog) : prog :=
  ReqLoop (λ _, 0) None (λ _, th8CancelMsgXchg None (λ pBuf, th8CancelMsgFree pBuf k)).

(** The canceled bit of a request word. *)
Definition canceled (req : Z) : bool := negb (Z.land req TH8_CR_CANCELED =? 0).

Definition th8CheckCancel (k : bool → prog) : prog :=
  IntCmpXchg 0 0 (λ req, k (canceled req)).

(** Release the owned message, as both th8ClearCancel and Th8_CancelEval do. *)
Definition free_owned (o : owner) (k : prog) : prog :=
  match bCancelMsgOwned o, zCancelMsg o with
  | true, Some q => Free Accounted q k
  | _, _ => k
  end.

Definition th8ClearCancel (k : prog) : prog :=
  th8CheckCancel (λ canceled,
    if canceled then
      OwnGet (λ o, OwnSet (set_flags o 0)
        (free_owned o (OwnSet (set_msg (set_flags o 0) false None) (th8CancelReqClear k))))
    else k).

Definition Th8_ResetCancel : prog → prog := th8ClearCancel.

Definition SIGNAL_TEXT : bytes := bytes_of_string "eval canceled via signal".
Definition CANCEL_TEXT : bytes := bytes_of_string "eval canceled".

(** The continuation receives the return code. *)
Definition Th8_IsCanceled (k : Z → prog) : prog :=
  th8CheckCancel (λ canceled,
    if canceled then
      th8CancelReqAdopt (OwnGet (λ o,
        match zCancelMsg o with
        | Some q => Read Accounted q (λ z, OwnSet (set_result o z) (k TH8_ERROR))
        | None =>
            OwnSet (set_result o (if Z.land (cancelFlags o) TH8_CANCEL_SIGNAL =? 0
                                  then CANCEL_TEXT else SIGNAL_TEXT)) (k TH8_ERROR)
        end))
    else k TH8_OK).

Definition Th8_IsBeingUnwound (k : bool → prog) : prog :=
  let final :=
    th8CheckCancel (λ canceled,
      OwnGet (λ o, k (canceled && negb (Z.land (cancelFlags o) TH8_CANCEL_UNWIND =? 0)))) in
  th8CheckCancel (λ canceled, if canceled then th8CancelReqAdopt final else final).

(** The owner's path of Th8_CancelEval, without TH8_CANCEL_SIGNAL. *)
Definition CancelEval_owner (zMsg : option bytes) (flags : Z) (k : prog) : prog :=
  let bits := Z.land flags TH8_CANCEL_FLAG_MASK in
  let post := th8CancelReqOr (Z.lor TH8_CR_CANCELED bits) k in
  OwnGet (λ o,
    let o := set_flags o (Z.lor (cancelFlags o) bits) in
    OwnSet o
      (match zMsg with
       | None => post
       | Some z =>
           let o1 := if bCancelMsgOwned o && bool_decide (is_Some (zCancelMsg o))
                     then set_msg o false None else o in
           free_owned o (OwnSet o1 (Alloc Accounted z (λ q,
             OwnSet (match q with
                     | Some _ => set_msg o1 true q
                     | None => set_msg o1 (bCancelMsgOwned o1) None
                     end) post)))
       end)).

Definition Th8_CancelEval (isOwner : bool) (zMsg : option bytes) (flags : Z) (k : prog) : prog :=
  if negb (Z.land flags TH8_CANCEL_SIGNAL =? 0) then th8CancelReqPublish None flags k
  else if negb isOwner then th8CancelReqPublish zMsg flags k
  else CancelEval_owner zMsg flags k.

Definition th8SaveCancel (k : prog) : prog :=
  th8CancelReqAdopt (IntCmpXchg 0 0 (λ req, OwnGet (λ o,
    let save := mkSave req (cancelFlags o) (bCancelMsgOwned o) (zCancelMsg o) in
    IntCmpXchg 0 req (λ _,
      OwnSet (set_saves (set_msg (set_flags o 0) false None) (save :: saves o)) k)))).

Definition th8RestoreCancel (k : prog) : prog :=
  OwnGet (λ o,
    match saves o with
    | [] => k
    | sv :: rest =>
        th8CheckCancel (λ canceled,
          if canceled then
            let drop := OwnSet (set_saves o rest) k in
            match sv_bCancelMsgOwned sv, sv_zCancelMsg sv with
            | true, Some q => Free Accounted q drop
            | _, _ => drop
            end
          else
            th8CancelReqOr (sv_bCanceled sv)
              (OwnSet (mkOwner (sv_cancelFlags sv) (sv_bCancelMsgOwned sv) (sv_zCancelMsg sv)
                               (zResult o) rest) k))
    end).

(** The part of Th8_DeleteInterp that releases the cancellation state. *)
Definition DeleteInterp_cancel (k : prog) : prog :=
  OwnGet (λ o, free_owned o (OwnSet (set_msg o false None) k)).

(** Run the owner alone, every allocation answered by [reply]. *)
Fixpoint run (fuel : nat) (reply : option nat) (s : shared) (p : prog) : option shared :=
  match fuel with
  | O => None
  | S fuel' =>
      match p with
      | Done => Some s
      | _ => match exec true reply s p with
             | Some (s', p') => run fuel' reply s' p'
             | None => None
             end
      end
  end.

(** ** The system: one owner, any number of other threads *)

(** What the owner calls; a script reaches these through [try], [catch] and the
    readiness checks. *)
Inductive owner_call : Type :=
| CallCancelEval (zMsg : option bytes) (flags : Z)
| CallIsCanceled
| CallIsBeingUnwound
| CallResetCancel
| CallSaveCancel
| CallRestoreCancel.

Definition owner_prog (c : owner_call) : prog :=
  match c with
  | CallCancelEval zMsg flags => Th8_CancelEval true zMsg flags Done
  | CallIsCanceled => Th8_IsCanceled (λ _, Done)
  | CallIsBeingUnwound => Th8_IsBeingUnwound (λ _, Done)
  | CallResetCancel => Th8_ResetCancel Done
  | CallSaveCancel => th8SaveCancel Done
  | CallRestoreCancel => th8RestoreCancel Done
  end.

(** Thread 0 is the owner; a signal handler is another thread, which interleaves
    more freely than a handler nested in the owner does. *)
Record conf : Type := mkConf { sh : shared; thr : nat → prog }.

Definition is_owner (i : nat) : bool := bool_decide (i = 0%nat).

Definition upd {A} (f : nat → A) (i : nat) (x : A) : nat → A :=
  λ j, if decide (j = i) then x else f j.

(** The allocator answers with a block that is not live, or NULL. *)
Definition fresh (s : shared) (reply : option nat) : Prop :=
  match reply with Some b => heap s !! b = None | None => True end.

(** [msgs] are the messages that callers may pass. *)
Inductive step (msgs : bytes → Prop) (c : conf) : conf → Prop :=
| step_call o :
    thr c 0%nat = Done →
    (∀ z flags, o = CallCancelEval (Some z) flags → msgs z) →
    step msgs c (mkConf (sh c) (upd (thr c) 0%nat (owner_prog o)))
| step_foreign i zMsg flags :
    i ≠ 0%nat → thr c i = Done →
    (∀ z, zMsg = Some z → msgs z) →
    step msgs c (mkConf (sh c) (upd (thr c) i (Th8_CancelEval false zMsg flags Done)))
| step_exec i reply s' p' :
    fresh (sh c) reply →
    exec (is_owner i) reply (sh c) (thr c i) = Some (s', p') →
    step msgs c (mkConf s' (upd (thr c) i p')).

Definition init : conf :=
  mkConf (mkShared 0 None ∅ (mkOwner 0 false None [] [])) (λ _, Done).

Definition reach (msgs : bytes → Prop) := rtc (step msgs).

(** ** Ownership

    [ok who held p]: run by the owner with fields [o] ([who = Some (o, cb)]) or
    by another thread ([None]), holding exactly the blocks [held], [p] performs
    only permitted actions whatever the shared words and the allocator answer,
    and leaves every block where the next program expects it.  [cb] says that
    the canceled bit is known to be set: only the owner clears it. *)

(** The request word is zero, or the canceled bit with flag bits. *)
Definition req_ok (r : Z) : Prop :=
  r = 0 ∨ ∃ f, 0 <= f < 4 ∧ r = Z.lor TH8_CR_CANCELED f.

Definition msg_bufs (q : option nat) : list nat :=
  match q with Some b => [b] | None => [] end.

Definition save_bufs (o : owner) : list nat :=
  concat (map (λ sv, msg_bufs (sv_zCancelMsg sv)) (saves o)).

(** The blocks that the owner's fields hold between two calls. *)
Definition own_bufs (o : owner) : list nat := msg_bufs (zCancelMsg o) ++ save_bufs o.

Definition res_of (l : list nat) : gmap nat origin := list_to_map (map (λ b, (b, Accounted)) l).

(** A message pointer is owned exactly when it is set, and only set together
    with the canceled bit. *)
Definition msg_ok (owned : bool) (q : option nat) (cb : bool) : Prop :=
  owned = bool_decide (is_Some q) ∧ (is_Some q → cb = true).

(** The owner's view after it saw a request word. *)
Definition learn (who : option (owner * bool)) (cb : bool) : option (owner * bool) :=
  match who with Some (o, _) => Some (o, cb) | None => None end.
Definition knows (who : option (owner * bool)) : Prop :=
  match who with Some (_, cb) => cb = true | None => False end.

Section ownership.
Context (msgs : bytes → Prop).

Definition result_ok (z : bytes) : Prop :=
  z = [] ∨ msgs z ∨ z = CANCEL_TEXT ∨ z = SIGNAL_TEXT.

Record owner_ok (o : owner) (cb : bool) : Prop := {
  oo_nodup : NoDup (own_bufs o);
  oo_msg : msg_ok (bCancelMsgOwned o) (zCancelMsg o) cb;
  oo_saves : Forall (λ sv,
    msg_ok (sv_bCancelMsgOwned sv) (sv_zCancelMsg sv) (canceled (sv_bCanceled sv)) ∧
    req_ok (sv_bCanceled sv)) (saves o);
  oo_result : result_ok (zResult o)
}.

Fixpoint ok (who : option (owner * bool)) (held : gmap nat origin) (p : prog) : Prop :=
  match p with
  | Done =>
      match who with
      | None => held = ∅
      | Some (o, cb) => owner_ok o cb ∧ held = res_of (own_bufs o)
      end
  | IntCmpXchg new cmp k =>
      req_ok new ∧ (who = None → new = cmp) ∧
      ∀ r, req_ok r → (knows who → canceled r = true) →
           ok (learn who ((new =? cmp) && canceled r)) held (k r)
  | ReqLoop f _ k =>
      (∀ r, req_ok r → req_ok (f r)) ∧
      (who = None → ∀ r, Z.land r (f r) = r) ∧
      ∀ r, req_ok r → (knows who → canceled r = true) →
           ok (learn who (canceled (f r))) held (k r)
  | MsgLoop new _ k =>
      match new with
      | None =>
          ok who held (k None) ∧
          ∀ b, held !! b = None → ok who (<[b := Raw]> held) (k (Some b))
      | Some n =>
          held !! n = Some Raw ∧
          ok who (delete n held) (k None) ∧
          ∀ b, delete n held !! b = None → ok who (<[b := Raw]> (delete n held)) (k (Some b))
      end
  | Alloc g z k =>
      msgs z ∧ (g = Accounted → is_Some who) ∧ ok who held (k None) ∧
      ∀ b, held !! b = None → ok who (<[b := g]> held) (k (Some b))
  | Read g b k =>
      held !! b = Some g ∧ (g = Accounted → is_Some who) ∧ ∀ z, msgs z → ok who held (k z)
  | Free g b k =>
      held !! b = Some g ∧ (g = Accounted → is_Some who) ∧ ok who (delete b held) k
  | OwnGet k => match who with Some (o, _) => ok who held (k o) | None => False end
  | OwnSet o k => match who with Some (_, cb) => ok (Some (o, cb)) held k | None => False end
  end.
End ownership.

(** ** Every function keeps the ownership discipline *)

Lemma req_ok_0 : req_ok 0.
Proof. by left. Qed.

Lemma land_mask flags : 0 <= Z.land flags TH8_CANCEL_FLAG_MASK < 4.
Proof.
  change TH8_CANCEL_FLAG_MASK with (2 ^ 2 - 1). rewrite land_ones_mod by lia.
  apply Z.mod_pos_bound. lia.
Qed.

Lemma flag_cases (f : Z) : 0 <= f < 4 → f = 0 ∨ f = 1 ∨ f = 2 ∨ f = 3.
Proof. lia. Qed.

Lemma req_ok_or r r' : req_ok r → req_ok r' → req_ok (Z.lor r r').
Proof.
  intros [->|(f & Hf & ->)] [->|(g & Hg & ->)];
    [by left|right; exists g; by rewrite Z.lor_0_l|right; exists f; by rewrite Z.lor_0_r|].
  right. exists (Z.lor f g). apply flag_cases in Hf, Hg.
  destruct Hf as [->|[->|[->| ->]]], Hg as [->|[->|[->| ->]]];
    vm_compute; intuition discriminate.
Qed.

Lemma canceled_bit r : canceled r = Z.testbit r 8.
Proof.
  unfold canceled. change TH8_CR_CANCELED with (2 ^ 8).
  destruct (Z.testbit r 8) eqn:E.
  - destruct (_ =? 0) eqn:E2; [|done]. bool_to_prop.
    assert (H : Z.testbit (Z.land r (2 ^ 8)) 8 = true) by (by rewrite Z.land_spec, E).
    by rewrite E2 in H.
  - replace (Z.land r (2 ^ 8)) with 0; [done|]. symmetry. apply Z.bits_inj'. intros n Hn.
    rewrite Z.land_spec, Z.bits_0. destruct (decide (n = 8)) as [->|]; [by rewrite E|].
    by rewrite Z.pow2_bits_false, andb_false_r.
Qed.

Lemma canceled_or r r' : canceled (Z.lor r r') = canceled r || canceled r'.
Proof. by rewrite !canceled_bit, Z.lor_spec. Qed.

Lemma land_lor_l r r' : Z.land r (Z.lor r r') = r.
Proof.
  apply Z.bits_inj'. intros n Hn. rewrite Z.land_spec, Z.lor_spec.
  by destruct (Z.testbit r n).
Qed.

(** A word that has the bits of another has its canceled bit. *)
Lemma canceled_land r r' : Z.land r r' = r → canceled r = true → canceled r' = true.
Proof.
  rewrite !canceled_bit. intros <-. rewrite Z.land_spec. by intros [_ ?]%andb_true_iff.
Qed.

Lemma req_ok_post flags :
  let bits := Z.lor TH8_CR_CANCELED (Z.land flags TH8_CANCEL_FLAG_MASK) in
  req_ok bits ∧ canceled bits = true.
Proof.
  split; [right; eexists; split; [apply land_mask|done]|]. by rewrite canceled_or.
Qed.

Lemma res_of_None b l : b ∉ l → res_of l !! b = None.
Proof.
  intros Hb. apply not_elem_of_list_to_map. rewrite list_elem_of_fmap.
  intros ([x g] & -> & Hin). apply list_elem_of_fmap in Hin as (y & [= -> ->] & Hin). done.
Qed.

Lemma res_of_Some b l : b ∈ l → res_of l !! b = Some Accounted.
Proof.
  induction l as [|x l IH]; [by intros ?%elem_of_nil|].
  change (res_of (x :: l)) with (<[x := Accounted]> (res_of l)).
  destruct (decide (x = b)) as [->|]; [by rewrite lookup_insert_eq|].
  rewrite lookup_insert_ne by done. intros [->|?]%elem_of_cons; [done|auto].
Qed.

Lemma res_of_not_elem b l : res_of l !! b = None → b ∉ l.
Proof. intros H Hin. by rewrite res_of_Some in H. Qed.

(** Freeing one of the blocks. *)
Lemma res_of_delete b l l' : NoDup l → l ≡ₚ b :: l' → delete b (res_of l) = res_of l'.
Proof.
  intros Hnd Hp. rewrite Hp in Hnd. apply NoDup_cons in Hnd as [Hb Hnd].
  apply map_eq. intros x. destruct (decide (x = b)) as [->|Hx].
  - by rewrite lookup_delete_eq, res_of_None.
  - rewrite lookup_delete_ne by done. destruct (decide (x ∈ l')) as [Hin|Hin].
    + rewrite !res_of_Some; [done..|]. rewrite Hp. by right.
    + rewrite !res_of_None; [done..|]. rewrite Hp. by intros [?|?]%elem_of_cons.
Qed.

Section functions.
Context (msgs : bytes → Prop).
Abbreviation ok := (ok msgs).
Abbreviation owner_ok := (owner_ok msgs).

(** The rules of [ok], one per action. *)
Lemma ok_Read who held g b k :
  held !! b = Some g → (g = Accounted → is_Some who) → (∀ z, msgs z → ok who held (k z)) →
  ok who held (Read g b k).
Proof. done. Qed.

Lemma ok_Free who held g b k :
  held !! b = Some g → (g = Accounted → is_Some who) → ok who (delete b held) k →
  ok who held (Free g b k).
Proof. done. Qed.

Lemma ok_Alloc who held g z k :
  msgs z → (g = Accounted → is_Some who) → ok who held (k None) →
  (∀ b, held !! b = None → ok who (<[b := g]> held) (k (Some b))) →
  ok who held (Alloc g z k).
Proof. done. Qed.

Lemma ok_MsgTake who held k :
  ok who held (k None) → (∀ b, held !! b = None → ok who (<[b := Raw]> held) (k (Some b))) →
  ok who held (th8CancelMsgXchg None k).
Proof. done. Qed.

Lemma ok_MsgPut who held n k :
  held !! n = None → ok who held (k None) →
  (∀ b, held !! b = None → ok who (<[b := Raw]> held) (k (Some b))) →
  ok who (<[n := Raw]> held) (th8CancelMsgXchg (Some n) k).
Proof. intros Hn H1 H2. split; [apply lookup_insert_eq|]. by rewrite delete_insert_id. Qed.

Lemma ok_OwnGet o cb held k : ok (Some (o, cb)) held (k o) → ok (Some (o, cb)) held (OwnGet k).
Proof. done. Qed.

Lemma ok_OwnSet o cb held o' k :
  ok (Some (o', cb)) held k → ok (Some (o, cb)) held (OwnSet o' k).
Proof. done. Qed.

Lemma ok_MsgFree who held b k :
  held !! b = None → ok who held k → ok who (<[b := Raw]> held) (th8CancelMsgFree (Some b) k).
Proof.
  intros Hb Hk. apply ok_Free; [apply lookup_insert_eq|done|]. by rewrite delete_insert_id.
Qed.

(** Posting a request: the owner knows the bit afterwards. *)
Lemma ok_ReqOr_foreign held bits k :
  req_ok bits → ok None held k → ok None held (th8CancelReqOr bits k).
Proof.
  intros Hb Hk. split_and!; [intros; by apply req_ok_or| |done].
  intros _ r. apply land_lor_l.
Qed.

Lemma ok_ReqOr_owner o cb held bits k :
  req_ok bits → (∀ cb', (cb = true ∨ canceled bits = true → cb' = true) → ok (Some (o, cb')) held k) →
  ok (Some (o, cb)) held (th8CancelReqOr bits k).
Proof.
  intros Hb Hk. split_and!; [intros; by apply req_ok_or|done|].
  intros r _ Hr. apply Hk. rewrite canceled_or. intros [Hc|Hc]; [by rewrite (Hr Hc)|].
  by rewrite Hc, orb_true_r.
Qed.

Lemma ok_Publish_foreign held zMsg flags k :
  (∀ z, zMsg = Some z → msgs z) → ok None held k →
  ok None held (th8CancelReqPublish zMsg flags k).
Proof.
  intros Hz Hk. unfold th8CancelReqPublish.
  pose proof (ok_ReqOr_foreign held _ k (proj1 (req_ok_post flags)) Hk) as Hpost.
  destruct zMsg as [[|c z]|]; [done| |done].
  apply ok_Alloc; [by apply Hz|done|done|]. intros b Hb.
  apply ok_MsgPut; [done|done|]. intros b' Hb'. by apply ok_MsgFree.
Qed.

Lemma ok_CheckCancel o cb held k :
  (∀ c, (cb = true → c = true) → ok (Some (o, c)) held (k c)) →
  ok (Some (o, cb)) held (th8CheckCancel k).
Proof.
  intros Hk. split_and!; [apply req_ok_0|done|]. intros r _ Hr. simpl. apply Hk, Hr.
Qed.

Lemma ok_ReqClear o cb held k :
  ok (Some (o, false)) held k → ok (Some (o, cb)) held (th8CancelReqClear k).
Proof.
  intros Hk. split_and!; [intros; apply req_ok_0|done|]. intros r _ _.
  apply ok_MsgTake; [done|]. intros b Hb. by apply ok_MsgFree.
Qed.

Lemma owner_ok_cb o cb cb' : (cb = true → cb' = true) → owner_ok o cb → owner_ok o cb'.
Proof. intros Hc [H1 [H2 H3] H4 H5]. split; [done|split; [done|auto]|done..]. Qed.

Lemma owner_ok_flags o cb f : owner_ok o cb → owner_ok (set_flags o f) cb.
Proof. intros [H1 H2 H3 H4]. by split. Qed.

(** Installing a fresh message. *)
Lemma owner_ok_install o q :
  owner_ok o true → zCancelMsg o = None → q ∉ own_bufs o →
  owner_ok (set_msg o true (Some q)) true ∧
  res_of (own_bufs (set_msg o true (Some q))) = <[q := Accounted]> (res_of (own_bufs o)).
Proof.
  intros [H1 H2 H3 H4] Hn Hq. unfold own_bufs in *. rewrite Hn in *. simpl in *.
  split; [|done]. split; [by apply NoDup_cons|done..].
Qed.

Lemma ok_Adopt o cb k :
  owner_ok o cb →
  (∀ o' cb', owner_ok o' cb' → saves o' = saves o → (cb = true → cb' = true) →
             ok (Some (o', cb')) (res_of (own_bufs o')) k) →
  ok (Some (o, cb)) (res_of (own_bufs o)) (th8CancelReqAdopt k).
Proof.
  intros Ho Hk. split_and!; [apply req_ok_0|done|]. intros r Hreq Hr.
  change (knows (Some (o, cb))) with (cb = true) in Hr.
  assert (Hc : (Z.land r TH8_CR_CANCELED =? 0) = negb (canceled r))
    by (unfold canceled; by rewrite negb_involutive).
  cbn beta. rewrite Hc. cbn [learn]. change ((0 =? 0) && canceled r) with (canceled r).
  destruct (canceled r) eqn:Er; cbn [negb].
  2: { apply Hk; [|done|done]. eapply owner_ok_cb; [|done]. intros ->. auto. }
  apply ok_OwnGet, ok_OwnSet.
  set (o1 := set_flags o _).
  assert (Ho1 : owner_ok o1 true) by (apply owner_ok_flags; by eapply owner_ok_cb).
  change (res_of (own_bufs o)) with (res_of (own_bufs o1)).
  assert (Hk1 : ok (Some (o1, true)) (res_of (own_bufs o1)) k) by by apply Hk.
  apply ok_MsgTake; [done|]. intros b Hb. apply ok_OwnGet.
  destruct (zCancelMsg o1) eqn:Ez; [by apply ok_MsgFree|].
  apply ok_Read; [apply lookup_insert_eq|done|]. intros z Hz.
  apply ok_Alloc; [done|done|by apply ok_MsgFree|]. intros q Hq. apply ok_OwnSet.
  assert (Hne : b ≠ q) by (intros ->; by rewrite lookup_insert_eq in Hq).
  rewrite lookup_insert_ne in Hq by done.
  destruct (owner_ok_install o1 q Ho1 Ez (res_of_not_elem _ _ Hq)) as [Hok Hres].
  rewrite insert_insert_ne by done. rewrite <- Hres.
  apply ok_MsgFree; [rewrite Hres; by rewrite lookup_insert_ne|by apply Hk].
Qed.

(** Releasing the message the owner holds. *)
Lemma ok_free_owned o cb w k :
  owner_ok o cb →
  ok (Some (w, cb)) (res_of (save_bufs o)) k →
  ok (Some (w, cb)) (res_of (own_bufs o)) (free_owned o k).
Proof.
  intros [H1 [H2 H3] _ _] Hk. unfold free_owned. rewrite H2. unfold own_bufs in *.
  destruct (zCancelMsg o) as [q|]; [|done].
  apply ok_Free; [apply res_of_Some; by left|done|].
  by rewrite (res_of_delete q _ (save_bufs o)).
Qed.

Lemma owner_ok_drop o cb cb' f :
  owner_ok o cb → owner_ok (set_msg (set_flags o f) false None) cb'.
Proof.
  intros [H1 H2 H3 H4]. split; [|by split; [done|intros [? ?]]|done..].
  unfold own_bufs in *. by apply NoDup_app in H1 as (_ & _ & ?).
Qed.

Lemma ok_ClearCancel o cb k :
  owner_ok o cb →
  (∀ o' cb', owner_ok o' cb' → saves o' = saves o →
             ok (Some (o', cb')) (res_of (own_bufs o')) k) →
  ok (Some (o, cb)) (res_of (own_bufs o)) (th8ClearCancel k).
Proof.
  intros Ho Hk. apply ok_CheckCancel. intros c Hc. assert (Ho' := owner_ok_cb _ _ c Hc Ho).
  destruct c; [|by apply Hk].
  apply ok_OwnGet, ok_OwnSet. apply (ok_free_owned o true); [done|].
  apply ok_OwnSet, ok_ReqClear.
  apply (Hk (set_msg (set_flags o 0) false None)); [by eapply owner_ok_drop|done].
Qed.

Lemma owner_ok_result o cb z : result_ok msgs z → owner_ok o cb → owner_ok (set_result o z) cb.
Proof. intros Hz [H1 H2 H3 H4]. by split. Qed.

Lemma ok_IsCanceled o cb :
  owner_ok o cb → ok (Some (o, cb)) (res_of (own_bufs o)) (Th8_IsCanceled (λ _, Done)).
Proof.
  intros Ho. apply ok_CheckCancel. intros c Hc. assert (Ho' := owner_ok_cb _ _ c Hc Ho).
  destruct c; [|done]. apply ok_Adopt; [done|]. intros o' cb' Ho2 _ _. apply ok_OwnGet.
  assert (Hset : ∀ z, result_ok msgs z →
    ok (Some (o', cb')) (res_of (own_bufs o')) (OwnSet (set_result o' z) Done)).
  { intros z Hz. apply ok_OwnSet. split; [by apply owner_ok_result|done]. }
  destruct (zCancelMsg o') as [q|] eqn:Eq.
  - apply ok_Read; [|done|].
    + apply res_of_Some. unfold own_bufs. rewrite Eq. by left.
    + intros z Hz. apply Hset. right; by left.
  - apply Hset. case_if; unfold result_ok; auto.
Qed.

Lemma ok_IsBeingUnwound o cb :
  owner_ok o cb → ok (Some (o, cb)) (res_of (own_bufs o)) (Th8_IsBeingUnwound (λ _, Done)).
Proof.
  intros Ho. unfold Th8_IsBeingUnwound.
  set (final := th8CheckCancel (λ _ : bool, OwnGet (λ _ : owner, Done))).
  assert (Hf : ∀ o cb, owner_ok o cb → ok (Some (o, cb)) (res_of (own_bufs o)) final).
  { clear. intros o cb Ho. apply ok_CheckCancel. intros c Hc. apply ok_OwnGet.
    split; [by eapply owner_ok_cb|done]. }
  apply ok_CheckCancel. intros c Hc. assert (Ho' := owner_ok_cb _ _ c Hc Ho).
  destruct c; [|by apply Hf]. apply ok_Adopt; [done|]. intros; by apply Hf.
Qed.

Lemma ok_CancelEval o cb zMsg flags :
  owner_ok o cb → (∀ z, zMsg = Some z → msgs z) →
  ok (Some (o, cb)) (res_of (own_bufs o)) (Th8_CancelEval true zMsg flags Done).
Proof.
  intros Ho Hz. unfold Th8_CancelEval.
  destruct (req_ok_post flags) as [Hp Hpc]. cbv zeta in Hp, Hpc.
  assert (Hpost : ∀ o cb, owner_ok o true →
    ok (Some (o, cb)) (res_of (own_bufs o))
      (th8CancelReqOr (Z.lor TH8_CR_CANCELED (Z.land flags TH8_CANCEL_FLAG_MASK)) Done)).
  { intros o' c' Ho'. apply ok_ReqOr_owner; [done|]. intros c'' Hc''.
    split; [|done]. rewrite Hc'' by auto. done. }
  assert (Ht : owner_ok o true) by (by apply (owner_ok_cb o cb)).
  destruct (negb _); [by apply Hpost|]. cbn [negb]. apply ok_OwnGet, ok_OwnSet.
  set (o1 := set_flags o _). assert (Ho1 : owner_ok o1 cb) by exact (owner_ok_flags _ _ _ Ho).
  assert (Ht1 : owner_ok o1 true) by exact (owner_ok_flags _ _ _ Ht).
  destruct zMsg as [z|]; [|by apply (Hpost o1)].
  change (res_of (own_bufs o)) with (res_of (own_bufs o1)).
  apply (ok_free_owned _ cb); [done|]. apply ok_OwnSet.
  set (o2 := if bCancelMsgOwned o1 && _ then _ else o1).
  assert (H2 : owner_ok o2 true ∧ zCancelMsg o2 = None ∧ bCancelMsgOwned o2 = false ∧
               own_bufs o2 = save_bufs o1).
  { subst o2. destruct (oo_msg _ _ _ Ho1) as [Hm _]. rewrite Hm. unfold own_bufs.
    destruct (zCancelMsg o1) as [q|] eqn:Eq; simpl.
    - split; [by apply (owner_ok_drop o1 cb true (cancelFlags o1))|done].
    - change (zCancelMsg o) with (zCancelMsg o1). rewrite Eq. done. }
  destruct H2 as (Ho2 & Hn & Hb & Hs). rewrite <- Hs.
  apply ok_Alloc; [by apply Hz|done| |].
  - apply ok_OwnSet. rewrite Hb.
    assert (own_bufs o2 = own_bufs (set_msg o2 false None)) as ->
      by (unfold own_bufs; by rewrite Hn).
    apply (Hpost (set_msg o2 false None)).
    by apply (owner_ok_drop o2 true true (cancelFlags o2)).
  - intros q Hq. destruct (owner_ok_install o2 q Ho2 Hn (res_of_not_elem _ _ Hq)) as [Hok Hres].
    apply ok_OwnSet. rewrite <- Hres. by apply Hpost.
Qed.

Lemma ok_SaveCancel o cb :
  owner_ok o cb → ok (Some (o, cb)) (res_of (own_bufs o)) (th8SaveCancel Done).
Proof.
  intros Ho. apply ok_Adopt; [done|]. intros o' cb' [H1 [H2 H3] H4 H5] _ _.
  split_and!; [apply req_ok_0|done|]. intros r Hreq Hr. apply ok_OwnGet.
  split_and!; [apply req_ok_0|done|]. intros r' _ _. apply ok_OwnSet.
  split; [|done]. split; [done|by split; [done|intros [? ?]]| |done].
  apply Forall_cons. split; [|done]. split; [|done]. split; [done|]. intros Hs. by apply Hr, H3.
Qed.

Lemma ok_RestoreCancel o cb :
  owner_ok o cb → ok (Some (o, cb)) (res_of (own_bufs o)) (th8RestoreCancel Done).
Proof.
  intros Ho. apply ok_OwnGet. destruct (saves o) as [|sv rest] eqn:Es; [done|].
  assert (Hb : own_bufs o = msg_bufs (zCancelMsg o) ++ msg_bufs (sv_zCancelMsg sv) ++
                            concat (map (λ sv, msg_bufs (sv_zCancelMsg sv)) rest))
    by (unfold own_bufs, save_bufs; by rewrite Es).
  destruct Ho as [H1 [H2 H3] H4 H5]. rewrite Es in H4. rewrite Hb in *.
  apply Forall_cons in H4 as [[[Hs1 Hs2] Hs3] H4].
  set (bs := concat _) in *.
  apply ok_CheckCancel. intros c Hc. destruct c.
  - assert (Hdrop : ok (Some (o, true)) (res_of (msg_bufs (zCancelMsg o) ++ bs))
                      (OwnSet (set_saves o rest) Done)).
    { apply ok_OwnSet. split; [|done]. split; [|by split|done..].
      unfold own_bufs, save_bufs; simpl. fold bs.
      rewrite Permutation_app_comm, <- app_assoc in H1.
      apply NoDup_app in H1 as (_ & _ & H1). by rewrite Permutation_app_comm. }
    rewrite Hs1. destruct (sv_zCancelMsg sv) as [q|]; [|done].
    apply ok_Free; [apply res_of_Some; apply elem_of_app; right; by left|done|].
    rewrite (res_of_delete q _ (msg_bufs (zCancelMsg o) ++ bs)); [done..|].
    simpl. by rewrite Permutation_middle.
  - assert (Hn : zCancelMsg o = None).
    { destruct (zCancelMsg o); [|done]. by specialize (Hc (H3 ltac:(done))). }
    rewrite Hn in *. simpl app in *.
    apply ok_ReqOr_owner; [done|]. intros cb' Hcb'. apply ok_OwnSet.
    split; [|done]. split; [done| |done..]. split; [done|]. intros Hq. apply Hcb'.
    right. by apply Hs2.
Qed.

(** Whatever the owner calls, and whatever another thread calls. *)
Lemma ok_owner_prog o cb c :
  owner_ok o cb → (∀ z flags, c = CallCancelEval (Some z) flags → msgs z) →
  ok (Some (o, cb)) (res_of (own_bufs o)) (owner_prog c).
Proof.
  intros Ho Hz. destruct c; simpl.
  - apply ok_CancelEval; [done|]. intros z ->. by eapply Hz.
  - by apply ok_IsCanceled.
  - by apply ok_IsBeingUnwound.
  - by apply ok_ClearCancel.
  - by apply ok_SaveCancel.
  - by apply ok_RestoreCancel.
Qed.

Lemma ok_foreign_prog zMsg flags :
  (∀ z, zMsg = Some z → msgs z) → ok None ∅ (Th8_CancelEval false zMsg flags Done).
Proof.
  intros Hz. unfold Th8_CancelEval. case_if; [|simpl]; by apply ok_Publish_foreign.
Qed.
End functions.

(** ** The invariant of the system *)

Definition kind_at (h : gmap nat block) (b : nat) : option origin := bOrigin <$> (h !! b).

(** [helds] says which blocks each thread holds, [cb] whether the owner knows
    of the canceled bit. *)
Record inv_with (msgs : bytes → Prop) (c : conf) (helds : nat → gmap nat origin) (cb : bool)
    : Prop := {
  iv_req : req_ok (nCancelReq (sh c));
  iv_cb : cb = true → canceled (nCancelReq (sh c)) = true;
  iv_ok : ∀ i, ok msgs (if is_owner i then Some (own (sh c), cb) else None) (helds i) (thr c i);
  iv_held : ∀ i b g, helds i !! b = Some g →
    kind_at (heap (sh c)) b = Some g ∧ nCancelReqMsg (sh c) ≠ Some b ∧
    ∀ j, j ≠ i → helds j !! b = None;
  iv_slot : ∀ b, nCancelReqMsg (sh c) = Some b → kind_at (heap (sh c)) b = Some Raw;
  iv_live : ∀ b g, kind_at (heap (sh c)) b = Some g →
    nCancelReqMsg (sh c) = Some b ∨ ∃ i, helds i !! b = Some g;
  iv_data : ∀ b blk, heap (sh c) !! b = Some blk → msgs (bData blk)
}.

Definition inv (msgs : bytes → Prop) (c : conf) : Prop := ∃ helds cb, inv_with msgs c helds cb.

Lemma upd_same {A} (f : nat → A) i x : upd f i x i = x.
Proof. unfold upd. by rewrite decide_True. Qed.
Lemma upd_other {A} (f : nat → A) i j x : j ≠ i → upd f i x j = f j.
Proof. intros. unfold upd. by rewrite decide_False. Qed.

Lemma kind_insert h b g z b' :
  kind_at (<[b := mkBlock g z]> h) b' = if decide (b = b') then Some g else kind_at h b'.
Proof.
  unfold kind_at. case_decide as E; [subst; by rewrite lookup_insert_eq|].
  by rewrite lookup_insert_ne.
Qed.

Lemma kind_delete h b b' :
  kind_at (delete b h) b' = if decide (b = b') then None else kind_at h b'.
Proof.
  unfold kind_at. case_decide as E; [subst; by rewrite lookup_delete_eq|].
  by rewrite lookup_delete_ne.
Qed.

(** The program of thread [i] may be replaced by another that is fine with the
    same blocks. *)
Lemma inv_replace msgs c helds cb i p :
  inv_with msgs c helds cb →
  ok msgs (if is_owner i then Some (own (sh c), cb) else None) (helds i) p →
  inv_with msgs (mkConf (sh c) (upd (thr c) i p)) helds cb.
Proof.
  intros [] Hp. split; simpl; try done. intros j.
  destruct (decide (j = i)) as [->|]; [by rewrite upd_same|by rewrite upd_other].
Qed.

Lemma inv_init msgs : inv msgs init.
Proof.
  exists (λ _, ∅), false. split; simpl; try done.
  - by left.
  - intros i. unfold is_owner. case_bool_decide; [|done]. split; [|done].
    split; [constructor|by split; [done|intros [? ?]]|constructor|by left].
Qed.

Lemma inv_call msgs c o :
  inv msgs c → thr c 0%nat = Done →
  (∀ z flags, o = CallCancelEval (Some z) flags → msgs z) →
  inv msgs (mkConf (sh c) (upd (thr c) 0%nat (owner_prog o))).
Proof.
  intros (helds & cb & Hi) Hd Hz. exists helds, cb. apply inv_replace; [done|].
  pose proof (iv_ok _ _ _ _ Hi 0%nat) as H. rewrite Hd in H. destruct H as [H ->].
  by apply ok_owner_prog.
Qed.

Lemma inv_foreign msgs c i zMsg flags :
  inv msgs c → i ≠ 0%nat → thr c i = Done → (∀ z, zMsg = Some z → msgs z) →
  inv msgs (mkConf (sh c) (upd (thr c) i (Th8_CancelEval false zMsg flags Done))).
Proof.
  intros (helds & cb & Hi) Hn Hd Hz. exists helds, cb. apply inv_replace; [done|].
  pose proof (iv_ok _ _ _ _ Hi i) as H. unfold is_owner in *.
  rewrite bool_decide_false in * by done. rewrite Hd in H. rewrite H. by apply ok_foreign_prog.
Qed.

Definition who_at (i : nat) (o : owner) (cb : bool) : option (owner * bool) :=
  if is_owner i then Some (o, cb) else None.

(** An action that leaves the heap, the message slot and the blocks held. *)
Lemma inv_quiet msgs c helds cb i req' o' cb' p' :
  inv_with msgs c helds cb →
  req_ok req' → (cb' = true → canceled req' = true) →
  (is_owner i = false → o' = own (sh c) ∧ cb' = cb) →
  ok msgs (who_at i o' cb') (helds i) p' →
  inv_with msgs (mkConf (mkShared req' (nCancelReqMsg (sh c)) (heap (sh c)) o') (upd (thr c) i p'))
    helds cb'.
Proof.
  intros [] Hr Hcb Ho Hp. split; simpl; try done. intros j.
  destruct (decide (j = i)) as [->|Hj]; [by rewrite upd_same|rewrite upd_other by done].
  destruct (is_owner i) eqn:Ei; [|destruct Ho as [-> ->]; done].
  specialize (iv_ok0 j). unfold is_owner in *. apply bool_decide_eq_true in Ei as ->.
  by rewrite bool_decide_false in * by done.
Qed.

(** An action of thread [i] that changes the blocks it holds to [h'], the heap
    and the slot, each block keeping exactly one place. *)
Lemma inv_move msgs c helds cb i h' slot' hp' p' :
  inv_with msgs c helds cb →
  ok msgs (who_at i (own (sh c)) cb) h' p' →
  (∀ b g, h' !! b = Some g →
     kind_at hp' b = Some g ∧ slot' ≠ Some b ∧ ∀ j, j ≠ i → helds j !! b = None) →
  (∀ j b g, j ≠ i → helds j !! b = Some g → kind_at hp' b = Some g ∧ slot' ≠ Some b ∧ h' !! b = None) →
  (∀ b, slot' = Some b → kind_at hp' b = Some Raw) →
  (∀ b g, kind_at hp' b = Some g →
     slot' = Some b ∨ h' !! b = Some g ∨ ∃ j, j ≠ i ∧ helds j !! b = Some g) →
  (∀ b blk, hp' !! b = Some blk → msgs (bData blk)) →
  inv_with msgs (mkConf (mkShared (nCancelReq (sh c)) slot' hp' (own (sh c))) (upd (thr c) i p'))
    (upd helds i h') cb.
Proof.
  intros [] Hp Hh Hj Hs Hl Hd. split; simpl; try done.
  - intros j. destruct (decide (j = i)) as [->|Hne]; [by rewrite !upd_same|by rewrite !upd_other].
  - intros j b g Hb. destruct (decide (j = i)) as [->|Hne].
    + rewrite upd_same in Hb. destruct (Hh b g Hb) as (H1 & H2 & H3). split_and!; [done|done|].
      intros j Hne. rewrite upd_other by done. auto.
    + rewrite upd_other in Hb by done. destruct (Hj j b g Hne Hb) as (H1 & H2 & H3).
      split_and!; [done|done|]. intros k Hk. destruct (decide (k = i)) as [->|Hki].
      * by rewrite upd_same.
      * rewrite upd_other by done. by apply (iv_held0 j b g Hb).
  - intros b g Hb. destruct (Hl b g Hb) as [?|[?|(j & Hne & ?)]]; [by left|right..].
    + exists i. by rewrite upd_same.
    + exists j. by rewrite upd_other.
Qed.

Section exec.
Context (msgs : bytes → Prop) (c : conf) (helds : nat → gmap nat origin) (cb : bool) (i : nat).
Context (Hi : inv_with msgs c helds cb).

Lemma held_kind b g : helds i !! b = Some g → ∃ z, heap (sh c) !! b = Some (mkBlock g z).
Proof.
  intros Hb. destruct (iv_held _ _ _ _ Hi _ _ _ Hb) as [Hk _]. unfold kind_at in Hk.
  destruct (heap (sh c) !! b) as [[g' z]|]; [|done]. simpl in Hk. injection Hk as ->. eauto.
Qed.

Lemma held_other j b g : helds i !! b = Some g → j ≠ i → helds j !! b = None.
Proof. intros Hb. apply (iv_held _ _ _ _ Hi _ _ _ Hb). Qed.

Lemma not_held b : kind_at (heap (sh c)) b = None → ∀ j, helds j !! b = None.
Proof.
  intros Hb j. destruct (helds j !! b) eqn:E; [|done].
  destruct (iv_held _ _ _ _ Hi _ _ _ E) as [Hk _]. congruence.
Qed.

Lemma slot_not_held b : nCancelReqMsg (sh c) = Some b → ∀ j, helds j !! b = None.
Proof.
  intros Hb j. destruct (helds j !! b) eqn:E; [|done].
  by destruct (iv_held _ _ _ _ Hi _ _ _ E) as (_ & Hk & _).
Qed.

(** The message slot is exchanged with a block the thread holds, or emptied. *)
Lemma inv_swap new p' :
  (∀ n, new = Some n → helds i !! n = Some Raw) →
  let h0 := match new with Some n => delete n (helds i) | None => helds i end in
  let h' := match nCancelReqMsg (sh c) with Some b => <[b := Raw]> h0 | None => h0 end in
  ok msgs (who_at i (own (sh c)) cb) h' p' →
  inv_with msgs
    (mkConf (mkShared (nCancelReq (sh c)) new (heap (sh c)) (own (sh c))) (upd (thr c) i p'))
    (upd helds i h') cb.
Proof.
  intros Hn h0 h' Hp.
  assert (Hh0 : ∀ b g, h0 !! b = Some g ↔ helds i !! b = Some g ∧ new ≠ Some b).
  { intros b g. subst h0. destruct new as [n|]; [|by split; [|intros []]].
    destruct (decide (n = b)) as [->|Hne].
    - rewrite lookup_delete_eq. split; [done|by intros []].
    - rewrite lookup_delete_ne by done. split; [|by intros []]. split; congruence. }
  assert (Hh : ∀ b g, h' !! b = Some g ↔
                      (nCancelReqMsg (sh c) = Some b ∧ g = Raw) ∨ h0 !! b = Some g).
  { intros b g. subst h'. destruct (nCancelReqMsg (sh c)) as [s|] eqn:Es; [|naive_solver].
    assert (h0 !! s = None).
    { destruct (h0 !! s) eqn:E; [|done]. apply Hh0 in E as [E _].
      by rewrite slot_not_held in E. }
    destruct (decide (s = b)) as [->|Hne].
    - rewrite lookup_insert_eq. naive_solver.
    - rewrite lookup_insert_ne by done. naive_solver. }
  apply inv_move; [done|done|..].
  - intros b g Hb. apply Hh in Hb as [[Hb ->]|Hb].
    + split_and!; [by apply Hi| |intros; by apply slot_not_held].
      intros ->. specialize (Hn b eq_refl). by rewrite slot_not_held in Hn.
    + apply Hh0 in Hb as [Hb Hne]. by destruct (iv_held _ _ _ _ Hi _ _ _ Hb) as (? & ? & ?).
  - intros j b g Hj Hb. destruct (iv_held _ _ _ _ Hi _ _ _ Hb) as (H1 & H2 & H3).
    split_and!; [done| |].
    + intros ->. specialize (Hn b eq_refl). by rewrite H3 in Hn.
    + destruct (h' !! b) eqn:E; [|done]. apply Hh in E as [[? _]|E]; [done|].
      apply Hh0 in E as [E _]. by rewrite H3 in E.
  - intros b ->. destruct (held_kind b Raw (Hn b eq_refl)) as [z Hz].
    unfold kind_at. by rewrite Hz.
  - intros b g Hb. destruct (iv_live _ _ _ _ Hi b g Hb) as [Hs|[j Hj]].
    + right; left. apply Hh. left. split; [done|]. pose proof (iv_slot _ _ _ _ Hi b Hs). congruence.
    + destruct (decide (j = i)) as [->|]; [|eauto]. destruct (decide (new = Some b)) as [->|]; [by left|].
      right; left. apply Hh. right. by apply Hh0.
  - intros b blk. apply Hi.
Qed.

Lemma inv_alloc b g z p' :
  heap (sh c) !! b = None → msgs z →
  ok msgs (who_at i (own (sh c)) cb) (<[b := g]> (helds i)) p' →
  inv_with msgs
    (mkConf (mkShared (nCancelReq (sh c)) (nCancelReqMsg (sh c))
               (<[b := mkBlock g z]> (heap (sh c))) (own (sh c))) (upd (thr c) i p'))
    (upd helds i (<[b := g]> (helds i))) cb.
Proof.
  intros Hb Hz Hp. assert (Hk : kind_at (heap (sh c)) b = None) by (unfold kind_at; by rewrite Hb).
  pose proof (not_held b Hk) as Hnh.
  assert (Hns : nCancelReqMsg (sh c) ≠ Some b)
    by (intros Hs; apply (iv_slot _ _ _ _ Hi) in Hs; congruence).
  apply inv_move; [done|done|..].
  - intros b' g'. rewrite lookup_insert_Some, kind_insert. intros [[-> ->]|[Hne Hb']].
    + by rewrite decide_True.
    + rewrite decide_False by done. by destruct (iv_held _ _ _ _ Hi _ _ _ Hb') as (? & ? & ?).
  - intros j b' g' Hj Hb'. destruct (iv_held _ _ _ _ Hi _ _ _ Hb') as (H1 & H2 & H3).
    rewrite kind_insert. case_decide; [subst; by rewrite Hnh in Hb'|].
    rewrite lookup_insert_ne by done. auto.
  - intros b' Hb'. rewrite kind_insert. case_decide; [by subst|]. by apply Hi.
  - intros b' g'. rewrite kind_insert. case_decide as E.
    + subst. intros [= ->]. right; left. by rewrite lookup_insert_eq.
    + rewrite lookup_insert_ne by done. intros Hl.
      destruct (iv_live _ _ _ _ Hi b' g' Hl) as [?|[j ?]]; [by left|right].
      destruct (decide (j = i)) as [->|]; eauto.
  - intros b' blk. rewrite lookup_insert_Some. intros [[-> <-]|[_ H]]; [done|]. by apply Hi in H.
Qed.

Lemma inv_free b g p' :
  helds i !! b = Some g →
  ok msgs (who_at i (own (sh c)) cb) (delete b (helds i)) p' →
  inv_with msgs
    (mkConf (mkShared (nCancelReq (sh c)) (nCancelReqMsg (sh c)) (delete b (heap (sh c)))
               (own (sh c))) (upd (thr c) i p'))
    (upd helds i (delete b (helds i))) cb.
Proof.
  intros Hb Hp. destruct (iv_held _ _ _ _ Hi _ _ _ Hb) as (Hk & Hns & Hoth).
  apply inv_move; [done|done|..].
  - intros b' g'. rewrite lookup_delete_Some, kind_delete. intros [Hne Hb'].
    rewrite decide_False by done. by destruct (iv_held _ _ _ _ Hi _ _ _ Hb') as (? & ? & ?).
  - intros j b' g' Hj Hb'. destruct (iv_held _ _ _ _ Hi _ _ _ Hb') as (H1 & H2 & H3).
    rewrite kind_delete. case_decide; [subst; by rewrite Hoth in Hb'|].
    rewrite lookup_delete_ne by done. auto.
  - intros b' Hb'. rewrite kind_delete. case_decide; [by subst|]. by apply Hi.
  - intros b' g'. rewrite kind_delete. case_decide as E; [done|].
    rewrite lookup_delete_ne by done. intros Hl.
    destruct (iv_live _ _ _ _ Hi b' g' Hl) as [?|[j ?]]; [by left|right].
    destruct (decide (j = i)) as [->|]; eauto.
  - intros b' blk. rewrite lookup_delete_Some. intros [_ H]. by apply Hi in H.
Qed.
End exec.

(** [advances c i reply]: thread [i] has a permitted action, and it keeps the
    invariant. *)
Definition advances (msgs : bytes → Prop) (c : conf) (i : nat) (reply : option nat) : Prop :=
  ∃ s' p', exec (is_owner i) reply (sh c) (thr c i) = Some (s', p') ∧
           inv msgs (mkConf s' (upd (thr c) i p')).

Section actions.
Context (msgs : bytes → Prop) (thr0 : nat → prog) (req : Z) (msg : option nat).
Context (h : gmap nat block) (o : owner) (i : nat) (reply : option nat).
Let c := mkConf (mkShared req msg h o) thr0.
Context (helds : nat → gmap nat origin) (cb : bool) (Hi : inv_with msgs c helds cb).
Let who := who_at i o cb.

Lemma thread_ok : ok msgs who (helds i) (thr0 i).
Proof. exact (iv_ok _ _ _ _ Hi i). Qed.

Lemma learn_who b : learn who b = who_at i o (if is_owner i then b else cb).
Proof. unfold who, who_at. by destruct (is_owner i). Qed.

Lemma who_knows : knows who → canceled req = true.
Proof.
  unfold who, who_at. destruct (is_owner i); simpl; [|intros []].
  exact (iv_cb _ _ _ _ Hi).
Qed.

Lemma may_use g : (g = Accounted → is_Some who) → bool_decide (g = Raw) || is_owner i = true.
Proof.
  unfold who, who_at. intros Hg. destruct (is_owner i); [by rewrite orb_true_r|].
  destruct g; [done|]. by destruct (Hg eq_refl).
Qed.

(** An action that only moves the program on. *)
Lemma advance_skip p' :
  exec (is_owner i) reply (sh c) (thr0 i) = Some (sh c, p') →
  ok msgs who (helds i) p' → advances msgs c i reply.
Proof.
  intros He Hp. exists (sh c), p'. split; [done|]. exists helds, cb. by apply inv_replace.
Qed.

(** A successful update of the request word. *)
Lemma advance_req req' b p' :
  exec (is_owner i) reply (sh c) (thr0 i) = Some (mkShared req' msg h o, p') →
  req_ok req' → (if is_owner i then b = true → canceled req' = true
                 else canceled req = true → canceled req' = true) →
  ok msgs (learn who b) (helds i) p' → advances msgs c i reply.
Proof.
  intros He Hr Hb Hp. rewrite learn_who in Hp. do 2 eexists. split; [done|].
  exists helds, (if is_owner i then b else cb).
  apply (inv_quiet msgs c helds cb i req' o); [done|done| | |done].
  - destruct (is_owner i); [done|]. intros Hc. apply Hb. by apply Hi.
  - intros ->. done.
Qed.

Lemma advance_words : ∀ p, thr0 i = p →
  match p with IntCmpXchg _ _ _ | ReqLoop _ _ _ | MsgLoop _ _ _ => True | _ => False end →
  advances msgs c i reply.
Proof.
  pose proof thread_ok as Hok. pose proof (iv_req _ _ _ _ Hi) as Hreq. simpl in Hreq.
  intros p Ht Hp. destruct p as [|new cmp k|f [old|] k|new [old|] k|g z k|g b k|g b k|k|o' k];
    try done; rewrite Ht in Hok; clear Hp.
  - destruct Hok as (H1 & H2 & H3). specialize (H3 req Hreq who_knows).
    eapply advance_req; [by rewrite Ht| | |exact H3]; [by case_if|]. unfold who, who_at in H2.
    destruct (is_owner i).
    + intros E. bool_to_prop. case_if; bool_to_prop; congruence.
    + specialize (H2 eq_refl). intros E. case_if; bool_to_prop; congruence.
  - destruct (req =? old) eqn:E.
    + destruct Hok as (H1 & H2 & H3). specialize (H3 req Hreq who_knows).
      assert (old = req) as -> by (by bool_to_prop).
      eapply advance_req; [rewrite Ht; simpl; by rewrite E|by apply H1| |exact H3].
      unfold who, who_at in H2. destruct (is_owner i); [done|].
      apply canceled_land. by apply H2.
    + eapply advance_skip; [rewrite Ht; simpl; by rewrite E|]. done.
  - eapply advance_skip; [by rewrite Ht|done].
  - destruct (decide (msg = old)) as [<-|Hne].
    + do 2 eexists. split; [simpl; rewrite Ht; simpl; by rewrite decide_True|].
      pose proof (slot_not_held msgs c helds cb Hi) as Hns. simpl in Hns.
      eexists _, cb. apply (inv_swap msgs c helds cb i Hi new).
      * intros n ->. by destruct Hok.
      * simpl. destruct new as [n|]; [destruct Hok as (_ & Hok)|]; destruct Hok as [Hk0 Hk1];
          destruct msg as [m|]; try done; apply Hk1; rewrite ?lookup_delete_None; auto.
    + eapply advance_skip; [rewrite Ht; simpl; by rewrite decide_False|done].
  - eapply advance_skip; [by rewrite Ht|done].
Qed.

Lemma advance_blocks : ∀ p, thr0 i = p → fresh (sh c) reply →
  match p with Alloc _ _ _ | Read _ _ _ | Free _ _ _ => True | _ => False end →
  advances msgs c i reply.
Proof.
  pose proof thread_ok as Hok. intros p Ht Hf Hp.
  destruct p as [| | | |g z k|g b k|g b k|k|o' k]; try done; rewrite Ht in Hok; clear Hp.
  - destruct Hok as (H1 & H2 & H3 & H4).
    assert ((∃ b, reply = Some b) ∨ reply = None) as [[b Er]|Er] by (destruct reply; eauto);
      rewrite Er in Hf.
    + do 2 eexists. split; [simpl; rewrite Ht, Er; simpl; by rewrite may_use|].
      eexists _, cb. apply (inv_alloc msgs c helds cb i Hi b g z); [done|done|]. rewrite Er. apply H4.
      apply (not_held msgs c helds cb Hi b). unfold kind_at. simpl in *. rewrite Hf. done.
    + eapply advance_skip; [rewrite Ht, Er; simpl; by rewrite may_use|done].
  - destruct Hok as (H1 & H2 & H3).
    destruct (held_kind msgs c helds cb i Hi b g H1) as [z Hz].
    eapply advance_skip.
    + rewrite Ht. simpl in *. by rewrite Hz, bool_decide_true, may_use by done.
    + apply H3. by apply (iv_data _ _ _ _ Hi b (mkBlock g z)).
  - destruct Hok as (H1 & H2 & H3).
    destruct (held_kind msgs c helds cb i Hi b g H1) as [z Hz].
    do 2 eexists. split; [simpl in *; rewrite Ht; simpl; by rewrite Hz, bool_decide_true, may_use by done|].
    eexists _, cb. by apply (inv_free msgs c helds cb i Hi b g).
Qed.

Lemma advance_owner : ∀ p, thr0 i = p →
  match p with OwnGet _ | OwnSet _ _ => True | _ => False end →
  advances msgs c i reply.
Proof.
  pose proof thread_ok as Hok. intros p Ht Hp. unfold who, who_at in Hok.
  destruct p as [| | | | | | |k|o' k]; try done; rewrite Ht in Hok; simpl in Hok;
    destruct (is_owner i) eqn:Eo; try done.
  - eapply advance_skip; [rewrite Ht; simpl; by rewrite Eo|]. unfold who, who_at. by rewrite Eo.
  - do 2 eexists. split; [simpl; rewrite Ht; simpl; by rewrite Eo|]. exists helds, cb.
    apply (inv_quiet msgs c helds cb i req o' cb k Hi); try done; [apply Hi..| |].
    + congruence.
    + unfold who_at. by rewrite Eo.
Qed.
End actions.

(** No action of a running program is forbidden, and every action keeps the
    invariant. *)
Lemma inv_exec msgs c i reply :
  inv msgs c → thr c i ≠ Done → fresh (sh c) reply → advances msgs c i reply.
Proof.
  destruct c as [[req msg h o] t]. intros (helds & cb & Hi) Hd Hf. simpl in Hd.
  destruct (t i) eqn:Et; [done|..].
  - eapply advance_words; [done|exact Et|done].
  - eapply advance_words; [done|exact Et|done].
  - eapply advance_words; [done|exact Et|done].
  - eapply advance_blocks; [done|exact Et|done|done].
  - eapply advance_blocks; [done|exact Et|done|done].
  - eapply advance_blocks; [done|exact Et|done|done].
  - eapply advance_owner; [done|exact Et|done].
  - eapply advance_owner; [done|exact Et|done].
Qed.

Lemma inv_reach msgs c : reach msgs init c → inv msgs c.
Proof.
  unfold reach. intros H. remember init as c0 eqn:E. assert (H0 : inv msgs c0) by (subst; apply inv_init).
  clear E. induction H as [|c0 c1 c2 Hs _ IH]; [done|]. apply IH. clear IH.
  destruct Hs as [o Hd Hz|i zMsg flags Hn Hd Hz|i reply s' p' Hf He].
  - by apply inv_call.
  - by apply inv_foreign.
  - assert (Hnd : thr c0 i ≠ Done) by (intros Hd; rewrite Hd in He; by destruct (sh c0)).
    destruct (inv_exec msgs c0 i reply H0 Hnd Hf) as (s'' & p'' & He' & Hi). congruence.
Qed.

(** ** Theorems *)

(** C24.  No execution of any number of threads reaches an action that the
    ownership rules forbid: no message is read or freed when it is not live or
    was freed before, none goes back to the wrong allocator, and no thread but
    the owner touches the owner's fields or the accounted allocator. *)
Theorem cancel_safe msgs c i reply :
  reach msgs init c → thr c i ≠ Done → fresh (sh c) reply →
  ∃ s' p', exec (is_owner i) reply (sh c) (thr c i) = Some (s', p').
Proof.
  intros Hr Hd Hf. destruct (inv_exec msgs c i reply (inv_reach _ _ Hr) Hd Hf) as (s' & p' & H & _).
  eauto.
Qed.

(** When no call is in progress, the live message buffers are exactly
    the one in the shared slot and those the owner's fields and saved states
    point to, each once: no message leaks and none is freed twice.  The request
    word is zero or the canceled bit with its flags, and the result the owner
    reported is a message some caller passed or one of the two fixed texts. *)
Theorem cancel_quiescent msgs c :
  reach msgs init c → (∀ i, thr c i = Done) →
  (∀ b g, kind_at (heap (sh c)) b = Some g ↔
     (nCancelReqMsg (sh c) = Some b ∧ g = Raw) ∨ (b ∈ own_bufs (own (sh c)) ∧ g = Accounted)) ∧
  NoDup (own_bufs (own (sh c))) ∧
  req_ok (nCancelReq (sh c)) ∧
  result_ok msgs (zResult (own (sh c))).
Proof.
  intros Hr Hd. destruct (inv_reach _ _ Hr) as (helds & cb & Hi).
  assert (H0 : owner_ok msgs (own (sh c)) cb ∧ helds 0%nat = res_of (own_bufs (own (sh c)))).
  { pose proof (iv_ok _ _ _ _ Hi 0%nat) as H. rewrite Hd in H. exact H. }
  assert (Hn : ∀ i, i ≠ 0%nat → helds i = ∅).
  { intros i Hne. pose proof (iv_ok _ _ _ _ Hi i) as H. unfold is_owner in H.
    rewrite bool_decide_false, Hd in H by done. exact H. }
  destruct H0 as [Ho H0]. split_and!; [|by apply Ho|by apply Hi|by apply Ho].
  intros b g. split.
  - intros Hb. destruct (iv_live _ _ _ _ Hi b g Hb) as [Hs|[i Hh]].
    + left. split; [done|]. pose proof (iv_slot _ _ _ _ Hi b Hs). congruence.
    + right. destruct (decide (i = 0%nat)) as [->|Hne]; [|by rewrite Hn in Hh].
      rewrite H0 in Hh. destruct (decide (b ∈ own_bufs (own (sh c)))) as [Hin|Hin].
      * rewrite res_of_Some in Hh by done. split; [done|congruence].
      * by rewrite res_of_None in Hh.
  - intros [[Hs ->]|[Hin ->]]; [by apply Hi|].
    apply (iv_held _ _ _ _ Hi 0%nat). rewrite H0. by apply res_of_Some.
Qed.

(** Every way through [p] ends by setting [bits] in the request word. *)
Fixpoint posts (bits : Z) (p : prog) : Prop :=
  match p with
  | Done => False
  | IntCmpXchg _ _ k => ∀ r, posts bits (k r)
  | ReqLoop f _ k => ∀ r, (k r = Done ∧ Z.land bits (f r) = bits) ∨ posts bits (k r)
  | MsgLoop _ _ k => ∀ b, posts bits (k b)
  | Alloc _ _ k => ∀ b, posts bits (k b)
  | Read _ _ k => ∀ z, posts bits (k z)
  | Free _ _ k => posts bits k
  | OwnGet k => ∀ o, posts bits (k o)
  | OwnSet _ k => posts bits k
  end.

Definition request_bits (flags : Z) : Z :=
  Z.lor TH8_CR_CANCELED (Z.land flags TH8_CANCEL_FLAG_MASK).

Lemma posts_foreign zMsg flags :
  posts (request_bits flags) (Th8_CancelEval false zMsg flags Done).
Proof.
  assert (Hp : posts (request_bits flags) (th8CancelReqOr (request_bits flags) Done)).
  { intros r. left. split; [done|]. rewrite Z.lor_comm. apply land_lor_l. }
  assert (Hpub : ∀ z, posts (request_bits flags) (th8CancelReqPublish z flags Done)).
  { intros [[|c z]|]; [done| |done]. intros [b|]; [|done]. intros [b'|]; done. }
  unfold Th8_CancelEval. case_if; apply Hpub.
Qed.

Lemma posts_exec bits w reply s p s' p' :
  posts bits p → exec w reply s p = Some (s', p') →
  posts bits p' ∨ (p' = Done ∧ Z.land bits (nCancelReq s') = bits).
Proof.
  destruct s as [req msg h o]. destruct p as [|new cmp k|f [old|] k|new [old|] k|g z k|g b k|g b k|k|o' k];
    simpl; intros Hp He; repeat (case_match || case_if_in He); simplify_eq; auto.
  destruct (Hp old) as [[-> ?]|?]; [by right|by left].
Qed.

(** C25.  A cancellation is delivered: whatever the other threads and the owner
    do meanwhile, the action that completes a foreign Th8_CancelEval leaves the
    canceled bit and every flag of that call set in the request word. *)
Theorem cancel_delivered msgs i zMsg flags c c' c'' :
  i ≠ 0%nat → thr c i = Th8_CancelEval false zMsg flags Done →
  rtc (λ c c', step msgs c c' ∧ thr c i ≠ Done) c c' →
  step msgs c' c'' → thr c' i ≠ Done → thr c'' i = Done →
  Z.land (request_bits flags) (nCancelReq (sh c'')) = request_bits flags.
Proof.
  intros Hi Ht Hrtc Hs Hnd Hd.
  assert (Hstep : ∀ c c', step msgs c c' → posts (request_bits flags) (thr c i) →
    posts (request_bits flags) (thr c' i) ∨
    (thr c' i = Done ∧ Z.land (request_bits flags) (nCancelReq (sh c')) = request_bits flags)).
  { clear -Hi. intros c c' Hs Hp.
    destruct Hs as [o Hd _|j z fl _ Hd _|j reply s' p' _ He]; simpl.
    - left. by rewrite upd_other.
    - left. rewrite upd_other; [done|]. intros ->. by rewrite Hd in Hp.
    - destruct (decide (i = j)) as [<-|Hne]; [|left; by rewrite upd_other].
      rewrite upd_same. by eapply posts_exec. }
  assert (Hp : posts (request_bits flags) (thr c' i)).
  { assert (Hp0 : posts (request_bits flags) (thr c i)) by (rewrite Ht; apply posts_foreign).
    clear Ht. induction Hrtc as [|c c1 c2 [H1 H2] Hr IH]; [done|].
    destruct (Hstep _ _ H1 Hp0) as [?|[Hd1 _]]; [by apply IH|].
    inversion Hr as [|? c3 ? [_ ?]]; by subst. }
  destruct (Hstep _ _ Hs Hp) as [Hp'|[_ ?]]; [|done]. by rewrite Hd in Hp'.
Qed.

(** Only the owner withdraws a request: an action of another thread never
    clears a bit of the request word. *)
Theorem cancel_persists msgs c i reply s' p' :
  reach msgs init c → i ≠ 0%nat →
  exec (is_owner i) reply (sh c) (thr c i) = Some (s', p') →
  Z.land (nCancelReq (sh c)) (nCancelReq s') = nCancelReq (sh c).
Proof.
  intros Hr Hi He. destruct (inv_reach _ _ Hr) as (helds & cb & Hinv).
  pose proof (iv_ok _ _ _ _ Hinv i) as Hok. unfold is_owner in *.
  rewrite bool_decide_false in * by done. destruct (sh c) as [req msg h o].
  assert (Hrefl : Z.land req req = req) by apply Z.land_diag.
  destruct (thr c i) as [|new cmp k|f [old|] k|new [old|] k|g z k|g b k|g b k|k|o' k];
    simpl in *; repeat (case_match || case_if_in He); simplify_eq; simpl; try done.
  - destruct Hok as (_ & Hok & _). bool_to_prop. subst. rewrite Hok by done. apply Z.land_diag.
  - destruct Hok as (_ & Hok & _). bool_to_prop. subst. by apply Hok.
Qed.

(** The steps of a run. *)
Section runs.
Context (n : nat) (reply : option nat) (req : Z) (msg : option nat) (h : gmap nat block) (o : owner).
Let s := mkShared req msg h o.

Lemma run_CAS new cmp k :
  run (S n) reply s (IntCmpXchg new cmp k) =
  run n reply (mkShared (if req =? cmp then new else req) msg h o) (k req).
Proof. done. Qed.

Lemma run_ReqLoop f k :
  run (S (S n)) reply s (ReqLoop f None k) = run n reply (mkShared (f req) msg h o) (k req).
Proof. simpl. by rewrite Z.eqb_refl. Qed.

Lemma run_MsgLoop new k :
  run (S (S n)) reply s (MsgLoop new None k) = run n reply (mkShared req new h o) (k msg).
Proof. simpl. by rewrite decide_True. Qed.

Lemma run_OwnGet k : run (S n) reply s (OwnGet k) = run n reply s (k o).
Proof. done. Qed.

Lemma run_OwnSet o' k : run (S n) reply s (OwnSet o' k) = run n reply (mkShared req msg h o') k.
Proof. done. Qed.

Lemma run_Done : run (S n) reply s Done = Some s.
Proof. done. Qed.

Lemma run_Read g b k :
  run (S n) reply s (Read g b k) =
  match h !! b with
  | Some (mkBlock g' z) =>
      if bool_decide (g' = g) && (bool_decide (g = Raw) || true) then run n reply s (k z) else None
  | None => None
  end.
Proof. subst s. cbn [run exec]. destruct (h !! b) as [[g' z]|]; [by destruct (_ && _)|done]. Qed.

Lemma run_Free g b k :
  run (S n) reply s (Free g b k) =
  match h !! b with
  | Some (mkBlock g' z) =>
      if bool_decide (g' = g) && (bool_decide (g = Raw) || true)
      then run n reply (mkShared req msg (delete b h) o) k else None
  | None => None
  end.
Proof. subst s. cbn [run exec]. destruct (h !! b) as [[g' z]|]; [by destruct (_ && _)|done]. Qed.

Lemma run_Alloc g z k :
  run (S n) reply s (Alloc g z k) =
  match reply with
  | Some b => run n reply (mkShared req msg (<[b := mkBlock g z]> h) o) (k (Some b))
  | None => run n reply s (k None)
  end.
Proof. subst s. cbn [run exec]. rewrite orb_true_r. by destruct reply. Qed.
End runs.

(** Running to the end with the fuel available. *)
Definition then_restore : prog :=
  IntCmpXchg 0 0 (λ req, OwnGet (λ o,
    IntCmpXchg 0 req (λ _,
      OwnSet (set_saves (set_msg (set_flags o 0) false None)
        (mkSave req (cancelFlags o) (bCancelMsgOwned o) (zCancelMsg o) :: saves o))
      (th8RestoreCancel Done)))).

Lemma run_then_restore n reply s : run (10 + n) reply s then_restore = Some s.
Proof.
  destruct s as [req msg h o]. unfold then_restore. simpl plus.
  rewrite run_CAS, run_OwnGet. replace (if req =? 0 then 0 else req) with req
    by (case_if; by bool_to_prop).
  rewrite run_CAS, Z.eqb_refl, run_OwnSet. unfold th8RestoreCancel.
  rewrite run_OwnGet. destruct o. cbn [saves set_saves]. unfold th8CheckCancel.
  rewrite run_CAS. change (canceled 0) with false. cbv iota. unfold th8CancelReqOr.
  rewrite run_ReqLoop, run_OwnSet, run_Done, Z.lor_0_l. done.
Qed.

(** A [finally] block without a cancellation of its own is transparent:
    th8SaveCancel followed by th8RestoreCancel leaves the interpreter and the
    heap exactly as adopting the pending request would. *)
Theorem save_restore_transparent reply s :
  run 30 reply s (th8SaveCancel (th8RestoreCancel Done)) =
  run 30 reply s (th8CancelReqAdopt Done).
Proof.
  change (th8SaveCancel (th8RestoreCancel Done)) with (th8CancelReqAdopt then_restore).
  assert (Hend : ∀ n s, run (10 + n) reply s then_restore = run (10 + n) reply s Done)
    by (intros n s'; by rewrite run_then_restore).
  destruct s as [req msg h o]. unfold th8CancelReqAdopt, th8CancelMsgXchg, th8CancelMsgFree.
  rewrite !run_CAS. destruct (Z.land req _ =? 0); [apply (Hend 19%nat)|].
  rewrite !run_OwnGet, !run_OwnSet, !run_MsgLoop.
  destruct msg as [b|]; [|apply (Hend 15%nat)]. rewrite !run_OwnGet.
  destruct (zCancelMsg _).
  - rewrite !run_Free. destruct (h !! b) as [[g z]|]; [|reflexivity].
    destruct (_ && _); [apply (Hend 13%nat)|reflexivity].
  - rewrite !run_Read. destruct (h !! b) as [[g z]|]; [|reflexivity].
    destruct (_ && _); [|reflexivity]. rewrite !run_Alloc.
    destruct reply as [q|]; rewrite ?run_OwnSet, !run_Free;
      (destruct (_ !! b) as [[g' z']|]; [|reflexivity]); (destruct (_ && _); [|reflexivity]);
      [apply (Hend 10%nat)|apply (Hend 11%nat)].
Qed.

(** ** Executing a schedule *)

Definition tick (c : conf) (a : nat * option nat) : option conf :=
  let '(i, reply) := a in
  if match reply with Some b => bool_decide (heap (sh c) !! b = None) | None => true end then
    match exec (is_owner i) reply (sh c) (thr c i) with
    | Some (s', p') => Some (mkConf s' (upd (thr c) i p'))
    | None => None
    end
  else None.

Fixpoint play (c : conf) (l : list (nat * option nat)) : option conf :=
  match l with
  | [] => Some c
  | a :: l' => match tick c a with Some c' => play c' l' | None => None end
  end.

Lemma tick_step msgs c a c' : tick c a = Some c' → step msgs c c'.
Proof.
  destruct a as [i reply]. simpl.
  destruct (match reply with Some b => _ | None => _ end) eqn:Ef; [|done].
  destruct (exec _ _ _ _) as [[s' p']|] eqn:Ee; [|done]. intros [= <-].
  eapply step_exec; [|exact Ee]. destruct reply as [b|]; [|done].
  by apply bool_decide_eq_true in Ef.
Qed.

Lemma play_reach msgs l : ∀ c c', play c l = Some c' → rtc (step msgs) c c'.
Proof.
  induction l as [|a l IH]; intros c c' Hp; simpl in Hp; [by simplify_eq|].
  destruct (tick c a) eqn:E; [|done]. eapply rtc_l; [by eapply tick_step|by apply IH].
Qed.

(** A foreign thread passes a message and completes its call: allocate, two
    actions per exchange loop. *)
Definition called (zMsg : bytes) (flags : Z) : conf :=
  mkConf (sh init) (upd (thr init) 1%nat (Th8_CancelEval false (Some zMsg) flags Done)).
Definition foreign_schedule : list (nat * option nat) :=
  [(1%nat, Some 7%nat); (1%nat, None); (1%nat, None); (1%nat, None); (1%nat, None)].
Definition stop : bytes := bytes_of_string "stop".
Definition after_foreign : option conf := play (called stop 1) foreign_schedule.
Definition after (k : nat) : conf := default init (play (called stop 1) (take k foreign_schedule)).

Lemma called_reach : reach (λ _, True) init (called stop 1).
Proof. apply rtc_once. by apply (step_foreign (λ _, True) init 1 (Some stop) 1). Qed.

Lemma after_reach k : rtc (step (λ _, True)) (called stop 1) (after k).
Proof.
  unfold after. destruct (play _ _) as [c|] eqn:E; [by eapply play_reach|].
  exfalso. do 6 (destruct k as [|k]; [vm_compute in E; discriminate|]).
  simpl in E. discriminate.
Qed.

Lemma play_other l : ∀ c c' i, play c l = Some c' → i ∉ map fst l → thr c' i = thr c i.
Proof.
  induction l as [|[j reply] l IH]; intros c c' i Hp Hi; simpl in *; [by simplify_eq|].
  apply not_elem_of_cons in Hi as [Hne Hi].
  destruct (match reply with Some b => _ | None => _ end); [|done].
  destruct (exec _ _ _ _) as [[s' p']|]; [|done].
  rewrite (IH _ _ _ Hp Hi). simpl. by rewrite upd_other.
Qed.

Lemma after_done : ∀ i, thr (after 5) i = Done.
Proof.
  intros i. destruct (decide (i = 1%nat)) as [->|Hne]; [reflexivity|].
  unfold after. destruct (play _ _) as [c|] eqn:E; [|done].
  simpl. rewrite (play_other _ _ _ i E) by (simpl; set_solver). simpl. by rewrite upd_other.
Qed.

Lemma cancel_safe_witness :
  ∃ s' p', exec (is_owner 1) (Some 7%nat) (sh (called stop 1)) (thr (called stop 1) 1%nat) = Some (s', p').
Proof.
  apply (cancel_safe (λ _, True)); [apply called_reach|vm_compute; discriminate|reflexivity].
Defined.

Lemma cancel_quiescent_witness :
  kind_at (heap (sh (after 5))) 7%nat = Some Raw ∧ req_ok (nCancelReq (sh (after 5))).
Proof.
  destruct (cancel_quiescent (λ _, True) (after 5)) as (H & _ & Hr & _).
  - etrans; [apply called_reach|apply after_reach].
  - apply after_done.
  - split; [|exact Hr]. apply H. left. split; reflexivity.
Defined.

Lemma cancel_delivered_witness :
  Z.land (request_bits 1) (nCancelReq (sh (after 5))) = request_bits 1.
Proof.
  apply (cancel_delivered (λ _, True) 1 (Some stop) 1 (called stop 1) (after 4)).
  - discriminate.
  - reflexivity.
  - assert (Hs : ∀ k, (k < 4)%nat →
      step (λ _, True) (after k) (after (S k)) ∧ thr (after k) 1%nat ≠ Done).
    { intros k Hk. split.
      - apply (tick_step _ _ (nth k foreign_schedule (0%nat, None))).
        do 4 (destruct k as [|k]; [reflexivity|]). lia.
      - do 4 (destruct k as [|k]; [vm_compute; discriminate|]). lia. }
    change (called stop 1) with (after 0).
    do 4 (eapply rtc_l; [apply Hs; lia|]). apply rtc_refl.
  - eapply (step_exec _ _ 1 None); [done|reflexivity].
  - vm_compute. discriminate.
  - reflexivity.
Defined.

(** A second foreign thread, in the middle of its exchange loop. *)
Definition second_call : conf :=
  mkConf (sh (after 5)) (upd (thr (after 5)) 2%nat (Th8_CancelEval false None 2 Done)).
Definition second_mid : conf :=
  mkConf (sh (after 5))
    (upd (thr second_call) 2%nat
       (ReqLoop (λ old, Z.lor old (request_bits 2)) (Some 0x101) (λ _, Done))).

Lemma second_reach : reach (λ _, True) init second_mid.
Proof.
  etrans; [apply called_reach|]. etrans; [apply (after_reach 5)|].
  eapply rtc_l.
  { apply (step_foreign (λ _, True) (after 5) 2 None 2); [done|apply after_done|done]. }
  apply rtc_once. by apply (step_exec (λ _, True) second_call 2 None).
Qed.

Lemma cancel_persists_witness : Z.land 0x101 0x103 = 0x101.
Proof.
  refine (cancel_persists (λ _, True) second_mid 2 None
            (mkShared 0x103 (Some 7%nat) (heap (sh (after 5))) (own (sh (after 5)))) Done _ _ _).
  - apply second_reach.
  - discriminate.
  - reflexivity.
Defined.

(** Th8_DeleteInterp releases the owner's message but not the shared
    slot: a message that a foreign thread handed over and the owner had not
    adopted is still live when the interpreter is gone. *)
Theorem DeleteInterp_leaks_message msgs c b reply :
  reach msgs init c → (∀ i, thr c i = Done) → nCancelReqMsg (sh c) = Some b →
  ∃ s', run 5 reply (sh c) (DeleteInterp_cancel Done) = Some s' ∧
        kind_at (heap s') b = Some Raw ∧ msg_bufs (zCancelMsg (own s')) = [].
Proof.
  intros Hr Hd Hs. destruct (inv_reach _ _ Hr) as (helds & cb & Hi).
  pose proof (iv_slot _ _ _ _ Hi b Hs) as Hk.
  assert (H0 : owner_ok msgs (own (sh c)) cb ∧ helds 0%nat = res_of (own_bufs (own (sh c)))).
  { pose proof (iv_ok _ _ _ _ Hi 0%nat) as H. rewrite Hd in H. exact H. }
  destruct H0 as [[_ [Hm _] _ _] H0].
  pose proof (held_kind msgs c helds cb 0%nat Hi) as Hh. rewrite H0 in Hh.
  destruct (sh c) as [req msg h o]. cbn [nCancelReqMsg heap own] in *. unfold DeleteInterp_cancel, free_owned, own_bufs in *.
  rewrite run_OwnGet, Hm. destruct (zCancelMsg o) as [q|].
  - destruct (Hh q Accounted) as [z Hz]; [apply res_of_Some; by left|].
    rewrite bool_decide_true by done. rewrite run_Free, Hz. simpl.
    eexists. split; [done|]. split; [|done]. simpl. rewrite kind_delete. case_decide as E; [|done].
    subst. unfold kind_at in Hk. by rewrite Hz in Hk.
  - simpl. by eexists.
Qed.

Lemma DeleteInterp_leaks_message_witness :
  ∃ s', run 5 None (sh (after 5)) (DeleteInterp_cancel Done) = Some s' ∧
        kind_at (heap s') 7%nat = Some Raw ∧ msg_bufs (zCancelMsg (own s')) = [].
Proof.
  apply (DeleteInterp_leaks_message (λ _, True)).
  - etrans; [apply called_reach|apply after_reach].
  - apply after_done.
  - reflexivity.
Defined.

(** The owner alone: a canceled script reports the message it was canceled
    with, and a signal's fixed text when there is none. *)
Example own_message :
  zResult ∘ own <$> run 40 (Some 3%nat) (sh init)
    (Th8_CancelEval true (Some stop) 0 (Th8_IsCanceled (λ _, Done))) = Some stop.
Proof. reflexivity. Qed.

Example signal_text :
  zResult ∘ own <$> run 40 (Some 3%nat) (sh init)
    (Th8_CancelEval true (Some stop) 2 (Th8_IsCanceled (λ _, Done))) = Some SIGNAL_TEXT.
Proof. reflexivity. Qed.
