(* ===== verification/Ready.v ===== *)
(** * Ready: the readiness check at every unit of work, and what it combines
    (th8CheckStack, the exit, suspension and step state, th8DebugCheck and the
    breakpoint table, and Th8_Ready of src/src/th8_core.c).

    A long-running operation calls Th8_Ready before each unit of work and stops
    when it does not return TH8_OK, so these checks bound what a script can do.
    The cancellation state is the component Cancel; here it is the text
    Th8_IsCanceled would report. *)

From S2P Require Import Prelude.
From stdpp Require Import gmap.
Open Scope Z_scope.


Definition TH8_STEP_NONE : Z := 0.
Definition TH8_STEP_INTO : Z := 1.
Definition TH8_STEP_OVER : Z := 2.
Definition TH8_STEP_OUT : Z := 3.
Definition TH8_DEBUG_STEP : Z := 1.
Definition TH8_DEBUG_BREAKPOINT : Z := 2.

(** The fields of the interpreter the checks read and write. *)
Record Th8_Interp : Type := mkInterp {
  bStackCheckEnabled : bool;
  bStackGrowsDown : bool;
  pStackBase : Z;
  nStackSize : Z;
  nStackGuard : Z;
  bExit : bool;
  cancelText : option bytes;      (* what Th8_IsCanceled reports, if canceled *)
  bSuspended : bool;
  hasDebug : bool;                (* xDebug is not NULL *)
  nStepMode : Z;
  nStepDepth : Z;
  paBreakpoints : option (gmap bytes Z);
  nNextBreakpointId : Z;
  nStepCount : Z;
  nStepLimit : Z;
  nDeadlineUs : Z;
  zResult : bytes
}.

(** What a call observes of the outside: the address of its stack probe, the
    clock, where the script stands, and the debug callback's answer. *)
Record env : Type := mkEnv {
  marker : Z;
  timeUs : option Z;              (* None when Th8_GetTimeUs fails *)
  zScript : bytes;
  nLine : Z;
  frameLevel : Z;                 (* th8GetFrameLevel *)
  xDebug : Z → Z                  (* the callback's code for an event *)
}.

Definition with_result (it : Th8_Interp) (z : bytes) : Th8_Interp :=
  mkInterp (bStackCheckEnabled it) (bStackGrowsDown it) (pStackBase it) (nStackSize it)
    (nStackGuard it) (bExit it) (cancelText it) (bSuspended it) (hasDebug it) (nStepMode it)
    (nStepDepth it) (paBreakpoints it) (nNextBreakpointId it) (nStepCount it) (nStepLimit it)
    (nDeadlineUs it) z.

Definition with_count (it : Th8_Interp) (n : Z) : Th8_Interp :=
  mkInterp (bStackCheckEnabled it) (bStackGrowsDown it) (pStackBase it) (nStackSize it)
    (nStackGuard it) (bExit it) (cancelText it) (bSuspended it) (hasDebug it) (nStepMode it)
    (nStepDepth it) (paBreakpoints it) (nNextBreakpointId it) n (nStepLimit it)
    (nDeadlineUs it) (zResult it).

Definition with_limits (it : Th8_Interp) (limit deadline : Z) : Th8_Interp :=
  mkInterp (bStackCheckEnabled it) (bStackGrowsDown it) (pStackBase it) (nStackSize it)
    (nStackGuard it) (bExit it) (cancelText it) (bSuspended it) (hasDebug it) (nStepMode it)
    (nStepDepth it) (paBreakpoints it) (nNextBreakpointId it) (nStepCount it) limit
    deadline (zResult it).

Definition with_flags (it : Th8_Interp) (exit suspended : bool) : Th8_Interp :=
  mkInterp (bStackCheckEnabled it) (bStackGrowsDown it) (pStackBase it) (nStackSize it)
    (nStackGuard it) exit (cancelText it) suspended (hasDebug it) (nStepMode it)
    (nStepDepth it) (paBreakpoints it) (nNextBreakpointId it) (nStepCount it) (nStepLimit it)
    (nDeadlineUs it) (zResult it).

Definition with_debug (it : Th8_Interp) (mode depth : Z) (bps : option (gmap bytes Z)) (next : Z)
    : Th8_Interp :=
  mkInterp (bStackCheckEnabled it) (bStackGrowsDown it) (pStackBase it) (nStackSize it)
    (nStackGuard it) (bExit it) (cancelText it) (bSuspended it) (hasDebug it) mode
    depth bps next (nStepCount it) (nStepLimit it) (nDeadlineUs it) (zResult it).

(** ** Native stack *)

Definition nUsed (it : Th8_Interp) (e : env) : Z :=
  if bStackGrowsDown it then
    if marker e <? pStackBase it then pStackBase it - marker e else 0
  else
    if pStackBase it <? marker e then marker e - pStackBase it else 0.

(** The sum of two [size_t] wraps around. *)
Definition th8CheckStack (it : Th8_Interp) (e : env) : Z * Th8_Interp :=
  if negb (bStackCheckEnabled it) then (TH8_OK, it)
  else if nStackSize it <? wrap 64 (nUsed it e + nStackGuard it) then
    (TH8_ERROR, with_result it (bytes_of_string "C stack overflow (TH8 stack limit reached)"))
  else (TH8_OK, it).

(** ** Exit and suspension: compare-and-exchange on one flag each *)

Definition Th8_Exit (it : Th8_Interp) : Th8_Interp := with_flags it true (bSuspended it).
Definition Th8_IsExited (it : Th8_Interp) : bool := bExit it.
Definition Th8_ResetExit (it : Th8_Interp) : Th8_Interp := with_flags it false (bSuspended it).
Definition Th8_Freeze (it : Th8_Interp) : Th8_Interp := with_flags it (bExit it) true.
Definition Th8_IsSuspended (it : Th8_Interp) : bool := bSuspended it.

(** ** Steps and the deadline *)

Definition th8Step (it : Th8_Interp) (e : env) : Z * Th8_Interp :=
  let it := with_count it (nStepCount it + 1) in
  if (0 <? nStepLimit it) && (nStepLimit it <? nStepCount it) then
    (TH8_ERROR, with_result it (bytes_of_string "step limit exceeded"))
  else if (0 <? nDeadlineUs it) && (Z.land (nStepCount it) 0xFFF =? 0) then
    match timeUs e with
    | Some nowUs =>
        if nDeadlineUs it <=? nowUs
        then (TH8_ERROR, with_result it (bytes_of_string "time limit exceeded"))
        else (TH8_OK, it)
    | None => (TH8_OK, it)
    end
  else (TH8_OK, it).

Definition Th8_SetStepLimit (it : Th8_Interp) (nLimit : Z) : Th8_Interp :=
  with_limits it nLimit (nDeadlineUs it).
Definition Th8_GetStepLimit : Th8_Interp → Z := nStepLimit.
Definition Th8_GetStepCount : Th8_Interp → Z := nStepCount.
Definition Th8_ResetStepCount (it : Th8_Interp) : Th8_Interp := with_count it 0.
Definition Th8_SetStepCount (it : Th8_Interp) (nCount : Z) : Th8_Interp :=
  with_count it (if nCount <? 0 then 0 else nCount).
Definition Th8_SetDeadline (it : Th8_Interp) (us : Z) : Th8_Interp :=
  with_limits it (nStepLimit it) us.
Definition Th8_GetDeadline : Th8_Interp → Z := nDeadlineUs.

Definition Th8_SetTimeLimitMs (it : Th8_Interp) (e : env) (nMs : Z) : Z * Th8_Interp :=
  if nMs <=? 0 then (TH8_OK, Th8_SetDeadline it 0)
  else if 1000000000000000 <? nMs then (TH8_OK, Th8_SetDeadline it 0)
  else match timeUs e with
       | Some nowUs => (TH8_OK, Th8_SetDeadline it (nowUs + nMs * 1000))
       | None => (TH8_ERROR, it)
       end.

(** ** Debugging *)

Definition Th8_SetStepMode (it : Th8_Interp) (e : env) (mode : Z) : Z * Th8_Interp :=
  (TH8_OK, with_debug it mode (frameLevel e) (paBreakpoints it) (nNextBreakpointId it)).

(** Script name, NUL and the four bytes of the line number. *)
Definition bp_key (zScript : bytes) (nLine : Z) : bytes :=
  zScript ++ [0; to_char (Z.land nLine 0xff); to_char (Z.land (Z.shiftr nLine 8) 0xff);
              to_char (Z.land (Z.shiftr nLine 16) 0xff); to_char (Z.land (Z.shiftr nLine 24) 0xff)].

(** The key buffer holds 512 bytes. *)
Definition bp_fits (zScript : bytes) : bool := zlen zScript <? 512 - 5.

Definition Th8_SetBreakpoint (it : Th8_Interp) (zScript : bytes) (nLine : Z)
    : res unit Z * Th8_Interp :=
  if nLine <? 1 then (Err tt, it)
  else if negb (bp_fits zScript) then (Err tt, it)
  else
    let bps := default ∅ (paBreakpoints it) in
    let id := nNextBreakpointId it + 1 in
    (Ok id, with_debug it (nStepMode it) (nStepDepth it)
              (Some (<[bp_key zScript nLine := id]> bps)) id).

(** Ids are handed out once, so the entry found does not depend on the order of
    the table. *)
Definition Th8_ClearBreakpoint (it : Th8_Interp) (id : Z) : Z * Th8_Interp :=
  match paBreakpoints it with
  | None => (TH8_ERROR, it)
  | Some bps =>
      match filter (λ kv, snd kv = id) (map_to_list bps) with
      | (k, _) :: _ =>
          (TH8_OK, with_debug it (nStepMode it) (nStepDepth it) (Some (delete k bps))
                     (nNextBreakpointId it))
      | [] => (TH8_ERROR, it)
      end
  end.

Definition Th8_ClearAllBreakpoints (it : Th8_Interp) : Z * Th8_Interp :=
  (TH8_OK, with_debug it (nStepMode it) (nStepDepth it) None (nNextBreakpointId it)).

(** The event of a command boundary; 0 for none. *)
Definition debug_event (it : Th8_Interp) (e : env) : Z :=
  let stepped :=
    if nStepMode it =? TH8_STEP_INTO then true
    else if nStepMode it =? TH8_STEP_OVER then frameLevel e <=? nStepDepth it
    else if nStepMode it =? TH8_STEP_OUT then frameLevel e <? nStepDepth it
    else false in
  if stepped then TH8_DEBUG_STEP
  else match paBreakpoints it with
       | Some bps =>
           if bp_fits (zScript e) && bool_decide (is_Some (bps !! bp_key (zScript e) (nLine e)))
           then TH8_DEBUG_BREAKPOINT else 0
       | None => 0
       end.

Definition th8DebugCheck (it : Th8_Interp) (e : env) : Z * Th8_Interp :=
  let event := debug_event it e in
  if event =? 0 then (TH8_OK, it)
  else
    let dbgRc := xDebug e event in
    if dbgRc =? TH8_BREAK then (TH8_SUSPEND, Th8_Freeze it) else (dbgRc, it).

(** ** The readiness check *)

Definition Th8_IsCanceled (it : Th8_Interp) : Z * Th8_Interp :=
  match cancelText it with
  | Some z => (TH8_ERROR, with_result it z)
  | None => (TH8_OK, it)
  end.

Definition Th8_Ready (it : Th8_Interp) (e : env) : Z * Th8_Interp :=
  let '(rc, it) := th8CheckStack it e in
  if negb (rc =? TH8_OK) then (TH8_ERROR, it)
  else if Th8_IsExited it then (TH8_ERROR, with_result it (bytes_of_string "exit"))
  else
    let '(rc, it) := Th8_IsCanceled it in
    if negb (rc =? TH8_OK) then (TH8_ERROR, it)
    else if Th8_IsSuspended it then (TH8_SUSPEND, it)
    else
      let '(dbgRc, it) := if hasDebug it then th8DebugCheck it e else (TH8_OK, it) in
      if negb (dbgRc =? TH8_OK) then (dbgRc, it)
      else
        let '(rc, it) := th8Step it e in
        if negb (rc =? TH8_OK) then (TH8_ERROR, it) else (TH8_OK, it).

(** ** Facts *)

(** The debug callback, where an event calls it, lets the script go on. *)
Definition debug_passes (it : Th8_Interp) (e : env) : Prop :=
  hasDebug it = true → debug_event it e ≠ 0 → xDebug e (debug_event it e) = TH8_OK.

(** What a successful check requires, and all it changes. *)
Definition may_continue (it : Th8_Interp) (e : env) : Prop :=
  fst (th8CheckStack it e) = TH8_OK ∧ bExit it = false ∧ cancelText it = None ∧
  bSuspended it = false ∧
  debug_passes it e ∧
  (0 < nStepLimit it → nStepCount it + 1 <= nStepLimit it) ∧
  (0 < nDeadlineUs it → (nStepCount it + 1) mod 4096 = 0 →
   ∀ now, timeUs e = Some now → now < nDeadlineUs it).

Lemma step_ok it e :
  (th8Step it e = (TH8_OK, with_count it (nStepCount it + 1)) ∧
   (0 < nStepLimit it → nStepCount it + 1 <= nStepLimit it) ∧
   (0 < nDeadlineUs it → (nStepCount it + 1) mod 4096 = 0 →
    ∀ now, timeUs e = Some now → now < nDeadlineUs it)) ∨
  (fst (th8Step it e) = TH8_ERROR ∧
   ((0 < nStepLimit it ∧ nStepLimit it < nStepCount it + 1) ∨
    (0 < nDeadlineUs it ∧ (nStepCount it + 1) mod 4096 = 0 ∧
     ∃ now, timeUs e = Some now ∧ nDeadlineUs it <= now))).
Proof.
  assert (Hm : Z.land (nStepCount it + 1) 0xFFF = (nStepCount it + 1) mod 4096)
    by apply (land_ones_mod _ 12 ltac:(lia)).
  unfold th8Step. cbn [nStepLimit nStepCount nDeadlineUs with_count]. rewrite Hm.
  destruct ((0 <? nStepLimit it) && (nStepLimit it <? nStepCount it + 1)) eqn:E1.
  { right. split; [done|]. left. by bool_to_prop. }
  assert (H1 : 0 < nStepLimit it → nStepCount it + 1 <= nStepLimit it).
  { intros. apply andb_false_iff in E1 as [?|?]; bool_to_prop; lia. }
  destruct ((0 <? nDeadlineUs it) && ((nStepCount it + 1) mod 4096 =? 0)) eqn:E2.
  - bool_to_prop. destruct (timeUs e) as [now|] eqn:Et.
    + destruct (nDeadlineUs it <=? now) eqn:E3; bool_to_prop.
      * right. split; [done|]. right. eauto.
      * left. split_and!; [done..|]. intros _ _ ? [= <-]. done.
    + left. split_and!; done.
  - left. split_and!; [done..|]. intros ? Hz. exfalso.
    apply andb_false_iff in E2 as [?|?]; bool_to_prop; lia.
Qed.

Lemma stack_cases it e :
  th8CheckStack it e = (TH8_OK, it) ∨ fst (th8CheckStack it e) = TH8_ERROR.
Proof. unfold th8CheckStack. repeat case_if; auto. Qed.

Lemma debug_cases it e :
  let d := if hasDebug it then th8DebugCheck it e else (TH8_OK, it) in
  (d = (TH8_OK, it) ∧ debug_passes it e) ∨ fst d ≠ TH8_OK.
Proof.
  unfold debug_passes, th8DebugCheck. destruct (hasDebug it); [|by left].
  destruct (debug_event it e =? 0) eqn:E; bool_to_prop; [by left|].
  case_if; bool_to_prop; [by right|]. simpl.
  destruct (decide (xDebug e (debug_event it e) = TH8_OK)) as [->|]; auto.
Qed.

Lemma ready_ok it e :
  fst (Th8_Ready it e) = TH8_OK →
  may_continue it e ∧ snd (Th8_Ready it e) = with_count it (nStepCount it + 1).
Proof.
  unfold Th8_Ready, may_continue, Th8_IsCanceled, Th8_IsExited, Th8_IsSuspended.
  destruct (stack_cases it e) as [Hst|Hst]; [rewrite Hst; simpl|].
  2: { destruct (th8CheckStack it e) as [rc it']. simpl in Hst. by rewrite Hst. }
  destruct (bExit it); [done|]. destruct (cancelText it); [done|]. simpl.
  destruct (bSuspended it); [done|].
  destruct (debug_cases it e) as [[Hd Hp]|Hd]; [rewrite Hd; simpl|].
  2: { destruct (if hasDebug it then _ else _) as [rc it']. simpl in *.
       destruct (rc =? TH8_OK) eqn:E; bool_to_prop; done. }
  destruct (step_ok it e) as [(Hs & H1 & H2)|[Hs _]]; [rewrite Hs; simpl|].
  - intros _. split; [split_and!; done|done].
  - destruct (th8Step it e) as [rc it']. simpl in Hs. by rewrite Hs.
Qed.

Lemma ready_continues it e : may_continue it e → fst (Th8_Ready it e) = TH8_OK.
Proof.
  unfold Th8_Ready, may_continue, Th8_IsCanceled, Th8_IsExited, Th8_IsSuspended.
  intros (Hst & Hx & Hc & Hsu & Hd & Hl & Ht).
  assert (H : th8CheckStack it e = (TH8_OK, it)).
  { revert Hst. unfold th8CheckStack. repeat case_if; done. }
  rewrite H. simpl. rewrite Hx, Hc. simpl. rewrite Hsu.
  assert (Hdbg : (if hasDebug it then th8DebugCheck it e else (TH8_OK, it)) = (TH8_OK, it)).
  { destruct (hasDebug it) eqn:Eh; [|done]. unfold th8DebugCheck. case_if; [done|]. bool_to_prop.
    by rewrite (Hd Eh). }
  rewrite Hdbg. simpl. destruct (step_ok it e) as [(Hs & _ & _)|[_ [[? ?]|(? & Hm & now & Hn & ?)]]].
  - by rewrite Hs.
  - specialize (Hl ltac:(done)). lia.
  - specialize (Ht ltac:(done) Hm now Hn). lia.
Qed.

(** Th8_Ready succeeds exactly when every check passes, and then counts
    one step and changes nothing else. *)
Theorem Th8_Ready_spec it e :
  (fst (Th8_Ready it e) = TH8_OK ↔ may_continue it e) ∧
  (fst (Th8_Ready it e) = TH8_OK → snd (Th8_Ready it e) = with_count it (nStepCount it + 1)).
Proof.
  split; [split|]; [by intros []%ready_ok|apply ready_continues|by intros []%ready_ok].
Qed.

(** [n] successful checks, each in an environment of [P], with any other work
    between them that leaves the step state alone. *)
Inductive ready_run (P : env → Prop) : nat → Th8_Interp → Th8_Interp → Prop :=
| rr_refl it : ready_run P 0 it it
| rr_ready n it e it' : P e → fst (Th8_Ready it e) = TH8_OK →
    ready_run P n (snd (Th8_Ready it e)) it' → ready_run P (S n) it it'
| rr_work n it it1 it' :
    nStepCount it1 = nStepCount it → nStepLimit it1 = nStepLimit it →
    nDeadlineUs it1 = nDeadlineUs it → ready_run P n it1 it' → ready_run P n it it'.

Lemma ready_run_count P n it it' :
  ready_run P n it it' →
  nStepCount it' = nStepCount it + Z.of_nat n ∧
  (0 < nStepLimit it → nStepCount it <= nStepLimit it → nStepCount it' <= nStepLimit it).
Proof.
  induction 1 as [it|n it e it' HP Hok _ [IH1 IH2]|n it it1 it' H1 H2 H3 _ [IH1 IH2]].
  - lia.
  - destruct (ready_ok _ _ Hok) as [(_ & _ & _ & _ & _ & Hl & _) Hs].
    rewrite Hs in IH1, IH2. cbn in IH1, IH2. split; [lia|]. intros Hp Hle. apply IH2; [done|lia].
  - rewrite H1, H2 in *. done.
Qed.

(** The step limit bounds the work: among any sequence of units of work
    the checks let pass no more than the limit, and each is counted. *)
Theorem Th8_Ready_budget P n it it' :
  ready_run P n it it' → 0 < nStepLimit it → 0 <= nStepCount it <= nStepLimit it →
  nStepCount it' = nStepCount it + Z.of_nat n ∧ Z.of_nat n <= nStepLimit it - nStepCount it.
Proof. intros H Hp Hc. apply ready_run_count in H as [H1 H2]. lia. Qed.

(** Without a checkpoint among them, at most 4095 steps fit. *)
Lemma late_steps it n it' :
  ready_run (λ e, ∃ now, timeUs e = Some now ∧ nDeadlineUs it <= now) n it it' →
  0 < nDeadlineUs it → 0 <= nStepCount it →
  nStepCount it mod 4096 + Z.of_nat n <= 4095.
Proof.
  remember (nDeadlineUs it) as d eqn:Ed. intros H. revert Ed.
  induction H as [it|n it e it' (now & Hn & Hd) Hok _ IH|n it it1 it' H1 H2 H3 _ IH];
    intros Ed Hp Hc.
  - divlia.
  - destruct (ready_ok _ _ Hok) as [(_ & _ & _ & _ & _ & _ & Ht) Hs]. rewrite Hs in IH.
    specialize (IH Ed Hp ltac:(cbn; lia)). cbn in IH.
    destruct (decide ((nStepCount it + 1) mod 4096 = 0)) as [E|E].
    + specialize (Ht ltac:(lia) E now Hn). lia.
    + divlia.
  - rewrite <- H1. apply IH; congruence || lia.
Qed.

(** The deadline is cooperative with a bounded overshoot: once the clock
    has reached it, fewer than 4096 further checks succeed. *)
Theorem Th8_Ready_deadline it n it' :
  ready_run (λ e, ∃ now, timeUs e = Some now ∧ nDeadlineUs it <= now) n it it' →
  0 < nDeadlineUs it → 0 <= nStepCount it →
  Z.of_nat n < 4096.
Proof. intros H Hd Hc. pose proof (late_steps _ _ _ H Hd Hc). divlia. Qed.

(** An interpreter with a step limit and a deadline, and a check in it. *)
Definition it0 : Th8_Interp :=
  mkInterp true true 10000 8000 1000 false None false false 0 0 None 0 0 5 100 [].
Definition env0 (us : Z) : env := mkEnv 9000 (Some us) [] 1 0 (λ _, 0).

Lemma it0_run : ready_run (λ e, ∃ now, timeUs e = Some now ∧ nDeadlineUs it0 <= now) 2 it0
                          (with_count it0 2).
Proof.
  assert (H : ∃ now, timeUs (env0 200) = Some now ∧ nDeadlineUs it0 <= now)
    by (exists 200; split; [done|cbn; lia]).
  eapply (rr_ready _ _ _ (env0 200)); [exact H|reflexivity|].
  eapply (rr_ready _ _ _ (env0 200)); [exact H|reflexivity|]. apply rr_refl.
Qed.

Lemma Th8_Ready_budget_witness :
  nStepCount (with_count it0 2) = 2 ∧ 2 <= 5 - 0.
Proof.
  apply (Th8_Ready_budget _ 2 it0 (with_count it0 2) it0_run); cbn; lia.
Defined.

Lemma Th8_Ready_deadline_witness : Z.of_nat 2 < 4096.
Proof. apply (Th8_Ready_deadline it0 2 (with_count it0 2) it0_run); cbn; lia. Defined.

(** ** Breakpoints *)

Lemma to_char_land z : to_char (Z.land z 0xff) = z mod 256.
Proof.
  unfold to_char. rewrite <- Z.land_assoc. change (Z.land 0xff 0xFF) with (2 ^ 8 - 1).
  by rewrite land_ones_mod.
Qed.

Lemma bp_key_inj z n z' n' :
  0 <= n < 2 ^ 31 → 0 <= n' < 2 ^ 31 → bp_key z n = bp_key z' n' → z = z' ∧ n = n'.
Proof.
  intros Hn Hn' H. unfold bp_key in H. rewrite !to_char_land, !Z.shiftr_div_pow2 in H by lia.
  assert (Hl : length z = length z').
  { apply (f_equal length) in H. rewrite !length_app in H. simpl in H. lia. }
  apply app_inj_1 in H as [-> H]; [|done]. split; [done|].
  injection H as H0 H1 H2 H3. divlia.
Qed.

(** After Th8_SetBreakpoint, a command boundary outside step mode calls
    the debugger at that script and line, and nowhere it did not before; a
    break there suspends the interpreter. *)
Theorem breakpoint_fires it it' zs n id e :
  Th8_SetBreakpoint it zs n = (Ok id, it') →
  n < 2 ^ 31 → 0 <= nLine e < 2 ^ 31 → nStepMode it = TH8_STEP_NONE →
  debug_event it' e =
    (if decide (zScript e = zs ∧ nLine e = n) then TH8_DEBUG_BREAKPOINT else debug_event it e) ∧
  (zScript e = zs → nLine e = n → xDebug e TH8_DEBUG_BREAKPOINT = TH8_BREAK →
   th8DebugCheck it' e = (TH8_SUSPEND, Th8_Freeze it')).
Proof.
  unfold Th8_SetBreakpoint. destruct (n <? 1) eqn:E1; [done|].
  destruct (bp_fits zs) eqn:E2; [|done]. simpl. intros [= <- <-] Hn He Hm. bool_to_prop.
  match goal with |- ?A ∧ _ => assert (HA : A) end.
  { unfold debug_event. cbn. rewrite Hm. simpl.
    case_decide as Hd.
    - destruct Hd as [-> ->]. rewrite lookup_insert_eq, bool_decide_true, E2 by done. done.
    - destruct (decide (bp_key zs n = bp_key (zScript e) (nLine e))) as [Hk|Hk].
      + apply bp_key_inj in Hk as [? ?]; [naive_solver|lia..].
      + rewrite lookup_insert_ne by done. destruct (paBreakpoints it); simpl; [done|].
        rewrite lookup_empty, bool_decide_false by (by intros [? ?]). by rewrite andb_false_r. }
  split; [exact HA|]. intros Hz Hl Hx. unfold th8DebugCheck. rewrite HA, decide_True by done.
  simpl. by rewrite Hx.
Qed.

Definition at_line_3 : env := mkEnv 0 None [97] 3 0 (λ _, TH8_BREAK).
Definition it_break : Th8_Interp := snd (Th8_SetBreakpoint it0 [97] 3).

Lemma breakpoint_fires_witness :
  th8DebugCheck it_break at_line_3 = (TH8_SUSPEND, Th8_Freeze it_break).
Proof.
  refine (proj2 (breakpoint_fires it0 _ [97] 3 1 _ _ _ _ _) _ _ _); try reflexivity; cbn; lia.
Defined.
