(* ===== verification/Split.v ===== *)
(** * Split: the words of a command (th8CheckExpansionPrefix, th8SplitCommand,
    th8CmdBuildAddWord, th8NRSubstAndBuild, th8NRCmdSubstDone and the first
    part of th8NRCmdDispatch of src/src/th8_core.c).

    A command text is cut into words, each word is substituted, and the words
    are laid out in one block as the argument vector.  The program does this
    twice: th8SplitCommand evaluates nested commands by recursion, while
    th8NRSubstAndBuild keeps its progress in a Th8_CmdBuild and returns to the
    trampoline at every nested command.  Both are refined to the plain list of
    the words, and shown to agree. *)

From S2P Require Import Prelude CharClass Memory Buffer Parser Subst.

(** ** What splitting asks of the interpreter, besides substitution *)

Inductive split_error : Type :=
| EUnknownExpansion (zTag : bytes)    (* unknown expansion operator: *)
| EExtraAfterBrace                    (* extra characters after close-brace *)

| ECommandTooLarge.                   (* command too large *)

(** A word or argument: its bytes and its tagged length. *)
Definition word : Type := bytes * Z.

(** An expansion callback, from a value and its tagged length to its
    elements. *)
Definition expansion (I : Type) : Type := I → bytes → Z → Z * list word * I.

Class WordInterp (I : Type) `{SubstInterp I} : Type := {
  Th8_FindExpansion : I → bytes → option (expansion I);
  report : I → split_error → I;
  set_isListMode : I → bool → I
}.

(** ** The expansion prefix *)

Definition tag_char (c : Z) : bool := th8IsAlnum c || (c =? "_"%ch) || (c =? "*"%ch).

(** From the byte after the open brace: the length of the tag and the rest of
    the word after the close brace. *)
Fixpoint tag_loop (z : bytes) (nTag : nat) : option (nat * bytes) :=
  match z with
  | [] => None
  | c :: z' =>
      if c =? "}"%ch then Some (nTag, z')
      else if tag_char c then tag_loop z' (S nTag)
      else None
  end.

(** A machine word as the 8 bytes that store it, low byte first. *)
Definition size_image (n : Z) : bytes :=
  map (λ i, Z.land (Z.shiftr n (8 * Z.of_nat i)) 0xFF) (seq 0 8).
Fixpoint image_size (z : bytes) : Z :=
  match z with
  | [] => 0
  | c :: z' => Z.lor c (Z.shiftl (image_size z') 8)
  end.

(** The accumulated words: bytes, lengths, count. *)
Record words : Type := mkWords { strbuf : Th8_Buffer; lenbuf : Th8_Buffer; nCount : Z }.

Definition words_init : words := mkWords th8BufInit th8BufInit 0.

(** The argument vector: the lengths and the bytes as they lie in the block,
    and the pointers as offsets into the bytes. *)
Record Argv : Type := mkArgv { argc : Z; azElem : list Z; anElem : list Z; zElem : bytes }.

Fixpoint read_sizes (n : nat) (z : bytes) : list Z :=
  match n with
  | O => []
  | S n' => image_size (take 8 z) :: read_sizes n' (drop 8 z)
  end.

Fixpoint element_offsets (an : list Z) (zElem : Z) : list Z :=
  match an with
  | [] => []
  | n :: an' => zElem :: element_offsets an' (zElem + (TH8_LEN n + 1))
  end.

(** The size of the block, [None] on overflow. *)
Definition argv_size (nCount nBuf : Z) : option Z :=
  t1 ← mul_size 8 nCount;
  t2 ← mul_size 8 nCount;
  nAlloc ← add_size t1 t2;
  add_size nAlloc nBuf.

(** What the loops over the words ask of the place the words go to: the
    buffers, or the list of the words. *)
Class WordStore (A : Type) : Type := {
  put_plain : A → word → A;
  put : A → word → A
}.

Definition put_all {A} `{WS : WordStore A} (a : A) (ws : list word) : A := fold_left put ws a.

#[export] Instance list_store : WordStore (list word) := {
  put_plain a w := a ++ [w];
  put a w := a ++ [w]
}.

Section split.
Context {I : Type} `{WI : WordInterp I}.
(** Whether the scanner's stack, a buffer and the block can be allocated. *)
Context (realloc_ok alloc_ok argv_ok : Z → bool).

Definition th8CheckExpansionPrefix (it : I) (zInput : bytes)
    : Z * option (nat * expansion I) * I :=
  match zInput with
  | c :: z =>
      if (2 <? length zInput)%nat && (c =? "{"%ch) then
        match tag_loop z 0 with
        | Some (nTag, _ :: _) =>
            if (0 <? nTag)%nat then
              match Th8_FindExpansion it (take nTag z) with
              | Some xExpand => (TH8_OK, Some (nTag, xExpand), it)
              | None => (TH8_ERROR, None, report it (EUnknownExpansion (take nTag z)))
              end
            else (TH8_ERROR, None, report it EExtraAfterBrace)
        | _ => (TH8_OK, None, it)
        end
      else (TH8_OK, None, it)
  | [] => (TH8_OK, None, it)
  end.

(** A word into the buffers; th8SplitCommand strips the tags of a word that is
    not expanded before it stores the bytes. *)
Definition th8CmdBuildAddWord (a : words) (z : bytes) (n : Z) : words :=
  mkWords (th8BufAddChar alloc_ok (th8BufWrite alloc_ok (strbuf a) z n) 0)
          (th8BufWrite alloc_ok (lenbuf a) (size_image n) 8) (nCount a + 1).

Definition add_plain (a : words) (z : bytes) (n : Z) : words :=
  mkWords (th8BufAddChar alloc_ok (th8BufWrite alloc_ok (strbuf a) z (TH8_LEN n)) 0)
          (th8BufWrite alloc_ok (lenbuf a) (size_image n) 8) (nCount a + 1).

#[local] Instance words_store : WordStore words := {
  put_plain a w := add_plain a (fst w) (snd w);
  put a w := th8CmdBuildAddWord a (fst w) (snd w)
}.

(** The readiness check before each word; a suspension keeps its code. *)
Definition word_ready (it : I) : Z * I :=
  let '(readyRc, it) := Th8_Ready it in
  (if readyRc =? TH8_OK then TH8_OK
   else if readyRc =? TH8_SUSPEND then TH8_SUSPEND else TH8_ERROR, it).

(** The argument vector from the accumulated words. *)
Definition build_argv (a : words) (it : I) : Z * option Argv * I :=
  match argv_size (nCount a) (nBuf (strbuf a)) with
  | None => (TH8_ERROR, None, report it ECommandTooLarge)
  | Some nAlloc =>
      if argv_ok nAlloc then
        let an := read_sizes (Z.to_nat (nCount a)) (zBuf (lenbuf a)) in
        (TH8_OK, Some (mkArgv (nCount a) (element_offsets an 0) an (zBuf (strbuf a))), it)
      else (TH8_ERROR, None, set_out_of_memory it)
  end.

Definition words_failed (a : words) : bool := bFail (strbuf a) || bFail (lenbuf a).

(** ** th8SplitCommand *)

Section loop.
Context {A : Type} `{WS : WordStore A}.

(** One word: substituted, expanded where it has a prefix, and stored. *)
Definition split_word (w : bytes) (a : A) (it : I) : Z * A * I :=
  let '(rc, prefix, it) := th8CheckExpansionPrefix it w in
  if negb (rc =? TH8_OK) then (rc, a, it)
  else
    match prefix with
    | Some (nTag, xExpand) =>
        let '(rc, it) := th8SubstWord realloc_ok alloc_ok it (drop (nTag + 2) w) in
        if negb (rc =? TH8_OK) then (rc, a, it)
        else
          let '(zRes, nRes) := Th8_GetResult it in
          let '(rc, elements, it) := xExpand it zRes nRes in
          if negb (rc =? TH8_OK) then (rc, a, it)
          else (TH8_OK, put_all a elements, it)
    | None =>
        let '(rc, it) := th8SubstWord realloc_ok alloc_ok it w in
        if negb (rc =? TH8_OK) then (rc, a, it)
        else (TH8_OK, put_plain a (Th8_GetResult it), it)
    end.

(** The loop over the words; each consumes a byte or more, so the length of
    the text is fuel enough. *)
Fixpoint Split_loop (fuel : nat) (z : bytes) (a : A) (it : I) : Z * A * I :=
  match fuel, z with
  | _, [] | O, _ => (TH8_OK, a, it)
  | S fuel', _ =>
      let '(rc, it) := word_ready it in
      if negb (rc =? TH8_OK) then (rc, a, it)
      else
        let z := drop (th8NextSpace z) z in
        match z with
        | [] => (TH8_OK, a, it)
        | _ =>
            match th8NextWord realloc_ok false z with
            | Err e => (TH8_ERROR, a, Th8_ErrorMessage it e)
            | Ok O => (TH8_OK, a, it)
            | Ok nWord =>
                let '(rc, a, it) := split_word (take nWord z) a it in
                if negb (rc =? TH8_OK) then (rc, a, it)
                else Split_loop fuel' (drop nWord z) a it
            end
        end
  end.
End loop.

Definition th8SplitCommand (it : I) (zCmd : bytes) : Z * option Argv * I :=
  let wasListMode := isListMode it in
  let '(rc, a, it) := Split_loop (length zCmd) zCmd words_init (set_isListMode it false) in
  let it := set_isListMode it wasListMode in
  if negb (rc =? TH8_OK) then (rc, None, it)
  else if words_failed a then (TH8_ERROR, None, set_out_of_memory it)
  else if 0 <? nCount a then build_argv a it
  else (TH8_OK, None, it).

(** ** th8NRSubstAndBuild *)

Section build.
Context {A : Type} `{WS : WordStore A}.

(** The state kept across nested commands.  [zWord] is what of the current
    word is still to be substituted; [zInput] starts at the current word. *)
Record Th8_CmdBuild : Type := mkBuild {
  acc : A;
  zInput : bytes;
  nOrigWord : nat;
  wordBuf : Th8_Buffer;
  zWord : bytes;
  bWordActive : bool;
  bExpand : option (expansion I)
}.

Definition build_init (a : A) (z : bytes) : Th8_CmdBuild :=
  mkBuild a z 0 th8BufInit [] false None.

(** The outcome of a call: a code, with the script that was pushed for
    evaluation, if one was. *)
Definition outcome : Type := Z * option bytes * Th8_CmdBuild * I.

(** Where the substitution of a word stops: at its end, at an error, or at a
    nested command, with the rest of the word. *)
Inductive word_stop : Type :=
| WDone
| WError (rc : Z)
| WEval (zScript zRest : bytes).

Fixpoint word_chars (fuel : nat) (z : bytes) (buf : Th8_Buffer) (it : I)
    : word_stop * Th8_Buffer * I :=
  match fuel, z with
  | _, [] | O, _ => (WDone, buf, it)
  | S fuel', c :: z' =>
      if c =? "\"%ch then
        match th8NextEscape z with
        | Err _ => (WError TH8_ERROR, buf, it)
        | Ok nEsc =>
            word_chars fuel' (drop nEsc z)
              (write_escape (SK := buffer_sink alloc_ok) buf (take nEsc z)) it
        end
      else if (c =? "["%ch) && negb (isListMode it) then
        match th8NextCommand realloc_ok z with
        | Err e => (WError TH8_ERROR, buf, Th8_ErrorMessage it e)
        | Ok nCmd => (WEval (sub 1 (nCmd - 2) z) (drop nCmd z), buf, it)
        end
      else if (c =? "$"%ch) && negb (isListMode it) then
        match th8NextVarName z with
        | Err _ => (WError TH8_ERROR, buf, it)
        | Ok nVar =>
            if (nVar <=? 1)%nat then
              word_chars fuel' z' (th8BufAddChar alloc_ok buf "$"%ch) it
            else
              let '(rc, it) := th8SubstVarName it (take nVar z) in
              if negb (rc =? TH8_OK) then (WError rc, buf, it)
              else word_chars fuel' (drop nVar z)
                     (write_result (SK := buffer_sink alloc_ok) it buf) it
        end
      else word_chars fuel' z' (th8BufAddChar alloc_ok buf c) it
  end.

(** The word is dropped; [error:]. *)
Definition drop_word (b : Th8_CmdBuild) : Th8_CmdBuild :=
  mkBuild (acc b) (zInput b) (nOrigWord b) th8BufInit [] false (bExpand b).

(** [word_done:], with [k] for the next round of the word loop. *)
Definition word_done (k : Th8_CmdBuild → I → outcome) (b : Th8_CmdBuild) (it : I) : outcome :=
  let buf := wordBuf b in
  let next a := mkBuild a (drop (nOrigWord b) (zInput b)) (nOrigWord b) th8BufInit [] false None in
  if bFail buf then (TH8_ERROR, None, drop_word b, set_out_of_memory it)
  else
    match bExpand b with
    | Some xExpand =>
        let '(rc, elements, it) := xExpand it (zBuf buf) (nBuf buf) in
        if negb (rc =? TH8_OK) then (rc, None, next (acc b), it)
        else k (next (put_all (acc b) (map (λ w, (fst w, Z.lor (snd w) (nTag buf))) elements))) it
    | None => k (next (put (acc b) (zBuf buf, Z.lor (nBuf buf) (nTag buf)))) it
    end.

(** [continue_word:]. *)
Definition continue_word (k : Th8_CmdBuild → I → outcome) (b : Th8_CmdBuild) (it : I) : outcome :=
  let '(stop, buf, it) := word_chars (length (zWord b)) (zWord b) (wordBuf b) it in
  let with_word z := mkBuild (acc b) (zInput b) (nOrigWord b) buf z true (bExpand b) in
  match stop with
  | WDone => word_done k (with_word []) it
  | WError rc => (rc, None, drop_word b, it)
  | WEval zScript zRest => (TH8_OK, Some zScript, with_word zRest, it)
  end.

(** Start of a word: braces give its value at once, quotes are stripped. *)
Definition start_word (k : Th8_CmdBuild → I → outcome) (b : Th8_CmdBuild) (w : bytes) (it : I)
    : outcome :=
  let nn := length w in
  let inner := sub 1 (nn - 2) w in
  let bracketed a b := (1 <? nn)%nat && (nth 0 w 0 =? a) && (nth (nn - 1) w 0 =? b) in
  let with_word buf z := mkBuild (acc b) (zInput b) (nOrigWord b) buf z true (bExpand b) in
  if bracketed "{"%ch "}"%ch then
    word_done k (with_word (SubstWord_brace (SK := buffer_sink alloc_ok) (length inner) inner
                              th8BufInit) []) it
  else continue_word k (with_word th8BufInit (if bracketed DQUOTE DQUOTE then inner else w)) it.

Fixpoint Build_loop (fuel : nat) (b : Th8_CmdBuild) (it : I) : outcome :=
  match fuel, zInput b with
  | _, [] | O, _ => (TH8_OK, None, b, it)
  | S fuel', z =>
      let '(rc, it) := word_ready it in
      if negb (rc =? TH8_OK) then (rc, None, b, it)
      else
        let z := drop (th8NextSpace z) z in
        let at_word nWord ex := mkBuild (acc b) z nWord th8BufInit [] false ex in
        match z with
        | [] => (TH8_OK, None, at_word O None, it)
        | _ =>
            match th8NextWord realloc_ok false z with
            | Err e => (TH8_ERROR, None, at_word O None, Th8_ErrorMessage it e)
            | Ok O => (TH8_OK, None, at_word O None, it)
            | Ok nWord =>
                let w := take nWord z in
                let '(rc, prefix, it) := th8CheckExpansionPrefix it w in
                if negb (rc =? TH8_OK) then (rc, None, at_word nWord None, it)
                else
                  match prefix with
                  | Some (nTag, xExpand) =>
                      start_word (Build_loop fuel') (at_word nWord (Some xExpand))
                        (drop (nTag + 2) w) it
                  | None => start_word (Build_loop fuel') (at_word nWord None) w it
                  end
            end
        end
  end.

(** The next round of the word loop. *)
Definition next_round (b : Th8_CmdBuild) (it : I) : outcome :=
  Build_loop (length (zInput b)) b it.

Definition th8NRSubstAndBuild (b : Th8_CmdBuild) (it : I) : outcome :=
  if bWordActive b then continue_word next_round b it else next_round b it.

Definition th8NRCmdSubstDone (b : Th8_CmdBuild) (rc : Z) (it : I) : outcome :=
  if negb (rc =? TH8_OK) then (rc, None, b, it)
  else
    th8NRSubstAndBuild
      (mkBuild (acc b) (zInput b) (nOrigWord b)
         (write_result (SK := buffer_sink alloc_ok) it (wordBuf b)) (zWord b) (bWordActive b)
         (bExpand b)) it.

(** The callbacks of one command as the trampoline runs them: the script that
    was pushed, then th8NRCmdSubstDone with its code, until nothing is pushed.
    What draining a pushed script does is Th8_Eval. *)
Fixpoint drain (fuel : nat) (o : outcome) : Z * A * I :=
  match fuel, o with
  | S fuel', (_, Some zScript, b, it) =>
      let '(rc, it) := Th8_Eval it zScript in drain fuel' (th8NRCmdSubstDone b rc it)
  | _, (rc, _, b, it) => (rc, acc b, it)
  end.
End build.

(** The second half of th8NRCmdDispatch: the argument vector of the words built.
    [free] is th8FreeCmdBuild, which restores the list mode. *)
Definition finish_build (free : I → I) (a : words) (it : I) : Z * option Argv * I :=
  if words_failed a then (TH8_ERROR, None, free (set_out_of_memory it))
  else if nCount a =? 0 then (TH8_OK, None, free it)
  else build_argv a (free it).

(** The build of a command, from th8EvalIteration to th8NRCmdDispatch.  Every
    nested command takes two bytes of the text or more, so its length is fuel
    enough. *)
Definition build_command (it : I) (zCmd : bytes) : Z * option Argv * I :=
  let wasListMode := isListMode it in
  let '(rc, a, it) :=
    drain (S (length zCmd))
      (th8NRSubstAndBuild (build_init words_init zCmd) (set_isListMode it false)) in
  let free it := set_isListMode it wasListMode in
  if negb (rc =? TH8_OK) then (rc, None, free it) else finish_build free a it.
End split.

(** ** The argument vector of a list of words *)

(** The length of a word without its tags is its size, and the tagged length is
    a machine word. *)
Definition tagged (w : word) : Prop := TH8_LEN (snd w) = zlen (fst w) ∧ 0 <= snd w < 2 ^ 64.

Definition word_bytes (w : word) : bytes := fst w ++ [0].

Definition argv_of (ws : list word) : Argv :=
  mkArgv (zlen ws) (element_offsets (map snd ws) 0) (map snd ws) (concat (map word_bytes ws)).

(** What the words take in the buffers. *)
Definition words_size (ws : list word) : Z := fold_right (λ w t, zlen (fst w) + 9 + t) 0 ws.

Lemma words_size_app ws ws' : words_size (ws ++ ws') = words_size ws + words_size ws'.
Proof. unfold words_size. induction ws; simpl; lia. Qed.

Lemma image_size_mod k : ∀ n, 0 <= n →
  image_size (map (λ i, Z.land (Z.shiftr n (8 * Z.of_nat i)) 0xFF) (seq 0 k)) =
  n mod 2 ^ (8 * Z.of_nat k).
Proof.
  induction k as [|k IH]; intros n Hn; [by rewrite Z.mod_1_r|].
  cbn [seq map image_size]. rewrite <- seq_shift, map_map.
  rewrite (map_ext _ (λ i, Z.land (Z.shiftr (Z.shiftr n 8) (8 * Z.of_nat i)) 0xFF)).
  2: { intros i. rewrite Z.shiftr_shiftr by lia. do 2 f_equal. lia. }
  rewrite IH by (apply Z.shiftr_nonneg; lia). apply Z.bits_inj'. intros j Hj.
  change 0xFF with (Z.ones 8). rewrite Z.land_ones, Z.shiftr_0_r by lia.
  rewrite Z.lor_spec, Z.shiftl_spec by lia.
  destruct (Z.lt_ge_cases j 8).
  - rewrite (Z.testbit_neg_r _ (j - 8)), orb_false_r by lia.
    rewrite !Z.mod_pow2_bits_low by lia. done.
  - rewrite Z.mod_pow2_bits_high by lia. simpl orb.
    destruct (Z.lt_ge_cases j (8 * Z.of_nat (S k))).
    + rewrite !Z.mod_pow2_bits_low, Z.shiftr_spec by lia. f_equal. lia.
    + rewrite !Z.mod_pow2_bits_high by lia. done.
Qed.

Lemma image_size_image n : 0 <= n < 2 ^ 64 → image_size (size_image n) = n.
Proof. intros Hn. unfold size_image. rewrite image_size_mod by lia. apply Z.mod_small. lia. Qed.

Lemma read_sizes_images ws :
  Forall tagged ws →
  read_sizes (length ws) (concat (map (λ w, size_image (snd w)) ws)) = map snd ws.
Proof.
  induction 1 as [|w ws [_ Hw] _ IH]; [done|].
  cbn [length read_sizes map concat].
  rewrite take_app_length', drop_app_length' by done. by rewrite image_size_image, IH.
Qed.

(** The layout: every word can be read back where its pointer says, is followed
    by a NUL, and lies inside the block. *)
Lemma argv_reads ws : Forall tagged ws → ∀ i w, ws !! i = Some w → ∀ base,
  ∃ off, element_offsets (map snd ws) base !! i = Some (base + Z.of_nat off) ∧
    sub off (length (fst w)) (concat (map word_bytes ws)) = fst w ∧
    concat (map word_bytes ws) !! (off + length (fst w))%nat = Some 0.
Proof.
  induction 1 as [|[z n] ws [Hw _] _ IH]; intros i w Hi base; [done|].
  simpl in Hw. destruct i as [|i]; simpl in Hi.
  - injection Hi as <-. exists 0%nat. cbn [fst]. rewrite Z.add_0_r. split; [done|].
    unfold sub, word_bytes. cbn [map concat fst]. rewrite drop_0, <- app_assoc.
    split; [by apply take_app_length|]. simpl. by rewrite lookup_app_r, Nat.sub_diag by lia.
  - destruct (IH i w Hi (base + (zlen z + 1))) as (off & H1 & H2 & H3).
    exists (S (length z) + off)%nat. cbn [map element_offsets snd].
    assert (Hl : length (word_bytes (z, n)) = S (length z)).
    { unfold word_bytes. simpl. rewrite length_app. simpl. lia. }
    split; [|split].
    + simpl. rewrite Hw, H1. f_equal. unfold zlen. lia.
    + unfold sub in *. cbn [concat map]. rewrite <- Hl, <- drop_drop, drop_app_length. done.
    + cbn [concat map]. rewrite lookup_app_r by lia. rewrite Hl.
      by replace (_ - _)%nat with (off + length (fst w))%nat by lia.
Qed.

(** ** The buffers hold the words *)

Section hold.
Context (alloc_ok argv_ok : Z → bool).

Record words_rel (a : words) (ws : list word) : Prop := {
  wr_str : ∃ ps, buf_rel alloc_ok (strbuf a) ps ∧
             pieces_bytes ps = concat (map word_bytes ws) ∧ pieces_size ps <= words_size ws;
  wr_len : ∃ ps, buf_rel alloc_ok (lenbuf a) ps ∧
             pieces_bytes ps = concat (map (λ w, size_image (snd w)) ws) ∧
             pieces_size ps <= words_size ws;
  wr_count : nCount a = zlen ws;
  wr_tagged : Forall tagged ws
}.

Lemma words_rel_init : words_rel words_init [].
Proof. split; [exists []; split_and!..|done|constructor]; try done; apply buf_rel_init. Qed.

Lemma TH8_LEN_idem n : TH8_LEN (TH8_LEN n) = TH8_LEN n.
Proof. unfold TH8_LEN. by rewrite <- Z.land_assoc, Z.land_diag. Qed.

Lemma words_rel_add a ws w n :
  words_rel a ws → tagged w → TH8_LEN n = TH8_LEN (snd w) →
  words_rel
    (mkWords (th8BufAddChar alloc_ok (th8BufWrite alloc_ok (strbuf a) (fst w) n) 0)
       (th8BufWrite alloc_ok (lenbuf a) (size_image (snd w)) 8) (nCount a + 1)) (ws ++ [w]).
Proof.
  intros [(ps & Hs & Hsb & Hss) (qs & Hl & Hlb & Hls) Hc Ht] Hw Hn. pose proof Hw as [Hwl Hwb].
  pose proof (zlen_nonneg (fst w)). split; simpl.
  - exists (([0], 1) :: (fst w, n) :: ps). split; [by do 2 apply buf_rel_write|].
    rewrite !pieces_bytes_cons, Hsb, map_app, concat_app. split.
    + cbn [map concat fst]. rewrite app_nil_r, <- app_assoc. f_equal. unfold word_bytes. f_equal.
      rewrite Hn, Hwl. unfold zlen. by rewrite Nat2Z.id, firstn_all.
    + simpl. rewrite words_size_app, Hn, Hwl. simpl. change (TH8_LEN 1) with 1. lia.
  - exists ((size_image (snd w), 8) :: qs). split; [by apply buf_rel_write|].
    rewrite pieces_bytes_cons, Hlb, map_app, concat_app. split.
    + cbn [map concat]. by rewrite app_nil_r.
    + simpl. rewrite words_size_app. simpl. change (TH8_LEN 8) with 8. lia.
  - rewrite zlen_app, Hc. done.
  - apply Forall_app_2; [done|]. by constructor.
Qed.

Lemma words_rel_plain a ws w :
  words_rel a ws → tagged w →
  words_rel (put_plain (WordStore := words_store alloc_ok) a w) (put_plain ws w).
Proof. intros. apply words_rel_add; [done..|]. apply TH8_LEN_idem. Qed.

Lemma words_rel_put a ws w :
  words_rel a ws → tagged w →
  words_rel (put (WordStore := words_store alloc_ok) a w) (put ws w).
Proof. intros. by apply words_rel_add. Qed.

(** Why words could not be stored. *)
Definition no_room (ws : list word) : Prop :=
  (∃ n, alloc_ok n = false ∨ argv_ok n = false) ∨ TH8_MX_STRLEN < 2 * words_size ws + 32.

Lemma words_failed_cause a ws : words_rel a ws → words_failed a = true → no_room ws.
Proof.
  intros [(ps & Hs & _ & Hss) (qs & Hl & _ & Hls) _ _] [Hf|Hf]%orb_true_iff;
    [destruct (rel_cause _ _ _ Hs Hf) as [[n Hn]|]|destruct (rel_cause _ _ _ Hl Hf) as [[n Hn]|]];
    try (left; eauto; fail); right; lia.
Qed.

Lemma argv_size_fits n k :
  0 <= n -> 8 * n <= TH8_MX_STRLEN → 0 <= k <= TH8_MX_STRLEN → is_Some (argv_size n k).
Proof.
  unfold TH8_MX_STRLEN. intros Hn H8 Hk. unfold argv_size.
  assert (E1 : mul_size 8 n = Some (8 * n)) by (apply mul_size_spec; unfold SIZE_MAX; lia).
  assert (E2 : add_size (8 * n) (8 * n) = Some (8 * n + 8 * n))
    by (apply add_size_spec; unfold SIZE_MAX; lia).
  assert (E3 : add_size (8 * n + 8 * n) k = Some (8 * n + 8 * n + k))
    by (apply add_size_spec; unfold SIZE_MAX; lia).
  rewrite E1. simpl. rewrite E2. simpl. rewrite E3. eauto.
Qed.

Lemma images_length ws : zlen (concat (map (λ w : word, size_image (snd w)) ws)) = 8 * zlen ws.
Proof. induction ws as [|w ws IH]; [done|]. cbn [map concat]. rewrite zlen_app, IH, zlen_cons. unfold zlen at 1. simpl length. lia. Qed.

(** The block of the words is built, unless it cannot be allocated. *)
Lemma build_argv_spec {I : Type} `{WI : WordInterp I} a ws (it : I) :
  words_rel a ws → words_failed a = false →
  build_argv argv_ok a it = (TH8_OK, Some (argv_of ws), it) ∨
  (build_argv argv_ok a it = (TH8_ERROR, None, set_out_of_memory it) ∧ ∃ n, argv_ok n = false).
Proof.
  intros [(ps & Hs & Hsb & _) (qs & Hl & Hlb & _) Hc Ht] [Hf1 Hf2]%orb_false_iff.
  pose proof (rel_bytes _ _ _ Hs Hf1) as Hs'. pose proof (rel_bytes _ _ _ Hl Hf2) as Hl'.
  rewrite Hsb in Hs'. rewrite Hlb in Hl'.
  destruct (rel_ok _ _ _ Hs) as [Hs1 Hs2]. destruct (rel_ok _ _ _ Hl) as [Hl1 Hl2].
  pose proof (zlen_nonneg (zBuf (strbuf a))) as Hz. pose proof (zlen_nonneg ws) as Hw.
  assert (H8 : 8 * zlen ws = nBuf (lenbuf a)) by (unfold nBuf; rewrite Hl'; by rewrite images_length).
  destruct (argv_size_fits (nCount a) (nBuf (strbuf a))) as [k Hk]; [lia..|unfold nBuf in *; lia|].
  unfold build_argv. rewrite Hk. destruct (argv_ok k) eqn:Ek; [left|right; eauto].
  assert (Hn : Z.to_nat (zlen ws) = length ws) by apply Nat2Z.id.
  by rewrite Hc, Hs', Hl', Hn, read_sizes_images by done.
Qed.
End hold.

(** ** The laws of the interpreter

    The length of a result is that of its bytes, with its tags, and so are those
    of the elements that an expansion makes. *)
Class SplitTags (I : Type) `{WI : WordInterp I} : Prop := {
  get_tagged it : tagged (Th8_GetResult it);
  expand_tagged it it1 tag x z n :
    Th8_FindExpansion it1 tag = Some x → Forall tagged (snd (fst (x it z n)))
}.

(** For the agreement of the two paths: [same] relates interpreters that differ at
    most in their result.  The operations do not look at the result, and what a
    variable or a script that sets the result leaves there is the same for both.
    A script without a command leaves the result as it was, so [sets_result] does
    not hold of it.  Expansion hands the tags of a value on to its elements.
    [set_granted]: there is memory for a result. *)

Definition out_same {I} (same : relation I) (o1 o2 : Z * I) : Prop :=
  fst o1 = fst o2 ∧ same (snd o1) (snd o2).

Class SplitLaws (I : Type) `{ST : SplitTags I} : Type := {
  same : relation I;
  #[global] same_equiv :: Equivalence same;
  same_report it e : same (report it e) it;
  same_error it e : same (Th8_ErrorMessage it e) it;
  same_oom it : same (set_out_of_memory it) it;
  #[global] listMode_proper :: Proper (same ==> eq) isListMode;
  #[global] set_listMode_proper :: Proper (same ==> eq ==> same) set_isListMode;
  #[global] ready_proper :: Proper (same ==> out_same same) Th8_Ready;
  var_same it it' z : same it it' →
    out_same same (th8SubstVarName it z) (th8SubstVarName it' z) ∧
    (fst (th8SubstVarName it z) = TH8_OK →
     Th8_GetResult (snd (th8SubstVarName it z)) = Th8_GetResult (snd (th8SubstVarName it' z)));
  sets_result : bytes → Prop;
  eval_same it it' z : same it it' →
    out_same same (Th8_Eval it z) (Th8_Eval it' z) ∧
    (sets_result z → fst (Th8_Eval it z) = TH8_OK →
     Th8_GetResult (snd (Th8_Eval it z)) = Th8_GetResult (snd (Th8_Eval it' z)));
  set_granted it z n : zlen z <= TH8_MX_STRLEN → tagged (z, n) →
    let o := Th8_SetResult it z n in
    fst o = TH8_OK ∧ same (snd o) it ∧ Th8_GetResult (snd o) = (z, n);
  find_same it it' tag : same it it' → Th8_FindExpansion it tag = Th8_FindExpansion it' tag;
  expand_same it it' it1 tag x z n t :
    Th8_FindExpansion it1 tag = Some x → same it it' →
    0 <= n <= TH8_MX_STRLEN → Z.land t TH8_TAG_BITS = t →
    let o := x it z n in
    let o' := x it' z (Z.lor n t) in
    fst (fst o) = fst (fst o') ∧ same (snd o) (snd o') ∧
    (fst (fst o) = TH8_OK →
     snd (fst o') = map (λ w, (fst w, Z.lor (snd w) t)) (snd (fst o)))
}.

(** ** Both paths against the list of the words *)

Section refine.
Context {I : Type} `{ST : SplitTags I}.
Context (realloc_ok alloc_ok argv_ok : Z → bool).

(** The loop on the list of the words, in place of the buffers. *)
Definition Split_words (it : I) (zCmd : bytes) : Z * list word * I :=
  Split_loop realloc_ok alloc_ok (length zCmd) zCmd [] (set_isListMode it false).

Lemma prefix_found it w nTag x it' :
  th8CheckExpansionPrefix it w = (TH8_OK, Some (nTag, x), it') →
  it' = it ∧ ∃ tag, Th8_FindExpansion it tag = Some x.
Proof.
  unfold th8CheckExpansionPrefix. destruct w as [|c z]; [done|]. case_if; [|done].
  destruct (tag_loop z 0) as [[n [|d z']]|]; [done| |done]. case_if; [|done].
  destruct (Th8_FindExpansion it _) eqn:E; [|done]. intros [= <- <- <-]. eauto.
Qed.

Lemma words_rel_put_all a ws es :
  words_rel alloc_ok a ws → Forall tagged es →
  words_rel alloc_ok (put_all (WS := words_store alloc_ok) a es) (put_all ws es).
Proof.
  intros Ha Hes. revert a ws Ha. unfold put_all. induction Hes as [|w es Hw _ IH]; [done|].
  intros a ws Ha. apply IH. by apply words_rel_put.
Qed.

Definition stored (o1 : Z * words * I) (o2 : Z * list word * I) : Prop :=
  fst (fst o1) = fst (fst o2) ∧ words_rel alloc_ok (snd (fst o1)) (snd (fst o2)) ∧ snd o1 = snd o2.

Lemma split_word_stored w a ws it :
  words_rel alloc_ok a ws →
  stored (split_word realloc_ok alloc_ok (WS := words_store alloc_ok) w a it)
    (split_word realloc_ok alloc_ok w ws it).
Proof.
  intros Ha. unfold split_word. destruct (th8CheckExpansionPrefix it w) as [[rc pre] it1] eqn:Ep.
  case_if; [done|]. bool_to_prop; subst. destruct pre as [[nTag x]|].
  - apply prefix_found in Ep as (-> & tag & Hx).
    destruct (th8SubstWord _ _ _ _) as [rc2 it2]. case_if; [done|].
    pose proof (get_tagged it2). destruct (Th8_GetResult it2) as [z n].
    pose proof (expand_tagged it2 it tag x z n Hx) as He.
    destruct (x it2 z n) as [[rc3 es] it3]. case_if; [done|].
    split_and!; [done| |done]. by apply words_rel_put_all.
  - destruct (th8SubstWord _ _ _ _) as [rc2 it2]. case_if; [done|].
    split_and!; [done| |done]. apply words_rel_plain; [done|apply get_tagged].
Qed.

Lemma Split_loop_stored fuel : ∀ z a ws it,
  words_rel alloc_ok a ws →
  stored (Split_loop realloc_ok alloc_ok (WS := words_store alloc_ok) fuel z a it)
    (Split_loop realloc_ok alloc_ok fuel z ws it).
Proof.
  induction fuel as [|fuel IH]; intros z a ws it Ha; [by destruct z|].
  destruct z as [|c z]; [done|]. cbn [Split_loop].
  destruct (word_ready it) as [rc it1]. case_if; [done|].
  destruct (drop _ _) as [|d z'] eqn:Ed; [done|].
  destruct (th8NextWord _ _ _) as [[|n]|e]; [done| |done].
  pose proof (split_word_stored (take (S n) (d :: z')) a ws it1 Ha) as Hs.
  destruct (split_word _ _ _ a it1) as [[rc1 a1] it2].
  destruct (split_word _ _ _ ws it1) as [[rc2 ws2] it3].
  destruct Hs as (Hrc & Hw & Hit). simpl in *. subst. case_if; [done|]. by apply IH.
Qed.

(** The answer of a splitter for the words of the reference. *)
Definition delivers (run : Z * list word * I) (R : I → Prop) (o : Z * option Argv * I) : Prop :=
  let '(rc, ws, _) := run in
  R (snd o) ∧
  (if negb (rc =? TH8_OK) then fst o = (rc, None)
   else fst o = (TH8_OK, match ws with [] => None | _ => Some (argv_of ws) end) ∨
        (fst o = (TH8_ERROR, None) ∧ no_room alloc_ok argv_ok ws)).

Lemma words_nil a ws : words_rel alloc_ok a ws → (0 <? nCount a) = negb (bool_decide (ws = [])).
Proof.
  intros [_ _ -> _]. destruct ws; [done|]. rewrite zlen_cons. pose proof (zlen_nonneg ws).
  simpl. apply Z.ltb_lt. lia.
Qed.

(** The last steps of both paths, from the accumulated words. *)
Lemma finish_delivers a ws it :
  words_rel alloc_ok a ws → words_failed a = false → ws ≠ [] →
  let o := build_argv argv_ok a it in
  (o = (TH8_OK, match ws with [] => None | _ => Some (argv_of ws) end, it) ∨
   o = (TH8_ERROR, None, set_out_of_memory it) ∧ no_room alloc_ok argv_ok ws).
Proof.
  intros Ha Hf Hne. destruct (build_argv_spec alloc_ok argv_ok a ws it Ha Hf) as [->|[-> [k Hk]]].
  - left. by destruct ws.
  - right. split; [done|]. left. eauto.
Qed.

(** What th8SplitCommand makes of the words of that loop. *)
Lemma SplitCommand_answers it zCmd :
  let '(rc, ws, it1) := Split_words it zCmd in
  let o := th8SplitCommand realloc_ok alloc_ok argv_ok it zCmd in
  Forall tagged ws ∧
  (snd o = set_isListMode it1 (isListMode it) ∨
   snd o = set_out_of_memory (set_isListMode it1 (isListMode it))) ∧
  (if negb (rc =? TH8_OK) then fst o = (rc, None)
   else fst o = (TH8_OK, match ws with [] => None | _ => Some (argv_of ws) end) ∨
        (fst o = (TH8_ERROR, None) ∧ no_room alloc_ok argv_ok ws)).
Proof.
  unfold th8SplitCommand, Split_words.
  destruct (Split_loop_stored (length zCmd) zCmd words_init [] (set_isListMode it false)
              (words_rel_init alloc_ok)) as (Hrc & Ha & Hst).
  destruct (Split_loop _ _ _ _ words_init _) as [[rc a] it1].
  destruct (Split_loop _ _ _ _ [] _) as [[rc' ws] it1']. simpl in *. subst rc' it1'.
  split; [by destruct Ha|].
  destruct (rc =? TH8_OK); cbn [negb]; [|by split; [left|]].
  rewrite (words_nil a ws Ha). destruct (words_failed a) eqn:Ef.
  { split; [by right|]. right. split; [done|]. by eapply words_failed_cause. }
  case_bool_decide as En; simpl; [subst; by split; [left|left]|].
  destruct (finish_delivers a ws (set_isListMode it1 (isListMode it)) Ha Ef En) as [->|[-> ?]];
    simpl; split; auto.
Qed.

(** From here on the two paths, and interpreters up to their result. *)
Context `{SL : !SplitLaws I}.

(** *** The word under substitution *)

#[local] Abbreviation Loop := (SubstWord_loop realloc_ok (SK := buffer_sink alloc_ok)).
#[local] Abbreviation write := (write_result (SK := buffer_sink alloc_ok)).
#[local] Abbreviation Chars := (word_chars realloc_ok alloc_ok).

#[local] Hint Resolve same_report same_error same_oom : core.
#[local] Hint Extern 1 (same ?x ?x) => reflexivity : core.

(** Every bracketed script in the text sets the result. *)
Definition nested_ok (z : bytes) : Prop := ∀ z1 y z2 nCmd,
  z = z1 ++ y ++ z2 → nth 0 y 0 = "["%ch → th8NextCommand realloc_ok y = Ok nCmd →
  sets_result (sub 1 (nCmd - 2) y).

Lemma nested_infix p y q z : nested_ok z → z = p ++ y ++ q → nested_ok y.
Proof.
  intros Hz -> z1 x z2 nCmd -> Hx Hn. eapply (Hz (p ++ z1) x (z2 ++ q)); [|done|done].
  by simplify_list_eq.
Qed.

Lemma nested_drop n z : nested_ok z → nested_ok (drop n z).
Proof. intros H'. apply (nested_infix (take n z) _ [] z H'). by rewrite app_nil_r, take_drop. Qed.

Lemma nested_take n z : nested_ok z → nested_ok (take n z).
Proof. intros H'. apply (nested_infix [] _ (drop n z) z H'). by rewrite take_drop. Qed.

#[local] Hint Resolve nested_drop nested_take : core.

(** What stopping at [stop] with [buf] and [it] means for the recursive engine
    run on the same text. *)
Definition stops (stop : word_stop) (buf : Th8_Buffer) (it : I) (len : nat)
    (run : Z * Th8_Buffer * I) : Prop :=
  match stop with
  | WDone => ∃ it', same it it' ∧ run = (TH8_OK, buf, it')
  | WError rc => rc ≠ TH8_OK ∧ ∃ buf' it', same it it' ∧ run = (rc, buf', it')
  | WEval zScript zRest =>
      sets_result zScript ∧ nested_ok zRest ∧
      ∃ it' f, same it it' ∧ (length zRest < len)%nat ∧ (length zRest <= f)%nat ∧
      run = let '(rc, it2) := Th8_Eval it' zScript in
            if negb (rc =? TH8_OK) then (rc, buf, it2) else Loop f zRest (write it2 buf) it2
  end.

Lemma stops_le stop buf it len len' run :
  stops stop buf it len run → (len <= len')%nat → stops stop buf it len' run.
Proof.
  destruct stop; [done..|]. intros (Hr & Hn & it' & f & Hs & Hl & Hf & ->) Hle.
  split_and!; [done..|]. exists it', f. split_and!; [done|lia|done|done].
Qed.

Lemma nested_script nCmd (z : bytes) :
  (2 <= nCmd <= length z)%nat →
  sub 1 (length (take nCmd z) - 2) (take nCmd z) = sub 1 (nCmd - 2) z.
Proof.
  intros Hn. unfold sub. rewrite length_take, Nat.min_l by lia.
  rewrite skipn_firstn_comm, take_take. f_equal. lia.
Qed.

Lemma word_chars_stops fuel : ∀ f z buf it it',
  same it it' → nested_ok z → (length z <= fuel)%nat → (length z <= f)%nat →
  let '(stop, buf1, it1) := Chars fuel z buf it in
  stops stop buf1 it1 (length z) (Loop f z buf it').
Proof.
  induction fuel as [|fuel IH]; intros f z buf it it' Hs Hnest Hz Hf.
  { destruct z; [destruct f; exists it'; done|simpl in Hz; lia]. }
  destruct z as [|c z]; [destruct f; exists it'; done|].
  destruct f as [|f]; [simpl in Hf; lia|].
  assert (Hstep : ∀ n buf' it1 it1', same it1 it1' → (1 <= n <= length (c :: z))%nat →
    let '(stop, buf1, it2) := Chars fuel (drop n (c :: z)) buf' it1 in
    stops stop buf1 it2 (length (c :: z)) (Loop f (drop n (c :: z)) buf' it1')).
  { intros n buf' it1 it1' Hs1 Hn. simpl in *.
    specialize (IH f (drop n (c :: z)) buf' it1 it1' Hs1 (nested_drop n _ Hnest)).
    rewrite length_drop in IH.
    simpl length in IH. destruct (Chars fuel _ buf' it1) as [[stop buf1] it2].
    eapply stops_le; [apply IH; lia|lia]. }
  cbn [word_chars SubstWord_loop]. rewrite <- (listMode_proper _ _ Hs).
  assert (H1 : (1 <= 1 <= length (c :: z))%nat) by (simpl; lia).
  destruct (c =? "\"%ch).
  { destruct (th8NextEscape (c :: z)) as [nEsc|e] eqn:E; [|by split; [|eauto]].
    apply NextEscape_bounds in E. apply Hstep; [done|lia]. }
  destruct ((c =? "["%ch) && _) eqn:Ec.
  { destruct (th8NextCommand realloc_ok (c :: z)) as [nCmd|e] eqn:E.
    - bool_to_prop. split; [apply (Hnest [] (c :: z) []); [by rewrite app_nil_r|done..]|].
      apply NextCommand_bounds in E. split; [by apply nested_drop|]. exists it', f.
      rewrite length_drop. split_and!; [done|lia|simpl in *; lia|].
      unfold th8SubstCommand. by rewrite nested_script.
    - split; [done|]. do 2 eexists. split; [|done]. by rewrite !same_error. }
  clear Ec. destruct ((c =? "$"%ch) && _); [|by apply (Hstep 1%nat)].
  destruct (th8NextVarName (c :: z)) as [nVar|e] eqn:E; [|by split; [|eauto]].
  apply NextVarName_bounds in E; [|done].
  destruct (nVar <=? 1)%nat; [by apply (Hstep 1%nat)|].
  destruct (var_same it it' (take nVar (c :: z)) Hs) as [[Hrc Hst] Hres].
  destruct (th8SubstVarName it _) as [rc it1]. destruct (th8SubstVarName it' _) as [rc' it1'].
  simpl in *. subst rc'. case_if.
  - bool_to_prop. split; [done|]. eauto.
  - bool_to_prop. subst rc. unfold write_result. rewrite <- Hres by done.
    apply Hstep; [done|lia].
Qed.

(** *** Running the pushed scripts *)

#[local] Abbreviation Build := (Build_loop realloc_ok alloc_ok (WS := words_store alloc_ok)).
#[local] Abbreviation run_build := (drain realloc_ok alloc_ok (WS := words_store alloc_ok)).
#[local] Abbreviation Done := (word_done (WS := words_store alloc_ok)).
#[local] Abbreviation Continue := (continue_word realloc_ok alloc_ok (WS := words_store alloc_ok)).
#[local] Abbreviation Next := (next_round realloc_ok alloc_ok (WS := words_store alloc_ok)).
#[local] Abbreviation Start := (start_word realloc_ok alloc_ok (WS := words_store alloc_ok)).

Lemma run_finished n rc b it : run_build n (rc, None, b, it) = (rc, acc b, it).
Proof. by destruct n. Qed.

Lemma word_done_ext k1 k2 b it :
  (∀ b' it, (length (zInput b') <= length (zInput b) - nOrigWord b)%nat → k1 b' it = k2 b' it) →
  Done k1 b it = Done k2 b it.
Proof.
  intros Hk. unfold word_done. cbv zeta. case_if; [done|]. destruct (bExpand b) as [x|].
  - destruct (x it _ _) as [[rc es] it1]. case_if; [done|]. apply Hk. simpl. rewrite length_drop. lia.
  - apply Hk. simpl. rewrite length_drop. lia.
Qed.

Lemma start_word_ext k1 k2 b w it :
  (∀ b' it, (length (zInput b') <= length (zInput b) - nOrigWord b)%nat → k1 b' it = k2 b' it) →
  Start k1 b w it = Start k2 b w it.
Proof.
  intros Hk. unfold start_word, continue_word. cbv zeta. case_if; [by apply word_done_ext|].
  destruct (word_chars _ _ _ _ _ _) as [[[]]]; try done. by apply word_done_ext.
Qed.

Lemma Build_fuel f1 : ∀ f2 b it,
  (length (zInput b) <= f1)%nat → (length (zInput b) <= f2)%nat → Build f1 b it = Build f2 b it.
Proof.
  induction f1 as [|f1 IH]; intros f2 b it H1 H2.
  { destruct (zInput b) eqn:E; [|simpl in H1; lia]. destruct f2; simpl; by rewrite ?E. }
  destruct f2 as [|f2].
  { destruct (zInput b) eqn:E; [|simpl in H2; lia]. simpl. by rewrite E. }
  simpl. destruct (zInput b) as [|c z] eqn:E; [done|].
  destruct (word_ready it) as [rc it1]. case_if; [done|].
  destruct (drop _ _) as [|d z'] eqn:Ed; [done|].
  assert (Hl : (length (d :: z') <= length (c :: z))%nat)
    by (rewrite <- Ed, length_drop; lia).
  destruct (th8NextWord _ _ _) as [[|nw]|e]; [done| |done].
  destruct (th8CheckExpansionPrefix it1 _) as [[rc2 pre] it2]. case_if; [done|].
  destruct pre as [[nTag x]|]; apply start_word_ext; simpl in *; intros; apply IH; lia.
Qed.

(** A word taken up at [z] runs like the recursive engine to its end, or to the
    same error, and takes no more pushes than [z] has bytes. *)
Lemma run_word n : ∀ f z buf it it' a z0 nO ex,
  same it it' → nested_ok z → (length z < n)%nat → (length z <= f)%nat →
  let '(rc, buf1, it1') := Loop f z buf it' in
  let o := run_build n (Continue Next (mkBuild a z0 nO buf z true ex) it) in
  ∃ it1, same it1 it1' ∧
  if negb (rc =? TH8_OK) then o = (rc, a, it1)
  else ∃ m, (n <= m + length z)%nat ∧
       o = run_build m (Done Next (mkBuild a z0 nO buf1 [] true ex) it1).
Proof.
  induction n as [|n IH]; intros f z buf it it' a z0 nO ex Hs Hnest Hn Hf; [lia|].
  pose proof (word_chars_stops (length z) f z buf it it' Hs Hnest (le_n _) Hf) as Hstop.
  unfold continue_word. cbn [zWord wordBuf].
  destruct (Chars (length z) z buf it) as [[stop buf1] it1]. destruct stop as [|rc|zs zr].
  - destruct Hstop as (it1' & Hs1 & ->). exists it1. split; [done|]. exists (S n). split; [lia|done].
  - destruct Hstop as (Hrc & buf' & it1' & Hs1 & ->). exists it1. split; [done|].
    apply Z.eqb_neq in Hrc as ->. by rewrite run_finished.
  - destruct Hstop as (Hset & Hnr & it1' & f' & Hs1 & Hlt & Hf' & ->).
    destruct (eval_same it1 it1' zs Hs1) as [[Hrc Hst] Hres].
    cbn [drain]. destruct (Th8_Eval it1 zs) as [rc it2]. destruct (Th8_Eval it1' zs) as [rc' it2'].
    simpl in *. subst rc'. unfold th8NRCmdSubstDone. destruct (rc =? TH8_OK) eqn:E; simpl negb.
    + bool_to_prop. subst rc.
      unfold th8NRSubstAndBuild. cbn [bWordActive acc zInput nOrigWord wordBuf zWord bExpand].
      assert (Hw : write it2 buf1 = write it2' buf1)
        by (unfold write_result; by rewrite Hres).
      rewrite Hw. specialize (IH f' zr (write it2' buf1) it2 it2' a z0 nO ex Hst Hnr).
      destruct (Loop f' zr _ it2') as [[rc1 buf2] it3']. destruct IH as (it3 & Hs3 & H3); [lia..|].
      exists it3. split; [done|]. case_if; [done|].
      destruct H3 as (m & Hm & ->). exists m. split; [lia|done].
    + exists it2. split; [done|]. cbv beta iota zeta. rewrite E. by rewrite run_finished.
Qed.

(** What a build that starts on a word of [len] bytes comes to, against the
    code and state [sync] of the recursive engine: the same error, or the end of
    the word with the value that the engine published. *)
Definition reaches (n len : nat) (a : words) (z0 : bytes) (nO : nat) (ex : option (expansion I))
    (o : Z * words * I) (sync : Z * I) : Prop :=
  let '(rc, it') := sync in
  ∃ it1, same it1 it' ∧
  if negb (rc =? TH8_OK) then o = (rc, a, it1)
  else ∃ m buf, (n <= m + len)%nat ∧ bFail buf = false ∧
       Th8_GetResult it' = (zBuf buf, Z.lor (nBuf buf) (nTag buf)) ∧
       nBuf buf <= TH8_MX_STRLEN ∧ Z.land (nTag buf) TH8_TAG_BITS = nTag buf ∧
       o = run_build m (Done Next (mkBuild a z0 nO buf [] true ex) it1).

Lemma pieces_tag_land ps : Z.land (pieces_tag ps) TH8_TAG_BITS = pieces_tag ps.
Proof.
  apply Z.bits_inj'. intros k Hk. rewrite Z.land_spec, pieces_tag_testbit, tag_bits_testbit by done.
  destruct ((k =? 28) || (k =? 29)); simpl; [apply andb_true_r|done].
Qed.

(** A raw length joined with tags is the tagged length of its bytes. *)
Lemma tagged_join z t :
  zlen z <= TH8_MX_STRLEN → Z.land t TH8_TAG_BITS = t → tagged (z, Z.lor (zlen z) t).
Proof.
  intros Hz Ht. pose proof (zlen_nonneg z) as H0. split; cbn [fst snd].
  - pose proof (tagged_length (zlen z) [] t (conj H0 Hz)) as [Hl _].
    by rewrite Z.lor_0_r, Ht in Hl.
  - assert (Z.lor (zlen z) t = Z.lor (zlen z) t mod 2 ^ 30) as ->.
    { apply Z.bits_inj'. intros k Hk. destruct (Z.lt_ge_cases k 30).
      - by rewrite Z.mod_pow2_bits_low by lia.
      - rewrite Z.mod_pow2_bits_high, Z.lor_spec, small_testbit by lia.
        rewrite <- Ht, Z.land_spec, tag_bits_testbit by lia.
        replace (k =? 28) with false by (symmetry; apply Z.eqb_neq; lia).
        replace (k =? 29) with false by (symmetry; apply Z.eqb_neq; lia).
        apply andb_false_r. }
    pose proof (Z.mod_pos_bound (Z.lor (zlen z) t) (2 ^ 30)). lia.
Qed.

Lemma reaches_end n m len a z0 nO ex buf ps it it' o :
  buf_rel alloc_ok buf ps → same it it' → (n <= m + len)%nat →
  o = run_build m (Done Next (mkBuild a z0 nO buf [] true ex) it) →
  reaches n len a z0 nO ex o (publish 0 (TH8_OK, buf, it')).
Proof.
  intros Hb Hs Hm ->. cbn [publish Z.eqb TH8_OK negb]. destruct (bFail buf) eqn:Ef.
  - exists (set_out_of_memory it). split; [by rewrite !same_oom|]. cbn.
    unfold word_done. cbn [wordBuf]. by rewrite Ef, run_finished.
  - destruct (rel_ok _ _ _ Hb) as [Hfit Hmax].
    assert (Ht : Z.land (nTag buf) TH8_TAG_BITS = nTag buf)
      by (rewrite (rel_tag _ _ _ Hb); apply pieces_tag_land).
    assert (Hlen : zlen (zBuf buf) <= TH8_MX_STRLEN) by (unfold nBuf in *; lia).
    rewrite Z.lor_0_r.
    destruct (set_granted it' (zBuf buf) (Z.lor (nBuf buf) (nTag buf))) as (H1 & H2 & H3);
      [done|by apply tagged_join|].
    unfold reaches. destruct (Th8_SetResult it' _ _) as [rc it1']. simpl in *. subst rc.
    exists it. split; [by rewrite H2|]. cbn. exists m, buf. by split_and!.
Qed.

Lemma run_start n w it it' a z0 nO ex :
  same it it' → nested_ok w → (length w < n)%nat →
  reaches n (length w) a z0 nO ex
    (run_build n (Start Next (mkBuild a z0 nO th8BufInit [] false ex) w it))
    (th8SubstWord realloc_ok alloc_ok it' w).
Proof.
  intros Hs Hnest Hn. unfold th8SubstWord.
  pose proof (SubstWord_body_param realloc_ok (buffer_sink alloc_ok) pieces_sink
    (buf_rel alloc_ok) (buf_rel_write alloc_ok) w _ _ it' (buf_rel_init alloc_ok)) as (_ & Hb & _).
  unfold SubstWord_body in *. unfold start_word. cbn [acc zInput nOrigWord bExpand].
  set (inner := sub 1 (length w - 2) w) in *.
  assert (Hin : (length inner <= length w)%nat).
  { subst inner. unfold sub. rewrite length_take, length_drop. lia. }
  cbv zeta in *. case_if; [eapply reaches_end; [exact Hb|done| |done]; lia|].
  match goal with |- context [if ?b then inner else w] => set (z := if b then inner else w) in * end.
  assert (Hz : (length z <= length w)%nat) by (subst z; case_if; lia).
  assert (Hnz : nested_ok z) by (subst z inner; unfold sub; case_if; auto).
  pose proof (run_word n (length z) z th8BufInit it it' a z0 nO ex Hs Hnz) as Hr.
  destruct (Loop (length z) z th8BufInit it') as [[rc buf1] it1'].
  destruct Hr as (it1 & Hs1 & Hr); [lia..|]. destruct (rc =? TH8_OK) eqn:E; cbn [negb] in Hr.
  - apply Z.eqb_eq in E as ->. destruct Hr as (m & Hm & ->).
    eapply reaches_end; [exact Hb|exact Hs1| |done]. lia.
  - rewrite Hr. unfold publish, reaches. rewrite E. cbn [negb]. exists it1. by rewrite E.
Qed.

Lemma ready_same it it' : same it it' → out_same same (word_ready it) (word_ready it').
Proof.
  intros Hs. pose proof (ready_proper _ _ Hs) as [Hrc Hst]. unfold word_ready.
  destruct (Th8_Ready it) as [r1 it1], (Th8_Ready it') as [r2 it2]. simpl in *. by subst.
Qed.

Lemma prefix_same it it' w :
  same it it' →
  fst (th8CheckExpansionPrefix it w) = fst (th8CheckExpansionPrefix it' w) ∧
  same (snd (th8CheckExpansionPrefix it w)) (snd (th8CheckExpansionPrefix it' w)).
Proof.
  intros Hs. unfold th8CheckExpansionPrefix. destruct w as [|c z]; [done|]. case_if; [|done].
  destruct (tag_loop z 0) as [[k [|d z']]|]; [done| |done].
  case_if; [|split; [done|]; simpl; by rewrite !same_report].
  rewrite (find_same _ _ _ Hs). destruct (Th8_FindExpansion it' _); [done|].
  split; [done|]. simpl. by rewrite !same_report.
Qed.

(** One word: its error, or the rest of the build with the word stored. *)
Lemma run_one n w it it' a ws z0 nO :
  words_rel alloc_ok a ws → same it it' → nested_ok w → (length w < n)%nat →
  let '(rc, ws1, it1') := split_word realloc_ok alloc_ok w ws it' in
  let o := run_build n
    (let '(rc, prefix, it) := th8CheckExpansionPrefix it w in
     if negb (rc =? TH8_OK) then (rc, None, mkBuild a z0 nO th8BufInit [] false None, it)
     else match prefix with
          | Some (nTag, x) =>
              Start Next (mkBuild a z0 nO th8BufInit [] false (Some x)) (drop (nTag + 2) w) it
          | None => Start Next (mkBuild a z0 nO th8BufInit [] false None) w it
          end) in
  ∃ a1 it1, words_rel alloc_ok a1 ws1 ∧ same it1 it1' ∧
  if negb (rc =? TH8_OK) then o = (rc, a1, it1)
  else ∃ m, (n <= m + length w)%nat ∧
       o = run_build m (Next (mkBuild a1 (drop nO z0) nO th8BufInit [] false None) it1).
Proof.
  intros Ha Hs Hnest Hn. unfold split_word. destruct (prefix_same it it' w Hs) as [Hp Hsp].
  destruct (th8CheckExpansionPrefix it' w) as [[rc pre] it0'] eqn:Ep.
  destruct (th8CheckExpansionPrefix it w) as [[rc2 pre2] it0]. simpl in Hp, Hsp.
  injection Hp as -> ->. destruct (rc =? TH8_OK) eqn:E; cbn [negb].
  2: { cbv beta iota zeta. rewrite E. exists a, it0. split_and!; [done..|]. apply run_finished. }
  apply Z.eqb_eq in E as ->. destruct pre as [[nt x]|].
  - apply prefix_found in Ep as (-> & tag & Hx).
    pose proof (run_start n (drop (nt + 2) w) it0 it' a z0 nO (Some x) Hsp (nested_drop _ _ Hnest)) as Hr.
    rewrite length_drop in Hr. specialize (Hr ltac:(lia)).
    destruct (th8SubstWord _ _ it' _) as [rc it1']. destruct Hr as (it1 & Hs1 & Hr).
    destruct (rc =? TH8_OK) eqn:E; cbn [negb] in *.
    2: { cbv beta iota zeta. rewrite E. by exists a, it1. }
    destruct Hr as (m & buf & Hm & Hf & Hres & Hmax & Ht & ->).
    pose proof (expand_tagged it1' it' tag x (zBuf buf) (Z.lor (nBuf buf) (nTag buf)) Hx) as Htag.
    destruct (expand_same it1 it1' it' tag x (zBuf buf) (nBuf buf) (nTag buf) Hx Hs1) as (Hrc & Hsx & Hes);
      [split; [apply zlen_nonneg|done]|done|].
    unfold word_done. cbn [wordBuf bExpand acc zInput nOrigWord]. rewrite Hf, Hres.
    destruct (x it1 _ _) as [[rc1 es] it2]. destruct (x it1' _ _) as [[rc1' es'] it2'].
    simpl in Hrc, Hsx, Hes, Htag. subst rc1'. destruct (rc1 =? TH8_OK) eqn:E1; cbn [negb].
    + apply Z.eqb_eq in E1 as ->. rewrite (Hes eq_refl) in *.
      do 2 eexists. split_and!; [by apply words_rel_put_all|done|]. exists m. split; [lia|done].
    + cbv beta iota zeta. rewrite E1. exists a, it2. split_and!; [done..|]. apply run_finished.
  - pose proof (run_start n w it0 it0' a z0 nO None Hsp Hnest Hn) as Hr.
    destruct (th8SubstWord _ _ it0' _) as [rc it1']. destruct Hr as (it1 & Hs1 & Hr).
    destruct (rc =? TH8_OK) eqn:E; cbn [negb] in *.
    2: { cbv beta iota zeta. rewrite E. by exists a, it1. }
    destruct Hr as (m & buf & Hm & Hf & Hres & Hmax & Ht & ->).
    pose proof (get_tagged it1') as Htag. rewrite Hres in *.
    unfold word_done. cbn [wordBuf bExpand acc zInput nOrigWord]. rewrite Hf.
    do 2 eexists. split_and!; [by apply words_rel_put|done|]. exists m. split; [lia|done].
Qed.

Lemma run_loop fuel : ∀ n b ws it it',
  words_rel alloc_ok (acc b) ws → same it it' → nested_ok (zInput b) →
  (length (zInput b) <= fuel)%nat → (length (zInput b) < n)%nat →
  let '(rc, ws1, it1') := Split_loop realloc_ok alloc_ok fuel (zInput b) ws it' in
  ∃ a1 it1, run_build n (Build fuel b it) = (rc, a1, it1) ∧ words_rel alloc_ok a1 ws1 ∧ same it1 it1'.
Proof.
  induction fuel as [|fuel IH]; intros n b ws it it' Ha Hs Hnest Hf Hn.
  { destruct (zInput b) eqn:Ez; [|simpl in Hf; lia]. simpl. rewrite Ez, run_finished. eauto. }
  simpl. destruct (zInput b) as [|c z] eqn:Ez; [rewrite run_finished; eauto|].
  destruct (ready_same it it' Hs) as [Hrc Hs0].
  destruct (word_ready it) as [rc it0], (word_ready it') as [rc' it0']. simpl in Hrc, Hs0. subst rc'.
  destruct (rc =? TH8_OK); cbn [negb]; [|rewrite run_finished; eauto].
  pose proof (nested_drop (th8NextSpace (c :: z)) _ Hnest) as Hnd.
  destruct (drop _ _) as [|d z'] eqn:Ed; [rewrite run_finished; eauto|].
  assert (Hl : (length (d :: z') <= length (c :: z))%nat) by (rewrite <- Ed, length_drop; lia).
  destruct (th8NextWord realloc_ok false (d :: z')) as [[|nw]|e] eqn:Ew;
    [rewrite run_finished; eauto| |rewrite run_finished; do 2 eexists; split_and!; [done..|]; by rewrite !same_error].
  apply NextWord_bounds in Ew. simpl length in *.
  assert (Hw : length (take (S nw) (d :: z')) = S nw) by (rewrite length_take; simpl; lia).
  pose proof (run_one n (take (S nw) (d :: z')) it0 it0' (acc b) ws (d :: z') (S nw) Ha Hs0
    (nested_take _ _ Hnd)) as H1.
  rewrite Hw in H1. specialize (H1 ltac:(lia)).
  destruct (split_word _ _ _ ws it0') as [[rc1 ws1] it1'].
  destruct H1 as (a1 & it1 & Ha1 & Hs1 & H1).
  assert (Hext : ∀ o1 o2 : outcome (I := I) (A := words), o1 = o2 → run_build n o1 = run_build n o2)
    by (by intros ? ? ->).
  rewrite (Hext _ (let '(rc, prefix, it) := th8CheckExpansionPrefix it0 (take (S nw) (d :: z')) in
     if negb (rc =? TH8_OK) then (rc, None, mkBuild (acc b) (d :: z') (S nw) th8BufInit [] false None, it)
     else match prefix with
          | Some (nTag, x) =>
              Start Next (mkBuild (acc b) (d :: z') (S nw) th8BufInit [] false (Some x))
                (drop (nTag + 2) (take (S nw) (d :: z'))) it
          | None => Start Next (mkBuild (acc b) (d :: z') (S nw) th8BufInit [] false None)
                      (take (S nw) (d :: z')) it
          end)).
  2: { destruct (th8CheckExpansionPrefix it0 _) as [[rc2 pre] it2]. case_if; [done|].
       assert (Hk : ∀ b' it, (length (zInput b') <= length (d :: z') - S nw)%nat →
                 Build fuel b' it = Next b' it)
         by (intros b' it2' Hb'; simpl in Hb'; apply Build_fuel; lia).
       destruct pre as [[nt x]|]; by apply start_word_ext. }
  destruct (rc1 =? TH8_OK) eqn:E; cbn [negb] in *; [|rewrite H1; eauto].
  destruct H1 as (m & Hm & ->). unfold next_round. cbn [zInput].
  specialize (IH m (mkBuild a1 (drop (S nw) (d :: z')) (S nw) th8BufInit [] false None) ws1 it1 it1' Ha1 Hs1
    (nested_drop _ _ Hnd)).
  cbn [zInput] in IH. rewrite length_drop in IH. simpl length in IH.
  rewrite (Build_fuel _ fuel) by (cbn [zInput]; rewrite ?length_drop; simpl length; lia).
  apply IH; lia.
Qed.

(** *** The two answers *)

Lemma SplitCommand_delivers it zCmd :
  delivers (Split_words it zCmd)
    (λ it2, same it2 (set_isListMode (snd (Split_words it zCmd)) (isListMode it)))
    (th8SplitCommand realloc_ok alloc_ok argv_ok it zCmd).
Proof.
  pose proof (SplitCommand_answers it zCmd) as Ho. unfold delivers.
  destruct (Split_words it zCmd) as [[rc ws] it1]. cbn [snd] in *. destruct Ho as (_ & [Hi|Hi] & Ho); rewrite Hi;
    split; auto.
Qed.

Lemma build_command_delivers it zCmd :
  nested_ok zCmd →
  delivers (Split_words it zCmd)
    (λ it2, same it2 (set_isListMode (snd (Split_words it zCmd)) (isListMode it)))
    (build_command realloc_ok alloc_ok argv_ok it zCmd).
Proof.
  intros Hnest. unfold build_command, finish_build, delivers, Split_words.
  pose proof (run_loop (length zCmd) (S (length zCmd)) (build_init words_init zCmd) []
    (set_isListMode it false) (set_isListMode it false) (words_rel_init alloc_ok)) as Hr.
  cbn [zInput build_init] in Hr.
  destruct (Split_loop _ _ _ _ [] _) as [[rc ws] it1'].
  destruct Hr as (a & it1 & Hr & Ha & Hs); [done|done|lia..|].
  change (th8NRSubstAndBuild realloc_ok alloc_ok (build_init words_init zCmd)
            (set_isListMode it false))
    with (Build (length zCmd) (build_init words_init zCmd) (set_isListMode it false)).
  rewrite Hr. destruct (rc =? TH8_OK); cbn [negb]; [|split; [simpl; by rewrite Hs|done]].
  destruct (words_failed a) eqn:Ef.
  { split; [simpl; by rewrite same_oom, Hs|]. right. split; [done|]. by eapply words_failed_cause. }
  pose proof (words_nil a ws Ha) as Hn.
  destruct (nCount a =? 0) eqn:E0.
  - apply Z.eqb_eq in E0. rewrite E0 in Hn. case_bool_decide; [subst|done].
    split; [simpl; by rewrite Hs|]. by left.
  - apply Z.eqb_neq in E0. assert (En : ws ≠ []).
    { intros ->. apply E0. destruct Ha as [_ _ -> _]. done. }
    destruct (finish_delivers a ws (set_isListMode it1 (isListMode it)) Ha Ef En) as [->|[-> ?]];
      simpl; split; auto; by rewrite ?same_oom, Hs.
Qed.

(** The two ways of building a command agree: as long as every bracketed
    script in it sets the result and the words fit in memory, the resumable
    path, with its pushed scripts run by the trampoline, and the recursive path
    answer with the same code and the same argument vector, and leave
    interpreters that differ at most in the result. *)
Theorem split_paths_agree it zCmd
  (Hnest : nested_ok zCmd) (Hroom : ¬ no_room alloc_ok argv_ok (snd (fst (Split_words it zCmd)))) :
  let sync := th8SplitCommand realloc_ok alloc_ok argv_ok it zCmd in
  let nr := build_command realloc_ok alloc_ok argv_ok it zCmd in
  fst nr = fst sync ∧ same (snd nr) (snd sync).
Proof.
  pose proof (SplitCommand_delivers it zCmd) as Hs.
  pose proof (build_command_delivers it zCmd Hnest) as Hn. unfold delivers in *.
  destruct (Split_words it zCmd) as [[rc ws] it1]. simpl in *.
  destruct Hs as [Hs1 Hs], Hn as [Hn1 Hn]. split; [|by rewrite Hn1, Hs1].
  destruct (rc =? TH8_OK); cbn [negb] in *; [|by rewrite Hs].
  destruct Hs as [->|[]], Hn as [->|[]]; done.
Qed.
End refine.

(** ** A small interpreter, to evaluate both paths on concrete commands

    The value of a variable is its own text, tainted; a script is evaluated to
    its own text, and an empty script leaves the result as it was; the operator
    [*] expands a value at its blanks. *)

Record tiny : Type := mkTiny { held : word; listMode : bool }.

Definition taggedb (w : word) : bool :=
  (TH8_LEN (snd w) =? zlen (fst w)) && (0 <=? snd w) && (snd w <? 2 ^ 64).
Definition tiny_result (it : tiny) : word := if taggedb (held it) then held it else ([], 0).
Definition tiny_set (it : tiny) (z : bytes) (n : Z) : tiny := mkTiny (z, n) (listMode it).

Fixpoint split_blanks (z w : bytes) : list bytes :=
  match z with
  | [] => match w with [] => [] | _ => [w] end
  | c :: z' =>
      if is_blank c then match w with [] => split_blanks z' [] | _ => w :: split_blanks z' [] end
      else split_blanks z' (w ++ [c])
  end.

Definition tiny_expand : expansion tiny := λ it z n,
  (TH8_OK, if zlen z <=? TH8_MX_STRLEN
           then map (λ p, (p, Z.lor (zlen p) (Z.land n TH8_TAG_BITS))) (split_blanks z [])
           else [], it).

#[export] Instance tiny_subst : SubstInterp tiny := {
  Th8_Ready it := (TH8_OK, it);
  Th8_Eval it z := (TH8_OK, match z with [] => it | _ => tiny_set it z (zlen z) end);
  th8SubstVarName it z := (TH8_OK, tiny_set it z (Z.lor (zlen z) TH8_TAINT_BIT));
  Th8_GetResult := tiny_result;
  Th8_SetResult it z n := (TH8_OK, tiny_set it z n);
  Th8_ErrorMessage it _ := tiny_set it [] 0;
  set_out_of_memory it := tiny_set it [] 0;
  isListMode := listMode
}.

#[export] Instance tiny_words : WordInterp tiny := {
  Th8_FindExpansion it tag := if bool_decide (tag = ["*"%ch]) then Some tiny_expand else None;
  report it _ := tiny_set it [] 0;
  set_isListMode it b := mkTiny (held it) b
}.

Lemma taggedb_spec w : taggedb w = true ↔ tagged w.
Proof.
  unfold taggedb, tagged. rewrite !andb_true_iff, Z.eqb_eq, Z.leb_le, Z.ltb_lt. tauto.
Qed.

Lemma tiny_result_tagged it : tagged (tiny_result it).
Proof.
  unfold tiny_result. case_if; [by apply taggedb_spec|]. by apply taggedb_spec.
Qed.

Lemma split_blanks_le z : ∀ w, Forall (λ p, zlen p <= zlen z + zlen w) (split_blanks z w).
Proof.
  induction z as [|c z IH]; intros w; simpl.
  - destruct w; repeat constructor. unfold zlen. simpl. lia.
  - case_if.
    + assert (Hz : Forall (λ p, zlen p <= zlen (c :: z) + zlen w) (split_blanks z [])).
      { eapply Forall_impl; [apply IH|]. intros p Hp. unfold zlen in *. simpl in *. lia. }
      destruct w; [done|]. constructor; [unfold zlen; simpl; lia|done].
    + eapply Forall_impl; [apply IH|]. intros p Hp. rewrite zlen_app in Hp. unfold zlen in *.
      simpl in *. lia.
Qed.

Lemma tag_of_tagged n t :
  0 <= n <= TH8_MX_STRLEN → Z.land t TH8_TAG_BITS = t → Z.land (Z.lor n t) TH8_TAG_BITS = t.
Proof.
  intros Hn Ht. rewrite <- Ht at 2. apply Z.bits_inj'. intros k Hk.
  rewrite !Z.land_spec, Z.lor_spec, tag_bits_testbit by done.
  destruct ((k =? 28) || (k =? 29)) eqn:E; [|by rewrite !andb_false_r].
  assert (28 <= k) by (apply orb_true_iff in E as [E|E]; bool_to_prop; lia).
  by rewrite small_testbit.
Qed.

Lemma tag_small n : 0 <= n <= TH8_MX_STRLEN → Z.land n TH8_TAG_BITS = 0.
Proof. intros Hn. rewrite <- (Z.lor_0_r n). by apply tag_of_tagged. Qed.

#[export] Instance tiny_tags : SplitTags tiny.
Proof.
  split; [apply tiny_result_tagged|]. intros it it1 tag x z n Hx. simpl in Hx. case_bool_decide; [|done].
  injection Hx as <-. simpl.
  case_if; [|constructor]. bool_to_prop. apply Forall_map.
  eapply Forall_impl; [apply split_blanks_le|]. intros p Hp. simpl in Hp. apply tagged_join.
  - unfold zlen at 3 in Hp. simpl in Hp. lia.
  - by rewrite <- Z.land_assoc, Z.land_diag.
Qed.

#[export] Program Instance tiny_laws : SplitLaws tiny := {
  same it it' := listMode it = listMode it';
  sets_result z := z ≠ []
}.
Next Obligation. split; [by intros x|by intros x y|intros x y z; apply eq_trans]. Qed.
Next Obligation. done. Qed.
Next Obligation. done. Qed.
Next Obligation. done. Qed.
Next Obligation. by intros x y. Qed.
Next Obligation. by intros x y _ b _ <-. Qed.
Next Obligation. by intros x y. Qed.
Next Obligation. by intros it it' z. Qed.
Next Obligation. intros it it' z Hs. split; [by destruct z|]. intros Hz _. by destruct z. Qed.
Next Obligation.
  intros it z n Hz Ht. split_and!; [done..|]. simpl. unfold tiny_result. simpl.
  apply taggedb_spec in Ht. by rewrite Ht.
Qed.
Next Obligation. done. Qed.
Next Obligation.
  intros it it' it1 tag x z n t Hx Hs Hn Ht. simpl in Hx. case_bool_decide; [|done].
  injection Hx as <-. simpl. split_and!; [done..|]. intros _. rewrite tag_of_tagged, tag_small by done.
  case_if; [|done]. rewrite map_map. apply map_ext. intros p. by rewrite Z.lor_0_r.
Qed.

Definition tiny_init : tiny := mkTiny ([], 0) false.

(** No open bracket is followed by its closer. *)
Fixpoint no_empty_script (z : bytes) : bool :=
  match z with
  | [] => true
  | c :: z' => negb ((c =? "["%ch) && next_is "]"%ch z') && no_empty_script z'
  end.

Lemma no_empty_script_app z1 z2 : no_empty_script (z1 ++ z2) = true → no_empty_script z2 = true.
Proof. induction z1; simpl; intros; bool_to_prop; auto. Qed.

Lemma no_empty_nested realloc_ok z :
  no_empty_script z = true → nested_ok (I := tiny) realloc_ok z.
Proof.
  intros Hz z1 y z2 nCmd -> Hy Hn Hs. apply no_empty_script_app in Hz.
  unfold th8NextCommand in Hn. destruct y as [|c y]; [done|]. simpl in Hy. subst c.
  cbn [Z.eqb Pos.eqb negb andb] in Hn.
  destruct (th8ParseStackPush _ _ _) as [s|] eqn:E; [|done]. apply push_items in E.
  apply NextCommand_loop_sound in Hn as (w & rest & -> & Hw & ->). rewrite E in Hw.
  destruct w as [|x w]; [by apply scopes_body_cons_nil in Hw|].
  destruct w as [|x' w]; [|done].
  apply scopes_body_step in Hw. unfold scope_step_rel, scope_step in Hw.
  simpl in Hz. destruct (x =? "]"%ch); [done|]. cbn [Z.eqb Pos.eqb] in Hw.
  repeat case_if_in Hw; try by apply scopes_body_cons_nil in Hw. by destruct Hw as (? & ? & ? & _).
Qed.

Definition tiny_text : bytes := bytes_of_string "f {*}{a b} x[y z]$w".

Definition tiny_list : list word :=
  [(bytes_of_string "f", 1); (bytes_of_string "a", 1); (bytes_of_string "b", 1);
   (bytes_of_string "xy z$w", Z.lor 6 TH8_TAINT_BIT)].

Lemma split_paths_agree_witness :
  fst (build_command grant grant grant tiny_init tiny_text) =
  fst (th8SplitCommand grant grant grant tiny_init tiny_text).
Proof.
  apply (split_paths_agree grant grant grant tiny_init tiny_text).
  - apply no_empty_nested. vm_compute. reflexivity.
  - intros [[n [Hn|Hn]]|Hn]; [discriminate Hn..|]. vm_compute in Hn. discriminate Hn.
Defined.

(** An empty nested script shows the value of the word before it on one path and
    the result from before the command on the other. *)
Example empty_script_differs :
  let it := mkTiny (bytes_of_string "old", 3) false in
  Split_words grant grant it (bytes_of_string "a []") =
    (TH8_OK, [(bytes_of_string "a", 1); (bytes_of_string "a", 1)],
     mkTiny (bytes_of_string "a", 1) false) ∧
  anElem (default (argv_of []) (snd (fst (build_command grant grant grant it (bytes_of_string "a []")))))
    = [1; 3].
Proof. split; vm_compute; reflexivity. Qed.
