(* ===== verification/SplitWords.v ===== *)
(** * SplitWords: the words of a command, by a grammar, against th8SplitCommand.

    The text of a command is cut by a grammar of white space and words, which
    shares nothing with the scanners; the words are evaluated one after the other;
    and th8SplitCommand of Split.v is shown to lay out the values of just these
    words, or to fail as their evaluation does. *)

From S2P Require Import Prelude CharClass Memory Buffer Parser Subst Split.
#[local] Open Scope Z_scope.

(** ** The grammar of a command *)

(** White space: blanks, newlines and continued lines. *)
Inductive blank : bytes → Prop :=
| blank_nil : blank []
| blank_space c z : th8IsSpace c = true → blank z → blank (c :: z)
| blank_line z : blank z → blank ("\"%ch :: NEWLINE :: z).

(** [command z ws trailing]: the text [z] is the words [ws] with white space
    between them, and [trailing] says whether there is some behind the last one. *)
Inductive command : bytes → list bytes → bool → Prop :=
| command_end b : blank b → command b [] (negb (bool_decide (b = [])))
| command_word b w rest ws trailing :
    blank b → w ≠ [] → word_body false (bool_decide (rest = [])) w → Parser.word_stop false rest = true →
    command rest ws trailing → command (b ++ w ++ rest) (w :: ws) trailing.

(** A word of the form [{tag}rest] asks for an expansion operator. *)
Definition operator (w : bytes) : option (bytes * bytes) :=
  match w with
  | c :: z =>
      let i := span tag_char z in
      match drop i z with
      | d :: ((_ :: _) as rest) => if (c =? "{"%ch) && (d =? "}"%ch) then Some (take i z, rest) else None
      | _ => None
      end
  | [] => None
  end.

(** *** The scanners follow the grammar *)

(** What no white space begins. *)
Definition solid (z : bytes) : Prop :=
  match z with [] => True | c :: z' => th8IsSpace c = false ∧ (c = "\"%ch → next_is NEWLINE z' = false) end.

Lemma blank_app b b' : blank b → blank b' → blank (b ++ b').
Proof. intros H Hb. induction H; [done|by apply blank_space|by apply blank_line]. Qed.

Lemma is_blank_space c : is_blank c = true → th8IsSpace c = true.
Proof. unfold is_blank. intros [H|H]%orb_true_iff; bool_to_prop; by subst. Qed.

Lemma blank_blanks z : Forall (λ c, is_blank c = true) z → blank z.
Proof. induction 1; constructor; auto using is_blank_space. Qed.

Lemma NextSpace_blank fuel : ∀ z, blank (take (th8NextSpace_loop fuel z) z).
Proof.
  induction fuel as [|fuel IH]; intros z; [constructor|]. destruct z as [|c z]; [constructor|]. cbn [th8NextSpace_loop].
  destruct ((c =? "\"%ch) && next_is NEWLINE z) eqn:E.
  - apply andb_true_iff in E as [E1 E2]. bool_to_prop; subst. destruct z as [|d z]; [done|]. unfold next_is in E2.
    cbn [nth] in E2. bool_to_prop; subst d. cbn [tail Nat.add take]. apply blank_line.
    rewrite <- take_take_drop. apply blank_app; [apply blank_blanks, span_forall|apply IH].
  - destruct (th8IsSpace c) eqn:Es; [|constructor]. by constructor.
Qed.

(** White space is skipped whole. *)
Lemma NextSpace_skips fuel : ∀ b y, blank b → solid y → (length (b ++ y) <= fuel)%nat →
  drop (th8NextSpace_loop fuel (b ++ y)) (b ++ y) = y.
Proof.
  induction fuel as [|fuel IH]; intros b y Hb Hy Hf.
  { destruct b, y; simpl in Hf; try lia. done. }
  destruct Hb as [|c b Hc Hb|b Hb]; cbn [app].
  - destruct y as [|c y]; [done|]. destruct Hy as [H1 H2]. cbn [th8NextSpace_loop]. rewrite H1.
    destruct (c =? "\"%ch) eqn:E; [|done]. bool_to_prop. by rewrite (H2 E).
  - cbn [th8NextSpace_loop]. rewrite Hc. replace (c =? "\"%ch) with false.
    2: { symmetry. apply Z.eqb_neq. by intros ->. }
    cbn [andb]. apply IH; [done..|]. simpl in Hf. lia.
  - cbn [th8NextSpace_loop]. change (next_is NEWLINE (NEWLINE :: b ++ y)) with true. rewrite Z.eqb_refl. cbn [andb tail].
    set (k := span is_blank (b ++ y)). cbn [Nat.add drop]. rewrite <- drop_drop.
    assert (∃ b', drop k (b ++ y) = b' ++ y ∧ blank b') as (b' & E & Hb').
    { clear IH Hf. subst k. induction Hb as [|c b Hc Hb IHb|b Hb _]; cbn [app span].
      - destruct y as [|c y]; [by exists []; split; [|constructor]|]. destruct Hy as [H1 _]. cbn [span].
        destruct (is_blank c) eqn:E; [apply is_blank_space in E; congruence|]. exists []. split; [done|constructor].
      - case_if; [|exists (c :: b); split; [done|by constructor]]. exact IHb.
      - exists ("\"%ch :: NEWLINE :: b). split; [done|by constructor]. }
    rewrite E. apply IH; [done..|]. rewrite <- E, length_drop. simpl in Hf. lia.
Qed.

Lemma word_solid last w rest : word_body false last w → w ≠ [] → (last = true → rest = []) → solid (w ++ rest).
Proof.
  intros Hw Hne Hl. destruct Hw as [|H|x w Hx _|c w1 w2 Hc _ _|c w Hc _ Hs _]; [done|..]; cbn [app solid].
  - by rewrite (Hl H).
  - split; [done|]. intros _. unfold next_is. cbn [nth]. by apply Z.eqb_neq.
  - assert (th8IsSpace c = false ∧ c ≠ "\"%ch) as [H1 H2] by
      (unfold word_opener in Hc; rewrite !orb_true_iff in Hc; destruct Hc as [[Hc|Hc]|Hc]; bool_to_prop; by subst).
    split; [done|]. by intros ?.
  - unfold Parser.word_stop in Hs. rewrite !orb_false_iff in Hs. destruct Hs as [[Hs _] _]. split; [done|]. by intros ?.
Qed.

Lemma tag_loop_span z : ∀ n, tag_loop z n =
  match drop (span tag_char z) z with
  | d :: rest => if d =? "}"%ch then Some ((n + span tag_char z)%nat, rest) else None
  | [] => None
  end.
Proof.
  induction z as [|c z IH]; intros n; [done|]. cbn [tag_loop span].
  destruct (c =? "}"%ch) eqn:E.
  - bool_to_prop. subst. replace (tag_char "}"%ch) with false by done. cbn [drop]. by rewrite Nat.add_0_r.
  - destruct (tag_char c) eqn:Et; [|cbn [drop]; by rewrite E]. cbn [drop]. rewrite IH.
    destruct (drop _ z); [done|]. case_if; [|done]. do 2 f_equal. lia.
Qed.

Section words.
Context {I : Type} `{ST : SplitTags I}.
Context (realloc_ok alloc_ok argv_ok : Z → bool).

(** ** The values of the words *)

(** A word gives its substituted text, or what its operator makes of it. *)
Definition eval_word (w : bytes) (it : I) : Z * list word * I :=
  match operator w with
  | Some ([], _) => (TH8_ERROR, [], report it EExtraAfterBrace)
  | Some (tag, rest) =>
      match Th8_FindExpansion it tag with
      | Some xExpand =>
          let '(rc, it) := th8SubstWord realloc_ok alloc_ok it rest in
          if rc =? TH8_OK then let '(z, n) := Th8_GetResult it in xExpand it z n else (rc, [], it)
      | None => (TH8_ERROR, [], report it (EUnknownExpansion tag))
      end
  | None =>
      let '(rc, it) := th8SubstWord realloc_ok alloc_ok it w in
      (rc, [Th8_GetResult it], it)
  end.

(** One after the other, with a readiness check in front of each, and in front of
    trailing white space. *)
Fixpoint eval_words (ws : list bytes) (trailing : bool) (it : I) : Z * list word * I :=
  match ws with
  | [] => if trailing then let '(rc, it) := word_ready it in (rc, [], it) else (TH8_OK, [], it)
  | w :: ws =>
      let '(rc, it) := word_ready it in
      if negb (rc =? TH8_OK) then (rc, [], it)
      else
        let '(rc, values, it) := eval_word w it in
        if negb (rc =? TH8_OK) then (rc, [], it)
        else let '(rc, more, it) := eval_words ws trailing it in (rc, values ++ more, it)
  end.

(** *** The loop evaluates the words *)

Lemma prefix_operator w it :
  th8CheckExpansionPrefix it w =
  match operator w with
  | None => (TH8_OK, None, it)
  | Some ([], _) => (TH8_ERROR, None, report it EExtraAfterBrace)
  | Some (tag, rest) =>
      match Th8_FindExpansion it tag with
      | Some x => (TH8_OK, Some (length tag, x), it)
      | None => (TH8_ERROR, None, report it (EUnknownExpansion tag))
      end
  end ∧ (∀ tag rest, operator w = Some (tag, rest) → drop (length tag + 2) w = rest).
Proof.
  unfold th8CheckExpansionPrefix, operator. destruct w as [|c z]; [by split|]. rewrite tag_loop_span, Nat.add_0_l.
  pose proof (span_le tag_char z) as Hi. set (i := span tag_char z) in *.
  assert (length (take i z) = i) as Ei by (rewrite length_take; lia).
  pose proof (length_drop z i) as Hl.
  destruct (drop i z) as [|d [|e rest]] eqn:Ed.
  - split; [|done]. by case_if.
  - split; [|done]. case_if; [|done]. by case_if.
  - assert ((2 <? length (c :: z))%nat = true) as Hlen by (apply Nat.ltb_lt; simpl in *; lia). rewrite Hlen. cbn [andb].
    destruct (c =? "{"%ch); cbn [andb]; [|by split]. destruct (d =? "}"%ch); [|by split].
    split.
    + destruct (Nat.ltb_spec 0 i) as [H0|H0].
      * destruct (take i z) as [|t tag]; [simpl in Ei; lia|]. by rewrite Ei.
      * by replace i with O by lia.
    + intros tag r [= <- <-]. rewrite Ei, Nat.add_comm. cbn [Nat.add drop].
      replace (S i) with (i + 1)%nat by lia. by rewrite <- drop_drop, Ed.
Qed.

Lemma put_all_list (a ws : list word) : put_all a ws = a ++ ws.
Proof.
  unfold put_all. revert a. induction ws as [|w ws IH]; intros a; simpl; [by rewrite app_nil_r|].
  by rewrite IH, <- app_assoc.
Qed.

(** Two runs that end alike: the same code and interpreter, and the same words on
    success. *)
Definition agree (o1 o2 : Z * list word * I) : Prop :=
  fst (fst o1) = fst (fst o2) ∧ snd o1 = snd o2 ∧ (fst (fst o1) = TH8_OK → snd (fst o1) = snd (fst o2)).

Definition behind (a : list word) (o : Z * list word * I) : Z * list word * I :=
  (fst (fst o), a ++ snd (fst o), snd o).

Lemma split_word_eval w a it :
  agree (split_word realloc_ok alloc_ok w a it) (behind a (eval_word w it)).
Proof.
  unfold split_word, eval_word, behind. destruct (prefix_operator w it) as [-> Hd].
  destruct (operator w) as [[[|t tag] rest]|]; [done| |].
  - destruct (Th8_FindExpansion it _) as [x|]; [|done]. change (negb (TH8_OK =? TH8_OK)) with false. cbn match.
    rewrite (Hd _ _ eq_refl). destruct (th8SubstWord _ _ _ _) as [rc it1]. destruct (Z.eqb_spec rc TH8_OK); cbn [negb]; [|done].
    destruct (Th8_GetResult it1) as [z n]. destruct (x it1 z n) as [[rc1 es] it2].
    destruct (Z.eqb_spec rc1 TH8_OK) as [->|]; cbn [negb]; [|done]. split_and!; [done..|]. intros _. apply put_all_list.
  - change (negb (TH8_OK =? TH8_OK)) with false. cbn match. destruct (th8SubstWord _ _ _ _) as [rc it1].
    by destruct (Z.eqb_spec rc TH8_OK) as [->|]; cbn [negb].
Qed.

Lemma NextWord_found (z : bytes) n : th8NextWord realloc_ok false z = Ok n →
  ∃ w rest, z = w ++ rest ∧ word_body false (bool_decide (rest = [])) w ∧ Parser.word_stop false rest = true ∧ n = length w.
Proof.
  rewrite NextWord_unfold. intros (n' & -> & w1 & w2 & rest & -> & H1 & H2 & H3 & ->)%NextWord_loop_sound.
  apply scopes_body_nil_inv in H1. subst w1. by exists w2, rest.
Qed.

Lemma solid_stop z : solid z → Parser.word_stop false z = true → z = [].
Proof.
  destruct z as [|c z]; [done|]. intros [H1 H2]. unfold Parser.word_stop. rewrite H1. cbn [andb orb].
  intros [H3 H4]%andb_true_iff. bool_to_prop. rewrite (H2 H3) in H4. done.
Qed.

Lemma NextSpace_solid (z : bytes) : solid (drop (th8NextSpace z) z).
Proof. by apply (th8NextSpace_loop_spec (length z) z). Qed.

(** What the loop reads is a command. *)
Lemma Split_loop_sound fuel : ∀ z a it vs it', (length z <= fuel)%nat →
  Split_loop realloc_ok alloc_ok fuel z a it = (TH8_OK, vs, it') →
  ∃ ws trailing more, command z ws trailing ∧ eval_words ws trailing it = (TH8_OK, more, it') ∧ vs = a ++ more.
Proof.
  induction fuel as [|fuel IH]; intros z a it vs it' Hf Hr.
  { destruct z; [|simpl in Hf; lia]. injection Hr as <- <-. exists [], false, []. rewrite app_nil_r.
    split_and!; [apply (command_end []); constructor|done..]. }
  destruct (decide (z = [])) as [->|Hz].
  { injection Hr as <- <-. exists [], false, []. rewrite app_nil_r.
    split_and!; [apply (command_end []); constructor|done..]. }
  destruct z as [|c0 z0]; [done|]. cbn [Split_loop] in Hr. set (z := c0 :: z0) in *.
  pose proof (NextSpace_blank (length z) z) as Hb. fold (th8NextSpace z) in Hb. pose proof (NextSpace_solid z) as Hs.
  pose proof (take_drop (th8NextSpace z) z) as Ez. set (b := take (th8NextSpace z) z) in *.
  destruct (word_ready it) as [rc it1] eqn:Er. destruct (Z.eqb_spec rc TH8_OK) as [->|]; cbn [negb] in Hr;
    [|by injection Hr as ? _ _].
  destruct (drop (th8NextSpace z) z) as [|c y] eqn:Ey.
  { injection Hr as <- <-. rewrite app_nil_r in Ez. exists [], true, []. rewrite app_nil_r. split_and!; [|simpl; by rewrite Er|done].
    replace true with (negb (bool_decide (z = []))) by done. rewrite <- Ez. by apply command_end. }
  destruct (th8NextWord realloc_ok false (c :: y)) as [[|n]|e] eqn:Ew; [..|done].
  { exfalso. apply NextWord_found in Ew as (w & rest & E & _ & Hstop & Hn). destruct w; [|done]. cbn [app] in E. subst rest.
    by apply (solid_stop _ Hs) in Hstop. }
  apply NextWord_found in Ew as (w & rest & E & Hw & Hstop & Hn).
  rewrite E, Hn, take_app_length, drop_app_length in Hr.
  pose proof (split_word_eval w a it1) as (H1 & H2 & H3).
  destruct (split_word _ _ w a it1) as [[rc1 a1] it2] eqn:Es. destruct (eval_word w it1) as [[rc2 vs1] it3] eqn:Ee.
  cbn [behind fst snd] in *. subst rc2 it3. destruct (Z.eqb_spec rc1 TH8_OK) as [->|]; cbn [negb] in Hr;
    [|by injection Hr as ? _ _]. specialize (H3 eq_refl). subst a1.
  destruct (IH rest (a ++ vs1) it2 vs it') as (ws & t & more & Hc & Hev & ->); [|done|].
  { assert (length z = length b + (length w + length rest))%nat as Hlen by (rewrite <- Ez, E, !length_app; lia). lia. }
  exists (w :: ws), t, (vs1 ++ more). rewrite app_assoc. split_and!; [|simpl; by rewrite Er, Ee, Hev|done].
  rewrite <- Ez, E. apply command_word; try done. by destruct w.
Qed.

(** And it reads every command. *)
Lemma Split_loop_complete z ws trailing : (∀ n, realloc_ok n = true) → command z ws trailing → zlen z < 2 ^ 60 →
  ∀ fuel a it, (length z <= fuel)%nat →
  agree (Split_loop realloc_ok alloc_ok fuel z a it) (behind a (eval_words ws trailing it)).
Proof.
  intros Hok Hc. induction Hc as [b Hb|b w rest ws trailing Hb Hne Hw Hstop Hc IH]; intros Hlen fuel a it Hf.
  - destruct (decide (b = [])) as [->|Hnb].
    { rewrite bool_decide_true by done. unfold agree, behind. cbn. rewrite app_nil_r. by destruct fuel. }
    rewrite bool_decide_false by done. cbn [negb eval_words].
    destruct fuel as [|fuel]; [destruct b; [done|simpl in Hf; lia]|].
    pose proof (NextSpace_skips (length b) b [] Hb ltac:(done)) as Hd. rewrite app_nil_r in Hd. specialize (Hd (le_n _)).
    destruct b as [|c0 b0]; [done|]. cbn [Split_loop]. destruct (word_ready it) as [rc it1].
    unfold th8NextSpace. rewrite Hd. unfold agree, behind. rewrite app_nil_r. by destruct (Z.eqb_spec rc TH8_OK) as [->|].
  - assert (solid (w ++ rest)) as Hsolid by (by eapply word_solid; [exact Hw| |apply bool_decide_eq_true_1]).
    pose proof (NextSpace_skips (length (b ++ w ++ rest)) b (w ++ rest) Hb Hsolid (le_n _)) as Hd.
    fold (th8NextSpace (b ++ w ++ rest)) in Hd.
    assert (zlen (b ++ w ++ rest) = zlen b + (zlen w + zlen rest)) as El by by rewrite !zlen_app.
    pose proof (zlen_nonneg b) as Zb. pose proof (zlen_nonneg w) as Zw. pose proof (zlen_nonneg rest) as Zr.
    assert (th8NextWord realloc_ok false (w ++ rest) = Ok (length w)) as Ew.
    { apply NextWord_word_at; [done|rewrite zlen_app; lia|]. by exists w, rest. }
    assert (length w ≠ 0)%nat as Hwl by by destruct w.
    rewrite !length_app in Hf. destruct fuel as [|fuel]; [lia|].
    destruct (b ++ w ++ rest) as [|c0 z0] eqn:Ez.
    { apply app_eq_nil in Ez as [_ [-> _]%app_eq_nil]. done. }
    cbn [Split_loop]. rewrite Hd. cbn [eval_words]. destruct (word_ready it) as [rc it1].
    destruct (Z.eqb_spec rc TH8_OK) as [->|Hrc]; cbn [negb]; [|split_and!; done].
    destruct (w ++ rest) as [|c y] eqn:Ey; [by apply app_eq_nil in Ey as [-> _]|]. rewrite Ew, <- Ey.
    destruct (length w) as [|n] eqn:En; [done|]. rewrite <- En, take_app_length, drop_app_length.
    pose proof (split_word_eval w a it1) as (H1 & H2 & H3).
    destruct (split_word _ _ w a it1) as [[rc1 a1] it2]. destruct (eval_word w it1) as [[rc2 vs1] it3].
    cbn [behind fst snd] in *. subst rc2 it3. destruct (Z.eqb_spec rc1 TH8_OK) as [->|Hrc]; cbn [negb]; [|split_and!; done].
    specialize (H3 eq_refl). subst a1. destruct (IH ltac:(lia) fuel (a ++ vs1) it2 ltac:(lia)) as (G1 & G2 & G3).
    destruct (Split_loop _ _ fuel rest _ it2) as [[rc3 a3] it4]. destruct (eval_words ws trailing it2) as [[rc4 vs4] it5].
    cbn [behind fst snd] in *. split_and!; [done..|]. intros Hrc. cbn [behind fst snd]. rewrite (G3 Hrc). by rewrite app_assoc.
Qed.

(** ** The argument vector *)

(** The vector holds the words: each at its pointer, with its length and its tags,
    and followed by a NUL inside the block.  There is none for no words. *)
Definition vector_of (v : option Argv) (ws : list word) : Prop :=
  match v with
  | None => ws = []
  | Some v =>
      ws ≠ [] ∧ argc v = zlen ws ∧ anElem v = map snd ws ∧
      ∀ i w, ws !! i = Some w →
        ∃ off : nat, azElem v !! i = Some (Z.of_nat off) ∧ TH8_LEN (snd w) = zlen (fst w) ∧
          sub off (length (fst w)) (zElem v) = fst w ∧ zElem v !! (off + length (fst w))%nat = Some 0
  end.

Lemma argv_of_vector ws : Forall tagged ws → vector_of (match ws with [] => None | _ => Some (argv_of ws) end) ws.
Proof.
  intros Ht. destruct ws as [|w0 ws]; [done|]. split_and!; [done..|].
  intros i w Hi. destruct (argv_reads (w0 :: ws) Ht i w Hi 0) as (off & H1 & H2 & H3).
  exists off. split_and!; [done| |done|done]. rewrite Forall_lookup in Ht. by apply (Ht i w Hi).
Qed.

(** C33.  th8SplitCommand lays out the values of the words of a command.  Where it
    returns TH8_OK the text is a command of the grammar, its words evaluate
    without an error, in order, and the argument vector holds their values, and
    nothing else.  Conversely, as long as there is memory for the stack of the
    scanner, it fails on a command only with the code of the first word that fails
    (or of a readiness check), or because the words do not fit in memory. *)
Theorem SplitCommand_argv (it : I) (zCmd : bytes) :
  let '(rc, v, _) := th8SplitCommand realloc_ok alloc_ok argv_ok it zCmd in
  (rc = TH8_OK →
   ∃ ws trailing values it', command zCmd ws trailing ∧
     eval_words ws trailing (set_isListMode it false) = (TH8_OK, values, it') ∧ vector_of v values) ∧
  ((∀ n, realloc_ok n = true) → zlen zCmd < 2 ^ 60 → ∀ ws trailing, command zCmd ws trailing →
   let '(rc', values, _) := eval_words ws trailing (set_isListMode it false) in
   rc' ≠ TH8_OK ∧ rc = rc' ∨
   rc' = TH8_OK ∧ (rc = TH8_OK ∧ vector_of v values ∨ rc = TH8_ERROR ∧ no_room alloc_ok argv_ok values)).
Proof.
  pose proof (SplitCommand_answers realloc_ok alloc_ok argv_ok it zCmd) as Ha. unfold Split_words in Ha.
  destruct (Split_loop _ _ _ _ [] _) as [[rc0 vs0] it1] eqn:Er.
  destruct (th8SplitCommand _ _ _ it zCmd) as [[rc v] it2]. destruct Ha as (Ht & _ & Ha). cbn [fst snd] in Ha. split.
  - intros ->. destruct (Z.eqb_spec rc0 TH8_OK) as [->|]; cbn [negb] in Ha; [|congruence].
    destruct Ha as [Ha|[Ha _]]; [|done]. injection Ha as ->.
    destruct (Split_loop_sound _ _ _ _ _ _ (le_n _) Er) as (ws & t & more & Hc & Hev & ->).
    exists ws, t, more, it1. split_and!; [done..|]. by apply argv_of_vector.
  - intros Hok Hlen ws t Hc.
    destruct (Split_loop_complete zCmd ws t Hok Hc Hlen (length zCmd) [] (set_isListMode it false) (le_n _)) as (H1 & H2 & H3).
    rewrite Er in H1, H2, H3. destruct (eval_words ws t _) as [[rc' values] it3]. cbn [behind fst snd app] in *. subst rc' it3.
    destruct (Z.eqb_spec rc0 TH8_OK) as [->|Hne]; cbn [negb] in Ha; [right|left; split; [done|congruence]].
    rewrite <- (H3 eq_refl). split; [done|].
    destruct Ha as [Ha|[Ha Hr]]; injection Ha as -> ->; [left; split; [done|by apply argv_of_vector]|by right].
Qed.
End words.

(** f {*}{a b} x[y z]$w, with a blank behind it *)
Lemma SplitCommand_argv_witness :
  ∃ ws trailing values it', command (tiny_text ++ [32]) ws trailing ∧
    eval_words grant grant ws trailing (set_isListMode tiny_init false) = (TH8_OK, values, it') ∧
    vector_of (Some (argv_of tiny_list)) values.
Proof.
  pose proof (SplitCommand_argv grant grant grant tiny_init (tiny_text ++ [32])) as Hs.
  assert (th8SplitCommand grant grant grant tiny_init (tiny_text ++ [32]) =
    (TH8_OK, Some (argv_of tiny_list), mkTiny (bytes_of_string "xy z$w", Z.lor 6 TH8_TAINT_BIT) false)) as E
    by (vm_compute; reflexivity).
  rewrite E in Hs. destruct Hs as [Hs _]. exact (Hs eq_refl).
Defined.
