(* ===== verification/Eval.v ===== *)
(** * Eval: the evaluation loop (th8EvalLocal, th8EvalIteration, th8EvalPostCmd,
    th8EvalStateCleanup, th8NRCmdDispatch, th8InvokeCommand, the callback chain
    Th8_NRAddCallback and th8RunCallbacks, th8EvalCommon and Th8_Thaw of
    src/src/th8_core.c).

    A script is evaluated by callbacks on a chain.  Evaluating pushes a cleanup
    and an iteration; an iteration scans one command, builds its arguments and
    calls it, with a post-command callback below whatever the command pushes,
    and the post-command callback pushes the next iteration.  The trampoline
    pops and runs callbacks down to a marker, and stops early when the
    interpreter is suspended, unwound or a callback yields.

    The blocks the callbacks own (the state of a script, the state of a command
    being built, argument vectors) live on an explicit heap, and using a block
    that was freed is an outcome of its own.  Commands, continuations that
    commands push, the namespace tables, variables, the policy callback and the
    cancellation state are operations of an interface.  A command reaches the
    chain only by pushing; nested evaluations that it runs to their end leave
    the chain as they found it. *)

From S2P Require Import Prelude Memory Strings Buffer Parser Script Subst Split.
From stdpp Require Export gmap infinite fin_sets.
#[local] Open Scope Z_scope.

Definition TH8_RETURN2 : Z := 5.

(** The length that says: up to the terminating NUL.  Its bits include those of
    the tags. *)
Definition TH8_NOLEN : Z := 2 ^ 64 - 1.

(** The script at an address, up to its first NUL; the bytes listed are followed
    by one.  [Th8_Strlen] is the length of what is left. *)
Definition c_script (z : bytes) : bytes := take (span (λ c, negb (c =? 0)) z) z.
Definition Th8_Strlen (z : bytes) : Z := zlen (c_script z).
Definition measured (z : bytes) : word := (c_script z, Th8_Strlen z).

(** The structures the evaluator allocates. *)
Inductive alloc_kind : Type :=
| ACallback | AEvalState | ACmdBuild
| AArgs (nAlloc : Z).    (* the arguments of an unknown handler *)

Inductive eval_error : Type :=
| ETaintedScript                       (* tainted value in context: script *)
| ETaintedName                         (* tainted value in context: command name *)
| ETooDeep                             (* TH8 recursion too deep *)
| ENoSuchCommand (zName : bytes)       (* no such command: *)
| ETooManyArguments                    (* too many arguments *)
| ENoSubCommands                       (* wrong # args: ensemble command has no subcommands *)
| ENoSuchFrame                         (* no such frame *)
| ENoUplevel.                          (* downlevel: no uplevel active *)

Inductive phase : Type := TH8_PHASE_PRE | TH8_PHASE_POST.

(** What a command or a continuation pushes: the evaluation of a script, by
    Th8_NREval, or a continuation of its own. *)
Inductive push (Client : Type) : Type :=
| PushEval (p : word) (zName : option bytes)
| PushClient (c : Client).
Arguments PushEval {Client} p zName.
Arguments PushClient {Client} c.

(** What the evaluator uses of the interpreter. *)
Class EvalInterp (I Ns Cmd Proc Client Frame : Type) `{WI : WordInterp I} : Type := {
  eval_strings :: StringInterp I;
  TH8_ALLOC : I → alloc_kind → bool * I;         (* false: no memory *)
  report_eval : I → eval_error → I;
  bResultBuildFailed : I → bool;
  set_bResultBuildFailed : I → bool → I;
  (* results and variables *)
  Th8_TakeResult : I → word * I;
  Th8_GetVar : I → bytes → Z * I;
  Th8_SetVar : I → bytes → word → I;
  (* commands; procedures answer with a code and what they pushed, top first *)
  pCurrentNs : I → Ns;
  pGlobalNs : I → Ns;
  th8FindNamespace : I → bytes → option Ns;
  find_command : I → Ns → bytes → option Cmd;
  find_subcommand : I → Cmd → bytes → option Proc;
  has_subcommands : I → Cmd → bool;
  xProc : I → Cmd → option Proc;
  call_proc : I → Proc → list word → Z * list (push Client) * I;
  th8EnsembleError : I → Cmd → list word → Z * I;
  call_client : I → Client → Z → Z * list (push Client) * I;
  (* the policy callback; without one the code is TH8_OK *)
  xPolicyCb : I → phase → option bytes → bytes → Z → Z → Z * I;
  th8DrainPendingDeletes : I → I;
  (* call frames, innermost first *)
  frames : I → list Frame;
  set_pFrame : I → Frame → I;
  pDownlevelFrame : I → option Frame;
  set_pDownlevelFrame : I → option Frame → I;
  frame_ns : I → Frame → option Ns;
  set_pCurrentNs : I → Ns → I;
  (* cancellation and suspension *)
  th8MemBarrier : I → I;
  th8CheckCancel : I → bool;
  Th8_IsBeingUnwound : I → bool * I;
  Th8_IsCanceled : I → Z * I;
  th8ClearCancel : I → I;
  Th8_IsSuspended : I → bool;
  set_bSuspended : I → bool → I
}.

(** ** Data *)

(** The state of a script: what is left of it from [zInput] on, and from the
    start of the current command on. *)
Record Th8_EvalState : Type := mkEvalState {
  zProgram : bytes; zInput : bytes; zFirst : bytes;
  nSavedLine : Z; flags : Z; zName : option bytes
}.

(** A block: its number. *)
Abbreviation blk := nat (only parsing).

Inductive callback (Client : Type) : Type :=
| CbEvalIteration (pState : blk)
| CbEvalStateCleanup (pState : blk)
| CbEvalPostCmd (pState argv : blk) (azNew : option blk)
| CbNRCmdDispatch (pBuild pState : blk)
| CbNRCmdSubstDone (pBuild : blk)
| CbNREval (p : word) (zName : option bytes)
| CbClient (c : Client).
Arguments CbEvalIteration {Client} pState.
Arguments CbEvalStateCleanup {Client} pState.
Arguments CbEvalPostCmd {Client} pState argv azNew.
Arguments CbNRCmdDispatch {Client} pBuild pState.
Arguments CbNRCmdSubstDone {Client} pBuild.
Arguments CbNREval {Client} p zName.
Arguments CbClient {Client} c.

Inductive block (I : Type) : Type :=
| BState (s : Th8_EvalState)
| BBuild (b : Th8_CmdBuild (I := I) (A := words)) (wasListMode : bool) (pState : blk)
| BArgv (v : Argv)
| BWrapper (args : list word).     (* the arguments of an unknown handler *)
Arguments BState {I} s.
Arguments BBuild {I} b wasListMode pState.
Arguments BArgv {I} v.
Arguments BWrapper {I} args.

Inductive fault : Type := UseAfterFree | ReadPastEnd | OutOfFuel.

(** The counters of the interpreter, with the rest of it. *)
Record Th8_Interp (I Frame : Type) : Type := mkInterp {
  nEvalDepth : Z; nLine : Z; nErrorLine : Z; bInUnknown : bool;
  pSavedFrame : option Frame; it : I
}.
Arguments mkInterp {I Frame}.
Arguments nEvalDepth {I Frame}.
Arguments nLine {I Frame}.
Arguments nErrorLine {I Frame}.
Arguments bInUnknown {I Frame}.
Arguments pSavedFrame {I Frame}.
Arguments it {I Frame}.

Record machine (I Client Frame : Type) : Type := mkMachine {
  pCallbacks : list (callback Client);
  pSuspendedCallbacks : list (callback Client);
  heap : gmap blk (block I);
  interp : Th8_Interp I Frame
}.
Arguments mkMachine {I Client Frame}.
Arguments pCallbacks {I Client Frame}.
Arguments pSuspendedCallbacks {I Client Frame}.
Arguments heap {I Client Frame}.
Arguments interp {I Client Frame}.

Section setters.
Context {I Client Frame : Type}.

Definition with_it (r : Th8_Interp I Frame) (i : I) :=
  mkInterp (nEvalDepth r) (nLine r) (nErrorLine r) (bInUnknown r) (pSavedFrame r) i.
Definition with_depth (r : Th8_Interp I Frame) (d : Z) :=
  mkInterp d (nLine r) (nErrorLine r) (bInUnknown r) (pSavedFrame r) (it r).
Definition with_line (r : Th8_Interp I Frame) (l : Z) :=
  mkInterp (nEvalDepth r) l (nErrorLine r) (bInUnknown r) (pSavedFrame r) (it r).
Definition with_error_line (r : Th8_Interp I Frame) (l : Z) :=
  mkInterp (nEvalDepth r) (nLine r) l (bInUnknown r) (pSavedFrame r) (it r).
Definition with_unknown (r : Th8_Interp I Frame) (b : bool) :=
  mkInterp (nEvalDepth r) (nLine r) (nErrorLine r) b (pSavedFrame r) (it r).
Definition with_frame (r : Th8_Interp I Frame) (f : option Frame) :=
  mkInterp (nEvalDepth r) (nLine r) (nErrorLine r) (bInUnknown r) f (it r).

Definition with_interp (m : machine I Client Frame) (r : Th8_Interp I Frame) :=
  mkMachine (pCallbacks m) (pSuspendedCallbacks m) (heap m) r.
Definition with_chain (m : machine I Client Frame) (c : list (callback Client)) :=
  mkMachine c (pSuspendedCallbacks m) (heap m) (interp m).
Definition with_suspended (m : machine I Client Frame) (c : list (callback Client)) :=
  mkMachine (pCallbacks m) c (heap m) (interp m).
Definition with_heap (m : machine I Client Frame) (h : gmap blk (block I)) :=
  mkMachine (pCallbacks m) (pSuspendedCallbacks m) h (interp m).

Definition set_it (m : machine I Client Frame) (i : I) := with_interp m (with_it (interp m) i).

(** ** The heap *)

Definition alloc_block (m : machine I Client Frame) (b : block I) : blk * machine I Client Frame :=
  let k := fresh (dom (heap m) : gset nat) in (k, with_heap m (<[k := b]> (heap m))).

(** Th8_Free. *)
Definition free_block (m : machine I Client Frame) (k : blk)
    : res fault (machine I Client Frame) :=
  match heap m !! k with
  | Some _ => Ok (with_heap m (delete k (heap m)))
  | None => Err UseAfterFree
  end.

Definition the_state (m : machine I Client Frame) (k : blk) : res fault Th8_EvalState :=
  match heap m !! k with Some (BState s) => Ok s | _ => Err UseAfterFree end.
End setters.

Section eval.
Context {I Ns Cmd Proc Client Frame : Type} `{SI : SubstInterp I} `{WI : !WordInterp I}
  `{EI : !EvalInterp I Ns Cmd Proc Client Frame}.
(** Whether the scanner's stack, a word buffer and an argument vector can be
    allocated. *)
Context (realloc_ok alloc_ok argv_ok : Z → bool).

#[local] Abbreviation Th8_Interp := (Th8_Interp I Frame).
#[local] Abbreviation machine := (machine I Client Frame).
#[local] Abbreviation callback := (callback Client).

(** ** The callback chain *)

Definition Th8_NRAddCallback (cb : callback) (m : machine) : Z * machine :=
  let '(ok, i) := TH8_ALLOC (it (interp m)) ACallback in
  if ok then (TH8_OK, with_chain (set_it m i) (cb :: pCallbacks m))
  else (TH8_ERROR, set_it m (set_out_of_memory (set_bResultBuildFailed i true))).

(** The script that Th8_NREval schedules. *)
Definition scheduled (p : word) : word := if snd p =? TH8_NOLEN then measured (fst p) else p.

Definition Th8_NREval (p : word) (zName : option bytes) (m : machine) : Z * machine :=
  Th8_NRAddCallback (CbNREval (scheduled p) zName) m.

(** The chain under what a procedure pushed. *)
Definition of_push (p : push Client) : callback :=
  match p with PushEval p zName => CbNREval (scheduled p) zName | PushClient c => CbClient c end.

Definition push_all (ps : list (push Client)) (m : machine) : machine :=
  with_chain m (map of_push ps ++ pCallbacks m).

(** ** The error trace *)

Definition plain_word_of (z : bytes) : word := (z, zlen z).
Definition errorInfo : bytes := bytes_of_string "::errorInfo".
Definition executing : bytes :=
  NEWLINE :: bytes_of_string "    while executing" ++ [NEWLINE; DQUOTE].
Definition invoked_from : bytes :=
  NEWLINE :: bytes_of_string "    invoked from within" ++ [NEWLINE; DQUOTE].

(** The text of the current command, at most 150 bytes of it. *)
Definition command_text (s : Th8_EvalState) : bytes :=
  take (length (zFirst s) - length (zInput s)) (zFirst s).
Definition traced_command (s : Th8_EvalState) : list word :=
  [plain_word_of (take 150 (command_text s)); plain_word_of [DQUOTE]].

Definition publish_trace (i : I) (zRes : word) (info : option word) : bool * I :=
  match info with
  | Some info =>
      let i := Th8_SetVar i errorInfo info in
      (true, snd (Th8_SetResult i (fst zRes) (snd zRes)))
  | None => (false, i)
  end.

(** A word failed to substitute; false when the trace ran out of memory. *)
Definition trace_words (i : I) (s : Th8_EvalState) : bool * I :=
  let '(zRes, i) := Th8_TakeResult i in
  let '(info, i) := append_all i ([], 0) (plain_word_of executing :: traced_command s) in
  publish_trace i zRes info.

(** A command failed.  The line of the error is recorded unless an inner
    command recorded it. *)
Definition trace_command (r : Th8_Interp) (s : Th8_EvalState) : bool * Th8_Interp :=
  let '(zRes, i) := Th8_TakeResult (it r) in
  let '(rc, i) := Th8_GetVar i errorInfo in
  let zOld := if rc =? TH8_OK then Th8_GetResult i else ([], 0) in
  let bInnerError := (rc =? TH8_OK) && (0 <? snd zOld) in
  let '(info, i) := if rc =? TH8_OK then Th8_StringAppend i ([], 0) zOld else (Some ([], 0), i) in
  match info with
  | None => (false, with_it r i)
  | Some info =>
      let r := if bInnerError then r else with_error_line r (nLine r) in
      let pieces := if bInnerError then [plain_word_of invoked_from]
                    else [zRes; plain_word_of executing] in
      let '(info, i) := append_all i info (pieces ++ traced_command s) in
      let '(ok, i) := publish_trace i zRes info in
      (ok, with_it r i)
  end.

(** ** Calling a command *)

(** The position of the last double colon. *)
Fixpoint last_separator (z : bytes) (i : nat) (found : option nat) : option nat :=
  match z with
  | c :: ((d :: _) as z') =>
      last_separator z' (S i) (if (c =? ":"%ch) && (d =? ":"%ch) then Some i else found)
  | _ => found
  end.

(** Back to the first colon of a run. *)
Fixpoint run_start (z : bytes) (nLast : nat) : nat :=
  match nLast with
  | S n => if nth n z 0 =? ":"%ch then run_start z n else nLast
  | O => O
  end.

(** The namespace part, if there is one, and the tail. *)
Definition th8SplitQualName (z : bytes) : option bytes * bytes :=
  match last_separator z 0 None with
  | Some nLast => let n := run_start z nLast in (Some (take n z), drop (n + 2) z)
  | None => (None, z)
  end.

(** A qualified name is looked up in its namespace only, a simple one in the
    current namespace and then in the global one. *)
Definition lookup_command (i : I) (z : bytes) : option Cmd :=
  match th8SplitQualName z with
  | (Some zNs, zTail) => pNs ← th8FindNamespace i zNs; find_command i pNs zTail
  | (None, _) =>
      match find_command i (pCurrentNs i) z with
      | Some pCmd => Some pCmd
      | None => find_command i (pGlobalNs i) z
      end
  end.

(** A matching subcommand wins over the command's own procedure.  A result that
    could not be built is an error. *)
Definition th8InvokeCommand (i : I) (pCmd : Cmd) (args : list word) : Z * list (push Client) * I :=
  let savedBuildFailed := bResultBuildFailed i in
  let i := set_bResultBuildFailed i false in
  let own :=
    match xProc i pCmd with
    | Some p => call_proc i p args
    | None =>
        if has_subcommands i pCmd then let '(rc, i) := th8EnsembleError i pCmd args in (rc, [], i)
        else (TH8_ERROR, [], report_eval i ENoSubCommands)
    end in
  let '(rc, ps, i) :=
    match args with
    | _ :: sub :: _ =>
        match find_subcommand i pCmd (fst sub) with Some p => call_proc i p args | None => own end
    | _ => own
    end in
  let carries := (rc =? TH8_OK) || (rc =? TH8_RETURN) || (rc =? TH8_RETURN2) in
  let '(rc, i) :=
    if carries && bResultBuildFailed i then (TH8_ERROR, set_out_of_memory i) else (rc, i) in
  (rc, ps, set_bResultBuildFailed i savedBuildFailed).

(** The argument at its pointer, with its tagged length. *)
Definition argv_words (v : Argv) : list word :=
  zip_with (λ off n, (sub (Z.to_nat off) (Z.to_nat (TH8_LEN n)) (zElem v), n)) (azElem v) (anElem v).

(** The size of the arguments of an unknown handler, [None] on overflow. *)
Definition wrapper_size (nNew : Z) : option Z :=
  u1 ← mul_size 8 nNew;
  u2 ← mul_size 8 nNew;
  add_size u1 u2.

Definition unknown_name : bytes := bytes_of_string "unknown".

(** What becomes of an argument vector, up to the call. *)
Inductive call_plan : Type :=
| PlanFail (rc : Z)                             (* no call *)
| PlanDrop                                      (* no memory for a wrapper *)
| PlanUnknown (pCmd : Cmd) (args : list word)   (* the unknown handler, with its arguments *)
| PlanCall (pCmd : Cmd).

Definition plan_call (r : Th8_Interp) (args : list word) : call_plan * Th8_Interp :=
  let i := it r in
  let '(zName, nName) := default ([], 0) (head args) in
  if TH8_TAINTED nName then (PlanFail TH8_ERROR, with_it r (report_eval i ETaintedName))
  else
    match lookup_command i zName with
    | Some pCmd =>
        let '(rc, i) := Th8_Ready i in
        (if rc =? TH8_OK then PlanCall pCmd else PlanFail rc, with_it r i)
    | None =>
        match (if bInUnknown r then None else find_command i (pGlobalNs i) unknown_name) with
        | None => (PlanFail TH8_ERROR, with_it r (report_eval i (ENoSuchCommand zName)))
        | Some pUnk =>
            match wrapper_size (zlen args + 1) with
            | None => (PlanDrop, with_it r (report_eval i ETooManyArguments))
            | Some nAlloc =>
                let '(ok, i) := TH8_ALLOC i (AArgs nAlloc) in
                if ok then (PlanUnknown pUnk ((unknown_name, 7) :: args), with_it r i)
                else (PlanDrop, with_it r (set_out_of_memory i))
            end
        end
    end.

(** The command runs, with its pushes on the chain. *)
Definition invoke (pCmd : Cmd) (args : list word) (m : machine) : Z * machine :=
  let '(rc, ps, i) := th8InvokeCommand (it (interp m)) pCmd args in
  (rc, push_all ps (set_it m i)).

(** The second half of th8EvalIteration and of th8NRCmdDispatch, the same code:
    the argument vector [argv] is owned by the post-command callback, which is
    pushed below what the command pushes.  Whether it could be pushed is not
    looked at. *)
Definition dispatch (pState argv : blk) (args : list word) (m : machine)
    : res fault (Z * machine) :=
  let '(plan, r) := plan_call (interp m) args in
  let m := with_interp m r in
  match plan with
  | PlanFail rc => Ok (rc, snd (Th8_NRAddCallback (CbEvalPostCmd pState argv None) m))
  | PlanDrop => (let* m := free_block m argv in Ok (TH8_ERROR, m))%res
  | PlanUnknown pUnk args =>
      let '(azNew, m) := alloc_block m (BWrapper args) in
      let m := snd (Th8_NRAddCallback (CbEvalPostCmd pState argv (Some azNew)) m) in
      let m := with_interp m (with_unknown (interp m) true) in
      Ok (invoke pUnk args m)
  | PlanCall pCmd =>
      Ok (invoke pCmd args (snd (Th8_NRAddCallback (CbEvalPostCmd pState argv None) m)))
  end.

(** ** The callbacks of a script *)

(** The depth and the line go back; deletions deferred while a script ran are
    made when none is running any more. *)
Definition leave_eval (r : Th8_Interp) (nSavedLine : Z) : Th8_Interp :=
  let d := nEvalDepth r - 1 in
  let i := if d =? 0 then th8DrainPendingDeletes (it r) else it r in
  mkInterp d nSavedLine (nErrorLine r) (bInUnknown r) (pSavedFrame r) i.

Definition th8EvalStateCleanup (pState : blk) (rc : Z) (m : machine) : res fault (Z * machine) :=
  (let* s := the_state m pState in
   let i := snd (xPolicyCb (it (interp m)) TH8_PHASE_POST (zName s) (zProgram s) (flags s) rc) in
   let m := with_interp m (leave_eval (with_it (interp m) i) (nSavedLine s)) in
   let* m := free_block m pState in
   Ok (rc, m))%res.

Definition th8EvalPostCmd (pState argv : blk) (azNew : option blk) (rc : Z) (m : machine)
    : res fault (Z * machine) :=
  (let* m :=
     match azNew with
     | Some k => free_block (with_interp m (with_unknown (interp m) false)) k
     | None => Ok m
     end in
   let* m := free_block m argv in
   if rc =? TH8_ERROR then
     let* s := the_state m pState in
     let '(_, r) := trace_command (interp m) s in
     Ok (TH8_ERROR, with_interp m r)
   else if rc =? TH8_OK then
     Ok (TH8_OK, snd (Th8_NRAddCallback (CbEvalIteration pState) m))
   else Ok (rc, m))%res.

(** ** Building a command across nested scripts *)

(** Whether a nested command may have to run. *)
Definition th8CmdHasBracket (z : bytes) : bool := existsb (λ c, c =? "["%ch) z.

#[local] Abbreviation Build := (Th8_CmdBuild (I := I) (A := words)).

(** Store the state of the build, and push what th8NRSubstAndBuild pushed: the
    continuation, and above it the nested script. *)
Definition keep_build (pBuild : blk) (wasListMode : bool) (pState : blk)
    (o : outcome (I := I) (A := words)) (m : machine) : res fault (Z * machine) :=
  let '(rc, zScript, b, i) := o in
  let m := set_it (with_heap m (<[pBuild := BBuild b wasListMode pState]> (heap m))) i in
  match zScript with
  | None => Ok (rc, m)
  | Some z =>
      (let* s := the_state m pState in
       let m := snd (Th8_NRAddCallback (CbNRCmdSubstDone pBuild) m) in
       let m := snd (Th8_NREval (plain_word_of z) (zName s) m) in
       Ok (rc, m))%res
  end.

Definition the_build (m : machine) (k : blk) : res fault (Build * bool * blk) :=
  match heap m !! k with Some (BBuild b l s) => Ok (b, l, s) | _ => Err UseAfterFree end.

Definition NRCmdSubstDone (pBuild : blk) (rc : Z) (m : machine) : res fault (Z * machine) :=
  if negb (rc =? TH8_OK) then Ok (rc, m)
  else
    (let* (b, l, pState) := the_build m pBuild in
     keep_build pBuild l pState
       (th8NRCmdSubstDone realloc_ok alloc_ok (WS := words_store alloc_ok) b rc (it (interp m))) m)%res.

Definition th8NRCmdDispatch (pBuild pState : blk) (rc : Z) (m : machine)
    : res fault (Z * machine) :=
  (let* (b, wasListMode, _) := the_build m pBuild in
   let th8FreeCmdBuild i := set_isListMode i wasListMode in
   if negb (rc =? TH8_OK) then
     let* (rc, r) :=
       if rc =? TH8_ERROR then
         let* s := the_state m pState in
         let '(_, i) := trace_words (it (interp m)) s in
         Ok (TH8_ERROR, with_error_line (with_it (interp m) i) (nLine (interp m)))
       else Ok (rc, interp m) in
     let* m := free_block (with_interp m (with_it r (th8FreeCmdBuild (it r)))) pBuild in
     Ok (rc, m)
   else
     let '(rc, argv, i) := finish_build argv_ok th8FreeCmdBuild (acc b) (it (interp m)) in
     let* m := free_block (set_it m i) pBuild in
     match argv with
     | None =>
         if rc =? TH8_OK then Ok (rc, snd (Th8_NRAddCallback (CbEvalIteration pState) m))
         else Ok (rc, m)
     | Some v =>
         let '(k, m) := alloc_block m (BArgv v) in dispatch pState k (argv_words v) m
     end)%res.

(** ** One command of a script *)

(** The state after the scan: where the command starts and ends. *)
Definition at_command (s : Th8_EvalState) (zFirst zInput : bytes) : Th8_EvalState :=
  mkEvalState (zProgram s) zInput zFirst (nSavedLine s) (flags s) (zName s).

Definition set_state (m : machine) (k : blk) (s : Th8_EvalState) : machine :=
  with_heap m (<[k := BState s]> (heap m)).

(** The words of a command without brackets, split at once.  A suspension
    rewinds to the start of the command. *)
Definition eval_words (pState : blk) (s : Th8_EvalState) (m : machine) : res fault (Z * machine) :=
  let '(rc, argv, i) := th8SplitCommand realloc_ok alloc_ok argv_ok (it (interp m)) (command_text s) in
  let m := set_it m i in
  if rc =? TH8_SUSPEND then
    let m := set_state m pState (at_command s (zFirst s) (zFirst s)) in
    let '(rc, m) := Th8_NRAddCallback (CbEvalIteration pState) m in
    Ok (if rc =? TH8_OK then TH8_SUSPEND else TH8_ERROR, m)
  else if rc =? TH8_YIELD then Ok (rc, m)
  else if negb (rc =? TH8_OK) then
    let '(ok, i) := trace_words (it (interp m)) s in
    let r := with_error_line (with_it (interp m) i) (nLine (interp m)) in
    Ok (if ok then rc else TH8_ERROR, with_interp m r)
  else
    match argv with
    | None => Ok (TH8_OK, snd (Th8_NRAddCallback (CbEvalIteration pState) m))
    | Some v =>
        let '(k, m) := alloc_block m (BArgv v) in dispatch pState k (argv_words v) m
    end.

(** The words of a command with brackets, built across the nested scripts. *)
Definition eval_build (pState : blk) (s : Th8_EvalState) (m : machine) : res fault (Z * machine) :=
  let '(ok, i) := TH8_ALLOC (it (interp m)) ACmdBuild in
  if ok then
    let wasListMode := isListMode i in
    let b := build_init words_init (command_text s) in
    let '(pBuild, m) := alloc_block (set_it m (set_isListMode i false)) (BBuild b wasListMode pState) in
    let m := snd (Th8_NRAddCallback (CbNRCmdDispatch pBuild pState) m) in
    keep_build pBuild wasListMode pState
      (th8NRSubstAndBuild realloc_ok alloc_ok (WS := words_store alloc_ok) b (it (interp m))) m
  else Ok (TH8_ERROR, set_it m (set_out_of_memory i)).

Definition th8EvalIteration (pState : blk) (rc : Z) (m : machine) : res fault (Z * machine) :=
  if negb (rc =? TH8_OK) then Ok (rc, m)
  else
    (let* s := the_state m pState in
     match next_command realloc_ok (zInput s) (nLine (interp m)) with
     | Exhausted l =>
         Ok (TH8_OK, with_interp (set_state m pState (at_command s (zFirst s) [])) (with_line (interp m) l))
     | ScanFailed e zFirst l =>
         let m := set_state m pState (at_command s zFirst []) in
         Ok (TH8_ERROR, with_interp m (with_it (with_line (interp m) l)
                                        (Th8_ErrorMessage (it (interp m)) e)))
     | ScanOverread => Err ReadPastEnd
     | Command zFirst zInput l =>
         let s := at_command s zFirst zInput in
         let m := with_interp (set_state m pState s) (with_line (interp m) l) in
         if th8CmdHasBracket (command_text s) then eval_build pState s m else eval_words pState s m
     end)%res.

(** ** The start of a script *)

Definition th8EvalLocal (p : word) (zName : option bytes) (flags : Z) (m : machine) : Z * machine :=
  let r := interp m in
  if TH8_TAINTED (snd p) then (TH8_ERROR, set_it m (report_eval (it r) ETaintedScript))
  else if 1000 <? nEvalDepth r then (TH8_ERROR, set_it m (report_eval (it r) ETooDeep))
  else
    let '(rc, i) := Th8_Ready (it r) in
    if rc =? TH8_SUSPEND then (TH8_SUSPEND, set_it m i)
    else if negb (rc =? TH8_OK) then (TH8_ERROR, set_it m i)
    else
      let '(rc, i) := xPolicyCb i TH8_PHASE_PRE zName (fst p) flags TH8_OK in
      let r' := mkInterp (nEvalDepth r + 1) 1 (nErrorLine r) (bInUnknown r) (pSavedFrame r) i in
      if negb (rc =? TH8_OK) then (rc, with_interp m (leave_eval r' (nLine r)))
      else
        let '(ok, i) := TH8_ALLOC i AEvalState in
        let m := with_interp m (with_it r' i) in
        if negb ok then (TH8_ERROR, set_it m (set_out_of_memory i))
        else
          let s := mkEvalState (fst p) (fst p) (fst p) (nLine r) flags zName in
          let '(k, m) := alloc_block m (BState s) in
          let '(rc, m) := Th8_NRAddCallback (CbEvalStateCleanup k) m in
          if negb (rc =? TH8_OK) then
            (TH8_ERROR, with_heap (with_interp m (leave_eval (interp m) (nLine r)))
                          (delete k (heap m)))
          else
            let '(rc, m) := Th8_NRAddCallback (CbEvalIteration k) m in
            (if rc =? TH8_OK then TH8_OK else TH8_ERROR, m).

(** ** The trampoline *)

Definition run_callback (cb : callback) (rc : Z) (m : machine) : res fault (Z * machine) :=
  match cb with
  | CbEvalIteration s => th8EvalIteration s rc m
  | CbEvalStateCleanup s => th8EvalStateCleanup s rc m
  | CbEvalPostCmd s argv azNew => th8EvalPostCmd s argv azNew rc m
  | CbNRCmdDispatch b s => th8NRCmdDispatch b s rc m
  | CbNRCmdSubstDone b => NRCmdSubstDone b rc m
  | CbNREval p zName => Ok (th8EvalLocal p zName 0 m)
  | CbClient c =>
      let '(rc, ps, i) := call_client (it (interp m)) c rc in Ok (rc, push_all ps (set_it m i))
  end.

(** What the trampoline finds before it pops a callback: the chain above the
    marker is to be discarded, or kept, or the next callback runs. *)
Inductive poll_result : Type :=
| PollUnwind (rc : Z) (i : I)
| PollSuspend (i : I)
| PollRun (rc : Z) (i : I).

Definition poll (rc : Z) (i : I) : poll_result :=
  let i := th8MemBarrier i in
  let go rc i := if Th8_IsSuspended i then PollSuspend i else PollRun rc i in
  if th8CheckCancel i then
    let '(unwound, i) := Th8_IsBeingUnwound i in
    let '(rc, i) := Th8_IsCanceled i in
    if unwound then PollUnwind rc i else go rc (th8ClearCancel i)
  else go rc i.

(** [bottom] is the length of the chain from the stop marker on. *)
Fixpoint th8RunCallbacks (fuel bottom : nat) (rc : Z) (m : machine) : res fault (Z * machine) :=
  if (length (pCallbacks m) =? bottom)%nat then Ok (rc, m)
  else
    match fuel, pCallbacks m with
    | O, _ | _, [] => Err OutOfFuel
    | S fuel', cb :: chain =>
        match poll rc (it (interp m)) with
        | PollUnwind rc i =>
            Ok (rc, with_chain (set_it m i) (drop (length (pCallbacks m) - bottom) (pCallbacks m)))
        | PollSuspend i => Ok (TH8_SUSPEND, set_it m i)
        | PollRun rc i =>
            (let* (rc, m) := run_callback cb rc (with_chain (set_it m i) chain) in
             if rc =? TH8_YIELD then Ok (rc, m) else th8RunCallbacks fuel' bottom rc m)%res
        end
    end.

(** ** Th8_Eval *)

(** The frame an index names: counted from the global frame when positive, from
    the current one when negative. *)
Definition target_frame (fs : list Frame) (iFrame : Z) : option Frame :=
  let iFrame := if 0 <? iFrame then - zlen fs + iFrame else iFrame in
  fs !! Z.to_nat (- iFrame).

Definition interrupted (rc : Z) : bool := (rc =? TH8_SUSPEND) || (rc =? TH8_YIELD).

(** The callbacks above the marker move to the suspended chain, whatever was on
    it. *)
Definition detach (bottom : nat) (pSaved : option Frame) (m : machine) : machine :=
  let n := (length (pCallbacks m) - bottom)%nat in
  mkMachine (drop n (pCallbacks m)) (take n (pCallbacks m)) (heap m) (with_frame (interp m) pSaved).

Definition set_frame (i : I) (f : option Frame) : I :=
  match f with Some f => set_pFrame i f | None => i end.

(** The end of an evaluation, on the counters: the frame, a cancellation, the
    code of a return at the outermost level, a result that was not built. *)
Definition finish_eval (iFrame nSavedDepth : Z) (pSaved : option Frame) (savedBuildFailed : bool)
    (rc : Z) (r : Th8_Interp) : Z * Th8_Interp :=
  let i := it r in
  let i := if interrupted rc then i
           else set_frame (if negb (iFrame =? 0) then set_pDownlevelFrame i None else i) pSaved in
  let i := th8MemBarrier i in
  let canceled := th8CheckCancel i in
  let i := if canceled && (nSavedDepth =? 0) then th8ClearCancel i else i in
  let r := if canceled then with_depth r nSavedDepth else r in
  let rc := if (rc =? TH8_RETURN) && (nSavedDepth =? 0) then TH8_OK else rc in
  let '(rc, i) := if (rc =? TH8_OK) && bResultBuildFailed i then (TH8_ERROR, set_out_of_memory i)
                  else (rc, i) in
  (rc, with_it r (set_bResultBuildFailed i savedBuildFailed)).

Definition th8EvalCommon (fuel : nat) (iFrame : Z) (p : word) (zName : option bytes) (flags : Z)
    (m : machine) : res fault (Z * machine) :=
  let i := it (interp m) in
  let pSaved := head (frames i) in
  let nSavedDepth := nEvalDepth (interp m) in
  let input := if snd p =? TH8_NOLEN then measured (fst p)
               else (fst p, Z.lor (TH8_LEN (snd p)) (Z.land (snd p) TH8_TAG_BITS)) in
  let target := if iFrame =? 0 then Some i
                else pTarget ← target_frame (frames i) iFrame;
                     Some (set_pFrame (set_pDownlevelFrame i pSaved) pTarget) in
  match target with
  | None => Ok (TH8_ERROR, set_it m (report_eval i ENoSuchFrame))
  | Some i =>
      let bottom := length (pCallbacks m) in
      let savedBuildFailed := bResultBuildFailed i in
      let m := set_it m (set_bResultBuildFailed i false) in
      let '(rc, m) := th8EvalLocal input zName flags m in
      (let* (rc, m) := th8RunCallbacks fuel bottom rc m in
       let m := if interrupted rc && negb (length (pCallbacks m) =? bottom)%nat
                then detach bottom pSaved m else m in
       let '(rc, r) := finish_eval iFrame nSavedDepth pSaved savedBuildFailed rc (interp m) in
       Ok (rc, with_interp m r))%res
  end.

Definition Th8_Eval (fuel : nat) (iFrame : Z) (p : word) (zName : option bytes) (m : machine) :=
  th8EvalCommon fuel iFrame p zName 0 m.

Definition TH8_EVAL_TRUSTED : Z := 1.
Definition Th8_EvalTrusted (fuel : nat) (iFrame : Z) (p : word) (zName : option bytes) (m : machine) :=
  th8EvalCommon fuel iFrame p zName TH8_EVAL_TRUSTED m.

(** The script runs in the frame an uplevel departed from, with its
    namespace. *)
Definition Th8_EvalDownlevel (fuel : nat) (p : word) (zName : option bytes) (m : machine)
    : res fault (Z * machine) :=
  let i := it (interp m) in
  match pDownlevelFrame i with
  | None => Ok (TH8_ERROR, set_it m (report_eval i ENoUplevel))
  | Some pTarget =>
      let pSaved := head (frames i) in
      let i := set_pFrame i pTarget in
      let pSavedNs := pCurrentNs i in
      let i := match frame_ns i pTarget with Some pNs => set_pCurrentNs i pNs | None => i end in
      let bottom := length (pCallbacks m) in
      let input := if snd p =? TH8_NOLEN then measured (fst p) else (fst p, TH8_LEN (snd p)) in
      let '(rc, m) := th8EvalLocal input zName 0 (set_it m i) in
      (let* (rc, m) := th8RunCallbacks fuel bottom rc m in
       Ok (rc, set_it m (set_frame (set_pCurrentNs (it (interp m)) pSavedNs) pSaved)))%res
  end.

(** The event queues that are signalled are not part of the model. *)
Definition Th8_Freeze (m : machine) : Z * machine :=
  (TH8_OK, set_it m (th8MemBarrier (set_bSuspended (it (interp m)) true))).

Definition Th8_Thaw (fuel : nat) (m : machine) : res fault (Z * machine) :=
  let m := set_it m (th8MemBarrier (set_bSuspended (it (interp m)) false)) in
  match pSuspendedCallbacks m with
  | [] => Ok (TH8_OK, m)
  | cbs =>
      let pSaved := pCallbacks m in
      (let* (rc, m) := th8RunCallbacks fuel 0 TH8_OK (with_suspended (with_chain m cbs) []) in
       let m := with_chain m pSaved in
       let r := interp m in
       Ok (rc, with_interp m (with_frame (with_it r (set_frame (it r) (pSavedFrame r))) None)))%res
  end.

Definition th8EvalTrampoline (fuel : nat) (m : machine) : res fault (Z * machine) :=
  th8RunCallbacks fuel 0 TH8_OK m.
End eval.
