(* ===== verification/EvalSafety.v ===== *)
(** * EvalSafety: the blocks of the evaluator (Eval) are never used after they
    are freed.

    A chain of callbacks is in order with respect to the live blocks when every
    callback finds the blocks it uses, after the callbacks above it freed the
    blocks they own.  Every step of the trampoline keeps a chain in order and
    leaves all other blocks alone, whatever fails on the way. *)

From S2P Require Import Prelude Memory Strings Script Subst Split Eval.
#[local] Open Scope Z_scope.

(** ** Kinds of blocks *)

Inductive kind : Type := KState | KBuild (pState : blk) | KArgv | KWrapper.

#[export] Instance kind_eq_dec : EqDecision kind.
Proof. solve_decision. Defined.

Definition kind_of {I} (b : block I) : kind :=
  match b with
  | BState _ => KState | BBuild _ _ s => KBuild s | BArgv _ => KArgv | BWrapper _ => KWrapper
  end.

Section ownership.
Context {Client : Type}.

Abbreviation kinds := (gmap nat kind).

(** The callback uses blocks of the right kinds. *)
Definition refs_ok (K : kinds) (cb : callback Client) : Prop :=
  match cb with
  | CbEvalIteration s | CbEvalStateCleanup s => K !! s = Some KState
  | CbEvalPostCmd s a az =>
      K !! s = Some KState ∧ K !! a = Some KArgv ∧
      match az with Some w => K !! w = Some KWrapper | None => True end
  | CbNRCmdDispatch b s => K !! b = Some (KBuild s) ∧ K !! s = Some KState
  | CbNRCmdSubstDone b => ∃ s, K !! b = Some (KBuild s) ∧ K !! s = Some KState
  | CbNREval _ _ | CbClient _ => True
  end.

(** What is left of the blocks when the callback is done with its own. *)
Definition frees (cb : callback Client) (K : kinds) : kinds :=
  match cb with
  | CbEvalStateCleanup s => delete s K
  | CbEvalPostCmd _ a az => match az with Some w => delete a (delete w K) | None => delete a K end
  | CbNRCmdDispatch b _ => delete b K
  | _ => K
  end.

Fixpoint chain_ok (K : kinds) (cbs : list (callback Client)) : Prop :=
  match cbs with
  | [] => True
  | cb :: cbs => refs_ok K cb ∧ chain_ok (frees cb K) cbs
  end.

Lemma refs_ok_mono K K' cb : K ⊆ K' → refs_ok K cb → refs_ok K' cb.
Proof.
  intros Hs. destruct cb as [s|s|s a [w|]|b s|b| |]; simpl; intros H;
    destruct_and?; try destruct H as (? & ? & ?);
    split_and?; try done; try (by eapply lookup_weaken); eauto using lookup_weaken.
Qed.

Lemma frees_mono K K' cb : K ⊆ K' → frees cb K ⊆ frees cb K'.
Proof.
  intros Hs. destruct cb as [s|s|s a [w|]|b s|b| |]; simpl; repeat apply delete_mono; done.
Qed.

Lemma chain_ok_mono cbs : ∀ K K', K ⊆ K' → chain_ok K cbs → chain_ok K' cbs.
Proof.
  induction cbs as [|cb cbs IH]; intros K K' Hs; simpl; [done|].
  intros [H1 H2]. split; [by eapply refs_ok_mono|]. eapply IH, H2. by apply frees_mono.
Qed.

Lemma frees_sub cb K : frees cb K ⊆ K.
Proof.
  destruct cb as [s|s|s a [w|]|b s|b| |]; simpl; try done;
    repeat (etrans; [apply delete_subseteq|]); done.
Qed.
End ownership.

Definition cleanup {Client} (cb : callback Client) : Z :=
  match cb with CbEvalStateCleanup _ => 1 | _ => 0 end.
Definition cleanups {Client} (cbs : list (callback Client)) : Z :=
  foldr (λ cb n, cleanup cb + n) 0 cbs.

Lemma cleanups_app {Client} (p q : list (callback Client)) :
  cleanups (p ++ q) = cleanups p + cleanups q.
Proof. unfold cleanups. induction p; simpl; lia. Qed.

Lemma cleanups_pos {Client} (p : list (callback Client)) : 0 <= cleanups p.
Proof. unfold cleanups. induction p as [|[]]; simpl; lia. Qed.

(** ** The state of one evaluation

    [F] are the blocks of everyone else, [rest] the chain from the marker on, [S]
    the suspended chain, [base] the depth below. *)

Section safety.
Context {I Ns Cmd Proc Client Frame : Type} `{SI : SubstInterp I} `{WI : !WordInterp I}
  `{EI : !EvalInterp I Ns Cmd Proc Client Frame}.
Context (realloc_ok alloc_ok argv_ok : Z → bool).
Context (S rest : list (callback Client)) (F : gmap nat kind) (base : Z).

#[local] Abbreviation machine := (machine I Client Frame).
#[local] Abbreviation callback := (callback Client).

(** The machine has the blocks [K] and the callbacks [p] of this evaluation, and
    [n] scripts of it to leave. *)
Record holds (m : machine) (K : gmap nat kind) (p : list callback) (n : Z) : Prop := {
  h_kinds : kind_of <$> heap m = K ∪ F;
  h_disj : K ##ₘ F;
  h_chain : pCallbacks m = p ++ rest;
  h_susp : pSuspendedCallbacks m = S;
  h_depth : base + n <= nEvalDepth (interp m) <= 1001
}.

Definition framed (m : machine) : Prop :=
  ∃ K p, holds m K p (cleanups p) ∧ chain_ok K p.

Definition safe_out (o : res fault (Z * machine)) : Prop :=
  match o with Ok x => framed (snd x) | Err e => e = ReadPastEnd end.

(** *** Steps that keep the blocks *)

Lemma holds_interp m K p n r :
  holds m K p n → base + n <= nEvalDepth r <= 1001 → holds (with_interp m r) K p n.
Proof. intros [? ? ? ? ?] ?. by split. Qed.

Lemma holds_it m K p n i : holds m K p n → holds (set_it m i) K p n.
Proof. intros H. apply holds_interp; [done|]. by destruct H. Qed.

Lemma holds_lookup m K p n k t :
  holds m K p n → K !! k = Some t → ∃ b, heap m !! k = Some b ∧ kind_of b = t.
Proof.
  intros [Hk _ _ _ _] Ht. assert (H : (kind_of <$> heap m) !! k = Some t).
  { rewrite Hk. by apply lookup_union_Some_l. }
  rewrite lookup_fmap in H. destruct (heap m !! k) as [b|]; simplify_eq/=. eauto.
Qed.

Lemma holds_update m K p n k b :
  holds m K p n → K !! k = Some (kind_of b) → holds (with_heap m (<[k := b]> (heap m))) K p n.
Proof.
  intros [Hk ? ? ? ?] Ht. split; [|done..]. simpl.
  rewrite fmap_insert, Hk, insert_union_l, insert_id; done.
Qed.

Lemma holds_alloc m K p n b :
  holds m K p n →
  let '(k, m') := alloc_block m b in holds m' (<[k := kind_of b]> K) p n ∧ K !! k = None.
Proof.
  intros [Hk Hd ? ? ?]. unfold alloc_block. set (k := fresh _).
  assert (Hf : heap m !! k = None) by (apply not_elem_of_dom; apply is_fresh).
  assert (HU : (K ∪ F) !! k = None) by (by rewrite <- Hk, lookup_fmap, Hf).
  apply lookup_union_None in HU as [HK HF]. split; [|done].
  split; [|by apply map_disjoint_insert_l_2|done..].
  simpl. by rewrite fmap_insert, Hk, insert_union_l.
Qed.

Lemma holds_delete m K p n k t :
  holds m K p n → K !! k = Some t → holds (with_heap m (delete k (heap m))) (delete k K) p n.
Proof.
  intros [Hk Hd ? ? ?] Ht. split; [|by apply map_disjoint_delete_l|done..].
  simpl. rewrite fmap_delete, Hk, delete_union, (delete_id F); [done|].
  by eapply map_disjoint_Some_l.
Qed.

Lemma holds_free m K p n k t :
  holds m K p n → K !! k = Some t →
  ∃ m', free_block m k = Ok m' ∧ holds m' (delete k K) p n ∧ interp m' = interp m.
Proof.
  intros H Ht. destruct (holds_lookup _ _ _ _ _ _ H Ht) as (b & Hb & _).
  unfold free_block. rewrite Hb. eexists. split; [done|]. split; [by eapply holds_delete|done].
Qed.

Lemma holds_state m K p n k :
  holds m K p n → K !! k = Some KState → ∃ s, the_state m k = Ok s ∧ heap m !! k = Some (BState s).
Proof.
  intros H Ht. destruct (holds_lookup _ _ _ _ _ _ H Ht) as ([] & Hb & ?); simplify_eq/=.
  unfold the_state. rewrite Hb. eauto.
Qed.

Lemma holds_build m K p n k s :
  holds m K p n → K !! k = Some (KBuild s) → ∃ b l, the_build m k = Ok (b, l, s).
Proof.
  intros H Ht. destruct (holds_lookup _ _ _ _ _ _ H Ht) as ([] & Hb & ?); simplify_eq/=.
  unfold the_build. rewrite Hb. eauto.
Qed.

(** *** Pushing *)

Lemma holds_push m K p n cb :
  holds m K p n → holds (snd (Th8_NRAddCallback cb m)) K
                    (if fst (Th8_NRAddCallback cb m) =? TH8_OK then cb :: p else p) n.
Proof.
  intros [? ? Hc ? ?]. unfold Th8_NRAddCallback. destruct (TH8_ALLOC _ _) as [[] i]; simpl;
    by split; rewrite ?Hc.
Qed.

(** A callback that finds its blocks may be pushed on a chain in order after it
    frees what it owns, and need not be. *)
Lemma framed_push m K p n cb :
  holds m K p n → refs_ok K cb → chain_ok (frees cb K) p → cleanups p = n → cleanup cb = 0 →
  framed (snd (Th8_NRAddCallback cb m)).
Proof.
  intros H Hr Hc Hn H0. apply (holds_push _ _ _ _ cb) in H. destruct (_ =? TH8_OK).
  - exists K, (cb :: p). split; [|by split]. unfold cleanups in *. simpl. by rewrite H0, Hn.
  - exists K, p. rewrite Hn. split; [done|]. eapply chain_ok_mono; [apply (frees_sub cb)|exact Hc].
Qed.

Lemma chain_ok_pushes K p (ps : list (push Client)) :
  chain_ok K p → chain_ok K (map of_push ps ++ p).
Proof. intros H. by induction ps as [|[]]. Qed.

Lemma cleanups_pushes (ps : list (push Client)) : cleanups (map of_push ps) = 0.
Proof. unfold cleanups. by induction ps as [|[]]. Qed.

Lemma framed_push_all ps m : framed m → framed (push_all ps m).
Proof.
  intros (K & p & [? ? Hc ? ?] & Ho). exists K, (map of_push ps ++ p).
  rewrite cleanups_app, cleanups_pushes. split; [|by apply chain_ok_pushes].
  split; try done. simpl. by rewrite Hc, app_assoc.
Qed.

Lemma framed_it m i : framed m → framed (set_it m i).
Proof. intros (K & p & H & Ho). exists K, p. split; [by apply holds_it|done]. Qed.

Lemma framed_interp m r :
  framed m → nEvalDepth r = nEvalDepth (interp m) → framed (with_interp m r).
Proof.
  intros (K & p & H & Ho) Hr. exists K, p. split; [|done]. apply holds_interp; [done|].
  rewrite Hr. by destruct H.
Qed.

Lemma framed_holds m K p n : holds m K p n → chain_ok K p → cleanups p = n → framed m.
Proof. intros H Ho <-. by exists K, p. Qed.

Lemma framed_push_eval m q zName : framed m → framed (snd (Th8_NREval q zName m)).
Proof. intros (K & p & H & Ho). by eapply framed_push. Qed.

(** *** The callbacks *)

Lemma plan_call_depth r args : nEvalDepth (snd (plan_call (Client := Client) r args)) = nEvalDepth r.
Proof.
  unfold plan_call. destruct (default _ _) as [zName nName]. repeat case_match; done.
Qed.

Lemma framed_invoke m pCmd args :
  framed m → framed (snd (invoke pCmd args m)).
Proof.
  intros H. unfold invoke. destruct (th8InvokeCommand _ _ _) as [[rc ps] i]. by apply framed_push_all, framed_it.
Qed.

Lemma dispatch_safe s a args m K p :
  holds m K p (cleanups p) → K !! s = Some KState → K !! a = Some KArgv → chain_ok (delete a K) p →
  safe_out (dispatch s a args m).
Proof.
  intros H Hs Ha Ho. unfold dispatch. pose proof (plan_call_depth (interp m) args) as Hd.
  destruct (plan_call _ _) as [plan r]. simpl in Hd.
  assert (Hr : holds (with_interp m r) K p (cleanups p)).
  { apply holds_interp; [done|]. rewrite Hd. by destruct H. }
  destruct plan as [rc| |pUnk args'|pCmd].
  - by eapply framed_push.
  - destruct (holds_free _ _ _ _ _ _ Hr Ha) as (m' & -> & H' & _). simpl. by eapply framed_holds.
  - pose proof (holds_alloc _ _ _ _ (BWrapper args') Hr) as Hw.
    destruct (alloc_block _ _) as [w m']. destruct Hw as [Hw HN]. simpl in Hw.
    apply framed_invoke, framed_interp; [|done]. eapply framed_push; [exact Hw|..|done|done].
    + assert (w ≠ s) by congruence. assert (w ≠ a) by congruence. simpl.
      rewrite !lookup_insert_ne by done. by rewrite lookup_insert_eq.
    + simpl. by rewrite delete_insert_id.
  - apply framed_invoke. by eapply framed_push.
Qed.

(** A callback was taken off the chain and is about to run. *)
Definition popped (cb : callback) (m : machine) : Prop :=
  ∃ K p, holds m K p (cleanup cb + cleanups p) ∧ refs_ok K cb ∧ chain_ok (frees cb K) p.

Lemma leave_eval_depth (r : Th8_Interp I Frame) l : nEvalDepth (leave_eval r l) = nEvalDepth r - 1.
Proof. done. Qed.

Lemma EvalStateCleanup_safe s rc m :
  popped (CbEvalStateCleanup s) m → safe_out (th8EvalStateCleanup s rc m).
Proof.
  intros (K & p & H & Hs & Ho). unfold th8EvalStateCleanup. simpl in Hs, Ho.
  destruct (holds_state _ _ _ _ _ H Hs) as (st & -> & _). cbn [res_bind].
  set (m1 := with_interp m _).
  assert (H1 : holds m1 K p (cleanups p)).
  { destruct H as [? ? ? ? [Hb Ht]]. split; [done..|]. simpl in *. lia. }
  destruct (holds_free _ _ _ _ _ _ H1 Hs) as (m' & -> & H' & _). by eapply framed_holds.
Qed.

Lemma trace_command_depth (r : Th8_Interp I Frame) st :
  nEvalDepth (snd (trace_command r st)) = nEvalDepth r.
Proof. unfold trace_command. repeat case_match; simplify_eq/=; done. Qed.

Lemma EvalPostCmd_safe s a az rc m :
  popped (CbEvalPostCmd s a az) m → safe_out (th8EvalPostCmd s a az rc m).
Proof.
  intros (K & p & H & (Hs & Ha & Hw) & Ho). simpl in H, Ho. unfold th8EvalPostCmd.
  set (step1 := match az with Some _ => _ | None => _ end).
  assert (H1 : ∃ m1 K1, step1 = Ok m1 ∧ holds m1 K1 p (cleanups p) ∧ K1 !! s = Some KState ∧
                 K1 !! a = Some KArgv ∧ chain_ok (delete a K1) p).
  { subst step1. destruct az as [w|]; [|by exists m, K].
    assert (H0 : holds (with_interp m (with_unknown (interp m) false)) K p (cleanups p)).
    { apply holds_interp; [done|]. by destruct H. }
    destruct (holds_free _ _ _ _ _ _ H0 Hw) as (m1 & E & H1 & _).
    exists m1, (delete w K). split_and!; [done..| | |done]; rewrite lookup_delete_ne; congruence. }
  destruct H1 as (m1 & K1 & -> & H1 & Hs1 & Ha1 & Ho1). cbn [res_bind].
  destruct (holds_free _ _ _ _ _ _ H1 Ha1) as (m2 & -> & H2 & _). cbn [res_bind].
  assert (Hs2 : delete a K1 !! s = Some KState) by (rewrite lookup_delete_ne; congruence).
  case_if; [|case_if].
  - destruct (holds_state _ _ _ _ _ H2 Hs2) as (st & -> & _). cbn [res_bind].
    pose proof (trace_command_depth (interp m2) st) as Hd. destruct (trace_command _ _) as [ok r].
    simpl. apply framed_interp; [by eapply framed_holds|done].
  - simpl. by eapply framed_push.
  - simpl. by eapply framed_holds.
Qed.

Lemma keep_build_safe b l s o m K p :
  holds m K p (cleanups p) → K !! b = Some (KBuild s) → K !! s = Some KState → chain_ok K p →
  safe_out (keep_build b l s o m).
Proof.
  intros H Hb Hs Ho. unfold keep_build. destruct o as [[[rc zScript] bd] i].
  assert (H1 : holds (set_it (with_heap m (<[b := BBuild bd l s]> (heap m))) i) K p (cleanups p))
    by (apply holds_it, holds_update; done).
  destruct zScript as [z|]; [|by eapply framed_holds].
  destruct (holds_state _ _ _ _ _ H1 Hs) as (st & -> & _). cbn [res_bind].
  apply framed_push_eval. eapply framed_push; [exact H1|simpl; eauto|done..].
Qed.

Lemma NRCmdSubstDone_safe b rc m :
  popped (CbNRCmdSubstDone b) m → safe_out (NRCmdSubstDone realloc_ok alloc_ok b rc m).
Proof.
  intros (K & p & H & (s & Hb & Hs) & Ho). simpl in H, Ho. unfold NRCmdSubstDone.
  destruct (negb _); [by eapply framed_holds|].
  destruct (holds_build _ _ _ _ _ _ H Hb) as (bd & l & ->). cbn [res_bind].
  by eapply keep_build_safe.
Qed.

(** A fresh argument vector is dispatched. *)
Lemma dispatch_fresh s v m K p :
  holds m K p (cleanups p) → K !! s = Some KState → chain_ok K p →
  safe_out (let '(k, m) := alloc_block m (BArgv v) in dispatch s k (argv_words v) m).
Proof.
  intros H Hs Ho. pose proof (holds_alloc _ _ _ _ (BArgv v) H) as Hk.
  destruct (alloc_block _ _) as [k m']. destruct Hk as [Hk HN].
  eapply dispatch_safe; [exact Hk|..].
  - rewrite lookup_insert_ne; congruence.
  - by rewrite lookup_insert_eq.
  - by rewrite delete_insert_id.
Qed.

Lemma NRCmdDispatch_safe b s rc m :
  popped (CbNRCmdDispatch b s) m → safe_out (th8NRCmdDispatch argv_ok b s rc m).
Proof.
  intros (K & p & H & (Hb & Hs) & Ho). simpl in H, Ho. unfold th8NRCmdDispatch.
  assert (Hsb : delete b K !! s = Some KState) by (rewrite lookup_delete_ne; congruence).
  destruct (holds_build _ _ _ _ _ _ H Hb) as (bd & l & ->). cbn [res_bind].
  destruct (negb _).
  - destruct (holds_state _ _ _ _ _ H Hs) as (st & Hst & _).
    match goal with |- context [res_bind (if rc =? TH8_ERROR then ?x else ?y)] =>
      assert (E : ∃ rc' r, (if rc =? TH8_ERROR then x else y) = Ok (rc', r) ∧
                           nEvalDepth r = nEvalDepth (interp m)) end.
    { case_if; [|by eexists _, _]. rewrite Hst. cbn [res_bind].
      destruct (trace_words _ _) as [ok i]. by eexists _, _. }
    destruct E as (rc' & r & -> & Hr). cbn [res_bind].
    assert (H1 : holds (with_interp m (with_it r (set_isListMode (it r) l))) K p (cleanups p)).
    { apply holds_interp; [done|]. simpl. rewrite Hr. by destruct H. }
    destruct (holds_free _ _ _ _ _ _ H1 Hb) as (m' & -> & H' & _). by eapply framed_holds.
  - destruct (finish_build _ _ _ _) as [[rc' argv] i].
    destruct (holds_free _ _ _ _ _ _ (holds_it _ _ _ _ i H) Hb) as (m' & -> & H' & _).
    cbn [res_bind]. destruct argv as [v|]; [by eapply dispatch_fresh|].
    case_if; [by eapply framed_push|by eapply framed_holds].
Qed.

Lemma eval_words_safe s st m K p :
  holds m K p (cleanups p) → K !! s = Some KState → chain_ok K p →
  safe_out (eval_words realloc_ok alloc_ok argv_ok s st m).
Proof.
  intros H Hs Ho. unfold eval_words. destruct (th8SplitCommand _ _ _ _ _) as [[rc argv] i].
  apply (holds_it _ _ _ _ i) in H. case_if; [|case_if; [|case_if]].
  - assert (H1 : holds (set_state (set_it m i) s (at_command st (zFirst st) (zFirst st))) K p
                   (cleanups p)) by (by apply holds_update).
    assert (framed (snd (Th8_NRAddCallback (CbEvalIteration s)
      (set_state (set_it m i) s (at_command st (zFirst st) (zFirst st)))))) by (by eapply framed_push).
    by destruct (Th8_NRAddCallback _ _) as [rc' m'].
  - by eapply framed_holds.
  - destruct (trace_words _ _) as [ok i']. simpl. eapply framed_holds; [|exact Ho|done].
    apply holds_interp; [done|]. by destruct H.
  - destruct argv as [v|]; [by eapply dispatch_fresh|by eapply framed_push].
Qed.

Lemma eval_build_safe s st m K p :
  holds m K p (cleanups p) → K !! s = Some KState → chain_ok K p →
  safe_out (eval_build realloc_ok alloc_ok s st m).
Proof.
  intros H Hs Ho. unfold eval_build. destruct (TH8_ALLOC _ _) as [[] i].
  2: { eapply framed_holds; [by apply holds_it|done..]. }
  set (b0 := build_init _ _). set (m1 := set_it m _).
  pose proof (holds_alloc _ _ _ _ (BBuild b0 (isListMode i) s) (holds_it _ _ _ _ _ H : holds m1 _ _ _)) as Hk.
  destruct (alloc_block _ _) as [b m']. destruct Hk as [Hk HN]. simpl in Hk.
  assert (Hbs : b ≠ s) by congruence. set (K' := <[b:=KBuild s]> K) in *.
  assert (HKs : K' !! s = Some KState) by (subst K'; by rewrite lookup_insert_ne).
  assert (HKb : K' !! b = Some (KBuild s)) by (subst K'; by rewrite lookup_insert_eq).
  pose proof (holds_push _ _ _ _ (CbNRCmdDispatch b s) Hk) as Hp.
  destruct (_ =? TH8_OK).
  - apply (keep_build_safe _ _ _ _ _ K' (CbNRCmdDispatch b s :: p)); [exact Hp|done..|].
    split; [done|]. simpl. subst K'. by rewrite delete_insert_id.
  - apply (keep_build_safe _ _ _ _ _ K' p); [exact Hp|done..|].
    eapply chain_ok_mono; [|exact Ho]. by apply insert_subseteq.
Qed.

Lemma EvalIteration_safe s rc m :
  popped (CbEvalIteration s) m → safe_out (th8EvalIteration realloc_ok alloc_ok argv_ok s rc m).
Proof.
  intros (K & p & H & Hs & Ho). simpl in H, Hs, Ho. unfold th8EvalIteration.
  destruct (negb _); [by eapply framed_holds|].
  destruct (holds_state _ _ _ _ _ H Hs) as (st & -> & _). cbn [res_bind].
  assert (Hst : ∀ st' r, nEvalDepth r = nEvalDepth (interp m) →
    holds (with_interp (set_state m s st') r) K p (cleanups p)).
  { intros st' r Hr. apply holds_interp; [by apply holds_update|]. rewrite Hr. by destruct H. }
  destruct (next_command _ _ _) as [l|zf zi l|e zf l|]; simpl.
  - by eapply framed_holds; [apply Hst|..].
  - case_if; [eapply eval_build_safe|eapply eval_words_safe]; by try apply Hst.
  - by eapply framed_holds; [apply Hst|..].
  - done.
Qed.

Lemma EvalLocal_safe q zName flags m :
  framed m → framed (snd (th8EvalLocal q zName flags m)).
Proof.
  intros Hf. unfold th8EvalLocal. case_if; [by apply framed_it|]. case_if; [by apply framed_it|].
  destruct (Th8_Ready _) as [rc i]. case_if; [by apply framed_it|].
  destruct (negb _); [by apply framed_it|]. destruct (xPolicyCb _ _ _ _ _ _) as [rc' i'].
  destruct (negb (rc' =? TH8_OK)).
  { apply framed_interp; [done|]. simpl. lia. }
  destruct Hf as (K & p & H & Ho). bool_to_prop.
  assert (Hd : base + (1 + cleanups p) <= nEvalDepth (interp m) + 1 <= 1001)
    by (destruct H; lia).
  destruct (TH8_ALLOC _ _) as [[] i'']; cbn [negb].
  2: { eapply framed_holds; [|exact Ho|done]. apply holds_it, holds_interp; [done|]. simpl. lia. }
  set (r' := with_it _ i''). set (s0 := mkEvalState _ _ _ _ _ _).
  assert (H1 : holds (with_interp m r') K p (1 + cleanups p)).
  { destruct H. by split. }
  pose proof (holds_alloc _ _ _ _ (BState s0) H1) as Hk.
  destruct (alloc_block _ _) as [k m']. destruct Hk as [Hk HN]. simpl in Hk.
  assert (Hks : <[k:=KState]> K !! k = Some KState) by (by rewrite lookup_insert_eq).
  assert (Hdel : delete k (<[k:=KState]> K) = K) by (by rewrite delete_insert_id).
  pose proof (holds_push _ _ _ _ (CbEvalStateCleanup k) Hk) as Hp.
  destruct (Th8_NRAddCallback (CbEvalStateCleanup k) m') as [rc1 m1]. simpl in Hp.
  destruct (rc1 =? TH8_OK); cbn [negb].
  - assert (Hc : chain_ok (<[k:=KState]> K) (CbEvalStateCleanup k :: p)) by (by split; [|simpl; rewrite Hdel]).
    assert (framed (snd (Th8_NRAddCallback (CbEvalIteration k) m1))).
    { eapply framed_push; [exact Hp|by simpl|exact Hc|done|done]. }
    by destruct (Th8_NRAddCallback _ m1) as [rc2 m2].
  - simpl. eapply framed_holds; [|exact Ho|done]. rewrite <- Hdel.
    apply (holds_delete (with_interp m1 _) _ _ _ k KState); [|done].
    destruct Hp as [? ? ? ? ?]. split; [done..|]. simpl. lia.
Qed.

Lemma run_callback_safe cb rc m :
  popped cb m → safe_out (run_callback realloc_ok alloc_ok argv_ok cb rc m).
Proof.
  destruct cb; intros H.
  - by apply EvalIteration_safe.
  - by apply EvalStateCleanup_safe.
  - by apply EvalPostCmd_safe.
  - by apply NRCmdDispatch_safe.
  - by apply NRCmdSubstDone_safe.
  - destruct H as (K & q & H & _ & Ho). by apply EvalLocal_safe; eapply framed_holds.
  - destruct H as (K & q & H & _ & Ho). simpl. destruct (call_client _ _ _) as [[rc' ps] i].
    by apply framed_push_all, framed_it; eapply framed_holds.
Qed.

(** *** The trampoline *)

Lemma framed_pop m i cb chain :
  framed m → pCallbacks m = cb :: chain → length (pCallbacks m) ≠ length rest →
  popped cb (with_chain (set_it m i) chain).
Proof.
  intros (K & p & [? ? Hc ? Hd] & Ho) Hcb Hl. rewrite Hc in Hcb.
  destruct p as [|cb' p]; [simpl in Hcb; rewrite Hc in Hl; done|].
  simpl in Hcb. injection Hcb as -> <-. destruct Ho as [Hr Ho]. exists K, p. by split.
Qed.

Lemma framed_bottom m : framed m → length (pCallbacks m) = length rest → pCallbacks m = rest.
Proof.
  intros (K & p & [? ? -> ? _] & _) Hl. rewrite length_app in Hl. by destruct p; [|simpl in Hl; lia].
Qed.

Lemma framed_unwind m i :
  framed m →
  framed (with_chain (set_it m i) (drop (length (pCallbacks m) - length rest) (pCallbacks m))) ∧
  drop (length (pCallbacks m) - length rest) (pCallbacks m) = rest.
Proof.
  intros (K & p & [? ? Hc ? Hd] & Ho).
  assert (E : drop (length (pCallbacks m) - length rest) (pCallbacks m) = rest).
  { rewrite Hc, length_app. replace (_ + _ - _)%nat with (length p) by lia. apply drop_app_length. }
  split; [|done]. exists K, []. split; [|done]. split; try done.
  pose proof (cleanups_pos p). simpl in *. lia.
Qed.

Lemma RunCallbacks_safe fuel : ∀ rc m,
  framed m →
  match th8RunCallbacks realloc_ok alloc_ok argv_ok fuel (length rest) rc m with
  | Ok (rc', m') => framed m' ∧ (interrupted rc' = false → pCallbacks m' = rest)
  | Err e => e ≠ UseAfterFree
  end.
Proof.
  induction fuel as [|fuel IH]; intros rc m Hf; simpl; destruct (_ =? _)%nat eqn:El.
  - apply Nat.eqb_eq in El. split; [done|]. intros _. by apply framed_bottom.
  - done.
  - apply Nat.eqb_eq in El. split; [done|]. intros _. by apply framed_bottom.
  - apply Nat.eqb_neq in El. destruct (pCallbacks m) as [|cb chain] eqn:Ec; [done|].
    rewrite <- Ec in El |- *. destruct (poll rc _) as [rc' i|i|rc' i].
    + destruct (framed_unwind m i Hf) as [H1 H2]. split; [done|]. intros _. done.
    + split; [by apply framed_it|done].
    + pose proof (run_callback_safe cb rc' _ (framed_pop m i cb chain Hf Ec El)) as Hs.
      destruct (run_callback _ _ _ _ _ _) as [[rc1 m1]|e]; [|by rewrite Hs].
      cbn [res_bind]. simpl in Hs. destruct (rc1 =? TH8_YIELD) eqn:Ey; [|by apply IH].
      split; [done|]. unfold interrupted. rewrite Ey, orb_true_r. done.
Qed.
End safety.

Section chains.
Context {Client : Type}.

Lemma refs_ok_union K F (cb : callback Client) :
  K ##ₘ F → refs_ok K cb → frees cb (K ∪ F) = frees cb K ∪ F.
Proof.
  intros Hd Hr. assert (Hn : ∀ k t, K !! k = Some t → delete k F = F).
  { intros k t Hk. apply delete_id. by eapply map_disjoint_Some_l. }
  destruct cb as [s|s|s a [w|]|b s|b| |]; simpl in *; try done; rewrite ?delete_union;
    destruct_and?; by repeat erewrite Hn by done.
Qed.

Lemma frees_disjoint K F (cb : callback Client) : K ##ₘ F → frees cb K ##ₘ F.
Proof. intros Hd. eapply map_disjoint_weaken_l; [exact Hd|apply frees_sub]. Qed.

(** Two chains in order with blocks apart make one chain. *)
Lemma chain_ok_app q : ∀ K F (p : list (callback Client)),
  K ##ₘ F → chain_ok K p → chain_ok F q → chain_ok (K ∪ F) (p ++ q).
Proof.
  intros K F p. revert K. induction p as [|cb p IH]; intros K Hd Hp Hq; simpl.
  - eapply chain_ok_mono; [|exact Hq]. by apply map_union_subseteq_r.
  - destruct Hp as [Hr Hp]. split; [eapply refs_ok_mono; [|exact Hr]; by apply map_union_subseteq_l|].
    rewrite refs_ok_union by done. apply IH; [by apply frees_disjoint|done|done].
Qed.
End chains.

(** ** The host

    Between calls of the host, the chain and the suspended chain are in order,
    with blocks apart. *)

Section host.
Context {I Ns Cmd Proc Client Frame : Type} `{SI : SubstInterp I} `{WI : !WordInterp I}
  `{EI : !EvalInterp I Ns Cmd Proc Client Frame}.
Context (realloc_ok alloc_ok argv_ok : Z → bool).

#[local] Abbreviation machine := (machine I Client Frame).

Definition machine_ok (m : machine) : Prop :=
  (∃ K1 K2, K1 ##ₘ K2 ∧ K1 ∪ K2 ⊆ kind_of <$> heap m ∧
    chain_ok K1 (pCallbacks m) ∧ chain_ok K2 (pSuspendedCallbacks m)) ∧
  nEvalDepth (interp m) <= 1001.

Lemma machine_ok_interp m r :
  machine_ok m → nEvalDepth r <= 1001 → machine_ok (with_interp m r).
Proof. intros [H _] Hr. by split. Qed.

Lemma finish_eval_depth iFrame d f b rc (r : Th8_Interp I Frame) :
  nEvalDepth (snd (finish_eval iFrame d f b rc r)) = nEvalDepth r ∨
  nEvalDepth (snd (finish_eval iFrame d f b rc r)) = d.
Proof.
  unfold finish_eval. repeat case_match; simplify_eq/=; auto.
Qed.

(** Everything that is there when an evaluation starts is the frame of it. *)
Lemma framed_start (m : machine) :
  nEvalDepth (interp m) <= 1001 →
  framed (pSuspendedCallbacks m) (pCallbacks m) (kind_of <$> heap m) (nEvalDepth (interp m)) m.
Proof.
  intros Hd. exists ∅, []. split; [|done]. split; [by rewrite map_empty_union|..|done|done| ].
  - apply map_disjoint_empty_l.
  - simpl. lia.
Qed.

(** What an evaluation leaves: the chain it started with, and a chain of its own
    that was suspended. *)
Definition leaves (m m' : machine) : Prop :=
  ∃ K p F, F = kind_of <$> heap m ∧ K ##ₘ F ∧ kind_of <$> heap m' = K ∪ F ∧ chain_ok K p ∧
    pCallbacks m' = p ++ pCallbacks m ∧ pSuspendedCallbacks m' = pSuspendedCallbacks m ∧
    nEvalDepth (interp m) + cleanups p <= nEvalDepth (interp m') <= 1001.

Lemma framed_leaves m m' :
  framed (pSuspendedCallbacks m) (pCallbacks m) (kind_of <$> heap m) (nEvalDepth (interp m)) m' →
  leaves m m'.
Proof. intros (K & p & [? ? ? ? ?] & Ho). by exists K, p, (kind_of <$> heap m). Qed.

Lemma eval_leaves fuel p zName flags m :
  nEvalDepth (interp m) <= 1001 →
  let '(rc, m1) := th8EvalLocal p zName flags m in
  match th8RunCallbacks realloc_ok alloc_ok argv_ok fuel (length (pCallbacks m)) rc m1 with
  | Ok (rc', m') => leaves m m' ∧ (interrupted rc' = false → pCallbacks m' = pCallbacks m)
  | Err e => e ≠ UseAfterFree
  end.
Proof.
  intros Hd. pose proof (EvalLocal_safe _ _ _ _ p zName flags m (framed_start m Hd)) as H.
  destruct (th8EvalLocal _ _ _ _) as [rc m1]. simpl in H.
  pose proof (RunCallbacks_safe realloc_ok alloc_ok argv_ok _ _ _ _ fuel rc m1 H) as Hr.
  destruct (th8RunCallbacks _ _ _ _ _ _ _) as [[rc' m']|]; [|done].
  destruct Hr as [Hr ?]. split; [by apply framed_leaves|done].
Qed.

Lemma leaves_ok (m m' : machine) : machine_ok m → leaves m m' → machine_ok m'.
Proof.
  intros [(K1 & K2 & Hd & Hs & H1 & H2) _] (K & p & F & -> & HK & Hk & Ho & Hc & Hsu & Hdp).
  split; [|lia]. exists (K ∪ K1), K2. rewrite Hk, Hc, Hsu.
  assert (Hs1 : K1 ⊆ kind_of <$> heap m) by (etrans; [by apply map_union_subseteq_l|done]).
  assert (Hs2 : K2 ⊆ kind_of <$> heap m) by (etrans; [by apply map_union_subseteq_r|done]).
  split_and!.
  - apply map_disjoint_union_l_2; [|done]. by eapply map_disjoint_weaken_r.
  - rewrite <- map_union_assoc. by apply map_union_mono_l.
  - apply chain_ok_app; [by eapply map_disjoint_weaken_r|done|done].
  - done.
Qed.

Lemma leaves_detached (m m' : machine) f :
  machine_ok m → leaves m m' → machine_ok (detach (length (pCallbacks m)) f m') ∧
    pCallbacks (detach (length (pCallbacks m)) f m') = pCallbacks m.
Proof.
  intros [(K1 & K2 & Hd & Hs & H1 & H2) _] (K & p & F & -> & HK & Hk & Ho & Hc & Hsu & Hdp).
  assert (Hn : (length (pCallbacks m') - length (pCallbacks m))%nat = length p)
    by (rewrite Hc, length_app; lia).
  assert (Hdrop : drop (length p) (pCallbacks m') = pCallbacks m) by (by rewrite Hc, drop_app_length).
  unfold detach. rewrite Hn. simpl. rewrite Hdrop. split; [|done]. split; [|simpl; lia].
  exists K1, K. simpl. rewrite Hk, Hc, take_app_length.
  assert (Hs1 : K1 ⊆ kind_of <$> heap m) by (etrans; [by apply map_union_subseteq_l|done]).
  split_and!; [by symmetry; eapply map_disjoint_weaken_r| |done|done].
  rewrite map_union_comm by (by symmetry; eapply map_disjoint_weaken_r). by apply map_union_mono_l.
Qed.

Lemma machine_ok_it m i : machine_ok m → machine_ok (set_it m i).
Proof. intros H. apply machine_ok_interp; [done|]. by destruct H. Qed.

Lemma leaves_it m m' i : leaves (set_it m i) m' ↔ leaves m m'.
Proof. done. Qed.

Lemma EvalCommon_ok fuel iFrame p zName flags m :
  machine_ok m →
  match th8EvalCommon realloc_ok alloc_ok argv_ok fuel iFrame p zName flags m with
  | Ok (_, m') => machine_ok m' ∧ pCallbacks m' = pCallbacks m
  | Err e => e ≠ UseAfterFree
  end.
Proof.
  intros Hok. unfold th8EvalCommon.
  match goal with |- context [match ?t with Some _ => _ | None => _ end] => destruct t as [i|] end.
  2: { split; [by apply machine_ok_it|done]. }
  set (m0 := set_it m _). assert (Hok0 : machine_ok m0) by by apply machine_ok_it.
  change (length (pCallbacks m)) with (length (pCallbacks m0)).
  change (pCallbacks m) with (pCallbacks m0).
  set (input := if _ =? TH8_NOLEN then _ else _).
  pose proof (eval_leaves fuel input zName flags m0 (proj2 Hok0)) as H.
  destruct (th8EvalLocal _ _ _ m0) as [rc m1].
  destruct (th8RunCallbacks _ _ _ _ _ _ _) as [[rc' m']|e]; [|exact H]. cbn [res_bind].
  destruct H as [Hl Hr]. set (m2 := if _ && _ then _ else _).
  assert (H2 : machine_ok m2 ∧ pCallbacks m2 = pCallbacks m0).
  { subst m2. destruct (interrupted rc') eqn:Ei; simpl; [|split; [by eapply leaves_ok|by apply Hr]].
    destruct (_ =? _)%nat eqn:El; simpl; [|by apply leaves_detached]. split; [by eapply leaves_ok|].
    apply Nat.eqb_eq in El. destruct Hl as (? & q & ? & _ & _ & _ & _ & Hq & _).
    rewrite Hq, length_app in El. rewrite Hq. by destruct q; [|simpl in El; lia]. }
  destruct H2 as [H2 Hc].
  pose proof (finish_eval_depth iFrame (nEvalDepth (interp m)) (head (frames (it (interp m))))
                (bResultBuildFailed i) rc' (interp m2)) as Hd.
  destruct (finish_eval _ _ _ _ _ _) as [rc2 r]. simpl in Hd. split; [|done].
  apply machine_ok_interp; [done|]. destruct H2, Hok. by destruct Hd as [->| ->].
Qed.

Lemma EvalDownlevel_ok fuel p zName m :
  machine_ok m →
  match Th8_EvalDownlevel realloc_ok alloc_ok argv_ok fuel p zName m with
  | Ok (_, m') => machine_ok m'
  | Err e => e ≠ UseAfterFree
  end.
Proof.
  intros Hok. unfold Th8_EvalDownlevel. destruct (pDownlevelFrame _) as [f|]; [|by apply machine_ok_it].
  match goal with |- context [th8EvalLocal ?q zName 0 (set_it m ?j)] =>
    set (m0 := set_it m j); pose proof (machine_ok_it m j Hok : machine_ok m0) as Hok0;
    pose proof (eval_leaves fuel q zName 0 m0 (proj2 Hok0)) as H end.
  change (length (pCallbacks m)) with (length (pCallbacks m0)).
  destruct (th8EvalLocal _ _ _ m0) as [rc m1].
  destruct (th8RunCallbacks _ _ _ _ _ _ _) as [[rc' m']|e]; [|exact H]. cbn [res_bind].
  apply machine_ok_it. by eapply leaves_ok; [|apply H].
Qed.

Lemma Thaw_ok fuel m :
  machine_ok m →
  match Th8_Thaw realloc_ok alloc_ok argv_ok fuel m with
  | Ok (_, m') => machine_ok m' ∧ pCallbacks m' = pCallbacks m
  | Err e => e ≠ UseAfterFree
  end.
Proof.
  intros Hok. unfold Th8_Thaw. set (m0 := set_it m _).
  assert (Hok0 : machine_ok m0) by by apply machine_ok_it.
  destruct (pSuspendedCallbacks m0) as [|cb cbs] eqn:Es; [by split|]. rewrite <- Es.
  destruct Hok0 as [(K1 & K2 & Hd & Hs & H1 & H2) Hdep].
  assert (Hs1 : K1 ⊆ kind_of <$> heap m0) by (etrans; [by apply map_union_subseteq_l|done]).
  assert (Hs2 : K2 ⊆ kind_of <$> heap m0) by (etrans; [by apply map_union_subseteq_r|done]).
  set (F := (kind_of <$> heap m0) ∖ K2).
  set (m1 := with_suspended (with_chain m0 (pSuspendedCallbacks m0)) []).
  assert (Hf : framed [] [] F (nEvalDepth (interp m0) - cleanups (pSuspendedCallbacks m0)) m1).
  { exists K2, (pSuspendedCallbacks m0). split; [|done]. split; [|..|done|].
    4: { change (nEvalDepth (interp m1)) with (nEvalDepth (interp m0)). lia. }
    - simpl. symmetry. by apply map_difference_union.
    - by apply map_disjoint_difference_r1.
    - simpl. by rewrite app_nil_r. }
  pose proof (RunCallbacks_safe realloc_ok alloc_ok argv_ok _ _ _ _ fuel TH8_OK m1 Hf) as Hr.
  simpl length in Hr.
  destruct (th8RunCallbacks _ _ _ _ _ _ _) as [[rc' m']|e]; [|exact Hr]. cbn [res_bind].
  destruct Hr as [(K & p & [Hk Hdj Hc Hsu Hdp] & Ho) _]. split; [|done].
  split; [|simpl in *; lia]. exists K1, ∅. simpl. rewrite Hsu.
  assert (HF : K1 ⊆ F).
  { subst F. apply map_subseteq_spec. intros k t Hk1. apply lookup_difference_Some.
    split; [by eapply lookup_weaken|]. by eapply map_disjoint_Some_l. }
  split_and!; [apply map_disjoint_empty_r| |done|done].
  rewrite map_union_empty, Hk. etrans; [exact HF|]. by apply map_union_subseteq_r.
Qed.

(** What the host does, with [HostSet] for anything that it or another thread
    does to the rest of the interpreter. *)
Inductive host_call : Type :=
| HostEval (iFrame : Z) (p : word) (zName : option bytes) (flags : Z)
| HostDownlevel (p : word) (zName : option bytes)
| HostFreeze
| HostThaw
| HostSet (f : I → I).

Definition run_call (fuel : nat) (call : host_call) (m : machine) : res fault machine :=
  match call with
  | HostEval iFrame p zName flags =>
      (let* (_, m) := th8EvalCommon realloc_ok alloc_ok argv_ok fuel iFrame p zName flags m in Ok m)%res
  | HostDownlevel p zName =>
      (let* (_, m) := Th8_EvalDownlevel realloc_ok alloc_ok argv_ok fuel p zName m in Ok m)%res
  | HostFreeze => Ok (snd (Th8_Freeze m))
  | HostThaw => (let* (_, m) := Th8_Thaw realloc_ok alloc_ok argv_ok fuel m in Ok m)%res
  | HostSet f => Ok (set_it m (f (it (interp m))))
  end.

Fixpoint run_calls (fuel : nat) (calls : list host_call) (m : machine) : res fault machine :=
  match calls with
  | [] => Ok m
  | call :: calls => (let* m := run_call fuel call m in run_calls fuel calls m)%res
  end.

(** A new interpreter. *)
Definition boot (i : I) : machine := mkMachine [] [] ∅ (mkInterp 0 1 0 false None i).

Lemma boot_ok i : machine_ok (boot i).
Proof.
  split; [|simpl; lia]. exists ∅, ∅. split_and!; [apply map_disjoint_empty_l|done..].
Qed.

Lemma run_call_ok fuel call m :
  machine_ok m →
  match run_call fuel call m with Ok m' => machine_ok m' | Err e => e ≠ UseAfterFree end.
Proof.
  intros Hok. destruct call; simpl.
  - pose proof (EvalCommon_ok fuel iFrame p zName flags m Hok).
    by destruct (th8EvalCommon _ _ _ _ _ _ _ _ _) as [[]|]; destruct_and?.
  - pose proof (EvalDownlevel_ok fuel p zName m Hok). by destruct (Th8_EvalDownlevel _ _ _ _ _ _ _) as [[]|].
  - by apply machine_ok_it.
  - pose proof (Thaw_ok fuel m Hok). by destruct (Th8_Thaw _ _ _ _ _) as [[]|]; destruct_and?.
  - by apply machine_ok_it.
Qed.

Lemma run_calls_ok fuel calls : ∀ m,
  machine_ok m →
  match run_calls fuel calls m with Ok m' => machine_ok m' | Err e => e ≠ UseAfterFree end.
Proof.
  induction calls as [|call calls IH]; intros m Hok; [done|]. simpl.
  pose proof (run_call_ok fuel call m Hok). destruct (run_call _ _ _); [by apply IH|done].
Qed.

(** C1.  However the host evaluates, freezes and thaws scripts, and whatever
    commands, callbacks, the allocator, cancellation and other threads do in
    between, the evaluator never uses a block that it freed, frees none twice
    and takes none for another kind of block, and the depth of evaluation stays
    within its limit. *)
Theorem eval_memory_safe (fuel : nat) (calls : list host_call) (i : I) :
  match run_calls fuel calls (boot i) with
  | Ok m => nEvalDepth (interp m) <= 1001
  | Err e => e ≠ UseAfterFree
  end.
Proof.
  pose proof (run_calls_ok fuel calls (boot i) (boot_ok i)) as H.
  destruct (run_calls _ _ _) as [m|]; [|done]. by destruct H.
Qed.

(** C3.  An evaluation leaves the callback chain as it found it, whether it ends,
    fails, is unwound, is suspended or yields, so that the callbacks of one
    script never leak into another. *)
Theorem eval_keeps_chain (fuel : nat) (calls : list host_call) (i : I) (m : machine)
  (iFrame : Z) (p : word) (zName : option bytes) (flags : Z) (rc : Z) (m' : machine)
  (Hm : run_calls fuel calls (boot i) = Ok m)
  (He : th8EvalCommon realloc_ok alloc_ok argv_ok fuel iFrame p zName flags m = Ok (rc, m')) :
  pCallbacks m' = pCallbacks m.
Proof.
  pose proof (run_calls_ok fuel calls (boot i) (boot_ok i)) as H. rewrite Hm in H.
  pose proof (EvalCommon_ok fuel iFrame p zName flags m H) as Hk. rewrite He in Hk. by destruct Hk.
Qed.

(** A length below the tags is itself, and no tags. *)
Lemma plain_length n : 0 <= n <= TH8_LEN_MASK →
  TH8_TAINTED n = false ∧ (n =? TH8_NOLEN) = false ∧
  Z.lor (TH8_LEN n) (Z.land n TH8_TAG_BITS) = n ∧ TH8_LEN n = n.
Proof.
  intros Hn. pose proof (tag_of_small n Hn) as Ht. unfold tag_of in Ht.
  rewrite Ht, Z.lor_0_r, (TH8_LEN_small n Hn). split_and!; [|apply Z.eqb_neq|done..].
  - unfold TH8_TAINTED. apply negb_false_iff, Z.eqb_eq.
    change TH8_TAINT_BIT with (Z.land TH8_TAG_BITS TH8_TAINT_BIT). by rewrite Z.land_assoc, Ht.
  - unfold TH8_NOLEN, TH8_LEN_MASK in *. lia.
Qed.

Lemma TH8_LEN_not_NOLEN n : (TH8_LEN n =? TH8_NOLEN) = false.
Proof. pose proof (TH8_LEN_range n). apply Z.eqb_neq. unfold TH8_NOLEN, TH8_LEN_MASK in *. lia. Qed.

(** Masking a length and putting its tags back keeps its taint. *)
Lemma TAINTED_kept n : TH8_TAINTED (Z.lor (TH8_LEN n) (Z.land n TH8_TAG_BITS)) = TH8_TAINTED n.
Proof.
  unfold TH8_TAINTED, TH8_LEN. rewrite <- Z.land_lor_distr_r, <- Z.land_assoc. done.
Qed.

Lemma finish_eval_error iFrame d f b (r : Th8_Interp I Frame) :
  fst (finish_eval iFrame d f b TH8_ERROR r) = TH8_ERROR.
Proof. unfold finish_eval. done. Qed.

(** C4.  A tainted script is an error of Th8_Eval, and nothing of it runs: no
    callback is pushed, no block allocated and the depth is as before.
    Th8_EvalDownlevel drops the taint before the check, and runs a tainted script
    like a clean one.  TH8_NOLEN has the taint bit too, but is no length: the
    script up to its NUL is evaluated, by either, as a clean one of its own
    length, when that fits below the tags. *)
Theorem eval_taint_gate (fuel : nat) (iFrame : Z) (z : bytes) (n : Z) (zName : option bytes)
  (flags : Z) (m : machine) (Ht : TH8_TAINTED n = true) :
  if n =? TH8_NOLEN then
    Th8_Strlen z <= TH8_LEN_MASK →
    TH8_TAINTED (Th8_Strlen z) = false ∧
    th8EvalCommon realloc_ok alloc_ok argv_ok fuel iFrame (z, n) zName flags m =
    th8EvalCommon realloc_ok alloc_ok argv_ok fuel iFrame (c_script z, Th8_Strlen z) zName flags m ∧
    Th8_EvalDownlevel realloc_ok alloc_ok argv_ok fuel (z, n) zName m =
    Th8_EvalDownlevel realloc_ok alloc_ok argv_ok fuel (c_script z, Th8_Strlen z) zName m
  else
    (∃ m', th8EvalCommon realloc_ok alloc_ok argv_ok fuel iFrame (z, n) zName flags m =
             Ok (TH8_ERROR, m') ∧
       pCallbacks m' = pCallbacks m ∧ heap m' = heap m ∧
       nEvalDepth (interp m') = nEvalDepth (interp m)) ∧
    Th8_EvalDownlevel realloc_ok alloc_ok argv_ok fuel (z, n) zName m =
    Th8_EvalDownlevel realloc_ok alloc_ok argv_ok fuel (z, TH8_LEN n) zName m.
Proof.
  destruct (n =? TH8_NOLEN) eqn:En.
  { intros Hl. destruct (plain_length (Th8_Strlen z)) as (H1 & H2 & H3 & H4);
      [unfold Th8_Strlen in *; pose proof (zlen_nonneg (c_script z)); lia|].
    split; [done|]. unfold th8EvalCommon, Th8_EvalDownlevel. cbn [fst snd].
    by rewrite En, H2, H3, H4. }
  split; [|unfold Th8_EvalDownlevel; cbn [fst snd]; by rewrite En, TH8_LEN_not_NOLEN, TH8_LEN_idem].
  unfold th8EvalCommon.
  match goal with |- context [match ?t with Some _ => _ | None => _ end] => destruct t as [i|] end;
    [|by eexists].
  cbn [snd fst]. rewrite En.
  assert (Ht' : TH8_TAINTED (Z.lor (TH8_LEN n) (Z.land n TH8_TAG_BITS)) = true) by by rewrite TAINTED_kept.
  unfold th8EvalLocal. cbn [snd fst]. rewrite Ht'.
  set (m1 := set_it _ _). change (pCallbacks m) with (pCallbacks m1).
  assert (Hr : th8RunCallbacks realloc_ok alloc_ok argv_ok fuel (length (pCallbacks m1)) TH8_ERROR m1
               = Ok (TH8_ERROR, m1)) by (destruct fuel; simpl; by rewrite Nat.eqb_refl).
  rewrite Hr. cbn [res_bind interrupted orb andb].
  pose proof (finish_eval_error iFrame (nEvalDepth (interp m)) (head (frames (it (interp m))))
                (bResultBuildFailed i) (interp m1)) as He.
  pose proof (finish_eval_depth iFrame (nEvalDepth (interp m)) (head (frames (it (interp m))))
                (bResultBuildFailed i) TH8_ERROR (interp m1)) as Hd.
  change (interrupted TH8_ERROR) with false. cbn [andb].
  destruct (finish_eval _ _ _ _ _ _) as [rc r]. simpl in He, Hd. subst rc.
  eexists. split_and!; [done..|]. simpl in *. by destruct Hd as [->| ->].
Qed.
End host.
