(* ===== verification/EvalShell.v ===== *)
(** * EvalShell: a small interpreter, to run the evaluator (Eval) on concrete
    scripts.

    Its commands write to a log, fail, freeze the interpreter, unwind it, or push
    a script.  Three schedules say which allocations are granted, and at
    which readiness checks and memory barriers another thread freezes or unwinds
    the interpreter. *)

From S2P Require Import Prelude Memory Strings Script Subst Split Eval EvalSafety.
#[local] Open Scope Z_scope.

Record shell : Type := mkShell {
  sh_result : word;
  sh_list : bool;
  sh_failed : bool;               (* bResultBuildFailed *)
  sh_suspended : bool;
  sh_unwound : bool;              (* canceled, with the unwind flag *)
  sh_grants : list bool;          (* the next allocations; granted from its end on *)
  sh_freezes : list bool;         (* the next readiness checks; true freezes *)
  sh_cancels : list bool;         (* the next memory barriers; true unwinds *)
  sh_unknown : bool;              (* there is an unknown handler *)
  sh_downlevel : option unit;
  sh_log : list (list bytes)      (* the commands run, newest first *)
}.

Definition sh_put (s : shell) (w : word) : shell :=
  mkShell w (sh_list s) (sh_failed s) (sh_suspended s) (sh_unwound s) (sh_grants s) (sh_freezes s)
    (sh_cancels s) (sh_unknown s) (sh_downlevel s) (sh_log s).
Definition sh_set_list (s : shell) (b : bool) : shell :=
  mkShell (sh_result s) b (sh_failed s) (sh_suspended s) (sh_unwound s) (sh_grants s)
    (sh_freezes s) (sh_cancels s) (sh_unknown s) (sh_downlevel s) (sh_log s).
Definition sh_set_failed (s : shell) (b : bool) : shell :=
  mkShell (sh_result s) (sh_list s) b (sh_suspended s) (sh_unwound s) (sh_grants s)
    (sh_freezes s) (sh_cancels s) (sh_unknown s) (sh_downlevel s) (sh_log s).
Definition sh_set_suspended (s : shell) (b : bool) : shell :=
  mkShell (sh_result s) (sh_list s) (sh_failed s) b (sh_unwound s) (sh_grants s)
    (sh_freezes s) (sh_cancels s) (sh_unknown s) (sh_downlevel s) (sh_log s).
Definition sh_set_unwound (s : shell) (b : bool) : shell :=
  mkShell (sh_result s) (sh_list s) (sh_failed s) (sh_suspended s) b (sh_grants s)
    (sh_freezes s) (sh_cancels s) (sh_unknown s) (sh_downlevel s) (sh_log s).
Definition sh_set_downlevel (s : shell) (f : option unit) : shell :=
  mkShell (sh_result s) (sh_list s) (sh_failed s) (sh_suspended s) (sh_unwound s) (sh_grants s)
    (sh_freezes s) (sh_cancels s) (sh_unknown s) f (sh_log s).
Definition sh_write (s : shell) (args : list word) : shell :=
  mkShell (default ([], 0) (last args)) (sh_list s) (sh_failed s) (sh_suspended s) (sh_unwound s)
    (sh_grants s) (sh_freezes s) (sh_cancels s) (sh_unknown s) (sh_downlevel s) (map fst args :: sh_log s).

Definition sh_alloc (s : shell) (_ : alloc_kind) : bool * shell :=
  match sh_grants s with
  | [] => (true, s)
  | b :: bs =>
      (b, mkShell (sh_result s) (sh_list s) (sh_failed s) (sh_suspended s) (sh_unwound s) bs
            (sh_freezes s) (sh_cancels s) (sh_unknown s) (sh_downlevel s) (sh_log s))
  end.

Definition sh_ready (s : shell) : Z * shell :=
  let frozen := match sh_freezes s with b :: _ => b | [] => false end in
  let s := mkShell (sh_result s) (sh_list s) (sh_failed s) (sh_suspended s || frozen) (sh_unwound s)
             (sh_grants s) (tail (sh_freezes s)) (sh_cancels s) (sh_unknown s) (sh_downlevel s) (sh_log s) in
  (if sh_unwound s then TH8_ERROR else if sh_suspended s then TH8_SUSPEND else TH8_OK, s).

Definition sh_barrier (s : shell) : shell :=
  let canceled := match sh_cancels s with b :: _ => b | [] => false end in
  mkShell (sh_result s) (sh_list s) (sh_failed s) (sh_suspended s) (sh_unwound s || canceled)
    (sh_grants s) (sh_freezes s) (tail (sh_cancels s)) (sh_unknown s) (sh_downlevel s) (sh_log s).

#[export] Instance shell_subst : SubstInterp shell := {
  Th8_Ready := sh_ready;
  Th8_Eval s z := (TH8_OK, sh_put s (z, zlen z));
  th8SubstVarName s z := (TH8_OK, sh_put s (z, zlen z));
  Th8_GetResult := sh_result;
  Th8_SetResult s z n := (TH8_OK, sh_put s (z, n));
  Th8_ErrorMessage s _ := sh_put s ([], 0);
  set_out_of_memory s := sh_put s ([], 0);
  isListMode := sh_list
}.

#[export] Instance shell_words : WordInterp shell := {
  Th8_FindExpansion _ _ := None;
  report s _ := sh_put s ([], 0);
  set_isListMode := sh_set_list
}.

Definition sh_commands : list bytes :=
  map bytes_of_string ["log"; "fail"; "freeze"; "unwind"; "eval"]%string.

Definition sh_call (s : shell) (p : bytes) (args : list word) : Z * list (push unit) * shell :=
  let named (n : string) := bool_decide (p = bytes_of_string n) in
  if named "fail"%string then (TH8_ERROR, [], sh_write s args)
  else if named "freeze"%string then (TH8_OK, [], sh_set_suspended (sh_write s args) true)
  else if named "unwind"%string then (TH8_OK, [], sh_set_unwound (sh_write s args) true)
  else if bool_decide (p = unknown_name) then (TH8_OK, [], sh_set_unwound (sh_write s args) true)
  else if named "eval"%string then
    match args with
    | [_; w] => (TH8_OK, [PushEval w None], s)
    | _ => (TH8_ERROR, [], s)
    end
  else (TH8_OK, [], sh_write s args).

(** Strings without limits. *)
#[export] Instance shell_strings : StringInterp shell := {
  th8OversizeString s := s;
  nResultLimit _ := 0;
  th8BufferAlloc s _ :=
    match sh_grants s with
    | [] => (true, s)
    | b :: bs =>
        (b, mkShell (sh_result s) (sh_list s) (sh_failed s) (sh_suspended s) (sh_unwound s) bs
              (sh_freezes s) (sh_cancels s) (sh_unknown s) (sh_downlevel s) (sh_log s))
    end;
  set_limit_exceeded s := sh_put s ([], 0);
  set_append_failed s := sh_put (sh_set_failed s true) ([], 0)
}.

#[export] Instance shell_eval : EvalInterp shell unit bytes bytes unit unit := {
  eval_strings := shell_strings;
  TH8_ALLOC := sh_alloc;
  report_eval s _ := sh_put s ([], 0);
  bResultBuildFailed := sh_failed;
  set_bResultBuildFailed := sh_set_failed;
  Th8_TakeResult s := (sh_result s, sh_put s ([], 0));
  Th8_GetVar s _ := (TH8_ERROR, s);
  Th8_SetVar s _ _ := s;
  pCurrentNs _ := tt;
  pGlobalNs _ := tt;
  th8FindNamespace _ _ := None;
  find_command s _ z :=
    if bool_decide (z ∈ sh_commands) then Some z
    else if bool_decide (z = unknown_name) && sh_unknown s then Some z
    else None;
  find_subcommand _ _ _ := None;
  has_subcommands _ _ := false;
  xProc _ c := Some c;
  call_proc := sh_call;
  th8EnsembleError s _ _ := (TH8_ERROR, s);
  call_client s _ rc := (rc, [], s);
  xPolicyCb s _ _ _ _ _ := (TH8_OK, s);
  th8DrainPendingDeletes s := s;
  frames _ := [tt];
  set_pFrame s _ := s;
  pDownlevelFrame := sh_downlevel;
  set_pDownlevelFrame := sh_set_downlevel;
  frame_ns _ _ := None;
  set_pCurrentNs s _ := s;
  th8MemBarrier := sh_barrier;
  th8CheckCancel := sh_unwound;
  Th8_IsBeingUnwound s := (sh_unwound s, s);
  Th8_IsCanceled s := (if sh_unwound s then TH8_ERROR else TH8_OK, sh_put s ([], 0));
  th8ClearCancel s := sh_set_unwound s false;
  Th8_IsSuspended := sh_suspended;
  set_bSuspended := sh_set_suspended
}.

Definition sh0 : shell := mkShell ([], 0) false false false false [] [] [] false None [].
Definition sh_boot : shell → machine shell unit unit := boot.
Definition sh_script (z : bytes) : word := (z, zlen z).

#[local] Abbreviation yes := (λ _ : Z, true).
Definition sh_eval (z : bytes) (m : machine shell unit unit) : res fault (Z * machine shell unit unit) :=
  th8EvalCommon yes yes yes 200 0 (sh_script z) None 0 m.
Definition sh_thaw (m : machine shell unit unit) : res fault (Z * machine shell unit unit) :=
  Th8_Thaw yes yes yes 200 m.

(** What a run shows: its code, the commands run, oldest first, the depth and the
    number of blocks left. *)
Definition sh_show (o : res fault (Z * machine shell unit unit))
    : option (Z * list (list bytes) * Z * nat) :=
  match o with
  | Ok (rc, m) => Some (rc, rev (sh_log (it (interp m))), nEvalDepth (interp m), size (heap m))
  | Err _ => None
  end.

Definition cmd (l : list string) : list bytes := map bytes_of_string l.

Definition NL : string := String (Ascii.ascii_of_nat 10) EmptyString.
Definition prog (s : string) : bytes := bytes_of_string s.

Definition then_thaw (o : res fault (Z * machine shell unit unit)) :=
  (let* (_, m) := o in sh_thaw m)%res.

Definition with_schedules (grants freezes cancels : list bool) (unknown : bool) : shell :=
  mkShell ([], 0) false false false false grants freezes cancels unknown None [].
Definition later (n : nat) (b : bool) : list bool := replicate n (negb b) ++ [b].

(** ** Runs *)

(** A run to the end, with nested scripts and a failure. *)
Example shell_runs :
  sh_show (sh_eval (prog "log a; log [log b] c; eval {log d; fail}; log e") (sh_boot sh0)) =
  Some (TH8_ERROR, map cmd [["log"; "a"]; ["log"; "b"]; ["log"; "b"; "c"]; ["log"; "d"]; ["fail"]]%string,
        0, 0%nat).
Proof. vm_compute. reflexivity. Qed.

(** ** Freezing *)

(** A script frozen between two commands goes on when it is thawed. *)
Example thaw_completes :
  sh_show (then_thaw (sh_eval (prog "log a; freeze; log b") (sh_boot sh0))) =
  Some (TH8_OK, map cmd [["log"; "a"]; ["freeze"]; ["log"; "b"]]%string, 0, 0%nat).
Proof. vm_compute. reflexivity. Qed.

(** A script that freezes again while it is thawed is lost: the next thaw finds
    nothing, its last command never runs, the depth stays raised and its
    blocks are never freed. *)
Example second_freeze_loses_rest :
  sh_show (then_thaw (then_thaw (sh_eval (prog "freeze; log a; freeze; log b") (sh_boot sh0)))) =
  Some (TH8_OK, map cmd [["freeze"]; ["log"; "a"]; ["freeze"]]%string, 1, 2%nat).
Proof. vm_compute. reflexivity. Qed.

(** A freeze that is noticed while the words of a command with brackets are
    built is resumed as if the words were complete: the command is skipped, its
    words are lost, or its nested script is. *)
Example freeze_in_brackets :
  let run k := sh_show (then_thaw (sh_eval (prog "log [log b] c; log d")
                          (sh_boot (with_schedules [] (later k true) [] false)))) in
  run 1%nat = Some (TH8_OK, [cmd ["log"; "d"]%string], 0, 0%nat) ∧
  run 2%nat = Some (TH8_OK, map cmd [["log"]; ["log"; "d"]]%string, 0, 0%nat) ∧
  run 3%nat = Some (TH8_OK, map cmd [["log"; EmptyString; "c"]; ["log"; "d"]]%string, 0, 0%nat).
Proof. vm_compute. split_and!; reflexivity. Qed.

(** A command that was rewound by a freeze counts its newlines twice. *)
Example thaw_counts_lines_twice :
  let line o := match o with Ok (_, m) => nErrorLine (interp m) | Err _ => -1 end in
  let script := prog "log {a" ++ prog NL ++ prog "b}; fail" in
  let run freezes := sh_eval script (sh_boot (with_schedules [] freezes [] false)) in
  line (run []) = 2 ∧ line (then_thaw (run (later 2 true))) = 3.
Proof. vm_compute. split; reflexivity. Qed.

(** A cancellation that reaches a frozen script lowers the depth, and thawing it
    lowers the depth below zero. *)
Example freeze_and_cancel_depth :
  let o := then_thaw (sh_eval (prog "freeze; log b")
             (sh_boot (with_schedules [] [] (later 2 true) false))) in
  match o with Ok (_, m) => nEvalDepth (interp m) | Err _ => 0 end = -1.
Proof. vm_compute. reflexivity. Qed.

(** ** Running out of memory *)

(** The state of the script cannot be allocated: the depth stays raised. *)
Example no_state_keeps_depth :
  sh_show (sh_eval (prog "log a") (sh_boot (with_schedules (later 0 false) [] [] false))) =
  Some (TH8_ERROR, [], 1, 0%nat).
Proof. vm_compute. reflexivity. Qed.

(** The continuation of a word, or its nested script, cannot be pushed: the
    command runs without the rest of its words, or without the result. *)
Example lost_continuation_runs_command :
  let run k := sh_show (sh_eval (prog "log [log b] c; log d")
                          (sh_boot (with_schedules (later k false) [] [] false))) in
  (log ← run 5%nat; head (snd (fst (fst log)))) = Some (cmd ["log"; "b"]%string) ∧
  (log ← run 5%nat; (snd (fst (fst log)) !! 1%nat)) = Some (cmd ["log"]%string) ∧
  (log ← run 6%nat; head (snd (fst (fst log)))) = Some (cmd ["log"; EmptyString; "c"]%string).
Proof. vm_compute. split_and!; reflexivity. Qed.

(** ** Unwinding *)

(** An unwound unknown handler leaves the guard against its recursion set, so
    that no unknown handler is called again. *)
Example unwind_keeps_guard :
  match sh_eval (prog "nosuch") (sh_boot (with_schedules [] [] [] true)) with
  | Ok (_, m) => (bInUnknown (interp m), size (heap m)) | Err _ => (false, 0%nat)
  end = (true, 3%nat).
Proof. vm_compute. reflexivity. Qed.

(** ** Witnesses *)

Lemma eval_keeps_chain_witness :
  match run_calls yes yes yes 200 [HostEval 0 (sh_script (prog "freeze; log b")) None 0] (sh_boot sh0) with
  | Ok m => match th8EvalCommon yes yes yes 200 0 (sh_script (prog "log a")) None 0 m with
            | Ok (rc, m') => rc = TH8_SUSPEND ∧ pCallbacks m' = pCallbacks m
            | Err _ => False
            end
  | Err _ => False
  end.
Proof.
  destruct (run_calls yes yes yes 200 _ (sh_boot sh0)) as [m|] eqn:Hm; [|vm_compute in Hm; congruence].
  destruct (th8EvalCommon _ _ _ _ _ _ _ _ m) as [[rc m']|] eqn:He.
  - split; [|exact (eval_keeps_chain yes yes yes 200 _ sh0 m _ _ _ _ rc m' Hm He)].
    revert He. vm_compute in Hm. injection Hm as <-. vm_compute. by intros [= <- _].
  - revert He. vm_compute in Hm. injection Hm as <-. vm_compute. congruence.
Defined.

Lemma eval_taint_gate_witness :
  let m := sh_boot (sh_set_downlevel sh0 (Some tt)) in
  let z := prog "log a" in
  let n := Z.lor (zlen z) TH8_TAINT_BIT in
  let logged := Some (TH8_OK, [cmd ["log"; "a"]%string], 0, 0%nat) in
  TH8_TAINTED n = true ∧
  (∃ m', th8EvalCommon yes yes yes 200 0 (z, n) None 0 m = Ok (TH8_ERROR, m') ∧
     pCallbacks m' = pCallbacks m ∧ heap m' = heap m ∧
     nEvalDepth (interp m') = nEvalDepth (interp m)) ∧
  sh_show (Th8_EvalDownlevel yes yes yes 200 (z, n) None m) = logged ∧
  sh_show (th8EvalCommon yes yes yes 200 0 (z ++ [0; 120], TH8_NOLEN) None 0 m) = logged.
Proof.
  intros m z n logged. assert (Ht : TH8_TAINTED n = true) by (vm_compute; reflexivity).
  destruct (eval_taint_gate yes yes yes 200 0 z n None 0 m Ht) as [H1 H2].
  destruct (eval_taint_gate yes yes yes 200 0 (z ++ [0; 120]) TH8_NOLEN None 0 m eq_refl) as (_ & H3 & _);
    [vm_compute; congruence|].
  split; [exact Ht|]. split; [exact H1|]. split; [rewrite H2|rewrite H3]; vm_compute; reflexivity.
Defined.
