(* ===== verification/EvalLoop.v ===== *)
(** * EvalLoop: the evaluator as a recursive loop, and the callback-driven
    evaluator (Eval) against it.

    The loop evaluates a script command by command, evaluates a nested script
    where it meets it, and runs what a command pushed right after the command.
    It has no chain and no heap.  It gives up, with no result, where the
    evaluator is interrupted (unwound, suspended or yielding) and where an
    allocation of the evaluator fails; a cancellation without unwinding is part
    of it. *)

From S2P Require Import Prelude Memory Strings Buffer Parser Script Subst Split Eval EvalSafety EvalShell.
#[local] Open Scope Z_scope.

Section loop.
Context {I Ns Cmd Proc Client Frame : Type} `{SI : SubstInterp I} `{WI : !WordInterp I}
  `{EI : !EvalInterp I Ns Cmd Proc Client Frame}.
Context (realloc_ok alloc_ok argv_ok : Z → bool).

#[local] Abbreviation Interp := (Th8_Interp I Frame).
#[local] Abbreviation machine := (machine I Client Frame).
#[local] Abbreviation outcome := (outcome (I := I) (A := words)).

(** What is evaluated: a script, the commands of a script from a position on, a
    command being built, a command with its arguments, and what a command
    pushed. *)
Inductive work : Type :=
| WScript (p : word) (zName : option bytes) (flags : Z)
| WLoop (s : Th8_EvalState)
| WBuild (s : Th8_EvalState) (wasListMode : bool) (o : outcome)
| WCall (s : Th8_EvalState) (args : list word)
| WPushes (ps : list (push Client)).

Definition is_yield (rc : Z) : bool := rc =? TH8_YIELD.
Definition ended (rc : Z) (r : Interp) : option (Z * Interp) :=
  if is_yield rc then None else Some (rc, r).

(** A callback is about to run. *)
Definition polled (rc : Z) (r : Interp) : option (Z * Interp) :=
  match poll rc (it r) with PollRun rc i => Some (rc, with_it r i) | _ => None end.

Definition granted (k : alloc_kind) (r : Interp) : option Interp :=
  let '(ok, i) := TH8_ALLOC (it r) k in if ok then Some (with_it r i) else None.

(** After a command: its error is traced, its success goes on. *)
Definition post_command (s : Th8_EvalState) (unknown : bool) (rc : Z) (r : Interp)
    : Z * Interp :=
  let r := if unknown then with_unknown r false else r in
  if rc =? TH8_ERROR then (TH8_ERROR, snd (trace_command r s)) else (rc, r).

Definition enter_eval (r : Interp) (i : I) : Interp :=
  mkInterp (nEvalDepth r + 1) 1 (nErrorLine r) (bInUnknown r) (pSavedFrame r) i.

Fixpoint eval_ref (fuel : nat) (w : work) (rc : Z) (r : Interp) : option (Z * Interp) :=
  match fuel with
  | O => None
  | S f =>
      let goes_on s (r : Interp) := r ← granted ACallback r; eval_ref f (WLoop s) TH8_OK r in
      match w with
      | WScript p zName flags =>
          if TH8_TAINTED (snd p) then Some (TH8_ERROR, with_it r (report_eval (it r) ETaintedScript))
          else if 1000 <? nEvalDepth r then Some (TH8_ERROR, with_it r (report_eval (it r) ETooDeep))
          else
            let '(rc, i) := Th8_Ready (it r) in
            if rc =? TH8_SUSPEND then Some (TH8_SUSPEND, with_it r i)
            else if negb (rc =? TH8_OK) then Some (TH8_ERROR, with_it r i)
            else
              let '(rc, i) := xPolicyCb i TH8_PHASE_PRE zName (fst p) flags TH8_OK in
              let nSavedLine := nLine r in
              let r := enter_eval r i in
              if negb (rc =? TH8_OK) then ended rc (leave_eval r nSavedLine)
              else
                r ← granted AEvalState r;
                r ← granted ACallback r;
                '(rc, r) ← goes_on (mkEvalState (fst p) (fst p) (fst p) nSavedLine flags zName) r;
                '(rc, r) ← polled rc r;
                let i := snd (xPolicyCb (it r) TH8_PHASE_POST zName (fst p) flags rc) in
                ended rc (leave_eval (with_it r i) nSavedLine)
      | WLoop s =>
          '(rc, r) ← polled rc r;
          if negb (rc =? TH8_OK) then ended rc r
          else
            match next_command realloc_ok (zInput s) (nLine r) with
            | Exhausted l => Some (TH8_OK, with_line r l)
            | ScanFailed e _ l => Some (TH8_ERROR, with_it (with_line r l) (Th8_ErrorMessage (it r) e))
            | ScanOverread => None
            | Command zFirst zInput l =>
                let s := at_command s zFirst zInput in
                let r := with_line r l in
                if th8CmdHasBracket (command_text s) then
                  r ← granted ACmdBuild r;
                  let wasListMode := isListMode (it r) in
                  r ← granted ACallback (with_it r (set_isListMode (it r) false));
                  eval_ref f (WBuild s wasListMode
                    (th8NRSubstAndBuild realloc_ok alloc_ok (WS := words_store alloc_ok)
                       (build_init words_init (command_text s)) (it r))) TH8_OK r
                else
                  let '(rc, argv, i) :=
                    th8SplitCommand realloc_ok alloc_ok argv_ok (it r) (command_text s) in
                  let r := with_it r i in
                  if interrupted rc then None
                  else if negb (rc =? TH8_OK) then
                    let '(ok, i) := trace_words (it r) s in
                    Some (if ok then rc else TH8_ERROR, with_error_line (with_it r i) (nLine r))
                  else
                    match argv with
                    | None => goes_on s r
                    | Some v => eval_ref f (WCall s (argv_words v)) TH8_OK r
                    end
            end
      | WBuild s wasListMode (rc, zScript, b, i) =>
          let r := with_it r i in
          let th8FreeCmdBuild i := set_isListMode i wasListMode in
          if is_yield rc then None
          else
            match zScript with
            | Some z =>
                r ← granted ACallback r;
                r ← granted ACallback r;
                '(rc, r) ← polled rc r;
                '(rc, r) ← eval_ref f (WScript (scheduled (plain_word_of z)) (zName s) 0) rc r;
                '(rc, r) ← polled rc r;
                eval_ref f (WBuild s wasListMode
                  (th8NRCmdSubstDone realloc_ok alloc_ok (WS := words_store alloc_ok) b rc (it r))) rc r
            | None =>
                '(rc, r) ← polled rc r;
                if negb (rc =? TH8_OK) then
                  let r := if rc =? TH8_ERROR
                           then with_error_line (with_it r (snd (trace_words (it r) s))) (nLine r)
                           else r in
                  ended rc (with_it r (th8FreeCmdBuild (it r)))
                else
                  let '(rc, argv, i) := finish_build argv_ok th8FreeCmdBuild (acc b) (it r) in
                  let r := with_it r i in
                  match argv with
                  | None => if rc =? TH8_OK then goes_on s r else ended rc r
                  | Some v => eval_ref f (WCall s (argv_words v)) TH8_OK r
                  end
            end
      | WCall s args =>
          let '(plan, r) := plan_call r args in
          let call pCmd args (unknown : bool) (r : Interp) :=
            r ← granted ACallback r;
            let r := if unknown then with_unknown r true else r in
            let '(rc, ps, i) := th8InvokeCommand (it r) pCmd args in
            if is_yield rc then None
            else
              '(rc, r) ← eval_ref f (WPushes ps) rc (with_it r i);
              '(rc, r) ← polled rc r;
              let '(rc, r) := post_command s unknown rc r in
              if rc =? TH8_OK then goes_on s r else ended rc r in
          match plan with
          | PlanDrop => Some (TH8_ERROR, r)
          | PlanFail rc =>
              r ← granted ACallback r;
              if is_yield rc then None
              else
                '(rc, r) ← polled rc r;
                let '(rc, r) := post_command s false rc r in
                if rc =? TH8_OK then goes_on s r else ended rc r
          | PlanUnknown pUnk args => call pUnk args true r
          | PlanCall pCmd => call pCmd args false r
          end
      | WPushes [] => Some (rc, r)
      | WPushes (p :: ps) =>
          '(rc, r) ← polled rc r;
          '(rc, r) ←
            match p with
            | PushEval p zName => eval_ref f (WScript (scheduled p) zName 0) rc r
            | PushClient c =>
                let '(rc, ps, i) := call_client (it r) c rc in
                if is_yield rc then None else eval_ref f (WPushes ps) rc (with_it r i)
            end;
          eval_ref f (WPushes ps) rc r
      end
  end.

(** ** Steps of the trampoline *)

#[local] Abbreviation run := (th8RunCallbacks realloc_ok alloc_ok argv_ok).
#[local] Abbreviation M := (mkMachine (I := I) (Client := Client) (Frame := Frame)).

(** The trampoline goes from one configuration to another without reaching the
    end of [c]. *)
Definition steps (c : list (callback Client)) (x y : Z * machine) : Prop :=
  ∃ n, ∀ fuel bottom, (bottom <= length c)%nat →
    run (n + fuel) bottom (fst x) (snd x) = run fuel bottom (fst y) (snd y).

Lemma steps_refl c x : steps c x x.
Proof. by exists O. Qed.

Lemma steps_trans c x y z : steps c x y → steps c y z → steps c x z.
Proof.
  intros [n Hn] [k Hk]. exists (n + k)%nat. intros fuel bottom Hb.
  rewrite <- Nat.add_assoc, Hn, Hk; done.
Qed.

Lemma steps_under cb c x y : steps (cb :: c) x y → steps c x y.
Proof. intros [n Hn]. exists n. intros fuel bottom Hb. apply Hn. simpl. lia. Qed.

Lemma polled_inv rc (r : Interp) rc1 r1 :
  polled rc r = Some (rc1, r1) → ∃ i, poll rc (it r) = PollRun rc1 i ∧ r1 = with_it r i.
Proof. unfold polled. destruct (poll _ _) as [| |rc' i]; intros; simplify_eq. by exists i. Qed.

(** One callback runs. *)
Lemma steps_pop c cb su h rc r rc1 r1 rc2 m2 :
  polled rc r = Some (rc1, r1) →
  run_callback realloc_ok alloc_ok argv_ok cb rc1 (M c su h r1) = Ok (rc2, m2) →
  is_yield rc2 = false →
  steps c (rc, M (cb :: c) su h r) (rc2, m2).
Proof.
  intros (i & Hp & ->)%polled_inv Hr Hy. exists 1%nat. intros fuel bottom Hb.
  cbn [fst snd Nat.add th8RunCallbacks pCallbacks].
  destruct (length (cb :: c) =? bottom)%nat eqn:E.
  { apply Nat.eqb_eq in E. simpl in E. lia. }
  cbn [interp]. rewrite Hp.
  change (with_chain (set_it (M (cb :: c) su h r) i) c) with (M c su h (with_it r i)).
  rewrite Hr. cbn [res_bind]. unfold is_yield in Hy. by rewrite Hy.
Qed.

Lemma granted_inv k (r r1 : Interp) :
  granted k r = Some r1 → ∃ i, TH8_ALLOC (it r) k = (true, i) ∧ r1 = with_it r i.
Proof. unfold granted. destruct (TH8_ALLOC _ _) as [[] i]; intros; simplify_eq. by exists i. Qed.

Lemma granted_push k cb c su h (r r1 : Interp) :
  granted ACallback r = Some r1 → k = Th8_NRAddCallback cb (M c su h r) →
  k = (TH8_OK, M (cb :: c) su h r1).
Proof.
  unfold granted, Th8_NRAddCallback. simpl. destruct (TH8_ALLOC _ _) as [[] i]; [|done].
  by intros [= <-] ->.
Qed.

Lemma push_granted cb c su h (r r1 : Interp) :
  granted ACallback r = Some r1 →
  Th8_NRAddCallback cb (M c su h r) = (TH8_OK, M (cb :: c) su h r1).
Proof. intros H. by eapply granted_push. Qed.

(** ** The simulation *)

Definition same_script (s s' : Th8_EvalState) : Prop :=
  zProgram s' = zProgram s ∧ flags s' = flags s ∧ zName s' = zName s ∧ nSavedLine s' = nSavedLine s.

(** What the evaluator does for a piece of work: where the loop ends with [rc']
    and [r'], it comes back to the chain and the heap it started from, with the
    same code and the same interpreter. *)
Definition simulates (w : work) (rc : Z) (r : Interp) (rc' : Z) (r' : Interp) : Prop :=
  match w with
  | WScript p zName flags =>
      ∀ c su h, ∃ rc1 m1,
        th8EvalLocal p zName flags (M c su h r) = (rc1, m1) ∧ is_yield rc1 = false ∧
        steps c (rc1, m1) (rc', M c su h r')
  | WLoop s =>
      ∀ c su h k, h !! k = Some (BState s) → ∃ s', same_script s s' ∧
        steps c (rc, M (CbEvalIteration k :: c) su h r) (rc', M c su (<[k := BState s']> h) r')
  | WBuild s wl o =>
      ∀ c su h k kb b0, h !! k = Some (BState s) → kb ≠ k → h !! kb = Some (BBuild b0 wl k) →
        ∃ s' rc1 m1, same_script s s' ∧
        keep_build kb wl k o (M (CbNRCmdDispatch kb k :: c) su h r) = Ok (rc1, m1) ∧
        is_yield rc1 = false ∧
        steps c (rc1, m1) (rc', M c su (<[k := BState s']> (delete kb h)) r')
  | WCall s args =>
      ∀ c su h k a v, h !! k = Some (BState s) → a ≠ k → h !! a = Some (BArgv v) →
        ∃ s' rc1 m1, same_script s s' ∧
        dispatch k a args (M c su h r) = Ok (rc1, m1) ∧ is_yield rc1 = false ∧
        steps c (rc1, m1) (rc', M c su (<[k := BState s']> (delete a h)) r')
  | WPushes ps =>
      ∀ c su h, steps c (rc, M (map of_push ps ++ c) su h r) (rc', M c su h r')
  end.

Lemma same_script_refl s : same_script s s.
Proof. by split_and!. Qed.

Lemma same_script_trans s1 s2 s3 : same_script s1 s2 → same_script s2 s3 → same_script s1 s3.
Proof. intros (? & ? & ? & ?) (? & ? & ? & ?). split_and!; congruence. Qed.

Lemma same_script_at s zf zi : same_script s (at_command s zf zi).
Proof. by split_and!. Qed.

Lemma state_at c su h (r : Interp) k s : h !! k = Some (BState s) → the_state (M c su h r) k = Ok s.
Proof. intros H. unfold the_state. simpl. by rewrite H. Qed.

Section step.
Context (f : nat).
Context (IH : ∀ w rc r rc' r', eval_ref f w rc r = Some (rc', r') → simulates w rc r rc' r').

Lemma ended_inv rc (r : Interp) rc' r' : ended rc r = Some (rc', r') → is_yield rc = false ∧ rc' = rc ∧ r' = r.
Proof. unfold ended. destruct (is_yield rc) eqn:E; intros; by simplify_eq. Qed.

(** The next iteration. *)
Lemma sim_goes_on s r rc' r' c su h k :
  (r1 ← granted ACallback r; eval_ref f (WLoop s) TH8_OK r1) = Some (rc', r') →
  h !! k = Some (BState s) →
  ∃ m1 s', Th8_NRAddCallback (CbEvalIteration k) (M c su h r) = (TH8_OK, m1) ∧ same_script s s' ∧
    steps c (TH8_OK, m1) (rc', M c su (<[k := BState s']> h) r').
Proof.
  intros H Hk. destruct (granted ACallback r) as [r1|] eqn:Eg; [|done]. simpl in H.
  apply IH in H. destruct (H c su h k Hk) as (s' & Hs & Hst).
  rewrite (push_granted _ _ _ _ _ _ Eg). by eexists _, s'.
Qed.

Lemma sim_pushes ps rc r rc' r' :
  eval_ref (S f) (WPushes ps) rc r = Some (rc', r') → simulates (WPushes ps) rc r rc' r'.
Proof.
  destruct ps as [|p ps]; cbn [eval_ref].
  { intros [= <- <-] c su h. apply steps_refl. }
  destruct (polled rc r) as [[rc1 r1]|] eqn:Ep; [|done]. cbn [mbind option_bind].
  intros H c su h. cbn [map app].
  match type of H with (x ← ?y; _) = _ => destruct y as [[rc2 r2]|] eqn:E2; [|done] end.
  cbn [mbind option_bind] in H. apply IH in H. specialize (H c su h).
  eapply steps_trans; [|exact H]. destruct p as [p zName|cl]; cbn [of_push].
  - apply IH in E2. destruct (E2 (map of_push ps ++ c) su h) as (rc3 & m3 & E3 & Hy & Hst).
    assert (Hle : ∀ x y, steps (map of_push ps ++ c) x y → steps c x y).
    { intros x y [n Hn]. exists n. intros fuel b Hb. apply Hn. rewrite length_app. lia. }
    apply Hle. eapply steps_trans; [|exact Hst]. eapply steps_pop; [exact Ep|simpl; by rewrite E3|done].
  - destruct (call_client (it r1) cl rc1) as [[rc3 ps3] i] eqn:E3.
    destruct (is_yield rc3) eqn:Ey; [done|]. apply IH in E2.
    assert (Hle : ∀ x y, steps (map of_push ps ++ c) x y → steps c x y).
    { intros x y [n Hn]. exists n. intros fuel b Hb. apply Hn. rewrite length_app. lia. }
    apply Hle. eapply steps_trans; [|apply (E2 (map of_push ps ++ c) su h)].
    eapply steps_pop; [exact Ep|simpl; by rewrite E3|done].
Qed.

Definition drop_wrapper (az : option blk) (h : gmap blk (block I)) : gmap blk (block I) :=
  match az with Some w => delete w h | None => h end.

Lemma free_at c su h (r : Interp) k b :
  h !! k = Some b → free_block (M c su h r) k = Ok (M c su (delete k h) r).
Proof. intros H. unfold free_block. simpl. by rewrite H. Qed.

(** The post-command callback. *)
Lemma sim_post s az rc r rc' r' c su h k a v :
  ('(rc, r) ← polled rc r;
   let '(rc, r) := post_command s (bool_decide (is_Some az)) rc r in
   if rc =? TH8_OK then r ← granted ACallback r; eval_ref f (WLoop s) TH8_OK r else ended rc r)
    = Some (rc', r') →
  h !! k = Some (BState s) → a ≠ k → h !! a = Some (BArgv v) →
  match az with Some w => w ≠ k ∧ w ≠ a ∧ is_Some (h !! w) | None => True end →
  ∃ s', same_script s s' ∧
    steps c (rc, M (CbEvalPostCmd k a az :: c) su h r)
            (rc', M c su (<[k := BState s']> (delete a (drop_wrapper az h))) r').
Proof.
  intros H Hk Ha Hv Hw. destruct (polled rc r) as [[rc1 r1]|] eqn:Ep; [|done]. simpl in H.
  set (h1 := delete a (drop_wrapper az h)).
  assert (Hk1 : h1 !! k = Some (BState s)).
  { subst h1. rewrite lookup_delete_ne by done. destruct az as [w|]; simpl; [|done].
    destruct Hw. by rewrite lookup_delete_ne. }
  assert (Hrun : ∀ rc2 m2, (let* m := Ok (M c su h1 (if bool_decide (is_Some az)
                               then with_unknown r1 false else r1)) in
      if rc1 =? TH8_ERROR then
        let* s := the_state m k in
        let '(_, r) := trace_command (interp m) s in Ok (TH8_ERROR, with_interp m r)
      else if rc1 =? TH8_OK then Ok (TH8_OK, snd (Th8_NRAddCallback (CbEvalIteration k) m))
      else Ok (rc1, m))%res = Ok (rc2, m2) →
    run_callback realloc_ok alloc_ok argv_ok (CbEvalPostCmd k a az) rc1 (M c su h r1) = Ok (rc2, m2)).
  { intros rc2 m2 <-. cbn [run_callback]. unfold th8EvalPostCmd. subst h1. destruct az as [w|].
    - destruct Hw as (? & ? & [b Hb]). rewrite (bool_decide_eq_true_2 _ (mk_is_Some _ _ eq_refl)).
      change (with_interp (M c su h r1) ?x) with (M c su h x). erewrite free_at by exact Hb.
      cbn [res_bind]. erewrite free_at by (rewrite lookup_delete_ne by done; exact Hv). done.
    - cbn [res_bind]. erewrite free_at by exact Hv. done. }
  cbn [res_bind] in Hrun. unfold post_command in H. cbv zeta in H.
  set (r2 := if bool_decide _ then _ else _) in *. rewrite (state_at _ _ _ _ _ _ Hk1) in Hrun.
  cbn [res_bind interp] in Hrun. destruct (rc1 =? TH8_ERROR) eqn:Ee.
  - change (TH8_ERROR =? TH8_OK) with false in H. cbn [snd] in H.
    destruct (trace_command r2 s) as [ok r3] eqn:Et. simpl in H.
    apply ended_inv in H as (Hy & -> & ->). exists s. split; [apply same_script_refl|].
    rewrite insert_id by done. eapply steps_pop; [exact Ep|by apply Hrun|done].
  - destruct (rc1 =? TH8_OK) eqn:Eo.
    + destruct (sim_goes_on s r2 rc' r' c su h1 k H Hk1) as (m1 & s' & Hm & Hs & Hst).
      rewrite Hm in Hrun. exists s'. split; [done|].
      eapply steps_trans; [|exact Hst]. eapply steps_pop; [exact Ep|by apply Hrun|done].
    + apply ended_inv in H as (Hy & -> & ->). exists s. split; [apply same_script_refl|].
      rewrite insert_id by done. eapply steps_pop; [exact Ep|by apply Hrun|done].
Qed.

Lemma alloc_at c su h (r : Interp) b :
  alloc_block (M c su h r) b =
    (fresh (dom h : gset nat), M c su (<[fresh (dom h : gset nat) := b]> h) r).
Proof. done. Qed.

Lemma fresh_none (h : gmap blk (block I)) : h !! fresh (dom h : gset nat) = None.
Proof. apply not_elem_of_dom, is_fresh. Qed.

(** A command is called, with its post-command callback below what it pushes. *)
Lemma sim_invoke s (pCmd : Cmd) args az r rc' r' c su h k a v :
  (r ← granted ACallback r;
   let r := if bool_decide (is_Some az) then with_unknown r true else r in
   let '(rc, ps, i) := th8InvokeCommand (it r) pCmd args in
   if is_yield rc then None
   else
     '(rc, r) ← eval_ref f (WPushes ps) rc (with_it r i);
     '(rc, r) ← polled rc r;
     let '(rc, r) := post_command s (bool_decide (is_Some az)) rc r in
     if rc =? TH8_OK then r ← granted ACallback r; eval_ref f (WLoop s) TH8_OK r else ended rc r)
    = Some (rc', r') →
  h !! k = Some (BState s) → a ≠ k → h !! a = Some (BArgv v) →
  match az with Some w => w ≠ k ∧ w ≠ a ∧ is_Some (h !! w) | None => True end →
  ∃ s' rc1 m1, same_script s s' ∧
    invoke pCmd args
      (let m := snd (Th8_NRAddCallback (CbEvalPostCmd k a az) (M c su h r)) in
       if bool_decide (is_Some az) then with_interp m (with_unknown (interp m) true) else m)
      = (rc1, m1) ∧ is_yield rc1 = false ∧
    steps c (rc1, m1) (rc', M c su (<[k := BState s']> (delete a (drop_wrapper az h))) r').
Proof.
  intros H Hk Ha Hv Hw. destruct (granted ACallback r) as [r1|] eqn:Eg; [|done].
  cbn [mbind option_bind] in H. rewrite (push_granted _ _ _ _ _ _ Eg). cbv zeta in *. cbn [snd].
  set (r2 := if bool_decide _ then _ else _) in H.
  assert (E : (if bool_decide (is_Some az)
               then with_interp (M (CbEvalPostCmd k a az :: c) su h r1)
                      (with_unknown (interp (M (CbEvalPostCmd k a az :: c) su h r1)) true)
               else M (CbEvalPostCmd k a az :: c) su h r1)
              = M (CbEvalPostCmd k a az :: c) su h r2) by (subst r2; by case_match).
  rewrite E. unfold invoke. cbn [interp].
  destruct (th8InvokeCommand _ _ _) as [[rc1 ps] i] eqn:Ei. destruct (is_yield rc1) eqn:Ey; [done|].
  destruct (eval_ref f (WPushes ps) rc1 (with_it r2 i)) as [[rc3 r3]|] eqn:E3; [|done].
  cbn [mbind option_bind] in H. apply IH in E3.
  destruct (sim_post s az rc3 r3 rc' r' c su h k a v H Hk Ha Hv Hw) as (s' & Hs & Hst).
  exists s', rc1. eexists. split_and!; [done..|]. eapply steps_trans; [|exact Hst].
  eapply steps_under. exact (E3 (CbEvalPostCmd k a az :: c) su h).
Qed.

Lemma sim_call s args rc r rc' r' :
  eval_ref (S f) (WCall s args) rc r = Some (rc', r') → simulates (WCall s args) rc r rc' r'.
Proof.
  cbn [eval_ref]. intros H c su h k a v Hk Ha Hv. unfold dispatch. cbn [interp].
  destruct (plan_call r args) as [plan r0]. cbv zeta in H |- *.
  change (with_interp (M c su h r) r0) with (M c su h r0).
  destruct plan as [rc1| |pUnk args'|pCmd].
  - destruct (granted ACallback r0) as [r1|] eqn:Eg; [|done]. cbn [mbind option_bind] in H.
    rewrite (push_granted _ _ _ _ _ _ Eg). destruct (is_yield rc1) eqn:Ey; [done|].
    destruct (sim_post s None rc1 r1 rc' r' c su h k a v H Hk Ha Hv Logic.I) as (s' & Hs & Hst).
    exists s', rc1. eexists. by split_and!.
  - injection H as <- <-. erewrite free_at by done. cbn [res_bind].
    exists s, TH8_ERROR. eexists. split_and!; [done..|]. rewrite insert_id; [apply steps_refl|].
    by rewrite lookup_delete_ne.
  - rewrite alloc_at. set (w := fresh _). pose proof (fresh_none h : h !! w = None) as Hf.
    assert (w ≠ k) by congruence. assert (w ≠ a) by congruence.
    destruct (sim_invoke s pUnk args' (Some w) r0 rc' r' c su (<[w := BWrapper args']> h) k a v)
      as (s' & rc1 & m1 & Hs & Hi & Hy & Hst).
    { by rewrite (bool_decide_eq_true_2 _ (mk_is_Some _ _ eq_refl)). }
    { by rewrite lookup_insert_ne. } { done. } { by rewrite lookup_insert_ne. }
    { split_and!; [done..|]. rewrite lookup_insert_eq. done. }
    exists s', rc1, m1. rewrite (bool_decide_eq_true_2 _ (mk_is_Some _ _ eq_refl)) in Hi.
    cbv zeta in Hi. rewrite Hi. split_and!; [done..|]. simpl in Hst.
    by rewrite delete_insert_id in Hst.
  - destruct (sim_invoke s pCmd args None r0 rc' r' c su h k a v H Hk Ha Hv Logic.I)
      as (s' & rc1 & m1 & Hs & Hi & Hy & Hst).
    exists s', rc1, m1. cbn in Hi. rewrite Hi. by split_and!.
Qed.

(** The cleanup of a script. *)
Lemma sim_cleanup s0 s rc r rc' r' c su h k :
  ('(rc, r) ← polled rc r;
   let i := snd (xPolicyCb (it r) TH8_PHASE_POST (zName s0) (zProgram s0) (flags s0) rc) in
   ended rc (leave_eval (with_it r i) (nSavedLine s0))) = Some (rc', r') →
  h !! k = Some (BState s) → same_script s0 s →
  steps c (rc, M (CbEvalStateCleanup k :: c) su h r) (rc', M c su (delete k h) r').
Proof.
  intros H Hk (E1 & E2 & E3 & E4). destruct (polled rc r) as [[rc1 r1]|] eqn:Ep; [|done].
  cbn [mbind option_bind] in H. apply ended_inv in H as (Hy & -> & ->).
  eapply steps_pop; [exact Ep| |done]. cbn [run_callback]. unfold th8EvalStateCleanup.
  rewrite (state_at _ _ _ _ _ _ Hk). cbn [res_bind interp]. rewrite E1, E2, E3, E4.
  change (with_interp (M c su h r1) ?x) with (M c su h x). by erewrite free_at.
Qed.

Lemma sim_script p zName flags rc r rc' r' :
  eval_ref (S f) (WScript p zName flags) rc r = Some (rc', r') →
  simulates (WScript p zName flags) rc r rc' r'.
Proof.
  cbn [eval_ref]. intros H c su h. unfold th8EvalLocal. cbn [interp].
  destruct (TH8_TAINTED _); [injection H as <- <-; eexists _, _; split_and!; [done..|apply steps_refl]|].
  destruct (1000 <? _); [injection H as <- <-; eexists _, _; split_and!; [done..|apply steps_refl]|].
  destruct (Th8_Ready _) as [rc1 i].
  destruct (rc1 =? TH8_SUSPEND); [injection H as <- <-; eexists _, _; split_and!; [done..|apply steps_refl]|].
  destruct (negb _); [injection H as <- <-; eexists _, _; split_and!; [done..|apply steps_refl]|].
  destruct (xPolicyCb _ _ _ _ _ _) as [rc2 i2]. cbv zeta in H |- *. fold (enter_eval r i2).
  destruct (negb (rc2 =? TH8_OK)).
  { apply ended_inv in H as (? & -> & ->). eexists _, _; split_and!; [done..|apply steps_refl]. }
  destruct (granted AEvalState (enter_eval r i2)) as [r2|] eqn:Ea; [|done].
  apply granted_inv in Ea as (i3 & Ea & ->). cbn [it enter_eval] in Ea. rewrite Ea.
  cbn [negb mbind option_bind] in H |- *.
  change (with_interp (M c su h r) ?x) with (M c su h x). rewrite alloc_at.
  set (k := fresh _). set (s0 := mkEvalState _ _ _ _ _ _) in *.
  pose proof (fresh_none h : h !! k = None) as Hf. set (h1 := <[k:=BState s0]> h).
  destruct (granted ACallback _) as [r3|] eqn:Eg in H; [|done]. cbn [mbind option_bind] in H.
  rewrite (push_granted _ _ _ _ _ _ Eg). change (TH8_OK =? TH8_OK) with true. cbn [negb].
  match type of H with (x ← ?y; _) = _ => destruct y as [[rc4 r4]|] eqn:E4; [|done] end.
  cbn [mbind option_bind] in H.
  destruct (sim_goes_on s0 r3 rc4 r4 (CbEvalStateCleanup k :: c) su h1 k E4) as (m1 & s' & Hm & Hs & Hst).
  { subst h1. by rewrite lookup_insert_eq. }
  rewrite Hm. change (TH8_OK =? TH8_OK) with true. cbn [negb].
  eexists _, _. split_and!; [done..|]. eapply steps_trans; [by eapply steps_under|].
  replace (M c su h r') with (M c su (delete k (<[k := BState s']> h1)) r').
  2: { subst h1. by rewrite insert_insert_eq, delete_insert_id. }
  eapply (sim_cleanup s0); [exact H|by rewrite lookup_insert_eq|done].
Qed.

Lemma with_it_same (r : Interp) : with_it r (it r) = r.
Proof. by destruct r. Qed.

Lemma build_at c su h (r : Interp) kb b wl k :
  h !! kb = Some (BBuild b wl k) → the_build (M c su h r) kb = Ok (b, wl, k).
Proof. intros H. unfold the_build. simpl. by rewrite H. Qed.

#[local] Abbreviation subst_done :=
  (th8NRCmdSubstDone realloc_ok alloc_ok (WS := words_store alloc_ok)).

(** The continuation of a nested command, whatever its code. *)
Lemma subst_done_keeps c su h (r : Interp) kb b wl k rc :
  h !! kb = Some (BBuild b wl k) →
  NRCmdSubstDone realloc_ok alloc_ok kb rc (M c su h r) =
  keep_build kb wl k (subst_done b rc (it r)) (M c su h r).
Proof.
  intros H. unfold NRCmdSubstDone. destruct (negb (rc =? TH8_OK)) eqn:E.
  - unfold th8NRCmdSubstDone. rewrite E. cbn [keep_build].
    change (set_it (with_heap (M c su h r) ?x) ?i) with (M c su x (with_it r i)).
    cbn [heap interp]. by rewrite with_it_same, insert_id.
  - by rewrite (build_at _ _ _ _ _ _ _ _ H).
Qed.

(** A fresh argument vector is called. *)
Lemma sim_argv s v rc r rc' r' c su h k :
  eval_ref f (WCall s (argv_words v)) rc r = Some (rc', r') →
  h !! k = Some (BState s) →
  ∃ s' rc1 m1, same_script s s' ∧
    (let '(a, m) := alloc_block (M c su h r) (BArgv v) in dispatch k a (argv_words v) m)
      = Ok (rc1, m1) ∧ is_yield rc1 = false ∧
    steps c (rc1, m1) (rc', M c su (<[k := BState s']> h) r').
Proof.
  intros H Hk. apply IH in H. rewrite alloc_at. pose proof (fresh_none h) as Hf.
  set (a := fresh _) in *. assert (a ≠ k) by congruence.
  destruct (H c su (<[a := BArgv v]> h) k a v) as (s' & rc1 & m1 & Hs & Hd & Hy & Hst).
  { by rewrite lookup_insert_ne. } { done. } { by rewrite lookup_insert_eq. }
  exists s', rc1, m1. rewrite delete_insert_id in Hst by done. by split_and!.
Qed.

(** A command whose words are all there. *)
Lemma sim_dispatch s wl b rc r rc' r' c su h k kb :
  ('(rc, r) ← polled rc r;
   if negb (rc =? TH8_OK) then
     let r := if rc =? TH8_ERROR
              then with_error_line (with_it r (snd (trace_words (it r) s))) (nLine r) else r in
     ended rc (with_it r (set_isListMode (it r) wl))
   else
     let '(rc, argv, i) := finish_build argv_ok (λ i, set_isListMode i wl) (acc b) (it r) in
     let r := with_it r i in
     match argv with
     | None => if rc =? TH8_OK then r ← granted ACallback r; eval_ref f (WLoop s) TH8_OK r
               else ended rc r
     | Some v => eval_ref f (WCall s (argv_words v)) TH8_OK r
     end) = Some (rc', r') →
  h !! k = Some (BState s) → kb ≠ k → h !! kb = Some (BBuild b wl k) →
  ∃ s', same_script s s' ∧
    steps c (rc, M (CbNRCmdDispatch kb k :: c) su h r)
            (rc', M c su (<[k := BState s']> (delete kb h)) r').
Proof.
  intros H Hk Hne Hb. destruct (polled rc r) as [[rc1 r1]|] eqn:Ep; [|done].
  cbn [mbind option_bind] in H. set (h1 := delete kb h) in *.
  assert (Hk1 : h1 !! k = Some (BState s)) by (subst h1; by rewrite lookup_delete_ne).
  assert (Hpop : ∀ rc2 m2, th8NRCmdDispatch argv_ok kb k rc1 (M c su h r1) = Ok (rc2, m2) →
    is_yield rc2 = false → steps c (rc, M (CbNRCmdDispatch kb k :: c) su h r) (rc2, m2))
    by (intros; by eapply steps_pop).
  revert Hpop. unfold th8NRCmdDispatch. rewrite (build_at _ _ _ _ _ _ _ _ Hb). cbn [res_bind].
  rewrite (state_at _ _ _ _ _ _ Hk). cbn [res_bind interp].
  assert (Hfree : ∀ r0, free_block (M c su h r0) kb = Ok (M c su h1 r0))
    by (intros; by erewrite free_at by done).
  destruct (negb (rc1 =? TH8_OK)).
  - assert (Hre : rc1 = TH8_ERROR → TH8_ERROR = rc1) by congruence.
    destruct (rc1 =? TH8_ERROR) eqn:Ee.
    + apply Z.eqb_eq in Ee as ->. destruct (trace_words _ s) as [ok i]. cbn [res_bind snd] in H |- *.
      change (with_interp (M c su h r1) ?x) with (M c su h x). rewrite Hfree. cbn [res_bind].
      intros Hpop. apply ended_inv in H as (Hy & -> & ->). exists s. split; [apply same_script_refl|].
      rewrite insert_id by done. by apply Hpop.
    + cbn [res_bind]. change (with_interp (M c su h r1) ?x) with (M c su h x). rewrite Hfree.
      cbn [res_bind]. intros Hpop. apply ended_inv in H as (Hy & -> & ->). exists s.
      split; [apply same_script_refl|]. rewrite insert_id by done. by apply Hpop.
  - destruct (finish_build _ _ _ _) as [[rc2 argv] i].
    change (set_it (M c su h r1) i) with (M c su h (with_it r1 i)). rewrite Hfree. cbn [res_bind].
    destruct argv as [v|]; intros Hpop.
    + destruct (sim_argv s v _ _ _ _ c su h1 k H Hk1) as (s' & rc3 & m3 & Hs & Hd & Hy & Hst).
      exists s'. split; [done|]. eapply steps_trans; [|exact Hst]. by apply Hpop.
    + destruct (rc2 =? TH8_OK) eqn:E2.
      * apply Z.eqb_eq in E2 as ->. destruct (sim_goes_on s _ rc' r' c su h1 k H Hk1) as (m1 & s' & Hm & Hs & Hst).
        exists s'. split; [done|]. eapply steps_trans; [|exact Hst]. apply Hpop; [|done].
        by rewrite Hm.
      * apply ended_inv in H as (Hy & -> & ->). exists s. split; [apply same_script_refl|].
        rewrite insert_id by done. by apply Hpop.
Qed.

Lemma sim_build s wl o rc r rc' r' :
  eval_ref (S f) (WBuild s wl o) rc r = Some (rc', r') → simulates (WBuild s wl o) rc r rc' r'.
Proof.
  destruct o as [[[rc0 zs] b] i]. cbn [eval_ref]. intros H c su h k kb b0 Hk Hne Hb.
  unfold keep_build. destruct (is_yield rc0) eqn:Ey; [done|]. cbv zeta in H |- *.
  set (h1 := <[kb := BBuild b wl k]> h).
  change (set_it (with_heap (M _ su h r) _) i) with (M (CbNRCmdDispatch kb k :: c) su h1 (with_it r i)).
  assert (Hk1 : h1 !! k = Some (BState s)) by (subst h1; by rewrite lookup_insert_ne).
  assert (Hb1 : h1 !! kb = Some (BBuild b wl k)) by (subst h1; by rewrite lookup_insert_eq).
  replace (delete kb h) with (delete kb h1) by (subst h1; by rewrite delete_insert_eq).
  destruct zs as [z|].
  - destruct (granted ACallback _) as [r2|] eqn:E2 in H; [|done]. cbn [mbind option_bind] in H.
    destruct (granted ACallback r2) as [r3|] eqn:E3 in H; [|done]. cbn [mbind option_bind] in H.
    destruct (polled rc0 r3) as [[rc4 r4]|] eqn:E4; [|done]. cbn [mbind option_bind] in H.
    destruct (eval_ref f (WScript _ _ _) rc4 r4) as [[rc5 r5]|] eqn:E5; [|done].
    cbn [mbind option_bind] in H.
    destruct (polled rc5 r5) as [[rc6 r6]|] eqn:E6; [|done]. cbn [mbind option_bind] in H.
    rewrite (state_at _ _ _ _ _ _ Hk1). cbn [res_bind]. rewrite (push_granted _ _ _ _ _ _ E2).
    cbn [snd]. unfold Th8_NREval. rewrite (push_granted _ _ _ _ _ _ E3). cbn [snd].
    apply IH in E5. destruct (E5 (CbNRCmdSubstDone kb :: CbNRCmdDispatch kb k :: c) su h1)
      as (rc7 & m7 & H7 & Hy7 & Hst7).
    apply IH in H. destruct (H c su h1 k kb b Hk1 Hne Hb1) as (s' & rc8 & m8 & Hs & H8 & Hy8 & Hst8).
    rewrite <- (subst_done_keeps _ _ _ _ _ _ _ _ _ Hb1) in H8.
    exists s', rc0. eexists. split_and!; [done..|]. eapply steps_trans.
    { apply (steps_under (CbNRCmdDispatch kb k)), (steps_under (CbNRCmdSubstDone kb)).
      eapply steps_pop; [exact E4|cbn [run_callback]; by rewrite H7|done]. }
    eapply steps_trans; [exact (steps_under _ _ _ _ (steps_under _ _ _ _ Hst7))|].
    eapply steps_trans; [|exact Hst8].
    apply (steps_under (CbNRCmdDispatch kb k)). eapply steps_pop; [exact E6|exact H8|done].
  - destruct (sim_dispatch s wl b rc0 (with_it r i) rc' r' c su h1 k kb H Hk1 Hne Hb1) as (s' & Hs & Hst).
    exists s', rc0. eexists. by split_and!.
Qed.

Lemma sim_loop s rc r rc' r' :
  eval_ref (S f) (WLoop s) rc r = Some (rc', r') → simulates (WLoop s) rc r rc' r'.
Proof.
  cbn [eval_ref]. intros H c su h k Hk.
  destruct (polled rc r) as [[rc1 r1]|] eqn:Ep; [|done]. cbn [mbind option_bind] in H.
  assert (Hpop : ∀ rc2 m2, th8EvalIteration realloc_ok alloc_ok argv_ok k rc1 (M c su h r1) = Ok (rc2, m2) →
    is_yield rc2 = false → steps c (rc, M (CbEvalIteration k :: c) su h r) (rc2, m2))
    by (intros; by eapply steps_pop).
  revert Hpop. unfold th8EvalIteration. rewrite (state_at _ _ _ _ _ _ Hk). cbn [res_bind interp].
  destruct (negb (rc1 =? TH8_OK)); intros Hpop.
  { apply ended_inv in H as (Hy & -> & ->). exists s. split; [apply same_script_refl|].
    rewrite insert_id by done. by apply Hpop. }
  destruct (next_command _ _ _) as [l|zf zi l|e zf l|]; [..|done].
  - injection H as <- <-. eexists. split; [apply same_script_at|]. by apply Hpop.
  - set (s1 := at_command s zf zi) in *. set (h1 := <[k := BState s1]> h).
    assert (Hk1 : h1 !! k = Some (BState s1)) by (subst h1; by rewrite lookup_insert_eq).
    assert (Hfin : ∀ s' x, same_script s1 s' →
      steps c x (rc', M c su (<[k := BState s']> h1) r') →
      (∃ rc2 m2, x = (rc2, m2) ∧ is_yield rc2 = false ∧
         (if th8CmdHasBracket (command_text s1)
          then eval_build realloc_ok alloc_ok k s1 (M c su h1 (with_line r1 l))
          else eval_words realloc_ok alloc_ok argv_ok k s1 (M c su h1 (with_line r1 l))) = Ok (rc2, m2)) →
      ∃ s', same_script s s' ∧
        steps c (rc, M (CbEvalIteration k :: c) su h r) (rc', M c su (<[k := BState s']> h) r')).
    { intros s' x Hs Hst (rc2 & m2 & -> & Hy & E). exists s'. split.
      { eapply same_script_trans; [apply same_script_at|exact Hs]. }
      replace (<[k := BState s']> h) with (<[k := BState s']> h1)
        by (subst h1; by rewrite insert_insert_eq).
      eapply steps_trans; [|exact Hst]. by apply Hpop. }
    clear Hpop. cbv zeta in H. destruct (th8CmdHasBracket (command_text s1)) eqn:Ebr.
    + unfold eval_build in Hfin.
      destruct (granted ACmdBuild _) as [r2|] eqn:E2 in H; [|done]. cbn [mbind option_bind] in H.
      apply granted_inv in E2 as (i2 & E2 & ->). cbn [interp] in Hfin. rewrite E2 in Hfin.
      cbv zeta in Hfin.
      change (set_it (M c su h1 (with_line r1 l)) ?i) with (M c su h1 (with_it (with_line r1 l) i)) in Hfin.
      rewrite alloc_at in Hfin. cbn [it with_it] in H.
      pose proof (fresh_none h1) as Hf. set (kb := fresh _) in *. assert (kb ≠ k) by congruence.
      destruct (granted ACallback _) as [r3|] eqn:E3 in H; [|done]. cbn [mbind option_bind] in H.
      rewrite (push_granted _ _ _ _ _ _ E3) in Hfin. cbn [snd interp] in Hfin.
      set (h2 := <[kb := _]> h1) in *. apply IH in H.
      destruct (H c su h2 k kb (build_init words_init (command_text s1)))
        as (s' & rc4 & m4 & Hs & H4 & Hy & Hst).
      { subst h2. by rewrite lookup_insert_ne. } { done. } { subst h2. by rewrite lookup_insert_eq. }
      eapply (Hfin s' (rc4, m4)); [done| |by eexists _, _].
      subst h2. by rewrite delete_insert_id in Hst.
    + unfold eval_words in Hfin. cbn [interp it with_line] in Hfin, H.
      destruct (th8SplitCommand _ _ _ _ _) as [[rc2 argv] i2].
      change (set_it (M c su h1 (with_line r1 l)) i2) with (M c su h1 (with_it (with_line r1 l) i2)) in Hfin.
      unfold interrupted in H. destruct (rc2 =? TH8_SUSPEND); [done|]. cbn [orb] in H.
      destruct (rc2 =? TH8_YIELD) eqn:Ey; [done|]. destruct (negb (rc2 =? TH8_OK)).
      * cbn [interp] in Hfin. destruct (trace_words _ _) as [ok i3]. injection H as <- <-.
        eapply (Hfin s1); [apply same_script_refl|rewrite insert_id by done; apply steps_refl|].
        eexists _, _. split_and!; [done| |done]. by destruct ok.
      * destruct argv as [v|].
        -- destruct (sim_argv s1 v _ _ _ _ c su h1 k H Hk1) as (s' & rc3 & m3 & Hs & Hd & Hy & Hst).
           eapply (Hfin s'); [done|exact Hst|]. by eexists _, _.
        -- destruct (sim_goes_on s1 _ rc' r' c su h1 k H Hk1) as (m1 & s' & Hm & Hs & Hst).
           eapply (Hfin s'); [done|exact Hst|]. eexists _, _. split_and!; [done..|]. by rewrite Hm.
  - injection H as <- <-. eexists. split; [apply same_script_at|]. by apply Hpop.
Qed.
End step.

(** The evaluator does what the loop does. *)
Lemma loop_simulated fuel : ∀ w rc r rc' r',
  eval_ref fuel w rc r = Some (rc', r') → simulates w rc r rc' r'.
Proof.
  induction fuel as [|f IH]; intros w rc r rc' r' H; [done|]. destruct w.
  - by eapply sim_script.
  - by eapply sim_loop.
  - by eapply sim_build.
  - by eapply sim_call.
  - by eapply sim_pushes.
Qed.

(** Th8_Eval on the counters alone, with the loop for the trampoline. *)
Definition eval_loop (fuel : nat) (iFrame : Z) (p : word) (zName : option bytes) (flags : Z)
    (r : Interp) : option (Z * Interp) :=
  let i := it r in
  let pSaved := head (frames i) in
  let input := if snd p =? TH8_NOLEN then measured (fst p)
               else (fst p, Z.lor (TH8_LEN (snd p)) (Z.land (snd p) TH8_TAG_BITS)) in
  let target := if iFrame =? 0 then Some i
                else pTarget ← target_frame (frames i) iFrame;
                     Some (set_pFrame (set_pDownlevelFrame i pSaved) pTarget) in
  match target with
  | None => Some (TH8_ERROR, with_it r (report_eval i ENoSuchFrame))
  | Some i =>
      '(rc, r') ← eval_ref fuel (WScript input zName flags) TH8_OK
                   (with_it r (set_bResultBuildFailed i false));
      Some (finish_eval iFrame (nEvalDepth r) pSaved (bResultBuildFailed i) rc r')
  end.

(** C2.  The callback-driven evaluator is the loop: where the loop gives a code,
    the trampoline ends with the same code and the same interpreter, on the
    callback chain, the suspended chain and the heap it started with, so that
    nothing is left behind and nothing leaks. *)
Theorem eval_refines_loop (fuel : nat) (iFrame : Z) (p : word) (zName : option bytes) (flags : Z)
  (m : machine) (rc : Z) (r : Interp)
  (He : eval_loop fuel iFrame p zName flags (interp m) = Some (rc, r)) :
  ∃ n, ∀ more,
    th8EvalCommon realloc_ok alloc_ok argv_ok (n + more) iFrame p zName flags m =
    Ok (rc, with_interp m r).
Proof.
  unfold eval_loop, th8EvalCommon in *. cbv zeta in *.
  match goal with |- context [match ?t with Some _ => _ | None => _ end] => destruct t as [i|] end.
  2: { exists O. intros more. injection He as <- <-. done. }
  destruct (eval_ref _ _ _ _) as [[rc1 r1]|] eqn:E; [|done]. cbn [mbind option_bind] in He.
  apply loop_simulated in E.
  destruct (E (pCallbacks m) (pSuspendedCallbacks m) (heap m)) as (rc2 & m2 & H2 & _ & [n Hn]).
  exists n. intros more.
  change (set_it m ?x) with (M (pCallbacks m) (pSuspendedCallbacks m) (heap m) (with_it (interp m) x)).
  rewrite H2. specialize (Hn more (length (pCallbacks m)) (le_n _)). cbn [fst snd] in Hn.
  rewrite Hn. destruct more; cbn [th8RunCallbacks pCallbacks]; rewrite Nat.eqb_refl;
    cbn [res_bind pCallbacks]; rewrite Nat.eqb_refl, andb_false_r; cbn [interp];
    injection He as He; rewrite He; done.
Qed.
End loop.

(** The loop on the interpreter of EvalShell, and the trampoline with it. *)
Lemma eval_refines_loop_witness :
  let yes := λ _ : Z, true in
  let p := sh_script (prog "log [log b] c; eval {log d}; log e") in
  match eval_loop yes yes yes 50 0 p None 0 (interp (sh_boot sh0)) with
  | Some (rc, r) =>
      rc = TH8_OK ∧ length (sh_log (it r)) = 4%nat ∧
      ∃ n, ∀ more, th8EvalCommon yes yes yes (n + more) 0 p None 0 (sh_boot sh0) =
                   Ok (rc, with_interp (sh_boot sh0) r)
  | None => False
  end.
Proof.
  intros yes p. destruct (eval_loop yes yes yes 50 0 p None 0 _) as [[rc r]|] eqn:He.
  - split_and!; [| |exact (eval_refines_loop yes yes yes 50 0 p None 0 (sh_boot sh0) rc r He)];
      revert He; vm_compute; by intros [= <- <-].
  - revert He. vm_compute. congruence.
Defined.
