(* ===== verification/Spilornis.v ===== *)
(** * Spilornis: splitting and joining lists
    (src/externals/spilornis/Spilornis.c, compiled with the narrow character
    types of src/src/th8_spilornis.h).

    A pointer into a list and the end of the list are the list of the bytes in
    between.  A loop that moves its pointer by more than one byte carries the
    number of bytes still to skip.  Writing past the blocks that Eagle_SplitList
    and Eagle_JoinList size beforehand is an outcome of its own. *)

From S2P Require Import Prelude.
#[local] Open Scope Z_scope.

Definition LIBRARY_MAXIMUM_SIZE_T : Z := 0x7FFFFFFF.
Definition LIBRARY_LOCAL_FLAGS : Z := 20.

Definition EAGLE_DONT_USE_BRACES : Z := 1.
Definition EAGLE_USE_BRACES : Z := 2.
Definition EAGLE_BRACES_UNMATCHED : Z := 4.
Definition EAGLE_DONT_QUOTE_HASH : Z := 8.

Inductive list_error : Type :=
| BraceJunk (zJunk : bytes)     (* list element in braces followed by ... *)
| QuoteJunk (zJunk : bytes)     (* list element in quotes followed by ... *)
| OpenBrace                     (* unmatched open brace in list *)
| OpenQuote                     (* unmatched open quote in list *)
| WrongSize                     (* wrong estimated list size *)
| TooLarge (n : Z)              (* list too large for ... *)
| OutOfMemory (n : Z)           (* out of memory for ... *)
| Overrun                       (* a write past the end of a block *)
| OutOfFuel.

(** ** Characters *)

Definition th8_spilornis_isspace (c : Z) : bool :=
  (c =? " "%ch) || (c =? 9) || (c =? NEWLINE) || (c =? 13) || (c =? 12) || (c =? 11).

Definition EagleIsBinDigit (c : Z) : bool := ("0"%ch <=? c) && (c <=? "1"%ch).
Definition EagleIsOctDigit (c : Z) : bool := ("0"%ch <=? c) && (c <=? "7"%ch).
Definition EagleIsDecDigit (c : Z) : bool := ("0"%ch <=? c) && (c <=? "9"%ch).
Definition EagleIsHexDigit (c : Z) : bool :=
  EagleIsDecDigit c || (("A"%ch <=? c) && (c <=? "F"%ch)) || (("a"%ch <=? c) && (c <=? "f"%ch)).

(** ** Backslash sequences *)

(** The loop the four number scanners share; [result] is an unsigned long of 64
    bits. *)
Fixpoint parse_digits (digit : Z → bool) (step : Z → Z → Z) (src : bytes) (numChars : nat)
    (result : Z) : nat * Z :=
  match numChars, src with
  | S numChars, c :: src =>
      if digit c then
        let '(n, r) := parse_digits digit step src numChars (step result c) in (S n, r)
      else (O, result)
  | _, _ => (O, result)
  end.

Definition EagleParseBin (src : bytes) (numChars : nat) : nat * Z :=
  parse_digits EagleIsBinDigit (λ r c, Z.lor (wrap 64 (Z.shiftl r 1)) (c - "0"%ch)) src numChars 0.
Definition EagleParseOct (src : bytes) (numChars : nat) : nat * Z :=
  parse_digits EagleIsOctDigit (λ r c, Z.lor (wrap 64 (Z.shiftl r 3)) (c - "0"%ch)) src numChars 0.
Definition EagleParseDec (src : bytes) (numChars : nat) : nat * Z :=
  parse_digits EagleIsDecDigit (λ r c, wrap 64 (wrap 64 (r * 10) + (c - "0"%ch))) src numChars 0.
Definition EagleParseHex (src : bytes) (numChars : nat) : nat * Z :=
  parse_digits EagleIsHexDigit
    (λ r c, Z.lor (wrap 64 (Z.shiftl r 4))
              (if "a"%ch <=? c then 10 + c - "a"%ch
               else if "A"%ch <=? c then 10 + c - "A"%ch else c - "0"%ch)) src numChars 0.

(** A numeric sequence: without digits the letter itself stands; [low] keeps the
    last byte only. *)
Definition numeric (low : bool) (c : Z) (o : nat * Z) : nat * Z :=
  let '(n, r) := o in
  if (n =? 0)%nat then (2%nat, c) else ((2 + n)%nat, if low then to_char r else r).

(** An octal sequence of one to three digits, [c] the first. *)
Definition octal (c : Z) (z : bytes) : nat * Z :=
  let r := c - "0"%ch in
  match z with
  | d :: z =>
      if EagleIsOctDigit d then
        let r := to_char (Z.shiftl r 3 + (d - "0"%ch)) in
        match z with
        | e :: _ => if EagleIsOctDigit e then (4%nat, to_char (Z.shiftl r 3 + (e - "0"%ch))) else (3%nat, r)
        | [] => (3%nat, r)
        end
      else (2%nat, r)
  | [] => (2%nat, r)
  end.

Definition is_tab_or_space (c : Z) : bool := (c =? " "%ch) || (c =? 9).

Section characters.
(** Whether the type char is signed. *)
Context (char_signed : bool).

(** A char converted to an unsigned long. *)
Definition char_value (c : Z) : Z := if (128 <=? c) && char_signed then c + 2 ^ 64 - 256 else c.

(** The bytes read and the character they denote. *)
Definition sequence (src : bytes) : nat * Z :=
  match src with
  | [] => (0%nat, 0)
  | [_] => (1%nat, "\"%ch)
  | _ :: c :: z =>
      if c =? 0 then (1%nat, "\"%ch)
      else if c =? "a"%ch then (2%nat, 7)
      else if c =? "b"%ch then (2%nat, 8)
      else if c =? "f"%ch then (2%nat, 12)
      else if c =? "n"%ch then (2%nat, 10)
      else if c =? "r"%ch then (2%nat, 13)
      else if c =? "t"%ch then (2%nat, 9)
      else if c =? "v"%ch then (2%nat, 11)
      else if c =? "\"%ch then (2%nat, "\"%ch)
      else if c =? "B"%ch then numeric true c (EagleParseBin z (length z))
      else if c =? "o"%ch then numeric true c (EagleParseOct z (length z))
      else if c =? "d"%ch then numeric true c (EagleParseDec z (length z))
      else if c =? "x"%ch then numeric true c (EagleParseHex z (length z))
      else if c =? "X"%ch then numeric false c (EagleParseHex z (length z))
      else if c =? "u"%ch then
        numeric false c (EagleParseHex z (if (3 <? length z)%nat then 4%nat else length z))
      else if c =? "U"%ch then
        numeric false c (EagleParseHex z (if (7 <? length z)%nat then 8%nat else length z))
      else if c =? NEWLINE then ((2 + span is_tab_or_space z)%nat, " "%ch)
      else if EagleIsOctDigit c then octal c z
      else (2%nat, char_value c)
  end.

(** The bytes read and the bytes written: the low byte of the character, and
    its second byte when the character does not fit in 16 bits. *)
Definition EagleParseBackslash (src : bytes) : nat * bytes :=
  let '(count, result) := sequence src in
  if (count =? 0)%nat then (O, [])
  else
    (count, if Z.land result (2 ^ 64 - 2 ^ 16) =? 0 then [to_char result]
            else [to_char result; to_char (Z.shiftr result 8)]).

Fixpoint collapse (skip : nat) (src : bytes) : bytes :=
  match src with
  | [] => []
  | c :: z =>
      match skip with
      | S skip => collapse skip z
      | O =>
          if c =? "\"%ch then
            let '(numRead, w) := EagleParseBackslash src in w ++ collapse (numRead - 1) z
          else c :: collapse O z
      end
  end.
Definition EagleCopyAndCollapse (src : bytes) : bytes := collapse O src.

(** ** Quoting *)

(** The characters that braces protect. *)
Definition needs_braces (c : Z) : bool :=
  (c =? "["%ch) || (c =? "$"%ch) || (c =? ";"%ch) || th8_spilornis_isspace c.

Fixpoint scan_loop (skip : nat) (z : bytes) (nestingLevel flags : Z) : Z * Z :=
  match z with
  | [] => (nestingLevel, flags)
  | c :: z' =>
      match skip with
      | S skip => scan_loop skip z' nestingLevel flags
      | O =>
          if c =? "{"%ch then scan_loop O z' (nestingLevel + 1) flags
          else if c =? "}"%ch then
            scan_loop O z' (nestingLevel - 1)
              (if nestingLevel - 1 <? 0
               then Z.lor flags (Z.lor EAGLE_DONT_USE_BRACES EAGLE_BRACES_UNMATCHED) else flags)
          else if needs_braces c then scan_loop O z' nestingLevel (Z.lor flags EAGLE_USE_BRACES)
          else if c =? "\"%ch then
            match z' with
            | d :: _ =>
                if d =? NEWLINE then
                  scan_loop O z' nestingLevel (Z.lor EAGLE_DONT_USE_BRACES EAGLE_BRACES_UNMATCHED)
                else scan_loop (fst (EagleParseBackslash z) - 1) z' nestingLevel
                       (Z.lor flags EAGLE_USE_BRACES)
            | [] => scan_loop O z' nestingLevel (Z.lor EAGLE_DONT_USE_BRACES EAGLE_BRACES_UNMATCHED)
            end
          else scan_loop O z' nestingLevel flags
      end
  end.

(** An estimate of the room the element takes, and how to quote it. *)
Definition EagleScanCountedElement (z : bytes) : Z * Z :=
  let flags :=
    match z with
    | [] => EAGLE_USE_BRACES
    | c :: _ => if (c =? "{"%ch) || (c =? DQUOTE) then EAGLE_USE_BRACES else 0
    end in
  let '(nestingLevel, flags) := scan_loop O z 0 flags in
  (2 * zlen z + 2,
   if nestingLevel =? 0 then flags else Z.lor EAGLE_DONT_USE_BRACES EAGLE_BRACES_UNMATCHED).

Definition has_flag (flags bit : Z) : bool := negb (Z.land flags bit =? 0).

Definition convert_char (flags c : Z) : bytes :=
  if (c =? "]"%ch) || (c =? "["%ch) || (c =? "$"%ch) || (c =? ";"%ch) || (c =? " "%ch) ||
     (c =? "\"%ch) || (c =? DQUOTE) then ["\"%ch; c]
  else if (c =? "{"%ch) || (c =? "}"%ch) then
    if has_flag flags EAGLE_BRACES_UNMATCHED then ["\"%ch; c] else [c]
  else if c =? 12 then ["\"%ch; "f"%ch]
  else if c =? NEWLINE then ["\"%ch; "n"%ch]
  else if c =? 13 then ["\"%ch; "r"%ch]
  else if c =? 9 then ["\"%ch; "t"%ch]
  else if c =? 11 then ["\"%ch; "v"%ch]
  else [c].

Definition EagleConvertCountedElement (src : bytes) (flags : Z) : bytes :=
  match src with
  | [] => ["{"%ch; "}"%ch]
  | c :: z =>
      let hash := (c =? "#"%ch) && negb (has_flag flags EAGLE_DONT_QUOTE_HASH) in
      let flags := if hash then Z.lor flags EAGLE_USE_BRACES else flags in
      if has_flag flags EAGLE_USE_BRACES && negb (has_flag flags EAGLE_DONT_USE_BRACES) then
        "{"%ch :: src ++ ["}"%ch]
      else if c =? "{"%ch then
        "\"%ch :: "{"%ch :: concat (map (convert_char (Z.lor flags EAGLE_BRACES_UNMATCHED)) z)
      else if hash then "\"%ch :: "#"%ch :: concat (map (convert_char flags) z)
      else concat (map (convert_char flags) src)
  end.

(** ** Splitting *)

(** At most 20 bytes of what follows a closing brace or quote. *)
Definition junk (p : bytes) : bytes :=
  take (Nat.min 20 (span (λ c, negb (th8_spilornis_isspace c)) p)) p.
Definition at_space (p : bytes) : bool :=
  match p with [] => true | c :: _ => th8_spilornis_isspace c end.

(** The end of an element that starts [pos] bytes before [p]: its size, the brace
    count, and what follows. *)
Fixpoint find_loop (skip : nat) (p : bytes) (pos : nat) (openBraces : Z) (inQuotes : bool)
    : res list_error (nat * Z * bytes) :=
  match p with
  | [] => if negb (openBraces =? 0) then Err OpenBrace
          else if inQuotes then Err OpenQuote else Ok (pos, openBraces, [])
  | c :: p' =>
      match skip with
      | S skip => find_loop skip p' (S pos) openBraces inQuotes
      | O =>
          if c =? "{"%ch then
            find_loop O p' (S pos) (if negb (openBraces =? 0) then openBraces + 1 else openBraces) inQuotes
          else if c =? "}"%ch then
            if 1 <? openBraces then find_loop O p' (S pos) (openBraces - 1) inQuotes
            else if openBraces =? 1 then
              if at_space p' then Ok (pos, openBraces, p') else Err (BraceJunk (junk p'))
            else find_loop O p' (S pos) openBraces inQuotes
          else if c =? "\"%ch then
            find_loop (fst (EagleParseBackslash p) - 1) p' (S pos) openBraces inQuotes
          else if th8_spilornis_isspace c then
            if (openBraces =? 0) && negb inQuotes then Ok (pos, openBraces, p)
            else find_loop O p' (S pos) openBraces inQuotes
          else if c =? DQUOTE then
            if inQuotes then if at_space p' then Ok (pos, openBraces, p') else Err (QuoteJunk (junk p'))
            else find_loop O p' (S pos) openBraces inQuotes
          else find_loop O p' (S pos) openBraces inQuotes
      end
  end.

Definition skip_space (p : bytes) : bytes := drop (span th8_spilornis_isspace p) p.

(** Where the first element starts, its size, whether it was in braces, and where
    the next one starts. *)
Definition EagleFindElement (list : bytes) : res list_error (bytes * nat * bool * bytes) :=
  match skip_space list with
  | [] => Ok ([], O, false, [])
  | c :: z =>
      let '(elemStart, openBraces, inQuotes) :=
        if c =? "{"%ch then (z, 1, false)
        else if c =? DQUOTE then (z, 0, true) else (c :: z, 0, false) in
      (let* (size, openBraces, p) := find_loop O elemStart O openBraces inQuotes in
       Ok (elemStart, size, negb (openBraces =? 0), skip_space p))%res
  end.

(** The number of runs of white space. *)
Fixpoint count_runs (z : bytes) (in_run : bool) : Z :=
  match z with
  | [] => 0
  | c :: z =>
      if th8_spilornis_isspace c then (if in_run then 0 else 1) + count_runs z true
      else count_runs z false
  end.

(** [size] is the length of the arrays, [cap] that of the block for the text, [i]
    and [used] what is used of them. *)
Fixpoint Split_loop (fuel : nat) (size cap i used : Z) (pText : bytes)
    : res list_error (list bytes) :=
  let finish := if i <? size then Ok [] else Err Overrun in
  match pText with
  | [] => finish
  | _ =>
      match fuel with
      | O => Err OutOfFuel
      | S fuel =>
          (let* (element, elSize, brace, pText) := EagleFindElement pText in
           match element with
           | [] => finish
           | _ =>
               if size <=? i then Err WrongSize
               else
                 let w := if brace : bool then take elSize element
                          else EagleCopyAndCollapse (take elSize element) in
                 let used := used + zlen w + 1 in
                 if cap <? used then Err Overrun
                 else let* es := Split_loop fuel size cap (i + 1) used pText in Ok (w :: es)
           end)%res
      end
  end.

Context (alloc_ok : Z → bool).

Definition Eagle_SplitList (z : bytes) : res list_error (list bytes) :=
  let size := 2 + count_runs z false in
  let cap := zlen z + 1 in
  if LIBRARY_MAXIMUM_SIZE_T / 8 <? size then Err (TooLarge size)
  else if negb (alloc_ok (size * 8)) then Err (OutOfMemory (size * 8))
  else if LIBRARY_MAXIMUM_SIZE_T - size * 8 <? cap then Err (TooLarge size)
  else if negb (alloc_ok (size * 8 + cap)) then Err (OutOfMemory (size * 8 + cap))
  else Split_loop (length z) size cap 0 0 z.

(** ** Joining *)

(** The first element is quoted against being read as a comment. *)
Fixpoint join_text (first : bool) (es : list bytes) : bytes :=
  match es with
  | [] => []
  | e :: es =>
      (if first then [] else [" "%ch]) ++
      EagleConvertCountedElement e
        (Z.lor (snd (EagleScanCountedElement e)) (if first then 0 else EAGLE_DONT_QUOTE_HASH)) ++
      join_text false es
  end.

Fixpoint join_size (first : bool) (es : list bytes) : Z :=
  match es with
  | [] => 0
  | e :: es => (if first then 0 else 1) + fst (EagleScanCountedElement e) + join_size false es
  end.

Definition Eagle_JoinList (es : list bytes) : res list_error bytes :=
  let elementCount := zlen es in
  let local := elementCount <=? LIBRARY_LOCAL_FLAGS in
  if negb local && (LIBRARY_MAXIMUM_SIZE_T / 4 <? elementCount) then Err (TooLarge elementCount)
  else if negb local && negb (alloc_ok (elementCount * 4)) then Err (OutOfMemory (elementCount * 4))
  else
    let allocSize := join_size true es + 1 in
    if negb (alloc_ok allocSize) then Err (OutOfMemory allocSize)
    else
      let text := join_text true es in
      if allocSize <? zlen text then Err Overrun else Ok text.

(** ** Backslash sequences stay inside the text *)

Lemma parse_digits_le digit step src : ∀ n r,
  (fst (parse_digits digit step src n r) <= Nat.min n (length src))%nat.
Proof.
  induction src as [|c src IH]; intros [|n] r; simpl; try lia.
  destruct (digit c); simpl; [|lia]. specialize (IH n (step r c)).
  destruct (parse_digits _ _ _ _ _). simpl in *. lia.
Qed.

(** Digits end at a byte that is none, and do not depend on what follows it. *)
Lemma parse_digits_app digit step src stop rest n n' : ∀ r,
  digit stop = false → (n <= length src)%nat → (n = n' ∨ (n = length src ∧ n <= n')%nat) →
  parse_digits digit step (src ++ stop :: rest) n' r = parse_digits digit step src n r.
Proof.
  revert n n'. induction src as [|c src IH]; intros n n' r Hs Hn Hn'; simpl in *.
  - assert (n = 0%nat) as -> by lia. destruct n'; simpl; [done|]. by rewrite Hs.
  - destruct n as [|n], n' as [|n']; try lia; simpl; [done|].
    destruct (digit c); [|done]. by rewrite (IH n n') by (done || lia).
Qed.

Lemma parse_digits_all digit step src stop rest r :
  digit stop = false →
  parse_digits digit step (src ++ stop :: rest) (length (src ++ stop :: rest)) r =
  parse_digits digit step src (length src) r.
Proof. intros. apply parse_digits_app; [done..|]. right. rewrite length_app. lia. Qed.

(** The same when at most [k + 1] digits are read. *)
Lemma parse_digits_clipped digit step src stop rest k r :
  digit stop = false →
  let clip z := if (k <? length (z : bytes))%nat then S k else length z in
  parse_digits digit step (src ++ stop :: rest) (clip (src ++ stop :: rest)) r =
  parse_digits digit step src (clip src) r.
Proof.
  intros Hs clip. subst clip. cbn beta. rewrite length_app. simpl length.
  destruct (Nat.ltb_spec k (length src)), (Nat.ltb_spec k (length src + S (length rest)));
    try lia; (apply parse_digits_app; [done|lia|]); lia.
Qed.

Lemma fst_numeric low c o : fst (numeric low c o) = (2 + fst o)%nat.
Proof. unfold numeric. destruct o as [[|n] r]; simpl; done. Qed.

Lemma octal_count c z : (2 <= fst (octal c z) <= 2 + length z)%nat.
Proof. unfold octal. destruct z as [|d [|e z]]; simpl; repeat case_if; simpl; lia. Qed.

Lemma sequence_count c z :
  (1 <= fst (sequence (c :: z)) <= length (c :: z))%nat ∧
  (fst (sequence (c :: z)) = 1%nat → snd (sequence (c :: z)) = "\"%ch).
Proof.
  destruct z as [|d z]; [simpl; lia|].
  pose proof (octal_count d z). pose proof (span_le is_tab_or_space z).
  assert (Hn : ∀ low f step n, let o := numeric low d (parse_digits f step z n 0) in
            (1 <= fst o <= length (c :: d :: z))%nat ∧ (fst o = 1%nat → snd o = "\"%ch)).
  { intros low f step n o. subst o. rewrite fst_numeric.
    pose proof (parse_digits_le f step z n 0). simpl. lia. }
  cbn [sequence]. unfold EagleParseBin, EagleParseOct, EagleParseDec, EagleParseHex.
  repeat (case_if; [first [apply Hn | simpl; lia]|]). simpl. lia.
Qed.

Lemma backslash_bounds c z :
  (1 <= fst (EagleParseBackslash (c :: z)) <= length (c :: z))%nat ∧
  (length (snd (EagleParseBackslash (c :: z))) <= fst (EagleParseBackslash (c :: z)))%nat.
Proof.
  pose proof (sequence_count c z) as [Hc H1]. unfold EagleParseBackslash.
  destruct (sequence (c :: z)) as [n r]. simpl in Hc, H1.
  destruct n as [|n]; [lia|]. simpl. split; [lia|].
  destruct n as [|n]; [|case_if; simpl; lia]. by rewrite (H1 eq_refl).
Qed.

Lemma backslash_fst z : fst (EagleParseBackslash z) = fst (sequence z).
Proof. unfold EagleParseBackslash. by destruct (sequence z) as [[|n] r]. Qed.

(** A byte that no sequence reaches over: it ends every run of digits. *)
Definition ends_sequence (c : Z) : bool := (c =? "}"%ch) || (c =? " "%ch).

(** How long a sequence is depends only on the text up to such a byte, unless it
    starts with the end of a line. *)
Lemma backslash_app d z stop rest :
  ends_sequence stop = true → d ≠ NEWLINE →
  fst (EagleParseBackslash ("\"%ch :: d :: z ++ stop :: rest)) =
  fst (EagleParseBackslash ("\"%ch :: d :: z)).
Proof.
  intros Hs Hd. rewrite !backslash_fst. cbn [sequence].
  assert (H : EagleIsBinDigit stop = false ∧ EagleIsOctDigit stop = false ∧
              EagleIsDecDigit stop = false ∧ EagleIsHexDigit stop = false)
    by (unfold ends_sequence in Hs; by apply orb_true_iff in Hs as [->%Z.eqb_eq| ->%Z.eqb_eq]).
  destruct H as (H2 & H8 & H10 & H16).
  repeat match goal with
  | |- context [if ?x =? ?k then _ else _] => destruct (x =? k) eqn:?; [try done|]
  end.
  all: try (rewrite !fst_numeric; unfold EagleParseBin, EagleParseOct, EagleParseDec, EagleParseHex;
            first [rewrite parse_digits_all by done|rewrite parse_digits_clipped by done]; done).
  - bool_to_prop. congruence.
  - case_if; [|done].
    destruct z as [|e [|f z]]; unfold octal; simpl; rewrite ?H8; try done; repeat case_if; done.
Qed.

(** ** Skipping *)

Lemma scan_loop_skip z : ∀ skip n f, scan_loop skip z n f = scan_loop 0 (drop skip z) n f.
Proof. induction z as [|c z IH]; intros [|skip] n f; try done. apply IH. Qed.

Lemma find_loop_skip p : ∀ skip pos ob q, (skip <= length p)%nat →
  find_loop skip p pos ob q = find_loop 0 (drop skip p) (pos + skip) ob q.
Proof.
  induction p as [|c p IH]; intros [|skip] pos ob q Hs; simpl in Hs; try lia; try by rewrite Nat.add_0_r.
  cbn [find_loop drop]. rewrite IH by lia. f_equal. lia.
Qed.

Lemma collapse_skip z : ∀ skip, collapse skip z = collapse 0 (drop skip z).
Proof. induction z as [|c z IH]; intros [|skip]; try done. apply IH. Qed.

(** A byte without meaning inside braces, or outside of them when it is no
    space. *)
Lemma find_pass c p pos ob :
  c ≠ "{"%ch → c ≠ "}"%ch → c ≠ "\"%ch → (ob ≠ 0 ∨ th8_spilornis_isspace c = false) →
  find_loop 0 (c :: p) pos ob false = find_loop 0 p (S pos) ob false.
Proof.
  intros H1 H2 H3 Ho. apply Z.eqb_neq in H1, H2, H3. simpl. rewrite H1, H2, H3.
  destruct (th8_spilornis_isspace c).
  - destruct Ho as [Ho%Z.eqb_neq|]; [by rewrite Ho|done].
  - by destruct (c =? DQUOTE).
Qed.

(** Braces inside of braces. *)
Lemma find_open p pos ob : ob ≠ 0 → find_loop 0 ("{"%ch :: p) pos ob false = find_loop 0 p (S pos) (ob + 1) false.
Proof. intros H%Z.eqb_neq. simpl. by rewrite H. Qed.

Lemma find_close p pos ob : 1 < ob → find_loop 0 ("}"%ch :: p) pos ob false = find_loop 0 p (S pos) (ob - 1) false.
Proof. intros H%Z.ltb_lt. simpl. by rewrite H. Qed.

(** ** Flags *)

Lemma has_flag_lor f b bit : has_flag (Z.lor f b) bit = has_flag f bit || has_flag b bit.
Proof.
  unfold has_flag. rewrite Z.land_lor_distr_l.
  destruct (Z.eqb_spec (Z.lor (Z.land f bit) (Z.land b bit)) 0) as [H|H].
  - by apply Z.lor_eq_0_iff in H as [-> ->].
  - symmetry. apply orb_true_iff.
    destruct (Z.eqb_spec (Z.land f bit) 0), (Z.eqb_spec (Z.land b bit) 0); auto.
    destruct H. by apply Z.lor_eq_0_iff.
Qed.

Lemma flag_bits :
  has_flag 0 EAGLE_DONT_USE_BRACES = false ∧ has_flag 0 EAGLE_USE_BRACES = false ∧
  has_flag 0 EAGLE_BRACES_UNMATCHED = false ∧
  has_flag EAGLE_USE_BRACES EAGLE_DONT_USE_BRACES = false ∧
  has_flag EAGLE_USE_BRACES EAGLE_USE_BRACES = true ∧
  has_flag EAGLE_USE_BRACES EAGLE_BRACES_UNMATCHED = false ∧
  has_flag EAGLE_DONT_QUOTE_HASH EAGLE_DONT_USE_BRACES = false ∧
  has_flag EAGLE_DONT_QUOTE_HASH EAGLE_USE_BRACES = false ∧
  has_flag EAGLE_DONT_QUOTE_HASH EAGLE_BRACES_UNMATCHED = false ∧
  has_flag EAGLE_BRACES_UNMATCHED EAGLE_DONT_USE_BRACES = false ∧
  has_flag EAGLE_BRACES_UNMATCHED EAGLE_USE_BRACES = false ∧
  has_flag EAGLE_BRACES_UNMATCHED EAGLE_BRACES_UNMATCHED = true ∧
  has_flag EAGLE_DONT_USE_BRACES EAGLE_DONT_USE_BRACES = true ∧
  has_flag EAGLE_DONT_USE_BRACES EAGLE_BRACES_UNMATCHED = false.
Proof. done. Qed.

(** What a scan knows of its flags: quoting by backslashes is never taken back,
    comes with unmatched braces, and is the only thing that overrules braces. *)
Definition flags_grow (f f' : Z) : Prop :=
  (has_flag f EAGLE_DONT_USE_BRACES = true → has_flag f' EAGLE_DONT_USE_BRACES = true) ∧
  (has_flag f EAGLE_USE_BRACES = true →
     has_flag f' EAGLE_USE_BRACES = true ∨ has_flag f' EAGLE_DONT_USE_BRACES = true) ∧
  ((has_flag f EAGLE_DONT_USE_BRACES = has_flag f EAGLE_BRACES_UNMATCHED) →
     has_flag f' EAGLE_DONT_USE_BRACES = has_flag f' EAGLE_BRACES_UNMATCHED).

Lemma flags_grow_lor f b :
  has_flag b EAGLE_DONT_USE_BRACES = has_flag b EAGLE_BRACES_UNMATCHED → flags_grow f (Z.lor f b).
Proof.
  intros Hb. unfold flags_grow. rewrite !has_flag_lor, Hb. split_and!.
  - by intros ->.
  - intros ->. by left.
  - by intros ->.
Qed.

Lemma flags_grow_dont f : flags_grow f (Z.lor EAGLE_DONT_USE_BRACES EAGLE_BRACES_UNMATCHED).
Proof. split_and!; [done|by right|done]. Qed.

Lemma flags_grow_trans f g h : flags_grow f g → flags_grow g h → flags_grow f h.
Proof.
  intros (H1 & H2 & H3) (K1 & K2 & K3). split_and!; [auto| |auto].
  intros [Hu|Hd]%H2; auto.
Qed.

Lemma scan_grows z : ∀ skip n f, flags_grow f (snd (scan_loop skip z n f)).
Proof.
  assert (Hr : ∀ f, flags_grow f f) by (intros f; split_and!; auto).
  assert (Hu : ∀ f, flags_grow f (Z.lor f EAGLE_USE_BRACES)) by (intros f; by apply flags_grow_lor).
  induction z as [|c z IH]; intros [|skip] n f; try apply Hr; [|apply IH].
  cbn [scan_loop]. case_if; [apply IH|].
  case_if; [case_if; [eapply flags_grow_trans; [|apply IH]; by apply flags_grow_lor|apply IH]|].
  case_if; [eapply flags_grow_trans; [apply Hu|apply IH]|].
  case_if; [|apply IH].
  destruct z as [|d z]; [eapply flags_grow_trans; [apply flags_grow_dont|apply IH]|].
  case_if; (eapply flags_grow_trans; [|apply IH]); [apply flags_grow_dont|apply Hu].
Qed.

(** ** Text in braces *)

(** Text that was scanned and may be put in braces is passed over at any depth,
    with the nesting the scan found. *)
Lemma scan_braced z : ∀ skip n f,
  let '(n', f') := scan_loop skip z n f in
  has_flag f' EAGLE_DONT_USE_BRACES = false → (skip <= length z)%nat → 0 <= n →
  0 <= n' ∧
  ∀ d stop rest pos, 1 <= d → ends_sequence stop = true →
    find_loop skip (z ++ stop :: rest) pos (d + n) false =
    find_loop 0 (stop :: rest) (pos + length z) (d + n') false.
Proof.
  induction z as [|c z IH]; intros skip n f.
  { destruct skip; cbn; intros _ Hs Hn; [|lia]. split; [done|]. intros. by rewrite Nat.add_0_r. }
  assert (Hpos : ∀ pos, (pos + length (c :: z) = S pos + length z)%nat) by (simpl; lia).
  destruct skip as [|skip].
  2: { cbn [scan_loop]. specialize (IH skip n f). destruct (scan_loop _ _ _ _) as [n' f'].
       intros Hf Hs Hn. destruct (IH Hf) as [H0 H]; [simpl in Hs; lia|done|]. split; [done|].
       intros. rewrite Hpos. by apply H. }
  cbn [scan_loop].
  (* the rest of the text, from a state that the byte leads to *)
  assert (Hstep : ∀ skip n1 f1, let '(n', f') := scan_loop skip z n1 f1 in
    has_flag f' EAGLE_DONT_USE_BRACES = false → 0 <= n → (skip <= length z)%nat → 0 <= n1 →
    (∀ d stop rest pos, 1 <= d → ends_sequence stop = true →
       find_loop 0 ((c :: z) ++ stop :: rest) pos (d + n) false =
       find_loop skip (z ++ stop :: rest) (S pos) (d + n1) false) →
    0 <= n' ∧
    ∀ d stop rest pos, 1 <= d → ends_sequence stop = true →
      find_loop 0 ((c :: z) ++ stop :: rest) pos (d + n) false =
      find_loop 0 (stop :: rest) (pos + length (c :: z)) (d + n') false).
  { intros skip n1 f1. specialize (IH skip n1 f1). destruct (scan_loop _ _ _ _) as [n' f'].
    intros Hf _ Hs Hn1 Hgo. destruct (IH Hf Hs Hn1) as [H0 H]. split; [done|].
    intros. rewrite Hgo by done. rewrite Hpos. by apply H. }
  assert (Hpass : c ≠ "{"%ch → c ≠ "}"%ch → c ≠ "\"%ch → 0 <= n → ∀ d stop rest pos,
    1 <= d → ends_sequence stop = true →
    find_loop 0 ((c :: z) ++ stop :: rest) pos (d + n) false =
    find_loop 0 (z ++ stop :: rest) (S pos) (d + n) false).
  { intros. simpl app. apply find_pass; [done..|]. left. lia. }
  destruct (Z.eqb_spec c "{"%ch) as [->|H1].
  { specialize (Hstep 0%nat (n + 1) f). destruct (scan_loop _ _ _ _). intros Hf _ Hn.
    apply Hstep; [done..|lia|lia|]. intros d stop rest pos Hd _. simpl.
    rewrite (proj2 (Z.eqb_neq (d + n) 0)) by lia. simpl. by rewrite Z.add_assoc. }
  destruct (Z.eqb_spec c "}"%ch) as [->|H2].
  { destruct (Z.ltb_spec (n - 1) 0).
    - set (f1 := Z.lor f _). pose proof (scan_grows z 0 (n - 1) f1) as (Hg & _ & _).
      destruct (scan_loop _ _ _ _) as [n' f']. intros Hf. exfalso. simpl in Hg. rewrite Hg in Hf; [done|].
      subst f1. rewrite !has_flag_lor. by destruct (has_flag f _).
    - specialize (Hstep 0%nat (n - 1) f). destruct (scan_loop _ _ _ _). intros Hf _ Hn.
      apply Hstep; [done..|lia|lia|]. intros d stop rest pos Hd _. simpl.
      rewrite (proj2 (Z.ltb_lt 1 (d + n))) by lia. f_equal. lia. }
  destruct (Z.eqb_spec c "\"%ch) as [->|H3].
  2: { specialize (Hstep 0%nat n). destruct (needs_braces c).
       - specialize (Hstep (Z.lor f EAGLE_USE_BRACES)). destruct (scan_loop _ _ _ _).
         intros Hf _ Hn. apply Hstep; [done..|lia|lia|]. by apply Hpass.
       - specialize (Hstep f). destruct (scan_loop _ _ _ _).
         intros Hf _ Hn. apply Hstep; [done..|lia|lia|]. by apply Hpass. }
  change (needs_braces "\"%ch) with false. cbn match.
  assert (Hdont : ∀ z' n, has_flag (snd (scan_loop 0 z' n
             (Z.lor EAGLE_DONT_USE_BRACES EAGLE_BRACES_UNMATCHED))) EAGLE_DONT_USE_BRACES = true).
  { intros z' n1. by destruct (scan_grows z' 0 n1 (Z.lor EAGLE_DONT_USE_BRACES EAGLE_BRACES_UNMATCHED)) as [-> _]. }
  destruct z as [|d z]; [specialize (Hdont [] n); destruct (scan_loop _ _ _ _); simpl in Hdont; congruence|].
  destruct (Z.eqb_spec d NEWLINE) as [->|Hd].
  { specialize (Hdont (NEWLINE :: z) n). destruct (scan_loop _ _ _ _). simpl in Hdont. congruence. }
  set (k := (_ - 1)%nat). specialize (Hstep k n (Z.lor f EAGLE_USE_BRACES)).
  destruct (scan_loop _ _ _ _). intros Hf _ Hn.
  pose proof (backslash_bounds "\"%ch (d :: z)) as [Hb _].
  apply Hstep; [done..| |lia|]; [subst k; simpl in *; lia|]. intros e stop rest pos He Hst.
  simpl app. cbn [find_loop]. change ("\"%ch =? "{"%ch) with false. change ("\"%ch =? "}"%ch) with false.
  change ("\"%ch =? "\"%ch) with true. cbn match. by rewrite backslash_app.
Qed.
(** ** Text with backslashes *)

(** What stands for a byte outside of braces: the byte, when it has no meaning
    there, or a sequence of two bytes.  A brace may stand for itself where
    [braces] says so. *)
Inductive unit_for (braces : bool) (c : Z) : bytes → Prop :=
| unit_raw : c ≠ "\"%ch → c ≠ DQUOTE → th8_spilornis_isspace c = false →
    (braces = true ∨ (c ≠ "{"%ch ∧ c ≠ "}"%ch)) → unit_for braces c [c]
| unit_escape d : (∀ rest, EagleParseBackslash ("\"%ch :: d :: rest) = (2%nat, [c])) →
    unit_for braces c ["\"%ch; d].

Definition units_for (braces : bool) (e t : bytes) : Prop :=
  ∃ us, t = concat us ∧ Forall2 (unit_for braces) e us.

Lemma convert_char_unit flags c :
  unit_for (negb (has_flag flags EAGLE_BRACES_UNMATCHED)) c (convert_char flags c).
Proof.
  unfold convert_char.
  repeat match goal with
  | |- context [if ?b then _ else _] => destruct b eqn:?
  end.
  all: repeat match goal with
  | H : (_ || _) = true |- _ => apply orb_true_iff in H as [H|H]
  | H : (?x =? _) = true |- _ => is_var x; apply Z.eqb_eq in H; subst x
  end; try (apply unit_escape; intros rest; reflexivity).
  1-2: by apply unit_raw; [..|left].
  bool_to_prop; apply unit_raw; [..|auto]; try lia;
    unfold th8_spilornis_isspace; rewrite !orb_false_iff, !Z.eqb_neq; split_and!; try lia.
Qed.

Lemma units_convert flags e :
  units_for (negb (has_flag flags EAGLE_BRACES_UNMATCHED)) e (concat (map (convert_char flags) e)).
Proof.
  exists (map (convert_char flags) e). split; [done|].
  induction e; constructor; [apply convert_char_unit|done].
Qed.

Lemma units_cons b c e u t : unit_for b c u → units_for b e t → units_for b (c :: e) (u ++ t).
Proof. intros Hu (us & -> & Hs). exists (u :: us). split; [done|by constructor]. Qed.

Lemma collapse_units b e t : units_for b e t → EagleCopyAndCollapse t = e.
Proof.
  intros (us & -> & Hs). unfold EagleCopyAndCollapse. induction Hs as [|c u e us Hu Hs IH]; [done|].
  destruct Hu as [H _ _ _|d H]; simpl.
  - apply Z.eqb_neq in H. rewrite H. by rewrite IH.
  - rewrite H. simpl. by rewrite IH.
Qed.

(** Units are passed over outside of braces, and inside when braces do not stand
    for themselves. *)
Lemma find_units b e t d rest pos :
  units_for b e t → (d = 0 ∨ b = false ∧ 1 <= d) →
  find_loop 0 (t ++ rest) pos d false = find_loop 0 rest (pos + length t) d false.
Proof.
  intros (us & -> & Hs) Hd. revert pos. induction Hs as [|c u e us Hu Hs IH]; intros pos.
  { simpl. by rewrite Nat.add_0_r. }
  simpl concat. rewrite <- app_assoc, length_app, Nat.add_assoc, <- IH. clear IH.
  destruct Hu as [H1 _ H2 H3|d' H].
  - simpl app. simpl length. rewrite Nat.add_1_r. destruct (Z.eqb_spec c "{"%ch) as [->|Hl].
    { destruct Hd as [->|[-> _]]; [done|]. destruct H3 as [|[]]; congruence. }
    destruct (Z.eqb_spec c "}"%ch) as [->|Hr].
    { destruct Hd as [->|[-> _]]; [done|]. destruct H3 as [|[]]; congruence. }
    apply find_pass; auto.
  - simpl app. cbn [find_loop]. change ("\"%ch =? "{"%ch) with false.
    change ("\"%ch =? "}"%ch) with false. change ("\"%ch =? "\"%ch) with true. cbn match.
    rewrite H. simpl fst. rewrite find_loop_skip by (simpl; lia). simpl. f_equal. lia.
Qed.

Lemma convert_not_brace flags c :
  c ≠ "{"%ch → c ≠ "}"%ch → unit_for false c (convert_char flags c).
Proof.
  intros H1 H2. destruct (convert_char_unit flags c) as [? ? ? ?|d H]; [|by apply unit_escape].
  apply unit_raw; auto.
Qed.

Lemma convert_brace flags c :
  c = "{"%ch ∨ c = "}"%ch → has_flag flags EAGLE_BRACES_UNMATCHED = false → convert_char flags c = [c].
Proof. intros [->| ->] H; unfold convert_char; simpl; by rewrite H. Qed.

(** A scan that reports no need for quotes met no byte that does. *)
Lemma scan_no_quotes c z n f : 
  let '(n', f') := scan_loop 0 (c :: z) n f in
  has_flag f' EAGLE_DONT_USE_BRACES = false → has_flag f' EAGLE_USE_BRACES = false →
  ∃ n1, scan_loop 0 z n1 f = (n', f') ∧
    (c = "{"%ch ∧ n1 = n + 1 ∨ c = "}"%ch ∧ n1 = n - 1 ∧ 1 <= n ∨
     c ≠ "{"%ch ∧ c ≠ "}"%ch ∧ n1 = n).
Proof.
  assert (Huse : ∀ k n b,
    has_flag b EAGLE_USE_BRACES = true ∨ has_flag b EAGLE_DONT_USE_BRACES = true →
    has_flag (snd (scan_loop k z n b)) EAGLE_USE_BRACES = true ∨
    has_flag (snd (scan_loop k z n b)) EAGLE_DONT_USE_BRACES = true).
  { intros k n1 b Hb. pose proof (scan_grows z k n1 b) as (H1 & H2 & _). destruct Hb; auto. }
  assert (Hu : ∀ f, has_flag (Z.lor f EAGLE_USE_BRACES) EAGLE_USE_BRACES = true)
    by (intros; rewrite has_flag_lor; apply orb_true_r).
  cbn [scan_loop].
  destruct (Z.eqb_spec c "{"%ch) as [->|H1]; [destruct (scan_loop _ _ _ _) eqn:E; eauto 7|].
  destruct (Z.eqb_spec c "}"%ch) as [->|H2].
  { destruct (Z.ltb_spec (n - 1) 0).
    - match goal with |- context [scan_loop ?k z ?m ?b] => specialize (Huse k m b) end.
      destruct (scan_loop _ _ _ _) as [n' f']. simpl in Huse. intros. destruct Huse; [|congruence..].
      right. rewrite !has_flag_lor. by destruct (has_flag f _).
    - destruct (scan_loop _ _ _ _) eqn:E. intros. eexists. split; [exact E|]. right. left. lia. }
  assert (Hsame : let '(n', f') := scan_loop 0 z n f in
    ∃ n1, scan_loop 0 z n1 f = (n', f') ∧
    (c = "{"%ch ∧ n1 = n + 1 ∨ c = "}"%ch ∧ n1 = n - 1 ∧ 1 <= n ∨
     c ≠ "{"%ch ∧ c ≠ "}"%ch ∧ n1 = n)) by (destruct (scan_loop _ _ _ _) eqn:E; eauto 8).
  assert (Hquote : ∀ k b,
    has_flag b EAGLE_USE_BRACES = true ∨ has_flag b EAGLE_DONT_USE_BRACES = true →
    let '(n', f') := scan_loop k z n b in
    has_flag f' EAGLE_DONT_USE_BRACES = false → has_flag f' EAGLE_USE_BRACES = false →
    ∃ n1, scan_loop 0 z n1 f = (n', f') ∧
    (c = "{"%ch ∧ n1 = n + 1 ∨ c = "}"%ch ∧ n1 = n - 1 ∧ 1 <= n ∨
     c ≠ "{"%ch ∧ c ≠ "}"%ch ∧ n1 = n)).
  { intros k b Hb. specialize (Huse k n b Hb). destruct (scan_loop _ _ _ _). simpl in Huse.
    destruct Huse; congruence. }
  destruct (needs_braces c); [apply Hquote; auto|].
  destruct (c =? "\"%ch); [|destruct (scan_loop 0 z n f); auto].
  destruct z as [|d z]; [apply Hquote; auto|]. destruct (d =? NEWLINE); apply Hquote; auto.
Qed.

(** Text that needs no quotes at all is passed over inside of braces, with the
    nesting the scan found. *)
Lemma scan_plain flags z : has_flag flags EAGLE_BRACES_UNMATCHED = false → ∀ n f,
  let '(n', f') := scan_loop 0 z n f in
  has_flag f' EAGLE_DONT_USE_BRACES = false → has_flag f' EAGLE_USE_BRACES = false → 0 <= n →
  0 <= n' ∧ ∀ d rest pos, 1 <= d →
    find_loop 0 (concat (map (convert_char flags) z) ++ rest) pos (d + n) false =
    find_loop 0 rest (pos + length (concat (map (convert_char flags) z))) (d + n') false.
Proof.
  intros Hfl. induction z as [|c z IH]; intros n f.
  { cbn. intros _ _ Hn. split; [done|]. intros. by rewrite Nat.add_0_r. }
  pose proof (scan_no_quotes c z n f) as Hc. destruct (scan_loop 0 (c :: z) n f) as [n' f'].
  intros Hd Hu Hn. destruct (Hc Hd Hu) as (n1 & E & Hn1). specialize (IH n1 f). rewrite E in IH.
  destruct IH as [H0 IH]; [done..|lia|]. split; [done|]. intros d rest pos Hd1.
  cbn [map concat]. rewrite <- app_assoc, length_app, Nat.add_assoc, <- IH by done. clear IH E.
  destruct Hn1 as [[-> ->]|[(-> & -> & Hn1)|(H1 & H2 & ->)]].
  - rewrite convert_brace by auto. simpl. rewrite (proj2 (Z.eqb_neq (d + n) 0)) by lia. simpl.
    f_equal; lia.
  - rewrite convert_brace by auto. simpl. rewrite (proj2 (Z.ltb_lt 1 (d + n))) by lia. f_equal; lia.
  - assert (Hone : units_for false [c] (convert_char flags c)).
    { exists [convert_char flags c]. split; [simpl; by rewrite app_nil_r|].
      constructor; [by apply convert_not_brace|done]. }
    apply (find_units _ _ _ _ _ _ Hone). right. split; [done|lia].
Qed.
(** ** One element *)

Lemma scan_element e :
  let f := snd (EagleScanCountedElement e) in
  has_flag f EAGLE_DONT_USE_BRACES = has_flag f EAGLE_BRACES_UNMATCHED ∧
  (has_flag f EAGLE_DONT_USE_BRACES = false → ∃ f0, scan_loop 0 e 0 f0 = (0, f) ∧
     (has_flag f EAGLE_USE_BRACES = false → head e ≠ Some "{"%ch)).
Proof.
  unfold EagleScanCountedElement. set (f0 := match e with [] => _ | _ => _ end).
  assert (Hf0 : has_flag f0 EAGLE_DONT_USE_BRACES = has_flag f0 EAGLE_BRACES_UNMATCHED ∧
                (head e ≠ Some "{"%ch ∨ f0 = EAGLE_USE_BRACES)).
  { subst f0. destruct e as [|c e]; [auto|]. simpl.
    destruct (Z.eqb_spec c "{"%ch) as [->|]; [auto|]. simpl. split; [by case_if|left; congruence]. }
  destruct Hf0 as [Hf Hf0]. pose proof (scan_grows e 0 0 f0) as (H1 & H2 & H3). specialize (H3 Hf).
  destruct (scan_loop 0 e 0 f0) as [n f] eqn:E. simpl in *.
  destruct (Z.eqb_spec n 0) as [->|Hn]; [|split; done]. split; [done|].
  intros Hd. exists f0. split; [exact E|]. intros Hu. destruct Hf0 as [|Hf0]; [done|].
  rewrite Hf0 in H2. destruct H2; [done|congruence..].
Qed.

Lemma braced_scan e f :
  (∃ f0, scan_loop 0 e 0 f0 = (0, f)) → has_flag f EAGLE_DONT_USE_BRACES = false →
  ∀ d stop rest pos, 1 <= d → ends_sequence stop = true →
    find_loop 0 (e ++ stop :: rest) pos d false = find_loop 0 (stop :: rest) (pos + length e) d false.
Proof.
  intros [f0 E] Hf d stop rest pos Hd Hs. pose proof (scan_braced e 0 0 f0) as H. rewrite E in H.
  destruct H as [_ H]; [done|lia|done|]. specialize (H d stop rest pos Hd Hs).
  by rewrite Z.add_0_r in H.
Qed.

(** An element is in braces, or quoted byte by byte, or not quoted but for
    brackets and quotation marks. *)
Inductive quoted (e : bytes) : bytes → Prop :=
| quoted_braces :
    (∀ d stop rest pos, 1 <= d → ends_sequence stop = true →
      find_loop 0 (e ++ stop :: rest) pos d false =
      find_loop 0 (stop :: rest) (pos + length e) d false) →
    quoted e ("{"%ch :: e ++ ["}"%ch])
| quoted_escaped t : e ≠ [] → units_for false e t → quoted e t
| quoted_plain c z t : e = c :: z → c ≠ "{"%ch → units_for true e t →
    (∀ d rest pos, 1 <= d → find_loop 0 (t ++ rest) pos d false = find_loop 0 rest (pos + length t) d false) →
    quoted e t.

Lemma convert_quoted e x :
  has_flag x EAGLE_DONT_USE_BRACES = false → has_flag x EAGLE_USE_BRACES = false →
  has_flag x EAGLE_BRACES_UNMATCHED = false →
  quoted e (EagleConvertCountedElement e (Z.lor (snd (EagleScanCountedElement e)) x)).
Proof.
  intros Hx1 Hx2 Hx3. pose proof (scan_element e) as [Hf Hscan].
  set (f := snd (EagleScanCountedElement e)) in *.
  destruct e as [|c z].
  { apply (quoted_braces []). intros. cbn [app length]. by rewrite Nat.add_0_r. }
  cbn [EagleConvertCountedElement]. rewrite has_flag_lor.
  set (hash := (c =? "#"%ch) && _). set (fl := if hash then _ else _).
  assert (Hfl : has_flag fl EAGLE_DONT_USE_BRACES = has_flag f EAGLE_DONT_USE_BRACES ∧
                has_flag fl EAGLE_BRACES_UNMATCHED = has_flag f EAGLE_BRACES_UNMATCHED).
  { subst fl. destruct hash; rewrite !has_flag_lor, ?Hx1, ?Hx2, ?Hx3, ?orb_false_r; done. }
  destruct Hfl as [Hfl1 Hfl2]. rewrite Hfl1. destruct (has_flag f EAGLE_DONT_USE_BRACES) eqn:Ed.
  - (* escaped *)
    rewrite andb_false_r. apply quoted_escaped; [done|]. simpl negb.
    assert (Hz : ∀ fl' w, has_flag fl' EAGLE_BRACES_UNMATCHED = true →
              units_for false w (concat (map (convert_char fl') w))).
    { intros fl' w H. pose proof (units_convert fl' w) as Hu. by rewrite H in Hu. }
    destruct (Z.eqb_spec c "{"%ch) as [->|H1].
    { apply (units_cons _ _ _ ["\"%ch; "{"%ch]); [by apply unit_escape|].
      apply Hz. rewrite has_flag_lor. apply orb_true_r. }
    destruct hash eqn:Eh; [|apply Hz; congruence].
    subst hash. apply andb_true_iff in Eh as [->%Z.eqb_eq _].
    apply (units_cons _ _ _ ["\"%ch; "#"%ch]); [by apply unit_escape|]. apply Hz. congruence.
  - destruct (Hscan eq_refl) as (f0 & E & Hf0). simpl negb. rewrite andb_true_r.
    destruct (has_flag fl EAGLE_USE_BRACES) eqn:Eu; [apply quoted_braces; eapply braced_scan; eauto|].
    destruct hash eqn:Eh; [subst fl; by rewrite has_flag_lor, orb_true_r in Eu|].
    subst fl. rewrite has_flag_lor, Hx2, orb_false_r in Eu. specialize (Hf0 Eu). simpl in Hf0.
    assert (H1 : c ≠ "{"%ch) by congruence. rewrite (proj2 (Z.eqb_neq _ _) H1).
    pose proof (units_convert (Z.lor f x) (c :: z)) as Hun.
    rewrite has_flag_lor, Hx3, <- Hf in Hun.
    eapply quoted_plain; [done|done|exact Hun|].
    pose proof (scan_plain (Z.lor f x) (c :: z)) as Hp. rewrite has_flag_lor, Hx3, <- Hf in Hp.
    specialize (Hp eq_refl 0 f0). rewrite E in Hp. destruct Hp as [_ Hp]; [done..|].
    intros d rest pos Hd. specialize (Hp d rest pos Hd). by rewrite Z.add_0_r in Hp.
Qed.
Lemma units_head b c z t : units_for b (c :: z) t → b = false ∨ c ≠ "{"%ch →
  ∃ h t', t = h :: t' ∧ h ≠ "{"%ch ∧ h ≠ DQUOTE ∧ th8_spilornis_isspace h = false.
Proof.
  intros (us & -> & Hs) Hb. inversion Hs as [|? u ? us' Hu]; subst.
  destruct Hu as [H1 H2 H3 H4|d Hd]; simpl.
  - eexists _, _. split_and!; [done| |done..]. destruct Hb as [->|]; [|done]. by destruct H4 as [|[]].
  - by eexists _, _.
Qed.

Lemma units_found b c z t rest :
  units_for b (c :: z) t → b = false ∨ c ≠ "{"%ch → (rest = [] ∨ ∃ r, rest = " "%ch :: r) →
  ∃ el size brace, EagleFindElement (t ++ rest) = Ok (el, size, brace, skip_space rest) ∧ el ≠ [] ∧
    (if brace then take size el else EagleCopyAndCollapse (take size el)) = c :: z.
Proof.
  intros Hu Hb Hr. destruct (units_head _ _ _ _ Hu Hb) as (h & t' & -> & H1 & H2 & H3).
  eexists ((h :: t') ++ rest), (length (h :: t')), false. split_and!; [|done|].
  - unfold EagleFindElement, skip_space. simpl app. cbn [span]. rewrite H3. cbn [drop].
    apply Z.eqb_neq in H1, H2. rewrite H1, H2.
    rewrite app_comm_cons, (find_units b (c :: z) (h :: t')) by auto.
    by destruct Hr as [->|[r ->]].
  - rewrite take_app_length. by apply (collapse_units b).
Qed.

(** A quoted element is found, up to the space after it, and read back. *)
Lemma quoted_found e t rest :
  quoted e t → (rest = [] ∨ ∃ r, rest = " "%ch :: r) →
  ∃ el size brace, EagleFindElement (t ++ rest) = Ok (el, size, brace, skip_space rest) ∧ el ≠ [] ∧
    (if brace then take size el else EagleCopyAndCollapse (take size el)) = e.
Proof.
  intros Hq Hr. destruct Hq as [Hb|t He Hu|c z t -> Hc Hu _].
  - eexists (e ++ "}"%ch :: rest), (length e), true. split_and!; [| |by rewrite take_app_length].
    + unfold EagleFindElement. rewrite <- app_comm_cons, <- app_assoc. simpl.
      rewrite Hb by done. simpl. by destruct Hr as [->|[r ->]].
    + by destruct e.
  - destruct e as [|c z]; [done|]. eapply units_found; eauto.
  - eapply units_found; eauto.
Qed.

(** A quoted element may stand inside of braces. *)
Lemma quoted_inside e t d stop rest pos :
  quoted e t → 1 <= d → ends_sequence stop = true →
  find_loop 0 (t ++ stop :: rest) pos d false = find_loop 0 (stop :: rest) (pos + length t) d false.
Proof.
  intros Hq Hd Hs. destruct Hq as [Hb|t He Hu|c z t _ _ _ Hp].
  - cbn [app]. rewrite <- app_assoc, find_open by lia. cbn [app].
    rewrite Hb, find_close by (done || lia). f_equal; [|lia]. simpl. rewrite length_app. simpl. lia.
  - apply (find_units _ _ _ _ _ _ Hu). auto.
  - by apply Hp.
Qed.

(** Quoted elements with a space before each, and a list of them. *)
Definition spaced (ts : list bytes) : bytes := concat (map (cons " "%ch) ts).
Definition list_text (ts : list bytes) : bytes :=
  match ts with [] => [] | t :: ts => t ++ spaced ts end.

Lemma spaced_inside es ts d stop rest pos :
  Forall2 quoted es ts → 1 <= d → ends_sequence stop = true →
  find_loop 0 (spaced ts ++ stop :: rest) pos d false =
  find_loop 0 (stop :: rest) (pos + length (spaced ts)) d false.
Proof.
  intros Hq Hd Hs. revert pos. induction Hq as [|e t es ts Ht Hq IH]; intros pos.
  { simpl. by rewrite Nat.add_0_r. }
  change (spaced (t :: ts)) with (" "%ch :: t ++ spaced ts). simpl app.
  rewrite find_pass, <- app_assoc by (done || left; lia).
  assert (Hn : ∃ s r, spaced ts ++ stop :: rest = s :: r ∧ ends_sequence s = true)
    by (destruct ts; simpl; eauto).
  destruct Hn as (s & r & Hn & Hs'). rewrite Hn, (quoted_inside e), <- Hn, IH by done.
  f_equal. simpl. rewrite length_app. lia.
Qed.

Lemma text_inside es ts d stop rest pos :
  Forall2 quoted es ts → 1 <= d → ends_sequence stop = true →
  find_loop 0 (list_text ts ++ stop :: rest) pos d false =
  find_loop 0 (stop :: rest) (pos + length (list_text ts)) d false.
Proof.
  intros Hq Hd Hs. destruct Hq as [|e t es ts Ht Hq]; [simpl; by rewrite Nat.add_0_r|].
  cbn [list_text]. rewrite <- app_assoc.
  assert (Hn : ∃ s r, spaced ts ++ stop :: rest = s :: r ∧ ends_sequence s = true)
    by (destruct ts; simpl; eauto).
  destruct Hn as (s & r & Hn & Hs'). rewrite Hn, (quoted_inside e), <- Hn, (spaced_inside es) by done.
  f_equal. rewrite length_app. lia.
Qed.

(** What Eagle_JoinList writes is such a list. *)
Definition converted (first : bool) (e : bytes) : bytes :=
  EagleConvertCountedElement e
    (Z.lor (snd (EagleScanCountedElement e)) (if first then 0 else EAGLE_DONT_QUOTE_HASH)).

Lemma converted_quoted first e : quoted e (converted first e).
Proof. apply convert_quoted; by destruct first. Qed.

Definition converted_all (es : list bytes) : list bytes :=
  match es with [] => [] | e :: es => converted true e :: map (converted false) es end.

Lemma converted_all_quoted es : Forall2 quoted es (converted_all es).
Proof.
  destruct es as [|e es]; constructor; [apply converted_quoted|].
  induction es; constructor; [apply converted_quoted|done].
Qed.

Lemma join_text_list es : join_text true es = list_text (converted_all es).
Proof.
  destruct es as [|e es]; [done|]. simpl. f_equal. unfold spaced.
  induction es as [|e' es IH]; [done|]. simpl. by rewrite IH.
Qed.

(** ** What Eagle_SplitList needs of the blocks it allocates *)

Lemma collapse_length z : (length (EagleCopyAndCollapse z) <= length z)%nat.
Proof.
  unfold EagleCopyAndCollapse. induction z as [z IH] using list_len_ind.
  destruct z as [|c z]; simpl; [lia|]. case_if.
  - bool_to_prop. subst c. pose proof (backslash_bounds "\"%ch z) as [H1 H2].
    destruct (EagleParseBackslash _) as [n w]. simpl in *.
    rewrite collapse_skip, length_app. specialize (IH (drop (n - 1) z)).
    rewrite length_drop in IH. lia.
  - specialize (IH z). simpl in *. lia.
Qed.

Lemma runs_suffix a b :
  count_runs b false <= count_runs (a ++ b) true + 1 ∧ count_runs b false <= count_runs (a ++ b) false.
Proof.
  induction a as [|c a IH]; simpl.
  - destruct b as [|c b]; simpl; [lia|]. destruct (th8_spilornis_isspace c); lia.
  - destruct (th8_spilornis_isspace c); lia.
Qed.

Lemma count_runs_pos p : ∀ b, 0 <= count_runs p b.
Proof.
  induction p as [|c p IH]; intros b; simpl; [lia|]. pose proof (IH true). pose proof (IH false).
  repeat case_if; lia.
Qed.

Lemma count_runs_le p : ∀ b, count_runs p b <= zlen p.
Proof.
  induction p as [|c p IH]; intros b; [done|]. cbn [count_runs]. rewrite zlen_cons.
  pose proof (IH true). pose proof (IH false). repeat case_if; lia.
Qed.

Lemma runs_skip_space p : count_runs (skip_space p) false = count_runs p true.
Proof.
  unfold skip_space. induction p as [|c p IH]; simpl; [done|].
  destruct (th8_spilornis_isspace c) eqn:E; simpl; [done|]. by rewrite E.
Qed.

Lemma find_loop_end p : ∀ skip pos ob q size ob' p',
  (skip <= length p)%nat → find_loop skip p pos ob q = Ok (size, ob', p') →
  ∃ a, p = a ++ p' ∧ at_space p' = true ∧ (size <= pos + length a)%nat.
Proof.
  induction p as [|c p IH]; intros skip pos ob q size ob' p' Hs.
  { simpl in Hs. cbn [find_loop]. repeat case_if; try done. intros [= <- _ <-]. exists [].
    split_and!; [done..|simpl; lia]. }
  assert (Hgo : ∀ skip ob q, (skip <= length p)%nat → find_loop skip p (S pos) ob q = Ok (size, ob', p') →
    ∃ a, c :: p = a ++ p' ∧ at_space p' = true ∧ (size <= pos + length a)%nat).
  { intros k o q' Hk H. destruct (IH _ _ _ _ _ _ _ Hk H) as (a & -> & Ha & Hsz).
    exists (c :: a). split_and!; [done..|simpl; lia]. }
  assert (Hend : at_space p = true → Ok (pos, ob, p) = Ok (E := list_error) (size, ob', p') →
    ∃ a, c :: p = a ++ p' ∧ at_space p' = true ∧ (size <= pos + length a)%nat).
  { intros Ha [= <- _ <-]. exists [c]. split_and!; [done..|simpl; lia]. }
  destruct skip as [|skip]; cbn [find_loop]; [|apply Hgo; simpl in Hs; lia].
  case_if; [apply Hgo; lia|].
  case_if; [repeat case_if; try done; eauto; apply Hgo; lia|].
  case_if.
  { bool_to_prop. subst c. pose proof (backslash_bounds "\"%ch p) as [Hb _].
    apply Hgo. simpl in Hb. lia. }
  case_if.
  { case_if; [|apply Hgo; lia]. intros [= <- _ <-]. exists []. split_and!; [done..|simpl; lia]. }
  case_if; [|apply Hgo; lia]. case_if; [case_if; try done; eauto|apply Hgo; lia].
Qed.

Lemma skip_space_suffix p : ∃ a, p = a ++ skip_space p.
Proof. exists (take (span th8_spilornis_isspace p) p). symmetry. apply take_drop. Qed.

(** The end of an element that starts at [el]. *)
Lemma element_end lead el p : (∃ a, el = a ++ p) → at_space p = true → el ≠ [] →
  (length (skip_space p) < length (lead ++ el))%nat ∧
  (skip_space p = [] ∨
   zlen (skip_space p) + 1 <= zlen p ∧ count_runs (skip_space p) false + 1 <= count_runs (lead ++ el) false).
Proof.
  intros [a Hel] Ha Hne. destruct p as [|s p].
  { split; [|by left]. rewrite length_app. destruct el; [done|simpl; lia]. }
  assert (Hs : (length (skip_space (s :: p)) <= length p)%nat).
  { unfold skip_space. simpl in Ha. simpl. rewrite Ha. simpl. rewrite length_drop. lia. }
  split; [rewrite Hel, !length_app; simpl; lia|]. right. split; [rewrite zlen_cons; unfold zlen; lia|].
  rewrite runs_skip_space. pose proof (proj2 (runs_suffix (lead ++ a) (s :: p))) as H.
  rewrite Hel, app_assoc. etrans; [|exact H]. simpl in Ha. simpl. rewrite Ha. lia.
Qed.

Lemma FindElement_end list el size brace next :
  EagleFindElement list = Ok (el, size, brace, next) → el = [] ∧ next = [] ∨
  el ≠ [] ∧ Z.of_nat size <= zlen list ∧ (length next < length list)%nat ∧
  (next = [] ∨ zlen next + Z.of_nat size + 1 <= zlen list ∧
               count_runs next false + 1 <= count_runs list false).
Proof.
  unfold EagleFindElement. destruct (skip_space_suffix list) as [lead Hlead].
  destruct (skip_space list) as [|c z] eqn:Es; [intros [= <- _ _ <-]; auto|].
  destruct (if c =? "{"%ch then _ else _) as [[el0 ob] q] eqn:Eel.
  assert (Hel : ∃ lead, list = lead ++ el0).
  { revert Eel. repeat case_if; intros [= <- _ _]; [exists (lead ++ [c])..|by exists lead];
      by rewrite <- app_assoc. }
  destruct (find_loop 0 el0 0 ob q) as [[[size' ob'] p]|] eqn:E; [|done]. simpl.
  intros [= <- <- _ <-]. pose proof E as (a & Hp & Ha & Hsz)%find_loop_end; [|lia].
  destruct Hel as [lead' Hlist]. simpl in Hsz.
  destruct el0 as [|c0 el0].
  { exfalso. revert Eel E. repeat case_if; by intros [= -> <- <-]. }
  right. rewrite Hlist. destruct (element_end lead' (c0 :: el0) p) as [H1 Hn]; [eauto|done..|].
  assert (zlen (lead' ++ c0 :: el0) = zlen lead' + Z.of_nat (length a) + zlen p)
    by (rewrite Hp, !zlen_app; unfold zlen; lia).
  pose proof (zlen_nonneg lead'). pose proof (zlen_nonneg p).
  split_and!; [done|lia|done|]. destruct Hn as [|[]]; [by left|right]. lia.
Qed.

(** The errors of a list that is not well formed. *)
Definition is_syntax_error (e : list_error) : Prop :=
  match e with BraceJunk _ | QuoteJunk _ | OpenBrace | OpenQuote => True | _ => False end.

Lemma find_loop_error p : ∀ skip pos ob q e, find_loop skip p pos ob q = Err e → is_syntax_error e.
Proof.
  induction p as [|c p IH]; intros [|skip] pos ob q e; cbn [find_loop];
    repeat case_if; try (by intros [= <-]); try (by intros [=]); apply IH.
Qed.

Lemma FindElement_error list e : EagleFindElement list = Err e → is_syntax_error e.
Proof.
  unfold EagleFindElement. destruct (skip_space list) as [|c z]; [done|].
  destruct (if c =? "{"%ch then _ else _) as [[el0 ob] q].
  destruct (find_loop _ _ _ _ _) as [[[size ob'] p]|e'] eqn:E; [done|].
  intros [= <-]. by eapply find_loop_error.
Qed.

(** The arrays and the block for the text are large enough, whatever the list. *)
Lemma Split_loop_safe fuel : ∀ size cap i used p,
  (length p <= fuel)%nat → i < size → (p ≠ [] → i + count_runs p false + 2 <= size) →
  used + zlen p + (match p with [] => 0 | _ => 1 end) <= cap →
  match Split_loop fuel size cap i used p with Ok _ => True | Err e => is_syntax_error e end.
Proof.
  induction fuel as [|fuel IH]; intros size cap i used p Hf Hi Hs Hu; pose proof (count_runs_pos p false) as Hr.
  { destruct p; [|simpl in Hf; lia]. cbn. by rewrite (proj2 (Z.ltb_lt i size)) by lia. }
  cbn [Split_loop]. rewrite (proj2 (Z.ltb_lt i size)) by lia. destruct p as [|c p]; [done|].
  specialize (Hs ltac:(done)).
  pose proof (FindElement_end (c :: p)) as Hfe.
  destruct (EagleFindElement (c :: p)) as [[[[el sz] brace] next]|e] eqn:E; cbn [res_bind].
  2: { by eapply FindElement_error. }
  destruct (Hfe _ _ _ _ eq_refl) as [[-> ->]|(Hne & Hsz & Hlen & Hnext)]; [done|].
  destruct el as [|c' el]; [done|]. rewrite (proj2 (Z.leb_gt size i)) by lia.
  set (w := if brace then _ else _).
  assert (Hw : zlen w <= Z.of_nat sz).
  { subst w. pose proof (collapse_length (take sz (c' :: el))).
    pose proof (length_take (c' :: el) sz). destruct brace; unfold zlen; lia. }
  rewrite (proj2 (Z.ltb_ge cap (used + zlen w + 1))) by lia.
  specialize (IH size cap (i + 1) (used + zlen w + 1) next).
  assert (Hgo : match Split_loop fuel size cap (i + 1) (used + zlen w + 1) next with
                | Ok _ => True | Err e => is_syntax_error e end).
  { apply IH; [simpl in *; lia|lia|..]; destruct Hnext as [->|[]]; try done; try lia; [|destruct next]; rewrite ?zlen_nil; lia. }
  by destruct (Split_loop _ _ _ _ _ next).
Qed.

(** ** Lists that are joined *)

Lemma convert_length e flags : zlen (EagleConvertCountedElement e flags) <= 2 * zlen e + 2.
Proof.
  assert (Hc : ∀ fl w, zlen (concat (map (convert_char fl) w)) <= 2 * zlen w).
  { intros fl w. induction w as [|c w IH]; [done|]. cbn [map concat]. rewrite zlen_app, zlen_cons.
    assert (zlen (convert_char fl c) <= 2) by (unfold convert_char; repeat case_if; done). lia. }
  destruct e as [|c z]; [done|]. pose proof (zlen_nonneg z). cbn [EagleConvertCountedElement]. cbv zeta.
  repeat case_match; rewrite ?zlen_cons, ?zlen_app, ?zlen_cons; simpl;
    try (etrans; [apply (Hc _ (c :: z))|rewrite zlen_cons; lia]);
    try (match goal with |- context [concat (map (convert_char ?f) z)] => specialize (Hc f z) end; lia);
    rewrite zlen_nil; lia.
Qed.

Lemma join_length es : ∀ first, zlen (join_text first es) <= join_size first es.
Proof.
  induction es as [|e es IH]; intros first; [done|]. cbn [join_text join_size].
  rewrite !zlen_app. specialize (IH false).
  assert (fst (EagleScanCountedElement e) = 2 * zlen e + 2) as ->.
  { unfold EagleScanCountedElement. by destruct (scan_loop _ _ _ _). }
  match goal with |- context [EagleConvertCountedElement e ?f] => pose proof (convert_length e f) end.
  destruct first; rewrite ?zlen_cons, ?zlen_nil; lia.
Qed.

Lemma join_count es : ∀ first, zlen es <= join_size first es.
Proof.
  induction es as [|e es IH]; intros first; [done|]. cbn [join_size]. rewrite zlen_cons.
  assert (fst (EagleScanCountedElement e) = 2 * zlen e + 2) as ->.
  { unfold EagleScanCountedElement. by destruct (scan_loop _ _ _ _). }
  specialize (IH false). pose proof (zlen_nonneg e). destruct first; lia.
Qed.

Lemma quoted_head e t : quoted e t → ∃ h t', t = h :: t' ∧ th8_spilornis_isspace h = false.
Proof.
  intros [Hb|t' He Hu|c z t' -> Hc Hu _]; [by eexists _, _|..].
  - destruct e as [|c z]; [done|]. destruct (units_head _ _ _ _ Hu) as (h & r & -> & _ & _ & Hs); eauto.
  - destruct (units_head _ _ _ _ Hu) as (h & r & -> & _ & _ & Hs); eauto.
Qed.

Lemma skip_spaced es ts : Forall2 quoted es ts → skip_space (spaced ts) = list_text ts.
Proof.
  intros Hq. destruct Hq as [|e t es ts Ht Hq]; [done|].
  destruct (quoted_head _ _ Ht) as (h & t' & -> & Hh).
  change (skip_space (h :: t' ++ spaced ts) = (h :: t') ++ spaced ts).
  unfold skip_space. cbn [span]. by rewrite Hh.
Qed.

Lemma spaced_rest ts : spaced ts = [] ∨ ∃ r, spaced ts = " "%ch :: r.
Proof. destruct ts as [|t ts]; [by left|right]. by eexists. Qed.

(** Splitting goes through a list of quoted elements one by one. *)
Lemma Split_quoted es ts : Forall2 quoted es ts → ∀ fuel size cap i used,
  (length (list_text ts) <= fuel)%nat → i < size →
  (list_text ts ≠ [] → i + count_runs (list_text ts) false + 2 <= size) →
  used + zlen (list_text ts) + (match list_text ts with [] => 0 | _ => 1 end) <= cap →
  Split_loop fuel size cap i used (list_text ts) = Ok es.
Proof.
  induction 1 as [|e t es ts Ht Hq IH]; intros fuel size cap i used Hf Hi Hs Hu.
  { simpl in *. destruct fuel; cbn; by rewrite (proj2 (Z.ltb_lt i size)) by lia. }
  destruct (quoted_found e t (spaced ts) Ht (spaced_rest ts)) as (el & sz & brace & Hfe & Hne & Hw).
  pose proof (FindElement_end _ _ _ _ _ Hfe) as [[]|(_ & Hsz & Hlen & Hnext)]; [done|].
  assert (He : zlen e <= Z.of_nat sz).
  { rewrite <- Hw. pose proof (collapse_length (take sz el)). pose proof (length_take el sz).
    destruct brace; unfold zlen; lia. }
  rewrite (skip_spaced es) in Hfe, Hlen, Hnext by done. cbn [list_text] in *.
  assert (Hp : ∃ c p, t ++ spaced ts = c :: p).
  { destruct (quoted_head _ _ Ht) as (h & t' & -> & _). by eexists _, _. }
  destruct Hp as (c & p & Hp). rewrite Hp in *. specialize (Hs ltac:(done)).
  destruct fuel as [|fuel]; [simpl in Hf; lia|]. cbn [Split_loop]. rewrite Hfe. cbn [res_bind].
  pose proof (count_runs_pos (c :: p) false).
  destruct el as [|c' el]; [done|]. rewrite (proj2 (Z.leb_gt size i)) by lia.
  rewrite Hw, (proj2 (Z.ltb_ge cap (used + zlen e + 1))) by lia.
  rewrite IH; [done|simpl in *; lia|lia|..]; destruct Hnext as [->|[]]; try done; try lia;
    [|destruct (list_text ts)]; rewrite ?zlen_nil; lia.
Qed.

(** The elements and a NUL byte after each fit in the block for the text. *)
Lemma Split_text_size fuel : ∀ size cap i used p es,
  Split_loop fuel size cap i used p = Ok es →
  es = [] ∨ used + foldr (λ e n, zlen e + 1 + n) 0 es <= cap.
Proof.
  induction fuel as [|fuel IH]; intros size cap i used p es; destruct p as [|c p]; cbn [Split_loop];
    try (case_if; [intros [= <-]; by left|done]); try done.
  destruct (EagleFindElement _) as [[[[el sz] brace] next]|]; [|done]. cbn [res_bind].
  destruct el as [|c' el]; [case_if; [intros [= <-]; by left|done]|].
  case_if; [done|]. set (w := if brace then _ else _). case_if; [done|].
  destruct (Split_loop _ _ _ _ _ next) as [es'|] eqn:E; [|done]. intros [= <-]. right.
  bool_to_prop. apply IH in E as [->|E]; simpl; lia.
Qed.

Lemma SplitList_text_size z es :
  Eagle_SplitList z = Ok es → foldr (λ e n, zlen e + 1 + n) 0 es <= zlen z + 1.
Proof.
  unfold Eagle_SplitList. cbv zeta. repeat case_if; try done. intros H.
  apply Split_text_size in H as [->|H]; [simpl; pose proof (zlen_nonneg z); lia|lia].
Qed.

(** A list of quoted elements is split into them when it is short enough. *)
Lemma SplitList_quoted es ts (Ha : ∀ n, alloc_ok n = true) : Forall2 quoted es ts →
  9 * zlen (list_text ts) + 17 <= LIBRARY_MAXIMUM_SIZE_T → Eagle_SplitList (list_text ts) = Ok es.
Proof.
  intros Hq Hfit. unfold LIBRARY_MAXIMUM_SIZE_T in Hfit.
  unfold Eagle_SplitList. cbv zeta. rewrite !Ha. cbn [negb].
  pose proof (count_runs_le (list_text ts) false). pose proof (count_runs_pos (list_text ts) false).
  rewrite (proj2 (Z.ltb_ge (LIBRARY_MAXIMUM_SIZE_T / 8) _))
    by (change (LIBRARY_MAXIMUM_SIZE_T / 8) with 268435455; lia).
  rewrite (proj2 (Z.ltb_ge _ (zlen (list_text ts) + 1))) by (unfold LIBRARY_MAXIMUM_SIZE_T; lia).
  apply Split_quoted; [done|lia..|]. case_match; lia.
Qed.

(** *** Properties *)

(** C34.  Joining any elements and splitting the result gives the elements back,
    whatever bytes they hold: spaces, quotes, unbalanced braces, backslashes, the
    end of a line or a leading hash.  It does so whenever the memory is there and
    the text is short enough for the 31-bit sizes of the library. *)
Theorem list_roundtrip (es : list bytes) (Ha : ∀ n, alloc_ok n = true)
  (Hfit : 9 * join_size true es + 17 <= LIBRARY_MAXIMUM_SIZE_T) :
  ∃ text, Eagle_JoinList es = Ok text ∧ Eagle_SplitList text = Ok es.
Proof.
  pose proof (join_length es true) as Hl. pose proof (join_count es true) as Hn.
  pose proof (zlen_nonneg es). exists (join_text true es). split.
  - unfold LIBRARY_MAXIMUM_SIZE_T in Hfit.
    unfold Eagle_JoinList. cbv zeta. rewrite !Ha, !andb_false_r. cbn [negb].
    rewrite (proj2 (Z.ltb_ge (LIBRARY_MAXIMUM_SIZE_T / 4) (zlen es)))
      by (change (LIBRARY_MAXIMUM_SIZE_T / 4) with 536870911; lia).
    rewrite andb_false_r. by rewrite (proj2 (Z.ltb_ge (join_size true es + 1) _)) by lia.
  - rewrite join_text_list in *. apply SplitList_quoted; [done|apply converted_all_quoted|lia].
Qed.

(** C35.  Whatever the list, splitting it never writes past the arrays and the
    block that were sized from an estimate of the number of elements, never runs
    into that estimate and comes to an end: it gives the elements, an error of
    syntax, or an error of size or memory.  Joining never writes past the block
    it sized either. *)
Theorem list_blocks_suffice (z : bytes) (es : list bytes) :
  match Eagle_SplitList z with
  | Ok _ | Err (TooLarge _) | Err (OutOfMemory _) => True
  | Err e => is_syntax_error e
  end ∧ Eagle_JoinList es ≠ Err Overrun.
Proof.
  split.
  - unfold Eagle_SplitList. cbv zeta. repeat case_if; try done.
    pose proof (Split_loop_safe (length z) (2 + count_runs z false) (zlen z + 1) 0 0 z) as H.
    pose proof (count_runs_pos z false).
    destruct (Split_loop _ _ _ _ _ _) as [|[]]; try done; apply H; try lia; case_match; lia.
  - unfold Eagle_JoinList. cbv zeta. pose proof (join_length es true) as Hl.
    rewrite (proj2 (Z.ltb_ge (join_size true es + 1) _)) by lia. by repeat case_if.
Qed.

(** A joined list may be put in braces and be an element of another list:
    whatever its elements, its braces and backslashes are such that splitting the
    outer list takes exactly its text as the element. *)
Theorem joined_list_nests (es : list bytes) (rest : bytes) (Hr : at_space rest = true) :
  ∃ el, EagleFindElement ("{"%ch :: join_text true es ++ "}"%ch :: rest) =
    Ok (el, length (join_text true es), true, skip_space rest) ∧
    take (length (join_text true es)) el = join_text true es.
Proof.
  exists (join_text true es ++ "}"%ch :: rest). split; [|apply take_app_length].
  unfold EagleFindElement.
  change (skip_space ("{"%ch :: ?z)) with ("{"%ch :: z). cbn [Z.eqb Pos.eqb].
  rewrite join_text_list, (text_inside es) by (done || apply converted_all_quoted).
  simpl. by rewrite Hr.
Qed.
End characters.

(** *** Characters that do not fit in a byte *)

(** Where char is signed, a backslash before a byte of 128 or more, that is
    before any character outside of ASCII, gives that byte and a byte of 255. *)
Lemma backslash_high_byte c rest :
  128 <= c < 256 → EagleParseBackslash true ("\"%ch :: c :: rest) = (2%nat, [c; 255]).
Proof.
  intros Hc. assert (Hs : sequence true ("\"%ch :: c :: rest) = (2%nat, char_value true c)).
  { cbn [sequence].
    repeat match goal with |- context [c =? ?k] => rewrite (proj2 (Z.eqb_neq c k)) by lia end.
    unfold EagleIsOctDigit. by rewrite (proj2 (Z.leb_gt c "7"%ch)), andb_false_r by lia. }
  unfold EagleParseBackslash. rewrite Hs. cbn [Nat.eqb].
  pose (p := λ c, negb (128 <=? c) ||
    (negb (Z.land (char_value true c) (2 ^ 64 - 2 ^ 16) =? 0) && (to_char (char_value true c) =? c) &&
     (to_char (Z.shiftr (char_value true c) 8) =? 255))).
  assert (H : p c = true) by (apply all_bytes_spec; [vm_compute; reflexivity|unfold is_byte; lia]).
  subst p. cbn beta in H. rewrite (proj2 (Z.leb_le 128 c)) in H by lia. simpl negb at 1 in H.
  cbn [orb] in H. apply andb_true_iff in H as [[H1 H2]%andb_true_iff H3].
  apply Z.eqb_eq in H2, H3. apply negb_true_iff in H1. by rewrite H1, H2, H3.
Qed.

Definition granted : Z → bool := λ _, true.

(** An escape for the euro sign is read as one byte that is not UTF-8, and one
    above 16 bits leaves a NUL byte. *)
Example unicode_escape_truncated signed :
  Eagle_SplitList signed granted (bytes_of_string "\u20ac") = Ok [[0xAC]] ∧
  Eagle_SplitList signed granted (bytes_of_string "\U00010041") = Ok [[0x41; 0]].
Proof. destruct signed; vm_compute; split; reflexivity. Qed.

Example list_errors :
  Eagle_SplitList true granted (bytes_of_string "{a}b") = Err (BraceJunk (bytes_of_string "b")) ∧
  Eagle_SplitList true granted (bytes_of_string "a {b") = Err OpenBrace ∧
  Eagle_SplitList true granted (bytes_of_string "  ") = Ok [].
Proof. vm_compute. split_and!; reflexivity. Qed.

Definition awkward : list bytes :=
  [[]; bytes_of_string "#a"; bytes_of_string "{b"; bytes_of_string "c d\"; bytes_of_string "}e{";
   [NEWLINE; DQUOTE; 0; 255]; bytes_of_string "f]"].

Lemma list_roundtrip_witness :
  (∀ n, granted n = true) ∧ 9 * join_size true true awkward + 17 <= LIBRARY_MAXIMUM_SIZE_T ∧
  ∃ text, Eagle_JoinList true granted awkward = Ok text ∧ Eagle_SplitList true granted text = Ok awkward.
Proof.
  assert (Ha : ∀ n, granted n = true) by done.
  assert (Hf : 9 * join_size true true awkward + 17 <= LIBRARY_MAXIMUM_SIZE_T) by (vm_compute; discriminate).
  split_and!; [exact Ha|exact Hf|exact (list_roundtrip true granted awkward Ha Hf)].
Defined.

Lemma joined_list_nests_witness :
  at_space [" "%ch; "x"%ch] = true ∧
  ∃ el, EagleFindElement true ("{"%ch :: join_text true true awkward ++ "}"%ch :: [" "%ch; "x"%ch]) =
    Ok (el, length (join_text true true awkward), true, ["x"%ch]) ∧
    take (length (join_text true true awkward)) el = join_text true true awkward.
Proof.
  assert (Hr : at_space [" "%ch; "x"%ch] = true) by reflexivity.
  split; [exact Hr|exact (joined_list_nests true awkward [" "%ch; "x"%ch] Hr)].
Defined.
