(* ===== verification/Lists.v ===== *)
(** * Lists: Th8_SplitList and Th8_ListAppend (src/src/th8_core.c), over the list
    parser of Spilornis.

    A string with its tagged length is a pair.  The cache of representations is
    an interface: an entry for a text may be missing, be there without a value,
    or hold the elements of the text.  The arrays that Th8_SplitList returns in one
    block are the elements and the tagged lengths; an argument the caller left
    out is a switch. *)

From S2P Require Import Prelude Memory Strings Spilornis.
#[local] Open Scope Z_scope.

Definition TH8_MAX_LIST_ELEMENTS : Z := 1000000.

Inductive split_error : Type :=
| SplitSyntax (e : list_error) (zList : bytes)   (* the parser's message, or expected list, got *)
| SplitTooMany                                   (* list too many elements *)
| SplitTooLarge                                  (* list too large *)
| SplitNoMemory.                                 (* out of memory *)

Class ListInterp (I : Type) : Type := {
  list_strings :: StringInterp I;
  list_alloc : I → Z → bool * I;                                  (* TH8_ALLOC *)
  find_list : I → bytes → option (option (list bytes)) * I;       (* Th8_FindInCache *)
  store_list : I → bytes → list bytes → I;
  report_split : I → split_error → I
}.

(** What the caller receives; [None] in front where nothing was written. *)
Record split_out : Type := mkOut {
  pnCount : option Z; pazElem : option (option (list bytes)); panElem : option (option (list Z))
}.
Definition untouched : split_out := mkOut None None None.

Section lists.
Context {I : Type} `{LI : ListInterp I}.
Context (char_signed : bool) (spilornis_ok : Z → bool).

(** The pointers, the lengths and the text with a NUL byte after each element;
    [None] on overflow. *)
Definition arrays_size (nElem nStrTotal : Z) : option Z :=
  t1 ← mul_size 8 nElem;
  t2 ← mul_size 8 nElem;
  nAlloc ← add_size t1 t2;
  add_size nAlloc nStrTotal.

Definition text_size (es : list bytes) : Z := foldr (λ e n, zlen e + 1 + n) 0 es.

Section call.
(** Which of the OUT arguments the caller wants, and whether the cache is used. *)
Context (bElem bLen bCount bCache : bool).

Definition give {A} (b : bool) (x : A) : option A := if b then Some x else None.

(** A valid entry is copied; a list that is too long or cannot be copied is an
    error without a message. *)
Definition split_hit (i : I) (nListTag : Z) (es : list bytes) : Z * split_out * I :=
  if TH8_MAX_LIST_ELEMENTS <? zlen es then (TH8_ERROR, untouched, i)
  else if bElem then
    match arrays_size (zlen es) (text_size es) with
    | None => (TH8_ERROR, untouched, i)
    | Some nAlloc =>
        let '(ok, i) := list_alloc i nAlloc in
        if ok then
          (TH8_OK, mkOut (give bCount (zlen es)) (Some (Some es))
                     (give bLen (Some (map (λ e, Z.lor (zlen e) nListTag) es))), i)
        else (TH8_ERROR, untouched, i)
    end
  else (TH8_OK, mkOut (give bCount (zlen es)) None (give bLen None), i).

(** The elements of a parse are kept for the next time; the number of elements is
    read back from the caller's count. *)
Definition split_store (i : I) (zList : bytes) (es : list bytes) : I :=
  let '(entry, i) := find_list i zList in
  match entry with
  | Some None =>
      let nE := if bCount then zlen es else 0 in
      if (0 <? nE) && bLen then
        let '(ok, i) := list_alloc i (nE * 8 + nE * 8 + text_size es) in
        if ok then store_list i zList es else i
      else if nE =? 0 then store_list i zList [] else i
  | _ => i
  end.

Definition split_miss (i : I) (nListTag : Z) (zList : bytes) : Z * split_out * I :=
  match Eagle_SplitList char_signed spilornis_ok zList with
  | Err e => (TH8_ERROR, untouched, report_split i (SplitSyntax e zList))
  | Ok es =>
      let count := give bCount (zlen es) in
      if TH8_MAX_LIST_ELEMENTS <? zlen es then
        (TH8_ERROR, mkOut count None None, report_split i SplitTooMany)
      else if bElem && (0 <? zlen es) then
        match arrays_size (zlen es) (text_size es) with
        | None => (TH8_ERROR, mkOut count None None, report_split i SplitTooLarge)
        | Some nAlloc =>
            let '(ok, i) := list_alloc i nAlloc in
            if ok then
              let i := if bCache then split_store i zList es else i in
              (TH8_OK, mkOut count (Some (Some es))
                         (give bLen (Some (map (λ e, Z.lor (zlen e) nListTag) es))), i)
            else (TH8_ERROR, mkOut count None None, report_split i SplitNoMemory)
        end
      else (TH8_OK, mkOut count (give bElem None) (give bLen None), i)
  end.

Definition Th8_SplitList (i : I) (list : bytes * Z) : Z * split_out * I :=
  let nListTag := Z.land (snd list) TH8_TAG_BITS in
  let zList := fst list in
  if TH8_LEN (snd list) =? 0 then
    (TH8_OK, mkOut (give bCount 0) (give bElem None) (give bLen None), i)
  else if bCache then
    let '(entry, i) := find_list i zList in
    match entry with
    | Some (Some es) => split_hit i nListTag es
    | _ => split_miss i nListTag zList
    end
  else split_miss i nListTag zList.
End call.

(** ** Appending *)

(** Appends in order, up to the first that fails; the list is what was appended so
    far. *)
Fixpoint append_some (i : I) (str : bytes * Z) (apps : list (bytes * Z)) : bool * (bytes * Z) * I :=
  match apps with
  | [] => (true, str, i)
  | app :: apps =>
      let '(s, i) := Th8_StringAppend i str app in
      match s with Some s => append_some i s apps | None => (false, str, i) end
  end.

(** An element that cannot be quoted is put in braces as it is. *)
Definition Th8_ListAppend (i : I) (list elem : bytes * Z) : Z * (bytes * Z) * I :=
  let nElemTag := Z.land (snd elem) TH8_TAG_BITS in
  let nElem := TH8_LEN (snd elem) in
  let separator := if 0 <? snd list then [([" "%ch], 1)] else [] in
  let quoted :=
    match Eagle_JoinList char_signed spilornis_ok [fst elem] with
    | Ok zJoined => [(zJoined, zlen zJoined)]
    | Err _ => [(["{"%ch], 1); (fst elem, nElem); (["}"%ch], 1)]
    end in
  let '(ok, list, i) := append_some i list (separator ++ quoted) in
  if ok then (TH8_OK, (fst list, Z.lor (snd list) nElemTag), i) else (TH8_ERROR, list, i).

Fixpoint append_elements (i : I) (list : bytes * Z) (elems : Datatypes.list (bytes * Z))
    : Z * (bytes * Z) * I :=
  match elems with
  | [] => (TH8_OK, list, i)
  | elem :: elems =>
      let '(rc, list, i) := Th8_ListAppend i list elem in
      if rc =? TH8_OK then append_elements i list elems else (rc, list, i)
  end.
End lists.

(** ** What the cache promises *)

Class ListLaws (I : Type) `{LI : ListInterp I} : Type := {
  in_cache : I → bytes → list bytes → Prop;
  find_in_cache i z es : fst (find_list i z) = Some (Some es) → in_cache i z es;
  find_keeps i z z' es : in_cache (snd (find_list i z)) z' es → in_cache i z' es;
  store_in_cache i z es z' es' :
    in_cache (store_list i z es) z' es' → in_cache i z' es' ∨ (z' = z ∧ es' = es);
  alloc_keeps i n z es : in_cache (snd (list_alloc i n)) z es → in_cache i z es;
  report_keeps i e z es : in_cache (report_split i e) z es → in_cache i z es
}.

Section list_facts.
Context {I : Type} `{LI : ListInterp I} `{LL : !ListLaws I}.
Context (char_signed : bool) (spilornis_ok : Z → bool).

(** Every entry of the cache is the parse of its text. *)
Definition coherent (i : I) : Prop :=
  ∀ z es, in_cache i z es →
    Eagle_SplitList char_signed spilornis_ok z = Ok es ∧ es ≠ [] ∧ zlen es <= TH8_MAX_LIST_ELEMENTS.

Lemma coherent_find i z : coherent i → coherent (snd (find_list i z)).
Proof. intros H z' es Hc. by apply H, find_keeps with z. Qed.
Lemma coherent_alloc i n : coherent i → coherent (snd (list_alloc i n)).
Proof. intros H z' es Hc. by apply H, alloc_keeps with n. Qed.
Lemma coherent_report i e : coherent i → coherent (report_split i e).
Proof. intros H z' es Hc. by apply H, report_keeps with e. Qed.

Lemma coherent_store bLen i z es :
  coherent i → Eagle_SplitList char_signed spilornis_ok z = Ok es → es ≠ [] →
  zlen es <= TH8_MAX_LIST_ELEMENTS → coherent (split_store bLen true i z es).
Proof.
  intros Hi He Hne Hmax. unfold split_store. pose proof (coherent_find i z Hi) as Hf.
  destruct (find_list i z) as [[[es'|]|] i1]; simpl in Hf; try done.
  assert (Hn : (zlen es =? 0) = false) by (apply Z.eqb_neq; destruct es; [done|rewrite zlen_cons; pose proof (zlen_nonneg es); lia]).
  rewrite Hn. case_if; [|done].
  pose proof (coherent_alloc i1 (zlen es * 8 + zlen es * 8 + text_size es) Hf) as Ha.
  destruct (list_alloc _ _) as [[] i2]; simpl in Ha; [|done].
  intros z' es' [Hc|[-> ->]]%store_in_cache; [by apply Ha|done].
Qed.

(** What a caller who asks for everything receives. *)
Definition full_out (nListTag : Z) (es : list bytes) : split_out :=
  match es with
  | [] => mkOut (Some 0) (Some None) (Some None)
  | _ => mkOut (Some (zlen es)) (Some (Some es)) (Some (Some (map (λ e, Z.lor (zlen e) nListTag) es)))
  end.

Definition split_spec (o : Z * split_out * I) (nListTag : Z) (z : bytes) : Prop :=
  let '(rc, out, _) := o in
  match Eagle_SplitList char_signed spilornis_ok z with
  | Ok es => if zlen es <=? TH8_MAX_LIST_ELEMENTS then rc = TH8_OK ∧ out = full_out nListTag es
             else rc = TH8_ERROR
  | Err _ => rc = TH8_ERROR ∧ out = untouched
  end.

Lemma arrays_fit es z :
  Eagle_SplitList char_signed spilornis_ok z = Ok es → zlen es <= TH8_MAX_LIST_ELEMENTS →
  zlen z <= TH8_LEN_MASK → arrays_size (zlen es) (text_size es) ≠ None.
Proof.
  intros He Hn Hz. apply SplitList_text_size in He. pose proof (zlen_nonneg es).
  unfold TH8_MAX_LIST_ELEMENTS, TH8_LEN_MASK in *. change (foldr _ 0 es) with (text_size es) in He.
  assert (Hmul : mul_size 8 (zlen es) = Some (8 * zlen es)).
  { unfold mul_size, TH8_SAFE_MUL_SIZE. destruct (Z.eqb_spec (zlen es) 0); [done|]. cbn [negb andb].
    rewrite (proj2 (Z.ltb_ge (SIZE_MAX / zlen es) 8)); [done|].
    apply Z.div_le_lower_bound; unfold SIZE_MAX; lia. }
  unfold arrays_size. rewrite Hmul. cbn [mbind option_bind].
  unfold add_size, TH8_SAFE_ADD_SIZE, SIZE_MAX. rewrite (proj2 (Z.ltb_ge _ (8 * zlen es))) by lia.
  cbn [mbind option_bind]. by rewrite (proj2 (Z.ltb_ge _ (8 * zlen es + 8 * zlen es))) by lia.
Qed.

Lemma full_out_elems nListTag es :
  es ≠ [] → mkOut (Some (zlen es)) (Some (Some es)) (Some (Some (map (λ e, Z.lor (zlen e) nListTag) es))) =
            full_out nListTag es.
Proof. by destruct es. Qed.

Lemma split_miss_spec bCache i t z (Ha : ∀ i n, fst (list_alloc i n) = true) :
  coherent i → zlen z <= TH8_LEN_MASK →
  let o := split_miss char_signed spilornis_ok true true true bCache i t z in
  coherent (snd o) ∧ split_spec o t z.
Proof.
  intros Hi Hz. unfold split_miss, split_spec.
  destruct (Eagle_SplitList _ _ z) as [es|e] eqn:He; [|split; [by apply coherent_report|done]].
  destruct (Z.ltb_spec TH8_MAX_LIST_ELEMENTS (zlen es)) as [Hmax|Hmax].
  { rewrite (proj2 (Z.leb_gt _ _) Hmax). split; [by apply coherent_report|done]. }
  rewrite (proj2 (Z.leb_le _ _) Hmax). destruct es as [|e es]; [by split; [|split]|].
  assert (Hpos : 0 < zlen (e :: es)) by (rewrite zlen_cons; pose proof (zlen_nonneg es); lia).
  rewrite (proj2 (Z.ltb_lt _ _) Hpos). simpl andb. cbn match.
  pose proof (arrays_fit _ _ He Hmax Hz) as Hfit. destruct (arrays_size _ _) as [n|] eqn:?; [|congruence].
  specialize (Ha i n). pose proof (coherent_alloc i n Hi) as Hc.
  destruct (list_alloc i n) as [ok i1]. simpl in Ha, Hc. subst ok. simpl.
  split; [|done]. destruct bCache; [|done]. by apply coherent_store.
Qed.

(** Splitting with the cache gives what the list parser gives: the elements,
    with every length carrying the tags of the whole list, or an error that leaves
    the caller's variables alone, unless the list has more than a million elements.
    The cache stays coherent: every entry is the parse of its text, so no call sees
    the elements of another list or lengths tainted by an earlier one. *)
Theorem SplitList_spec (bCache : bool) (i : I) (z : bytes) (n : Z)
  (Hi : coherent i) (Hn : TH8_LEN n = zlen z) (Ha : ∀ i n, fst (list_alloc i n) = true) :
  let o := Th8_SplitList char_signed spilornis_ok true true true bCache i (z, n) in
  coherent (snd o) ∧
  match z with
  | [] => o = (TH8_OK, full_out (tag_of n) [], i)
  | _ => split_spec o (tag_of n) z
  end.
Proof.
  unfold Th8_SplitList. cbn [fst snd]. change (Z.land n TH8_TAG_BITS) with (tag_of n). rewrite Hn.
  assert (Hz : zlen z <= TH8_LEN_MASK) by (rewrite <- Hn, len_mask_mod; unfold TH8_LEN_MASK; divlia).
  destruct z as [|c z]; [by rewrite zlen_nil|].
  rewrite (proj2 (Z.eqb_neq _ _)) by (rewrite zlen_cons; pose proof (zlen_nonneg z); lia).
  destruct bCache; [|by apply split_miss_spec].
  pose proof (coherent_find i (c :: z) Hi) as Hf. pose proof (find_in_cache i (c :: z)) as Hhit.
  destruct (find_list i (c :: z)) as [[[es|]|] i1]; simpl in Hf, Hhit;
    [|by apply split_miss_spec..].
  destruct (Hi _ _ (Hhit es eq_refl)) as (He & Hne & Hmax).
  unfold split_hit. rewrite (proj2 (Z.ltb_ge _ _) Hmax). cbn match.
  pose proof (arrays_fit _ _ He Hmax Hz) as Hfit. destruct (arrays_size _ _) as [m|] eqn:?; [|congruence].
  specialize (Ha i1 m). pose proof (coherent_alloc i1 m Hf) as Hc.
  destruct (list_alloc i1 m) as [ok i2]. simpl in Ha, Hc. subst ok. split; [done|].
  unfold split_spec. simpl. rewrite He, (proj2 (Z.leb_le _ _) Hmax). split; [done|].
  by apply full_out_elems.
Qed.

(** ** Building a list *)

(** A list that was built so far: quoted elements, the tags of all of them. *)
Definition built (list : bytes * Z) (elems : Datatypes.list (bytes * Z)) : Prop :=
  ∃ ts, Forall2 (quoted char_signed) (map fst elems) ts ∧ fst list = list_text ts ∧
    TH8_LEN (snd list) = zlen (fst list) ∧ snd list = Z.lor (zlen (fst list)) (tag_of (snd list)) ∧
    tag_of (snd list) = foldr (λ e t, Z.lor (tag_of (snd e)) t) 0 elems.

(** The room an element takes at most, with its separator. *)
Definition element_room (e : bytes * Z) : Z := 2 * zlen (fst e) + 3.
Definition total_room (elems : Datatypes.list (bytes * Z)) : Z :=
  foldr (λ e n, element_room e + n) 0 elems.

Lemma built_nil : built ([], 0) [].
Proof. exists []. by split_and!. Qed.

Lemma list_text_snoc ts t : list_text (ts ++ [t]) = list_text ts ++ (if ts is [] then t else " "%ch :: t).
Proof.
  destruct ts as [|t' ts]; simpl; [by rewrite app_nil_r|].
  unfold spaced. rewrite map_app, concat_app. simpl. by rewrite app_nil_r, <- app_assoc.
Qed.

(** Joining a single element. *)
Lemma JoinList_one e : (∀ n, spilornis_ok n = true) →
  Eagle_JoinList char_signed spilornis_ok [e] = Ok (converted char_signed true e).
Proof.
  intros Ha. unfold Eagle_JoinList. cbv zeta. pose proof (join_length char_signed [e] true) as Hl.
  change (zlen [e] <=? LIBRARY_LOCAL_FLAGS) with true. cbn [negb andb]. rewrite Ha. cbn [negb].
  rewrite (proj2 (Z.ltb_ge _ _)) by lia. rewrite join_text_list. simpl. by rewrite app_nil_r.
Qed.

(** Appending pieces without tags. *)
Lemma append_some_plain apps : unlimited (I := I) → Forall (λ a, snd a = zlen (fst a)) apps → ∀ i z n,
  n = Z.lor (zlen z) (tag_of n) → zlen z + zlen (concat (map fst apps)) <= TH8_MX_STRLEN →
  ∃ i', append_some i (z, n) apps =
    (true, (z ++ concat (map fst apps), Z.lor (zlen (z ++ concat (map fst apps))) (tag_of n)), i').
Proof.
  intros Hu. induction 1 as [|[a na] apps Ha _ IH]; intros i z n Hn Hfit; cbn [map concat append_some fst].
  { rewrite app_nil_r. rewrite <- Hn. by eexists. }
  cbn [map concat fst snd] in Ha, Hfit. subst na. rewrite zlen_app in Hfit.
  pose proof (zlen_nonneg z). pose proof (zlen_nonneg a). pose proof (zlen_nonneg (concat (map fst apps))).
  assert (HM : TH8_MX_STRLEN <= TH8_LEN_MASK) by done.
  destruct (StringAppend_fits i z n a (zlen a) Hu) as (i1 & ->).
  { rewrite Hn. apply LEN_with_tag. lia. } { apply TH8_LEN_small. lia. } { lia. }
  rewrite (tag_of_small (zlen a)), Z.lor_0_r by lia. rewrite <- zlen_app.
  destruct (IH i1 (z ++ a) (Z.lor (zlen (z ++ a)) (tag_of n))) as (i2 & E).
  - rewrite tag_with_tag by (rewrite zlen_app; lia). done.
  - rewrite zlen_app. lia.
  - exists i2. rewrite E, tag_with_tag by (rewrite zlen_app; lia). by rewrite <- !app_assoc.
Qed.

(** Appending an element extends the list by its quoted form. *)
Lemma ListAppend_built i list elems z n : unlimited (I := I) → (∀ n, spilornis_ok n = true) →
  built list elems → (elems = [] → snd list = 0) → TH8_LEN n = zlen z →
  zlen (fst list) + element_room (z, n) <= TH8_MX_STRLEN →
  ∃ list' i', Th8_ListAppend char_signed spilornis_ok i list (z, n) = (TH8_OK, list', i') ∧
    built list' (elems ++ [(z, n)]) ∧ zlen (fst list') <= zlen (fst list) + element_room (z, n).
Proof.
  intros Hu Ha (ts & Hq & Hz & Hlen & Hsnd & Htag) Hnil Hn Hroom. destruct list as [l nl]. simpl in *.
  pose proof (converted_quoted char_signed true z) as Hc. set (t := converted char_signed true z) in *.
  assert (Ht : zlen t <= 2 * zlen z + 2) by apply convert_length. unfold element_room in Hroom. simpl in Hroom.
  pose proof (zlen_nonneg l). pose proof (zlen_nonneg z). assert (HM : TH8_MX_STRLEN <= TH8_LEN_MASK) by done.
  unfold Th8_ListAppend. cbn [fst snd]. rewrite JoinList_one by done. fold t.
  set (sep := if 0 <? nl then _ else _).
  assert (Hsep : concat (map fst (sep ++ [(t, zlen t)])) = if ts is [] then t else " "%ch :: t).
  { subst sep. destruct ts as [|t' ts].
    - apply Forall2_nil_inv_r in Hq. destruct elems; [|done]. rewrite Hnil by done. simpl. by rewrite app_nil_r.
    - destruct (Z.ltb_spec 0 nl) as [|Hle]; [simpl; by rewrite app_nil_r|]. exfalso.
      assert (0 < zlen l).
      { rewrite Hz. inversion Hq as [|e0 ? ? ? He0]; subst.
        destruct (quoted_head _ _ _ He0) as (h & r & -> & _). simpl. rewrite zlen_cons.
        pose proof (zlen_nonneg (r ++ spaced ts)). lia. }
      rewrite len_mask_mod in Hlen. assert (nl <> 0) by (intros ->; change (0 mod 2 ^ 28) with 0 in Hlen; lia).
      assert (0 <= nl); [|lia]. rewrite Hsnd. apply Z.lor_nonneg. split; [lia|].
      apply Z.land_nonneg. by right. }
  destruct (append_some_plain (sep ++ [(t, zlen t)]) Hu) with (i := i) (z := l) (n := nl) as (i' & ->).
  { apply Forall_app. split; [|by repeat constructor]. subst sep. case_if; by repeat constructor. }
  { done. } { rewrite Hsep. destruct ts; rewrite ?zlen_cons; lia. }
  rewrite Hsep. cbn [fst snd]. eexists _, _. split; [done|]. cbn [fst snd]. split.
  - exists (ts ++ [t]). cbn [fst snd].
    assert (Hl : l ++ (if ts is [] then t else " "%ch :: t) = list_text (ts ++ [t])) by by rewrite list_text_snoc, Hz.
    rewrite Hl. set (text := list_text (ts ++ [t])) in *.
    assert (Hfit : 0 <= zlen text <= TH8_LEN_MASK).
    { rewrite <- Hl, zlen_app. destruct ts; rewrite ?zlen_cons; pose proof (zlen_nonneg t); lia. }
    change (Z.land n TH8_TAG_BITS) with (tag_of n).
    rewrite <- Z.lor_assoc.
    assert (Ho : Z.lor (tag_of nl) (tag_of n) = tag_of (Z.lor nl n)) by by rewrite tag_of_lor.
    rewrite Ho, LEN_with_tag, tag_with_tag by done. split_and!; [|done..|].
    + rewrite map_app. apply Forall2_app; [done|]. by constructor; [exact Hc|].
    + rewrite foldr_app. simpl. rewrite Z.lor_0_r, tag_of_lor, Htag. clear.
      induction elems as [|e elems IH]; simpl; [done|]. by rewrite <- IH, Z.lor_assoc.
  - rewrite zlen_app. unfold element_room. simpl. destruct ts; rewrite ?zlen_cons; lia.
Qed.

(** A list that is built by appending elements splits into exactly those
    elements, whatever bytes they hold, and is tainted or sensitive exactly when
    one of them is. *)
Theorem append_then_split (i : I) (elems : Datatypes.list (bytes * Z))
  (Hu : unlimited (I := I)) (Ha : ∀ n, spilornis_ok n = true)
  (Hn : Forall (λ e, TH8_LEN (snd e) = zlen (fst e)) elems) (Hfit : total_room elems <= TH8_MX_STRLEN) :
  ∃ text n i', append_elements char_signed spilornis_ok i ([], 0) elems = (TH8_OK, (text, n), i') ∧
    Eagle_SplitList char_signed spilornis_ok text = Ok (map fst elems) ∧
    TH8_LEN n = zlen text ∧ tag_of n = foldr (λ e t, Z.lor (tag_of (snd e)) t) 0 elems.
Proof.
  assert (Hgo : ∀ todo i list did, built list did → (did = [] → snd list = 0) →
    Forall (λ e, TH8_LEN (snd e) = zlen (fst e)) todo → zlen (fst list) + total_room todo <= TH8_MX_STRLEN →
    ∃ list' i', append_elements char_signed spilornis_ok i list todo = (TH8_OK, list', i') ∧
      built list' (did ++ todo) ∧ zlen (fst list') <= TH8_MX_STRLEN).
  { induction todo as [|[z n] todo IH]; intros i1 list did Hb Hnil Hall Hroom.
    { eexists _, _. rewrite app_nil_r. split_and!; [done..|]. simpl in Hroom. lia. }
    apply Forall_cons in Hall as [Hz Hall]. cbn [total_room foldr] in Hroom. fold (total_room todo) in Hroom.
    assert (Hpos : 0 <= total_room todo).
    { clear. induction todo as [|e todo IH]; simpl; [done|]. unfold element_room.
      pose proof (zlen_nonneg (fst e)). lia. }
    destruct (ListAppend_built i1 list did z n) as (l1 & i2 & E & Hb1 & Hl1); [done..|lia|].
    cbn [append_elements]. rewrite E. cbn [Z.eqb TH8_OK].
    destruct (IH i2 l1 (did ++ [(z, n)])) as (l2 & i3 & E2 & Hb2 & Hl2);
      [done|by destruct did|done|lia|].
    eexists _, _. rewrite <- app_assoc in Hb2. by split_and!. }
  destruct (Hgo elems i ([], 0) []) as ([text n] & i' & E & (ts & Hq & Hz & Hlen & _ & Htag) & Hl);
    [apply built_nil|done..|].
  exists text, n, i'. simpl in *. split_and!; [done| |done..].
  rewrite Hz in *. apply SplitList_quoted; [done|done|].
  unfold TH8_MX_STRLEN in Hl. unfold LIBRARY_MAXIMUM_SIZE_T. lia.
Qed.
End list_facts.

(** ** An interpreter with a cache of lists *)

Record shelf : Type := mkShelf { sf_lists : list (bytes * list bytes); sf_error : option split_error }.

Definition lookup_list (c : list (bytes * list bytes)) (z : bytes) : option (list bytes) :=
  snd <$> head (filter (λ e, fst e = z) c).

#[export] Instance shelf_strings : StringInterp shelf := {
  th8OversizeString i := i; nResultLimit _ := 0; th8BufferAlloc i _ := (true, i);
  set_limit_exceeded i := i; set_append_failed i := i
}.

#[export] Instance shelf_lists : ListInterp shelf := {
  list_alloc i _ := (true, i);
  find_list i z := (Some (lookup_list (sf_lists i) z), i);
  store_list i z es := mkShelf ((z, es) :: sf_lists i) (sf_error i);
  report_split i e := mkShelf (sf_lists i) (Some e)
}.

#[export] Program Instance shelf_laws : ListLaws shelf := {
  in_cache i z es := lookup_list (sf_lists i) z = Some es
}.
Next Obligation. intros i z es H. simpl in H. congruence. Qed.
Next Obligation. done. Qed.
Next Obligation.
  intros i z es z' es'. unfold lookup_list. simpl. rewrite filter_cons. simpl.
  case_decide as Hz; simpl; [|by left]. intros [= ->]. right. by split.
Qed.
Next Obligation. done. Qed.
Next Obligation. done. Qed.

Definition empty_shelf : shelf := mkShelf [] None.
Definition plain (s : string) : bytes * Z := (bytes_of_string s, zlen (bytes_of_string s)).

(** A caller who leaves out the number of elements leaves an empty list in the
    cache, and the next caller is told that the list has no elements. *)
Example uncounted_split_poisons :
  let split b i := Th8_SplitList true granted true true b true i (plain "a b") in
  let '(rc1, out1, i1) := split false empty_shelf in
  let '(rc2, out2, _) := split true i1 in
  rc1 = TH8_OK ∧ pazElem out1 = Some (Some (map bytes_of_string ["a"; "b"]%string)) ∧
  rc2 = TH8_OK ∧ pnCount out2 = Some 0.
Proof. vm_compute. split_and!; reflexivity. Qed.

Lemma SplitList_spec_witness :
  let '(_, _, i) := Th8_SplitList true granted true true true true empty_shelf (plain "a {b c}") in
  let n := Z.lor 7 TH8_TAINT_BIT in
  let o := Th8_SplitList true granted true true true true i (bytes_of_string "a {b c}", n) in
  coherent true granted (snd o) ∧ split_spec true granted o (tag_of n) (bytes_of_string "a {b c}") ∧
  fst (fst o) = TH8_OK.
Proof.
  assert (Ha : ∀ (i : shelf) n, fst (list_alloc i n) = true) by done.
  assert (H0 : coherent true granted empty_shelf) by (intros z es; discriminate).
  destruct (Th8_SplitList true granted true true true true empty_shelf (plain "a {b c}")) as [[rc out] i] eqn:E.
  destruct (SplitList_spec true granted true empty_shelf (bytes_of_string "a {b c}") 7 H0 eq_refl Ha) as [H1 _].
  assert (E1 : i = snd (Th8_SplitList true granted true true true true empty_shelf (plain "a {b c}")))
    by (rewrite E; reflexivity).
  subst i.
  destruct (SplitList_spec true granted true _ (bytes_of_string "a {b c}") (Z.lor 7 TH8_TAINT_BIT)
              H1 eq_refl Ha) as [H2 H3].
  split; [exact H2|]. split; [exact H3|]. vm_compute. reflexivity.
Defined.

Lemma append_then_split_witness :
  let elems := map (λ e, (e, Z.lor (zlen e) TH8_TAINT_BIT)) awkward in
  total_room elems <= TH8_MX_STRLEN ∧
  ∃ text n i', append_elements true granted empty_shelf ([], 0) elems = (TH8_OK, (text, n), i') ∧
    Eagle_SplitList true granted text = Ok (map fst elems) ∧
    TH8_LEN n = zlen text ∧ tag_of n = foldr (λ e t, Z.lor (tag_of (snd e)) t) 0 elems.
Proof.
  intros elems. assert (Hu : unlimited (I := shelf)) by (split; done).
  assert (Ha : ∀ n, granted n = true) by done.
  assert (Hn : Forall (λ e : bytes * Z, TH8_LEN (snd e) = zlen (fst e)) elems)
    by (repeat constructor).
  assert (Hf : total_room elems <= TH8_MX_STRLEN) by (vm_compute; discriminate).
  split; [exact Hf|]. exact (append_then_split true granted empty_shelf elems Hu Ha Hn Hf).
Defined.
