(* ===== verification/Glob.v ===== *)
(** * Glob: glob-style matching (th8GlobMatch2 and Th8_GlobMatch of
    src/src/th8_glob.c).

    The matcher walks the pattern and the string together; a star tries every
    suffix of the string by a recursive call, with a depth that is capped.  It
    polls the interpreter, when it has one, at every call and every pattern
    element.  The specification is a relation on pattern and string, indexed by
    the stars that recurse. *)

From S2P Require Import Prelude.

Definition is_star (c : Z) : bool := c =? "*"%ch.

(** The rest of a pattern after a star: consecutive stars are collapsed. *)
Definition strip (pat : bytes) : bytes := drop (span is_star pat) pat.

(** The inside of a character class: whether [ch] matched, and the pattern from
    the closing bracket on. *)
Fixpoint class_loop (pat : bytes) (ch : Z) (matched : bool) : bool * bytes :=
  match pat with
  | [] => (matched, [])
  | c :: p1 =>
      if c =? "]"%ch then (matched, pat)
      else
        match p1 with
        | d :: cHi :: p3 =>
            if (d =? "-"%ch) && negb (cHi =? "]"%ch)
            then class_loop p3 ch (matched || ((c <=? ch) && (ch <=? cHi)))
            else class_loop p1 ch (matched || (c =? ch))
        | _ => class_loop p1 ch (matched || (c =? ch))
        end
  end.

(** A class from after its open bracket: whether it accepts [ch], and the
    pattern after it.  A missing close bracket ends it with the pattern. *)
Definition class (pat : bytes) (ch : Z) : bool * bytes :=
  let invert := next_is "!"%ch pat in
  let '(matched, rest) := class_loop (if invert then tail pat else pat) ch false in
  (if invert then negb matched else matched, tail rest).

Section glob.
Context {I : Type} (Th8_Ready : I → Z * I).

(** A poll of the interpreter, if there is one. *)
Definition poll (interp : option I) : bool * option I :=
  match interp with
  | None => (true, None)
  | Some it => let '(rc, it') := Th8_Ready it in (rc =? TH8_OK, Some it')
  end.

(** The entry checks of a call at the given depth, before its loop [k]. *)
Definition enter (k : option I → bool * option I) (depth : Z) (interp : option I)
    : bool * option I :=
  if 50 <? depth then (false, interp)
  else let '(ready, interp) := poll interp in if ready then k interp else (false, interp).

(** Every suffix of the string, longest first, until a call matches. *)
Fixpoint try_suffixes (call : bytes → option I → bool * option I) (str : bytes)
    (interp : option I) : bool * option I :=
  let '(matched, interp) := call str interp in
  if matched then (true, interp)
  else match str with
       | [] => (false, interp)
       | _ :: str' => try_suffixes call str' interp
       end.

(** The loop over the pattern; each round drops a byte or more of it, so one
    more than its length is fuel enough. *)
Fixpoint match_loop (fuel : nat) (depth : Z) (pat str : bytes) (interp : option I)
    : bool * option I :=
  match fuel with
  | O => (false, interp)
  | S fuel' =>
      match pat with
      | [] => (match str with [] => true | _ => false end, interp)
      | c :: pat' =>
          let '(ready, interp) := poll interp in
          if negb ready then (false, interp)
          else if c =? "*"%ch then
            match strip pat' with
            | [] => (true, interp)
            | p =>
                try_suffixes
                  (λ s, enter (match_loop fuel' (depth + 1) p s) (depth + 1)) str interp
            end
          else if c =? "?"%ch then
            match str with
            | [] => (false, interp)
            | _ :: str' => match_loop fuel' depth pat' str' interp
            end
          else if c =? "["%ch then
            match str with
            | [] => (false, interp)
            | ch :: str' =>
                let '(matched, rest) := class pat' ch in
                if matched then match_loop fuel' depth rest str' interp else (false, interp)
            end
          else if c =? "\"%ch then
            match pat', str with
            | e :: pat'', ch :: str' =>
                if e =? ch then match_loop fuel' depth pat'' str' interp else (false, interp)
            | _, _ => (false, interp)
            end
          else
            match str with
            | [] => (false, interp)
            | ch :: str' =>
                if c =? ch then match_loop fuel' depth pat' str' interp else (false, interp)
            end
      end
  end.

Definition th8GlobMatch2 (interp : option I) (pat str : bytes) (depth : Z)
    : bool * option I :=
  enter (match_loop (S (length pat)) depth pat str) depth interp.

Definition Th8_GlobMatch (interp : option I) (pat str : bytes) : bool * option I :=
  th8GlobMatch2 interp pat str 0.
End glob.

(** ** Specification *)

Definition is_meta (c : Z) : bool :=
  (c =? "*"%ch) || (c =? "?"%ch) || (c =? "["%ch) || (c =? "\"%ch).

(** [globs n pat str]: the string matches, with [n] stars that are followed by
    more pattern. *)
Inductive globs : nat → bytes → bytes → Prop :=
| globs_end : globs 0 [] []
| globs_last_star p str : strip p = [] → globs 0 ("*"%ch :: p) str
| globs_star n p s1 s2 : strip p ≠ [] → globs n (strip p) s2 →
    globs (S n) ("*"%ch :: p) (s1 ++ s2)
| globs_any n p ch str : globs n p str → globs n ("?"%ch :: p) (ch :: str)
| globs_class n p rest ch str : class p ch = (true, rest) → globs n rest str →
    globs n ("["%ch :: p) (ch :: str)
| globs_escape n p ch str : globs n p str → globs n ("\"%ch :: ch :: p) (ch :: str)
| globs_char n p ch str : is_meta ch = false → globs n p str → globs n (ch :: p) (ch :: str).

Lemma strip_length p : (length (strip p) <= length p)%nat.
Proof. unfold strip. rewrite length_drop. lia. Qed.

Lemma class_loop_cons c p1 ch m :
  class_loop (c :: p1) ch m =
  if c =? "]"%ch then (m, c :: p1)
  else match p1 with
       | d :: cHi :: p3 =>
           if (d =? "-"%ch) && negb (cHi =? "]"%ch)
           then class_loop p3 ch (m || ((c <=? ch) && (ch <=? cHi)))
           else class_loop p1 ch (m || (c =? ch))
       | _ => class_loop p1 ch (m || (c =? ch))
       end.
Proof. done. Qed.

Lemma class_loop_length p ch : ∀ m, (length (snd (class_loop p ch m)) <= length p)%nat.
Proof.
  induction p as [p IH] using list_len_ind. intros m.
  destruct p as [|c p1]; [simpl; lia|]. rewrite class_loop_cons.
  assert (H1 : ∀ m, (length (snd (class_loop p1 ch m)) <= length (c :: p1))%nat).
  { intros m'. etrans; [apply IH; simpl; lia|simpl; lia]. }
  case_if; [simpl; lia|]. destruct p1 as [|d [|e p3]]; [done..|]. case_if; [|done].
  etrans; [apply IH; simpl; lia|simpl; lia].
Qed.

Lemma class_length p ch b rest : class p ch = (b, rest) → (length rest <= length p)%nat.
Proof.
  unfold class. set (q := if next_is _ p then _ else p).
  assert (Hq : (length q <= length p)%nat) by (subst q; destruct (next_is _ p), p; simpl; lia).
  pose proof (class_loop_length q ch false). destruct (class_loop q ch false) as [m r].
  intros [= _ <-]. simpl in *. destruct r; simpl in *; lia.
Qed.

Section facts.
Context {I : Type} (Th8_Ready : I → Z * I).
Abbreviation match_loop := (match_loop Th8_Ready).
Abbreviation enter := (enter Th8_Ready).

(** [suffix s str]: [s] is what is left of [str]. *)
Lemma try_sound call str : ∀ it,
  fst (try_suffixes (I := I) call str it) = true →
  ∃ s1 s2 it', str = s1 ++ s2 ∧ fst (call s2 it') = true.
Proof.
  induction str as [|c str IH]; intros it; simpl.
  - destruct (call [] it) as [[] it'] eqn:E; [|done]. intros _. exists [], [], it. by rewrite E.
  - destruct (call (c :: str) it) as [[] it'] eqn:E.
    + intros _. exists [], (c :: str), it. by rewrite E.
    + intros H. apply IH in H as (s1 & s2 & it'' & -> & H). by exists (c :: s1), s2, it''.
Qed.

Lemma enter_true k depth it :
  fst (enter k depth it) = true → depth <= 50 ∧ ∃ it', fst (k it') = true.
Proof.
  unfold Glob.enter. case_if; [done|]. bool_to_prop. destruct (poll Th8_Ready it) as [[] it'];
    [|done]. split; [lia|eauto].
Qed.

Ltac to_char_eq :=
  repeat match goal with
  | H : (_ =? _) = true |- _ => apply Z.eqb_eq in H
  end; subst.

(** What the loop accepts is a match that recurses no deeper than the cap. *)
Lemma loop_sound fuel : ∀ depth pat str it,
  depth <= 50 → fst (match_loop fuel depth pat str it) = true →
  ∃ n, globs n pat str ∧ Z.of_nat n + depth <= 50.
Proof.
  induction fuel as [|fuel IH]; intros depth pat str it Hd H; [done|].
  simpl in H. destruct pat as [|c pat'].
  { destruct str; [|done]. exists 0%nat. split; [constructor|lia]. }
  destruct (poll Th8_Ready it) as [[] it1]; [|done]. cbn [negb] in H.
  destruct (c =? 42) eqn:E1; to_char_eq.
  { destruct (strip pat') as [|x p] eqn:Es.
    { exists 0%nat. split; [by constructor|lia]. }
    apply try_sound in H as (s1 & s2 & it2 & -> & H).
    apply enter_true in H as [Hd1 [it3 H]]. apply IH in H as (n & Hg & Hn); [|done].
    exists (S n). split; [|lia]. apply globs_star; by rewrite Es. }
  destruct (c =? 63) eqn:E2; to_char_eq.
  { destruct str as [|ch str]; [done|]. apply IH in H as (n & ? & ?); [|done].
    exists n. split; [by constructor|done]. }
  destruct (c =? 91) eqn:E3; to_char_eq.
  { destruct str as [|ch str]; [done|]. destruct (class pat' ch) as [[] rest] eqn:Ec; [|done].
    apply IH in H as (n & ? & ?); [|done]. exists n. split; [by eapply globs_class|done]. }
  destruct (c =? 92) eqn:E4; to_char_eq.
  { destruct pat' as [|e p], str as [|ch str]; try done. destruct (e =? ch) eqn:Ee; [|done].
    to_char_eq. apply IH in H as (n & ? & ?); [|done]. exists n. split; [by constructor|done]. }
  destruct str as [|ch str]; [done|]. destruct (c =? ch) eqn:Ee; [|done]. to_char_eq.
  apply IH in H as (n & ? & ?); [|done]. exists n. split; [|done].
  apply globs_char; [|done]. unfold is_meta. by rewrite E1, E2, E3, E4.
Qed.

Lemma try_complete call s1 s2 : ∀ it,
  (∀ it, fst (call s2 it) = true) → fst (try_suffixes (I := I) call (s1 ++ s2) it) = true.
Proof.
  induction s1 as [|c s1 IH]; intros it H.
  - specialize (H it). destruct s2; simpl in *; destruct (call _ it) as [[] ?]; done.
  - simpl. destruct (call (c :: s1 ++ s2) it) as [[] it']; [done|]. by apply IH.
Qed.

(** With an interpreter that stays ready, every such match is found. *)
Lemma loop_complete n pat str :
  (∀ it, fst (poll Th8_Ready it) = true) → globs n pat str →
  ∀ fuel depth it, (length pat < fuel)%nat → Z.of_nat n + depth <= 50 →
  fst (match_loop fuel depth pat str it) = true.
Proof.
  intros Hready. induction 1 as [|p str Hs|n p s1 s2 Hs Hg IH|n p ch str Hg IH
    |n p rest ch str Hc Hg IH|n p ch str Hg IH|n p ch str Hm Hg IH];
    intros fuel depth it Hf Hd; (destruct fuel as [|fuel]; [simpl in Hf; lia|]); simpl in Hf; simpl;
    [done|..]; pose proof (Hready it) as Hp; destruct (poll Th8_Ready it) as [[] it1]; try done;
    simpl; clear Hp.
  - by rewrite Hs.
  - pose proof (strip_length p). destruct (strip p) as [|x q] eqn:Es; [done|].
    apply try_complete. intros it2. unfold Glob.enter. case_if; bool_to_prop; [lia|].
    pose proof (Hready it2) as Hp. destruct (poll Th8_Ready it2) as [[] it3]; [|done].
    apply IH; lia.
  - apply IH; lia.
  - rewrite Hc. apply class_length in Hc. apply IH; lia.
  - rewrite Z.eqb_refl. apply IH; simpl in Hf; lia.
  - unfold is_meta in Hm. bool_to_prop. repeat (case_if; bool_to_prop; [lia|]).
    rewrite Z.eqb_refl. apply IH; lia.
Qed.
End facts.

(** C36.  Th8_GlobMatch with an interpreter that stays ready, or none, returns
    1 exactly for the strings the pattern describes, with at most 50 stars
    that are followed by more pattern. *)
Theorem Th8_GlobMatch_spec {I} (Th8_Ready : I → Z * I) interp pat str :
  (∀ it, fst (poll Th8_Ready it) = true) →
  fst (Th8_GlobMatch Th8_Ready interp pat str) = true ↔
  ∃ n, globs n pat str ∧ (n <= 50)%nat.
Proof.
  intros Hready. unfold Th8_GlobMatch, th8GlobMatch2. split.
  - intros H. apply enter_true in H as [_ [it H]]. apply loop_sound in H as (n & Hg & Hn); [|lia].
    exists n. split; [done|lia].
  - intros (n & Hg & Hn). unfold enter. change (50 <? 0) with false. cbv iota.
    pose proof (Hready interp) as Hp. destruct (poll Th8_Ready interp) as [[] it]; [|done].
    eapply loop_complete; [done|done|lia|lia].
Qed.

Definition no_interp : unit → Z * unit := λ _, (TH8_OK, tt).

Lemma Th8_GlobMatch_spec_witness :
  ∃ n, globs n (bytes_of_string "a*[b-d]?") (bytes_of_string "axxcz") ∧ (n <= 50)%nat.
Proof.
  apply (Th8_GlobMatch_spec no_interp None); [|reflexivity].
  by intros [[]|].
Defined.

(** Whatever the interpreter answers, a reported match is one: a
    cancellation, a step limit or the depth cap only turn matches into
    mismatches. *)
Theorem Th8_GlobMatch_sound {I} (Th8_Ready : I → Z * I) interp pat str :
  fst (Th8_GlobMatch Th8_Ready interp pat str) = true → ∃ n, globs n pat str ∧ (n <= 50)%nat.
Proof.
  intros H. apply enter_true in H as [_ [it H]]. apply loop_sound in H as (n & Hg & Hn); [|lia].
  exists n. split; [done|lia].
Qed.

Lemma Th8_GlobMatch_sound_witness :
  ∃ n, globs n (bytes_of_string "*.tcl") (bytes_of_string "pi.tcl") ∧ (n <= 50)%nat.
Proof. apply (Th8_GlobMatch_sound no_interp (Some tt)). reflexivity. Defined.

(** A pattern without metacharacters describes itself only, and the escape of
    a text describes that text. *)
Definition glob_escape (z : bytes) : bytes := concat (map (λ c, ["\"%ch; c]) z).

Lemma globs_literal pat str : Forall (λ c, is_meta c = false) pat → globs 0 pat str ↔ str = pat.
Proof.
  intros Hp. split.
  - intros Hg. remember 0%nat as n. revert Heqn Hp.
    induction Hg as [| | | | | |n p ch str Hm Hg IH]; intros Hn Hp; try done;
      apply Forall_cons in Hp as [Hc Hp]; try done. f_equal. auto.
  - intros ->. induction Hp; constructor; done.
Qed.

Lemma globs_escaped z str : globs 0 (glob_escape z) str ↔ str = z.
Proof.
  split.
  - revert str. induction z as [|c z IH]; intros str Hg; inversion Hg; subst; try done;
      f_equal; auto.
  - intros ->. induction z; [constructor|]. by apply (globs_escape 0 (glob_escape z)).
Qed.

Lemma globs_escape_stars n z str : globs n (glob_escape z) str → n = 0%nat.
Proof.
  revert str. induction z as [|c z IH]; intros str Hg; inversion Hg; subst; try done; eauto.
Qed.

(** Escaping every byte quotes: the escape of any text matches that text
    and nothing else. *)
Theorem glob_escape_quotes z str :
  fst (Th8_GlobMatch no_interp None (glob_escape z) str) = true ↔ str = z.
Proof.
  split.
  - intros H. apply enter_true in H as [_ [it H]]. apply loop_sound in H as (n & Hg & _); [|lia].
    rewrite (globs_escape_stars _ _ _ Hg) in Hg. by apply globs_escaped.
  - intros ->. unfold Th8_GlobMatch, th8GlobMatch2, enter. simpl Z.ltb. cbv iota. simpl poll.
    cbv iota. eapply (loop_complete no_interp 0); [by intros [[]|]|by apply globs_escaped|lia|lia].
Qed.

(** The depth cap: 51 stars that recurse never match. *)
Definition distinct (n : nat) : bytes := map Z.of_nat (seq 100 n).
Example glob_cap :
  fst (Th8_GlobMatch no_interp None (concat (map (λ c, [42; c]) (distinct 50))) (distinct 50)) = true ∧
  fst (Th8_GlobMatch no_interp None (concat (map (λ c, [42; c]) (distinct 51))) (distinct 51)) = false.
Proof. split; vm_compute; reflexivity. Qed.

(** ** The cost of a mismatch *)

(** An interpreter that counts its polls. *)
Definition count_polls : Z → Z * Z := λ n, (TH8_OK, n + 1).

(** [( *a)^k b], without the space. *)
Fixpoint stars (k : nat) : bytes :=
  match k with O => ["b"%ch] | S k' => "*"%ch :: "a"%ch :: stars k' end.

Definition slow (fuel : nat) (depth : Z) (k m : nat) (n : Z) : bool * option Z :=
  match_loop count_polls fuel depth (stars k) (replicate m "a"%ch) (Some n).

(** Every suffix of the string is a mismatch that costs at least [cost]. *)
Lemma try_cost (call : bytes → option Z → bool * option Z) (cost : nat → Z) m : ∀ n,
  (∀ j n, (j <= m)%nat → ∃ n', call (replicate j "a"%ch) (Some n) = (false, Some n') ∧
                               n + cost j <= n' ∧ 0 <= cost j) →
  ∃ n', try_suffixes call (replicate m "a"%ch) (Some n) = (false, Some n') ∧
        n + cost m + (match m with S j => cost j | O => 0 end) <= n'.
Proof.
  induction m as [|m IH]; intros n H.
  - destruct (H 0%nat n ltac:(lia)) as (n' & Hc & Hn & _). exists n'. simpl in *.
    rewrite Hc. split; [done|lia].
  - destruct (H (S m) n ltac:(lia)) as (n1 & Hc & Hn & _). simpl in *. rewrite Hc.
    destruct (IH n1) as (n' & Ht & Hn'); [intros j n2 Hj; apply H; lia|].
    exists n'. split; [done|]. destruct (H m n1 ltac:(lia)) as (_ & _ & _ & Hp).
    destruct m as [|j]; [lia|]. destruct (H j n1 ltac:(lia)) as (_ & _ & _ & Hp'). lia.
Qed.

(** The polls of the mismatch of [stars k] with [m] letters: two recursive
    calls each cost what one star less costs. *)
Definition slow_cost (k m : nat) : Z := if decide (2 * k <= m)%nat then 2 ^ Z.of_nat k else 1.

Lemma slow_cost_pos k m : 0 < slow_cost k m.
Proof. unfold slow_cost. case_decide; [apply Z.pow_pos_nonneg|]; lia. Qed.

Lemma slow_polls k : ∀ fuel depth m n,
  (length (stars k) < fuel)%nat → Z.of_nat k + depth <= 50 →
  ∃ n', slow fuel depth k m n = (false, Some n') ∧ n + slow_cost k m <= n'.
Proof.
  unfold slow. induction k as [|k IH]; intros fuel depth m n Hf Hd;
    (destruct fuel as [|fuel]; [simpl in Hf; lia|]); simpl in Hf.
  - assert (slow_cost 0 m = 1) as -> by (unfold slow_cost; by case_decide).
    exists (n + 1). split; [by destruct m|lia].
  - cbn [stars match_loop poll count_polls]. simpl Z.eqb. cbv iota. cbn [negb].
    change (strip ("a"%ch :: stars k)) with ("a"%ch :: stars k). cbv iota.
    set (call := λ s : bytes, _).
    set (cost := λ j : nat, match j with S i => slow_cost k i | O => 0 end).
    destruct (try_cost call cost m (n + 1)) as (n' & Ht & Hn).
    { intros j n1 Hj. subst call cost. cbv beta. unfold enter.
      replace (50 <? depth + 1) with false by (symmetry; apply Z.ltb_ge; lia).
      cbn [poll count_polls]. simpl Z.eqb. cbv iota.
      destruct fuel as [|fuel]; [lia|]. cbn [match_loop poll count_polls]. simpl Z.eqb. cbv iota.
      destruct j as [|i]; [exists (n1 + 1 + 1); simpl; split; [done|lia]|].
      cbn [replicate]. simpl Z.eqb. cbv iota. cbn [negb].
      destruct (IH fuel (depth + 1) i (n1 + 1 + 1) ltac:(lia) ltac:(lia)) as (n2 & Hs & Hn2).
      exists n2. split; [exact Hs|]. pose proof (slow_cost_pos k i). lia. }
    exists n'. split; [exact Ht|]. subst cost. cbv beta in Hn. unfold slow_cost in *.
    destruct m as [|[|m]]; [repeat case_decide; try lia; pose proof (Z.pow_pos_nonneg 2 (Z.of_nat k)); lia..|].
    pose proof (slow_cost_pos k (S m)). pose proof (slow_cost_pos k m). unfold slow_cost in *.
    rewrite Nat2Z.inj_succ, Z.pow_succ_r by lia. repeat case_decide; lia.
Qed.

(** The depth cap does not bound the work: a mismatch of a pattern of
    [2 * k + 1] bytes with a string of [2 * k] bytes polls the interpreter at
    least [2 ^ k] times, for every [k] up to the cap. *)
Theorem glob_mismatch_exponential k :
  (k <= 50)%nat →
  ∃ n, Th8_GlobMatch count_polls (Some 0) (stars k) (replicate (2 * k) "a"%ch) = (false, Some n) ∧
       2 ^ Z.of_nat k <= n.
Proof.
  intros Hk. unfold Th8_GlobMatch, th8GlobMatch2, enter. simpl Z.ltb. cbn [poll count_polls].
  simpl Z.eqb. cbv iota.
  destruct (slow_polls k (S (length (stars k))) 0 (2 * k) 1 ltac:(lia) ltac:(lia)) as (n & Hs & Hn).
  exists n. split; [exact Hs|]. unfold slow_cost in Hn. rewrite decide_True in Hn by lia. lia.
Qed.

Lemma glob_mismatch_exponential_witness :
  ∃ n, Th8_GlobMatch count_polls (Some 0) (stars 40) (replicate 80 "a"%ch) = (false, Some n) ∧
       1099511627776 <= n.
Proof. apply (glob_mismatch_exponential 40). lia. Defined.
