(* ===== verification/Numbers.v ===== *)
(** * Numbers: between strings and machine integers (Th8_ToInt, Th8_ToWideInt,
    Th8_ToBoolean, th8StrNoCaseEq, Th8_SetResultInt, Th8_SetResultWideInt and
    th8IntToStr of src/src/th8_core.c).

    The conversions consult the interpreter's cache of internal
    representations first; what they need of it is the class [ReprCache].  The
    parsers are compared with the mathematical value of the digits, and the
    formatters with the parsers. *)

From S2P Require Import Prelude.
From stdpp Require Import gmap.
Open Scope Z_scope.

Definition INT_MAX : Z := 0x7fffffff.
Definition INT_MIN : Z := - 2 ^ 31.
Definition TH8_INT64_MAX : Z := 2 ^ 63 - 1.
Definition TH8_INT64_MIN : Z := - 2 ^ 63.

Inductive num_error : Type :=
| Expected            (* expected integer, got: ... *)
| TooLarge            (* integer value too large to represent *)
| ExpectedBoolean.

(** ** Parsing *)

(** The sign at the front of a number, and the text after it. *)
Definition sign (z : bytes) : bool * bytes :=
  if next_is "-"%ch z then (true, tail z)
  else if next_is "+"%ch z then (false, tail z)
  else (false, z).

Definition negate (neg : bool) (v : Z) : Z := if neg then - v else v.

Fixpoint ToInt_loop (z : bytes) (val : Z) : res num_error Z :=
  match z with
  | [] => Ok val
  | c :: z' =>
      if (c <? "0"%ch) || ("9"%ch <? c) then Err Expected
      else
        let digit := c - "0"%ch in
        if (0x7fffffff - digit) / 10 <? val then Err TooLarge
        else ToInt_loop z' (val * 10 + digit)
  end.

(** The conversion proper, behind the cache. *)
Definition ToInt_parse (z : bytes) : res num_error Z :=
  let '(neg, z) := sign z in
  match z with
  | [] => Err Expected
  | _ => let* val := ToInt_loop z 0 in Ok (negate neg val)
  end%res.

(** The prefix that selects a base, and the digits after it. *)
Definition base_prefix (z : bytes) : Z * bytes :=
  match z with
  | c :: c2 :: z' =>
      if c =? "0"%ch then
        if (c2 =? "x"%ch) || (c2 =? "X"%ch) then (16, z')
        else if (c2 =? "o"%ch) || (c2 =? "O"%ch) then (8, z')
        else if (c2 =? "b"%ch) || (c2 =? "B"%ch) then (2, z')
        else if ("0"%ch <=? c2) && (c2 <=? "7"%ch) then (8, c2 :: z')
        else (10, z)
      else (10, z)
  | _ => (10, z)
  end.

(** The value of a digit character, in any base up to 16. *)
Definition digit_of (c : Z) : option Z :=
  if ("0"%ch <=? c) && (c <=? "9"%ch) then Some (c - "0"%ch)
  else if ("a"%ch <=? c) && (c <=? "f"%ch) then Some (c - "a"%ch + 10)
  else if ("A"%ch <=? c) && (c <=? "F"%ch) then Some (c - "A"%ch + 10)
  else None.

(** The digits; the result already carries the sign. *)
Fixpoint ToWideInt_loop (neg : bool) (base : Z) (z : bytes) (val : Z) : res num_error Z :=
  match z with
  | [] => Ok (negate neg val)
  | c :: z' =>
      match digit_of c with
      | None => Err Expected
      | Some digit =>
          if base <=? digit then Err Expected
          else if (TH8_INT64_MAX - digit) / base <? val then
            if neg && (match z' with [] => true | _ => false end) &&
               (val =? TH8_INT64_MAX / base) &&
               (digit =? - (TH8_INT64_MIN + TH8_INT64_MAX / base * base))
            then Ok TH8_INT64_MIN
            else Err TooLarge
          else ToWideInt_loop neg base z' (val * base + digit)
      end
  end.

Definition ToWideInt_parse (z : bytes) : res num_error Z :=
  let '(neg, z) := sign z in
  match z with
  | [] => Err Expected
  | _ =>
      let '(base, z) := base_prefix z in
      match z with
      | [] => Err Expected
      | _ => ToWideInt_loop neg base z 0
      end
  end.

(** [zLit] is a lower-case literal. *)
Fixpoint th8StrNoCaseEq (z zLit : bytes) : bool :=
  match z, zLit with
  | [], [] => true
  | c :: z', l :: zLit' =>
      let c := if ("A"%ch <=? c) && (c <=? "Z"%ch) then c + 32 else c in
      if c =? l then th8StrNoCaseEq z' zLit' else false
  | _, _ => false
  end.

(** ** Formatting *)

(** The digits of [u], least significant first, in front of [acc]: the loop
    that fills a buffer backwards.  [fuel] bounds the digits. *)
Fixpoint format_loop (fuel : nat) (u : Z) (acc : bytes) : bytes :=
  match fuel with
  | O => acc
  | S fuel' =>
      let acc := ("0"%ch + u mod 10) :: acc in
      if 0 <? u / 10 then format_loop fuel' (u / 10) acc else acc
  end.

(** The magnitude at width [w], computed without signed overflow. *)
Definition magnitude (w v : Z) : Z := if v <? 0 then wrap w (- (v + 1) + 1) else wrap w v.

Definition format (w v : Z) : bytes :=
  let digits := format_loop 20 (magnitude w v) [] in
  if v <? 0 then "-"%ch :: digits else digits.

Definition th8IntToStr (v : Z) : bytes := format 32 v.
Definition Th8_SetResultInt (iVal : Z) : bytes := format 32 iVal.
Definition Th8_SetResultWideInt (wVal : Z) : bytes := format 64 wVal.

(** ** The cache of internal representations *)

(** What the conversions ask of the cache for one kind of value: find or make
    an entry (NULL when that fails), with its value if it is valid; and store a
    value in the entry.  [holds] is the content of the valid entries. *)
Class ReprCache (C : Type) : Type := {
  cache_find : C → bytes → option (option Z) * C;
  cache_store : C → bytes → Z → C;
  holds : C → bytes → Z → Prop;
  find_holds c z v : fst (cache_find c z) = Some (Some v) → holds c z v;
  find_keeps c z z' v : holds (snd (cache_find c z)) z' v → holds c z' v;
  store_holds c z v z' v' : holds (cache_store c z v) z' v' → holds c z' v' ∨ (z' = z ∧ v' = v)
}.

Section conversions.
Context {C : Type} `{RC : ReprCache C}.

(** Find, parse on a miss, and store: the shape the conversions share.
    [interp] is [None] for a NULL interpreter; [storable] leaves a result out
    of the cache. *)
Definition cached (parse : bytes → res num_error Z) (storable : bytes → Z → bool)
    (interp : option C) (z : bytes) : res num_error Z * option C :=
  match interp with
  | None => (parse z, None)
  | Some c =>
      let '(hit, c) := cache_find c z in
      match hit with
      | Some (Some v) => (Ok v, Some c)
      | _ =>
          match parse z with
          | Ok v =>
              if storable z v then
                let '(entry, c) := cache_find c z in
                (Ok v, Some (match entry with Some _ => cache_store c z v | None => c end))
              else (Ok v, Some c)
          | Err e => (Err e, Some c)
          end
      end
  end.

Definition Th8_ToInt := cached ToInt_parse (λ _ _, true).

(** The early return for the least integer skips the cache. *)
Definition Th8_ToWideInt := cached ToWideInt_parse (λ _ v, negb (v =? TH8_INT64_MIN)).

(** The big-integer and floating-point parsers, which follow the integer
    parser: whether the text is a big integer, and whether it is a nonzero
    double. *)
Context (isBigint : bytes → bool) (toDouble : bytes → option bool).

Definition ToBoolean_parse (interp : bool) (z : bytes) : res num_error Z :=
  let lit s := th8StrNoCaseEq z (bytes_of_string s) in
  if (zlen z =? 1) && next_is "0"%ch z then Ok 0
  else if (zlen z =? 1) && next_is "1"%ch z then Ok 1
  else if lit "true"%string || lit "yes"%string || lit "on"%string then Ok 1
  else if lit "false"%string || lit "no"%string || lit "off"%string then Ok 0
  else match ToWideInt_parse z with
       | Ok wVal => Ok (if wVal =? 0 then 0 else 1)
       | Err _ =>
           if interp && isBigint z then Ok 1
           else match toDouble z with
                | Some nonzero => Ok (if nonzero then 1 else 0)
                | None => Err ExpectedBoolean
                end
       end.

Definition Th8_ToBoolean (interp : option C) (z : bytes) : res num_error Z * option C :=
  cached (ToBoolean_parse (match interp with Some _ => true | None => false end))
    (λ _ _, true) interp z.
End conversions.

#[export] Program Instance map_cache : ReprCache (gmap bytes Z) := {|
  cache_find c z := (Some (c !! z), c);
  cache_store c z v := <[z := v]> c;
  holds c z v := c !! z = Some v
|}.
Next Obligation. intros c z v H. simpl in H. congruence. Qed.
Next Obligation. done. Qed.
Next Obligation. intros c z v z' v' [[-> ->]|[_ ?]]%lookup_insert_Some; auto. Qed.

(** ** The value of digits *)

Definition digit_value (c : Z) : Z := default 0 (digit_of c).

(** The number the digits [z] denote in a base. *)
Definition value (base : Z) (z : bytes) : Z :=
  fold_left (λ v c, v * base + digit_value c) z 0.

Definition is_digit (base : Z) (c : Z) : bool :=
  match digit_of c with Some d => d <? base | None => false end.

Definition fold_value (base v : Z) (z : bytes) : Z :=
  fold_left (λ v c, v * base + digit_value c) z v.

Lemma digit_value_range base c : is_digit base c = true → 0 <= digit_value c < base.
Proof.
  unfold is_digit, digit_value. destruct (digit_of c) as [d|] eqn:E; [|done]. simpl.
  intros H. bool_to_prop. split; [|done]. unfold digit_of in E.
  repeat case_if_in E; simplify_eq; bool_to_prop; lia.
Qed.

(** Digits only make the value larger. *)
Lemma fold_value_mono base z : ∀ v,
  2 <= base → 0 <= v → Forall (λ c, is_digit base c = true) z →
  v <= fold_value base v z ∧ (z ≠ [] → 0 < v → base * v <= fold_value base v z).
Proof.
  induction z as [|c z IH]; intros v Hb Hv Hz; simpl; [split; [lia|done]|].
  apply Forall_cons in Hz as [Hc Hz]. apply digit_value_range in Hc.
  destruct (IH (v * base + digit_value c) Hb ltac:(nia) Hz) as [IH1 _].
  fold (fold_value base (v * base + digit_value c) z). split; [nia|intros _ _; nia].
Qed.

(** The per-digit test is exact: it fires when the next value does not fit. *)
Lemma fits_next m base v d :
  0 < base → 0 <= d <= m → 0 <= v → ((m - d) / base <? v) = (m <? v * base + d).
Proof.
  intros Hb Hd Hv. apply Bool.eq_iff_eq_true. rewrite !Z.ltb_lt.
  pose proof (Z.div_mod (m - d) base ltac:(lia)).
  pose proof (Z.mod_pos_bound (m - d) base ltac:(lia)). split; intros; nia.
Qed.

Lemma digit_of_decimal c :
  is_byte c → ((c <? "0"%ch) || ("9"%ch <? c)) = negb (is_digit 10 c) ∧
  (is_digit 10 c = true → digit_value c = c - "0"%ch).
Proof.
  intros Hc. unfold is_digit, digit_value, digit_of, is_byte in *.
  split; repeat case_if; simpl; bool_to_prop; try done; try lia;
    try (apply Bool.eq_iff_eq_true; rewrite ?orb_true_iff, ?negb_true_iff, ?Z.ltb_lt, ?Z.ltb_ge; lia).
Qed.

(** The result of scanning digits: the value of the leading digits decides
    between the two errors. *)
Definition scan_result (m base : Z) (z : bytes) (v : Z) (ok : Z → res num_error Z)
    : res num_error Z :=
  let d := span (is_digit base) z in
  let total := fold_value base v (take d z) in
  if (d =? length z)%nat then (if total <=? m then ok total else Err TooLarge)
  else if total <=? m then Err Expected else Err TooLarge.

Lemma ToInt_loop_spec z : ∀ v,
  is_bytes z → 0 <= v <= INT_MAX → ToInt_loop z v = scan_result INT_MAX 10 z v Ok.
Proof.
  induction z as [|c z IH]; intros v Hz Hv.
  { unfold scan_result. simpl. case_if; bool_to_prop; [done|lia]. }
  apply Forall_cons in Hz as [Hc Hz]. destruct (digit_of_decimal c Hc) as [Hd1 Hd2].
  simpl ToInt_loop. rewrite Hd1. unfold scan_result. simpl span.
  destruct (is_digit 10 c) eqn:E; simpl.
  2: { unfold fold_value; simpl. case_if; bool_to_prop; [done|lia]. }
  pose proof (digit_value_range _ _ E). rewrite <- Hd2 by done.
  change 0x7fffffff with INT_MAX. rewrite fits_next by (unfold INT_MAX in *; lia).
  fold (fold_value 10 (v * 10 + digit_value c) (take (span (is_digit 10) z) z)).
  destruct (INT_MAX <? v * 10 + digit_value c) eqn:Eo; bool_to_prop.
  - destruct (fold_value_mono 10 (take (span (is_digit 10) z) z) (v * 10 + digit_value c))
      as [Hm _]; [lia|nia|apply span_forall|].
    repeat case_if; bool_to_prop; done || lia.
  - rewrite IH by (done || nia). unfold scan_result. done.
Qed.

(** The loop of the wide conversion, with the one value that fits only with the
    sign. *)
Definition wide_ok (neg : bool) (base v : Z) : res num_error Z := Ok (negate neg v).

Definition is_least (neg : bool) (base : Z) (z : bytes) (v : Z) : bool :=
  neg && (base =? 10) && (span (is_digit base) z =? length z)%nat &&
  (fold_value base v z =? TH8_INT64_MAX + 1).

Definition is_base (base : Z) : Prop := base = 2 ∨ base = 8 ∨ base = 10 ∨ base = 16.

(** At the first digit that does not fit, the code's test for the least integer
    and the value agree. *)
Lemma least_test neg base c z v :
  is_base base → 0 <= v → is_digit base c = true →
  TH8_INT64_MAX < v * base + digit_value c →
  neg && (match z with [] => true | _ => false end) && (v =? TH8_INT64_MAX / base) &&
    (digit_value c =? - (TH8_INT64_MIN + TH8_INT64_MAX / base * base)) =
  is_least neg base (c :: z) v.
Proof.
  intros Hb Hv Hc Ho. pose proof (digit_value_range _ _ Hc) as Hd. unfold is_least.
  simpl span. rewrite Hc. simpl length. destruct neg; [|done]. simpl andb.
  change (fold_value base v (c :: z)) with (fold_value base (v * base + digit_value c) z).
  destruct z as [|c' z].
  - simpl. unfold fold_value; simpl.
    apply Bool.eq_iff_eq_true. rewrite !andb_true_iff, !Z.eqb_eq.
    unfold TH8_INT64_MAX, TH8_INT64_MIN in *.
    destruct Hb as [->|[->|[->| ->]]]; vm_compute Z.div; lia.
  - cbn [andb]. symmetry. apply not_true_iff_false. intros H.
    rewrite !andb_true_iff, !Z.eqb_eq, Nat.eqb_eq in H. destruct H as [[-> Hs] Hf].
    assert (Hz : Forall (λ c, is_digit 10 c = true) (c' :: z)).
    { rewrite <- (firstn_all (c' :: z)), <- Hs. apply span_forall. }
    destruct (fold_value_mono 10 (c' :: z) (v * 10 + digit_value c)) as [_ Hm];
      [lia|nia|done|]. specialize (Hm ltac:(done) ltac:(unfold TH8_INT64_MAX in *; lia)).
    unfold TH8_INT64_MAX in *. lia.
Qed.

Lemma ToWideInt_loop_spec neg base z : ∀ v,
  is_base base → 0 <= v <= TH8_INT64_MAX →
  ToWideInt_loop neg base z v =
  if is_least neg base z v then Ok TH8_INT64_MIN
  else scan_result TH8_INT64_MAX base z v (λ t, Ok (negate neg t)).
Proof.
  induction z as [|c z IH]; intros v Hb Hv.
  { unfold is_least, scan_result, fold_value. simpl.
    replace (v =? TH8_INT64_MAX + 1) with false by (symmetry; apply Z.eqb_neq; lia).
    rewrite andb_false_r. case_if; bool_to_prop; [done|lia]. }
  assert (Hbad : is_digit base c = false →
    (if is_least neg base (c :: z) v then Ok TH8_INT64_MIN
     else scan_result TH8_INT64_MAX base (c :: z) v (λ t, Ok (negate neg t))) = Err Expected).
  { intros E. unfold is_least, scan_result. simpl span. rewrite E. simpl.
    rewrite andb_false_r. unfold fold_value; simpl. case_if; bool_to_prop; [done|lia]. }
  destruct (is_digit base c) eqn:E.
  2: { rewrite Hbad by done. unfold is_digit in E. simpl. destruct (digit_of c) as [d|]; [|done].
       bool_to_prop. case_if; bool_to_prop; [done|lia]. }
  clear Hbad. pose proof (digit_value_range _ _ E) as Hd.
  assert (Hbase : 2 <= base <= 16) by (destruct Hb as [->|[->|[->| ->]]]; lia).
  assert (Hdig : digit_of c = Some (digit_value c)).
  { unfold is_digit, digit_value in *. by destruct (digit_of c). }
  simpl ToWideInt_loop. rewrite Hdig. case_if; bool_to_prop; [lia|].
  rewrite fits_next by (unfold TH8_INT64_MAX in *; lia).
  destruct (TH8_INT64_MAX <? v * base + digit_value c) eqn:Eo; bool_to_prop.
  - rewrite (least_test neg base c z v) by (done || lia). case_if; [done|].
    unfold scan_result. simpl span. rewrite E. simpl take. simpl length. simpl Nat.eqb.
    set (t := take _ z).
    change (fold_value base v (c :: t)) with (fold_value base (v * base + digit_value c) t).
    destruct (fold_value_mono base t (v * base + digit_value c)) as [Hm _];
      [lia|nia|apply span_forall|].
    repeat case_if; bool_to_prop; done || lia.
  - rewrite IH by (done || nia). unfold is_least, scan_result. simpl span. rewrite E. done.
Qed.

(** ** Formatting *)

(** The digits a formatter writes for [u]. *)
Record digits_of (u : Z) (k : nat) (ds : bytes) : Prop := {
  ds_value : fold_value 10 0 ds = u;
  ds_digits : Forall (λ c, is_digit 10 c = true) ds;
  ds_length : (1 <= length ds <= k)%nat;
  ds_zero : next_is "0"%ch ds = true → ds = ["0"%ch]
}.

Lemma fold_value_snoc base v z c :
  fold_value base v (z ++ [c]) = fold_value base v z * base + digit_value c.
Proof. unfold fold_value. by rewrite fold_left_app. Qed.

Lemma digit_char d :
  0 <= d < 10 → digit_value ("0"%ch + d) = d ∧ is_digit 10 ("0"%ch + d) = true.
Proof.
  intros Hd. assert (H : digit_of ("0"%ch + d) = Some d).
  { unfold digit_of. replace (("0"%ch <=? "0"%ch + d) && ("0"%ch + d <=? "9"%ch)) with true; [f_equal; lia|].
    symmetry. apply andb_true_iff. rewrite !Z.leb_le. lia. }
  unfold digit_value, is_digit. rewrite H. split; [done|]. apply Z.ltb_lt. lia.
Qed.

Lemma format_loop_spec k : ∀ fuel u acc,
  (1 <= k <= fuel)%nat → 0 <= u < 10 ^ Z.of_nat k →
  ∃ ds, format_loop fuel u acc = ds ++ acc ∧ digits_of u k ds.
Proof.
  induction k as [|k IH]; intros fuel u acc Hk Hu; [lia|].
  destruct fuel as [|fuel]; [lia|]. simpl format_loop.
  assert (Hm : 0 <= u mod 10 < 10) by (apply Z.mod_pos_bound; lia).
  destruct (digit_char _ Hm) as [Hv Hd].
  destruct (0 <? u / 10) eqn:E; bool_to_prop.
  - rewrite Nat2Z.inj_succ, Z.pow_succ_r in Hu by lia.
    assert (Hk' : (1 <= k)%nat).
    { destruct k; [|lia]. simpl in Hu. divlia. }
    destruct (IH fuel (u / 10) (("0"%ch + u mod 10) :: acc)) as (ds & -> & [H1 H2 H3 H4]);
      [lia|divlia|].
    exists (ds ++ ["0"%ch + u mod 10]). split; [by rewrite <- app_assoc|]. split.
    + rewrite fold_value_snoc, H1, Hv. divlia.
    + apply Forall_app. auto.
    + rewrite length_app. simpl. lia.
    + destruct ds as [|c ds]; [simpl in H3; lia|]. intros Hn. simpl in Hn, H4.
      specialize (H4 Hn). injection H4 as -> ->. unfold fold_value in H1. simpl in H1.
      change (digit_value 48) with 0 in H1. lia.
  - assert (u / 10 = 0) by (apply Z.le_antisymm; [lia|apply Z.div_pos; lia]).
    exists ["0"%ch + u mod 10]. split; [done|]. split; [|by constructor|simpl; lia|].
    + unfold fold_value. simpl. rewrite Hv. divlia.
    + simpl. intros Hn. bool_to_prop. f_equal. lia.
Qed.

Lemma span_all base z : Forall (λ c, is_digit base c = true) z → span (is_digit base) z = length z.
Proof. induction 1 as [|c z Hc _ IH]; simpl; [done|]. by rewrite Hc, IH. Qed.

(** Scanning the digits of [u] gives [u], or too large. *)
Lemma scan_digits m u k ds ok :
  digits_of u k ds → u <= m → scan_result m 10 ds 0 ok = ok u.
Proof.
  intros [H1 H2 _ _] Hu. unfold scan_result. rewrite span_all, Nat.eqb_refl, firstn_all, H1 by done.
  case_if; bool_to_prop; [done|lia].
Qed.

Lemma digits_first u k ds :
  digits_of u k ds → ∃ c ds', ds = c :: ds' ∧ "0"%ch <= c <= "9"%ch.
Proof.
  intros [_ H2 H3 _]. destruct ds as [|c ds]; [simpl in H3; lia|]. exists c, ds. split; [done|].
  apply Forall_cons in H2 as [Hc _]. unfold is_digit, digit_of in Hc.
  repeat case_if_in Hc; bool_to_prop; try done; lia.
Qed.

Lemma sign_digits u k ds : digits_of u k ds → sign ds = (false, ds) ∧ ds ≠ [].
Proof.
  intros H. destruct (digits_first _ _ _ H) as (c & ds' & -> & Hc). unfold sign. simpl.
  repeat case_if; bool_to_prop; try lia. done.
Qed.

Lemma sign_minus ds : sign ("-"%ch :: ds) = (true, ds).
Proof. done. Qed.

Lemma base_digits u k ds : digits_of u k ds → base_prefix ds = (10, ds).
Proof.
  intros H. unfold base_prefix. destruct ds as [|c [|c2 ds]]; [done..|].
  destruct (c =? "0"%ch) eqn:E; [|done]. by pose proof (ds_zero _ _ _ H E).
Qed.

Lemma ToInt_digits (neg : bool) u k ds :
  digits_of u k ds → is_bytes ds → u <= INT_MAX →
  ToInt_parse (if neg then "-"%ch :: ds else ds) = Ok (negate neg u).
Proof.
  intros H Hb Hu. destruct (sign_digits _ _ _ H) as [Hs Hn].
  assert (Hl : ToInt_loop ds 0 = Ok u).
  { rewrite ToInt_loop_spec by (done || unfold INT_MAX; lia). by eapply scan_digits. }
  unfold ToInt_parse. destruct neg; [rewrite sign_minus|rewrite Hs]; destruct ds; try done;
    by rewrite Hl.
Qed.

Lemma ToWideInt_digits (neg : bool) u k ds :
  digits_of u k ds → u <= TH8_INT64_MAX ∨ (neg = true ∧ u = TH8_INT64_MAX + 1) →
  ToWideInt_parse (if neg then "-"%ch :: ds else ds) = Ok (negate neg u).
Proof.
  intros H Hu. destruct (sign_digits _ _ _ H) as [Hs Hn]. pose proof (base_digits _ _ _ H) as Hb.
  assert (Hl : ToWideInt_loop neg 10 ds 0 = Ok (negate neg u)).
  { rewrite ToWideInt_loop_spec by (unfold is_base, TH8_INT64_MAX; lia).
    unfold is_least. rewrite (span_all 10 ds), Nat.eqb_refl, (ds_value _ _ _ H) by apply H.
    destruct (u =? TH8_INT64_MAX + 1) eqn:E; bool_to_prop.
    - destruct Hu as [Hu|[-> _]]; [lia|]. simpl. subst u. done.
    - rewrite !andb_false_r. apply (scan_digits _ u k ds (λ t, Ok (negate neg t))); [done|lia]. }
  unfold ToWideInt_parse. destruct neg; [rewrite sign_minus|rewrite Hs];
    (destruct ds as [|c ds]; [done|]); rewrite Hb, Hl; done.
Qed.

Lemma digit_byte c : is_digit 10 c = true → is_byte c.
Proof.
  unfold is_digit, digit_of, is_byte. intros H. repeat case_if_in H; bool_to_prop; try done; lia.
Qed.

(** What a formatter writes. *)
Lemma format_spec w k v :
  0 < w → - 2 ^ (w - 1) <= v < 2 ^ (w - 1) → (1 <= k <= 20)%nat → 2 ^ (w - 1) < 10 ^ Z.of_nat k →
  ∃ ds, format w v = (if v <? 0 then "-"%ch :: ds else ds) ∧ digits_of (Z.abs v) k ds.
Proof.
  intros Hw Hv Hk Hp. unfold format.
  assert (Hm : magnitude w v = Z.abs v).
  { unfold magnitude, wrap. assert (2 ^ w = 2 * 2 ^ (w - 1)).
    { rewrite <- Z.pow_succ_r by lia. f_equal. lia. }
    case_if; bool_to_prop; rewrite Z.mod_small; lia. }
  rewrite Hm. destruct (format_loop_spec k 20 (Z.abs v) [] Hk ltac:(lia)) as (ds & Hf & Hds).
  exists ds. by rewrite Hf, app_nil_r.
Qed.

(** ** Theorems *)

(** The wide conversion, in terms of the value of the digits. *)
Definition wide_spec (z : bytes) : res num_error Z :=
  let '(neg, body) := sign z in
  let '(base, digits) := base_prefix body in
  match body, digits with
  | [], _ | _, [] => Err Expected
  | _, _ =>
      if is_least neg base digits 0 then Ok TH8_INT64_MIN
      else scan_result TH8_INT64_MAX base digits 0 (λ v, Ok (negate neg v))
  end.

Lemma base_prefix_base z : is_base (fst (base_prefix z)).
Proof. unfold base_prefix, is_base. destruct z as [|c [|c2 z]]; repeat case_if; simpl; lia. Qed.

(** Th8_ToWideInt computes the value of the digits after the optional
    sign and base prefix: exact below 2^63, the least integer in decimal
    notation, too large from there on, and malformed for anything else; no
    intermediate value leaves 64 bits. *)
Theorem ToWideInt_spec z : ToWideInt_parse z = wide_spec z.
Proof.
  unfold ToWideInt_parse, wide_spec. destruct (sign z) as [neg body].
  destruct body as [|c body]; [by destruct (base_prefix [])|].
  pose proof (base_prefix_base (c :: body)) as Hb.
  destruct (base_prefix (c :: body)) as [base digits]. destruct digits; [done|].
  apply ToWideInt_loop_spec; [done|unfold TH8_INT64_MAX; lia].
Qed.

(** Th8_ToInt, likewise: decimal only, and the least 32-bit integer is too
    large. *)
Lemma ToInt_spec z :
  is_bytes z →
  ToInt_parse z =
  let '(neg, body) := sign z in
  match body with
  | [] => Err Expected
  | _ => scan_result INT_MAX 10 body 0 (λ v, Ok (negate neg v))
  end.
Proof.
  intros Hz. unfold ToInt_parse. destruct (sign z) as [neg body] eqn:E.
  assert (Hb : is_bytes body).
  { unfold sign in E. repeat case_if_in E; injection E as _ <-; try done;
      destruct z; try done; by apply Forall_cons in Hz as [_ ?]. }
  destruct body; [done|]. rewrite ToInt_loop_spec by (done || unfold INT_MAX; lia).
  unfold scan_result. repeat case_if; done.
Qed.

(** The decimal form of a 64-bit integer, and how it is read back. *)
Lemma wide_form v : TH8_INT64_MIN <= v <= TH8_INT64_MAX →
  ∃ ds, Th8_SetResultWideInt v = (if v <? 0 then "-"%ch :: ds else ds) ∧ digits_of (Z.abs v) 19 ds.
Proof. intros Hv. apply format_spec; unfold TH8_INT64_MIN, TH8_INT64_MAX in Hv; lia. Qed.

Lemma wide_text v : TH8_INT64_MIN <= v <= TH8_INT64_MAX →
  ToWideInt_parse (Th8_SetResultWideInt v) = Ok v ∧ zlen (Th8_SetResultWideInt v) < 30.
Proof.
  intros Hv. destruct (wide_form v Hv) as (ds & -> & Hds). split.
  - rewrite (ToWideInt_digits (v <? 0) (Z.abs v) 19 ds); [|done|].
    + unfold negate. f_equal. case_if; bool_to_prop; lia.
    + unfold TH8_INT64_MAX, TH8_INT64_MIN in *. destruct (v <? 0) eqn:E; bool_to_prop; lia.
  - pose proof (ds_length _ _ _ Hds). unfold zlen. case_if; simpl; lia.
Qed.

(** Formatting and parsing are inverse: every 64-bit integer is read back
    by Th8_ToWideInt from its decimal form, every 32-bit integer by Th8_ToInt
    except the least, and the forms fit the formatters' 30- and 20-byte
    buffers. *)
Theorem format_roundtrip v :
  (TH8_INT64_MIN <= v <= TH8_INT64_MAX →
   ToWideInt_parse (Th8_SetResultWideInt v) = Ok v ∧ zlen (Th8_SetResultWideInt v) < 30) ∧
  (INT_MIN <= v <= INT_MAX →
   ToInt_parse (Th8_SetResultInt v) = (if v =? INT_MIN then Err TooLarge else Ok v) ∧
   zlen (th8IntToStr v) < 20).
Proof.
  split; intros Hv; [by apply wide_text|].
  destruct (format_spec 32 10 v) as (ds & Hf & Hds);
    [lia|unfold INT_MIN, INT_MAX in Hv; lia|lia|lia|].
  unfold Th8_SetResultInt, th8IntToStr. rewrite Hf. split.
  + assert (Hb : is_bytes ds) by (eapply Forall_impl; [apply Hds|apply digit_byte]).
    destruct (v =? INT_MIN) eqn:E; bool_to_prop.
    * subst v. change (INT_MIN <? 0) with true. cbv iota. rewrite ToInt_spec.
      2: { apply Forall_cons. split; [unfold is_byte; lia|done]. }
      rewrite sign_minus. destruct Hds as [H1 H2 H3 _]. destruct ds; [simpl in H3; lia|].
      unfold scan_result. rewrite span_all, Nat.eqb_refl, firstn_all, H1 by done. done.
    * rewrite (ToInt_digits (v <? 0) (Z.abs v) 10 ds); [|done|done|unfold INT_MIN, INT_MAX in *; lia].
      unfold negate. f_equal. case_if; bool_to_prop; lia.
  + pose proof (ds_length _ _ _ Hds). unfold zlen. case_if; simpl; lia.
Qed.

(** A negative number in another base is too large at the least integer, which
    decimal notation represents. *)
Example least_in_hex :
  ToWideInt_parse (bytes_of_string "-0x8000000000000000") = Err TooLarge ∧
  ToWideInt_parse (bytes_of_string "-9223372036854775808") = Ok TH8_INT64_MIN.
Proof. split; reflexivity. Qed.

Example implicit_octal : ToWideInt_parse (bytes_of_string "010") = Ok 8.
Proof. reflexivity. Qed.

Example ToInt_decimal_only : ToInt_parse (bytes_of_string "0x10") = Err Expected.
Proof. reflexivity. Qed.

Section cache.
Context {C : Type} `{RC : ReprCache C}.

(** Every valid entry is what the parser computes. *)
Definition cache_ok (parse : bytes → res num_error Z) (interp : option C) : Prop :=
  match interp with Some c => ∀ z v, holds c z v → parse z = Ok v | None => True end.

Lemma cached_transparent parse storable interp z :
  cache_ok parse interp →
  fst (cached parse storable interp z) = parse z ∧
  cache_ok parse (snd (cached parse storable interp z)).
Proof.
  intros Hok. cut (let '(r, interp') := cached parse storable interp z in
                   r = parse z ∧ cache_ok parse interp').
  { by destruct (cached parse storable interp z). }
  unfold cached. destruct interp as [c|]; [|done]. simpl in Hok.
  pose proof (find_holds c z) as Hh. pose proof (find_keeps c z) as Hk.
  destruct (cache_find c z) as [hit c1]. simpl in *.
  assert (Hok1 : ∀ z v, holds c1 z v → parse z = Ok v) by eauto.
  assert (Hmiss :
    let '(r, interp') :=
      match parse z with
      | Ok v => if storable z v then
                  let '(entry, c) := cache_find c1 z in
                  (Ok v, Some (match entry with Some _ => cache_store c z v | None => c end))
                else (Ok v, Some c1)
      | Err e => (Err e, Some c1)
      end in r = parse z ∧ cache_ok parse interp').
  { destruct (parse z) as [v|e] eqn:Ep; [|done]. destruct (storable z v); [|done].
    pose proof (find_keeps c1 z) as Hk1. destruct (cache_find c1 z) as [entry c2]. simpl in Hk1.
    split; [done|]. intros z' v' Hv. destruct entry; [|eauto].
    apply store_holds in Hv as [?|[-> ->]]; eauto. }
  destruct hit as [[v|]|]; [|exact Hmiss..]. split; [|done].
  symmetry. apply Hok. by apply Hh.
Qed.

(** The cache of internal representations is transparent: on a cache
    filled by the same conversion, Th8_ToInt, Th8_ToWideInt and Th8_ToBoolean
    return what parsing the text returns, and keep the cache so. *)
Theorem conversions_transparent isBigint toDouble (it : C) z :
  (cache_ok ToInt_parse (Some it) →
   fst (Th8_ToInt (Some it) z) = ToInt_parse z ∧
   cache_ok ToInt_parse (snd (Th8_ToInt (Some it) z))) ∧
  (cache_ok ToWideInt_parse (Some it) →
   fst (Th8_ToWideInt (Some it) z) = ToWideInt_parse z ∧
   cache_ok ToWideInt_parse (snd (Th8_ToWideInt (Some it) z))) ∧
  (cache_ok (ToBoolean_parse isBigint toDouble true) (Some it) →
   fst (Th8_ToBoolean isBigint toDouble (Some it) z) = ToBoolean_parse isBigint toDouble true z ∧
   cache_ok (ToBoolean_parse isBigint toDouble true)
     (snd (Th8_ToBoolean isBigint toDouble (Some it) z))).
Proof. split_and!; intros H; by apply cached_transparent. Qed.
End cache.

Definition wide_31 : res num_error Z * option (gmap bytes Z) :=
  Th8_ToWideInt (Some ∅) (bytes_of_string "0x1F").

Lemma conversions_transparent_witness :
  fst wide_31 = Ok 31 ∧ cache_ok ToWideInt_parse (snd wide_31).
Proof.
  apply (conversions_transparent (λ _, false) (λ _, None) (∅ : gmap bytes Z)).
  intros z v H. simpl in H. discriminate.
Defined.
