(* ===== verification/Hash.v ===== *)
(** * Hash: the hash table of src/src/th8_hash.c.

    257 buckets of chained entries, found by a keyed hash of the key.  Every
    entry carries the number of the insertion that made it, so that
    Th8_HashIterateOrdered can visit the entries in insertion order whatever
    buckets they are in.  The specification is the ordered dictionary: the list
    of the entries, oldest first. *)

From S2P Require Import Prelude.
From stdpp Require Import sorting.
Open Scope Z_scope.

Definition TH8_HASH_SIZE : Z := 257.
Definition TH8_INT64_MAX : Z := 2 ^ 63 - 1.

(** ** The keyed hash *)

Definition add64 (a b : Z) : Z := wrap 64 (a + b).
Definition rotl64 (k a : Z) : Z := Z.lor (wrap 64 (Z.shiftl a k)) (Z.shiftr a (64 - k)).

Record sip : Type := mkSip { v0 : Z; v1 : Z; v2 : Z; v3 : Z }.

Definition SIPROUND (s : sip) : sip :=
  let '(mkSip v0 v1 v2 v3) := s in
  let v0 := add64 v0 v1 in
  let v1 := rotl64 13 v1 in
  let v1 := Z.lxor v1 v0 in
  let v0 := rotl64 32 v0 in
  let v2 := add64 v2 v3 in
  let v3 := rotl64 16 v3 in
  let v3 := Z.lxor v3 v2 in
  let v0 := add64 v0 v3 in
  let v3 := rotl64 21 v3 in
  let v3 := Z.lxor v3 v0 in
  let v2 := add64 v2 v1 in
  let v1 := rotl64 17 v1 in
  let v1 := Z.lxor v1 v2 in
  let v2 := rotl64 32 v2 in
  mkSip v0 v1 v2 v3.

(** Bytes as a little-endian word. *)
Fixpoint le_word (z : bytes) : Z :=
  match z with
  | [] => 0
  | c :: z' => Z.lor c (Z.shiftl (le_word z') 8)
  end.

(** Two rounds absorb a word. *)
Definition absorb (m : Z) (s : sip) : sip :=
  let s := mkSip (v0 s) (v1 s) (v2 s) (Z.lxor (v3 s) m) in
  let s := SIPROUND (SIPROUND s) in
  mkSip (Z.lxor (v0 s) m) (v1 s) (v2 s) (v3 s).

(** The full 8-byte blocks of the key; what is left is its tail. *)
Fixpoint absorb_blocks (nBlocks : nat) (p : bytes) (s : sip) : bytes * sip :=
  match nBlocks with
  | O => (p, s)
  | S n => absorb_blocks n (drop 8 p) (absorb (le_word (take 8 p)) s)
  end.

(** The seeds, set at most once from random bytes. *)
Record seeds : Type := mkSeeds { th8HashSeed0 : Z; th8HashSeed1 : Z; th8HashSeeded : bool }.

Definition seeds_init : seeds := mkSeeds 0x736f6d6570736575 0x646f72616e646f6d false.

(** [random] is what xRandomBytes delivers, if it is there and succeeds. *)
Definition th8SeedHash (s : seeds) (random : option bytes) : seeds :=
  if th8HashSeeded s then s
  else match random with
       | Some buf => mkSeeds (le_word (take 8 buf)) (le_word (take 8 (drop 8 buf))) true
       | None => mkSeeds (th8HashSeed0 s) (th8HashSeed1 s) true
       end.

Definition th8HashKey (sd : seeds) (zKey : bytes) : Z :=
  let s := mkSip (Z.lxor (th8HashSeed0 sd) 0x736f6d6570736575)
                 (Z.lxor (th8HashSeed1 sd) 0x646f72616e646f6d)
                 (Z.lxor (th8HashSeed0 sd) 0x6c7967656e657261)
                 (Z.lxor (th8HashSeed1 sd) 0x7465646279746573) in
  let '(p, s) := absorb_blocks (length zKey / 8) zKey s in
  let b := Z.lor (wrap 64 (Z.shiftl (zlen zKey) 56)) (le_word p) in
  let s := absorb b s in
  let s := mkSip (v0 s) (v1 s) (Z.lxor (v2 s) 0xff) (v3 s) in
  let s := SIPROUND (SIPROUND (SIPROUND (SIPROUND s))) in
  Z.lxor (Z.lxor (Z.lxor (v0 s) (v1 s)) (v2 s)) (v3 s) mod TH8_HASH_SIZE.

(** ** The table *)

Record Th8_HashEntry : Type := mkEntry { pData : Z; zKey : bytes; nInsertOrder : Z }.

Record Th8_Hash : Type := mkHash { aBucket : list (list Th8_HashEntry); nNextOrder : Z }.

Definition Th8_HashNew : Th8_Hash := mkHash (replicate 257 []) 0.

(** Along one chain: the entry with the key, and the chain without it. *)
Fixpoint chain_find (key : bytes) (l : list Th8_HashEntry) : option Th8_HashEntry :=
  match l with
  | [] => None
  | p :: l' => if bool_decide (zKey p = key) then Some p else chain_find key l'
  end.

Fixpoint chain_remove (key : bytes) (l : list Th8_HashEntry) : list Th8_HashEntry :=
  match l with
  | [] => []
  | p :: l' => if bool_decide (zKey p = key) then l' else p :: chain_remove key l'
  end.

Section table.
Context (sd : seeds).

Definition iBucket (key : bytes) : nat := Z.to_nat (th8HashKey sd key).
Definition bucket (h : Th8_Hash) (key : bytes) : list Th8_HashEntry := nth (iBucket key) (aBucket h) [].

(** [alloc] says whether the entry and its key copy could be allocated. *)
Definition Th8_HashFind (h : Th8_Hash) (key : bytes) (op : Z) (alloc : bool)
    : option Th8_HashEntry * Th8_Hash :=
  match chain_find key (bucket h key) with
  | Some p =>
      if op <? 0 then
        (None, mkHash (<[iBucket key := chain_remove key (bucket h key)]> (aBucket h)) (nNextOrder h))
      else (Some p, h)
  | None =>
      if 0 <? op then
        if alloc then
          let full := negb (nNextOrder h <? TH8_INT64_MAX) in
          let p := mkEntry 0 key (if full then TH8_INT64_MAX else nNextOrder h) in
          (Some p, mkHash (<[iBucket key := p :: bucket h key]> (aBucket h))
                          (if full then nNextOrder h else nNextOrder h + 1))
        else (None, h)
      else (None, h)
  end.

Definition Th8_HashRemove (h : Th8_Hash) (key : bytes) : Th8_Hash :=
  snd (Th8_HashFind h key (-1) true).

(** A caller's store through the pointer Th8_HashFind returned. *)
Definition set_data (h : Th8_Hash) (key : bytes) (d : Z) : Th8_Hash :=
  let set p := if bool_decide (zKey p = key) then mkEntry d key (nInsertOrder p) else p in
  mkHash (<[iBucket key := map set (bucket h key)]> (aBucket h)) (nNextOrder h).
End table.

(** ** Iteration *)

Section iterate.
(** The callback, with the state it works on; any code but TH8_OK stops. *)
Context {S : Type} (xCb : Th8_HashEntry → S → Z * S).

Fixpoint visit (l : list Th8_HashEntry) (s : S) : S :=
  match l with
  | [] => s
  | p :: l' => let '(rc, s') := xCb p s in if rc =? TH8_OK then visit l' s' else s'
  end.

Definition Th8_HashIterate (h : option Th8_Hash) (s : S) : S :=
  match h with Some h => visit (concat (aBucket h)) s | None => s end.
End iterate.

(** ** Ordered iteration: a bottom-up merge sort that polls *)

Section ordered.
Context {I : Type} (Th8_Ready : I → Z * I).

(** The poll counter and the interpreter; a computation fails when a poll
    does. *)
Definition M (A : Type) : Type := Z * I → option A * (Z * I).
Definition ret {A} (a : A) : M A := λ st, (Some a, st).
Definition bind {A B} (m : M A) (k : A → M B) : M B :=
  λ st, match m st with (Some a, st') => k a st' | (None, st') => (None, st') end.

(** [if ((nOp++ & 0xFFF) == 0)] poll. *)
Definition tick : M unit :=
  λ st, let '(nOp, it) := st in
        if Z.land nOp 0xFFF =? 0 then
          let '(rc, it') := Th8_Ready it in
          (if rc =? TH8_OK then Some tt else None, (nOp + 1, it'))
        else (Some tt, (nOp + 1, it)).

Definition ticked {A} (m : M A) : M A := bind tick (λ _, m).
Definition push {A} (p : A) (m : M (list A)) : M (list A) := bind m (λ l, ret (p :: l)).

(** Copying an array element by element. *)
Fixpoint copy {A} (l : list A) : M (list A) :=
  match l with [] => ret [] | p :: l' => ticked (push p (copy l')) end.

(** Two adjacent runs into the scratch array; the left one wins a tie. *)
Fixpoint merge (l : list Th8_HashEntry) : list Th8_HashEntry → M (list Th8_HashEntry) :=
  fix merge_l (r : list Th8_HashEntry) : M (list Th8_HashEntry) :=
    match l, r with
    | a :: l', b :: r' =>
        ticked (if nInsertOrder a <=? nInsertOrder b then push a (merge l' r)
                else push b (merge_l r'))
    | [], _ => copy r
    | _, [] => copy l
    end.

(** One pass over all pairs of runs of the given width; the length of the
    array is fuel. *)
Fixpoint merge_pass (fuel width : nat) (ap : list Th8_HashEntry) : M (list Th8_HashEntry) :=
  match fuel, ap with
  | _, [] | O, _ => ret []
  | S fuel', _ =>
      bind (merge (take width ap) (take width (drop width ap))) (λ l,
      bind (merge_pass fuel' width (drop (2 * width) ap)) (λ rest, ret (l ++ rest)))
  end.

(** Passes of doubling width; the width more than doubles no more often than
    the length of the array. *)
Fixpoint sort_loop (fuel width : nat) (ap : list Th8_HashEntry) : M (list Th8_HashEntry) :=
  match fuel with
  | O => ret ap
  | S fuel' =>
      if (width <? length ap)%nat then
        bind (merge_pass (length ap) width ap) (λ aTmp,
        bind (copy aTmp) (λ ap, sort_loop fuel' (2 * width) ap))
      else ret ap
  end.

Definition th8HashSortByOrder (it : I) (ap : list Th8_HashEntry)
    : option (list Th8_HashEntry) * I :=
  let '(r, (_, it')) := sort_loop (length ap) 1 ap (0, it) in (r, it').

(** The calls of the callback, with a poll before every 4096th. *)
Fixpoint visit_polled {S} (xCb : Th8_HashEntry → S → Z * S) (i : Z)
    (l : list Th8_HashEntry) (s : S) (it : I) : Z * S * I :=
  match l with
  | [] => (TH8_OK, s, it)
  | p :: l' =>
      let '(ready, it) := if Z.land i 0xFFF =? 0 then Th8_Ready it else (TH8_OK, it) in
      if negb (ready =? TH8_OK) then (TH8_ERROR, s, it)
      else
        let '(rc, s') := xCb p s in
        if rc =? TH8_OK then visit_polled xCb (i + 1) l' s' it else (TH8_OK, s', it)
  end.

(** [alloc] says whether the two arrays could be allocated.  The walk that
    counts and the walk that collects share the poll counter. *)
Definition Th8_HashIterateOrdered {S} (xCb : Th8_HashEntry → S → Z * S)
    (h : Th8_Hash) (alloc : bool) (s : S) (it : I) : Z * S * I :=
  let all := concat (aBucket h) in
  match copy all (0, it) with
  | (None, (_, it)) => (TH8_ERROR, s, it)
  | (Some _, (nOp, it)) =>
      if (length all =? 0)%nat then (TH8_OK, s, it)
      else if negb alloc then (TH8_ERROR, s, it)
      else
        match copy all (nOp, it) with
        | (None, (_, it)) => (TH8_ERROR, s, it)
        | (Some ap, (_, it)) =>
            let '(sorted, it) :=
              if (1 <? length ap)%nat then th8HashSortByOrder it ap else (Some ap, it) in
            match sorted with
            | None => (TH8_ERROR, s, it)
            | Some ap => visit_polled xCb 0 ap s it
            end
        end
  end.
End ordered.

(** ** The hash value *)

Lemma th8HashKey_range sd key : 0 <= th8HashKey sd key < TH8_HASH_SIZE.
Proof.
  unfold th8HashKey. destruct (absorb_blocks _ _ _). apply Z.mod_pos_bound. done.
Qed.

Lemma iBucket_lt sd key : (iBucket sd key < 257)%nat.
Proof. pose proof (th8HashKey_range sd key). unfold iBucket, TH8_HASH_SIZE in *. lia. Qed.

(** Once seeded, the hash of a key is fixed. *)
Lemma th8SeedHash_once s r1 r2 : th8SeedHash (th8SeedHash s r1) r2 = th8SeedHash s r1.
Proof. unfold th8SeedHash. destruct (th8HashSeeded s) eqn:E; [by rewrite E|]. by destruct r1. Qed.

(** ** Chains *)

Lemma chain_find_Some key l p : chain_find key l = Some p → p ∈ l ∧ zKey p = key.
Proof.
  induction l as [|q l IH]; simpl; [done|]. case_bool_decide as E.
  - intros [= <-]. split; [by left|done].
  - intros H. apply IH in H as [? ?]. split; [by right|done].
Qed.

Lemma chain_find_None key l p : chain_find key l = None → p ∈ l → zKey p ≠ key.
Proof.
  induction l as [|q l IH]; simpl; [by intros _ ?%elem_of_nil|]. case_bool_decide; [done|].
  intros Hn [->|?]%elem_of_cons; auto.
Qed.

Lemma chain_find_in key l p :
  NoDup (map zKey l) → p ∈ l → zKey p = key → chain_find key l = Some p.
Proof.
  induction l as [|q l IH]; simpl; [by intros _ ?%elem_of_nil|].
  intros [Hq Hn]%NoDup_cons [->|Hp]%elem_of_cons Hk.
  - by rewrite bool_decide_true.
  - rewrite bool_decide_false; [auto|]. intros Hqk. apply Hq. rewrite Hqk, <- Hk.
    apply list_elem_of_fmap. eauto.
Qed.

Lemma chain_remove_perm key l p :
  chain_find key l = Some p → l ≡ₚ p :: chain_remove key l.
Proof.
  induction l as [|q l IH]; simpl; [done|]. case_bool_decide as E.
  - by intros [= <-].
  - intros H. rewrite (IH H) at 1. apply Permutation_swap.
Qed.

(** Where there is no duplicate, a permutation does not change what is found. *)
Lemma chain_find_perm key l l' :
  NoDup (map zKey l) → l ≡ₚ l' → chain_find key l = chain_find key l'.
Proof.
  intros Hn Hp. assert (Hn' : NoDup (map zKey l')) by (by rewrite <- Hp).
  destruct (chain_find key l') as [p|] eqn:E.
  - apply chain_find_Some in E as [Hin Hk]. apply chain_find_in; [done| |done]. by rewrite Hp.
  - destruct (chain_find key l) as [p|] eqn:E2; [|done].
    apply chain_find_Some in E2 as [Hin Hk]. rewrite Hp in Hin.
    by eapply chain_find_None in E.
Qed.

Lemma concat_update {A} (bs : list (list A)) b b' : ∀ i,
  bs !! i = Some b →
  ∃ rest, concat bs ≡ₚ b ++ rest ∧ concat (<[i := b']> bs) ≡ₚ b' ++ rest.
Proof.
  induction bs as [|c bs IH]; intros [|i] H; simpl in H; [done..| |].
  - injection H as ->. by exists (concat bs).
  - destruct (IH i H) as (rest & H1 & H2). exists (c ++ rest). simpl. rewrite H1, H2.
    rewrite !app_assoc. by rewrite (Permutation_app_comm c b), (Permutation_app_comm c b').
Qed.

(** ** The table refines the ordered dictionary *)

Definition older (a b : Th8_HashEntry) : Prop := nInsertOrder a < nInsertOrder b.

Section refinement.
Context (sd : seeds).

(** [al] is the dictionary the table holds: its entries, oldest first. *)
Record holds_dict (h : Th8_Hash) (al : list Th8_HashEntry) : Prop := {
  hd_buckets : length (aBucket h) = 257%nat;
  hd_place : ∀ i l p, aBucket h !! i = Some l → p ∈ l → iBucket sd (zKey p) = i;
  hd_perm : concat (aBucket h) ≡ₚ al;
  hd_sorted : StronglySorted older al;
  hd_next : Forall (λ p, nInsertOrder p < nNextOrder h) al;
  hd_keys : NoDup (map zKey al)
}.

Lemma holds_new : holds_dict Th8_HashNew [].
Proof.
  assert (Hc : concat (replicate 257 (@nil Th8_HashEntry)) = []).
  { generalize 257%nat. induction n; [done|exact IHn]. }
  split; unfold Th8_HashNew; cbn [aBucket nNextOrder]; [done| |by rewrite Hc|constructor..].
  intros i l p Hl Hp. apply lookup_replicate in Hl as [-> _]. by apply elem_of_nil in Hp.
Qed.

Lemma bucket_lookup h al key : holds_dict h al → aBucket h !! iBucket sd key = Some (bucket sd h key).
Proof.
  intros [Hl _ _ _ _ _]. unfold bucket. pose proof (iBucket_lt sd key).
  destruct (lookup_lt_is_Some_2 (aBucket h) (iBucket sd key)) as [l E]; [lia|].
  rewrite E. by rewrite (nth_lookup_Some _ _ _ _ E).
Qed.

(** Looking in the key's bucket is looking in the dictionary. *)
Lemma bucket_find h al key : holds_dict h al → chain_find key (bucket sd h key) = chain_find key al.
Proof.
  intros H. pose proof (bucket_lookup h al key H) as Hb. destruct H as [Hl Hpl Hp _ _ Hk].
  assert (Hin : ∀ p, p ∈ bucket sd h key → p ∈ al).
  { intros p Hin. rewrite <- Hp. apply list_elem_of_In, in_concat. exists (bucket sd h key).
    split; apply list_elem_of_In; [by apply list_elem_of_lookup_2 in Hb|done]. }
  destruct (chain_find key (bucket sd h key)) as [p|] eqn:E.
  - apply chain_find_Some in E as [Hpin Hpk]. symmetry. apply chain_find_in; auto.
  - destruct (chain_find key al) as [p|] eqn:E2; [|done].
    apply chain_find_Some in E2 as [Hpin Hpk]. rewrite <- Hp in Hpin.
    apply list_elem_of_In, in_concat in Hpin as (l & Hlin & Hpl').
    apply list_elem_of_In in Hlin, Hpl'. apply list_elem_of_lookup in Hlin as [i Hi].
    pose proof (Hpl i l p Hi Hpl') as <-. rewrite Hpk, Hb in Hi. injection Hi as <-.
    by eapply chain_find_None in E.
Qed.

(** Replacing the bucket of a key. *)
Lemma place_update h al key b n :
  holds_dict h al → (∀ p, p ∈ b → iBucket sd (zKey p) = iBucket sd key) →
  length (aBucket (mkHash (<[iBucket sd key := b]> (aBucket h)) n)) = 257%nat ∧
  (∀ i l p, <[iBucket sd key := b]> (aBucket h) !! i = Some l → p ∈ l → iBucket sd (zKey p) = i).
Proof.
  intros H Hb. split; [simpl; rewrite length_insert; apply H|].
  intros i l p Hl Hp. apply list_lookup_insert_Some in Hl as [(<- & <- & _)|[_ Hl]]; [auto|].
  by eapply (hd_place h al).
Qed.

Lemma bucket_place h al key p : holds_dict h al → p ∈ bucket sd h key → iBucket sd (zKey p) = iBucket sd key.
Proof. intros H Hp. eapply (hd_place h al); [done|by apply (bucket_lookup h al)|done]. Qed.

Lemma chain_remove_sublist key al : sublist (chain_remove key al) al.
Proof.
  induction al as [|p al IH]; simpl; [constructor|].
  case_bool_decide; [by apply sublist_cons|by apply sublist_skip].
Qed.

Lemma chain_remove_in key al p : p ∈ chain_remove key al → p ∈ al.
Proof. intros H. eapply elem_of_sublist; [exact H|apply chain_remove_sublist]. Qed.

Lemma Forall_remove (P : Th8_HashEntry → Prop) key al :
  Forall P al → Forall P (chain_remove key al).
Proof. rewrite !Forall_forall. intros H p Hp. by apply H, (chain_remove_in key). Qed.

(** What is left of a dictionary is one. *)
Lemma dict_remove key al :
  StronglySorted older al → NoDup (map zKey al) →
  StronglySorted older (chain_remove key al) ∧ NoDup (map zKey (chain_remove key al)).
Proof.
  intros Hs Hk. split.
  - clear Hk. induction Hs as [|p al Hs IH Hp]; simpl; [constructor|].
    case_bool_decide; [done|]. constructor; [done|]. by apply Forall_remove.
  - eapply sublist_NoDup; [exact Hk|]. apply fmap_sublist, chain_remove_sublist.
Qed.

Lemma holds_insert h al key :
  holds_dict h al → chain_find key al = None → nNextOrder h < TH8_INT64_MAX →
  let p := mkEntry 0 key (nNextOrder h) in
  holds_dict (mkHash (<[iBucket sd key := p :: bucket sd h key]> (aBucket h)) (nNextOrder h + 1))
    (al ++ [p]).
Proof.
  intros H Hf Hn p. destruct (place_update h al key (p :: bucket sd h key) (nNextOrder h + 1) H)
    as [Hl Hpl].
  { intros q [->|Hq]%elem_of_cons; [done|by eapply bucket_place]. }
  destruct (concat_update (aBucket h) (bucket sd h key) (p :: bucket sd h key) (iBucket sd key)
              (bucket_lookup h al key H)) as (rest & H1 & H2).
  pose proof (hd_perm h al H) as Hp. split; simpl; [exact Hl|exact Hpl|..].
  - rewrite H2. simpl. rewrite <- H1, Hp. apply Permutation_cons_append.
  - pose proof (hd_sorted h al H) as Hs. pose proof (hd_next h al H) as Hx. clear -Hs Hx.
    induction Hs as [|q al Hs IH Hq]; simpl; [by repeat constructor|].
    apply Forall_cons in Hx as [Hx Hx']. constructor; [by apply IH|].
    apply Forall_app. split; [done|]. by repeat constructor.
  - apply Forall_app. split; [|by repeat constructor; simpl; lia].
    eapply Forall_impl; [apply (hd_next h al H)|]. simpl. lia.
  - rewrite map_app. simpl. apply NoDup_app. split_and!; [by apply H| |apply NoDup_singleton].
    intros k Hk ->%list_elem_of_singleton. apply list_elem_of_fmap in Hk as (q & Hq & Hin).
    by eapply chain_find_None in Hf.
Qed.

Lemma holds_remove h al key p :
  holds_dict h al → chain_find key al = Some p →
  holds_dict (mkHash (<[iBucket sd key := chain_remove key (bucket sd h key)]> (aBucket h))
                (nNextOrder h)) (chain_remove key al).
Proof.
  intros H Hf. destruct (place_update h al key (chain_remove key (bucket sd h key)) (nNextOrder h) H)
    as [Hl Hpl].
  { intros q Hq. eapply bucket_place; [done|].
    by eapply chain_remove_in. }
  destruct (concat_update (aBucket h) (bucket sd h key) (chain_remove key (bucket sd h key))
              (iBucket sd key) (bucket_lookup h al key H)) as (rest & H1 & H2).
  destruct (dict_remove key al) as [Hs Hk]; [by apply H..|].
  split; simpl; [exact Hl|exact Hpl| |done|by apply Forall_remove, H|done].
  rewrite H2. pose proof (hd_perm h al H) as Hp. rewrite H1 in Hp.
  assert (Hb : chain_find key (bucket sd h key) = Some p) by (by rewrite (bucket_find h al)).
  rewrite (chain_remove_perm _ _ _ Hb), (chain_remove_perm _ _ _ Hf) in Hp.
  by apply Permutation_cons_inv in Hp.
Qed.

Lemma holds_set_data h al key d :
  holds_dict h al →
  holds_dict (set_data sd h key d)
    (map (λ p, if bool_decide (zKey p = key) then mkEntry d key (nInsertOrder p) else p) al).
Proof.
  intros H. unfold set_data. set (f := λ p : Th8_HashEntry, _).
  assert (Hfk : ∀ p, zKey (f p) = zKey p) by (intros p; subst f; simpl; by case_bool_decide).
  assert (Hfo : ∀ p, nInsertOrder (f p) = nInsertOrder p)
    by (intros p; subst f; simpl; by case_bool_decide).
  destruct (place_update h al key (map f (bucket sd h key)) (nNextOrder h) H) as [Hl Hpl].
  { intros q Hq. apply list_elem_of_fmap in Hq as (x & -> & Hx). rewrite Hfk. by eapply bucket_place. }
  destruct (concat_update (aBucket h) (bucket sd h key) (map f (bucket sd h key))
              (iBucket sd key) (bucket_lookup h al key H)) as (rest & H1 & H2).
  pose proof (hd_perm h al H) as Hp.
  split; simpl; [exact Hl|exact Hpl|..].
  - rewrite H2, <- Hp, H1. rewrite map_app. apply Permutation_app_head.
    assert (Hrest : ∀ q, q ∈ rest → zKey q ≠ key).
    { intros q Hq Hqk. pose proof (hd_keys h al H) as Hn.
      rewrite <- Hp, H1, map_app in Hn. apply NoDup_app in Hn as (_ & Hn & _).
      assert (Hin : q ∈ al) by (rewrite <- Hp, H1; apply elem_of_app; by right).
      pose proof (chain_find_in key al q (hd_keys h al H) Hin Hqk) as Hf.
      rewrite <- (bucket_find h al key H) in Hf. apply chain_find_Some in Hf as [Hf _].
      apply (Hn (zKey q)); apply list_elem_of_fmap; eauto. }
    assert (map f rest = rest) as ->; [|done].
    clear -Hrest. induction rest as [|q rest IH]; simpl; [done|].
    rewrite IH by (intros; apply Hrest; by right). f_equal. subst f. simpl.
    rewrite bool_decide_false; [done|]. apply Hrest. by left.
  - pose proof (hd_sorted h al H) as Hs. clear -Hs Hfo. induction Hs as [|q al Hs IH Hq]; [constructor|].
    simpl. constructor; [done|]. apply Forall_map. eapply Forall_impl; [exact Hq|].
    unfold older. intros x. simpl. by rewrite !Hfo.
  - apply Forall_map. eapply Forall_impl; [apply (hd_next h al H)|]. intros x. simpl. by rewrite Hfo.
  - rewrite map_map. rewrite (map_ext _ zKey); [by apply H|exact Hfk].
Qed.
End refinement.

(** ** Sorting *)

Section sorting.
Context {I : Type} (Th8_Ready : I → Z * I).

Definition always_ready : Prop := ∀ it, fst (Th8_Ready it) = TH8_OK.

(** [m] computes [a], unless a poll fails. *)
Definition computes {A} (m : M (I := I) A) (a : A) : Prop :=
  ∀ st, match fst (m st) with Some a' => a' = a | None => ¬ always_ready end.

Lemma computes_ret {A} (a : A) : computes (ret a) a.
Proof. intros st. done. Qed.

Lemma computes_bind {A B} (m : M A) (k : A → M B) a b :
  computes m a → computes (k a) b → computes (bind m k) b.
Proof.
  intros Hm Hk st. specialize (Hm st). unfold bind. destruct (m st) as [[a'|] st']; simpl in *; [|done].
  subst. apply Hk.
Qed.

Lemma computes_tick : computes (tick Th8_Ready) tt.
Proof.
  intros [nOp it]. unfold tick. case_if; [|done].
  destruct (Th8_Ready it) as [rc it'] eqn:E. simpl. case_if; bool_to_prop; [done|].
  intros H. specialize (H it). rewrite E in H. done.
Qed.

Lemma computes_ticked {A} (m : M A) a : computes m a → computes (ticked Th8_Ready m) a.
Proof. intros H. eapply computes_bind; [apply computes_tick|done]. Qed.

Lemma computes_push {A} (p : A) m l : computes m l → computes (push p m) (p :: l).
Proof. intros H. eapply computes_bind; [done|apply computes_ret]. Qed.

Lemma computes_copy {A} (l : list A) : computes (copy Th8_Ready l) l.
Proof. induction l; simpl; [apply computes_ret|]. by apply computes_ticked, computes_push. Qed.

Definition upto (a b : Th8_HashEntry) : Prop := nInsertOrder a <= nInsertOrder b.
#[local] Instance upto_dec a b : Decision (upto a b) := decide (nInsertOrder a <= nInsertOrder b).
#[local] Instance upto_total : Total upto.
Proof. intros a b. unfold upto. lia. Qed.
#[local] Instance upto_trans : Transitive upto.
Proof. intros a b c. unfold upto. lia. Qed.

Lemma computes_merge l : ∀ r, computes (merge Th8_Ready l r) (list_merge upto l r).
Proof.
  induction l as [|a l IHl].
  - intros r. rewrite list_merge_nil_l. destruct r; [apply computes_ret|].
    change (computes (copy Th8_Ready (t :: r)) (t :: r)). apply computes_copy.
  - induction r as [|b r IHr].
    + rewrite list_merge_nil_r. apply (computes_copy (a :: l)).
    + rewrite list_merge_cons. simpl. apply computes_ticked.
      case_decide as E; unfold upto in E.
      * replace (nInsertOrder a <=? nInsertOrder b) with true by (symmetry; by apply Z.leb_le).
        apply computes_push, IHl.
      * replace (nInsertOrder a <=? nInsertOrder b) with false by (symmetry; apply Z.leb_gt; lia).
        apply computes_push, IHr.
Qed.

(** An array whose consecutive runs of [w] entries are sorted. *)
Inductive runs (w : nat) : list Th8_HashEntry → Prop :=
| runs_nil : runs w []
| runs_cons ap : Sorted upto (take w ap) → runs w (drop w ap) → ap ≠ [] → runs w ap.

Lemma runs_one ap : runs 1 ap.
Proof.
  induction ap as [|p ap IH]; [constructor|]. apply runs_cons; [|done|done].
  simpl. destruct ap; repeat constructor.
Qed.

Lemma runs_sorted w ap : runs w ap → (length ap <= w)%nat → Sorted upto ap.
Proof.
  intros H Hl. destruct H as [|ap H _ _]; [constructor|]. by rewrite take_ge in H.
Qed.

Lemma runs_take w ap : runs w ap → Sorted upto (take w ap).
Proof. intros []; [by rewrite take_nil; constructor|done]. Qed.

Lemma runs_drop w ap : runs w ap → runs w (drop w ap).
Proof. intros []; [by rewrite drop_nil; constructor|done]. Qed.

(** A pass doubles the width of the runs. *)
Lemma computes_pass fuel w : ∀ ap,
  (0 < w)%nat → (length ap <= fuel)%nat → runs w ap →
  ∃ l, computes (merge_pass Th8_Ready fuel w ap) l ∧ l ≡ₚ ap ∧ runs (2 * w) l.
Proof.
  induction fuel as [|fuel IH]; intros ap Hw Hl Hr.
  - destruct ap; [|simpl in Hl; lia]. exists []. split_and!; [apply computes_ret|done|constructor].
  - destruct (decide (ap = [])) as [->|Hne].
    { exists []. split_and!; [apply computes_ret|done|constructor]. }
    assert (Hlen : (0 < length ap)%nat) by (destruct ap; [done|simpl; lia]).
    destruct (IH (drop (2 * w) ap)) as (rest & Hc & Hp & Hrr); [done| | |].
    { rewrite length_drop. lia. }
    { replace (2 * w)%nat with (w + w)%nat by lia. rewrite <- drop_drop. by apply runs_drop, runs_drop. }
    set (l := list_merge upto (take w ap) (take w (drop w ap))).
    assert (Hlp : l ≡ₚ take (2 * w) ap).
    { subst l. rewrite merge_Permutation, take_take_drop. by replace (w + w)%nat with (2 * w)%nat by lia. }
    assert (Hls : Sorted upto l).
    { apply Sorted_list_merge; [apply _|by apply runs_take|by apply runs_take, runs_drop]. }
    exists (l ++ rest). split_and!.
    + destruct ap as [|p ap]; [done|]. cbn [merge_pass].
      eapply computes_bind; [apply computes_merge|]. eapply computes_bind; [exact Hc|apply computes_ret].
    + rewrite Hlp, Hp. by rewrite take_drop.
    + assert (Hll : length l = Nat.min (2 * w) (length ap)) by (rewrite Hlp; apply length_take).
      destruct (decide (2 * w <= length ap)%nat) as [Hge|Hlt].
      * apply runs_cons; [by rewrite take_app_length'; [|lia]|by rewrite drop_app_length'; [|lia]|].
        destruct l; [simpl in Hll; lia|done].
      * assert (rest = []) as ->.
        { apply Permutation_nil_r. by rewrite Hp, drop_ge by lia. }
        rewrite app_nil_r. apply runs_cons; [by rewrite take_ge by lia| |destruct l; [simpl in Hll; lia|done]].
        rewrite drop_ge by lia. constructor.
Qed.

Lemma computes_sort fuel : ∀ w ap,
  (0 < w)%nat → (length ap <= w * 2 ^ fuel)%nat → runs w ap →
  ∃ l, computes (sort_loop Th8_Ready fuel w ap) l ∧ l ≡ₚ ap ∧ Sorted upto l.
Proof.
  induction fuel as [|fuel IH]; intros w ap Hw Hl Hr; simpl.
  - exists ap. split_and!; [apply computes_ret|done|]. eapply runs_sorted; [done|]. simpl in Hl. lia.
  - destruct (w <? length ap)%nat eqn:E.
    + destruct (computes_pass (length ap) w ap Hw ltac:(lia) Hr) as (l1 & Hc1 & Hp1 & Hr1).
      destruct (IH (2 * w)%nat l1) as (l & Hc & Hp & Hs); [lia| |done|].
      { rewrite Hp1. simpl in Hl. lia. }
      exists l. split_and!; [|by rewrite Hp|done].
      eapply computes_bind; [exact Hc1|]. eapply computes_bind; [apply computes_copy|exact Hc].
    + exists ap. apply Nat.ltb_ge in E. split_and!; [apply computes_ret|done|by eapply runs_sorted].
Qed.

Lemma pow2_ge n : (n <= 1 * 2 ^ n)%nat.
Proof. pose proof (Nat.pow_gt_lin_r 2 n). lia. Qed.

(** The only sorted arrangement of entries with distinct numbers. *)
Lemma sorted_unique l al :
  l ≡ₚ al → Sorted upto l → StronglySorted older al → l = al.
Proof.
  intros Hp Hs%Sorted_StronglySorted Ha; [|apply _].
  revert l Hp Hs. induction Ha as [|a al Ha IH Hall]; intros l Hp Hs.
  { by apply Permutation_nil_r in Hp. }
  destruct Hs as [|x l Hs Hx]; [by apply Permutation_nil in Hp|].
  assert (x = a) as ->.
  { assert (Hxin : x ∈ a :: al) by (rewrite <- Hp; by left).
    assert (Hain : a ∈ x :: l) by (rewrite Hp; by left).
    apply elem_of_cons in Hxin as [->|Hxin]; [done|]. apply elem_of_cons in Hain as [->|Hain]; [done|].
    rewrite Forall_forall in Hall, Hx. specialize (Hall x Hxin). specialize (Hx a Hain).
    unfold older, upto in *. lia. }
  f_equal. apply IH; [by apply Permutation_cons_inv in Hp|done].
Qed.
End sorting.

(** ** Theorems *)

Section dictionary.
Context (sd : seeds).

(** C37.  The table refines the ordered dictionary under every operation:
    finding an entry is looking it up, inserting a new key appends an entry,
    removing deletes it, storing data changes that entry only, and a failed
    allocation changes nothing. *)
Theorem Hash_refines h al key :
  holds_dict sd h al → nNextOrder h < TH8_INT64_MAX →
  (∀ alloc, Th8_HashFind sd h key 0 alloc = (chain_find key al, h)) ∧
  (match chain_find key al with
   | Some p => ∀ alloc, Th8_HashFind sd h key 1 alloc = (Some p, h)
   | None =>
       Th8_HashFind sd h key 1 false = (None, h) ∧
       let p := mkEntry 0 key (nNextOrder h) in
       ∃ h', Th8_HashFind sd h key 1 true = (Some p, h') ∧ holds_dict sd h' (al ++ [p])
   end) ∧
  holds_dict sd (Th8_HashRemove sd h key) (chain_remove key al) ∧
  (∀ d, holds_dict sd (set_data sd h key d)
     (map (λ p, if bool_decide (zKey p = key) then mkEntry d key (nInsertOrder p) else p) al)).
Proof.
  intros H Hn. pose proof (bucket_find sd h al key H) as Hb.
  split_and!; [| | |intros d; by apply holds_set_data].
  - intros alloc. unfold Th8_HashFind. rewrite Hb. by destruct (chain_find key al).
  - unfold Th8_HashFind. rewrite Hb. destruct (chain_find key al) as [p|] eqn:E; [done|].
    split; [done|]. simpl. replace (nNextOrder h <? TH8_INT64_MAX) with true by (symmetry; by apply Z.ltb_lt).
    eexists. split; [done|]. by apply holds_insert.
  - unfold Th8_HashRemove, Th8_HashFind. rewrite Hb. destruct (chain_find key al) as [p|] eqn:E.
    + by eapply holds_remove.
    + simpl. replace (chain_remove key al) with al; [done|].
      clear -E. induction al as [|q al IH]; simpl in *; [done|]. case_bool_decide; [done|].
      f_equal. auto.
Qed.

End dictionary.

Lemma Hash_refines_witness :
  Th8_HashFind seeds_init Th8_HashNew [97] 0 true = (None, Th8_HashNew).
Proof.
  exact (proj1 (Hash_refines seeds_init Th8_HashNew [] [97] (holds_new seeds_init) eq_refl) true).
Defined.

(** Th8_HashIterateOrdered calls the callback on the entries in insertion
    order, whatever the hash function made of the keys, until the callback
    stops it; it fails only when memory or the interpreter does. *)
Theorem Th8_HashIterateOrdered_spec {I S} (Th8_Ready : I → Z * I)
    (xCb : Th8_HashEntry → S → Z * S) sd h al alloc s it :
  holds_dict sd h al → always_ready Th8_Ready → alloc = true →
  fst (Th8_HashIterateOrdered Th8_Ready xCb h alloc s it) = (TH8_OK, visit xCb al s).
Proof.
  intros H Hr ->. unfold Th8_HashIterateOrdered. pose proof (hd_perm sd h al H) as Hp.
  set (all := concat (aBucket h)) in *.
  assert (Hcopy : ∀ st, fst (copy Th8_Ready all st) = Some all).
  { intros st. pose proof (computes_copy Th8_Ready all st) as Hc.
    destruct (fst (copy Th8_Ready all st)); [by rewrite Hc|done]. }
  assert (Hvisit : ∀ l s i it, fst (visit_polled Th8_Ready xCb i l s it) = (TH8_OK, visit xCb l s)).
  { induction l as [|p l IH]; intros s' i it'; simpl; [done|].
    destruct (if Z.land i 0xFFF =? 0 then Th8_Ready it' else (TH8_OK, it')) as [ready it1] eqn:E.
    assert (ready = TH8_OK) as ->.
    { case_if_in E; [|by injection E as <- _]. specialize (Hr it'). by rewrite E in Hr. }
    simpl. destruct (xCb p s') as [rc s1]. case_if; [apply IH|done]. }
  pose proof (Hcopy (0, it)) as H1. destruct (copy Th8_Ready all (0, it)) as [[x|] [nOp it1]]; [|done].
  destruct (length all =? 0)%nat eqn:E0.
  { apply Nat.eqb_eq, length_zero_iff_nil in E0. rewrite E0 in Hp.
    apply Permutation_nil in Hp as ->. done. }
  simpl. pose proof (Hcopy (nOp, it1)) as H2.
  destruct (copy Th8_Ready all (nOp, it1)) as [[ap|] [nOp2 it2]]; [|done].
  injection H2 as ->.
  destruct (1 <? length all)%nat eqn:E1.
  - unfold th8HashSortByOrder.
    destruct (computes_sort Th8_Ready (length all) 1 all ltac:(lia) (pow2_ge _) (runs_one _))
      as (l & Hc & Hlp & Hs).
    specialize (Hc (0, it2)). destruct (sort_loop _ _ _ _ _) as [[l'|] [nOp3 it3]]; simpl in Hc; [|done].
    subst l'. rewrite (sorted_unique l al); [apply Hvisit|by rewrite Hlp|done|apply H].
  - apply Nat.ltb_ge in E1. destruct all as [|p [|q all]]; [done| |simpl in E1; lia].
    apply Permutation_singleton_l in Hp as ->. apply Hvisit.
Qed.

(** Two keys inserted in an order that need not be the order of their buckets. *)
Definition two_keys : Th8_Hash :=
  snd (Th8_HashFind seeds_init (snd (Th8_HashFind seeds_init Th8_HashNew [98] 1 true)) [97] 1 true).

Lemma two_keys_dict : holds_dict seeds_init two_keys [mkEntry 0 [98] 0; mkEntry 0 [97] 1].
Proof.
  assert (H1 : holds_dict seeds_init (snd (Th8_HashFind seeds_init Th8_HashNew [98] 1 true))
                 [mkEntry 0 [98] 0]).
  { exact (holds_insert seeds_init Th8_HashNew [] [98] (holds_new _) eq_refl eq_refl). }
  unfold two_keys. set (h := snd (Th8_HashFind seeds_init Th8_HashNew [98] 1 true)) in *.
  assert (Hn : nNextOrder h = 1) by (vm_compute; reflexivity).
  pose proof (holds_insert seeds_init h [mkEntry 0 [98] 0] [97] H1 eq_refl) as H2.
  unfold Th8_HashFind. rewrite (bucket_find seeds_init h _ [97] H1), Hn in *.
  exact (H2 eq_refl).
Qed.

Lemma Th8_HashIterateOrdered_spec_witness :
  fst (Th8_HashIterateOrdered (λ it, (TH8_OK, it)) (λ p s, (TH8_OK, s ++ [zKey p])) two_keys true
         [] tt) = (TH8_OK, [[98]; [97]]).
Proof.
  apply (Th8_HashIterateOrdered_spec (λ it, (TH8_OK, it)) (λ p s, (TH8_OK, s ++ [zKey p]))
           seeds_init two_keys [mkEntry 0 [98] 0; mkEntry 0 [97] 1]);
    [apply two_keys_dict|intros it; reflexivity|reflexivity].
Defined.
