(* ===== verification/Results.v ===== *)
(** * Results: the result of the interpreter and who owns it
    (th8ReleaseOldResult, Th8_SetResult and its kin of src/src/th8_core.c,
    th8ProtectedCheckCanary of src/src/th8_protect.c, the publishing of a
    decrypted variable in src/src/plugins/crypto/th8_secure.c).

    The result is a pointer with a tagged length.  It points to a block the
    interpreter owns, to memory of someone else (bResultBorrowed), or into the
    protected region that holds sensitive results.  The model keeps the blocks
    with their bytes, and reports a read or write of a freed block, an access
    outside a block, and a free of what is not an owned live block. *)

From stdpp Require Import gmap.
From S2P Require Import Prelude Memory Strings.
#[local] Open Scope Z_scope.
#[local] Open Scope res_scope.

(** ** Blocks and pointers *)

Inductive fault : Type := BadFree | UseAfterFree | OutOfBounds.

(** [Heap]: from Th8_SafeAlloc.  [Foreign]: of the caller, such as the buffer
    of a cache.  [Region]: the data area of a protected region. *)
Inductive kind : Type := Heap | Foreign | Region.
#[export] Instance kind_eq_dec : EqDecision kind.
Proof. solve_decision. Defined.

(** A freed block stays in the map with the bytes it was freed with.  [secret]
    records that the block held a value while a length with the sensitive bit
    was kept for it. *)
Record block : Type := mkBlock { bk : kind; freed : bool; data : bytes; secret : bool }.

(** A pointer to the start of a block, or a string literal. *)
Inductive ptr : Type :=
| PBlock (a : Z)
| PLit (text : bytes).
#[export] Instance ptr_eq_dec : EqDecision ptr.
Proof. solve_decision. Defined.

Definition th8ProtectCanary : bytes := [0x77; 0x73; 0x5A; 0x9F; 0x68; 0xBF; 0x3B; 0x9B].
Definition th8ProtectedCanarySize : Z := zlen th8ProtectCanary.

(** The allocated structure, its page (the canary and then the data area) and
    the size of the page. *)
Record Th8_ProtectedRegion : Type := mkRegion {
  pRegion : Z; canary : bytes; pPageData : Z; nPageSize : Z
}.

Record results : Type := mkR {
  zResult : option ptr;
  nResult : Z;
  bResultBorrowed : bool;
  bResultBuildFailed : bool;
  pProtectedResult : option Th8_ProtectedRegion;
  mem : gmap Z block
}.

Definition set_result (z : option ptr) (n : Z) (s : results) : results :=
  mkR z n (bResultBorrowed s) (bResultBuildFailed s) (pProtectedResult s) (mem s).
Definition set_borrowed (b : bool) (s : results) : results :=
  mkR (zResult s) (nResult s) b (bResultBuildFailed s) (pProtectedResult s) (mem s).
Definition set_failed (s : results) : results :=
  mkR (zResult s) (nResult s) (bResultBorrowed s) true (pProtectedResult s) (mem s).
Definition set_region (p : option Th8_ProtectedRegion) (s : results) : results :=
  mkR (zResult s) (nResult s) (bResultBorrowed s) (bResultBuildFailed s) p (mem s).
Definition set_mem (m : gmap Z block) (s : results) : results :=
  mkR (zResult s) (nResult s) (bResultBorrowed s) (bResultBuildFailed s) (pProtectedResult s) m.

(** ** Memory accesses *)

Definition live (s : results) (a : Z) : res fault block :=
  match mem s !! a with
  | Some b => if freed b then Err UseAfterFree else Ok b
  | None => Err UseAfterFree
  end.

(** The bytes from a pointer to the end of its block. *)
Definition contents (s : results) (p : ptr) : res fault bytes :=
  match p with
  | PBlock a => let* b := live s a in Ok (data b)
  | PLit text => Ok (text ++ [0])
  end.

Definition read (s : results) (p : ptr) (n : Z) : res fault bytes :=
  let* d := contents s p in
  if zlen d <? n then Err OutOfBounds else Ok (take (Z.to_nat n) d).

Definition write (s : results) (a off : Z) (bs : bytes) : res fault results :=
  let* b := live s a in
  if zlen (data b) <? off + zlen bs then Err OutOfBounds
  else
    let d := take (Z.to_nat off) (data b) ++ bs ++ drop (Z.to_nat (off + zlen bs)) (data b) in
    Ok (set_mem (<[a := mkBlock (bk b) false d (secret b)]> (mem s)) s).

Definition Th8_Strlen (s : results) (p : ptr) : res fault Z :=
  let* d := contents s p in
  let n := span (λ c, negb (c =? 0)) d in
  if (n <? length d)%nat then Ok (Z.of_nat n) else Err OutOfBounds.

(** [Th8_Memcpy] into a block; a NULL source copies nothing. *)
Definition Th8_Memcpy (s : results) (a : Z) (p : option ptr) (n : Z) : res fault results :=
  match p with
  | Some p => if n =? 0 then Ok s else let* bs := read s p n in write s a 0 bs
  | None => Ok s
  end.

Definition Th8_SecureZero (s : results) (p : option ptr) (n : Z) : res fault results :=
  match p with
  | Some (PBlock a) => if n =? 0 then Ok s else write s a 0 (replicate (Z.to_nat n) 0)
  | Some (PLit _) => if n =? 0 then Ok s else Err OutOfBounds
  | None => Ok s
  end.

Definition Th8_Free (s : results) (p : option ptr) : res fault results :=
  match p with
  | None => Ok s
  | Some (PLit _) => Err BadFree
  | Some (PBlock a) =>
      match mem s !! a with
      | Some (mkBlock Heap false d x) => Ok (set_mem (<[a := mkBlock Heap true d x]> (mem s)) s)
      | _ => Err BadFree
      end
  end.

(** A new block; [reply] is the platform's answer, NULL or the bytes that
    happen to be in the memory. *)
Definition alloc (reply : option bytes) (nByte : Z) (s : results) : option Z * results :=
  match reply with
  | Some junk =>
      if TH8_MX_ALLOC <? nByte then (None, s)
      else
        let a := fresh (dom (mem s)) in
        (Some a, set_mem (<[a := mkBlock Heap false (resize (Z.to_nat nByte) 0 junk) false]> (mem s)) s)
  | None => (None, s)
  end.

Definition TH8_ALLOC_STR (reply : option bytes) (nLen : Z) (s : results) : option Z * results :=
  alloc reply (nLen + 1) s.

(** The length [n] is kept for the value at [p]. *)
Definition note (p : option ptr) (n : Z) (s : results) : results :=
  match p with
  | Some (PBlock a) =>
      match mem s !! a with
      | Some b => if TH8_SENSITIVE n
                  then set_mem (<[a := mkBlock (bk b) (freed b) (data b) true]> (mem s)) s
                  else s
      | None => s
      end
  | _ => s
  end.

(** ** The operations *)

Definition TH8_NOLEN : Z := SIZE_MAX.
Definition TH8_ADD_SENSITIVE (n : Z) : Z := Z.lor n TH8_SENSITIVE_BIT.

(** The raw length and the tags of a length argument. *)
Definition split_length (s : results) (z : ptr) (n : Z) : res fault (Z * Z) :=
  if n =? TH8_NOLEN then let* nRaw := Th8_Strlen s z in Ok (nRaw, 0)
  else Ok (TH8_LEN n, Z.land n TH8_TAG_BITS).

Definition th8ReleaseOldResult (s : results) : res fault results :=
  match TH8_SENSITIVE (nResult s) && bResultBorrowed s, pProtectedResult s, zResult s with
  | true, Some pPR, Some _ =>
      let* s :=
        if th8ProtectedCanarySize <=? nPageSize pPR
        then Th8_SecureZero s (Some (PBlock (pPageData pPR))) (nPageSize pPR - th8ProtectedCanarySize)
        else Ok s in
      Ok (set_borrowed false s)
  | _, _, _ =>
      if bResultBorrowed s then Ok (set_borrowed false s)
      else
        let* s := if TH8_SENSITIVE (nResult s)
                  then Th8_SecureZero s (zResult s) (TH8_LEN (nResult s) + 1) else Ok s in
        Th8_Free s (zResult s)
  end.

Definition Th8_ClearResult (s : results) : res fault results :=
  let* s := th8ReleaseOldResult s in Ok (set_result None 0 s).

(** A copy of [n] bytes with a NUL in a block of its own. *)
Definition copy_string (reply : option bytes) (z : option ptr) (nRaw : Z) (s : results)
    : res fault (option Z * results) :=
  let '(a, s) := TH8_ALLOC_STR reply nRaw s in
  match a with
  | Some a =>
      let* s := Th8_Memcpy s a z nRaw in
      let* s := write s a nRaw [0] in
      Ok (Some a, s)
  | None => Ok (None, s)
  end.

Definition Th8_SetResult (reply : option bytes) (s : results) (z : option ptr) (n : Z)
    : res fault (Z * results) :=
  let* s := Th8_ClearResult s in
  match z with
  | None => Ok (TH8_OK, s)
  | Some p =>
      let* (nRaw, nTag) := split_length s p n in
      let* (a, s) := copy_string reply z nRaw s in
      match a with
      | Some a =>
          let n := Z.lor nRaw nTag in
          Ok (TH8_OK, note (Some (PBlock a)) n (set_result (Some (PBlock a)) n s))
      | None => Ok (TH8_ERROR, set_failed s)
      end
  end.

(** Th8_SetResultStatic and th8SetResultBorrowed: the pointer is kept. *)
Definition th8SetResultBorrowed (s : results) (z : ptr) (n : Z) : res fault results :=
  let* s := th8ReleaseOldResult s in
  let* (nRaw, nTag) := split_length s z n in
  Ok (set_borrowed true (set_result (Some z) (Z.lor nRaw nTag) s)).

Definition Th8_SetResultStatic (s : results) (z : option ptr) (n : Z) : res fault results :=
  match z with
  | Some z => th8SetResultBorrowed s z n
  | None => Th8_ClearResult s
  end.

Definition set_static (s : results) (text : string) : res fault results :=
  Th8_SetResultStatic s (Some (PLit (bytes_of_string text))) TH8_NOLEN.

Definition Th8_GetResult (s : results) : ptr * Z := (default (PLit []) (zResult s), nResult s).

(** The pointer (NULL when there is no memory for a copy) and [*pN]. *)
Definition Th8_TakeResult (reply : option bytes) (s : results) : res fault (option ptr * Z * results) :=
  if TH8_SENSITIVE (nResult s) then
    let* s := set_static s "sensitive result cannot be detached (use Th8_GetResult and consume in place)" in
    Ok (None, 0, s)
  else
    let n := nResult s in
    if bResultBorrowed s then
      let* (a, s) := copy_string reply (zResult s) (TH8_LEN n) s in
      Ok (PBlock <$> a, n, set_result None 0 (set_borrowed false s))
    else Ok (zResult s, n, set_result None 0 s).

Definition th8TakeResultInternal (reply : option bytes) (s : results)
    : res fault (option ptr * Z * results) :=
  if TH8_SENSITIVE (nResult s) then
    let '(z, n) := Th8_GetResult s in
    let* (a, s) := copy_string reply (Some z) (TH8_LEN n) s in
    let s := note (PBlock <$> a) n s in
    let* s := Th8_ClearResult s in
    Ok (PBlock <$> a, n, s)
  else Th8_TakeResult reply s.

Definition th8FreeSensitive (s : results) (z : option ptr) (nTagged : Z) : res fault results :=
  let* s := if TH8_SENSITIVE nTagged then Th8_SecureZero s z (TH8_LEN nTagged + 1) else Ok s in
  Th8_Free s z.

(** The bytes become secret, when they are the interpreter's own. *)
Definition Th8_MarkResultSensitive (s : results) : results :=
  let n := TH8_ADD_SENSITIVE (nResult s) in
  let s' := set_result (zResult s) n s in
  if bResultBorrowed s then s' else note (zResult s) n s'.

Definition Th8_IsResultSensitive (s : results) : bool := TH8_SENSITIVE (nResult s).

(** How Th8_ErrorMessage built its text: it did, or an append failed. *)
Inductive built : Type := Built | TooLong | NoMemory.

(** The text of an error with a detail; a sensitive detail is withheld. *)
Definition detail (z : bytes) (n : Z) : bytes * Z :=
  if negb (n =? TH8_NOLEN) && TH8_SENSITIVE n then (bytes_of_string "<sensitive value withheld>", 0)
  else if n =? TH8_NOLEN then (take (span (λ c, negb (c =? 0)) z) z, 0)
  else (take (Z.to_nat (TH8_LEN n)) z, Z.land n TH8_TAG_BITS).

Definition error_text (zPre z : bytes) (n : Z) : bytes * Z :=
  let '(d, nTag) := detail z n in
  let text :=
    match last zPre with
    | Some c => if c =? DQUOTE then zPre ++ d ++ [DQUOTE]
                else if c =? (" ")%ch then zPre ++ d else zPre ++ [(" ")%ch] ++ d
    | None => [(" ")%ch] ++ d
    end in
  (text, nTag).

(** Th8_ErrorMessage, but for the ::errorInfo variable, which it clears.  Its
    own buffer is released at the end. *)
Definition Th8_ErrorMessage (how : built) (reply : option bytes) (s : results)
    (zPre z : bytes) (n : Z) : res fault (Z * results) :=
  match how with
  | Built =>
      let '(text, nTag) := error_text zPre z n in
      let* (_, s) := Th8_SetResult reply s (Some (PLit text)) (Z.lor (zlen text) nTag) in
      Ok (TH8_ERROR, s)
  | TooLong =>
      let* (_, s) := Th8_SetResult reply s
        (Some (PLit (bytes_of_string "result size limit exceeded"))) TH8_NOLEN in
      Ok (TH8_ERROR, s)
  | NoMemory => let* s := set_static s "out of memory" in Ok (TH8_ERROR, set_failed s)
  end.

(** ** The protected region *)

(** On a page of [n] bytes, NULL when the system has none; the page is zero. *)
Definition th8ProtectedAlloc (page : option Z) (a : Z) (s : results)
    : option Th8_ProtectedRegion * results :=
  match page with
  | Some n =>
      let d := fresh (dom (mem s)) in
      (Some (mkRegion a th8ProtectCanary d n),
       set_mem (<[d := mkBlock Region false (replicate (Z.to_nat (n - th8ProtectedCanarySize)) 0) false]>
                  (mem s)) s)
  | None => (None, s)
  end.

Definition th8ProtectedCheckCanary (reply : option bytes) (s : results) (pPR : Th8_ProtectedRegion)
    : res fault (bool * results) :=
  if bool_decide (canary pPR = th8ProtectCanary) then Ok (true, s)
  else
    let* (_, s) := Th8_SetResult reply s
      (Some (PLit (bytes_of_string "protected region: canary corrupted (possible buffer overflow)")))
      TH8_NOLEN in
    Ok (false, s).

Definition sizeof_region : Z := 32.

Definition th8GetProtectedResultRegion (reply : option bytes) (page : option Z) (s : results)
    : res fault (option Th8_ProtectedRegion * results) :=
  match pProtectedResult s with
  | Some pPR => Ok (Some pPR, s)
  | None =>
      let '(a, s) := alloc reply sizeof_region s in
      match a with
      | None =>
          let* s := set_static s "out of memory (protected result region)" in Ok (None, s)
      | Some a =>
          let '(pPR, s) := th8ProtectedAlloc page a s in
          match pPR with
          | None =>
              let* s := Th8_Free s (Some (PBlock a)) in
              let* s := set_static s "cannot allocate protected memory for result" in
              Ok (None, s)
          | Some pPR => Ok (Some pPR, set_region (Some pPR) s)
          end
      end
  end.

Definition th8FinalizeSensitiveResult (s : results) (nLen : Z) : res fault (Z * results) :=
  match pProtectedResult s with
  | None => Ok (TH8_ERROR, s)
  | Some pPR =>
      let* s := write s (pPageData pPR) (TH8_LEN nLen) [0] in
      Ok (TH8_OK, set_borrowed true (set_result (Some (PBlock (pPageData pPR))) (TH8_ADD_SENSITIVE nLen) s))
  end.

(** A static message and TH8_ERROR. *)
Definition refuse (s : results) (text : string) : res fault (Z * results) :=
  let* s := set_static s text in Ok (TH8_ERROR, s).

Definition Th8_SetResultSensitive (reply : option bytes) (page : option Z) (s : results)
    (z : option ptr) (n : Z) : res fault (Z * results) :=
  let* (pPR, s) := th8GetProtectedResultRegion reply page s in
  match pPR with
  | None => Ok (TH8_ERROR, s)
  | Some pPR =>
      let* (ok, s) := th8ProtectedCheckCanary reply s pPR in
      if negb ok then Ok (TH8_ERROR, s)
      else
        let nUsable := nPageSize pPR in
        if nUsable <? th8ProtectedCanarySize then refuse s "protected region too small for canary"
        else
          let nUsable := nUsable - th8ProtectedCanarySize in
          let* (n, nTag) := match z with
                             | Some p => split_length s p n
                             | None => if n =? TH8_NOLEN then Ok (0, 0)
                                       else Ok (TH8_LEN n, Z.land n TH8_TAG_BITS)
                             end in
          if (SIZE_MAX <? n + 1) || (nUsable <? n + 1) then
            refuse s "sensitive result exceeds protected region capacity"
          else
            let* s := Th8_ClearResult s in
            let* s := Th8_Memcpy s (pPageData pPR) z n in
            th8FinalizeSensitiveResult s (Z.lor n nTag)
  end.

(** What the cryptographic library answers to a decryption of [nCipher] bytes:
    a step before the first output fails, a later step fails after some output,
    or all the output is there and authentic. *)
Inductive evp : Type :=
| EvpSetup (text : string)
| EvpLate (out : bytes) (text : string)
| EvpDone (out : bytes).

(** The padding test at the end of th8SecureDecrypt: the number of bytes that
    stay.  The last comparison is with the length as an unsigned char. *)
Definition TH8_SECURE_PAD_BLOCK : Z := 64.
Definition strip_padding (out : bytes) : Z :=
  let outLen := zlen out in
  match last out with
  | None => 0
  | Some padVal =>
      let padMask := fold_left Z.lor
        (map (Z.lxor padVal) (take (Z.to_nat padVal) (rev out))) 0 in
      if (padMask =? 0) && (0 <? padVal) && (padVal <=? TH8_SECURE_PAD_BLOCK) &&
         (padVal <=? outLen mod 256)
      then outLen - padVal else outLen
  end.

(** th8SecureDecrypt; [keys_ok]: the canary of the key page is intact. *)
Definition th8SecureDecrypt (reply : option bytes) (s : results) (keys_ok : bool)
    (pDest : Th8_ProtectedRegion) (nCipher : Z) (answer : evp) : res fault (Z * Z * results) :=
  let fail s text := let* s := set_static s text in Ok (TH8_ERROR, 0, s) in
  if negb keys_ok then
    fail s "secure variable: key page canary corrupted (possible buffer overflow)"
  else
  let* (ok, s) := th8ProtectedCheckCanary reply s pDest in
  if negb ok then Ok (TH8_ERROR, 0, s)
  else
    let nUsable := nPageSize pDest in
    if nUsable <? th8ProtectedCanarySize then fail s "secure variable: protected region too small"
    else
      let nUsable := nUsable - th8ProtectedCanarySize in
      let wipe s := Th8_SecureZero s (Some (PBlock (pPageData pDest))) nUsable in
      if nCipher =? 0 then
        if nUsable <? 1 then fail s "secure variable: protected region too small"
        else let* s := write s (pPageData pDest) 0 [0] in Ok (TH8_OK, 0, s)
      else if nUsable <? nCipher + 1 then
        fail s "secure variable: ciphertext exceeds protected region capacity"
      else
        match answer with
        | EvpSetup text =>
            let* s := set_static s text in let* s := wipe s in Ok (TH8_ERROR, 0, s)
        | EvpLate out text =>
            let* s := write s (pPageData pDest) 0 out in
            let* s := set_static s text in let* s := wipe s in Ok (TH8_ERROR, 0, s)
        | EvpDone out =>
            let* s := write s (pPageData pDest) 0 out in
            let outLen := strip_padding out in
            let* s := write s (pPageData pDest) outLen [0] in
            Ok (TH8_OK, outLen, s)
        end.

(** The end of th8SecureGetVar: the decrypted value becomes the result. *)
Definition publish_decrypted (reply : option bytes) (page : option Z) (s : results)
    (keys_ok : bool) (nCipher : Z) (answer : evp) : res fault (Z * results) :=
  let* (pPR, s) := th8GetProtectedResultRegion reply page s in
  match pPR with
  | None => Ok (TH8_ERROR, s)
  | Some pPR =>
      let* s := Th8_ClearResult s in
      let* (rc, nPlain, s) := th8SecureDecrypt reply s keys_ok pPR nCipher answer in
      if negb (rc =? TH8_OK) then Ok (rc, s) else th8FinalizeSensitiveResult s nPlain
  end.

(** ** The host *)

(** The calls of commands and of the host, with the answers of the allocator.
    [CHost] calls act on memory of the host: a new block, new bytes in one, the
    end of one, a stray write over the canary of the protected region. *)
Inductive call : Type :=
| CSetResult (reply : option bytes) (z : option ptr) (n : Z)
| CSetResultStatic (z : option ptr) (n : Z)
| CSetResultBorrowed (z : ptr) (n : Z)
| CClearResult
| CTakeResult (reply : option bytes)
| CTakeResultInternal (reply : option bytes)
| CFreeTaken (a : Z)
| CMarkResultSensitive
| CErrorMessage (how : built) (reply : option bytes) (zPre z : bytes) (n : Z)
| CSetResultSensitive (reply : option bytes) (page : option Z) (z : option ptr) (n : Z)
| CPublishDecrypted (reply : option bytes) (page : option Z) (keys_ok : bool) (nCipher : Z) (answer : evp)
| CHostBlock (d : bytes)
| CHostWrite (a : Z) (d : bytes)
| CHostDrop (a : Z)
| CHostCorrupt (bs : bytes).

(** The interpreter, and what the host has taken and must free, with the tagged
    length it got. *)
Definition host : Type := (results * gmap Z Z)%type.

Definition keep (p : option ptr) (n : Z) (T : gmap Z Z) : gmap Z Z :=
  match p with Some (PBlock a) => <[a := n]> T | _ => T end.

Definition put_block (a : Z) (b : block) (s : results) : results := set_mem (<[a := b]> (mem s)) s.

Definition perform (c : call) (h : host) : res fault host :=
  let '(s, T) := h in
  match c with
  | CSetResult reply z n => let* (_, s) := Th8_SetResult reply s z n in Ok (s, T)
  | CSetResultStatic z n => let* s := Th8_SetResultStatic s z n in Ok (s, T)
  | CSetResultBorrowed z n => let* s := th8SetResultBorrowed s z n in Ok (s, T)
  | CClearResult => let* s := Th8_ClearResult s in Ok (s, T)
  | CTakeResult reply => let* (z, n, s) := Th8_TakeResult reply s in Ok (s, keep z n T)
  | CTakeResultInternal reply =>
      let* (z, n, s) := th8TakeResultInternal reply s in Ok (s, keep z n T)
  | CFreeTaken a =>
      let* s := th8FreeSensitive s (Some (PBlock a)) (default 0 (T !! a)) in Ok (s, delete a T)
  | CMarkResultSensitive => Ok (Th8_MarkResultSensitive s, T)
  | CErrorMessage how reply zPre z n =>
      let* (_, s) := Th8_ErrorMessage how reply s zPre z n in Ok (s, T)
  | CSetResultSensitive reply page z n =>
      let* (_, s) := Th8_SetResultSensitive reply page s z n in Ok (s, T)
  | CPublishDecrypted reply page keys_ok nCipher answer =>
      let* (_, s) := publish_decrypted reply page s keys_ok nCipher answer in Ok (s, T)
  | CHostBlock d => Ok (put_block (fresh (dom (mem s))) (mkBlock Foreign false d false) s, T)
  | CHostWrite a d => Ok (put_block a (mkBlock Foreign false d false) s, T)
  | CHostDrop a => Ok (put_block a (mkBlock Foreign true [] false) s, T)
  | CHostCorrupt bs =>
      Ok (set_region ((λ p, mkRegion (pRegion p) bs (pPageData p) (nPageSize p)) <$> pProtectedResult s) s, T)
  end.

(** ** The contract of the host *)

(** A string argument: a literal, live memory of the host or a block it has
    taken, long enough for its length.  The current result is not one. *)
Definition readable (h : host) (z : ptr) (n : Z) : bool :=
  let '(s, T) := h in
  match z with
  | PLit text => (n =? TH8_NOLEN) || (TH8_LEN n <=? zlen text)
  | PBlock a =>
      match mem s !! a with
      | Some (mkBlock k false d _) =>
          (bool_decide (k = Foreign) || bool_decide (a ∈ dom T)) &&
          (if n =? TH8_NOLEN then bool_decide (0 ∈ d) else TH8_LEN n <=? zlen d)
      | _ => false
      end
  end.

Definition readable_opt (h : host) (z : option ptr) (n : Z) : bool :=
  match z with Some z => readable h z n | None => true end.

Definition result_is (s : results) (a : Z) : bool := bool_decide (zResult s = Some (PBlock a)).

Definition foreign (s : results) (a len : Z) : bool :=
  match mem s !! a with
  | Some (mkBlock Foreign false d _) => zlen d =? len
  | _ => false
  end.

Definition page_ok (page : option Z) : bool :=
  match page with Some n => th8ProtectedCanarySize <=? n | None => true end.

(** AES-GCM gives as many bytes as it gets. *)
Definition evp_ok (nCipher : Z) (answer : evp) : bool :=
  match answer with
  | EvpSetup _ => true
  | EvpLate out _ => zlen out <=? nCipher
  | EvpDone out => zlen out =? nCipher
  end.

Definition allowed (c : call) (h : host) : bool :=
  let '(s, T) := h in
  match c with
  | CSetResult _ z n | CSetResultStatic z n => readable_opt h z n
  | CSetResultBorrowed z n => readable h z n
  | CFreeTaken a => bool_decide (a ∈ dom T) && negb (result_is s a)
  | CErrorMessage _ _ _ z n => (n =? TH8_NOLEN) || (TH8_LEN n <=? zlen z)
  | CSetResultSensitive _ page z n => page_ok page && readable_opt h z n
  | CPublishDecrypted _ page _ nCipher answer => page_ok page && evp_ok nCipher answer
  | CHostWrite a d => foreign s a (zlen d)
  | CHostDrop a =>
      negb (result_is s a) &&
      match mem s !! a with Some (mkBlock Foreign false _ _) => true | _ => false end
  | _ => true
  end.

Fixpoint play (cs : list call) (h : host) : res fault host :=
  match cs with
  | [] => Ok h
  | c :: cs => let* h := perform c h in play cs h
  end.

(** Every call is made within the contract. *)
Fixpoint fair (cs : list call) (h : host) : bool :=
  match cs with
  | [] => true
  | c :: cs =>
      allowed c h && match perform c h with Ok h => fair cs h | Err _ => true end
  end.

Definition start : host := (mkR None 0 false false None ∅, ∅).

(** ** Runs *)

Example take_what_was_set :
  let cs := [CSetResult (Some []) (Some (PLit (bytes_of_string "abc"))) TH8_NOLEN; CTakeResult None] in
  fair cs start = true ∧
  match play cs start with
  | Ok (s, T) => zResult s = None ∧ map_to_list T = [(0, 3)] ∧
                 data <$> mem s !! 0 = Some (bytes_of_string "abc" ++ [0])
  | Err _ => False
  end.
Proof. vm_compute. done. Qed.

(** Setting the result to itself reads the block that was just freed. *)
Example set_own_result :
  match play [CSetResult (Some []) (Some (PLit (bytes_of_string "abc"))) TH8_NOLEN] start with
  | Ok h => let '(z, n) := Th8_GetResult (fst h) in
            Th8_SetResult (Some []) (fst h) (Some z) n = Err UseAfterFree
  | Err _ => False
  end.
Proof. vm_compute. done. Qed.

(** ** Proofs *)

(** The computation does not fault, and its outcome has the property. *)
Definition yields {A} (m : res fault A) (P : A → Prop) : Prop :=
  match m with Ok a => P a | Err _ => False end.

Lemma yields_bind {A B} (m : res fault A) (k : A → res fault B) (P : A → Prop) (Q : B → Prop) :
  yields m P → (∀ a, P a → yields (k a) Q) → yields (res_bind m k) Q.
Proof. destruct m; simpl; [eauto|done]. Qed.

Lemma yields_mono {A} (m : res fault A) (P Q : A → Prop) :
  yields m P → (∀ a, P a → Q a) → yields m Q.
Proof. destruct m; simpl; eauto. Qed.

(** The live heap blocks are exactly those of a list of addresses with their
    tagged lengths; each has room for its bytes and the NUL, is secret only if
    its length says so, and secrets that were freed are zero. *)
Record heap_ok (m : gmap Z block) (l : list (Z * Z)) : Prop := {
  ho_nodup : NoDup l.*1;
  ho_in : ∀ a n, (a, n) ∈ l → ∃ d x,
    m !! a = Some (mkBlock Heap false d x) ∧ zlen d = TH8_LEN n + 1 ∧
    (x = true → TH8_SENSITIVE n = true);
  ho_all : ∀ a d x, m !! a = Some (mkBlock Heap false d x) → a ∈ l.*1;
  ho_zero : ∀ a k d, m !! a = Some (mkBlock k true d true) → Forall (eq 0) d
}.

Definition region_list (p : option Th8_ProtectedRegion) : list (Z * Z) :=
  match p with Some p => [(pRegion p, sizeof_region - 1)] | None => [] end.

(** What the interpreter keeps whatever the result is, and the host's. *)
Definition rest (s : results) (T : gmap Z Z) : list (Z * Z) :=
  region_list (pProtectedResult s) ++ map_to_list T.

Definition result_list (s : results) : list (Z * Z) :=
  match zResult s with
  | Some (PBlock a) => if bResultBorrowed s then [] else [(a, nResult s)]
  | _ => []
  end.

Definition in_region (s : results) : bool :=
  match zResult s, pProtectedResult s with
  | Some (PBlock a), Some p => a =? pPageData p
  | _, _ => false
  end.

Definition region_ok (s : results) (zero : Prop) : Prop :=
  match pProtectedResult s with
  | Some p =>
      th8ProtectedCanarySize <= nPageSize p ∧ ∃ d x,
        mem s !! pPageData p = Some (mkBlock Region false d x) ∧
        zlen d = nPageSize p - th8ProtectedCanarySize ∧ (zero → Forall (eq 0) d)
  | None => True
  end.

(** No result is held. *)
Record vacant (s : results) (T : gmap Z Z) : Prop := {
  va_heap : heap_ok (mem s) (rest s T);
  va_region : region_ok s True;
  va_borrowed : bResultBorrowed s = false
}.

(** The value of the result can be read. *)
Definition result_ok (s : results) : Prop :=
  match zResult s with
  | None => bResultBorrowed s = false ∧ TH8_LEN (nResult s) = 0
  | Some z =>
      (∃ d, contents s z = Ok d ∧ TH8_LEN (nResult s) <= zlen d) ∧
      (bResultBorrowed s = false → ∃ a, z = PBlock a)
  end.

Record held (s : results) (T : gmap Z Z) : Prop := {
  he_heap : heap_ok (mem s) (result_list s ++ rest s T);
  he_region : region_ok s (in_region s = false);
  he_result : result_ok s;
  he_inside : in_region s = true → bResultBorrowed s = true ∧ TH8_SENSITIVE (nResult s) = true
}.

(** *** Blocks *)

Lemma live_ok s a k d x : mem s !! a = Some (mkBlock k false d x) → live s a = Ok (mkBlock k false d x).
Proof. unfold live. by intros ->. Qed.

Lemma write_ok s a k d x off bs :
  mem s !! a = Some (mkBlock k false d x) → 0 <= off → off + zlen bs <= zlen d →
  write s a off bs = Ok (put_block a (mkBlock k false
    (take (Z.to_nat off) d ++ bs ++ drop (Z.to_nat (off + zlen bs)) d) x) s).
Proof.
  intros Ha Ho Hl. unfold write. rewrite (live_ok _ _ _ _ _ Ha). simpl.
  rewrite (proj2 (Z.ltb_ge _ _)) by lia. done.
Qed.

Lemma splice_length (d bs : bytes) off :
  0 <= off → off + zlen bs <= zlen d →
  zlen (take (Z.to_nat off) d ++ bs ++ drop (Z.to_nat (off + zlen bs)) d) = zlen d.
Proof. unfold zlen. rewrite !length_app, length_take, length_drop. lia. Qed.

Lemma zero_ok s a k d x n :
  mem s !! a = Some (mkBlock k false d x) → n = zlen d →
  Th8_SecureZero s (Some (PBlock a)) n = Ok (put_block a (mkBlock k false (replicate (length d) 0) x) s).
Proof.
  intros Ha ->. unfold Th8_SecureZero. case_if; bool_to_prop.
  - destruct d; [|unfold zlen in *; simpl in *; lia]. unfold put_block.
    rewrite insert_id by done. by destruct s.
  - assert (zlen (replicate (Z.to_nat (zlen d)) 0) = zlen d).
    { unfold zlen. rewrite length_replicate. lia. }
    rewrite (write_ok _ _ _ _ _ _ _ Ha) by lia. rewrite H, Z.add_0_l.
    unfold zlen. rewrite Nat2Z.id, drop_all, app_nil_r. done.
Qed.

Lemma heap_perm m l l' : heap_ok m l → l ≡ₚ l' → heap_ok m l'.
Proof. intros [] Hp. split; intros; rewrite <- ?Hp in *; eauto. Qed.

(** A change to a live block that is not of the heap. *)
Lemma heap_other m l a k b :
  heap_ok m l → k ≠ Heap → (∀ d x, m !! a ≠ Some (mkBlock Heap false d x)) →
  bk b = k → (freed b = true → secret b = true → Forall (eq 0) (data b)) →
  heap_ok (<[a := b]> m) l.
Proof.
  intros [Hn Hi Hl Hz] Hk Ha Hb Hf. split; [done|..].
  - intros a' n Hin. destruct (Hi a' n Hin) as (d & x & H1 & H2).
    exists d, x. rewrite lookup_insert_ne; [done|]. intros ->. by eapply Ha.
  - intros a' d x. rewrite lookup_insert. case_decide; [subst|eauto]. intros [= ->]. done.
  - intros a' k' d. rewrite lookup_insert. case_decide; [subst|eauto]. intros [= ->]. by apply Hf.
Qed.

Lemma heap_new m l a n d x :
  heap_ok m l → m !! a = None → zlen d = TH8_LEN n + 1 → (x = true → TH8_SENSITIVE n = true) →
  heap_ok (<[a := mkBlock Heap false d x]> m) ((a, n) :: l).
Proof.
  intros [Hn Hi Hl Hz] Ha Hd Hx.
  assert (Hfresh : a ∉ l.*1).
  { intros (p & -> & Hp)%list_elem_of_fmap. destruct p as [a' n'].
    destruct (Hi a' n' Hp) as (? & ? & H & _). simpl in *. congruence. }
  split.
  - simpl. by constructor.
  - intros a' n'. rewrite elem_of_cons. intros [[= -> ->]|Hin].
    + exists d, x. by rewrite lookup_insert_eq.
    + destruct (Hi _ _ Hin) as (d' & x' & H & Hr). exists d', x'.
      rewrite lookup_insert_ne; [done|]. intros ->. congruence.
  - intros a' d' x'. rewrite lookup_insert. simpl. case_decide; [subst; left|right; eauto].
  - intros a' k d'. rewrite lookup_insert. case_decide; [done|eauto].
Qed.

Lemma heap_freed m l a n d x :
  heap_ok m ((a, n) :: l) → (x = true → Forall (eq 0) d) →
  heap_ok (<[a := mkBlock Heap true d x]> m) l.
Proof.
  intros [Hn Hi Hl Hz] Hx. simpl in Hn. apply NoDup_cons in Hn as [Ha Hn]. split; [done|..].
  - intros a' n' Hin. destruct (Hi a' n') as (d' & x' & H & Hr); [by right|]. exists d', x'.
    rewrite lookup_insert_ne; [done|]. intros ->. apply Ha. by apply (list_elem_of_fmap_2 fst) in Hin.
  - intros a' d' x'. rewrite lookup_insert. case_decide; [done|]. intros Hin%Hl.
    by apply elem_of_cons in Hin as [->|Hin].
  - intros a' k d'. rewrite lookup_insert. case_decide; [|eauto]. intros [= <- <- ->]. by apply Hx.
Qed.

(** Other bytes, and the mark of a secret, in a block of the list. *)
Lemma heap_update m l a n d x :
  heap_ok m ((a, n) :: l) → ∀ n' d' x', m !! a = Some (mkBlock Heap false d x) →
  zlen d' = TH8_LEN n' + 1 → (x' = true → TH8_SENSITIVE n' = true) →
  heap_ok (<[a := mkBlock Heap false d' x']> m) ((a, n') :: l).
Proof.
  intros [Hn Hi Hl Hz] n' d' x' Ha Hd Hx. simpl in *. pose proof Hn as [Hna _]%NoDup_cons.
  split; [done|..].
  - intros a' n2. rewrite elem_of_cons. intros [[= -> ->]|Hin].
    + exists d', x'. by rewrite lookup_insert_eq.
    + destruct (Hi a' n2) as (d2 & x2 & H & Hr); [by right|]. exists d2, x2.
      rewrite lookup_insert_ne; [done|]. intros ->. apply Hna. by apply (list_elem_of_fmap_2 fst) in Hin.
  - intros a' d2 x2. rewrite lookup_insert. case_decide; [subst; left|eauto].
  - intros a' k d2. rewrite lookup_insert. case_decide; [done|eauto].
Qed.

(** *** Sources *)

(** The memory of the host, and what it has taken, is as it was. *)
Definition sources (T : gmap Z Z) (s s' : results) : Prop :=
  ∀ a k d x, mem s !! a = Some (mkBlock k false d x) → k = Foreign ∨ a ∈ dom T →
    ∃ x', mem s' !! a = Some (mkBlock k false d x').

Lemma sources_same T s s' : mem s' = mem s → sources T s s'.
Proof. intros Hm a k d x H _. rewrite Hm. eauto. Qed.

Lemma sources_trans T s1 s2 s3 : sources T s1 s2 → sources T s2 s3 → sources T s1 s3.
Proof. intros H12 H23 a k d x Ha Hk. destruct (H12 a k d x Ha Hk) as [x' H']. eauto. Qed.

Lemma sources_put T s a b :
  (∀ k d x, mem s !! a = Some (mkBlock k false d x) → k ≠ Foreign ∧ a ∉ dom T) →
  sources T s (put_block a b s).
Proof.
  intros Ha a' k d x Hs Hk. simpl. rewrite lookup_insert. case_decide; [subst|by eauto].
  destruct (Ha k d x Hs). naive_solver.
Qed.

(** What an argument gives: its bytes, and its raw length and tags. *)
Definition argument (s : results) (z : ptr) (n : Z) (d : bytes) (nRaw nTag : Z) : Prop :=
  contents s z = Ok d ∧ split_length s z n = Ok (nRaw, nTag) ∧ 0 <= nRaw <= zlen d ∧
  nTag = if n =? TH8_NOLEN then 0 else tag_of n.

Lemma LEN_nonneg n : 0 <= TH8_LEN n.
Proof. apply TH8_LEN_range. Qed.

Lemma span_before (d : bytes) : 0 ∈ d → (span (λ c, negb (c =? 0)%Z) d < length d)%nat.
Proof.
  induction d as [|c d IH]; [by intros ?%elem_of_nil|]. rewrite elem_of_cons. simpl.
  case_if; [|lia]. bool_to_prop. intros [<-|Hd]; [done|]. specialize (IH Hd). lia.
Qed.

Lemma strlen_ok s z d : contents s z = Ok d → 0 ∈ d →
  ∃ n, Th8_Strlen s z = Ok n ∧ 0 <= n <= zlen d.
Proof.
  intros Hd H0. unfold Th8_Strlen. rewrite Hd. simpl. pose proof (span_before d H0).
  rewrite (proj2 (Nat.ltb_lt _ _)) by done. eexists; split; [done|]. unfold zlen. lia.
Qed.

Lemma read_argument s T z n : readable (s, T) z n = true →
  ∃ d nRaw nTag, argument s z n d nRaw nTag.
Proof.
  intros Hr.
  assert (∃ d, contents s z = Ok d ∧ (n = TH8_NOLEN → 0 ∈ d) ∧ (n ≠ TH8_NOLEN → TH8_LEN n <= zlen d))
    as (d & Hd & H0 & Hn).
  { destruct z as [a|text]; simpl in Hr |- *.
    - destruct (mem s !! a) as [[k [] d x]|] eqn:E; try done. exists d.
      rewrite (live_ok _ _ _ _ _ E). apply andb_true_iff in Hr as [_ Hr].
      case_if_in Hr; bool_to_prop; [apply bool_decide_eq_true in Hr|]; naive_solver lia.
    - exists (text ++ [0]). split; [done|]. rewrite zlen_app. apply orb_true_iff in Hr.
      split; [intros _; set_solver|intros ?; destruct Hr; bool_to_prop; [done|]].
      unfold zlen at 2. simpl. lia. }
  exists d. unfold argument, split_length. case_if; bool_to_prop.
  - destruct (strlen_ok s z d Hd ltac:(by apply H0)) as (m & -> & Hm). by exists m, 0.
  - pose proof (LEN_nonneg n). exists (TH8_LEN n), (tag_of n). split_and!; auto; lia.
Qed.

Lemma argument_sources s s' T z n d nRaw nTag :
  readable (s, T) z n = true → sources T s s' → argument s z n d nRaw nTag →
  argument s' z n d nRaw nTag.
Proof.
  intros Hr Hs (Hd & Hl & H). unfold argument, split_length, Th8_Strlen in *.
  assert (contents s' z = contents s z) as ->; [|by rewrite Hd in *].
  destruct z as [a|text]; [|done]. simpl in *.
  destruct (mem s !! a) as [[k [] d' x]|] eqn:E; try done.
  apply andb_true_iff in Hr as [Hk _]. apply orb_true_iff in Hk.
  rewrite !bool_decide_eq_true in Hk. destruct (Hs a k d' x E Hk) as [x' E'].
  by rewrite (live_ok _ _ _ _ _ E), (live_ok _ _ _ _ _ E').
Qed.

(** *** Releasing the old result *)

Lemma rest_in T a n s : T !! a = Some n → (a, n) ∈ rest s T.
Proof. intros H. unfold rest. apply elem_of_app. right. by apply elem_of_map_to_list. Qed.

Lemma heap_owned s T l a k d x : heap_ok (mem s) (l ++ rest s T) → mem s !! a = Some (mkBlock k false d x) →
  k ≠ Heap → a ∉ dom T.
Proof.
  intros [_ Hi _ _] Ha Hk [n Hn]%elem_of_dom.
  destruct (Hi a n) as (d' & x' & H & _); [apply elem_of_app; right; by apply rest_in|]. congruence.
Qed.

Lemma vacant_zeroed s T p d x l :
  heap_ok (mem s) (l ++ rest s T) → pProtectedResult s = Some p →
  mem s !! pPageData p = Some (mkBlock Region false d x) →
  sources T s (put_block (pPageData p) (mkBlock Region false (replicate (length d) 0) x) s) ∧
  heap_ok (<[pPageData p := mkBlock Region false (replicate (length d) 0) x]> (mem s)) (l ++ rest s T).
Proof.
  intros Hh Hp Hd. split.
  - apply sources_put. intros k' d' x' H. rewrite Hd in H. injection H as <- <- <-.
    split; [done|]. by eapply heap_owned.
  - apply (heap_other _ _ _ Region); try done. intros ??. by rewrite Hd.
Qed.

Lemma release_region s T p : held s T → pProtectedResult s = Some p →
  bResultBorrowed s = true →
  yields (let* s := if th8ProtectedCanarySize <=? nPageSize p
                    then Th8_SecureZero s (Some (PBlock (pPageData p))) (nPageSize p - th8ProtectedCanarySize)
                    else Ok s in Ok (set_borrowed false s))
    (λ s', vacant s' T ∧ pProtectedResult s' = pProtectedResult s ∧ sources T s s').
Proof.
  intros [Hh Hr _ _] Hp Hb. unfold region_ok in Hr. rewrite Hp in Hr.
  destruct Hr as (Hsz & d & x & Hd & Hl & _). rewrite (proj2 (Z.leb_le _ _)) by done.
  rewrite (zero_ok _ _ _ _ _ _ Hd) by done. simpl.
  destruct (vacant_zeroed s T p d x (result_list s) Hh Hp Hd) as [Hs Hz].
  assert (result_list s = []) as Hl0.
  { unfold result_list. rewrite Hb. by destruct (zResult s) as [[]|]. }
  rewrite Hl0 in Hz. split_and!; [|done|done]. split; simpl; [done| |done].
  unfold region_ok. simpl. rewrite Hp. split; [done|]. eexists _, _. rewrite lookup_insert_eq.
  split; [done|]. split; [|intros _; by apply Forall_replicate].
  unfold zlen in *. by rewrite length_replicate.
Qed.

Lemma release_owned s T a : held s T → zResult s = Some (PBlock a) → bResultBorrowed s = false →
  yields (let* s := if TH8_SENSITIVE (nResult s)
                    then Th8_SecureZero s (zResult s) (TH8_LEN (nResult s) + 1) else Ok s in
          Th8_Free s (zResult s))
    (λ s', vacant s' T ∧ pProtectedResult s' = pProtectedResult s ∧ sources T s s').
Proof.
  intros [Hh Hr _ Hi] Hz Hb. assert (result_list s = [(a, nResult s)]) as Hl.
  { unfold result_list. by rewrite Hz, Hb. }
  rewrite Hl in Hh. destruct (ho_in _ _ Hh a (nResult s)) as (d & x & Ha & Hd & Hx); [by left|].
  assert (in_region s = false) as Hin.
  { destruct (in_region s); [|done]. destruct Hi; [done|congruence]. }
  assert (Hne : ∀ p, pProtectedResult s = Some p → pPageData p ≠ a).
  { intros p Hp <-. unfold in_region in Hin. rewrite Hz, Hp, Z.eqb_refl in Hin. done. }
  assert (Hfin : ∀ d', (x = true → Forall (eq 0) d') →
    let s' := put_block a (mkBlock Heap true d' x) s in
    vacant s' T ∧ pProtectedResult s' = pProtectedResult s ∧ sources T s s').
  { intros d' Hd' s'. split_and!; [|done|].
    - split; [by eapply heap_freed| |done]. unfold region_ok in *. simpl.
      destruct (pProtectedResult s) as [p|] eqn:Hp; [|done]. destruct Hr as (H1 & d2 & x2 & H2 & H3 & H4).
      split; [done|]. exists d2, x2. rewrite lookup_insert_ne by (intros E; by apply (Hne p)). auto.
    - apply sources_put. intros k d2 x2 H. rewrite Ha in H. injection H as <- <- <-. split; [done|].
      intros [n Hn]%elem_of_dom. destruct Hh as [Hn1 _ _ _]. simpl in Hn1.
      apply NoDup_cons in Hn1 as [Hn1 _]. apply Hn1, (list_elem_of_fmap_2 fst _ (a, n)). by apply rest_in. }
  rewrite Hz. case_if.
  - rewrite (zero_ok _ _ _ _ _ _ Ha) by done. simpl. rewrite Hz. simpl.
    rewrite lookup_insert_eq. simpl. unfold put_block, set_mem. simpl. rewrite insert_insert_eq. apply Hfin. intros _. by apply Forall_replicate.
  - simpl. rewrite Hz. simpl. rewrite Ha. apply Hfin. intros Hx1%Hx. congruence.
Qed.

Lemma release_ok s T : held s T →
  yields (th8ReleaseOldResult s)
    (λ s', vacant s' T ∧ pProtectedResult s' = pProtectedResult s ∧ sources T s s').
Proof.
  intros Hh. pose proof Hh as [Hp Hr Hz Hi]. unfold th8ReleaseOldResult.
  destruct (bResultBorrowed s) eqn:Hb.
  - assert (Hplain : in_region s = false → yields (Ok (set_borrowed false s) : res fault results)
      (λ s', vacant s' T ∧ pProtectedResult s' = pProtectedResult s ∧ sources T s s')).
    { intros Hin. split_and!; [|done|by apply sources_same]. split; [| |done].
      - unfold result_list in Hp. rewrite Hb in Hp. by destruct (zResult s) as [[]|].
      - unfold region_ok in *. simpl. destruct (pProtectedResult s); naive_solver. }
    destruct (in_region s) eqn:Hin.
    + destruct Hi as [_ Hs]; [done|]. rewrite Hs. unfold in_region in Hin.
      pose proof (release_region s T) as H. destruct (zResult s) as [[a|]|], (pProtectedResult s) as [p|]; try done.
      by apply H.
    + specialize (Hplain eq_refl). pose proof (release_region s T) as H.
      destruct (TH8_SENSITIVE _), (pProtectedResult s), (zResult s); try done. by apply H.
  - rewrite andb_false_r. unfold result_ok in Hz. destruct (zResult s) as [z|] eqn:Hzz.
    + destruct Hz as [_ Hz]. destruct (Hz Hb) as [a ->]. rewrite <- Hzz. by eapply release_owned.
    + case_if; simpl; rewrite Hzz; (split_and!; [split; [| |done]|done|by apply sources_same]);
        unfold result_list, in_region, region_ok in *; rewrite Hzz in *;
        destruct (pProtectedResult s); naive_solver.
Qed.

(** *** Installing a result *)

Lemma vacant_none s T : vacant s T → vacant (set_result None 0 s) T ∧ held (set_result None 0 s) T.
Proof.
  intros [Hh Hr Hb]. split; [by split|]. split; [done| |by split|done].
  unfold region_ok in *. simpl. destruct (pProtectedResult s); naive_solver.
Qed.

Lemma clear_ok s T : held s T →
  yields (Th8_ClearResult s) (λ s', vacant s' T ∧ held s' T ∧ zResult s' = None ∧ nResult s' = 0 ∧
    pProtectedResult s' = pProtectedResult s ∧ sources T s s').
Proof.
  intros Hh. unfold Th8_ClearResult. eapply yields_bind; [by apply release_ok|].
  intros s' (Hv & Hp & Hs). destruct (vacant_none s' T Hv). simpl. by split_and!.
Qed.

Lemma vacant_borrow s T z n d : vacant s T → contents s z = Ok d → TH8_LEN n <= zlen d →
  (∀ p, z = PBlock (pPageData p) → pProtectedResult s ≠ Some p) →
  held (set_borrowed true (set_result (Some z) n s)) T.
Proof.
  intros [Hh Hr Hb] Hd Hn Hz. set (s' := set_borrowed true _).
  assert (in_region s' = false) as Hin.
  { unfold in_region, s'. simpl. destruct z as [a|], (pProtectedResult s) as [p|] eqn:E; try done.
    apply Z.eqb_neq. intros ->. by eapply Hz. }
  split.
  - replace (result_list s') with (@nil (Z * Z)); [done|]. by destruct z.
  - unfold region_ok, s' in *. simpl. destruct (pProtectedResult s); naive_solver.
  - split; [|done]. exists d. by destruct z.
  - by rewrite Hin.
Qed.

Lemma vacant_own s T a n : heap_ok (mem s) ((a, n) :: rest s T) → region_ok s True →
  bResultBorrowed s = false → held (set_result (Some (PBlock a)) n s) T.
Proof.
  intros Hh Hr Hb. destruct (ho_in _ _ Hh a n) as (d & x & Ha & Hd & Hx); [by left|].
  set (s' := set_result _ _ _).
  assert (in_region s' = false) as Hin.
  { unfold in_region, s'. simpl. unfold region_ok in Hr. destruct (pProtectedResult s) as [p|]; [|done].
    destruct Hr as (_ & d' & x' & Hr & _). apply Z.eqb_neq. intros ->. congruence. }
  split.
  - unfold result_list, s'. simpl. by rewrite Hb.
  - unfold region_ok, s' in *. simpl. destruct (pProtectedResult s); naive_solver.
  - split; [|by exists a]. exists d. simpl. rewrite (live_ok s' a _ _ _ Ha). split; [done|]. simpl. lia.
  - by rewrite Hin.
Qed.

(** *** Copies *)

Lemma fresh_block s : mem s !! fresh (dom (mem s)) = None.
Proof. apply not_elem_of_dom, is_fresh. Qed.

Lemma contents_put s a b z d : mem s !! a = None → contents s z = Ok d → contents (put_block a b s) z = Ok d.
Proof.
  intros Ha. destruct z as [a'|]; [|done]. simpl. unfold live. simpl.
  intros H. rewrite lookup_insert_ne; [done|]. intros <-. by rewrite Ha in H.
Qed.

Lemma put_put s a b b' : put_block a b' (put_block a b s) = put_block a b' s.
Proof. unfold put_block, set_mem. simpl. by rewrite insert_insert_eq. Qed.

Lemma copy_ok reply z nRaw s d : contents s z = Ok d → 0 <= nRaw <= zlen d →
  yields (copy_string reply (Some z) nRaw s) (λ out, match out with
    | (None, s') => s' = s ∧ (reply = None ∨ TH8_MX_ALLOC < nRaw + 1)
    | (Some a, s') => mem s !! a = None ∧ nRaw <= TH8_LEN_MASK ∧
        s' = put_block a (mkBlock Heap false (take (Z.to_nat nRaw) d ++ [0]) false) s
    end).
Proof.
  intros Hd Hn. unfold copy_string, TH8_ALLOC_STR, alloc. destruct reply as [junk|]; [|by split; [|left]].
  case_if; bool_to_prop; [by split; [|right]|]. set (a := fresh (dom (mem s))). pose proof (fresh_block s) as Hf.
  fold a in Hf. set (b := mkBlock Heap false _ false). change (set_mem _ s) with (put_block a b s).
  assert (Hlen : zlen (data b) = nRaw + 1).
  { unfold b, zlen. simpl. rewrite length_resize. lia. }
  assert (Hcopy : Th8_Memcpy (put_block a b s) a (Some z) nRaw =
    Ok (put_block a (mkBlock Heap false (take (Z.to_nat nRaw) d ++ drop (Z.to_nat nRaw) (data b)) false) s)).
  { unfold Th8_Memcpy, read. case_if; bool_to_prop; [by subst nRaw|].
    rewrite (contents_put _ _ _ _ _ Hf Hd). simpl. rewrite (proj2 (Z.ltb_ge _ _)) by lia. simpl.
    assert (zlen (take (Z.to_nat nRaw) d) = nRaw) as Hz.
    { unfold zlen in *. rewrite length_take. lia. }
    erewrite write_ok; [|simpl; by rewrite lookup_insert_eq|done|rewrite Hz; unfold b in Hlen; simpl in Hlen; lia].
    rewrite put_put, Hz, Z.add_0_l. done. }
  cbv beta iota. rewrite Hcopy. cbn [res_bind]. set (d' := take (Z.to_nat nRaw) d ++ drop (Z.to_nat nRaw) (data b)).
  assert (zlen d' = nRaw + 1) as Hd'.
  { unfold d', zlen in *. rewrite length_app, length_take, length_drop. lia. }
  erewrite write_ok; [|simpl; by rewrite lookup_insert_eq|lia|rewrite Hd'; unfold zlen; simpl; lia].
  simpl. split_and!; [done|unfold TH8_MX_ALLOC in *; change TH8_LEN_MASK with 0xfffffff; lia|].
  rewrite put_put, (drop_ge d') by (change (zlen [0]) with 1; unfold zlen in *; lia).
  unfold d'. rewrite take_app_le, take_take, Nat.min_id; [done|].
  unfold zlen in *. rewrite length_take. lia.
Qed.

Lemma note_put s a d n :
  note (Some (PBlock a)) n (put_block a (mkBlock Heap false d false) s) =
  put_block a (mkBlock Heap false d (TH8_SENSITIVE n)) s.
Proof.
  unfold note. simpl. rewrite lookup_insert_eq. destruct (TH8_SENSITIVE n); [|done].
  apply put_put.
Qed.

Lemma region_put s a b P : mem s !! a = None → region_ok s P → region_ok (put_block a b s) P.
Proof.
  intros Ha. unfold region_ok. simpl. destruct (pProtectedResult s); [|done].
  intros (H & d & x & Hd & Hr). split; [done|]. exists d, x. rewrite lookup_insert_ne; [done|]. congruence.
Qed.

Lemma sources_new T s a b : mem s !! a = None → sources T s (put_block a b s).
Proof. intros Ha. apply sources_put. intros k d x H. congruence. Qed.

(** A copy that the interpreter keeps. *)
Lemma vacant_copy s T a d n : vacant s T → mem s !! a = None → zlen d = TH8_LEN n →
  held (set_result (Some (PBlock a)) n (put_block a (mkBlock Heap false (d ++ [0]) (TH8_SENSITIVE n)) s)) T.
Proof.
  intros [Hh Hr Hb] Ha Hd. apply vacant_own; [|by apply region_put|done].
  apply heap_new; [done|done| |by intros ->]. rewrite zlen_app, Hd. done.
Qed.

(** What Th8_SetResult leaves: a copy of the bytes with the length and its tags,
    or, without memory, no result and the mark of a failed build. *)
Definition was_set (reply : option bytes) (d : bytes) (nRaw nTag rc : Z) (s : results) : Prop :=
  (rc = TH8_OK ∧ nResult s = Z.lor nRaw nTag ∧ TH8_LEN (nResult s) = nRaw ∧
   bResultBorrowed s = false ∧ ∃ a x, zResult s = Some (PBlock a) ∧
   mem s !! a = Some (mkBlock Heap false (take (Z.to_nat nRaw) d ++ [0]) x)) ∨
  (rc = TH8_ERROR ∧ (reply = None ∨ TH8_MX_ALLOC < nRaw + 1) ∧ nResult s = 0 ∧ zResult s = None ∧
   bResultBuildFailed s = true).

Lemma len_argument s z n d nRaw nTag : argument s z n d nRaw nTag → nRaw <= TH8_LEN_MASK →
  TH8_LEN (Z.lor nRaw nTag) = nRaw ∧ zlen (take (Z.to_nat nRaw) d) = nRaw.
Proof.
  intros (_ & _ & Hn & ->) Hm. split; [|unfold zlen in *; rewrite length_take; lia].
  case_if; [rewrite Z.lor_0_r; apply TH8_LEN_small; lia|apply LEN_with_tag; lia].
Qed.

Lemma set_ok reply s T z n : held s T → readable_opt (s, T) z n = true →
  yields (Th8_SetResult reply s z n) (λ out, held (snd out) T ∧ sources T s (snd out) ∧
    pProtectedResult (snd out) = pProtectedResult s ∧
    ∀ p d nRaw nTag, z = Some p → argument s p n d nRaw nTag → was_set reply d nRaw nTag (fst out) (snd out)).
Proof.
  intros Hh Hz. unfold Th8_SetResult. eapply yields_bind; [by apply clear_ok|].
  intros s1 (Hv & Hh1 & Hz1 & Hn1 & Hp1 & Hs1). destruct z as [z|]; [|by split_and!]. simpl in Hz.
  destruct (read_argument s T z n Hz) as (d & nRaw & nTag & Ha).
  pose proof (argument_sources s s1 T z n d nRaw nTag Hz Hs1 Ha) as Ha1.
  pose proof Ha1 as (Hd & -> & Hr & Ht). cbn [res_bind].
  eapply yields_bind; [by apply (copy_ok reply z nRaw s1 d)|]. intros [[a|] s2].
  - intros (Hf & Hm & ->). destruct (len_argument s1 z n d nRaw nTag Ha1 Hm) as [Hl Hd'].
    change (set_result (Some (PBlock a)) (Z.lor nRaw nTag) (put_block ?x ?b s1))
      with (put_block x b (set_result (Some (PBlock a)) (Z.lor nRaw nTag) s1)).
    rewrite note_put. split_and!; simpl.
    + apply (vacant_copy s1 T a (take (Z.to_nat nRaw) d)); [done|done|simpl; by rewrite Hl].
    + eapply sources_trans; [done|]. intros a' k d' x Hx _. exists x. simpl.
      rewrite lookup_insert_ne; [done|]. congruence.
    + done.
    + intros p d' nRaw' nTag' [= <-] Ha'. destruct Ha as (E1 & E2 & _), Ha' as (E3 & E4 & _).
      rewrite E1 in E3. rewrite E2 in E4. injection E3 as <-. injection E4 as <- <-.
      left. split_and!; [done..|apply Hv|]. exists a, (TH8_SENSITIVE (Z.lor nRaw nTag)). simpl.
      by rewrite lookup_insert_eq.
  - intros [-> Hnone]. split_and!; simpl; [by destruct Hh1; split|done|done|].
    intros p d' nRaw' nTag' [= <-] Ha'. right. destruct Ha as (E1 & E2 & _), Ha' as (E3 & E4 & _).
    rewrite E2 in E4. injection E4 as <- <-. by split_and!.
Qed.

Lemma literal_argument s text : argument s (PLit text) TH8_NOLEN (text ++ [0])
  (Z.of_nat (span (λ c, negb (c =? 0)) (text ++ [0]))) 0.
Proof.
  unfold argument, split_length, Th8_Strlen. rewrite Z.eqb_refl. simpl.
  pose proof (span_before (text ++ [0]) ltac:(set_solver)) as Hs.
  rewrite (proj2 (Nat.ltb_lt _ _)) by done. split_and!; [done..|lia|unfold zlen; lia|done].
Qed.

Lemma len_le n t : 0 <= n → TH8_LEN (Z.lor n (tag_of t)) <= n.
Proof.
  intros Hn. rewrite LEN_lor, LEN_tag_of, Z.lor_0_r, len_mask_mod. apply Z.mod_le; lia.
Qed.

Lemma borrowed_ok s T z n : held s T → readable (s, T) z n = true →
  yields (th8SetResultBorrowed s z n) (λ s', held s' T ∧ sources T s s' ∧
    pProtectedResult s' = pProtectedResult s).
Proof.
  intros Hh Hz. unfold th8SetResultBorrowed. eapply yields_bind; [by apply release_ok|].
  intros s1 (Hv & Hp1 & Hs1). destruct (read_argument s T z n Hz) as (d & nRaw & nTag & Ha).
  pose proof (argument_sources s s1 T z n d nRaw nTag Hz Hs1 Ha) as (Hd & -> & Hr & Ht).
  simpl. split_and!; [|done..]. eapply vacant_borrow; [done|done| |].
  - subst nTag. case_if; [replace 0 with (tag_of 0) by done|]; (etrans; [apply len_le|]; lia).
  - intros p -> Hp. destruct Hv as [Hh1 Hr1 _]. unfold region_ok in Hr1. rewrite Hp in Hr1.
    destruct Hr1 as (_ & d1 & x1 & Hd1 & _). simpl in Hz.
    destruct Hh as [Hh0 Hr0 _ _]. rewrite Hp1 in Hp. unfold region_ok in Hr0. rewrite Hp in Hr0.
    destruct Hr0 as (_ & d0 & x0 & Hd0 & _). rewrite Hd0 in Hz.
    apply andb_true_iff in Hz as [Hz _]. apply orb_true_iff in Hz as [Hz|Hz%bool_decide_eq_true]; [done|].
    revert Hz. by eapply heap_owned.
Qed.

Lemma static_ok s T z n : held s T → readable_opt (s, T) z n = true →
  yields (Th8_SetResultStatic s z n) (λ s', held s' T ∧ sources T s s' ∧
    pProtectedResult s' = pProtectedResult s).
Proof.
  intros Hh Hz. destruct z as [z|]; [by apply borrowed_ok|].
  eapply yields_mono; [by apply clear_ok|]. naive_solver.
Qed.

Lemma set_static_ok s T text : held s T →
  yields (set_static s text) (λ s', held s' T ∧ sources T s s' ∧ pProtectedResult s' = pProtectedResult s).
Proof. intros Hh. by apply static_ok. Qed.

(** *** Handing the result over *)

Lemma heap_not_in m l a n : heap_ok m ((a, n) :: l) → ∀ n', (a, n') ∉ l.
Proof.
  intros [Hn _ _ _] n' Hin. simpl in Hn. apply NoDup_cons in Hn as [Hn _]. apply Hn.
  by apply (list_elem_of_fmap_2 fst) in Hin.
Qed.

Lemma rest_insert s T a n : T !! a = None → rest s (<[a := n]> T) ≡ₚ (a, n) :: rest s T.
Proof.
  intros Ha. unfold rest. rewrite (map_to_list_insert _ _ _ Ha).
  by rewrite Permutation_middle.
Qed.

Lemma rest_delete s T a n : T !! a = Some n → rest s T ≡ₚ (a, n) :: rest s (delete a T).
Proof.
  intros Ha. rewrite <- rest_insert by apply lookup_delete_eq. by rewrite insert_delete_id.
Qed.

Lemma heap_keep s T l a n : heap_ok (mem s) ((a, n) :: l ++ rest s T) →
  T !! a = None ∧ heap_ok (mem s) (l ++ rest s (<[a := n]> T)).
Proof.
  intros Hh. assert (T !! a = None) as Ha.
  { destruct (T !! a) as [n'|] eqn:E; [|done]. exfalso. eapply heap_not_in; [done|].
    apply elem_of_app. right. by eapply rest_in. }
  split; [done|]. eapply heap_perm; [done|]. rewrite rest_insert by done. by rewrite <- Permutation_middle.
Qed.

Lemma held_new s T a d x n : held s T → mem s !! a = None → zlen d = TH8_LEN n + 1 →
  (x = true → TH8_SENSITIVE n = true) →
  held (put_block a (mkBlock Heap false d x) s) (<[a := n]> T).
Proof.
  intros [Hh Hr Hz Hi] Ha Hd Hx. split.
  - apply (heap_keep (put_block a _ s) T (result_list s)). simpl. by apply heap_new.
  - by apply region_put.
  - unfold result_ok in *. simpl. destruct (zResult s) as [z|]; [|done].
    destruct Hz as [(d' & H1 & H2) H3]. split; [|done]. exists d'. split; [by apply contents_put|done].
  - done.
Qed.

Lemma not_inside s T : held s T → TH8_SENSITIVE (nResult s) = false → in_region s = false.
Proof. intros [_ _ _ Hi] Hs. destruct (in_region s); [|done]. destruct Hi; congruence. Qed.

Lemma borrowed_vacant s T : held s T → bResultBorrowed s = true → in_region s = false →
  vacant (set_borrowed false s) T.
Proof.
  intros [Hh Hr _ _] Hb Hi. split; [| |done].
  - unfold result_list in Hh. rewrite Hb in Hh. by destruct (zResult s) as [[]|].
  - unfold region_ok in *. simpl. destruct (pProtectedResult s); naive_solver.
Qed.

Lemma take_ok reply s T : held s T →
  yields (Th8_TakeResult reply s) (λ out, let '(z, n, s') := out in
    held s' (keep z n T) ∧ pProtectedResult s' = pProtectedResult s).
Proof.
  intros Hh. unfold Th8_TakeResult. case_if.
  { eapply yields_bind; [by apply set_static_ok|]. intros s1 (H1 & _ & H2). done. }
  pose proof (not_inside s T Hh Heqb) as Hin. pose proof Hh as [Hp Hr Hz Hi].
  unfold result_ok in Hz. destruct (bResultBorrowed s) eqn:Hb.
  - pose proof (borrowed_vacant s T Hh Hb Hin) as Hv.
    destruct (zResult s) as [z|]; [|by destruct Hz]. destruct Hz as [(d & Hd & Hn) _].
    eapply yields_bind; [apply (copy_ok reply z _ s d); [done|]; pose proof (LEN_nonneg (nResult s)); lia|].
    intros [[a|] s2].
    + intros (Hf & Hm & ->). simpl. split; [|done].
      assert (zlen (take (Z.to_nat (TH8_LEN (nResult s))) d ++ [0]) = TH8_LEN (nResult s) + 1).
      { pose proof (LEN_nonneg (nResult s)). rewrite zlen_app. unfold zlen in *.
        rewrite length_take. simpl. lia. }
      pose proof (vacant_none _ _ Hv) as [_ Hn0]. by apply (held_new _ _ _ _ false _ Hn0).
    + intros [-> _]. simpl. split; [|done]. by apply vacant_none.
  - destruct (zResult s) as [z|] eqn:Hzz; simpl.
    + destruct Hz as [_ Hz]. destruct (Hz eq_refl) as [a ->]. split; [|done].
      assert (result_list s = [(a, nResult s)]) as Hl by (unfold result_list; by rewrite Hzz, Hb).
      rewrite Hl in Hp. apply (vacant_none s). destruct (heap_keep s T [] a (nResult s) Hp) as [_ Hk].
      split; [done| |done]. unfold region_ok in *. destruct (pProtectedResult s); naive_solver.
    + split; [|done]. apply vacant_none. unfold result_list in Hp. rewrite Hzz in Hp. split; [done| |done].
      unfold region_ok in *. destruct (pProtectedResult s); naive_solver.
Qed.

Lemma take_internal_ok reply s T : held s T →
  yields (th8TakeResultInternal reply s) (λ out, let '(z, n, s') := out in
    held s' (keep z n T) ∧ pProtectedResult s' = pProtectedResult s).
Proof.
  intros Hh. unfold th8TakeResultInternal. destruct (TH8_SENSITIVE (nResult s)) eqn:Hs; [|by apply take_ok].
  simpl. set (z := default (PLit []) (zResult s)).
  assert (∃ d, contents s z = Ok d ∧ TH8_LEN (nResult s) <= zlen d) as (d & Hd & Hn).
  { destruct Hh as [_ _ Hz _]. unfold result_ok in Hz. unfold z. destruct (zResult s) as [z'|]; [apply Hz|].
    exists [0]. destruct Hz as [_ ->]. by split. }
  pose proof (LEN_nonneg (nResult s)) as Hpos.
  eapply yields_bind; [by apply (copy_ok reply z _ s d)|]. intros [[a|] s2].
  - intros (Hf & Hm & ->). cbn [fmap option_fmap option_map]. rewrite note_put, Hs.
    eapply yields_bind; [apply (clear_ok _ (<[a := nResult s]> T)), held_new; [done|done| |done]|].
    + rewrite zlen_app. unfold zlen in *. rewrite length_take. simpl. lia.
    + intros s3 (Hv & Hh3 & _ & _ & Hp & _). by simpl in *.
  - intros [-> _]. simpl. eapply yields_bind; [by apply clear_ok|]. intros s3 H. simpl. naive_solver.
Qed.

Lemma free_taken_ok s T a n : held s T → T !! a = Some n → zResult s ≠ Some (PBlock a) →
  yields (th8FreeSensitive s (Some (PBlock a)) n) (λ s', held s' (delete a T) ∧
    pProtectedResult s' = pProtectedResult s ∧ sources (delete a T) s s').
Proof.
  intros [Hh Hr Hz Hi] Ha Hne. unfold th8FreeSensitive.
  assert (Hperm : result_list s ++ rest s T ≡ₚ (a, n) :: result_list s ++ rest s (delete a T)).
  { rewrite (rest_delete s T a n Ha). by rewrite <- Permutation_middle. }
  eapply heap_perm in Hh; [|exact Hperm].
  destruct (ho_in _ _ Hh a n) as (d & x & Hd & Hl & Hx); [by left|].
  assert (Hfin : ∀ d', (x = true → Forall (eq 0) d') → held (put_block a (mkBlock Heap true d' x) s) (delete a T)).
  { intros d' Hd'. split; simpl.
    - by eapply heap_freed.
    - unfold region_ok in *. simpl. destruct (pProtectedResult s) as [p|]; [|done].
      destruct Hr as (H1 & d2 & x2 & H2 & H3). split; [done|]. exists d2, x2.
      rewrite lookup_insert_ne; [done|]. intros ->. congruence.
    - unfold result_ok in *. simpl. destruct (zResult s) as [z|]; [|done].
      destruct Hz as [(d2 & H1 & H2) H3]. split; [|done]. exists d2. split; [|done].
      destruct z as [a2|]; [|done]. simpl in *. unfold live in *. simpl. rewrite lookup_insert_ne by congruence. done.
    - done. }
  assert (Hs : ∀ b, sources (delete a T) s (put_block a b s)).
  { intros b. apply sources_put. intros k d' x' H. rewrite Hd in H. injection H as <- <- <-.
    split; [done|]. by rewrite dom_delete, not_elem_of_difference; right; apply elem_of_singleton. }
  case_if.
  - rewrite (zero_ok _ _ _ _ _ _ Hd) by done. simpl. rewrite lookup_insert_eq.
    unfold put_block, set_mem. simpl. rewrite insert_insert_eq. split_and!; [|done|apply Hs].
    apply Hfin. intros _. by apply Forall_replicate.
  - simpl. rewrite Hd. simpl. split_and!; [|done|apply Hs]. apply Hfin. intros Hx1%Hx. congruence.
Qed.

Lemma sensitive_added n : TH8_SENSITIVE (TH8_ADD_SENSITIVE n) = true.
Proof.
  unfold TH8_SENSITIVE, TH8_ADD_SENSITIVE. rewrite Z.land_lor_distr_l, Z.land_diag.
  apply negb_true_iff, Z.eqb_neq. intros H%Z.lor_eq_0_iff. by destruct H.
Qed.

Lemma len_added n : TH8_LEN (TH8_ADD_SENSITIVE n) = TH8_LEN n.
Proof.
  unfold TH8_ADD_SENSITIVE. change TH8_SENSITIVE_BIT with (tag_of TH8_SENSITIVE_BIT).
  by rewrite LEN_lor, LEN_tag_of, Z.lor_0_r.
Qed.

Lemma mark_ok s T : held s T → held (Th8_MarkResultSensitive s) T.
Proof.
  intros [Hh Hr Hz Hi]. unfold Th8_MarkResultSensitive.
  assert (Hplain : result_list (set_result (zResult s) (TH8_ADD_SENSITIVE (nResult s)) s) = [] →
    result_list s = [] → held (set_result (zResult s) (TH8_ADD_SENSITIVE (nResult s)) s) T).
  { intros H1 H2. rewrite H2 in Hh. split; [by rewrite H1|done| |].
    - unfold result_ok in *. simpl. rewrite len_added. done.
    - simpl. intros H. split; [by apply Hi|apply sensitive_added]. }
  unfold result_ok in Hz. destruct (bResultBorrowed s) eqn:Hb.
  { apply Hplain; unfold result_list; simpl; rewrite Hb; by destruct (zResult s) as [[]|]. }
  destruct (zResult s) as [z|] eqn:Hzz.
  2: { apply Hplain; unfold result_list; simpl; by rewrite ?Hzz. }
  destruct Hz as [(d & Hd & Hn) Hz]. destruct (Hz eq_refl) as [a ->].
  assert (result_list s = [(a, nResult s)]) as Hl by (unfold result_list; by rewrite Hzz, Hb).
  rewrite Hl in Hh. destruct (ho_in _ _ Hh a (nResult s)) as (d' & x & Ha & Hd' & Hx); [by left|].
  unfold note. simpl. rewrite Ha. simpl. rewrite sensitive_added.
  assert (Hin : in_region s = false). { destruct (in_region s); [destruct Hi; congruence|done]. }
  eapply (vacant_own (put_block a (mkBlock Heap false d' true) s) T a (TH8_ADD_SENSITIVE (nResult s))); simpl.
  - eapply heap_update; [done|done|by rewrite len_added|]. intros _. apply sensitive_added.
  - unfold region_ok in *. simpl. destruct (pProtectedResult s) as [p|]; [|done].
    destruct Hr as (H1 & d2 & x2 & H2 & H3 & H4). split; [done|]. exists d2, x2.
    rewrite lookup_insert_ne; [naive_solver|]. intros ->. congruence.
  - done.
Qed.

(** *** The protected region *)

(** The region may hold anything, and no result is held. *)
Record scratch (s : results) (T : gmap Z Z) (p : Th8_ProtectedRegion) : Prop := {
  sc_heap : heap_ok (mem s) (rest s T);
  sc_region : region_ok s False;
  sc_borrowed : bResultBorrowed s = false;
  sc_at : pProtectedResult s = Some p
}.

Definition usable (p : Th8_ProtectedRegion) : Z := nPageSize p - th8ProtectedCanarySize.

Lemma vacant_scratch s T p : vacant s T → pProtectedResult s = Some p → scratch s T p.
Proof.
  intros [Hh Hr Hb] Hp. split; [done| |done|done]. unfold region_ok in *. rewrite Hp in *. naive_solver.
Qed.

Lemma scratch_at s T p : scratch s T p → 0 <= usable p ∧ ∃ d x,
  mem s !! pPageData p = Some (mkBlock Region false d x) ∧ zlen d = usable p ∧ pPageData p ∉ dom T.
Proof.
  intros [Hh Hr _ Hp]. unfold region_ok in Hr. rewrite Hp in Hr. destruct Hr as (H & d & x & Hd & Hl & _).
  unfold usable. split; [lia|]. exists d, x. split_and!; [done|done|]. by eapply (heap_owned s T []).
Qed.

Lemma scratch_put s T p d0 d x : scratch s T p →
  mem s !! pPageData p = Some (mkBlock Region false d0 x) → zlen d = usable p →
  let s' := put_block (pPageData p) (mkBlock Region false d x) s in scratch s' T p ∧ sources T s s'.
Proof.
  intros Hs Hd Hl. destruct (scratch_at s T p Hs) as (H0 & d1 & x1 & _ & _ & HT).
  destruct Hs as [Hh Hr Hb Hp]. split.
  - split; [|unfold region_ok in *; simpl; rewrite Hp in *|done|done].
    + apply (heap_other _ _ _ Region); try done. intros ??. by rewrite Hd.
    + destruct Hr as [Hr _]. split; [done|]. exists d, x. by rewrite lookup_insert_eq.
  - apply sources_put. intros k d' x' H. rewrite Hd in H. by injection H as <- <- <-.
Qed.

(** A write into the region succeeds and leaves everything else alone. *)
Lemma scratch_write s T p off bs : scratch s T p → 0 <= off → off + zlen bs <= usable p →
  yields (write s (pPageData p) off bs) (λ s', scratch s' T p ∧ sources T s s' ∧
    zResult s' = zResult s ∧ nResult s' = nResult s).
Proof.
  intros Hs Ho Hl. destruct (scratch_at s T p Hs) as (H0 & d & x & Hd & Hl0 & _).
  rewrite (write_ok _ _ _ _ _ _ _ Hd) by lia.
  eapply scratch_put in Hs as [H1 H2]; [|done|]; [by split_and!|].
  rewrite splice_length; lia.
Qed.

Lemma wiped_vacant s T p : scratch s T p →
  yields (Th8_SecureZero s (Some (PBlock (pPageData p))) (usable p)) (λ s', vacant s' T ∧ sources T s s' ∧
    pProtectedResult s' = Some p ∧ zResult s' = zResult s ∧ nResult s' = nResult s).
Proof.
  intros Hs. destruct (scratch_at s T p Hs) as (H0 & d & x & Hd & Hl & _).
  rewrite (zero_ok _ _ _ _ _ _ Hd) by done. simpl. pose proof Hs as [_ _ Hb Hp].
  eapply (scratch_put _ _ _ _ (replicate (length d) 0)) in Hs as [[H1 H2 H3 H4] H5];
    [|done|unfold zlen in *; by rewrite length_replicate].
  split_and!; [|done..]. split; [done| |done]. unfold region_ok in *. simpl in *. rewrite Hp in *.
  destruct H2 as (Hr & d2 & x2 & Hd2 & Hl2 & _). split; [done|]. exists d2, x2. split_and!; [done..|].
  rewrite lookup_insert_eq in Hd2. injection Hd2 as <- <-. intros _. by apply Forall_replicate.
Qed.

Lemma finalize_ok s T p n : scratch s T p → TH8_LEN n + 1 <= usable p →
  yields (th8FinalizeSensitiveResult s n) (λ out, held (snd out) T ∧ sources T s (snd out)).
Proof.
  intros Hs Hn. unfold th8FinalizeSensitiveResult. rewrite (sc_at _ _ _ Hs).
  pose proof (LEN_nonneg n).
  eapply yields_bind; [apply (scratch_write s T p (TH8_LEN n) [0] Hs); [done|]; change (zlen [0]) with 1; lia|].
  intros s1 (Hs1 & Hk & _). simpl. split; [|done].
  destruct (scratch_at s1 T p Hs1) as (H0 & d & x & Hd & Hl & _). destruct Hs1 as [Hh Hr Hb Hp].
  set (s2 := set_borrowed true _).
  assert (in_region s2 = true) as Hin.
  { unfold in_region, s2. simpl. rewrite Hp. apply Z.eqb_refl. }
  split; [done| | |].
  - unfold region_ok, s2 in *. simpl. rewrite Hp in *. destruct Hr as (H1 & d2 & x2 & H2 & H3 & _).
    split; [done|]. exists d2, x2. split_and!; [done..|]. intros Hf. assert (true = false) by (rewrite <- Hin; exact Hf). done.
  - split; [|done]. exists d. simpl. rewrite (live_ok s2 _ _ _ _ Hd), len_added. split; [done|]. simpl. lia.
  - intros _. split; [done|]. apply sensitive_added.
Qed.

(** A region on fresh blocks. *)
Lemma region_installed s T a pg n d : held s T → pProtectedResult s = None →
  th8ProtectedCanarySize <= n → mem s !! a = None → mem s !! pg = None → a ≠ pg →
  zlen d = TH8_LEN (sizeof_region - 1) + 1 →
  let r := mkRegion a th8ProtectCanary pg n in
  let page := mkBlock Region false (replicate (Z.to_nat (n - th8ProtectedCanarySize)) 0) false in
  held (set_region (Some r) (put_block pg page (put_block a (mkBlock Heap false d false) s))) T.
Proof.
  intros [Hh Hr Hz Hi] Hp Hn Ha Hpg Hne Hd r page. set (s2 := set_region _ _).
  assert (Hpg1 : <[a := mkBlock Heap false d false]> (mem s) !! pg = None) by (by rewrite lookup_insert_ne).
  assert (Hout : ∀ z, zResult s = Some z → z ≠ PBlock pg).
  { intros z Hs ->. unfold result_ok in Hz. rewrite Hs in Hz. destruct Hz as [(d' & H & _) _].
    simpl in H. unfold live in H. by rewrite Hpg in H. }
  assert (Hin : in_region s2 = false).
  { unfold in_region, s2. simpl. destruct (zResult s) as [[b|]|] eqn:E; try done.
    apply Z.eqb_neq. intros ->. by eapply Hout. }
  split; [| | |by rewrite Hin].
  - apply (heap_other _ _ _ Region); try done; [|intros d2 x2 H2; simpl in H2; rewrite Hpg1 in H2; done].
    eapply heap_perm; [by apply (heap_new _ _ a (sizeof_region - 1) d false Hh)|].
    unfold rest, s2. simpl. rewrite Hp. simpl. by rewrite Permutation_middle.
  - unfold region_ok. simpl. split; [done|]. eexists _, _. rewrite lookup_insert_eq. split_and!; [done| |].
    + unfold zlen. rewrite length_replicate. lia.
    + intros _. by apply Forall_replicate.
  - unfold result_ok in *. simpl. destruct (zResult s) as [z|]; [|done].
    destruct Hz as [(d' & H1 & H2) H3]. split; [|done]. exists d'. split; [|done].
    apply (contents_put (put_block a _ s) pg); [done|]. by apply contents_put.
Qed.

Lemma get_region_ok reply page s T : held s T → page_ok page = true →
  yields (th8GetProtectedResultRegion reply page s) (λ out, held (snd out) T ∧ sources T s (snd out) ∧
    match fst out with Some p => pProtectedResult (snd out) = Some p | None => True end).
Proof.
  intros Hh Hpage. unfold th8GetProtectedResultRegion.
  destruct (pProtectedResult s) as [p|] eqn:Hp; [by split_and!; [|apply sources_same|]|].
  unfold alloc. destruct reply as [junk|]; [|eapply yields_bind; [by apply set_static_ok|]; naive_solver].
  change (TH8_MX_ALLOC <? sizeof_region) with false. cbv iota beta.
  set (a := fresh (dom (mem s))). pose proof (fresh_block s) as Ha. fold a in Ha.
  set (d := resize _ 0 junk). change (set_mem _ s) with (put_block a (mkBlock Heap false d false) s).
  set (s1 := put_block a _ s).
  assert (Hd : zlen d = TH8_LEN (sizeof_region - 1) + 1) by (unfold d, zlen; by rewrite length_resize).
  destruct page as [n|]; cbn [th8ProtectedAlloc].
  - apply Z.leb_le in Hpage. pose proof (fresh_block s1) as Hpg. set (pg := fresh (dom (mem s1))) in *.
    assert (a ≠ pg). { intros E. unfold s1 in Hpg. simpl in Hpg. by rewrite <- E, lookup_insert_eq in Hpg. }
    assert (mem s !! pg = None). { unfold s1 in Hpg. simpl in Hpg. by rewrite lookup_insert_ne in Hpg. }
    simpl. split_and!; [by apply region_installed| |done].
    refine (sources_trans T s s1 _ (sources_new T s a _ Ha) _). intros a' k d' x Hx _. exists x. simpl.
    rewrite lookup_insert_ne; [done|]. intros <-. congruence.
  - assert (T !! a = None) as HT.
    { destruct (heap_keep s1 T (result_list s) a (sizeof_region - 1)) as [HT _]; [|done].
      apply heap_new; [apply Hh|done..]. }
    pose proof (held_new s T a d false (sizeof_region - 1) Hh Ha Hd ltac:(done)) as H1. fold s1 in H1.
    assert (Hne : zResult s1 ≠ Some (PBlock a)).
    { intros E. pose proof (he_result _ _ Hh) as Hz. unfold result_ok in Hz. simpl in E. rewrite E in Hz.
      destruct Hz as [(d' & H & _) _]. simpl in H. unfold live in H. by rewrite Ha in H. }
    pose proof (free_taken_ok s1 _ a _ H1 (lookup_insert_eq _ _ _) Hne) as H2.
    rewrite delete_insert_id in H2 by done. eapply yields_bind; [exact H2|].
    intros s2 (H3 & H4 & H5). eapply yields_bind; [by apply (set_static_ok s2 T)|].
    intros s3 (H6 & H7 & H8). simpl. split_and!; [done| |done].
    eapply sources_trans; [by apply (sources_new T s a)|]. by eapply sources_trans.
Qed.

Lemma canary_ok reply s T p : held s T →
  yields (th8ProtectedCheckCanary reply s p) (λ out, held (snd out) T ∧ sources T s (snd out) ∧
    pProtectedResult (snd out) = pProtectedResult s ∧ (fst out = true → snd out = s)).
Proof.
  intros Hh. unfold th8ProtectedCheckCanary. case_if; [by split_and!; [|apply sources_same| |]|].
  eapply yields_bind; [by apply (set_ok reply s T)|]. intros [rc s'] (H1 & H2 & H3 & _). by split_and!.
Qed.

Lemma refuse_ok s T text : held s T →
  yields (refuse s text) (λ out, held (snd out) T ∧ sources T s (snd out) ∧ fst out = TH8_ERROR).
Proof.
  intros Hh. eapply yields_bind; [by apply set_static_ok|]. intros s' (H1 & H2 & _). by split_and!.
Qed.

Lemma set_sensitive_ok reply page s T z n : held s T → page_ok page = true →
  readable_opt (s, T) z n = true →
  yields (Th8_SetResultSensitive reply page s z n) (λ out, held (snd out) T).
Proof.
  intros Hh Hpage Hz. unfold Th8_SetResultSensitive.
  eapply yields_bind; [by apply get_region_ok|]. intros [[p|] s1] (Hh1 & Hs1 & Hp1); [|done].
  simpl in Hh1, Hs1, Hp1.
  eapply yields_bind; [by apply canary_ok|]. intros [[] s2] (Hh2 & Hs2 & Hp2 & Heq); [|done].
  simpl in *. specialize (Heq eq_refl). subst s2. clear Hs2 Hp2 Hh2.
  case_if; [eapply yields_mono; [by apply refuse_ok|]; naive_solver|].
  assert (∃ nRaw nTag d, (match z with
      | Some q => split_length s1 q n
      | None => if n =? TH8_NOLEN then Ok (0, 0) else Ok (TH8_LEN n, Z.land n TH8_TAG_BITS)
      end = Ok (nRaw, nTag)) ∧ 0 <= nRaw ∧ (∃ t, nTag = tag_of t) ∧
      (∀ q, z = Some q → argument s q n d nRaw nTag)) as (nRaw & nTag & d & -> & Hpos & [t ->] & Harg).
  { destruct z as [q|].
    - destruct (read_argument s T q n Hz) as (d & nRaw & nTag & Ha).
      pose proof (argument_sources s s1 T q n d nRaw nTag Hz Hs1 Ha) as Ha1. exists nRaw, nTag, d.
      pose proof Ha1 as (_ & H2 & H3 & H4). split_and!; [done|lia| |by intros q' [= <-]].
      subst nTag. case_if; [by exists 0|by exists n].
    - case_if; [by exists 0, 0, []; split_and!; [| |exists 0|]|].
      exists (TH8_LEN n), (tag_of n), []. split_and!; [done|apply (LEN_nonneg n)|by exists n|done]. }
  cbn [res_bind]. case_if; [eapply yields_mono; [by apply refuse_ok|]; naive_solver|]. bool_to_prop.
  eapply yields_bind; [by apply clear_ok|]. intros s2 (Hv & _ & _ & _ & Hp2 & Hs2).
  assert (Hsc : scratch s2 T p) by (apply vacant_scratch; congruence).
  assert (Hcopy : yields (Th8_Memcpy s2 (pPageData p) z nRaw) (λ s3, scratch s3 T p)).
  { destruct z as [q|]; [|done]. unfold Th8_Memcpy, read. case_if; [done|]. simpl in Hz.
    destruct (argument_sources s s2 T q n d nRaw (tag_of t)) as (-> & _ & Hr & _);
      [done|by eapply sources_trans|by apply Harg|].
    simpl. rewrite (proj2 (Z.ltb_ge _ _)) by lia. simpl.
    eapply yields_mono; [apply (scratch_write s2 T p 0); [done|done|]|naive_solver].
    unfold usable, zlen in *. rewrite length_take. lia. }
  eapply yields_bind; [exact Hcopy|]. intros s3 Hs3.
  eapply yields_mono; [apply (finalize_ok s3 T p); [done|]|naive_solver].
  pose proof (len_le nRaw t Hpos). unfold usable. lia.
Qed.

Lemma strip_le out : 0 <= strip_padding out <= zlen out.
Proof.
  unfold strip_padding. destruct (last out) as [v|]; [|unfold zlen; lia].
  pose proof (Z.mod_le (zlen out) 256 (zlen_nonneg out) ltac:(lia)).
  pose proof (zlen_nonneg out). case_if; [|lia]. bool_to_prop. lia.
Qed.

(** With no result held, a message only takes its place. *)
Lemma static_vacant s text : zResult s = None → nResult s = 0 → bResultBorrowed s = false →
  ∃ n, set_static s text =
    Ok (set_borrowed true (set_result (Some (PLit (bytes_of_string text))) n s)) ∧
    TH8_LEN n <= zlen (bytes_of_string text ++ [0]).
Proof.
  intros Hz Hn Hb. unfold set_static, Th8_SetResultStatic, th8SetResultBorrowed, th8ReleaseOldResult.
  rewrite Hz, Hn, Hb. simpl. rewrite Hz. simpl.
  destruct (literal_argument s (bytes_of_string text)) as (_ & -> & Hr & _). simpl.
  eexists. split; [done|]. rewrite Z.lor_0_r, len_mask_mod.
  etrans; [apply Z.mod_le; lia|]. lia.
Qed.

(** A message, and then the region is wiped. *)
Lemma fail_ok s T p text : scratch s T p → zResult s = None → nResult s = 0 →
  yields (let* s := set_static s text in
          let* s := Th8_SecureZero s (Some (PBlock (pPageData p))) (usable p) in Ok (TH8_ERROR, 0, s))
    (λ out, let '(rc, n, s') := out in rc = TH8_ERROR ∧ held s' T).
Proof.
  intros Hs Hz Hn. pose proof Hs as [Hh Hr Hb Hp].
  destruct (static_vacant s text Hz Hn Hb) as (m & -> & Hm). cbn [res_bind].
  set (s1 := set_borrowed true _).
  destruct (scratch_at s T p Hs) as (H0 & d & x & Hd & Hl & _).
  rewrite (zero_ok s1 _ _ _ _ (usable p) Hd) by done. simpl. split; [done|].
  assert (Hw := wiped_vacant s T p Hs). rewrite (zero_ok s _ _ _ _ (usable p) Hd) in Hw by done.
  destruct Hw as (Hv & _). eapply (vacant_borrow _ T (PLit (bytes_of_string text))) in Hv; [exact Hv|done|done|done].
Qed.

Lemma decrypt_ok reply s T keys_ok p nCipher answer : vacant s T → held s T → zResult s = None → nResult s = 0 →
  pProtectedResult s = Some p → evp_ok nCipher answer = true →
  yields (th8SecureDecrypt reply s keys_ok p nCipher answer) (λ out, let '(rc, n, s') := out in
    if rc =? TH8_OK then scratch s' T p ∧ 0 <= n ∧ n + 1 <= usable p else held s' T).
Proof.
  intros Hv Hh Hz Hn Hp He. unfold th8SecureDecrypt.
  assert (Hfail : ∀ text, yields (let* s := set_static s text in Ok (TH8_ERROR, 0, s))
    (λ out, let '(rc, n, s') := out in
      if rc =? TH8_OK then scratch s' T p ∧ 0 <= n ∧ n + 1 <= usable p else held s' T)).
  { intros text. eapply yields_bind; [by apply set_static_ok|]. intros s' (H & _). done. }
  destruct keys_ok; cbn [negb]; [|apply Hfail].
  eapply yields_bind; [by apply canary_ok|]. intros [[] s2] (Hh2 & _ & _ & Heq); [|done].
  simpl in Heq. specialize (Heq eq_refl). subst s2. cbn [negb].
  case_if; [apply Hfail|]. change (nPageSize p - th8ProtectedCanarySize) with (usable p).
  pose proof (vacant_scratch s T p Hv Hp) as Hsc.
  case_if; bool_to_prop.
  { case_if; [apply Hfail|]. bool_to_prop. eapply yields_bind.
    - apply (scratch_write s T p 0 [0]); [done|done|]. change (zlen [0]) with 1. lia.
    - intros s1 (H & _). simpl. split_and!; [done|lia|lia]. }
  case_if; [apply Hfail|]. bool_to_prop.
  assert (Hend : ∀ s1 text, scratch s1 T p → zResult s1 = None → nResult s1 = 0 →
    yields (let* s := set_static s1 text in
            let* s := Th8_SecureZero s (Some (PBlock (pPageData p))) (usable p) in Ok (TH8_ERROR, 0, s))
      (λ out, let '(rc, n, s') := out in
        if rc =? TH8_OK then scratch s' T p ∧ 0 <= n ∧ n + 1 <= usable p else held s' T)).
  { intros s1 text H1 H2 H3. eapply yields_mono; [by apply fail_ok|]. by intros [[rc n] s'] [-> H]. }
  destruct answer as [text|out text|out]; simpl in He.
  - by apply Hend.
  - apply Z.leb_le in He. eapply yields_bind; [apply (scratch_write s T p 0 out); [done|done|lia]|].
    intros s1 (H1 & _ & H2 & H3). apply Hend; congruence.
  - apply Z.eqb_eq in He. eapply yields_bind; [apply (scratch_write s T p 0 out); [done|done|lia]|].
    intros s1 (H1 & _ & H2 & H3). pose proof (strip_le out).
    eapply yields_bind; [apply (scratch_write s1 T p (strip_padding out) [0]); [done|lia|]|].
    + change (zlen [0]) with 1. lia.
    + intros s4 (H4 & _). simpl. split_and!; [done|lia|lia].
Qed.

Lemma publish_ok reply page s T keys_ok nCipher answer : held s T → page_ok page = true →
  evp_ok nCipher answer = true →
  yields (publish_decrypted reply page s keys_ok nCipher answer) (λ out, held (snd out) T).
Proof.
  intros Hh Hpage He. unfold publish_decrypted.
  eapply yields_bind; [by apply get_region_ok|]. intros [[p|] s1] (Hh1 & Hs1 & Hp1); [|done].
  simpl in *. eapply yields_bind; [by apply clear_ok|]. intros s2 (Hv & Hh2 & Hz & Hn & Hp2 & _).
  eapply yields_bind; [apply (decrypt_ok reply s2 T keys_ok p); [done..|congruence|done]|].
  intros [[rc n] s3] H. case_if; [by case_if_in H; bool_to_prop|]. bool_to_prop. subst rc. simpl in H.
  destruct H as (H1 & H2 & H3). eapply yields_mono; [apply (finalize_ok s3 T p n H1)|naive_solver].
  pose proof (len_le n 0 H2) as H4. rewrite Z.lor_0_r in H4. lia.
Qed.

(** *** What a decryption publishes *)

(** The bytes of the result. *)
Definition result_value (s : results) : option bytes :=
  match zResult s with
  | Some z => match contents s z with
              | Ok d => Some (take (Z.to_nat (TH8_LEN (nResult s))) d)
              | Err _ => None
              end
  | None => None
  end.

(** There is a protected region for [n] bytes and a NUL, or memory for one. *)
Definition region_ready (reply : option bytes) (page : option Z) (s : results) (n : Z) : Prop :=
  match pProtectedResult s with
  | Some p => canary p = th8ProtectCanary ∧ n + 1 <= usable p
  | None => reply ≠ None ∧ ∃ k, page = Some k ∧ n + 1 <= k - th8ProtectedCanarySize
  end.

Lemma get_region_ready reply page s T n : held s T → 0 <= n → region_ready reply page s n →
  yields (th8GetProtectedResultRegion reply page s) (λ out, ∃ p, fst out = Some p ∧ held (snd out) T ∧
    pProtectedResult (snd out) = Some p ∧ canary p = th8ProtectCanary ∧ n + 1 <= usable p).
Proof.
  intros Hh Hn Hr. unfold region_ready in Hr. destruct (pProtectedResult s) as [p|] eqn:Hp.
  - unfold th8GetProtectedResultRegion. rewrite Hp. exists p. by destruct Hr.
  - destruct Hr as (Hreply & k & -> & Hk). destruct reply as [junk|]; [|done].
    pose proof (get_region_ok (Some junk) (Some k) s T Hh) as H.
    unfold th8GetProtectedResultRegion in *. rewrite Hp in *. simpl in *.
    destruct H as (H1 & _ & _); [apply Z.leb_le; lia|]. eexists. split_and!; [done|exact H1|done|done|done].
Qed.

(** The bytes at the start of the region after a write of [bs] at [off]. *)
Lemma region_write s T p off bs d x : scratch s T p →
  mem s !! pPageData p = Some (mkBlock Region false d x) → 0 <= off → off + zlen bs <= usable p →
  ∃ d', write s (pPageData p) off bs = Ok (put_block (pPageData p) (mkBlock Region false d' x) s) ∧
    zlen d' = usable p ∧ take (Z.to_nat off) d' = take (Z.to_nat off) d ∧
    (off = 0 → take (length bs) d' = bs).
Proof.
  intros Hs Hd Ho Hl. destruct (scratch_at s T p Hs) as (_ & d0 & x0 & Hd0 & Hl0 & _).
  rewrite Hd in Hd0. injection Hd0 as <- <-. rewrite (write_ok _ _ _ _ _ _ _ Hd) by lia.
  eexists. split; [done|]. rewrite splice_length by lia. split_and!; [done| |].
  - rewrite take_app_le, take_take, Nat.min_id; [done|]. unfold zlen in *. rewrite length_take. lia.
  - intros ->. simpl. by rewrite take_app_length.
Qed.

Lemma publish_value reply page s T out : held s T → out ≠ [] → zlen out <= TH8_LEN_MASK →
  region_ready reply page s (zlen out) → page_ok page = true →
  yields (publish_decrypted reply page s true (zlen out) (EvpDone out)) (λ o, let '(rc, s') := o in
    rc = TH8_OK ∧ Th8_IsResultSensitive s' = true ∧
    result_value s' = Some (take (Z.to_nat (strip_padding out)) out)).
Proof.
  intros Hh Hne Hmask Hr Hpage. unfold publish_decrypted.
  eapply yields_bind; [by apply (get_region_ready reply page s T (zlen out)); [|apply zlen_nonneg|]|].
  intros [p' s1] (p & E & Hh1 & Hp1 & Hcan & Hfit). simpl in E, Hh1, Hp1. subst p'.
  eapply yields_bind; [by apply clear_ok|]. intros s2 (Hv & _ & _ & _ & Hp2 & _).
  assert (Hsc : scratch s2 T p) by (apply vacant_scratch; congruence).
  destruct (scratch_at s2 T p Hsc) as (H0 & d & x & Hd & Hl & _).
  assert (Hpos : 1 <= zlen out) by (destruct out; [done|unfold zlen; simpl; lia]).
  pose proof (strip_le out) as Hst. set (n := strip_padding out) in *.
  destruct (region_write s2 T p 0 out d x Hsc Hd) as (d1 & Hw1 & Hl1 & _ & Ht1); [done|lia|].
  specialize (Ht1 eq_refl).
  destruct (scratch_put s2 T p d d1 x Hsc Hd Hl1) as [Hsc1 _].
  set (s3 := put_block (pPageData p) (mkBlock Region false d1 x) s2) in *.
  assert (Hd1 : mem s3 !! pPageData p = Some (mkBlock Region false d1 x)) by (simpl; by rewrite lookup_insert_eq).
  destruct (region_write s3 T p n [0] d1 x Hsc1 Hd1) as (d2 & Hw2 & Hl2 & Ht2 & _);
    [lia|change (zlen [0]) with 1; lia|].
  destruct (scratch_put s3 T p d1 d2 x Hsc1 Hd1 Hl2) as [Hsc2 _].
  set (s4 := put_block (pPageData p) (mkBlock Region false d2 x) s3) in *.
  assert (Hd2 : mem s4 !! pPageData p = Some (mkBlock Region false d2 x)) by (simpl; by rewrite lookup_insert_eq).
  destruct (region_write s4 T p n [0] d2 x Hsc2 Hd2) as (d3 & Hw3 & Hl3 & Ht3 & _);
    [lia|change (zlen [0]) with 1; lia|].
  assert (Hdec : th8SecureDecrypt reply s2 true p (zlen out) (EvpDone out) = Ok (TH8_OK, n, s4)).
  { unfold th8SecureDecrypt, th8ProtectedCheckCanary. cbn [negb].
    rewrite bool_decide_eq_true_2 by done. cbn [res_bind negb]. fold (usable p).
    rewrite (proj2 (Z.ltb_ge (nPageSize p) _)) by (unfold usable in *; lia).
    rewrite (proj2 (Z.eqb_neq _ _)), (proj2 (Z.ltb_ge _ _)) by lia.
    rewrite Hw1. cbn [res_bind]. fold n s3. rewrite Hw2. done. }
  rewrite Hdec. cbn [res_bind negb Z.eqb TH8_OK]. unfold th8FinalizeSensitiveResult.
  rewrite (sc_at _ _ _ Hsc2).
  assert (TH8_LEN n = n) as Hn by (apply TH8_LEN_small; lia). rewrite Hn, Hw3. simpl.
  split_and!; [done|apply sensitive_added|]. unfold result_value. simpl. unfold live. simpl.
  rewrite lookup_insert_eq. simpl. f_equal. rewrite len_added, Hn, Ht3, Ht2.
  rewrite <- Ht1, take_take, Nat.min_l; [done|]. unfold zlen in *. lia.
Qed.

Lemma error_message_ok how reply s T zPre z n : held s T →
  yields (Th8_ErrorMessage how reply s zPre z n) (λ out, held (snd out) T).
Proof.
  intros Hh. unfold Th8_ErrorMessage. destruct how.
  - unfold error_text.
    assert (∃ t, snd (detail z n) = tag_of t) as [t Ht].
    { unfold detail. repeat case_if; [by exists 0|by exists 0|by exists n]. }
    destruct (detail z n) as [d nTag]. simpl in Ht. subst nTag.
    match goal with |- context [PLit ?x] => set (text := x) end.
    eapply yields_bind; [apply (set_ok reply s T (Some (PLit text)) _ Hh)|by intros [rc s'] [H _]].
    simpl. apply orb_true_iff. right. apply Z.leb_le. apply len_le, zlen_nonneg.
  - eapply yields_bind; [by apply (set_ok reply s T)|by intros [rc s'] [H _]].
  - eapply yields_bind; [by apply set_static_ok|]. intros s' [[H1 H2 H3 H4] _]. by split.
Qed.

(** *** The host *)

Lemma held_foreign s T a d f : held s T →
  (∀ k d0 x, mem s !! a = Some (mkBlock k false d0 x) → k = Foreign ∧ (f = false → zlen d = zlen d0)) →
  (f = true → zResult s ≠ Some (PBlock a)) →
  held (put_block a (mkBlock Foreign f d false) s) T.
Proof.
  intros [Hh Hr Hz Hi] Ha Hf. split.
  - apply (heap_other _ _ _ Foreign); try done. intros d0 x H. by destruct (Ha _ _ _ H).
  - unfold region_ok in *. simpl. destruct (pProtectedResult s) as [p|]; [|done].
    destruct Hr as (H1 & d2 & x2 & H2 & H3). split; [done|]. exists d2, x2.
    rewrite lookup_insert_ne; [done|]. intros ->. by destruct (Ha _ _ _ H2).
  - unfold result_ok in *. simpl. destruct (zResult s) as [z|] eqn:E; [|done].
    destruct Hz as [(d2 & H1 & H2) H3]. split; [|done]. destruct z as [b|]; [|by exists d2].
    simpl in *. unfold live in *. simpl. rewrite lookup_insert. case_decide as Hab; [|by exists d2]. subst b.
    destruct f; [by destruct Hf|]. simpl. exists d. split; [done|].
    destruct (mem s !! a) as [[k [] d0 x]|] eqn:Em; try done. simpl in H1. injection H1 as <-.
    destruct (Ha _ _ _ eq_refl) as [_ Hl]. by rewrite Hl.
  - done.
Qed.

Lemma perform_ok c s T : held s T → allowed c (s, T) = true →
  yields (perform c (s, T)) (λ h, held (fst h) (snd h)).
Proof.
  intros Hh Ha.
  assert (Hs : ∀ m : res fault results, yields m (λ s', held s' T) →
    yields (let* s := m in Ok (s, T)) (λ h, held (fst h) (snd h))).
  { intros m Hm. eapply yields_bind; [exact Hm|]. done. }
  assert (Hp : ∀ m : res fault (Z * results), yields m (λ out, held (snd out) T) →
    yields (let* (_, s) := m in Ok (s, T)) (λ h, held (fst h) (snd h))).
  { intros m Hm. eapply yields_bind; [exact Hm|]. by intros [? ?]. }
  destruct c; simpl in Ha |- *.
  - apply Hp. eapply yields_mono; [by apply set_ok|]. naive_solver.
  - apply Hs. eapply yields_mono; [by apply static_ok|]. naive_solver.
  - apply Hs. eapply yields_mono; [by apply borrowed_ok|]. naive_solver.
  - apply Hs. eapply yields_mono; [by apply clear_ok|]. naive_solver.
  - eapply yields_bind; [by apply take_ok|]. intros [[z n] s'] [H _]. done.
  - eapply yields_bind; [by apply take_internal_ok|]. intros [[z n] s'] [H _]. done.
  - apply andb_true_iff in Ha as [Ha%bool_decide_eq_true Hn]. apply elem_of_dom in Ha as [n Ha].
    apply negb_true_iff, bool_decide_eq_false in Hn. rewrite Ha. simpl.
    eapply yields_bind; [by apply free_taken_ok|]. intros s' [H _]. done.
  - by apply mark_ok.
  - apply Hp. by apply error_message_ok.
  - apply andb_true_iff in Ha as [H1 H2]. apply Hp. by apply set_sensitive_ok.
  - apply andb_true_iff in Ha as [H1 H2]. apply Hp. by apply publish_ok.
  - apply held_foreign; [done| |done]. intros k d0 x H. by rewrite fresh_block in H.
  - unfold foreign in Ha. apply held_foreign; [done| |done]. intros k d0 x H. rewrite H in Ha.
    destruct k; try done. bool_to_prop. done.
  - apply andb_true_iff in Ha as [H1%negb_true_iff%bool_decide_eq_false H2].
    apply held_foreign; [done| |done]. intros k d0 x H. rewrite H in H2. by destruct k.
  - destruct Hh as [Hh Hr Hz Hi]. split; unfold rest, region_ok, in_region in *; simpl;
      destruct (pProtectedResult s); done.
Qed.

Lemma start_held : held (fst start) (snd start).
Proof.
  split; [|done|done|done]. split; simpl; [constructor|..].
  - intros a n H. by apply elem_of_nil in H.
  - intros a d x H. done.
  - intros a k d H. done.
Qed.

Lemma play_ok cs : ∀ h, held (fst h) (snd h) → fair cs h = true →
  yields (play cs h) (λ h, held (fst h) (snd h)).
Proof.
  induction cs as [|c cs IH]; intros [s T] Hh Hf; [done|]. cbn [fair] in Hf.
  apply andb_true_iff in Hf as [Ha Hf]. cbn [play]. pose proof (perform_ok c s T Hh Ha) as Hc.
  destruct (perform c (s, T)) as [h|]; [|done]. cbn [res_bind]. by apply IH.
Qed.

Lemma played cs s T : fair cs start = true → play cs start = Ok (s, T) → held s T.
Proof.
  intros Hf Hp. pose proof (play_ok cs start start_held Hf) as H. rewrite Hp in H. exact H.
Qed.

(** ** Theorems *)

(** The live heap blocks are exactly the blocks the host took, the result the
    interpreter owns and the structure of the protected region. *)
Definition exactly_owned (s : results) (T : gmap Z Z) : Prop := ∀ a,
  (∃ d x, mem s !! a = Some (mkBlock Heap false d x)) ↔
  a ∈ dom T ∨ (zResult s = Some (PBlock a) ∧ bResultBorrowed s = false) ∨
  (∃ p, pProtectedResult s = Some p ∧ pRegion p = a).

(** A freed block that held a secret is zero; the protected region is zero
    unless the result, marked sensitive, is in it; and the length of a live
    block with a secret says so. *)
Definition secrets_kept (s : results) (T : gmap Z Z) : Prop :=
  (∀ a k d, mem s !! a = Some (mkBlock k true d true) → Forall (eq 0) d) ∧
  (∀ p, pProtectedResult s = Some p → ∃ d x, mem s !! pPageData p = Some (mkBlock Region false d x) ∧
     (Forall (eq 0) d ∨ zResult s = Some (PBlock (pPageData p)) ∧ Th8_IsResultSensitive s = true)) ∧
  (∀ a n d, T !! a = Some n → mem s !! a = Some (mkBlock Heap false d true) → TH8_SENSITIVE n = true) ∧
  (∀ a d, zResult s = Some (PBlock a) → bResultBorrowed s = false →
     mem s !! a = Some (mkBlock Heap false d true) → Th8_IsResultSensitive s = true).

(** The taker has the bytes [d] in a block of its own. *)
Definition handed_over (p : option ptr) (d : bytes) (s : results) : Prop :=
  ∃ a x, p = Some (PBlock a) ∧ mem s !! a = Some (mkBlock Heap false (d ++ [0]) x).

(** C19.  Whatever calls are made within their contract, and whatever the allocator
    answers, the operations on results never touch a freed block, leave a block
    or free what is not theirs; and the live heap blocks are exactly the blocks
    the host took, the result the interpreter owns and the structure of the
    protected region, so that nothing leaks. *)
Theorem results_safe (cs : list call) (Hf : fair cs start = true) :
  ∃ s T, play cs start = Ok (s, T) ∧ exactly_owned s T.
Proof.
  pose proof (play_ok cs start start_held Hf) as H. destruct (play cs start) as [[s T]|]; [|done].
  exists s, T. split; [done|]. destruct H as [[_ Hin Hall _] _ _ _]. simpl in *. intros a.
  assert (Hmem : a ∈ (result_list s ++ rest s T).*1 ↔
    a ∈ dom T ∨ (zResult s = Some (PBlock a) ∧ bResultBorrowed s = false) ∨
    (∃ p, pProtectedResult s = Some p ∧ pRegion p = a)).
  { unfold rest. rewrite !fmap_app, !elem_of_app.
    assert (a ∈ (map_to_list T).*1 ↔ a ∈ dom T) as ->.
    { rewrite elem_of_dom. split.
      - intros ((a' & n) & -> & H%elem_of_map_to_list)%list_elem_of_fmap. by exists n.
      - intros [n H%elem_of_map_to_list]. by apply (list_elem_of_fmap_2 fst) in H. }
    unfold result_list, region_list. destruct (zResult s) as [[b|]|], (bResultBorrowed s), (pProtectedResult s);
      simpl; rewrite ?elem_of_nil, ?list_elem_of_singleton; naive_solver. }
  rewrite <- Hmem. split; [intros (d & x & H); by eapply Hall|].
  intros ((a' & n) & -> & H)%list_elem_of_fmap. destruct (Hin a' n H) as (d & x & H1 & _). by exists d, x.
Qed.

(** C20.  Bytes kept under a length with the sensitive bit do not outlive it: a freed
    block that held them is zero, and so is the protected region unless the
    result, marked sensitive, is in it; and no block with such bytes is handed
    over or kept under a length without the bit. *)
Theorem secrets_wiped (cs : list call) (s : results) (T : gmap Z Z)
  (Hf : fair cs start = true) (Hp : play cs start = Ok (s, T)) : secrets_kept s T.
Proof.
  destruct (played cs s T Hf Hp) as [[_ Hin _ Hz] Hr _ Hi]. split_and!.
  - exact Hz.
  - intros p E. unfold region_ok in Hr. rewrite E in Hr. destruct Hr as (_ & d & x & Hd & _ & Hzero).
    exists d, x. split; [done|]. destruct (in_region s) eqn:Ei; [|by left; apply Hzero]. right.
    split; [|by apply Hi]. unfold in_region in Ei. rewrite E in Ei.
    destruct (zResult s) as [[a|]|]; try done. by apply Z.eqb_eq in Ei as ->.
  - intros a n d Ha Hd. destruct (Hin a n) as (d' & x & H1 & _ & H3); [apply elem_of_app; right; by apply rest_in|].
    rewrite Hd in H1. injection H1 as <- <-. by apply H3.
  - intros a d Hzz Hb Hd. destruct (Hin a (nResult s)) as (d' & x & H1 & _ & H3).
    { apply elem_of_app. left. unfold result_list. rewrite Hzz, Hb. by left. }
    rewrite Hd in H1. injection H1 as <- <-. by apply H3.
Qed.

(** C21.  A value that was set is taken back with the same bytes, the same length and
    the same tags, in a block of the taker's; without memory the first call
    fails and leaves no result. *)
Theorem set_then_take (cs : list call) (s : results) (T : gmap Z Z) (z : ptr) (n : Z)
  (reply reply' : option bytes)
  (Hf : fair cs start = true) (Hp : play cs start = Ok (s, T)) (Hz : readable (s, T) z n = true) :
  ∃ d nRaw nTag, argument s z n d nRaw nTag ∧
  yields (Th8_SetResult reply s (Some z) n) (λ out, let '(rc, s1) := out in
    (rc = TH8_ERROR ∧ (reply = None ∨ TH8_MX_ALLOC < nRaw + 1) ∧ zResult s1 = None ∧
     bResultBuildFailed s1 = true) ∨
    (rc = TH8_OK ∧
     yields (th8TakeResultInternal reply' s1) (λ out, let '(p, n', s2) := out in
       n' = Z.lor nRaw nTag ∧ TH8_LEN n' = nRaw ∧ zResult s2 = None ∧
       (handed_over p (take (Z.to_nat nRaw) d) s2 ∨
        p = None ∧ Th8_IsResultSensitive s1 = true ∧ reply' = None)))).
Proof.
  pose proof (played cs s T Hf Hp) as Hh. destruct (read_argument s T z n Hz) as (d & nRaw & nTag & Ha).
  exists d, nRaw, nTag. split; [done|]. eapply yields_mono; [by apply set_ok|].
  intros [rc s1] (Hh1 & _ & _ & Hw). destruct (Hw z d nRaw nTag eq_refl Ha) as [H|(H1 & H4 & _ & H2 & H3)]; [|by left].
  right. simpl in H. destruct H as (-> & Hn & Hl & Hb & a & x & Hzz & Hm). split; [done|].
  unfold th8TakeResultInternal, Th8_TakeResult, Th8_IsResultSensitive, Th8_GetResult.
  destruct (TH8_SENSITIVE (nResult s1)) eqn:Hs.
  - rewrite Hzz. cbn [default]. destruct Ha as (_ & _ & Hr & _).
    assert (zlen (take (Z.to_nat nRaw) d) = nRaw) as Hlen by (unfold zlen in *; rewrite length_take; lia).
    eapply yields_bind; [apply (copy_ok reply' (PBlock a) _ s1 (take (Z.to_nat nRaw) d ++ [0]))|].
    + simpl. by rewrite (live_ok _ _ _ _ _ Hm).
    + rewrite Hl, zlen_app, Hlen. change (zlen [0]) with 1. lia.
    + intros [[b|] s2].
      * intros (Hb1 & _ & ->). cbn [fmap option_fmap option_map]. rewrite note_put, Hs.
        eapply yields_bind; [apply (clear_ok _ (<[b := nResult s1]> T)), held_new; [done|done| |done]|].
        { rewrite Hl, take_app_le, take_take, Nat.min_id, zlen_app, Hlen; [done|]. unfold zlen in *. lia. }
        intros s3 (_ & _ & H3 & _ & _ & Hsrc). simpl. split_and!; [done|done|done|].
        destruct (Hsrc b Heap (take (Z.to_nat (TH8_LEN (nResult s1))) (take (Z.to_nat nRaw) d ++ [0]) ++ [0]) true)
          as [x' Hx']; [simpl; by rewrite lookup_insert_eq|right; set_solver|].
        left. exists b, x'. split; [done|]. rewrite Hx', Hl, take_app_le, take_take, Nat.min_id; [done|]. unfold zlen in *. lia.
      * intros [-> Hnone]. simpl. eapply yields_bind; [by apply clear_ok|]. intros s3 (_ & _ & H3 & _).
        split_and!; [done..|]. right. split_and!; [done..|]. destruct Hnone as [?|Hbig]; [done|]. rewrite Hl in Hbig.
        pose proof (LEN_nonneg (nResult s1)). pose proof (len_mask_mod (nResult s1)).
        pose proof (Z.mod_pos_bound (nResult s1) (2 ^ 28) eq_refl). unfold TH8_MX_ALLOC in Hbig. lia.
  - rewrite Hb. simpl. rewrite Hzz. split_and!; [done|done|done|]. left. by exists a, x.
Qed.

(** ** A session

    A tainted value is set, marked sensitive, taken, freed, and a sensitive
    result follows. *)
Definition session : list call := [
  CHostBlock (bytes_of_string "abc");
  CSetResult (Some [7; 7]) (Some (PBlock 0)) (Z.lor 3 TH8_TAINT_BIT);
  CMarkResultSensitive;
  CTakeResultInternal (Some []);
  CFreeTaken 2;
  CSetResultSensitive (Some []) (Some 16) (Some (PLit (bytes_of_string "key"))) TH8_NOLEN].

Definition state_after (cs : list call) : host :=
  match play cs start with Ok h => h | Err _ => start end.

Lemma results_safe_witness : fair session start = true ∧
  ∃ s T, play session start = Ok (s, T) ∧ exactly_owned s T.
Proof. split; [by vm_compute|]. apply (results_safe session). by vm_compute. Defined.

Lemma secrets_wiped_witness : play session start = Ok (state_after session) ∧
  nResult (fst (state_after session)) = Z.lor 3 TH8_SENSITIVE_BIT ∧
  secrets_kept (fst (state_after session)) (snd (state_after session)).
Proof.
  split; [by vm_compute|]. split; [by vm_compute|].
  apply (secrets_wiped session (fst (state_after session)) (snd (state_after session))); by vm_compute.
Defined.

Lemma set_then_take_witness :
  let '(s, T) := state_after [CHostBlock (bytes_of_string "abc")] in
  ∃ d nRaw nTag, argument s (PBlock 0) (Z.lor 2 TH8_SENSITIVE_BIT) d nRaw nTag ∧
    (nRaw, nTag) = (2, TH8_SENSITIVE_BIT) ∧ take (Z.to_nat nRaw) d = bytes_of_string "ab".
Proof.
  destruct (set_then_take [CHostBlock (bytes_of_string "abc")]
    (fst (state_after [CHostBlock (bytes_of_string "abc")]))
    (snd (state_after [CHostBlock (bytes_of_string "abc")]))
    (PBlock 0) (Z.lor 2 TH8_SENSITIVE_BIT) (Some []) (Some [])) as (d & nRaw & nTag & Ha & _);
    [by vm_compute..|].
  exists d, nRaw, nTag. split; [exact Ha|]. destruct Ha as (H1 & H2 & _).
  vm_compute in H1, H2. injection H1 as <-. injection H2 as <- <-. by vm_compute.
Defined.

(** Without memory for a copy of a borrowed result, Th8_TakeResult answers NULL
    with a length that is not 0. *)
Example take_without_memory :
  match play [CSetResultStatic (Some (PLit (bytes_of_string "abc"))) 3] start with
  | Ok h => match Th8_TakeResult None (fst h) with
            | Ok (z, n, _) => z = None ∧ n = 3
            | Err _ => False
            end
  | Err _ => False
  end.
Proof. vm_compute. done. Qed.

(** A sensitive detail does not reach an error message. *)
Lemma error_withholds how reply s zPre z z' n : n ≠ TH8_NOLEN → TH8_SENSITIVE n = true →
  Th8_ErrorMessage how reply s zPre z n = Th8_ErrorMessage how reply s zPre z' n.
Proof.
  intros Hn Hs. unfold Th8_ErrorMessage, error_text, detail.
  by rewrite (proj2 (Z.eqb_neq n TH8_NOLEN) Hn), Hs.
Qed.
