(* ===== verification/Secure.v ===== *)
(** * Secure: encrypted variables and their key store
    (src/src/plugins/crypto/th8_secure.c).

    A secure variable has a key in a slot of a locked page and a ciphertext in
    a table by name; a variable of that name exists with an empty value.  The
    cipher (AES-256-GCM of the cryptographic library), the random source and
    the allocator are parameters; the variables are behind an interface. *)

From stdpp Require Import gmap.
From S2P Require Import Prelude Memory Strings Results.
#[local] Open Scope Z_scope.
#[local] Open Scope res_scope.

(** ** Padding *)

Definition th8SecurePadSize (nPlain : Z) : Z :=
  let nPad := TH8_SECURE_PAD_BLOCK - nPlain mod TH8_SECURE_PAD_BLOCK in
  let nPad := if nPad =? 0 then TH8_SECURE_PAD_BLOCK else nPad in
  nPlain + nPad.

(** The padded plaintext: every added byte is their number. *)
Definition pad (zPlain : bytes) : bytes :=
  let nPadded := th8SecurePadSize (zlen zPlain) in
  let nPad := nPadded - zlen zPlain in
  zPlain ++ replicate (Z.to_nat nPad) (nPad mod 256).

Lemma pad_count n : 0 <= n → 1 <= th8SecurePadSize n - n <= 64 ∧ th8SecurePadSize n mod 64 = 0.
Proof.
  intros Hn. unfold th8SecurePadSize, TH8_SECURE_PAD_BLOCK.
  pose proof (Z.mod_pos_bound n 64 eq_refl).
  rewrite (proj2 (Z.eqb_neq _ _)) by lia. split; [lia|].
  replace (n + (64 - n mod 64)) with ((n / 64 + 1) * 64); [by rewrite Z.mod_mul|].
  pose proof (Z.div_mod n 64 ltac:(lia)). lia.
Qed.

Lemma pad_length z : zlen (pad z) = th8SecurePadSize (zlen z).
Proof.
  pose proof (pad_count (zlen z) (zlen_nonneg z)). unfold pad.
  rewrite zlen_app. unfold zlen at 2. rewrite length_replicate. lia.
Qed.

(** What is left of a padded value: the test of th8SecureDecrypt compares the
    number of added bytes with the length as an unsigned char, so the padding
    stays when the length is a multiple of 256. *)
Definition kept (zPlain : bytes) : bytes :=
  if th8SecurePadSize (zlen zPlain) mod 256 =? 0 then pad zPlain else zPlain.

Lemma mask_zero v n : fold_left Z.lor (map (Z.lxor v) (replicate n v)) 0 = 0.
Proof. induction n; simpl; [done|]. by rewrite Z.lxor_nilpotent. Qed.

Lemma last_pad (z : bytes) k v : (0 < k)%nat → last (z ++ replicate k v) = Some v.
Proof.
  intros Hk. rewrite last_app. destruct k; [lia|]. rewrite replicate_S_end, last_snoc. done.
Qed.

Lemma rev_pad (z : bytes) k v : take k (rev (z ++ replicate k v)) = replicate k v.
Proof.
  rewrite rev_app_distr. assert (rev (replicate k v) = replicate k v) as ->.
  { symmetry. apply replicate_as_elem_of. split; [by rewrite length_rev, length_replicate|].
    intros y. rewrite list_elem_of_In, <- in_rev, <- list_elem_of_In. by intros [-> _]%elem_of_replicate. }
  by rewrite take_app_length'; rewrite ?length_replicate.
Qed.

Lemma strip_pad z : take (Z.to_nat (strip_padding (pad z))) (pad z) = kept z.
Proof.
  pose proof (pad_count (zlen z) (zlen_nonneg z)) as [Hc Hm]. pose proof (pad_length z) as Hl.
  unfold strip_padding, kept. set (k := th8SecurePadSize (zlen z) - zlen z) in *.
  assert (Hk : k mod 256 = k) by (apply Z.mod_small; lia).
  assert (Hp : pad z = z ++ replicate (Z.to_nat k) k) by (unfold pad; fold k; by rewrite Hk).
  assert (last (pad z) = Some k) as -> by (rewrite Hp; apply last_pad; lia).
  rewrite Hp at 1. rewrite rev_pad, mask_zero. cbn [Z.eqb andb].
  rewrite (proj2 (Z.ltb_lt _ _)), (proj2 (Z.leb_le k _)) by (unfold TH8_SECURE_PAD_BLOCK; lia). cbn [andb].
  rewrite Hl. destruct (th8SecurePadSize (zlen z) mod 256 =? 0) eqn:E; bool_to_prop.
  - rewrite E, (proj2 (Z.leb_gt _ _)) by lia. apply take_ge. unfold zlen in *. lia.
  - assert (k <= th8SecurePadSize (zlen z) mod 256).
    { pose proof (Z.mod_pos_bound (th8SecurePadSize (zlen z)) 256 eq_refl).
      assert (Hd : (th8SecurePadSize (zlen z) mod 256) mod 64 = 0).
      { by rewrite Z.mod_mod_divide by (by exists 4). }
      apply Z.mod_divide in Hd as [q Hq]; [|lia]. lia. }
    rewrite (proj2 (Z.leb_le _ _)) by done.
    replace (Z.to_nat (th8SecurePadSize (zlen z) - k)) with (length z) by (unfold k, zlen; lia).
    by rewrite Hp, take_app_length.
Qed.

(** ** The key store *)

Definition TH8_SECURE_KEY_SIZE : nat := 32.
Definition TH8_SECURE_MAX_SLOTS : nat := 128.
Definition TH8_SECURE_MASTER_SLOT : nat := 1.
Definition TH8_SECURE_FIRST_VAR : nat := 2.
Definition th8SecureCanary : bytes := [0x77; 0x73; 0x5A; 0x9F; 0x68; 0xBF; 0x3B; 0x9B].

Record Th8_SecureVarData : Type := mkData { zCipher : bytes; aTag : bytes; nNonce : Z; iSlot : nat }.
Record Th8_KeyStore : Type := mkKS { pPage : bytes; nUsed : Z; aBitmap : bytes }.

(** [bs] written into a block at [off]. *)
Definition put_bytes (off : nat) (bs d : bytes) : bytes :=
  take off d ++ bs ++ drop (off + length bs) d.

Definition th8SlotIsUsed (ks : Th8_KeyStore) (i : nat) : bool :=
  negb (Z.land (Z.shiftr (nth (i / 8) (aBitmap ks) 0) (Z.of_nat (i mod 8))) 1 =? 0).
Definition set_bitmap (i : nat) (f : Z → Z) (ks : Th8_KeyStore) : Th8_KeyStore :=
  mkKS (pPage ks) (nUsed ks) (alter f (i / 8)%nat (aBitmap ks)).
Definition th8SlotSetUsed (i : nat) : Th8_KeyStore → Th8_KeyStore :=
  set_bitmap i (λ b, Z.lor b (Z.shiftl 1 (Z.of_nat (i mod 8)))).
Definition th8SlotClearUsed (i : nat) : Th8_KeyStore → Th8_KeyStore :=
  set_bitmap i (λ b, Z.land b (Z.lnot (Z.shiftl 1 (Z.of_nat (i mod 8))) mod 256)).
Definition add_used (n : Z) (ks : Th8_KeyStore) : Th8_KeyStore :=
  mkKS (pPage ks) (nUsed ks + n) (aBitmap ks).

Definition th8SlotKey (ks : Th8_KeyStore) (i : nat) : bytes :=
  take TH8_SECURE_KEY_SIZE (drop (i * TH8_SECURE_KEY_SIZE) (pPage ks)).
Definition put_key (i : nat) (key : bytes) (ks : Th8_KeyStore) : Th8_KeyStore :=
  mkKS (put_bytes (i * TH8_SECURE_KEY_SIZE) key (pPage ks)) (nUsed ks) (aBitmap ks).
Definition zero_key : bytes := replicate TH8_SECURE_KEY_SIZE 0.

Definition canary_intact (ks : Th8_KeyStore) : bool :=
  bool_decide (take 8 (pPage ks) = th8SecureCanary).

(** The slot of a variable is given back. *)
Definition release_slot (i : nat) (ks : Th8_KeyStore) : Th8_KeyStore :=
  add_used (-1) (th8SlotClearUsed i (put_key i zero_key ks)).

(** The first free slot of the variables. *)
Definition free_slot (ks : Th8_KeyStore) : option nat :=
  find (λ i, negb (th8SlotIsUsed ks i))
    (seq TH8_SECURE_FIRST_VAR (TH8_SECURE_MAX_SLOTS - TH8_SECURE_FIRST_VAR)).

(** A fresh key page of [n] bytes. *)
Definition key_page (n : nat) : Th8_KeyStore :=
  th8SlotSetUsed 0 (mkKS (put_bytes 0 th8SecureCanary (replicate n 0)) 0 (replicate (TH8_SECURE_MAX_SLOTS / 8) 0)).

Definition th8SecureDeriveNonce (nCounter : Z) : bytes :=
  map (λ i : nat, Z.shiftr nCounter (Z.of_nat (i * 8)) mod 256) (seq 0 8) ++ [0; 0; 0; 0].

(** ** The environment *)

(** Authenticated encryption: the ciphertext and the tag, of a key, a nonce,
    authenticated data and a text. *)
Class Cipher : Type := {
  seal : bytes → bytes → bytes → bytes → bytes * bytes;
  unseal : bytes → bytes → bytes → bytes → bytes → option bytes
}.

Class CipherLaws `{Cipher} : Prop := {
  unseal_seal key nonce aad z :
    unseal key nonce aad (fst (seal key nonce aad z)) (snd (seal key nonce aad z)) = Some z;
  unseal_length key nonce aad c t z : unseal key nonce aad c t = Some z → zlen z = zlen c
}.

(** The variables: Th8_ExistsVar, the part of Th8_SetVar that is not about
    secure variables, Th8_UnsetVar. *)
Class VarInterp (I : Type) : Type := {
  Th8_ExistsVar : I → bytes → bool;
  set_value : I → bytes → bytes → bool * I;
  Th8_UnsetVar : I → bytes → I
}.

(** Where memory is asked for. *)
Inductive site : Type := APad | AOut | AData | AHash | AEntry.

(** The answers of the platform during one operation: the random bytes, the
    allocator, whether the cryptographic library fails (in a decryption, with
    what it had written before), and what the operations on results need. *)
Record answers : Type := mkAnswers {
  random : option bytes;
  grant : site → bool;
  enc_fails : bool;
  dec_fails : option (option bytes * string);
  reply : option bytes;
  page : option Z;
  how : built
}.

Section store.
Context `{Ci : Cipher} {I : Type} `{VI : VarInterp I}.

Record secure : Type := mkS {
  rs : results;
  pKeyStore : option Th8_KeyStore;
  paSecureVar : option (gmap bytes Th8_SecureVarData);   (* NULL until the first variable *)
  vs : I
}.
Definition set_rs (r : results) (st : secure) : secure := mkS r (pKeyStore st) (paSecureVar st) (vs st).
Definition set_ks (k : option Th8_KeyStore) (st : secure) : secure := mkS (rs st) k (paSecureVar st) (vs st).
Definition set_table (t : option (gmap bytes Th8_SecureVarData)) (st : secure) : secure :=
  mkS (rs st) (pKeyStore st) t (vs st).
Definition set_vs (i : I) (st : secure) : secure := mkS (rs st) (pKeyStore st) (paSecureVar st) i.

Definition say (st : secure) (text : string) : res fault (Z * secure) :=
  let* (rc, r) := refuse (rs st) text in Ok (rc, set_rs r st).

Definition complain (a : answers) (st : secure) (zPre name : bytes) : res fault (Z * secure) :=
  let* (rc, r) := Th8_ErrorMessage (how a) (reply a) (rs st) zPre name (zlen name) in
  Ok (rc, set_rs r st).

Definition find_secure (st : secure) (name : bytes) : option Th8_SecureVarData :=
  t ← paSecureVar st; t !! name.
Definition th8IsSecureVar (st : secure) (name : bytes) : bool := bool_decide (is_Some (find_secure st name)).

(** ** Encryption *)

(** The metadata changes as far as the function got. *)
Definition th8SecureEncrypt (a : answers) (r : results) (ks : Th8_KeyStore) (d : Th8_SecureVarData)
    (name zPlain : bytes) (nPlain : Z) : res fault (Z * Th8_SecureVarData * results) :=
  if negb (canary_intact ks) then
    let* (rc, r) := refuse r "secure variable: key page canary corrupted (possible buffer overflow)" in
    Ok (rc, d, r)
  else if negb (grant a APad) || (TH8_MX_ALLOC <? th8SecurePadSize nPlain) then Ok (TH8_ERROR, d, r)
  else if zlen zPlain <? nPlain then Err OutOfBounds
  else if negb (grant a AOut) then Ok (TH8_ERROR, d, r)
  else
    let n := (nNonce d + 1) mod 2 ^ 64 in
    if enc_fails a then Ok (TH8_ERROR, mkData (zCipher d) (aTag d) n (iSlot d), r)
    else
      let '(c, t) := seal (th8SlotKey ks (iSlot d)) (th8SecureDeriveNonce n) name
                       (pad (take (Z.to_nat nPlain) zPlain)) in
      Ok (TH8_OK, mkData c t n (iSlot d), r).

(** What the library answers to the decryption of a variable. *)
Definition decryption (a : answers) (ks : Th8_KeyStore) (d : Th8_SecureVarData) (name : bytes) : evp :=
  match dec_fails a with
  | Some (None, text) => EvpSetup text
  | Some (Some out, text) => EvpLate (take (length (zCipher d)) out) text
  | None =>
      match unseal (th8SlotKey ks (iSlot d)) (th8SecureDeriveNonce (nNonce d)) name (zCipher d) (aTag d) with
      | Some z => EvpDone z
      | None => EvpLate [] "secure variable: authentication failed (data may be corrupted)"
      end
  end.

Definition th8SecureGetVar (a : answers) (st : secure) (name : bytes) : res fault (Z * secure) :=
  match find_secure st name, pKeyStore st with
  | Some d, Some ks =>
      let* (rc, r) := publish_decrypted (reply a) (page a) (rs st) (canary_intact ks)
                        (zlen (zCipher d)) (decryption a ks d name) in
      Ok (rc, set_rs r st)
  | _, _ => Ok (TH8_ERROR, st)
  end.

(** The key is replaced before the value is encrypted. *)
Definition th8SecureSetVar (a : answers) (st : secure) (name zNewVal : bytes) : res fault (Z * secure) :=
  match find_secure st name with
  | None => Ok (TH8_OK, st)
  | Some d =>
      match pKeyStore st with
      | None => Ok (TH8_ERROR, st)
      | Some ks =>
          let ks := put_key (iSlot d) zero_key ks in
          match random a with
          | None => Ok (TH8_ERROR, set_ks (Some ks) st)
          | Some key =>
              let ks := put_key (iSlot d) key ks in
              let* (rc, d, r) := th8SecureEncrypt a (rs st) ks d name zNewVal (zlen zNewVal) in
              Ok (rc, set_rs r (set_ks (Some ks) (set_table ((λ t, <[name := d]> t) <$> paSecureVar st) st)))
          end
      end
  end.

(** Th8_SetVar of a value without tags. *)
Definition Th8_SetVar (a : answers) (st : secure) (name zVal : bytes) : res fault (Z * secure) :=
  let '(ok, i) := set_value (vs st) name zVal in
  let st := set_vs i st in
  if negb ok then say st "out of memory"
  else if th8IsSecureVar st name then th8SecureSetVar a st name zVal
  else Ok (TH8_OK, st).

(** The test for an array element, over [nVar] bytes of the name's memory. *)
Fixpoint has_paren (zVar : bytes) (nVar : Z) : res fault bool :=
  if nVar <=? 0 then Ok false
  else
    match zVar with
    | c :: z => if c =? ("(")%ch then Ok true else has_paren z (nVar - 1)
    | [] => Err OutOfBounds
    end.

(** [nVar] and [nVal] are lengths as the commands get them, with their tags; the
    answers [a'] are for setting the variable. *)
Definition th8SecureVarCreate (a a' : answers) (st : secure) (zVar : bytes) (nVar : Z) (zVal : bytes) (nVal : Z)
    : res fault (Z * secure) :=
  match pKeyStore st with
  | None => say st "secure variables not initialized"
  | Some ks =>
      let name := take (Z.to_nat (TH8_LEN nVar)) zVar in
      if Th8_ExistsVar (vs st) name then
        complain a st (bytes_of_string "cannot modify existing variable " ++ [DQUOTE]) name
      else
        let* paren := has_paren zVar nVar in
        if paren then say st "secure: array elements not supported"
        else if Z.of_nat TH8_SECURE_MAX_SLOTS - 1 <=? nUsed ks then
          say st "secure: maximum number of secure variables reached (127)"
        else
          match free_slot ks with
          | None => say st "secure: no free key slots"
          | Some i =>
              match random a with
              | None => say st "secure: cannot generate key material"
              | Some key =>
                  let ks := add_used 1 (th8SlotSetUsed i (put_key i key ks)) in
                  let back st := set_ks (release_slot i <$> pKeyStore st) st in
                  let st := set_ks (Some ks) st in
                  if negb (grant a AData) then Ok (TH8_ERROR, back st)
                  else
                    let* (rc, d, r) := th8SecureEncrypt a (rs st) ks (mkData [] [] 0 i) name zVal nVal in
                    let st := set_rs r st in
                    if negb (rc =? TH8_OK) then Ok (TH8_ERROR, back st)
                    else
                      let* (rc, st) := Th8_SetVar a' st name [] in
                      if negb (rc =? TH8_OK) then Ok (TH8_ERROR, back st)
                      else if bool_decide (paSecureVar st = None) && negb (grant a AHash) then
                        say (back st) "out of memory"
                      else
                        let t := default ∅ (paSecureVar st) in
                        let st := set_table (Some t) st in
                        if bool_decide (is_Some (t !! name)) || grant a AEntry then
                          Ok (TH8_OK, set_table (Some (<[name := d]> t)) st)
                        else Ok (TH8_OK, st)
              end
          end
  end.

Definition th8SecureVarDelete (a : answers) (st : secure) (name : bytes) : res fault (Z * secure) :=
  match find_secure st name with
  | None => complain a st (bytes_of_string "variable is not secure: " ++ [DQUOTE]) name
  | Some d =>
      let st := set_ks (release_slot (iSlot d) <$> pKeyStore st) st in
      let st := set_table (delete name <$> paSecureVar st) st in
      Ok (TH8_OK, set_vs (Th8_UnsetVar (vs st) name) st)
  end.

(** The master key: slot 1, outside the bitmap. *)
Definition Th8_SecureSetMasterKey (st : secure) (pKey : bytes) : res fault (Z * secure) :=
  if negb (length pKey =? TH8_SECURE_KEY_SIZE)%nat then say st "master key must be exactly 32 bytes"
  else
    match pKeyStore st with
    | None => say st "secure variables not initialized"
    | Some ks =>
        if negb (canary_intact ks) then
          say st "secure variable: key page canary corrupted (possible buffer overflow)"
        else Ok (TH8_OK, set_ks (Some (put_key TH8_SECURE_MASTER_SLOT pKey ks)) st)
    end.

Definition Th8_SecureClearMasterKey (st : secure) : secure :=
  set_ks (put_key TH8_SECURE_MASTER_SLOT zero_key <$> pKeyStore st) st.

Definition th8SecureHasMasterKey (st : secure) : bool :=
  match pKeyStore st with
  | Some ks => existsb (λ c, negb (c =? 0)) (th8SlotKey ks TH8_SECURE_MASTER_SLOT)
  | None => false
  end.
End store.
Arguments secure : clear implicits.

(** ** Slots *)

Lemma used_testbit ks i : th8SlotIsUsed ks i = Z.testbit (nth (i / 8) (aBitmap ks) 0) (Z.of_nat (i mod 8)).
Proof.
  unfold th8SlotIsUsed. rewrite Z.testbit_odd. set (x := Z.shiftr _ _).
  change 1 with (Z.ones 1) at 1. rewrite Z.land_ones by lia. change (2 ^ 1) with 2.
  rewrite Zmod_odd. by destruct (Z.odd x).
Qed.

Lemma nth_alter (l : bytes) f (k j : nat) : (k < length l)%nat →
  nth j (alter f k l) 0 = if decide (j = k) then f (nth k l 0) else nth j l 0.
Proof.
  intros Hk. rewrite !nth_lookup. destruct (lookup_lt_is_Some_2 l k Hk) as [x Hx]. case_decide as E.
  - subst j. by rewrite list_lookup_alter_eq, Hx.
  - by rewrite list_lookup_alter_ne.
Qed.

Lemma slot_index (i j : nat) : i ≠ j → (i / 8)%nat = (j / 8)%nat → (i mod 8 ≠ j mod 8)%nat.
Proof.
  intros Hne Hd Hm. apply Hne. rewrite (Nat.div_mod_eq i 8), (Nat.div_mod_eq j 8). lia.
Qed.

Definition bitmap_ok (ks : Th8_KeyStore) : Prop := length (aBitmap ks) = 16%nat.

Lemma bitmap_index i ks : bitmap_ok ks → (i < TH8_SECURE_MAX_SLOTS)%nat → (i / 8 < length (aBitmap ks))%nat.
Proof. intros -> Hi. apply Nat.Div0.div_lt_upper_bound. unfold TH8_SECURE_MAX_SLOTS in Hi. lia. Qed.

Lemma used_set i j ks : bitmap_ok ks → (i < TH8_SECURE_MAX_SLOTS)%nat →
  th8SlotIsUsed (th8SlotSetUsed i ks) j = (if decide (i = j) then true else th8SlotIsUsed ks j).
Proof.
  intros Hb Hi. rewrite !used_testbit. unfold th8SlotSetUsed, set_bitmap. cbn [aBitmap]. rewrite nth_alter by by apply bitmap_index.
  pose proof (Nat.mod_upper_bound i 8 ltac:(done)). pose proof (Nat.mod_upper_bound j 8 ltac:(done)).
  case_decide as E1.
  - rewrite Z.lor_spec, Z.shiftl_1_l, Z.pow2_bits_eqb by lia. case_decide as E2.
    + subst. by rewrite Z.eqb_refl, orb_true_r.
    + assert (Z.of_nat (i mod 8) ≠ Z.of_nat (j mod 8)) as Hm%Z.eqb_neq.
      { intros ?%Nat2Z.inj. by apply (slot_index i j E2). }
      by rewrite Hm, orb_false_r, E1.
  - rewrite decide_False; [done|]. by intros ->.
Qed.

Lemma used_clear i j ks : bitmap_ok ks → (i < TH8_SECURE_MAX_SLOTS)%nat →
  th8SlotIsUsed (th8SlotClearUsed i ks) j = (if decide (i = j) then false else th8SlotIsUsed ks j).
Proof.
  intros Hb Hi. rewrite !used_testbit. unfold th8SlotClearUsed, set_bitmap. cbn [aBitmap]. rewrite nth_alter by by apply bitmap_index.
  pose proof (Nat.mod_upper_bound i 8 ltac:(done)). pose proof (Nat.mod_upper_bound j 8 ltac:(done)).
  case_decide as E1.
  - change 256 with (2 ^ 8).
    rewrite Z.land_spec, Z.mod_pow2_bits_low, Z.lnot_spec, Z.shiftl_1_l, Z.pow2_bits_eqb by lia.
    case_decide as E2.
    + subst. by rewrite Z.eqb_refl, andb_false_r.
    + assert (Z.of_nat (i mod 8) ≠ Z.of_nat (j mod 8)) as Hm%Z.eqb_neq.
      { intros ?%Nat2Z.inj. by apply (slot_index i j E2). }
      by rewrite Hm, andb_true_r, E1.
  - rewrite decide_False; [done|]. by intros ->.
Qed.

Lemma put_lookup off bs d k : (off + length bs <= length d)%nat →
  put_bytes off bs d !! k = if decide (off <= k < off + length bs)%nat then bs !! (k - off)%nat else d !! k.
Proof.
  intros Hl. unfold put_bytes. case_decide as H.
  - rewrite lookup_app_r; rewrite length_take_le by lia; [|lia]. rewrite lookup_app_l by lia. done.
  - destruct (decide (k < off)%nat).
    + rewrite lookup_app_l by (rewrite length_take_le; lia). by rewrite lookup_take_lt.
    + rewrite lookup_app_r; rewrite length_take_le by lia; [|lia].
      rewrite lookup_app_r by lia. rewrite lookup_drop. f_equal. lia.
Qed.

Lemma put_length off bs d : (off + length bs <= length d)%nat → length (put_bytes off bs d) = length d.
Proof. intros Hl. unfold put_bytes. rewrite !length_app, length_take_le, length_drop by lia. lia. Qed.

Lemma sub_put off bs d off' n : (off + length bs <= length d)%nat →
  take n (drop off' (put_bytes off bs d)) =
    if decide (off' = off ∧ n = length bs) then bs
    else take n (drop off' (put_bytes off bs d)).
Proof.
  intros Hl. case_decide as H; [|done]. destruct H as [-> ->]. apply list_eq. intros k.
  destruct (decide (k < length bs)%nat).
  - rewrite lookup_take_lt, lookup_drop, put_lookup, decide_True by lia. f_equal. lia.
  - rewrite lookup_take_ge by lia. symmetry. by apply lookup_ge_None_2; lia.
Qed.

Lemma sub_put_other off bs d off' n : (off + length bs <= length d)%nat →
  (off' + n <= off)%nat ∨ (off + length bs <= off')%nat →
  take n (drop off' (put_bytes off bs d)) = take n (drop off' d).
Proof.
  intros Hl Ho. apply list_eq. intros k. destruct (decide (k < n)%nat).
  - rewrite !lookup_take_lt, !lookup_drop, put_lookup, decide_False by lia. done.
  - by rewrite !lookup_take_ge by lia.
Qed.

Definition page_big (ks : Th8_KeyStore) : Prop :=
  (TH8_SECURE_MAX_SLOTS * TH8_SECURE_KEY_SIZE <= length (pPage ks))%nat.

Lemma key_put i j key ks : page_big ks → (i < TH8_SECURE_MAX_SLOTS)%nat → length key = TH8_SECURE_KEY_SIZE →
  th8SlotKey (put_key i key ks) j = if decide (i = j) then key else th8SlotKey ks j.
Proof.
  unfold page_big, TH8_SECURE_MAX_SLOTS, TH8_SECURE_KEY_SIZE. intros Hp Hi Hk.
  unfold th8SlotKey, put_key. simpl pPage. unfold TH8_SECURE_KEY_SIZE. case_decide.
  - subst j. rewrite sub_put by lia. by rewrite decide_True.
  - apply sub_put_other; lia.
Qed.

Lemma canary_put i key ks : page_big ks → (1 <= i < TH8_SECURE_MAX_SLOTS)%nat → length key = TH8_SECURE_KEY_SIZE →
  canary_intact (put_key i key ks) = canary_intact ks.
Proof.
  unfold page_big, TH8_SECURE_MAX_SLOTS, TH8_SECURE_KEY_SIZE. intros Hp Hi Hk.
  unfold canary_intact, put_key. simpl pPage. unfold TH8_SECURE_KEY_SIZE.
  pose proof (sub_put_other (i * 32) key (pPage ks) 0 8) as H. rewrite !drop_0 in H. by rewrite H by lia.
Qed.

Definition var_slot (i : nat) : Prop := (TH8_SECURE_FIRST_VAR <= i < TH8_SECURE_MAX_SLOTS)%nat.

Lemma free_slot_spec ks i : free_slot ks = Some i → var_slot i ∧ th8SlotIsUsed ks i = false.
Proof.
  unfold free_slot. intros [H1 H2]%find_some. apply in_seq in H1. split; [|by apply negb_true_iff].
  unfold var_slot, TH8_SECURE_FIRST_VAR, TH8_SECURE_MAX_SLOTS in *. lia.
Qed.

(** *** The key store and the table *)

(** The slots no variable has hold no key. *)
Record ks_ok (ks : Th8_KeyStore) : Prop := {
  ko_page : page_big ks;
  ko_bitmap : bitmap_ok ks;
  ko_canary : canary_intact ks = true;
  ko_zero : ∀ i, var_slot i → th8SlotIsUsed ks i = false → th8SlotKey ks i = zero_key
}.

(** Each variable has a slot of its own that is taken. *)
Record table_ok (ks : Th8_KeyStore) (t : gmap bytes Th8_SecureVarData) : Prop := {
  to_slot : ∀ name d, t !! name = Some d → var_slot (iSlot d) ∧ th8SlotIsUsed ks (iSlot d) = true;
  to_own : ∀ n1 n2 d1 d2, t !! n1 = Some d1 → t !! n2 = Some d2 → iSlot d1 = iSlot d2 → n1 = n2
}.

Lemma zero_key_length : length zero_key = TH8_SECURE_KEY_SIZE.
Proof. apply length_replicate. Qed.

Lemma put_page i key ks : page_big ks → (i < TH8_SECURE_MAX_SLOTS)%nat → length key = TH8_SECURE_KEY_SIZE →
  page_big (put_key i key ks).
Proof.
  unfold page_big, TH8_SECURE_MAX_SLOTS, TH8_SECURE_KEY_SIZE. intros Hp Hi Hk. unfold put_key. simpl pPage.
  unfold TH8_SECURE_KEY_SIZE. rewrite put_length; lia.
Qed.

(** A key in the slot of a variable. *)
Lemma ks_ok_key ks i key : ks_ok ks → var_slot i → length key = TH8_SECURE_KEY_SIZE →
  (th8SlotIsUsed ks i = true ∨ key = zero_key) → ks_ok (put_key i key ks).
Proof.
  intros [Hp Hb Hc Hz] Hi Hk Hu. unfold var_slot, TH8_SECURE_FIRST_VAR in Hi.
  split; [apply put_page; [done|lia|done]|done|rewrite canary_put; [done|done|lia|done]|].
  intros j Hj Hf. rewrite key_put by (done || lia). case_decide; [subst|by apply Hz].
  destruct Hu as [Hu|Hu]; [|done]. change (th8SlotIsUsed ks j = false) in Hf. congruence.
Qed.

Lemma ks_ok_release ks i : ks_ok ks → var_slot i → ks_ok (release_slot i ks).
Proof.
  intros [Hp Hb Hc Hz] Hi. pose proof Hi as Hi'. unfold var_slot, TH8_SECURE_FIRST_VAR in Hi'.
  unfold release_slot. split.
  - apply put_page; [done|lia|apply zero_key_length].
  - unfold bitmap_ok. simpl. by rewrite length_alter.
  - change (canary_intact (put_key i zero_key ks) = true).
    rewrite canary_put; [done|done|lia|apply zero_key_length].
  - intros j Hj Hf. change (th8SlotKey (put_key i zero_key ks) j = zero_key).
    rewrite key_put by (done || lia || apply zero_key_length). case_decide as E; [done|].
    apply Hz; [done|].
    change (th8SlotIsUsed (th8SlotClearUsed i (put_key i zero_key ks)) j = false) in Hf.
    rewrite used_clear in Hf by (done || lia). rewrite decide_False in Hf by done. done.
Qed.

Lemma ks_ok_take ks i key : ks_ok ks → var_slot i → length key = TH8_SECURE_KEY_SIZE →
  ks_ok (add_used 1 (th8SlotSetUsed i (put_key i key ks))).
Proof.
  intros [Hp Hb Hc Hz] Hi Hk. pose proof Hi as Hi'. unfold var_slot, TH8_SECURE_FIRST_VAR in Hi'. split.
  - apply put_page; [done|lia|done].
  - unfold bitmap_ok. simpl. by rewrite length_alter.
  - change (canary_intact (put_key i key ks) = true). rewrite canary_put; [done|done|lia|done].
  - intros j Hj Hf. change (th8SlotKey (put_key i key ks) j = zero_key).
    change (th8SlotIsUsed (th8SlotSetUsed i (put_key i key ks)) j = false) in Hf.
    rewrite used_set in Hf by (done || lia). case_decide as E; [done|].
    rewrite key_put by (done || lia). rewrite decide_False by done. by apply Hz.
Qed.

(** ** The values *)

Section proofs.
Context `{Ci : Cipher} {CiL : CipherLaws} {I : Type} `{VI : VarInterp I}.

Definition table (st : secure I) : gmap bytes Th8_SecureVarData := default ∅ (paSecureVar st).

(** What decryption gives, the padding included. *)
Definition stored (ks : Th8_KeyStore) (t : gmap bytes Th8_SecureVarData) (name : bytes) : option bytes :=
  d ← t !! name;
  unseal (th8SlotKey ks (iSlot d)) (th8SecureDeriveNonce (nNonce d)) name (zCipher d) (aTag d).

Definition value_of (st : secure I) (name : bytes) : option bytes :=
  ks ← pKeyStore st; stored ks (table st) name.

Record secure_ok (T : gmap Z Z) (st : secure I) : Prop := {
  sk_results : held (rs st) T;
  sk_keys : ∃ ks, pKeyStore st = Some ks ∧ ks_ok ks ∧ table_ok ks (table st)
}.

(** Another variable is as it was. *)
Definition untouched (st st' : secure I) (name : bytes) : Prop :=
  value_of st' name = value_of st name ∧ th8IsSecureVar st' name = th8IsSecureVar st name.

Lemma find_table st name : find_secure st name = table st !! name.
Proof. unfold find_secure, table. by destruct (paSecureVar st). Qed.

Lemma is_secure st name : th8IsSecureVar st name = bool_decide (is_Some (table st !! name)).
Proof. unfold th8IsSecureVar. by rewrite find_table. Qed.

Lemma stored_put ks t name d i key : page_big ks → (i < TH8_SECURE_MAX_SLOTS)%nat →
  length key = TH8_SECURE_KEY_SIZE → t !! name = Some d → iSlot d ≠ i →
  stored (put_key i key ks) t name = stored ks t name.
Proof.
  intros Hp Hi Hk Hd Hne. unfold stored. rewrite Hd. simpl. rewrite key_put by done.
  by rewrite decide_False by done.
Qed.

(** *** Encryption *)

Definition fresh_or_tagged (z : bytes) (n : Z) : Prop := n = zlen z ∨ 2 ^ 28 <= n.

Lemma encrypt_ok a r T ks d name z n : held r T → ks_ok ks → fresh_or_tagged z n →
  yields (th8SecureEncrypt a r ks d name z n) (λ out, let '(rc, d', r') := out in
    held r' T ∧ iSlot d' = iSlot d ∧
    (rc = TH8_OK → n = zlen z ∧ unseal (th8SlotKey ks (iSlot d')) (th8SecureDeriveNonce (nNonce d')) name
       (zCipher d') (aTag d') = Some (pad z))).
Proof.
  intros Hr Hk Hn. unfold th8SecureEncrypt. rewrite (ko_canary _ Hk). cbn [negb].
  case_if; [by split_and!|]. apply orb_false_iff in Heqb as [_ Hsz]. apply Z.ltb_ge in Hsz.
  assert (n = zlen z) as ->.
  { destruct Hn as [->|Hn]; [done|]. pose proof (pad_count n ltac:(lia)).
    unfold TH8_MX_ALLOC in Hsz. lia. }
  rewrite Z.ltb_irrefl. case_if; [by split_and!|]. case_if; [by split_and!|].
  replace (take (Z.to_nat (zlen z)) z) with z by (unfold zlen; by rewrite Nat2Z.id, firstn_all).
  destruct (seal _ _ _ _) as [c t] eqn:Es. split_and!; [done|done|]. intros _. split; [done|]. simpl.
  pose proof (unseal_seal (th8SlotKey ks (iSlot d)) (th8SecureDeriveNonce ((nNonce d + 1) mod 2 ^ 64)) name (pad z)) as H.
  by rewrite Es in H.
Qed.

Lemma say_ok T st text : secure_ok T st →
  yields (say st text) (λ out, let '(rc, st') := out in rc = TH8_ERROR ∧ secure_ok T st' ∧
    table st' = table st ∧ pKeyStore st' = pKeyStore st ∧ ∀ n, untouched st st' n).
Proof.
  intros [Hr Hk]. unfold say. eapply yields_bind; [by apply refuse_ok|].
  intros [rc r] (H1 & _ & H2). simpl in *. by split_and!.
Qed.

Lemma complain_ok T a st zPre name : secure_ok T st →
  yields (complain a st zPre name) (λ out, let '(rc, st') := out in rc = TH8_ERROR ∧ secure_ok T st' ∧
    table st' = table st ∧ pKeyStore st' = pKeyStore st ∧ ∀ n, untouched st st' n).
Proof.
  intros [Hr Hk]. unfold complain.
  assert (yields (Th8_ErrorMessage (how a) (reply a) (rs st) zPre name (zlen name))
    (λ out, held (snd out) T ∧ fst out = TH8_ERROR)) as Hm.
  { pose proof (error_message_ok (how a) (reply a) (rs st) T zPre name (zlen name) Hr) as H.
    unfold Th8_ErrorMessage in *. destruct (how a); [destruct (error_text _ _ _)|..];
      match goal with H : yields (res_bind ?m _) _ |- _ => destruct m as [[]|] || destruct m as [|] end; done. }
  eapply yields_bind; [exact Hm|]. intros [rc r] [H1 H2]. simpl in *. by split_and!.
Qed.

(** *** Setting *)

Definition keys_random (a : answers) : Prop :=
  match random a with Some key => length key = TH8_SECURE_KEY_SIZE | None => True end.

(** Another ciphertext and key for a variable. *)
Lemma table_update ks t name d d' : table_ok ks t → t !! name = Some d → iSlot d' = iSlot d →
  table_ok ks (<[name := d']> t).
Proof.
  intros [Hs Ho] Hd Hi. split.
  - intros n d2. rewrite lookup_insert. case_decide; [|apply Hs]. intros [= <-]. rewrite Hi. by eapply Hs.
  - intros n1 n2 d1 d2. rewrite !lookup_insert.
    repeat case_decide; subst; intros H1 H2; simplify_eq; rewrite ?Hi; intros E; try done.
    + by eapply (Ho n1 n2); [done..|congruence].
    + by eapply (Ho n1 n2); [done..|congruence].
    + by eapply Ho.
Qed.

Lemma table_keys ks i key t : table_ok ks t → table_ok (put_key i key ks) t.
Proof. intros [Hs Ho]. by split. Qed.

Lemma stored_rotate ks t name d d' key n : ks_ok ks → table_ok ks t → t !! name = Some d →
  length key = TH8_SECURE_KEY_SIZE → n ≠ name →
  stored (put_key (iSlot d) key ks) (<[name := d']> t) n = stored ks t n.
Proof.
  intros Hk Ht Hd Hl Hne. destruct (to_slot _ _ Ht name d Hd) as [Hi _].
  unfold stored at 1. rewrite lookup_insert_ne by done. fold (stored (put_key (iSlot d) key ks) t n).
  destruct (t !! n) as [d2|] eqn:E; [|unfold stored; by rewrite E].
  eapply stored_put; [apply Hk|apply Hi|done|done|].
  intros Es. apply Hne. by eapply (to_own _ _ Ht).
Qed.

Lemma stored_zero ks t name d n : ks_ok ks → table_ok ks t → t !! name = Some d → n ≠ name →
  stored (put_key (iSlot d) zero_key ks) t n = stored ks t n.
Proof.
  intros Hk Ht Hd Hn. rewrite <- (insert_id t name d Hd) at 1.
  apply stored_rotate; [done|done|done|apply zero_key_length|done].
Qed.

(** The slots and their keys are as they were, but for the keys of variables. *)
Definition same_slots (st st' : secure I) : Prop :=
  (∀ n d', table st' !! n = Some d' → ∃ d, table st !! n = Some d ∧ iSlot d' = iSlot d) ∧
  ∀ ks, pKeyStore st = Some ks → ∃ ks', pKeyStore st' = Some ks' ∧
    (∀ i, th8SlotIsUsed ks' i = th8SlotIsUsed ks i) ∧
    ∀ i, (∀ n d, table st !! n = Some d → iSlot d ≠ i) → th8SlotKey ks' i = th8SlotKey ks i.

Lemma same_slots_refl st st' : table st' = table st → pKeyStore st' = pKeyStore st → same_slots st st'.
Proof. intros Ht Hk. unfold same_slots. rewrite Ht, Hk. naive_solver. Qed.

Lemma set_secure_ok T a st name z : secure_ok T st → keys_random a →
  yields (th8SecureSetVar a st name z) (λ out, let '(rc, st') := out in
    secure_ok T st' ∧ (∀ n, n ≠ name → untouched st st' n) ∧
    th8IsSecureVar st' name = th8IsSecureVar st name ∧ same_slots st st' ∧
    (rc = TH8_OK → th8IsSecureVar st name = true → value_of st' name = Some (pad z))).
Proof.
  intros [Hr (ks & Hks & Hk & Ht)] Ha. unfold th8SecureSetVar. rewrite find_table, Hks.
  destruct (table st !! name) as [d|] eqn:Hd.
  2: { split_and!; [split; eauto|by split|done|by apply same_slots_refl|]. intros _. by rewrite is_secure, Hd. }
  destruct (to_slot _ _ Ht name d Hd) as [Hi Hu]. unfold keys_random in Ha.
  assert (Hk0 : ks_ok (put_key (iSlot d) zero_key ks)).
  { apply ks_ok_key; [done|done|apply zero_key_length|by right]. }
  destruct (random a) as [key|].
  2: { split_and!; [split; [done|eexists; split_and!; [done|done|exact (table_keys _ _ _ _ Ht)]]| |done| |done].
       { intros n Hn. split; [|done]. unfold value_of. simpl. rewrite Hks. simpl.
       by eapply stored_zero. }
       split; [naive_solver|]. intros ks0 E. rewrite Hks in E. injection E as <-. eexists. split; [done|].
       split; [done|]. intros i Hne. rewrite key_put by (apply Hk || apply Hi || apply zero_key_length).
       rewrite decide_False; [done|]. by eapply Hne. }
  set (ks1 := put_key (iSlot d) zero_key ks) in *. set (ks2 := put_key (iSlot d) key ks1).
  assert (Hk2 : ks_ok ks2) by (apply ks_ok_key; [done|done|done|by left]).
  eapply yields_bind; [apply (encrypt_ok a (rs st) T ks2 d name z (zlen z)); [done|done|by left]|].
  intros [[rc d'] r'] (Hr' & Hs' & Hok).
  assert (Htab : table (set_rs r' (set_ks (Some ks2) (set_table ((λ t, <[name := d']> t) <$> paSecureVar st) st)))
    = <[name := d']> (table st)).
  { unfold table. simpl. destruct (paSecureVar st) eqn:E; [done|]. unfold table in Hd. by rewrite E in Hd. }
  split_and!; [split; [done|]| | | |].
  - exists ks2. split_and!; [done|done|]. rewrite Htab. eapply table_update; [|done|done].
    by do 2 apply table_keys.
  - intros n Hn. split; [|by rewrite !is_secure, Htab, lookup_insert_ne].
    unfold value_of. rewrite Htab. simpl. rewrite Hks. simpl.
    unfold ks2. rewrite (stored_rotate ks1 (table st) name d d' key n) by (done || by apply table_keys).
    by eapply stored_zero.
  - rewrite !is_secure, Htab, lookup_insert_eq, Hd. by rewrite !bool_decide_eq_true_2 by eauto.
  - unfold same_slots. rewrite Htab. split.
    + intros n d2. rewrite lookup_insert. case_decide; [|eauto]. intros [= <-]. subst. eauto.
    + intros ks0 E. rewrite Hks in E. injection E as <-. exists ks2. split; [done|]. split; [done|].
      intros i Hne. pose proof (Hne _ _ Hd). unfold ks2, ks1.
      by rewrite !key_put, !decide_False by (done || apply Hk || apply Hk0 || apply Hi || apply zero_key_length).
  - intros Hrc _. destruct (Hok Hrc) as [_ Hv]. unfold value_of. rewrite Htab. simpl.
    unfold stored. rewrite lookup_insert_eq. exact Hv.
Qed.

Lemma set_var_ok T a st name z : secure_ok T st → keys_random a →
  yields (Th8_SetVar a st name z) (λ out, let '(rc, st') := out in
    secure_ok T st' ∧ (∀ n, n ≠ name → untouched st st' n) ∧
    th8IsSecureVar st' name = th8IsSecureVar st name ∧ same_slots st st' ∧
    (rc = TH8_OK → th8IsSecureVar st name = true → value_of st' name = Some (pad z))).
Proof.
  intros [Hr Hk] Ha. unfold Th8_SetVar. destruct (set_value (vs st) name z) as [ok i].
  set (st1 := set_vs i st). assert (Hok : secure_ok T st1) by (by split).
  case_if.
  { eapply yields_mono; [by apply (say_ok T st1)|]. intros [rc st'] (-> & H1 & H3 & H4 & H2).
    split_and!; [done|intros n _; apply H2|apply H2|by apply same_slots_refl|done]. }
  case_if.
  - eapply yields_mono; [by apply (set_secure_ok T a st1)|]. intros [rc st'] (H1 & H2 & H3 & H4 & H5). done.
  - split_and!; [done|by split|done|by apply same_slots_refl|]. intros _ H. change (th8IsSecureVar st name) with (th8IsSecureVar st1 name) in H.
    congruence.
Qed.

(** *** Deleting *)

Lemma delete_ok T a st name : secure_ok T st →
  yields (th8SecureVarDelete a st name) (λ out, let '(rc, st') := out in
    secure_ok T st' ∧ (∀ n, n ≠ name → untouched st st' n) ∧ th8IsSecureVar st' name = false).
Proof.
  intros [Hr (ks & Hks & Hk & Ht)]. unfold th8SecureVarDelete. rewrite find_table.
  destruct (table st !! name) as [d|] eqn:Hd.
  2: { eapply yields_mono; [apply (complain_ok T); split; eauto|]. intros [rc st'] (_ & H1 & _ & _ & H2).
       split_and!; [done|intros n _; apply H2|]. destruct (H2 name) as [_ ->]. by rewrite is_secure, Hd. }
  destruct (to_slot _ _ Ht name d Hd) as [Hi Hu].
  set (st' := set_vs _ _). assert (Htab : table st' = delete name (table st)).
  { unfold table, st'. simpl. destruct (paSecureVar st); [done|]. simpl. by rewrite delete_empty. }
  split_and!.
  - split; [done|]. exists (release_slot (iSlot d) ks).
    split_and!; [unfold st'; simpl; by rewrite Hks|by apply ks_ok_release|]. rewrite Htab. split.
    + intros n d2 [Hn H2]%lookup_delete_Some. destruct (to_slot _ _ Ht n d2 H2) as [H3 H4]. split; [done|].
      change (th8SlotIsUsed (th8SlotClearUsed (iSlot d) (put_key (iSlot d) zero_key ks)) (iSlot d2) = true).
      rewrite used_clear by (apply Hk || apply Hi). rewrite decide_False; [done|].
      intros E. apply Hn. by eapply (to_own _ _ Ht).
    + intros n1 n2 d1 d2 [_ H1]%lookup_delete_Some [_ H2]%lookup_delete_Some. by eapply (to_own _ _ Ht).
  - intros n Hn. split; [|by rewrite !is_secure, Htab, lookup_delete_ne].
    unfold value_of. rewrite Htab. unfold st'. simpl. rewrite Hks. simpl.
    change (stored (put_key (iSlot d) zero_key ks) (delete name (table st)) n = stored ks (table st) n).
    unfold stored at 1. rewrite lookup_delete_ne by done. fold (stored (put_key (iSlot d) zero_key ks) (table st) n).
    by eapply stored_zero.
  - by rewrite is_secure, Htab, lookup_delete_eq.
Qed.

(** *** Creating *)

(** A slot that is taken and that no variable has. *)
Definition spare (i : nat) (st : secure I) : Prop :=
  (∀ ks, pKeyStore st = Some ks → th8SlotIsUsed ks i = true) ∧
  (∀ n d, table st !! n = Some d → iSlot d ≠ i).

Lemma stored_free ks ks' t n : (∀ m d, t !! m = Some d → th8SlotKey ks' (iSlot d) = th8SlotKey ks (iSlot d)) →
  stored ks' t n = stored ks t n.
Proof. intros H. unfold stored. destruct (t !! n) as [d|] eqn:E; [|done]. simpl. by rewrite (H n d E). Qed.

Lemma same_spare st st' i : same_slots st st' → spare i st → (∃ ks, pKeyStore st = Some ks) → spare i st'.
Proof.
  intros [Ht Hk] [H1 H2] [ks Hks]. destruct (Hk ks Hks) as (ks' & Hks' & Hu & _). split.
  - intros k E. rewrite Hks' in E. injection E as <-. rewrite Hu. by apply H1.
  - intros n d' (d & Hd & ->)%Ht. by eapply H2.
Qed.

Lemma take_slot_ok T st ks i key : secure_ok T st → pKeyStore st = Some ks → free_slot ks = Some i →
  length key = TH8_SECURE_KEY_SIZE →
  let ks' := add_used 1 (th8SlotSetUsed i (put_key i key ks)) in let st' := set_ks (Some ks') st in
  secure_ok T st' ∧ ks_ok ks' ∧ spare i st' ∧ th8SlotKey ks' i = key ∧ ∀ n, untouched st st' n.
Proof.
  intros [Hr (ks0 & Hks & Hk & Ht)] Hks0 [Hi Hf]%free_slot_spec Hl ks' st'.
  rewrite Hks0 in Hks. injection Hks as <-. pose proof (ks_ok_take ks i key Hk Hi Hl) as Hk'.
  assert (Hne : ∀ n d, table st !! n = Some d → iSlot d ≠ i).
  { intros n d Hd E. destruct (to_slot _ _ Ht n d Hd) as [_ H]. rewrite E in H. congruence. }
  assert (Hu : ∀ j, th8SlotIsUsed ks' j = if decide (i = j) then true else th8SlotIsUsed ks j).
  { intros j. apply (used_set i j (put_key i key ks)); [apply Hk|apply Hi]. }
  assert (Hkey : ∀ j, th8SlotKey ks' j = if decide (i = j) then key else th8SlotKey ks j).
  { intros j. apply (key_put i j key ks); [apply Hk|apply Hi|done]. }
  split_and!; [split; [done|]|done|split| |].
  - exists ks'. split_and!; [done|done|]. split; [|apply Ht]. intros n d Hd.
    destruct (to_slot _ _ Ht n d Hd) as [H1 H2]. split; [done|]. rewrite Hu. by case_decide.
  - intros k [= <-]. rewrite Hu. by rewrite decide_True.
  - exact Hne.
  - rewrite Hkey. by rewrite decide_True.
  - intros n. split; [|done]. unfold value_of. simpl. rewrite Hks0. simpl. apply stored_free.
    intros m d Hd. rewrite Hkey, decide_False; [done|]. intros E. by eapply Hne.
Qed.

Lemma back_ok T st i : secure_ok T st → var_slot i → spare i st →
  let st' := set_ks (release_slot i <$> pKeyStore st) st in
  secure_ok T st' ∧ ∀ n, untouched st st' n.
Proof.
  intros [Hr (ks & Hks & Hk & Ht)] Hi [_ Hne] st'. split.
  - split; [done|]. exists (release_slot i ks). unfold st'. simpl. rewrite Hks.
    split_and!; [done|by apply ks_ok_release|]. split; [|apply Ht]. intros n d Hd.
    destruct (to_slot _ _ Ht n d Hd) as [H1 H2]. split; [done|].
    change (th8SlotIsUsed (th8SlotClearUsed i (put_key i zero_key ks)) (iSlot d) = true).
    rewrite used_clear by (apply Hk || apply Hi). rewrite decide_False; [done|]. intros E. by eapply Hne.
  - intros n. split; [|done]. unfold value_of, st'. simpl. rewrite Hks. simpl. apply stored_free.
    intros m d Hd. change (th8SlotKey (put_key i zero_key ks) (iSlot d) = th8SlotKey ks (iSlot d)).
    rewrite key_put by (apply Hk || apply Hi || apply zero_key_length).
    rewrite decide_False; [done|]. intros E. by eapply Hne.
Qed.

Lemma register_ok T st name d ks : secure_ok T st → pKeyStore st = Some ks → var_slot (iSlot d) →
  spare (iSlot d) st →
  let st' := set_table (Some (<[name := d]> (table st))) st in
  secure_ok T st' ∧ (∀ n, n ≠ name → untouched st st' n) ∧
  value_of st' name = unseal (th8SlotKey ks (iSlot d)) (th8SecureDeriveNonce (nNonce d)) name (zCipher d) (aTag d).
Proof.
  intros [Hr (ks0 & Hks & Hk & Ht)] Hks0 Hi [Hu Hne] st'. rewrite Hks0 in Hks. injection Hks as <-.
  split_and!.
  - split; [done|]. exists ks. split_and!; [done|done|].
    change (table st') with (<[name := d]> (table st)). split.
    + intros n d2. rewrite lookup_insert. case_decide; [|apply Ht]. intros [= <-]. split; [done|by apply Hu].
    + intros n1 n2 d1 d2. rewrite !lookup_insert. repeat case_decide; subst; intros H1 H2 E; simplify_eq.
      * done.
      * by destruct (Hne _ _ H2).
      * by destruct (Hne _ _ H1).
      * by eapply (to_own _ _ Ht).
  - intros n Hn. unfold untouched, value_of, stored. rewrite !is_secure.
    change (table st') with (<[name := d]> (table st)). by rewrite lookup_insert_ne.
  - unfold value_of, stored. change (table st') with (<[name := d]> (table st)).
    unfold st'. simpl. rewrite Hks0. simpl. by rewrite lookup_insert_eq.
Qed.

Lemma paren_ok z : ∀ n, n <= zlen z → ∃ b, has_paren z n = Ok b.
Proof.
  induction z as [|c z IH]; intros n H; simpl; (case_if; [by eexists|]); bool_to_prop.
  - rewrite zlen_nil in H. lia.
  - rewrite zlen_cons in H. case_if; [by eexists|]. apply IH. lia.
Qed.

Lemma untouched_trans st1 st2 st3 n : untouched st1 st2 n → untouched st2 st3 n → untouched st1 st3 n.
Proof. intros [H1 H2] [H3 H4]. split; congruence. Qed.

Lemma create_ok T a a' st name zVal nVal : secure_ok T st → keys_random a → keys_random a' →
  zlen name <= TH8_LEN_MASK → fresh_or_tagged zVal nVal →
  yields (th8SecureVarCreate a a' st name (zlen name) zVal nVal) (λ out, let '(rc, st') := out in
    secure_ok T st' ∧ (∀ n, n ≠ name → untouched st st' n) ∧
    (rc = TH8_OK → th8IsSecureVar st' name = true → nVal = zlen zVal ∧ value_of st' name = Some (pad zVal))).
Proof.
  intros Hok Ha Ha' Hname Hval. pose proof Hok as [Hr (ks & Hks & Hk & Ht)].
  unfold th8SecureVarCreate. rewrite Hks.
  assert (take (Z.to_nat (TH8_LEN (zlen name))) name = name) as ->.
  { rewrite TH8_LEN_small by (pose proof (zlen_nonneg name); lia). unfold zlen. by rewrite Nat2Z.id, firstn_all. }
  assert (Hsay : ∀ st1 text, secure_ok T st1 → (∀ n, n ≠ name → untouched st st1 n) →
    yields (say st1 text) (λ out, let '(rc, st') := out in secure_ok T st' ∧
      (∀ n, n ≠ name → untouched st st' n) ∧
      (rc = TH8_OK → th8IsSecureVar st' name = true → nVal = zlen zVal ∧ value_of st' name = Some (pad zVal)))).
  { intros st1 text H1 H2. eapply yields_mono; [by apply say_ok|]. intros [rc st'] (-> & H3 & _ & _ & H4).
    split_and!; [done| |done]. intros n Hn. by eapply untouched_trans; [apply H2|apply H4]. }
  assert (Hself : ∀ n, n ≠ name → untouched st st n) by done.
  case_if.
  { eapply yields_mono; [by apply complain_ok|]. intros [rc st'] (-> & H3 & _ & _ & H4).
    split_and!; [done|intros n _; apply H4|done]. }
  destruct (paren_ok name (zlen name)) as [b ->]; [lia|]. cbn [res_bind].
  case_if; [by apply Hsay|]. case_if; [by apply Hsay|].
  destruct (free_slot ks) as [i|] eqn:Hf; [|by apply Hsay].
  unfold keys_random in Ha. destruct (random a) as [key|]; [|by apply Hsay].
  destruct (take_slot_ok T st ks i key Hok Hks Hf Ha) as (H1 & Hk1 & Hsp & Hkey & Hu1).
  set (ks1 := add_used 1 _) in *. set (st1 := set_ks (Some ks1) st) in *.
  destruct (free_slot_spec _ _ Hf) as [Hi _].
  assert (Hfail : ∀ st2, secure_ok T st2 → spare i st2 → (∀ n, n ≠ name → untouched st1 st2 n) →
    let st3 := set_ks (release_slot i <$> pKeyStore st2) st2 in
    secure_ok T st3 ∧ ∀ n, n ≠ name → untouched st st3 n).
  { intros st2 H2 H3 H4. destruct (back_ok T st2 i H2 Hi H3) as [H5 H6]. split; [done|]. intros n Hn.
    eapply untouched_trans; [apply Hu1|]. eapply untouched_trans; [by apply H4|apply H6]. }
  assert (Hgone : ∀ st2, secure_ok T st2 → spare i st2 → (∀ n, n ≠ name → untouched st1 st2 n) →
    yields (Ok (TH8_ERROR, set_ks (release_slot i <$> pKeyStore st2) st2) : res fault (Z * secure I))
      (λ out, let '(rc, st') := out in secure_ok T st' ∧ (∀ n, n ≠ name → untouched st st' n) ∧
      (rc = TH8_OK → th8IsSecureVar st' name = true → nVal = zlen zVal ∧ value_of st' name = Some (pad zVal)))).
  { intros st2 H2 H3 H4. destruct (Hfail st2 H2 H3 H4). by split_and!. }
  case_if; [by apply Hgone|].
  eapply yields_bind; [by apply (encrypt_ok a (rs st1) T ks1 (mkData [] [] 0 i) name zVal nVal)|].
  intros [[rc d] r] (Hr2 & Hs & Hv). simpl in Hs. set (st2 := set_rs r st1).
  assert (H2 : secure_ok T st2) by (split; [done|apply H1]).
  case_if; [by apply Hgone|]. bool_to_prop. subst rc. destruct (Hv eq_refl) as [Hlen Hval'].
  eapply yields_bind; [by apply (set_var_ok T a' st2 name [])|].
  intros [rc st3] (H3 & Hu3 & _ & Hslots & _). destruct Hslots as [Ht3 Hk3].
  assert (Hsp3 : spare i st3) by (eapply same_spare; [split; [exact Ht3|exact Hk3]|exact Hsp|by exists ks1]).
  case_if; [apply Hgone; [done|done|exact Hu3]|].
  destruct (Hk3 ks1 eq_refl) as (ks3 & Hks3 & _ & Hkey3).
  assert (Hu13 : ∀ n, n ≠ name → untouched st st3 n).
  { intros n Hn. eapply untouched_trans; [apply Hu1|by apply Hu3]. }
  case_if; [apply Hsay; by apply Hfail|].
  fold (table st3). destruct (bool_decide (is_Some (table st3 !! name)) || grant a AEntry) eqn:Hent.
  - destruct (register_ok T st3 name d ks3 H3 Hks3) as (H4 & H5 & H6); [by rewrite Hs|by rewrite Hs|].
    split_and!; [exact H4|intros n Hn; eapply untouched_trans; [by apply Hu13|by apply H5]|].
    intros _ _. split; [done|]. etrans; [exact H6|]. rewrite Hs in Hval' |- *. rewrite Hkey3; [done|]. apply Hsp.
  - apply orb_false_iff in Hent as [Hno _]. apply bool_decide_eq_false in Hno.
    assert (Hsame : table (set_table (Some (table st3)) st3) = table st3) by done.
    split_and!; [destruct H3 as [? ?]; by split| |].
    { intros n Hn. destruct (Hu13 n Hn) as [E1 E2]. split; [exact E1|]. rewrite <- E2. by rewrite !is_secure. }
    intros _ Hsec. exfalso. apply Hno. rewrite is_secure in Hsec. by apply bool_decide_eq_true in Hsec.
Qed.

(** *** Reading *)

Lemma decryption_ok a ks d name : evp_ok (zlen (zCipher d)) (decryption a ks d name) = true.
Proof.
  unfold decryption. destruct (dec_fails a) as [[[out|] text]|]; [|done|].
  - simpl. apply Z.leb_le. unfold zlen. rewrite length_take. lia.
  - destruct (unseal _ _ _ _ _) as [z|] eqn:E; simpl; [|apply Z.leb_le, zlen_nonneg].
    apply Z.eqb_eq. by eapply unseal_length.
Qed.

Lemma get_ok T a st name : secure_ok T st → page_ok (page a) = true →
  yields (th8SecureGetVar a st name) (λ out, let '(rc, st') := out in
    secure_ok T st' ∧ ∀ n, untouched st st' n).
Proof.
  intros [Hr (ks & Hks & Hk & Ht)] Hp. unfold th8SecureGetVar. rewrite Hks.
  destruct (find_secure st name) as [d|]; [|split; [split|]; eauto; done].
  eapply yields_bind; [by apply (publish_ok (reply a) (page a) (rs st) T); [|done|apply decryption_ok]|].
  intros [rc r] H. split; [split; [exact H|eauto]|done].
Qed.

Lemma read_value T a st name v : secure_ok T st → value_of st name = Some (pad v) →
  dec_fails a = None → page_ok (page a) = true → th8SecurePadSize (zlen v) <= TH8_LEN_MASK →
  region_ready (reply a) (page a) (rs st) (th8SecurePadSize (zlen v)) →
  yields (th8SecureGetVar a st name) (λ out, let '(rc, st') := out in
    rc = TH8_OK ∧ Th8_IsResultSensitive (rs st') = true ∧ result_value (rs st') = Some (kept v)).
Proof.
  intros [Hr (ks & Hks & Hk & Ht)] Hv Hdec Hp Hmask Hready. unfold th8SecureGetVar.
  unfold value_of in Hv. rewrite Hks in Hv |- *. rewrite find_table. simpl in Hv. unfold stored in Hv.
  destruct (table st !! name) as [d|]; [|done]. simpl in Hv.
  assert (decryption a ks d name = EvpDone (pad v)) as -> by (unfold decryption; by rewrite Hdec, Hv).
  rewrite <- (unseal_length _ _ _ _ _ _ Hv), (ko_canary _ Hk).
  pose proof (pad_count (zlen v) (zlen_nonneg v)) as [Hc _]. pose proof (pad_length v) as Hl.
  eapply yields_bind.
  - apply (publish_value (reply a) (page a) (rs st) T (pad v) Hr); [|lia|by rewrite Hl|done].
    intros E. rewrite E in Hl. unfold zlen in *. simpl in Hl. lia.
  - intros [rc r] (-> & H1 & H2). simpl. by rewrite <- strip_pad.
Qed.
End proofs.

(** ** Histories *)

Section histories.
Context `{Ci : Cipher} {I : Type} `{VI : VarInterp I}.

(** What scripts and the host do.  [ONest]: any operation on the result;
    [OUnset]: the unset command, which knows nothing of secure variables. *)
Inductive op : Type :=
| OCreate (a a' : answers) (name : bytes) (nName : Z) (zVal : bytes) (nVal : Z)
| OSet (a : answers) (name zVal : bytes)
| OGet (a : answers) (name : bytes)
| ODelete (a : answers) (name : bytes)
| OUnset (name : bytes)
| OMasterKey (key : bytes)
| OClearMasterKey
| ONest (c : call).

(** The interpreter, what the host has taken, and the values that were stored
    by operations that succeeded. *)
Definition world : Type := (secure I * gmap Z Z * gmap bytes bytes)%type.

Definition stored_as (st : secure I) (rc : Z) (name v : bytes) (K : gmap bytes bytes) : gmap bytes bytes :=
  if (rc =? TH8_OK) && th8IsSecureVar st name then <[name := v]> K else delete name K.

Definition perform_op (o : op) (w : world) : res fault world :=
  let '(st, T, K) := w in
  match o with
  | OCreate a a' name nName zVal nVal =>
      let* (rc, st) := th8SecureVarCreate a a' st name nName zVal nVal in
      Ok (st, T, stored_as st rc name zVal K)
  | OSet a name zVal =>
      let* (rc, st) := Th8_SetVar a st name zVal in Ok (st, T, stored_as st rc name zVal K)
  | OGet a name => let* (_, st) := th8SecureGetVar a st name in Ok (st, T, K)
  | ODelete a name =>
      let* (_, st) := th8SecureVarDelete a st name in Ok (st, T, delete name K)
  | OUnset name => Ok (set_vs (Th8_UnsetVar (vs st) name) st, T, K)
  | OMasterKey key => let* (_, st) := Th8_SecureSetMasterKey st key in Ok (st, T, K)
  | OClearMasterKey => Ok (Th8_SecureClearMasterKey st, T, K)
  | ONest c => let* (r, T) := perform c (rs st, T) in Ok (set_rs r st, T, K)
  end.

(** What callers ensure: a length is that of the bytes, or has tags; random keys
    have 32 bytes. *)
Definition op_ok (o : op) (w : world) : Prop :=
  let '(st, T, K) := w in
  match o with
  | OCreate a a' name nName zVal nVal =>
      keys_random a ∧ keys_random a' ∧ zlen name <= TH8_LEN_MASK ∧ TH8_LEN nName = zlen name ∧
      fresh_or_tagged zVal nVal
  | OSet a _ _ => keys_random a
  | OGet a _ => page_ok (page a) = true
  | ONest c => allowed c (rs st, T) = true
  | _ => True
  end.

(** The length of the name that [secure create] passes has no tags; with them the
    name is read past its end ([tagged_name_overread]).  The other operations are
    given names without tags: th8IsSecureVar does not mask them either. *)
Definition untagged_name (o : op) : Prop :=
  match o with OCreate _ _ name nName _ _ => nName = zlen name | _ => True end.

Fixpoint history (os : list op) (w : world) : res fault world :=
  match os with
  | [] => Ok w
  | o :: os => let* w := perform_op o w in history os w
  end.

Fixpoint history_ok (os : list op) (w : world) : Prop :=
  match os with
  | [] => True
  | o :: os => op_ok o w ∧ match perform_op o w with Ok w => history_ok os w | Err _ => True end
  end.

(** After th8SecureInit, with a page of [n] bytes. *)
Definition fresh_world (n : nat) (i : I) : world :=
  (mkS (fst Results.start) (Some (key_page n)) None i, ∅, ∅).

End histories.
Arguments world : clear implicits.

Section promises.
Context `{Ci : Cipher} {CiL : CipherLaws} {I : Type} `{VI : VarInterp I}.

Definition world_ok (w : world I) : Prop :=
  let '(st, T, K) := w in secure_ok T st ∧
  ∀ name v, K !! name = Some v → th8IsSecureVar st name = true ∧ value_of st name = Some (pad v).

Lemma kept_others (st st' : secure I) (K : gmap bytes bytes) name : (∀ n, n ≠ name → untouched st st' n) →
  (∀ n v, K !! n = Some v → th8IsSecureVar st n = true ∧ value_of st n = Some (pad v)) →
  ∀ n v, delete name K !! n = Some v → th8IsSecureVar st' n = true ∧ value_of st' n = Some (pad v).
Proof.
  intros Hu Hk n v [Hn Hv]%lookup_delete_Some. destruct (Hu n) as [-> ->]; [done|]. by apply Hk.
Qed.

Lemma kept_all (st st' : secure I) (K : gmap bytes bytes) : (∀ n, untouched st st' n) →
  (∀ n v, K !! n = Some v → th8IsSecureVar st n = true ∧ value_of st n = Some (pad v)) →
  ∀ n v, K !! n = Some v → th8IsSecureVar st' n = true ∧ value_of st' n = Some (pad v).
Proof. intros Hu Hk n v Hv. destruct (Hu n) as [-> ->]. by apply Hk. Qed.

Lemma stored_kept (st st' : secure I) (K : gmap bytes bytes) rc name z : (∀ n, n ≠ name → untouched st st' n) →
  (∀ n v, K !! n = Some v → th8IsSecureVar st n = true ∧ value_of st n = Some (pad v)) →
  (rc = TH8_OK → th8IsSecureVar st' name = true → value_of st' name = Some (pad z)) →
  ∀ n v, stored_as st' rc name z K !! n = Some v → th8IsSecureVar st' n = true ∧ value_of st' n = Some (pad v).
Proof.
  intros Hu Hk Hz n v. unfold stored_as. case_if; [|by eapply kept_others].
  bool_to_prop. subst rc. rewrite lookup_insert. case_decide as E; [subst; intros [= <-]; auto|].
  intros Hv. destruct (Hu n) as [-> ->]; [done|]. by apply Hk.
Qed.

(** Slot 1 is not the slot of a variable. *)
Lemma master_ok T (st : secure I) key ks : secure_ok T st → pKeyStore st = Some ks →
  length key = TH8_SECURE_KEY_SIZE →
  let st' := set_ks (Some (put_key TH8_SECURE_MASTER_SLOT key ks)) st in
  secure_ok T st' ∧ ∀ n, untouched st st' n.
Proof.
  intros [Hr (ks0 & Hks & Hk & Ht)] Hks0 Hl st'. rewrite Hks0 in Hks. injection Hks as <-.
  assert (Hm : (TH8_SECURE_MASTER_SLOT < TH8_SECURE_MAX_SLOTS)%nat)
    by (unfold TH8_SECURE_MASTER_SLOT, TH8_SECURE_MAX_SLOTS; lia).
  assert (Hkey : ∀ i, var_slot i →
    th8SlotKey (put_key TH8_SECURE_MASTER_SLOT key ks) i = th8SlotKey ks i).
  { intros i Hi. rewrite key_put by (done || apply Hk). rewrite decide_False; [done|].
    unfold var_slot, TH8_SECURE_FIRST_VAR, TH8_SECURE_MASTER_SLOT in *. lia. }
  split; [split; [done|]|].
  - eexists. split_and!; [done| |by split; apply Ht]. pose proof Hk as [H1 H2 H3 H4].
    split; [by apply put_page|done|rewrite canary_put; [done|done|split; [done|done]|done]|].
    intros i Hi Hu. rewrite Hkey by done. by apply H4.
  - intros n. split; [|done]. unfold value_of. simpl. rewrite Hks0. simpl. apply stored_free.
    intros m d Hd. apply Hkey. by eapply (to_slot _ _ Ht).
Qed.

Lemma perform_op_ok o w : world_ok w → op_ok o w → untagged_name o → yields (perform_op o w) world_ok.
Proof.
  destruct w as [[st T] K]. intros [Hok Hk] Ho Hu. destruct o; simpl in Ho, Hu |- *.
  - destruct Ho as (H1 & H2 & H3 & _ & H4). subst nName. eapply yields_bind; [by apply (create_ok T a a' st name zVal nVal)|].
    intros [rc st'] (H5 & H6 & H7). split; [done|]. eapply stored_kept; [done..|].
    intros E1 E2. by apply H7.
  - eapply yields_bind; [by apply (set_var_ok T)|]. intros [rc st'] (H1 & H2 & H3 & _ & H4).
    split; [done|]. eapply stored_kept; [done..|]. intros E1 E2. apply H4; congruence.
  - eapply yields_bind; [by apply (get_ok T)|]. intros [rc st'] [H1 H2]. split; [done|]. by eapply kept_all.
  - eapply yields_bind; [by apply (delete_ok T)|]. intros [rc st'] (H1 & H2 & _). split; [done|].
    by eapply kept_others.
  - split; [by destruct Hok; split|done].
  - unfold Th8_SecureSetMasterKey. pose proof Hok as [_ (ks & Hks & Hk' & _)].
    assert (Hsay : ∀ text, yields (let* (_, st) := say st text in Ok (st, T, K) : res fault (world I)) world_ok).
    { intros text. eapply yields_bind; [by apply (say_ok T)|]. intros [rc st'] (_ & H1 & _ & _ & H2).
      split; [done|]. by eapply kept_all. }
    destruct (length key =? TH8_SECURE_KEY_SIZE)%nat eqn:Hl; cbn [negb]; [|apply Hsay].
    rewrite Hks, (ko_canary _ Hk'). cbn [negb res_bind]. apply Nat.eqb_eq in Hl.
    destruct (master_ok T st key ks Hok Hks Hl). split; [done|]. by eapply kept_all.
  - pose proof Hok as [_ (ks & Hks & _)]. unfold Th8_SecureClearMasterKey. rewrite Hks.
    destruct (master_ok T st zero_key ks Hok Hks zero_key_length). split; [done|]. by eapply kept_all.
  - pose proof Hok as [Hr Hks]. eapply yields_bind; [by apply (perform_ok c (rs st) T)|].
    intros [r T'] H. split; [by split|done].
Qed.

Lemma key_page_ok n : (TH8_SECURE_MAX_SLOTS * TH8_SECURE_KEY_SIZE <= n)%nat →
  ks_ok (key_page n) ∧ table_ok (key_page n) ∅.
Proof.
  intros Hn. set (d := replicate n 0).
  assert (Hd : length d = n) by apply length_replicate.
  assert (Hc : (0 + length th8SecureCanary <= length d)%nat).
  { unfold TH8_SECURE_MAX_SLOTS, TH8_SECURE_KEY_SIZE in Hn. rewrite Hd. simpl. lia. }
  split; [|split; [intros name d' H|intros n1 n2 d1 d2 H]; by rewrite lookup_empty in H]. split.
  - unfold page_big, key_page, th8SlotSetUsed, set_bitmap. cbn [pPage]. fold d. rewrite put_length by done. lia.
  - done.
  - unfold canary_intact, key_page, th8SlotSetUsed, set_bitmap. cbn [pPage]. fold d.
    pose proof (sub_put 0 th8SecureCanary d 0 8 Hc) as H. rewrite drop_0 in H. rewrite H.
    by rewrite decide_True by done.
  - intros i Hi _. unfold th8SlotKey, key_page, th8SlotSetUsed, set_bitmap. cbn [pPage]. fold d.
    unfold var_slot, TH8_SECURE_FIRST_VAR, TH8_SECURE_MAX_SLOTS, TH8_SECURE_KEY_SIZE in *.
    rewrite sub_put_other; [|done|simpl; lia]. unfold d. rewrite drop_replicate, take_replicate.
    unfold zero_key, TH8_SECURE_KEY_SIZE. f_equal. lia.
Qed.

Lemma fresh_ok n (i : I) : (TH8_SECURE_MAX_SLOTS * TH8_SECURE_KEY_SIZE <= n)%nat → world_ok (fresh_world n i).
Proof.
  intros Hn. destruct (key_page_ok n Hn). split; [|by intros ???]. split; [apply start_held|].
  by exists (key_page n).
Qed.

Lemma history_kept os : ∀ w : world I, world_ok w → history_ok os w → Forall untagged_name os →
  yields (history os w) world_ok.
Proof.
  induction os as [|o os IH]; intros w Hw Ho Hu; [done|]. destruct Ho as [H1 H2].
  apply Forall_cons in Hu as [Hu1 Hu2]. cbn [history]. pose proof (perform_op_ok o w Hw H1 Hu1) as H. destruct (perform_op o w) as [w'|]; [|done].
  cbn [res_bind]. by apply IH.
Qed.


(** C23.  A stored value is read back, with a sensitive result, when there is a
    region for it and the library does not fail: as it was stored, but with its
    padding when the padded length is a multiple of 256. *)
Theorem secure_read_back (n : nat) (i : I) (os : list op) (st : secure I) (T : gmap Z Z)
  (K : gmap bytes bytes) (a : answers) (name v : bytes)
  (Hn : (TH8_SECURE_MAX_SLOTS * TH8_SECURE_KEY_SIZE <= n)%nat)
  (Ho : history_ok os (fresh_world n i)) (Hu : Forall untagged_name os)
  (Hw : history os (fresh_world n i) = Ok (st, T, K))
  (Hv : K !! name = Some v) (Hlib : dec_fails a = None) (Hpage : page_ok (page a) = true)
  (Hlen : th8SecurePadSize (zlen v) <= TH8_LEN_MASK)
  (Hready : region_ready (reply a) (page a) (rs st) (th8SecurePadSize (zlen v))) :
  yields (th8SecureGetVar a st name) (λ out, let '(rc, st') := out in
    rc = TH8_OK ∧ Th8_IsResultSensitive (rs st') = true ∧
    result_value (rs st') = Some (if th8SecurePadSize (zlen v) mod 256 =? 0 then pad v else v)).
Proof.
  pose proof (history_kept os _ (fresh_ok n i Hn) Ho Hu) as H. rewrite Hw in H. destruct H as [Hok HK].
  by apply (read_value T); [|apply HK|..].
Qed.
End promises.

(** ** A small instance

    The tag of the toy cipher is its key; the variables are their names. *)
#[export] Instance toy_cipher : Cipher := {
  seal key _ _ z := (z, key);
  unseal key _ _ c t := if bool_decide (t = key) then Some c else None
}.
#[export] Instance toy_laws : CipherLaws.
Proof.
  split; intros *; simpl; case_if.
  - done.
  - by apply bool_decide_eq_false in Heqb.
  - by intros [= ->].
  - done.
Qed.

#[export] Instance names : VarInterp (list bytes) := {
  Th8_ExistsVar i n := bool_decide (n ∈ i);
  set_value i n _ := (true, n :: i);
  Th8_UnsetVar i n := filter (λ m, m ≠ n) i
}.

Definition fine : answers :=
  mkAnswers (Some (replicate 32 5)) (λ _, true) false None (Some []) (Some 4096) Built.
Definition no_random : answers :=
  mkAnswers None (λ _, true) false None (Some []) (Some 4096) Built.
Definition nm (s : string) : bytes := bytes_of_string s.
Definition create (name : string) (v : bytes) : op := OCreate fine fine (nm name) (zlen (nm name)) v (zlen v).

Definition after (os : list op) : res fault (world (list bytes)) := history os (fresh_world 4096 []).
Definition reads (name : string) (w : res fault (world (list bytes))) : option bytes :=
  match w with
  | Ok (st, T, K) => match th8SecureGetVar fine st (nm name) with
                     | Ok (_, st) => result_value (rs st)
                     | Err _ => None
                     end
  | Err _ => None
  end.

(** A value of 200 bytes comes back with 56 bytes of padding. *)
Example padding_stays :
  reads "k" (after [create "k" (replicate 200 97)]) = Some (replicate 200 97 ++ replicate 56 56).
Proof. vm_compute. reflexivity. Qed.

(** An assignment that finds no random bytes destroys the old value. *)
Example failed_set_loses_value :
  let os := [create "k" (nm "old"); OSet no_random (nm "k") (nm "new")] in
  reads "k" (after (take 1 os)) = Some (nm "old") ∧
  reads "k" (after os) = Some (nm "secure variable: authentication failed (data may be corrupted)").
Proof. vm_compute. split; reflexivity. Qed.

(** The unset command leaves the metadata: the name stays secure, and a new
    variable of that name takes another slot. *)
Example unset_keeps_slot :
  let os := [create "k" (nm "v"); OUnset (nm "k"); create "k" (nm "w")] in
  match after (take 2 os), after os with
  | Ok (st, _, _), Ok (st', _, _) =>
      Th8_ExistsVar (vs st) (nm "k") = false ∧ th8IsSecureVar st (nm "k") = true ∧
      nUsed <$> pKeyStore st' = Some 2 ∧ size (table st') = 1%nat
  | _, _ => False
  end.
Proof. vm_compute. split_and!; reflexivity. Qed.

(** A name with a tag in its length is read past its end. *)
Example tagged_name_overread :
  th8SecureVarCreate fine fine (fst (fst (fresh_world 4096 []))) (nm "k") (Z.lor 1 TH8_TAINT_BIT) (nm "v") 1
    = Err OutOfBounds.
Proof. vm_compute. reflexivity. Qed.

(** A tainted value is refused without a message. *)
Example tagged_value_refused :
  match th8SecureVarCreate fine fine (fst (fst (fresh_world 4096 []))) (nm "k") 1 (nm "v") (Z.lor 1 TH8_TAINT_BIT) with
  | Ok (rc, st) => rc = TH8_ERROR ∧ zResult (rs st) = None ∧ vs st = []
  | Err _ => False
  end.
Proof. vm_compute. split_and!; reflexivity. Qed.

Definition visit : list op := [
  create "a" (nm "one"); create "b" (nm "two"); OGet fine (nm "a"); OMasterKey (replicate 32 9);
  ONest CClearResult; OSet fine (nm "a") (nm "three"); ODelete fine (nm "b")].

Definition visited : world (list bytes) := match after visit with Ok w => w | Err _ => fresh_world 4096 [] end.

Lemma visit_ok : history_ok visit (fresh_world 4096 []).
Proof. vm_compute. repeat split; try done; by left. Qed.

Lemma visit_untagged : Forall untagged_name visit.
Proof. by repeat constructor. Qed.

Lemma page_size : (TH8_SECURE_MAX_SLOTS * TH8_SECURE_KEY_SIZE <= 4096)%nat.
Proof. apply Nat.leb_le. by vm_compute. Qed.


Lemma visit_end : history visit (fresh_world 4096 []) = Ok (fst (fst visited), snd (fst visited), snd visited).
Proof. by vm_compute. Qed.

Lemma visit_region : region_ready (reply fine) (page fine) (rs (fst (fst visited))) 64.
Proof. vm_compute. split; [reflexivity|discriminate]. Qed.

Lemma secure_read_back_witness :
  yields (th8SecureGetVar fine (fst (fst visited)) (nm "a")) (λ out, let '(rc, st') := out in
    rc = TH8_OK ∧ Th8_IsResultSensitive (rs st') = true ∧
    result_value (rs st') = Some (if th8SecurePadSize (zlen (nm "three")) mod 256 =? 0
                                  then pad (nm "three") else nm "three")).
Proof.
  refine (secure_read_back 4096 [] visit _ _ _ fine (nm "a") (nm "three") page_size visit_ok visit_untagged visit_end
    _ eq_refl eq_refl _ visit_region); by vm_compute.
Defined.
