(* ===== verification/ExprTree.v ===== *)
(** * ExprTree: operators, tokens, and the tree of an expression
    (th8Operators, th8ExprMakeTree of src/src/th8_expr.c, th8_expr.h).

    A token or a tree is a [Th8_ExprNode]; the constructor [NULL] is the null
    pointer, which an emptied slot of the token array holds.  The builder works
    on the array in place, and so do the phases here: each takes the slots and
    gives them back, on an error as well.  The bound on nesting is the argument
    [room], the depths that are left.

    The grammar of expressions is [derives], with a style for the two places
    where the builder and its documentation part: chains of ** and of the
    conditional.  The builder gives every token list of the grammar it implements
    its tree, which is the documented one where there is no such chain, and
    whatever the tokens, it keeps them all, once and in order. *)

From S2P Require Import Prelude.
#[local] Open Scope Z_scope.

(** ** Operators *)

Inductive op_code : Type :=
| TH8_OP_UNARY_MINUS | TH8_OP_UNARY_PLUS | TH8_OP_BITWISE_NOT | TH8_OP_LOGICAL_NOT
| TH8_OP_MULTIPLY | TH8_OP_DIVIDE | TH8_OP_MODULUS | TH8_OP_ADD | TH8_OP_SUBTRACT
| TH8_OP_LEFT_SHIFT | TH8_OP_RIGHT_SHIFT
| TH8_OP_LT | TH8_OP_GT | TH8_OP_LE | TH8_OP_GE | TH8_OP_EQ | TH8_OP_NE
| TH8_OP_SEQ | TH8_OP_SNE | TH8_OP_BITWISE_AND | TH8_OP_BITWISE_XOR | TH8_OP_BITWISE_OR
| TH8_OP_LOGICAL_AND | TH8_OP_LOGICAL_OR | TH8_OP_OPEN_BRACKET | TH8_OP_CLOSE_BRACKET
| TH8_OP_EXPONENT | TH8_OP_IN | TH8_OP_NI | TH8_OP_TERNARY_Q | TH8_OP_TERNARY_C
| TH8_OP_VAR_ASSIGN.

#[export] Instance op_code_dec : EqDecision op_code.
Proof. solve_decision. Defined.

Inductive arg_type : Type := TH8_ARG_NONE | TH8_ARG_INTEGER | TH8_ARG_NUMBER | TH8_ARG_STRING.

Definition TH8_EXPR_TOP_COMMA : Z := 1.
Definition TH8_EXPR_VAR_ASSIGN : Z := 2.

Record Th8_Operator : Type := mkOp {
  zOp : bytes; eOp : op_code; iPrecedence : Z; eArgType : arg_type; nReqFlag : Z
}.

#[export] Instance operator_dec : EqDecision Th8_Operator.
Proof. intros o o'. assert (EqDecision arg_type) by solve_decision. solve_decision. Defined.

(** A row of the table; only the assignment asks for a feature. *)
Definition row (s : string) (o : op_code) (p : Z) (a : arg_type) : Th8_Operator :=
  mkOp (bytes_of_string s) o p a 0.

Definition th8Operators : list Th8_Operator :=
  [ row "(" TH8_OP_OPEN_BRACKET (-1) TH8_ARG_NONE;
    row ")" TH8_OP_CLOSE_BRACKET (-1) TH8_ARG_NONE;
    row "-" TH8_OP_UNARY_MINUS 1 TH8_ARG_NUMBER;
    row "+" TH8_OP_UNARY_PLUS 1 TH8_ARG_NUMBER;
    row "~" TH8_OP_BITWISE_NOT 1 TH8_ARG_INTEGER;
    row "!" TH8_OP_LOGICAL_NOT 1 TH8_ARG_INTEGER;
    row "**" TH8_OP_EXPONENT 2 TH8_ARG_NUMBER;
    row "<<" TH8_OP_LEFT_SHIFT 5 TH8_ARG_INTEGER;
    row ">>" TH8_OP_RIGHT_SHIFT 5 TH8_ARG_INTEGER;
    row "<=" TH8_OP_LE 6 TH8_ARG_NUMBER;
    row ">=" TH8_OP_GE 6 TH8_ARG_NUMBER;
    row "==" TH8_OP_EQ 7 TH8_ARG_NUMBER;
    row "!=" TH8_OP_NE 7 TH8_ARG_NUMBER;
    row "eq" TH8_OP_SEQ 8 TH8_ARG_STRING;
    row "ne" TH8_OP_SNE 8 TH8_ARG_STRING;
    row "in" TH8_OP_IN 8 TH8_ARG_STRING;
    row "ni" TH8_OP_NI 8 TH8_ARG_STRING;
    row "&&" TH8_OP_LOGICAL_AND 12 TH8_ARG_NUMBER;
    row "||" TH8_OP_LOGICAL_OR 13 TH8_ARG_NUMBER;
    mkOp (bytes_of_string ":=") TH8_OP_VAR_ASSIGN 15 TH8_ARG_STRING TH8_EXPR_VAR_ASSIGN;
    row "*" TH8_OP_MULTIPLY 3 TH8_ARG_NUMBER;
    row "/" TH8_OP_DIVIDE 3 TH8_ARG_NUMBER;
    row "%" TH8_OP_MODULUS 3 TH8_ARG_INTEGER;
    row "+" TH8_OP_ADD 4 TH8_ARG_NUMBER;
    row "-" TH8_OP_SUBTRACT 4 TH8_ARG_NUMBER;
    row "<" TH8_OP_LT 6 TH8_ARG_NUMBER;
    row ">" TH8_OP_GT 6 TH8_ARG_NUMBER;
    row "&" TH8_OP_BITWISE_AND 9 TH8_ARG_INTEGER;
    row "^" TH8_OP_BITWISE_XOR 10 TH8_ARG_INTEGER;
    row "|" TH8_OP_BITWISE_OR 11 TH8_ARG_INTEGER;
    row "?" TH8_OP_TERNARY_Q 14 TH8_ARG_NUMBER;
    row ":" TH8_OP_TERNARY_C 14 TH8_ARG_NUMBER ].

(** ** Nodes *)

(** [zValue] is the text of a literal and [nTag] the tag bits of [nValue].
    The operator of a token has no operands yet. *)
Inductive Th8_ExprNode : Type :=
| NULL
| Literal (zValue : bytes) (nTag : Z)
| Operator (pOp : Th8_Operator) (pLeft pRight : Th8_ExprNode).

#[export] Instance node_dec : EqDecision Th8_ExprNode.
Proof. solve_decision. Defined.

Definition is_null (t : Th8_ExprNode) : bool := match t with NULL => true | _ => false end.

Definition TH8_ISTERM (t : Th8_ExprNode) : bool :=
  match t with NULL => false | Literal _ _ => true | Operator _ l _ => negb (is_null l) end.

(** The operator of a slot, while it has no left operand. *)
Definition unbound (t : Th8_ExprNode) : option Th8_Operator :=
  match t with Operator o NULL _ => Some o | _ => None end.

Definition is_code (c : op_code) (t : Th8_ExprNode) : bool :=
  match t with Operator o _ _ => bool_decide (eOp o = c) | _ => false end.

(** An operator as th8ExprParse makes it. *)
Definition token (o : Th8_Operator) : Th8_ExprNode := Operator o NULL NULL.

(** ** The phases *)

(** From the slots behind an open parenthesis: how many precede the matching
    one. *)
Fixpoint close_index (ap : list Th8_ExprNode) (nNest : nat) : option nat :=
  match ap with
  | [] => None
  | t :: ap' =>
      if is_code TH8_OP_OPEN_BRACKET t then S <$> close_index ap' (S nNest)
      else if is_code TH8_OP_CLOSE_BRACKET t then
        match nNest with
        | S (S n) => S <$> close_index ap' (S n)
        | _ => Some O
        end
      else S <$> close_index ap' nNest
  end.

(** Phase 2, right to left: an unbound unary operator takes the slot behind it. *)
Fixpoint unary_phase (ap : list Th8_ExprNode) : bool * list Th8_ExprNode :=
  match ap with
  | [] => (true, [])
  | t :: ap' =>
      let '(ok, r) := unary_phase ap' in
      match unbound t with
      | Some o =>
          if ok && (iPrecedence o =? 1) then
            match r with
            | x :: r' => if TH8_ISTERM x then (true, Operator o x NULL :: NULL :: r') else (false, t :: r)
            | [] => (false, t :: r)
            end
          else (ok, t :: r)
      | None => (ok, t :: r)
      end
  end.

(** The nearest slot that is not empty, which is emptied. *)
Fixpoint take_operand (ap : list Th8_ExprNode) : option (Th8_ExprNode * list Th8_ExprNode) :=
  match ap with
  | [] => None
  | t :: ap' =>
      if is_null t then
        match take_operand ap' with Some (x, r) => Some (x, NULL :: r) | None => None end
      else Some (t, NULL :: ap')
  end.

(** Phases 3 and 5: every selected operator takes the nearest slots on both
    sides.  [done] holds the slots behind the position, nearest first. *)
Fixpoint bind_loop (fuel : nat) (sel : Th8_Operator → bool)
    (mk : Th8_Operator → Th8_ExprNode → Th8_ExprNode → Th8_ExprNode)
    (done todo : list Th8_ExprNode) : bool * list Th8_ExprNode :=
  match fuel, todo with
  | S fuel', t :: todo' =>
      match unbound t with
      | Some o =>
          if sel o then
            match take_operand done, take_operand todo' with
            | Some (x, done'), Some (y, todo'') =>
                if TH8_ISTERM x && TH8_ISTERM y
                then bind_loop fuel' sel mk (mk o x y :: done') todo''
                else (false, rev_append done todo)
            | _, _ => (false, rev_append done todo)
            end
          else bind_loop fuel' sel mk (t :: done) todo'
      | None => bind_loop fuel' sel mk (t :: done) todo'
      end
  | _, _ => (true, rev_append done todo)
  end.

Definition binary (o : Th8_Operator) (x y : Th8_ExprNode) : Th8_ExprNode := Operator o x y.

Definition binary_phase (p : Z) (ap : list Th8_ExprNode) : bool * list Th8_ExprNode :=
  bind_loop (length ap) (λ o, iPrecedence o =? p) binary [] ap.

(** Phase 3, from precedence [p] on, [n] of them. *)
Fixpoint binary_phases (n : nat) (p : Z) (ap : list Th8_ExprNode) : bool * list Th8_ExprNode :=
  match n with
  | O => (true, ap)
  | S n' =>
      let '(ok, ap) := binary_phase p ap in
      if ok then binary_phases n' (p + 1) ap else (false, ap)
  end.

(** Phase 4: [?] takes the condition, the branch, the [:] and the other branch. *)
Fixpoint ternary_loop (fuel : nat) (done todo : list Th8_ExprNode) : bool * list Th8_ExprNode :=
  match fuel, todo with
  | S fuel', t :: todo' =>
      match unbound t with
      | Some o =>
          if bool_decide (eOp o = TH8_OP_TERNARY_Q) then
            match take_operand done with
            | Some (c, done') =>
                match take_operand todo' with
                | Some (x, r1) =>
                    match take_operand r1 with
                    | Some (Operator o2 l2 r2 as colon, r2') =>
                        match take_operand r2' with
                        | Some (y, r3) =>
                            if TH8_ISTERM c && TH8_ISTERM x && is_code TH8_OP_TERNARY_C colon &&
                               TH8_ISTERM y
                            then ternary_loop fuel' (Operator o c (Operator o2 x y) :: done') r3
                            else (false, rev_append done todo)
                        | None => (false, rev_append done todo)
                        end
                    | _ => (false, rev_append done todo)
                    end
                | None => (false, rev_append done todo)
                end
            | None => (false, rev_append done todo)
            end
          else ternary_loop fuel' (t :: done) todo'
      | None => ternary_loop fuel' (t :: done) todo'
      end
  | _, _ => (true, rev_append done todo)
  end.

Definition ternary_phase (ap : list Th8_ExprNode) : bool * list Th8_ExprNode :=
  ternary_loop (length ap) [] ap.

(** Phase 5, right to left. *)
Definition assign_phase (ap : list Th8_ExprNode) : bool * list Th8_ExprNode :=
  let '(ok, r) := bind_loop (length ap) (λ o, bool_decide (eOp o = TH8_OP_VAR_ASSIGN))
                    (λ o r l, Operator o l r) [] (rev ap) in
  (ok, rev r).

(** The root moves to the first slot. *)
Definition compact (ap : list Th8_ExprNode) : list Th8_ExprNode :=
  match ap with
  | t :: ap' =>
      if is_null t then match take_operand ap' with Some (x, r) => x :: r | None => ap end else ap
  | [] => ap
  end.

(** Phases 2 to 5. *)
Definition bind_phases (ap : list Th8_ExprNode) : bool * list Th8_ExprNode :=
  let '(ok, ap) := unary_phase ap in
  if negb ok then (false, ap)
  else
    let '(ok, ap) := binary_phases 12 2 ap in
    if negb ok then (false, ap)
    else
      let '(ok, ap) := ternary_phase ap in
      if negb ok then (false, ap)
      else
        let '(ok, ap) := assign_phase ap in
        if negb ok then (false, ap) else (true, compact ap).

(** ** th8ExprMakeTree *)

Definition TH8_MX_EXPR_DEPTH : nat := 1000.

Class TreeInterp (I : Type) : Type := {
  tree_ready : I → Z * I;                    (* Th8_Ready *)
  set_too_deep : I → I                       (* the result says so *)
}.

Section tree.
Context {I : Type} `{TI : TreeInterp I}.

(** Phase 1: the slots of each group are built into one tree by [build]; the
    parentheses are freed. *)
Fixpoint paren_phase (build : list Th8_ExprNode → I → Z * list Th8_ExprNode * I) (fuel : nat)
    (ap : list Th8_ExprNode) (it : I) : Z * list Th8_ExprNode * I :=
  match fuel, ap with
  | S fuel', t :: ap' =>
      if is_code TH8_OP_OPEN_BRACKET t then
        match close_index ap' 1 with
        | None | Some O => (TH8_ERROR, ap, it)
        | Some n =>
            let '(rc, mid, it) := build (take n ap') it in
            let rest := drop (S n) ap' in
            if negb (rc =? TH8_OK) then (TH8_ERROR, t :: mid ++ drop n ap', it)
            else
              let '(rc, rest, it) := paren_phase build fuel' rest it in
              (rc, match mid with
                   | root :: mid' => root :: NULL :: mid' ++ NULL :: rest
                   | [] => NULL :: NULL :: rest
                   end, it)
        end
      else
        let '(rc, r, it) := paren_phase build fuel' ap' it in (rc, t :: r, it)
  | _, _ => (TH8_OK, ap, it)
  end.

Fixpoint MakeTree (room : nat) (ap : list Th8_ExprNode) (it : I) : Z * list Th8_ExprNode * I :=
  match room with
  | O => (TH8_ERROR, ap, set_too_deep it)
  | S room' =>
      let '(ready, it) := tree_ready it in
      if negb (ready =? TH8_OK) then (TH8_ERROR, ap, it)
      else if (length ap =? 0)%nat then (TH8_ERROR, ap, it)
      else
        let '(rc, ap, it) := paren_phase (MakeTree room') (length ap) ap it in
        if negb (rc =? TH8_OK) then (TH8_ERROR, ap, it)
        else
          let '(ok, ap) := bind_phases ap in
          ((if ok then TH8_OK else TH8_ERROR), ap, it)
  end.

Definition th8ExprMakeTree (ap : list Th8_ExprNode) (depth : nat) (it : I)
    : Z * list Th8_ExprNode * I :=
  MakeTree (TH8_MX_EXPR_DEPTH + 1 - depth) ap it.
End tree.

(** ** The grammars

    The documentation makes ** group to the right and the conditional the one of
    C; the code groups both to the left, and allows no conditional between ? and
    :.  [Documented] and [Implemented] are the two grammars; [Unchained] has what
    they agree on, with ** and the conditional as an operand of itself only in
    parentheses. *)
Inductive style : Type := Documented | Implemented | Unchained.

(** The precedences of the operands. *)
Definition left_of (s : style) (p : Z) : Z :=
  match s with Implemented => p | _ => if p =? 2 then 1 else p end.
Definition right_of (s : style) (p : Z) : Z :=
  match s with Documented => if p =? 2 then 2 else p - 1 | _ => p - 1 end.
Definition condition_of (s : style) : Z := match s with Implemented => 14 | _ => 13 end.
Definition branch_of (s : style) : Z := match s with Documented => 14 | _ => 13 end.

(** [derives s k p ts t]: the tokens [ts] are an expression of precedence at most
    [p] in the grammar [s], with groups nested at most [k] deep, and [t] is its
    tree. *)
Inductive derives (s : style) : nat → Z → list Th8_ExprNode → Th8_ExprNode → Prop :=
| D_literal k z n : derives s k 0 [Literal z n] (Literal z n)
| D_group k o c ts t :
    o ∈ th8Operators → c ∈ th8Operators → eOp o = TH8_OP_OPEN_BRACKET → eOp c = TH8_OP_CLOSE_BRACKET →
    derives s k 15 ts t → derives s (S k) 0 (token o :: ts ++ [token c]) t
| D_up k p p' ts t : p < p' → p' <= 15 → derives s k p ts t → derives s k p' ts t
| D_unary k o ts t :
    o ∈ th8Operators → iPrecedence o = 1 →
    derives s k 1 ts t → derives s k 1 (token o :: ts) (Operator o t NULL)
| D_binary k o p ts1 x ts2 y :
    o ∈ th8Operators → iPrecedence o = p → 2 <= p <= 13 →
    derives s k (left_of s p) ts1 x → derives s k (right_of s p) ts2 y →
    derives s k p (ts1 ++ token o :: ts2) (Operator o x y)
| D_ternary k o c ts1 x ts2 y ts3 z :
    o ∈ th8Operators → c ∈ th8Operators → eOp o = TH8_OP_TERNARY_Q → eOp c = TH8_OP_TERNARY_C →
    derives s k (condition_of s) ts1 x → derives s k (branch_of s) ts2 y → derives s k (branch_of s) ts3 z →
    derives s k 14 (ts1 ++ token o :: ts2 ++ token c :: ts3) (Operator o x (Operator c y z))
| D_assign k o ts1 x ts2 y :
    o ∈ th8Operators → eOp o = TH8_OP_VAR_ASSIGN →
    derives s k 14 ts1 x → derives s k 15 ts2 y →
    derives s k 15 (ts1 ++ token o :: ts2) (Operator o x y).

Lemma derives_le s k k' p ts t : (k <= k')%nat → derives s k p ts t → derives s k' p ts t.
Proof.
  intros Hk Hd. revert k' Hk. induction Hd; intros k' Hk.
  - apply D_literal.
  - destruct k' as [|k']; [lia|]. apply D_group; [done..|]. apply IHHd. lia.
  - apply (D_up s k' p p'); auto.
  - apply D_unary; auto.
  - apply D_binary; auto.
  - apply D_ternary; auto.
  - apply D_assign; auto.
Qed.

Lemma derives_up s k p p' ts t : p <= p' <= 15 → derives s k p ts t → derives s k p' ts t.
Proof. intros Hp H. destruct (Z.eq_dec p p') as [<-|]; [done|]. apply (D_up s k p p'); [lia|lia|done]. Qed.

(** What the grammars agree on is in both, with the same tree. *)
Lemma unchained_derives s k p ts t : derives Unchained k p ts t → derives s k p ts t.
Proof.
  induction 1 as [k z n|k o c ts t|k p p' ts t|k o ts t|k o p ts1 x ts2 y Ho Hp Hr _ IH1 _ IH2
    |k o c ts1 x ts2 y ts3 z Ho Hc Eo Ec _ IH1 _ IH2 _ IH3|k o ts1 x ts2 y].
  - apply D_literal.
  - by apply D_group.
  - by apply (D_up s k p p').
  - by apply D_unary.
  - apply D_binary; [done..| |]; (eapply derives_up; [|eassumption]); destruct s; cbn; try case_match; bool_to_prop; lia.
  - apply D_ternary; [done..| | |]; (eapply derives_up; [|eassumption]); destruct s; cbn; lia.
  - by apply D_assign.
Qed.

(** The code reads more into no tokens than the documentation does: what it
    takes for an expression is one, where an operand of a chain of ** or of
    conditionals goes to the right. *)
Lemma documented_exponent k o ts2 y : o ∈ th8Operators → iPrecedence o = 2 → derives Documented k 2 ts2 y →
  ∀ p ts1 x, derives Documented k p ts1 x → p <= 2 → ∃ t, derives Documented k 2 (ts1 ++ token o :: ts2) t.
Proof.
  intros Ho Hp H2.
  assert (∀ p ts1 x, derives Documented k p ts1 x → p <= 1 → ∃ t, derives Documented k 2 (ts1 ++ token o :: ts2) t) as Hlow.
  { intros p ts1 x H1 Hle. exists (Operator o x y). apply D_binary; [done..| |exact H2]. by apply (derives_up _ _ p). }
  intros p ts1 x H1. induction H1 as [k z n|k op c ts t Hop Hc Eo Ec H IH|k p p' ts t Hlt Hle H IH|k op ts t Hop Hpr H IH
    |k op p ts1 x ts3 z Hop Hpr Hrange Hl IHl Hr IHr|k op c ts1 x ts3 z ts4 u Hop Hc Eo Ec _ _ _ _ _ _|k op ts1 x ts3 z]; intros Hp2;
    [eapply Hlow; [constructor|lia]|eapply Hlow; [by apply D_group|lia]|auto with lia|eapply Hlow; [by apply D_unary|lia]| |lia|lia].
  assert (p = 2) as -> by lia. destruct (IHr H2 Hlow) as [t Ht]; [cbn; lia|]. exists (Operator op x t).
  rewrite <- app_assoc. by apply D_binary.
Qed.

Lemma documented_conditional k o c ts2 y ts3 z : o ∈ th8Operators → c ∈ th8Operators →
  eOp o = TH8_OP_TERNARY_Q → eOp c = TH8_OP_TERNARY_C → derives Documented k 14 ts2 y → derives Documented k 14 ts3 z →
  ∀ p ts1 x, derives Documented k p ts1 x → p <= 14 →
  ∃ t, derives Documented k 14 (ts1 ++ token o :: ts2 ++ token c :: ts3) t.
Proof.
  intros Ho Hc Eo Ec H2 H3.
  assert (∀ p ts1 x, derives Documented k p ts1 x → p <= 13 →
    ∃ t, derives Documented k 14 (ts1 ++ token o :: ts2 ++ token c :: ts3) t) as Hlow.
  { intros p ts1 x H1 Hle. exists (Operator o x (Operator c y z)). apply D_ternary; [done..| |done|done].
    by apply (derives_up _ _ p). }
  intros p ts1 x H1. induction H1 as [k z' n|k op c' ts t Hop Hc' Eo' Ec' H IH|k p p' ts t Hlt Hle H IH|k op ts t Hop Hpr H IH
    |k op p ts1 x ts4 u Hop Hpr Hrange Hl IHl Hr IHr|k op c' ts1 x ts4 u ts5 v Hop Hc' Eo' Ec' H4 _ H5 _ H6 IH|k op ts1 x ts4 u];
    intros Hp14; [eapply Hlow; [constructor|lia]|eapply Hlow; [by apply D_group|lia]|auto with lia|
    eapply Hlow; [by apply D_unary|lia]|eapply Hlow; [by apply D_binary|lia]| |lia].
  destruct (IH H2 H3 Hlow) as [t Ht]; [cbn; lia|]. exists (Operator op x (Operator c' u t)).
  rewrite <- app_assoc. cbn [app]. rewrite <- app_assoc. by apply D_ternary.
Qed.

Lemma implemented_documented k p ts t : derives Implemented k p ts t → ∃ t', derives Documented k p ts t'.
Proof.
  induction 1 as [k z n|k op c ts t Hop Hc Eo Ec _ [t' IH]|k p p' ts t Hlt Hle _ [t' IH]|k op ts t Hop Hpr _ [t' IH]
    |k op p ts1 x ts2 y Hop Hpr Hrange _ [x' IH1] _ [y' IH2]|k op c ts1 x ts2 y ts3 z Hop Hc Eo Ec _ [x' IH1] _ [y' IH2] _ [z' IH3]
    |k op ts1 x ts2 y Hop Eo _ [x' IH1] _ [y' IH2]].
  - eexists. constructor.
  - eexists. by apply D_group.
  - eexists. by apply (D_up _ _ p p').
  - eexists. by apply D_unary.
  - cbn [left_of right_of] in *. destruct (Z.eq_dec p 2) as [->|Hne].
    + eapply documented_exponent; [done|done| |exact IH1|lia]. by apply (derives_up _ _ 1).
    + eexists. apply D_binary; [done..| |]; cbn; rewrite (proj2 (Z.eqb_neq p 2)) by done; done.
  - cbn [condition_of branch_of] in *. eapply documented_conditional; [done..| | |exact IH1|lia]; by apply (derives_up _ _ 13).
  - eexists. by apply D_assign.
Qed.

(** Without ** and without a colon, the tree is the documented one. *)
Definition chains (t : Th8_ExprNode) : bool := is_code TH8_OP_EXPONENT t || is_code TH8_OP_TERNARY_C t.

Lemma exponent_row o : o ∈ th8Operators → iPrecedence o = 2 → eOp o = TH8_OP_EXPONENT.
Proof.
  unfold th8Operators. intros Ho. repeat (apply elem_of_cons in Ho as [->|Ho]; [by vm_compute|]). by apply elem_of_nil in Ho.
Qed.

Lemma unchained k p ts t : derives Implemented k p ts t → Forall (λ t, chains t = false) ts → derives Unchained k p ts t.
Proof.
  induction 1 as [k z n|k op c ts t Hop Hc Eo Ec _ IH|k p p' ts t Hlt Hle _ IH|k op ts t Hop Hpr _ IH
    |k op p ts1 x ts2 y Hop Hpr Hrange _ IH1 _ IH2|k op c ts1 x ts2 y ts3 z Hop Hc Eo Ec _ IH1 _ IH2 _ IH3
    |k op ts1 x ts2 y Hop Eo _ IH1 _ IH2]; intros Hf.
  - constructor.
  - apply D_group; [done..|]. apply IH. by apply Forall_cons in Hf as [_ [Hf _]%Forall_app].
  - apply (D_up _ _ p p'); auto.
  - apply D_unary; [done..|]. apply IH. by apply Forall_cons in Hf as [_ Hf].
  - apply Forall_app in Hf as [H1 [Ht H2]%Forall_cons]. cbn [left_of right_of] in *.
    destruct (Z.eq_dec p 2) as [->|Hne].
    { unfold chains in Ht. cbn [is_code token] in Ht. by rewrite (exponent_row op Hop Hpr) in Ht. }
    apply D_binary; [done..| |]; cbn; rewrite ?(proj2 (Z.eqb_neq p 2)) by done; auto.
  - apply Forall_app in Hf as [_ [_ [_ [Ht _]%Forall_cons]%Forall_app]%Forall_cons].
    unfold chains in Ht. cbn [is_code token] in Ht. by rewrite Ec, orb_true_r in Ht.
  - apply Forall_app in Hf as [H1 [_ H2]%Forall_cons]. apply D_assign; auto.
Qed.

(** ** The phases without the empty slots *)

Definition live (ap : list Th8_ExprNode) : list Th8_ExprNode := filter (λ t, is_null t = false) ap.

Fixpoint join (sel : Th8_Operator → bool)
    (mk : Th8_Operator → Th8_ExprNode → Th8_ExprNode → Th8_ExprNode)
    (done todo : list Th8_ExprNode) : option (list Th8_ExprNode) :=
  match todo with
  | [] => Some (rev done)
  | t :: todo' =>
      match unbound t with
      | Some o =>
          if sel o then
            match done, todo' with
            | x :: done', y :: todo'' =>
                if TH8_ISTERM x && TH8_ISTERM y then join sel mk (mk o x y :: done') todo'' else None
            | _, _ => None
            end
          else join sel mk (t :: done) todo'
      | None => join sel mk (t :: done) todo'
      end
  end.

Lemma live_cons t ap : live (t :: ap) = if is_null t then live ap else t :: live ap.
Proof. unfold live. rewrite filter_cons. destruct (is_null t); by repeat case_decide. Qed.

Lemma live_app a b : live (a ++ b) = live a ++ live b.
Proof. apply filter_app. Qed.

Lemma live_rev_append a b : live (rev_append a b) = rev (live a) ++ live b.
Proof.
  rewrite rev_append_rev, live_app. f_equal. induction a as [|t a IH]; [done|]. simpl.
  rewrite live_app, IH, live_cons, live_cons. destruct (is_null t); [by rewrite app_nil_r|done].
Qed.

Lemma take_operand_spec ap :
  match take_operand ap with
  | Some (t, r) => live ap = t :: live r ∧ length r = length ap ∧ is_null t = false
  | None => live ap = []
  end.
Proof.
  induction ap as [|t ap IH]; [done|]. simpl. rewrite live_cons. destruct (is_null t) eqn:E.
  - destruct (take_operand ap) as [[x r]|]; [|done]. destruct IH as (-> & H & ?).
    rewrite live_cons. simpl. auto.
  - rewrite live_cons. auto.
Qed.

Lemma take_operand_some ap t ts : live ap = t :: ts →
  ∃ r, take_operand ap = Some (t, r) ∧ live r = ts ∧ length r = length ap.
Proof.
  intros H. pose proof (take_operand_spec ap) as Hs. destruct (take_operand ap) as [[x r]|]; [|congruence].
  destruct Hs as (H1 & H2 & _). rewrite H in H1. injection H1 as -> ->. by exists r.
Qed.

Lemma take_operand_none ap : live ap = [] → take_operand ap = None.
Proof.
  intros H. pose proof (take_operand_spec ap) as Hs. destruct (take_operand ap) as [[x r]|]; [|done].
  destruct Hs as (H1 & _). congruence.
Qed.

Lemma unbound_not_null t o : unbound t = Some o → is_null t = false ∧ TH8_ISTERM t = false.
Proof. by destruct t as [| |? []]. Qed.

(** The slots [n] of a phase that succeeds exactly when [m] does, with what [m]
    gives as the full ones. *)
Definition shows (m : option (list Th8_ExprNode)) (n : nat) (out : bool * list Th8_ExprNode) : Prop :=
  let '(ok, ap) := out in
  ok = bool_decide (is_Some m) ∧ length ap = n ∧ ∀ ts, m = Some ts → live ap = ts.

Lemma shows_end done :
  shows (Some (rev (live done))) (length done + 0) (true, rev_append done []).
Proof.
  split_and!; [done| |].
  - by rewrite rev_append_rev, length_app, length_rev.
  - intros ts [= <-]. rewrite live_rev_append. apply app_nil_r.
Qed.

Lemma shows_fail done todo :
  shows None (length done + length todo) (false, rev_append done todo).
Proof. split_and!; [done| |done]. by rewrite rev_append_rev, length_app, length_rev. Qed.

Lemma shows_length m n n' out : shows m n out → n = n' → shows m n' out.
Proof. by intros ? <-. Qed.

(** The loop over the slots does what [join] does on the full ones. *)
Lemma bind_loop_live fuel sel mk done todo :
  (∀ o x y, is_null (mk o x y) = false) → (length todo <= fuel)%nat →
  shows (join sel mk (live done) (live todo)) (length done + length todo)
    (bind_loop fuel sel mk done todo).
Proof.
  intros Hmk. revert done todo.
  induction fuel as [|fuel IH]; intros done [|t todo] Hf;
    [apply shows_end|simpl in Hf; lia|apply shows_end|].
  assert (Hskip : unbound t = None ∨ (∃ o, unbound t = Some o ∧ sel o = false) →
    shows (join sel mk (live done) (live (t :: todo))) (length done + length (t :: todo))
      (bind_loop fuel sel mk (t :: done) todo)).
  { intros Hu. pose proof (IH (t :: done) todo ltac:(simpl in Hf; lia)) as H.
    eapply shows_length; [|simpl; apply Nat.add_succ_comm].
    rewrite live_cons in H |- *. destruct (is_null t); [done|].
    cbn [join]. by destruct Hu as [->|(o & -> & ->)]. }
  simpl bind_loop. destruct (unbound t) as [o|] eqn:Hu; [|by apply Hskip; left].
  destruct (sel o) eqn:Hs; [|apply Hskip; eauto]. clear Hskip.
  rewrite live_cons. destruct (unbound_not_null t o Hu) as [-> _]. cbn [join]. rewrite Hu, Hs.
  pose proof (take_operand_spec done) as H1. pose proof (take_operand_spec todo) as H2.
  destruct (take_operand done) as [[x done']|]; [|rewrite H1; apply shows_fail].
  destruct H1 as (-> & H1l & _). destruct (take_operand todo) as [[y todo']|]; [|rewrite H2; apply shows_fail].
  destruct H2 as (-> & H2l & _). case_if; [|apply shows_fail].
  pose proof (IH (mk o x y :: done') todo' ltac:(simpl in Hf; lia)) as H. rewrite live_cons, Hmk in H.
  eapply shows_length; [exact H|simpl; lia].
Qed.

Fixpoint join_ternary (done todo : list Th8_ExprNode) : option (list Th8_ExprNode) :=
  match todo with
  | [] => Some (rev done)
  | t :: todo' =>
      match unbound t with
      | Some o =>
          if bool_decide (eOp o = TH8_OP_TERNARY_Q) then
            match done, todo' with
            | c :: done', x :: (Operator o2 _ _ as colon) :: y :: todo'' =>
                if TH8_ISTERM c && TH8_ISTERM x && is_code TH8_OP_TERNARY_C colon && TH8_ISTERM y
                then join_ternary (Operator o c (Operator o2 x y) :: done') todo'' else None
            | _, _ => None
            end
          else join_ternary (t :: done) todo'
      | None => join_ternary (t :: done) todo'
      end
  end.

Lemma ternary_loop_live fuel done todo : (length todo <= fuel)%nat →
  shows (join_ternary (live done) (live todo)) (length done + length todo)
    (ternary_loop fuel done todo).
Proof.
  revert done todo.
  induction fuel as [|fuel IH]; intros done [|t todo] Hf;
    [apply shows_end|simpl in Hf; lia|apply shows_end|].
  assert (Hskip : unbound t = None ∨ (∃ o, unbound t = Some o ∧ eOp o ≠ TH8_OP_TERNARY_Q) →
    shows (join_ternary (live done) (live (t :: todo))) (length done + length (t :: todo))
      (ternary_loop fuel (t :: done) todo)).
  { intros Hu. pose proof (IH (t :: done) todo ltac:(simpl in Hf; lia)) as H.
    eapply shows_length; [|simpl; apply Nat.add_succ_comm].
    rewrite live_cons in H |- *. destruct (is_null t); [done|].
    cbn [join_ternary]. destruct Hu as [->|(o & -> & Ho)]; [done|]. by rewrite bool_decide_eq_false_2. }
  simpl ternary_loop. destruct (unbound t) as [o|] eqn:Hu; [|by apply Hskip; left].
  case_bool_decide as Hs; [|apply Hskip; eauto]. clear Hskip.
  rewrite live_cons. destruct (unbound_not_null t o Hu) as [-> _]. cbn [join_ternary].
  rewrite Hu, bool_decide_eq_true_2 by done.
  pose proof (take_operand_spec done) as H1. pose proof (take_operand_spec todo) as H2.
  destruct (take_operand done) as [[c done']|]; [|rewrite H1; apply shows_fail].
  destruct H1 as (-> & H1l & _). destruct (take_operand todo) as [[x r1]|]; [|rewrite H2; apply shows_fail].
  destruct H2 as (-> & H2l & _). pose proof (take_operand_spec r1) as H3.
  destruct (take_operand r1) as [[colon r2]|]; [|rewrite H3; apply shows_fail].
  destruct H3 as (-> & H3l & Hc). destruct colon as [|z n|o2 l2 r2']; [done|apply shows_fail|].
  pose proof (take_operand_spec r2) as H4. destruct (take_operand r2) as [[y r3]|]; [|rewrite H4; apply shows_fail].
  destruct H4 as (-> & H4l & _). case_if; [|apply shows_fail].
  pose proof (IH (Operator o c (Operator o2 x y) :: done') r3 ltac:(simpl in Hf; lia)) as H.
  eapply shows_length; [exact H|simpl; lia].
Qed.

Definition level (p : Z) : Th8_Operator → bool := λ o, iPrecedence o =? p.
Definition assigns : Th8_Operator → bool := λ o, bool_decide (eOp o = TH8_OP_VAR_ASSIGN).

Fixpoint join_unary (ts : list Th8_ExprNode) : option (list Th8_ExprNode) :=
  match ts with
  | [] => Some []
  | t :: ts' =>
      r ← join_unary ts';
      match unbound t with
      | Some o =>
          if level 1 o then
            match r with
            | x :: r' => if TH8_ISTERM x then Some (Operator o x NULL :: r') else None
            | [] => None
            end
          else Some (t :: r)
      | None => Some (t :: r)
      end
  end.

Fixpoint join_levels (n : nat) (p : Z) (ts : list Th8_ExprNode) : option (list Th8_ExprNode) :=
  match n with
  | O => Some ts
  | S n' => ts ← join (level p) binary [] ts; join_levels n' (p + 1) ts
  end.

Definition join_assign (ts : list Th8_ExprNode) : option (list Th8_ExprNode) :=
  @rev _ <$> join assigns (λ o r l, Operator o l r) [] (rev ts).

Definition bind_live (ts : list Th8_ExprNode) : option (list Th8_ExprNode) :=
  ts ← join_unary ts; ts ← join_levels 12 2 ts; ts ← join_ternary [] ts; join_assign ts.

(** The slot behind an unbound unary operator is full. *)
Fixpoint padded (ap : list Th8_ExprNode) : Prop :=
  match ap with
  | [] => True
  | t :: ap' =>
      (∀ o x r, unbound t = Some o → level 1 o = true → ap' = x :: r → is_null x = false) ∧ padded ap'
  end.

Lemma unary_phase_head ap : is_null <$> head (snd (unary_phase ap)) = is_null <$> head ap.
Proof.
  destruct ap as [|t ap]; [done|]. simpl. destruct (unary_phase ap) as [ok r].
  destruct (unbound t) as [o|] eqn:E; [|done]. apply unbound_not_null in E as [E _].
  repeat case_match; simplify_eq/=; congruence.
Qed.

Lemma unary_phase_live ap : padded ap → shows (join_unary (live ap)) (length ap) (unary_phase ap).
Proof.
  induction ap as [|t ap IH]; [intros _; split_and!; [done|done|by intros ts [= <-]]|]. intros [Ht Hp]. specialize (IH Hp).
  pose proof (unary_phase_head ap) as Hh. simpl. rewrite live_cons.
  destruct (unary_phase ap) as [ok r]. destruct IH as (-> & Hl & Hr). cbn [snd] in Hh.
  destruct (unbound t) as [o|] eqn:E.
  - destruct (unbound_not_null t o E) as [Hn _]. rewrite Hn. simpl. rewrite E.
    destruct (join_unary (live ap)) as [ts|] eqn:Ej; [|split_and!; [done|simpl; lia|done]].
    specialize (Hr ts eq_refl). rewrite bool_decide_eq_true_2 by eauto. simpl. unfold level.
    case_if; [|by split_and!; [|simpl; lia|intros ? [= <-]; rewrite live_cons, Hn, Hr]].
    destruct r as [|x r]; [subst ts; by split_and!; [|simpl in *; lia|]|].
    destruct ap as [|x' ap']; [done|].
    injection Hh as Hh. rewrite (Ht o x' ap' eq_refl Heqb eq_refl) in Hh. rewrite live_cons, Hh in Hr. subst ts.
    case_if; [|by split_and!; [|simpl in *; lia|]].
    split_and!; [done|simpl in *; lia|]. intros ? [= <-]. by rewrite !live_cons.
  - destruct (is_null t) eqn:Hn.
    + split_and!; [done|simpl; lia|]. intros ts Hts. rewrite live_cons, Hn. by apply Hr.
    + simpl. rewrite E. destruct (join_unary (live ap)) as [ts|]; [|by split_and!; [|simpl; lia|]].
      split_and!; [done|simpl; lia|]. intros ? [= <-]. rewrite live_cons, Hn. by rewrite (Hr ts eq_refl).
Qed.

Lemma live_rev ap : live (rev ap) = rev (live ap).
Proof. rewrite <- (app_nil_r (rev ap)), <- rev_append_rev, live_rev_append. apply app_nil_r. Qed.

Lemma binary_phases_live n p ap :
  shows (join_levels n p (live ap)) (length ap) (binary_phases n p ap).
Proof.
  revert p ap. induction n as [|n IH]; intros p ap; simpl.
  { split_and!; [done|done|]. by intros ts [= <-]. }
  pose proof (bind_loop_live (length ap) (level p) binary [] ap (λ _ _ _, eq_refl) ltac:(lia)) as H.
  unfold binary_phase. fold (level p). change (live []) with (@nil Th8_ExprNode) in H. cbn [length Nat.add] in H. destruct (bind_loop _ _ _ _ _) as [ok ap'].
  destruct H as (-> & Hl & Ht). destruct (join _ _ _ _) as [ts|]; [|by split_and!].
  rewrite bool_decide_eq_true_2 by eauto. simpl. rewrite <- (Ht ts eq_refl), <- Hl. apply IH.
Qed.

Lemma assign_phase_live ap : shows (join_assign (live ap)) (length ap) (assign_phase ap).
Proof.
  unfold join_assign, assign_phase. fold assigns.
  pose proof (bind_loop_live (length ap) assigns (λ o r l, Operator o l r) [] (rev ap)
    (λ _ _ _, eq_refl) ltac:(rewrite length_rev; lia)) as H.
  rewrite live_rev, length_rev in H. change (live []) with (@nil Th8_ExprNode) in H. cbn [length Nat.add] in H. destruct (bind_loop _ _ _ _ _) as [ok r].
  destruct H as (-> & Hl & Ht). simpl.
  destruct (join assigns _ [] (rev (live ap))) as [ts|]; [|split_and!; [done|by rewrite length_rev|done]].
  split_and!; [done|by rewrite length_rev|]. intros ? [= <-]. by rewrite live_rev, (Ht ts).
Qed.

Lemma compact_live ap : live (compact ap) = live ap ∧ length (compact ap) = length ap ∧
  ∀ t ts, live ap = t :: ts → head (compact ap) = Some t.
Proof.
  destruct ap as [|t ap]; [done|]. simpl. destruct (is_null t) eqn:E.
  - pose proof (take_operand_spec ap) as H. rewrite live_cons, E.
    destruct (take_operand ap) as [[x r]|].
    + destruct H as (-> & Hl & Hx). rewrite live_cons, Hx. split_and!; [done|simpl; lia|]. by intros ? ? [= <- _].
    + rewrite live_cons, E, H. done.
  - rewrite live_cons, E. split_and!; [done|done|]. by intros ? ? [= <- _].
Qed.

#[local] Arguments join_levels : simpl never.
#[local] Arguments binary_phases : simpl never.

(** The phases on the slots, and on the full ones. *)
Lemma bind_phases_live ap : padded ap →
  shows (bind_live (live ap)) (length ap) (bind_phases ap) ∧
  (fst (bind_phases ap) = true → ∀ t ts, live (snd (bind_phases ap)) = t :: ts →
   head (snd (bind_phases ap)) = Some t).
Proof.
  assert (Hfail : ∀ ap', length ap' = length ap →
    shows None (length ap) (false, ap') ∧ (fst (false, ap') = true → ∀ t ts,
      live (snd (false, ap')) = t :: ts → head (snd (false, ap')) = Some t)).
  { intros ap' H. by split; [split_and!|]. }
  intros Hp. unfold bind_phases, bind_live.
  pose proof (unary_phase_live ap Hp) as H. destruct (unary_phase ap) as [ok1 ap1].
  destruct H as (-> & Hl1 & H1). destruct (join_unary (live ap)) as [ts1|]; [|by apply Hfail].
  rewrite bool_decide_eq_true_2 by eauto. specialize (H1 ts1 eq_refl). simpl.
  pose proof (binary_phases_live 12 2 ap1) as H. rewrite H1 in H.
  destruct (binary_phases 12 2 ap1) as [ok2 ap2]. destruct H as (-> & Hl2 & H2).
  destruct (join_levels 12 2 ts1) as [ts2|]; [|apply Hfail; lia].
  rewrite bool_decide_eq_true_2 by eauto. specialize (H2 ts2 eq_refl). simpl.
  pose proof (ternary_loop_live (length ap2) [] ap2 ltac:(lia)) as H. rewrite H2 in H.
  unfold ternary_phase. destruct (ternary_loop _ _ _) as [ok3 ap3]. destruct H as (-> & Hl3 & H3).
  change (live []) with (@nil Th8_ExprNode) in *. cbn [length Nat.add] in Hl3.
  destruct (join_ternary [] ts2) as [ts3|]; [|apply Hfail; lia].
  rewrite bool_decide_eq_true_2 by eauto. specialize (H3 ts3 eq_refl). simpl.
  pose proof (assign_phase_live ap3) as H. rewrite H3 in H.
  destruct (assign_phase ap3) as [ok4 ap4]. destruct H as (-> & Hl4 & H4).
  destruct (join_assign ts3) as [ts4|]; [|apply Hfail; lia].
  rewrite bool_decide_eq_true_2 by eauto. specialize (H4 ts4 eq_refl). simpl.
  destruct (compact_live ap4) as (H5 & H6 & H7).
  split; [split_and!; [done|lia|intros ? [= <-]; congruence]|]. intros _ t ts. rewrite H5. apply H7.
Qed.

(** *** Expressions whose phases up to [q] are done *)

Inductive flat (q : Z) : Z → list Th8_ExprNode → Th8_ExprNode → Prop :=
| F_term t : TH8_ISTERM t = true → flat q q [t] t
| F_up p p' ts t : p < p' → p' <= 15 → flat q p ts t → flat q p' ts t
| F_unary o ts t : q < 1 → iPrecedence o = 1 → flat q 1 ts t →
    flat q 1 (token o :: ts) (Operator o t NULL)
| F_binary o p ts1 x ts2 y : q < p → iPrecedence o = p → 2 <= p <= 13 →
    flat q p ts1 x → flat q (p - 1) ts2 y → flat q p (ts1 ++ token o :: ts2) (Operator o x y)
| F_ternary o c ts1 x ts2 y ts3 z : q < 14 → o ∈ th8Operators → c ∈ th8Operators →
    eOp o = TH8_OP_TERNARY_Q → eOp c = TH8_OP_TERNARY_C →
    flat q 14 ts1 x → flat q 13 ts2 y → flat q 13 ts3 z →
    flat q 14 (ts1 ++ token o :: ts2 ++ token c :: ts3) (Operator o x (Operator c y z))
| F_assign o ts1 x ts2 y : q < 15 → o ∈ th8Operators → eOp o = TH8_OP_VAR_ASSIGN →
    flat q 14 ts1 x → flat q 15 ts2 y → flat q 15 (ts1 ++ token o :: ts2) (Operator o x y).

Lemma flat_level q p ts t : flat q p ts t → q <= p.
Proof. induction 1; lia. Qed.

Lemma flat_term q p ts t : flat q p ts t → TH8_ISTERM t = true ∧ unbound t = None ∧ is_null t = false.
Proof.
  assert (∀ x, TH8_ISTERM x = true → unbound x = None ∧ is_null x = false) as Hx.
  { by intros [| |? []]. }
  assert (∀ o x y, TH8_ISTERM x = true → TH8_ISTERM (Operator o x y) = true) as Ho.
  { intros o x y ?. simpl. by destruct (Hx x) as [_ ->]. }
  intros H. assert (TH8_ISTERM t = true) as Ht.
  { induction H; try done; by apply Ho. }
  by destruct (Hx t Ht).
Qed.

Lemma flat_up q p p' ts t : flat q p ts t → p <= p' → p' <= 15 → flat q p' ts t.
Proof. intros. destruct (decide (p = p')) as [->|]; [done|]. apply (F_up q p); [lia|done|done]. Qed.

Lemma flat_base q ts t : flat q q ts t → ts = [t].
Proof.
  intros H. remember q as p eqn:E in H at 2. destruct H; try done; try lia.
  apply flat_level in H1. lia.
Qed.

Lemma table_precedence o : o ∈ th8Operators →
  iPrecedence o = match eOp o with
                  | TH8_OP_TERNARY_Q | TH8_OP_TERNARY_C => 14
                  | TH8_OP_VAR_ASSIGN => 15
                  | TH8_OP_OPEN_BRACKET | TH8_OP_CLOSE_BRACKET => -1
                  | _ => iPrecedence o
                  end.
Proof. revert o. apply Forall_forall. repeat constructor. Qed.

Lemma join_unary_flat p ts t : flat 0 p ts t →
  ∃ ts', flat 1 (Z.max p 1) ts' t ∧
    ∀ todo, join_unary (ts ++ todo) = (λ r, ts' ++ r) <$> join_unary todo.
Proof.
  assert (Hskip : ∀ o l, level 1 o = false → join_unary (token o :: l) = cons (token o) <$> join_unary l).
  { intros o l Ho. simpl. rewrite Ho. by destruct (join_unary l). }
  induction 1 as [t Ht|p p' ts t Hp Hp' _ (ts' & Hf & Hj)|o ts t _ Ho _ (ts' & Hf & Hj)
    |o p ts1 x ts2 y _ Ho Hp _ (ts1' & Hf1 & Hj1) _ (ts2' & Hf2 & Hj2)
    |o c ts1 x ts2 y ts3 z _ Ho Hc Eo Ec _ (ts1' & Hf1 & Hj1) _ (ts2' & Hf2 & Hj2) _ (ts3' & Hf3 & Hj3)
    |o ts1 x ts2 y _ Ho Eo _ (ts1' & Hf1 & Hj1) _ (ts2' & Hf2 & Hj2)].
  - exists [t]. split; [by constructor|]. intros todo. simpl.
    destruct (flat_term 0 0 [t] t) as (_ & -> & _); [by constructor|]. by destruct (join_unary todo).
  - exists ts'. split; [eapply flat_up; [done|lia|lia]|done].
  - exists [Operator o t NULL]. destruct (flat_term _ _ _ _ Hf) as (Ht & _ & Hn).
    split; [constructor; simpl; by rewrite Hn|]. intros todo. simpl. rewrite Hj.
    apply flat_base in Hf as ->. unfold level. rewrite (proj2 (Z.eqb_eq _ _) Ho).
    destruct (join_unary todo); [|done]. simpl. by rewrite Ht.
  - exists (ts1' ++ token o :: ts2'). rewrite !Z.max_l in * by lia. split; [apply F_binary; [lia|done..]|].
    intros todo. rewrite <- app_assoc, Hj1. simpl app. rewrite Hskip, Hj2 by (unfold level; lia).
    destruct (join_unary todo); [|done]. simpl. by rewrite <- app_assoc.
  - exists (ts1' ++ token o :: ts2' ++ token c :: ts3'). rewrite !Z.max_l in * by lia.
    split; [by apply F_ternary|]. intros todo. rewrite <- app_assoc, Hj1. simpl app.
    apply table_precedence in Ho, Hc. rewrite Eo in Ho. rewrite Ec in Hc.
    rewrite Hskip, <- app_assoc, Hj2 by (unfold level; lia). simpl app.
    rewrite Hskip, Hj3 by (unfold level; lia).
    destruct (join_unary todo); [|done]. simpl. rewrite <- app_assoc. simpl. by rewrite <- app_assoc.
  - exists (ts1' ++ token o :: ts2'). rewrite !Z.max_l in * by lia. split; [by apply F_assign|].
    apply table_precedence in Ho. rewrite Eo in Ho.
    intros todo. rewrite <- app_assoc, Hj1. simpl app. rewrite Hskip, Hj2 by (unfold level; lia).
    destruct (join_unary todo); [|done]. simpl. by rewrite <- app_assoc.
Qed.

(** A scan over the tokens that passes what it does not select. *)
Record scan : Type := mkScan {
  scanner : list Th8_ExprNode → list Th8_ExprNode → option (list Th8_ExprNode);
  skips : Th8_Operator → Prop;
  scan_term t done todo : unbound t = None → scanner done (t :: todo) = scanner (t :: done) todo;
  scan_skip o done todo : skips o → scanner done (token o :: todo) = scanner (token o :: done) todo
}.

(** The scan for phase [q + 1] passes an expression, whose operators of that
    phase are bound, if it binds the operators of its own phase. *)
Lemma scan_flat (s : scan) q p ts t :
  1 <= q → flat q p ts t →
  (∀ o, o ∈ th8Operators ∨ 2 <= iPrecedence o <= 13 → q + 1 < iPrecedence o → skips s o) →
  (∀ o x y done todo, iPrecedence o = q + 1 → 2 <= q + 1 <= 13 →
    TH8_ISTERM x = true → TH8_ISTERM y = true →
    scanner s (x :: done) (token o :: y :: todo) = scanner s (Operator o x y :: done) todo) →
  (∀ o c x y z done todo, o ∈ th8Operators → c ∈ th8Operators →
    eOp o = TH8_OP_TERNARY_Q → eOp c = TH8_OP_TERNARY_C → q = 13 →
    TH8_ISTERM x = true → TH8_ISTERM y = true → TH8_ISTERM z = true →
    scanner s (x :: done) (token o :: y :: token c :: z :: todo) =
    scanner s (Operator o x (Operator c y z) :: done) todo) →
  q < 14 →
  ∃ ts', flat (q + 1) (Z.max p (q + 1)) ts' t ∧
    ∀ done todo, scanner s done (ts ++ todo) = scanner s (rev ts' ++ done) todo.
Proof.
  intros Hq H Hskip Hbin Htern Hq'.
  induction H as [t Ht|p p' ts t Hp Hp' _ (ts' & Hf & Hj)|o ts t ? Ho _ _
    |o p ts1 x ts2 y Hlt Ho Hp Hd1 (ts1' & Hf1 & Hj1) Hd2 (ts2' & Hf2 & Hj2)
    |o c ts1 x ts2 y ts3 z _ Ho Hc Eo Ec Hd1 (ts1' & Hf1 & Hj1) Hd2 (ts2' & Hf2 & Hj2) Hd3 (ts3' & Hf3 & Hj3)
    |o ts1 x ts2 y _ Ho Eo _ (ts1' & Hf1 & Hj1) _ (ts2' & Hf2 & Hj2)].
  - exists [t]. rewrite Z.max_r by lia. split; [by constructor|]. intros done todo. simpl.
    apply scan_term. by destruct (flat_term q q [t] t ltac:(by constructor)) as (_ & ? & _).
  - exists ts'. split; [eapply flat_up; [done|lia|lia]|done].
  - lia.
  - destruct (decide (p = q + 1)) as [Hpq|Hpq].
    + rewrite Z.max_r in * by lia. rewrite Hpq in *. replace (q + 1 - 1) with q in * by lia.
      destruct (flat_term _ _ _ _ Hf1) as (Hx & _ & Hn). destruct (flat_term _ _ _ _ Hf2) as (Hy & _ & _).
      exists [Operator o x y]. split; [constructor; simpl; by rewrite Hn|].
      apply flat_base in Hf1 as ->. apply flat_base in Hd2 as ->.
      intros done todo. rewrite <- app_assoc, Hj1. simpl. by rewrite Hbin.
    + rewrite !Z.max_l in * by lia. exists (ts1' ++ token o :: ts2').
      split; [apply F_binary; [lia|done..]|]. intros done todo.
      rewrite <- app_assoc, Hj1. simpl app. rewrite scan_skip, Hj2 by (apply Hskip; lia).
      rewrite rev_app_distr. simpl. by rewrite <- !app_assoc.
  - destruct (decide (q = 13)) as [->|Hq13].
    + rewrite Z.max_r in * by lia.
      destruct (flat_term _ _ _ _ Hf1) as (Hx & _ & Hn). destruct (flat_term _ _ _ _ Hf2) as (Hy & _ & Hny).
      destruct (flat_term _ _ _ _ Hf3) as (Hz & _ & _).
      exists [Operator o x (Operator c y z)]. split; [constructor; simpl; by rewrite Hn|].
      apply flat_base in Hf1 as ->. apply flat_base in Hd2 as ->. apply flat_base in Hd3 as ->.
      intros done todo. rewrite <- app_assoc, Hj1. simpl. by rewrite Htern.
    + rewrite !Z.max_l in * by lia. exists (ts1' ++ token o :: ts2' ++ token c :: ts3').
      split; [apply F_ternary; [lia|done..]|]. intros done todo.
      pose proof (table_precedence o Ho) as Po. rewrite Eo in Po.
      pose proof (table_precedence c Hc) as Pc. rewrite Ec in Pc.
      rewrite <- app_assoc, Hj1. simpl app. rewrite scan_skip by (apply Hskip; [by left|lia]).
      rewrite <- app_assoc, Hj2. simpl app. rewrite scan_skip, Hj3 by (apply Hskip; [by left|lia]).
      rewrite !rev_app_distr. simpl. rewrite rev_app_distr. simpl. by rewrite <- !app_assoc.
  - rewrite !Z.max_l in * by lia. exists (ts1' ++ token o :: ts2').
    split; [apply F_assign; [lia|done..]|]. intros done todo.
    pose proof (table_precedence o Ho) as Po. rewrite Eo in Po.
    rewrite <- app_assoc, Hj1. simpl app. rewrite scan_skip, Hj2 by (apply Hskip; [by left|lia]).
    rewrite rev_app_distr. simpl. by rewrite <- !app_assoc.
Qed.

Program Definition level_scan (p : Z) : scan :=
  {| scanner := join (level p) binary; skips o := iPrecedence o ≠ p |}.
Next Obligation. intros p t done todo H. simpl. by rewrite H. Qed.
Next Obligation. intros p o done todo H. simpl. unfold level. by rewrite (proj2 (Z.eqb_neq _ _) H). Qed.

Program Definition ternary_scan : scan :=
  {| scanner := join_ternary; skips o := eOp o ≠ TH8_OP_TERNARY_Q |}.
Next Obligation. intros t done todo H. simpl. by rewrite H. Qed.
Next Obligation. intros o done todo H. simpl. by rewrite bool_decide_eq_false_2. Qed.

Lemma levels_flat n q ts t : 1 <= q → q + Z.of_nat n <= 13 → flat q 15 ts t →
  ∃ ts', join_levels n (q + 1) ts = Some ts' ∧ flat (q + Z.of_nat n) 15 ts' t.
Proof.
  revert q ts. induction n as [|n IH]; intros q ts Hq Hn Hf.
  { exists ts. by rewrite Z.add_0_r. }
  destruct (scan_flat (level_scan (q + 1)) q 15 ts t Hq Hf) as (ts1 & Hf1 & Hj).
  - intros o _ Ho. simpl. lia.
  - intros o x y done todo Ho _ Hx Hy. simpl. unfold level.
    by rewrite (proj2 (Z.eqb_eq _ _) Ho), Hx, Hy.
  - intros. lia.
  - lia.
  - rewrite Z.max_l in Hf1 by lia. destruct (IH (q + 1) ts1 ltac:(lia) ltac:(lia) Hf1) as (ts2 & H1 & H2).
    exists ts2. split.
    + unfold join_levels. fold join_levels. specialize (Hj [] []). simpl in Hj.
      rewrite !app_nil_r in Hj. rewrite Hj. simpl. by rewrite rev_involutive.
    + by replace (q + Z.of_nat (S n)) with (q + 1 + Z.of_nat n) by lia.
Qed.

Lemma ternary_flat ts t : flat 13 15 ts t →
  ∃ ts', join_ternary [] ts = Some ts' ∧ flat 14 15 ts' t.
Proof.
  intros Hf. destruct (scan_flat ternary_scan 13 15 ts t ltac:(lia) Hf) as (ts1 & Hf1 & Hj).
  - intros o [Ho|Ho] Hp; [|lia]. simpl. apply table_precedence in Ho. intros E. rewrite E in Ho. lia.
  - intros. lia.
  - intros o c x y z done todo _ _ Eo Ec _ Hx Hy Hz. simpl. rewrite bool_decide_eq_true_2 by done.
    rewrite Hx, Hy, Hz, Ec. done.
  - lia.
  - exists ts1. split; [|done]. specialize (Hj [] []). simpl in Hj.
    rewrite !app_nil_r in Hj. rewrite Hj. by rewrite rev_involutive.
Qed.

Lemma assign_flat p ts t done todo : flat 14 p ts t →
  join assigns (λ o r l, Operator o l r) done (rev ts ++ todo) =
  join assigns (λ o r l, Operator o l r) (t :: done) todo.
Proof.
  intros H. revert done todo. induction H as [t Ht| | | |
    |o ts1 x ts2 y _ Ho Eo Hd1 IH1 Hd2 IH2]; intros done todo; try lia; auto.
  - simpl. by destruct (flat_term 14 14 [t] t ltac:(by constructor)) as (_ & -> & _).
  - apply flat_base in Hd1 as Hts. subst ts1. destruct (flat_term _ _ _ _ Hd1) as (Hx & _ & _).
    destruct (flat_term _ _ _ _ Hd2) as (Hy & _ & _).
    rewrite rev_app_distr. simpl. rewrite <- !app_assoc, IH2. simpl. unfold assigns at 1.
    rewrite bool_decide_eq_true_2 by done. by rewrite Hx, Hy.
Qed.

(** The phases find the tree of an expression whose groups are built. *)
Lemma bind_flat ts t : flat 0 15 ts t → bind_live ts = Some [t].
Proof.
  intros Hf. unfold bind_live.
  destruct (join_unary_flat 15 ts t Hf) as (ts1 & Hf1 & Hj). specialize (Hj []).
  rewrite app_nil_r in Hj. rewrite Hj. simpl. rewrite app_nil_r. change (Z.max 15 1) with 15 in Hf1.
  destruct (levels_flat 12 1 ts1 t ltac:(lia) ltac:(lia) Hf1) as (ts2 & H2 & Hf2).
  change (1 + 1) with 2 in H2. rewrite H2. simpl. change (1 + Z.of_nat 12) with 13 in Hf2.
  destruct (ternary_flat ts2 t Hf2) as (ts3 & H3 & Hf3). rewrite H3. simpl.
  unfold join_assign. pose proof (assign_flat 15 ts3 t [] [] Hf3) as H4.
  rewrite app_nil_r in H4. by rewrite H4.
Qed.

(** *** Groups *)

Lemma not_paren o : o ∈ th8Operators → 1 <= iPrecedence o →
  is_code TH8_OP_OPEN_BRACKET (token o) = false ∧ is_code TH8_OP_CLOSE_BRACKET (token o) = false.
Proof.
  intros Ho Hp. apply table_precedence in Ho. simpl.
  split; apply bool_decide_eq_false_2; intros E; rewrite E in Ho; lia.
Qed.

Lemma close_index_skip t ap n : is_code TH8_OP_OPEN_BRACKET t = false →
  is_code TH8_OP_CLOSE_BRACKET t = false → close_index (t :: ap) n = S <$> close_index ap n.
Proof. intros H1 H2. simpl. by rewrite H1, H2. Qed.

(** Both sides add up the tokens skipped. *)
Ltac close_sum rest n :=
  destruct (close_index rest (S n)); [|done]; simpl; f_equal; autorewrite with th8len;
  rewrite ?length_app; simpl; rewrite ?length_app; simpl; lia.

Lemma close_index_derives k p ts t n rest : derives Implemented k p ts t →
  close_index (ts ++ rest) (S n) = Nat.add (length ts) <$> close_index rest (S n).
Proof.
  intros H. revert n rest. induction H as [k z tag|k o c ts t Ho Hc Eo Ec _ IH|k p p' ts t _ _ _ IH
    |k o ts t Ho Hp _ IH|k o p ts1 x ts2 y Ho Hp Hpp _ IH1 _ IH2
    |k o c ts1 x ts2 y ts3 z Ho Hc Eo Ec _ IH1 _ IH2 _ IH3|k o ts1 x ts2 y Ho Eo _ IH1 _ IH2];
    intros n rest; try done.
  - simpl. rewrite bool_decide_eq_true_2 by done. rewrite <- app_assoc, IH. simpl.
    rewrite bool_decide_eq_false_2 by congruence. rewrite bool_decide_eq_true_2 by done. close_sum rest n.
  - destruct (not_paren o Ho ltac:(lia)) as [H1 H2]. simpl app.
    rewrite close_index_skip, IH by done. close_sum rest n.
  - destruct (not_paren o Ho ltac:(lia)) as [H1 H2].
    rewrite <- app_assoc, IH1. simpl app. rewrite close_index_skip, IH2 by done. close_sum rest n.
  - apply table_precedence in Ho as Po. rewrite Eo in Po. apply table_precedence in Hc as Pc. rewrite Ec in Pc.
    destruct (not_paren o Ho ltac:(lia)) as [H1 H2]. destruct (not_paren c Hc ltac:(lia)) as [H3 H4].
    rewrite <- app_assoc, IH1. simpl app. rewrite close_index_skip, <- app_assoc, IH2 by done. simpl app.
    rewrite close_index_skip, IH3 by done. close_sum rest n.
  - apply table_precedence in Ho as Po. rewrite Eo in Po. destruct (not_paren o Ho ltac:(lia)) as [H1 H2].
    rewrite <- app_assoc, IH1. simpl app. rewrite close_index_skip, IH2 by done. close_sum rest n.
Qed.

Section groups.
Context {I : Type} `{TI : TreeInterp I}.

Lemma paren_phase_fuel build f1 f2 ap (it : I) : (length ap <= f1)%nat → (length ap <= f2)%nat →
  paren_phase build f1 ap it = paren_phase build f2 ap it.
Proof.
  revert f2 ap it. induction f1 as [|f1 IH]; intros [|f2] [|t ap] it H1 H2; simpl in *; try lia; try done.
  destruct (is_code _ t).
  - destruct (close_index ap 1) as [[|n]|]; [done| |done].
    destruct (build (take (S n) ap) it) as [[rc mid] it1]. destruct (negb _); [done|].
    rewrite (IH f2 (drop (S (S n)) ap) it1); [done|rewrite length_drop; lia..].
  - rewrite (IH f2 ap it); [done|lia..].
Qed.

(** [build] builds the groups nested less than [K] deep. *)
Definition builds (K : nat) (build : list Th8_ExprNode → I → Z * list Th8_ExprNode * I) : Prop :=
  ∀ k ts t it, (k < K)%nat → derives Implemented k 15 ts t →
    ∃ it', build ts it = (TH8_OK, t :: replicate (length ts - 1) NULL, it').

(** Scanning the groups of [ts] gives the slots [ap], whatever follows. *)
Definition grouped build (ts ap : list Th8_ExprNode) : Prop :=
  ∀ todo (it : I), ∃ it', paren_phase build (length (ts ++ todo)) (ts ++ todo) it =
    let '(rc, r, it') := paren_phase build (length todo) todo it' in (rc, ap ++ r, it').

Lemma grouped_app build ts1 ts2 ap1 ap2 :
  grouped build ts1 ap1 → grouped build ts2 ap2 → grouped build (ts1 ++ ts2) (ap1 ++ ap2).
Proof.
  intros H1 H2 todo it. rewrite <- app_assoc. destruct (H1 (ts2 ++ todo) it) as [it1 ->].
  destruct (H2 todo it1) as [it2 ->]. exists it2.
  destruct (paren_phase _ _ todo it2) as [[rc r] it3]. by rewrite app_assoc.
Qed.

Lemma grouped_skip build t : is_code TH8_OP_OPEN_BRACKET t = false → grouped build [t] [t].
Proof.
  intros H todo it. exists it. simpl. rewrite H. by destruct (paren_phase _ _ todo it) as [[rc r] it3].
Qed.

(** The slots are full where a unary operator needs them. *)
Definition pads (ap : list Th8_ExprNode) : Prop :=
  (∀ todo, padded todo → padded (ap ++ todo)) ∧ ∃ t r, ap = t :: r ∧ is_null t = false.

Lemma pads_op o ap1 ap2 : pads ap1 → pads ap2 → iPrecedence o ≠ 1 → pads (ap1 ++ token o :: ap2).
Proof.
  intros [H1 (t & r & -> & Ht)] [H2 _] Ho. split; [|by exists t, (r ++ token o :: ap2)].
  intros todo Hp. rewrite <- app_assoc. apply H1. simpl. split; [|by apply H2].
  intros o' x r' [= <-] Hl. unfold level in Hl. lia.
Qed.

Lemma live_nulls n ap : live (replicate n NULL ++ ap) = live ap.
Proof. by induction n. Qed.

Lemma padded_nulls n todo : padded todo → padded (replicate n NULL ++ todo).
Proof. intros H. by induction n; [|split]. Qed.

Lemma group_phase K build k o c ts t : builds K build → (k < K)%nat →
  eOp o = TH8_OP_OPEN_BRACKET → eOp c = TH8_OP_CLOSE_BRACKET → derives Implemented k 15 ts t →
  ts ≠ [] →
  grouped build (token o :: ts ++ [token c]) (t :: NULL :: replicate (length ts - 1) NULL ++ [NULL]).
Proof.
  intros Hb Hk Eo Ec Hd Hne todo it. destruct (Hb k ts t it Hk Hd) as [it1 Hbt]. exists it1.
  assert (Hci : close_index ((ts ++ [token c]) ++ todo) 1 = Some (length ts)).
  { rewrite <- app_assoc, (close_index_derives k 15 ts t) by done. simpl.
    rewrite bool_decide_eq_false_2 by congruence. rewrite bool_decide_eq_true_2 by done. simpl. f_equal. lia. }
  simpl app. simpl length. cbn [paren_phase]. unfold is_code, token. rewrite bool_decide_eq_true_2 by done.
  fold (token c). rewrite Hci.
  assert (take (length ts) ((ts ++ [token c]) ++ todo) = ts) as -> by (rewrite <- app_assoc; apply take_app_length).
  assert (drop (S (length ts)) ((ts ++ [token c]) ++ todo) = todo) as ->.
  { rewrite drop_app_ge by (rewrite length_app; simpl; lia). rewrite length_app. simpl.
    replace (S (length ts) - (length ts + 1))%nat with O by lia. done. }
  rewrite Hbt. destruct ts as [|t0 ts0]; [done|]. cbn [negb].
  change (negb (TH8_OK =? TH8_OK)) with false. cbn match.
  rewrite (paren_phase_fuel build _ (length todo) todo it1); [|rewrite !length_app; simpl; lia|lia].
  destruct (paren_phase build (length todo) todo it1) as [[rc r] it2]. simpl. by rewrite <- app_assoc.
Qed.

Lemma derives_term k p ts t : derives Implemented k p ts t → TH8_ISTERM t = true.
Proof.
  assert (∀ x, TH8_ISTERM x = true → is_null x = false) as Hx by by intros [].
  induction 1; simpl; try done; by rewrite Hx.
Qed.

Lemma derives_nonempty k p ts t : derives Implemented k p ts t → ts ≠ [].
Proof. induction 1; try done; by destruct ts1. Qed.

(** What the first phase makes of an expression: the slots of a flat one. *)
Definition phase_one K build p (ts : list Th8_ExprNode) t (ap : list Th8_ExprNode) : Prop :=
  builds K build → grouped build ts ap ∧ pads ap ∧ length ap = length ts ∧ flat 0 p (live ap) t.

Lemma phase_one_binary K build p o ts1 x ap1 p2 ts2 y ap2 t p1 :
  o ∈ th8Operators → 2 <= iPrecedence o →
  phase_one K build p1 ts1 x ap1 → phase_one K build p2 ts2 y ap2 →
  (flat 0 p1 (live ap1) x → flat 0 p2 (live ap2) y → flat 0 p (live ap1 ++ token o :: live ap2) t) →
  phase_one K build p (ts1 ++ token o :: ts2) t (ap1 ++ token o :: ap2).
Proof.
  intros Ho Hp H1 H2 Hf Hb. destruct (H1 Hb) as (G1 & P1 & L1 & F1). destruct (H2 Hb) as (G2 & P2 & L2 & F2).
  destruct (not_paren o Ho ltac:(lia)) as [Hn _]. split_and!.
  - apply grouped_app; [done|]. apply (grouped_app build [token o] _ [token o]); [by apply grouped_skip|done].
  - apply pads_op; [done|done|lia].
  - rewrite !length_app. simpl. lia.
  - rewrite live_app, live_cons. by apply Hf.
Qed.

Lemma paren_derives K build k p ts t : (k <= K)%nat → derives Implemented k p ts t → ∃ ap, phase_one K build p ts t ap.
Proof.
  intros Hk H. induction H as [k z tag|k o c ts t Ho Hc Eo Ec Hd _|k p p' ts t ? ? _ IH
    |k o ts t Ho Hp _ IH|k o p ts1 x ts2 y Ho Hp Hpp _ IH1 _ IH2
    |k o c ts1 x ts2 y ts3 z Ho Hc Eo Ec _ IH1 _ IH2 _ IH3|k o ts1 x ts2 y Ho Eo _ IH1 _ IH2].
  - exists [Literal z tag]. intros Hb. split_and!.
    + by apply grouped_skip.
    + split; [|by exists (Literal z tag), []]. intros todo Hp. by split.
    + done.
    + by constructor.
  - exists (t :: NULL :: replicate (length ts - 1) NULL ++ [NULL]). intros Hb.
    pose proof (derives_term _ _ _ _ Hd) as Ht. pose proof (derives_nonempty _ _ _ _ Hd) as Hne.
    assert (is_null t = false) as Hn by by destruct t. split_and!.
    + apply (group_phase K build k); [done|lia|done..].
    + split; [|eauto]. intros todo Hp. simpl. split; [|split; [done|]].
      * intros o' x r Hu. by apply unbound_not_null in Hu as [_ ?%not_false_iff_true].
      * rewrite <- app_assoc. apply padded_nulls. by split.
    + simpl. rewrite !length_app, length_replicate. destruct ts; [done|]. simpl. lia.
    + rewrite live_cons, Hn, live_cons. simpl. rewrite live_nulls. by constructor.
  - destruct (IH Hk) as [ap Hap]. exists ap. intros Hb. destruct (Hap Hb) as (? & ? & ? & ?).
    split_and!; [done..|]. by apply (F_up 0 p).
  - destruct (IH Hk) as [ap Hap]. exists (token o :: ap). intros Hb.
    destruct (Hap Hb) as (G & [P1 (x & r & -> & Hx)] & L & F). destruct (not_paren o Ho ltac:(lia)) as [Hn _].
    split_and!.
    + apply (grouped_app build [token o] _ [token o]); [by apply grouped_skip|done].
    + split; [|by exists (token o), (x :: r)]. intros todo Hpt. split; [|by apply P1].
      by intros o' x' r' _ _ [= <- _].
    + simpl in *. lia.
    + rewrite live_cons. by apply F_unary.
  - destruct (IH1 Hk) as [ap1 H1], (IH2 Hk) as [ap2 H2]. exists (ap1 ++ token o :: ap2).
    eapply phase_one_binary; [done|lia|done|done|]. intros. apply F_binary; [lia|done..].
  - destruct (IH1 Hk) as [ap1 H1], (IH2 Hk) as [ap2 H2], (IH3 Hk) as [ap3 H3].
    apply table_precedence in Ho as Po. rewrite Eo in Po. apply table_precedence in Hc as Pc. rewrite Ec in Pc.
    exists (ap1 ++ token o :: ap2 ++ token c :: ap3). intros Hb.
    destruct (H1 Hb) as (_ & _ & _ & F1), (H2 Hb) as (_ & _ & _ & F2), (H3 Hb) as (_ & _ & _ & F3).
    destruct (H1 Hb) as (G1 & P1 & L1 & _), (H2 Hb) as (G2 & P2 & L2 & _), (H3 Hb) as (G3 & P3 & L3 & _).
    destruct (not_paren o Ho ltac:(lia)) as [Hn _]. destruct (not_paren c Hc ltac:(lia)) as [Hnc _]. split_and!.
    + apply grouped_app; [done|]. apply (grouped_app build [token o] _ [token o]); [by apply grouped_skip|].
      apply grouped_app; [done|]. apply (grouped_app build [token c] _ [token c]); [by apply grouped_skip|done].
    + apply pads_op; [done| |lia]. apply pads_op; [done|done|lia].
    + rewrite !length_app. simpl. rewrite !length_app. simpl. lia.
    + rewrite live_app, live_cons, live_app, live_cons. by apply F_ternary.
  - destruct (IH1 Hk) as [ap1 H1], (IH2 Hk) as [ap2 H2]. exists (ap1 ++ token o :: ap2).
    apply table_precedence in Ho as Po. rewrite Eo in Po.
    eapply phase_one_binary; [done|lia|done|done|]. intros. by apply F_assign.
Qed.

Lemma null_slots ap t : live ap = [t] → head ap = Some t → ap = t :: replicate (length ap - 1) NULL.
Proof.
  destruct ap as [|t' ap]; [done|]. simpl. rewrite live_cons. intros H [= ->].
  destruct (is_null t) eqn:E.
  { pose proof (take_operand_spec ap) as Hs. destruct (take_operand ap) as [[x r]|]; [|congruence].
    destruct Hs as (Hs & _ & Hx). rewrite H in Hs. injection Hs as -> _. congruence. }
  injection H as H. f_equal. rewrite Nat.sub_0_r. clear E. induction ap as [|x ap IH]; [done|].
  rewrite live_cons in H. destruct x; [|done..]. simpl in H |- *. f_equal. by apply IH.
Qed.

Lemma MakeTree_builds (ready : ∀ it : I, fst (tree_ready it) = TH8_OK) K room : (K <= room)%nat →
  builds K (MakeTree room).
Proof.
  revert room. induction K as [|K IH]; [intros ? ? k *; lia|]. intros [|room] Hr k ts t it Hk Hd; [lia|].
  destruct (paren_derives K (MakeTree room) k 15 ts t ltac:(lia) Hd) as [ap Hap].
  destruct (Hap (IH room ltac:(lia))) as (G & [P _] & L & F). simpl.
  specialize (ready it). destruct (tree_ready it) as [rc it1]. simpl in ready. subst rc.
  destruct (G [] it1) as [it2 Hg]. rewrite !app_nil_r in Hg. simpl in Hg. rewrite app_nil_r in Hg.
  change (negb (TH8_OK =? TH8_OK)) with false. cbn match.
  assert ((length ts =? 0)%nat = false) as ->.
  { pose proof (derives_nonempty _ _ _ _ Hd). destruct ts; done. }
  rewrite Hg. change (negb (TH8_OK =? TH8_OK)) with false. cbn match.
  specialize (P [] Logic.I). rewrite app_nil_r in P.
  destruct (bind_phases_live ap P) as [Hs Hh]. rewrite (bind_flat _ _ F) in Hs.
  destruct (bind_phases ap) as [ok ap']. destruct Hs as (-> & Hl & Hlive). exists it2.
  rewrite bool_decide_eq_true_2 by eauto. simpl in Hh.
  specialize (Hlive _ eq_refl). rewrite (null_slots ap' t Hlive (Hh eq_refl _ _ Hlive)) at 1.
  by rewrite Hl, L.
Qed.
End groups.

(** ** Whatever the tokens *)

(** The tokens of a tree, in the order of the text. *)
Fixpoint inorder (t : Th8_ExprNode) : list Th8_ExprNode :=
  match t with
  | NULL => []
  | Literal _ _ => [t]
  | Operator o l r =>
      if iPrecedence o =? 1 then token o :: inorder l ++ inorder r
      else inorder l ++ token o :: inorder r
  end.

Definition is_paren (t : Th8_ExprNode) : bool :=
  is_code TH8_OP_OPEN_BRACKET t || is_code TH8_OP_CLOSE_BRACKET t.

(** The tokens of the slots, but for the parentheses. *)
Definition tokens (ap : list Th8_ExprNode) : list Th8_ExprNode :=
  filter (λ t, is_paren t = false) (ap ≫= inorder).

(** A slot as the phases leave it: the operator is of the table, and a token
    that only others bind has no operands. *)
Definition slot_ok (t : Th8_ExprNode) : Prop :=
  match t with
  | Operator o l r =>
      o ∈ th8Operators ∧ (l = NULL → r = NULL) ∧
      (l ≠ NULL → eOp o ≠ TH8_OP_TERNARY_C ∧ 1 <= iPrecedence o)
  | _ => True
  end.

Lemma tokens_app a b : tokens (a ++ b) = tokens a ++ tokens b.
Proof. unfold tokens. by rewrite bind_app, filter_app. Qed.

Lemma tokens_cons t a : tokens (t :: a) = tokens [t] ++ tokens a.
Proof. apply (tokens_app [t]). Qed.

Lemma tokens_nulls n : tokens (replicate n NULL) = [].
Proof. by induction n. Qed.

Lemma tokens_one t : tokens [t] = filter (λ t, is_paren t = false) (inorder t).
Proof. unfold tokens. simpl. by rewrite app_nil_r. Qed.

(** An operator node holds the tokens of its operands, around its own. *)
Lemma tokens_binary o x y : iPrecedence o ≠ 1 →
  tokens [Operator o x y] = tokens [x] ++ tokens [token o] ++ tokens [y].
Proof.
  intros Ho. rewrite !tokens_one. simpl. apply Z.eqb_neq in Ho. rewrite Ho. simpl.
  rewrite filter_app. f_equal. by rewrite <- filter_app.
Qed.

Lemma tokens_unary o x : iPrecedence o = 1 → tokens [Operator o x NULL] = tokens [token o] ++ tokens [x].
Proof.
  intros Ho. rewrite !tokens_one. simpl. apply Z.eqb_eq in Ho. rewrite Ho. simpl.
  by rewrite app_nil_r, <- filter_app.
Qed.

Lemma tokens_unbound t o : slot_ok t → unbound t = Some o → t = token o.
Proof. destruct t as [| |? [] ?]; try done. intros (_ & H & _) [= ->]. by rewrite H. Qed.

(** The shape of the slots around an operand. *)
Lemma take_operand_shape ap t r : take_operand ap = Some (t, r) →
  ∃ n rest, ap = replicate n NULL ++ t :: rest ∧ r = replicate n NULL ++ NULL :: rest.
Proof.
  revert r. induction ap as [|x ap IH]; [done|]. intros r. simpl.
  destruct x; simpl; try by intros [= <- <-]; exists O, ap.
  destruct (take_operand ap) as [[y r']|]; [|done]. intros [= -> <-].
  destruct (IH r' eq_refl) as (n & rest & -> & ->). by exists (S n), rest.
Qed.

(** A phase keeps the tokens and the number of slots. *)
Definition keeps (ap ap' : list Th8_ExprNode) : Prop :=
  tokens ap' = tokens ap ∧ length ap' = length ap ∧ Forall slot_ok ap'.

Lemma keeps_refl ap : Forall slot_ok ap → keeps ap ap.
Proof. done. Qed.

Lemma keeps_trans a b c : keeps a b → keeps b c → keeps a c.
Proof. intros (H1 & H2 & _) (H3 & H4 & H5). split_and!; [congruence..|done]. Qed.

(** The slots from left to right, seen from a loop that goes [right] or left. *)
Definition slots (right : bool) (done todo : list Th8_ExprNode) : list Th8_ExprNode :=
  if right then rev done ++ todo else rev todo ++ done.

Lemma keeps_slots right done todo done' todo' :
  tokens (slots right done' todo') = tokens (slots right done todo) →
  (length done' + length todo' = length done + length todo)%nat →
  Forall slot_ok done' → Forall slot_ok todo' →
  keeps (slots right done todo) (slots right done' todo').
Proof.
  intros H1 H2 H3 H4. pose proof (@List.Forall_rev _ slot_ok) as Hrev.
  split_and!; [done| |]; unfold slots; destruct right;
    rewrite ?length_app, ?length_rev; try lia; apply Forall_app; auto.
Qed.

Lemma slot_ok_nulls n : Forall slot_ok (replicate n NULL).
Proof. by apply Forall_replicate. Qed.

Lemma tokens_rev_nulls n ap : tokens (rev (replicate n NULL ++ ap)) = tokens (rev ap).
Proof.
  rewrite rev_app_distr, tokens_app. induction n as [|n IH]; [apply app_nil_r|]. simpl.
  by rewrite tokens_app, app_nil_r.
Qed.

(** An operand leaves the slots, from either end, and its tokens with it. *)
Lemma take_operand_tokens ap t r : take_operand ap = Some (t, r) →
  tokens ap = tokens [t] ++ tokens r ∧ tokens (rev ap) = tokens (rev r) ++ tokens [t] ∧
  length r = length ap ∧ (Forall slot_ok ap → slot_ok t ∧ Forall slot_ok r).
Proof.
  intros H. apply take_operand_shape in H as (n & rest & -> & ->).
  rewrite !tokens_rev_nulls, !length_app, !Forall_app, !Forall_cons, !tokens_app, tokens_nulls. simpl rev.
  rewrite !tokens_app, (tokens_cons t rest), (tokens_cons NULL rest).
  change (tokens [NULL]) with (@nil Th8_ExprNode). rewrite app_nil_r.
  split_and!; [done..|]. intros (? & ? & ?). by split_and!.
Qed.

Lemma bind_loop_keeps right sel mk fuel done todo :
  (∀ o x y, mk o x y = if right : bool then Operator o x y else Operator o y x) →
  (∀ o, o ∈ th8Operators → sel o = true → 2 <= iPrecedence o ∧ eOp o ≠ TH8_OP_TERNARY_C) →
  Forall slot_ok done → Forall slot_ok todo →
  let ap := snd (bind_loop fuel sel mk done todo) in
  keeps (slots right done todo) (if right then ap else rev ap).
Proof.
  intros Hmk Hsel. revert done todo.
  assert (Horient : ∀ done todo, (if right then rev_append done todo else rev (rev_append done todo)) =
    slots right done todo).
  { intros done todo. unfold slots. destruct right; rewrite rev_append_rev; [done|].
    by rewrite rev_app_distr, rev_involutive. }
  assert (Hstop : ∀ done todo, Forall slot_ok done → Forall slot_ok todo →
    keeps (slots right done todo) (if right then rev_append done todo else rev (rev_append done todo))).
  { intros done todo Hd Ht. rewrite Horient. by apply keeps_slots. }
  induction fuel as [|fuel IH]; intros done [|t todo] Hd Ht; simpl; try by apply Hstop.
  inversion_clear Ht as [|? ? Hto Htodo].
  assert (Hshift : keeps (slots right done (t :: todo)) (slots right (t :: done) todo)).
  { apply keeps_slots; [|simpl; lia|by constructor|done]. f_equal. unfold slots.
    destruct right; simpl; by rewrite <- app_assoc. }
  assert (Hskip : let ap := snd (bind_loop fuel sel mk (t :: done) todo) in
    keeps (slots right done (t :: todo)) (if right then ap else rev ap)).
  { eapply keeps_trans; [exact Hshift|]. apply IH; [by constructor|done]. }
  destruct (unbound t) as [o|] eqn:Hu; [|done]. destruct (sel o) eqn:Hs; [|done].
  destruct (take_operand done) as [[x done']|] eqn:E1; [|apply Hstop; auto].
  destruct (take_operand todo) as [[y todo']|] eqn:E2; [|apply Hstop; auto].
  destruct (TH8_ISTERM x && TH8_ISTERM y) eqn:Hterm; [|apply Hstop; auto].
  apply andb_true_iff in Hterm as [Hx Hy].
  destruct (take_operand_tokens _ _ _ E1) as (T1 & R1 & L1 & O1), (O1 Hd) as [Hxo Hd'].
  destruct (take_operand_tokens _ _ _ E2) as (T2 & R2 & L2 & O2), (O2 Htodo) as [Hyo Hu'].
  assert (t = token o) as -> by by apply tokens_unbound. destruct Hto as (Ho & _ & _).
  destruct (Hsel o Ho Hs) as [Hp Hc].
  assert (Hnew : slot_ok (mk o x y)).
  { rewrite Hmk. assert (x ≠ NULL ∧ y ≠ NULL) as [? ?] by (split; by intros ->).
    destruct right; split_and!; [done|done|intros; split; [done|lia]|done|done|intros; split; [done|lia]]. }
  eapply keeps_trans; [|apply IH; [by constructor|done]].
  apply keeps_slots; [|simpl; lia|by constructor|done]. unfold slots.
  rewrite Hmk. destruct right; simpl rev; rewrite !tokens_app.
  - rewrite R1, (tokens_cons (token o)), T2, tokens_binary, <- !app_assoc by lia. done.
  - rewrite T1, R2, (tokens_cons (Operator o y x)), tokens_binary, <- !app_assoc by lia. done.
Qed.

Lemma ternary_loop_keeps fuel done todo : Forall slot_ok done → Forall slot_ok todo →
  keeps (rev done ++ todo) (snd (ternary_loop fuel done todo)).
Proof.
  assert (Hstop : ∀ done todo, Forall slot_ok done → Forall slot_ok todo →
    keeps (rev done ++ todo) (rev_append done todo)).
  { intros d t Hd Ht. rewrite rev_append_rev. by apply (keeps_slots true). }
  revert done todo. induction fuel as [|fuel IH]; intros done [|t todo] Hd Ht; simpl; try by apply Hstop.
  inversion_clear Ht as [|? ? Hto Htodo].
  assert (Hskip : keeps (rev done ++ t :: todo) (snd (ternary_loop fuel (t :: done) todo))).
  { replace (rev done ++ t :: todo) with (rev (t :: done) ++ todo) by (simpl; by rewrite <- app_assoc).
    apply IH; [by constructor|done]. }
  destruct (unbound t) as [o|] eqn:Hu; [|done]. case_bool_decide as Eo; [|done].
  assert (t = token o) as -> by by apply tokens_unbound. destruct Hto as (Ho & ? & ?).
  assert (Hfail : keeps (rev done ++ token o :: todo) (rev_append done (token o :: todo))).
  { apply Hstop; [done|by constructor]. }
  destruct (take_operand done) as [[c done']|] eqn:E1; [|done].
  destruct (take_operand todo) as [[x r1]|] eqn:E2; [|done].
  destruct (take_operand r1) as [[colon r2]|] eqn:E3; [|done].
  destruct colon as [| |o2 l2 r2']; [done..|].
  destruct (take_operand r2) as [[y r3]|] eqn:E4; [|done]. case_if; [|done]. bool_to_prop.
  destruct (take_operand_tokens _ _ _ E1) as (T1 & R1 & L1 & O1), (O1 Hd) as [Hco Hd'].
  destruct (take_operand_tokens _ _ _ E2) as (T2 & R2 & L2 & O2), (O2 Htodo) as [Hxo K1].
  destruct (take_operand_tokens _ _ _ E3) as (T3 & R3 & L3 & O3), (O3 K1) as [(Ho2 & Hn & Hb) K2].
  destruct (take_operand_tokens _ _ _ E4) as (T4 & R4 & L4 & O4), (O4 K2) as [Hyo K3].
  assert (Ec : eOp o2 = TH8_OP_TERNARY_C) by by eapply bool_decide_eq_true_1.
  assert (l2 = NULL) as ->.
  { destruct (decide (l2 = NULL)) as [|Hl]; [done|]. by destruct (Hb Hl). }
  rewrite (Hn eq_refl) in *. clear Hn Hb. fold (token o2) in *.
  apply table_precedence in Ho as Po. rewrite Eo in Po. apply table_precedence in Ho2 as Pc. rewrite Ec in Pc.
  eapply (keeps_trans _ (rev (Operator o c (Operator o2 x y) :: done') ++ r3)); [|apply IH; [|done]].
  - apply (keeps_slots true); [|simpl; lia| |done].
    + unfold slots. simpl rev. rewrite !tokens_app, R1, (tokens_cons (token o)), T2, T3, T4.
      rewrite tokens_binary, (tokens_binary o2), <- !app_assoc by lia. done.
    + constructor; [|done]. split_and!; [done|by intros ->|]. intros _. split; [congruence|lia].
  - constructor; [|done]. split_and!; [done|by intros ->|]. intros _. split; [congruence|lia].
Qed.

Lemma unary_phase_keeps ap : Forall slot_ok ap → keeps ap (snd (unary_phase ap)).
Proof.
  induction ap as [|t ap IH]; [done|]. intros [Ht Hap]%Forall_cons. specialize (IH Hap). simpl.
  destruct (unary_phase ap) as [ok r]. destruct IH as (HT & HL & HO). simpl in *.
  assert (Hstay : keeps (t :: ap) (t :: r)).
  { split_and!; [by rewrite (tokens_cons t), HT, <- tokens_cons|simpl; lia|by constructor]. }
  destruct (unbound t) as [o|] eqn:Hu; [|done]. destruct (ok && (iPrecedence o =? 1)) eqn:E; [|done].
  apply andb_true_iff in E as [_ Ho%Z.eqb_eq]. destruct r as [|x r]; [done|].
  destruct (TH8_ISTERM x) eqn:Hx; [|done]. simpl.
  assert (t = token o) as -> by by apply tokens_unbound. destruct Ht as (Hto & _ & _).
  apply Forall_cons in HO as [Hxo HO]. split_and!; [|simpl in *; lia|].
  - rewrite (tokens_cons (token o)), <- HT, (tokens_cons x), (tokens_cons (Operator o x NULL)), tokens_unary by done.
    by rewrite <- app_assoc.
  - constructor; [|by constructor]. split_and!; [done|by intros ->|]. intros _. split; [|lia].
    intros E. apply table_precedence in Hto. rewrite E in Hto. lia.
Qed.

Lemma binary_phases_keeps n p ap : 2 <= p → p + Z.of_nat n <= 14 → Forall slot_ok ap →
  keeps ap (snd (binary_phases n p ap)).
Proof.
  revert p ap. induction n as [|n IH]; intros p ap Hp Hn Hap; [done|].
  unfold binary_phases. fold binary_phases. unfold binary_phase.
  pose proof (bind_loop_keeps true (level p) binary (length ap) [] ap) as H.
  specialize (H (λ _ _ _, eq_refl)). simpl in H.
  assert (Hs : ∀ o, o ∈ th8Operators → level p o = true → 2 <= iPrecedence o ∧ eOp o ≠ TH8_OP_TERNARY_C).
  { intros o Ho Hl. unfold level in Hl. bool_to_prop. split; [lia|]. intros E.
    apply table_precedence in Ho. rewrite E in Ho. lia. }
  specialize (H Hs ltac:(constructor) Hap). fold (level p). destruct (bind_loop _ _ _ _ _) as [[] ap'].
  - eapply keeps_trans; [exact H|]. apply IH; [lia|lia|apply H].
  - exact H.
Qed.

Lemma assign_phase_keeps ap : Forall slot_ok ap → keeps ap (snd (assign_phase ap)).
Proof.
  intros Hap. unfold assign_phase. fold assigns.
  pose proof (bind_loop_keeps false assigns (λ o r l, Operator o l r) (length ap) [] (rev ap)
    (λ _ _ _, eq_refl)) as H.
  assert (Hs : ∀ o, o ∈ th8Operators → assigns o = true → 2 <= iPrecedence o ∧ eOp o ≠ TH8_OP_TERNARY_C).
  { intros o Ho Hl. apply bool_decide_eq_true in Hl. apply table_precedence in Ho. rewrite Hl in *.
    split; [lia|done]. }
  specialize (H Hs ltac:(constructor) ltac:(by apply List.Forall_rev)). unfold slots in H.
  rewrite rev_involutive, app_nil_r in H. by destruct (bind_loop _ _ _ _ _).
Qed.

Lemma compact_keeps ap : Forall slot_ok ap → keeps ap (compact ap).
Proof.
  destruct ap as [|t ap]; [done|]. intros Hap. simpl. destruct (is_null t) eqn:E; [|done].
  destruct (take_operand ap) as [[x r]|] eqn:Et; [|done]. destruct t; try done.
  destruct (take_operand_tokens _ _ _ Et) as (T & _ & L & O). apply Forall_cons in Hap as [_ Hap].
  destruct (O Hap). split_and!; [by rewrite (tokens_cons x), (tokens_cons NULL), T|simpl; lia|by constructor].
Qed.

Lemma bind_phases_keeps ap : Forall slot_ok ap → keeps ap (snd (bind_phases ap)).
Proof.
  intros Hap. unfold bind_phases.
  pose proof (unary_phase_keeps ap Hap) as K1. destruct (unary_phase ap) as [[] ap1]; [|done].
  pose proof (binary_phases_keeps 12 2 ap1 ltac:(lia) ltac:(lia) ltac:(apply K1)) as K2. simpl.
  destruct (binary_phases 12 2 ap1) as [[] ap2]; simpl in *; [|by eapply keeps_trans].
  pose proof (ternary_loop_keeps (length ap2) [] ap2 ltac:(constructor) ltac:(apply K2)) as K3.
  unfold ternary_phase. destruct (ternary_loop _ _ _) as [[] ap3]; simpl in *;
    [|by eapply keeps_trans; [|eapply keeps_trans]].
  pose proof (assign_phase_keeps ap3 ltac:(apply K3)) as K4. destruct (assign_phase ap3) as [[] ap4]; simpl in *;
    [|by do 2 (eapply keeps_trans; [done|]); eapply keeps_trans].
  do 3 (eapply keeps_trans; [done|]). eapply keeps_trans; [done|]. apply compact_keeps, K4.
Qed.

Lemma close_index_spec ap n m : close_index ap n = Some m →
  ∃ mid t rest, ap = mid ++ t :: rest ∧ length mid = m ∧ is_code TH8_OP_CLOSE_BRACKET t = true.
Proof.
  revert n m. induction ap as [|t ap IH]; [done|]. intros n m. simpl.
  assert (Hstep : ∀ n', S <$> close_index ap n' = Some m →
    ∃ mid t' rest, t :: ap = mid ++ t' :: rest ∧ length mid = m ∧ is_code TH8_OP_CLOSE_BRACKET t' = true).
  { intros n' H. destruct (close_index ap n') as [m'|] eqn:E; [|done]. injection H as <-.
    destruct (IH _ _ E) as (mid & t' & rest & -> & <- & ?). by exists (t :: mid), t', rest. }
  destruct (is_code TH8_OP_OPEN_BRACKET t); [apply Hstep|].
  destruct (is_code TH8_OP_CLOSE_BRACKET t) eqn:Ec; [|apply Hstep].
  destruct n as [|[|n]]; [| |apply Hstep]; intros [= <-]; by exists [], t, ap.
Qed.

Lemma paren_tokens t : slot_ok t → is_paren t = true → tokens [t] = [].
Proof.
  destruct t as [| |o l r]; [done..|]. intros (Ho & Hn & Hb) Hp.
  assert (is_paren (token o) = true) as Hp' by done.
  assert (l = NULL) as ->.
  { destruct (decide (l = NULL)) as [|Hl]; [done|]. destruct (Hb Hl) as [_ Hl'].
    apply table_precedence in Ho. apply orb_true_iff in Hp as [Hp|Hp];
      apply bool_decide_eq_true in Hp; rewrite Hp in Ho; lia. }
  assert (filter (λ t, is_paren t = false) [token o] = []) as Hf.
  { rewrite filter_cons_False; [done|]. by rewrite Hp'. }
  rewrite (Hn eq_refl), tokens_one. simpl. by destruct (iPrecedence o =? 1).
Qed.

Section keeps.
Context {I : Type} `{TI : TreeInterp I}.

Lemma paren_phase_keeps build fuel ap (it : I) :
  (∀ ap it, Forall slot_ok ap → keeps ap (snd (fst (build ap it)))) →
  Forall slot_ok ap → keeps ap (snd (fst (paren_phase build fuel ap it))).
Proof.
  intros Hb. revert ap it. induction fuel as [|fuel IH]; intros [|t ap] it Hap; try done. simpl.
  apply Forall_cons in Hap as [Ht Hap]. destruct (is_code TH8_OP_OPEN_BRACKET t) eqn:Eo.
  - destruct (close_index ap 1) as [[|n]|] eqn:Ec; try by (apply keeps_refl; constructor).
    apply close_index_spec in Ec as (mid & c & rest & -> & Hn & Hc).
    apply Forall_app in Hap as [Hmid [Hco Hrest]%Forall_cons].
    rewrite <- Hn, take_app_length, drop_app_length.
    assert (drop (S (length mid)) (mid ++ c :: rest) = rest) as ->.
    { rewrite drop_app_ge by lia. replace (S (length mid) - length mid)%nat with 1%nat by lia. done. }
    specialize (Hb mid it Hmid). destruct (build mid it) as [[rc mid'] it1]. destruct Hb as (T & L & O). simpl in *.
    destruct (negb (rc =? TH8_OK)); simpl.
    { split_and!; [by rewrite (tokens_cons t (mid' ++ _)), (tokens_cons t (mid ++ _)), !tokens_app, T|simpl; rewrite !length_app; lia|].
      constructor; [done|]. apply Forall_app; split; [done|by constructor]. }
    specialize (IH rest it1 Hrest). destruct (paren_phase build fuel rest it1) as [[rc2 r] it2].
    destruct IH as (T2 & L2 & O2). simpl in *. destruct mid' as [|root mid']; [simpl in L; lia|].
    apply Forall_cons in O as [Or Om]. split_and!.
    + rewrite (tokens_cons root (NULL :: _)), (tokens_cons NULL (mid' ++ _)), tokens_app, (tokens_cons NULL r), T2.
      assert (tokens [t] = []) as Ht0 by (apply paren_tokens; [done|unfold is_paren; by rewrite Eo]).
      assert (tokens [c] = []) as Hc0.
      { apply paren_tokens; [done|]. unfold is_paren. rewrite Hc. apply orb_true_r. }
      rewrite (tokens_cons t (mid ++ _)), tokens_app, (tokens_cons c rest), Ht0, Hc0, <- T.
      rewrite (tokens_cons root mid'). change (tokens [NULL]) with (@nil Th8_ExprNode). simpl. by rewrite <- app_assoc.
    + simpl in *. rewrite !length_app. simpl. lia.
    + constructor; [done|]. constructor; [done|]. apply Forall_app; split; [done|by constructor].
  - specialize (IH ap it Hap). destruct (paren_phase build fuel ap it) as [[rc r] it1].
    destruct IH as (T & L & O). simpl in *. split_and!; [|simpl; lia|by constructor].
    by rewrite (tokens_cons t r), T, <- tokens_cons.
Qed.

Lemma MakeTree_keeps room ap (it : I) : Forall slot_ok ap → keeps ap (snd (fst (MakeTree room ap it))).
Proof.
  revert ap it. induction room as [|room IH]; intros ap it Hap; [done|]. simpl.
  destruct (tree_ready it) as [ready it1]. destruct (negb (ready =? TH8_OK)); [done|].
  destruct (length ap =? 0)%nat; [done|].
  pose proof (paren_phase_keeps (MakeTree room) (length ap) ap it1 IH Hap) as K.
  destruct (paren_phase _ _ _ _) as [[rc ap1] it2]. destruct (negb (rc =? TH8_OK)); [done|].
  pose proof (bind_phases_keeps ap1 ltac:(apply K)) as K2. destruct (bind_phases ap1) as [ok ap2].
  by eapply keeps_trans.
Qed.
End keeps.

(** ** Only expressions give one tree *)

(** Every slot stands for a piece of [ts]: for itself, or for one that [P]
    relates to it. *)
Inductive expands (P : list Th8_ExprNode → Th8_ExprNode → Prop) :
    list Th8_ExprNode → list Th8_ExprNode → Prop :=
| expands_nil : expands P [] []
| expands_self t ss ts : expands P ss ts → expands P (t :: ss) (t :: ts)
| expands_piece t piece ss ts : P piece t → TH8_ISTERM t = true → expands P ss ts →
    expands P (t :: ss) (piece ++ ts).

Lemma expands_refl P ts : expands P ts ts.
Proof. induction ts; by constructor. Qed.

Lemma expands_app P s1 t1 s2 t2 : expands P s1 t1 → expands P s2 t2 → expands P (s1 ++ s2) (t1 ++ t2).
Proof.
  intros H1 H2. induction H1; simpl; [done|by constructor|]. rewrite <- app_assoc. by constructor.
Qed.

Lemma expands_app_inv P s1 s2 ts : expands P (s1 ++ s2) ts →
  ∃ t1 t2, ts = t1 ++ t2 ∧ expands P s1 t1 ∧ expands P s2 t2.
Proof.
  revert ts. induction s1 as [|s s1 IH]; intros ts H; [by exists [], ts; split_and!; [|constructor|]|].
  inversion H as [|? ? ? H'|? piece ? ? HP Ht H']; subst.
  - destruct (IH _ H') as (t1 & t2 & -> & ? & ?). exists (s :: t1), t2. by split_and!; [|constructor|].
  - destruct (IH _ H') as (t1 & t2 & -> & ? & ?). exists (piece ++ t1), t2.
    split_and!; [by rewrite app_assoc|by constructor|done].
Qed.

Lemma expands_token P o ss ts : expands P (token o :: ss) ts → ∃ ts', ts = token o :: ts' ∧ expands P ss ts'.
Proof. intros H. inversion H; subst; [by eexists|done]. Qed.

Lemma expands_one P t ts : expands P [t] ts → ts = [t] ∨ P ts t.
Proof.
  intros H. inversion H as [|? ? ? H'|? piece ? ? HP Ht H']; subst; inversion H'; subst; [by left|].
  rewrite app_nil_r. by right.
Qed.

(** An expression whose terms stand for expressions of the phase before. *)
Lemma flat_expand q p ss t ts : 0 <= q → q + 1 <= 15 → flat (q + 1) p ss t → expands (flat q (q + 1)) ss ts →
  flat q p ts t.
Proof.
  intros Hq Hq' H. revert ts. induction H as [t Ht|p p' ss t Hp Hp' H IH|o ss t Hlt Ho _ IH
    |o p ss1 x ss2 y Hlt Ho Hp _ IH1 _ IH2
    |o c ss1 x ss2 y ss3 z Hlt Ho Hc Eo Ec _ IH1 _ IH2 _ IH3
    |o ss1 x ss2 y Hlt Ho Eo _ IH1 _ IH2]; intros ts He.
  - apply expands_one in He as [->|?]; [|done]. apply (F_up q q); [lia|lia|by constructor].
  - apply (F_up q p); [done|done|by apply IH].
  - lia.
  - apply expands_app_inv in He as (t1 & t2 & -> & H1 & H2).
    apply expands_token in H2 as (t3 & -> & H3). apply F_binary; [lia|done|done|by apply IH1|by apply IH2].
  - apply expands_app_inv in He as (t1 & t2 & -> & H1 & H2). apply expands_token in H2 as (t3 & -> & H3).
    apply expands_app_inv in H3 as (t4 & t5 & -> & H4 & H5). apply expands_token in H5 as (t6 & -> & H6).
    apply F_ternary; [lia|done|done|done|done|by apply IH1|by apply IH2|by apply IH3].
  - apply expands_app_inv in He as (t1 & t2 & -> & H1 & H2). apply expands_token in H2 as (t3 & -> & H3).
    apply F_assign; [lia|done|done|by apply IH1|by apply IH2].
Qed.

(** *** The phases, backwards *)

Lemma expands_cons_inv P x ss ts : expands P (x :: ss) ts →
  ∃ d ts', ts = d ++ ts' ∧ expands P ss ts' ∧ (d = [x] ∨ P d x).
Proof.
  intros H. inversion H as [|? ? ts' H'|? piece ? ts' HP Ht H']; subst.
  - exists [x], ts'. by split_and!; [| |left].
  - exists piece, ts'. by split_and!; [| |right].
Qed.

Lemma unbound_token t o : slot_ok t → unbound t = Some o → t = token o ∧ o ∈ th8Operators.
Proof. intros Ht Hu. assert (t = token o) as -> by by apply tokens_unbound. split; [done|apply Ht]. Qed.

(** What [join] leaves: slots that were there, and bound ones. *)
Lemma join_forall (Q : Th8_ExprNode → Prop) sel mk done todo ss :
  join sel mk done todo = Some ss → Forall Q done →
  Forall (λ t, (∃ o, unbound t = Some o ∧ sel o = true ∧
                ∀ x y, TH8_ISTERM x = true → TH8_ISTERM y = true → Q (mk o x y)) ∨
               ((∀ o, unbound t = Some o → sel o = false) ∧ Q t)) todo →
  Forall Q ss.
Proof.
  intros Hj Hd Ht. remember (length todo) as n eqn:En.
  revert done todo En Hj Hd Ht. induction (lt_wf n) as [n _ IH]. intros done [|t todo] -> Hj Hd Ht.
  { injection Hj as <-. by apply List.Forall_rev. }
  apply Forall_cons in Ht as [Ht Htodo]. simpl in Hj.
  assert (Hskip : Q t → join sel mk (t :: done) todo = Some ss → Forall Q ss).
  { intros Hq H. eapply (IH (length todo)); [simpl; lia|done|exact H|by constructor|done]. }
  destruct Ht as [(o & Hu & Hs & Hq)|[Hu Hq]].
  - rewrite Hu, Hs in Hj.
    destruct done as [|x done]; [done|]. destruct todo as [|y todo]; [done|]. case_if_in Hj; [|done].
    bool_to_prop. apply Forall_cons in Hd as [_ Hd]. apply Forall_cons in Htodo as [_ Htodo].
    eapply (IH (length todo)); [simpl; lia|done|exact Hj|constructor; auto|done].
  - apply Hskip; [done|]. destruct (unbound t) as [o|]; [|done]. by rewrite (Hu o eq_refl) in Hj.
Qed.

Lemma level_expands q done todo ss D : 1 <= q → q + 1 <= 13 → Forall slot_ok todo →
  join (level (q + 1)) binary done todo = Some ss → expands (flat q (q + 1)) (rev done) D →
  expands (flat q (q + 1)) ss (D ++ todo).
Proof.
  intros Hq Hq'. remember (length todo) as n eqn:En.
  revert done todo D En. induction (lt_wf n) as [n _ IH]. intros done [|t todo] D -> Ht Hj Hd.
  { injection Hj as <-. by rewrite app_nil_r. }
  apply Forall_cons in Ht as [Ht Htodo]. simpl in Hj.
  assert (Hskip : join (level (q + 1)) binary (t :: done) todo = Some ss →
    expands (flat q (q + 1)) ss (D ++ t :: todo)).
  { intros H. replace (D ++ t :: todo) with ((D ++ [t]) ++ todo) by (by rewrite <- app_assoc).
    eapply (IH (length todo)); [simpl; lia|done|done|exact H|]. simpl.
    apply expands_app; [done|]. constructor. constructor. }
  destruct (unbound t) as [o|] eqn:Hu; [|by apply Hskip].
  destruct (level (q + 1) o) eqn:Hs; [|by apply Hskip]. clear Hskip.
  destruct done as [|x done]; [done|]. destruct todo as [|y todo]; [done|]. case_if_in Hj; [|done].
  apply andb_true_iff in Heqb as [Hx Hy]. destruct (unbound_token t o Ht Hu) as [-> Ho].
  apply Forall_cons in Htodo as [_ Htodo]. simpl in Hd. apply expands_app_inv in Hd as (D1 & Dx & -> & H1 & H2).
  replace ((D1 ++ Dx) ++ token o :: y :: todo) with ((D1 ++ Dx ++ [token o; y]) ++ todo)
    by (by rewrite <- !app_assoc).
  eapply (IH (length todo)); [simpl; lia|done|done|exact Hj|]. simpl. apply expands_app; [done|].
  rewrite <- (app_nil_r (Dx ++ _)). constructor; [|by destruct x|constructor].
  apply Z.eqb_eq in Hs. apply F_binary; [lia|done|lia| |].
  - apply expands_one in H2 as [->|?]; [|done]. apply (F_up q q); [lia|lia|by constructor].
  - replace (q + 1 - 1) with q by lia. by constructor.
Qed.

Lemma assign_expands done todo r D : Forall slot_ok todo →
  join assigns (λ o r l, Operator o l r) done todo = Some r → expands (flat 14 15) done D →
  expands (flat 14 15) (rev r) (rev todo ++ D).
Proof.
  remember (length todo) as n eqn:En.
  revert done todo D En. induction (lt_wf n) as [n _ IH]. intros done [|t todo] D -> Ht Hj Hd.
  { injection Hj as <-. by rewrite rev_involutive. }
  apply Forall_cons in Ht as [Ht Htodo]. simpl in Hj.
  assert (Hskip : join assigns (λ o r l, Operator o l r) (t :: done) todo = Some r →
    expands (flat 14 15) (rev r) (rev (t :: todo) ++ D)).
  { intros H. simpl. rewrite <- app_assoc.
    eapply (IH (length todo)); [simpl; lia|done|done|exact H|]. by constructor. }
  destruct (unbound t) as [o|] eqn:Hu; [|by apply Hskip].
  destruct (assigns o) eqn:Hs; [|by apply Hskip]. clear Hskip.
  destruct done as [|x done]; [done|]. destruct todo as [|y todo]; [done|]. case_if_in Hj; [|done].
  apply andb_true_iff in Heqb as [Hx Hy]. destruct (unbound_token t o Ht Hu) as [-> Ho].
  apply Forall_cons in Htodo as [_ Htodo]. apply expands_cons_inv in Hd as (Dx & D' & -> & Hd & H2).
  simpl. rewrite <- !app_assoc.
  eapply (IH (length todo)); [simpl; lia|done|done|exact Hj|].
  change ([y] ++ [token o] ++ Dx ++ D') with ((y :: token o :: Dx) ++ D'). constructor; [|by destruct y|done].
  apply bool_decide_eq_true in Hs. apply (F_assign 14 o [y]); [lia|done|done|by constructor|].
  destruct H2 as [->|?]; [|done]. apply (F_up 14 14); [lia|lia|by constructor].
Qed.

Lemma unary_expands ts r : Forall slot_ok ts → join_unary ts = Some r → expands (flat 0 1) r ts.
Proof.
  revert r. induction ts as [|t ts IH]; intros r Hts Hj; [injection Hj as <-; constructor|].
  apply Forall_cons in Hts as [Ht Hts]. simpl in Hj. destruct (join_unary ts) as [r'|]; [|done].
  specialize (IH r' Hts eq_refl). simpl in Hj.
  destruct (unbound t) as [o|] eqn:Hu; [|injection Hj as <-; by constructor].
  destruct (level 1 o) eqn:Hs; [|injection Hj as <-; by constructor].
  destruct r' as [|x r']; [done|]. destruct (TH8_ISTERM x) eqn:Hx; [|done]. injection Hj as <-.
  destruct (unbound_token t o Ht Hu) as [-> Ho].
  apply expands_cons_inv in IH as (d & ts' & -> & H & Hd). apply Z.eqb_eq in Hs.
  change (token o :: d ++ ts') with ((token o :: d) ++ ts'). constructor; [|by destruct x|done].
  apply F_unary; [lia|done|]. destruct Hd as [->|?]; [|done]. apply (F_up 0 0); [lia|lia|by constructor].
Qed.

Lemma join_ternary_none done todo ss : Forall (λ t, is_code TH8_OP_TERNARY_C t = false) todo →
  join_ternary done todo = Some ss →
  ss = rev done ++ todo ∧ Forall (λ t, ∀ o, unbound t = Some o → eOp o ≠ TH8_OP_TERNARY_Q) todo.
Proof.
  revert done. induction todo as [|t todo IH]; intros done Ht Hj.
  { injection Hj as <-. by rewrite app_nil_r. }
  apply Forall_cons in Ht as [Ht Htodo]. simpl in Hj.
  assert (Hskip : join_ternary (t :: done) todo = Some ss → (∀ o, unbound t = Some o → eOp o ≠ TH8_OP_TERNARY_Q) →
    ss = rev done ++ t :: todo ∧ Forall (λ t, ∀ o, unbound t = Some o → eOp o ≠ TH8_OP_TERNARY_Q) (t :: todo)).
  { intros H Hn. destruct (IH (t :: done) Htodo H) as [-> Hf]. simpl. rewrite <- app_assoc. split; [done|by constructor]. }
  destruct (unbound t) as [o|] eqn:Hu; [|by apply Hskip].
  case_bool_decide as Eo; [|apply Hskip; [done|by intros ? [= <-]]].
  destruct done as [|c done]; [done|]. destruct todo as [|x [|[| |o2 l2 r2] [|y todo]]]; try done.
  apply Forall_cons in Htodo as [_ [Hc _]%Forall_cons]. rewrite Hc in Hj.
  rewrite andb_false_r in Hj. done.
Qed.

(** A slot with no [:], which no phase before [p] leaves unbound; a parenthesis
    stays, unless [b] says that there is none. *)
Definition late (b : bool) (p : Z) (t : Th8_ExprNode) : Prop :=
  slot_ok t ∧ is_code TH8_OP_TERNARY_C t = false ∧ is_null t = false ∧
  (b = true → is_paren t = false) ∧
  ∀ o, unbound t = Some o → is_paren t = false → p <= iPrecedence o.

Lemma bindable o : o ∈ th8Operators → 1 <= iPrecedence o →
  is_paren (token o) = false ∧ (iPrecedence o ≠ 14 → eOp o ≠ TH8_OP_TERNARY_C) ∧
  (14 <= iPrecedence o → eOp o = TH8_OP_TERNARY_Q ∨ eOp o = TH8_OP_TERNARY_C ∨ eOp o = TH8_OP_VAR_ASSIGN).
Proof.
  intros Ho Hp. destruct (not_paren o Ho Hp) as [H1 H2]. split_and!.
  - unfold is_paren. by rewrite H1, H2.
  - intros H E. apply table_precedence in Ho. rewrite E in Ho. lia.
  - revert o Ho Hp H1 H2. apply (Forall_forall (λ o, 1 <= iPrecedence o →
      is_code TH8_OP_OPEN_BRACKET (token o) = false → is_code TH8_OP_CLOSE_BRACKET (token o) = false →
      14 <= iPrecedence o → _)).
    repeat apply Forall_cons_2; try apply Forall_nil_2; simpl; intros; (lia || auto).
Qed.

Lemma late_bound b p o x y : o ∈ th8Operators → 1 <= iPrecedence o → iPrecedence o ≠ 14 ∨ eOp o ≠ TH8_OP_TERNARY_C →
  x ≠ NULL → late b p (Operator o x y).
Proof.
  intros Ho Hp Hc Hx'. destruct (bindable o Ho Hp) as (H1 & H2 & _).
  assert (eOp o ≠ TH8_OP_TERNARY_C) as Hne by (destruct Hc; auto).
  assert (is_paren (Operator o x y) = false) as Hpar by exact H1.
  assert (slot_ok (Operator o x y)) as Hok by by split_and!.
  refine (conj Hok (conj _ (conj eq_refl (conj (λ _, Hpar) _)))).
  - by apply bool_decide_eq_false_2.
  - intros o'. by destruct x.
Qed.

Lemma unary_late b ts r : Forall (late b 1) ts → join_unary ts = Some r → Forall (late b 2) r.
Proof.
  revert r. induction ts as [|t ts IH]; intros r Hts Hj; [injection Hj as <-; constructor|].
  apply Forall_cons in Hts as [Ht Hts]. simpl in Hj. destruct (join_unary ts) as [r'|]; [|done].
  specialize (IH r' Hts eq_refl). simpl in Hj. destruct Ht as (Ho & Hc & Hn & Hp & Hl).
  destruct (unbound t) as [o|] eqn:Hu.
  - specialize (Hl o eq_refl). destruct (unbound_token t o Ho Hu) as [-> Hin].
    destruct (level 1 o) eqn:Hs.
    + destruct r' as [|x r']; [done|]. destruct (TH8_ISTERM x) eqn:Hx; [|done]. injection Hj as <-.
      apply Z.eqb_eq in Hs. apply Forall_cons in IH as [_ IH]. constructor; [|done].
      apply late_bound; [done|lia|lia|by destruct x].
    + injection Hj as <-. constructor; [|done]. refine (conj Ho (conj Hc (conj Hn (conj Hp _)))).
      intros o' [= <-] Hpar. specialize (Hl Hpar). unfold level in Hs. lia.
  - injection Hj as <-. constructor; [|done]. refine (conj Ho (conj Hc (conj Hn (conj Hp _)))).
    intros o' Hu'. congruence.
Qed.

Lemma level_late b p ts ss : 2 <= p <= 13 → Forall (late b p) ts → join (level p) binary [] ts = Some ss →
  Forall (late b (p + 1)) ss.
Proof.
  intros Hp Hts Hj. eapply join_forall; [exact Hj|constructor|].
  eapply Forall_impl; [exact Hts|]. intros t (Ho & Hc & Hn & Hpar & Hl). simpl.
  destruct (unbound t) as [o|] eqn:Hu; [|right; split; [done|refine (conj Ho (conj Hc (conj Hn (conj Hpar _)))); intros; congruence]].
  specialize (Hl o eq_refl). destruct (unbound_token t o Ho Hu) as [-> Hin].
  destruct (level p o) eqn:Hs.
  - left. exists o. apply Z.eqb_eq in Hs. split_and!; [done|by apply Z.eqb_eq|].
    intros x y Hx Hy. apply late_bound; [done|lia|lia|by destruct x].
  - right. split; [by intros ? [= <-]|]. refine (conj Ho (conj Hc (conj Hn (conj Hpar _)))). intros o' [= <-] H.
    specialize (Hl H). unfold level in Hs. lia.
Qed.

Lemma levels_back b n q ts ss t : 1 <= q → q + Z.of_nat n <= 13 → Forall (late b (q + 1)) ts →
  join_levels n (q + 1) ts = Some ss →
  Forall (late b (q + Z.of_nat n + 1)) ss ∧ (flat (q + Z.of_nat n) 15 ss t → flat q 15 ts t).
Proof.
  revert q ts. induction n as [|n IH]; intros q ts Hq Hn Hts Hj.
  { injection Hj as <-. by rewrite Z.add_0_r. }
  unfold join_levels in Hj. fold join_levels in Hj.
  destruct (join (level (q + 1)) binary [] ts) as [ts1|] eqn:E; [|done]. simpl in Hj.
  pose proof (level_late b (q + 1) ts ts1 ltac:(lia) Hts E) as Hl.
  destruct (IH (q + 1) ts1 ltac:(lia) ltac:(lia) Hl Hj) as [H1 H2].
  replace (q + 1 + Z.of_nat n) with (q + Z.of_nat (S n)) in * by lia. split; [done|].
  intros Hf. apply (flat_expand q 15 ts1); [lia|lia|by apply H2|].
  apply (level_expands q [] ts ts1 []); [lia|lia| |done|constructor].
  eapply Forall_impl; [exact Hts|]. by intros ? [? _].
Qed.

Lemma ternary_back p ts t : flat 14 p ts t → p = 15 ∨ p = 14 → flat 13 p ts t.
Proof.
  intros H Hp. apply (flat_expand 13 p ts); [lia|lia|done|apply expands_refl].
Qed.

Lemma assign_terms done todo r :
  join assigns (λ o r l, Operator o l r) done todo = Some r →
  Forall (λ t, TH8_ISTERM t = true) done →
  Forall (λ t, is_null t = false ∧ ∀ o, unbound t = Some o → eOp o = TH8_OP_VAR_ASSIGN) todo →
  Forall (λ t, TH8_ISTERM t = true) r.
Proof.
  intros Hj Hd Ht. eapply join_forall; [exact Hj|done|]. eapply Forall_impl; [exact Ht|].
  intros t [Hn Hu]. simpl. destruct (unbound t) as [o|] eqn:E.
  - left. exists o. split_and!; [done|by apply bool_decide_eq_true, Hu|]. intros x y Hx Hy. by destruct y.
  - right. split; [done|]. by destruct t as [| |? [] ?].
Qed.

(** One tree is the tree of an expression; and with no parenthesis left over,
    all that is left is trees. *)
Lemma bind_back b ts ss : Forall (late b 1) ts → bind_live ts = Some ss →
  (∀ t, ss = [t] → TH8_ISTERM t = true → flat 0 15 ts t) ∧
  (b = true → Forall (λ t, TH8_ISTERM t = true) ss).
Proof.
  intros Hts Hb. unfold bind_live in Hb.
  destruct (join_unary ts) as [ts1|] eqn:E1; [|done]. simpl in Hb.
  pose proof (unary_late b ts ts1 Hts E1) as L1.
  destruct (join_levels 12 2 ts1) as [ts2|] eqn:E2; [|done]. simpl in Hb.
  assert (Hlev : ∀ t, Forall (late b 14) ts2 ∧ (flat 13 15 ts2 t → flat 1 15 ts1 t)).
  { intros t. apply (levels_back b 12 1 ts1 ts2 t); [lia|lia|done|done]. }
  destruct (join_ternary [] ts2) as [ts3|] eqn:E3; [|done]. simpl in Hb.
  assert (Hc : Forall (λ t, is_code TH8_OP_TERNARY_C t = false) ts2).
  { destruct (Hlev NULL) as [H _]. eapply Forall_impl; [exact H|]. by intros ? (_ & ? & _). }
  destruct (join_ternary_none [] ts2 ts3 Hc E3) as [-> Hq]. simpl in Hb. unfold join_assign in Hb.
  destruct (join assigns _ [] (rev ts2)) as [r|] eqn:E4; [|done]. injection Hb as <-. split.
  - intros t Ht Hterm.
    assert (Forall slot_ok (rev ts2)) as Hok.
    { apply List.Forall_rev. destruct (Hlev NULL) as [H _]. eapply Forall_impl; [exact H|]. by intros ? [? _]. }
    pose proof (assign_expands [] (rev ts2) r [] Hok E4 ltac:(constructor)) as He.
    rewrite rev_involutive, app_nil_r, Ht in He.
    assert (flat 14 15 ts2 t) as H14.
    { apply (flat_expand 14 15 [t]); [lia|lia| |done]. constructor; done. }
    apply ternary_back in H14; [|by left]. apply (proj2 (Hlev t)) in H14.
    apply (flat_expand 0 15 ts1); [lia|lia|done|]. apply unary_expands; [|done].
    eapply Forall_impl; [exact Hts|]. by intros ? [? _].
  - intros ->. apply List.Forall_rev. eapply assign_terms; [exact E4|constructor|].
    apply List.Forall_rev. destruct (Hlev NULL) as [H _].
    apply Forall_forall. intros t Ht.
    assert (late true 14 t) as (Ho & Hco & Hn & Hpar & Hl) by by eapply Forall_forall in H.
    split; [done|]. intros o Hu. specialize (Hl o Hu (Hpar eq_refl)).
    destruct (unbound_token t o Ho Hu) as [-> Hin].
    destruct (bindable o Hin ltac:(lia)) as (_ & _ & H3). destruct (H3 Hl) as [E|[E|E]]; [|  |done].
    + eapply Forall_forall in Hq; [|exact Ht]. by destruct (Hq o eq_refl).
    + simpl in Hco. rewrite bool_decide_eq_true_2 in Hco by done. done.
Qed.

(** *** Groups, backwards *)

(** A token as th8ExprParse makes it, but for [:]. *)
Definition raw (t : Th8_ExprNode) : Prop :=
  match t with NULL => False | Literal _ _ => True | Operator o l r => o ∈ th8Operators ∧ l = NULL ∧ r = NULL end.
Definition raw_no_colon (t : Th8_ExprNode) : Prop := raw t ∧ is_code TH8_OP_TERNARY_C t = false.

(** [d] groups are open, and none more is closed. *)
Fixpoint no_close (d : nat) (ts : list Th8_ExprNode) : Prop :=
  match ts with
  | [] => True
  | t :: ts' =>
      if is_code TH8_OP_OPEN_BRACKET t then no_close (S d) ts'
      else if is_code TH8_OP_CLOSE_BRACKET t then
        match d with O => False | S d' => no_close d' ts' end
      else no_close d ts'
  end.

Lemma close_index_no_close ap d n : close_index ap (S d) = Some n →
  no_close d (take n ap) ∧ ∀ e, no_close (S d + e) ap → no_close e (drop (S n) ap).
Proof.
  revert d n. induction ap as [|t ap IH]; [done|]. intros d n. simpl.
  destruct (is_code TH8_OP_OPEN_BRACKET t) eqn:Eo; [|destruct (is_code TH8_OP_CLOSE_BRACKET t) eqn:Ec].
  - destruct (close_index ap (S (S d))) as [m|] eqn:E; [|done]. intros [= <-]. simpl. rewrite Eo.
    apply (IH (S d) m E).
  - destruct d as [|d]; [by intros [= <-]|].
    destruct (close_index ap (S d)) as [m|] eqn:E; [|done]. intros [= <-]. simpl. rewrite Eo, Ec.
    apply (IH d m E).
  - destruct (close_index ap (S d)) as [m|] eqn:E; [|done]. intros [= <-]. simpl. rewrite Eo, Ec.
    apply (IH d m E).
Qed.

(** Two terms with no operator between them. *)
Fixpoint adjacent (ts : list Th8_ExprNode) : bool :=
  match ts with
  | x :: ts' => match ts' with y :: _ => (TH8_ISTERM x && TH8_ISTERM y) || adjacent ts' | [] => false end
  | [] => false
  end.

Lemma adjacent_op a o b : adjacent (a ++ token o :: b) = adjacent a || adjacent b.
Proof.
  induction a as [|x a IH]; [by destruct b|]. destruct a as [|y a].
  - simpl. rewrite andb_false_r. simpl. by destruct b.
  - change (adjacent ((x :: y :: a) ++ token o :: b)) with
      ((TH8_ISTERM x && TH8_ISTERM y) || adjacent ((y :: a) ++ token o :: b)).
    rewrite IH. change (adjacent (x :: y :: a)) with ((TH8_ISTERM x && TH8_ISTERM y) || adjacent (y :: a)).
    by rewrite orb_assoc.
Qed.

Lemma adjacent_app a b : adjacent b = true → adjacent (a ++ b) = true.
Proof.
  intros Hb. induction a as [|x a IH]; [done|]. simpl. destruct (a ++ b); [done|]. rewrite IH. apply orb_true_r.
Qed.

Lemma flat_not_adjacent q p ts t : flat q p ts t → adjacent ts = false.
Proof.
  induction 1; [done|done| | | |].
  - pose proof (adjacent_op [] o ts) as E. simpl app in E. by rewrite E, IHflat.
  - by rewrite adjacent_op, IHflat1, IHflat2.
  - by rewrite !adjacent_op, IHflat1, IHflat2, IHflat3.
  - by rewrite adjacent_op, IHflat1, IHflat2.
Qed.

Definition group_piece (d : list Th8_ExprNode) (s : Th8_ExprNode) : Prop := ∃ k, derives Implemented k 0 d s.

(** A flat expression of groups and tokens is an expression of the tokens. *)
Lemma flat_derives p ss t ts : flat 0 p ss t → expands group_piece ss ts → Forall raw ts →
  ∃ k, derives Implemented k p ts t.
Proof.
  intros H. revert ts. induction H as [t Ht|p p' ss t Hp Hp' _ IH|o ss t Hlt Ho _ IH
    |o p ss1 x ss2 y Hlt Ho Hp _ IH1 _ IH2
    |o c ss1 x ss2 y ss3 z _ Ho Hc Eo Ec _ IH1 _ IH2 _ IH3
    |o ss1 x ss2 y _ Ho Eo _ IH1 _ IH2]; intros ts He Hr.
  - apply expands_one in He as [->|?]; [|done]. apply Forall_cons in Hr as [Hr _]. exists O.
    destruct t as [|z n|o l r]; [done|constructor|]. destruct Hr as (_ & -> & _). done.
  - destruct (IH ts He Hr) as [k Hk]. exists k. by apply (D_up _ k p p').
  - apply expands_token in He as (ts' & -> & He). apply Forall_cons in Hr as [(Hin & _) Hr].
    destruct (IH ts' He Hr) as [k Hk]. exists k. by apply D_unary.
  - apply expands_app_inv in He as (t1 & t2 & -> & H1 & H2). apply expands_token in H2 as (t3 & -> & H3).
    apply Forall_app in Hr as [R1 [(Hin & _) R2]%Forall_cons].
    destruct (IH1 _ H1 R1) as [k1 K1], (IH2 _ H3 R2) as [k2 K2]. exists (k1 `max` k2)%nat.
    apply D_binary; [done..| |]; eapply derives_le; [|exact K1| |exact K2]; lia.
  - apply expands_app_inv in He as (t1 & t2 & -> & H1 & H2). apply expands_token in H2 as (t3 & -> & H3).
    apply expands_app_inv in H3 as (t4 & t5 & -> & H4 & H5). apply expands_token in H5 as (t6 & -> & H6).
    apply Forall_app in Hr as [R1 [_ R2]%Forall_cons]. apply Forall_app in R2 as [R2 [_ R3]%Forall_cons].
    destruct (IH1 _ H1 R1) as [k1 K1], (IH2 _ H4 R2) as [k2 K2], (IH3 _ H6 R3) as [k3 K3].
    exists (k1 `max` (k2 `max` k3))%nat.
    apply D_ternary; [done..| | |]; eapply derives_le; [|exact K1| |exact K2| |exact K3]; lia.
  - apply expands_app_inv in He as (t1 & t2 & -> & H1 & H2). apply expands_token in H2 as (t3 & -> & H3).
    apply Forall_app in Hr as [R1 [(Hin & _) R2]%Forall_cons].
    destruct (IH1 _ H1 R1) as [k1 K1], (IH2 _ H3 R2) as [k2 K2]. exists (k1 `max` k2)%nat.
    apply D_assign; [done..| |]; eapply derives_le; [|exact K1| |exact K2]; lia.
Qed.

Lemma join_nonempty sel mk done todo ss : join sel mk done todo = Some ss → done ≠ [] ∨ todo ≠ [] → ss ≠ [].
Proof.
  remember (length todo) as n eqn:En.
  revert done todo En. induction (lt_wf n) as [n _ IH]. intros done [|t todo] -> Hj Hd.
  { injection Hj as <-. destruct Hd as [Hd|?]; [|done]. destruct done; [done|]. simpl. by destruct (rev done). }
  simpl in Hj. assert (Hskip : join sel mk (t :: done) todo = Some ss → ss ≠ []).
  { intros H. eapply (IH (length todo)); [simpl; lia|done|exact H|by left]. }
  destruct (unbound t) as [o|]; [|by apply Hskip]. destruct (sel o); [|by apply Hskip].
  destruct done as [|x done]; [done|]. destruct todo as [|y todo]; [done|]. case_if_in Hj; [|done].
  eapply (IH (length todo)); [simpl; lia|done|exact Hj|by left].
Qed.

Lemma levels_nonempty n p ts ss : join_levels n p ts = Some ss → ts ≠ [] → ss ≠ [].
Proof.
  revert p ts. induction n as [|n IH]; intros p ts H Hts; [by injection H as <-|].
  unfold join_levels in H. fold join_levels in H.
  destruct (join (level p) binary [] ts) as [ts1|] eqn:E; [|done]. simpl in H.
  apply (IH (p + 1) ts1 H). eapply join_nonempty; [exact E|by right].
Qed.

Lemma bind_nonempty b ts ss : Forall (late b 1) ts → bind_live ts = Some ss → ts ≠ [] → ss ≠ [].
Proof.
  intros Hts Hb Hne. unfold bind_live in Hb.
  destruct (join_unary ts) as [ts1|] eqn:E1; [|done]. simpl in Hb.
  assert (ts1 ≠ []) as N1.
  { destruct ts as [|t ts]; [done|]. simpl in E1. destruct (join_unary ts) as [r|]; [|done]. simpl in E1.
    repeat case_match; by simplify_eq. }
  pose proof (unary_late b ts ts1 Hts E1) as L1.
  destruct (join_levels 12 2 ts1) as [ts2|] eqn:E2; [|done]. simpl in Hb.
  destruct (levels_back b 12 1 ts1 ts2 NULL ltac:(lia) ltac:(lia) L1 E2) as [L2 _].
  apply levels_nonempty in E2 as N2; [|done].
  destruct (join_ternary [] ts2) as [ts3|] eqn:E3; [|done]. simpl in Hb.
  destruct (join_ternary_none [] ts2 ts3) as [-> _]; [|done|].
  { eapply Forall_impl; [exact L2|]. by intros ? (_ & ? & _). }
  simpl in Hb. unfold join_assign in Hb. destruct (join assigns _ [] (rev ts2)) as [r|] eqn:E4; [|done].
  injection Hb as <-. apply join_nonempty in E4 as N4.
  - destruct r; [done|]. simpl. by destruct (rev r).
  - right. destruct ts2; [done|]. simpl. by destruct (rev ts2).
Qed.

Section back.
Context {I : Type} `{TI : TreeInterp I}.

(** What is known of the slots that a successful [build] leaves. *)
Definition built (ts ap : list Th8_ExprNode) : Prop :=
  (∃ x r, ap = x :: r ∧ is_null x = false) ∧
  (∀ t, live ap = [t] → TH8_ISTERM t = true → ∃ k, derives Implemented k 15 ts t) ∧
  (no_close 0 ts → Forall (λ t, TH8_ISTERM t = true) (live ap)).

Definition opened (ts ap : list Th8_ExprNode) : Prop :=
  padded ap ∧ (∀ x r, ap = x :: r → is_null x = false) ∧ (ts ≠ [] → ap ≠ []) ∧
  Forall (late false 1) (live ap) ∧ (no_close 0 ts → Forall (late true 1) (live ap)) ∧
  (adjacent (live ap) = true ∨ expands group_piece (live ap) ts).

Lemma raw_late b t : raw_no_colon t → (b = true → is_paren t = false) → late b 1 t.
Proof.
  intros [Hr Hc] Hp. destruct t as [| |o l r]; [done| |destruct Hr as (Ho & -> & ->)]; refine (conj _ (conj Hc (conj eq_refl (conj Hp _)))).
  - done.
  - done.
  - by split_and!.
  - intros o' [= <-] Hpar. revert Hpar. revert o Ho Hc Hp.
    apply (Forall_forall (λ o, is_code TH8_OP_TERNARY_C (Operator o NULL NULL) = false →
      (b = true → is_paren (Operator o NULL NULL) = false) → is_paren (Operator o NULL NULL) = false → 1 <= iPrecedence o)).
    repeat apply Forall_cons_2; try apply Forall_nil_2; intros _ _; vm_compute; congruence.
Qed.

Lemma term_late b p t : slot_ok t → TH8_ISTERM t = true → late b p t.
Proof.
  intros Hs Ht. destruct t as [|z n|o l r]; [done|by split_and!|]. destruct Hs as (Ho & _ & Hb).
  assert (l ≠ NULL) as Hl by by intros ->. destruct (Hb Hl) as [Hc Hp].
  apply late_bound; [done|done|by right|done].
Qed.

Lemma terms_padded ap todo : Forall (λ t, TH8_ISTERM t = true) (live ap) → padded todo → padded (ap ++ todo).
Proof.
  induction ap as [|t ap IH]; [done|]. rewrite live_cons. intros H Ht. simpl. split.
  - intros o x r Hu. apply unbound_not_null in Hu as [Hn Hterm]. rewrite Hn in H.
    apply Forall_cons in H as [H _]. congruence.
  - apply IH; [|done]. destruct (is_null t); [done|]. by apply Forall_cons in H as [_ H].
Qed.

Lemma terms_late b p ap : Forall slot_ok ap → Forall (λ t, TH8_ISTERM t = true) (live ap) →
  Forall (late b p) (live ap).
Proof.
  intros Hs Ht. apply Forall_forall. intros t Hin. apply term_late.
  - eapply Forall_forall; [exact Hs|]. unfold live in Hin. by apply list_elem_of_filter in Hin as [_ Hin].
  - by eapply Forall_forall in Ht.
Qed.

Lemma paren_back build fuel ts (it : I) ap it' :
  (∀ ts it, Forall slot_ok ts → keeps ts (snd (fst (build ts it)))) →
  (∀ ts it ap it', Forall raw_no_colon ts → build ts it = (TH8_OK, ap, it') → built ts ap) →
  Forall raw_no_colon ts → (length ts <= fuel)%nat → paren_phase build fuel ts it = (TH8_OK, ap, it') → opened ts ap.
Proof.
  intros Hkeep Hb. revert ts it ap. induction fuel as [|fuel IH]; intros [|t ts] it ap Hr Hf Hp;
    simpl in Hf; try lia; try (injection Hp as <- <-; split_and!; try done; right; constructor).
  apply Forall_cons in Hr as [Ht Hr]. simpl in Hp. destruct (is_code TH8_OP_OPEN_BRACKET t) eqn:Eo.
  - destruct (close_index ts 1) as [[|n]|] eqn:Ec; [done| |done].
    destruct (close_index_no_close _ _ _ Ec) as [Hno Hrest].
    apply close_index_spec in Ec as (mid & c & rest & -> & Hn & Hc).
    apply Forall_app in Hr as [Hmid [Hco Hrr]%Forall_cons].
    assert (drop (S (S n)) (mid ++ c :: rest) = rest) as Hd.
    { rewrite drop_app_ge by lia. by replace (S (S n) - length mid)%nat with 1%nat by lia. }
    assert (take (S n) (mid ++ c :: rest) = mid) as Hm by (rewrite <- Hn; apply take_app_length).
    rewrite Hd in *. rewrite Hm in *.
    assert (Forall slot_ok mid) as Hmo.
    { eapply Forall_impl; [exact Hmid|]. intros x [Hx _]. destruct x as [| |? ? ?]; [done|done|].
      by destruct Hx as (? & -> & ->). }
    pose proof (Hkeep mid it Hmo) as K. specialize (Hb mid it).
    destruct (build mid it) as [[rc mid'] it1]. destruct (negb (rc =? TH8_OK)) eqn:Erc; [done|].
    bool_to_prop. subst rc. specialize (Hb _ _ Hmid eq_refl) as ((root & m & -> & Hroot) & Hone & Hall).
    destruct K as (_ & _ & Ko). simpl in Ko. specialize (Hall Hno).
    destruct (paren_phase build fuel rest it1) as [[rc r] it2] eqn:Er. injection Hp as -> <- <-.
    rewrite length_app in Hf. simpl in Hf.
    destruct (IH rest it1 r Hrr ltac:(lia) Er) as (P1 & P2 & P3 & P4 & P5 & P6).
    pose proof (terms_late false 1 (root :: m) Ko Hall) as Lf. pose proof (terms_late true 1 (root :: m) Ko Hall) as Lt.
    assert (Hlive : live (root :: NULL :: m ++ NULL :: r) = live (root :: m) ++ live r).
    { rewrite !live_cons, live_app, live_cons, Hroot. simpl. by destruct (is_null NULL). }
    unfold opened. rewrite Hlive. split_and!.
    + change (root :: NULL :: m ++ NULL :: r) with ((root :: NULL :: m) ++ NULL :: r).
      apply terms_padded; [by rewrite live_cons in *|by split].
    + by intros x r' [= <- _].
    + done.
    + by apply Forall_app.
    + intros Hnc. simpl in Hnc. rewrite Eo in Hnc. apply Forall_app. split; [done|]. apply P5. by apply (Hrest 0%nat).
    + rewrite live_cons, Hroot in *. destruct (live m) as [|y lm] eqn:Em.
      * apply Forall_cons in Hall as [Hterm _]. destruct (Hone root eq_refl Hterm) as [k Hk].
        destruct P6 as [P6|P6]; [left; by apply (adjacent_app [root])|right].
        replace (t :: mid ++ c :: rest) with ((t :: mid ++ [c]) ++ rest) by (simpl; by rewrite <- app_assoc).
        constructor; [|done|done]. exists (S k).
        destruct t as [|?|o lo ro]; [done..|]. destruct c as [|?|oc lc rc]; [done..|].
        destruct Ht as [(? & -> & ->) _], Hco as [(? & -> & ->) _].
        apply D_group; [done|done|by eapply bool_decide_eq_true_1|by eapply bool_decide_eq_true_1|done].
      * left. apply Forall_cons in Hall as [H1 [H2 _]%Forall_cons]. simpl. by rewrite H1, H2.
  - destruct (paren_phase build fuel ts it) as [[rc r] it1] eqn:Er. injection Hp as -> <- <-.
    destruct (IH ts it r Hr ltac:(lia) Er) as (P1 & P2 & P3 & P4 & P5 & P6).
    assert (is_null t = false) as Hn by by destruct Ht, t.
    unfold opened. rewrite live_cons, Hn. split_and!.
    + split; [|done]. intros o x r' _ _ ->. by eapply P2.
    + by intros x r' [= <- _].
    + done.
    + constructor; [by apply raw_late|done].
    + intros Hnc. simpl in Hnc. rewrite Eo in Hnc. destruct (is_code TH8_OP_CLOSE_BRACKET t) eqn:Ec; [done|].
      constructor; [|by apply P5]. apply raw_late; [done|]. intros _. unfold is_paren. by rewrite Eo, Ec.
    + destruct P6 as [P6|P6]; [left; by apply (adjacent_app [t])|right; by constructor].
Qed.

Lemma MakeTree_back room ts (it : I) ap it' :
  Forall raw_no_colon ts → MakeTree room ts it = (TH8_OK, ap, it') → built ts ap.
Proof.
  revert ts it ap it'. induction room as [|room IH]; [done|]. intros ts it ap it' Hr Hm. simpl in Hm.
  destruct (tree_ready it) as [ready it1]. destruct (negb (ready =? TH8_OK)); [done|].
  destruct (length ts =? 0)%nat eqn:El; [done|].
  destruct (paren_phase (MakeTree room) (length ts) ts it1) as [[rc ap1] it2] eqn:Ep.
  destruct (negb (rc =? TH8_OK)) eqn:Erc; [done|]. bool_to_prop. subst rc.
  destruct (paren_back (MakeTree room) (length ts) ts it1 ap1 it2 (MakeTree_keeps room)
    ltac:(intros; by eapply IH) Hr ltac:(lia) Ep) as (P1 & P2 & P3 & P4 & P5 & P6).
  destruct (bind_phases_live ap1 P1) as [Hs Hh]. destruct (bind_phases ap1) as [[] ap2]; [|done].
  injection Hm as <- <-. destruct Hs as (Ho & Hl & Hlive). simpl in Hh. specialize (Hh eq_refl).
  destruct (bind_live (live ap1)) as [ss|] eqn:Eb; [|done]. specialize (Hlive ss eq_refl). split_and!.
  - assert (live ap1 ≠ []) as Hne.
    { destruct ap1 as [|x r]; [by destruct P3; [destruct ts|]|]. rewrite live_cons, (P2 x r eq_refl). done. }
    pose proof (bind_nonempty false _ _ P4 Eb Hne) as Hss. destruct ss as [|t ss]; [done|].
    specialize (Hh t ss Hlive). destruct ap2 as [|x r]; [done|]. injection Hh as ->. exists t, r.
    split; [done|]. destruct (is_null t) eqn:E; [|done]. rewrite live_cons, E in Hlive.
    assert (t ∈ live r) as Hin by (rewrite Hlive; by left).
    unfold live in Hin. apply list_elem_of_filter in Hin as [Hin _]. congruence.
  - intros t Ht Hterm. rewrite Hlive in Ht.
    pose proof (proj1 (bind_back false _ _ P4 Eb) t Ht Hterm) as Hf.
    destruct P6 as [P6|P6]; [by rewrite (flat_not_adjacent _ _ _ _ Hf) in P6|].
    apply (flat_derives 15 (live ap1) t); [done|done|]. eapply Forall_impl; [exact Hr|]. by intros ? [? _].
  - intros Hnc. rewrite Hlive. by apply (bind_back true _ _ (P5 Hnc) Eb).
Qed.
End back.

(** ** The theorems *)

Section theorems.
Context {I : Type} `{TI : TreeInterp I}.

(** C31.  The builder gives every expression of the grammar it implements its tree,
    in the first slot, and empties the others.  Where ** and the conditional are
    operands of themselves in parentheses only, as in 2 ** (3 ** 2), that is the
    tree of the documented grammar; a chain such as 2 ** 3 ** 2 it groups to the
    left, against the documentation ([exponent_left], [conditional_left]). *)
Theorem tree_of_grammar (s : style) (k : nat) (ts : list Th8_ExprNode) (t : Th8_ExprNode) (it : I)
  (Hready : ∀ it : I, fst (tree_ready it) = TH8_OK)
  (Hs : s ≠ Documented) (Hd : derives s k 15 ts t) (Hk : (k <= TH8_MX_EXPR_DEPTH)%nat) :
  (∃ it', th8ExprMakeTree ts 0 it = (TH8_OK, t :: replicate (length ts - 1) NULL, it')) ∧
  (s = Unchained → derives Documented k 15 ts t).
Proof.
  split; [|by intros ->; apply unchained_derives].
  assert (derives Implemented k 15 ts t) as H by (destruct s; [done|done|by apply unchained_derives]).
  apply (MakeTree_builds Hready (S TH8_MX_EXPR_DEPTH) (TH8_MX_EXPR_DEPTH + 1 - 0)) with k; [lia|lia|done].
Qed.

(** C32.  And of token lists with no colon it gives one tree to expressions only:
    they are expressions of the documented grammar too, and the tree is the one
    documented when they have no **. *)
Theorem tree_only_of_grammar (ts : list Th8_ExprNode) (t : Th8_ExprNode) (depth : nat) (it it' : I)
  (Hts : Forall raw_no_colon ts) (Ht : TH8_ISTERM t = true)
  (Hm : th8ExprMakeTree ts depth it = (TH8_OK, t :: replicate (length ts - 1) NULL, it')) :
  ∃ k, derives Implemented k 15 ts t ∧ (∃ t', derives Documented k 15 ts t') ∧
    (Forall (λ t, is_code TH8_OP_EXPONENT t = false) ts → derives Documented k 15 ts t).
Proof.
  destruct (MakeTree_back _ _ _ _ _ Hts Hm) as (_ & Hone & _). destruct (Hone t) as [k Hk]; [|done|].
  { rewrite live_cons. destruct (is_null t) eqn:E; [by destruct t|]. f_equal.
    pose proof (live_nulls (length ts - 1) []) as H. by rewrite app_nil_r in H. }
  exists k. split; [done|]. split; [by eapply implemented_documented|]. intros He.
  apply unchained_derives, unchained; [done|]. apply Forall_forall. intros x Hx.
  rewrite Forall_forall in He. unfold chains. rewrite (He x Hx).
  rewrite Forall_forall in Hts. by destruct (Hts x Hx) as [_ ->].
Qed.

(** Whatever the tokens, and whatever stops it, the builder keeps every token
    but parentheses, once and in its place, and the number of slots. *)
Theorem tree_keeps_tokens (ts : list Th8_ExprNode) (depth : nat) (it : I) (Hts : Forall raw ts) :
  let '(_, ap, _) := th8ExprMakeTree ts depth it in
  tokens ap = filter (λ t, is_paren t = false) ts ∧ length ap = length ts.
Proof.
  assert (Forall slot_ok ts) as Hs.
  { eapply Forall_impl; [exact Hts|]. intros [| |o l r]; [done..|]. by intros (? & -> & ->). }
  assert (ts ≫= inorder = ts) as E.
  { clear Hs. induction Hts as [|t ts Ht _ IH]; [done|]. rewrite bind_cons, IH.
    destruct t as [| |o l r]; [done..|]. destruct Ht as (? & -> & ->). simpl. by case_if. }
  pose proof (MakeTree_keeps (TH8_MX_EXPR_DEPTH + 1 - depth) ts it Hs) as K.
  unfold th8ExprMakeTree. destruct (MakeTree _ ts it) as [[rc ap] it']. destruct K as (H1 & H2 & _).
  simpl in *. split; [|done]. rewrite H1. unfold tokens. by rewrite E.
Qed.
End theorems.

(** ** Runs *)

#[local] Instance unit_tree : TreeInterp unit :=
  { tree_ready := λ it, (TH8_OK, it); set_too_deep := λ it, it }.

(** The token of the [i]-th row of the table. *)
Definition op (i : nat) : Th8_ExprNode := token (nth i th8Operators (row "" TH8_OP_ADD 0 TH8_ARG_NONE)).
Definition lit (s : string) : Th8_ExprNode := Literal (bytes_of_string s) 0.
Definition bind (i : nat) (x y : Th8_ExprNode) : Th8_ExprNode :=
  match op i with Operator o _ _ => Operator o x y | t => t end.

Lemma op_in i : (i < 32)%nat → nth i th8Operators (row "" TH8_OP_ADD 0 TH8_ARG_NONE) ∈ th8Operators.
Proof. intros. apply list_elem_of_In, nth_In. done. Qed.

(** 1 + 2 * 3 *)
Lemma tree_of_grammar_witness :
  let ts := [lit "1"; op 23; lit "2"; op 20; lit "3"] in
  let t := bind 23 (lit "1") (bind 20 (lit "2") (lit "3")) in
  derives Unchained 0 15 ts t ∧
  (∃ it', th8ExprMakeTree ts 0 tt = (TH8_OK, t :: replicate 4 NULL, it')) ∧ derives Documented 0 15 ts t.
Proof.
  intros ts t. assert (derives Unchained 0 15 ts t) as H.
  { apply (D_up _ 0 4 15); [lia|lia|].
    apply (D_binary _ 0 _ 4 [lit "1"] (lit "1") [lit "2"; op 20; lit "3"]); [by apply op_in; lia|done|lia| |].
    - apply (D_up _ 0 0 4); [lia|lia|constructor].
    - apply (D_binary _ 0 _ 3 [lit "2"] (lit "2") [lit "3"]); [by apply op_in; lia|done|lia| |].
      + apply (D_up _ 0 0 3); [lia|lia|constructor].
      + apply (D_up _ 0 0 2); [lia|lia|constructor]. }
  split; [exact H|].
  destruct (tree_of_grammar Unchained 0 ts t tt) as [H1 H2]; [done|done|exact H|unfold TH8_MX_EXPR_DEPTH; lia|].
  split; [exact H1|by apply H2].
Defined.

(** ( 1 - 2 ) *)
Lemma tree_only_of_grammar_witness :
  let ts := [op 0; lit "1"; op 24; lit "2"; op 1] in
  let t := bind 24 (lit "1") (lit "2") in
  th8ExprMakeTree ts 0 tt = (TH8_OK, t :: replicate 4 NULL, tt) ∧ ∃ k, derives Documented k 15 ts t.
Proof.
  intros ts t. split; [vm_compute; reflexivity|].
  destruct (tree_only_of_grammar ts t 0 tt tt) as (k & _ & _ & H).
  - repeat constructor; try done; apply op_in; lia.
  - reflexivity.
  - vm_compute. reflexivity.
  - exists k. apply H. by repeat constructor.
Defined.

Lemma tree_keeps_tokens_witness :
  let '(_, ap, _) := th8ExprMakeTree [op 0; lit "1"; op 24; op 1] 0 tt in
  tokens ap = [lit "1"; op 24] ∧ length ap = 4%nat.
Proof.
  apply (tree_keeps_tokens [op 0; lit "1"; op 24; op 1] 0 tt).
  repeat constructor; try done; apply op_in; lia.
Defined.

(** Two operands with nothing between them are accepted; what the second
    becomes is the caller's to ignore. *)
Example juxtaposed : th8ExprMakeTree [lit "1"; lit "2"] 0 tt = (TH8_OK, [lit "1"; lit "2"], tt).
Proof. reflexivity. Qed.

(** So is a closing parenthesis that nothing opened. *)
Example lone_close : th8ExprMakeTree [op 1] 0 tt = (TH8_OK, [op 1], tt).
Proof. reflexivity. Qed.

(** Exponentiation groups to the left. *)
Example exponent_left :
  th8ExprMakeTree [lit "2"; op 6; lit "3"; op 6; lit "2"] 0 tt =
  (TH8_OK, bind 6 (bind 6 (lit "2") (lit "3")) (lit "2") :: replicate 4 NULL, tt).
Proof. vm_compute. reflexivity. Qed.

(** a ? b : c ? d : e groups to the left as well, *)
Example conditional_left :
  th8ExprMakeTree [lit "a"; op 30; lit "b"; op 31; lit "c"; op 30; lit "d"; op 31; lit "e"] 0 tt =
  (TH8_OK, bind 30 (bind 30 (lit "a") (bind 31 (lit "b") (lit "c"))) (bind 31 (lit "d") (lit "e"))
           :: replicate 8 NULL, tt).
Proof. vm_compute. reflexivity. Qed.

(** and a ? b ? c : d : e is a syntax error. *)
Example conditional_nested :
  fst (fst (th8ExprMakeTree [lit "a"; op 30; lit "b"; op 30; lit "c"; op 31; lit "d"; op 31; lit "e"] 0 tt)) = TH8_ERROR.
Proof. vm_compute. reflexivity. Qed.
