(* ===== verification/ExprArith.v ===== *)
(** * ExprArith: the integer operators of expressions (the switch of
    th8ExprEvalNode in src/src/th8_expr.c).

    The operands are 64-bit integers; signed arithmetic that leaves their range
    is undefined behaviour, the error [SignedOverflow].  The operators are
    compared with the unbounded integers. *)

From S2P Require Import Prelude Numbers ExprTree.
#[local] Open Scope Z_scope.
#[local] Open Scope res_scope.

(** What an expression may run into that C leaves undefined. *)
Inductive fault : Type :=
| NullDeref            (* a null pointer is read *)
| SignedOverflow       (* signed arithmetic, or the division, overflows *)
| DoubleToInt.         (* a double outside the range of int is made one *)

Definition in64 (v : Z) : bool := (TH8_INT64_MIN <=? v) && (v <=? TH8_INT64_MAX).

(** The value of a signed operation. *)
Definition signed (v : Z) : res fault Z := if in64 v then Ok v else Err SignedOverflow.

(** How the switch ends: with the value of iRes, with one of its messages, in
    the arithmetic of big integers, or in its default case. *)
Inductive int_answer : Type :=
| IntValue (iRes : Z) | IntOverflow | DivideByZero | IntBig | IntUnknown.

Definition of_bool (b : bool) : Z := if b then 1 else 0.

Section switch.
(** interp->bOverflowCheck, and Th8_IsBigintEnabled. *)
Context (bOverflowCheck bBigint : bool).

(** The tests before a multiplication and before a squaring. *)
Definition mul_overflows (a b : Z) : bool :=
  negb (b =? 0) &&
  (((0 <? a) && (0 <? b) && (Z.quot TH8_INT64_MAX b <? a)) ||
   ((a <? 0) && (b <? 0) && (a <? Z.quot TH8_INT64_MAX b)) ||
   ((0 <? a) && (b <? 0) && (b <? Z.quot TH8_INT64_MIN a)) ||
   ((a <? 0) && (0 <? b) && (a <? Z.quot TH8_INT64_MIN b))).

Definition square_overflows (b : Z) : bool :=
  negb (b =? 0) && negb (b =? 1) && negb (b =? -1) &&
  (((0 <? b) && (Z.quot TH8_INT64_MAX b <? b)) || ((b <? 0) && (b <? Z.quot TH8_INT64_MAX b))).

Definition add_overflows (a b : Z) : bool :=
  ((0 <? b) && (TH8_INT64_MAX - b <? a)) || ((b <? 0) && (a <? TH8_INT64_MIN - b)).

Definition sub_overflows (a b : Z) : bool :=
  ((b <? 0) && (TH8_INT64_MAX + b <? a)) || ((0 <? b) && (a <? TH8_INT64_MIN + b)).

(** The loop of [**]; [None] is overflow.  The exponent is halved, so 64 rounds
    are enough. *)
Fixpoint exponent_loop (fuel : nat) (base exp result : Z) : res fault (option Z) :=
  match fuel with
  | O => Ok None
  | S fuel' =>
      if 0 <? exp then
        let odd := negb (Z.land exp 1 =? 0) in
        if odd && bOverflowCheck && mul_overflows result base then Ok None
        else
          let* result := if odd then signed (result * base) else Ok result in
          if (1 <? exp) && bOverflowCheck && square_overflows base then Ok None
          else
            let* base := if 1 <? exp then signed (base * base) else Ok base in
            exponent_loop fuel' base (Z.shiftr exp 1) result
      else Ok (Some result)
  end.

Definition overflowed : res fault int_answer := Ok (if bBigint then IntBig else IntOverflow).

Definition give_value (v : res fault Z) : res fault int_answer := let* v := v in Ok (IntValue v).

Definition integer_op (eOp : op_code) (iLeft iRight : Z) : res fault int_answer :=
  match eOp with
  | TH8_OP_MULTIPLY =>
      if bOverflowCheck && mul_overflows iLeft iRight then overflowed
      else give_value (signed (iLeft * iRight))
  | TH8_OP_DIVIDE =>
      if iRight =? 0 then Ok DivideByZero
      else if bOverflowCheck && (iLeft =? TH8_INT64_MIN) && (iRight =? -1) then overflowed
      else
        let* iRes := signed (Z.quot iLeft iRight) in
        if (Z.lxor iLeft iRight <? 0) && negb (iRes * iRight =? iLeft) then give_value (signed (iRes - 1))
        else Ok (IntValue iRes)
  | TH8_OP_MODULUS =>
      if iRight =? 0 then Ok DivideByZero
      else if (iLeft =? TH8_INT64_MIN) && (iRight =? -1) then Ok (IntValue 0)
      else
        let iRes := Z.rem iLeft iRight in
        if negb (iRes =? 0) && (Z.lxor iRes iRight <? 0) then give_value (signed (iRes + iRight))
        else Ok (IntValue iRes)
  | TH8_OP_ADD =>
      if bOverflowCheck && add_overflows iLeft iRight then overflowed
      else give_value (signed (iLeft + iRight))
  | TH8_OP_SUBTRACT =>
      if bOverflowCheck && sub_overflows iLeft iRight then overflowed
      else give_value (signed (iLeft - iRight))
  | TH8_OP_LEFT_SHIFT =>
      if bBigint && ((63 <? iRight) || (iRight <? 0)) then Ok IntBig
      else Ok (IntValue (swrap 64 (Z.shiftl (wrap 64 iLeft) (Z.land iRight 0x3f))))
  | TH8_OP_RIGHT_SHIFT => Ok (IntValue (Z.shiftr iLeft (Z.land iRight 0x3f)))
  | TH8_OP_LT => Ok (IntValue (of_bool (iLeft <? iRight)))
  | TH8_OP_GT => Ok (IntValue (of_bool (iRight <? iLeft)))
  | TH8_OP_LE => Ok (IntValue (of_bool (iLeft <=? iRight)))
  | TH8_OP_GE => Ok (IntValue (of_bool (iRight <=? iLeft)))
  | TH8_OP_EQ => Ok (IntValue (of_bool (iLeft =? iRight)))
  | TH8_OP_NE => Ok (IntValue (of_bool (negb (iLeft =? iRight))))
  | TH8_OP_BITWISE_AND => Ok (IntValue (Z.land iLeft iRight))
  | TH8_OP_BITWISE_XOR => Ok (IntValue (Z.lxor iLeft iRight))
  | TH8_OP_BITWISE_OR => Ok (IntValue (Z.lor iLeft iRight))
  | TH8_OP_LOGICAL_AND => Ok (IntValue (of_bool (negb (iLeft =? 0) && negb (iRight =? 0))))
  | TH8_OP_LOGICAL_OR => Ok (IntValue (of_bool (negb (iLeft =? 0) || negb (iRight =? 0))))
  | TH8_OP_UNARY_MINUS =>
      if bOverflowCheck && (iLeft =? TH8_INT64_MIN) then overflowed
      else give_value (signed (- iLeft))
  | TH8_OP_UNARY_PLUS => Ok (IntValue iLeft)
  | TH8_OP_BITWISE_NOT => Ok (IntValue (Z.lnot iLeft))
  | TH8_OP_LOGICAL_NOT => Ok (IntValue (of_bool (iLeft =? 0)))
  | TH8_OP_EXPONENT =>
      if iRight <? 0 then Ok (IntValue 0)
      else
        let* r := exponent_loop 64 iLeft iRight 1 in
        match r with Some v => Ok (IntValue v) | None => overflowed end
  | _ => Ok IntUnknown
  end.

End switch.

(** ** The unbounded integers *)

(** The value of an operator.  Shift counts are taken modulo 64, what is shifted
    out is lost, and a negative power is 0. *)
Inductive exact_answer : Type := Exact (v : Z) | NoQuotient | NotInteger.

Definition exact (eOp : op_code) (a b : Z) : exact_answer :=
  match eOp with
  | TH8_OP_MULTIPLY => Exact (a * b)
  | TH8_OP_DIVIDE => if b =? 0 then NoQuotient else Exact (a / b)
  | TH8_OP_MODULUS => if b =? 0 then NoQuotient else Exact (a mod b)
  | TH8_OP_ADD => Exact (a + b)
  | TH8_OP_SUBTRACT => Exact (a - b)
  | TH8_OP_LEFT_SHIFT => Exact (swrap 64 (a * 2 ^ (b mod 64)))
  | TH8_OP_RIGHT_SHIFT => Exact (a / 2 ^ (b mod 64))
  | TH8_OP_LT => Exact (of_bool (a <? b))
  | TH8_OP_GT => Exact (of_bool (b <? a))
  | TH8_OP_LE => Exact (of_bool (a <=? b))
  | TH8_OP_GE => Exact (of_bool (b <=? a))
  | TH8_OP_EQ => Exact (of_bool (a =? b))
  | TH8_OP_NE => Exact (of_bool (negb (a =? b)))
  | TH8_OP_BITWISE_AND => Exact (Z.land a b)
  | TH8_OP_BITWISE_XOR => Exact (Z.lxor a b)
  | TH8_OP_BITWISE_OR => Exact (Z.lor a b)
  | TH8_OP_LOGICAL_AND => Exact (of_bool (negb (a =? 0) && negb (b =? 0)))
  | TH8_OP_LOGICAL_OR => Exact (of_bool (negb (a =? 0) || negb (b =? 0)))
  | TH8_OP_UNARY_MINUS => Exact (- a)
  | TH8_OP_UNARY_PLUS => Exact a
  | TH8_OP_BITWISE_NOT => Exact (- a - 1)
  | TH8_OP_LOGICAL_NOT => Exact (of_bool (a =? 0))
  | TH8_OP_EXPONENT => Exact (if b <? 0 then 0 else a ^ b)
  | _ => NotInteger
  end.

(** ** The overflow tests are exact *)

Lemma quot_lt m a b : 0 < m → 0 < b → (Z.quot m b <? a) = (m <? a * b).
Proof.
  intros Hm Hb. rewrite Z.quot_div_nonneg by lia. apply Bool.eq_iff_eq_true. rewrite !Z.ltb_lt.
  pose proof (Z.div_mod m b ltac:(lia)). pose proof (Z.mod_pos_bound m b Hb). split; intros; nia.
Qed.

Lemma quot_opp m b : b < 0 → Z.quot m b = - Z.quot m (- b).
Proof. intros. rewrite <- Z.quot_opp_r by lia. by rewrite Z.opp_involutive. Qed.

Lemma in64_spec v : in64 v = true ↔ TH8_INT64_MIN <= v <= TH8_INT64_MAX.
Proof. unfold in64. rewrite andb_true_iff, !Z.leb_le. done. Qed.

Lemma in64_false v : in64 v = false ↔ v < TH8_INT64_MIN ∨ TH8_INT64_MAX < v.
Proof. unfold in64. rewrite andb_false_iff, !Z.leb_gt. done. Qed.

Lemma min_max : TH8_INT64_MIN = - TH8_INT64_MAX - 1.
Proof. done. Qed.

Lemma max_pos : 0 < TH8_INT64_MAX.
Proof. done. Qed.

#[local] Opaque TH8_INT64_MAX TH8_INT64_MIN.

(** One product and its sign at a time. *)
Lemma mul_overflows_spec a b : in64 a = true → in64 b = true → mul_overflows a b = negb (in64 (a * b)).
Proof.
  intros Ha%in64_spec Hb%in64_spec. pose proof max_pos. pose proof min_max as E.
  unfold mul_overflows, in64.
  destruct (Z.lt_trichotomy a 0) as [Ha0|[->|Ha0]], (Z.lt_trichotomy b 0) as [Hb0|[->|Hb0]];
    try (rewrite ?Z.mul_0_r, ?Z.mul_0_l; simpl; rewrite ?andb_false_r; repeat (rewrite (proj2 (Z.leb_le _ _)) by lia);
         done).
  all: repeat match goal with
    | |- context [?x <? ?y] => first [rewrite (proj2 (Z.ltb_lt x y)) by lia | rewrite (proj2 (Z.ltb_ge x y)) by lia]
    end; rewrite (proj2 (Z.eqb_neq b 0)) by lia; simpl; rewrite ?andb_false_r, ?orb_false_r, ?andb_true_r.
  - rewrite quot_opp by lia.
    assert ((a <? - Z.quot TH8_INT64_MAX (- b)) = (Z.quot TH8_INT64_MAX (- b) <? - a)) as ->
      by (apply Bool.eq_iff_eq_true; rewrite !Z.ltb_lt; lia).
    rewrite quot_lt by lia. apply Bool.eq_iff_eq_true. rewrite negb_true_iff, andb_false_iff, Z.ltb_lt, !Z.leb_gt. nia.
  - replace TH8_INT64_MIN with (- (- TH8_INT64_MIN)) at 1 by lia. rewrite Z.quot_opp_l by lia.
    assert ((a <? - Z.quot (- TH8_INT64_MIN) b) = (Z.quot (- TH8_INT64_MIN) b <? - a)) as ->
      by (apply Bool.eq_iff_eq_true; rewrite !Z.ltb_lt; lia).
    rewrite quot_lt by lia. apply Bool.eq_iff_eq_true. rewrite negb_true_iff, andb_false_iff, Z.ltb_lt, !Z.leb_gt. nia.
  - replace TH8_INT64_MIN with (- (- TH8_INT64_MIN)) at 1 by lia. rewrite Z.quot_opp_l by lia.
    assert ((b <? - Z.quot (- TH8_INT64_MIN) a) = (Z.quot (- TH8_INT64_MIN) a <? - b)) as ->
      by (apply Bool.eq_iff_eq_true; rewrite !Z.ltb_lt; lia).
    rewrite quot_lt by lia. apply Bool.eq_iff_eq_true. rewrite negb_true_iff, andb_false_iff, Z.ltb_lt, !Z.leb_gt. nia.
  - rewrite quot_lt by lia. apply Bool.eq_iff_eq_true. rewrite negb_true_iff, andb_false_iff, Z.ltb_lt, !Z.leb_gt. nia.
Qed.

Lemma square_overflows_spec b : in64 b = true → square_overflows b = negb (in64 (b * b)).
Proof.
  intros Hb. pose proof (mul_overflows_spec b b Hb Hb) as H. apply in64_spec in Hb.
  pose proof max_pos. pose proof min_max.
  destruct (decide (b = 0 ∨ b = 1 ∨ b = -1)) as [Hs|Hs].
  - assert (in64 (b * b) = true) as -> by (apply in64_spec; destruct Hs as [->|[-> | ->]]; lia).
    by destruct Hs as [->|[-> | ->]].
  - rewrite <- H. unfold square_overflows, mul_overflows.
    rewrite (proj2 (Z.eqb_neq b 0)), (proj2 (Z.eqb_neq b 1)), (proj2 (Z.eqb_neq b (-1))) by lia. simpl.
    destruct (Z.lt_trichotomy b 0) as [Hb0|[->|Hb0]]; [|lia|].
    + rewrite (proj2 (Z.ltb_ge 0 b)), (proj2 (Z.ltb_lt b 0)) by lia. simpl. by rewrite !orb_false_r.
    + rewrite (proj2 (Z.ltb_lt 0 b)), (proj2 (Z.ltb_ge b 0)) by lia. simpl. by rewrite !orb_false_r.
Qed.

Lemma add_overflows_spec a b : in64 a = true → in64 b = true → add_overflows a b = negb (in64 (a + b)).
Proof.
  intros Ha%in64_spec Hb%in64_spec. unfold add_overflows, in64. pose proof max_pos. pose proof min_max.
  apply Bool.eq_iff_eq_true. rewrite negb_true_iff, andb_false_iff, orb_true_iff, !andb_true_iff, !Z.leb_gt, !Z.ltb_lt.
  lia.
Qed.

Lemma sub_overflows_spec a b : in64 a = true → in64 b = true → sub_overflows a b = negb (in64 (a - b)).
Proof.
  intros Ha%in64_spec Hb%in64_spec. unfold sub_overflows, in64. pose proof max_pos. pose proof min_max.
  apply Bool.eq_iff_eq_true. rewrite negb_true_iff, andb_false_iff, orb_true_iff, !andb_true_iff, !Z.leb_gt, !Z.ltb_lt.
  lia.
Qed.

(** A test that is exact, in front of the operation it guards. *)
Lemma guarded bC bB test v : test = negb (in64 v) →
  (if bC && test then overflowed bB else give_value (signed v)) =
  (if in64 v then Ok (IntValue v) else if bC then overflowed bB else Err SignedOverflow).
Proof. intros ->. unfold signed. destruct (in64 v), bC; done. Qed.

(** ** Exponentiation *)

(** A product with a square of magnitude at least 1 is in range only if the
    other factor is. *)
Lemma range_grows v s : 1 <= s → in64 v = false → in64 (v * s) = false.
Proof. intros Hs [Hv|Hv]%in64_false; apply in64_false; pose proof max_pos; pose proof min_max; [left|right]; nia. Qed.

(** 2^63 is no square. *)
Lemma square_max b : in64 b = true → in64 (b * b) = false → TH8_INT64_MAX + 2 <= b * b.
Proof.
  #[local] Transparent TH8_INT64_MAX TH8_INT64_MIN.
  intros [H1 H2]%in64_spec [H|H]%in64_false; unfold TH8_INT64_MAX, TH8_INT64_MIN in *; [nia|].
  assert (Z.abs b <= 3037000499 ∨ 3037000500 <= Z.abs b) as [Hb|Hb] by lia; nia.
  #[local] Opaque TH8_INT64_MAX TH8_INT64_MIN.
Qed.

Lemma square_grows r s : r ≠ 0 → TH8_INT64_MAX + 2 <= s → in64 (r * s) = false.
Proof. intros Hr Hs. apply in64_false. pose proof max_pos. pose proof min_max. nia. Qed.

Lemma pow_even b k : 0 <= k → b ^ (2 * k) = (b * b) ^ k.
Proof. intros. by rewrite Z.pow_mul_r, Z.pow_2_r by lia. Qed.

Lemma pow_square_pos b k : b ≠ 0 → 0 <= k → 1 <= (b * b) ^ k.
Proof. intros Hb Hk. pose proof (Z.pow_pos_nonneg (b * b) k ltac:(nia) Hk). lia. Qed.

Lemma land_1 e : negb (Z.land e 1 =? 0) = Z.odd e.
Proof.
  change 1 with (Z.ones 1). rewrite Z.land_ones by lia. change (2 ^ 1) with 2. rewrite Zmod_odd.
  by destruct (Z.odd e).
Qed.

Lemma halves e : 0 <= e → e = 2 * Z.shiftr e 1 + (if Z.odd e then 1 else 0) ∧ 0 <= Z.shiftr e 1.
Proof.
  intros He. rewrite Z.shiftr_div_pow2 by lia. change (2 ^ 1) with 2.
  pose proof (Z.div_mod e 2 ltac:(lia)) as H. rewrite Zmod_odd in H. split; [done|]. apply Z.div_pos; lia.
Qed.

(** The answer for a value. *)
Definition answer (bC : bool) (v : Z) : res fault (option Z) :=
  if in64 v then Ok (Some v) else if bC then Ok None else Err SignedOverflow.

Lemma answer_overflow bC v : in64 v = false → answer bC v = if bC then Ok None else Err SignedOverflow.
Proof. unfold answer. by intros ->. Qed.

(** The round of the loop that a multiplication or a squaring makes. *)
Lemma step_spec {A} (bC b test : bool) (v x : Z) (k : Z → res fault (option A)) :
  (b = true → test = negb (in64 v)) →
  (if b && bC && test then Ok None else let* r := if b then signed v else Ok x in k r) =
  (if b && negb (in64 v) then (if bC then Ok None else Err SignedOverflow) else k (if b then v else x)).
Proof.
  destruct b; simpl; [|done]. intros Ht. rewrite Ht by done. unfold signed. destruct bC, (in64 v); done.
Qed.

Lemma exponent_loop_spec bC fuel : ∀ base exp result,
  in64 base = true → in64 result = true → (result = 0 → base = 0) →
  0 <= exp < 2 ^ Z.of_nat fuel →
  exponent_loop bC (S fuel) base exp result = answer bC (result * base ^ exp).
Proof.
  induction fuel as [|fuel IH]; intros base exp result Hb Hr H0 He.
  { assert (exp = 0) as -> by (simpl in He; lia). rewrite Z.pow_0_r, Z.mul_1_r. unfold answer. by rewrite Hr. }
  cbn [exponent_loop]. destruct (0 <? exp) eqn:Ee; bool_to_prop.
  2:{ assert (exp = 0) as -> by lia. rewrite Z.pow_0_r, Z.mul_1_r. unfold answer. by rewrite Hr. }
  fold (exponent_loop bC (S fuel)). rewrite land_1. destruct (halves exp ltac:(lia)) as [Eh Hh].
  set (k := Z.shiftr exp 1) in *. set (r := if Z.odd exp then result * base else result).
  rewrite (step_spec bC (Z.odd exp) (mul_overflows result base)) by (intros _; by apply mul_overflows_spec).
  fold r.
  assert (Hpow : result * base ^ exp = r * (base * base) ^ k).
  { rewrite Eh at 1. rewrite Z.pow_add_r, pow_even by (destruct (Z.odd exp); lia).
    subst r. destruct (Z.odd exp); rewrite ?Z.pow_1_r, ?Z.pow_0_r; ring. }
  rewrite Hpow. destruct (Z.odd exp && negb (in64 (result * base))) eqn:E1.
  { bool_to_prop. rewrite answer_overflow; [done|]. subst r. rewrite H. destruct (decide (base = 0)) as [->|Hn].
    - rewrite Z.mul_0_r in *. done.
    - apply range_grows; [by apply pow_square_pos|done]. }
  assert (in64 r = true) as Hr'.
  { subst r. destruct (Z.odd exp); [|done]. simpl in E1. by apply negb_false_iff in E1. }
  assert (r = 0 → base = 0) as H0'.
  { subst r. destruct (Z.odd exp); [|done]. intros [?|?]%Z.mul_eq_0; auto. }
  rewrite (step_spec bC (1 <? exp) (square_overflows base)) by (intros _; by apply square_overflows_spec).
  assert (Hk : (1 <? exp) = true ↔ 1 <= k) by (rewrite Z.ltb_lt; destruct (Z.odd exp); lia).
  destruct ((1 <? exp) && negb (in64 (base * base))) eqn:E2.
  { bool_to_prop. rewrite answer_overflow; [done|]. pose proof (square_max base Hb ltac:(done)) as Hm.
    assert (base ≠ 0) as Hn by (intros ->; simpl in Hm; pose proof max_pos; lia).
    apply square_grows; [by intros ?%H0'|].
    replace k with (Z.succ (k - 1)) by lia. rewrite Z.pow_succ_r by lia.
    pose proof (pow_square_pos base (k - 1) Hn ltac:(lia)). pose proof max_pos. nia. }
  assert (Hlt : 0 <= k < 2 ^ Z.of_nat fuel).
  { replace (Z.of_nat (S fuel)) with (Z.succ (Z.of_nat fuel)) in He by lia. rewrite Z.pow_succ_r in He by lia. destruct (Z.odd exp); lia. }
  destruct (1 <? exp) eqn:E3.
  - simpl in E2. apply negb_false_iff in E2. apply IH; try done. intros ?%H0'. by subst base.
  - assert (k = 0) as -> by (destruct (decide (1 <= k)) as [?%Hk|]; [done|lia]).
    etrans; [apply (IH base 0 r); done || lia|]. by rewrite !Z.pow_0_r.
Qed.

(** ** The switch against the unbounded integers *)

Lemma of_bool_in64 b : in64 (of_bool b) = true.
Proof. destruct b; done. Qed.

#[local] Transparent TH8_INT64_MAX TH8_INT64_MIN.

Lemma high_bits u n : 0 <= u < 2 ^ 63 → 63 <= n → Z.testbit u n = false.
Proof.
  intros Hu Hn. destruct (decide (u = 0)) as [->|]; [apply Z.bits_0|]. apply Z.bits_above_log2; [lia|].
  apply Z.log2_lt_pow2; [lia|]. pose proof (Z.pow_le_mono_r 2 63 n). lia.
Qed.

(** Integers in range are those whose high bits are the sign. *)
Lemma in64_testbit v : in64 v = true ↔ ∀ n, 63 <= n → Z.testbit v n = (v <? 0).
Proof.
  rewrite in64_spec. unfold TH8_INT64_MAX, TH8_INT64_MIN. split.
  - intros H n Hn. destruct (Z.ltb_spec v 0); [|apply high_bits; lia].
    replace v with (Z.lnot (- v - 1)) by (rewrite Z.lnot_eq_pred_opp; lia).
    rewrite Z.lnot_spec, high_bits by lia. done.
  - intros H. split.
    + destruct (decide (- 2 ^ 63 <= v)) as [|Hn]; [done|].
      set (u := - v - 1). assert (2 ^ 63 <= u) as Hu by lia.
      pose proof (Z.log2_spec u ltac:(lia)) as [Hl1 Hl2]. assert (63 <= Z.log2 u) as Hl by (apply Z.log2_le_pow2; lia).
      specialize (H (Z.log2 u) Hl). replace v with (Z.lnot u) in H by (subst u; rewrite Z.lnot_eq_pred_opp; lia).
      rewrite Z.lnot_spec, Z.bit_log2 in H by lia. rewrite Z.lnot_eq_pred_opp in H.
      rewrite (proj2 (Z.ltb_lt _ _)) in H by lia. done.
    + destruct (decide (v <= 2 ^ 63 - 1)) as [|Hn]; [done|].
      assert (63 <= Z.log2 v) as Hl by (apply Z.log2_le_pow2; lia).
      specialize (H (Z.log2 v) Hl). rewrite Z.bit_log2, (proj2 (Z.ltb_ge _ _)) in H by lia. done.
Qed.

(** Bitwise operations stay in range. *)
Lemma bitwise_in64 f (op : Z → Z → Z) a b :
  (∀ n, 0 <= n → Z.testbit (op a b) n = f (Z.testbit a n) (Z.testbit b n)) →
  (op a b <? 0) = f (a <? 0) (b <? 0) → in64 a = true → in64 b = true → in64 (op a b) = true.
Proof.
  rewrite !in64_testbit. intros Hop Hs Ha Hb n Hn. by rewrite Hop, Hs, Ha, Hb by lia.
Qed.

Lemma signs_differ a b : (Z.lxor a b <? 0) = xorb (a <? 0) (b <? 0).
Proof.
  pose proof (Z.lxor_nonneg a b) as H. destruct (Z.ltb_spec a 0), (Z.ltb_spec b 0); simpl;
    [apply Z.ltb_ge; apply H; lia|apply Z.ltb_lt|apply Z.ltb_lt|apply Z.ltb_ge; apply H; lia].
  - destruct (Z.lt_ge_cases (Z.lxor a b) 0) as [|H2]; [done|]. apply H in H2. lia.
  - destruct (Z.lt_ge_cases (Z.lxor a b) 0) as [|H2]; [done|]. apply H in H2. lia.
Qed.

(** The quotient and the remainder of C, corrected, are those of the floor. *)
Lemma floor_quotient a b : b ≠ 0 →
  a / b = if (Z.lxor a b <? 0) && negb (Z.quot a b * b =? a) then Z.quot a b - 1 else Z.quot a b.
Proof.
  intros Hb. rewrite signs_differ. pose proof (Z.quot_rem a b Hb) as E. set (q := Z.quot a b) in *.
  pose proof (Z.rem_bound_abs a b Hb) as Hr. pose proof (Z.rem_nonneg a b Hb) as H1.
  pose proof (Z.rem_nonpos a b Hb) as H2. set (r := Z.rem a b) in *.
  destruct (Z.ltb_spec a 0), (Z.ltb_spec b 0); simpl;
    try (symmetry; apply (Z.div_unique a b q r); [lia|lia]);
    destruct (Z.eqb_spec (q * b) a); simpl; symmetry;
    try (apply (Z.div_unique a b q 0); lia); apply (Z.div_unique a b (q - 1) (r + b)); nia.
Qed.

Lemma floor_remainder a b : b ≠ 0 →
  a mod b = if negb (Z.rem a b =? 0) && (Z.lxor (Z.rem a b) b <? 0) then Z.rem a b + b else Z.rem a b.
Proof.
  intros Hb. rewrite signs_differ. pose proof (Z.quot_rem a b Hb) as E. set (q := Z.quot a b) in *.
  pose proof (Z.rem_bound_abs a b Hb) as Hr. set (r := Z.rem a b) in *.
  destruct (Z.eqb_spec r 0) as [->|]; simpl; [symmetry; apply (Z.mod_unique a b q 0); lia|].
  destruct (Z.ltb_spec r 0), (Z.ltb_spec b 0); simpl; symmetry;
    try (apply (Z.mod_unique a b q r); lia); apply (Z.mod_unique a b (q - 1) (r + b)); lia.
Qed.

Lemma quotient_in64 a b : in64 a = true → b ≠ 0 → a ≠ TH8_INT64_MIN ∨ b ≠ -1 → in64 (Z.quot a b) = true.
Proof.
  rewrite !in64_spec. intros Ha Hb Hn. unfold TH8_INT64_MIN, TH8_INT64_MAX in *.
  pose proof (Z.quot_abs a b Hb) as E. rewrite Z.quot_div_nonneg in E by lia.
  pose proof (Z.mul_div_le (Z.abs a) (Z.abs b) ltac:(lia)) as Hm. rewrite E in Hm.
  destruct (decide (Z.abs b = 1)) as [E1|]; [|nia]. rewrite E1, Z.div_1_r in E.
  pose proof (Z.quot_rem a b Hb). pose proof (Z.rem_bound_abs a b Hb). nia.
Qed.

Lemma quotient_min : Z.quot TH8_INT64_MIN (-1) = TH8_INT64_MAX + 1.
Proof. done. Qed.

Lemma remainder_in64 a b : in64 a = true → in64 b = true → b ≠ 0 → in64 (a mod b) = true.
Proof.
  rewrite !in64_spec. intros Ha Hb Hn. pose proof min_max. pose proof max_pos.
  destruct (Z.lt_ge_cases b 0); [pose proof (Z.mod_neg_bound a b)|pose proof (Z.mod_pos_bound a b)]; lia.
Qed.

#[local] Opaque TH8_INT64_MAX TH8_INT64_MIN.

(** Operators the switch does not compute itself. *)
Definition big_shift (bBigint : bool) (eOp : op_code) (b : Z) : bool :=
  bBigint && bool_decide (eOp = TH8_OP_LEFT_SHIFT) && ((63 <? b) || (b <? 0)).

Lemma land_63_mod b : Z.land b 0x3f = b mod 64.
Proof. change 0x3f with (Z.ones 6). by rewrite Z.land_ones. Qed.

Lemma swrap_in64 v : in64 (swrap 64 v) = true.
Proof.
  #[local] Transparent TH8_INT64_MAX TH8_INT64_MIN.
  apply in64_spec. pose proof (swrap_range 64 v ltac:(lia)). unfold TH8_INT64_MAX, TH8_INT64_MIN.
  change (64 - 1) with 63 in *. lia.
  #[local] Opaque TH8_INT64_MAX TH8_INT64_MIN.
Qed.

Lemma shift_in64 a n : in64 a = true → 0 <= n → in64 (a / 2 ^ n) = true.
Proof.
  rewrite !in64_spec. intros Ha Hn. pose proof (Z.pow_pos_nonneg 2 n ltac:(lia) Hn) as Hp.
  pose proof max_pos. pose proof min_max.
  split; [apply Z.div_le_lower_bound; nia|apply Z.div_le_upper_bound; nia].
Qed.

Lemma swrap_wrap a n : 0 <= n → swrap 64 (wrap 64 a * 2 ^ n) = swrap 64 (a * 2 ^ n).
Proof.
  intros Hn. unfold swrap, wrap. f_equal. rewrite <- (Zplus_mod_idemp_l (_ mod _ * _)).
  rewrite Zmult_mod_idemp_l. by rewrite Zplus_mod_idemp_l.
Qed.

(** The operators that need a word of their own. *)
Section cases.
Context (bCheck bBig : bool) (a b : Z) (Ha : in64 a = true) (Hb : in64 b = true).

Definition spec_answer (v : Z) : res fault int_answer :=
  if in64 v then Ok (IntValue v) else if bCheck then overflowed bBig else Err SignedOverflow.

Lemma in_range v : in64 v = true → Ok (IntValue v) = spec_answer v.
Proof. unfold spec_answer. by intros ->. Qed.

Lemma unary_minus_spec : integer_op bCheck bBig TH8_OP_UNARY_MINUS a b = spec_answer (- a).
Proof.
  apply guarded. apply in64_spec in Ha. unfold in64. pose proof max_pos. pose proof min_max.
  apply Bool.eq_iff_eq_true. rewrite negb_true_iff, andb_false_iff, Z.eqb_eq, !Z.leb_gt. lia.
Qed.

Lemma divide_spec : b ≠ 0 → integer_op bCheck bBig TH8_OP_DIVIDE a b = spec_answer (a / b).
Proof.
  intros Hn. cbn [integer_op]. rewrite (proj2 (Z.eqb_neq b 0)) by done. rewrite <- andb_assoc.
  pose proof (floor_quotient a b Hn) as E. destruct ((a =? TH8_INT64_MIN) && (b =? -1)) eqn:Em.
  - bool_to_prop. subst a b. rewrite quotient_min in *. unfold signed, spec_answer.
    assert (in64 (TH8_INT64_MAX + 1) = false) as Hf by (apply in64_false; lia).
    assert (TH8_INT64_MIN / -1 = TH8_INT64_MAX + 1) as -> by done. rewrite Hf. by destruct bCheck.
  - rewrite andb_false_r. unfold signed. rewrite quotient_in64; [|done|done|].
    2:{ destruct (Z.eqb_spec a TH8_INT64_MIN), (Z.eqb_spec b (-1)); auto; done. }
    cbn [res_bind]. rewrite E. destruct (_ && negb _) eqn:Ec; [|apply in_range, quotient_in64; try done].
    2:{ destruct (Z.eqb_spec a TH8_INT64_MIN), (Z.eqb_spec b (-1)); auto; done. }
    unfold give_value, signed. assert (in64 (Z.quot a b - 1) = true) as Hr; [|by rewrite Hr; apply in_range].
    rewrite signs_differ in Ec. apply in64_spec. apply in64_spec in Ha, Hb. pose proof max_pos. pose proof min_max.
    destruct (Z.ltb_spec a 0), (Z.ltb_spec b 0); try done; rewrite <- E.
    + split; [apply Z.div_le_lower_bound; nia|apply Z.div_le_upper_bound; nia].
    + rewrite <- Z.div_opp_opp by done.
      split; [apply Z.div_le_lower_bound; nia|apply Z.div_le_upper_bound; nia].
Qed.

Lemma modulus_spec : b ≠ 0 → integer_op bCheck bBig TH8_OP_MODULUS a b = spec_answer (a mod b).
Proof.
  intros Hn. cbn [integer_op]. rewrite (proj2 (Z.eqb_neq b 0)) by done.
  pose proof (remainder_in64 a b Ha Hb Hn) as Hr. rewrite <- in_range by done.
  destruct ((a =? TH8_INT64_MIN) && (b =? -1)) eqn:Em.
  - bool_to_prop. subst a b. done.
  - rewrite floor_remainder in Hr |- * by done. destruct (_ && (_ <? 0)); [|done].
    unfold give_value, signed. by rewrite Hr.
Qed.

Lemma exponent_spec :
  integer_op bCheck bBig TH8_OP_EXPONENT a b = spec_answer (if b <? 0 then 0 else a ^ b).
Proof.
  cbn [integer_op]. destruct (Z.ltb_spec b 0); [by apply in_range|]. apply in64_spec in Hb.
  rewrite (exponent_loop_spec bCheck 63) by (done || (pose proof min_max; change TH8_INT64_MAX with (2 ^ 63 - 1) in *; lia)).
  rewrite Z.mul_1_l. unfold answer, spec_answer. by destruct (in64 (a ^ b)), bCheck.
Qed.

Lemma shift_left_spec : big_shift bBig TH8_OP_LEFT_SHIFT b = false →
  integer_op bCheck bBig TH8_OP_LEFT_SHIFT a b = spec_answer (swrap 64 (a * 2 ^ (b mod 64))).
Proof.
  unfold big_shift. rewrite bool_decide_eq_true_2, andb_true_r by done. intros Hs. cbn [integer_op].
  rewrite Hs, land_63_mod, Z.shiftl_mul_pow2, swrap_wrap by (apply Z.mod_pos_bound; lia).
  apply in_range, swrap_in64.
Qed.

Lemma bitwise_spec (op : Z → Z → Z) f :
  (∀ n, 0 <= n → Z.testbit (op a b) n = f (Z.testbit a n) (Z.testbit b n)) →
  (op a b <? 0) = f (a <? 0) (b <? 0) → Ok (IntValue (op a b)) = spec_answer (op a b).
Proof. intros H1 H2. apply in_range. by apply (bitwise_in64 f). Qed.
End cases.

Lemma integer_op_spec (bCheck bBig : bool) (o : op_code) (a b : Z)
  (Ha : in64 a = true) (Hb : in64 b = true) (Hs : big_shift bBig o b = false) :
  integer_op bCheck bBig o a b =
    match exact o a b with
    | Exact v => if in64 v then Ok (IntValue v) else if bCheck then overflowed bBig else Err SignedOverflow
    | NoQuotient => Ok DivideByZero
    | NotInteger => Ok IntUnknown
    end.
Proof.
  pose proof (Z.mod_pos_bound b 64 ltac:(lia)) as Hm. fold (spec_answer bCheck bBig).
  destruct o; cbn [exact]; try done; try (by apply (in_range bCheck bBig), of_bool_in64).
  - by apply unary_minus_spec.
  - by apply in_range.
  - cbn [integer_op]. rewrite Z.lnot_eq_pred_opp. apply in_range, in64_spec.
    apply in64_spec in Ha. pose proof min_max. lia.
  - apply guarded. by apply mul_overflows_spec.
  - destruct (Z.eqb_spec b 0) as [->|]; [done|]. by apply divide_spec.
  - destruct (Z.eqb_spec b 0) as [->|]; [done|]. by apply modulus_spec.
  - apply guarded. by apply add_overflows_spec.
  - apply guarded. by apply sub_overflows_spec.
  - by apply shift_left_spec.
  - cbn [integer_op]. rewrite land_63_mod, Z.shiftr_div_pow2 by lia. apply in_range. apply shift_in64; [done|lia].
  - apply (bitwise_spec bCheck bBig a b Ha Hb Z.land andb); [intros; apply Z.land_spec|].
    apply Bool.eq_iff_eq_true. rewrite andb_true_iff, !Z.ltb_lt. apply Z.land_neg.
  - apply (bitwise_spec bCheck bBig a b Ha Hb Z.lxor xorb); [intros; apply Z.lxor_spec|apply signs_differ].
  - apply (bitwise_spec bCheck bBig a b Ha Hb Z.lor orb); [intros; apply Z.lor_spec|].
    apply Bool.eq_iff_eq_true. rewrite orb_true_iff, !Z.ltb_lt. apply Z.lor_neg.
  - by apply exponent_spec.
Qed.

(** C29.  With the overflow check on, and without, every operator gives the value of
    the unbounded integers; where that has no 64-bit form, it reports overflow
    or goes on with big integers, or without the check it is undefined. *)
Theorem integer_op_exact (bCheck bBig : bool) (o : op_code) (a b : Z)
  (Ha : in64 a = true) (Hb : in64 b = true) (Hs : big_shift bBig o b = false) :
  integer_op bCheck bBig o a b =
    match exact o a b with
    | Exact v => if in64 v then Ok (IntValue v) else if bCheck then overflowed bBig else Err SignedOverflow
    | NoQuotient => Ok DivideByZero
    | NotInteger => Ok IntUnknown
    end.
Proof. by apply integer_op_spec. Qed.

(** 3037000500 squared is past the 64-bit integers, minus that times
    3037000499 is not, and -2 to the 63rd is their least. *)
Lemma integer_op_exact_witness :
  integer_op true false TH8_OP_EXPONENT (-2) 63 = Ok (IntValue TH8_INT64_MIN) ∧
  integer_op true false TH8_OP_MULTIPLY 3037000500 3037000500 = Ok IntOverflow ∧
  integer_op false false TH8_OP_MULTIPLY 3037000500 3037000500 = Err SignedOverflow ∧
  integer_op true true TH8_OP_ADD TH8_INT64_MAX 1 = Ok IntBig ∧
  integer_op true true TH8_OP_DIVIDE (-7) 2 = Ok (IntValue (-4)).
Proof.
  split_and!; (etrans; [apply integer_op_exact; vm_compute; reflexivity|vm_compute; reflexivity]).
Defined.

(** A shift by 64 does not shift, and a negative power of one is 0. *)
Example shift_by_64 : integer_op true false TH8_OP_LEFT_SHIFT 1 64 = Ok (IntValue 1).
Proof. reflexivity. Qed.
Example one_to_minus_one : integer_op true false TH8_OP_EXPONENT 1 (-1) = Ok (IntValue 0).
Proof. reflexivity. Qed.
