(* ===== verification/Pow10.v ===== *)
(** * Pow10: the tables of powers of ten (th8Pow10Lemire, th8Pow10Sig and
    th8Pow10E of src/src/th8_core.c), and how accurate they are.

    A row [(hi, lo, e)] of the first table stands for [(hi 2^64 + lo) 2^e]; the
    second table has 64 bits to a row and steps of 8. *)

From S2P Require Import Prelude.
#[local] Open Scope Z_scope.

Definition TH8_POW10_Q_MIN : Z := -342.
Definition TH8_POW10_Q_MAX : Z := 308.

Definition th8Pow10Lemire : list (Z * Z * Z) := [
  (0xeef453d6923bd65a, 0x113faa2906a13b40, -1264);
  (0x9558b4661b6565f8, 0x4ac7ca59a424c508, -1260);
  (0xbaaee17fa23ebf76, 0x5d79bcf00d2df64a, -1257);
  (0xe95a99df8ace6f53, 0xf4d82c2c107973dc, -1254);
  (0x91d8a02bb6c10594, 0x79071b9b8a4be86a, -1250);
  (0xb64ec836a47146f9, 0x9748e2826cdee284, -1247);
  (0xe3e27a444d8d98b7, 0xfd1b1b2308169b25, -1244);
  (0x8e6d8c6ab0787f72, 0xfe30f0f5e50e20f7, -1240);
  (0xb208ef855c969f4f, 0xbdbd2d335e51a935, -1237);
  (0xde8b2b66b3bc4723, 0xad2c788035e61382, -1234);
  (0x8b16fb203055ac76, 0x4c3bcb5021afcc31, -1230);
  (0xaddcb9e83c6b1793, 0xdf4abe242a1bbf3e, -1227);
  (0xd953e8624b85dd78, 0xd71d6dad34a2af0d, -1224);
  (0x87d4713d6f33aa6b, 0x8672648c40e5ad68, -1220);
  (0xa9c98d8ccb009506, 0x680efdaf511f18c2, -1217);
  (0xd43bf0effdc0ba48, 0x0212bd1b2566def3, -1214);
  (0x84a57695fe98746d, 0x014bb630f7604b58, -1210);
  (0xa5ced43b7e3e9188, 0x419ea3bd35385e2e, -1207);
  (0xcf42894a5dce35ea, 0x52064cac828675b9, -1204);
  (0x818995ce7aa0e1b2, 0x7343efebd1940994, -1200);
  (0xa1ebfb4219491a1f, 0x1014ebe6c5f90bf9, -1197);
  (0xca66fa129f9b60a6, 0xd41a26e077774ef7, -1194);
  (0xfd00b897478238d0, 0x8920b098955522b5, -1191);
  (0x9e20735e8cb16382, 0x55b46e5f5d5535b1, -1187);
  (0xc5a890362fddbc62, 0xeb2189f734aa831d, -1184);
  (0xf712b443bbd52b7b, 0xa5e9ec7501d523e4, -1181);
  (0x9a6bb0aa55653b2d, 0x47b233c92125366f, -1177);
  (0xc1069cd4eabe89f8, 0x999ec0bb696e840a, -1174);
  (0xf148440a256e2c76, 0xc00670ea43ca250d, -1171);
  (0x96cd2a865764dbca, 0x380406926a5e5728, -1167);
  (0xbc807527ed3e12bc, 0xc605083704f5ecf2, -1164);
  (0xeba09271e88d976b, 0xf7864a44c633682f, -1161);
  (0x93445b8731587ea3, 0x7ab3ee6afbe0211d, -1157);
  (0xb8157268fdae9e4c, 0x5960ea05bad82965, -1154);
  (0xe61acf033d1a45df, 0x6fb92487298e33be, -1151);
  (0x8fd0c16206306bab, 0xa5d3b6d479f8e057, -1147);
  (0xb3c4f1ba87bc8696, 0x8f48a4899877186c, -1144);
  (0xe0b62e2929aba83c, 0x331acdabfe94de87, -1141);
  (0x8c71dcd9ba0b4925, 0x9ff0c08b7f1d0b15, -1137);
  (0xaf8e5410288e1b6f, 0x07ecf0ae5ee44dda, -1134);
  (0xdb71e91432b1a24a, 0xc9e82cd9f69d6150, -1131);
  (0x892731ac9faf056e, 0xbe311c083a225cd2, -1127);
  (0xab70fe17c79ac6ca, 0x6dbd630a48aaf407, -1124);
  (0xd64d3d9db981787d, 0x092cbbccdad5b108, -1121);
  (0x85f0468293f0eb4e, 0x25bbf56008c58ea5, -1117);
  (0xa76c582338ed2621, 0xaf2af2b80af6f24e, -1114);
  (0xd1476e2c07286faa, 0x1af5af660db4aee2, -1111);
  (0x82cca4db847945ca, 0x50d98d9fc890ed4d, -1107);
  (0xa37fce126597973c, 0xe50ff107bab528a1, -1104);
  (0xcc5fc196fefd7d0c, 0x1e53ed49a96272c9, -1101);
  (0xff77b1fcbebcdc4f, 0x25e8e89c13bb0f7b, -1098);
  (0x9faacf3df73609b1, 0x77b191618c54e9ad, -1094);
  (0xc795830d75038c1d, 0xd59df5b9ef6a2418, -1091);
  (0xf97ae3d0d2446f25, 0x4b0573286b44ad1e, -1088);
  (0x9becce62836ac577, 0x4ee367f9430aec33, -1084);
  (0xc2e801fb244576d5, 0x229c41f793cda73f, -1081);
  (0xf3a20279ed56d48a, 0x6b43527578c1110f, -1078);
  (0x9845418c345644d6, 0x830a13896b78aaaa, -1074);
  (0xbe5691ef416bd60c, 0x23cc986bc656d554, -1071);
  (0xedec366b11c6cb8f, 0x2cbfbe86b7ec8aa9, -1068);
  (0x94b3a202eb1c3f39, 0x7bf7d71432f3d6aa, -1064);
  (0xb9e08a83a5e34f07, 0xdaf5ccd93fb0cc54, -1061);
  (0xe858ad248f5c22c9, 0xd1b3400f8f9cff69, -1058);
  (0x91376c36d99995be, 0x23100809b9c21fa2, -1054);
  (0xb58547448ffffb2d, 0xabd40a0c2832a78a, -1051);
  (0xe2e69915b3fff9f9, 0x16c90c8f323f516d, -1048);
  (0x8dd01fad907ffc3b, 0xae3da7d97f6792e4, -1044);
  (0xb1442798f49ffb4a, 0x99cd11cfdf41779d, -1041);
  (0xdd95317f31c7fa1d, 0x40405643d711d584, -1038);
  (0x8a7d3eef7f1cfc52, 0x482835ea666b2572, -1034);
  (0xad1c8eab5ee43b66, 0xda3243650005eecf, -1031);
  (0xd863b256369d4a40, 0x90bed43e40076a83, -1028);
  (0x873e4f75e2224e68, 0x5a7744a6e804a292, -1024);
  (0xa90de3535aaae202, 0x711515d0a205cb36, -1021);
  (0xd3515c2831559a83, 0x0d5a5b44ca873e04, -1018);
  (0x8412d9991ed58091, 0xe858790afe9486c2, -1014);
  (0xa5178fff668ae0b6, 0x626e974dbe39a873, -1011);
  (0xce5d73ff402d98e3, 0xfb0a3d212dc81290, -1008);
  (0x80fa687f881c7f8e, 0x7ce66634bc9d0b9a, -1004);
  (0xa139029f6a239f72, 0x1c1fffc1ebc44e80, -1001);
  (0xc987434744ac874e, 0xa327ffb266b56220, -998);
  (0xfbe9141915d7a922, 0x4bf1ff9f0062baa8, -995);
  (0x9d71ac8fada6c9b5, 0x6f773fc3603db4a9, -991);
  (0xc4ce17b399107c22, 0xcb550fb4384d21d4, -988);
  (0xf6019da07f549b2b, 0x7e2a53a146606a48, -985);
  (0x99c102844f94e0fb, 0x2eda7444cbfc426d, -981);
  (0xc0314325637a1939, 0xfa911155fefb5309, -978);
  (0xf03d93eebc589f88, 0x793555ab7eba27cb, -975);
  (0x96267c7535b763b5, 0x4bc1558b2f3458df, -971);
  (0xbbb01b9283253ca2, 0x9eb1aaedfb016f16, -968);
  (0xea9c227723ee8bcb, 0x465e15a979c1cadc, -965);
  (0x92a1958a7675175f, 0x0bfacd89ec191eca, -961);
  (0xb749faed14125d36, 0xcef980ec671f667c, -958);
  (0xe51c79a85916f484, 0x82b7e12780e7401b, -955);
  (0x8f31cc0937ae58d2, 0xd1b2ecb8b0908811, -951);
  (0xb2fe3f0b8599ef07, 0x861fa7e6dcb4aa15, -948);
  (0xdfbdcece67006ac9, 0x67a791e093e1d49a, -945);
  (0x8bd6a141006042bd, 0xe0c8bb2c5c6d24e0, -941);
  (0xaecc49914078536d, 0x58fae9f773886e19, -938);
  (0xda7f5bf590966848, 0xaf39a475506a899f, -935);
  (0x888f99797a5e012d, 0x6d8406c952429603, -931);
  (0xaab37fd7d8f58178, 0xc8e5087ba6d33b84, -928);
  (0xd5605fcdcf32e1d6, 0xfb1e4a9a90880a65, -925);
  (0x855c3be0a17fcd26, 0x5cf2eea09a55067f, -921);
  (0xa6b34ad8c9dfc06f, 0xf42faa48c0ea481f, -918);
  (0xd0601d8efc57b08b, 0xf13b94daf124da27, -915);
  (0x823c12795db6ce57, 0x76c53d08d6b70858, -911);
  (0xa2cb1717b52481ed, 0x54768c4b0c64ca6e, -908);
  (0xcb7ddcdda26da268, 0xa9942f5dcf7dfd0a, -905);
  (0xfe5d54150b090b02, 0xd3f93b35435d7c4c, -902);
  (0x9efa548d26e5a6e1, 0xc47bc5014a1a6db0, -898);
  (0xc6b8e9b0709f109a, 0x359ab6419ca1091b, -895);
  (0xf867241c8cc6d4c0, 0xc30163d203c94b62, -892);
  (0x9b407691d7fc44f8, 0x79e0de63425dcf1d, -888);
  (0xc21094364dfb5636, 0x985915fc12f542e5, -885);
  (0xf294b943e17a2bc4, 0x3e6f5b7b17b2939e, -882);
  (0x979cf3ca6cec5b5a, 0xa705992ceecf9c43, -878);
  (0xbd8430bd08277231, 0x50c6ff782a838353, -875);
  (0xece53cec4a314ebd, 0xa4f8bf5635246428, -872);
  (0x940f4613ae5ed136, 0x871b7795e136be99, -868);
  (0xb913179899f68584, 0x28e2557b59846e3f, -865);
  (0xe757dd7ec07426e5, 0x331aeada2fe589cf, -862);
  (0x9096ea6f3848984f, 0x3ff0d2c85def7622, -858);
  (0xb4bca50b065abe63, 0x0fed077a756b53aa, -855);
  (0xe1ebce4dc7f16dfb, 0xd3e8495912c62894, -852);
  (0x8d3360f09cf6e4bd, 0x64712dd7abbbd95d, -848);
  (0xb080392cc4349dec, 0xbd8d794d96aacfb4, -845);
  (0xdca04777f541c567, 0xecf0d7a0fc5583a1, -842);
  (0x89e42caaf9491b60, 0xf41686c49db57245, -838);
  (0xac5d37d5b79b6239, 0x311c2875c522ced6, -835);
  (0xd77485cb25823ac7, 0x7d633293366b828b, -832);
  (0x86a8d39ef77164bc, 0xae5dff9c02033197, -828);
  (0xa8530886b54dbdeb, 0xd9f57f830283fdfd, -825);
  (0xd267caa862a12d66, 0xd072df63c324fd7c, -822);
  (0x8380dea93da4bc60, 0x4247cb9e59f71e6d, -818);
  (0xa46116538d0deb78, 0x52d9be85f074e609, -815);
  (0xcd795be870516656, 0x67902e276c921f8b, -812);
  (0x806bd9714632dff6, 0x00ba1cd8a3db53b7, -808);
  (0xa086cfcd97bf97f3, 0x80e8a40eccd228a5, -805);
  (0xc8a883c0fdaf7df0, 0x6122cd128006b2ce, -802);
  (0xfad2a4b13d1b5d6c, 0x796b805720085f81, -799);
  (0x9cc3a6eec6311a63, 0xcbe3303674053bb1, -795);
  (0xc3f490aa77bd60fc, 0xbedbfc4411068a9d, -792);
  (0xf4f1b4d515acb93b, 0xee92fb5515482d44, -789);
  (0x991711052d8bf3c5, 0x751bdd152d4d1c4b, -785);
  (0xbf5cd54678eef0b6, 0xd262d45a78a0635d, -782);
  (0xef340a98172aace4, 0x86fb897116c87c35, -779);
  (0x9580869f0e7aac0e, 0xd45d35e6ae3d4da1, -775);
  (0xbae0a846d2195712, 0x8974836059cca109, -772);
  (0xe998d258869facd7, 0x2bd1a438703fc94b, -769);
  (0x91ff83775423cc06, 0x7b6306a34627ddcf, -765);
  (0xb67f6455292cbf08, 0x1a3bc84c17b1d543, -762);
  (0xe41f3d6a7377eeca, 0x20caba5f1d9e4a94, -759);
  (0x8e938662882af53e, 0x547eb47b7282ee9c, -755);
  (0xb23867fb2a35b28d, 0xe99e619a4f23aa43, -752);
  (0xdec681f9f4c31f31, 0x6405fa00e2ec94d4, -749);
  (0x8b3c113c38f9f37e, 0xde83bc408dd3dd05, -745);
  (0xae0b158b4738705e, 0x9624ab50b148d446, -742);
  (0xd98ddaee19068c76, 0x3badd624dd9b0957, -739);
  (0x87f8a8d4cfa417c9, 0xe54ca5d70a80e5d6, -735);
  (0xa9f6d30a038d1dbc, 0x5e9fcf4ccd211f4c, -732);
  (0xd47487cc8470652b, 0x7647c3200069671f, -729);
  (0x84c8d4dfd2c63f3b, 0x29ecd9f40041e073, -725);
  (0xa5fb0a17c777cf09, 0xf468107100525890, -722);
  (0xcf79cc9db955c2cc, 0x7182148d4066eeb4, -719);
  (0x81ac1fe293d599bf, 0xc6f14cd848405531, -715);
  (0xa21727db38cb002f, 0xb8ada00e5a506a7d, -712);
  (0xca9cf1d206fdc03b, 0xa6d90811f0e4851c, -709);
  (0xfd442e4688bd304a, 0x908f4a166d1da663, -706);
  (0x9e4a9cec15763e2e, 0x9a598e4e043287fe, -702);
  (0xc5dd44271ad3cdba, 0x40eff1e1853f29fe, -699);
  (0xf7549530e188c128, 0xd12bee59e68ef47d, -696);
  (0x9a94dd3e8cf578b9, 0x82bb74f8301958ce, -692);
  (0xc13a148e3032d6e7, 0xe36a52363c1faf02, -689);
  (0xf18899b1bc3f8ca1, 0xdc44e6c3cb279ac2, -686);
  (0x96f5600f15a7b7e5, 0x29ab103a5ef8c0b9, -682);
  (0xbcb2b812db11a5de, 0x7415d448f6b6f0e8, -679);
  (0xebdf661791d60f56, 0x111b495b3464ad21, -676);
  (0x936b9fcebb25c995, 0xcab10dd900beec35, -672);
  (0xb84687c269ef3bfb, 0x3d5d514f40eea742, -669);
  (0xe65829b3046b0afa, 0x0cb4a5a3112a5113, -666);
  (0x8ff71a0fe2c2e6dc, 0x47f0e785eaba72ac, -662);
  (0xb3f4e093db73a093, 0x59ed216765690f57, -659);
  (0xe0f218b8d25088b8, 0x306869c13ec3532c, -656);
  (0x8c974f7383725573, 0x1e414218c73a13fc, -652);
  (0xafbd2350644eeacf, 0xe5d1929ef90898fb, -649);
  (0xdbac6c247d62a583, 0xdf45f746b74abf39, -646);
  (0x894bc396ce5da772, 0x6b8bba8c328eb784, -642);
  (0xab9eb47c81f5114f, 0x066ea92f3f326565, -639);
  (0xd686619ba27255a2, 0xc80a537b0efefebe, -636);
  (0x8613fd0145877585, 0xbd06742ce95f5f37, -632);
  (0xa798fc4196e952e7, 0x2c48113823b73704, -629);
  (0xd17f3b51fca3a7a0, 0xf75a15862ca504c5, -626);
  (0x82ef85133de648c4, 0x9a984d73dbe722fb, -622);
  (0xa3ab66580d5fdaf5, 0xc13e60d0d2e0ebba, -619);
  (0xcc963fee10b7d1b3, 0x318df905079926a9, -616);
  (0xffbbcfe994e5c61f, 0xfdf17746497f7053, -613);
  (0x9fd561f1fd0f9bd3, 0xfeb6ea8bedefa634, -609);
  (0xc7caba6e7c5382c8, 0xfe64a52ee96b8fc1, -606);
  (0xf9bd690a1b68637b, 0x3dfdce7aa3c673b1, -603);
  (0x9c1661a651213e2d, 0x06bea10ca65c084f, -599);
  (0xc31bfa0fe5698db8, 0x486e494fcff30a62, -596);
  (0xf3e2f893dec3f126, 0x5a89dba3c3efccfb, -593);
  (0x986ddb5c6b3a76b7, 0xf89629465a75e01d, -589);
  (0xbe89523386091465, 0xf6bbb397f1135824, -586);
  (0xee2ba6c0678b597f, 0x746aa07ded582e2d, -583);
  (0x94db483840b717ef, 0xa8c2a44eb4571cdc, -579);
  (0xba121a4650e4ddeb, 0x92f34d62616ce413, -576);
  (0xe896a0d7e51e1566, 0x77b020baf9c81d18, -573);
  (0x915e2486ef32cd60, 0x0ace1474dc1d122f, -569);
  (0xb5b5ada8aaff80b8, 0x0d819992132456bb, -566);
  (0xe3231912d5bf60e6, 0x10e1fff697ed6c69, -563);
  (0x8df5efabc5979c8f, 0xca8d3ffa1ef463c2, -559);
  (0xb1736b96b6fd83b3, 0xbd308ff8a6b17cb2, -556);
  (0xddd0467c64bce4a0, 0xac7cb3f6d05ddbdf, -553);
  (0x8aa22c0dbef60ee4, 0x6bcdf07a423aa96b, -549);
  (0xad4ab7112eb3929d, 0x86c16c98d2c953c6, -546);
  (0xd89d64d57a607744, 0xe871c7bf077ba8b8, -543);
  (0x87625f056c7c4a8b, 0x11471cd764ad4973, -539);
  (0xa93af6c6c79b5d2d, 0xd598e40d3dd89bcf, -536);
  (0xd389b47879823479, 0x4aff1d108d4ec2c3, -533);
  (0x843610cb4bf160cb, 0xcedf722a585139ba, -529);
  (0xa54394fe1eedb8fe, 0xc2974eb4ee658829, -526);
  (0xce947a3da6a9273e, 0x733d226229feea33, -523);
  (0x811ccc668829b887, 0x0806357d5a3f5260, -519);
  (0xa163ff802a3426a8, 0xca07c2dcb0cf26f8, -516);
  (0xc9bcff6034c13052, 0xfc89b393dd02f0b6, -513);
  (0xfc2c3f3841f17c67, 0xbbac2078d443ace3, -510);
  (0x9d9ba7832936edc0, 0xd54b944b84aa4c0e, -506);
  (0xc5029163f384a931, 0x0a9e795e65d4df11, -503);
  (0xf64335bcf065d37d, 0x4d4617b5ff4a16d6, -500);
  (0x99ea0196163fa42e, 0x504bced1bf8e4e46, -496);
  (0xc06481fb9bcf8d39, 0xe45ec2862f71e1d7, -493);
  (0xf07da27a82c37088, 0x5d767327bb4e5a4d, -490);
  (0x964e858c91ba2655, 0x3a6a07f8d510f870, -486);
  (0xbbe226efb628afea, 0x890489f70a55368c, -483);
  (0xeadab0aba3b2dbe5, 0x2b45ac74ccea842f, -480);
  (0x92c8ae6b464fc96f, 0x3b0b8bc90012929d, -476);
  (0xb77ada0617e3bbcb, 0x09ce6ebb40173745, -473);
  (0xe55990879ddcaabd, 0xcc420a6a101d0516, -470);
  (0x8f57fa54c2a9eab6, 0x9fa946824a12232e, -466);
  (0xb32df8e9f3546564, 0x47939822dc96abf9, -463);
  (0xdff9772470297ebd, 0x59787e2b93bc56f7, -460);
  (0x8bfbea76c619ef36, 0x57eb4edb3c55b65b, -456);
  (0xaefae51477a06b03, 0xede622920b6b23f1, -453);
  (0xdab99e59958885c4, 0xe95fab368e45eced, -450);
  (0x88b402f7fd75539b, 0x11dbcb0218ebb414, -446);
  (0xaae103b5fcd2a881, 0xd652bdc29f26a11a, -443);
  (0xd59944a37c0752a2, 0x4be76d3346f04960, -440);
  (0x857fcae62d8493a5, 0x6f70a4400c562ddc, -436);
  (0xa6dfbd9fb8e5b88e, 0xcb4ccd500f6bb953, -433);
  (0xd097ad07a71f26b2, 0x7e2000a41346a7a8, -430);
  (0x825ecc24c873782f, 0x8ed400668c0c28c9, -426);
  (0xa2f67f2dfa90563b, 0x728900802f0f32fb, -423);
  (0xcbb41ef979346bca, 0x4f2b40a03ad2ffba, -420);
  (0xfea126b7d78186bc, 0xe2f610c84987bfa8, -417);
  (0x9f24b832e6b0f436, 0x0dd9ca7d2df4d7c9, -413);
  (0xc6ede63fa05d3143, 0x91503d1c79720dbb, -410);
  (0xf8a95fcf88747d94, 0x75a44c6397ce912a, -407);
  (0x9b69dbe1b548ce7c, 0xc986afbe3ee11aba, -403);
  (0xc24452da229b021b, 0xfbe85badce996169, -400);
  (0xf2d56790ab41c2a2, 0xfae27299423fb9c3, -397);
  (0x97c560ba6b0919a5, 0xdccd879fc967d41a, -393);
  (0xbdb6b8e905cb600f, 0x5400e987bbc1c921, -390);
  (0xed246723473e3813, 0x290123e9aab23b69, -387);
  (0x9436c0760c86e30b, 0xf9a0b6720aaf6521, -383);
  (0xb94470938fa89bce, 0xf808e40e8d5b3e6a, -380);
  (0xe7958cb87392c2c2, 0xb60b1d1230b20e04, -377);
  (0x90bd77f3483bb9b9, 0xb1c6f22b5e6f48c3, -373);
  (0xb4ecd5f01a4aa828, 0x1e38aeb6360b1af3, -370);
  (0xe2280b6c20dd5232, 0x25c6da63c38de1b0, -367);
  (0x8d590723948a535f, 0x579c487e5a38ad0e, -363);
  (0xb0af48ec79ace837, 0x2d835a9df0c6d852, -360);
  (0xdcdb1b2798182244, 0xf8e431456cf88e66, -357);
  (0x8a08f0f8bf0f156b, 0x1b8e9ecb641b5900, -353);
  (0xac8b2d36eed2dac5, 0xe272467e3d222f40, -350);
  (0xd7adf884aa879177, 0x5b0ed81dcc6abb10, -347);
  (0x86ccbb52ea94baea, 0x98e947129fc2b4ea, -343);
  (0xa87fea27a539e9a5, 0x3f2398d747b36224, -340);
  (0xd29fe4b18e88640e, 0x8eec7f0d19a03aad, -337);
  (0x83a3eeeef9153e89, 0x1953cf68300424ac, -333);
  (0xa48ceaaab75a8e2b, 0x5fa8c3423c052dd7, -330);
  (0xcdb02555653131b6, 0x3792f412cb06794d, -327);
  (0x808e17555f3ebf11, 0xe2bbd88bbee40bd0, -323);
  (0xa0b19d2ab70e6ed6, 0x5b6aceaeae9d0ec4, -320);
  (0xc8de047564d20a8b, 0xf245825a5a445275, -317);
  (0xfb158592be068d2e, 0xeed6e2f0f0d56713, -314);
  (0x9ced737bb6c4183d, 0x55464dd69685606c, -310);
  (0xc428d05aa4751e4c, 0xaa97e14c3c26b887, -307);
  (0xf53304714d9265df, 0xd53dd99f4b3066a8, -304);
  (0x993fe2c6d07b7fab, 0xe546a8038efe4029, -300);
  (0xbf8fdb78849a5f96, 0xde98520472bdd033, -297);
  (0xef73d256a5c0f77c, 0x963e66858f6d4440, -294);
  (0x95a8637627989aad, 0xdde7001379a44aa8, -290);
  (0xbb127c53b17ec159, 0x5560c018580d5d52, -287);
  (0xe9d71b689dde71af, 0xaab8f01e6e10b4a7, -284);
  (0x9226712162ab070d, 0xcab3961304ca70e8, -280);
  (0xb6b00d69bb55c8d1, 0x3d607b97c5fd0d22, -277);
  (0xe45c10c42a2b3b05, 0x8cb89a7db77c506b, -274);
  (0x8eb98a7a9a5b04e3, 0x77f3608e92adb243, -270);
  (0xb267ed1940f1c61c, 0x55f038b237591ed3, -267);
  (0xdf01e85f912e37a3, 0x6b6c46dec52f6688, -264);
  (0x8b61313bbabce2c6, 0x2323ac4b3b3da015, -260);
  (0xae397d8aa96c1b77, 0xabec975e0a0d081b, -257);
  (0xd9c7dced53c72255, 0x96e7bd358c904a21, -254);
  (0x881cea14545c7575, 0x7e50d64177da2e55, -250);
  (0xaa242499697392d2, 0xdde50bd1d5d0b9ea, -247);
  (0xd4ad2dbfc3d07787, 0x955e4ec64b44e864, -244);
  (0x84ec3c97da624ab4, 0xbd5af13bef0b113f, -240);
  (0xa6274bbdd0fadd61, 0xecb1ad8aeacdd58e, -237);
  (0xcfb11ead453994ba, 0x67de18eda5814af2, -234);
  (0x81ceb32c4b43fcf4, 0x80eacf948770ced7, -230);
  (0xa2425ff75e14fc31, 0xa1258379a94d028d, -227);
  (0xcad2f7f5359a3b3e, 0x096ee45813a04330, -224);
  (0xfd87b5f28300ca0d, 0x8bca9d6e188853fc, -221);
  (0x9e74d1b791e07e48, 0x775ea264cf55347e, -217);
  (0xc612062576589dda, 0x95364afe032a819d, -214);
  (0xf79687aed3eec551, 0x3a83ddbd83f52205, -211);
  (0x9abe14cd44753b52, 0xc4926a9672793543, -207);
  (0xc16d9a0095928a27, 0x75b7053c0f178294, -204);
  (0xf1c90080baf72cb1, 0x5324c68b12dd6338, -201);
  (0x971da05074da7bee, 0xd3f6fc16ebca5e03, -197);
  (0xbce5086492111aea, 0x88f4bb1ca6bcf584, -194);
  (0xec1e4a7db69561a5, 0x2b31e9e3d06c32e5, -191);
  (0x9392ee8e921d5d07, 0x3aff322e62439fcf, -187);
  (0xb877aa3236a4b449, 0x09befeb9fad487c3, -184);
  (0xe69594bec44de15b, 0x4c2ebe687989a9b4, -181);
  (0x901d7cf73ab0acd9, 0x0f9d37014bf60a10, -177);
  (0xb424dc35095cd80f, 0x538484c19ef38c94, -174);
  (0xe12e13424bb40e13, 0x2865a5f206b06fba, -171);
  (0x8cbccc096f5088cb, 0xf93f87b7442e45d4, -167);
  (0xafebff0bcb24aafe, 0xf78f69a51539d749, -164);
  (0xdbe6fecebdedd5be, 0xb573440e5a884d1b, -161);
  (0x89705f4136b4a597, 0x31680a88f8953031, -157);
  (0xabcc77118461cefc, 0xfdc20d2b36ba7c3d, -154);
  (0xd6bf94d5e57a42bc, 0x3d32907604691b4d, -151);
  (0x8637bd05af6c69b5, 0xa63f9a49c2c1b110, -147);
  (0xa7c5ac471b478423, 0x0fcf80dc33721d54, -144);
  (0xd1b71758e219652b, 0xd3c36113404ea4a9, -141);
  (0x83126e978d4fdf3b, 0x645a1cac083126e9, -137);
  (0xa3d70a3d70a3d70a, 0x3d70a3d70a3d70a4, -134);
  (0xcccccccccccccccc, 0xcccccccccccccccd, -131);
  (0x8000000000000000, 0x0000000000000000, -127);
  (0xa000000000000000, 0x0000000000000000, -124);
  (0xc800000000000000, 0x0000000000000000, -121);
  (0xfa00000000000000, 0x0000000000000000, -118);
  (0x9c40000000000000, 0x0000000000000000, -114);
  (0xc350000000000000, 0x0000000000000000, -111);
  (0xf424000000000000, 0x0000000000000000, -108);
  (0x9896800000000000, 0x0000000000000000, -104);
  (0xbebc200000000000, 0x0000000000000000, -101);
  (0xee6b280000000000, 0x0000000000000000, -98);
  (0x9502f90000000000, 0x0000000000000000, -94);
  (0xba43b74000000000, 0x0000000000000000, -91);
  (0xe8d4a51000000000, 0x0000000000000000, -88);
  (0x9184e72a00000000, 0x0000000000000000, -84);
  (0xb5e620f480000000, 0x0000000000000000, -81);
  (0xe35fa931a0000000, 0x0000000000000000, -78);
  (0x8e1bc9bf04000000, 0x0000000000000000, -74);
  (0xb1a2bc2ec5000000, 0x0000000000000000, -71);
  (0xde0b6b3a76400000, 0x0000000000000000, -68);
  (0x8ac7230489e80000, 0x0000000000000000, -64);
  (0xad78ebc5ac620000, 0x0000000000000000, -61);
  (0xd8d726b7177a8000, 0x0000000000000000, -58);
  (0x878678326eac9000, 0x0000000000000000, -54);
  (0xa968163f0a57b400, 0x0000000000000000, -51);
  (0xd3c21bcecceda100, 0x0000000000000000, -48);
  (0x84595161401484a0, 0x0000000000000000, -44);
  (0xa56fa5b99019a5c8, 0x0000000000000000, -41);
  (0xcecb8f27f4200f3a, 0x0000000000000000, -38);
  (0x813f3978f8940984, 0x4000000000000000, -34);
  (0xa18f07d736b90be5, 0x5000000000000000, -31);
  (0xc9f2c9cd04674ede, 0xa400000000000000, -28);
  (0xfc6f7c4045812296, 0x4d00000000000000, -25);
  (0x9dc5ada82b70b59d, 0xf020000000000000, -21);
  (0xc5371912364ce305, 0x6c28000000000000, -18);
  (0xf684df56c3e01bc6, 0xc732000000000000, -15);
  (0x9a130b963a6c115c, 0x3c7f400000000000, -11);
  (0xc097ce7bc90715b3, 0x4b9f100000000000, -8);
  (0xf0bdc21abb48db20, 0x1e86d40000000000, -5);
  (0x96769950b50d88f4, 0x1314448000000000, -1);
  (0xbc143fa4e250eb31, 0x17d955a000000000, 2);
  (0xeb194f8e1ae525fd, 0x5dcfab0800000000, 5);
  (0x92efd1b8d0cf37be, 0x5aa1cae500000000, 9);
  (0xb7abc627050305ad, 0xf14a3d9e40000000, 12);
  (0xe596b7b0c643c719, 0x6d9ccd05d0000000, 15);
  (0x8f7e32ce7bea5c6f, 0xe4820023a2000000, 19);
  (0xb35dbf821ae4f38b, 0xdda2802c8a800000, 22);
  (0xe0352f62a19e306e, 0xd50b2037ad200000, 25);
  (0x8c213d9da502de45, 0x4526f422cc340000, 29);
  (0xaf298d050e4395d6, 0x9670b12b7f410000, 32);
  (0xdaf3f04651d47b4c, 0x3c0cdd765f114000, 35);
  (0x88d8762bf324cd0f, 0xa5880a69fb6ac800, 39);
  (0xab0e93b6efee0053, 0x8eea0d047a457a00, 42);
  (0xd5d238a4abe98068, 0x72a4904598d6d880, 45);
  (0x85a36366eb71f041, 0x47a6da2b7f864750, 49);
  (0xa70c3c40a64e6c51, 0x999090b65f67d924, 52);
  (0xd0cf4b50cfe20765, 0xfff4b4e3f741cf6d, 55);
  (0x82818f1281ed449f, 0xbff8f10e7a8921a4, 59);
  (0xa321f2d7226895c7, 0xaff72d52192b6a0d, 62);
  (0xcbea6f8ceb02bb39, 0x9bf4f8a69f764490, 65);
  (0xfee50b7025c36a08, 0x02f236d04753d5b5, 68);
  (0x9f4f2726179a2245, 0x01d762422c946591, 72);
  (0xc722f0ef9d80aad6, 0x424d3ad2b7b97ef5, 75);
  (0xf8ebad2b84e0d58b, 0xd2e0898765a7deb2, 78);
  (0x9b934c3b330c8577, 0x63cc55f49f88eb2f, 82);
  (0xc2781f49ffcfa6d5, 0x3cbf6b71c76b25fb, 85);
  (0xf316271c7fc3908a, 0x8bef464e3945ef7a, 88);
  (0x97edd871cfda3a56, 0x97758bf0e3cbb5ac, 92);
  (0xbde94e8e43d0c8ec, 0x3d52eeed1cbea317, 95);
  (0xed63a231d4c4fb27, 0x4ca7aaa863ee4bdd, 98);
  (0x945e455f24fb1cf8, 0x8fe8caa93e74ef6a, 102);
  (0xb975d6b6ee39e436, 0xb3e2fd538e122b45, 105);
  (0xe7d34c64a9c85d44, 0x60dbbca87196b616, 108);
  (0x90e40fbeea1d3a4a, 0xbc8955e946fe31ce, 112);
  (0xb51d13aea4a488dd, 0x6babab6398bdbe41, 115);
  (0xe264589a4dcdab14, 0xc696963c7eed2dd2, 118);
  (0x8d7eb76070a08aec, 0xfc1e1de5cf543ca3, 122);
  (0xb0de65388cc8ada8, 0x3b25a55f43294bcc, 125);
  (0xdd15fe86affad912, 0x49ef0eb713f39ebf, 128);
  (0x8a2dbf142dfcc7ab, 0x6e3569326c784337, 132);
  (0xacb92ed9397bf996, 0x49c2c37f07965405, 135);
  (0xd7e77a8f87daf7fb, 0xdc33745ec97be906, 138);
  (0x86f0ac99b4e8dafd, 0x69a028bb3ded71a4, 142);
  (0xa8acd7c0222311bc, 0xc40832ea0d68ce0d, 145);
  (0xd2d80db02aabd62b, 0xf50a3fa490c30190, 148);
  (0x83c7088e1aab65db, 0x792667c6da79e0fa, 152);
  (0xa4b8cab1a1563f52, 0x577001b891185939, 155);
  (0xcde6fd5e09abcf26, 0xed4c0226b55e6f87, 158);
  (0x80b05e5ac60b6178, 0x544f8158315b05b4, 162);
  (0xa0dc75f1778e39d6, 0x696361ae3db1c721, 165);
  (0xc913936dd571c84c, 0x03bc3a19cd1e38ea, 168);
  (0xfb5878494ace3a5f, 0x04ab48a04065c724, 171);
  (0x9d174b2dcec0e47b, 0x62eb0d64283f9c76, 175);
  (0xc45d1df942711d9a, 0x3ba5d0bd324f8394, 178);
  (0xf5746577930d6500, 0xca8f44ec7ee36479, 181);
  (0x9968bf6abbe85f20, 0x7e998b13cf4e1ecc, 185);
  (0xbfc2ef456ae276e8, 0x9e3fedd8c321a67f, 188);
  (0xefb3ab16c59b14a2, 0xc5cfe94ef3ea101e, 191);
  (0x95d04aee3b80ece5, 0xbba1f1d158724a13, 195);
  (0xbb445da9ca61281f, 0x2a8a6e45ae8edc98, 198);
  (0xea1575143cf97226, 0xf52d09d71a3293be, 201);
  (0x924d692ca61be758, 0x593c2626705f9c56, 205);
  (0xb6e0c377cfa2e12e, 0x6f8b2fb00c77836c, 208);
  (0xe498f455c38b997a, 0x0b6dfb9c0f956447, 211);
  (0x8edf98b59a373fec, 0x4724bd4189bd5eac, 215);
  (0xb2977ee300c50fe7, 0x58edec91ec2cb658, 218);
  (0xdf3d5e9bc0f653e1, 0x2f2967b66737e3ed, 221);
  (0x8b865b215899f46c, 0xbd79e0d20082ee74, 225);
  (0xae67f1e9aec07187, 0xecd8590680a3aa11, 228);
  (0xda01ee641a708de9, 0xe80e6f4820cc9496, 231);
  (0x884134fe908658b2, 0x3109058d147fdcde, 235);
  (0xaa51823e34a7eede, 0xbd4b46f0599fd415, 238);
  (0xd4e5e2cdc1d1ea96, 0x6c9e18ac7007c91a, 241);
  (0x850fadc09923329e, 0x03e2cf6bc604ddb0, 245);
  (0xa6539930bf6bff45, 0x84db8346b786151d, 248);
  (0xcfe87f7cef46ff16, 0xe612641865679a64, 251);
  (0x81f14fae158c5f6e, 0x4fcb7e8f3f60c07e, 255);
  (0xa26da3999aef7749, 0xe3be5e330f38f09e, 258);
  (0xcb090c8001ab551c, 0x5cadf5bfd3072cc5, 261);
  (0xfdcb4fa002162a63, 0x73d9732fc7c8f7f7, 264);
  (0x9e9f11c4014dda7e, 0x2867e7fddcdd9afa, 268);
  (0xc646d63501a1511d, 0xb281e1fd541501b9, 271);
  (0xf7d88bc24209a565, 0x1f225a7ca91a4227, 274);
  (0x9ae757596946075f, 0x3375788de9b06958, 278);
  (0xc1a12d2fc3978937, 0x0052d6b1641c83ae, 281);
  (0xf209787bb47d6b84, 0xc0678c5dbd23a49a, 284);
  (0x9745eb4d50ce6332, 0xf840b7ba963646e0, 288);
  (0xbd176620a501fbff, 0xb650e5a93bc3d898, 291);
  (0xec5d3fa8ce427aff, 0xa3e51f138ab4cebe, 294);
  (0x93ba47c980e98cdf, 0xc66f336c36b10137, 298);
  (0xb8a8d9bbe123f017, 0xb80b0047445d4185, 301);
  (0xe6d3102ad96cec1d, 0xa60dc059157491e6, 304);
  (0x9043ea1ac7e41392, 0x87c89837ad68db30, 308);
  (0xb454e4a179dd1877, 0x29babe4598c311fc, 311);
  (0xe16a1dc9d8545e94, 0xf4296dd6fef3d67b, 314);
  (0x8ce2529e2734bb1d, 0x1899e4a65f58660d, 318);
  (0xb01ae745b101e9e4, 0x5ec05dcff72e7f90, 321);
  (0xdc21a1171d42645d, 0x76707543f4fa1f74, 324);
  (0x899504ae72497eba, 0x6a06494a791c53a8, 328);
  (0xabfa45da0edbde69, 0x0487db9d17636892, 331);
  (0xd6f8d7509292d603, 0x45a9d2845d3c42b7, 334);
  (0x865b86925b9bc5c2, 0x0b8a2392ba45a9b2, 338);
  (0xa7f26836f282b732, 0x8e6cac7768d7141f, 341);
  (0xd1ef0244af2364ff, 0x3207d795430cd927, 344);
  (0x8335616aed761f1f, 0x7f44e6bd49e807b8, 348);
  (0xa402b9c5a8d3a6e7, 0x5f16206c9c6209a6, 351);
  (0xcd036837130890a1, 0x36dba887c37a8c10, 354);
  (0x802221226be55a64, 0xc2494954da2c978a, 358);
  (0xa02aa96b06deb0fd, 0xf2db9baa10b7bd6c, 361);
  (0xc83553c5c8965d3d, 0x6f92829494e5acc7, 364);
  (0xfa42a8b73abbf48c, 0xcb772339ba1f17f9, 367);
  (0x9c69a97284b578d7, 0xff2a760414536efc, 371);
  (0xc38413cf25e2d70d, 0xfef5138519684abb, 374);
  (0xf46518c2ef5b8cd1, 0x7eb258665fc25d69, 377);
  (0x98bf2f79d5993802, 0xef2f773ffbd97a62, 381);
  (0xbeeefb584aff8603, 0xaafb550ffacfd8fa, 384);
  (0xeeaaba2e5dbf6784, 0x95ba2a53f983cf39, 387);
  (0x952ab45cfa97a0b2, 0xdd945a747bf26184, 391);
  (0xba756174393d88df, 0x94f971119aeef9e4, 394);
  (0xe912b9d1478ceb17, 0x7a37cd5601aab85e, 397);
  (0x91abb422ccb812ee, 0xac62e055c10ab33b, 401);
  (0xb616a12b7fe617aa, 0x577b986b314d6009, 404);
  (0xe39c49765fdf9d94, 0xed5a7e85fda0b80b, 407);
  (0x8e41ade9fbebc27d, 0x14588f13be847307, 411);
  (0xb1d219647ae6b31c, 0x596eb2d8ae258fc9, 414);
  (0xde469fbd99a05fe3, 0x6fca5f8ed9aef3bb, 417);
  (0x8aec23d680043bee, 0x25de7bb9480d5855, 421);
  (0xada72ccc20054ae9, 0xaf561aa79a10ae6a, 424);
  (0xd910f7ff28069da4, 0x1b2ba1518094da05, 427);
  (0x87aa9aff79042286, 0x90fb44d2f05d0843, 431);
  (0xa99541bf57452b28, 0x353a1607ac744a54, 434);
  (0xd3fa922f2d1675f2, 0x42889b8997915ce9, 437);
  (0x847c9b5d7c2e09b7, 0x69956135febada11, 441);
  (0xa59bc234db398c25, 0x43fab9837e699096, 444);
  (0xcf02b2c21207ef2e, 0x94f967e45e03f4bb, 447);
  (0x8161afb94b44f57d, 0x1d1be0eebac278f5, 451);
  (0xa1ba1ba79e1632dc, 0x6462d92a69731732, 454);
  (0xca28a291859bbf93, 0x7d7b8f7503cfdcff, 457);
  (0xfcb2cb35e702af78, 0x5cda735244c3d43f, 460);
  (0x9defbf01b061adab, 0x3a0888136afa64a7, 464);
  (0xc56baec21c7a1916, 0x088aaa1845b8fdd1, 467);
  (0xf6c69a72a3989f5b, 0x8aad549e57273d45, 470);
  (0x9a3c2087a63f6399, 0x36ac54e2f678864b, 474);
  (0xc0cb28a98fcf3c7f, 0x84576a1bb416a7de, 477);
  (0xf0fdf2d3f3c30b9f, 0x656d44a2a11c51d5, 480);
  (0x969eb7c47859e743, 0x9f644ae5a4b1b325, 484);
  (0xbc4665b596706114, 0x873d5d9f0dde1fef, 487);
  (0xeb57ff22fc0c7959, 0xa90cb506d155a7ea, 490);
  (0x9316ff75dd87cbd8, 0x09a7f12442d588f3, 494);
  (0xb7dcbf5354e9bece, 0x0c11ed6d538aeb2f, 497);
  (0xe5d3ef282a242e81, 0x8f1668c8a86da5fb, 500);
  (0x8fa475791a569d10, 0xf96e017d694487bd, 504);
  (0xb38d92d760ec4455, 0x37c981dcc395a9ac, 507);
  (0xe070f78d3927556a, 0x85bbe253f47b1417, 510);
  (0x8c469ab843b89562, 0x93956d7478ccec8e, 514);
  (0xaf58416654a6babb, 0x387ac8d1970027b2, 517);
  (0xdb2e51bfe9d0696a, 0x06997b05fcc0319f, 520);
  (0x88fcf317f22241e2, 0x441fece3bdf81f03, 524);
  (0xab3c2fddeeaad25a, 0xd527e81cad7626c4, 527);
  (0xd60b3bd56a5586f1, 0x8a71e223d8d3b075, 530);
  (0x85c7056562757456, 0xf6872d5667844e49, 534);
  (0xa738c6bebb12d16c, 0xb428f8ac016561db, 537);
  (0xd106f86e69d785c7, 0xe13336d701beba52, 540);
  (0x82a45b450226b39c, 0xecc0024661173473, 544);
  (0xa34d721642b06084, 0x27f002d7f95d0190, 547);
  (0xcc20ce9bd35c78a5, 0x31ec038df7b441f4, 550);
  (0xff290242c83396ce, 0x7e67047175a15271, 553);
  (0x9f79a169bd203e41, 0x0f0062c6e984d387, 557);
  (0xc75809c42c684dd1, 0x52c07b78a3e60868, 560);
  (0xf92e0c3537826145, 0xa7709a56ccdf8a83, 563);
  (0x9bbcc7a142b17ccb, 0x88a66076400bb692, 567);
  (0xc2abf989935ddbfe, 0x6acff893d00ea436, 570);
  (0xf356f7ebf83552fe, 0x0583f6b8c4124d43, 573);
  (0x98165af37b2153de, 0xc3727a337a8b704a, 577);
  (0xbe1bf1b059e9a8d6, 0x744f18c0592e4c5d, 580);
  (0xeda2ee1c7064130c, 0x1162def06f79df74, 583);
  (0x9485d4d1c63e8be7, 0x8addcb5645ac2ba8, 587);
  (0xb9a74a0637ce2ee1, 0x6d953e2bd7173693, 590);
  (0xe8111c87c5c1ba99, 0xc8fa8db6ccdd0437, 593);
  (0x910ab1d4db9914a0, 0x1d9c9892400a22a2, 597);
  (0xb54d5e4a127f59c8, 0x2503beb6d00cab4b, 600);
  (0xe2a0b5dc971f303a, 0x2e44ae64840fd61e, 603);
  (0x8da471a9de737e24, 0x5ceaecfed289e5d3, 607);
  (0xb10d8e1456105dad, 0x7425a83e872c5f47, 610);
  (0xdd50f1996b947518, 0xd12f124e28f77719, 613);
  (0x8a5296ffe33cc92f, 0x82bd6b70d99aaa70, 617);
  (0xace73cbfdc0bfb7b, 0x636cc64d1001550c, 620);
  (0xd8210befd30efa5a, 0x3c47f7e05401aa4f, 623);
  (0x8714a775e3e95c78, 0x65acfaec34810a71, 627);
  (0xa8d9d1535ce3b396, 0x7f1839a741a14d0d, 630);
  (0xd31045a8341ca07c, 0x1ede48111209a051, 633);
  (0x83ea2b892091e44d, 0x934aed0aab460432, 637);
  (0xa4e4b66b68b65d60, 0xf81da84d5617853f, 640);
  (0xce1de40642e3f4b9, 0x36251260ab9d668f, 643);
  (0x80d2ae83e9ce78f3, 0xc1d72b7c6b426019, 647);
  (0xa1075a24e4421730, 0xb24cf65b8612f820, 650);
  (0xc94930ae1d529cfc, 0xdee033f26797b628, 653);
  (0xfb9b7cd9a4a7443c, 0x169840ef017da3b1, 656);
  (0x9d412e0806e88aa5, 0x8e1f289560ee864f, 660);
  (0xc491798a08a2ad4e, 0xf1a6f2bab92a27e3, 663);
  (0xf5b5d7ec8acb58a2, 0xae10af696774b1db, 666);
  (0x9991a6f3d6bf1765, 0xacca6da1e0a8ef29, 670);
  (0xbff610b0cc6edd3f, 0x17fd090a58d32af3, 673);
  (0xeff394dcff8a948e, 0xddfc4b4cef07f5b0, 676);
  (0x95f83d0a1fb69cd9, 0x4abdaf101564f98e, 680);
  (0xbb764c4ca7a4440f, 0x9d6d1ad41abe37f2, 683);
  (0xea53df5fd18d5513, 0x84c86189216dc5ee, 686);
  (0x92746b9be2f8552c, 0x32fd3cf5b4e49bb5, 690);
  (0xb7118682dbb66a77, 0x3fbc8c33221dc2a2, 693);
  (0xe4d5e82392a40515, 0x0fabaf3feaa5334a, 696);
  (0x8f05b1163ba6832d, 0x29cb4d87f2a7400e, 700);
  (0xb2c71d5bca9023f8, 0x743e20e9ef511012, 703);
  (0xdf78e4b2bd342cf6, 0x914da9246b255417, 706);
  (0x8bab8eefb6409c1a, 0x1ad089b6c2f7548e, 710);
  (0xae9672aba3d0c320, 0xa184ac2473b529b2, 713);
  (0xda3c0f568cc4f3e8, 0xc9e5d72d90a2741e, 716);
  (0x8865899617fb1871, 0x7e2fa67c7a658893, 720);
  (0xaa7eebfb9df9de8d, 0xddbb901b98feeab8, 723);
  (0xd51ea6fa85785631, 0x552a74227f3ea565, 726);
  (0x8533285c936b35de, 0xd53a88958f87275f, 730);
  (0xa67ff273b8460356, 0x8a892abaf368f137, 733);
  (0xd01fef10a657842c, 0x2d2b7569b0432d85, 736);
  (0x8213f56a67f6b29b, 0x9c3b29620e29fc73, 740);
  (0xa298f2c501f45f42, 0x8349f3ba91b47b90, 743);
  (0xcb3f2f7642717713, 0x241c70a936219a74, 746);
  (0xfe0efb53d30dd4d7, 0xed238cd383aa0111, 749);
  (0x9ec95d1463e8a506, 0xf4363804324a40ab, 753);
  (0xc67bb4597ce2ce48, 0xb143c6053edcd0d5, 756);
  (0xf81aa16fdc1b81da, 0xdd94b7868e94050a, 759);
  (0x9b10a4e5e9913128, 0xca7cf2b4191c8327, 763);
  (0xc1d4ce1f63f57d72, 0xfd1c2f611f63a3f0, 766);
  (0xf24a01a73cf2dccf, 0xbc633b39673c8cec, 769);
  (0x976e41088617ca01, 0xd5be0503e085d814, 773);
  (0xbd49d14aa79dbc82, 0x4b2d8644d8a74e19, 776);
  (0xec9c459d51852ba2, 0xddf8e7d60ed1219f, 779);
  (0x93e1ab8252f33b45, 0xcabb90e5c942b503, 783);
  (0xb8da1662e7b00a17, 0x3d6a751f3b936244, 786);
  (0xe7109bfba19c0c9d, 0x0cc512670a783ad5, 789);
  (0x906a617d450187e2, 0x27fb2b80668b24c5, 793);
  (0xb484f9dc9641e9da, 0xb1f9f660802dedf6, 796);
  (0xe1a63853bbd26451, 0x5e7873f8a0396974, 799);
  (0x8d07e33455637eb2, 0xdb0b487b6423e1e8, 803);
  (0xb049dc016abc5e5f, 0x91ce1a9a3d2cda63, 806);
  (0xdc5c5301c56b75f7, 0x7641a140cc7810fb, 809);
  (0x89b9b3e11b6329ba, 0xa9e904c87fcb0a9d, 813);
  (0xac2820d9623bf429, 0x546345fa9fbdcd44, 816);
  (0xd732290fbacaf133, 0xa97c177947ad4095, 819);
  (0x867f59a9d4bed6c0, 0x49ed8eabcccc485d, 823);
  (0xa81f301449ee8c70, 0x5c68f256bfff5a75, 826);
  (0xd226fc195c6a2f8c, 0x73832eec6fff3112, 829);
  (0x83585d8fd9c25db7, 0xc831fd53c5ff7eab, 833);
  (0xa42e74f3d032f525, 0xba3e7ca8b77f5e56, 836);
  (0xcd3a1230c43fb26f, 0x28ce1bd2e55f35eb, 839);
  (0x80444b5e7aa7cf85, 0x7980d163cf5b81b3, 843);
  (0xa0555e361951c366, 0xd7e105bcc3326220, 846);
  (0xc86ab5c39fa63440, 0x8dd9472bf3fefaa8, 849);
  (0xfa856334878fc150, 0xb14f98f6f0feb952, 852);
  (0x9c935e00d4b9d8d2, 0x6ed1bf9a569f33d3, 856);
  (0xc3b8358109e84f07, 0x0a862f80ec4700c8, 859);
  (0xf4a642e14c6262c8, 0xcd27bb612758c0fa, 862);
  (0x98e7e9cccfbd7dbd, 0x8038d51cb897789c, 866);
  (0xbf21e44003acdd2c, 0xe0470a63e6bd56c3, 869);
  (0xeeea5d5004981478, 0x1858ccfce06cac74, 872);
  (0x95527a5202df0ccb, 0x0f37801e0c43ebc9, 876);
  (0xbaa718e68396cffd, 0xd30560258f54e6bb, 879);
  (0xe950df20247c83fd, 0x47c6b82ef32a2069, 882);
  (0x91d28b7416cdd27e, 0x4cdc331d57fa5442, 886);
  (0xb6472e511c81471d, 0xe0133fe4adf8e952, 889);
  (0xe3d8f9e563a198e5, 0x58180fddd97723a7, 892);
  (0x8e679c2f5e44ff8f, 0x570f09eaa7ea7648, 896)].

Definition th8Pow10Sig : list Z := [
  0xfa8fd5a0081c0288; 0xbaaee17fa23ebf76; 0x8b16fb203055ac76; 0xcf42894a5dce35ea; 0x9a6bb0aa55653b2d;
  0xe61acf033d1a45df; 0xab70fe17c79ac6ca; 0xff77b1fcbebcdc4f; 0xbe5691ef416bd60c; 0x8dd01fad907ffc3c;
  0xd3515c2831559a83; 0x9d71ac8fada6c9b5; 0xea9c227723ee8bcb; 0xaecc49914078536d; 0x823c12795db6ce57;
  0xc21094364dfb5637; 0x9096ea6f3848984f; 0xd77485cb25823ac7; 0xa086cfcd97bf97f4; 0xef340a98172aace5;
  0xb23867fb2a35b28e; 0x84c8d4dfd2c63f3b; 0xc5dd44271ad3cdba; 0x936b9fcebb25c996; 0xdbac6c247d62a584;
  0xa3ab66580d5fdaf6; 0xf3e2f893dec3f126; 0xb5b5ada8aaff80b8; 0x87625f056c7c4a8b; 0xc9bcff6034c13053;
  0x964e858c91ba2655; 0xdff9772470297ebd; 0xa6dfbd9fb8e5b88f; 0xf8a95fcf88747d94; 0xb94470938fa89bcf;
  0x8a08f0f8bf0f156b; 0xcdb02555653131b6; 0x993fe2c6d07b7fac; 0xe45c10c42a2b3b06; 0xaa242499697392d3;
  0xfd87b5f28300ca0e; 0xbce5086492111aeb; 0x8cbccc096f5088cc; 0xd1b71758e219652c; 0x9c40000000000000;
  0xe8d4a51000000000; 0xad78ebc5ac620000; 0x813f3978f8940984; 0xc097ce7bc90715b3; 0x8f7e32ce7bea5c70;
  0xd5d238a4abe98068; 0x9f4f2726179a2245; 0xed63a231d4c4fb27; 0xb0de65388cc8ada8; 0x83c7088e1aab65db;
  0xc45d1df942711d9a; 0x924d692ca61be758; 0xda01ee641a708dea; 0xa26da3999aef774a; 0xf209787bb47d6b85;
  0xb454e4a179dd1877; 0x865b86925b9bc5c2; 0xc83553c5c8965d3d; 0x952ab45cfa97a0b3; 0xde469fbd99a05fe3;
  0xa59bc234db398c25; 0xf6c69a72a3989f5c; 0xb7dcbf5354e9bece; 0x88fcf317f22241e2; 0xcc20ce9bd35c78a5;
  0x98165af37b2153df; 0xe2a0b5dc971f303a; 0xa8d9d1535ce3b396; 0xfb9b7cd9a4a7443c; 0xbb764c4ca7a44410;
  0x8bab8eefb6409c1a; 0xd01fef10a657842c; 0x9b10a4e5e9913129; 0xe7109bfba19c0c9d; 0xac2820d9623bf429;
  0x80444b5e7aa7cf85; 0xbf21e44003acdd2d; 0x8e679c2f5e44ff8f; 0xd433179d9c8cb841; 0x9e19db92b4e31ba9;
  0xeb96bf6ebadf77d9; 0xaf87023b9bf0ee6b].

Definition th8Pow10E : list Z := [
  -1220; -1193; -1166; -1140; -1113; -1087; -1060; -1034; -1007; -980; -954; -927;
  -901; -874; -847; -821; -794; -768; -741; -715; -688; -661; -635; -608;
  -582; -555; -529; -502; -475; -449; -422; -396; -369; -343; -316; -289;
  -263; -236; -210; -183; -157; -130; -103; -77; -50; -24; 3; 30;
  56; 83; 109; 136; 162; 189; 216; 242; 269; 295; 322; 348;
  375; 402; 428; 455; 481; 508; 534; 561; 588; 614; 641; 667;
  694; 720; 747; 774; 800; 827; 853; 880; 907; 933; 960; 986;
  1013; 1039; 1066].

(** ** Accuracy

    Fractions are cleared: [2^e] is [up 2 e / up 2 (-e)], and so is [10^q]. *)

Definition up (b e : Z) : Z := b ^ Z.max e 0.

(** [hi 2^64 + lo] has 128 bits, the top one set, and times [2^e] it is within
    half of [2^e] of the fraction [num / den]; where [exactly], it is the fraction. *)
Definition row_ok (exactly : bool) (num den : Z) (r : Z * Z * Z) : bool :=
  let '(hi, lo, e) := r in
  let err := Z.abs (Z.shiftl ((hi * 2 ^ 64 + lo) * den) (Z.max e 0) - Z.shiftl num (Z.max (- e) 0)) in
  (2 ^ 63 <=? hi) && (hi <? 2 ^ 64) && (0 <=? lo) && (lo <? 2 ^ 64) &&
  (2 * err <=? Z.shiftl den (Z.max e 0)) && (negb exactly || (err =? 0)).

(** The rows against the powers of ten from [p] on. *)
Fixpoint rows_ok (f : nat → Z → Z * Z * Z → bool) (i : nat) (p : Z) (rows : list (Z * Z * Z)) : bool :=
  match rows with
  | [] => true
  | r :: rows' => f i p r && rows_ok f (S i) (p * 10) rows'
  end.

Lemma rows_ok_nth f rows : ∀ i p j d, rows_ok f i p rows = true → (j < length rows)%nat →
  f (i + j)%nat (p * 10 ^ Z.of_nat j) (nth j rows d) = true.
Proof.
  induction rows as [|r rows IH]; intros i p j d H Hj; simpl in *; [lia|]. bool_to_prop.
  destruct j as [|j]; [by rewrite Nat.add_0_r, Z.mul_1_r|].
  replace (i + S j)%nat with (S i + j)%nat by lia.
  replace (p * 10 ^ Z.of_nat (S j)) with (p * 10 * 10 ^ Z.of_nat j) by
    (rewrite Nat2Z.inj_succ, Z.pow_succ_r by lia; ring).
  apply IH; [done|lia].
Qed.

(** Up to 10^55 the powers have at most 128 bits, and the rows are exact. *)
Definition row_up (i : nat) (p : Z) : Z * Z * Z → bool := row_ok (i <? 56)%nat p 1.
Definition row_down (_ : nat) (p : Z) : Z * Z * Z → bool := row_ok false 1 p.

Lemma rows_up : rows_ok row_up 0 1 (drop 342 th8Pow10Lemire) = true.
Proof. vm_compute. reflexivity. Qed.

Lemma rows_down : rows_ok row_down 0 1 (rev (take 343 th8Pow10Lemire)) = true.
Proof. vm_compute. reflexivity. Qed.

(** The row of [10^q]. *)
Definition pow10_row (q : Z) : Z * Z * Z := nth (Z.to_nat (q - TH8_POW10_Q_MIN)) th8Pow10Lemire (0, 0, 0).

Lemma pow10_row_ok q : TH8_POW10_Q_MIN <= q <= TH8_POW10_Q_MAX →
  row_ok ((0 <=? q) && (q <=? 55)) (up 10 q) (up 10 (- q)) (pow10_row q) = true.
Proof.
  unfold TH8_POW10_Q_MIN, TH8_POW10_Q_MAX, pow10_row, up. intros Hq. destruct (Z.leb_spec 0 q).
  - pose proof (rows_ok_nth row_up (drop 342 th8Pow10Lemire) 0 1 (Z.to_nat q) (0, 0, 0) rows_up) as H1.
    change (length (drop 342 th8Pow10Lemire)) with 309%nat in H1. specialize (H1 ltac:(lia)).
    unfold row_up in H1. rewrite nth_skipn, Z.mul_1_l, Z2Nat.id in H1 by lia.
    replace (0 + Z.to_nat q <? 56)%nat with (q <=? 55) in H1 by
      (apply Bool.eq_iff_eq_true; rewrite Z.leb_le, Nat.ltb_lt; lia).
    rewrite Z.max_l, Z.max_r by lia. unfold TH8_POW10_Q_MIN.
    by replace (Z.to_nat (q - -342)) with (342 + Z.to_nat q)%nat by lia.
  - pose proof (rows_ok_nth row_down (rev (take 343 th8Pow10Lemire)) 0 1 (Z.to_nat (- q)) (0, 0, 0) rows_down) as H1.
    change (length (rev (take 343 th8Pow10Lemire))) with 343%nat in H1. specialize (H1 ltac:(lia)).
    unfold row_down in H1. rewrite rev_nth, Z.mul_1_l, Z2Nat.id in H1 by
      (change (length (take 343 th8Pow10Lemire)) with 343%nat; lia).
    change (length (take 343 th8Pow10Lemire)) with 343%nat in H1. rewrite nth_firstn, (proj2 (Nat.ltb_lt _ _)) in H1 by lia.
    rewrite (Z.max_r q), (Z.max_l (- q)) by lia. unfold TH8_POW10_Q_MIN.
    by replace (Z.to_nat (q - -342)) with (343 - S (Z.to_nat (- q)))%nat by lia.
Qed.
