(* ===== verification/Doubles.v ===== *)
(** * Doubles: from text to double and back (Th8_ToDouble, th8ScaleByPow10,
    th8BignumDecideRound, th8Mul64x64, th8Mul64Top, th8DoubleToDiyFp,
    th8GetCachedPow10, th8ExtractDigits17 and Th8_SetResultDouble of
    src/src/th8_core.c).

    A double is its 64 bits where the code makes it from bits, and a
    [spec_float] of the Standard Library, with 53 bits and exponents up to
    1024, where it computes with it. *)

From S2P Require Import Prelude Numbers Pow10.
From Stdlib Require Import SpecFloat.
#[local] Open Scope Z_scope.

(** ** Doubles and their bits *)

Definition double : Type := spec_float.

(** The sign, the exponent field and the fraction field. *)
Definition bits_sign (u : Z) : bool := Z.testbit u 63.
Definition bits_exponent (u : Z) : Z := Z.land (Z.shiftr u 52) 0x7FF.
Definition bits_fraction (u : Z) : Z := Z.land u 0xFFFFFFFFFFFFF.

Definition double_of_bits (u : Z) : double :=
  let s := bits_sign u in let e := bits_exponent u in let f := bits_fraction u in
  if e =? 0x7FF then if f =? 0 then S754_infinity s else S754_nan
  else if e =? 0 then match f with Z.pos m => S754_finite s m (-1074) | _ => S754_zero s end
  else match Z.lor f (2 ^ 52) with Z.pos m => S754_finite s m (e - 1075) | _ => S754_zero s end.

Definition bits_of_double (d : double) : Z :=
  let sign (s : bool) := if s then 2 ^ 63 else 0 in
  match d with
  | S754_zero s => sign s
  | S754_infinity s => Z.lor (sign s) 0x7FF0000000000000
  | S754_nan => 0x7FF8000000000000
  | S754_finite s m e =>
      if Z.pos m <? 2 ^ 52 then Z.lor (sign s) (Z.pos m)
      else Z.lor (sign s) (Z.lor (Z.shiftl (e + 1075) 52) (Z.land (Z.pos m) 0xFFFFFFFFFFFFF))
  end.

Definition infBits : Z := 0x7FF0000000000000.
Definition nanBits : Z := 0x7FF8000000000000.

(** ** Products of 64-bit words *)

(** The partial products of the 32-bit halves. *)
Definition halves_product (x y : Z) : Z * Z * Z * Z :=
  let xl := Z.land x 0xFFFFFFFF in let xh := Z.shiftr x 32 in
  let yl := Z.land y 0xFFFFFFFF in let yh := Z.shiftr y 32 in
  (wrap 64 (xl * yl), wrap 64 (xh * yl), wrap 64 (xl * yh), wrap 64 (xh * yh)).

Definition th8Mul64x64 (x y : Z) : Z * Z :=
  let '(ll, hl, lh, hh) := halves_product x y in
  let mid := wrap 64 (Z.shiftr ll 32 + Z.land hl 0xFFFFFFFF + Z.land lh 0xFFFFFFFF) in
  (wrap 64 (hh + Z.shiftr hl 32 + Z.shiftr lh 32 + Z.shiftr mid 32),
   Z.lor (Z.land ll 0xFFFFFFFF) (wrap 64 (Z.shiftl mid 32))).

(** The high word, rounded. *)
Definition th8Mul64Top (x y : Z) : Z :=
  let '(ll, hl, lh, hh) := halves_product x y in
  let mid := wrap 64 (Z.shiftr ll 32 + Z.land hl 0xFFFFFFFF + Z.land lh 0xFFFFFFFF + 2 ^ 31) in
  wrap 64 (hh + Z.shiftr hl 32 + Z.shiftr lh 32 + Z.shiftr mid 32).

(** ** Scaling by a power of ten *)

(** [while (!(W & (1ULL << 63)))]: the word with its top bit set, and the shift;
    [fuel] is 63. *)
Fixpoint top_bit (fuel : nat) (w : Z) (lz : Z) : Z * Z :=
  match fuel with
  | O => (w, lz)
  | S fuel' => if Z.testbit w 63 then (w, lz) else top_bit fuel' (wrap 64 (Z.shiftl w 1)) (lz + 1)
  end.

(** The exact comparison of [M 10^q] with the middle between the candidate and
    the next double.  [mp_ok]: the big-integer library had memory; its integers
    are exact. *)
Definition th8BignumDecideRound (mp_ok : bool) (M q mantissa biased_exp : Z) : bool :=
  let eD := if 0 <? biased_exp then biased_exp - 1075 else -1074 in
  let midM := wrap 64 (2 * mantissa + 1) in
  let midE := eD - 1 in
  if negb mp_ok then false
  else
    let '(A, B) :=
      if 0 <=? q then
        let A := M * 10 ^ q in
        if 0 <=? midE then (A, midM * 2 ^ midE) else (A * 2 ^ (- midE), midM)
      else
        let extraE := midE + - q in
        let B := midM * 5 ^ (- q) in
        if 0 <=? extraE then (M, B * 2 ^ extraE) else (M * 2 ^ (- extraE), B) in
    if B <? A then true else if A <? B then false else Z.testbit mantissa 0.

(** The three words of the product, shifted so that the top bit is set, and
    whether it was already. *)
Definition scaled_product (W cHi cLo : Z) : Z * Z * Z * Z :=
  let '(a_hi, a_lo) := th8Mul64x64 W cHi in
  let '(b_hi, b_lo) := th8Mul64x64 W cLo in
  let mid := wrap 64 (a_lo + b_hi) in
  let top := wrap 64 (a_hi + (if mid <? a_lo then 1 else 0)) in
  let low := b_lo in
  let upperbit := Z.land (Z.shiftr top 63) 1 in
  if upperbit =? 0 then
    (wrap 64 (Z.lor (Z.shiftl top 1) (Z.shiftr mid 63)),
     wrap 64 (Z.lor (Z.shiftl mid 1) (Z.shiftr low 63)), wrap 64 (Z.shiftl low 1), upperbit)
  else (top, mid, low, upperbit).

(** The bits of a candidate, after rounding it up or not. *)
Definition round_bits (round_up : bool) (M biased_exp : Z) : Z :=
  let pack (M biased_exp : Z) :=
    if 0 <? biased_exp then Z.lor (Z.shiftl biased_exp 52) (Z.land M 0xFFFFFFFFFFFFF)
    else Z.land M 0xFFFFFFFFFFFFF in
  if round_up then
    let M := M + 1 in
    if (0 <? biased_exp) && (M =? 2 ^ 53) then
      if 0x7FF <=? biased_exp + 1 then infBits else pack (2 ^ 52) (biased_exp + 1)
    else if (biased_exp =? 0) && (M =? 2 ^ 52) then pack 0 1
    else pack M biased_exp
  else pack M biased_exp.

Section scale.
(** Big integers are enabled and there is an interpreter; they have memory. *)
Context (bBigint mp_ok : bool).

Definition th8ScaleByPow10 (mantissa decExp : Z) : Z :=
  if mantissa =? 0 then 0
  else if decExp <? TH8_POW10_Q_MIN then 0
  else if TH8_POW10_Q_MAX <? decExp then infBits
  else
    let '(W, lz) := top_bit 63 mantissa 0 in
    let '(cHi, cLo, cE) := pow10_row decExp in
    let '(top, mid, low, upperbit) := scaled_product W cHi cLo in
    let biased_exp := 1213 + upperbit + cE - lz in
    if 0x7FF <=? biased_exp then infBits
    else
      let finish (M roundBit sticky biased_exp : Z) :=
        let round_up :=
          if negb (roundBit =? 0) && (sticky =? 0) then
            if bBigint then th8BignumDecideRound mp_ok mantissa decExp M biased_exp else Z.testbit M 0
          else negb (roundBit =? 0) && (negb (sticky =? 0) || Z.testbit M 0) in
        round_bits round_up M biased_exp in
      if 0 <? biased_exp then
        finish (Z.shiftr top 11) (Z.land (Z.shiftr top 10) 1) (Z.lor (Z.lor (Z.land top 0x3FF) mid) low) biased_exp
      else
        let shift := 1 - biased_exp in
        if 52 <? shift then 0
        else
          let totalShift := 11 + shift in
          if 64 <=? totalShift then 0
          else
            finish (Z.shiftr top totalShift) (Z.land (Z.shiftr top (totalShift - 1)) 1)
              (Z.lor (Z.lor (Z.land top (Z.shiftl 1 (totalShift - 1) - 1)) mid) low) 0.

(** ** Th8_ToDouble *)

Definition is_digit_char (c : Z) : bool := ("0"%ch <=? c) && (c <=? "9"%ch).

(** What the digits read so far give. *)
Record decimal : Type := mkDecimal { mantissa : Z; decExp : Z; truncated : bool; seenDigit : bool }.

Definition mantissa_room (d : decimal) : bool := negb (truncated d) && (mantissa d <=? 1844674407370955160).

(** The digits in front of the point, or behind it. *)
Fixpoint digits_loop (fraction : bool) (z : bytes) (d : decimal) : decimal * bytes :=
  match z with
  | c :: z' =>
      if is_digit_char c then
        digits_loop fraction z'
          (if mantissa_room d then
             mkDecimal (wrap 64 (wrap 64 (mantissa d * 10) + (c - "0"%ch)))
               (if fraction then decExp d - 1 else decExp d) (truncated d) true
           else mkDecimal (mantissa d) (if fraction then decExp d else decExp d + 1) true true)
      else (d, z)
  | [] => (d, [])
  end.

Fixpoint exponent_digits (z : bytes) (expVal : Z) : Z * bytes :=
  match z with
  | c :: z' =>
      if is_digit_char c then
        exponent_digits z' (if expVal <? 100000 then expVal * 10 + (c - "0"%ch) else expVal)
      else (expVal, z)
  | [] => (expVal, [])
  end.

(** The exponent, if there is one; [None] if it has no digits. *)
Definition exponent_part (z : bytes) : option (Z * bytes) :=
  match z with
  | c :: z' =>
      if (c =? "e"%ch) || (c =? "E"%ch) then
        let '(expNeg, z') := sign z' in
        match z' with
        | d :: _ =>
            if is_digit_char d then
              let '(expVal, z'') := exponent_digits z' 0 in
              Some (if expNeg then - expVal else expVal, z'')
            else None
        | [] => None
        end
      else Some (0, z)
  | [] => Some (0, [])
  end.

(** [c] is the letter [lower], of either case. *)
Definition letter (lower c : Z) : bool := (c =? lower) || (c =? lower - 32).

Definition special (z : bytes) : option Z :=
  match z with
  | a :: b :: c :: z' =>
      if letter "n"%ch a && letter "a"%ch b && letter "n"%ch c && (length z' =? 0)%nat then Some nanBits
      else if letter "i"%ch a && letter "n"%ch b && letter "f"%ch c &&
              ((length z' =? 0)%nat || (length z' =? 5)%nat && letter "i"%ch (hd 0 z'))
      then Some infBits
      else None
  | _ => None
  end.

Definition negate_bits (neg : bool) (u : Z) : Z := if neg then Z.lxor u (2 ^ 63) else u.

(** The double of a text, behind the cache; NaN keeps no sign. *)
Definition ToDouble_parse (z : bytes) : option Z :=
  let '(neg, z) := sign z in
  match special z with
  | Some u => Some (if u =? nanBits then u else negate_bits neg u)
  | None =>
      let '(d, z) := digits_loop false z (mkDecimal 0 0 false false) in
      let '(d, z) :=
        match z with
        | c :: z' => if c =? "."%ch then digits_loop true z' d else (d, z)
        | [] => (d, z)
        end in
      if negb (seenDigit d) then None
      else
        match exponent_part z with
        | Some (e, []) => Some (negate_bits neg (th8ScaleByPow10 (mantissa d) (decExp d + e)))
        | _ => None
        end
  end.
End scale.

(** ** From double to text *)

(** The 64-bit mantissa, its top bit set, and the exponent of a positive double. *)
Definition th8DoubleToDiyFp (u : Z) : Z * Z :=
  let biased := bits_exponent u in
  let '(f, e) :=
    if biased =? 0 then (bits_fraction u, -1074) else (Z.lor (bits_fraction u) (2 ^ 52), biased - 1075) in
  let '(f, lz) := top_bit 63 f 0 in (f, e - lz).

Fixpoint cached_pow10 (eIn : Z) (i : Z) (sigs es : list Z) : option (Z * Z * Z) :=
  match sigs, es with
  | s :: sigs', e :: es' =>
      let prodE := eIn + e + 64 in
      if (-60 <=? prodE) && (prodE <=? -32) then Some (s, e, -348 + i * 8)
      else cached_pow10 eIn (i + 1) sigs' es'
  | _, _ => None
  end.

Definition th8GetCachedPow10 (eIn : Z) : Z * Z * Z :=
  default (2 ^ 63, -63, 0) (cached_pow10 eIn 0 th8Pow10Sig th8Pow10E).

(** How many digits [p1] has, at most [k]. *)
Fixpoint digit_count (k : nat) (p1 : Z) : nat :=
  match k with
  | O => O
  | S k' => if 10 ^ Z.of_nat k' <=? p1 then k else digit_count k' p1
  end.

(** The digits of the integer part, and [n] digits of the fraction. *)
Fixpoint integer_digits (kappa : nat) (p1 : Z) : bytes :=
  match kappa with
  | O => []
  | S k =>
      let div := 10 ^ Z.of_nat k in
      to_char ("0"%ch + p1 / div) :: integer_digits k (p1 - p1 / div * div)
  end.

Fixpoint fraction_digits (n : nat) (shift p2 : Z) : bytes :=
  match n with
  | O => []
  | S n' =>
      let p2 := wrap 64 (p2 * 10) in
      to_char ("0"%ch + Z.shiftr p2 shift) :: fraction_digits n' shift (Z.land p2 (Z.shiftl 1 shift - 1))
  end.

(** Add the carry to the digits, from the last one on; the carry out of the first. *)
Fixpoint add_carry (carry : bool) (ds : bytes) : bytes * bool :=
  match ds with
  | [] => ([], carry)
  | d :: ds' =>
      let '(ds', c) := add_carry carry ds' in
      if c then if "9"%ch <? d + 1 then ("0"%ch :: ds', true) else (d + 1 :: ds', false)
      else (d :: ds', false)
  end.

(** Round to [n] digits; past 9...9 the exponent grows. *)
Definition round_digits (n : nat) (zDig : bytes) (expn : Z) : bytes * Z :=
  let '(ds, carry) := add_carry ("5"%ch <=? nth n zDig "0"%ch) (take n zDig) in
  if carry then ("1"%ch :: take (n - 1) ds, expn + 1) else (ds, expn).

Definition th8ExtractDigits17 (u : Z) : bytes * Z :=
  let '(vF, vE) := th8DoubleToDiyFp u in
  let '(cF, cE, K) := th8GetCachedPow10 vE in
  let wF := th8Mul64Top vF cF in
  let shift := - (vE + cE + 64) in
  let p1 := Z.shiftr wF shift in
  let p2 := Z.land wF (Z.shiftl 1 shift - 1) in
  let initialKappa := Nat.max 1 (digit_count 10 p1) in
  let zDig := integer_digits initialKappa p1 ++ fraction_digits (18 - initialKappa) shift p2 in
  round_digits 17 zDig (Z.of_nat initialKappa - 1 - K).

(** The digits with an exponent, as the search for the shortest form reads
    them back. *)
Definition check_text (zTry : bytes) (tExpn : Z) : bytes :=
  zTry ++ "e"%ch :: th8IntToStr (tExpn - (zlen zTry - 1)).

Fixpoint shortest (fuel nDig : nat) (u : Z) (zDig : bytes) (expn : Z) : bytes * Z :=
  match fuel with
  | O => (take 17 zDig, expn)
  | S fuel' =>
      let '(zTry, tExpn) := round_digits nDig zDig expn in
      match ToDouble_parse false false (check_text zTry tExpn) with
      | Some rebuilt => if rebuilt =? u then (zTry, tExpn) else shortest fuel' (S nDig) u zDig expn
      | None => shortest fuel' (S nDig) u zDig expn
      end
  end.

(** Trailing zeros go, but one digit stays. *)
Fixpoint strip_zeros (ds : bytes) : bytes :=
  match ds with
  | [] => []
  | d :: ds' =>
      match strip_zeros ds' with
      | [] => if d =? "0"%ch then [] else [d]
      | r => d :: r
      end
  end.

Definition significant (ds : bytes) : bytes :=
  match ds with d :: ds' => d :: strip_zeros ds' | [] => [] end.

Definition exponent_text (expn : Z) : bytes :=
  let a := Z.abs expn in
  (if 0 <=? expn then "+"%ch else "-"%ch) ::
  (if 100 <=? a then ["0"%ch + a / 100; "0"%ch + (a / 10) mod 10; "0"%ch + a mod 10]
   else ["0"%ch + a / 10; "0"%ch + a mod 10]).

Definition scientific (ds : bytes) (expn : Z) : bytes :=
  match ds with
  | d :: ds' =>
      d :: (match ds' with [] => [] | _ => "."%ch :: ds' end) ++ "e"%ch :: exponent_text expn
  | [] => []
  end.

Definition fixed (ds : bytes) (expn : Z) : bytes :=
  let dotPos := expn + 1 in
  if dotPos <=? 0 then "0"%ch :: "."%ch :: replicate (Z.to_nat (- dotPos)) "0"%ch ++ ds
  else if zlen ds <=? dotPos then
    ds ++ replicate (Z.to_nat (dotPos - zlen ds)) "0"%ch ++ ["."%ch; "0"%ch]
  else take (Z.to_nat dotPos) ds ++ "."%ch :: drop (Z.to_nat dotPos) ds.

(** A positive finite double with [nSig] digits, 0 for the shortest form. *)
Definition format_double (nSig : nat) (u : Z) : bytes :=
  let '(zDig, expn) := th8ExtractDigits17 u in
  let '(ds, expn) := if (nSig =? 0)%nat then shortest 17 1 u zDig expn else round_digits nSig zDig expn in
  let useExp := (expn <? -4) || ((if (nSig =? 0)%nat then 17 else Z.of_nat nSig) <=? expn) in
  let ds := significant ds in
  if useExp then scientific ds expn else fixed ds expn.

(** The number of digits that ::tcl_precision asks for. *)
Definition precision (tcl_precision : option bytes) : nat :=
  match tcl_precision with
  | Some zP =>
      match ToInt_parse zP with
      | Ok v => if (0 <=? v) && (v <=? 17) then Z.to_nat v else O
      | Err _ => O
      end
  | None => O
  end.

(** The text of a double; the least and the most significant special cases
    first. *)
Definition double_text (tcl_precision : option bytes) (u : Z) : bytes :=
  let neg := bits_sign u in
  let u := Z.land u (2 ^ 63 - 1) in
  let z := if neg then ["-"%ch] else [] in
  if (bits_exponent u =? 0x7FF) && negb (bits_fraction u =? 0) then bytes_of_string "NaN"
  else if u =? infBits then z ++ bytes_of_string "Inf"
  else if u =? 0 then z ++ bytes_of_string "0.0"
  else z ++ format_double (precision tcl_precision) u.

Definition of_text (s : string) : option double := double_of_bits <$> ToDouble_parse false false (bytes_of_string s).

Example tenth : of_text "0.1" = Some (S754_finite false 7205759403792794 (-56)).
Proof. vm_compute. reflexivity. Qed.
Example big_one : of_text "-1.7976931348623157e308" = Some (S754_finite true 9007199254740991 971).
Proof. vm_compute. reflexivity. Qed.

(** 2^53 + 1 is halfway between two doubles; with a fraction of zero it goes to
    the odd one. *)
Example halfway_up :
  of_text "9007199254740993" = Some (S754_finite false 4503599627370496 1) ∧
  of_text "9007199254740993.0" = Some (S754_finite false 4503599627370497 1).
Proof. split; vm_compute; reflexivity. Qed.

(** The least double in 17 digits is read as zero, its shortest form is not; and
    so is a number above the half of it. *)
Example underflow :
  of_text "4.9406564584124654e-324" = Some (S754_zero false) ∧
  of_text "5e-324" = Some (S754_finite false 1 (-1074)) ∧
  of_text "3e-324" = Some (S754_zero false).
Proof. split_and!; vm_compute; reflexivity. Qed.

Definition shown (s : string) : option bytes :=
  double_text None <$> ToDouble_parse false false (bytes_of_string s).

Example show_tenth : shown "0.1" = Some (bytes_of_string "0.1").
Proof. vm_compute. reflexivity. Qed.
Example show_large : shown "-1.7976931348623157e308" = Some (bytes_of_string "-1.7976931348623157e+308").
Proof. vm_compute. reflexivity. Qed.
Example show_plain : shown "1e3" = Some (bytes_of_string "1000.0").
Proof. vm_compute. reflexivity. Qed.
Example show_least : shown "5e-324" = Some (bytes_of_string "5e-324").
Proof. vm_compute. reflexivity. Qed.
Example show_third : shown "0.3333333333333333" = Some (bytes_of_string "0.3333333333333333").
Proof. vm_compute. reflexivity. Qed.

(** ** Products *)











(** ** Rounding *)





(** *** The fields of the result *)






(** *** The scaled result is close *)



























(** ** The text of a decimal number *)

Definition decimal_value (ds : bytes) : Z := foldl (λ a c, a * 10 + (c - "0"%ch)) 0 ds.





Lemma decimal_value_snoc ds c : decimal_value (ds ++ [c]) = decimal_value ds * 10 + (c - "0"%ch).
Proof. unfold decimal_value. by rewrite foldl_app. Qed.













