(* ===== verification/ExprEval.v ===== *)
(** * ExprEval: the evaluation of expression trees (th8ExprEval and
    th8ExprEvalNode of src/src/th8_expr.c).

    The evaluator is written against the interface [ExprInterp].  An operand
    is what th8TakeResultInternal gives: the bytes, or NULL, and the tagged
    length; the result of an empty word is NULL, and so is one that could not
    be copied.  The evaluator frees the operands when it is done; Results
    models their memory.  What C leaves undefined is an error of the model. *)

From S2P Require Import Prelude CharClass Memory Buffer Parser Subst Numbers ExprTree ExprArith.
#[local] Open Scope Z_scope.
#[local] Open Scope res_scope.

(** ** What the evaluator asks of its surroundings *)

(** Doubles: arithmetic, the conversion [(int)], undefined out of range, and
    Th8_ToDouble on a text. *)
Class Doubles (D : Type) : Type := {
  d_zero : D;
  d_one : D;
  d_add : D → D → D; d_sub : D → D → D; d_mul : D → D → D; d_div : D → D → D;
  d_neg : D → D;
  d_lt : D → D → bool; d_le : D → D → bool; d_eq : D → D → bool;
  d_int : D → option Z;
  to_double : bytes → option D
}.

Class ExprInterp (I D : Type) : Type := {
  expr_subst :: SubstInterp I;
  expr_doubles :: Doubles D;
  wide_cache :: ReprCache I;
  bool_cache : ReprCache I;
  th8TakeResultInternal : I → option bytes * Z * I;
  expr_error : I → bytes → bytes → I;                       (* Th8_ErrorMessage *)
  Th8_ToDouble : I → bytes → option D * I;                  (* with its message *)
  Th8_SetResultDouble : I → D → I;
  Th8_SetVar : I → bytes → bytes → Z → Z * I;               (* name, value, tagged length *)
  expr_split : I → bytes → Z * list bytes * I;              (* Th8_SplitList *)
  Th8_IsBigintEnabled : I → bool;
  th8IsBigint : I → bytes → bool;
  th8BigintArith : I → op_code → bytes → bytes → Z * I;
  th8BigintUnary : I → op_code → bytes → Z * I;
  bOverflowCheck : I → bool;
  Th8_GetExprFeatures : I → Z;
  expr_alloc : I → Z → bool * I;                            (* th8MallocCommon answers *)
  math_func : I → bytes → option (option bytes * Z → option bytes * Z → I → Z * I);  (* Th8_FindMathFunc *)
  Th8_ReportTaint : I → bytes → Z → bool * I;
  nExprDepth : I → Z;
  set_nExprDepth : Z → I → I
}.

(** What a step of the evaluation gives: a return code. *)
Abbreviation eval_step I := (I → res fault (Z * I)) (only parsing).

(** A result as th8TakeResultInternal gives it. *)
Abbreviation operand := (option bytes * Z)%type (only parsing).

Section eval.
Context {I D : Type} `{EI : ExprInterp I D}.
Context (realloc_ok alloc_ok : Z → bool).

Definition say (it : I) (s : string) : I :=
  snd (Th8_SetResult it (bytes_of_string s) (zlen (bytes_of_string s))).

Definition set_int (it : I) (v : Z) : Z * I :=
  let z := Numbers.Th8_SetResultInt v in Th8_SetResult it z (zlen z).

Definition set_wide (it : I) (v : Z) : Z * I :=
  let z := Numbers.Th8_SetResultWideInt v in Th8_SetResult it z (zlen z).

(** The bytes of an operand; NULL can be read when it has no length. *)
Definition read (z : operand) : res fault bytes :=
  match z with
  | (Some b, _) => Ok b
  | (None, n) => if TH8_LEN n =? 0 then Ok [] else Err NullDeref
  end.

(** *** Conversions, with their messages *)

(** Th8_ErrorMessage with a prefix that ends in a quote. *)
Definition complain (it : I) (s : string) (z : bytes) : I := expr_error it (bytes_of_string s ++ [DQUOTE]) z.

Definition int_error (it : I) (e : num_error) (z : bytes) : I :=
  match e with
  | TooLarge => say it "integer value too large to represent"
  | _ => complain it "expected integer, got: " z
  end.

Definition to_wide (it : I) (z : bytes) : option Z * I :=
  let '(r, c) := Numbers.Th8_ToWideInt (Some it) z in
  let it := default it c in
  match r with Ok v => (Some v, it) | Err e => (None, int_error it e z) end.

(** Th8_ToWideInt without an interpreter: no cache and no message. *)
Definition silent_wide (z : bytes) : option Z :=
  match ToWideInt_parse z with Ok v => Some v | Err _ => None end.

Definition to_boolean (it : I) (z : bytes) : option Z * I :=
  let '(r, c) := Numbers.Th8_ToBoolean (RC := bool_cache)
    (th8IsBigint it)
    (λ z, (λ d, negb (d_eq d d_zero)) <$> to_double z) (Some it) z in
  let it := default it c in
  match r with
  | Ok v => (Some v, it)
  | Err _ => (None, complain it "expected boolean value but got " z)
  end.

(** *** Literals *)

(** A byte of a number with an exponent. *)
Definition numeric (c : Z) : bool :=
  (c =? "e"%ch) || (c =? "E"%ch) || between "0"%ch "9"%ch c || (c =? "."%ch) || (c =? "+"%ch) || (c =? "-"%ch).

(** The scan goes to the tagged length; where that is past the bytes it ends
    at the NUL behind them. *)
Definition exponent_form (z : bytes) (n : Z) : bool :=
  (0 <? n) && (n =? zlen z) && forallb numeric z && existsb (λ c, (c =? "e"%ch) || (c =? "E"%ch)) z.

Definition eval_literal (zValue : bytes) : eval_step I := λ it,
  let '(rc, it) := th8SubstWord realloc_ok alloc_ok it zValue in
  if rc =? TH8_OK then
    let '(zRes, nRes) := Th8_GetResult it in
    if exponent_form zRes nRes then
      match to_double zRes with Some d => Ok (rc, Th8_SetResultDouble it d) | None => Ok (rc, it) end
    else Ok (rc, it)
  else Ok (rc, it).

(** *** Lazy operators *)

(** Evaluate, and convert what it gives. *)
Definition then_convert {A} (f : eval_step I) (convert : I → bytes → option A * I)
    (k : A → eval_step I) : eval_step I := λ it,
  let* (rc, it) := f it in
  if negb (rc =? TH8_OK) then Ok (rc, it)
  else
    let '(z, it) := th8TakeResultInternal it in
    let* b := read z in
    let '(r, it) := convert it b in
    match r with Some v => k v it | None => Ok (TH8_ERROR, it) end.

(** [branches] is [None] when the pRight child is no colon. *)
Definition eval_ternary (cond : eval_step I) (branches : option (eval_step I * eval_step I)) : eval_step I :=
  then_convert cond to_wide (λ iCond it,
    match branches with
    | None => Ok (TH8_ERROR, say it "syntax error in ternary expression")
    | Some (yes, no) => if negb (iCond =? 0) then yes it else no it
    end).

Definition eval_logical (bAnd : bool) (pLeft pRight : eval_step I) : eval_step I :=
  then_convert pLeft to_boolean (λ bLeft it,
    if bAnd && (bLeft =? 0) then Ok (set_int it 0)
    else if negb bAnd && negb (bLeft =? 0) then Ok (set_int it 1)
    else then_convert pRight to_boolean (λ bRight it, Ok (set_int it (of_bool (negb (bRight =? 0))))) it).

(** *** Assignment *)

(** [None] for a child that is missing. *)
Definition eval_assign (pLeft pRight : option (eval_step I)) : eval_step I := λ it,
  match pLeft, pRight with
  | Some pLeft, Some pRight =>
      let* (rc, it) := pLeft it in
      if negb (rc =? TH8_OK) then Ok (rc, it)
      else
        let '(zVarName, it) := th8TakeResultInternal it in
        let* (rc, it) := pRight it in
        if negb (rc =? TH8_OK) then Ok (rc, it)
        else
          let '(zRhs, it) := th8TakeResultInternal it in
          let* name := read zVarName in
          let* value := read zRhs in
          let '(rc, it) := Th8_SetVar it name value (snd zRhs) in
          if negb (rc =? TH8_OK) then Ok (rc, it) else Ok (Th8_SetResult it value (snd zRhs))
  | _, _ => Ok (TH8_ERROR, say it "syntax error in := expression")
  end.

(** *** The other operators *)

(** A child, and the operand it gives; a missing child gives NULL. *)
Definition eval_child (child : option (eval_step I)) (it : I) : res fault (Z * operand * I) :=
  match child with
  | None => Ok (TH8_OK, (None, 0), it)
  | Some f =>
      let* (rc, it) := f it in
      if negb (rc =? TH8_OK) then Ok (rc, (None, 0), it)
      else let '(z, n, it) := th8TakeResultInternal it in Ok (rc, (z, TH8_LEN n), it)
  end.

(** Where the coercion of the operands leads: to the integers, to a result set
    already, to the strings, or nowhere. *)
Inductive coerced : Type :=
| ToIntegers (iLeft iRight : Z) | Finished (rc : Z) | ToStrings | Uncoerced.

(** NULL stands for zero here. *)
Definition absent_or {A} (absent : A) (f : bytes → option A) (z : operand) : option A :=
  match fst z with None => Some absent | Some b => f b end.

Definition is_big (it : I) (z : operand) : bool :=
  match fst z with None => false | Some b => th8IsBigint it b end.

Definition big_operands (it : I) (zLeft zRight : operand) : bool :=
  Th8_IsBigintEnabled it && (is_big it zLeft || is_big it zRight).

(** The exponent of [**] on doubles is cut to an int, and the power is the
    repeated product. *)
Definition double_power (fLeft fRight : D) : res fault D :=
  let neg := d_lt fRight d_zero in
  match d_int (if neg then d_neg fRight else fRight) with
  | None => Err DoubleToInt
  | Some exp =>
      let result := Nat.iter (Z.to_nat exp) (λ r, d_mul r fLeft) d_one in
      Ok (if neg then d_div d_one result else result)
  end.

Inductive double_answer : Type := DoubleValue (d : D) | DoubleTruth (b : bool) | DoubleZero | DoubleNone.

Definition double_op (eOp : op_code) (fLeft fRight : D) : res fault double_answer :=
  match eOp with
  | TH8_OP_MULTIPLY => Ok (DoubleValue (d_mul fLeft fRight))
  | TH8_OP_DIVIDE => if d_eq fRight d_zero then Ok DoubleZero else Ok (DoubleValue (d_div fLeft fRight))
  | TH8_OP_ADD => Ok (DoubleValue (d_add fLeft fRight))
  | TH8_OP_SUBTRACT => Ok (DoubleValue (d_sub fLeft fRight))
  | TH8_OP_LT => Ok (DoubleTruth (d_lt fLeft fRight))
  | TH8_OP_GT => Ok (DoubleTruth (d_lt fRight fLeft))
  | TH8_OP_LE => Ok (DoubleTruth (d_le fLeft fRight))
  | TH8_OP_GE => Ok (DoubleTruth (d_le fRight fLeft))
  | TH8_OP_EQ => Ok (DoubleTruth (d_eq fLeft fRight))
  | TH8_OP_NE => Ok (DoubleTruth (negb (d_eq fLeft fRight)))
  | TH8_OP_UNARY_MINUS => Ok (DoubleValue (d_neg fLeft))
  | TH8_OP_UNARY_PLUS => Ok (DoubleValue fLeft)
  | TH8_OP_EXPONENT => let* d := double_power fLeft fRight in Ok (DoubleValue d)
  | _ => Ok DoubleNone
  end.

Definition finish_double (it : I) (a : double_answer) (zLeft zRight : operand) : Z * I :=
  match a with
  | DoubleValue d => (TH8_OK, Th8_SetResultDouble it d)
  | DoubleTruth b => (TH8_OK, snd (set_int it (of_bool b)))
  | DoubleZero => (TH8_ERROR, say it "divide by zero")
  | DoubleNone =>
      (TH8_ERROR, complain it "expected integer, got: " (default (default [] (fst zRight)) (fst zLeft)))
  end.

(** A double operand; NULL is 0.0. *)
Definition double_of (it : I) (z : operand) : option D * I :=
  match fst z with
  | None => (Some d_zero, it)
  | Some b => Th8_ToDouble it b
  end.

(** Operators on numbers: integers when both operands are, else doubles. *)
Definition coerce_number (eOp : op_code) (zLeft zRight : operand) (it : I) : res fault (coerced * I) :=
  let iLeft := absent_or 0 silent_wide zLeft in
  let iRight := absent_or 0 silent_wide zRight in
  let integral z i := is_big it z || match i with Some _ => true | None => false end in
  match iLeft, iRight with
  | Some l, Some r => Ok (ToIntegers l r, it)
  | _, _ =>
      if Th8_IsBigintEnabled it && integral zLeft iLeft && integral zRight iRight then
        Ok (ToIntegers (default 0 iLeft) (default 0 iRight), it)
      else
        let '(fLeft, it) := double_of it zLeft in
        match fLeft with
        | None => Ok (Finished TH8_ERROR, it)
        | Some fLeft =>
            let '(fRight, it) := double_of it zRight in
            match fRight with
            | None => Ok (Finished TH8_ERROR, it)
            | Some fRight =>
                let* a := double_op eOp fLeft fRight in
                let '(rc, it) := finish_double it a zLeft zRight in
                Ok (Finished rc, it)
            end
        end
  end.

(** Operators on integers; [!] takes a boolean as well. *)
Definition coerce_integer (eOp : op_code) (zLeft zRight : operand) (it : I) : res fault (coerced * I) :=
  if big_operands it zLeft zRight then Ok (ToIntegers 0 0, it)
  else
    let* l := read zLeft in
    let '(iLeft, it) := to_wide it l in
    let '(iLeft, it) :=
      match iLeft with
      | None => if bool_decide (eOp = TH8_OP_LOGICAL_NOT) then to_boolean it l else (None, it)
      | Some _ => (iLeft, it)
      end in
    match iLeft with
    | None => Ok (Finished TH8_ERROR, it)
    | Some iLeft =>
        match fst zRight with
        | None => Ok (ToIntegers iLeft 0, it)
        | Some r =>
            let '(iRight, it) := to_wide it r in
            match iRight with
            | Some iRight => Ok (ToIntegers iLeft iRight, it)
            | None => Ok (Finished TH8_ERROR, it)
            end
        end
    end.

Definition coerce (o : Th8_Operator) (zLeft zRight : operand) (it : I) : res fault (coerced * I) :=
  match eArgType o with
  | TH8_ARG_NUMBER => coerce_number (eOp o) zLeft zRight it
  | TH8_ARG_INTEGER => coerce_integer (eOp o) zLeft zRight it
  | TH8_ARG_STRING => Ok (ToStrings, it)
  | TH8_ARG_NONE => Ok (Uncoerced, it)
  end.

Definition is_unary (eOp : op_code) : bool :=
  bool_decide (eOp = TH8_OP_UNARY_MINUS) || bool_decide (eOp = TH8_OP_UNARY_PLUS) ||
  bool_decide (eOp = TH8_OP_BITWISE_NOT) || bool_decide (eOp = TH8_OP_LOGICAL_NOT).

(** The arithmetic of big integers gets the texts. *)
Definition big_op (eOp : op_code) (zLeft zRight : operand) (it : I) : res fault (Z * I) :=
  let* l := read zLeft in
  if is_unary eOp then Ok (th8BigintUnary it eOp l)
  else let* r := read zRight in Ok (th8BigintArith it eOp l r).

Definition finish_integer (eOp : op_code) (iLeft iRight : Z) (zLeft zRight : operand) (it : I)
    : res fault (Z * I) :=
  if big_operands it zLeft zRight then big_op eOp zLeft zRight it
  else
    let* a := integer_op (bOverflowCheck it) (Th8_IsBigintEnabled it) eOp iLeft iRight in
    match a with
    | IntValue iRes => Ok (TH8_OK, snd (set_wide it iRes))
    | IntOverflow => Ok (TH8_ERROR, say it "integer overflow")
    | DivideByZero => Ok (TH8_ERROR, say it "divide by zero")
    | IntBig => big_op eOp zLeft zRight it
    | IntUnknown => Ok (TH8_ERROR, it)
    end.

(** Equal lengths, and Th8_Memcmp. *)
Definition same_text (zLeft zRight : operand) : res fault bool :=
  if TH8_LEN (snd zLeft) =? TH8_LEN (snd zRight) then
    let* l := read zLeft in let* r := read zRight in Ok (bool_decide (l = r))
  else Ok false.

Fixpoint find_element (zLeft : operand) (azElem : list bytes) : res fault bool :=
  match azElem with
  | [] => Ok false
  | e :: azElem' =>
      let* same := same_text zLeft (Some e, zlen e) in
      if same then Ok true else find_element zLeft azElem'
  end.

Definition finish_string (eOp : op_code) (zLeft zRight : operand) (it : I) : res fault (Z * I) :=
  match eOp with
  | TH8_OP_SEQ => let* b := same_text zLeft zRight in Ok (TH8_OK, snd (set_int it (of_bool b)))
  | TH8_OP_SNE => let* b := same_text zLeft zRight in Ok (TH8_OK, snd (set_int it (of_bool (negb b))))
  | TH8_OP_IN | TH8_OP_NI =>
      let* list := read zRight in
      let '(rc, azElem, it) := expr_split it list in
      if negb (rc =? TH8_OK) then Ok (rc, it)
      else
        let* found := find_element zLeft azElem in
        Ok (TH8_OK, snd (set_int it (of_bool (if bool_decide (eOp = TH8_OP_IN) then found else negb found))))
  | _ => Ok (TH8_ERROR, it)
  end.

Definition eval_operator (o : Th8_Operator) (pLeft pRight : option (eval_step I)) : eval_step I := λ it,
  let* (rc, zLeft, it) := eval_child pLeft it in
  if negb (rc =? TH8_OK) then Ok (rc, it)
  else
    let* (rc, zRight, it) := eval_child pRight it in
    if negb (rc =? TH8_OK) then Ok (rc, it)
    else
      let* (c, it) := coerce o zLeft zRight it in
      match c with
      | ToIntegers iLeft iRight => finish_integer (eOp o) iLeft iRight zLeft zRight it
      | ToStrings => finish_string (eOp o) zLeft zRight it
      | Finished rc => Ok (rc, it)
      | Uncoerced => Ok (TH8_OK, it)
      end.

(** *** The recursion *)

(** th8ExprEval around th8ExprEvalNode. *)
Definition depth_limited (node : eval_step I) : eval_step I := λ it,
  if Z.of_nat TH8_MX_EXPR_DEPTH <=? nExprDepth it then Ok (TH8_ERROR, say it "expression nested too deeply")
  else
    let* (rc, it) := node (set_nExprDepth (nExprDepth it + 1) it) in
    Ok (rc, set_nExprDepth (nExprDepth it - 1) it).

Definition when_ready (node : eval_step I) : eval_step I := λ it,
  let '(ready, it) := Th8_Ready it in if negb (ready =? TH8_OK) then Ok (TH8_ERROR, it) else node it.

Definition child (t : Th8_ExprNode) (f : eval_step I) : option (eval_step I) :=
  if is_null t then None else Some f.

Fixpoint th8ExprEval (t : Th8_ExprNode) : eval_step I :=
  depth_limited (when_ready
    match t with
    | NULL => λ _, Err NullDeref
    | Literal z _ => eval_literal z
    | Operator o l r =>
        match eOp o with
        | TH8_OP_TERNARY_Q =>
            eval_ternary (th8ExprEval l)
              match r with
              | Operator c yes no =>
                  if bool_decide (eOp c = TH8_OP_TERNARY_C) then Some (th8ExprEval yes, th8ExprEval no) else None
              | _ => None
              end
        | TH8_OP_VAR_ASSIGN => eval_assign (child l (th8ExprEval l)) (child r (th8ExprEval r))
        | TH8_OP_LOGICAL_AND => eval_logical true (th8ExprEval l) (th8ExprEval r)
        | TH8_OP_LOGICAL_OR => eval_logical false (th8ExprEval l) (th8ExprEval r)
        | _ => eval_operator o (child l (th8ExprEval l)) (child r (th8ExprEval r))
        end
    end).
End eval.
