(* ===== verification/ExprParse.v ===== *)
(** * ExprParse: from the text of an expression to its result (th8ExprParse,
    th8ExprEvalFunc, th8ExprEvalOne, th8ExprFindTopComma and Th8_Expr of
    src/src/th8_expr.c).

    The tokenizer calls back into Th8_Expr for the arguments of functions, which
    it evaluates, and into the scanners of Parser.  The text from a position on is
    a list of bytes; lengths of texts serve as fuel. *)

From S2P Require Import Prelude CharClass Memory Buffer Parser Subst Numbers ExprTree ExprArith ExprEval.
#[local] Open Scope Z_scope.
#[local] Open Scope res_scope.

(** ** Pieces of the text *)

(** White space, and line continuations. *)
Fixpoint skip_space (fuel : nat) (z : bytes) : bytes :=
  match fuel, z with
  | S fuel', c :: z' =>
      if th8IsSpace c then skip_space fuel' z'
      else
        match z' with
        | c2 :: z'' =>
            if (c =? "\"%ch) && ((c2 =? NEWLINE) || (c2 =? 13)) then
              skip_space fuel' (drop (span (λ c, (c =? " "%ch) || (c =? 9)) z'') z'')
            else z
        | [] => z
        end
  | _, _ => z
  end.

(** 0x, 0o, 0b in either case. *)
Definition has_prefix (z : bytes) : bool :=
  match z with
  | c :: c2 :: _ =>
      (c =? "0"%ch) && ((c2 =? "x"%ch) || (c2 =? "X"%ch) || (c2 =? "o"%ch) || (c2 =? "O"%ch) ||
                        (c2 =? "b"%ch) || (c2 =? "B"%ch))
  | _ => false
  end.

Definition is_e (c : Z) : bool := (c =? "e"%ch) || (c =? "E"%ch).

(** The length of a number; a sign belongs to it after an [e]. *)
Fixpoint number_span (after_e : bool) (z : bytes) : nat :=
  match z with
  | c :: z' =>
      if th8IsDigit c || (c =? "."%ch) || is_e c || (((c =? "+"%ch) || (c =? "-"%ch)) && after_e)
      then S (number_span (is_e c) z') else O
  | [] => O
  end.

(** From behind an opening quote: the length up to the closing quote and with it. *)
Fixpoint quote_span (z : bytes) : nat :=
  match z with
  | [] => O
  | c :: z' =>
      if c =? DQUOTE then 1%nat
      else if c =? "\"%ch then
        match z' with
        | _ :: z'' => S (S (quote_span z''))
        | [] => 1%nat
        end
      else S (quote_span z')
  end.

(** From behind an open parenthesis: how many bytes precede the matching one. *)
Fixpoint close_paren (nParen : nat) (z : bytes) : option nat :=
  match z with
  | [] => None
  | c :: z' =>
      if c =? "("%ch then S <$> close_paren (S nParen) z'
      else if c =? ")"%ch then
        match nParen with
        | S (S n) => S <$> close_paren (S n) z'
        | _ => Some O
        end
      else S <$> close_paren nParen z'
  end.

(** The first comma outside of parentheses. *)
Fixpoint arg_comma (depth : Z) (z : bytes) : option nat :=
  match z with
  | [] => None
  | c :: z' =>
      if c =? "("%ch then S <$> arg_comma (depth + 1) z'
      else if c =? ")"%ch then S <$> arg_comma (depth - 1) z'
      else if (c =? ","%ch) && (depth =? 0) then Some O
      else S <$> arg_comma depth z'
  end.

(** ** Operators *)

Fixpoint starts_with (p z : bytes) : bool :=
  match p, z with
  | [], _ => true
  | c :: p', d :: z' => (c =? d) && starts_with p' z'
  | _, [] => false
  end.

(** A token after which [+] and [-] are binary. *)
Definition is_term_token (t : Th8_ExprNode) : bool :=
  match t with
  | NULL => false
  | Literal _ _ => true
  | Operator o l _ => negb (is_null l) || bool_decide (eOp o = TH8_OP_CLOSE_BRACKET)
  end.

Definition next_is_alnum (z : bytes) : bool :=
  match z with c :: _ => th8IsAlnum c | [] => false end.

(** One row of the table against the text, and the token before. *)
Definition row_matches (features : Z) (prev : option Th8_ExprNode) (z : bytes) (o : Th8_Operator) : bool :=
  (Z.land features (nReqFlag o) =? nReqFlag o) && starts_with (zOp o) z &&
  negb (th8IsAlpha (hd 0 (zOp o)) && next_is_alnum (drop (length (zOp o)) z)) &&
  negb ((iPrecedence o =? 1) && match prev with Some t => is_term_token t | None => false end).

Definition match_operator (features : Z) (prev : option Th8_ExprNode) (z : bytes) : option Th8_Operator :=
  find (row_matches features prev z) th8Operators.

(** ** The tokenizer *)

Section parse.
Context {I D : Type} `{EI : ExprInterp I D}.
Context (realloc_ok alloc_ok : Z → bool).

(** TH8_ALLOC and TH8_ALLOC_STR. *)
Definition TH8_ALLOC (it : I) (n : Z) : bool * I :=
  if (n =? 0) || (TH8_MX_ALLOC <? n) then (false, it) else expr_alloc it n.
Definition TH8_ALLOC_STR (it : I) (n : Z) : bool * I :=
  match add_size n 1 with Some n => TH8_ALLOC it n | None => (false, it) end.

(** The code, the token and the text behind it; no token where it failed. *)
Abbreviation scanned := (Z * option (Th8_ExprNode * bytes) * I)%type (only parsing).

(** The first [n] bytes are a literal. *)
Definition literal_span (it : I) (z : bytes) (n : nat) : scanned :=
  let '(ok, it) := TH8_ALLOC_STR it (Z.of_nat n) in
  if ok then (TH8_OK, Some (Literal (take n z) 0, drop n z), it)
  else (TH8_ERROR, None, set_out_of_memory it).

Section arguments.
(** Th8_Expr on an argument, and the whole expression, for messages. *)
Context (expr : bytes → eval_step I) (zExpr : bytes).

Definition th8ExprEvalFunc (it : I) (zFunc : bytes) (zArg1 zArg2 : operand) : Z * I :=
  match math_func it zFunc with
  | Some xProc => xProc zArg1 zArg2 it
  | None => (TH8_ERROR, complain it "unknown math function " zFunc)
  end.

(** An argument that is there is evaluated, and its result taken. *)
Definition eval_arg (arg : option bytes) (it : I) : res fault (Z * operand * I) :=
  match arg with
  | None => Ok (TH8_OK, (None, 0), it)
  | Some z =>
      let* (rc, it) := expr z it in
      if negb (rc =? TH8_OK) then Ok (rc, (None, 0), it)
      else let '(a, it) := th8TakeResultInternal it in Ok (TH8_OK, a, it)
  end.

(** The arguments: none in empty parentheses, two around a comma. *)
Definition split_args (zArgs : bytes) : option bytes * option bytes :=
  match zArgs with
  | [] => (None, None)
  | _ =>
      match arg_comma 0 zArgs with
      | Some k => (Some (take k zArgs), Some (drop (S k) zArgs))
      | None => (Some zArgs, None)
      end
  end.

(** The call of the function [zFunc]; [z] starts behind its parenthesis.  The
    result becomes a literal. *)
Definition call_token (it : I) (zFunc z : bytes) : res fault scanned :=
  match close_paren 1 z with
  | None => Ok (TH8_ERROR, None, complain it "unmatched ( in expression: " zExpr)
  | Some n =>
      let '(arg1, arg2) := split_args (take n z) in
      let* (rc, zArg1, it) := eval_arg arg1 it in
      if negb (rc =? TH8_OK) then Ok (rc, None, it)
      else
        let* (rc, zArg2, it) := eval_arg arg2 it in
        if negb (rc =? TH8_OK) then Ok (rc, None, it)
        else
          let '(rc, it) := th8ExprEvalFunc it zFunc zArg1 zArg2 in
          if negb (rc =? TH8_OK) then Ok (rc, None, it)
          else
            let '(zRes, nRes) := Th8_GetResult it in
            let '(ok, it) := TH8_ALLOC_STR it nRes in
            if ok then
              Ok (TH8_OK, Some (Literal zRes (Z.land nRes TH8_TAG_BITS), drop (S n) z), it)
            else Ok (TH8_ERROR, None, say it "out of memory")
  end.

Definition identifier_token (it : I) (z : bytes) : res fault scanned :=
  let n := span th8IsAlnum z in
  let id := take n z in
  if (0 <? n)%nat && next_is "("%ch (drop n z) then call_token it id (drop (S n) z)
  else if (0 <? n)%nat then
    if is_ok (ToBoolean_parse (λ _, false) (λ z, (λ d, negb (d_eq d d_zero)) <$> to_double z) false id) ||
       match to_double id with Some _ => true | None => false end
    then
      let '(ok, it) := TH8_ALLOC_STR it (Z.of_nat n) in
      if ok then Ok (TH8_OK, Some (Literal id 0, drop n z), it)
      else Ok (TH8_ERROR, None, say it "out of memory")
    else Ok (TH8_ERROR, None, complain it "invalid bareword " (take 63 id))
  else Ok (TH8_ERROR, None, complain it "syntax error in expression: " zExpr).

(** The token at the front of a text that is not empty. *)
Definition scan_token (it : I) (prev : option Th8_ExprNode) (z : bytes) : res fault scanned :=
  let c := hd 0 z in
  if has_prefix z then Ok (literal_span it z (2 + span th8IsAlnum (drop 2 z)))
  else if th8IsDigit c || (c =? "."%ch) then Ok (literal_span it z (number_span false z))
  else if c =? "$"%ch then
    match th8NextVarName z with
    | Ok nVar => Ok (literal_span it z nVar)
    | Err e => Ok (TH8_ERROR, None, Th8_ErrorMessage it e)
    end
  else if (c =? "{"%ch) || (c =? "["%ch) then
    match th8NextCommand realloc_ok z with
    | Ok nCmd => Ok (literal_span it z nCmd)
    | Err e => Ok (TH8_ERROR, None, Th8_ErrorMessage it e)
    end
  else if c =? DQUOTE then Ok (literal_span it z (S (quote_span (tail z))))
  else
    match match_operator (Th8_GetExprFeatures it) prev z with
    | Some o => Ok (TH8_OK, Some (token o, drop (length (zOp o)) z), it)
    | None => identifier_token it z
    end.

(** The array of tokens grows to twice its size and 16. *)
Definition grow_tokens (nToken nAlloc : Z) (it : I) : option Z * I :=
  if nAlloc <=? nToken then
    if 0x3fffffff <? nAlloc then (None, say it "expression too complex")
    else
      let nNew := nAlloc * 2 + 16 in
      match mul_size 8 nNew with
      | None => (None, say it "expression too complex")
      | Some nBytes =>
          let '(ok, it) := TH8_ALLOC it nBytes in
          if ok then (Some nNew, it) else (None, set_out_of_memory it)
      end
  else (Some nAlloc, it).

Definition sizeof_node : Z := 48.

(** The tokens so far, the last one first. *)
Fixpoint parse_loop (fuel : nat) (nAlloc : Z) (toks : list Th8_ExprNode) (z : bytes) (it : I)
    : res fault (Z * list Th8_ExprNode * I) :=
  match fuel, z with
  | S fuel', _ :: _ =>
      let '(ready, it) := Th8_Ready it in
      if negb (ready =? TH8_OK) then Ok (TH8_ERROR, toks, it)
      else
        let z := skip_space (length z) z in
        match z with
        | [] => Ok (TH8_OK, toks, it)
        | _ =>
            let '(ok, it) := TH8_ALLOC it sizeof_node in
            if negb ok then Ok (TH8_ERROR, toks, set_out_of_memory it)
            else
              let* (rc, t, it) := scan_token it (head toks) z in
              match t with
              | None => Ok (rc, toks, it)
              | Some (t, rest) =>
                  let '(nAlloc, it) := grow_tokens (zlen toks) nAlloc it in
                  match nAlloc with
                  | None => Ok (TH8_ERROR, toks, it)
                  | Some nAlloc => parse_loop fuel' nAlloc (t :: toks) rest it
                  end
              end
        end
  | _, _ => Ok (TH8_OK, toks, it)
  end.

Definition th8ExprParse (it : I) : res fault (Z * list Th8_ExprNode * I) :=
  let* (rc, toks, it) := parse_loop (length zExpr) 0 [] zExpr it in
  Ok (rc, rev toks, it).
End arguments.

(** ** One expression *)

#[export] Instance expr_tree : TreeInterp I := {
  tree_ready := Th8_Ready;
  set_too_deep it := say it "expression nested too deeply"
}.

(** A prefix other than decimal, or a leading zero; the lengths are tagged, and
    behind the bytes there is a NUL. *)
Definition non_decimal (z : bytes) (n : Z) : bool :=
  let c := nth 1 z 0 in
  (1 <? n) && (nth 0 z 0 =? "0"%ch) &&
  (has_prefix z && negb (n =? 2) || between "0"%ch "7"%ch c).

Definition normalise (it : I) : I :=
  let '(zRes, nRes) := Th8_GetResult it in
  if non_decimal zRes nRes then
    match silent_wide zRes with Some wVal => snd (set_wide it wVal) | None => it end
  else it.

Definition too_deep_text : bytes := bytes_of_string "expression nested too deeply".

Definition th8ExprEvalOne (expr : bytes → eval_step I) (zExpr : bytes) : eval_step I := λ it,
  let* (rc, apToken, it) := th8ExprParse expr zExpr it in
  if negb (rc =? TH8_OK) then Ok (rc, it)
  else
    match apToken with
    | [] => Ok (TH8_ERROR, complain it "syntax error in expression: " zExpr)
    | _ =>
        let '(rc, apToken, it) := th8ExprMakeTree apToken 0 it in
        if negb (rc =? TH8_OK) then
          let '(zMsg, nMsg) := Th8_GetResult it in
          if (nMsg =? zlen too_deep_text) && bool_decide (zMsg = too_deep_text) then Ok (rc, it)
          else Ok (rc, complain it "syntax error in expression: " zExpr)
        else
          let* (rc, it) := th8ExprEval realloc_ok alloc_ok (hd NULL apToken) it in
          Ok (rc, if rc =? TH8_OK then normalise it else it)
    end.
End parse.

(** ** Sequences of expressions *)

(** The nesting a comma has to be outside of. *)
Record nesting : Type := mkNesting {
  parenDepth : Z; bracketDepth : Z; braceDepth : Z; inQuote : bool
}.

Definition nest_step (c : Z) (s : nesting) : nesting :=
  let '(mkNesting p b r q) := s in
  let down d := if 0 <? d then d - 1 else d in
  if q then
    if (c =? DQUOTE) && (b =? 0) then mkNesting p b r false
    else if c =? "["%ch then mkNesting p (b + 1) r q
    else if (c =? "]"%ch) && (0 <? b) then mkNesting p (b - 1) r q
    else s
  else if c =? DQUOTE then mkNesting p b r true
  else if c =? "("%ch then mkNesting (p + 1) b r q
  else if c =? ")"%ch then mkNesting (down p) b r q
  else if c =? "["%ch then mkNesting p (b + 1) r q
  else if c =? "]"%ch then mkNesting p (down b) r q
  else if c =? "{"%ch then mkNesting p b (r + 1) q
  else if c =? "}"%ch then mkNesting p b (down r) q
  else s.

Definition outermost (s : nesting) : bool :=
  negb (inQuote s) && (parenDepth s =? 0) && (bracketDepth s =? 0) && (braceDepth s =? 0).

Fixpoint top_comma (s : nesting) (z : bytes) : option nat :=
  match z with
  | [] => None
  | c :: z' =>
      match z' with
      | _ :: z'' =>
          if c =? "\"%ch then S <$> (S <$> top_comma s z'')
          else if (c =? ","%ch) && outermost s then Some O
          else S <$> top_comma (nest_step c s) z'
      | [] => if (c =? ","%ch) && outermost s then Some O else None
      end
  end.

Definition th8ExprFindTopComma (z : bytes) : option nat := top_comma (mkNesting 0 0 0 false) z.

Section expr.
Context {I D : Type} `{EI : ExprInterp I D}.
Context (realloc_ok alloc_ok : Z → bool).

Fixpoint expr_sequence (fuel : nat) (one : bytes → eval_step I) (z : bytes) : eval_step I := λ it,
  match fuel, th8ExprFindTopComma z with
  | S fuel', Some iComma =>
      let* (rc, it) := one (take iComma z) it in
      if negb (rc =? TH8_OK) then Ok (rc, it) else expr_sequence fuel' one (drop (S iComma) z) it
  | _, _ => one z it
  end.

(** Behind the taint check; an argument of a function is shorter than the
    expression, so its length is enough fuel. *)
Fixpoint expr_clean (fuel : nat) (zExpr : bytes) : eval_step I := λ it,
  match fuel with
  | O => Ok (TH8_ERROR, it)
  | S fuel' =>
      let one := th8ExprEvalOne realloc_ok alloc_ok (expr_clean fuel') in
      if negb (Z.land (Th8_GetExprFeatures it) TH8_EXPR_TOP_COMMA =? 0)
      then expr_sequence (length zExpr) one zExpr it else one zExpr it
  end.

(** The length of [zExpr] carries the tags [nTag]. *)
Definition Th8_Expr (zExpr : bytes) (nTag : Z) : eval_step I := λ it,
  let nExpr := Z.lor (zlen zExpr) nTag in
  let '(refuse, it) :=
    if TH8_TAINTED nExpr then Th8_ReportTaint it zExpr nExpr else (false, it) in
  if refuse then Ok (TH8_ERROR, it) else expr_clean (S (length zExpr)) zExpr it.
End expr.
