(* ===== verification/ExprFuel.v ===== *)
(** * ExprFuel: evaluating an expression terminates.

    The loops of ExprParse take the length of the text as fuel.  A token is never
    empty, a text behind a comma is shorter, and so is the argument of a
    function, so the fuel never runs out, and the evaluation of an expression
    is the recursion the C functions are. *)

From S2P Require Import Prelude CharClass Memory Buffer Parser Subst Numbers ExprTree ExprArith ExprEval ExprParse.
#[local] Open Scope Z_scope.
#[local] Open Scope res_scope.

(** ** Lengths *)

Lemma skip_space_shorter fuel : ∀ z, (length (skip_space fuel z) <= length z)%nat.
Proof.
  induction fuel as [|fuel IH]; intros z; [done|]. destruct z as [|c z]; [done|]. cbn [skip_space].
  case_if; [specialize (IH z); simpl; lia|]. destruct z as [|c2 z]; [done|]. case_if; [|done].
  etrans; [apply IH|]. rewrite length_drop. simpl. lia.
Qed.

Lemma close_paren_inside z : ∀ k n, close_paren k z = Some n → (n < length z)%nat.
Proof.
  induction z as [|c z IH]; intros k n; [done|]. cbn [close_paren].
  repeat case_if; try destruct k as [|[|k]]; intros H; simplify_option_eq; simpl; try lia;
    match goal with H : close_paren _ _ = Some _ |- _ => apply IH in H; lia end.
Qed.

Lemma arg_comma_inside z : ∀ d n, arg_comma d z = Some n → (n < length z)%nat.
Proof.
  induction z as [|c z IH]; intros k n; [done|]. cbn [arg_comma].
  repeat case_if; intros H; simplify_option_eq; simpl; try lia;
    match goal with H : arg_comma _ _ = Some _ |- _ => apply IH in H; lia end.
Qed.

Lemma split_args_shorter z :
  match fst (split_args z) with Some a => (length a <= length z)%nat | None => True end ∧
  match snd (split_args z) with Some a => (length a <= length z)%nat | None => True end.
Proof.
  unfold split_args. destruct z as [|c z]; [done|].
  destruct (arg_comma 0 (c :: z)) as [k|] eqn:E; cbn [fst snd]; [|split; [lia|done]].
  rewrite length_take, length_drop. split; lia.
Qed.

Lemma top_comma_cons s c c2 z :
  top_comma s (c :: c2 :: z) =
    if c =? "\"%ch then S <$> (S <$> top_comma s z)
    else if (c =? ","%ch) && outermost s then Some O
    else S <$> top_comma (nest_step c s) (c2 :: z).
Proof. reflexivity. Qed.

Lemma top_comma_inside z : ∀ s n, top_comma s z = Some n → (n < length z)%nat.
Proof.
  induction z as [z IH] using (induction_ltof1 _ length). unfold ltof in IH. intros s n.
  destruct z as [|c [|c2 z]]; [done|cbn [top_comma]; case_if; intros; simplify_eq; simpl; lia|].
  rewrite top_comma_cons. intros H. destruct (c =? "\"%ch); [|destruct ((c =? ","%ch) && _)].
  - apply fmap_Some in H as (k & H & ->). apply fmap_Some in H as (k' & H & ->). apply IH in H; simpl in *; lia.
  - injection H as <-. simpl. lia.
  - apply fmap_Some in H as (k & H & ->). apply IH in H; simpl in *; lia.
Qed.

Lemma number_span_pos c z : th8IsDigit c || (c =? "."%ch) = true → (1 <= number_span false (c :: z))%nat.
Proof. intros H. cbn [number_span]. rewrite H. simpl. lia. Qed.

Lemma match_operator_shorter features prev z o :
  match_operator features prev z = Some o → (length (drop (length (zOp o)) z) < length z)%nat.
Proof.
  intros H. apply find_some in H as [Ho Hm]. unfold row_matches in Hm. bool_to_prop.
  assert (1 <= length (zOp o))%nat by (repeat (destruct Ho as [<-|Ho]; [simpl; lia|]); destruct Ho).
  assert (1 <= length z)%nat by (destruct z; [destruct (zOp o); simpl in *; [lia|done]|simpl; lia]).
  rewrite length_drop. lia.
Qed.

(** ** The tokens *)

Section fuel.
Context {I D : Type} `{EI : ExprInterp I D}.
Context (realloc_ok alloc_ok : Z → bool).
Implicit Types (it : I) (z : bytes).

(** Where a token was found the text behind it is shorter. *)
Definition shorter (z : bytes) (s : Z * option (Th8_ExprNode * bytes) * I) : Prop :=
  match s with (_, Some (_, rest), _) => (length rest < length z)%nat | _ => True end.

Lemma literal_span_shorter it z n : (1 <= n)%nat → z ≠ [] → shorter z (literal_span it z n).
Proof.
  intros Hn Hz. unfold literal_span. destruct (TH8_ALLOC_STR it _) as [[] it1]; [|done]. simpl.
  rewrite length_drop. destruct z; [done|simpl; lia].
Qed.

Lemma res_bind_ok {E A B} (m : res E A) (k : A → res E B) b :
  res_bind m k = Ok b → ∃ a, m = Ok a ∧ k a = Ok b.
Proof. destruct m as [a|e]; [by exists a|done]. Qed.

Lemma call_token_shorter expr zExpr it zFunc z z' s : (length z < length z')%nat →
  call_token expr zExpr it zFunc z = Ok s → shorter z' s.
Proof.
  intros Hz. unfold call_token. destruct (close_paren 1 z) as [n|]; [|by intros [= <-]].
  destruct (split_args _) as [a1 a2]. intros ([[rc z1] it1] & _ & H)%res_bind_ok.
  destruct (negb _); [by injection H as <-|]. apply res_bind_ok in H as ([[rc2 z2] it2] & _ & H).
  destruct (negb _); [by injection H as <-|]. destruct (th8ExprEvalFunc _ _ _ _) as [rc3 it3].
  destruct (negb _); [by injection H as <-|]. destruct (Th8_GetResult it3).
  destruct (TH8_ALLOC_STR it3 _) as [[] it4]; injection H as <-; [|done]. simpl. rewrite length_drop. lia.
Qed.

Lemma scan_shorter expr zExpr it prev z s : z ≠ [] →
  scan_token realloc_ok expr zExpr it prev z = Ok s → shorter z s.
Proof.
  intros Hz. destruct z as [|c z]; [done|]. unfold scan_token. cbn [hd tail].
  case_if; [intros [= <-]; by apply literal_span_shorter; [lia|]|].
  destruct (th8IsDigit c || (c =? "."%ch)) eqn:Ed.
  { intros [= <-]. apply literal_span_shorter; [by apply number_span_pos|done]. }
  case_if.
  { destruct (th8NextVarName (c :: z)) eqn:E; intros [= <-]; [|done].
    apply NextVarName_bounds in E; [|done]. apply literal_span_shorter; [lia|done]. }
  case_if.
  { destruct (th8NextCommand _ (c :: z)) eqn:E; intros [= <-]; [|done].
    apply NextCommand_bounds in E. apply literal_span_shorter; [lia|done]. }
  case_if; [intros [= <-]; apply literal_span_shorter; [lia|done]|].
  destruct (match_operator _ _ _) as [o|] eqn:Eo; [intros [= <-]; by apply match_operator_shorter in Eo|].
  unfold identifier_token. set (n := span th8IsAlnum (c :: z)). case_if.
  { apply call_token_shorter. rewrite length_drop. simpl. lia. }
  destruct (Nat.ltb_spec 0 n); [|by intros [= <-]].
  case_if; [|by intros [= <-]]. destruct (TH8_ALLOC_STR _ _) as [[] it1]; intros [= <-]; [|done].
  unfold shorter. rewrite length_drop. simpl length. lia.
Qed.

(** ** Functions that agree on short texts *)

Definition agree (k : nat) (e1 e2 : bytes → eval_step I) : Prop :=
  ∀ z, (length z < k)%nat → ∀ it, e1 z it = e2 z it.

Lemma agree_le k k' e1 e2 : (k' <= k)%nat → agree k e1 e2 → agree k' e1 e2.
Proof. intros Hk H z Hz. apply H. lia. Qed.

Lemma res_bind_ext {E A B} (m : res E A) (k k' : A → res E B) :
  (∀ a, m = Ok a → k a = k' a) → res_bind m k = res_bind m k'.
Proof. intros H. destruct m as [a|e]; [by apply H|done]. Qed.

Lemma eval_arg_agree e1 e2 arg it :
  match arg with Some a => ∀ it, e1 a it = e2 a it | None => True end → eval_arg e1 arg it = eval_arg e2 arg it.
Proof. intros H. destruct arg as [a|]; [|done]. unfold eval_arg. by rewrite H. Qed.

Lemma call_token_agree zExpr e1 e2 it zFunc z : agree (length z) e1 e2 →
  call_token e1 zExpr it zFunc z = call_token e2 zExpr it zFunc z.
Proof.
  intros H. unfold call_token. destruct (close_paren 1 z) as [n|] eqn:En; [|done].
  apply close_paren_inside in En. pose proof (split_args_shorter (take n z)) as [H1 H2].
  rewrite length_take in H1, H2. destruct (split_args _) as [a1 a2]. cbn [fst snd] in *.
  rewrite (eval_arg_agree e1 e2 a1 it) by (destruct a1; [intros; apply H; lia|done]).
  apply res_bind_ext. intros [[rc z1] it1] _. case_if; [done|].
  by rewrite (eval_arg_agree e1 e2 a2 it1) by (destruct a2; [intros; apply H; lia|done]).
Qed.

Lemma scan_agree zExpr e1 e2 it prev z : agree (length z) e1 e2 →
  scan_token realloc_ok e1 zExpr it prev z = scan_token realloc_ok e2 zExpr it prev z.
Proof.
  intros H. unfold scan_token. repeat (case_if; [done|]). destruct (match_operator _ _ _); [done|].
  unfold identifier_token. case_if; [|done]. apply call_token_agree. eapply agree_le, H.
  rewrite length_drop. lia.
Qed.

Lemma parse_loop_agree zExpr e1 e2 fuel : ∀ nAlloc toks z it, agree (length z) e1 e2 →
  parse_loop realloc_ok e1 zExpr fuel nAlloc toks z it = parse_loop realloc_ok e2 zExpr fuel nAlloc toks z it.
Proof.
  induction fuel as [|fuel IH]; intros nAlloc toks z it H; [done|]. cbn [parse_loop].
  destruct z as [|c z]; [done|]. destruct (Th8_Ready it) as [rc it1]. case_if; [done|].
  pose proof (skip_space_shorter (length (c :: z)) (c :: z)) as Hs. destruct (skip_space _ _) as [|d y]; [done|].
  destruct (TH8_ALLOC it1 sizeof_node) as [[] it2]; cbn [negb]; [|done].
  rewrite (scan_agree zExpr e1 e2) by (by eapply agree_le, H). apply res_bind_ext. intros [[rc2 t] it3] Et.
  apply scan_shorter in Et; [|done]. destruct t as [[t rest]|]; [|done]. simpl in Et.
  destruct (grow_tokens _ _ _) as [[n|] it4]; [|done]. apply IH. eapply agree_le, H. simpl in *. lia.
Qed.

(** *** Enough fuel is enough *)

Lemma parse_loop_fuel zExpr e m : ∀ n nAlloc toks z it, (length z <= m)%nat → (length z <= n)%nat →
  parse_loop realloc_ok e zExpr m nAlloc toks z it = parse_loop realloc_ok e zExpr n nAlloc toks z it.
Proof.
  induction m as [|m IH]; intros n nAlloc toks z it Hm Hn.
  { destruct z; [|simpl in Hm; lia]. by destruct n. }
  destruct z as [|c z]; [by destruct n|]. destruct n as [|n]; [simpl in Hn; lia|]. cbn [parse_loop].
  destruct (Th8_Ready it) as [rc it1]. case_if; [done|].
  pose proof (skip_space_shorter (length (c :: z)) (c :: z)) as Hs. destruct (skip_space _ _) as [|d y]; [done|].
  destruct (TH8_ALLOC it1 sizeof_node) as [[] it2]; cbn [negb]; [|done]. apply res_bind_ext. intros [[rc2 t] it3] Et.
  apply scan_shorter in Et; [|done]. destruct t as [[t rest]|]; [|done]. simpl in Et.
  destruct (grow_tokens _ _ _) as [[k|] it4]; [|done]. apply IH; simpl in *; lia.
Qed.

Lemma EvalOne_agree e1 e2 z it : agree (length z) e1 e2 →
  th8ExprEvalOne realloc_ok alloc_ok e1 z it = th8ExprEvalOne realloc_ok alloc_ok e2 z it.
Proof. intros H. unfold th8ExprEvalOne, th8ExprParse. by rewrite (parse_loop_agree z e1 e2). Qed.

Lemma expr_sequence_agree one1 one2 m : ∀ n z it, (length z <= m)%nat → (length z <= n)%nat →
  agree (S (length z)) one1 one2 → expr_sequence m one1 z it = expr_sequence n one2 z it.
Proof.
  assert (Hstop : ∀ one f z it, th8ExprFindTopComma z = None → expr_sequence f one z it = one z it).
  { intros one f z it H. destruct f; [done|]. cbn [expr_sequence]. by rewrite H. }
  induction m as [|m IH]; intros n z it Hm Hn H; (destruct (th8ExprFindTopComma z) as [k|] eqn:E;
    [|rewrite !Hstop by done; apply H; lia]); pose proof (top_comma_inside _ _ _ E) as Hk; [lia|].
  destruct n as [|n]; [lia|]. cbn [expr_sequence]. rewrite E.
  rewrite (H (take k z)) by (rewrite length_take; lia). apply res_bind_ext. intros [rc it1] _. case_if; [done|].
  apply IH; rewrite ?length_drop; try lia. eapply agree_le, H. lia.
Qed.

(** What Th8_Expr does behind the taint check, [expr] being what it does for an
    argument. *)
Definition expr_step (expr : bytes → eval_step I) (z : bytes) : eval_step I := λ it,
  let one := th8ExprEvalOne realloc_ok alloc_ok expr in
  if negb (Z.land (Th8_GetExprFeatures it) TH8_EXPR_TOP_COMMA =? 0) then expr_sequence (length z) one z it
  else one z it.

Lemma expr_step_agree e1 e2 z it : agree (length z) e1 e2 → expr_step e1 z it = expr_step e2 z it.
Proof.
  intros H. unfold expr_step. case_if; [|by apply EvalOne_agree].
  apply expr_sequence_agree; [done..|]. intros y Hy it1. apply EvalOne_agree. eapply agree_le, H. lia.
Qed.

Lemma expr_clean_fuel m : ∀ n z it, (length z < m)%nat → (length z < n)%nat →
  expr_clean realloc_ok alloc_ok m z it = expr_clean realloc_ok alloc_ok n z it.
Proof.
  induction m as [|m IH]; intros n z it Hm Hn; [lia|]. destruct n as [|n]; [lia|].
  change (expr_step (expr_clean realloc_ok alloc_ok m) z it = expr_step (expr_clean realloc_ok alloc_ok n) z it).
  apply expr_step_agree. intros y Hy it1. apply IH; lia.
Qed.

(** C28.  Evaluating an expression terminates: whatever the fuel beyond the length of
    the text, the result is the same, and it is the one of the recursion the C
    functions are, where an argument of a function is evaluated by the very
    function that evaluates the expression; the tokenizer stops at the end of the
    text and never before it for lack of fuel. *)
Theorem expr_terminates (z : bytes) (it : I) (fuel : nat) (Hf : (length z < fuel)%nat) :
  let eval := λ z, expr_clean realloc_ok alloc_ok (S (length z)) z in
  expr_clean realloc_ok alloc_ok fuel z it = eval z it ∧
  eval z it = expr_step eval z it ∧
  (∀ n nAlloc toks y it', (length y <= n)%nat →
     parse_loop realloc_ok eval z n nAlloc toks y it' = parse_loop realloc_ok eval z (length y) nAlloc toks y it').
Proof.
  cbv zeta. split_and!; [by apply expr_clean_fuel; lia| |by intros; apply parse_loop_fuel].
  apply expr_step_agree. intros y Hy it1. apply expr_clean_fuel; lia.
Qed.
End fuel.
