(* ===== verification/ExprSafety.v ===== *)
(** * ExprSafety: no expression runs into undefined behaviour, but for the
    exponent of doubles.

    Whatever tokens the builder accepts, the slot that is evaluated holds a tree
    whose operators have the operands the evaluator reads.  An operand whose
    result cannot be copied is NULL, and without the overflow check integers
    overflow: both are conditions of the theorem, and each has a run
    without it, in ExprShell and in the witness of ExprArith. *)

From S2P Require Import Prelude CharClass Memory Buffer Parser Subst Numbers ExprTree ExprArith ExprEval ExprParse.
#[local] Open Scope Z_scope.
#[local] Open Scope res_scope.

(** The rows of the table, one by one. *)
Ltac table_cases Ho :=
  unfold th8Operators in Ho;
  repeat (apply elem_of_cons in Ho as [->|Ho]; [first [discriminate | cbn in *; lia | cbn in *; auto; done]|]);
  try by apply elem_of_nil in Ho.

(** ** Trees that can be evaluated *)

Inductive evaluable : Th8_ExprNode → Prop :=
| E_literal z n : evaluable (Literal z n)
| E_unary o x : o ∈ th8Operators → iPrecedence o = 1 → evaluable x → evaluable (Operator o x NULL)
| E_binary o x y :
    o ∈ th8Operators → 2 <= iPrecedence o <= 13 → evaluable x → evaluable y → evaluable (Operator o x y)
| E_ternary o c x y z :
    eOp o = TH8_OP_TERNARY_Q → eOp c = TH8_OP_TERNARY_C →
    evaluable x → evaluable y → evaluable z → evaluable (Operator o x (Operator c y z))
| E_assign o x y : eOp o = TH8_OP_VAR_ASSIGN → evaluable x → evaluable y → evaluable (Operator o x y).

(** What a slot holds while the tree is built. *)
Inductive well : Th8_ExprNode → Prop :=
| W_null : well NULL
| W_tree t : evaluable t → well t
| W_token o : o ∈ th8Operators → well (token o).

Lemma evaluable_not_null t : evaluable t → is_null t = false.
Proof. by inversion 1. Qed.

Lemma term_evaluable t : well t → TH8_ISTERM t = true → evaluable t.
Proof. by inversion 1. Qed.

Lemma evaluable_bound t : evaluable t → unbound t = None.
Proof.
  intros H. inversion H as [| ? ? ? ? Hx|? ? ? ? ? Hx|? ? ? ? ? ? ? Hx|? ? ? ? Hx]; subst; try done;
    apply evaluable_not_null in Hx; by destruct x.
Qed.

Lemma well_unbound t o : well t → unbound t = Some o → o ∈ th8Operators ∧ t = token o.
Proof.
  intros [|t' Ht|o' Ho]; [done| |by intros [= ->]]. by rewrite evaluable_bound.
Qed.

(** Slots that hold something, and whose unbound operators are in [P]. *)
Record slots_good (P : Th8_Operator → Prop) (ap : list Th8_ExprNode) : Prop := {
  good_well : Forall well ap;
  good_unbound : ∀ t o, t ∈ ap → unbound t = Some o → P o;
  good_alive : Exists (λ t, is_null t = false) ap
}.

Lemma slots_good_perm P a b : a ≡ₚ b → slots_good P a → slots_good P b.
Proof.
  intros Hp [H1 H2 H3]. split.
  - by rewrite <- Hp.
  - intros t o. rewrite <- Hp. apply H2.
  - apply Exists_exists in H3 as (x & Hx & ?). apply Exists_exists. exists x. by rewrite <- Hp.
Qed.

Lemma slots_good_rev_append P a b : slots_good P (a ++ b) → slots_good P (rev_append a b).
Proof. apply slots_good_perm. by rewrite rev_append_rev, <- Permutation_rev. Qed.

Lemma well_taken ap x r : take_operand ap = Some (x, r) → Forall well ap →
  well x ∧ Forall well r ∧ (∀ t o, t ∈ r → unbound t = Some o → t ∈ ap).
Proof.
  intros (n & rest & -> & ->)%take_operand_shape H. apply Forall_app in H as [Hn [Hx Hr]%Forall_cons].
  split_and!; [done| |].
  - apply Forall_app. split; [done|]. constructor; [constructor|done].
  - intros t o Ht Ho. apply elem_of_app in Ht as [Ht|Ht]; [apply elem_of_app; by left|].
    apply elem_of_cons in Ht as [->|Ht]; [done|]. apply elem_of_app. right. by right.
Qed.

(** The loop that binds the operators [sel] leaves none of them unbound. *)
Lemma bind_loop_good sel mk (P Q : Th8_Operator → Prop) fuel : ∀ done todo,
  (∀ o x y, o ∈ th8Operators → sel o = true → evaluable x → evaluable y → evaluable (mk o x y)) →
  (∀ o, Q o → sel o = false → P o) →
  Forall well done → Forall well todo →
  (∀ t o, t ∈ done → unbound t = Some o → P o) → (∀ t o, t ∈ todo → unbound t = Some o → Q o) →
  Exists (λ t, is_null t = false) (done ++ todo) → (length todo <= fuel)%nat →
  fst (bind_loop fuel sel mk done todo) = true → slots_good P (snd (bind_loop fuel sel mk done todo)).
Proof.
  induction fuel as [|fuel IH]; intros done [|t todo] Hmk HPQ Wd Wt Hd Ht He Hf; simpl in Hf;
    try lia; cbn [bind_loop fst snd]; intros Hok.
  1,2: apply slots_good_rev_append; split; [by apply Forall_app|by rewrite app_nil_r|done].
  assert (Hskip : (∀ o, unbound t = Some o → P o) →
    fst (bind_loop fuel sel mk (t :: done) todo) = true → slots_good P (snd (bind_loop fuel sel mk (t :: done) todo))).
  { intros Hp. apply Forall_cons in Wt as [Wt Wts]. apply IH; try done; [by constructor| | | |lia].
    - intros x o [->|Hx]%elem_of_cons; [apply Hp|by apply Hd].
    - intros x o Hx. apply Ht. by right.
    - apply Exists_app in He as [He|He]; [by apply Exists_app; left; apply Exists_cons_tl|].
      apply Exists_cons in He as [He|He]; apply Exists_app; [left; by apply Exists_cons_hd|by right]. }
  destruct (unbound t) as [o|] eqn:Eu; [|by apply Hskip].
  destruct (sel o) eqn:Es; [|apply Hskip; [|done]; intros ? [= <-]; apply HPQ; [|done]; by eapply Ht; [left|]].
  destruct (take_operand done) as [[x done']|] eqn:Ed; [|done].
  destruct (take_operand todo) as [[y todo']|] eqn:Et; [|done].
  destruct (TH8_ISTERM x && TH8_ISTERM y) eqn:Eterm; [|done]. bool_to_prop.
  apply Forall_cons in Wt as [Wt Wts]. apply (well_unbound t o) in Wt as [Ho _]; [|done].
  pose proof (take_operand_shape _ _ _ Et) as (k & rest & E1 & E2).
  apply well_taken in Ed as (Wx & Wd' & Hd'); [|done]. apply well_taken in Et as (Wy & Wt' & Ht'); [|done].
  assert (evaluable (mk o x y)) as Hb by (apply Hmk; try done; by apply term_evaluable).
  apply IH; try done.
  - constructor; [by constructor|done].
  - intros u o' [->|Hu]%elem_of_cons; [by rewrite (evaluable_bound _ Hb)|]. intros Hu'. eapply Hd; [|done]. by eapply Hd'.
  - intros u o' Hu Hu'. eapply Ht; [|done]. right. by eapply Ht'.
  - apply Exists_app. left. apply Exists_cons_hd. by apply evaluable_not_null.
  - subst todo todo'. rewrite length_app in *. simpl in *. lia.
Qed.

Lemma unary_phase_good ap : Forall well ap → fst (unary_phase ap) = true →
  Forall well (snd (unary_phase ap)) ∧
  (∀ t o, t ∈ snd (unary_phase ap) → unbound t = Some o → iPrecedence o ≠ 1) ∧
  (Exists (λ t, is_null t = false) ap → Exists (λ t, is_null t = false) (snd (unary_phase ap))).
Proof.
  induction ap as [|t ap IH]; [intros _ _; split_and!; [done|by intros ? ? ?%elem_of_nil|done]|].
  intros [Ht Hw]%Forall_cons. simpl. destruct (unary_phase ap) as [ok r]. cbn [fst snd] in IH. specialize (IH Hw).
  assert (Hkeep : ok = true → (∀ o, unbound t = Some o → iPrecedence o ≠ 1) →
    Forall well (t :: r) ∧ (∀ u o, u ∈ t :: r → unbound u = Some o → iPrecedence o ≠ 1) ∧
    (Exists (λ t, is_null t = false) (t :: ap) → Exists (λ t, is_null t = false) (t :: r))).
  { intros Hok Hp. destruct (IH Hok) as (I1 & I2 & I3). split_and!; [by constructor| |].
    - intros u o [->|Hu]%elem_of_cons; [apply Hp|by eapply I2].
    - intros [He|He]%Exists_cons; apply Exists_cons; auto. }
  destruct (unbound t) as [o|] eqn:Eu; [|by intros Hok; apply Hkeep].
  destruct (ok && (iPrecedence o =? 1)) eqn:Ec.
  - bool_to_prop. destruct (IH H) as (I1 & I2 & I3). destruct r as [|x r]; [done|].
    destruct (TH8_ISTERM x) eqn:Ex; [|done]. intros _. apply Forall_cons in I1 as [Wx Wr].
    apply (well_unbound t o) in Ht as [Ho _]; [|done].
    assert (evaluable (Operator o x NULL)) as Hb by (constructor; [done|done|by apply term_evaluable]).
    cbn [snd]. split_and!.
    + constructor; [by constructor|]. constructor; [constructor|done].
    + intros u o' [->|[->|Hu]%elem_of_cons]%elem_of_cons; [by rewrite (evaluable_bound _ Hb)|done|].
      apply (I2 u). by right.
    + intros _. by apply Exists_cons_hd.
  - cbn [fst snd]. intros Hok. subst ok. apply Hkeep; [done|]. intros ? [= <-]. simpl in Ec. by bool_to_prop.
Qed.

(** What is left unbound once the precedences below [p] are bound. *)
Definition above (p : Z) (o : Th8_Operator) : Prop :=
  iPrecedence o ≠ 1 ∧ (iPrecedence o < 2 ∨ p <= iPrecedence o).

Lemma binary_phases_good n : ∀ p ap, 2 <= p → p + Z.of_nat n <= 14 → slots_good (above p) ap →
  fst (binary_phases n p ap) = true → slots_good (above (p + Z.of_nat n)) (snd (binary_phases n p ap)).
Proof.
  induction n as [|n IH]; intros p ap Hp Hn Hg; cbn [binary_phases]; [intros _; cbn [snd]; by rewrite Z.add_0_r|].
  destruct Hg as [H1 H2 H3].
  pose proof (bind_loop_good (λ o, iPrecedence o =? p) binary (above (p + 1)) (above p) (length ap) [] ap) as Hb.
  unfold binary_phase. destruct (bind_loop _ _ _ _ _) as [ok r]. cbn [fst snd] in Hb.
  destruct ok; [|done]. intros Hok. replace (p + Z.of_nat (S n)) with (p + 1 + Z.of_nat n) by lia.
  apply IH; [lia|lia| |done]. apply Hb; try done.
  - intros o x y Ho Hs%Z.eqb_eq Hx Hy. apply E_binary; try done. lia.
  - intros o [Ho1 Ho2] Hs%Z.eqb_neq. split; [done|lia].
  - by intros ? ? ?%elem_of_nil.
Qed.

Lemma ternary_loop_good (P : Th8_Operator → Prop) fuel : ∀ done todo,
  Forall well done → Forall well todo →
  (∀ t o, t ∈ done → unbound t = Some o → P o ∧ eOp o ≠ TH8_OP_TERNARY_Q) →
  (∀ t o, t ∈ todo → unbound t = Some o → P o) →
  Exists (λ t, is_null t = false) (done ++ todo) → (length todo <= fuel)%nat →
  fst (ternary_loop fuel done todo) = true →
  slots_good (λ o, P o ∧ eOp o ≠ TH8_OP_TERNARY_Q) (snd (ternary_loop fuel done todo)).
Proof.
  induction fuel as [|fuel IH]; intros done [|t todo] Wd Wt Hd Ht He Hf; simpl in Hf;
    try lia; cbn [ternary_loop fst snd]; intros Hok.
  1,2: apply slots_good_rev_append; split; [by apply Forall_app|by rewrite app_nil_r|done].
  assert (Hskip : (∀ o, unbound t = Some o → eOp o ≠ TH8_OP_TERNARY_Q) →
    fst (ternary_loop fuel (t :: done) todo) = true →
    slots_good (λ o, P o ∧ eOp o ≠ TH8_OP_TERNARY_Q) (snd (ternary_loop fuel (t :: done) todo))).
  { intros Hp. apply Forall_cons in Wt as [Wt Wts]. apply IH; try done; [by constructor| | | |lia].
    - intros x o [->|Hx]%elem_of_cons Hu; [split; [by eapply Ht; [left|]|by apply Hp]|by eapply Hd].
    - intros x o Hx. apply Ht. by right.
    - apply Exists_app in He as [He|He]; [by apply Exists_app; left; apply Exists_cons_tl|].
      apply Exists_cons in He as [He|He]; apply Exists_app; [left; by apply Exists_cons_hd|by right]. }
  destruct (unbound t) as [o|] eqn:Eu; [|by apply Hskip].
  case_bool_decide as Es; [|by apply Hskip; [intros ? [= <-]|]]. clear Hskip.
  destruct (take_operand done) as [[c done']|] eqn:Ed; [|done].
  destruct (take_operand todo) as [[x r1]|] eqn:E1; [|done].
  destruct (take_operand r1) as [[colon r2]|] eqn:E2; [|done]. destruct colon as [| |o2 l2 rr2]; [done..|].
  destruct (take_operand r2) as [[y r3]|] eqn:E3; [|done].
  destruct (TH8_ISTERM c && TH8_ISTERM x && is_code TH8_OP_TERNARY_C (Operator o2 l2 rr2) && TH8_ISTERM y) eqn:Ec; [|done].
  bool_to_prop. apply Forall_cons in Wt as [Wt Wts].
  assert (Hlen : ∀ a z r, take_operand a = Some (z, r) → length r = length a).
  { intros a z r (k & rest & -> & ->)%take_operand_shape. by rewrite !length_app. }
  pose proof (Hlen _ _ _ E1). pose proof (Hlen _ _ _ E2). pose proof (Hlen _ _ _ E3).
  apply well_taken in Ed as (Wc & Wd' & Hd'); [|done]. apply well_taken in E1 as (Wx & W1 & H1'); [|done].
  apply well_taken in E2 as (_ & W2 & H2'); [|done]. apply well_taken in E3 as (Wy & W3 & H3'); [|done].
  assert (evaluable (Operator o c (Operator o2 x y))) as Hb.
  { apply E_ternary; [done|by eapply bool_decide_eq_true_1|by apply term_evaluable..]. }
  apply IH; try done.
  - constructor; [by constructor|done].
  - intros u o' [->|Hu]%elem_of_cons; [by rewrite (evaluable_bound _ Hb)|]. intros Hu'. eapply Hd; [|done]. by eapply Hd'.
  - intros u o' Hu Hu'. eapply Ht; [|done]. right. eapply H1'; [|done]. eapply H2'; [|done]. by eapply H3'.
  - apply Exists_app. left. by apply Exists_cons_hd.
  - lia.
Qed.

(** An operator token that no phase binds. *)
Definition stray (o : Th8_Operator) : Prop :=
  eOp o = TH8_OP_OPEN_BRACKET ∨ eOp o = TH8_OP_CLOSE_BRACKET ∨ eOp o = TH8_OP_TERNARY_C.

Lemma table_stray o : o ∈ th8Operators → above 14 o → eOp o ≠ TH8_OP_TERNARY_Q → eOp o ≠ TH8_OP_VAR_ASSIGN → stray o.
Proof.
  intros Ho [H1 H2] H3 H4. unfold stray. table_cases Ho; auto.
Qed.

Lemma head_slots_good P ap : slots_good P ap → slots_good P (compact ap) ∧
  ∃ t r, compact ap = t :: r ∧ is_null t = false.
Proof.
  intros [H1 H2 H3]. destruct ap as [|t ap]; [by apply Exists_nil in H3|]. simpl.
  destruct (is_null t) eqn:Et; [|split; [done|by exists t, ap]].
  destruct t; [|done..]. apply Exists_cons in H3 as [?|H3]; [done|]. apply Forall_cons in H1 as [_ H1].
  destruct (take_operand ap) as [[x r]|] eqn:E.
  - pose proof (take_operand_spec ap) as Hs. rewrite E in Hs. destruct Hs as (_ & _ & Hx).
    pose proof (take_operand_shape _ _ _ E) as E'. apply well_taken in E as (Wx & Wr & Hr); [|done].
    split; [|by exists x, r]. split.
    + by constructor.
    + intros u o [->|Hu]%elem_of_cons Ho; [|apply (H2 u); [right; by eapply Hr|done]].
      apply (H2 x); [right|done]. destruct E' as (k & rest & -> & _). apply elem_of_app. right. by left.
    + by apply Exists_cons_hd.
  - exfalso. pose proof (take_operand_spec ap) as Hs. rewrite E in Hs.
    apply Exists_exists in H3 as (x & Hx & Hn). assert (x ∈ live ap) as Hl by (unfold live; by apply list_elem_of_filter).
    rewrite Hs in Hl. by apply elem_of_nil in Hl.
Qed.

Lemma bind_phases_good ap : Forall well ap → Exists (λ t, is_null t = false) ap →
  fst (bind_phases ap) = true → slots_good stray (snd (bind_phases ap)) ∧
  ∃ t r, snd (bind_phases ap) = t :: r ∧ is_null t = false.
Proof.
  intros Hw He. unfold bind_phases.
  pose proof (unary_phase_good ap Hw) as H1. destruct (unary_phase ap) as [[] ap1]; [|done]. cbn [fst snd negb] in *.
  destruct (H1 eq_refl) as (W1 & U1 & A1).
  assert (slots_good (above 2) ap1) as G1.
  { split; [done| |auto]. intros t o Ht Ho. split; [by eapply U1|lia]. }
  pose proof (binary_phases_good 12 2 ap1 ltac:(lia) ltac:(lia) G1) as H2.
  destruct (binary_phases 12 2 ap1) as [[] ap2]; [|done]. cbn [fst snd negb] in *.
  destruct (H2 eq_refl) as [W2 U2 A2]. change (2 + Z.of_nat 12) with 14 in U2.
  pose proof (ternary_loop_good (above 14) (length ap2) [] ap2 ltac:(done) W2) as H3.
  unfold ternary_phase. destruct (ternary_loop _ _ _) as [[] ap3]; [|done]. cbn [fst snd negb] in *.
  destruct H3 as [W3 U3 A3]; [by intros ? ? ?%elem_of_nil|done|done|done|done|].
  unfold assign_phase.
  pose proof (bind_loop_good (λ o, bool_decide (eOp o = TH8_OP_VAR_ASSIGN)) (λ o r l, Operator o l r) stray
    (λ o, o ∈ th8Operators ∧ above 14 o ∧ eOp o ≠ TH8_OP_TERNARY_Q) (length ap3) [] (rev ap3)) as H4.
  destruct (bind_loop _ _ _ _ _) as [[] r]; [|done]. cbn [fst snd negb] in *. intros _. apply head_slots_good.
  apply slots_good_perm with r; [by rewrite <- Permutation_rev|]. apply H4; try done.
  - intros o x y Ho Hs%bool_decide_eq_true_1 Hx Hy. by apply E_assign.
  - intros o (Ho & Ha & Hq) Hs%bool_decide_eq_false_1. by apply table_stray.
  - by rewrite <- Permutation_rev.
  - by intros ? ? ?%elem_of_nil.
  - intros t o. rewrite <- Permutation_rev. intros Ht Hu. destruct (U3 t o Ht Hu). split_and!; try done.
    rewrite Forall_forall in W3. by destruct (well_unbound t o (W3 t Ht) Hu).
  - simpl. apply Exists_exists in A3 as (x & Hx & Hn). apply Exists_exists. exists x.
    by rewrite <- Permutation_rev.
  - by rewrite length_rev.
Qed.

Section make.
Context {I : Type} `{TI : TreeInterp I}.

(** A list of tokens that turned into a tree at its front. *)
Definition rooted (ap : list Th8_ExprNode) : Prop :=
  Forall well ap ∧ ∃ t r, ap = t :: r ∧ is_null t = false ∧ ∀ o, unbound t = Some o → stray o.

Lemma paren_phase_good build fuel : ∀ ts (it : I) ap it',
  (∀ ts it ap it', Forall raw ts → build ts it = (TH8_OK, ap, it') → rooted ap) →
  Forall raw ts → (length ts <= fuel)%nat → paren_phase build fuel ts it = (TH8_OK, ap, it') →
  Forall well ap ∧ (ts ≠ [] → ∃ t r, ap = t :: r ∧ is_null t = false).
Proof.
  induction fuel as [|fuel IH]; intros [|t ts] it ap it' Hb Hr Hf Hp; simpl in Hf; try lia;
    try (by injection Hp as <- <-).
  apply Forall_cons in Hr as [Ht Hr]. simpl in Hp. destruct (is_code TH8_OP_OPEN_BRACKET t).
  - destruct (close_index ts 1) as [[|n]|] eqn:Ec; [done| |done].
    destruct (build (take (S n) ts) it) as [[rc mid] it1] eqn:Eb.
    destruct (negb (rc =? TH8_OK)) eqn:Erc; [done|]. bool_to_prop. subst rc.
    apply Hb in Eb as (Hw & root & m & -> & Hroot & _); [|by apply Forall_take].
    apply Forall_cons in Hw as [Hroot' Hm].
    destruct (paren_phase build fuel (drop (S (S n)) ts) it1) as [[rc r] it2] eqn:Er. injection Hp as -> <- <-.
    destruct (IH _ _ _ _ Hb (Forall_drop _ _ _ Hr) ltac:(rewrite length_drop; lia) Er) as [Wr _].
    split; [|by exists root, (NULL :: m ++ NULL :: r)].
    constructor; [done|]. constructor; [constructor|]. apply Forall_app. split; [done|].
    constructor; [constructor|done].
  - destruct (paren_phase build fuel ts it) as [[rc r] it1] eqn:Er. injection Hp as -> <- <-.
    destruct (IH _ _ _ _ Hb Hr ltac:(lia) Er) as [Wr _].
    split; [|exists t, r; split; [done|by destruct t]]. constructor; [|done].
    destruct t as [|z k|o l rr]; [done|by constructor; constructor|]. destruct Ht as (Ho & -> & ->). by apply W_token.
Qed.

Lemma MakeTree_good room : ∀ ts (it : I) ap it',
  Forall raw ts → MakeTree room ts it = (TH8_OK, ap, it') → rooted ap.
Proof.
  induction room as [|room IH]; intros ts it ap it' Hr Hm; [done|]. simpl in Hm.
  destruct (tree_ready it) as [ready it1]. destruct (negb (ready =? TH8_OK)); [done|].
  destruct (length ts =? 0)%nat eqn:El; [done|].
  destruct (paren_phase (MakeTree room) (length ts) ts it1) as [[rc ap1] it2] eqn:Ep.
  destruct (negb (rc =? TH8_OK)) eqn:Erc; [done|]. bool_to_prop. subst rc.
  destruct (paren_phase_good _ _ _ _ _ _ IH Hr ltac:(done) Ep) as [Hw Ha].
  destruct Ha as (x & r & -> & Hx); [by destruct ts|].
  pose proof (bind_phases_good (x :: r) Hw ltac:(by apply Exists_cons_hd)) as Hg.
  destruct (bind_phases (x :: r)) as [[] ap2]; [|done]. injection Hm as <- <-. cbn [fst snd] in Hg.
  destruct (Hg eq_refl) as ([W U _] & t & r2 & -> & Ht). split; [done|]. exists t, r2. split_and!; [done|done|].
  intros o Ho. by apply (U t); [left|].
Qed.
End make.

(** ** Evaluation *)

(** A result can be copied, so that NULL is only the empty result. *)
Definition copies_granted (I D : Type) `{EI : ExprInterp I D} : Prop :=
  ∀ (it : I) n it', th8TakeResultInternal it = (None, n, it') → TH8_LEN n = 0.

(** interp->bOverflowCheck stays set. *)
Definition overflow_check_on (I D : Type) `{EI : ExprInterp I D} : Prop := ∀ it : I, bOverflowCheck it = true.

(** The caches of representations hold what the parsers give. *)
Class ReprLaws (I D : Type) `{EI : ExprInterp I D} : Prop := {
  wide_coherent (it : I) z v : holds it z v → ToWideInt_parse z = Ok v;
  bool_coherent (it : I) z v : holds (ReprCache := bool_cache) it z v → v = 0 ∨ v = 1
}.

(** What the evaluator relies on. *)
Class EvalLaws (I D : Type) `{EI : ExprInterp I D} : Prop := {
  take_null : copies_granted I D;
  overflow_checked : overflow_check_on I D;
  repr_laws :: ReprLaws I D
}.

(** The only fault a step may have. *)
Definition defined {A} (m : res fault A) : Prop := ∀ f, m = Err f → f = DoubleToInt.

Lemma defined_ok {A} (a : A) : defined (Ok a).
Proof. done. Qed.

Lemma defined_bind {A B} (m : res fault A) (k : A → res fault B) :
  defined m → (∀ a, m = Ok a → defined (k a)) → defined (res_bind m k).
Proof. intros Hm Hk f. destruct m as [a|e]; [by apply Hk|]. intros [= <-]. by apply Hm. Qed.

#[local] Hint Resolve defined_ok : core.

Lemma ToWideInt_loop_in64 neg base z : ∀ val v, 2 <= base <= 16 → 0 <= val <= TH8_INT64_MAX →
  ToWideInt_loop neg base z val = Ok v → in64 v = true.
Proof.
  induction z as [|c z IH]; intros val v Hb Hv; cbn [ToWideInt_loop].
  - intros [= <-]. apply in64_spec. pose proof min_max. destruct neg; simpl; lia.
  - destruct (digit_of c) as [d|] eqn:Ed; [|done].
    assert (0 <= d <= TH8_INT64_MAX) as Hd.
    { unfold digit_of in Ed. pose proof max_pos. repeat case_match; simplify_eq; bool_to_prop;
        unfold TH8_INT64_MAX; lia. }
    destruct (base <=? d); [done|]. rewrite fits_next by lia. case_if.
    + case_if; [|done]. intros [= <-]. apply in64_spec. pose proof min_max. pose proof max_pos. lia.
    + bool_to_prop. apply IH; [done|]. nia.
Qed.

Lemma ToWideInt_parse_in64 z v : ToWideInt_parse z = Ok v → in64 v = true.
Proof.
  unfold ToWideInt_parse. destruct (sign z) as [neg [|c z']]; [done|].
  destruct (base_prefix (c :: z')) as [base [|d z'']] eqn:E; [done|]. apply ToWideInt_loop_in64.
  - unfold base_prefix in E. repeat case_match; simplify_eq; lia.
  - pose proof max_pos. lia.
Qed.

Section safety.
Context {I D : Type} `{EL : EvalLaws I D}.
Context (realloc_ok alloc_ok : Z → bool).

Definition step_defined (f : eval_step I) : Prop := ∀ it, defined (f it).

Lemma to_wide_in64 (it : I) z v it' : to_wide it z = (Some v, it') → in64 v = true.
Proof.
  unfold to_wide, Numbers.Th8_ToWideInt.
  pose proof (cached_transparent ToWideInt_parse (λ _ v, negb (v =? TH8_INT64_MIN)) (Some it) z
    (wide_coherent it)) as [H _].
  destruct (cached _ _ _ _) as [r c]. simpl in H. subst r. destruct (ToWideInt_parse z) eqn:E; [|done].
  intros [= <- _]. by eapply ToWideInt_parse_in64.
Qed.

Lemma silent_wide_in64 z v : silent_wide z = Some v → in64 v = true.
Proof.
  unfold silent_wide. destruct (ToWideInt_parse z) eqn:E; [|done]. intros [= <-]. by eapply ToWideInt_parse_in64.
Qed.

Lemma ToBoolean_parse_bit big dbl i z v : ToBoolean_parse big dbl i z = Ok v → v = 0 ∨ v = 1.
Proof. unfold ToBoolean_parse. repeat case_match; intros [= <-]; auto. Qed.

Lemma to_boolean_bit (it : I) z v it' : to_boolean it z = (Some v, it') → v = 0 ∨ v = 1.
Proof.
  unfold to_boolean, Numbers.Th8_ToBoolean, cached.
  destruct (cache_find (ReprCache := bool_cache) it z) as [[[w|]|] c] eqn:E.
  - intros [= -> _]. eapply (bool_coherent it z). apply (find_holds (ReprCache := bool_cache)). by rewrite E.
  - destruct (ToBoolean_parse _ _ _ _) as [w|] eqn:Ep; [|done].
    destruct (cache_find (ReprCache := bool_cache) c z). intros [= -> _]. by apply ToBoolean_parse_bit in Ep.
  - destruct (ToBoolean_parse _ _ _ _) as [w|] eqn:Ep; [|done].
    destruct (cache_find (ReprCache := bool_cache) c z). intros [= -> _]. by apply ToBoolean_parse_bit in Ep.
Qed.

(** An operand as it was taken. *)
Definition taken (z : operand) : Prop := fst z = None → TH8_LEN (snd z) = 0.

Lemma take_taken (it : I) z n it' : th8TakeResultInternal it = (z, n, it') → taken (z, n).
Proof. intros H Hz. simpl in *. subst z. by apply (take_null it n it'). Qed.

Lemma read_defined z : taken z → defined (read z).
Proof. destruct z as [[b|] n]; intros H; [done|]. simpl in *. by rewrite H. Qed.

Lemma then_convert_defined {A} (f : eval_step I) (convert : I → bytes → option A * I) k :
  step_defined f → (∀ v, step_defined (k v)) → step_defined (then_convert f convert k).
Proof.
  intros Hf Hk it. apply defined_bind; [apply Hf|]. intros [rc it1] _. case_if; [done|].
  destruct (th8TakeResultInternal it1) as [[z n] it2] eqn:E.
  apply defined_bind; [apply read_defined; by eapply take_taken|]. intros b _.
  destruct (convert it2 b) as [[v|] it3]; [apply Hk|done].
Qed.

Lemma eval_child_defined child it : (∀ f, child = Some f → step_defined f) →
  defined (eval_child child it) ∧
  ∀ rc z it', eval_child child it = Ok (rc, z, it') → taken z.
Proof.
  intros Hc. destruct child as [f|]; simpl; [|by split; [|intros ? ? ? [= _ <- _]]].
  specialize (Hc f eq_refl it). destruct (f it) as [[rc it1]|e] eqn:Ef; simpl.
  - case_if; [by split; [|intros ? ? ? [= _ <- _]]|].
    destruct (th8TakeResultInternal it1) as [[z n] it2] eqn:E. split; [done|].
    intros ? ? ? [= _ <- _] Hz. simpl in *. subst z. pose proof (take_null _ _ _ E) as Hn.
    unfold TH8_LEN in *. by rewrite Hn.
  - split; [by intros ? [= <-]; apply Hc|done].
Qed.

Lemma integer_op_defined bB o a b : in64 a = true → in64 b = true → defined (integer_op true bB o a b).
Proof.
  intros Ha Hb. destruct (big_shift bB o b) eqn:Es.
  - unfold big_shift in Es. bool_to_prop. apply bool_decide_eq_true_1 in H1. subst o bB. cbn [integer_op].
    rewrite H0. done.
  - rewrite integer_op_spec by done. destruct (exact o a b); [|done..]. case_if; [done|]. by destruct bB.
Qed.

Lemma double_op_defined o l r : defined (double_op o l r).
Proof.
  destruct o; cbn [double_op]; try done; [by case_if|]. apply defined_bind; [|done].
  unfold double_power. destruct (d_int _); [done|]. by intros f [= <-].
Qed.

Lemma big_op_defined o l r (it : I) : taken l → taken r → defined (big_op o l r it).
Proof.
  intros Hl Hr. apply defined_bind; [by apply read_defined|]. intros b _. case_if; [done|].
  apply defined_bind; [by apply read_defined|done].
Qed.

Definition coerced_in64 (c : coerced) : Prop :=
  match c with ToIntegers l r => in64 l = true ∧ in64 r = true | _ => True end.

Lemma absent_or_in64 z v : absent_or 0 silent_wide z = Some v → in64 v = true.
Proof. unfold absent_or. destruct (fst z); [apply silent_wide_in64|by intros [= <-]]. Qed.

Lemma coerce_number_spec o l r (it : I) :
  defined (coerce_number o l r it) ∧
  ∀ c it', coerce_number o l r it = Ok (c, it') → coerced_in64 c.
Proof.
  unfold coerce_number. pose proof (absent_or_in64 l) as Hl. pose proof (absent_or_in64 r) as Hr.
  set (a := absent_or 0 silent_wide l) in *. set (b := absent_or 0 silent_wide r) in *.
  assert (in64 (default 0 a) = true) as Hl0 by (destruct a; [by apply Hl|done]).
  assert (in64 (default 0 b) = true) as Hr0 by (destruct b; [by apply Hr|done]).
  assert (∀ m : res fault (coerced * I), defined m → (∀ c it', m = Ok (c, it') → coerced_in64 c) →
    defined m ∧ ∀ c it', m = Ok (c, it') → coerced_in64 c) as Hpair by done.
  assert (∀ x y, in64 x = true → in64 y = true →
    defined (Ok (ToIntegers x y, it) : res fault (coerced * I)) ∧
    ∀ c it', Ok (ToIntegers x y, it) = Ok (E := fault) (c, it') → coerced_in64 c) as Hint.
  { intros x y Hx Hy. split; [done|]. by intros c it' [= <- _]. }
  match goal with |- context [if ?c then _ else ?m] => set (cond := c); set (dbl := m) end.
  assert (defined dbl ∧ ∀ c it', dbl = Ok (c, it') → coerced_in64 c) as Hd.
  { subst dbl. destruct (double_of it l) as [[fl|] it1]; [|by split; [|intros ? ? [= <- _]]].
    destruct (double_of it1 r) as [[fr|] it2]; [|by split; [|intros ? ? [= <- _]]].
    pose proof (double_op_defined o fl fr) as Hd. destruct (double_op o fl fr) as [x|e].
    - simpl. destruct (finish_double it2 x l r). by split; [|intros ? ? [= <- _]].
    - split; [|done]. intros f [= <-]. by apply Hd. }
  destruct a as [x|], b as [y|]; [by apply Hint|..]; (destruct cond; [by apply Hint|apply Hd]).
Qed.

Lemma coerce_integer_spec o l r (it : I) : taken l →
  defined (coerce_integer o l r it) ∧
  ∀ c it', coerce_integer o l r it = Ok (c, it') → coerced_in64 c.
Proof.
  intros Hl. unfold coerce_integer. case_if; [split; [done|by intros ? ? [= <- _]]|].
  pose proof (read_defined l Hl) as Hd. destruct (read l) as [b|e]; cbn [res_bind];
    [|split; [by intros f [= <-]; apply Hd|done]].
  destruct (to_wide it b) as [iLeft it1] eqn:E1.
  destruct (match iLeft with
    | Some _ => (iLeft, it1)
    | None => if bool_decide (o = TH8_OP_LOGICAL_NOT) then to_boolean it1 b else (None, it1)
    end) as [i it2] eqn:E2.
  destruct i as [x|]; [|by split; [|intros ? ? [= <- _]]].
  assert (in64 x = true) as Hx.
  { destruct iLeft as [y|]; [injection E2 as <- <-; by eapply to_wide_in64|]. case_bool_decide; [|done].
    by apply to_boolean_bit in E2 as [-> | ->]. }
  destruct (fst r) as [z|]; [|by split; [|intros ? ? [= <- _]]].
  destruct (to_wide it2 z) as [[y|] it3] eqn:E3; [|by split; [|intros ? ? [= <- _]]].
  split; [done|]. intros ? ? [= <- _]. split; [done|by eapply to_wide_in64].
Qed.

Lemma coerce_spec o l r (it : I) : taken l →
  defined (coerce o l r it) ∧ ∀ c it', coerce o l r it = Ok (c, it') → coerced_in64 c.
Proof.
  intros Hl. unfold coerce. destruct (eArgType o); [|by apply coerce_integer_spec|by apply coerce_number_spec|];
    by split; [|intros ? ? [= <- _]].
Qed.

Lemma same_text_defined l r : taken l → taken r → defined (same_text l r).
Proof.
  intros Hl Hr. unfold same_text. case_if; [|done].
  apply defined_bind; [by apply read_defined|]. intros ? _. apply defined_bind; [by apply read_defined|done].
Qed.

Lemma find_element_defined l es : taken l → defined (find_element l es).
Proof.
  intros Hl. induction es as [|e es IH]; [done|]. simpl. apply defined_bind; [by apply same_text_defined|].
  intros b _. by case_if.
Qed.

Lemma finish_string_defined o l r (it : I) : taken l → taken r → defined (finish_string o l r it).
Proof.
  intros Hl Hr. destruct o; cbn [finish_string]; try done;
    try (apply defined_bind; [by apply same_text_defined|done]);
    (apply defined_bind; [by apply read_defined|]; intros z _;
     destruct (expr_split it z) as [[rc es] it1]; case_if; [done|];
     apply defined_bind; [by apply find_element_defined|done]).
Qed.

Lemma finish_integer_defined o a b l r (it : I) : in64 a = true → in64 b = true → taken l → taken r →
  defined (finish_integer o a b l r it).
Proof.
  intros Ha Hb Hl Hr. unfold finish_integer. case_if; [by apply big_op_defined|].
  apply defined_bind; [rewrite overflow_checked; by apply integer_op_defined|].
  intros [] _; try done. by apply big_op_defined.
Qed.

Lemma eval_operator_defined o l r : (∀ f, l = Some f → step_defined f) → (∀ f, r = Some f → step_defined f) →
  step_defined (eval_operator o l r).
Proof.
  intros Hl Hr it. unfold eval_operator. destruct (eval_child_defined l it Hl) as [Dl Tl].
  apply defined_bind; [done|]. intros [[rc zl] it1] El. specialize (Tl _ _ _ El). case_if; [done|].
  destruct (eval_child_defined r it1 Hr) as [Dr Tr].
  apply defined_bind; [done|]. intros [[rc2 zr] it2] Er. specialize (Tr _ _ _ Er). case_if; [done|].
  destruct (coerce_spec o zl zr it2 Tl) as [Dc Cc]. apply defined_bind; [done|]. intros [c it3] Ec.
  specialize (Cc _ _ Ec). destruct c as [a b|? | |]; try done.
  - destruct Cc. by apply finish_integer_defined.
  - by apply finish_string_defined.
Qed.

Lemma eval_assign_defined l r : (∀ f, l = Some f → step_defined f) → (∀ f, r = Some f → step_defined f) →
  step_defined (eval_assign l r).
Proof.
  intros Hl Hr it. destruct l as [l|], r as [r|]; try done. simpl.
  apply defined_bind; [by apply Hl|]. intros [rc it1] _. case_if; [done|].
  destruct (th8TakeResultInternal it1) as [[z n] it2] eqn:E1.
  apply defined_bind; [by apply Hr|]. intros [rc2 it3] _. case_if; [done|].
  destruct (th8TakeResultInternal it3) as [[z2 n2] it4] eqn:E2.
  apply defined_bind; [apply read_defined; by eapply take_taken|]. intros name _.
  apply defined_bind; [apply read_defined; by eapply take_taken|]. intros value _.
  destruct (Th8_SetVar it4 name value _). by case_if.
Qed.

Lemma eval_logical_defined b l r : step_defined l → step_defined r → step_defined (eval_logical b l r).
Proof.
  intros Hl Hr. apply then_convert_defined; [done|]. intros v it. case_if; [done|]. case_if; [done|].
  by apply then_convert_defined.
Qed.

Lemma limited_defined f : step_defined f → step_defined (depth_limited (when_ready f)).
Proof.
  intros Hf it. unfold depth_limited. case_if; [done|]. apply defined_bind; [|by intros [? ?]].
  unfold when_ready. destruct (Th8_Ready _). case_if; [done|apply Hf].
Qed.

Lemma eval_literal_defined z : step_defined (eval_literal realloc_ok alloc_ok z).
Proof.
  intros it. unfold eval_literal. destruct (th8SubstWord _ _ _ _) as [rc it1]. case_if; [|done].
  destruct (Th8_GetResult it1). case_if; [|done]. by destruct (to_double _).
Qed.

Lemma child_defined t f : step_defined f → ∀ g, child t f = Some g → step_defined g.
Proof. unfold child. intros Hf g. case_if; [done|]. by intros [= <-]. Qed.

Lemma evaluable_defined t : evaluable t → step_defined (th8ExprEval realloc_ok alloc_ok t).
Proof.
  induction 1 as [z n|o x Ho Hp Hx IHx|o x y Ho Hp Hx IHx Hy IHy|o c x y z Ho Hc Hx IHx Hy IHy Hz IHz|o x y Ho Hx IHx Hy IHy];
    cbn [th8ExprEval]; apply limited_defined.
  - apply eval_literal_defined.
  - destruct (eOp o) eqn:E; try (apply eval_operator_defined; [by apply child_defined|by intros f]);
      exfalso; clear -Ho Hp E; by table_cases Ho.
  - destruct (eOp o) eqn:E; try (apply eval_operator_defined; by apply child_defined);
      try (by apply eval_logical_defined);
      exfalso; clear -Ho Hp E; by table_cases Ho.
  - rewrite Ho. apply then_convert_defined; [done|]. intros v it. rewrite bool_decide_eq_true_2 by done. case_if; [apply IHy|apply IHz].
  - rewrite Ho. apply eval_assign_defined; by apply child_defined.
Qed.

Lemma rooted_defined ap : rooted ap → step_defined (th8ExprEval realloc_ok alloc_ok (hd NULL ap)).
Proof.
  intros (Hw & t & r & -> & Ht & Hs). apply Forall_cons in Hw as [Hw _]. simpl.
  inversion Hw as [|t' He|o Ho]; subst; [done|by apply evaluable_defined|].
  assert (∀ f, None = Some f → step_defined f) as Hn by done.
  cbn [th8ExprEval token]. apply limited_defined.
  destruct (Hs o eq_refl) as [E|[E|E]]; rewrite E; by apply eval_operator_defined.
Qed.

(** ** The tokenizer *)

(** What a scanned token is: raw, if there is one. *)
Definition scan_ok (m : res fault (Z * option (Th8_ExprNode * bytes) * I)) : Prop :=
  defined m ∧ ∀ rc t rest it', m = Ok (rc, Some (t, rest), it') → raw t.

Lemma scan_none rc (it : I) : scan_ok (Ok (rc, None, it)).
Proof. split; done. Qed.

Lemma scan_some rc t rest (it : I) : raw t → scan_ok (Ok (rc, Some (t, rest), it)).
Proof. intros Ht. split; [done|]. by intros ? ? ? ? [= _ <- _ _]. Qed.

Lemma literal_span_ok (it : I) z n : scan_ok (Ok (literal_span it z n)).
Proof.
  unfold literal_span. destruct (TH8_ALLOC_STR it _) as [[] it1]; [by apply scan_some|apply scan_none].
Qed.

Lemma scan_bind {A} (m : res fault A) k : defined m → (∀ a, m = Ok a → scan_ok (k a)) → scan_ok (res_bind m k).
Proof.
  intros Hm Hk. destruct m as [a|e]; [by apply Hk|]. split; [|done]. intros f [= <-]. by apply Hm.
Qed.

Lemma eval_arg_defined expr arg (it : I) : (∀ z, step_defined (expr z)) → defined (eval_arg expr arg it).
Proof.
  intros He. destruct arg as [z|]; [|done]. simpl. apply defined_bind; [apply He|]. intros [rc it1] _.
  case_if; [done|]. by destruct (th8TakeResultInternal it1).
Qed.

Lemma call_token_ok expr zExpr zFunc z (it : I) : (∀ z, step_defined (expr z)) →
  scan_ok (call_token expr zExpr it zFunc z).
Proof.
  intros He. unfold call_token. destruct (close_paren 1 z) as [n|]; [|apply scan_none].
  destruct (split_args _) as [arg1 arg2].
  apply scan_bind; [by apply eval_arg_defined|]. intros [[rc z1] it1] _. case_if; [apply scan_none|].
  apply scan_bind; [by apply eval_arg_defined|]. intros [[rc2 z2] it2] _. case_if; [apply scan_none|].
  destruct (th8ExprEvalFunc _ _ _ _) as [rc3 it3]. case_if; [apply scan_none|].
  destruct (Th8_GetResult it3) as [zRes nRes].
  destruct (TH8_ALLOC_STR it3 nRes) as [[] it4]; [by apply scan_some|apply scan_none].
Qed.

Lemma match_operator_in features prev z o : match_operator features prev z = Some o → o ∈ th8Operators.
Proof. unfold match_operator. intros H%find_some. apply list_elem_of_In, H. Qed.

Lemma scan_token_ok expr zExpr prev z (it : I) : (∀ z, step_defined (expr z)) →
  scan_ok (scan_token realloc_ok expr zExpr it prev z).
Proof.
  intros He. unfold scan_token. repeat (case_if; [try apply literal_span_ok|]).
  - destruct (th8NextVarName z); [apply literal_span_ok|apply scan_none].
  - destruct (th8NextCommand _ z); [apply literal_span_ok|apply scan_none].
  - destruct (match_operator _ _ _) as [o|] eqn:E.
    + apply scan_some. split; [by eapply match_operator_in|done].
    + unfold identifier_token. case_if; [by apply call_token_ok|]. case_if; [|apply scan_none].
      case_if; [|apply scan_none].
      destruct (TH8_ALLOC_STR it _) as [[] it1]; [by apply scan_some|apply scan_none].
Qed.

Lemma parse_loop_ok expr zExpr fuel : ∀ nAlloc toks z (it : I),
  (∀ z, step_defined (expr z)) → Forall raw toks →
  defined (parse_loop realloc_ok expr zExpr fuel nAlloc toks z it) ∧
  ∀ rc toks' it', parse_loop realloc_ok expr zExpr fuel nAlloc toks z it = Ok (rc, toks', it') → Forall raw toks'.
Proof.
  induction fuel as [|fuel IH]; intros nAlloc toks z it He Ht.
  { split; [done|]. by intros ? ? ? [= _ <- _]. }
  assert (Hstop : ∀ rc (it : I) (m : res fault (Z * list Th8_ExprNode * I)), m = Ok (rc, toks, it) →
    defined m ∧ ∀ rc' toks' it', m = Ok (rc', toks', it') → Forall raw toks').
  { intros rc it1 m ->. split; [done|]. by intros ? ? ? [= _ <- _]. }
  cbn [parse_loop]. destruct z as [|c z]; [by eapply Hstop|]. destruct (Th8_Ready it) as [ready it1].
  case_if; [by eapply Hstop|]. destruct (skip_space _ _) as [|d y] eqn:Ey; [by eapply Hstop|].
  destruct (TH8_ALLOC it1 sizeof_node) as [[] it2]; [|by eapply Hstop]. cbn [negb].
  destruct (scan_token_ok expr zExpr (head toks) (d :: y) it2 He) as [Ds Rs].
  destruct (scan_token _ _ _ _ _ _) as [[[rc t] it3]|e]; cbn [res_bind];
    [|split; [by intros f [= <-]; apply Ds|done]].
  destruct t as [[t rest]|]; [|by eapply Hstop]. specialize (Rs _ _ _ _ eq_refl).
  destruct (grow_tokens (zlen toks) nAlloc it3) as [[n|] it4]; [|by eapply Hstop].
  apply IH; [done|by constructor].
Qed.

Lemma th8ExprParse_ok expr zExpr (it : I) : (∀ z, step_defined (expr z)) →
  defined (th8ExprParse realloc_ok expr zExpr it) ∧
  ∀ rc toks it', th8ExprParse realloc_ok expr zExpr it = Ok (rc, toks, it') → Forall raw toks.
Proof.
  intros He. unfold th8ExprParse.
  destruct (parse_loop_ok expr zExpr (length zExpr) 0 [] zExpr it He ltac:(done)) as [H1 H2].
  destruct (parse_loop _ _ _ _ _ _ _ _) as [[[rc toks] it1]|e]; cbn [res_bind].
  - split; [done|]. intros ? ? ? [= _ <- _]. apply Forall_rev. by eapply H2.
  - split; [by intros f [= <-]; apply H1|done].
Qed.

(** ** Whole expressions *)

Lemma EvalOne_defined expr zExpr : (∀ z, step_defined (expr z)) →
  step_defined (th8ExprEvalOne realloc_ok alloc_ok expr zExpr).
Proof.
  intros He it. destruct (th8ExprParse_ok expr zExpr it He) as [H1 H2].
  apply defined_bind; [done|]. intros [[rc toks] it1] Ep. specialize (H2 _ _ _ Ep). case_if; [done|].
  destruct toks as [|t toks]; [done|].
  destruct (th8ExprMakeTree (t :: toks) 0 it1) as [[rc2 ap] it2] eqn:Em. case_if.
  - destruct (Th8_GetResult it2). by case_if.
  - bool_to_prop. subst rc2. unfold th8ExprMakeTree in Em. apply MakeTree_good in Em; [|done].
    apply defined_bind; [by apply rooted_defined|by intros [? ?]].
Qed.

Lemma expr_sequence_defined fuel one : ∀ z, (∀ z, step_defined (one z)) → step_defined (expr_sequence fuel one z).
Proof.
  induction fuel as [|fuel IH]; intros z H it; [apply H|]. cbn [expr_sequence].
  destruct (th8ExprFindTopComma z); [|apply H]. apply defined_bind; [apply H|]. intros [rc it1] _.
  case_if; [done|by apply IH].
Qed.

Lemma expr_clean_defined fuel : ∀ z, step_defined (expr_clean realloc_ok alloc_ok fuel z).
Proof.
  induction fuel as [|fuel IH]; intros z it; [done|]. cbn [expr_clean].
  case_if; [apply expr_sequence_defined|]; intros; by apply EvalOne_defined.
Qed.
End safety.

(** C27.  Whatever the text, and whatever variables, scripts and functions do,
    evaluating an expression reads no null pointer and overflows no integer, as
    long as every result can be copied and the overflow check is on; only the
    conversion of a double exponent can leave its range.  Without memory for a
    copy a null pointer is read ([copy_failed] of ExprShell). *)
Theorem expr_defined {I D : Type} `{RL : ReprLaws I D} (realloc_ok alloc_ok : Z → bool)
  (zExpr : bytes) (nTag : Z) (it : I) (f : fault)
  (Hcopy : copies_granted I D) (Hcheck : overflow_check_on I D)
  (Hf : Th8_Expr realloc_ok alloc_ok zExpr nTag it = Err f) : f = DoubleToInt.
Proof.
  assert (EvalLaws I D) as EL by by split.
  unfold Th8_Expr in Hf. destruct (if TH8_TAINTED _ then _ else _) as [[] it1]; [done|].
  by apply (expr_clean_defined _ _ _ _ _ _ Hf).
Qed.
