(* ===== verification/ExprTokens.v ===== *)
(** * ExprTokens: how the text of an expression is cut into tokens.

    A text of integers and operators, with a space behind each, is tokenized into
    exactly these, for any interpreter that is ready and has memory. *)

From S2P Require Import Prelude CharClass Memory Buffer Parser Subst Numbers ExprTree ExprArith ExprEval ExprParse ExprFuel.
#[local] Open Scope Z_scope.
#[local] Open Scope res_scope.

(** ** An interpreter that does not stand in the way

    Readiness checks pass, allocations of any size that is allowed succeed,
    results are stored as they are and taken again, and the caches hold what the
    parsers compute.  [shown] is what the operations keep: the result, and the
    depth of the evaluation. *)

Definition shown {I D} `{EI : ExprInterp I D} (it : I) : bytes * Z * Z := (Th8_GetResult it, nExprDepth it).

Class CalmLaws (I D : Type) `{EI : ExprInterp I D} : Prop := {
  calm_ready (it : I) : fst (Th8_Ready it) = TH8_OK;
  ready_shown (it : I) : shown (snd (Th8_Ready it)) = shown it;
  calm_alloc (it : I) n : fst (expr_alloc it n) = true;
  alloc_shown (it : I) n : shown (snd (expr_alloc it n)) = shown it;
  set_ok (it : I) z n : fst (Th8_SetResult it z n) = TH8_OK;
  set_shown (it : I) z n : shown (snd (Th8_SetResult it z n)) = (z, n, nExprDepth it);
  take_some (it : I) z n : Th8_GetResult it = (z, n) → z ≠ [] →
    ∃ it', th8TakeResultInternal it = (Some z, n, it') ∧ nExprDepth it' = nExprDepth it;
  depth_shown (it : I) d : shown (set_nExprDepth d it) = (Th8_GetResult it, d);
  calm_find (it : I) z : nExprDepth (snd (cache_find (ReprCache := wide_cache) it z)) = nExprDepth it;
  calm_store (it : I) z v : nExprDepth (cache_store (ReprCache := wide_cache) it z v) = nExprDepth it;
  calm_bool_find (it : I) z : nExprDepth (snd (cache_find (ReprCache := bool_cache) it z)) = nExprDepth it;
  calm_bool_store (it : I) z v : nExprDepth (cache_store (ReprCache := bool_cache) it z v) = nExprDepth it;
  wide_sound (it : I) z v : holds (ReprCache := wide_cache) it z v → ToWideInt_parse z = Ok v;
  bool_sound (it it2 : I) z v : holds (ReprCache := bool_cache) it2 z v →
    ToBoolean_parse (th8IsBigint it) (λ z, (λ d, negb (d_eq d d_zero)) <$> to_double z) true z = Ok v;
  calm_small (it : I) : Th8_IsBigintEnabled it = false;
  calm_checks (it : I) : bOverflowCheck it = true
}.

(** ** Tokens and their text *)

Inductive tok : Type := TNum (n : Z) | TOp (o : Th8_Operator).

Definition tok_text (t : tok) : bytes :=
  match t with TNum n => Th8_SetResultWideInt n | TOp o => zOp o end.

Definition node (t : tok) : Th8_ExprNode :=
  match t with TNum n => Literal (Th8_SetResultWideInt n) 0 | TOp o => token o end.

Definition SPACE : Z := 32.

Definition text (ts : list tok) : bytes := concat (map (λ t, tok_text t ++ [SPACE]) ts).

(** The token may stand behind one that is a term, or behind one that is none:
    signs are unary or binary by that alone, and != is not taken for !. *)
Definition stands (after_term : bool) (t : tok) : bool :=
  match t with
  | TNum n => (0 <=? n) && (n <=? TH8_INT64_MAX)
  | TOp o =>
      bool_decide (o ∈ th8Operators) && (nReqFlag o =? 0) &&
      (if iPrecedence o =? 1 then negb after_term else true) &&
      (if bool_decide (eOp o ∈ [TH8_OP_ADD; TH8_OP_SUBTRACT; TH8_OP_NE]) then after_term else true)
  end.

Definition is_term_tok (t : tok) : bool :=
  match t with TNum _ => true | TOp o => bool_decide (eOp o = TH8_OP_CLOSE_BRACKET) end.

Fixpoint stand (after_term : bool) (ts : list tok) : bool :=
  match ts with [] => true | t :: ts' => stands after_term t && stand (is_term_tok t) ts' end.

Lemma is_term_node t : is_term_token (node t) = is_term_tok t.
Proof. by destruct t. Qed.

Fixpoint after (after_term : bool) (ts : list tok) : bool :=
  match ts with [] => after_term | t :: ts' => after (is_term_tok t) ts' end.

Lemma stand_app ts1 ts2 : ∀ b, stand b (ts1 ++ ts2) = stand b ts1 && stand (after b ts1) ts2.
Proof. induction ts1 as [|t ts1 IH]; intros b; [done|]. simpl. by rewrite IH, andb_assoc. Qed.

Lemma after_app ts1 ts2 : ∀ b, after b (ts1 ++ ts2) = after (after b ts1) ts2.
Proof. induction ts1 as [|t ts1 IH]; intros b; [done|]. apply IH. Qed.

(** ** One operator *)

(** What the rows see of the token before. *)
Definition before (after_term : bool) : option Th8_ExprNode := if after_term then Some (Literal [] 0) else None.

Lemma row_matches_before features prev b z o :
  match prev with Some t => is_term_token t | None => false end = b →
  o ∈ th8Operators → starts_with (bytes_of_string ":=") z = false →
  row_matches features prev z o = row_matches 0 (before b) z o.
Proof.
  intros Hp Ho Hz. unfold row_matches. rewrite Hp.
  assert (match before b with Some t => is_term_token t | None => false end = b) as -> by by destruct b.
  unfold th8Operators in Ho.
  repeat (apply elem_of_cons in Ho as [->|Ho]; [cbn [nReqFlag zOp row]; by rewrite ?Z.land_0_r, ?Hz, ?andb_false_r|]).
  by apply elem_of_nil in Ho.
Qed.

Lemma find_agree {A} (f g : A → bool) l : (∀ x, x ∈ l → f x = g x) → find f l = find g l.
Proof.
  induction l as [|x l IH]; intros H; [done|]. simpl. rewrite (H x) by (left; done).
  destruct (g x); [done|]. apply IH. intros y Hy. apply H. by right.
Qed.

Lemma match_operator_before features prev b z :
  match prev with Some t => is_term_token t | None => false end = b →
  starts_with (bytes_of_string ":=") z = false →
  match_operator features prev z = match_operator 0 (before b) z.
Proof. intros Hp Hz. apply find_agree. intros o Ho. by apply row_matches_before. Qed.

(** The operator in front of a space is the one that is found, and nothing
    else is tried before the operators. *)
Lemma operator_found o b rest : stands b (TOp o) = true →
  let z := zOp o ++ SPACE :: rest in
  starts_with (bytes_of_string ":=") z = false ∧ match_operator 0 (before b) z = Some o ∧
  has_prefix z = false ∧ (th8IsDigit (hd 0 z) || (hd 0 z =? "."%ch)) = false ∧ (hd 0 z =? "$"%ch) = false ∧
  ((hd 0 z =? "{"%ch) || (hd 0 z =? "["%ch)) = false ∧ (hd 0 z =? DQUOTE) = false ∧ th8IsSpace (hd 0 z) = false ∧
  (hd 0 z =? "\"%ch) = false ∧ drop (length (zOp o)) z = SPACE :: rest.
Proof.
  intros H. cbv zeta. cbn [stands] in H. rewrite !andb_true_iff in H.
  destruct H as [[[Ho%bool_decide_eq_true_1 Hf] Hu] Hb].
  unfold th8Operators in Ho.
  repeat (apply elem_of_cons in Ho as [->|Ho];
    [destruct b; try discriminate; split_and!; vm_compute; reflexivity|]).
  by apply elem_of_nil in Ho.
Qed.

(** ** One number *)

Lemma digit_is_digit c : is_digit 10 c = true → 48 <= c <= 57.
Proof.
  unfold is_digit, digit_of. change (Z.of_N (Ascii.N_of_ascii "0")) with 48. change (Z.of_N (Ascii.N_of_ascii "9")) with 57.
  repeat case_if; intros; bool_to_prop; try done;
    repeat match goal with H : context [Ascii.N_of_ascii ?c] |- _ => 
      let v := eval vm_compute in (Z.of_N (Ascii.N_of_ascii c)) in change (Z.of_N (Ascii.N_of_ascii c)) with v in * end; lia.
Qed.

Lemma decimal_digits n : 0 <= n <= TH8_INT64_MAX →
  ∃ c ds, Th8_SetResultWideInt n = c :: ds ∧ Forall (λ c, 48 <= c <= 57) (c :: ds) ∧ (length ds < 19)%nat ∧
    (c = 48 → ds = []).
Proof.
  intros Hn. destruct (wide_form n) as (ds & E & Hd); [unfold TH8_INT64_MIN, TH8_INT64_MAX in *; lia|].
  rewrite (proj2 (Z.ltb_ge n 0)) in E by lia. rewrite E. destruct Hd as [_ H2 H3 H4].
  destruct ds as [|c ds]; [simpl in H3; lia|]. exists c, ds. split_and!; [done| |simpl in H3; lia|].
  - eapply Forall_impl; [exact H2|]. intros; by apply digit_is_digit.
  - intros ->. specialize (H4 eq_refl). congruence.
Qed.

(** The bytes of a digit, as the tokenizer classifies them. *)
Lemma digit_classes c : 48 <= c <= 57 →
  th8IsDigit c = true ∧ is_e c = false ∧ th8IsSpace c = false ∧ (c =? "\"%ch) = false ∧ (c =? ","%ch) = false.
Proof.
  intros H. assert (c = 48 ∨ c = 49 ∨ c = 50 ∨ c = 51 ∨ c = 52 ∨ c = 53 ∨ c = 54 ∨ c = 55 ∨ c = 56 ∨ c = 57) as Hc by lia.
  repeat destruct Hc as [->|Hc]; try (by vm_compute). by subst.
Qed.

Lemma number_span_digits ds rest : Forall (λ c, 48 <= c <= 57) ds →
  number_span false (ds ++ SPACE :: rest) = length ds.
Proof.
  induction 1 as [|c ds Hc _ IH]; [reflexivity|]. cbn [app number_span].
  destruct (digit_classes c Hc) as (-> & -> & _). cbn [orb]. simpl. by rewrite IH.
Qed.

Lemma has_prefix_digits c ds rest : Forall (λ c, 48 <= c <= 57) (c :: ds) → (c = 48 → ds = []) →
  has_prefix ((c :: ds) ++ SPACE :: rest) = false.
Proof.
  intros H Hz. cbn [app has_prefix]. destruct (Z.eqb_spec c "0"%ch) as [->|_]; [by rewrite Hz|].
  by destruct (ds ++ _).
Qed.

(** ** Sizes *)

Lemma add_size_small a b : a + b <= SIZE_MAX → add_size a b = Some (a + b).
Proof. intros. unfold add_size, TH8_SAFE_ADD_SIZE. by rewrite (proj2 (Z.ltb_ge _ _)) by lia. Qed.

Lemma mul_size_small a b : 0 < b → a * b <= SIZE_MAX → mul_size a b = Some (a * b).
Proof.
  intros Hb H. unfold mul_size, TH8_SAFE_MUL_SIZE. rewrite (proj2 (Z.ltb_ge _ _)), andb_false_r; [done|].
  apply Z.div_le_lower_bound; lia.
Qed.

(** ** The tokenizer on the text *)

Section tokens.
Context {I D : Type} `{EI : ExprInterp I D} `{!CalmLaws I D}.
Context (realloc_ok : Z → bool).
Implicit Types it : I.

Lemma ready_calm it : ∃ it', Th8_Ready it = (TH8_OK, it') ∧ shown it' = shown it.
Proof.
  exists (snd (Th8_Ready it)). pose proof (calm_ready it). pose proof (ready_shown it).
  destruct (Th8_Ready it) as [rc it']. simpl in *. by subst.
Qed.

Lemma alloc_calm it n : 0 < n <= TH8_MX_ALLOC → ∃ it', TH8_ALLOC it n = (true, it') ∧ shown it' = shown it.
Proof.
  intros Hn. exists (snd (expr_alloc it n)). unfold TH8_ALLOC.
  rewrite (proj2 (Z.eqb_neq n 0)), (proj2 (Z.ltb_ge TH8_MX_ALLOC n)) by lia. cbn [orb].
  pose proof (calm_alloc it n). pose proof (alloc_shown it n).
  destruct (expr_alloc it n) as [ok it']. simpl in *. by subst.
Qed.

Lemma alloc_str_calm it n : 0 <= n < TH8_MX_ALLOC → ∃ it', TH8_ALLOC_STR it n = (true, it') ∧ shown it' = shown it.
Proof.
  intros Hn. unfold TH8_ALLOC_STR. rewrite add_size_small by (unfold TH8_MX_ALLOC, SIZE_MAX in *; lia).
  apply alloc_calm. lia.
Qed.

Lemma scan_tok expr zExpr it prev t rest : 
  stands (match prev with Some t => is_term_token t | None => false end) t = true →
  ∃ it', scan_token realloc_ok expr zExpr it prev (tok_text t ++ SPACE :: rest) =
    Ok (TH8_OK, Some (node t, SPACE :: rest), it') ∧ shown it' = shown it.
Proof.
  intros Ht. destruct t as [n|o].
  - cbn [stands tok_text node] in *. bool_to_prop. destruct (decimal_digits n ltac:(lia)) as (c & ds & -> & Hd & Hl & Hz).
    unfold scan_token. rewrite (has_prefix_digits c ds rest Hd Hz).
    destruct (digit_classes c ltac:(by inversion Hd)) as (Hc & _). cbn [app hd]. rewrite Hc. cbn [orb].
    rewrite app_comm_cons, (number_span_digits (c :: ds) rest Hd). unfold literal_span.
    destruct (alloc_str_calm it (Z.of_nat (length (c :: ds)))) as (it' & -> & Hs);
      [simpl; unfold TH8_MX_ALLOC; lia|].
    exists it'. split; [|done]. by rewrite take_app_length, drop_app_length.
  - destruct (operator_found o _ rest Ht) as (H1 & H2 & H3 & H4 & H5 & H6 & H7 & _ & _ & H10).
    cbn [tok_text node]. unfold scan_token. rewrite H3, H4, H5, H6, H7.
    rewrite (match_operator_before _ prev _ _ eq_refl H1), H2, H10. by exists it.
Qed.

Lemma tok_nonempty b t : stands b t = true → tok_text t ≠ [].
Proof.
  destruct t as [n|o]; cbn [stands tok_text]; intros H.
  - bool_to_prop. by destruct (decimal_digits n ltac:(lia)) as (c & ds & -> & _).
  - intros E. destruct (operator_found o b [] H) as (_ & _ & _ & _ & _ & _ & _ & H8 & _). by rewrite E in H8.
Qed.

(** A space in front is skipped. *)
Lemma skip_to_tok t rest fuel b : stands b t = true →
  skip_space (S fuel) (tok_text t ++ SPACE :: rest) = tok_text t ++ SPACE :: rest ∧
  skip_space (S (S fuel)) (SPACE :: tok_text t ++ SPACE :: rest) = tok_text t ++ SPACE :: rest.
Proof.
  intros Ht. assert (∃ c z, tok_text t ++ SPACE :: rest = c :: z ∧ th8IsSpace c = false ∧ (c =? "\"%ch) = false) as (c & z & -> & Hs & Hb).
  { destruct t as [n|o].
    - cbn [stands tok_text] in *. bool_to_prop. destruct (decimal_digits n ltac:(lia)) as (c & ds & -> & Hd & _).
      exists c, (ds ++ SPACE :: rest). destruct (digit_classes c ltac:(by inversion Hd)) as (_ & _ & H1 & H2 & _). done.
    - destruct (operator_found o b rest Ht) as (_ & _ & _ & _ & _ & _ & _ & H8 & H9 & H10). cbn [tok_text].
      destruct (zOp o ++ SPACE :: rest) as [|c z] eqn:E; [by destruct (zOp o)|]. by exists c, z. }
  assert (skip_space (S fuel) (c :: z) = c :: z) as E.
  { cbn [skip_space]. rewrite Hs, Hb. by destruct z. }
  split; [done|]. cbn [skip_space]. change (th8IsSpace SPACE) with true. cbn match.
  cbn [skip_space] in E. exact E.
Qed.

(** More tokens than any text within the limits has. *)
Definition many_tokens : Z := 2 ^ 20.

Lemma grow_calm nToken nAlloc it : 0 <= nAlloc → nToken < many_tokens →
  ∃ n it', grow_tokens nToken nAlloc it = (Some n, it') ∧ 0 <= n ∧ shown it' = shown it.
Proof.
  unfold many_tokens, grow_tokens. intros H0 Hn. destruct (Z.leb_spec nAlloc nToken); [|by exists nAlloc, it].
  rewrite (proj2 (Z.ltb_ge _ _)) by lia. rewrite mul_size_small by (unfold SIZE_MAX; lia).
  destruct (alloc_calm it (8 * (nAlloc * 2 + 16))) as (it' & -> & Hs); [unfold TH8_MX_ALLOC; lia|].
  exists (nAlloc * 2 + 16), it'. split_and!; [done|lia|done].
Qed.

Lemma text_cons t ts : text (t :: ts) = tok_text t ++ SPACE :: text ts.
Proof. unfold text. simpl. by rewrite <- app_assoc. Qed.

(** The loop stands in front of a token, perhaps behind a space. *)
Lemma front_token t rest pre fuel b : stands b t = true → pre = [] ∨ pre = [SPACE] →
  (length (pre ++ tok_text t ++ SPACE :: rest) <= fuel)%nat →
  ∃ f c y, pre ++ tok_text t ++ SPACE :: rest = c :: y ∧ fuel = S f ∧
    skip_space (length (c :: y)) (c :: y) = tok_text t ++ SPACE :: rest ∧ (length (SPACE :: rest) <= f)%nat.
Proof.
  intros Ht Hpre Hf. pose proof (tok_nonempty b t Ht) as Hne. rewrite !length_app in Hf. cbn [length] in *.
  assert (1 <= length (tok_text t))%nat by (destruct (tok_text t); [done|simpl; lia]).
  destruct fuel as [|f]; [lia|]. destruct Hpre as [->| ->]; cbn [app length] in *.
  - destruct (tok_text t ++ SPACE :: rest) as [|c y] eqn:E; [by destruct (tok_text t)|].
    exists f, c, y. split_and!; [done..| |lia]. rewrite <- E. cbn [length]. by apply (skip_to_tok t rest _ b).
  - exists f, SPACE, (tok_text t ++ SPACE :: rest). split_and!; [done..| |lia]. cbn [length].
    destruct (length (tok_text t ++ SPACE :: rest)) eqn:E; [rewrite length_app in E; lia|].
    by apply (skip_to_tok t rest _ b).
Qed.

Lemma parse_calm expr zExpr ts : ∀ fuel nAlloc done (pre : bytes) it,
  stand (match head done with Some t => is_term_token t | None => false end) ts = true →
  pre = [] ∨ pre = [SPACE] → (length (pre ++ text ts) <= fuel)%nat →
  0 <= nAlloc → zlen done + zlen ts < many_tokens →
  ∃ it', parse_loop realloc_ok expr zExpr fuel nAlloc done (pre ++ text ts) it =
    Ok (TH8_OK, rev_append (map node ts) done, it') ∧ shown it' = shown it.
Proof.
  induction ts as [|t ts IH]; intros fuel nAlloc done pre it Hst Hpre Hf Hn Hl.
  - destruct Hpre as [->| ->]; cbn [app text map concat]; [destruct fuel; by exists it|].
    destruct fuel as [|fuel]; [simpl in Hf; lia|]. cbn [app parse_loop].
    destruct (ready_calm it) as (it1 & -> & Hs1). by exists it1.
  - cbn [stand] in Hst. apply andb_true_iff in Hst as [Ht Hts]. rewrite text_cons in *.
    destruct (front_token t (text ts) pre fuel _ Ht Hpre Hf) as (f & c & y & E1 & -> & Hsk & Hf').
    rewrite E1. cbn [parse_loop]. destruct (ready_calm it) as (it1 & -> & Hs1).
    change (negb (TH8_OK =? TH8_OK)) with false. cbn match. rewrite Hsk.
    destruct (alloc_calm it1 sizeof_node) as (it2 & Ea & Hs2); [unfold sizeof_node, TH8_MX_ALLOC; lia|].
    destruct (scan_tok expr zExpr it2 (head done) t (text ts) Ht) as (it3 & Es & Hs3).
    destruct (tok_text t ++ SPACE :: text ts) as [|d x] eqn:Ed; [by destruct (tok_text t)|].
    rewrite Ea. cbn [negb]. rewrite Es. cbn [res_bind].
    unfold zlen in Hl. cbn [length] in Hl.
    destruct (grow_calm (zlen done) nAlloc it3 Hn) as (n & it4 & -> & Hn' & Hs4); [unfold zlen; lia|].
    destruct (IH f n (node t :: done) [SPACE] it4) as (it5 & E5 & Hs5); [cbn [head]; by rewrite is_term_node|by right|done|done| |].
    { unfold zlen. cbn [length]. lia. }
    exists it5. split; [exact E5|]. congruence.
Qed.
End tokens.
