(* ===== verification/ExprCalc.v ===== *)
(** * ExprCalc: expressions of integers, from their text to their value.

    An expression is an abstract tree [iexp].  [prints] says which words may be
    written for it, by the symbols and precedences that the documentation lists
    and with parentheses where they are needed or wanted; [denote] what it means,
    with [ideal] on the unbounded integers.  The text gives, through the
    tokenizer, the tree builder and the evaluator, the value it denotes, or the
    error of the first operator that has none; branches that are not selected are
    not evaluated. *)

From S2P Require Import Prelude CharClass Memory Buffer Parser Subst Numbers ExprTree ExprArith ExprEval ExprParse ExprFuel ExprTokens.
#[local] Open Scope Z_scope.
#[local] Open Scope res_scope.

(** ** Expressions and what they denote *)

Inductive iexp : Type :=
| INum (n : Z)
| IUn (o : op_code) (a : iexp)
| IBin (o : op_code) (a b : iexp)
| IAnd (a b : iexp)
| IOr (a b : iexp)
| IIf (c a b : iexp).

Definition unary_codes : list op_code :=
  [TH8_OP_UNARY_MINUS; TH8_OP_UNARY_PLUS; TH8_OP_BITWISE_NOT; TH8_OP_LOGICAL_NOT].
Definition binary_codes : list op_code :=
  [TH8_OP_MULTIPLY; TH8_OP_DIVIDE; TH8_OP_MODULUS; TH8_OP_ADD; TH8_OP_SUBTRACT; TH8_OP_LEFT_SHIFT;
   TH8_OP_RIGHT_SHIFT; TH8_OP_LT; TH8_OP_GT; TH8_OP_LE; TH8_OP_GE; TH8_OP_EQ; TH8_OP_NE; TH8_OP_BITWISE_AND;
   TH8_OP_BITWISE_XOR; TH8_OP_BITWISE_OR; TH8_OP_EXPONENT].

(** Literals of 64 bits, and operators that have integer operands. *)
Fixpoint good (e : iexp) : bool :=
  match e with
  | INum n => (0 <=? n) && (n <=? TH8_INT64_MAX)
  | IUn o a => bool_decide (o ∈ unary_codes) && good a
  | IBin o a b => bool_decide (o ∈ binary_codes) && good a && good b
  | IAnd a b | IOr a b => good a && good b
  | IIf c a b => good c && good a && good b
  end.

(** [Unspecified] is no outcome of a run: nothing is said of the expression. *)
Inductive outcome : Type := Value (v : Z) | DivZero | Overflow | Unspecified.

Definition outcome_bind (m : outcome) (k : Z → outcome) : outcome :=
  match m with Value v => k v | r => r end.

Definition bounded (v : Z) : outcome := if in64 v then Value v else Overflow.

(** What an operator of the program gives, by [exact]. *)
Definition compute (o : op_code) (a b : Z) : outcome :=
  match exact o a b with
  | Exact v => bounded v
  | NoQuotient => DivZero
  | NotInteger => Overflow
  end.

(** The value of an operator on the unbounded integers, or that it has none of 64
    bits.  Quotients round down.  Shifts by a count outside of 0 to 63, left
    shifts that lose bits and negative powers are left to [integer_op_exact]. *)
Definition ideal (o : op_code) (a b : Z) : outcome :=
  match o with
  | TH8_OP_MULTIPLY => bounded (a * b)
  | TH8_OP_DIVIDE => if b =? 0 then DivZero else bounded (a / b)
  | TH8_OP_MODULUS => if b =? 0 then DivZero else bounded (a mod b)
  | TH8_OP_ADD => bounded (a + b)
  | TH8_OP_SUBTRACT => bounded (a - b)
  | TH8_OP_LEFT_SHIFT =>
      if (0 <=? b) && (b <? 64) && in64 (a * 2 ^ b) then Value (a * 2 ^ b) else Unspecified
  | TH8_OP_RIGHT_SHIFT => if (0 <=? b) && (b <? 64) then bounded (a / 2 ^ b) else Unspecified
  | TH8_OP_EXPONENT => if b <? 0 then Unspecified else bounded (a ^ b)
  | TH8_OP_LT => Value (of_bool (a <? b))
  | TH8_OP_GT => Value (of_bool (b <? a))
  | TH8_OP_LE => Value (of_bool (a <=? b))
  | TH8_OP_GE => Value (of_bool (b <=? a))
  | TH8_OP_EQ => Value (of_bool (a =? b))
  | TH8_OP_NE => Value (of_bool (negb (a =? b)))
  | TH8_OP_BITWISE_AND => bounded (Z.land a b)
  | TH8_OP_BITWISE_XOR => bounded (Z.lxor a b)
  | TH8_OP_BITWISE_OR => bounded (Z.lor a b)
  | TH8_OP_UNARY_MINUS => bounded (- a)
  | TH8_OP_UNARY_PLUS => bounded a
  | TH8_OP_BITWISE_NOT => bounded (- a - 1)
  | TH8_OP_LOGICAL_NOT => Value (of_bool (a =? 0))
  | _ => Unspecified
  end.

(** The value of an expression, with the values of its operators. *)
Fixpoint denote (op : op_code → Z → Z → outcome) (e : iexp) : outcome :=
  match e with
  | INum n => Value n
  | IUn o a => outcome_bind (denote op a) (λ v, op o v 0)
  | IBin o a b => outcome_bind (denote op a) (λ v, outcome_bind (denote op b) (λ w, op o v w))
  | IAnd a b =>
      outcome_bind (denote op a) (λ v,
        if v =? 0 then Value 0 else outcome_bind (denote op b) (λ w, Value (of_bool (negb (w =? 0)))))
  | IOr a b =>
      outcome_bind (denote op a) (λ v,
        if v =? 0 then outcome_bind (denote op b) (λ w, Value (of_bool (negb (w =? 0)))) else Value 1)
  | IIf c a b => outcome_bind (denote op c) (λ v, if v =? 0 then denote op b else denote op a)
  end.

(** *** Their text

    [prints k p ws e]: the words [ws] are an expression of precedence [p] as the
    documentation numbers them, with parentheses nested at most [k] deep, that
    reads as [e].  ** and the conditional are operands of themselves only in
    parentheses. *)
Definition symbol (o : op_code) : string :=
  match o with
  | TH8_OP_UNARY_MINUS | TH8_OP_SUBTRACT => "-"
  | TH8_OP_UNARY_PLUS | TH8_OP_ADD => "+"
  | TH8_OP_BITWISE_NOT => "~"
  | TH8_OP_LOGICAL_NOT => "!"
  | TH8_OP_EXPONENT => "**"
  | TH8_OP_MULTIPLY => "*"
  | TH8_OP_DIVIDE => "/"
  | TH8_OP_MODULUS => "%"
  | TH8_OP_LEFT_SHIFT => "<<"
  | TH8_OP_RIGHT_SHIFT => ">>"
  | TH8_OP_LT => "<"
  | TH8_OP_GT => ">"
  | TH8_OP_LE => "<="
  | TH8_OP_GE => ">="
  | TH8_OP_EQ => "=="
  | TH8_OP_NE => "!="
  | TH8_OP_BITWISE_AND => "&"
  | TH8_OP_BITWISE_XOR => "^"
  | TH8_OP_BITWISE_OR => "|"
  | _ => ""
  end.

Definition level (o : op_code) : Z :=
  match o with
  | TH8_OP_MULTIPLY | TH8_OP_DIVIDE | TH8_OP_MODULUS => 3
  | TH8_OP_ADD | TH8_OP_SUBTRACT => 4
  | TH8_OP_LEFT_SHIFT | TH8_OP_RIGHT_SHIFT => 5
  | TH8_OP_LT | TH8_OP_GT | TH8_OP_LE | TH8_OP_GE => 6
  | TH8_OP_EQ | TH8_OP_NE => 7
  | TH8_OP_BITWISE_AND => 9
  | TH8_OP_BITWISE_XOR => 10
  | _ => 11
  end.

Inductive prints : nat → Z → list bytes → iexp → Prop :=
| P_number k n : 0 <= n <= TH8_INT64_MAX → prints k 0 [Th8_SetResultWideInt n] (INum n)
| P_group k ws e : prints k 14 ws e → prints (S k) 0 (bytes_of_string "(" :: ws ++ [bytes_of_string ")"]) e
| P_up k p p' ws e : p < p' <= 14 → prints k p ws e → prints k p' ws e
| P_unary k o ws a : o ∈ unary_codes → prints k 1 ws a → prints k 1 (bytes_of_string (symbol o) :: ws) (IUn o a)
| P_power k ws1 a ws2 b : prints k 1 ws1 a → prints k 1 ws2 b →
    prints k 2 (ws1 ++ bytes_of_string "**" :: ws2) (IBin TH8_OP_EXPONENT a b)
| P_binary k o ws1 a ws2 b : o ∈ binary_codes → o ≠ TH8_OP_EXPONENT →
    prints k (level o) ws1 a → prints k (level o - 1) ws2 b →
    prints k (level o) (ws1 ++ bytes_of_string (symbol o) :: ws2) (IBin o a b)
| P_and k ws1 a ws2 b : prints k 12 ws1 a → prints k 11 ws2 b →
    prints k 12 (ws1 ++ bytes_of_string "&&" :: ws2) (IAnd a b)
| P_or k ws1 a ws2 b : prints k 13 ws1 a → prints k 12 ws2 b →
    prints k 13 (ws1 ++ bytes_of_string "||" :: ws2) (IOr a b)
| P_if k ws1 c ws2 a ws3 b : prints k 13 ws1 c → prints k 13 ws2 a → prints k 13 ws3 b →
    prints k 14 (ws1 ++ bytes_of_string "?" :: ws2 ++ bytes_of_string ":" :: ws3) (IIf c a b).

(** The text: every word, and a space. *)
Definition spaced (ws : list bytes) : bytes := concat (map (λ w, w ++ [SPACE]) ws).

(** ** Their tokens and their trees *)

Definition row_of (o : op_code) : Th8_Operator :=
  default (row "" o 0 TH8_ARG_NONE) (find (λ r, bool_decide (eOp r = o)) th8Operators).

Definition group (ts : list tok) : list tok :=
  TOp (row_of TH8_OP_OPEN_BRACKET) :: ts ++ [TOp (row_of TH8_OP_CLOSE_BRACKET)].

Fixpoint tree (e : iexp) : Th8_ExprNode :=
  match e with
  | INum n => Literal (Th8_SetResultWideInt n) 0
  | IUn o a => Operator (row_of o) (tree a) NULL
  | IBin o a b => Operator (row_of o) (tree a) (tree b)
  | IAnd a b => Operator (row_of TH8_OP_LOGICAL_AND) (tree a) (tree b)
  | IOr a b => Operator (row_of TH8_OP_LOGICAL_OR) (tree a) (tree b)
  | IIf c a b =>
      Operator (row_of TH8_OP_TERNARY_Q) (tree c) (Operator (row_of TH8_OP_TERNARY_C) (tree a) (tree b))
  end.

(** How deep the calls of the evaluator are nested. *)
Fixpoint height (e : iexp) : nat :=
  match e with
  | INum _ => 1
  | IUn _ a => S (height a)
  | IBin _ a b | IAnd a b | IOr a b => S (height a `max` height b)
  | IIf c a b => S (height c `max` (height a `max` height b))
  end.

(** *** The tokens stand where they may, and derive the tree *)

Lemma row_in o : o ∈ unary_codes ∨ o ∈ binary_codes →
  row_of o ∈ th8Operators ∧ eOp (row_of o) = o ∧ nReqFlag (row_of o) = 0.
Proof.
  intros H. destruct o; try (vm_compute; split_and!; [|done..]; repeat (first [left; reflexivity|right]));
  exfalso; destruct H as [H|H]; vm_compute in H; repeat (inversion H; subst; clear H; rename select (_ ∈ _) into H).
Qed.

Lemma stand_group b ts : stand false ts = true → after false ts = true → stand b (group ts) = true.
Proof.
  intros Hs Ha. unfold group. cbn [stand]. rewrite stand_app. cbn [is_term_tok].
  replace (bool_decide _) with false by done. rewrite Hs, Ha.
  replace (stands b (TOp (row_of TH8_OP_OPEN_BRACKET))) with true by (by destruct b). done.
Qed.

Lemma after_group b ts : after b (group ts) = true.
Proof. unfold group. cbn [after]. by rewrite after_app. Qed.

(** A binary operator between two operands, in the middle of a group. *)
Lemma stand_op b ts1 o ts2 : stand b ts1 = true → after b ts1 = true → stands true (TOp o) = true →
  is_term_tok (TOp o) = false → stand false ts2 = true → stand b (ts1 ++ TOp o :: ts2) = true.
Proof. intros H1 H2 H3 H4 H5. rewrite stand_app, H1, H2. cbn [stand]. by rewrite H3, H4, H5. Qed.

Lemma after_op b ts1 o ts2 : is_term_tok (TOp o) = false → after b (ts1 ++ TOp o :: ts2) = after false ts2.
Proof. intros H. rewrite after_app. cbn [after]. by rewrite H. Qed.

Lemma binary_stands o : o ∈ binary_codes →
  stands true (TOp (row_of o)) = true ∧ is_term_tok (TOp (row_of o)) = false.
Proof.
  unfold binary_codes. intros Ho.
  repeat (apply elem_of_cons in Ho as [->|Ho]; [split; vm_compute; reflexivity|]). by apply elem_of_nil in Ho.
Qed.

Lemma unary_stands o : o ∈ unary_codes →
  stands false (TOp (row_of o)) = true ∧ is_term_tok (TOp (row_of o)) = false ∧ iPrecedence (row_of o) = 1.
Proof.
  unfold unary_codes. intros Ho.
  repeat (apply elem_of_cons in Ho as [->|Ho]; [split_and!; vm_compute; reflexivity|]). by apply elem_of_nil in Ho.
Qed.

Lemma binary_row o : o ∈ binary_codes → o ≠ TH8_OP_EXPONENT →
  row_of o ∈ th8Operators ∧ iPrecedence (row_of o) = level o ∧ 3 <= level o <= 13 ∧
  tok_text (TOp (row_of o)) = bytes_of_string (symbol o).
Proof.
  unfold binary_codes. intros Ho Hne.
  repeat (apply elem_of_cons in Ho as [->|Ho];
    [first [done|split; [by refine (bool_decide_eq_true_1 _ _); vm_compute|by vm_compute]]|]).
  by apply elem_of_nil in Ho.
Qed.

Lemma unary_row o : o ∈ unary_codes → row_of o ∈ th8Operators ∧ tok_text (TOp (row_of o)) = bytes_of_string (symbol o).
Proof.
  unfold unary_codes. intros Ho.
  repeat (apply elem_of_cons in Ho as [->|Ho]; [split; [by refine (bool_decide_eq_true_1 _ _); vm_compute|done]|]).
  by apply elem_of_nil in Ho.
Qed.

Lemma fixed_row o : o ∈ [TH8_OP_OPEN_BRACKET; TH8_OP_CLOSE_BRACKET; TH8_OP_LOGICAL_AND; TH8_OP_LOGICAL_OR;
    TH8_OP_TERNARY_Q; TH8_OP_TERNARY_C; TH8_OP_EXPONENT] → row_of o ∈ th8Operators.
Proof.
  intros Ho. repeat (apply elem_of_cons in Ho as [->|Ho]; [by refine (bool_decide_eq_true_1 _ _); vm_compute|]).
  by apply elem_of_nil in Ho.
Qed.

(** Tokens that read as the words, stand where they may and derive the tree. *)
Definition reads (k : nat) (p : Z) (ws : list bytes) (e : iexp) (ts : list tok) : Prop :=
  map tok_text ts = ws ∧ (stand false ts = true ∧ after false ts = true) ∧ derives Unchained k p (map node ts) (tree e).

Lemma reads_binary k p o ws1 a ts1 ws2 b ts2 e : row_of o ∈ th8Operators → iPrecedence (row_of o) = p → 2 <= p <= 13 →
  stands true (TOp (row_of o)) = true → is_term_tok (TOp (row_of o)) = false →
  tree e = Operator (row_of o) (tree a) (tree b) →
  reads k (left_of Unchained p) ws1 a ts1 → reads k (right_of Unchained p) ws2 b ts2 →
  reads k p (ws1 ++ tok_text (TOp (row_of o)) :: ws2) e (ts1 ++ TOp (row_of o) :: ts2).
Proof.
  intros Ho Hp Hr Hst Hterm Ht (<- & [S1 A1] & D1) (<- & [S2 A2] & D2). split_and!.
  - by rewrite map_app.
  - by apply stand_op.
  - by rewrite after_op.
  - rewrite Ht, map_app. by apply D_binary.
Qed.

(** Words that print an expression are those of tokens that read as it. *)
Lemma prints_reads k p ws e : prints k p ws e → ∃ ts, reads k p ws e ts.
Proof.
  induction 1 as [k n Hn|k ws e H [ts IH]|k p p' ws e Hp H [ts IH]|k o ws a Ho H [ts IH]
    |k ws1 a ws2 b H1 [ts1 IH1] H2 [ts2 IH2]|k o ws1 a ws2 b Ho Hne H1 [ts1 IH1] H2 [ts2 IH2]
    |k ws1 a ws2 b H1 [ts1 IH1] H2 [ts2 IH2]|k ws1 a ws2 b H1 [ts1 IH1] H2 [ts2 IH2]
    |k ws1 c ws2 a ws3 b H1 [ts1 IH1] H2 [ts2 IH2] H3 [ts3 IH3]].
  - exists [TNum n]. split_and!; [done| |done|constructor]. cbn [stand stands].
    rewrite andb_true_r. apply andb_true_iff. split; apply Z.leb_le; lia.
  - destruct IH as (<- & [S A] & D). exists (group ts). split_and!.
    + unfold group. cbn [map]. by rewrite map_app.
    + by apply stand_group.
    + apply after_group.
    + unfold group. cbn [map node]. rewrite map_app. cbn [map node].
      apply D_group; [apply fixed_row; repeat constructor|apply fixed_row; repeat constructor|done|done|].
      by apply (derives_up _ _ 14).
  - destruct IH as (E & S & D). exists ts. split; [done|]. split; [done|]. apply (derives_up _ _ p); [lia|done].
  - destruct IH as (<- & [S A] & D). destruct (unary_row o Ho) as [Hin <-]. destruct (unary_stands o Ho) as (H1 & H2 & H3).
    exists (TOp (row_of o) :: ts). split; [done|]. split; [|by apply D_unary].
    cbn [stand after]. by rewrite H1, H2.
  - exists (ts1 ++ TOp (row_of TH8_OP_EXPONENT) :: ts2). 
    by apply (reads_binary k 2 TH8_OP_EXPONENT ws1 a ts1 ws2 b ts2); [apply fixed_row; repeat constructor|..].
  - destruct (binary_row o Ho Hne) as (Hin & Hp & Hl & <-). destruct (binary_stands o Ho).
    exists (ts1 ++ TOp (row_of o) :: ts2). apply (reads_binary k (level o) o ws1 a ts1 ws2 b ts2); try done; [lia|..].
    + cbn [left_of]. by rewrite (proj2 (Z.eqb_neq _ _)) by lia.
  - exists (ts1 ++ TOp (row_of TH8_OP_LOGICAL_AND) :: ts2).
    by apply (reads_binary k 12 TH8_OP_LOGICAL_AND ws1 a ts1 ws2 b ts2); [apply fixed_row; repeat constructor|..].
  - exists (ts1 ++ TOp (row_of TH8_OP_LOGICAL_OR) :: ts2).
    by apply (reads_binary k 13 TH8_OP_LOGICAL_OR ws1 a ts1 ws2 b ts2); [apply fixed_row; repeat constructor|..].
  - destruct IH1 as (<- & [S1 A1] & D1), IH2 as (<- & [S2 A2] & D2), IH3 as (<- & [S3 A3] & D3).
    exists (ts1 ++ TOp (row_of TH8_OP_TERNARY_Q) :: ts2 ++ TOp (row_of TH8_OP_TERNARY_C) :: ts3). split_and!.
    + rewrite map_app. cbn [map]. by rewrite map_app.
    + apply stand_op; [done..|]. by apply stand_op.
    + by rewrite !after_op.
    + rewrite map_app. cbn [map node]. rewrite map_app. cbn [map node].
      apply D_ternary; [apply fixed_row; repeat constructor|apply fixed_row; repeat constructor|done..].
Qed.

Lemma spaced_text ts : text ts = spaced (map tok_text ts).
Proof. unfold text, spaced. by rewrite map_map. Qed.

Lemma prints_good k p ws e : prints k p ws e → good e = true.
Proof.
  induction 1; cbn [good]; rewrite ?andb_true_iff; repeat split; try done; try (by apply bool_decide_eq_true); try lia.
Qed.

(** ** The evaluator *)

(** The code and the text an expression ends with. *)
Definition report (r : outcome) : Z * bytes :=
  match r with
  | Value v => (TH8_OK, Th8_SetResultWideInt v)
  | DivZero => (TH8_ERROR, bytes_of_string "divide by zero")
  | Overflow => (TH8_ERROR, bytes_of_string "integer overflow")
  | Unspecified => (TH8_ERROR, [])
  end.

(** A literal is its own substitution. *)
Definition plain_char (c : Z) : bool := negb (c =? "\"%ch) && negb (c =? "["%ch) && negb (c =? "$"%ch).

Lemma SubstWord_loop_plain {I} `{SI : SubstInterp I} realloc_ok z : ∀ fuel ps (it : I),
  (length z <= fuel)%nat → forallb plain_char z = true →
  SubstWord_loop (SK := pieces_sink) realloc_ok fuel z ps it = (TH8_OK, rev (char_pieces z) ++ ps, it).
Proof.
  induction z as [|c z IH]; intros fuel ps it Hf Hz; [by destruct fuel|].
  destruct fuel as [|fuel]; [simpl in Hf; lia|]. cbn [forallb] in Hz. apply andb_true_iff in Hz as [Hc Hz].
  unfold plain_char in Hc. rewrite !andb_true_iff, !negb_true_iff in Hc. destruct Hc as [[H1 H2] H3].
  cbn [SubstWord_loop]. rewrite H1, H2, H3. cbn [andb]. rewrite IH by (done || (simpl in Hf; lia)).
  unfold char_pieces. cbn [map rev]. by rewrite <- app_assoc.
Qed.

Lemma SubstWord_plain {I} `{SI : SubstInterp I} realloc_ok alloc_ok z (it : I) :
  (∀ n, alloc_ok n = true) → 2 * zlen z + 32 <= TH8_MX_STRLEN → forallb plain_char z = true →
  hd 0 z ≠ "{"%ch → hd 0 z ≠ DQUOTE →
  th8SubstWord realloc_ok alloc_ok it z = Th8_SetResult it z (zlen z).
Proof.
  intros Ha Hl Hz H1 H2. pose proof (SubstWord_answers realloc_ok alloc_ok it z) as H.
  unfold SubstWord_run, SubstWord_body in H.
  assert (∀ c, hd 0 z ≠ c → (nth 0 z 0 =? c) = false) as Hnth by (intros c Hc; apply Z.eqb_neq; by destruct z).
  rewrite !Hnth, !andb_false_r in H by done. cbn [andb] in H.
  rewrite SubstWord_loop_plain, app_nil_r in H by done. destruct (char_pieces_spec z) as (E1 & E2 & E3).
  unfold answers in H. cbn [negb] in H. rewrite E1, E2, E3, !Z.lor_0_r in H.
  destruct H as [[-> _]|[_ [[k Hk]|]]]; [done|by rewrite Ha in Hk|lia].
Qed.

Section calc.
Context {I D : Type} `{EI : ExprInterp I D} `{!CalmLaws I D}.
Context (realloc_ok alloc_ok : Z → bool) (Halloc : ∀ n, alloc_ok n = true).
Implicit Types it : I.

(** The step ends as the outcome says, at the depth it began at. *)
Definition ends (m : res fault (Z * I)) (it : I) (r : outcome) : Prop :=
  ∃ it', m = Ok (fst (report r), it') ∧ shown it' = (snd (report r), zlen (snd (report r)), nExprDepth it).

Lemma shown_inv it z n d : shown it = (z, n, d) → Th8_GetResult it = (z, n) ∧ nExprDepth it = d.
Proof. unfold shown. by intros [= -> ->]. Qed.

Lemma ends_depth m it it1 r : nExprDepth it1 = nExprDepth it → ends m it1 r → ends m it r.
Proof. unfold ends. by intros ->. Qed.

Lemma set_calm it z n : ∃ it', Th8_SetResult it z n = (TH8_OK, it') ∧ shown it' = (z, n, nExprDepth it).
Proof.
  exists (snd (Th8_SetResult it z n)). pose proof (set_ok it z n). split; [|apply set_shown].
  destruct (Th8_SetResult it z n). simpl in *. by subst.
Qed.

Lemma ends_outcome m it r k k' : ends m it (outcome_bind r k) → (∀ v, k v = k' v) → ends m it (outcome_bind r k').
Proof. intros H Hk. destruct r; simpl in *; by rewrite <- ?Hk. Qed.

Lemma say_ends it r s : report r = (TH8_ERROR, bytes_of_string s) → ends (Ok (TH8_ERROR, say it s)) it r.
Proof. intros E. exists (say it s). rewrite E. split; [done|apply set_shown]. Qed.

Lemma set_wide_ends it v : ends (Ok (TH8_OK, snd (set_wide it v))) it (Value v).
Proof. eexists. split; [done|]. apply set_shown. Qed.

Lemma set_int_ends it b : ends (Ok (set_int it (of_bool b))) it (Value (of_bool b)).
Proof.
  unfold set_int. destruct (set_calm it (Numbers.Th8_SetResultInt (of_bool b)) (zlen (Numbers.Th8_SetResultInt (of_bool b))))
    as (it' & -> & Hs). exists it'. split; [done|]. rewrite Hs. by destruct b.
Qed.

(** *** Literals *)

Lemma plain_digits ds : Forall (λ c, 48 <= c <= 57) ds →
  forallb plain_char ds = true ∧ existsb (λ c, (c =? "e"%ch) || (c =? "E"%ch)) ds = false.
Proof.
  induction 1 as [|c ds Hc _ [IH1 IH2]]; [done|]. cbn [forallb existsb]. rewrite IH1, IH2, andb_true_r, orb_false_r.
  assert (c = 48 ∨ c = 49 ∨ c = 50 ∨ c = 51 ∨ c = 52 ∨ c = 53 ∨ c = 54 ∨ c = 55 ∨ c = 56 ∨ c = 57) as Hd by lia.
  repeat destruct Hd as [->|Hd]; try (by vm_compute). by subst.
Qed.

Lemma literal_ends n it : 0 <= n <= TH8_INT64_MAX →
  ends (eval_literal realloc_ok alloc_ok (Th8_SetResultWideInt n) it) it (Value n).
Proof.
  intros Hn. destruct (decimal_digits n Hn) as (c & ds & E & Hd & Hl & _). unfold eval_literal.
  destruct (plain_digits _ Hd) as [Hp He]. rewrite <- E in Hp, He.
  assert (48 <= hd 0 (Th8_SetResultWideInt n) <= 57) as Hhd by (rewrite E; by inversion Hd).
  assert (∀ c, c < 48 ∨ 57 < c → hd 0 (Th8_SetResultWideInt n) ≠ c) as Hne by lia.
  rewrite (SubstWord_plain realloc_ok alloc_ok); [|done| |done|apply Hne; cbv; auto..].
  2: { rewrite E. unfold zlen, TH8_MX_STRLEN. cbn [length]. lia. }
  destruct (set_calm it (Th8_SetResultWideInt n) (zlen (Th8_SetResultWideInt n))) as (it1 & -> & Hs).
  destruct (shown_inv _ _ _ _ Hs) as [-> _]. rewrite Z.eqb_refl. unfold exponent_form. rewrite He, !andb_false_r.
  by exists it1.
Qed.

(** *** Conversions of operands *)

Lemma wide_first v : in64 v = true →
  ∃ c ds, Th8_SetResultWideInt v = c :: ds ∧ (c = 45 ∨ 48 <= c <= 57) ∧ (c = 48 → v = 0 ∧ ds = []) ∧ zlen (c :: ds) < 30.
Proof.
  intros Hv%in64_spec. destruct (wide_form v Hv) as (ds & E & Hd). pose proof (proj2 (wide_text v Hv)) as Hl.
  rewrite E in *. destruct (Z.ltb_spec v 0).
  - exists 45, ds. split_and!; [done|by left|lia|done].
  - destruct Hd as [H1 H2 H3 H4]. destruct ds as [|c ds]; [simpl in H3; lia|]. exists c, ds.
    inversion H2 as [|? ? Hc _]. apply digit_is_digit in Hc. split_and!; [done|by right| |done].
    intros ->. specialize (H4 eq_refl). injection H4 as ->. split; [|done]. change (0 = Z.abs v) in H1. lia.
Qed.

Lemma not_word c ds (l : Z) lit : (c = 45 ∨ 48 <= c <= 57) → l = 116 ∨ l = 121 ∨ l = 111 ∨ l = 102 ∨ l = 110 →
  th8StrNoCaseEq (c :: ds) (l :: lit) = false.
Proof.
  intros Hc Hl. cbn [th8StrNoCaseEq]. rewrite (proj2 (Z.eqb_neq _ l)); [done|].
  change ("A"%ch) with 65. change ("Z"%ch) with 90.
  destruct ((65 <=? c) && (c <=? 90)) eqn:E; bool_to_prop; lia.
Qed.

Lemma boolean_text bBig toD v : in64 v = true →
  ToBoolean_parse bBig toD true (Th8_SetResultWideInt v) = Ok (if v =? 0 then 0 else 1).
Proof.
  intros Hv. destruct (wide_text v ltac:(by apply in64_spec)) as [Hw _].
  destruct (wide_first v Hv) as (c & ds & E & Hc & Hz & _). rewrite E in *.
  unfold ToBoolean_parse. rewrite Hw.
  assert (forallb (λ s, negb (th8StrNoCaseEq (c :: ds) (bytes_of_string s)))
    ["true"; "yes"; "on"; "false"; "no"; "off"]%string = true) as Hn.
  { cbn [forallb]. unfold bytes_of_string. cbn [String.list_ascii_of_string map].
    rewrite !(not_word c ds) by (done || (vm_compute; tauto)). done. }
  cbn [forallb] in Hn. rewrite !andb_true_iff, !negb_true_iff in Hn. destruct Hn as (-> & -> & -> & -> & -> & -> & _).
  cbn [orb].
  destruct (_ && next_is "0"%ch (c :: ds)) eqn:E0.
  - apply andb_true_iff in E0 as [_ E0]. unfold next_is in E0. apply Z.eqb_eq in E0. destruct Hz as [-> _]; done.
  - destruct (_ && next_is "1"%ch (c :: ds)) eqn:E1; [|done].
    apply andb_true_iff in E1 as [El E1]. apply Z.eqb_eq in E1, El. assert (ds = []) as -> by (destruct ds; [done|unfold zlen in El; simpl in El; lia]).
    subst c. change (ToWideInt_parse [49]) with (@Ok num_error Z 1) in Hw. by injection Hw as <-.
Qed.

Lemma cached_calm (RC : ReprCache I) parse storable it z :
  (∀ it z, nExprDepth (snd (cache_find it z)) = nExprDepth it) →
  (∀ it z v, nExprDepth (cache_store it z v) = nExprDepth it) →
  (∀ it z v, holds it z v → parse z = Ok v) →
  fst (cached parse storable (Some it) z) = parse z ∧
  nExprDepth (default it (snd (cached parse storable (Some it) z))) = nExprDepth it.
Proof.
  intros Hf Hs Hh. split; [apply cached_transparent; intros ? ?; by apply Hh|]. unfold cached.
  pose proof (Hf it z) as H1. destruct (cache_find it z) as [hit it1]. cbn [snd] in H1.
  assert (nExprDepth (default it (snd
    match parse z with
    | Ok v =>
        if storable z v then
          let '(entry, c) := cache_find it1 z in
          (Ok v, Some match entry with Some _ => cache_store c z v | None => c end)
        else (Ok v, Some it1)
    | Err e => (Err e, Some it1)
    end)) = nExprDepth it) as Hp.
  { destruct (parse z) as [v|e]; [|exact H1]. destruct (storable z v); [|exact H1].
    pose proof (Hf it1 z) as H2. destruct (cache_find it1 z) as [[e|] it2]; simpl in *; rewrite ?Hs; congruence. }
  destruct hit as [[v|]|]; [exact H1|exact Hp..].
Qed.

Lemma to_wide_calm it v : in64 v = true →
  ∃ it', to_wide it (Th8_SetResultWideInt v) = (Some v, it') ∧ nExprDepth it' = nExprDepth it.
Proof.
  intros Hv. unfold to_wide, Numbers.Th8_ToWideInt.
  destruct (cached_calm wide_cache ToWideInt_parse (λ _ v, negb (v =? TH8_INT64_MIN)) it (Th8_SetResultWideInt v)
    calm_find calm_store wide_sound) as [H1 H2].
  destruct (cached _ _ _ _) as [r c]. cbn [fst snd] in *.
  rewrite (proj1 (wide_text v ltac:(by apply in64_spec))) in H1. subst r. by eexists.
Qed.

Lemma to_boolean_calm it v : in64 v = true →
  ∃ it', to_boolean it (Th8_SetResultWideInt v) = (Some (if v =? 0 then 0 else 1), it') ∧ nExprDepth it' = nExprDepth it.
Proof.
  intros Hv. unfold to_boolean, Numbers.Th8_ToBoolean. set (p := ToBoolean_parse _ _ _).
  destruct (cached_calm bool_cache p (λ _ _, true) it (Th8_SetResultWideInt v)) as [H1 H2].
  - apply calm_bool_find.
  - apply calm_bool_store.
  - intros it2 z v'. apply bool_sound.
  - destruct (cached _ _ _ _) as [r c]. cbn [fst snd] in *. unfold p in H1.
    rewrite (boolean_text _ _ v Hv) in H1. subst r. by eexists.
Qed.

(** *** Operators *)

Lemma take_value it v d : in64 v = true →
  shown it = (Th8_SetResultWideInt v, zlen (Th8_SetResultWideInt v), d) →
  ∃ it', th8TakeResultInternal it = (Some (Th8_SetResultWideInt v), zlen (Th8_SetResultWideInt v), it') ∧ nExprDepth it' = d.
Proof.
  intros Hv Hs. destruct (shown_inv _ _ _ _ Hs) as [Hr <-].
  destruct (wide_first v Hv) as (c & ds & E & _). by apply take_some; [|rewrite E].
Qed.

(** An operand the evaluator has taken; an absent one counts as zero. *)
Definition holds_int (z : operand) (w : Z) : Prop :=
  in64 w = true ∧ (fst z = Some (Th8_SetResultWideInt w) ∨ fst z = None ∧ w = 0).

Lemma absent_int z w : holds_int z w → absent_or 0 silent_wide z = Some w.
Proof.
  intros [Hw [E|[E ->]]]; unfold absent_or; rewrite E; [|done]. unfold silent_wide.
  by rewrite (proj1 (wide_text w ltac:(by apply in64_spec))).
Qed.

Lemma big_none it zl zr : big_operands it zl zr = false.
Proof. unfold big_operands. by rewrite calm_small. Qed.

Lemma coerce_calm o v w n zr it : eArgType o = TH8_ARG_NUMBER ∨ eArgType o = TH8_ARG_INTEGER →
  in64 v = true → holds_int zr w →
  ∃ it', coerce o (Some (Th8_SetResultWideInt v), n) zr it = Ok (ToIntegers v w, it') ∧ nExprDepth it' = nExprDepth it.
Proof.
  intros Ho Hv Hr. assert (holds_int (Some (Th8_SetResultWideInt v), n) v) as Hl by (split; [done|by left]).
  unfold coerce. destruct Ho as [-> | ->].
  - unfold coerce_number. rewrite (absent_int _ _ Hl), (absent_int _ _ Hr). by exists it.
  - unfold coerce_integer. rewrite big_none. cbn [read res_bind].
    destruct (to_wide_calm it v Hv) as (it1 & -> & H1). destruct Hr as [Hw [-> |[-> ->]]]; [|by exists it1].
    destruct (to_wide_calm it1 w Hw) as (it2 & -> & H2). exists it2. split; [done|congruence].
Qed.

Lemma finish_calm o v w zl zr it : in64 v = true → in64 w = true → exact o v w ≠ NotInteger →
  ends (finish_integer o v w zl zr it) it (compute o v w).
Proof.
  intros Hv Hw Hx. unfold finish_integer. rewrite big_none, calm_checks, calm_small.
  rewrite (integer_op_spec true false o v w Hv Hw) by (unfold big_shift; by rewrite ?andb_false_r).
  unfold compute. destruct (exact o v w) as [u| |]; [|by apply say_ends|done].
  unfold bounded. destruct (in64 u); cbn [res_bind overflowed]; [apply set_wide_ends|by apply say_ends].
Qed.

Definition sound (r : outcome) : Prop := ∀ v, r = Value v → in64 v = true.

(** What a child gives: a value that is taken, or its error. *)
Lemma child_calm (f : I → res fault (Z * I)) it r : ends (f it) it r → sound r →
  match r with
  | Value v => ∃ n it', eval_child (Some f) it = Ok (TH8_OK, (Some (Th8_SetResultWideInt v), n), it') ∧
                 nExprDepth it' = nExprDepth it
  | _ => ∃ z it', eval_child (Some f) it = Ok (fst (report r), z, it') ∧
           shown it' = (snd (report r), zlen (snd (report r)), nExprDepth it)
  end.
Proof.
  intros (it1 & E & Hs) Hv. unfold eval_child. rewrite E. destruct r as [v| | |].
  - cbn [report fst res_bind]. destruct (take_value it1 v _ (Hv v eq_refl) Hs) as (it2 & -> & Hd).
    by eexists _, it2.
  - by eexists _, it1.
  - by eexists _, it1.
  - by eexists _, it1.
Qed.

Lemma unary_ends o f it r : eArgType (row_of o) = TH8_ARG_NUMBER ∨ eArgType (row_of o) = TH8_ARG_INTEGER →
  eOp (row_of o) = o → (∀ v, exact o v 0 ≠ NotInteger) → ends (f it) it r → sound r →
  ends (eval_operator (row_of o) (Some f) None it) it (outcome_bind r (λ v, compute o v 0)).
Proof.
  intros Ho Eo Hx Hf Hv. pose proof (child_calm f it r Hf Hv) as Hc. unfold eval_operator. destruct r as [v| | |].
  - destruct Hc as (n & it1 & -> & H1). cbn [res_bind eval_child]. change (negb (TH8_OK =? TH8_OK)) with false. cbn match.
    destruct (coerce_calm (row_of o) v 0 n (None, 0) it1 Ho (Hv v eq_refl)) as (it2 & -> & H2); [by split; [|right]|].
    cbn [res_bind outcome_bind]. rewrite Eo. apply (ends_depth _ it it2); [congruence|].
    apply finish_calm; [by apply Hv|done|apply Hx].
  - destruct Hc as (z & it1 & -> & H1). by exists it1.
  - destruct Hc as (z & it1 & -> & H1). by exists it1.
  - destruct Hc as (z & it1 & -> & H1). by exists it1.
Qed.

Lemma binary_ends o f g it r s : eArgType (row_of o) = TH8_ARG_NUMBER ∨ eArgType (row_of o) = TH8_ARG_INTEGER →
  eOp (row_of o) = o → (∀ v w, exact o v w ≠ NotInteger) → ends (f it) it r → sound r →
  (∀ it1, nExprDepth it1 = nExprDepth it → ends (g it1) it1 s) → sound s →
  ends (eval_operator (row_of o) (Some f) (Some g) it) it
    (outcome_bind r (λ v, outcome_bind s (λ w, compute o v w))).
Proof.
  intros Ho Eo Hx Hf Hv Hg Hw. pose proof (child_calm f it r Hf Hv) as Hc. unfold eval_operator. destruct r as [v| | |].
  - destruct Hc as (n & it1 & -> & H1). cbn [res_bind]. change (negb (TH8_OK =? TH8_OK)) with false. cbn match.
    pose proof (child_calm g it1 s (Hg it1 H1) Hw) as Hd. apply (ends_depth _ it it1 _ H1). destruct s as [w| | |].
    + destruct Hd as (m & it2 & -> & H2). cbn [res_bind]. change (negb (TH8_OK =? TH8_OK)) with false. cbn match.
      destruct (coerce_calm (row_of o) v w n (Some (Th8_SetResultWideInt w), m) it2 Ho (Hv v eq_refl)) as (it3 & -> & H3);
        [by split; [apply Hw|left]|].
      cbn [res_bind outcome_bind]. rewrite Eo. apply (ends_depth _ it1 it3); [congruence|].
      apply finish_calm; [by apply Hv|by apply Hw|apply Hx].
    + destruct Hd as (z & it2 & -> & H2). by exists it2.
    + destruct Hd as (z & it2 & -> & H2). by exists it2.
    + destruct Hd as (z & it2 & -> & H2). by exists it2.
  - destruct Hc as (z & it1 & -> & H1). by exists it1.
  - destruct Hc as (z & it1 & -> & H1). by exists it1.
  - destruct Hc as (z & it1 & -> & H1). by exists it1.
Qed.

(** *** Lazy operators *)

Lemma convert_ends {A} f (conv : I → bytes → option A * I) (g : Z → A) (k : A → I → res fault (Z * I)) it r h :
  ends (f it) it r → sound r →
  (∀ it v, in64 v = true → ∃ it', conv it (Th8_SetResultWideInt v) = (Some (g v), it') ∧ nExprDepth it' = nExprDepth it) →
  (∀ v it1, r = Value v → nExprDepth it1 = nExprDepth it → ends (k (g v) it1) it1 (h v)) →
  ends (then_convert f conv k it) it (outcome_bind r h).
Proof.
  intros (it1 & E & Hs) Hv Hc Hk. unfold then_convert. rewrite E. destruct r as [v| | |].
  - cbn [report fst res_bind]. change (negb (TH8_OK =? TH8_OK)) with false. cbn match.
    destruct (take_value it1 v _ (Hv v eq_refl) Hs) as (it2 & -> & H2). cbn [read res_bind].
    destruct (Hc it2 v (Hv v eq_refl)) as (it3 & -> & H3). apply (ends_depth _ it it3); [congruence|].
    apply Hk; [done|congruence].
  - by exists it1.
  - by exists it1.
  - by exists it1.
Qed.

Lemma ternary_ends f g1 g2 it r s1 s2 : ends (f it) it r → sound r →
  (∀ it1, nExprDepth it1 = nExprDepth it → ends (g1 it1) it1 s1) →
  (∀ it1, nExprDepth it1 = nExprDepth it → ends (g2 it1) it1 s2) →
  ends (eval_ternary f (Some (g1, g2)) it) it (outcome_bind r (λ v, if v =? 0 then s2 else s1)).
Proof.
  intros Hf Hr H1 H2. apply (convert_ends f to_wide (λ v, v)); [done..|apply to_wide_calm|].
  intros v it1 _ Hd. destruct (v =? 0); cbn [negb]; auto.
Qed.

Lemma logical_ends bAnd f g it r s : ends (f it) it r → sound r →
  (∀ it1, nExprDepth it1 = nExprDepth it → ends (g it1) it1 s) → sound s →
  ends (eval_logical bAnd f g it) it
    (outcome_bind r (λ v, if Bool.eqb (v =? 0) bAnd then Value (of_bool (negb bAnd))
                          else outcome_bind s (λ w, Value (of_bool (negb (w =? 0)))))).
Proof.
  intros Hf Hr Hg Hs. apply (convert_ends f to_boolean (λ v, if v =? 0 then 0 else 1)); [done..|apply to_boolean_calm|].
  intros v it1 _ Hd. cbv beta.
  assert (ends (then_convert g to_boolean (λ bRight it, Ok (set_int it (of_bool (negb (bRight =? 0))))) it1) it1
    (outcome_bind s (λ w, Value (of_bool (negb (w =? 0)))))) as Hright.
  { apply (convert_ends g to_boolean (λ v, if v =? 0 then 0 else 1)); [auto..|apply to_boolean_calm|].
    intros w it2 _ _. destruct (w =? 0); apply set_int_ends. }
  destruct (v =? 0), bAnd; [apply (set_int_ends it1 false)|exact Hright|exact Hright|apply (set_int_ends it1 true)].
Qed.

(** *** Trees *)

Lemma node_ends node it r : nExprDepth it < Z.of_nat TH8_MX_EXPR_DEPTH →
  (∀ it1, nExprDepth it1 = nExprDepth it + 1 → ends (node it1) it1 r) →
  ends (depth_limited (when_ready node) it) it r.
Proof.
  intros Hd Hn. unfold depth_limited. rewrite (proj2 (Z.leb_gt _ _)) by lia.
  set (it0 := set_nExprDepth (nExprDepth it + 1) it). pose proof (f_equal snd (depth_shown it (nExprDepth it + 1))) as H0.
  fold it0 in H0. cbn [shown snd] in H0. unfold when_ready.
  destruct (ready_calm it0) as (it1 & -> & Hs). change (negb (TH8_OK =? TH8_OK)) with false. cbn match.
  assert (nExprDepth it1 = nExprDepth it + 1) as H1 by (unfold shown in Hs; congruence).
  destruct (Hn it1 H1) as (it2 & -> & H2). cbn [res_bind].
  exists (set_nExprDepth (nExprDepth it2 - 1) it2). split; [done|]. rewrite depth_shown.
  apply shown_inv in H2 as [-> ->]. rewrite H1. do 2 f_equal. lia.
Qed.

Lemma compute_sound o v w : sound (compute o v w).
Proof.
  intros u. unfold compute, bounded. destruct (exact o v w); [|done..]. destruct (in64 _) eqn:E; [|done]. by intros [= <-].
Qed.

Lemma bind_sound r k : (∀ v, r = Value v → sound (k v)) → sound (outcome_bind r k).
Proof. intros Hk. destruct r; [by apply Hk|done..]. Qed.

Lemma bool_sound_value b : sound (Value (of_bool b)).
Proof. intros v [= <-]. by destruct b. Qed.

Lemma denote_sound e : good e = true → sound (denote compute e).
Proof.
  induction e as [n|o a IHa|o a IHa c IHc|a IHa c IHc|a IHa c IHc|a IHa c IHc d IHd]; cbn [good denote]; intros Hg;
    rewrite ?andb_true_iff in Hg.
  - intros v [= <-]. apply in64_spec. unfold TH8_INT64_MIN, TH8_INT64_MAX in *. lia.
  - apply bind_sound. intros. apply compute_sound.
  - apply bind_sound. intros. apply bind_sound. intros. apply compute_sound.
  - apply bind_sound. intros v _. destruct (v =? 0); [apply (bool_sound_value false)|].
    apply bind_sound. intros. apply bool_sound_value.
  - apply bind_sound. intros v _. destruct (v =? 0); [|apply (bool_sound_value true)].
    apply bind_sound. intros. apply bool_sound_value.
  - destruct Hg as [[Ha Hc] Hd]. apply bind_sound. intros v _. destruct (v =? 0); auto.
Qed.

Lemma unary_code o : o ∈ unary_codes →
  (eArgType (row_of o) = TH8_ARG_NUMBER ∨ eArgType (row_of o) = TH8_ARG_INTEGER) ∧ eOp (row_of o) = o ∧
  (∀ v, exact o v 0 ≠ NotInteger) ∧
  ∀ l r it, th8ExprEval realloc_ok alloc_ok (Operator (row_of o) l r) it =
    depth_limited (when_ready (eval_operator (row_of o) (child l (th8ExprEval realloc_ok alloc_ok l))
      (child r (th8ExprEval realloc_ok alloc_ok r)))) it.
Proof.
  unfold unary_codes. intros Ho.
  repeat (apply elem_of_cons in Ho as [->|Ho]; [split_and!; [auto|done|done|reflexivity]|]). by apply elem_of_nil in Ho.
Qed.

Lemma binary_code o : o ∈ binary_codes →
  (eArgType (row_of o) = TH8_ARG_NUMBER ∨ eArgType (row_of o) = TH8_ARG_INTEGER) ∧ eOp (row_of o) = o ∧
  (∀ v w, exact o v w ≠ NotInteger) ∧
  ∀ l r it, th8ExprEval realloc_ok alloc_ok (Operator (row_of o) l r) it =
    depth_limited (when_ready (eval_operator (row_of o) (child l (th8ExprEval realloc_ok alloc_ok l))
      (child r (th8ExprEval realloc_ok alloc_ok r)))) it.
Proof.
  unfold binary_codes. intros Ho.
  repeat (apply elem_of_cons in Ho as [->|Ho];
    [split_and!; [auto|done|intros v w; cbn [exact]; by try destruct (w =? 0)|reflexivity]|]). by apply elem_of_nil in Ho.
Qed.

Lemma child_tree e (f : I → res fault (Z * I)) : child (tree e) f = Some f.
Proof. by destruct e. Qed.

Lemma eval_tree_ends e : good e = true → ∀ it, nExprDepth it + Z.of_nat (height e) <= Z.of_nat TH8_MX_EXPR_DEPTH →
  ends (th8ExprEval realloc_ok alloc_ok (tree e) it) it (denote compute e).
Proof.
  induction e as [n|o a IHa|o a IHa c IHc|a IHa c IHc|a IHa c IHc|c IHc a IHa b IHb]; cbn [good height]; intros Hg it Hh;
    rewrite ?andb_true_iff in Hg; cbn [tree denote].
  - cbn [th8ExprEval]. apply node_ends; [lia|]. intros it1 _. apply literal_ends. lia.
  - destruct Hg as [Ho%bool_decide_eq_true_1 Ha]. destruct (unary_code o Ho) as (H1 & H2 & H3 & ->).
    apply node_ends; [lia|]. intros it1 Hd. rewrite child_tree.
    apply unary_ends; [done..|apply IHa; [done|lia]|by apply denote_sound].
  - destruct Hg as [[Ho%bool_decide_eq_true_1 Ha] Hc]. destruct (binary_code o Ho) as (H1 & H2 & H3 & ->).
    apply node_ends; [lia|]. intros it1 Hd. rewrite !child_tree.
    apply binary_ends; [done..|apply IHa; [done|lia]|by apply denote_sound| |by apply denote_sound].
    intros it2 Hd2. apply IHc; [done|lia].
  - destruct Hg as [Ha Hc]. apply node_ends; [lia|]. intros it1 Hd.
    apply (ends_outcome _ _ _ _ _ (logical_ends true _ _ it1 _ _ (IHa Ha it1 ltac:(lia)) (denote_sound a Ha)
      (λ it2 Hd2, IHc Hc it2 ltac:(lia)) (denote_sound c Hc))). intros v. by destruct (v =? 0).
  - destruct Hg as [Ha Hc]. apply node_ends; [lia|]. intros it1 Hd.
    apply (ends_outcome _ _ _ _ _ (logical_ends false _ _ it1 _ _ (IHa Ha it1 ltac:(lia)) (denote_sound a Ha)
      (λ it2 Hd2, IHc Hc it2 ltac:(lia)) (denote_sound c Hc))). intros v. by destruct (v =? 0).
  - destruct Hg as [[Hc Ha] Hb]. apply node_ends; [lia|]. intros it1 Hd.
    apply (ends_outcome _ _ _ _ _ (ternary_ends _ _ _ it1 _ _ _ (IHc Hc it1 ltac:(lia)) (denote_sound c Hc)
      (λ it2 Hd2, IHa Ha it2 ltac:(lia)) (λ it2 Hd2, IHb Hb it2 ltac:(lia)))). done.
Qed.

(** ** The whole expression *)

(** The tree builder only polls. *)
Lemma paren_shown build : (∀ ap it ap' it', build ap it = (TH8_OK, ap', it') → shown it' = shown it) →
  ∀ fuel ap it ap' it', paren_phase build fuel ap it = (TH8_OK, ap', it') → shown it' = shown it.
Proof.
  intros Hb. induction fuel as [|fuel IH]; intros ap it ap' it' H; [by injection H as _ <-|].
  destruct ap as [|t ap]; [by injection H as _ <-|]. cbn [paren_phase] in H. destruct (is_code _ t).
  - destruct (close_index ap 1) as [[|n]|]; [done| |done].
    destruct (build (take (S n) ap) it) as [[rc mid] it1] eqn:Eb.
    destruct (Z.eqb_spec rc TH8_OK) as [->|_]; [|done]. cbn [negb] in H. apply Hb in Eb.
    destruct (paren_phase build fuel _ it1) as [[rc2 rest] it2] eqn:Ep. injection H as -> _ <-.
    apply IH in Ep. congruence.
  - destruct (paren_phase build fuel ap it) as [[rc2 rest] it2] eqn:Ep. injection H as -> _ <-. by apply IH in Ep.
Qed.

Lemma MakeTree_shown room : ∀ ap it ap' it', MakeTree room ap it = (TH8_OK, ap', it') → shown it' = shown it.
Proof.
  induction room as [|room IH]; intros ap it ap' it' H; [done|]. cbn [MakeTree tree_ready expr_tree] in H.
  destruct (ready_calm it) as (it1 & E & Hs). rewrite E in H. change (negb (TH8_OK =? TH8_OK)) with false in H. cbn match in H.
  destruct (length ap =? 0)%nat; [done|]. destruct (paren_phase _ _ ap it1) as [[rc ap1] it2] eqn:Ep.
  destruct (Z.eqb_spec rc TH8_OK) as [->|_]; [|done]. cbn [negb] in H. apply paren_shown in Ep; [|done].
  destruct (bind_phases ap1) as [ok ap2]. destruct ok; [|done]. injection H as _ <-. congruence.
Qed.

(** A decimal result is no other notation. *)
Lemma normal_decimal v n : in64 v = true → non_decimal (Th8_SetResultWideInt v) n = false ∨ n <= 1.
Proof.
  intros Hv. destruct (wide_first v Hv) as (c & ds & E & Hc & Hz & _). unfold non_decimal. rewrite E. cbn [nth].
  destruct (Z.ltb_spec 1 n); [left|right; lia]. destruct (Z.eqb_spec c "0"%ch) as [->|Hne]; [|done].
  destruct Hz as [_ ->]; [done|]. by rewrite andb_false_r.
Qed.

Lemma top_comma_none z : ∀ s, Forall (λ c, (c =? ","%ch) = false) z → top_comma s z = None.
Proof.
  induction z as [z IH] using (induction_ltof1 _ length). unfold ltof in IH. intros s Hz.
  destruct z as [|c [|c2 z]]; [done|cbn [top_comma]; inversion Hz as [|? ? Hc _]; by rewrite Hc|].
  rewrite top_comma_cons. inversion Hz as [|? ? Hc Hz']. subst. inversion Hz' as [|? ? _ Hz'']. subst.
  rewrite Hc. cbn [andb]. case_if.
  - rewrite IH; [done|simpl; lia|done].
  - rewrite IH; [done|simpl; lia|done].
Qed.

Lemma tok_no_comma b t : stands b t = true → Forall (λ c, (c =? ","%ch) = false) (tok_text t).
Proof.
  destruct t as [n|o]; cbn [stands tok_text]; intros H.
  - bool_to_prop. destruct (decimal_digits n ltac:(lia)) as (c & ds & -> & Hd & _).
    eapply Forall_impl; [exact Hd|]. intros d Hc. by destruct (digit_classes d Hc) as (_ & _ & _ & _ & ?).
  - rewrite !andb_true_iff in H. destruct H as [[[Ho%bool_decide_eq_true_1 _] _] _]. unfold th8Operators in Ho.
    repeat (apply elem_of_cons in Ho as [->|Ho]; [by repeat constructor|]). by apply elem_of_nil in Ho.
Qed.

Lemma text_no_comma ts : ∀ b, stand b ts = true → Forall (λ c, (c =? ","%ch) = false) (text ts).
Proof.
  induction ts as [|t ts IH]; intros b H; [constructor|]. cbn [stand] in H. apply andb_true_iff in H as [Ht Hts].
  rewrite text_cons. apply Forall_app. split; [by eapply tok_no_comma|]. constructor; [done|by eapply IH].
Qed.

Lemma text_longer ts : zlen ts <= zlen (text ts).
Proof.
  induction ts as [|t ts IH]; [done|]. rewrite text_cons, zlen_app, !zlen_cons. pose proof (zlen_nonneg (tok_text t)). lia.
Qed.

(** *** The program's operators are the documented ones *)

Lemma bounded_bool b : bounded (of_bool b) = Value (of_bool b).
Proof. by destruct b. Qed.

Lemma ideal_compute o a b : ideal o a b ≠ Unspecified → compute o a b = ideal o a b.
Proof.
  destruct o; cbn [ideal]; intros Hi; try done; unfold compute; cbn [exact]; rewrite ?bounded_bool; try done;
    try (by destruct (b =? 0)).
  - destruct ((0 <=? b) && (b <? 64)) eqn:E; [|done]. cbn [andb] in *. bool_to_prop. rewrite Z.mod_small by lia.
    destruct (in64 (a * 2 ^ b)) eqn:E64; [|done]. apply in64_spec in E64. unfold TH8_INT64_MIN, TH8_INT64_MAX in E64.
    unfold bounded. rewrite swrap_id by (cbn in *; lia). by rewrite (proj2 (in64_spec _)).
  - destruct ((0 <=? b) && (b <? 64)) eqn:E; [|done]. bool_to_prop. by rewrite Z.mod_small by lia.
  - by destruct (b <? 0).
Qed.

Lemma bind_agree r r' k k' : (r' ≠ Unspecified → r = r') → outcome_bind r' k' ≠ Unspecified →
  (∀ v, k' v ≠ Unspecified → k v = k' v) → outcome_bind r k = outcome_bind r' k'.
Proof. intros Hr Hs Hk. rewrite Hr; [destruct r'; simpl in *; auto|by intros ->]. Qed.

Lemma denote_ideal e : denote ideal e ≠ Unspecified → denote compute e = denote ideal e.
Proof.
  induction e as [n|o a IHa|o a IHa c IHc|a IHa c IHc|a IHa c IHc|c IHc a IHa d IHd]; cbn [denote]; intros Hs; [done|..];
    (apply bind_agree; [assumption|assumption|]); intros v Hv; cbv beta in *.
  - by apply ideal_compute.
  - apply bind_agree; [assumption|assumption|]. intros w Hw. by apply ideal_compute.
  - destruct (v =? 0); [done|]. by apply bind_agree.
  - destruct (v =? 0); [|done]. by apply bind_agree.
  - destruct (v =? 0); auto.
Qed.

Lemma calc_one expr k ws e ts it : good e = true → reads k 14 ws e ts → zlen (text ts) < many_tokens →
  (k <= TH8_MX_EXPR_DEPTH)%nat → nExprDepth it + Z.of_nat (height e) <= Z.of_nat TH8_MX_EXPR_DEPTH →
  ends (th8ExprEvalOne realloc_ok alloc_ok expr (text ts) it) it (denote compute e).
Proof.
  intros Hg (_ & [Hst _] & Hder) Hl Hk Hd. unfold th8ExprEvalOne, th8ExprParse. pose proof (text_longer ts) as Htl.
  destruct (parse_calm realloc_ok expr (text ts) ts (length (text ts)) 0 [] [] it)
    as (it1 & Ep & Hs1); [done|by left|done|done|unfold zlen in *; simpl; lia|].
  cbn [app] in Ep. rewrite Ep. cbn [res_bind]. rewrite rev_append_rev, app_nil_r, rev_involutive.
  change (negb (TH8_OK =? TH8_OK)) with false. cbn match.
  apply (unchained_derives Implemented), (derives_up _ _ 14 15) in Hder; [|lia].
  destruct (MakeTree_builds (TI := expr_tree) calm_ready (S TH8_MX_EXPR_DEPTH) (TH8_MX_EXPR_DEPTH + 1 - 0) ltac:(lia)
    k _ _ it1 ltac:(lia) Hder) as [it2 Em].
  assert (shown it2 = shown it1) as Hs2 by by eapply MakeTree_shown.
  assert (map node ts ≠ []) as Hne by by eapply derives_nonempty.
  destruct (map node ts) as [|t0 ts0] eqn:Et; [done|]. unfold th8ExprMakeTree. rewrite Em.
  change (negb (TH8_OK =? TH8_OK)) with false. cbn match. cbn [hd].
  assert (nExprDepth it2 = nExprDepth it) as Hd2 by (unfold shown in *; congruence).
  destruct (eval_tree_ends e Hg it2 ltac:(lia)) as (it3 & -> & Hs3). cbn [res_bind].
  apply (ends_depth _ it it2 _ Hd2). pose proof (denote_sound e Hg) as Hv. destruct (denote compute e) as [v| | |]; [|by exists it3..].
  cbn [report fst snd] in *. rewrite Z.eqb_refl. exists it3. split; [|done].
  unfold normalise. destruct (shown_inv _ _ _ _ Hs3) as [-> _].
  destruct (normal_decimal v (zlen (Th8_SetResultWideInt v)) (Hv v eq_refl)) as [->|Hn]; [done|].
  unfold non_decimal. by rewrite (proj2 (Z.ltb_ge _ _)) by lia.
Qed.

(** C26.  An expression is evaluated to what it denotes.  Whatever integer
    expression is written down with the documented symbols and precedences, each
    symbol followed by a space, with literals of 64 bits, less than a megabyte of
    text and nesting below the limit, Th8_Expr returns TH8_OK and the decimal form
    of its value on the unbounded integers, or TH8_ERROR and the message of the
    first operator, in the order of evaluation, that divides by zero or has no
    value of 64 bits.  Branches of a conditional and right operands of && and ||
    count only where they are selected.  Left aside are ** and the conditional as
    operands of themselves without parentheses ([prints]) and, where they are
    evaluated, shifts by counts outside of 0 to 63, left shifts that lose bits and
    negative powers ([ideal]); the overflow check is on, big integers are off, and
    memory is granted ([CalmLaws]). *)
Theorem expr_computes (k : nat) (ws : list bytes) (e : iexp) (it : I) (Hp : prints k 14 ws e)
  (Hs : denote ideal e ≠ Unspecified) (Hl : zlen (spaced ws) < many_tokens) (Hk : (k <= TH8_MX_EXPR_DEPTH)%nat)
  (Hd : 0 <= nExprDepth it) (Hh : nExprDepth it + Z.of_nat (height e) <= Z.of_nat TH8_MX_EXPR_DEPTH) :
  ∃ it', Th8_Expr realloc_ok alloc_ok (spaced ws) 0 it = Ok (fst (report (denote ideal e)), it') ∧
    Th8_GetResult it' = (snd (report (denote ideal e)), zlen (snd (report (denote ideal e)))) ∧
    nExprDepth it' = nExprDepth it.
Proof.
  rewrite <- (denote_ideal e Hs). pose proof (prints_good _ _ _ _ Hp) as Hg.
  destruct (prints_reads _ _ _ _ Hp) as [ts Hts]. pose proof Hts as (<- & [Hst _] & _). rewrite <- spaced_text in *.
  assert (ends (Th8_Expr realloc_ok alloc_ok (text ts) 0 it) it (denote compute e)) as (it' & -> & Hs');
    [|exists it'; split; [done|by apply shown_inv]].
  unfold Th8_Expr. rewrite Z.lor_0_r, tainted_testbit, small_testbit.
  2: { pose proof (zlen_nonneg (text ts)). unfold many_tokens, TH8_MX_STRLEN in *. lia. }
  2: lia.
  cbn [expr_clean]. unfold expr_clean; fold (expr_clean realloc_ok alloc_ok).
  assert (∀ expr, ends (th8ExprEvalOne realloc_ok alloc_ok expr (text ts) it) it (denote compute e)) as H1
    by (intros; by eapply calc_one).
  case_if; [|apply H1].
  assert (th8ExprFindTopComma (text ts) = None) as Hc by (by apply top_comma_none, (text_no_comma _ false)).
  destruct (length (text ts)); [apply H1|]. cbn [expr_sequence]. rewrite Hc. apply H1.
Qed.
End calc.
