(* ===== verification/ExprShell.v ===== *)
(** * ExprShell: a small interpreter, to evaluate expressions on concrete texts.

    Its scripts are their own result and are logged, its doubles are those of
    Doubles, computed as IEEE 754 prescribes, and it has two functions: [echo],
    which returns its first argument, and [secret], which returns one that is
    marked sensitive. *)

From S2P Require Import Prelude CharClass Memory Buffer Parser Subst Numbers ExprTree ExprArith Pow10 Doubles ExprEval ExprParse ExprFuel ExprSafety ExprTokens ExprCalc.
From Stdlib Require Import SpecFloat.
#[local] Open Scope Z_scope.
#[local] Open Scope res_scope.

(** ** Doubles *)

Definition spec_is_less (c : option comparison) (eq : bool) : bool :=
  match c with Some Lt => true | Some Eq => eq | _ => false end.

(** The conversion [(int)], which cuts towards zero. *)
Definition spec_int (d : double) : option Z :=
  match d with
  | S754_zero _ => Some 0
  | S754_finite s m e =>
      let v := Z.shiftl (Z.pos m) e in
      let v := if s then - v else v in
      if (- 2 ^ 31 <=? v) && (v <? 2 ^ 31) then Some v else None
  | _ => None
  end.

#[export] Instance spec_doubles : Doubles double := {
  d_zero := S754_zero false;
  d_one := S754_finite false (2 ^ 52) (-52);
  d_add := SFadd 53 1024; d_sub := SFsub 53 1024; d_mul := SFmul 53 1024; d_div := SFdiv 53 1024;
  d_neg := SFopp;
  d_lt a b := spec_is_less (SFcompare a b) false;
  d_le a b := spec_is_less (SFcompare a b) true;
  d_eq a b := match SFcompare a b with Some Eq => true | _ => false end;
  d_int := spec_int;
  to_double z := double_of_bits <$> ToDouble_parse false false z
}.

(** ** The interpreter *)

Record shell : Type := mkShell {
  sh_result : bytes * Z;
  sh_vars : list (bytes * bytes);
  sh_depth : Z;
  sh_ready : nat;                 (* how many readiness checks pass *)
  sh_log : list bytes             (* the scripts run, newest first *)
}.

Definition sh_put (s : shell) (z : bytes) (n : Z) : shell :=
  mkShell (z, n) (sh_vars s) (sh_depth s) (sh_ready s) (sh_log s).

Definition sh_message (s : shell) (z : bytes) : shell := sh_put s z (zlen z).

(** Scripts are logged, and are their own result; [fail] fails. *)
Definition sh_eval (s : shell) (z : bytes) : Z * shell :=
  (if bool_decide (z = bytes_of_string "fail") then TH8_ERROR else TH8_OK,
   mkShell (z, zlen z) (sh_vars s) (sh_depth s) (sh_ready s) (z :: sh_log s)).

Fixpoint assoc (z : bytes) (l : list (bytes * bytes)) : option bytes :=
  match l with [] => None | (k, v) :: l' => if bool_decide (k = z) then Some v else assoc z l' end.

Definition sh_var (s : shell) (z : bytes) : Z * shell :=
  match assoc (tail z) (sh_vars s) with
  | Some v => (TH8_OK, sh_put s v (zlen v))
  | None => (TH8_ERROR, sh_message s (bytes_of_string "no such variable"))
  end.

Definition sh_ready_check (s : shell) : Z * shell :=
  match sh_ready s with
  | O => (TH8_ERROR, sh_message s (bytes_of_string "canceled"))
  | S n => (TH8_OK, mkShell (sh_result s) (sh_vars s) (sh_depth s) n (sh_log s))
  end.

(** [limited]: the readiness checks run out. *)
Definition shell_subst (limited : bool) : SubstInterp shell := {|
  Th8_Ready := if limited then sh_ready_check else λ s, (TH8_OK, s);
  Th8_Eval := sh_eval;
  th8SubstVarName := sh_var;
  Th8_GetResult := sh_result;
  Th8_SetResult s z n := (TH8_OK, sh_put s z n);
  Th8_ErrorMessage s _ := sh_message s (bytes_of_string "parse error");
  set_out_of_memory s := sh_message s (bytes_of_string "out of memory");
  isListMode _ := false
|}.

(** Without a cache. *)
#[local] Program Instance no_cache : ReprCache shell := {|
  cache_find s _ := (None, s);
  cache_store s _ _ := s;
  holds _ _ _ := False
|}.
Solve Obligations with done.

(** The words between spaces. *)
Fixpoint sh_words (z : bytes) (w : bytes) : list bytes :=
  let flush ws := match w with [] => ws | _ => rev w :: ws end in
  match z with
  | [] => flush []
  | c :: z' => if c =? " "%ch then flush (sh_words z' []) else sh_words z' (c :: w)
  end.

Definition sh_func (z : bytes) : option (operand → operand → shell → Z * shell) :=
  let first (tag : Z) := λ (a1 a2 : operand) (s : shell),
    match a1 with
    | (Some b, _) => (TH8_OK, sh_put s b (Z.lor (zlen b) tag))
    | _ => (TH8_ERROR, sh_message s (bytes_of_string "missing argument"))
    end in
  if bool_decide (z = bytes_of_string "echo") then Some (first 0)
  else if bool_decide (z = bytes_of_string "secret") then Some (first TH8_SENSITIVE_BIT)
  else None.

(** [copies]: there is memory to copy results. *)
Definition shell_expr (limited copies : bool) : ExprInterp shell double := {|
  expr_subst := shell_subst limited;
  expr_doubles := spec_doubles;
  wide_cache := no_cache;
  bool_cache := no_cache;
  th8TakeResultInternal s :=
    let '(b, n) := sh_result s in
    match b with
    | [] => (None, 0, sh_put s [] 0)
    | _ => if copies then (Some b, n, sh_put s [] 0) else (None, n, sh_put s [] 0)
    end;
  expr_error s z z2 := sh_message s (z ++ z2 ++ [DQUOTE]);
  Th8_ToDouble s z :=
    match to_double z with
    | Some d => (Some d, s)
    | None => (None, sh_message s (bytes_of_string "expected number, got: " ++ [DQUOTE] ++ z ++ [DQUOTE]))
    end;
  Th8_SetResultDouble s d := sh_message s (double_text None (bits_of_double d));
  Th8_SetVar s name v _ :=
    (TH8_OK, mkShell (sh_result s) ((name, v) :: sh_vars s) (sh_depth s) (sh_ready s) (sh_log s));
  expr_split s z := (TH8_OK, sh_words z [], s);
  Th8_IsBigintEnabled _ := false;
  th8IsBigint _ _ := false;
  th8BigintArith s _ _ _ := (TH8_ERROR, s);
  th8BigintUnary s _ _ := (TH8_ERROR, s);
  bOverflowCheck _ := true;
  Th8_GetExprFeatures _ := Z.lor TH8_EXPR_TOP_COMMA TH8_EXPR_VAR_ASSIGN;
  expr_alloc s _ := (true, s);
  math_func _ := sh_func;
  Th8_ReportTaint s _ _ := (true, sh_message s (bytes_of_string "tainted"));
  nExprDepth := sh_depth;
  set_nExprDepth d s := mkShell (sh_result s) (sh_vars s) d (sh_ready s) (sh_log s)
|}.

#[export] Instance shell_interp : ExprInterp shell double := shell_expr true true.

#[export] Instance shell_repr : ReprLaws shell double.
Proof. by split. Qed.

Lemma shell_copies : copies_granted shell double.
Proof. intros s n s'. cbn. destruct (sh_result s) as [[|c b] m]; [by intros [= <- _]|done]. Qed.

Definition sh_init : shell := mkShell ([], 0) [] 0 1000 [].
Definition granted : Z → bool := λ _, true.

(** The return code, the result, and the scripts that ran. *)
Definition run_with (copies : bool) (s : shell) (z : bytes) : res fault (Z * bytes * list bytes) :=
  match Th8_Expr (EI := shell_expr true copies) granted granted z 0 s with
  | Ok (rc, s) => Ok (rc, fst (sh_result s), rev (sh_log s))
  | Err f => Err f
  end.

Definition run (z : string) : res fault (Z * bytes * list bytes) := run_with true sh_init (bytes_of_string z).

Definition gives (z : string) (log : list string) : res fault (Z * bytes * list bytes) :=
  Ok (TH8_OK, bytes_of_string z, map bytes_of_string log).
Definition fails (z : string) (log : list string) : res fault (Z * bytes * list bytes) :=
  Ok (TH8_ERROR, bytes_of_string z, map bytes_of_string log).

(** ** Runs *)

Example sums : run "1 + 2 * 3 - (4 - 5)" = gives "8" [].
Proof. vm_compute. reflexivity. Qed.
Example tenths : run "0.1 + 0.2" = gives "0.30000000000000004" [].
Proof. vm_compute. reflexivity. Qed.
Example floors : run "(-7 / 2) * 10 + (-7 % 2)" = gives "-39" [].
Proof. vm_compute. reflexivity. Qed.
Example sequence : run "{x} := 5 , $x * 2" = gives "10" [].
Proof. vm_compute. reflexivity. Qed.
Example contained : run "[b] in {a b}" = gives "1" ["b"]%string.
Proof. vm_compute. reflexivity. Qed.
Example lazy_branch : run "1 ? [a] eq {a} : [b]" = gives "1" ["a"]%string.
Proof. vm_compute. reflexivity. Qed.
Example overflow_found : run "9223372036854775807 + 1" = fails "integer overflow" [].
Proof. vm_compute. reflexivity. Qed.
Example zero_divides : run "5 / 0" = fails "divide by zero" [].
Proof. vm_compute. reflexivity. Qed.

(** An operand without bytes counts as zero. *)
Example empty_is_zero : run "{} + 5" = gives "5" [] ∧ run "1 & {}" = gives "0" [].
Proof. split; vm_compute; reflexivity. Qed.

(** The tokenizer evaluates the arguments of functions, whatever stands around
    the call. *)
Example eager_arguments :
  run "0 && echo([boom])" = gives "0" ["boom"]%string ∧ run "1 ? 2 : echo([boom])" = gives "2" ["boom"]%string.
Proof. split; vm_compute; reflexivity. Qed.

(** What a function returns is substituted once more. *)
Example result_substituted : run "echo({[boom]})" = gives "boom" ["boom"]%string.
Proof. vm_compute. reflexivity. Qed.

(** A marked result of a function is taken for a huge one. *)
Example marked_result : run "echo(5)" = gives "5" [] ∧ run "secret(5)" = fails "out of memory" [].
Proof. split; vm_compute; reflexivity. Qed.

(** A negative power is zero, even of one; a shift by the width is none at all. *)
Example negative_power : run "1 ** -1" = gives "0" [] ∧ run "1 << 64" = gives "1" [].
Proof. split; vm_compute; reflexivity. Qed.

(** Eight letters that begin like infinity are one. *)
Example like_infinity : run "infixyzw + 1" = gives "Inf" [].
Proof. vm_compute. reflexivity. Qed.

(** A result that cannot be copied is a null pointer, which is read. *)
Example copy_failed :
  run_with false sh_init (bytes_of_string "[a] eq [a]") = Err NullDeref ∧
  run_with false sh_init (bytes_of_string "[5] + 1") = gives "0" ["5"]%string.
Proof. split; vm_compute; reflexivity. Qed.

(** The tokenizer keeps the message of a cancellation, the builder of the tree
    does not. *)
Example canceled_message :
  run_with true (mkShell ([], 0) [] 0 0 []) (bytes_of_string "1 + 2") = fails "canceled" [] ∧
  (∃ s, run_with true (mkShell ([], 0) [] 0 3 []) (bytes_of_string "1 + 2") = Ok (TH8_ERROR, s, []) ∧
     take 12 s = bytes_of_string "syntax error").
Proof. split; [vm_compute; reflexivity|]. eexists. split; vm_compute; reflexivity. Qed.

(** An exponent that no int holds. *)
Lemma expr_defined_witness :
  ∃ f, Th8_Expr granted granted (bytes_of_string "2.0 ** 1e10") 0 sh_init = Err f ∧ f = DoubleToInt.
Proof.
  exists DoubleToInt. assert (Th8_Expr granted granted (bytes_of_string "2.0 ** 1e10") 0 sh_init = Err DoubleToInt) as H
    by (vm_compute; reflexivity).
  split; [exact H|]. exact (expr_defined granted granted (bytes_of_string "2.0 ** 1e10") 0 sh_init DoubleToInt shell_copies (λ _, eq_refl) H).
Defined.

Lemma expr_terminates_witness :
  let z := bytes_of_string "echo(1 + echo(2)) * 3" in
  expr_clean granted granted 30 z sh_init = expr_clean granted granted (S (length z)) z sh_init.
Proof.
  pose proof (expr_terminates granted granted (bytes_of_string "echo(1 + echo(2)) * 3") sh_init 30) as H.
  assert (length (bytes_of_string "echo(1 + echo(2)) * 3") < 30)%nat as Hl by (apply Nat.ltb_lt; reflexivity).
  exact (proj1 (H Hl)).
Defined.

(** Without a limit on the readiness checks nothing stands in the way. *)
Lemma calm_shell : CalmLaws (EI := shell_expr false true) shell double.
Proof.
  split; try done. intros s z n E Hz. cbn in *. destruct (sh_result s) as [b m]. injection E as -> ->.
  destruct z; [done|]. by eexists.
Qed.

(** 1 + 2 * 3 < 8 ? 6 * 7 : 1 / 0 *)
Definition answer_exp : iexp :=
  IIf (IBin TH8_OP_LT (IBin TH8_OP_ADD (INum 1) (IBin TH8_OP_MULTIPLY (INum 2) (INum 3))) (INum 8))
    (IBin TH8_OP_MULTIPLY (INum 6) (INum 7)) (IBin TH8_OP_DIVIDE (INum 1) (INum 0)).

Definition answer_words : list bytes :=
  map bytes_of_string ["1"; "+"; "2"; "*"; "3"; "<"; "8"; "?"; "6"; "*"; "7"; ":"; "1"; "/"; "0"]%string.

(** An operator between two literals or phrases, at the level of its own. *)
Lemma prints_digit p n : 0 <= p <= 14 → 0 <= n < 10 → prints 0 p [Th8_SetResultWideInt n] (INum n).
Proof.
  intros Hp Hn. assert (prints 0 0 [Th8_SetResultWideInt n] (INum n)) as H.
  { apply P_number. unfold TH8_INT64_MAX. cbn. lia. }
  destruct (Z.eq_dec p 0) as [->|]; [exact H|]. apply (P_up _ 0); [lia|exact H].
Qed.

Lemma prints_op p o ws1 a ws2 b : o ∈ binary_codes → o ≠ TH8_OP_EXPONENT → level o <= p <= 14 →
  prints 0 (level o) ws1 a → prints 0 (level o - 1) ws2 b →
  prints 0 p (ws1 ++ bytes_of_string (symbol o) :: ws2) (IBin o a b).
Proof.
  intros Ho Hne Hp H1 H2. assert (prints 0 (level o) (ws1 ++ bytes_of_string (symbol o) :: ws2) (IBin o a b)) as H
    by by apply P_binary.
  destruct (Z.eq_dec p (level o)) as [->|]; [exact H|]. apply (P_up _ (level o)); [lia|exact H].
Qed.

Lemma answer_printed : prints 0 14 answer_words answer_exp.
Proof.
  assert (∀ o, bool_decide (o ∈ binary_codes ∧ o ≠ TH8_OP_EXPONENT) = true → o ∈ binary_codes ∧ o ≠ TH8_OP_EXPONENT) as Hb
    by (intros; by eapply bool_decide_eq_true_1).
  apply (P_if 0 (take 7 answer_words) _ (take 3 (drop 8 answer_words)) _ (drop 12 answer_words)).
  - apply (prints_op 13 TH8_OP_LT (take 5 answer_words) _ (take 1 (drop 6 answer_words)));
      [by apply Hb; vm_compute|by apply Hb; vm_compute|cbn; lia| |apply (prints_digit 5 8); lia].
    apply (prints_op 6 TH8_OP_ADD (take 1 answer_words) _ (take 3 (drop 2 answer_words)));
      [by apply Hb; vm_compute|by apply Hb; vm_compute|cbn; lia|apply (prints_digit 4 1); lia|].
    apply (prints_op 3 TH8_OP_MULTIPLY (take 1 (drop 2 answer_words)) _ (take 1 (drop 4 answer_words)));
      [by apply Hb; vm_compute|by apply Hb; vm_compute|cbn; lia|apply (prints_digit 3 2)|apply (prints_digit 2 3)]; lia.
  - apply (prints_op 13 TH8_OP_MULTIPLY (take 1 (drop 8 answer_words)) _ (take 1 (drop 10 answer_words)));
      [by apply Hb; vm_compute|by apply Hb; vm_compute|cbn; lia|apply (prints_digit 3 6)|apply (prints_digit 2 7)]; lia.
  - apply (prints_op 13 TH8_OP_DIVIDE (take 1 (drop 12 answer_words)) _ (take 1 (drop 14 answer_words)));
      [by apply Hb; vm_compute|by apply Hb; vm_compute|cbn; lia|apply (prints_digit 3 1)|apply (prints_digit 2 0)]; lia.
Qed.

Lemma expr_computes_witness :
  spaced answer_words = bytes_of_string "1 + 2 * 3 < 8 ? 6 * 7 : 1 / 0 " ∧ denote ideal answer_exp = Value 42 ∧
  ∃ it', Th8_Expr (EI := shell_expr false true) granted granted (spaced answer_words) 0 sh_init =
    Ok (TH8_OK, it') ∧ sh_result it' = (bytes_of_string "42", 2) ∧ sh_depth it' = 0.
Proof.
  split; [vm_compute; reflexivity|]. split; [vm_compute; reflexivity|].
  destruct (expr_computes (EI := shell_expr false true) (CalmLaws0 := calm_shell) granted granted (λ _, eq_refl)
    0 answer_words answer_exp sh_init answer_printed)
    as (it' & H1 & H2 & H3); [vm_compute; discriminate|vm_compute; reflexivity|lia|vm_compute; discriminate|
    apply Z.leb_le; vm_compute; reflexivity|].
  exists it'. split; [exact H1|]. split; [exact H2|exact H3].
Defined.
