(* ===== verification/VarTables.v ===== *)
(** * VarTables: the hash tables of variables, as finite maps.

    The tables of variables and of namespaces are those of Hash, their data
    being addresses.  This file gives what holds of a table whatever the order
    of its insertions: the finite map it stands for, how finding, inserting,
    storing and removing change that map, and how many times an address is in
    it. *)

From S2P Require Import Prelude Hash.
From stdpp Require Import gmap.
Open Scope Z_scope.

(** ** The map a table stands for *)

Definition entries (h : Th8_Hash) : list Th8_HashEntry := concat (aBucket h).
Definition pair_of (p : Th8_HashEntry) : bytes * Z := (zKey p, pData p).
Definition dict (h : Th8_Hash) : gmap bytes Z := list_to_map (map pair_of (entries h)).

Abbreviation map_of l := (list_to_map (map pair_of l) : gmap bytes Z) (only parsing).

(** How many entries of a map hold the address [a]. *)
Definition count (a : Z) (m : gmap bytes Z) : Z := Z.of_nat (size (filter (λ kv, kv.2 = a) m)).

Lemma count_empty a : count a ∅ = 0.
Proof. unfold count. by rewrite map_filter_empty, map_size_empty. Qed.

Lemma count_nonneg a m : 0 <= count a m.
Proof. unfold count. lia. Qed.

Lemma count_insert a m k d : m !! k = None →
  count a (<[k := d]> m) = count a m + (if decide (d = a) then 1 else 0).
Proof.
  intros Hk. unfold count. destruct (decide (d = a)) as [->|Hd].
  - rewrite map_filter_insert_True by done. rewrite map_size_insert_None; [lia|].
    apply map_lookup_filter_None. by left.
  - rewrite map_filter_insert_False by done. rewrite delete_id by done. lia.
Qed.

Lemma count_delete a m k d : m !! k = Some d →
  count a (delete k m) = count a m - (if decide (d = a) then 1 else 0).
Proof.
  intros Hk. rewrite <- (insert_delete_id m k d Hk) at 2.
  rewrite count_insert by apply lookup_delete_eq. lia.
Qed.

Lemma count_update a m k d d' : m !! k = Some d →
  count a (<[k := d']> m) =
  count a m - (if decide (d = a) then 1 else 0) + (if decide (d' = a) then 1 else 0).
Proof.
  intros Hk. rewrite <- insert_delete_eq, count_insert by apply lookup_delete_eq.
  rewrite (count_delete a m k d Hk). lia.
Qed.

Lemma count_positive a m k : m !! k = Some a → 1 <= count a m.
Proof.
  intros Hk. pose proof (count_delete a m k a Hk) as H. rewrite decide_True in H by done.
  pose proof (count_nonneg a (delete k m)). lia.
Qed.

Lemma count_none a m : (∀ k d, m !! k = Some d → d ≠ a) → count a m = 0.
Proof.
  intros H. unfold count. rewrite map_empty_filter_2; [by rewrite map_size_empty|].
  intros k d Hk Hd. by apply (H k d).
Qed.

(** The sum of a quantity over a map. *)
Definition msum {A} (f : Z → A → Z) (m : gmap Z A) : Z := map_fold (λ k v n, f k v + n) 0 m.

Lemma msum_insert {A} (f : Z → A → Z) m k v : m !! k = None → msum f (<[k := v]> m) = f k v + msum f m.
Proof. intros Hk. unfold msum. rewrite map_fold_insert_L; [done|intros; lia|done]. Qed.

Lemma msum_delete {A} (f : Z → A → Z) m k v : m !! k = Some v → msum f m = f k v + msum f (delete k m).
Proof. intros Hk. unfold msum. rewrite (map_fold_delete_L _ _ k v); [done|intros; lia|done]. Qed.

Lemma msum_update {A} (f : Z → A → Z) m k v v' : m !! k = Some v →
  msum f (<[k := v']> m) = msum f m - f k v + f k v'.
Proof.
  intros Hk. rewrite <- insert_delete_eq, msum_insert by apply lookup_delete_eq.
  rewrite (msum_delete f m k v Hk). lia.
Qed.

Lemma msum_nonneg {A} (f : Z → A → Z) m : (∀ k v, m !! k = Some v → 0 <= f k v) → 0 <= msum f m.
Proof.
  induction m as [|k v m Hk IH] using map_ind; intros Hf; [done|]. rewrite msum_insert by done.
  pose proof (Hf k v (lookup_insert_eq _ _ _)). enough (0 <= msum f m) by lia. apply IH.
  intros k' v' Hk'. apply Hf. rewrite lookup_insert_ne; [done|congruence].
Qed.

Lemma msum_ext {A} (f g : Z → A → Z) m : (∀ k v, m !! k = Some v → f k v = g k v) → msum f m = msum g m.
Proof.
  induction m as [|k v m Hk IH] using map_ind; intros Hf; [done|]. rewrite !msum_insert by done.
  rewrite (Hf k v (lookup_insert_eq _ _ _)), IH; [done|].
  intros k' v' Hk'. apply Hf. rewrite lookup_insert_ne; [done|congruence].
Qed.

(** One key counts for as much as it contributes. *)
Lemma msum_split {A} (f g : Z → A → Z) m k v : m !! k = Some v →
  (∀ k' v', m !! k' = Some v' → k' ≠ k → f k' v' = g k' v') → msum f m = msum g m - g k v + f k v.
Proof.
  intros Hk Hf. rewrite (msum_delete f m k v Hk), (msum_delete g m k v Hk).
  rewrite (msum_ext f g (delete k m)); [lia|]. intros k' v' [Hne Hk']%lookup_delete_Some. apply Hf; [done|congruence].
Qed.

Lemma msum_witness {A} (f : Z → A → Z) m : 1 <= msum f m → ∃ k v, m !! k = Some v ∧ 1 <= f k v.
Proof.
  induction m as [|k v m Hk IH] using map_ind; intros Hs; [unfold msum in Hs; rewrite map_fold_empty in Hs; lia|].
  rewrite msum_insert in Hs by done. destruct (Z.le_gt_cases 1 (f k v)) as [Hf|Hf].
  - exists k, v. by rewrite lookup_insert_eq.
  - destruct IH as (k' & v' & Hk' & Hf'); [lia|]. exists k', v'. rewrite lookup_insert_ne; [done|congruence].
Qed.

Lemma count_witness a m : 1 <= count a m → ∃ k, m !! k = Some a.
Proof.
  unfold count. intros H. destruct (map_choose (filter (λ kv : bytes * Z, kv.2 = a) m)) as (k & d & Hd).
  - intros E. rewrite E, map_size_empty in H. lia.
  - apply map_lookup_filter_Some in Hd as [Hd Ha]. cbn in Ha. subst d. eauto.
Qed.

(** ** What every operation keeps *)

Section tables.
Context (sd : seeds).

(** Every entry is in the bucket of its key, and no key is there twice. *)
Record table_ok (h : Th8_Hash) : Prop := {
  t_buckets : length (aBucket h) = 257%nat;
  t_place : ∀ i l p, aBucket h !! i = Some l → p ∈ l → iBucket sd (zKey p) = i;
  t_keys : NoDup (map zKey (entries h))
}.

Lemma map_fst_pairs l : (map pair_of l).*1 = map zKey l.
Proof. induction l as [|p l IH]; [done|]. cbn [map fmap list_fmap]. by rewrite IH. Qed.

Lemma table_new : table_ok Th8_HashNew ∧ dict Th8_HashNew = ∅.
Proof.
  pose proof (holds_new sd) as [H1 H2 H3 _ _ _]. symmetry in H3. apply Permutation_nil in H3.
  unfold dict. split; [split; [done..|]|]; unfold entries; rewrite H3; [constructor|done].
Qed.

Lemma t_bucket h key : table_ok h → aBucket h !! iBucket sd key = Some (bucket sd h key).
Proof.
  intros [Hl _ _]. unfold bucket. pose proof (iBucket_lt sd key).
  destruct (lookup_lt_is_Some_2 (aBucket h) (iBucket sd key)) as [l E]; [lia|].
  rewrite E. by rewrite (nth_lookup_Some _ _ _ _ E).
Qed.

(** The entries are those of the key's bucket and the rest, which has no entry
    of that key. *)
Lemma t_split h key : table_ok h → ∃ rest, entries h ≡ₚ bucket sd h key ++ rest ∧
  (∀ p, p ∈ rest → zKey p ≠ key) ∧
  ∀ b n, entries (mkHash (<[iBucket sd key := b]> (aBucket h)) n) ≡ₚ b ++ rest.
Proof.
  intros H. destruct (concat_update (aBucket h) (bucket sd h key) [] (iBucket sd key) (t_bucket h key H))
    as (rest & H1 & H2). exists rest. split_and!; [done| |].
  - intros p Hp Hk. simpl in H2. rewrite <- H2 in Hp. apply list_elem_of_In, in_concat in Hp as (l & Hl & Hp).
    apply list_elem_of_In in Hl, Hp. apply list_elem_of_lookup in Hl as [i Hi].
    apply list_lookup_insert_Some in Hi as [(_ & <- & _)|[Hne Hi]]; [by apply elem_of_nil in Hp|].
    pose proof (t_place h H i l p Hi Hp) as Hpl. rewrite Hk in Hpl. done.
  - intros b n. unfold entries. cbn [aBucket].
    destruct (concat_update (aBucket h) (bucket sd h key) b (iBucket sd key) (t_bucket h key H))
      as (rest' & H1' & H2'). rewrite H2'. apply Permutation_app_head.
    apply (Permutation_app_inv_l (bucket sd h key)). by rewrite <- H1', H1.
Qed.

Lemma dict_perm l h : table_ok h → entries h ≡ₚ l → NoDup (map zKey l) ∧ dict h = list_to_map (map pair_of l).
Proof.
  intros H Hp. pose proof (t_keys h H) as Hk.
  assert (Hn : NoDup (map zKey l)) by (by rewrite <- Hp). split; [done|].
  apply list_to_map_proper; [by rewrite map_fst_pairs|by rewrite Hp].
Qed.

Lemma map_of_cons p l : map_of (p :: l) = <[zKey p := pData p]> (map_of l).
Proof. done. Qed.

Lemma chain_lookup key l : NoDup (map zKey l) →
  pData <$> chain_find key l = map_of l !! key.
Proof.
  induction l as [|p l IH]; intros Hn; [done|]. apply NoDup_cons in Hn as [Hp Hn].
  rewrite map_of_cons. cbn [chain_find].
  case_bool_decide as Hk; [by rewrite Hk, lookup_insert_eq|].
  rewrite lookup_insert_ne by done. by apply IH.
Qed.

Lemma dict_rest key l : (∀ p, p ∈ l → zKey p ≠ key) → map_of l !! key = None.
Proof.
  intros H. apply not_elem_of_list_to_map_1. rewrite map_fst_pairs.
  intros (p & -> & Hp)%list_elem_of_fmap. by apply (H p).
Qed.

(** Looking for an entry. *)
Lemma bucket_dict h key : table_ok h → pData <$> chain_find key (bucket sd h key) = dict h !! key.
Proof.
  intros H. destruct (t_split h key H) as (rest & H1 & H2 & _).
  destruct (dict_perm _ h H H1) as [Hn ->]. rewrite map_app, list_to_map_app.
  rewrite map_app in Hn. apply NoDup_app in Hn as (Hn & _ & _).
  rewrite lookup_union_l by by apply dict_rest. by apply chain_lookup.
Qed.

Lemma t_find h key alloc : table_ok h →
  ∃ o, Th8_HashFind sd h key 0 alloc = (o, h) ∧ pData <$> o = dict h !! key.
Proof.
  intros H. rewrite <- (bucket_dict h key H). unfold Th8_HashFind.
  destruct (chain_find key (bucket sd h key)) as [p|] eqn:E; eexists; (split; [done|done]).
Qed.

Lemma place_bucket h key b n rest : table_ok h →
  (∀ b n, entries (mkHash (<[iBucket sd key := b]> (aBucket h)) n) ≡ₚ b ++ rest) →
  (∀ p, p ∈ b → iBucket sd (zKey p) = iBucket sd key) → NoDup (map zKey (b ++ rest)) →
  let h' := mkHash (<[iBucket sd key := b]> (aBucket h)) n in
  table_ok h' ∧ dict h' = list_to_map (map pair_of (b ++ rest)).
Proof.
  intros H He Hb Hn h'. assert (Hok : table_ok h').
  { split; [subst h'; cbn [aBucket]; rewrite length_insert; apply H| |subst h'; by rewrite He].
    intros i l p Hl Hp. apply list_lookup_insert_Some in Hl as [(<- & <- & _)|[_ Hl]]; [auto|].
    by eapply (t_place h). }
  split; [done|]. by destruct (dict_perm (b ++ rest) h' Hok (He b n)).
Qed.

Lemma bucket_here h key p : table_ok h → p ∈ bucket sd h key → iBucket sd (zKey p) = iBucket sd key.
Proof. intros H Hp. eapply (t_place h H); [by apply t_bucket|done]. Qed.

(** Inserting: an entry that is there is found, else it is made, empty. *)
Lemma t_insert h key : table_ok h → dict h !! key = None →
  Th8_HashFind sd h key 1 false = (None, h) ∧
  ∃ p h', Th8_HashFind sd h key 1 true = (Some p, h') ∧ pData p = 0 ∧ table_ok h' ∧ dict h' = <[key := 0]> (dict h).
Proof.
  intros H Hd. pose proof (bucket_dict h key H) as Hb. rewrite Hd in Hb.
  unfold Th8_HashFind. destruct (chain_find key (bucket sd h key)) as [p|] eqn:E; [done|]. split; [done|].
  cbn [Z.ltb Z.compare]. set (p := mkEntry _ _ _). eexists p, _. split; [done|]. split; [done|].
  destruct (t_split h key H) as (rest & H1 & H2 & H3). destruct (dict_perm _ h H H1) as [Hn Hm].
  edestruct (place_bucket h key (p :: bucket sd h key)) as [Hok Hdict]; [done|exact H3|..|split; [exact Hok|]].
  - intros q [->|Hq]%elem_of_cons; [done|by apply (bucket_here h)].
  - cbn [map app]. apply NoDup_cons. split; [|done]. intros Hin. rewrite map_app in Hin.
    apply elem_of_app in Hin as [Hin|Hin]; apply list_elem_of_fmap in Hin as (q & Hq & Hin).
    + by eapply chain_find_None in E.
    + by apply (H2 q).
  - rewrite Hdict, Hm. done.
Qed.

Lemma t_insert_found h key d alloc : table_ok h → dict h !! key = Some d →
  ∃ p, Th8_HashFind sd h key 1 alloc = (Some p, h) ∧ pData p = d.
Proof.
  intros H Hd. pose proof (bucket_dict h key H) as Hb. rewrite Hd in Hb. unfold Th8_HashFind.
  destruct (chain_find key (bucket sd h key)) as [p|] eqn:E; [|done]. exists p. split; [done|]. by injection Hb.
Qed.

(** Storing in an entry. *)
Lemma chain_store key d l : NoDup (map zKey l) → is_Some (chain_find key l) →
  let l' := map (λ p, if bool_decide (zKey p = key) then mkEntry d key (nInsertOrder p) else p) l in
  map zKey l' = map zKey l ∧
  map_of l' = <[key := d]> (map_of l).
Proof.
  induction l as [|p l IH]; intros Hn Hf; [by destruct Hf|].
  apply NoDup_cons in Hn as [Hp Hn]. cbn [chain_find] in Hf. rewrite map_of_cons.
  change (map ?f (p :: l)) with (f p :: map f l). cbv zeta. rewrite map_of_cons. cbn [map].
  case_bool_decide as Hk.
  - assert (E : map (λ q, if bool_decide (zKey q = key) then mkEntry d key (nInsertOrder q) else q) l = l).
    { rewrite <- (map_id l) at 2. apply map_ext_in. intros q Hq.
      rewrite bool_decide_false; [done|]. intros Hqk. apply Hp. rewrite Hk, <- Hqk.
      by apply list_elem_of_fmap_2, list_elem_of_In. }
    rewrite E. cbn. subst key. split; [done|]. by rewrite insert_insert_eq.
  - destruct (IH Hn Hf) as [IH1 IH2]. rewrite IH1. split; [done|].
    rewrite IH2. by apply insert_insert_ne.
Qed.

Lemma t_set h key d d' : table_ok h → dict h !! key = Some d →
  table_ok (set_data sd h key d') ∧ dict (set_data sd h key d') = <[key := d']> (dict h).
Proof.
  intros H Hd. pose proof (bucket_dict h key H) as Hb. rewrite Hd in Hb.
  destruct (t_split h key H) as (rest & H1 & H2 & H3). destruct (dict_perm _ h H H1) as [Hn Hm].
  pose proof Hn as Hn'. rewrite map_app in Hn'. pose proof Hn' as (Hnb & _)%NoDup_app.
  destruct (chain_store key d' (bucket sd h key) Hnb) as [Hk Hl].
  { by destruct (chain_find key (bucket sd h key)). }
  unfold set_data. edestruct (place_bucket h key) as [Hok Hdict]; [done|exact H3|..|split; [exact Hok|]].
  - intros q (x & -> & Hx)%list_elem_of_fmap. case_bool_decide; [done|by apply (bucket_here h)].
  - by rewrite map_app, Hk.
  - rewrite Hdict, Hm, !map_app, !list_to_map_app, Hl. by rewrite insert_union_l.
Qed.

(** Removing an entry. *)
Lemma chain_drop key l : NoDup (map zKey l) →
  map_of (chain_remove key l) = delete key (map_of l).
Proof.
  induction l as [|p l IH]; intros Hn; [cbn; by rewrite delete_empty|].
  apply NoDup_cons in Hn as [Hp Hn]. rewrite map_of_cons. cbn [chain_remove].
  case_bool_decide as Hk.
  - subst key. rewrite delete_insert_id; [done|]. apply dict_rest. intros q Hq Hqk.
    apply Hp. rewrite <- Hqk. by apply list_elem_of_fmap_2.
  - rewrite map_of_cons, (IH Hn). by rewrite delete_insert_ne.
Qed.

Lemma t_remove h key : table_ok h →
  table_ok (Th8_HashRemove sd h key) ∧ dict (Th8_HashRemove sd h key) = delete key (dict h).
Proof.
  intros H. pose proof (bucket_dict h key H) as Hb. unfold Th8_HashRemove, Th8_HashFind.
  destruct (chain_find key (bucket sd h key)) as [p|] eqn:E; cbn [Z.ltb Z.compare snd].
  2: { split; [done|]. symmetry. by apply delete_id. }
  destruct (t_split h key H) as (rest & H1 & H2 & H3). destruct (dict_perm _ h H H1) as [Hn Hm].
  pose proof Hn as Hn'. rewrite map_app in Hn'. pose proof Hn' as (Hnb & _ & _)%NoDup_app.
  edestruct (place_bucket h key) as [Hok Hdict]; [done|exact H3|..|split; [exact Hok|]].
  - intros q Hq%chain_remove_in. by apply (bucket_here h).
  - eapply sublist_NoDup; [exact Hn|]. apply fmap_sublist.
    apply sublist_app; [apply chain_remove_sublist|done].
  - rewrite Hdict, Hm, !map_app, !list_to_map_app, chain_drop by done.
    rewrite delete_union. f_equal. symmetry. apply delete_id, dict_rest. done.
Qed.
End tables.
