(* ===== verification/VarState.v ===== *)
(** * VarState: the state of the variables and its memory.

    The variables of src/src/th8_vars.c are counted objects: a table of a
    frame, of a namespace or of an array holds the address of a
    [Th8_Variable], and every such entry is one reference.  Here are the
    records of th8_int_core.h and th8_int.h, the chain of frames with
    th8PushFrame, th8PopFrame and the switch of [uplevel] (th8_core.c), and
    th8FreeVariable and th8FreeVarEntry. *)

From S2P Require Import Prelude Memory Strings Hash Lists.
From stdpp Require Import gmap.
#[local] Open Scope Z_scope.
#[local] Open Scope res_scope.

(** What C leaves undefined, a failed [ALWAYS] of a debug build, and a
    recursion that did not end. *)
Inductive fault : Type := UseAfterFree | NullDeref | OutOfBounds | AssertFailed | OutOfFuel.

(** ** Data *)

Record Th8_Variable : Type := mkVar {
  nRef : Z;
  bBorrowed : bool;            (* the block of the value is the buffer pool's *)
  nData : Z;                   (* tagged length of the value *)
  nAlloc : Z;                  (* size of a borrowed block, else 0 *)
  zData : option bytes;        (* the whole block of the value, NULL if there is none *)
  pHash : option Th8_Hash;     (* the elements of an array *)
  nEpoch : Z;
  nGeneration : Z;
  nWait : Z
}.

(** A zeroed allocation with one reference. *)
Definition new_variable : Th8_Variable := mkVar 1 false 0 0 None None 0 0 0.

Definition set_nRef (n : Z) (v : Th8_Variable) : Th8_Variable :=
  mkVar n (bBorrowed v) (nData v) (nAlloc v) (zData v) (pHash v) (nEpoch v) (nGeneration v) (nWait v).
Definition set_value (b : bool) (n al : Z) (z : option bytes) (v : Th8_Variable) : Th8_Variable :=
  mkVar (nRef v) b n al z (pHash v) (nEpoch v) (nGeneration v) (nWait v).
Definition set_pHash (h : Th8_Hash) (v : Th8_Variable) : Th8_Variable :=
  mkVar (nRef v) (bBorrowed v) (nData v) (nAlloc v) (zData v) (Some h) (nEpoch v) (nGeneration v) (nWait v).
Definition set_nGeneration (n : Z) (v : Th8_Variable) : Th8_Variable :=
  mkVar (nRef v) (bBorrowed v) (nData v) (nAlloc v) (zData v) (pHash v) (nEpoch v) n (nWait v).

(** The counters of an array and of a wait are C [int]s. *)
Definition next_int (n : Z) : Z := swrap 32 (n + 1).
Definition bump_nEpoch (v : Th8_Variable) : Th8_Variable :=
  mkVar (nRef v) (bBorrowed v) (nData v) (nAlloc v) (zData v) (pHash v) (next_int (nEpoch v)) (nGeneration v) (nWait v).
Definition bump_nWait (v : Th8_Variable) : Th8_Variable :=
  mkVar (nRef v) (bBorrowed v) (nData v) (nAlloc v) (zData v) (pHash v) (nEpoch v) (nGeneration v) (next_int (nWait v)).

Record Th8_Frame : Type := mkFrame { paVar : Th8_Hash; pNs : Z }.

(** A namespace; its commands are not modelled. *)
Record Th8_Namespace : Type := mkNs {
  zName : bytes;
  pParent : Z;
  nDepth : Z;
  paChild : Th8_Hash;
  nsVar : Th8_Hash
}.

(** ** What the rest of the interpreter answers *)

(** Where memory is asked for; a string with its length. *)
Inductive alloc_site : Type :=
| AVariable | ATable | AEntry | AFrame | ANamespace | AString (n : Z) | ABytes (n : Z).

Class VarEnv (I : Type) : Type := {
  env_lists :: ListInterp I;
  var_alloc : I → alloc_site → bool * I;
  Th8_ErrorMessage : I → bytes → bytes → Z → I;
  Th8_SetResult : I → option bytes → Z → Z * I;
  Th8_GetResult : I → bytes * Z;
  Th8_Free : I → bytes → I;                       (* with what the block holds then *)
  th8BufferFree : I → bytes → Z → I;
  th8RemoveFromCache : I → bytes → Z → I;          (* TH8_CACHE_BUFFER *)
  th8SignalAllStates : I → I;
  th8IsSecureVar : I → bytes → Z → bool;
  th8SecureSetVar : I → bytes → Z → bytes → Z * I;
  th8SecureGetVar : I → bytes → Z → Z * I;
  th8FreeCommands : I → Z → I                     (* every command of a namespace *)
}.

(** A text the interpreter reports, with its length taken by the callee. *)
Definition text (s : string) : bytes := bytes_of_string s.

Section state.
Context {I : Type} `{VE : VarEnv I}.

(** The variables in memory, the next address, and the rest of the interpreter. *)
Record store : Type := mkStore { heap : gmap Z Th8_Variable; nNext : Z; it : I }.
Definition set_heap (h : gmap Z Th8_Variable) (m : store) : store := mkStore h (nNext m) (it m).
Definition set_it (i : I) (m : store) : store := mkStore (heap m) (nNext m) i.
Definition put (a : Z) (v : Th8_Variable) (m : store) : store := set_heap (<[a := v]> (heap m)) m.
Definition bump (m : store) : store := mkStore (heap m) (nNext m + 1) (it m).

Definition deref (a : Z) (m : store) : res fault Th8_Variable :=
  if a =? 0 then Err NullDeref else match heap m !! a with Some v => Ok v | None => Err UseAfterFree end.

(** An update through a pointer. *)
Definition alter_var (f : Th8_Variable → Th8_Variable) (a : Z) (m : store) : res fault store :=
  let* v := deref a m in Ok (put a (f v) m).

(** ** Releasing *)

(** [Th8_SecureZero] of the first [n] bytes of a block. *)
Definition wipe (z : bytes) (n : Z) : res fault bytes :=
  if zlen z <? n then Err OutOfBounds else Ok (replicate (Z.to_nat n) 0 ++ drop (Z.to_nat n) z).

(** The block of a value goes back, a sensitive one overwritten first. *)
Definition drop_value (v : Th8_Variable) (i : I) : res fault I :=
  match zData v with
  | None => Ok i
  | Some z =>
      let* z := if TH8_SENSITIVE (nData v)
                then wipe z (if 0 <? nAlloc v then nAlloc v else TH8_LEN (nData v) + 1) else Ok z in
      if bBorrowed v then if 0 <? nAlloc v then Ok (th8BufferFree i z (nAlloc v)) else Ok i
      else Ok (Th8_Free i z)
  end.

Definition th8FreeVarEntry (free : Z → store → res fault store) (p : Th8_HashEntry) (m : store)
    : res fault store :=
  if pData p =? 0 then Ok m else free (pData p) m.

(** The callback of an iteration that always continues. *)
Definition each (f : Th8_HashEntry → store → res fault store) (p : Th8_HashEntry) (m : res fault store)
    : Z * res fault store :=
  (TH8_OK, let* m := m in f p m).

(** One reference less; the last one takes the value and the elements along.
    The recursion goes down the elements of arrays. *)
Fixpoint th8FreeVariable (fuel : nat) (a : Z) (m : store) : res fault store :=
  match fuel with
  | O => Err OutOfFuel
  | S fuel =>
      let* v := deref a m in
      if nRef v <=? 0 then Ok m
      else
        let v := set_nRef (nRef v - 1) v in
        let m := put a v m in
        if nRef v <=? 0 then
          let* i := drop_value v (it m) in
          let* m := Th8_HashIterate (each (th8FreeVarEntry (th8FreeVariable fuel))) (pHash v) (Ok (set_it i m)) in
          Ok (set_heap (delete a (heap m)) m)
        else Ok m
  end.

(** Enough for every variable there can be. *)
Definition free_fuel (m : store) : nat := S (Z.to_nat (nNext m)).
Definition free_variable (a : Z) (m : store) : res fault store := th8FreeVariable (free_fuel m) a m.

Definition free_table (h : Th8_Hash) (m : store) : res fault store :=
  Th8_HashIterate (each (th8FreeVarEntry free_variable)) (Some h) (Ok m).

(** ** The interpreter *)

(** The chain of frames from the current one to the global one; [saved] are
    the frames that an [uplevel] in progress left, innermost switch first. *)
Record interp : Type := mkI {
  mem : store;
  frames : list Th8_Frame;
  saved : list (list Th8_Frame);
  namespaces : gmap Z Th8_Namespace;
  pGlobalNs : Z;
  pCurrentNs : Z;
  pPendingNs : list Z;
  nEvalDepth : Z;
  paSystemVar : option Th8_Hash;
  iArrayHashGeneration : Z
}.
Definition set_mem (m : store) (s : interp) : interp :=
  mkI m (frames s) (saved s) (namespaces s) (pGlobalNs s) (pCurrentNs s) (pPendingNs s) (nEvalDepth s)
    (paSystemVar s) (iArrayHashGeneration s).
Definition set_frames (fs : list Th8_Frame) (sv : list (list Th8_Frame)) (s : interp) : interp :=
  mkI (mem s) fs sv (namespaces s) (pGlobalNs s) (pCurrentNs s) (pPendingNs s) (nEvalDepth s)
    (paSystemVar s) (iArrayHashGeneration s).
Definition set_namespaces (ns : gmap Z Th8_Namespace) (s : interp) : interp :=
  mkI (mem s) (frames s) (saved s) ns (pGlobalNs s) (pCurrentNs s) (pPendingNs s) (nEvalDepth s)
    (paSystemVar s) (iArrayHashGeneration s).
Definition set_pCurrentNs (a : Z) (s : interp) : interp :=
  mkI (mem s) (frames s) (saved s) (namespaces s) (pGlobalNs s) a (pPendingNs s) (nEvalDepth s)
    (paSystemVar s) (iArrayHashGeneration s).
Definition set_pPendingNs (l : list Z) (s : interp) : interp :=
  mkI (mem s) (frames s) (saved s) (namespaces s) (pGlobalNs s) (pCurrentNs s) l (nEvalDepth s)
    (paSystemVar s) (iArrayHashGeneration s).
Definition set_nEvalDepth (n : Z) (s : interp) : interp :=
  mkI (mem s) (frames s) (saved s) (namespaces s) (pGlobalNs s) (pCurrentNs s) (pPendingNs s) n
    (paSystemVar s) (iArrayHashGeneration s).
Definition set_paSystemVar (h : option Th8_Hash) (s : interp) : interp :=
  mkI (mem s) (frames s) (saved s) (namespaces s) (pGlobalNs s) (pCurrentNs s) (pPendingNs s) (nEvalDepth s)
    h (iArrayHashGeneration s).
Definition set_iArrayHashGeneration (n : Z) (s : interp) : interp :=
  mkI (mem s) (frames s) (saved s) (namespaces s) (pGlobalNs s) (pCurrentNs s) (pPendingNs s) (nEvalDepth s)
    (paSystemVar s) n.

Definition env (s : interp) : I := it (mem s).
Definition set_env (i : I) (s : interp) : interp := set_mem (set_it i (mem s)) s.
Definition on_env (f : I → I) (s : interp) : interp := set_env (f (env s)) s.
Definition complain (zPre : bytes) (z : bytes) (n : Z) (s : interp) : interp :=
  on_env (λ i, Th8_ErrorMessage i zPre z n) s.
Definition say (z : string) (s : interp) : interp :=
  on_env (λ i, snd (Th8_SetResult i (Some (text z)) (zlen (text z)))) s.
Definition ask (site : alloc_site) (s : interp) : bool * interp :=
  let '(ok, i) := var_alloc (env s) site in (ok, set_env i s).

(** ** Frames *)

(** [false] when there is no memory for the frame's table. *)
Definition th8PushFrame (s : interp) : bool * interp :=
  let '(ok, s) := ask ATable s in
  if ok then (true, set_frames (mkFrame Th8_HashNew (pCurrentNs s) :: frames s) (saved s) s) else (false, s).

Definition th8PopFrame (s : interp) : res fault interp :=
  match frames s with
  | [] => Err NullDeref
  | f :: fs =>
      let* m := free_table (paVar f) (mem s) in
      Ok (set_frames fs (saved s) (set_mem m s))
  end.

(** The frame of th8InFrame and th8NRInFrame. *)
Definition enter_frame (s : interp) : bool * interp :=
  let '(ok, s) := ask AFrame s in
  if ok then
    let '(ok, s) := th8PushFrame s in
    (ok, if ok then s else say "out of memory" s)
  else (false, say "out of memory" s).

(** The frame that a level names: 0 and above counts from the global frame,
    below 0 from the current one.  [None]: the walk left the chain. *)
Definition th8LinkTarget (iFrame : Z) (s : interp) : option nat :=
  let iFrame := if 0 <=? iFrame then - (zlen (frames s) - 1 - iFrame) else iFrame in
  let k := Z.to_nat (- iFrame) in
  if (k <? length (frames s))%nat then Some k else None.

(** Th8_NREvalInFrame, up to the evaluation; its level is not that of
    Th8_LinkVar, and 0 is the current frame. *)
Definition th8SwitchTarget (iFrame : Z) (s : interp) : option nat :=
  let iFrame := if 0 <? iFrame then - zlen (frames s) + iFrame else iFrame in
  let k := Z.to_nat (- iFrame) in
  if (k <? length (frames s))%nat then Some k else None.

Definition Th8_NREvalInFrame (iFrame : Z) (s : interp) : Z * interp :=
  match th8SwitchTarget iFrame s with
  | None => (TH8_ERROR, say "no such frame" s)
  | Some k =>
      let s := set_frames (drop k (frames s)) (take k (frames s) :: saved s) s in
      let ns := match frames s with f :: _ => pNs f | [] => pCurrentNs s end in
      (TH8_OK, if ns =? pCurrentNs s then s else set_pCurrentNs ns s)
  end.

(** th8FrameRestoreCallback, when the evaluation is over. *)
Definition th8FrameRestoreCallback (s : interp) : interp :=
  match saved s with
  | top :: sv => set_frames (top ++ frames s) sv s
  | [] => s
  end.
End state.
Arguments store : clear implicits.
Arguments interp : clear implicits.
