(* ===== verification/VarRefs.v ===== *)
(** * VarRefs: the reference counts of variables are exact.

    A variable is in memory exactly as long as some table holds its address,
    and its count is the number of the entries that do.  Elements of arrays are
    younger than their arrays, so that releasing them ends. *)

From S2P Require Import Prelude Memory Strings Hash Lists VarTables VarState.
From stdpp Require Import gmap.
#[local] Open Scope Z_scope.
#[local] Open Scope res_scope.

(** ** Counting the references of arrays *)

(** The references that a variable's elements are; a variable being released
    has given its own up. *)
Definition weight (a : Z) (v : Th8_Variable) : Z :=
  if 0 <? nRef v then match pHash v with Some h => count a (dict h) | None => 0 end else 0.

Definition elem_refs (a : Z) (h : gmap Z Th8_Variable) : Z := msum (λ _, weight a) h.

Lemma weight_nonneg a v : 0 <= weight a v.
Proof. unfold weight. case_if; [|lia]. destruct (pHash v); [apply count_nonneg|lia]. Qed.

Lemma elem_refs_nonneg a h : 0 <= elem_refs a h.
Proof. apply msum_nonneg. intros. apply weight_nonneg. Qed.

(** ** The entries of a table, one by one *)

Definition held (a : Z) (l : list Th8_HashEntry) : Z := Z.of_nat (length (filter (λ p, pData p = a) l)).

Lemma held_cons a p l : held a (p :: l) = (if decide (pData p = a) then 1 else 0) + held a l.
Proof. unfold held. rewrite filter_cons. case_decide; simpl length; lia. Qed.

Lemma held_nonneg a l : 0 <= held a l.
Proof. unfold held. lia. Qed.

Lemma held_map a l : NoDup (map zKey l) → count a (map_of l) = held a l.
Proof.
  induction l as [|p l IH]; intros Hn; [apply count_empty|].
  apply NoDup_cons in Hn as [Hp Hn]. rewrite held_cons, map_of_cons, count_insert, IH; [lia|done|].
  apply dict_rest. intros q Hq Hk. apply Hp. rewrite <- Hk. by apply list_elem_of_fmap_2.
Qed.

Section refs.
Context (sd : seeds).

Lemma held_dict a h : table_ok sd h → held a (entries h) = count a (dict h).
Proof. intros H. symmetry. apply held_map, H. Qed.

Lemma entry_dict h p : table_ok sd h → p ∈ entries h → dict h !! zKey p = Some (pData p).
Proof.
  intros H Hp. apply elem_of_list_to_map_1; [rewrite map_fst_pairs; apply H|].
  apply list_elem_of_fmap. by exists p.
Qed.

(** ** The invariant of memory *)

Definition value_ok (v : Th8_Variable) : Prop :=
  0 <= nAlloc v ∧ (bBorrowed v = true → 0 < nAlloc v) ∧
  match zData v with
  | Some z => TH8_LEN (nData v) + 1 <= zlen z ∧ nAlloc v <= zlen z
  | None => bBorrowed v = false
  end.

(** An array has no value, its table is one, and its elements are younger. *)
Definition array_ok (a : Z) (v : Th8_Variable) : Prop :=
  ∀ h, pHash v = Some h →
    zData v = None ∧ table_ok sd h ∧ ∀ k d, dict h !! k = Some d → d = 0 ∨ a < d.

Context {I : Type} `{VE : VarEnv I}.
Implicit Types m : store I.

(** [R] counts the references that are not elements of arrays.  Up to the
    address [x] it may be too low: there an entry of an array is about to go
    whose reference was given up before. *)
Record heap_ok (x : Z) (R : Z → Z) (m : store I) : Prop := {
  h_addr : ∀ a v, heap m !! a = Some v → 0 < a < nNext m;
  h_vars : ∀ a v, heap m !! a = Some v → 0 <= nRef v ∧ value_ok v ∧ array_ok a v;
  h_refs : ∀ a, a ≠ 0 → R a + elem_refs a (heap m) = match heap m !! a with Some v => nRef v | None => 0 end;
  h_pos : ∀ a, a ≠ 0 → x < a → 0 <= R a
}.

(** One reference to [a] less. *)
Definition less (a : Z) (R : Z → Z) (b : Z) : Z := R b - (if decide (a = b) then 1 else 0).
Definition less_all (l : list Th8_HashEntry) (R : Z → Z) (b : Z) : Z := R b - held b l.

(** What releasing may do: drop variables and references, nothing else. *)
Definition freed (m m' : store I) : Prop :=
  nNext m' = nNext m ∧
  ∀ b v', heap m' !! b = Some v' → ∃ v, heap m !! b = Some v ∧ v' = set_nRef (nRef v') v ∧
    nRef v' <= nRef v ∧ (nRef v' = 0 → nRef v = 0).

Lemma set_nRef_id v : set_nRef (nRef v) v = v.
Proof. by destruct v. Qed.

Lemma freed_refl m : freed m m.
Proof. split; [done|]. intros b v Hv. exists v. rewrite set_nRef_id. naive_solver lia. Qed.

Lemma freed_trans m1 m2 m3 : freed m1 m2 → freed m2 m3 → freed m1 m3.
Proof.
  intros [E1 H1] [E2 H2]. split; [congruence|]. intros b v3 Hv.
  destruct (H2 b v3 Hv) as (v2 & Hv2 & -> & Hle & Hz).
  destruct (H1 b v2 Hv2) as (v1 & Hv1 & -> & Hle1 & Hz1). exists v1. cbn in *.
  split_and!; [done|done|lia|auto].
Qed.

Lemma heap_ext x R R' m : (∀ a, a ≠ 0 → R' a = R a) → heap_ok x R m → heap_ok x R' m.
Proof.
  intros HR [H1 H2 H3 H4]. split; [done..| |]; intros a Ha; rewrite (HR a Ha); auto.
Qed.

Lemma held_var x R m a : heap_ok x R m → a ≠ 0 → 1 <= R a → ∃ v, heap m !! a = Some v ∧ 1 <= nRef v.
Proof.
  intros H Ha HR. pose proof (h_refs x R m H a Ha) as Hr. pose proof (elem_refs_nonneg a (heap m)).
  destruct (heap m !! a) as [v|]; [|lia]. exists v. split; [done|lia].
Qed.

Lemma deref_ok m a v : heap m !! a = Some v → a ≠ 0 → deref a m = Ok v.
Proof. intros H Ha. unfold deref. rewrite (proj2 (Z.eqb_neq a 0) Ha). by rewrite H. Qed.

Lemma drop_ok v (i : I) : value_ok v → ∃ i', drop_value v i = Ok i'.
Proof.
  intros (Ha & Hb & Hz). unfold drop_value, wipe. destruct (zData v) as [z|]; [|by eexists].
  destruct (TH8_SENSITIVE (nData v)); cbn.
  - replace (zlen z <? _) with false; [cbn; repeat case_if; by eexists|].
    symmetry. apply Z.ltb_ge. destruct Hz as [Hz Hz']. destruct (0 <? nAlloc v); lia.
  - repeat case_if; by eexists.
Qed.

Lemma live_addr a v m x R : heap_ok x R m → heap m !! a = Some v → a ≠ 0.
Proof. intros H Hv. pose proof (h_addr x R m H a v Hv). lia. Qed.

(** ** Releasing keeps it *)

Lemma freed_put m a v n : heap m !! a = Some v → n <= nRef v → (n = 0 → nRef v = 0) →
  freed m (put a (set_nRef n v) m).
Proof.
  intros Hv Hn Hz. split; [done|]. intros b v' Hb. cbn in Hb.
  apply lookup_insert_Some in Hb as [[<- <-]|[_ Hb]]; [by exists v|].
  exists v'. rewrite set_nRef_id. naive_solver lia.
Qed.

(** One reference of several. *)
Lemma release_shared x R m a v : heap_ok x R m → heap m !! a = Some v → (x < a → 1 <= R a) → 1 < nRef v →
  heap_ok x (less a R) (put a (set_nRef (nRef v - 1) v) m).
Proof.
  intros H Hv HR Hn. pose proof (live_addr a v m x R H Hv) as Ha.
  assert (Hw : ∀ b, weight b (set_nRef (nRef v - 1) v) = weight b v).
  { intros b. unfold weight. cbn. replace (0 <? nRef v - 1) with true by lia. by replace (0 <? nRef v) with true by lia. }
  split; cbn [put set_heap heap nNext].
  - intros b w [[<- <-]|[_ Hb]]%lookup_insert_Some; [by apply (h_addr x R m H a v)|by apply (h_addr x R m H b w)].
  - intros b w [[<- <-]|[_ Hb]]%lookup_insert_Some; [|by apply (h_vars x R m H b w)].
    destruct (h_vars x R m H a v Hv) as (_ & H1 & H2). cbn. split_and!; [lia|done|done].
  - intros b Hb. unfold elem_refs. rewrite (msum_update _ (heap m) a v) by done. fold (elem_refs b (heap m)). rewrite Hw.
    pose proof (h_refs x R m H b Hb) as Hr. unfold less. destruct (decide (a = b)) as [<-|Hne].
    + rewrite lookup_insert_eq. cbn. rewrite Hv in Hr. lia.
    + rewrite lookup_insert_ne by done. lia.
  - intros b Hb Hx. unfold less. pose proof (h_pos x R m H b Hb Hx). case_decide; [subst|]; lia.
Qed.

(** The last one: the elements' references are no longer an array's. *)
Lemma release_last x R m a v i : heap_ok x R m → heap m !! a = Some v → (x < a → 1 <= R a) → nRef v = 1 →
  heap_ok x (λ b, less a R b + match pHash v with Some h => count b (dict h) | None => 0 end)
    (set_it i (put a (set_nRef (nRef v - 1) v) m)).
Proof.
  intros H Hv HR Hn. pose proof (live_addr a v m x R H Hv) as Ha.
  assert (Hw : ∀ b, weight b (set_nRef (nRef v - 1) v) = 0).
  { intros b. unfold weight. cbn. by replace (0 <? nRef v - 1) with false by lia. }
  assert (Hv1 : ∀ b, weight b v = match pHash v with Some h => count b (dict h) | None => 0 end).
  { intros b. unfold weight. by replace (0 <? nRef v) with true by lia. }
  split; cbn [put set_heap set_it heap nNext].
  - intros b w [[<- <-]|[_ Hb]]%lookup_insert_Some; [by apply (h_addr x R m H a v)|by apply (h_addr x R m H b w)].
  - intros b w [[<- <-]|[_ Hb]]%lookup_insert_Some; [|by apply (h_vars x R m H b w)].
    destruct (h_vars x R m H a v Hv) as (_ & H1 & H2). cbn. split_and!; [lia|done|done].
  - intros b Hb. unfold elem_refs. rewrite (msum_update _ (heap m) a v) by done. fold (elem_refs b (heap m)). rewrite Hw, <- Hv1.
    pose proof (h_refs x R m H b Hb) as Hr. unfold less. destruct (decide (a = b)) as [<-|Hne].
    + rewrite lookup_insert_eq. cbn. rewrite Hv in Hr. lia.
    + rewrite lookup_insert_ne by done. lia.
  - intros b Hb Hx. rewrite <- Hv1. unfold less. pose proof (h_pos x R m H b Hb Hx). pose proof (weight_nonneg b v).
    case_decide; [subst|]; lia.
Qed.

(** Dropping a variable that has given its references up. *)
Lemma drop_released x R m a : heap_ok x R m → (∀ v, heap m !! a = Some v → nRef v = 0) →
  heap_ok x R (set_heap (delete a (heap m)) m).
Proof.
  intros H Hz. destruct (heap m !! a) as [v|] eqn:Hv.
  2: { rewrite delete_id by done. by destruct m. }
  pose proof (Hz v eq_refl) as Hn. pose proof (live_addr a v m x R H Hv) as Ha.
  assert (Ht : ∀ b, elem_refs b (delete a (heap m)) = elem_refs b (heap m)).
  { intros b. unfold elem_refs. rewrite (msum_delete _ (heap m) a v Hv). unfold weight at 2. by rewrite Hn. }
  split; cbn [set_heap heap nNext].
  - intros b w [_ Hb]%lookup_delete_Some. by apply (h_addr x R m H b w).
  - intros b w [_ Hb]%lookup_delete_Some. by apply (h_vars x R m H b w).
  - intros b Hb. rewrite Ht. pose proof (h_refs x R m H b Hb) as Hr. destruct (decide (a = b)) as [<-|Hne].
    + rewrite lookup_delete_eq. rewrite Hv, Hn in Hr. lia.
    + by rewrite lookup_delete_ne.
  - apply H.
Qed.

(** A variable is released as the number [R] of its references says. *)
Definition releases (free : Z → store I → res fault (store I)) (x : Z) (m : store I) (R : Z → Z) (a : Z) : Prop :=
  ∃ m', free a m = Ok m' ∧ heap_ok x (less a R) m' ∧ freed m m'.

Lemma visit_entries_ok (free : Z → store I → res fault (store I)) x l : ∀ m R,
  heap_ok x R m → (∀ b, x < b → held b l <= R b) → (∀ p, p ∈ l → pData p = 0 ∨ x < pData p) →
  (∀ p m' R', p ∈ l → pData p ≠ 0 → nNext m' = nNext m → heap_ok x R' m' → 1 <= R' (pData p) →
     releases free x m' R' (pData p)) →
  ∃ m', visit (each (th8FreeVarEntry free)) l (Ok m) = Ok m' ∧ heap_ok x (less_all l R) m' ∧ freed m m'.
Proof.
  induction l as [|p l IH]; intros m R H HR Hx Hf; cbn [visit].
  - exists m. split_and!; [done| |apply freed_refl]. eapply heap_ext; [|exact H].
    intros a _. unfold less_all, held. cbn. lia.
  - cbn [each res_bind]. change (TH8_OK =? TH8_OK) with true. cbn [Z.eqb]. unfold th8FreeVarEntry at 2.
    destruct (pData p =? 0) eqn:Ep; bool_to_prop.
    + destruct (IH m R H) as (m' & E & H' & Hfr).
      { intros b Hb. pose proof (HR b Hb) as Hh. rewrite held_cons in Hh. case_decide; lia. }
      { intros q Hq. apply Hx. by right. }
      { intros q m' R' Hq. apply Hf. by right. }
      exists m'. split_and!; [done| |done]. eapply heap_ext; [|exact H'].
      intros a Ha. unfold less_all. rewrite held_cons, decide_False by congruence. lia.
    + destruct (Hx p) as [Hp0|Hpx]; [by left|done|].
      destruct (Hf p m R) as (m1 & E1 & H1 & Hfr1); [by left|done|done|done| |].
      { pose proof (HR (pData p) Hpx) as Hh. rewrite held_cons, decide_True in Hh by done.
        pose proof (held_nonneg (pData p) l). lia. }
      rewrite E1. destruct (IH m1 (less (pData p) R) H1) as (m' & E & H' & Hfr).
      { intros b Hb. pose proof (HR b Hb) as Hh. rewrite held_cons in Hh. unfold less. lia. }
      { intros q Hq. apply Hx. by right. }
      { intros q m' R' Hq Hz Hn. apply Hf; [by right|done|]. rewrite Hn. apply Hfr1. }
      exists m'. split_and!; [done| |by eapply freed_trans]. eapply heap_ext; [|exact H'].
      intros a Ha. unfold less_all, less. rewrite held_cons. lia.
Qed.

Lemma iterate_ok (free : Z → store I → res fault (store I)) x m R a v :
  array_ok a v → heap_ok x (λ b, less a R b + match pHash v with Some h => count b (dict h) | None => 0 end) m →
  0 <= x <= a → (∀ b, x < b → 0 <= less a R b) →
  (∀ p m' R', a < p → nNext m' = nNext m → heap_ok x R' m' → 1 <= R' p → releases free x m' R' p) →
  ∃ m', Th8_HashIterate (each (th8FreeVarEntry free)) (pHash v) (Ok m) = Ok m' ∧ heap_ok x (less a R) m' ∧ freed m m'.
Proof.
  intros Hv H Ha HR Hf. unfold Th8_HashIterate. destruct (pHash v) as [h|] eqn:Eh.
  2: { exists m. split_and!; [done| |apply freed_refl]. eapply heap_ext; [|exact H]. intros b _. simpl. lia. }
  destruct (Hv h Eh) as (_ & Ht & Hy).
  assert (Hyoung : ∀ p, p ∈ entries h → pData p = 0 ∨ a < pData p).
  { intros p Hp. by apply (Hy (zKey p)), entry_dict. }
  edestruct (visit_entries_ok free x (entries h)) as (m' & E & H' & Hfr); [exact H|..|exists m'; split_and!; [exact E| |done]].
  - intros b Hb. cbn beta. rewrite (held_dict b h Ht). pose proof (HR b Hb). lia.
  - intros p Hp. destruct (Hyoung p Hp); [by left|right; lia].
  - intros p m' R' Hp Hp0 Hn. apply Hf; [|done]. by destruct (Hyoung p Hp).
  - eapply heap_ext; [|exact H']. intros b Hb. unfold less_all. rewrite (held_dict b h Ht). lia.
Qed.

Lemma free_counted fuel x : ∀ m R a v, heap_ok x R m → heap m !! a = Some v → 1 <= nRef v →
  0 <= x <= a → (x < a → 1 <= R a) → nNext m - a < Z.of_nat fuel → releases (th8FreeVariable fuel) x m R a.
Proof.
  induction fuel as [|fuel IH]; intros m R a v H Hv Hn Hx HR Hfuel.
  { pose proof (h_addr x R m H a v Hv). lia. }
  pose proof (live_addr a v m x R H Hv) as Ha. destruct (h_vars x R m H a v Hv) as (_ & Hval & Harr).
  unfold releases. cbn [th8FreeVariable]. rewrite (deref_ok m a v Hv Ha). cbn [res_bind].
  replace (nRef v <=? 0) with false by lia. cbn [nRef set_nRef].
  destruct (nRef v - 1 <=? 0) eqn:E; bool_to_prop.
  2: { eexists. split_and!; [done|apply release_shared; (done || lia)|apply freed_put; [done|lia|lia]]. }
  destruct (drop_ok (set_nRef (nRef v - 1) v) (it (put a (set_nRef (nRef v - 1) v) m))) as [i Ei].
  { exact Hval. }
  rewrite Ei. cbn [res_bind].
  pose proof (release_last x R m a v i H Hv HR ltac:(lia)) as H1.
  destruct (iterate_ok (th8FreeVariable fuel) x (set_it i (put a (set_nRef (nRef v - 1) v) m)) R a v)
    as (m2 & E2 & H2 & Hfr); [done|exact H1|done|..].
  { intros b Hb. unfold less. pose proof (h_pos x R m H b). case_decide; [subst|]; lia. }
  { intros p m' R' Hp Hn' Hh HR'. destruct (held_var x R' m' p Hh) as (w & Hw & Hwn); [lia|done|].
    apply (IH m' R' p w); [done|done|done|lia|done|]. rewrite Hn'. cbn. lia. }
  change (pHash (set_nRef (nRef v - 1) v)) with (pHash v). rewrite E2. cbn [res_bind].
  eexists. split; [done|]. split.
  - apply drop_released; [done|]. intros w Hw. destruct Hfr as [_ Hfr].
    destruct (Hfr a w Hw) as (w0 & Hw0 & _ & Hle & _). cbn in Hw0. rewrite lookup_insert_eq in Hw0.
    injection Hw0 as <-. cbn in Hle. pose proof (h_vars _ _ m2 H2 a w Hw) as (Hge & _). lia.
  - destruct Hfr as [Hnx Hfr]. split; [done|]. intros b w Hw. cbn in Hw.
    apply lookup_delete_Some in Hw as [Hb Hw]. destruct (Hfr b w Hw) as (w0 & Hw0 & Hw').
    cbn in Hw0. rewrite lookup_insert_ne in Hw0 by done. eauto.
Qed.

Lemma free_variable_ok x m R a v : heap_ok x R m → heap m !! a = Some v → 1 <= nRef v → 0 <= x <= a →
  (x < a → 1 <= R a) → releases free_variable x m R a.
Proof.
  intros H Hv Hn Hx HR. apply (free_counted _ x m R a v); [done..|].
  pose proof (h_addr x R m H a v Hv). unfold free_fuel. lia.
Qed.

(** A table goes with the references it holds. *)
Lemma free_table_ok m R h : heap_ok 0 R m → table_ok sd h → (∀ a, 0 < a → count a (dict h) <= R a) →
  (∀ k d, dict h !! k = Some d → 0 <= d) →
  ∃ m', free_table h m = Ok m' ∧ heap_ok 0 (λ a, R a - count a (dict h)) m' ∧ freed m m'.
Proof.
  intros H Ht HR Hd. unfold free_table, Th8_HashIterate.
  edestruct (visit_entries_ok free_variable 0 (entries h)) as (m' & E & H' & Hfr); [exact H|..|exists m'; split_and!; [exact E| |done]].
  - intros b Hb. rewrite (held_dict b h Ht). by apply HR.
  - intros p Hp. pose proof (Hd (zKey p) (pData p) (entry_dict h p Ht Hp)). lia.
  - intros p m' R' _ Hp _ H' HR'. destruct (held_var 0 R' m' (pData p) H' Hp HR') as (v & Hv & Hn).
    pose proof (h_addr 0 R' m' H' _ _ Hv). apply (free_variable_ok 0 m' R' (pData p) v); (done || lia).
  - eapply heap_ext; [|exact H']. intros b Hb. unfold less_all. by rewrite (held_dict b h Ht).
Qed.
End refs.
