(* ===== verification/Namespaces.v ===== *)
(** * Namespaces: the tree of namespaces of src/src/th8_core.c.

    th8SplitQualName, th8GetFullNsName, th8FindNamespaceEx with its rollback,
    th8FreeNamespace, th8UnlinkFreeNamespace, Th8_DeleteNamespace, the queue of
    namespaces to free with th8DrainPendingDeletes, and the frame of
    Th8_NsEval.  Commands are released by the environment. *)

From S2P Require Import Prelude Memory Strings Hash Lists VarState.
From stdpp Require Import gmap.
#[local] Open Scope Z_scope.
#[local] Open Scope res_scope.

Definition TH8_MX_NS_DEPTH : Z := 1000.
Abbreviation COLON := 58 (only parsing).

(** ** Qualified names *)

(** The number of bytes before the first two colons, or all of them. *)
Fixpoint comp_len (z : bytes) : nat :=
  match z with
  | [] => O
  | c :: z' => if (c =? COLON) && next_is COLON z' then O else S (comp_len z')
  end.

(** Where the last two colons are. *)
Fixpoint last_sep (z : bytes) : option nat :=
  match z with
  | [] => None
  | c :: z' =>
      match last_sep z' with
      | Some i => Some (S i)
      | None => if (c =? COLON) && next_is COLON z' then Some O else None
      end
  end.

Definition has_sep (z : bytes) : bool := bool_decide (is_Some (last_sep z)).

(** Back over a run of colons. *)
Fixpoint back_up (z : bytes) (n : nat) : nat :=
  match n with
  | O => O
  | S m => if nth m z 0 =? COLON then back_up z m else n
  end.

(** The path, NULL if there is none, and the tail. *)
Definition th8SplitQualName (z : bytes) : option bytes * bytes :=
  match last_sep z with
  | Some i => let n := back_up z i in (Some (take n z), drop (n + 2) z)
  | None => (None, z)
  end.

Section namespaces.
Context (sd : seeds) {I : Type} `{VE : VarEnv I}.
Implicit Types s : interp I.

Definition ns_at (a : Z) s : res fault Th8_Namespace :=
  if a =? 0 then Err NullDeref else match namespaces s !! a with Some n => Ok n | None => Err UseAfterFree end.

Definition put_ns (a : Z) (n : Th8_Namespace) s : interp I := set_namespaces (<[a := n]> (namespaces s)) s.
Definition set_paChild (h : Th8_Hash) (n : Th8_Namespace) : Th8_Namespace :=
  mkNs (zName n) (pParent n) (nDepth n) h (nsVar n).
Definition set_nsVar (h : Th8_Hash) (n : Th8_Namespace) : Th8_Namespace :=
  mkNs (zName n) (pParent n) (nDepth n) (paChild n) h.

Definition th8GetFullNsName (pNs : Z) (n : Th8_Namespace) (zChild : bytes) s : bytes :=
  if pNs =? pGlobalNs s then text "::" ++ zChild else zName n ++ text "::" ++ zChild.

(** The part of a text that Th8_Strlen sees. *)
Definition cstr (z : bytes) : bytes := take (span (λ c, negb (c =? 0)) z) z.

(** ** Releasing *)

Definition th8FreeChildEntry (free : Z → interp I → res fault (interp I)) (p : Th8_HashEntry)
    (m : res fault (interp I)) : Z * res fault (interp I) :=
  (TH8_OK, let* s := m in if pData p =? 0 then Ok s else free (pData p) s).

Definition free_children (free : Z → interp I → res fault (interp I)) (h : Th8_Hash) s : res fault (interp I) :=
  Th8_HashIterate (th8FreeChildEntry free) (Some h) (Ok s).

Fixpoint th8FreeNamespace (fuel : nat) (pNs : Z) s : res fault (interp I) :=
  match fuel with
  | O => Err OutOfFuel
  | S fuel =>
      let* n := ns_at pNs s in
      let* s := free_children (th8FreeNamespace fuel) (paChild n) s in
      let s := on_env (λ i, th8FreeCommands i pNs) s in
      let* m := free_table (nsVar n) (mem s) in
      Ok (set_namespaces (delete pNs (namespaces s)) (set_mem m s))
  end.

Definition free_namespace (pNs : Z) s : res fault (interp I) :=
  th8FreeNamespace (S (Z.to_nat (nNext (mem s)))) pNs s.

(** The namespace becomes invisible; it goes at once, or when nothing is being
    evaluated any more. *)
Definition th8UnlinkFreeNamespace (pNs : Z) s : res fault (interp I) :=
  let* n := ns_at pNs s in
  let* s :=
    if pParent n =? 0 then Ok s
    else
      let* pn := ns_at (pParent n) s in
      Ok (put_ns (pParent n) (set_paChild (Th8_HashRemove sd (paChild pn) (snd (th8SplitQualName (zName n)))) pn) s) in
  if 0 <? nEvalDepth s then Ok (set_pPendingNs (pPendingNs s ++ [pNs]) s)
  else free_namespace pNs s.

(** ** Finding and creating *)

(** Asks for several blocks, up to the first refusal. *)
Fixpoint ask_all (sites : list alloc_site) s : bool * interp I :=
  match sites with
  | [] => (true, s)
  | site :: sites => let '(ok, s) := ask site s in if ok then ask_all sites s else (false, s)
  end.

(** The new child of [pNs], linked; what a failure leaves was released.  The
    length of its name is measured. *)
Definition create_child (pNs : Z) (n : Th8_Namespace) (zComp : bytes) s : option Z * interp I :=
  let zFull := th8GetFullNsName pNs n zComp s in
  let '(ok, s) := ask_all [ANamespace; AString (zlen zFull); ATable; ATable; ATable] s in
  if negb ok then (None, s)
  else
    let '(ok, s) := ask AEntry s in
    match Th8_HashFind sd (paChild n) zComp 1 ok with
    | (None, _) => (None, s)
    | (Some _, h) =>
        let pChild := nNext (mem s) in
        let s := put_ns pChild (mkNs (cstr zFull) pNs (nDepth n + 1) Th8_HashNew Th8_HashNew) s in
        let s := put_ns pNs (set_paChild (set_data sd h zComp pChild) n) s in
        (Some pChild, set_mem (bump (mem s)) s)
    end.

Definition rollback (root : option Z) s : res fault (interp I) :=
  match root with Some r => th8UnlinkFreeNamespace r s | None => Ok s end.

(** The walk along the components of [z]; with the namespace, the shallowest one
    that was created. *)
Fixpoint ns_walk (fuel : nat) (bCreate : bool) (pNs : Z) (root : option Z) (z : bytes) s
    : res fault (option Z * option Z * interp I) :=
  match fuel with
  | O => Err OutOfFuel
  | S fuel =>
      match z with
      | [] => Ok (Some pNs, root, s)
      | _ =>
          match comp_len z with
          | O => ns_walk fuel bCreate pNs root (drop 2 z) s
          | nComp =>
              let zComp := take nComp z in
              let rest := drop nComp z in
              let rest := if (1 <? length rest)%nat then drop 2 rest else rest in
              let* n := ns_at pNs s in
              match fst (Th8_HashFind sd (paChild n) zComp 0 true) with
              | Some p => ns_walk fuel bCreate (pData p) root rest s
              | None =>
                  if negb bCreate then Ok (None, root, s)
                  else if TH8_MX_NS_DEPTH <=? nDepth n then
                    let* s := rollback root (say "namespace nested too deeply" s) in Ok (None, root, s)
                  else
                    let '(pChild, s) := create_child pNs n zComp s in
                    match pChild with
                    | None => let* s := rollback root s in Ok (None, root, s)
                    | Some pChild =>
                        ns_walk fuel bCreate pChild (match root with None => Some pChild | _ => root end) rest s
                    end
              end
          end
      end
  end.

Definition is_absolute (z : bytes) : bool := (2 <=? length z)%nat && next_is COLON z && next_is COLON (drop 1 z).

Definition th8FindNamespaceEx (z : bytes) (bCreate : bool) s : res fault (option Z * option Z * interp I) :=
  if (length z =? 0)%nat then Ok (Some (pGlobalNs s), None, s)
  else if is_absolute z then ns_walk (S (length z)) bCreate (pGlobalNs s) None (drop 2 z) s
  else ns_walk (S (length z)) bCreate (pCurrentNs s) None z s.

Definition th8FindNamespace (z : bytes) (bCreate : bool) s : res fault (option Z * interp I) :=
  let* (pNs, _, s) := th8FindNamespaceEx z bCreate s in Ok (pNs, s).

(** ** Deleting *)

(** The global namespace loses its contents, not its structure.  Without the
    memory for its new tables it is left without any. *)
Definition clear_global (pNs : Z) (n : Th8_Namespace) s : res fault (Z * interp I) :=
  let* s := free_children free_namespace (paChild n) s in
  let s := on_env (λ i, th8FreeCommands i pNs) s in
  let* m := free_table (nsVar n) (mem s) in
  let s := set_mem m s in
  let '(ok, s) := ask_all [ATable; ATable; ATable] s in
  if ok then
    let s := put_ns pNs (set_paChild Th8_HashNew (set_nsVar Th8_HashNew n)) s in
    Ok (TH8_OK, set_pCurrentNs (pGlobalNs s) s)
  else Ok (TH8_ERROR, say "out of memory" (set_namespaces (delete pNs (namespaces s)) s)).

Definition Th8_DeleteNamespace (z : bytes) s : res fault (Z * interp I) :=
  let* (pNs, s) := th8FindNamespace z false s in
  match pNs with
  | None => Ok (TH8_ERROR, say "namespace not found" s)
  | Some pNs =>
      let s := if pNs =? pCurrentNs s then set_pCurrentNs (pGlobalNs s) s else s in
      if pNs =? pGlobalNs s then
        let* n := ns_at pNs s in clear_global pNs n s
      else
        let* s := th8UnlinkFreeNamespace pNs s in Ok (TH8_OK, s)
  end.

(** The namespaces that wait, in the order in which they came. *)
Fixpoint drain (l : list Z) s : res fault (interp I) :=
  match l with
  | [] => Ok s
  | pNs :: l => let* s := free_namespace pNs (set_pPendingNs l s) in drain l s
  end.

Definition th8DrainPendingDeletes s : res fault (interp I) := drain (pPendingNs s) s.

(** ** Evaluating in a namespace *)

(** Th8_NsEval up to the evaluation; the caller's namespace is returned. *)
Definition ns_enter (z : bytes) s : res fault (bool * Z * interp I) :=
  let* (pNs, s) := th8FindNamespace z true s in
  let pSaved := pCurrentNs s in
  match pNs with
  | None =>
      let '(zMsg, nMsg) := Th8_GetResult (env s) in
      let zDeep := text "namespace nested too deeply" in
      Ok (false, pSaved,
        if (nMsg =? zlen zDeep) && bool_decide (take (length zDeep) zMsg = zDeep) then s
        else say "can't create namespace" s)
  | Some pNs =>
      let '(ok, s) := enter_frame (set_pCurrentNs pNs s) in
      Ok (ok, pSaved, if ok then s else set_pCurrentNs pSaved s)
  end.

(** And after it. *)
Definition ns_leave (pSaved : Z) s : res fault (interp I) :=
  let* s := th8PopFrame s in Ok (set_pCurrentNs pSaved s).

(** An evaluation begins, unless it is too deep. *)
Definition eval_enter s : bool * interp I :=
  if 1000 <? nEvalDepth s then (false, say "TH8 recursion too deep" s)
  else (true, set_nEvalDepth (nEvalDepth s + 1) s).

(** And ends: the outermost one frees what waits. *)
Definition eval_cleanup s : res fault (interp I) :=
  let s := set_nEvalDepth (nEvalDepth s - 1) s in
  if nEvalDepth s =? 0 then th8DrainPendingDeletes s else Ok s.

(** th8NsRestoreCallback. *)
Definition th8NsRestoreCallback (pNs : Z) s : interp I := set_pCurrentNs pNs s.

(** An interpreter as Th8_CreateInterp makes it: the global namespace and the
    global frame. *)
Definition create_interp (i : I) : interp I :=
  mkI (mkStore ∅ 2 i) [mkFrame Th8_HashNew 1] [] {[ 1 := mkNs (text "::") 0 0 Th8_HashNew Th8_HashNew ]} 1 1 [] 0 None 0.
End namespaces.
