(* ===== verification/Vars.v ===== *)
(** * Vars: the variables of src/src/th8_vars.c.

    Names are resolved by th8AnalyzeVarName and th8FindValue; a variable is
    read by Th8_GetVar, written by Th8_SetVar, th8SetVarValue, th8SetVarLength
    and th8AppendInPlace, removed by Th8_UnsetVar, aliased by Th8_LinkVar, and
    the elements of an array are listed, saved and restored. *)

From S2P Require Import Prelude Memory Strings Parser Hash Lists VarState Namespaces.
From stdpp Require Import gmap.
#[local] Open Scope Z_scope.
#[local] Open Scope res_scope.

Definition TH8_NOLEN : Z := SIZE_MAX.

(** A pointer into memory and the length passed with it. *)
Definition cstring : Type := (bytes * Z)%type.

Definition Th8_Strlen (z : bytes) : res fault Z :=
  let n := span (λ c, negb (c =? 0)) z in
  if (n <? length z)%nat then Ok (Z.of_nat n) else Err OutOfBounds.

(** Reading [n] bytes. *)
Definition read (z : bytes) (n : Z) : res fault bytes :=
  if zlen z <? n then Err OutOfBounds else Ok (take (Z.to_nat n) z).

(** ** Names *)

Record var_name : Type := mkName { zOuter : bytes; zInner : option bytes; bGlobal : bool }.

(** The text before the first parenthesis and the one up to the last byte. *)
Definition subscript (z : bytes) : bytes * option bytes :=
  if match last z with Some c => c =? ")"%ch | None => false end then
    let i := span (λ c, negb (c =? "("%ch)) z in
    if (i <? length z)%nat then (take i z, Some (sub (i + 1) (length z - i - 2) z)) else (z, None)
  else (z, None).

Definition th8AnalyzeVarName (nm : cstring) : res fault var_name :=
  let* nVar := if snd nm =? TH8_NOLEN then Th8_Strlen (fst nm) else Ok (snd nm) in
  let* zVar := read (fst nm) (TH8_LEN nVar) in
  let bGlobal := (2 <? length zVar)%nat && is_absolute zVar in
  let '(zOuter, zInner) := subscript (if bGlobal then drop 2 zVar else zVar) in
  Ok (mkName zOuter zInner bGlobal).

(** A reference at the start of a text; its length with the dollar sign. *)
Inductive reference_error : Type := EExpectedReference | EInvalidName | EInName (e : parse_error).

Definition th8ParseVarName (zString : cstring) : res fault (res reference_error nat) :=
  let* nString := if snd zString =? TH8_NOLEN then Th8_Strlen (fst zString) else Ok (snd zString) in
  let* z := read (fst zString) nString in
  Ok (match z with
      | c :: _ =>
          if c =? "$"%ch then
            match th8NextVarName z with
            | Err e => Err (EInName e)
            | Ok nVar => if (nVar <=? 1)%nat then Err EInvalidName else Ok nVar
            end
          else Err EExpectedReference
      | [] => Err EExpectedReference
      end).

(** Where a table is: in a frame of the chain, in a namespace, in an array. *)
Inductive tref : Type := TFrame (k : nat) | TNs (a : Z) | TVar (a : Z).
#[export] Instance tref_eq_dec : EqDecision tref.
Proof. solve_decision. Defined.

Section vars.
Context (debug : bool) (sd : seeds) {I : Type} `{VE : VarEnv I}.
Implicit Types s : interp I.

(** The macro ALWAYS: an assertion in a debug build, else its condition. *)
Definition ALWAYS (b : bool) : res fault bool :=
  if b then Ok true else if debug then Err AssertFailed else Ok false.

(** ** Tables *)

Definition table_at (t : tref) s : res fault Th8_Hash :=
  match t with
  | TFrame k => match frames s !! k with Some f => Ok (paVar f) | None => Err NullDeref end
  | TNs a => let* n := ns_at a s in Ok (nsVar n)
  | TVar a => let* v := deref a (mem s) in
      match pHash v with Some h => Ok h | None => Err NullDeref end
  end.

Definition put_table (t : tref) (h : Th8_Hash) s : res fault (interp I) :=
  match t with
  | TFrame k => Ok (set_frames (alter (λ f, mkFrame h (pNs f)) k (frames s)) (saved s) s)
  | TNs a => let* n := ns_at a s in Ok (put_ns a (set_nsVar h n) s)
  | TVar a => let* m := alter_var (set_pHash h) a (mem s) in Ok (set_mem m s)
  end.

(** The data of the entry of a key, if there is one. *)
Definition lookup_entry (t : tref) (key : bytes) s : res fault (option Z) :=
  let* h := table_at t s in Ok (pData <$> fst (Th8_HashFind sd h key 0 true)).

(** The entry, made if it is missing; [None] when there is no memory. *)
Definition insert_entry (t : tref) (key : bytes) s : res fault (option Z * interp I) :=
  let* h := table_at t s in
  match fst (Th8_HashFind sd h key 0 true) with
  | Some p => Ok (Some (pData p), s)
  | None =>
      let '(ok, s) := ask AEntry s in
      let '(p, h) := Th8_HashFind sd h key 1 ok in
      let* s := put_table t h s in
      Ok (pData <$> p, s)
  end.

Definition store_entry (t : tref) (key : bytes) (a : Z) s : res fault (interp I) :=
  let* h := table_at t s in put_table t (set_data sd h key a) s.

Definition remove_entry (t : tref) (key : bytes) s : res fault (interp I) :=
  let* h := table_at t s in put_table t (Th8_HashRemove sd h key) s.

Definition global_frame s : nat := (length (frames s) - 1)%nat.

(** ** Resolution *)

(** The variable of a key in a table, made on demand. *)
Definition find_in (t : tref) (key : bytes) (bCreate : bool) s : res fault (option Z * interp I) :=
  let* (d, s) :=
    if bCreate then insert_entry t key s
    else let* d := lookup_entry t key s in Ok (d, s) in
  match d with
  | None => Ok (None, s)
  | Some d =>
      if negb (d =? 0) then Ok (Some d, s)
      else if negb bCreate then Ok (None, s)
      else
        let '(ok, s) := ask AVariable s in
        if negb ok then Ok (None, s)
        else
          let a := nNext (mem s) in
          let s := set_mem (bump (put a new_variable (mem s))) s in
          let* s := store_entry t key a s in
          Ok (Some a, s)
  end.

(** The table and the key of the outer name: of a namespace's variable, of the
    global frame's or of the current one's. *)
Definition outer_table (k : nat) (nm : var_name) (bCreate : bool) s
    : res fault (option (tref * bytes) * interp I) :=
  if bGlobal nm && has_sep (zOuter nm) then
    let '(zNsPath, zTail) := th8SplitQualName (zOuter nm) in
    let zNs := default [] zNsPath in
    let* b := ALWAYS (bool_decide (is_Some zNsPath) && (0 <? zlen zNs)) in
    let '(zFull, i) := append_all (env s) ([], 0) ((text "::", 2) :: if b then [(zNs, zlen zNs)] else []) in
    let s := set_env i s in
    match zFull with
    | None => Ok (None, s)
    | Some zFull =>
        let* (ns, s) := th8FindNamespace sd (fst zFull) bCreate s in
        Ok ((λ a, (TNs a, zTail)) <$> ns, s)
    end
  else Ok (Some (TFrame (if bGlobal nm then global_frame s else k), zOuter nm), s).

(** Below an array; the epoch is the array's. *)
Definition find_element (pArr : Z) (nm : var_name) (zInner : bytes) (bCreate : bool) s
    : res fault (option Z * interp I) :=
  let* v := deref pArr (mem s) in
  let* (ok, s) :=
    match pHash v with
    | Some _ => Ok (true, s)
    | None =>
        if negb bCreate then Ok (false, s)
        else if bool_decide (is_Some (zData v)) then
          Ok (false, complain (text "variable is a scalar:") (zOuter nm) (zlen (zOuter nm)) s)
        else
          let '(ok, s) := ask ATable s in
          if negb ok then Ok (false, s)
          else
            let n := next_int (iArrayHashGeneration s) in
            let* m := alter_var (λ v, set_nGeneration n (set_pHash Th8_HashNew v)) pArr (mem s) in
            Ok (true, set_iArrayHashGeneration n (set_mem m s))
    end in
  if negb ok then Ok (None, s)
  else
    let* (e, s) := find_in (TVar pArr) zInner bCreate s in
    match e with
    | None => Ok (None, s)
    | Some e =>
        if bCreate then
          let* m := alter_var bump_nEpoch pArr (mem s) in Ok (Some e, set_mem m s)
        else Ok (Some e, s)
    end.

(** In the frame [k] of the chain; 0 is the current one. *)
Definition th8FindValue (k : nat) (nm : cstring) (bCreate : bool) s : res fault (option Z * interp I) :=
  let* nm := th8AnalyzeVarName nm in
  let* (t, s) := outer_table k nm bCreate s in
  match t with
  | None => Ok (None, s)
  | Some (t, key) =>
      let* (d, s) := find_in t key bCreate s in
      match d with
      | None => Ok (None, s)
      | Some d =>
          match zInner nm with
          | Some zInner => find_element d nm zInner bCreate s
          | None =>
              let* v := deref d (mem s) in
              let* _ := match pHash v with
                        | Some _ => ALWAYS (bool_decide (zData v = None))
                        | None => Ok true
                        end in
              Ok (Some d, s)
          end
      end
  end.

(** ** Reading *)

Definition no_such (nm : cstring) s : interp I :=
  complain (text "no such variable: " ++ [DQUOTE]) (fst nm) (snd nm) s.

(** An array where a value is wanted. *)
Definition is_array (v : Th8_Variable) : res fault bool :=
  match pHash v with Some _ => ALWAYS (bool_decide (zData v = None)) | None => Ok false end.

(** The variable whose value is read, or the complaint. *)
Definition find_scalar (nm : cstring) s : res fault (option Th8_Variable * interp I) :=
  let* (a, s) := th8FindValue 0 nm false s in
  match a with
  | None => Ok (None, no_such nm s)
  | Some a =>
      let* v := deref a (mem s) in
      let* arr := is_array v in
      if arr then Ok (None, complain (text "variable is an array: " ++ [DQUOTE]) (fst nm) (snd nm) s)
      else Ok (Some v, s)
  end.

Definition Th8_GetVar (nm : cstring) s : res fault (Z * interp I) :=
  let* (v, s) := find_scalar nm s in
  match v with
  | None => Ok (TH8_ERROR, s)
  | Some v =>
      let '(rc, i) :=
        if th8IsSecureVar (env s) (fst nm) (snd nm) then th8SecureGetVar (env s) (fst nm) (snd nm)
        else Th8_SetResult (env s) (zData v) (nData v) in
      Ok (rc, set_env i s)
  end.

(** The block of the value is lent. *)
Definition th8GetVarValue (nm : cstring) s : res fault (option (option bytes * Z) * interp I) :=
  let* (v, s) := find_scalar nm s in Ok ((λ v, (zData v, nData v)) <$> v, s).

Definition Th8_ExistsVar (nm : cstring) s : res fault (bool * interp I) :=
  let* (a, s) := th8FindValue 0 nm false s in
  match a with
  | None => Ok (false, on_env (λ i, snd (Th8_SetResult i None 0)) s)
  | Some a =>
      let* v := deref a (mem s) in
      Ok (bool_decide (is_Some (zData v)) || bool_decide (is_Some (pHash v)), s)
  end.

(** The operations on whole arrays look in a frame only. *)
Definition scope (nm : var_name) s : tref := TFrame (if bGlobal nm then global_frame s else 0).

Definition find_bare (nm : var_name) s : res fault (option Z) :=
  let* d := lookup_entry (scope nm s) (zOuter nm) s in
  Ok (match d with Some d => if d =? 0 then None else Some d | None => None end).

Definition Th8_ExistsArrayVar (nm : cstring) s : res fault bool :=
  let* nm := th8AnalyzeVarName nm in
  let* a := find_bare nm s in
  match a with
  | None => Ok false
  | Some a => let* v := deref a (mem s) in Ok (bool_decide (is_Some (pHash v)))
  end.

(** What is read of an array, given its name without a subscript. *)
Definition of_array {A} (f : Th8_Variable → option A) (nm : cstring) s : res fault (option A) :=
  let* nm := th8AnalyzeVarName nm in
  match zInner nm with
  | Some _ => Ok None
  | None =>
      let* a := find_bare nm s in
      match a with
      | None => Ok None
      | Some a =>
          let* v := deref a (mem s) in
          Ok (match pHash v with Some _ => f v | None => None end)
      end
  end.

Definition th8GetArrayEpoch (nm : cstring) s : res fault Z :=
  let* n := of_array (λ v, Some (nEpoch v)) nm s in Ok (default (-1) n).
Definition th8GetArrayGeneration (nm : cstring) s : res fault Z :=
  let* n := of_array (λ v, Some (nGeneration v)) nm s in Ok (default (-1) n).
Definition th8GetArrayElementHash (nm : cstring) s : res fault (option Th8_Hash) := of_array pHash nm s.

(** ** Writing *)

(** The variable changed: a waiting [vwait] wakes up. *)
Definition signal (a : Z) s : res fault (interp I) :=
  let* m := alter_var bump_nWait a (mem s) in
  Ok (on_env th8SignalAllStates (set_mem m s)).

Definition write_var (f : Th8_Variable → Th8_Variable) (a : Z) s : res fault (interp I) :=
  let* m := alter_var f a (mem s) in Ok (set_mem m s).

(** The old value goes. *)
Definition release_value (v : Th8_Variable) s : res fault (interp I) :=
  let* i := drop_value v (env s) in Ok (set_env i s).

Definition not_scalar (nm : cstring) s : interp I :=
  complain (text "can't set variable (is array):") (fst nm) (snd nm) s.
Definition out_of_memory s : interp I := say "out of memory" s.

(** The text of a secure variable goes to its cipher; the variable keeps an
    empty value.  Whether the emptied block is released is the caller's. *)
Definition secure_var (nm : cstring) (a : Z) (release : bool) s : res fault (Z * interp I) :=
  let* v := deref a (mem s) in
  match zData v with
  | None => Err NullDeref
  | Some z =>
      let* plain := read z (TH8_LEN (nData v)) in
      let '(rcSec, i) := th8SecureSetVar (env s) (fst nm) (snd nm) plain in
      let* z := wipe z (TH8_LEN (nData v) + 1) in
      let s := set_env (if release then Th8_Free i z else i) s in
      let '(ok, s) := ask (ABytes 1) s in
      if ok then
        let* s := write_var (set_value false 0 0 (Some [0])) a s in Ok (rcSec, s)
      else
        let* s := write_var (set_value false (nData v) 0 None) a s in Ok (TH8_ERROR, out_of_memory s)
  end.

Definition Th8_SetVar (nm : cstring) (zVal : option bytes) (nVal : Z) s : res fault (Z * interp I) :=
  let* (a, s) := th8FindValue 0 nm true s in
  match a with
  | None => Ok (TH8_ERROR, s)
  | Some a =>
      let* v := deref a (mem s) in
      if bool_decide (is_Some (pHash v)) then Ok (TH8_ERROR, not_scalar nm s)
      else
        let* (nVal, nTag) :=
          if nVal =? TH8_NOLEN then let* n := Th8_Strlen (default [0] zVal) in Ok (n, 0)
          else Ok (TH8_LEN nVal, Z.land nVal TH8_TAG_BITS) in
        let s := on_env (λ i, th8RemoveFromCache i (fst nm) (snd nm)) s in
        let* s := release_value v s in
        let '(ok, s) := ask (AString nVal) s in
        if negb ok then
          let* s := write_var (set_value false (Z.lor nVal nTag) 0 None) a s in
          Ok (TH8_ERROR, out_of_memory s)
        else
          let* z := match zVal with Some z => read z nVal | None => Ok (replicate (Z.to_nat nVal) 0) end in
          let* s := write_var (set_value false (Z.lor nVal nTag) 0 (Some (z ++ [0]))) a s in
          let* s := signal a s in
          if th8IsSecureVar (env s) (fst nm) (snd nm) then secure_var nm a true s else Ok (TH8_OK, s)
  end.

(** A block of the pool; [None] is a NULL buffer. *)
Record th8_buffer : Type := mkBuf { pBuffer : option bytes; nUsed : Z; nCapacity : Z }.

(** A byte of a block. *)
Definition set_byte (z : bytes) (n c : Z) : res fault bytes :=
  if (0 <=? n) && (n <? zlen z) then Ok (<[Z.to_nat n := c]> z) else Err OutOfBounds.

(** The variable takes the buffer over; that of a secure variable is wiped and
    nobody's. *)
Definition th8SetVarValue (nm : cstring) (b : th8_buffer) s : res fault (Z * th8_buffer * interp I) :=
  match pBuffer b with
  | None => Ok (TH8_ERROR, b, s)
  | Some pBuf =>
      let* (a, s) := th8FindValue 0 nm true s in
      match a with
      | None => Ok (TH8_ERROR, b, s)
      | Some a =>
          let* v := deref a (mem s) in
          if bool_decide (is_Some (pHash v)) then Ok (TH8_ERROR, b, not_scalar nm s)
          else
            let* nVar := if snd nm =? TH8_NOLEN then Th8_Strlen (fst nm) else Ok (snd nm) in
            let* pBuf := set_byte pBuf (TH8_LEN (nUsed b)) 0 in
            let* s := release_value v s in
            let n := Z.lor (TH8_LEN (nUsed b)) (Z.land (nUsed b) TH8_TAG_BITS) in
            let* s := write_var (set_value true n (nCapacity b) (Some pBuf)) a s in
            let* s := signal a s in
            let b := mkBuf (Some pBuf) (nUsed b) (nCapacity b) in
            if th8IsSecureVar (env s) (fst nm) nVar then
              let* (rc, s) := secure_var (fst nm, nVar) a false s in
              Ok (rc, mkBuf None 0 (nCapacity b), s)
            else Ok (TH8_OK, b, s)
      end
  end.

Definition th8SetVarLength (nm : cstring) (zNewData : bytes) (nNewLen : Z) s : res fault (Z * interp I) :=
  let* (a, s) := th8FindValue 0 nm false s in
  match a with
  | None => Ok (TH8_ERROR, s)
  | Some a =>
      let* v := deref a (mem s) in
      if negb (bBorrowed v) then Ok (TH8_ERROR, s)
      else
        let* s := write_var (set_value true (TH8_LEN nNewLen) (nAlloc v) (Some zNewData)) a s in
        let* s := signal a s in Ok (TH8_OK, s)
  end.

(** [Th8_Memcpy] into a block. *)
Definition copy_at (z : bytes) (n : Z) (bs : bytes) : res fault bytes :=
  if zlen z <? n + zlen bs then Err OutOfBounds
  else Ok (take (Z.to_nat n) z ++ bs ++ drop (Z.to_nat n + length bs) z).

Fixpoint append_args (z : bytes) (nCur : Z) (args : list cstring) : res fault (bytes * Z) :=
  match args with
  | [] => Ok (z, nCur)
  | arg :: args =>
      let* bs := read (fst arg) (TH8_LEN (snd arg)) in
      let* z := copy_at z nCur bs in
      append_args z (nCur + TH8_LEN (snd arg)) args
  end.

Definition args_tag (args : list cstring) : Z := foldr (λ arg t, Z.lor (Z.land (snd arg) TH8_TAG_BITS) t) 0 args.
Definition args_len (args : list cstring) : Z := foldr (λ arg n, TH8_LEN (snd arg) + n) 0 args.

(** No event is signalled and no epoch changes. *)
Definition th8AppendInPlace (nm : cstring) (args : list cstring) s : res fault (Z * interp I) :=
  let* (a, s) := th8FindValue 0 nm false s in
  match a with
  | None => Ok (TH8_ERROR, s)
  | Some a =>
      let* v := deref a (mem s) in
      if negb (bBorrowed v) || (nAlloc v =? 0) then Ok (TH8_ERROR, s)
      else
        let nCur := TH8_LEN (nData v) in
        let nTag := Z.lor (Z.land (nData v) TH8_TAG_BITS) (args_tag args) in
        let '(over, nNeeded) := TH8_SAFE_ADD_SIZE nCur (args_len args) in
        if over || (nAlloc v <=? nNeeded) then Ok (TH8_ERROR, s)
        else
          match zData v with
          | None => Err NullDeref
          | Some z =>
              let* (z, nCur) := append_args z nCur args in
              let* z := set_byte z nCur 0 in
              let* s := write_var (set_value true (Z.lor nCur nTag) (nAlloc v) (Some z)) a s in
              Ok (TH8_OK, on_env (λ i, snd (Th8_SetResult i (Some z) (Z.lor nCur nTag))) s)
          end
  end.

(** ** Removing *)

(** The entries of a frame that refer to the variable. *)
Fixpoint unlink_entries (j : nat) (a : Z) (l : list Th8_HashEntry) s : res fault (interp I) :=
  match l with
  | [] => Ok s
  | p :: l =>
      if pData p =? a then
        let* m := free_variable a (mem s) in
        let* s := remove_entry (TFrame j) (zKey p) (set_mem m s) in
        unlink_entries j a l s
      else unlink_entries j a l s
  end.

(** In the frames of the chain from the [j]-th on, but the [k]-th. *)
Fixpoint unlink_frames (n : nat) (j k : nat) (a : Z) s : res fault (interp I) :=
  match n with
  | O => Ok s
  | S n =>
      if (j =? k)%nat then unlink_frames n (S j) k a s
      else
        let* h := table_at (TFrame j) s in
        let* s := unlink_entries j a (concat (aBucket h)) s in
        unlink_frames n (S j) k a s
  end.

Definition no_variable (nm : cstring) s : interp I := complain (text "no such variable:") (fst nm) (snd nm) s.

Definition Th8_UnsetVar (nm : cstring) s : res fault (Z * interp I) :=
  let* n := th8AnalyzeVarName nm in
  let k := if bGlobal n then global_frame s else 0%nat in
  let* d := find_bare n s in
  match d with
  | None => Ok (TH8_ERROR, no_variable nm s)
  | Some a =>
      match zInner n with
      | Some zInner =>
          let* v := deref a (mem s) in
          match pHash v with
          | None => Ok (TH8_ERROR, no_variable nm s)
          | Some _ =>
              let* e := lookup_entry (TVar a) zInner s in
              match e with
              | None => Ok (TH8_ERROR, no_variable nm s)
              | Some e =>
                  let* s :=
                    if e =? 0 then Ok s
                    else
                      let* s := signal e s in
                      let* m := free_variable e (mem s) in Ok (set_mem m s) in
                  let* s := remove_entry (TVar a) zInner s in
                  let* s := write_var bump_nEpoch a s in
                  Ok (TH8_OK, s)
              end
          end
      | None =>
          let* v := deref a (mem s) in
          let* s := if 1 <? nRef v then unlink_frames (length (frames s)) 0 k a s else Ok s in
          let s := on_env (λ i, th8RemoveFromCache i (zOuter n) (zlen (zOuter n))) s in
          let* s := signal a s in
          let* m := free_variable a (mem s) in
          let* s := remove_entry (TFrame k) (zOuter n) (set_mem m s) in
          Ok (TH8_OK, s)
      end
  end.

(** ** Linking *)

(** The local name is a key as it is; an entry that cannot be made is written
    through all the same. *)
Definition Th8_LinkVar (local : cstring) (iFrame : Z) (remote : cstring) s : res fault (Z * interp I) :=
  match th8LinkTarget iFrame s with
  | None => Ok (TH8_ERROR, complain (text "no such frame:") (fst local) (snd local) s)
  | Some k =>
      let* (r, s) := th8FindValue k remote true s in
      match r with
      | None => Ok (TH8_ERROR, no_variable remote s)
      | Some r =>
          let* nLocal := if snd local =? TH8_NOLEN then Th8_Strlen (fst local) else Ok (snd local) in
          let* key := read (fst local) nLocal in
          let* d := lookup_entry (TFrame 0) key s in
          let* there := match d with Some d => ALWAYS (negb (d =? 0)) | None => Ok false end in
          if there then Ok (TH8_ERROR, complain (text "variable exists:") (fst local) nLocal s)
          else
            let* (d, s) := insert_entry (TFrame 0) key s in
            let* s := write_var (λ v, set_nRef (nRef v + 1) v) r s in
            match d with
            | None => Err NullDeref
            | Some _ => let* s := store_entry (TFrame 0) key r s in Ok (TH8_OK, s)
            end
      end
  end.

(** ** System variables *)

Definition Th8_DeclareSystemVar (nm : cstring) s : res fault (Z * interp I) :=
  let* nName := if snd nm =? TH8_NOLEN then Th8_Strlen (fst nm) else Ok (snd nm) in
  let* key := read (fst nm) nName in
  let '(ok, s) := match paSystemVar s with
                  | Some _ => (true, s)
                  | None => let '(ok, s) := ask ATable s in
                            (ok, if ok then set_paSystemVar (Some Th8_HashNew) s else s)
                  end in
  match paSystemVar s with
  | None => Ok (TH8_ERROR, s)
  | Some h =>
      match Th8_HashFind sd h key 0 true with
      | (Some _, _) => Ok (TH8_OK, set_paSystemVar (Some (set_data sd h key 1)) s)
      | (None, _) =>
          let '(ok, s) := ask AEntry s in
          let '(p, h) := Th8_HashFind sd h key 1 ok in
          Ok (match p with
              | Some _ => (TH8_OK, set_paSystemVar (Some (set_data sd h key 1)) s)
              | None => (TH8_ERROR, set_paSystemVar (Some h) s)
              end)
      end
  end.

(** The scan goes up to a parenthesis or the [n]-th byte. *)
Fixpoint scan_base (z : bytes) (n : Z) : res fault nat :=
  if n <=? 0 then Ok O
  else match z with
       | [] => Err OutOfBounds
       | c :: z' => if c =? "("%ch then Ok O else let* k := scan_base z' (n - 1) in Ok (S k)
       end.

Definition Th8_IsSystemVar (nm : cstring) s : res fault bool :=
  match paSystemVar s with
  | None => Ok false
  | Some h =>
      let* nName := if snd nm =? TH8_NOLEN then Th8_Strlen (fst nm) else Ok (snd nm) in
      let* nBase := scan_base (fst nm) nName in
      Ok (bool_decide (is_Some (fst (Th8_HashFind sd h (take nBase (fst nm)) 0 true))))
  end.

(** ** Lists of names *)

Section listing.
Context (char_signed : bool) (spilornis_ok : Z → bool).

Definition th8AppendHashKeys (p : Th8_HashEntry) (st : (bytes * Z) * I) : Z * ((bytes * Z) * I) :=
  let '(list, i) := st in
  let '(_, list, i) := Th8_ListAppend char_signed spilornis_ok i list (zKey p, zlen (zKey p)) in
  (TH8_OK, (list, i)).

(** The names with a variable that has several references; [m] is memory. *)
Definition th8AppendLinkedHashKeys (m : store I) (p : Th8_HashEntry) (st : res fault ((bytes * Z) * I))
    : Z * res fault ((bytes * Z) * I) :=
  (TH8_OK,
    let* st := st in
    if pData p =? 0 then Ok st
    else let* v := deref (pData p) m in
         if 1 <? nRef v then Ok (snd (th8AppendHashKeys p st)) else Ok st).

Definition append_names (h : Th8_Hash) (list : bytes * Z) s : (bytes * Z) * interp I :=
  let '(list, i) := Th8_HashIterate th8AppendHashKeys (Some h) (list, env s) in (list, set_env i s).

Definition Th8_ListAppendVariables (list : bytes * Z) s : res fault ((bytes * Z) * interp I) :=
  let* h := table_at (TFrame 0) s in Ok (append_names h list s).

Definition Th8_ListAppendGlobalVariables (list : bytes * Z) s : res fault ((bytes * Z) * interp I) :=
  let* h := table_at (TFrame (global_frame s)) s in Ok (append_names h list s).

(** Of the current namespace when no name is given. *)
Definition Th8_ListAppendNsVariables (zNs : bytes) (list : bytes * Z) s : res fault ((bytes * Z) * interp I) :=
  let* (a, s) := if (length zNs =? 0)%nat then Ok (Some (pCurrentNs s), s)
                 else th8FindNamespace sd zNs false s in
  match a with
  | None => Ok (list, s)
  | Some a => let* h := table_at (TNs a) s in Ok (append_names h list s)
  end.

Definition Th8_ListAppendVarLinks (list : bytes * Z) s : res fault ((bytes * Z) * interp I) :=
  let* h := table_at (TFrame 0) s in
  let* (list, i) := Th8_HashIterate (th8AppendLinkedHashKeys (mem s)) (Some h) (Ok (list, env s)) in
  Ok (list, set_env i s).

(** A subscript of the name is ignored. *)
Definition Th8_ListAppendArray (nm : cstring) (list : bytes * Z) s : res fault ((bytes * Z) * interp I) :=
  let* nm := th8AnalyzeVarName nm in
  let* a := find_bare nm s in
  match a with
  | None => Ok (list, s)
  | Some a =>
      let* v := deref a (mem s) in
      match pHash v with None => Ok (list, s) | Some h => Ok (append_names h list s) end
  end.

(** ** Saving the elements of an array and restoring them *)

(** The name of an element and what was saved of its value. *)
Record Th8_SysVarEntry : Type := mkSaved { svName : cstring; svData : option (bytes * Z) }.

Definition saved_value (a : option Z) s : res fault (option (bytes * Z) * interp I) :=
  match a with
  | None => Ok (None, s)
  | Some a =>
      let* v := deref a (mem s) in
      match zData v with
      | None => Ok (None, s)
      | Some z =>
          let n := TH8_LEN (nData v) in
          if 0 <? n then
            let '(ok, s) := ask (ABytes n) s in
            if ok then let* z := read z n in Ok (Some (z, nData v), s) else Ok (None, s)
          else Ok (None, s)
      end
  end.

(** [None]: an append failed, and all was released. *)
Fixpoint save_elements (arr : cstring) (elems : list cstring) s
    : res fault (option (list Th8_SysVarEntry) * interp I) :=
  match elems with
  | [] => Ok (Some [], s)
  | elem :: elems =>
      let '(zFull, i) := append_all (env s) ([], 0) [arr; (["("%ch], 1); elem; ([")"%ch], 1)] in
      let s := set_env i s in
      match zFull with
      | None => Ok (None, s)
      | Some zFull =>
          let* (a, s) := th8FindValue 0 zFull false s in
          let* (d, s) := saved_value a s in
          let* (es, s) := save_elements arr elems s in
          Ok ((λ es, mkSaved zFull d :: es) <$> es, s)
      end
  end.

(** The code, and the handle; NULL when there is nothing to restore. *)
Definition Th8_SaveSystemVar (arr : cstring) s : res fault (Z * option (list Th8_SysVarEntry) * interp I) :=
  let* nArr := if snd arr =? TH8_NOLEN then Th8_Strlen (fst arr) else Ok (snd arr) in
  let arr := (fst arr, nArr) in
  let* (names, s) := Th8_ListAppendArray arr ([], 0) s in
  if (length (fst names) =? 0)%nat then Ok (TH8_OK, None, s)
  else
    let '(rc, out, i) := Th8_SplitList char_signed spilornis_ok true true true true (env s) names in
    let s := set_env i s in
    let elems := match pazElem out, panElem out with
                 | Some (Some es), Some (Some ns) => zip es ns
                 | _, _ => []
                 end in
    if negb (rc =? TH8_OK) then Ok (rc, None, s)
    else if (length elems =? 0)%nat then Ok (rc, None, s)
    else
      let '(ok, s) := ask_all [ABytes 16; ABytes (32 * zlen elems)] s in
      if negb ok then Ok (TH8_ERROR, None, s)
      else
        let* base := read (fst arr) (TH8_LEN nArr) in
        let* (es, s) := save_elements (base, nArr) elems s in
        match es with
        | None => Ok (TH8_ERROR, None, s)
        | Some es => Ok (TH8_OK, Some es, s)
        end.

(** The codes of the stores are not looked at; a value that was not saved is
    restored as the text none. *)
Fixpoint restore_elements (es : list Th8_SysVarEntry) s : res fault (interp I) :=
  match es with
  | [] => Ok s
  | e :: es =>
      let* (_, s) := match svData e with
                     | Some (z, n) =>
                         let* (rc, s) := Th8_SetVar (svName e) (Some z) n s in
                         Ok (rc, on_env (λ i, Th8_Free i z) s)
                     | None => Th8_SetVar (svName e) (Some (text "none" ++ [0])) TH8_NOLEN s
                     end in
      restore_elements es s
  end.

Definition Th8_RestoreSystemVar (pSaved : option (list Th8_SysVarEntry)) s : res fault (Z * interp I) :=
  match pSaved with
  | None => Ok (TH8_OK, s)
  | Some es => let* s := restore_elements es s in Ok (TH8_OK, s)
  end.
End listing.

(** ** Variable references in words *)

(** [th8SubstWord] substitutes the subscript and leaves it as the result. *)
Definition th8SubstVarName (th8SubstWord : bytes → interp I → res fault (Z * interp I)) (zWord : bytes) s
    : res fault (Z * interp I) :=
  match zWord with
  | _ :: 123 :: _ => Th8_GetVar (drop 2 zWord, zlen zWord - 3) s
  | _ :: zName =>
      let i := span (λ c, negb (c =? "("%ch)) zName in
      if (i <? length zName)%nat && match last zName with Some c => c =? ")"%ch | None => false end then
        let* (rc, s) := th8SubstWord (sub (i + 1) (length zName - i - 2) zName) s in
        if negb (rc =? TH8_OK) then Ok (rc, s)
        else
          let '(zRes, nRes) := Th8_GetResult (env s) in
          let '(zFull, i) := append_all (env s) ([], 0)
            [(take i zName, Z.of_nat i); (["("%ch], 1); (zRes, nRes); ([")"%ch], 1)] in
          let s := set_env i s in
          match zFull with
          | None => Ok (TH8_ERROR, s)
          | Some zFull => Th8_GetVar zFull s
          end
      else Th8_GetVar (zName, zlen zName) s
  | [] => Err OutOfBounds
  end.
End vars.
