(* ===== verification/VarInv.v ===== *)
(** * VarInv: the invariant of variables, frames and namespaces.

    Every variable in memory is counted exactly by the entries that hold its
    address; the namespaces form a tree under the global one and the ones that
    wait to be freed. *)

From S2P Require Import Prelude Memory Strings Hash Lists VarTables VarState VarRefs Namespaces Vars.
From stdpp Require Import gmap.
#[local] Open Scope Z_scope.
#[local] Open Scope res_scope.

(** The references of frames and of the variables of namespaces. *)
Definition refs_in (fs : list Th8_Frame) (a : Z) : Z := foldr (λ f n, count a (dict (paVar f)) + n) 0 fs.
Definition ns_vars (a : Z) (nss : gmap Z Th8_Namespace) : Z := msum (λ _ n, count a (dict (nsVar n))) nss.

(** How often a namespace is a child of one that is not among [D]. *)
Definition kid (D : list Z) (a : Z) (k : Z) (n : Th8_Namespace) : Z :=
  if bool_decide (k ∈ D) then 0 else count a (dict (paChild n)).
Definition kids (D : list Z) (a : Z) (nss : gmap Z Th8_Namespace) : Z := msum (kid D a) nss.

Lemma refs_in_nonneg fs a : 0 <= refs_in fs a.
Proof. induction fs as [|f fs IH]; simpl; [lia|]. pose proof (count_nonneg a (dict (paVar f))). lia. Qed.

Lemma refs_in_app fs fs' a : refs_in (fs ++ fs') a = refs_in fs a + refs_in fs' a.
Proof. induction fs as [|f fs IH]; simpl; [done|lia]. Qed.

Lemma ns_vars_nonneg a nss : 0 <= ns_vars a nss.
Proof. apply msum_nonneg. intros. apply count_nonneg. Qed.

Lemma kid_nonneg D a k n : 0 <= kid D a k n.
Proof. unfold kid. case_bool_decide; [lia|apply count_nonneg]. Qed.

Lemma kids_nonneg D a nss : 0 <= kids D a nss.
Proof. apply msum_nonneg. intros. apply kid_nonneg. Qed.

(** The fields of an updated state. *)
Ltac fields := cbn [mem frames saved namespaces pGlobalNs pCurrentNs pPendingNs nEvalDepth paSystemVar
  iArrayHashGeneration set_mem set_frames set_namespaces set_pCurrentNs set_pPendingNs set_nEvalDepth set_paSystemVar
  set_iArrayHashGeneration put_ns heap nNext it set_heap set_it put bump] in *.

Section invariant.
Context (sd : seeds).

Definition tbl_ok (h : Th8_Hash) : Prop := table_ok sd h ∧ ∀ k d, dict h !! k = Some d → 0 <= d.

Lemma tbl_new : tbl_ok Th8_HashNew.
Proof. destruct (table_new sd) as [H Hd]. split; [done|]. intros k d. rewrite Hd. by rewrite lookup_empty. Qed.

(** The entry of a child is under the tail of its name; children are younger. *)
Record ns_node_ok (nss : gmap Z Th8_Namespace) (a : Z) (n : Th8_Namespace) : Prop := {
  nn_child : table_ok sd (paChild n);
  nn_vars : tbl_ok (nsVar n);
  nn_young : ∀ k d, dict (paChild n) !! k = Some d → a < d;
  nn_link : ∀ k d c, dict (paChild n) !! k = Some d → nss !! d = Some c →
    pParent c = a ∧ snd (th8SplitQualName (zName c)) = k
}.

(** [N] counts what holds a namespace besides its parent; the namespaces of
    [D] are being freed, and hold no child. *)
Record ns_ok (D : list Z) (N : Z → Z) (nss : gmap Z Th8_Namespace) (next : Z) : Prop := {
  n_addr : ∀ a n, nss !! a = Some n → 0 < a < next;
  n_node : ∀ a n, nss !! a = Some n → ns_node_ok nss a n;
  n_refs : ∀ a, a ≠ 0 → N a + kids D a nss = if bool_decide (is_Some (nss !! a) ∧ a ∉ D) then 1 else 0;
  n_pos : ∀ a, 0 <= N a ∧ (a = 0 → N a = 0)
}.

Lemma ns_ext D N N' nss next : (∀ a, N' a = N a) → ns_ok D N nss next → ns_ok D N' nss next.
Proof. intros HN [H1 H2 H3 H4]. split; [done..| |]; intros; rewrite HN; auto. Qed.

Lemma ns_live D N nss next a : ns_ok D N nss next → a ≠ 0 → 1 <= N a → is_Some (nss !! a) ∧ a ∉ D.
Proof.
  intros H Ha HN. pose proof (n_refs D N nss next H a Ha) as Hr. pose proof (kids_nonneg D a nss).
  case_bool_decide; [done|lia].
Qed.

Lemma node_weaken nss nss' a n : (∀ d c, nss' !! d = Some c → ∃ c0, nss !! d = Some c0 ∧ pParent c = pParent c0 ∧
  zName c = zName c0) → ns_node_ok nss a n → ns_node_ok nss' a n.
Proof.
  intros Hs [H1 H2 H3 H4]. split; [done..|]. intros k d c Hk Hc.
  destruct (Hs d c Hc) as (c0 & Hc0 & -> & ->). eauto.
Qed.

(** ** Freeing a namespace *)

(** A namespace gives its children up. *)
Lemma ns_dying D N nss next a n : ns_ok D N nss next → nss !! a = Some n → a ∉ D → 1 <= N a →
  ns_ok (a :: D) (λ b, less a N b + count b (dict (paChild n))) nss next.
Proof.
  intros H Hn HD HN. pose proof (n_addr D N nss next H a n Hn) as Ha.
  pose proof (n_node D N nss next H a n Hn) as Hnode. split; [apply H|apply H| |].
  - intros b Hb. pose proof (n_refs D N nss next H b Hb) as Hr.
    unfold kids in *. rewrite (msum_split (kid (a :: D) b) (kid D b) nss a n Hn).
    2: { intros k' v' _ Hk'. unfold kid. by rewrite (bool_decide_ext (k' ∈ a :: D) (k' ∈ D)) by (rewrite elem_of_cons; naive_solver). }
    assert (E1 : kid D b a n = count b (dict (paChild n))) by (unfold kid; by rewrite bool_decide_false).
    assert (E2 : kid (a :: D) b a n = 0) by (unfold kid; rewrite bool_decide_true; [done|by left]).
    unfold less. rewrite E1, E2. destruct (decide (a = b)) as [<-|Hne].
    + rewrite (bool_decide_false (is_Some _ ∧ a ∉ a :: D)) by (rewrite not_elem_of_cons; naive_solver).
      rewrite bool_decide_true in Hr by (rewrite Hn; eauto). lia.
    + rewrite (bool_decide_ext _ (is_Some (nss !! b) ∧ b ∉ D)) by (rewrite not_elem_of_cons; naive_solver). lia.
  - intros b. unfold less. pose proof (n_pos D N nss next H b). pose proof (count_nonneg b (dict (paChild n))).
    assert (Hz : count 0 (dict (paChild n)) = 0).
    { apply count_none. intros k d Hk. pose proof (nn_young _ _ _ Hnode k d Hk). lia. }
    destruct (decide (b = 0)) as [->|]; case_decide; subst; lia.
Qed.

(** And goes. *)
Lemma ns_gone D N nss next a : ns_ok (a :: D) N nss next → a ∉ D → ns_ok D N (delete a nss) next.
Proof.
  intros H HD. split; [| | |apply H].
  - intros b n [_ Hb]%lookup_delete_Some. by apply (n_addr _ _ _ _ H b n).
  - intros b n [_ Hb]%lookup_delete_Some. eapply node_weaken; [|by apply (n_node _ _ _ _ H b n)].
    intros d c [_ Hc]%lookup_delete_Some. eauto.
  - intros b Hb. pose proof (n_refs _ _ _ _ H b Hb) as Hr.
    assert (Hk : kids D b (delete a nss) = kids (a :: D) b nss).
    { unfold kids. destruct (nss !! a) as [n|] eqn:Hn.
      - rewrite (msum_delete (kid (a :: D) b) nss a n Hn). unfold kid at 2. rewrite bool_decide_true by by left.
        apply msum_ext. intros k n' [Hne _]%lookup_delete_Some. unfold kid.
        by rewrite (bool_decide_ext (k ∈ D) (k ∈ a :: D)) by (rewrite elem_of_cons; naive_solver).
      - rewrite delete_id by done. apply msum_ext. intros k n' Hk. unfold kid.
        rewrite (bool_decide_ext (k ∈ D) (k ∈ a :: D)); [done|]. rewrite elem_of_cons.
        assert (k ≠ a) by congruence. naive_solver. }
    rewrite Hk, Hr. rewrite (bool_decide_ext _ (is_Some (delete a nss !! b) ∧ b ∉ D)); [done|]. rewrite not_elem_of_cons.
    destruct (decide (a = b)) as [<-|Hne]; [rewrite lookup_delete_eq|rewrite lookup_delete_ne by done].
    + split; [naive_solver|]. by intros [[? ?] _].
    + naive_solver.
Qed.

Context {I : Type} `{VE : VarEnv I}.
Implicit Types (s : interp I) (m : store I).

(** Memory and namespaces agree, [F] counting the other references. *)
Definition world_ok (D : list Z) (N F : Z → Z) s : Prop :=
  heap_ok sd 0 (λ a, F a + ns_vars a (namespaces s)) (mem s) ∧ (∀ a, 0 < a → 0 <= F a) ∧
  ns_ok D N (namespaces s) (nNext (mem s)).

(** What freeing a namespace comes to. *)
Definition frees (D : list Z) (N F : Z → Z) s (r : res fault (interp I)) : Prop :=
  ∃ m' nss', r = Ok (set_namespaces nss' (set_mem m' s)) ∧
    world_ok D N F (set_namespaces nss' (set_mem m' s)) ∧
    nss' ⊆ namespaces s ∧ (∀ d, d ∈ D → nss' !! d = namespaces s !! d) ∧ freed (mem s) m'.

Lemma visit_children_ok (free : Z → interp I → res fault (interp I)) D F l : ∀ s N,
  world_ok D N F s → (∀ b, held b l <= N b) → (∀ p, p ∈ l → pData p ≠ 0) →
  (∀ p s' N', p ∈ l → nNext (mem s') = nNext (mem s) → world_ok D N' F s' → 1 <= N' (pData p) →
     frees D (less (pData p) N') F s' (free (pData p) s')) →
  frees D (less_all l N) F s (visit (th8FreeChildEntry free) l (Ok s)).
Proof.
  induction l as [|p l IH]; intros s N H HN Hl Hf; cbn [visit].
  - exists (mem s), (namespaces s). split; [by destruct s|].
    destruct H as (H1 & H2 & H3). split_and!; [|done|done|apply freed_refl]. split_and!; [done|done|]. eapply ns_ext; [|exact H3].
    intros a. unfold less_all, held. cbn. lia.
  - cbn [th8FreeChildEntry res_bind]. change (TH8_OK =? TH8_OK) with true. cbn iota.
    assert (Hp : pData p ≠ 0) by (apply Hl; by left). rewrite (proj2 (Z.eqb_neq _ _) Hp).
    destruct (Hf p s N) as (m1 & nss1 & E1 & H1 & Hs1 & HD1 & Hfr1); [by left|done|done| |].
    { pose proof (HN (pData p)) as Hh. rewrite held_cons, decide_True in Hh by done.
      pose proof (held_nonneg (pData p) l). lia. }
    rewrite E1. destruct (IH (set_namespaces nss1 (set_mem m1 s)) (less (pData p) N) H1)
      as (m2 & nss2 & E2 & (H2 & H2' & H2'') & Hs2 & HD2 & Hfr2).
    { intros b. pose proof (HN b) as Hh. rewrite held_cons in Hh. unfold less. lia. }
    { intros q Hq. apply Hl. by right. }
    { intros q s' N' Hq Hn. apply Hf; [by right|]. rewrite Hn. apply Hfr1. }
    exists m2, nss2. split_and!; [exact E2| |..].
    + split_and!; [done|done|]. eapply ns_ext; [|exact H2'']. intros a. unfold less_all, less. rewrite held_cons. lia.
    + by etrans.
    + intros d Hd. by rewrite HD2, HD1.
    + by eapply freed_trans.
Qed.

Lemma free_namespace_ok fuel : ∀ s D N F pNs, world_ok D N F s → pNs ≠ 0 → 1 <= N pNs →
  nNext (mem s) - pNs < Z.of_nat fuel → frees D (less pNs N) F s (th8FreeNamespace fuel pNs s).
Proof.
  induction fuel as [|fuel IH]; intros s D N F pNs H Ha HN Hfuel;
    destruct H as (H1 & H2 & H3); destruct (ns_live _ _ _ _ pNs H3 Ha HN) as [[n Hn] HD].
  { pose proof (n_addr _ _ _ _ H3 pNs n Hn). lia. }
  cbn [th8FreeNamespace]. unfold ns_at. rewrite (proj2 (Z.eqb_neq _ _) Ha), Hn. cbn [res_bind].
  destruct (n_node _ _ _ _ H3 pNs n Hn) as [Hc Hv Hy _].
  pose proof (ns_dying D N _ _ pNs n H3 Hn HD HN) as H3'.
  assert (Hyoung : ∀ p, p ∈ entries (paChild n) → pNs < pData p).
  { intros p Hp. by apply (Hy (zKey p)), entry_dict with sd. }
  pose proof (n_addr _ _ _ _ H3 pNs n Hn) as Hpos.
  destruct (visit_children_ok (th8FreeNamespace fuel) (pNs :: D) F (entries (paChild n)) s
              (λ b, less pNs N b + count b (dict (paChild n)))) as (m1 & nss1 & E1 & (G1 & G2 & G3) & Hs1 & HD1 & Hfr1).
  { done. }
  { intros b. rewrite (held_dict sd b _ Hc). pose proof (n_pos _ _ _ _ H3' b) as Hn0. unfold less in *.
    case_decide; [subst; lia|]. pose proof (n_pos _ _ _ _ H3 b). lia. }
  { intros p Hp. pose proof (Hyoung p Hp). lia. }
  { intros p s' N' Hp Hx Hw HN'. apply IH; [done| |done|]; pose proof (Hyoung p Hp); [lia|]. rewrite Hx. lia. }
  unfold free_children, Th8_HashIterate. fold (entries (paChild n)). rewrite E1. cbn [res_bind].
  set (s1 := set_namespaces nss1 (set_mem m1 s)) in *.
  assert (Hn1 : nss1 !! pNs = Some n) by (rewrite HD1 by (by left); exact Hn).
  destruct (free_table_ok sd (mem (on_env (λ i, th8FreeCommands i pNs) s1)) (λ a, F a + ns_vars a nss1) (nsVar n))
    as (m2 & E2 & G4 & Hfr2).
  { destruct G1 as [A1 A2 A3 A4]. by split. }
  { apply Hv. }
  { intros a Ha'. unfold ns_vars. rewrite (msum_delete _ nss1 pNs n Hn1). pose proof (H2 a Ha').
    pose proof (ns_vars_nonneg a (delete pNs nss1)). unfold ns_vars in *. lia. }
  { apply Hv. }
  rewrite E2. cbn [res_bind]. exists m2, (delete pNs nss1). split; [done|]. unfold world_ok. split_and!.
  - cbn. eapply heap_ext; [|exact G4]. intros a _. unfold ns_vars. rewrite (msum_delete _ nss1 pNs n Hn1). lia.
  - done.
  - cbn. assert (Hx : nNext m2 = nNext m1) by apply Hfr2. rewrite Hx. eapply ns_ext; [|apply ns_gone; [exact G3|done]].
    intros a. unfold less_all. rewrite (held_dict sd a _ Hc). lia.
  - etrans; [apply delete_subseteq|done].
  - intros d Hd. rewrite lookup_delete_ne by congruence. apply HD1. by right.
  - eapply freed_trans; [exact Hfr1|]. destruct Hfr2 as [A B]. split; [exact A|exact B].
Qed.

(** ** The invariant *)

(** What the names of namespaces are made of: without a colon at the end and
    without a NUL. *)
Definition path_ok (z : bytes) : Prop := last z ≠ Some COLON ∧ 0 ∉ z.

Definition all_frames s : list Th8_Frame := frames s ++ concat (saved s).
Definition frame_ok s (f : Th8_Frame) : Prop := tbl_ok (paVar f) ∧ is_Some (namespaces s !! pNs f).
Definition waiting (l : list Z) (a : Z) : Z := Z.of_nat (length (filter (λ b, b = a) l)).
Definition ns_roots s (a : Z) : Z := (if decide (a = pGlobalNs s) then 1 else 0) + waiting (pPendingNs s) a.

(** [E] counts the references in the hands of the code, [x] is the floor of
    [heap_ok]. *)
Record inv (x : Z) (E : Z → Z) s : Prop := {
  i_heap : heap_ok sd x (λ a, refs_in (all_frames s) a + E a + ns_vars a (namespaces s)) (mem s);
  i_live : ∀ a v, heap (mem s) !! a = Some v → 1 <= nRef v;
  i_frames : Forall (frame_ok s) (all_frames s);
  i_global : frames s ≠ [];
  i_ns : ns_ok [] (ns_roots s) (namespaces s) (nNext (mem s));
  i_here : is_Some (namespaces s !! pCurrentNs s) ∧ is_Some (namespaces s !! pGlobalNs s);
  i_sys : match paSystemVar s with Some h => table_ok sd h | None => True end;
  i_names : ∀ a n, namespaces s !! a = Some n → a ≠ pGlobalNs s → path_ok (zName n)
}.

Lemma inv_ext x E E' s : (∀ a, a ≠ 0 → E' a = E a) → inv x E s → inv x E' s.
Proof.
  intros HE [H1 H2 H3 H4 H5 H6 H7 H8]. split; [|done..]. eapply heap_ext; [|exact H1].
  intros a Ha. cbn beta. rewrite (HE a Ha). lia.
Qed.

Lemma heap_floor x y R m : x <= y → heap_ok sd x R m → heap_ok sd y R m.
Proof. intros Hx [H1 H2 H3 H4]. split; [done..|]. intros a Ha Hy. apply H4; [done|lia]. Qed.

Lemma inv_floor x y E s : x <= y → inv x E s → inv y E s.
Proof. intros Hx [H1 H2 H3 H4 H5 H6 H7 H8]. split; [by eapply heap_floor|done..]. Qed.

(** What the environment does does not matter. *)
Lemma inv_env x E s i : inv x E s → inv x E (set_env i s).
Proof. intros [[A1 A2 A3 A4] H2 H3 H4 H5 H6 H7 H8]. by split. Qed.

Lemma inv_ask x E s site b s' : ask site s = (b, s') → inv x E s → inv x E s' ∧ ∃ i, s' = set_env i s.
Proof.
  unfold ask. destruct (var_alloc (env s) site) as [ok i]. intros [= <- <-] H. split; [by apply inv_env|eauto].
Qed.

(** ** Tables *)

Definition elder (t : tref) (d : Z) : Prop := match t with TVar a => d = 0 ∨ a < d | _ => True end.

Lemma table_ok_at x E s t h : inv x E s → table_at t s = Ok h →
  tbl_ok h ∧ ∀ k d, dict h !! k = Some d → elder t d.
Proof.
  intros H. destruct t as [k|a|a]; cbn [table_at elder].
  - destruct (frames s !! k) as [f|] eqn:Ef; [|done]. intros [= <-]. split; [|done].
    pose proof (i_frames x E s H) as Hf. unfold all_frames in Hf. apply Forall_app in Hf as [Hf _].
    by apply (Forall_lookup_1 _ _ _ _ Hf Ef).
  - unfold ns_at. destruct (a =? 0); [done|]. destruct (namespaces s !! a) as [n|] eqn:En; [|done].
    intros [= <-]. split; [|done]. apply (n_node _ _ _ _ (i_ns x E s H) a n En).
  - unfold deref. destruct (a =? 0) eqn:Ea; [done|]. destruct (heap (mem s) !! a) as [v|] eqn:Ev; [|done]. cbn [res_bind].
    destruct (pHash v) as [h'|] eqn:Eh; [|done]. intros [= <-].
    destruct (h_vars _ _ _ _ (i_heap x E s H) a v Ev) as (_ & _ & Ha). destruct (Ha h' Eh) as (_ & Ht & Hy).
    pose proof (h_addr _ _ _ _ (i_heap x E s H) a v Ev). split; [|done]. split; [done|].
    intros k d Hd. destruct (Hy k d Hd); lia.
Qed.

Lemma refs_in_alter fs k f h a : fs !! k = Some f →
  refs_in (alter (λ f, mkFrame h (pNs f)) k fs) a = refs_in fs a - count a (dict (paVar f)) + count a (dict h).
Proof.
  assert (Hc : ∀ g gs, refs_in (g :: gs) a = count a (dict (paVar g)) + refs_in gs a) by done.
  revert k. induction fs as [|g fs IH]; intros [|k] Hf; [done..| |].
  - injection Hf as ->. cbn [alter list_alter]. rewrite !Hc. cbn [paVar]. lia.
  - cbn [alter list_alter]. rewrite !Hc. rewrite (IH k Hf). lia.
Qed.

Lemma put_frame_ok x E E' s k f h : inv x E s → frames s !! k = Some f → tbl_ok h →
  (∀ a, a ≠ 0 → E' a = E a + count a (dict (paVar f)) - count a (dict h)) →
  inv x E' (set_frames (alter (λ f, mkFrame h (pNs f)) k (frames s)) (saved s) s).
Proof.
  intros H Hf Hh HE. destruct H as [H1 H2 H3 H4 H5 H6 H7 H8]. split; fields; [|done| | |done..].
  - eapply heap_ext; [|exact H1]. intros a Ha. cbn beta. unfold all_frames. fields.
    rewrite !refs_in_app, (refs_in_alter _ _ _ _ _ Hf), (HE a Ha). lia.
  - unfold all_frames in *. fields. apply Forall_app in H3 as [H3 H3']. apply Forall_app. split; [|exact H3'].
    apply Forall_alter; [exact H3|]. intros g Hg [_ Hn]. by split.
  - intros Hnil. apply (f_equal length) in Hnil. rewrite length_alter in Hnil. by destruct (frames s).
Qed.

Lemma ns_put_vars D N nss next a n h : ns_ok D N nss next → nss !! a = Some n → tbl_ok h →
  ns_ok D N (<[a := set_nsVar h n]> nss) next.
Proof.
  intros H Hn Hh. assert (Hw : ∀ d c, <[a := set_nsVar h n]> nss !! d = Some c → ∃ c0, nss !! d = Some c0 ∧
    pParent c = pParent c0 ∧ zName c = zName c0).
  { intros d c [[<- <-]|[_ Hd]]%lookup_insert_Some; eauto. }
  split; [| | |apply H].
  - intros b m [[<- <-]|[_ Hb]]%lookup_insert_Some; [by apply (n_addr _ _ _ _ H a n)|by apply (n_addr _ _ _ _ H b m)].
  - intros b m [[<- <-]|[_ Hb]]%lookup_insert_Some; [|by eapply node_weaken; [|apply (n_node _ _ _ _ H b m)]].
    destruct (node_weaken _ _ _ _ Hw (n_node _ _ _ _ H a n Hn)) as [A1 A2 A3 A4]. by split.
  - intros b Hb. pose proof (n_refs _ _ _ _ H b Hb) as Hr. unfold kids in *.
    rewrite (msum_update _ nss a n _ Hn). unfold kid at 2 3. cbn [set_nsVar paChild].
    rewrite (bool_decide_ext (is_Some (<[a:=set_nsVar h n]> nss !! b) ∧ b ∉ D) (is_Some (nss !! b) ∧ b ∉ D)); [lia|].
    destruct (decide (a = b)) as [<-|Hne]; [rewrite lookup_insert_eq, Hn; naive_solver|by rewrite lookup_insert_ne].
Qed.

Lemma put_ns_vars_ok x E E' s b n h : inv x E s → namespaces s !! b = Some n → tbl_ok h →
  (∀ a, a ≠ 0 → E' a = E a + count a (dict (nsVar n)) - count a (dict h)) →
  inv x E' (put_ns b (set_nsVar h n) s).
Proof.
  intros H Hn Hh HE. destruct H as [H1 H2 H3 H4 H5 H6 H7 H8].
  assert (Hs : ∀ c, is_Some (<[b := set_nsVar h n]> (namespaces s) !! c) ↔ is_Some (namespaces s !! c)).
  { intros c. destruct (decide (b = c)) as [<-|Hne]; [rewrite lookup_insert_eq, Hn; naive_solver|by rewrite lookup_insert_ne]. }
  split; fields; [|done| |done| | |done|].
  - eapply heap_ext; [|exact H1]. intros a Ha. cbn beta. unfold ns_vars.
    rewrite (msum_update _ (namespaces s) b n _ Hn), (HE a Ha). cbn [nsVar set_nsVar]. unfold all_frames. fields. lia.
  - eapply Forall_impl; [exact H3|]. intros f [Hf Hf']. split; [done|]. fields. by apply Hs.
  - by apply ns_put_vars.
  - by rewrite !Hs.
  - intros a m [[<- <-]|[_ Ha]]%lookup_insert_Some Hg; [by apply (H8 b n)|by apply (H8 a m)].
Qed.

(** Another state of a variable. *)
Lemma heap_put x y R R' m b v v' : heap_ok sd x R m → heap m !! b = Some v →
  0 <= nRef v' → value_ok v' → array_ok sd b v' →
  (∀ a, a ≠ 0 → R' a = R a + weight a v - weight a v' + (if decide (a = b) then nRef v' - nRef v else 0)) →
  (∀ a, a ≠ 0 → y < a → 0 <= R' a) → heap_ok sd y R' (put b v' m).
Proof.
  intros H Hv Hn Hval Harr HR Hpos. split; fields; [..|done].
  - intros a w [[<- <-]|[_ Ha]]%lookup_insert_Some; [by apply (h_addr _ x R m H b v)|by apply (h_addr _ x R m H a w)].
  - intros a w [[<- <-]|[_ Ha]]%lookup_insert_Some; [done|by apply (h_vars _ x R m H a w)].
  - intros a Ha. unfold elem_refs. rewrite (msum_update _ (heap m) b v v' Hv). fold (elem_refs a (heap m)).
    pose proof (h_refs _ x R m H a Ha) as Hr. pose proof (HR a Ha) as HRa.
    destruct (decide (a = b)) as [->|Hne].
    + rewrite lookup_insert_eq. rewrite Hv in Hr. lia.
    + rewrite lookup_insert_ne by done. lia.
Qed.

(** Changing a variable's content, not its references or elements. *)
Lemma write_content_ok x E s b v v' : inv x E s → heap (mem s) !! b = Some v → nRef v' = nRef v → pHash v' = pHash v →
  value_ok v' → (is_Some (pHash v) → zData v' = None) → inv x E (set_mem (put b v' (mem s)) s).
Proof.
  intros H Hv Hn Hp Hval Harr. destruct H as [H1 H2 H3 H4 H5 H6 H7 H8].
  destruct (h_vars _ _ _ _ H1 b v Hv) as (Hn0 & _ & Ha0).
  split; fields; [| |done..].
  - eapply heap_put; [exact H1|exact Hv|lia|done| |intros a Ha|].
    + intros h Hh. rewrite Hp in Hh. destruct (Ha0 h Hh) as (_ & Ht). split; [apply Harr; eauto|done].
    + assert (Hw : weight a v' = weight a v) by (unfold weight; by rewrite Hn, Hp).
      unfold all_frames. fields. rewrite Hw. case_decide; lia.
    + exact (h_pos _ _ _ _ H1).
  - intros a w [[<- <-]|[_ Ha]]%lookup_insert_Some; [rewrite Hn; by apply (H2 b v)|by apply (H2 a w)].
Qed.

(** One more reference, in the hands of the code. *)
Lemma grab_ok E s b v : inv 0 E s → heap (mem s) !! b = Some v →
  inv 0 (λ a, E a + (if decide (a = b) then 1 else 0)) (set_mem (put b (set_nRef (nRef v + 1) v) (mem s)) s).
Proof.
  intros H Hv. pose proof (i_live 0 E s H b v Hv) as Hn. destruct H as [H1 H2 H3 H4 H5 H6 H7 H8].
  destruct (h_vars _ _ _ _ H1 b v Hv) as (Hn0 & Hval & Ha0).
  split; fields; [| |done..].
  - eapply heap_put; [exact H1|exact Hv|cbn; lia|done|done|intros a Ha|].
    + assert (Hw : weight a (set_nRef (nRef v + 1) v) = weight a v).
      { unfold weight. cbn [set_nRef nRef pHash]. by replace (0 <? nRef v + 1) with (0 <? nRef v) by lia. }
      unfold all_frames. fields. rewrite Hw. cbn [set_nRef nRef]. case_decide; lia.
    + intros a Ha Hx. pose proof (h_pos _ _ _ _ H1 a Ha Hx). unfold all_frames in *. fields. case_decide; lia.
  - intros a w [[<- <-]|[_ Ha]]%lookup_insert_Some; [cbn; lia|by apply (H2 a w)].
Qed.

Lemma put_elements_ok x E E' s b v h h' : inv x E s → heap (mem s) !! b = Some v → pHash v = Some h → tbl_ok h' →
  (∀ k d, dict h' !! k = Some d → d = 0 ∨ b < d) →
  (∀ a, a ≠ 0 → E' a = E a + count a (dict h) - count a (dict h')) → (∀ a, 0 < a → 0 <= E' a) →
  inv 0 E' (set_mem (put b (set_pHash h' v) (mem s)) s).
Proof.
  intros H Hv Hh Hh' Hy HE Hpos. pose proof (i_live x E s H b v Hv) as Hn. destruct H as [H1 H2 H3 H4 H5 H6 H7 H8].
  destruct (h_vars _ _ _ _ H1 b v Hv) as (Hn0 & Hval & Ha0). destruct (Ha0 h Hh) as (Hz & _).
  split; fields; [| |done..].
  - eapply heap_put; [exact H1|exact Hv|exact Hn0|done| |intros a Ha|intros a Ha Hx].
    + intros h0 [= <-]. cbn. split_and!; [done|apply Hh'|done].
    + assert (Hw : weight a v = count a (dict h)) by (unfold weight; rewrite Hh; by replace (0 <? nRef v) with true by lia).
      assert (Hw' : weight a (set_pHash h' v) = count a (dict h'))
        by (unfold weight; cbn; by replace (0 <? nRef v) with true by lia).
      unfold all_frames. fields. rewrite Hw, Hw', (HE a Ha). cbn [set_pHash nRef]. case_decide; lia.
    + pose proof (Hpos a ltac:(lia)). unfold all_frames. fields.
      pose proof (refs_in_nonneg (frames s ++ concat (saved s)) a). pose proof (ns_vars_nonneg a (namespaces s)). lia.
  - intros a w [[<- <-]|[_ Ha]]%lookup_insert_Some; [done|by apply (H2 a w)].
Qed.

Lemma inv_settle x E s : inv x E s → (∀ a, 0 < a → 0 <= E a) → inv 0 E s.
Proof.
  intros [H1 H2 H3 H4 H5 H6 H7 H8] HE. split; [|done..]. destruct H1 as [A1 A2 A3 A4]. split; [done..|].
  intros a Ha Hx. pose proof (HE a Hx). pose proof (refs_in_nonneg (all_frames s) a).
  pose proof (ns_vars_nonneg a (namespaces s)). lia.
Qed.

(** A table of the state is replaced: its references come to the code or leave
    it. *)
Lemma put_table_ok x E E' s t h h' : inv x E s → table_at t s = Ok h → tbl_ok h' →
  (∀ k d, dict h' !! k = Some d → elder t d) →
  (∀ a, a ≠ 0 → E' a = E a + count a (dict h) - count a (dict h')) → (∀ a, 0 < a → 0 <= E' a) →
  ∃ s', put_table t h' s = Ok s' ∧ inv 0 E' s'.
Proof.
  intros H Ht Hh' Hy HE Hpos. destruct t as [k|b|b]; cbn [table_at put_table elder] in *.
  - destruct (frames s !! k) as [f|] eqn:Ef; [|done]. injection Ht as <-. eexists. split; [done|].
    eapply inv_settle; [by eapply put_frame_ok|done].
  - unfold ns_at in *. destruct (b =? 0); [done|]. destruct (namespaces s !! b) as [n|] eqn:En; [|done].
    cbn [res_bind] in *. injection Ht as <-. eexists. split; [done|].
    eapply inv_settle; [by eapply put_ns_vars_ok|done].
  - unfold alter_var, deref in *. destruct (b =? 0); [done|]. destruct (heap (mem s) !! b) as [v|] eqn:Ev; [|done].
    cbn [res_bind] in *. destruct (pHash v) as [h0|] eqn:Eh; [|done]. injection Ht as ->.
    eexists. split; [done|]. by eapply put_elements_ok.
Qed.

(** ** New addresses *)

Lemma ns_next D N nss next next' : next <= next' → ns_ok D N nss next → ns_ok D N nss next'.
Proof. intros Hn [H1 H2 H3 H4]. split; [|done..]. intros a n Ha. pose proof (H1 a n Ha). lia. Qed.

Lemma inv_bump x E s : inv x E s → inv x E (set_mem (bump (mem s)) s).
Proof.
  intros [[A1 A2 A3 A4] H2 H3 H4 H5 H6 H7 H8]. split; fields; [|done|done|done| |done..].
  - split; fields; [|done..]. intros a v Ha. pose proof (A1 a v Ha). lia.
  - eapply ns_next; [|done]. lia.
Qed.

Lemma next_pos x E s : inv x E s → 0 < nNext (mem s).
Proof. intros H. destruct (i_here x E s H) as [[n Hn] _]. pose proof (n_addr _ _ _ _ (i_ns x E s H) _ n Hn). lia. Qed.

Lemma next_free x E s : inv x E s → heap (mem s) !! nNext (mem s) = None ∧ namespaces s !! nNext (mem s) = None.
Proof.
  intros H. split.
  - destruct (heap (mem s) !! _) as [v|] eqn:Hv; [|done]. pose proof (h_addr _ _ _ _ (i_heap x E s H) _ v Hv). lia.
  - destruct (namespaces s !! _) as [n|] eqn:Hn; [|done]. pose proof (n_addr _ _ _ _ (i_ns x E s H) _ n Hn). lia.
Qed.

(** A new variable, whose reference the code holds. *)
Lemma new_var_ok E s : inv 0 E s →
  inv 0 (λ a, E a + (if decide (a = nNext (mem s)) then 1 else 0))
    (set_mem (bump (put (nNext (mem s)) new_variable (mem s))) s).
Proof.
  intros H. destruct (next_free 0 E s H) as [Hv _]. pose proof (next_pos 0 E s H) as Hp.
  destruct H as [[A1 A2 A3 A4] H2 H3 H4 H5 H6 H7 H8]. split; fields; [| |done|done| |done..].
  - split; fields.
    + intros a v [[<- <-]|[_ Ha]]%lookup_insert_Some; [lia|]. pose proof (A1 a v Ha). lia.
    + intros a v [[<- <-]|[_ Ha]]%lookup_insert_Some; [|by apply A2].
      unfold value_ok, array_ok. cbn. split_and!; [lia|lia|done|done|done].
    + intros a Ha. unfold elem_refs. rewrite msum_insert by done. unfold weight at 1. cbn [new_variable pHash nRef Z.ltb Z.compare].
      fold (elem_refs a (heap (mem s))). pose proof (A3 a Ha) as Hr. unfold all_frames in *. fields.
      destruct (decide (a = nNext (mem s))) as [->|Hne].
      * rewrite lookup_insert_eq. rewrite Hv in Hr. cbn [new_variable nRef]. lia.
      * rewrite lookup_insert_ne by done. lia.
    + intros a Ha Hx. pose proof (A4 a Ha Hx). unfold all_frames in *. fields. case_decide; lia.
  - intros a v [[<- <-]|[_ Ha]]%lookup_insert_Some; [done|by apply (H2 a v)].
  - eapply ns_next; [|done]. lia.
Qed.

(** ** Releasing a reference *)

Definition var_roots (E : Z → Z) s (a : Z) : Z := refs_in (all_frames s) a + E a + ns_vars a (namespaces s).

Lemma free_var_ok x E s a v : inv x E s → heap (mem s) !! a = Some v → 0 <= x <= a →
  (x < a → 1 <= var_roots E s a) →
  ∃ m', free_variable a (mem s) = Ok m' ∧ inv x (less a E) (set_mem m' s) ∧ freed (mem s) m'.
Proof.
  intros H Hv Hx HR. pose proof (i_live x E s H a v Hv) as Hn. destruct H as [H1 H2 H3 H4 H5 H6 H7 H8].
  destruct (free_variable_ok sd x (mem s) _ a v H1 Hv Hn Hx HR) as (m' & E1 & H1' & Hfr).
  exists m'. split_and!; [done| |done]. split; fields; [| |done|done| |done..].
  - eapply heap_ext; [|exact H1']. intros b Hb. unfold less, all_frames. fields. lia.
  - intros b w Hw. destruct Hfr as [_ Hfr]. destruct (Hfr b w Hw) as (w0 & Hw0 & _ & _ & Hz).
    pose proof (H2 b w0 Hw0). destruct (h_vars _ _ _ _ H1' b w Hw) as (Hnn & _). lia.
  - destruct Hfr as [-> _]. done.
Qed.
End invariant.
