(* ===== verification/NsTree.v ===== *)
(** * NsTree: walking the tree of namespaces keeps the invariant.

    A name is found again under the component it was made with; a walk that
    creates namespaces and then fails leaves the tree as it was. *)

From S2P Require Import Prelude Memory Strings Hash Lists VarTables VarState VarRefs Namespaces Vars VarInv.
From stdpp Require Import gmap.
#[local] Open Scope Z_scope.
#[local] Open Scope res_scope.

(** ** Names *)

(** A component: not empty, without two colons. *)
Definition component (z : bytes) : Prop := z ≠ [] ∧ comp_len z = length z.

Lemma comp_len_le z : (comp_len z <= length z)%nat.
Proof. induction z as [|c z IH]; simpl; [lia|]. case_if; lia. Qed.

Lemma comp_take z : comp_len (take (comp_len z) z) = length (take (comp_len z) z).
Proof.
  induction z as [|c z IH]; [done|]. simpl. destruct ((c =? COLON) && next_is COLON z) eqn:E; [done|].
  simpl. destruct ((c =? COLON) && next_is COLON (take (comp_len z) z)) eqn:E2; [|by rewrite IH].
  apply andb_true_iff in E2 as [E2 E3]. rewrite E2 in E. cbn in E.
  destruct z as [|d z]; [discriminate E3|]. destruct (comp_len (d :: z)); [discriminate E3|].
  cbn [take next_is] in E3, E. congruence.
Qed.

Lemma last_of_drop (z : bytes) n : (n < length z)%nat → last (drop n z) = last z.
Proof.
  intros Hn. rewrite !last_lookup, length_drop, lookup_drop. f_equal. lia.
Qed.

(** A component that is not the end of the path does not end in a colon. *)
Lemma comp_last z : (comp_len z < length z)%nat → last (take (comp_len z) z) ≠ Some COLON.
Proof.
  induction z as [|c z IH]; simpl; [lia|].
  destruct ((c =? COLON) && next_is COLON z) eqn:E; [done|]. intros Hl. cbn [take].
  destruct (comp_len z) as [|k] eqn:Ek.
  - cbn. intros [= ->]. cbn in E. destruct z as [|d z]; [simpl in Hl; lia|]. cbn in Ek, E.
    case_if_in Ek; [|done]. bool_to_prop. congruence.
  - specialize (IH ltac:(lia)). destruct z as [|d z]; [simpl in Hl; lia|]. cbn [take] in *.
    rewrite last_cons. destruct (last (d :: take k z)) eqn:E1; [done|]. by apply last_None in E1.
Qed.

Lemma last_sep_none z : component z → ∀ i, last_sep z = Some i → False.
Proof.
  intros [_ H]. induction z as [|c z IH]; intros i; [done|]. simpl in *.
  case_if_in H; [done|]. destruct (last_sep z) as [j|]; [|done]. intros _. apply (IH ltac:(lia) j). done.
Qed.

Lemma last_sep_app p z : last_sep z = None → last_sep (p ++ COLON :: COLON :: z) =
  Some (length p + (if next_is COLON z then 1 else 0))%nat.
Proof.
  intros Hz. induction p as [|c p IH].
  - cbn. rewrite Hz. destruct z as [|d z]; cbn; [done|]. by destruct (d =? COLON).
  - cbn [app last_sep]. rewrite IH. cbn. f_equal. 
Qed.

Lemma back_up_stop p z : last p ≠ Some COLON → back_up (p ++ z) (length p) = length p.
Proof.
  intros Hp. destruct p as [|c p] using rev_ind; [done|]. rewrite length_app, Nat.add_1_r. cbn [back_up].
  rewrite last_snoc in Hp. rewrite <- app_assoc, app_nth2, Nat.sub_diag by lia. cbn.
  by rewrite (proj2 (Z.eqb_neq c COLON)) by congruence.
Qed.

(** The tail of a name is its last component. *)
Lemma split_full p z : component z → last p ≠ Some COLON → snd (th8SplitQualName (p ++ text "::" ++ z)) = z.
Proof.
  intros Hz Hp. unfold th8SplitQualName. change (text "::") with [COLON; COLON]. cbn [app].
  assert (Hl : last_sep z = None).
  { destruct (last_sep z) as [i|] eqn:E; [|done]. by destruct (last_sep_none z Hz i E). }
  rewrite (last_sep_app p z Hl).
  assert (Hb : back_up (p ++ COLON :: COLON :: z) (length p + (if next_is COLON z then 1 else 0)) = length p).
  { destruct (next_is COLON z); [|rewrite Nat.add_0_r; by apply back_up_stop].
    rewrite Nat.add_1_r. cbn [back_up]. rewrite app_nth2, Nat.sub_diag by lia. cbn. by apply back_up_stop. }
  rewrite Hb. cbn. rewrite drop_app_ge by lia. by replace (length p + 2 - length p)%nat with 2%nat by lia.
Qed.

Lemma nul_drop (z : bytes) n : 0 ∉ z → 0 ∉ drop n z.
Proof. intros H. rewrite <- (take_drop n z), not_elem_of_app in H. apply H. Qed.
Lemma nul_take (z : bytes) n : 0 ∉ z → 0 ∉ take n z.
Proof. intros H. rewrite <- (take_drop n z), not_elem_of_app in H. apply H. Qed.

Lemma path_drop z n : path_ok z → path_ok (drop n z).
Proof.
  intros [Hl Hz]. split; [|by apply nul_drop]. destruct (decide (n < length z)%nat); [by rewrite last_of_drop|].
  by rewrite drop_ge by lia.
Qed.

Lemma cstr_id z : 0 ∉ z → cstr z = z.
Proof.
  intros Hz. unfold cstr. apply take_ge. induction z as [|c z IH]; [done|]. apply not_elem_of_cons in Hz as [Hc Hz].
  cbn [span]. rewrite (proj2 (Z.eqb_neq c 0)) by congruence. cbn. specialize (IH Hz). lia.
Qed.

(** ** The tree *)

Section tree.
Context (sd : seeds) {I : Type} `{VE : VarEnv I}.
Implicit Types (s : interp I).

(** Nothing but the namespaces, the next address and the environment. *)
Record outside s s' : Prop := {
  o_heap : heap (mem s') = heap (mem s);
  o_next : nNext (mem s) <= nNext (mem s');
  o_frames : frames s' = frames s;
  o_saved : saved s' = saved s;
  o_glob : pGlobalNs s' = pGlobalNs s;
  o_cur : pCurrentNs s' = pCurrentNs s;
  o_pending : pPendingNs s' = pPendingNs s;
  o_depth : nEvalDepth s' = nEvalDepth s;
  o_sys : paSystemVar s' = paSystemVar s;
  o_gen : iArrayHashGeneration s' = iArrayHashGeneration s
}.

Lemma outside_refl s : outside s s.
Proof. by split. Qed.
Lemma outside_trans s1 s2 s3 : outside s1 s2 → outside s2 s3 → outside s1 s3.
Proof. intros [] []. split; [congruence|lia|congruence..]. Qed.
Lemma outside_env s i : outside s (set_env i s).
Proof. by split. Qed.

(** Namespaces are kept, with their children. *)
Definition kids_sub (nss nss' : gmap Z Th8_Namespace) : Prop :=
  ∀ a n, nss !! a = Some n → ∃ n', nss' !! a = Some n' ∧
    ∀ k d, dict (paChild n) !! k = Some d → dict (paChild n') !! k = Some d.

(** And their variables are as they were. *)
Definition tree_sub (nss nss' : gmap Z Th8_Namespace) : Prop :=
  ∀ a n, nss !! a = Some n → ∃ n', nss' !! a = Some n' ∧ nsVar n' = nsVar n ∧
    ∀ k d, dict (paChild n) !! k = Some d → dict (paChild n') !! k = Some d.

Lemma tree_sub_kids nss nss' : tree_sub nss nss' → kids_sub nss nss'.
Proof. intros H a n Ha. destruct (H a n Ha) as (n' & ? & _ & ?). eauto. Qed.

Lemma tree_sub_refl nss : tree_sub nss nss.
Proof. intros a n Ha. eauto. Qed.
Lemma tree_sub_trans nss1 nss2 nss3 : tree_sub nss1 nss2 → tree_sub nss2 nss3 → tree_sub nss1 nss3.
Proof.
  intros H1 H2 a n1 Ha. destruct (H1 a n1 Ha) as (n2 & Hn2 & E2 & K2).
  destruct (H2 a n2 Hn2) as (n3 & Hn3 & E3 & K3). exists n3. split_and!; [done|congruence|auto].
Qed.

Lemma ask_all_outside sites : ∀ s b s', ask_all sites s = (b, s') → ∃ i, s' = set_env i s.
Proof.
  induction sites as [|site sites IH]; intros s b s'; cbn [ask_all].
  - intros [= _ <-]. exists (env s). by destruct s as [[]].
  - unfold ask. destruct (var_alloc (env s) site) as [ok i]. destruct ok; [|intros [= _ <-]; eauto].
    intros E. destruct (IH _ _ _ E) as [i' ->]. exists i'. done.
Qed.

(** The state with a new child. *)
Definition child_of (pNs c : Z) (n : Th8_Namespace) (h : Th8_Hash) (zFull : bytes) (nss : gmap Z Th8_Namespace) :=
  <[pNs := set_paChild h n]> (<[c := mkNs zFull pNs (nDepth n + 1) Th8_HashNew Th8_HashNew]> nss).

Lemma child_sub pNs c n h zFull zComp nss : nss !! pNs = Some n → nss !! c = None →
  dict (paChild n) !! zComp = None → dict h = <[zComp := c]> (dict (paChild n)) →
  tree_sub nss (child_of pNs c n h zFull nss).
Proof.
  intros Hn Hc Hk Hh a m Ha. unfold child_of. destruct (decide (pNs = a)) as [<-|Hne].
  - rewrite lookup_insert_eq. eexists. split; [done|]. assert (m = n) as -> by congruence. split; [done|].
    intros k d Hd. cbn. rewrite Hh, lookup_insert_ne; [done|congruence].
  - rewrite !lookup_insert_ne by congruence. eauto.
Qed.

Lemma kids_positive nss p n k a : nss !! p = Some n → dict (paChild n) !! k = Some a → 1 <= kids [] a nss.
Proof.
  intros Hp Hk. unfold kids. rewrite (msum_delete _ nss p n Hp). unfold kid at 1. rewrite bool_decide_false by apply not_elem_of_nil.
  pose proof (count_positive a _ k Hk). pose proof (kids_nonneg [] a (delete p nss)). unfold kids in *. lia.
Qed.

Lemma child_ns_ok N pNs n c h zFull zComp nss : ns_ok sd [] N nss c → nss !! pNs = Some n → nss !! c = None →
  dict (paChild n) !! zComp = None → snd (th8SplitQualName zFull) = zComp →
  table_ok sd h → dict h = <[zComp := c]> (dict (paChild n)) →
  ns_ok sd [] N (child_of pNs c n h zFull nss) (c + 1).
Proof.
  intros H Hn Hc Hk Hz Hh Hd. pose proof (n_addr _ _ _ _ _ H pNs n Hn) as Hpa.
  destruct (table_new sd) as [_ Hnew].
  assert (Hnode : ∀ a m, child_of pNs c n h zFull nss !! a = Some m →
    (a = pNs ∧ m = set_paChild h n) ∨ (a = c ∧ m = mkNs zFull pNs (nDepth n + 1) Th8_HashNew Th8_HashNew) ∨
    (a ≠ pNs ∧ a ≠ c ∧ nss !! a = Some m)).
  { intros a m Hm. unfold child_of in Hm.
    apply lookup_insert_Some in Hm as [[<- <-]|[Hne [[<- <-]|[Hne' Ha]]%lookup_insert_Some]]; auto. }
  assert (Hkid : ∀ k d, dict h !! k = Some d → (k = zComp ∧ d = c) ∨ dict (paChild n) !! k = Some d).
  { intros k d. rewrite Hd. intros [[<- <-]|[_ ?]]%lookup_insert_Some; auto. }
  assert (Hyoung : ∀ a m k d, nss !! a = Some m → dict (paChild m) !! k = Some d → a < d ∧ d ≠ c).
  { intros a m k d Ha Hm. pose proof (nn_young _ _ _ _ (n_node _ _ _ _ _ H a m Ha) k d Hm) as Hy. split; [done|].
    intros ->. pose proof (kids_positive nss a m k c Ha Hm).
    pose proof (n_refs _ _ _ _ _ H c ltac:(lia)) as Hr. rewrite Hc, bool_decide_false in Hr by naive_solver.
    pose proof (n_pos _ _ _ _ _ H c). lia. }
  assert (Hlink : ∀ a m k d w, nss !! a = Some m → dict (paChild m) !! k = Some d →
    child_of pNs c n h zFull nss !! d = Some w → pParent w = a ∧ snd (th8SplitQualName (zName w)) = k).
  { intros a m k d w Ha Hm Hw. destruct (Hyoung a m k d Ha Hm) as [_ Hdc].
    pose proof (nn_link _ _ _ _ (n_node _ _ _ _ _ H a m Ha) k d) as Hl.
    destruct (Hnode d w Hw) as [[-> ->]|[[-> ->]|(Hd1 & Hd2 & Hd3)]]; [|done|by apply Hl].
    apply (Hl n Hm Hn). }
  split.
  - intros a m Hm. destruct (Hnode a m Hm) as [[-> ->]|[[-> ->]|(_ & _ & Ha)]]; [lia|lia|].
    pose proof (n_addr _ _ _ _ _ H a m Ha). lia.
  - intros a m Hm. destruct (Hnode a m Hm) as [[-> ->]|[[-> ->]|(Hne & Hne' & Ha)]].
    + destruct (n_node _ _ _ _ _ H pNs n Hn) as [A1 A2 A3 A4]. split; cbn; [done|done| |].
      * intros k d Hk'. destruct (Hkid k d Hk') as [[-> ->]|Hk2]; [lia|by apply (A3 k)].
      * intros k d w Hk' Hw. destruct (Hkid k d Hk') as [[-> ->]|Hk2]; [|by eapply Hlink].
        destruct (Hnode c w Hw) as [[-> ->]|[[_ ->]|(_ & Hx & _)]]; [congruence|done|done].
    + split; cbn [paChild nsVar]; [apply (table_new sd)|apply tbl_new|intros k d; rewrite Hnew; by rewrite lookup_empty..].
    + destruct (n_node _ _ _ _ _ H a m Ha) as [A1 A2 A3 A4]. split; [done..|]. intros k d w Hk' Hw. by eapply Hlink.
  - intros a Ha. pose proof (n_refs _ _ _ _ _ H a Ha) as Hr. unfold kids in *. unfold child_of.
    rewrite (msum_update _ _ pNs n) by (rewrite lookup_insert_ne; [done|lia]).
    rewrite msum_insert by done. unfold kid at 1 3 4. rewrite !bool_decide_false by apply not_elem_of_nil.
    cbn [paChild set_paChild]. rewrite Hnew, count_empty, Hd, count_insert by done.
    destruct (decide (c = a)) as [<-|Hne].
    + rewrite lookup_insert_ne, lookup_insert_eq by lia. rewrite (bool_decide_true (is_Some _ ∧ _)) by (split; [eauto|apply not_elem_of_nil]).
      rewrite Hc, bool_decide_false in Hr by naive_solver. lia.
    + rewrite (bool_decide_ext _ (is_Some (nss !! a) ∧ a ∉ [])); [lia|].
      destruct (decide (pNs = a)) as [<-|Hne']; [rewrite lookup_insert_eq, Hn; naive_solver|by rewrite !lookup_insert_ne].
  - apply H.
Qed.

Lemma sub_live nss nss' a : tree_sub nss nss' → is_Some (nss !! a) → is_Some (nss' !! a).
Proof. intros H [n Hn]. destruct (H a n Hn) as (n' & Hn' & _). eauto. Qed.

(** More namespaces, without variables. *)
Lemma inv_tree E s nss' : inv sd 0 E s → ns_ok sd [] (ns_roots s) nss' (nNext (mem s) + 1) →
  (∀ a, ns_vars a nss' = ns_vars a (namespaces s)) → tree_sub (namespaces s) nss' →
  (∀ a n, nss' !! a = Some n → a ≠ pGlobalNs s → path_ok (zName n)) →
  inv sd 0 E (set_mem (bump (mem s)) (set_namespaces nss' s)).
Proof.
  intros H Hns Hv Hsub Hname. apply inv_bump in H. destruct H as [[A1 A2 A3 A4] H2 H3 H4 H5 H6 H7 H8].
  fields. split; fields; [|done| |done|done| |done|done].
  - split; fields; [done|done| |]; intros a Ha; [rewrite Hv; by apply A3|].
    intros Hx. rewrite Hv. by apply A4.
  - eapply Forall_impl; [exact H3|]. intros f [Hf Hf']. split; [done|]. by eapply sub_live.
  - destruct H6. split; by eapply sub_live.
Qed.

Lemma full_name E s pNs n zComp : inv sd 0 E s → namespaces s !! pNs = Some n → component zComp → path_ok zComp →
  let zFull := cstr (th8GetFullNsName pNs n zComp s) in snd (th8SplitQualName zFull) = zComp ∧ path_ok zFull.
Proof.
  intros H Hn Hc [Hl Hnul].
  assert (Hp : ∀ p, 0 ∉ p → let z := p ++ text "::" ++ zComp in cstr z = z ∧ path_ok z).
  { intros p Hp z. assert (Hz : 0 ∉ z).
    { unfold z. change (text "::") with [COLON; COLON]. rewrite !not_elem_of_app, !not_elem_of_cons. split_and!; by try apply not_elem_of_nil. }
    split; [by apply cstr_id|]. split; [|done]. unfold z. rewrite app_assoc, last_app. destruct (last zComp) eqn:E1; [done|].
    apply last_None in E1. by destruct Hc. }
  unfold th8GetFullNsName. destruct (pNs =? pGlobalNs s) eqn:E1; bool_to_prop.
  - destruct (Hp [] (not_elem_of_nil 0)) as [Hs Hok]. cbv zeta. cbn [app] in Hs, Hok. rewrite Hs. split; [|done]. by apply (split_full [] zComp Hc).
  - destruct (i_names _ _ _ _ H pNs n Hn E1) as [Hnl Hn0]. destruct (Hp (zName n) Hn0) as [Hs Hok]. cbv zeta. rewrite Hs. split; [|done].
    by apply split_full.
Qed.

Definition made (pNs c : Z) (zComp : bytes) s s' : Prop :=
  0 < c ∧ namespaces s !! c = None ∧ is_Some (namespaces s' !! c) ∧ tree_sub (namespaces s) (namespaces s') ∧
  ∃ n', namespaces s' !! pNs = Some n' ∧ dict (paChild n') !! zComp = Some c.

Lemma create_child_ok E s pNs n zComp o s' : inv sd 0 E s → namespaces s !! pNs = Some n →
  dict (paChild n) !! zComp = None → component zComp → path_ok zComp →
  create_child sd pNs n zComp s = (o, s') →
  inv sd 0 E s' ∧ outside s s' ∧
  match o with None => namespaces s' = namespaces s | Some c => made pNs c zComp s s' end.
Proof.
  intros H Hn Hk Hc Hl. unfold create_child. destruct (full_name E s pNs n zComp H Hn Hc Hl) as [Hz Hz'].
  cbv zeta in Hz, Hz'. set (zFull := cstr (th8GetFullNsName pNs n zComp s)) in *.
  destruct (ask_all _ s) as [ok s1] eqn:Ea. apply ask_all_outside in Ea as [i ->].
  destruct ok; cbn [negb].
  2: { intros [= <- <-]. split_and!; [by apply inv_env|apply outside_env|done]. }
  destruct (ask AEntry (set_env i s)) as [ok s1] eqn:Ee. unfold ask in Ee.
  destruct (var_alloc _ AEntry) as [ok' i'] eqn:Ei. injection Ee as -> <-.
  change (set_env i' (set_env i s)) with (set_env i' s).
  destruct (n_node _ _ _ _ _ (i_ns sd 0 E s H) pNs n Hn) as [Hct Hcv _ _].
  destruct (t_insert sd (paChild n) zComp Hct Hk) as (Hno & p & h & Hyes & Hp & Hh & Hd).
  destruct ok; [rewrite Hyes|rewrite Hno].
  2: { intros [= <- <-]. split_and!; [by apply inv_env|apply outside_env|done]. }
  intros [= <- <-]. destruct (next_free sd 0 E s H) as [_ Hfree]. pose proof (next_pos sd 0 E s H) as Hpos.
  set (c := nNext (mem s)) in *. change (nNext (mem (set_env i' s))) with c.
  destruct (t_set sd h zComp 0 c Hh) as [Hh' Hd'].
  { rewrite Hd. apply lookup_insert_eq. }
  rewrite Hd, insert_insert_eq in Hd'. set (h' := set_data sd h zComp c) in *.
  pose proof (child_ns_ok (ns_roots s) pNs n c h' zFull zComp _ (i_ns sd 0 E s H) Hn Hfree Hk Hz Hh' Hd') as Hns.
  pose proof (child_sub pNs c n h' zFull zComp _ Hn Hfree Hk Hd') as Hsub.
  assert (Hpc : pNs ≠ c) by congruence.
  split_and!.
  - apply (inv_tree E (set_env i' s) (child_of pNs c n h' zFull (namespaces s))); [by apply inv_env|exact Hns| |exact Hsub|].
    + intros a. change (namespaces (set_env i' s)) with (namespaces s). unfold ns_vars, child_of. rewrite (msum_update _ _ pNs n) by (by rewrite lookup_insert_ne).
      rewrite msum_insert by done. cbn [nsVar set_paChild]. destruct (table_new sd) as [_ ->]. rewrite count_empty. lia.
    + intros a m Hm Ha. fields. unfold child_of in Hm.
      apply lookup_insert_Some in Hm as [[<- <-]|[Hne [[<- <-]|[Hne' Hm]]%lookup_insert_Some]]; [|done|].
      * by apply (i_names sd 0 E s H pNs n).
      * by apply (i_names sd 0 E s H a m).
  - split; fields; (done || lia).
  - unfold made. fields. fold (child_of pNs c n h' zFull (namespaces s)). split_and!; [done|done| |exact Hsub|].
    + unfold child_of. rewrite lookup_insert_ne, lookup_insert_eq by done. eauto.
    + unfold child_of. rewrite lookup_insert_eq. eexists. split; [done|]. cbn [paChild set_paChild]. rewrite Hd'. apply lookup_insert_eq.
Qed.

(** ** Removing *)

(** A namespace is the child of one. *)
Definition has_parent (nss : gmap Z Th8_Namespace) (r : Z) : Prop :=
  ∃ p n k, nss !! p = Some n ∧ dict (paChild n) !! k = Some r.

(** What is reached from the roots without leaving [S]. *)
Definition rooted (S : Z → Prop) s : Prop :=
  ∀ a, S a → 1 <= ns_roots s a ∨ ∃ p n k, S p ∧ namespaces s !! p = Some n ∧ dict (paChild n) !! k = Some a.

Definition in_use s (a : Z) : Prop :=
  a = pCurrentNs s ∨ a = pGlobalNs s ∨ ∃ f, f ∈ all_frames s ∧ a = pNs f.

(** A namespace lives as long as a root or a parent that lives holds it. *)
Lemma survivors N nss next (S : Z → Prop) : ns_ok sd [] N nss next →
  (∀ a, S a → 0 < a ∧ (1 <= N a ∨ ∃ p, S p ∧ p < a ∧
     (is_Some (nss !! p) → ∃ n k, nss !! p = Some n ∧ dict (paChild n) !! k = Some a))) →
  ∀ a, S a → is_Some (nss !! a).
Proof.
  intros H HS a. induction a as [a IH] using (well_founded_induction (Z.lt_wf 0)). intros Ha.
  destruct (HS a Ha) as [Hpos [HN|(p & Hp & Hlt & Hpa)]].
  - by apply (ns_live sd [] N nss next a H); [lia|].
  - destruct (HS p Hp) as [Hpp _]. destruct (Hpa (IH p ltac:(lia) Hp)) as (n & k & Hn & Hk).
    pose proof (n_refs _ _ _ _ _ H a ltac:(lia)) as Hr. pose proof (n_pos _ _ _ _ _ H a).
    pose proof (kids_positive nss p n k a Hn Hk).
    case_bool_decide as Hd; [apply Hd|lia].
Qed.

(** The parent lets it go. *)
Lemma unlinked_ok N nss next r p pn k : ns_ok sd [] N nss next → nss !! p = Some pn → dict (paChild pn) !! k = Some r →
  ns_ok sd [] (λ a, N a + (if decide (a = r) then 1 else 0))
    (<[p := set_paChild (Th8_HashRemove sd (paChild pn) k) pn]> nss) next.
Proof.
  intros H Hpn Hk. destruct (n_node _ _ _ _ _ H p pn Hpn) as [A1 A2 A3 A4].
  destruct (t_remove sd (paChild pn) k A1) as [Hh Hd].
  assert (Hw : ∀ d c, <[p := set_paChild (Th8_HashRemove sd (paChild pn) k) pn]> nss !! d = Some c →
    ∃ c0, nss !! d = Some c0 ∧ pParent c = pParent c0 ∧ zName c = zName c0).
  { intros d c [[<- <-]|[_ ?]]%lookup_insert_Some; eauto. }
  split.
  - intros a m [[<- <-]|[_ Ha]]%lookup_insert_Some; by eapply (n_addr _ _ _ _ _ H).
  - intros a m [[<- <-]|[_ Ha]]%lookup_insert_Some; [|eapply node_weaken; [exact Hw|by apply (n_node _ _ _ _ _ H a m)]].
    split; cbn [paChild nsVar set_paChild]; [done|done|intros k' d Hk'|intros k' d c Hk' Hc];
      rewrite Hd in Hk'; apply lookup_delete_Some in Hk' as [_ Hk'].
    + by apply (A3 k').
    + destruct (Hw d c Hc) as (c0 & Hc0 & -> & ->). by apply (A4 k' d).
  - intros a Ha. pose proof (n_refs _ _ _ _ _ H a Ha) as Hr. unfold kids in *.
    rewrite (msum_update _ nss p pn _ Hpn). unfold kid at 2 3. rewrite !bool_decide_false by apply not_elem_of_nil.
    cbn [paChild set_paChild]. rewrite Hd, (count_delete a _ k r Hk).
    rewrite (bool_decide_ext _ (is_Some (nss !! a) ∧ a ∉ [])).
    2: { destruct (decide (p = a)) as [<-|Hne]; [rewrite lookup_insert_eq, Hpn; naive_solver|by rewrite lookup_insert_ne]. }
    destruct (decide (a = r)), (decide (r = a)); (congruence || lia).
  - intros a. pose proof (n_pos _ _ _ _ _ H a). pose proof (A3 k r Hk). pose proof (n_addr _ _ _ _ _ H p pn Hpn). case_decide; lia.
Qed.

Lemma parent_of E s r : inv sd 0 E s → has_parent (namespaces s) r → ∃ rn pn, namespaces s !! r = Some rn ∧
  pParent rn ≠ 0 ∧ r ≠ 0 ∧ namespaces s !! pParent rn = Some pn ∧
  dict (paChild pn) !! snd (th8SplitQualName (zName rn)) = Some r.
Proof.
  intros H (p & pn & k & Hp & Hk). pose proof (i_ns sd 0 E s H) as Hns.
  pose proof (n_addr _ _ _ _ _ Hns p pn Hp) as Hpa. pose proof (nn_young _ _ _ _ (n_node _ _ _ _ _ Hns p pn Hp) k r Hk) as Hy.
  pose proof (n_refs _ _ _ _ _ Hns r ltac:(lia)) as Hr. pose proof (n_pos _ _ _ _ _ Hns r).
  pose proof (kids_positive _ p pn k r Hp Hk).
  case_bool_decide as Hd; [|lia]. destruct Hd as [[rn Hrn] _]. exists rn, pn.
  destruct (nn_link _ _ _ _ (n_node _ _ _ _ _ Hns p pn Hp) k r rn Hk Hrn) as [-> ->]. split_and!; [done|lia|lia|done|done].
Qed.

(** The namespace that a free of [r] may leave behind is no use of [s]. *)
Definition spared (r : Z) s : Prop :=
  0 < nEvalDepth s ∨ ∃ S, rooted S s ∧ (∀ a, S a → 0 < a ∧ a ≠ r) ∧ ∀ a, in_use s a → S a.

Lemma waiting_app l r a : waiting (l ++ [r]) a = waiting l a + (if decide (a = r) then 1 else 0).
Proof.
  unfold waiting. rewrite filter_app, length_app, filter_cons, filter_nil.
  destruct (decide (r = a)), (decide (a = r)); simpl length; (congruence || lia).
Qed.

Lemma in_use_live E s a : inv sd 0 E s → in_use s a → is_Some (namespaces s !! a).
Proof.
  intros H [->|[->|(f & Hf & ->)]]; [apply H|apply H|].
  pose proof (i_frames sd 0 E s H) as Hfr. rewrite Forall_forall in Hfr. apply (Hfr f Hf).
Qed.

(** An unlinked namespace is freed. *)
Lemma free_unlinked E s r nss1 : inv sd 0 E s → (∀ a, 0 < a → 0 <= E a) →
  ns_ok sd [] (λ a, ns_roots s a + (if decide (a = r) then 1 else 0)) nss1 (nNext (mem s)) → r ≠ 0 →
  (∀ a, ns_vars a nss1 = ns_vars a (namespaces s)) →
  (∀ a n, nss1 !! a = Some n → ∃ n0, namespaces s !! a = Some n0 ∧ zName n = zName n0) →
  (∀ nss', nss' ⊆ nss1 → ns_ok sd [] (ns_roots s) nss' (nNext (mem s)) → ∀ a, in_use s a → is_Some (nss' !! a)) →
  ∃ m' nss', free_namespace r (set_namespaces nss1 s) = Ok (set_namespaces nss' (set_mem m' s)) ∧
    inv sd 0 E (set_namespaces nss' (set_mem m' s)) ∧ nss' ⊆ nss1 ∧ freed (mem s) m'.
Proof.
  intros H HE Hns Hr Hv Hname Huse. destruct H as [H1 H2 H3 H4 H5 H6 H7 H8].
  set (F := λ a, refs_in (all_frames s) a + E a).
  assert (Hr1 : 1 <= ns_roots s r + (if decide (r = r) then 1 else 0)).
  { rewrite decide_True by done. pose proof (n_pos _ _ _ _ _ H5 r). lia. }
  destruct (ns_live _ _ _ _ _ r Hns Hr Hr1) as [[nr Hnr] _]. pose proof (n_addr _ _ _ _ _ Hns r nr Hnr) as Hra.
  destruct (free_namespace_ok sd (S (Z.to_nat (nNext (mem s)))) (set_namespaces nss1 s) []
              (λ a, ns_roots s a + (if decide (a = r) then 1 else 0)) F r) as (m' & nss' & Er & (W1 & W2 & W3) & Hs & _ & Hfr).
  { split_and!; fields; [|intros a Ha; pose proof (HE a Ha); pose proof (refs_in_nonneg (all_frames s) a); unfold F; lia|done].
    eapply heap_ext; [|exact H1]. intros a _. cbn beta. rewrite Hv. done. }
  { done. }
  { done. }
  { fields. lia. }
  fields. assert (Hns' : ns_ok sd [] (ns_roots s) nss' (nNext (mem s))).
  { replace (nNext (mem s)) with (nNext m') by apply Hfr. eapply ns_ext; [|exact W3]. intros a. unfold less.
    destruct (decide (r = a)), (decide (a = r)); (congruence || lia). }
  pose proof (Huse nss' Hs Hns') as Hlive.
  exists m', nss'. split_and!; [exact Er| |done|done]. split; fields; [exact W1| | |done| | |done|].
  - intros a v Hv'. destruct Hfr as [_ Hfr]. destruct (Hfr a v Hv') as (v0 & Hv0 & _ & _ & Hz).
    pose proof (H2 a v0 Hv0). destruct (h_vars _ _ _ _ W1 a v Hv') as (Hnn & _). lia.
  - apply Forall_forall. intros f Hf. pose proof H3 as H3'. rewrite Forall_forall in H3'.
    split; [apply (H3' f Hf)|]. fields. apply Hlive. right. right. exists f. split; [exact Hf|done].
  - by replace (nNext m') with (nNext (mem s)) by (symmetry; apply Hfr).
  - split; apply Hlive; [by left|by right; left].
  - intros a n Ha Hg. eapply lookup_weaken in Ha; [|exact Hs]. destruct (Hname a n Ha) as (n0 & Hn0 & ->). by apply (H8 a n0).
Qed.

(** What an unlinking leaves of the tree: the entry of [r] went, and what was
    freed was reached through it only. *)
Definition unlinked (r : Z) s s' : Prop :=
  (∀ a n', namespaces s' !! a = Some n' → ∃ n, namespaces s !! a = Some n ∧ nsVar n' = nsVar n ∧
     ∀ k d, dict (paChild n) !! k = Some d → d ≠ r → dict (paChild n') !! k = Some d) ∧
  (∀ S, rooted S s → (∀ a, S a → 0 < a ∧ a ≠ r) → ∀ a, S a → is_Some (namespaces s' !! a)).

Lemma rooted_live E s r p pn k N nss' next (S : Z → Prop) : inv sd 0 E s → namespaces s !! p = Some pn →
  dict (paChild pn) !! k = Some r → (∀ a, ns_roots s a <= N a) →
  nss' ⊆ <[p := set_paChild (Th8_HashRemove sd (paChild pn) k) pn]> (namespaces s) → ns_ok sd [] N nss' next →
  rooted S s → (∀ a, S a → 0 < a ∧ a ≠ r) → ∀ a, S a → is_Some (nss' !! a).
Proof.
  intros H Hpn Hk HN Hs Hns HS HSr. apply (survivors _ nss' _ S Hns).
  intros b Hb. destruct (HSr b Hb) as [Hb0 Hbr]. split; [done|]. pose proof (HN b).
  destruct (HS b Hb) as [Hroot|(q & qn & k' & Hq & Hqn & Hk')]; [left; lia|right]. exists q.
  split_and!; [done|by apply (nn_young _ _ _ _ (n_node _ _ _ _ _ (i_ns sd 0 E s H) q qn Hqn) k')|].
  intros [qn' Hqn']. pose proof (lookup_weaken _ _ _ _ Hqn' Hs) as Hq1.
  exists qn', k'. split; [done|]. apply lookup_insert_Some in Hq1 as [[<- <-]|[_ Hq1]]; [|congruence].
  assert (qn = pn) as -> by congruence. destruct (n_node _ _ _ _ _ (i_ns sd 0 E s H) p pn Hpn) as [A1 _ _ _].
  cbn [paChild set_paChild]. destruct (t_remove sd (paChild pn) k A1) as [_ ->].
  rewrite lookup_delete_ne; [done|]. intros <-. rewrite Hk in Hk'. congruence.
Qed.

Lemma unlink_entry r p pn k (nss : gmap Z Th8_Namespace) : table_ok sd (paChild pn) → dict (paChild pn) !! k = Some r → nss !! p = Some pn →
  ∀ a n', <[p := set_paChild (Th8_HashRemove sd (paChild pn) k) pn]> nss !! a = Some n' → ∃ n, nss !! a = Some n ∧ nsVar n' = nsVar n ∧
     ∀ k d, dict (paChild n) !! k = Some d → d ≠ r → dict (paChild n') !! k = Some d.
Proof.
  intros Ht Hk Hp a n'. rewrite lookup_insert_Some. intros [[<- <-]|[_ Ha]]; [|eauto]. exists pn. split; [done|]. split; [done|].
  intros z d Hz Hd. cbn [paChild set_paChild]. destruct (t_remove sd (paChild pn) k Ht) as [_ ->].
  rewrite lookup_delete_ne; [done|]. congruence.
Qed.

Lemma unlink_ok E s r : inv sd 0 E s → (∀ a, 0 < a → 0 <= E a) → has_parent (namespaces s) r → spared r s →
  ∃ s', th8UnlinkFreeNamespace sd r s = Ok s' ∧ inv sd 0 E s' ∧ frames s' = frames s ∧ saved s' = saved s ∧
    pGlobalNs s' = pGlobalNs s ∧ pCurrentNs s' = pCurrentNs s ∧ nEvalDepth s' = nEvalDepth s ∧ freed (mem s) (mem s') ∧
    (0 < nEvalDepth s → ∀ a, is_Some (namespaces s !! a) → is_Some (namespaces s' !! a)) ∧ unlinked r s s'.
Proof.
  intros H HE Hp Hsp. destruct (parent_of E s r H Hp) as (rn & pn & Hrn & Hp0 & Hr0 & Hpn & Hk).
  set (k := snd (th8SplitQualName (zName rn))) in *. set (p := pParent rn) in *.
  pose proof (unlinked_ok _ _ _ r p pn k (i_ns sd 0 E s H) Hpn Hk) as Hns.
  pose proof (λ N nss' next S, rooted_live E s r p pn k N nss' next S H Hpn Hk) as Hroot.
  pose proof (unlink_entry r p pn k (namespaces s) (nn_child _ _ _ _ (n_node _ _ _ _ _ (i_ns sd 0 E s H) p pn Hpn)) Hk Hpn) as Hent.
  set (nss1 := <[p := _]> (namespaces s)) in *.
  assert (Hv : ∀ a, ns_vars a nss1 = ns_vars a (namespaces s)).
  { intros a. unfold ns_vars, nss1. rewrite (msum_update _ _ p pn _ Hpn). cbn [nsVar set_paChild]. lia. }
  assert (Hname : ∀ a n, nss1 !! a = Some n → ∃ n0, namespaces s !! a = Some n0 ∧ zName n = zName n0).
  { intros a n [[<- <-]|[_ ?]]%lookup_insert_Some; eauto. }
  assert (Hdom : ∀ a, is_Some (namespaces s !! a) → is_Some (nss1 !! a)).
  { intros a Ha. unfold nss1. destruct (decide (p = a)) as [<-|Hne]; [rewrite lookup_insert_eq; eauto|by rewrite lookup_insert_ne]. }
  unfold th8UnlinkFreeNamespace, ns_at. rewrite (proj2 (Z.eqb_neq _ _) Hr0), Hrn. cbn [res_bind].
  fold p. rewrite (proj2 (Z.eqb_neq _ _) Hp0), Hpn. cbn [res_bind]. fold k. unfold put_ns. fold nss1. fields.
  destruct (0 <? nEvalDepth s) eqn:Ed; bool_to_prop.
  - eexists. split; [done|]. split; [|fields; split_and!; try (done || apply freed_refl || (intros _; exact Hdom))].
    + destruct H as [H1 H2 H3 H4 H5 H6 H7 H8]. split; fields; [|done| |done| | |done|].
      * eapply heap_ext; [|exact H1]. intros a _. cbn beta. rewrite Hv. done.
      * eapply Forall_impl; [exact H3|]. intros f [Hf Hf']. split; [done|]. by apply Hdom.
      * eapply ns_ext; [|exact Hns]. intros a. unfold ns_roots. fields. rewrite waiting_app. lia.
      * split; apply Hdom; apply H6.
      * intros a n Ha Hg. destruct (Hname a n Ha) as (n0 & Hn0 & ->). by apply (H8 a n0).
    + split; fields; [exact Hent|]. intros S HS HSr. eapply Hroot; [|done|exact Hns|done|done].
      intros a. cbn beta. case_decide; lia.
  - destruct Hsp as [Hsp|(S & HS & HSr & Huse)]; [lia|].
    destruct (free_unlinked E s r nss1 H HE Hns Hr0 Hv Hname) as (m' & nss' & Er & Hinv & Hs & Hfr).
    { intros nss' Hs Hns' a Ha. eapply Hroot; [|exact Hs|exact Hns'|exact HS|exact HSr|by apply Huse]. lia. }
    rewrite Er. eexists. split; [done|]. split; [exact Hinv|]. fields. split_and!; try (done || lia). split; fields.
    + intros a n' Ha. apply Hent. by eapply lookup_weaken.
    + intros S' HS' HSr'. eapply Hroot; [|exact Hs|exact (i_ns _ _ _ _ Hinv)|exact HS'|exact HSr']. intros a. done.
Qed.

(** ** Walking *)

(** The namespace a path leads to. *)
Fixpoint ns_lookup (fuel : nat) (a : Z) (z : bytes) (nss : gmap Z Th8_Namespace) : option Z :=
  match fuel with
  | O => None
  | S fuel =>
      match z with
      | [] => Some a
      | _ =>
          match comp_len z with
          | O => ns_lookup fuel a (drop 2 z) nss
          | nComp =>
              let rest := drop nComp z in
              let rest := if (1 <? length rest)%nat then drop 2 rest else rest in
              n ← nss !! a; d ← dict (paChild n) !! take nComp z; ns_lookup fuel d rest nss
          end
      end
  end.

Lemma ns_lookup_sub fuel : ∀ a z nss nss' c, kids_sub nss nss' → ns_lookup fuel a z nss = Some c →
  ns_lookup fuel a z nss' = Some c.
Proof.
  induction fuel as [|fuel IH]; intros a z nss nss' c Hs; [done|]. cbn [ns_lookup]. destruct z as [|x z]; [done|].
  destruct (comp_len (x :: z)); [by apply IH|]. cbv zeta.
  destruct (nss !! a) as [m|] eqn:Em; [|done]. destruct (Hs a m Em) as (m' & -> & Hk). cbn [mbind option_bind].
  destruct (dict (paChild m) !! _) as [d|] eqn:Ed; [|done]. rewrite (Hk _ d Ed). cbn [mbind option_bind]. by apply IH.
Qed.

(** The namespaces of an earlier state are spared when a newer one goes. *)
Lemma earlier_rooted E s0 s : inv sd 0 E s0 → outside s0 s → tree_sub (namespaces s0) (namespaces s) →
  rooted (λ a, is_Some (namespaces s0 !! a)) s.
Proof.
  intros H O Hs a [n Hn]. pose proof (i_ns sd 0 E s0 H) as Hns.
  pose proof (n_addr _ _ _ _ _ Hns a n Hn) as Ha. pose proof (n_refs _ _ _ _ _ Hns a ltac:(lia)) as Hra.
  rewrite bool_decide_true in Hra by (split; [eauto|apply not_elem_of_nil]).
  assert (Hroots : ns_roots s a = ns_roots s0 a) by (unfold ns_roots; by rewrite (o_glob _ _ O), (o_pending _ _ O)).
  destruct (Z.le_gt_cases 1 (ns_roots s0 a)) as [Hg|Hg]; [left; lia|right].
  destruct (msum_witness (kid [] a) (namespaces s0)) as (p & pn & Hp & Hc); [unfold kids in Hra; lia|].
  unfold kid in Hc. rewrite bool_decide_false in Hc by apply not_elem_of_nil.
  destruct (count_witness _ _ Hc) as [k Hk]. destruct (Hs p pn Hp) as (pn' & Hpn' & _ & Hk'). exists p, pn', k. eauto.
Qed.

Lemma earlier_apart E s0 r a : inv sd 0 E s0 → namespaces s0 !! r = None → is_Some (namespaces s0 !! a) → 0 < a ∧ a ≠ r.
Proof. intros H Hr [n Hn]. pose proof (n_addr _ _ _ _ _ (i_ns sd 0 E s0 H) a n Hn). split; [lia|congruence]. Qed.

Lemma earlier_spared E s0 s r : inv sd 0 E s0 → outside s0 s → tree_sub (namespaces s0) (namespaces s) →
  namespaces s0 !! r = None → spared r s.
Proof.
  intros H O Hs Hr. right. exists (λ a, is_Some (namespaces s0 !! a)). split; [by eapply earlier_rooted|].
  split; [intros a Ha; by eapply earlier_apart|]. intros a Ha. apply (in_use_live E s0 a H). unfold in_use, all_frames in *.
  by rewrite (o_cur _ _ O), (o_glob _ _ O), (o_frames _ _ O), (o_saved _ _ O) in Ha.
Qed.

(** A child of an earlier state is of that state. *)
Lemma earlier_kid E s0 r p pn k : inv sd 0 E s0 → namespaces s0 !! r = None → r ≠ 0 → namespaces s0 !! p = Some pn →
  dict (paChild pn) !! k ≠ Some r.
Proof.
  intros H Hr Hr0 Hp Hk. pose proof (kids_positive _ p pn k r Hp Hk).
  pose proof (n_refs _ _ _ _ _ (i_ns sd 0 E s0 H) r Hr0) as Hc. pose proof (n_pos _ _ _ _ _ (i_ns sd 0 E s0 H) r).
  rewrite Hr, bool_decide_false in Hc by naive_solver. lia.
Qed.

(** What is true along the walk that started in [s0]. *)
Definition walking E s0 (root : option Z) s : Prop :=
  inv sd 0 E s ∧ outside s0 s ∧ tree_sub (namespaces s0) (namespaces s) ∧
  ∀ r, root = Some r → namespaces s0 !! r = None ∧ has_parent (namespaces s) r.

(** The variables that are left are as they were. *)
Definition thinned s s' : Prop :=
  ∀ b v', heap (mem s') !! b = Some v' → ∃ v, heap (mem s) !! b = Some v ∧
    zData v' = zData v ∧ nData v' = nData v ∧ pHash v' = pHash v.

Lemma thinned_freed s s' : freed (mem s) (mem s') → thinned s s'.
Proof. intros [_ Hf] b v' Hv'. destruct (Hf b v' Hv') as (v & Hv & -> & _). eauto. Qed.
Lemma thinned_heap s s' : heap (mem s') = heap (mem s) → thinned s s'.
Proof. intros Hh b v'. rewrite Hh. eauto. Qed.
Lemma thinned_trans s1 s2 s3 : thinned s1 s2 → thinned s2 s3 → thinned s1 s3.
Proof.
  intros H1 H2 b v3 Hv3. destruct (H2 b v3 Hv3) as (v2 & Hv2 & E1 & E2 & E3). destruct (H1 b v2 Hv2) as (v1 & Hv1 & F1 & F2 & F3).
  exists v1. split_and!; [done|congruence..].
Qed.

(** A failed walk: the namespaces it made are unlinked, the others are as they
    were. *)
Definition undone E s0 s : Prop :=
  inv sd 0 E s ∧ frames s = frames s0 ∧ saved s = saved s0 ∧ pGlobalNs s = pGlobalNs s0 ∧
  pCurrentNs s = pCurrentNs s0 ∧ nEvalDepth s = nEvalDepth s0 ∧
  tree_sub (namespaces s0) (namespaces s) ∧ thinned s0 s.

Lemma rollback_ok E s0 root s : inv sd 0 E s0 → (∀ a, 0 < a → 0 <= E a) → walking E s0 root s →
  ∃ s', rollback sd root s = Ok s' ∧ undone E s0 s'.
Proof.
  intros H0 HE (H & O & Hs & Hr). destruct root as [r|]; cbn [rollback].
  - destruct (Hr r eq_refl) as [Hr0 Hp].
    destruct (unlink_ok E s r H HE Hp (earlier_spared E s0 s r H0 O Hs Hr0)) as (s' & -> & H' & E1 & E2 & E3 & E4 & E5 & Hfr & _ & U1 & U2).
    destruct (parent_of E s r H Hp) as (_ & _ & _ & _ & Hrz & _).
    exists s'. split; [done|]. pose proof O as []. split_and!; try (done || congruence).
    + intros a n Ha. destruct (U2 _ (earlier_rooted E s0 s H0 O Hs) (λ a Ha, earlier_apart E s0 r a H0 Hr0 Ha) a) as [n' Hn']; [by eexists|].
      destruct (U1 a n' Hn') as (n1 & Hn1 & Hv1 & Hk1). destruct (Hs a n Ha) as (n2 & Hn2 & Hv2 & Hk2).
      assert (n2 = n1) as -> by congruence. exists n'. split; [done|]. split; [congruence|].
      intros k d Hk. apply Hk1; [by apply Hk2|]. intros ->. by apply (earlier_kid E s0 r a n k H0 Hr0 Hrz Ha).
    + apply (thinned_trans _ s); [by apply thinned_heap|by apply thinned_freed].
  - exists s. split; [done|]. destruct O. split_and!; try (done || congruence). by apply thinned_heap.
Qed.

Lemma walking_env E s0 root s i : walking E s0 root s → walking E s0 root (set_env i s).
Proof.
  intros (H & O & Hs & Hr). split_and!; [by apply inv_env| |done|done].
  eapply outside_trans; [done|apply outside_env].
Qed.

(** What a walk from [a] comes to. *)
Definition walked (fuel : nat) (b : bool) E s0 (a : Z) (z : bytes) s (o root : option Z) s' : Prop :=
  (b = false → s' = s ∧ o = ns_lookup fuel a z (namespaces s)) ∧
  (∀ c, ns_lookup fuel a z (namespaces s) = Some c → o = Some c) ∧
  match o with
  | Some c => walking E s0 root s' ∧ tree_sub (namespaces s) (namespaces s') ∧
      ns_lookup fuel a z (namespaces s') = Some c ∧ is_Some (namespaces s' !! c)
  | None => undone E s0 s'
  end.

Lemma walked_fail fuel E s0 a z s r root s' : inv sd 0 E s0 → (∀ a, 0 < a → 0 <= E a) → walking E s0 r s' →
  ns_lookup fuel a z (namespaces s) = None →
  ∃ s'', (let* s := rollback sd r s' in Ok (@None Z, root, s)) = Ok (@None Z, root, s'') ∧
    walked fuel true E s0 a z s None root s''.
Proof.
  intros H0 HE W Hl. destruct (rollback_ok E s0 r s' H0 HE W) as (s'' & -> & Hu). exists s''. split; [done|].
  split; [done|]. split; [|done]. intros c. by rewrite Hl.
Qed.

Lemma rest_shorter z n : comp_len z = S n →
  let rest := drop (S n) z in (length (if (1 <? length rest)%nat then drop 2 rest else rest) < length z)%nat.
Proof.
  intros Hn rest. pose proof (comp_len_le z). assert (length rest < length z)%nat by (unfold rest; rewrite length_drop; lia).
  case_if; [rewrite length_drop|]; lia.
Qed.

Lemma rest_last z n : path_ok z →
  let rest := drop (S n) z in path_ok (if (1 <? length rest)%nat then drop 2 rest else rest).
Proof. intros Hz rest. case_if; [apply path_drop|]; by apply path_drop. Qed.

(** A component that is followed by a separator, or that ends the path. *)
Lemma comp_ok z n : comp_len z = S n → path_ok z → component (take (S n) z) ∧ path_ok (take (S n) z).
Proof.
  intros Hn [Hl Hnul]. split; [split|split; [|by apply nul_take]].
  - intros E. apply (f_equal length) in E. rewrite length_take in E. pose proof (comp_len_le z). cbn [length] in E. lia.
  - rewrite <- Hn. apply comp_take.
  - destruct (decide (S n < length z)%nat) as [Hlt|Hge].
    + rewrite <- Hn. apply comp_last. lia.
    + rewrite take_ge by lia. done.
Qed.

Lemma walking_child E s0 root s s1 a c zComp : walking E s0 root s → inv sd 0 E s1 → outside s0 s1 →
  made a c zComp s s1 → walking E s0 (match root with None => Some c | _ => root end) s1.
Proof.
  intros (H & O & Hs & Hr) H1 O1 (Hc0 & Hcs & _ & Hsub & n' & Hn' & Hk').
  split_and!; [done|done|by eapply tree_sub_trans|]. intros r Hr'. destruct root as [r0|]; injection Hr' as <-.
  - destruct (Hr r0 eq_refl) as [Hr1 (p & pn & k' & Hp & Hpk)]. split; [done|].
    destruct (Hsub p pn Hp) as (pn' & Hp' & _ & Hpk'). exists p, pn', k'. auto.
  - split; [|by exists a, n', zComp]. destruct (namespaces s0 !! c) as [m|] eqn:Em; [|done].
    destruct (Hs c m Em) as (m' & Hm' & _). congruence.
Qed.

Lemma walk_ok fuel : ∀ b E s0 a z s root, inv sd 0 E s0 → (∀ a, 0 < a → 0 <= E a) → walking E s0 root s →
  is_Some (namespaces s !! a) → (b = true → path_ok z) → (length z < fuel)%nat →
  ∃ o root' s', ns_walk sd fuel b a root z s = Ok (o, root', s') ∧ walked fuel b E s0 a z s o root' s'.
Proof.
  induction fuel as [|fuel IH]; intros b E s0 a z s root H0 HE W [n Hn] Hl Hfuel; [lia|].
  destruct z as [|x z]; [|set (zz := x :: z) in *].
  { exists (Some a), root, s. split; [done|]. split; [done|]. split; [done|]. split_and!; [done|apply tree_sub_refl|done|eauto]. }
  assert (Hlen : length zz = S (length z)) by done. cbn [ns_walk]. destruct (comp_len zz) as [|k] eqn:Ek; cbv zeta.
  - destruct (IH b E s0 a (drop 2 zz) s root) as (o & r' & s' & -> & Hw); [done..|eauto|intros Hb|rewrite length_drop; lia|].
    { apply path_drop, Hl, Hb. }
    exists o, r', s'. split; [done|]. unfold walked in *. cbn [ns_lookup]. rewrite Ek. done.
  - pose proof (rest_shorter zz k Ek) as Hrest. cbv zeta in Hrest. set (rest := if (1 <? length (drop (S k) zz))%nat then _ else _) in *.
    unfold ns_at. assert (Ha : a ≠ 0).
    { destruct W as (H & _). pose proof (n_addr _ _ _ _ _ (i_ns _ _ _ _ H) a n Hn). lia. }
    rewrite (proj2 (Z.eqb_neq _ _) Ha), Hn. cbn [res_bind].
    assert (Hct : table_ok sd (paChild n)) by (destruct W as (H & _); apply (n_node _ _ _ _ _ (i_ns _ _ _ _ H) a n Hn)).
    destruct (t_find sd (paChild n) (take (S k) zz) true Hct) as (o & -> & Ho). cbn [fst].
    destruct o as [p|]; cbn [fmap option_fmap option_map] in Ho.
    + (* an existing child *)
      destruct (IH b E s0 (pData p) rest s root) as (o & r' & s' & -> & Hw1 & Hwf & Hw2); [done..| | |lia|].
      { destruct W as (H & _). destruct (parent_of E s (pData p) H) as (rn & _ & Hrn & _); [|eauto].
        exists a, n, (take (S k) zz). done. }
      { intros Hb. apply rest_last. auto. }
      exists o, r', s'. split; [done|]. unfold walked. cbn [ns_lookup]. rewrite Ek. fold zz rest. split_and!.
      * intros Hb. rewrite Hn. cbn [mbind option_bind]. rewrite <- Ho. cbn [mbind option_bind]. by apply Hw1.
      * intros c. rewrite Hn. cbn [mbind option_bind]. rewrite <- Ho. cbn [mbind option_bind]. by apply Hwf.
      * destruct o as [c|]; [|done]. destruct Hw2 as (W' & Hs' & Hlk & Hc). split_and!; [done|done| |done].
        destruct (Hs' a n Hn) as (n' & -> & _ & Hk'). cbn [mbind option_bind]. by rewrite (Hk' _ _ (eq_sym Ho)).
    + assert (Hnone : ns_lookup (S fuel) a zz (namespaces s) = None).
      { cbn [ns_lookup]. rewrite Ek. fold zz. rewrite Hn. cbn [mbind option_bind]. by rewrite <- Ho. }
      destruct b; cbn [negb].
      2: { exists None, root, s. split; [done|]. split; [intros _; by rewrite Hnone|]. split; [intros c; by rewrite Hnone|].
           destruct W as (H & [] & Hsub & _). split_and!; try (done || congruence). by apply thinned_heap. }
      destruct (TH8_MX_NS_DEPTH <=? nDepth n).
      { edestruct walked_fail as (s'' & Es & Hw); [exact H0|exact HE|apply walking_env; exact W|exact Hnone|].
        exists None, root, s''. split; [exact Es|exact Hw]. }
      destruct (comp_ok zz k Ek (Hl eq_refl)) as [Hcomp Hcl]. destruct W as (H & O & Hs & Hr).
      destruct (create_child sd a n (take (S k) zz) s) as [c s1] eqn:Ec.
      destruct (create_child_ok E s a n _ c s1 H Hn (eq_sym Ho) Hcomp Hcl Ec) as (H1 & O1 & Hm).
      assert (O01 : outside s0 s1) by (by eapply outside_trans).
      destruct c as [c|].
      2: { edestruct (walked_fail (S fuel) E s0 a zz s root root s1 H0 HE) as (s'' & Es & Hw); [|exact Hnone|by exists None, root, s''].
           split_and!; [done|done|by rewrite Hm|by rewrite Hm]. }
      pose proof Hm as (Hc0 & Hcs & Hcl' & Hsub & n' & Hn' & Hk').
      destruct (IH true E s0 c rest s1 (match root with None => Some c | _ => root end)) as (o & r' & s' & -> & _ & _ & Hw2);
        [done|done| |done|intros _; apply rest_last; by apply Hl|lia|].
      { apply (walking_child E s0 root s s1 a c (take (S k) zz)); [by split_and!|done|done|exact Hm]. }
      exists o, r', s'. split; [done|]. split; [done|]. split; [intros d; by rewrite Hnone|]. destruct o as [d|]; [|done].
      destruct Hw2 as (W' & Hs' & Hlk & Hd). split_and!; [done|by eapply tree_sub_trans| |done].
      cbn [ns_lookup]. rewrite Ek. fold zz rest. destruct (Hs' a n' Hn') as (n2 & -> & _ & Hk2).
      cbn [mbind option_bind]. by rewrite (Hk2 _ _ Hk').
Qed.
End tree.
