(* ===== verification/VarResolve.v ===== *)
(** * VarResolve: what a name denotes.

    A pure resolution of names, and the proof that th8FindValue computes it,
    creates what is missing when it is told to, and keeps what every other name
    denotes. *)

From S2P Require Import Prelude Memory Strings Hash Lists VarTables VarState VarRefs Namespaces Vars VarInv NsTree.
From stdpp Require Import gmap.
#[local] Open Scope Z_scope.
#[local] Open Scope res_scope.

Section resolve.
Context (debug : bool) (sd : seeds) {I : Type} `{VE : VarEnv I}.
Implicit Types (s : interp I).

(** ** The resolution of names *)

Definition entry_of (t : tref) (key : bytes) s : option Z :=
  match table_at t s with
  | Ok h => d ← dict h !! key; if d =? 0 then None else Some d
  | Err _ => None
  end.

(** The table and the key of the outer name, seen from the frame [k]. *)
Definition slot_of (k : nat) (nm : var_name) s : option (tref * bytes) :=
  if bGlobal nm && has_sep (zOuter nm) then
    let '(path, tail) := th8SplitQualName (zOuter nm) in
    (λ a, (TNs a, tail)) <$> ns_lookup (3 + length (default [] path)) (pGlobalNs s) (default [] path) (namespaces s)
  else Some (TFrame (if bGlobal nm then global_frame s else k), zOuter nm).

Definition outer_of (k : nat) (nm : var_name) s : option Z :=
  slot ← slot_of k nm s; entry_of (fst slot) (snd slot) s.

Definition var_of (k : nat) (nm : var_name) s : option Z :=
  a ← outer_of k nm s;
  match zInner nm with Some z => entry_of (TVar a) z s | None => Some a end.

(** ** States that keep what they have *)

Record shape s s' : Prop := {
  sh_frames : length (frames s') = length (frames s);
  sh_saved : saved s' = saved s;
  sh_glob : pGlobalNs s' = pGlobalNs s;
  sh_cur : pCurrentNs s' = pCurrentNs s;
  sh_depth : nEvalDepth s' = nEvalDepth s;
  sh_ns : 0 < nEvalDepth s → ∀ a, is_Some (namespaces s !! a) → is_Some (namespaces s' !! a)
}.

Record grows s s' : Prop := {
  gr_shape : shape s s';
  gr_var : ∀ a v, heap (mem s) !! a = Some v → ∃ v', heap (mem s') !! a = Some v' ∧
    zData v' = zData v ∧ nData v' = nData v ∧ (is_Some (pHash v) → is_Some (pHash v'));
  gr_table : ∀ t h, table_at t s = Ok h → ∃ h', table_at t s' = Ok h' ∧
    ∀ k d, dict h !! k = Some d → d ≠ 0 → dict h' !! k = Some d;
  gr_tree : kids_sub (namespaces s) (namespaces s')
}.

Lemma shape_refl s : shape s s.
Proof. by split. Qed.
Lemma shape_trans s1 s2 s3 : shape s1 s2 → shape s2 s3 → shape s1 s3.
Proof. intros [] []. split; [congruence..|]. intros Hd a Ha. apply sh_ns1; [congruence|auto]. Qed.

Lemma grows_refl s : grows s s.
Proof. split; [done| | |]; eauto. intros a n Ha. eauto. Qed.

Lemma grows_trans s1 s2 s3 : grows s1 s2 → grows s2 s3 → grows s1 s3.
Proof.
  intros [A1 A2 A3 A4] [B1 B2 B3 B4]. split; [by eapply shape_trans| | |].
  - intros a v Hv. destruct (A2 a v Hv) as (v2 & Hv2 & E1 & E2 & E3). destruct (B2 a v2 Hv2) as (v3 & Hv3 & F1 & F2 & F3).
    exists v3. split_and!; [done|congruence|congruence|auto].
  - intros t h Ht. destruct (A3 t h Ht) as (h2 & Ht2 & E2). destruct (B3 t h2 Ht2) as (h3 & Ht3 & E3). exists h3. auto.
  - intros a n Ha. destruct (A4 a n Ha) as (n2 & Hn2 & E2). destruct (B4 a n2 Hn2) as (n3 & Hn3 & E3). eauto.
Qed.

Lemma entry_grows s s' t key a : grows s s' → entry_of t key s = Some a → entry_of t key s' = Some a.
Proof.
  intros H. unfold entry_of. destruct (table_at t s) as [h|] eqn:Et; [|done].
  destruct (gr_table s s' H t h Et) as (h' & -> & Hk). destruct (dict h !! key) as [d|] eqn:Ed; [|done].
  cbn [mbind option_bind]. destruct (d =? 0) eqn:E0; [done|]. intros [= ->]. bool_to_prop.
  rewrite (Hk key a Ed E0). cbn [mbind option_bind]. by rewrite (proj2 (Z.eqb_neq _ _) E0).
Qed.

Lemma outer_grows s s' k nm a : grows s s' → outer_of k nm s = Some a → outer_of k nm s' = Some a.
Proof.
  intros H. unfold outer_of, slot_of, global_frame. destruct (gr_shape _ _ H) as [-> _ -> _ _].
  destruct (bGlobal nm && has_sep (zOuter nm)).
  - destruct (th8SplitQualName (zOuter nm)) as [path tail].
    destruct (ns_lookup _ (pGlobalNs s) _ (namespaces s)) as [c|] eqn:Ec; [|done].
    rewrite (ns_lookup_sub _ _ _ _ _ _ (gr_tree _ _ H) Ec). cbn. by apply entry_grows.
  - cbn. by apply entry_grows.
Qed.

(** A name keeps its variable. *)
Lemma var_grows s s' k nm a : grows s s' → var_of k nm s = Some a → var_of k nm s' = Some a.
Proof.
  intros H. unfold var_of. destruct (outer_of k nm s) as [b|] eqn:Eb; [|done].
  rewrite (outer_grows _ _ _ _ _ H Eb). cbn [mbind option_bind]. destruct (zInner nm); [|done]. by apply entry_grows.
Qed.

(** And its value. *)
Definition names_kept s s' : Prop :=
  ∀ k nm a w, var_of k nm s = Some a → heap (mem s) !! a = Some w →
    var_of k nm s' = Some a ∧ ∃ w', heap (mem s') !! a = Some w' ∧ zData w' = zData w ∧ nData w' = nData w.

Lemma grows_kept s s' : grows s s' → names_kept s s'.
Proof.
  intros G k nm a w Ha Hw. split; [by eapply var_grows|]. destruct (gr_var _ _ G a w Hw) as (w' & Hw' & E1 & E2 & _). eauto.
Qed.

Lemma kept_grows s1 s2 s3 : names_kept s1 s2 → grows s2 s3 → names_kept s1 s3.
Proof.
  intros K G k nm a w Ha Hw. destruct (K k nm a w Ha Hw) as (Ha2 & w2 & Hw2 & E1 & E2).
  destruct (grows_kept _ _ G k nm a w2 Ha2 Hw2) as (Ha3 & w3 & Hw3 & F1 & F2). split; [done|]. exists w3. split_and!; [done|congruence..].
Qed.

(** ** Replacing a table *)

Lemma table_env s i t : table_at t (set_env i s) = table_at t s.
Proof. by destruct t. Qed.

Lemma grows_env s i : grows s (set_env i s).
Proof.
  split; [by split| | |intros a n Ha; eauto]; [by eauto|]. intros t h Ht. exists h. by rewrite table_env.
Qed.

Lemma put_table_get s s' t h h' : table_at t s = Ok h → put_table t h' s = Ok s' → table_at t s' = Ok h'.
Proof.
  destruct t as [k|a|a]; cbn [table_at put_table].
  - destruct (frames s !! k) as [f|] eqn:Ef; [|done]. intros _ [= <-]. fields.
    by rewrite list_lookup_alter_eq, Ef.
  - unfold ns_at. destruct (a =? 0) eqn:Ea; [done|]. destruct (namespaces s !! a) as [n|] eqn:En; [|done].
    cbn [res_bind]. intros _ [= <-]. fields. by rewrite lookup_insert_eq.
  - unfold alter_var, deref. destruct (a =? 0) eqn:Ea; [done|]. destruct (heap (mem s) !! a) as [v|] eqn:Ev; [|done].
    cbn [res_bind]. intros _ [= <-]. fields. by rewrite lookup_insert_eq.
Qed.

(** The other tables stay. *)
Lemma put_table_other s s' t t' h h' : table_at t s = Ok h → put_table t h' s = Ok s' → t' ≠ t →
  table_at t' s' = table_at t' s.
Proof.
  intros Ht Hp Hne. destruct t as [k|a|a]; cbn [table_at put_table] in Ht, Hp.
  - injection Hp as <-. destruct t' as [k'|b|b]; cbn [table_at]; [fields|done..].
    rewrite list_lookup_alter_ne by congruence. done.
  - unfold ns_at in *. destruct (a =? 0) eqn:Ea; [done|]. destruct (namespaces s !! a) as [n|] eqn:En; [|done].
    cbn [res_bind] in Hp. injection Hp as <-. destruct t' as [k'|b|b]; cbn [table_at]; [done| |done].
    unfold ns_at. fields. by rewrite lookup_insert_ne by congruence.
  - unfold alter_var, deref in *. destruct (a =? 0) eqn:Ea; [done|]. destruct (heap (mem s) !! a) as [v|] eqn:Ev; [|done].
    cbn [res_bind] in Hp. injection Hp as <-. destruct t' as [k'|b|b]; cbn [table_at]; [done|done|].
    unfold deref. fields. by rewrite lookup_insert_ne by congruence.
Qed.

Lemma insert_live {A} (m : gmap Z A) a v b : is_Some (m !! b) → is_Some (<[a := v]> m !! b).
Proof. intros Hb. destruct (decide (a = b)) as [<-|Hne]; [by rewrite lookup_insert_eq|by rewrite lookup_insert_ne]. Qed.

Lemma put_table_shape s s' t h : put_table t h s = Ok s' → shape s s'.
Proof.
  destruct t as [k|a|a]; cbn [put_table].
  - intros [= <-]. split; fields; [by rewrite length_alter|done..].
  - unfold ns_at. destruct (a =? 0); [done|]. destruct (namespaces s !! a) as [n|] eqn:En; [|done]. cbn [res_bind].
    intros [= <-]. split; fields; [done..|]. intros _ b Hb. by apply insert_live.
  - destruct (alter_var _ a (mem s)); [|done]. cbn [res_bind]. intros [= <-]. by split.
Qed.

Lemma put_table_grows s s' t h h' : table_at t s = Ok h → put_table t h' s = Ok s' →
  (∀ k d, dict h !! k = Some d → d ≠ 0 → dict h' !! k = Some d) → grows s s'.
Proof.
  intros Ht Hp Hk. split; [by eapply put_table_shape| | |].
  - intros a v Hv. destruct t as [k|b|b]; cbn [put_table table_at] in Hp, Ht.
    + injection Hp as <-. eauto.
    + destruct (ns_at b s); [|done]. cbn [res_bind] in Hp. injection Hp as <-. eauto.
    + unfold alter_var, deref in *. destruct (b =? 0); [done|]. destruct (heap (mem s) !! b) as [w|] eqn:Ew; [|done].
      cbn [res_bind] in Hp. injection Hp as <-. fields. destruct (decide (b = a)) as [<-|Hne].
      * rewrite lookup_insert_eq. eexists. split; [done|]. assert (v = w) as -> by congruence. eauto.
      * rewrite lookup_insert_ne by done. eauto.
  - intros t' h0 Ht'. destruct (decide (t' = t)) as [->|Hne].
    + exists h'. split; [by eapply put_table_get|]. assert (h0 = h) as -> by congruence. done.
    + exists h0. by rewrite (put_table_other _ _ _ _ _ _ Ht Hp Hne).
  - destruct t as [k|b|b]; cbn [put_table] in Hp.
    + injection Hp as <-. intros a n Ha. eauto.
    + unfold ns_at in Hp. destruct (b =? 0); [done|]. destruct (namespaces s !! b) as [m|] eqn:Em; [|done].
      cbn [res_bind] in Hp. injection Hp as <-. intros a n Ha. fields. destruct (decide (b = a)) as [<-|Hne].
      * rewrite lookup_insert_eq. eexists. split; [done|]. assert (n = m) as -> by congruence. done.
      * rewrite lookup_insert_ne by done. eauto.
    + destruct (alter_var _ b (mem s)); [|done]. cbn [res_bind] in Hp. injection Hp as <-. intros c n Hc. eauto.
Qed.

Lemma put_table_same s t h h' : table_at t s = Ok h → ∃ s', put_table t h' s = Ok s'.
Proof.
  destruct t as [k|b|b]; cbn [put_table table_at]; [by eexists|..].
  - unfold ns_at. destruct (b =? 0); [done|]. destruct (namespaces s !! b); [by eexists|done].
  - unfold alter_var, deref. destruct (b =? 0); [done|]. destruct (heap (mem s) !! b); [by eexists|done].
Qed.

Lemma put_next s s' t h : put_table t h s = Ok s' → nNext (mem s') = nNext (mem s).
Proof.
  destruct t as [k|b|b]; cbn [put_table].
  - by intros [= <-].
  - destruct (ns_at b s); [|done]. by intros [= <-].
  - unfold alter_var. destruct (deref b (mem s)); [|done]. by intros [= <-].
Qed.

(** ** Entries *)

Lemma lookup_entry_ok E s t h key : inv sd 0 E s → table_at t s = Ok h → lookup_entry sd t key s = Ok (dict h !! key).
Proof.
  intros H Ht. destruct (table_ok_at sd 0 E s t h H Ht) as [[Hh _] _]. unfold lookup_entry. rewrite Ht. cbn [res_bind].
  destruct (t_find sd h key true Hh) as (o & -> & <-). done.
Qed.

Lemma ask_env site s : ∃ ok i, ask site s = (ok, set_env i s).
Proof. unfold ask. destruct (var_alloc (env s) site) as [ok i]. eauto. Qed.

(** An entry is there afterwards, unless memory was refused. *)
Lemma insert_entry_ok E s t h key : inv sd 0 E s → (∀ a, 0 < a → 0 <= E a) → table_at t s = Ok h →
  ∃ o s', insert_entry sd t key s = Ok (o, s') ∧ inv sd 0 E s' ∧ grows s s' ∧ nNext (mem s') = nNext (mem s) ∧
    ∃ h', table_at t s' = Ok h' ∧ match o with Some d => dict h' !! key = Some d | None => dict h !! key = None end ∧
      (o = None → dict h' = dict h) ∧ (∀ d, dict h !! key = Some d → o = Some d) ∧
      (dict h !! key = None → o = None ∨ o = Some 0).
Proof.
  intros H HE Ht. destruct (table_ok_at sd 0 E s t h H Ht) as [[Hh Hpos] Hel].
  unfold insert_entry. rewrite Ht. cbn [res_bind]. destruct (t_find sd h key true Hh) as (o & -> & Ho). cbn [fst].
  destruct o as [p|]; cbn [fmap option_fmap option_map] in Ho.
  - exists (Some (pData p)), s. split_and!; [done|done|apply grows_refl|done|]. exists h.
    split_and!; [done|done|done| |]; intros; congruence.
  - symmetry in Ho. destruct (ask_env AEntry s) as (ok & i & ->). destruct (t_insert sd h key Hh Ho) as (Hno & p & h' & Hyes & Hp & Hh' & Hd).
    assert (Ht' : table_at t (set_env i s) = Ok h) by by rewrite table_env.
    destruct ok; [rewrite Hyes|rewrite Hno].
    + assert (Hc : ∀ a, a ≠ 0 → count a (dict h') = count a (dict h)).
      { intros a Ha. rewrite Hd, count_insert by done. rewrite decide_False by congruence. lia. }
      destruct (put_table_ok sd 0 E E (set_env i s) t h h') as (s' & Es & H'); [by apply inv_env|done| | |intros a Ha; rewrite Hc by done; lia|done|].
      { split; [done|]. intros k d. rewrite Hd. intros [[<- <-]|[_ Hk]]%lookup_insert_Some; [done|by apply (Hpos k)]. }
      { intros k d. rewrite Hd. intros [[<- <-]|[_ Hk]]%lookup_insert_Some; [|by apply (Hel k)]. destruct t; cbn; auto. }
      rewrite Es. cbn [res_bind]. exists (Some (pData p)), s'. split; [done|]. split; [done|]. split.
      { eapply grows_trans; [apply (grows_env s i)|eapply put_table_grows; [exact Ht'|exact Es|]].
        intros k d Hk _. rewrite Hd, lookup_insert_ne; [done|congruence]. }
      split; [by rewrite (put_next _ _ _ _ Es)|]. exists h'. rewrite Hp.
      split_and!; [by eapply put_table_get|by rewrite Hd, lookup_insert_eq|done|intros; congruence|by right].
    + assert (Es : ∃ s', put_table t h (set_env i s) = Ok s') by by eapply (put_table_same _ t h h).
      destruct Es as [s' Es]. rewrite Es. cbn [res_bind]. exists None, s'.
      destruct (put_table_ok sd 0 E E (set_env i s) t h h) as (s1 & Es1 & H'); [by apply inv_env|done|done|done|intros; lia|done|].
      assert (s1 = s') as -> by congruence. split; [done|]. split; [done|]. split.
      { eapply grows_trans; [apply (grows_env s i)|by eapply put_table_grows]. }
      split; [by rewrite (put_next _ _ _ _ Es)|]. exists h.
      split_and!; [by eapply put_table_get|done|done|intros; congruence|by left].
Qed.

(** A reference is a variable's. *)
Lemma entry_live E s t h key d : inv sd 0 E s → (∀ a, 0 < a → 0 <= E a) → table_at t s = Ok h →
  dict h !! key = Some d → d ≠ 0 → ∃ v, heap (mem s) !! d = Some v.
Proof.
  intros H HE Ht Hk Hd. pose proof (h_refs _ _ _ _ (i_heap _ _ _ _ H) d Hd) as Hr.
  destruct (heap (mem s) !! d) as [v|] eqn:Ev; [eauto|exfalso].
  assert (Hpos : 0 < d).
  { destruct (table_ok_at sd 0 E s t h H Ht) as [[_ Hp] _]. pose proof (Hp key d Hk). lia. }
  pose proof (HE d Hpos) as He. pose proof (count_positive d (dict h) key Hk) as Hc.
  pose proof (refs_in_nonneg (all_frames s) d) as H1. pose proof (ns_vars_nonneg d (namespaces s)) as H2.
  pose proof (elem_refs_nonneg d (heap (mem s))) as H3. destruct t as [k|b|b]; cbn [table_at] in Ht.
  - destruct (frames s !! k) as [f|] eqn:Ef; [|done]. injection Ht as <-.
    pose proof (refs_in_alter (frames s) k f Th8_HashNew d Ef) as Ha.
    pose proof (refs_in_nonneg (alter (λ f, mkFrame Th8_HashNew (pNs f)) k (frames s)) d) as H4.
    unfold all_frames in *. rewrite refs_in_app in *. pose proof (refs_in_nonneg (concat (saved s)) d).
    rewrite (proj2 (table_new sd)), count_empty in Ha. lia.
  - unfold ns_at in Ht. destruct (b =? 0); [done|]. destruct (namespaces s !! b) as [n|] eqn:En; [|done].
    injection Ht as <-. unfold ns_vars in *. rewrite (msum_delete _ _ b n En) in *.
    pose proof (ns_vars_nonneg d (delete b (namespaces s))). unfold ns_vars in *. lia.
  - unfold deref in Ht. destruct (b =? 0); [done|]. destruct (heap (mem s) !! b) as [w|] eqn:Ew; [|done].
    cbn [res_bind] in Ht. destruct (pHash w) as [h'|] eqn:Eh; [|done]. injection Ht as ->.
    pose proof (i_live _ _ _ _ H b w Ew) as Hn. unfold elem_refs in *. rewrite (msum_delete _ _ b w Ew) in *.
    assert (Hw : weight d w = count d (dict h)) by (unfold weight; rewrite Eh; by replace (0 <? nRef w) with true by lia).
    pose proof (elem_refs_nonneg d (delete b (heap (mem s)))). unfold elem_refs in *. lia.
Qed.

Lemma table_new_var E s t h : inv sd 0 E s → table_at t s = Ok h →
  table_at t (set_mem (bump (put (nNext (mem s)) new_variable (mem s))) s) = Ok h.
Proof.
  intros H Ht. destruct t as [k|b|b]; cbn [table_at] in *; [done..|]. unfold deref in *. fields.
  destruct (b =? 0); [done|]. destruct (heap (mem s) !! b) as [w|] eqn:Ew; [|done].
  pose proof (proj1 (next_free sd 0 E s H)). by rewrite lookup_insert_ne, Ew by congruence.
Qed.

Lemma grows_new E s : inv sd 0 E s → grows s (set_mem (bump (put (nNext (mem s)) new_variable (mem s))) s).
Proof.
  intros H. destruct (next_free sd 0 E s H) as [Hv _].
  assert (Hne : ∀ a v, heap (mem s) !! a = Some v → nNext (mem s) ≠ a) by congruence.
  split; [by split|..].
  - intros a v Ha. fields. rewrite lookup_insert_ne by eauto. eauto.
  - intros t h Ht. exists h. split; [by eapply table_new_var|done].
  - intros a n Ha. eauto.
Qed.

(** A new variable behind an entry that has none. *)
Lemma find_new E s0 s t h key : inv sd 0 E s → (∀ a, 0 < a → 0 <= E a) → table_at t s = Ok h →
  dict h !! key = Some 0 → grows s0 s →
  ∃ o s', (let '(ok, s) := ask AVariable s in
        if negb ok then Ok (None, s)
        else
          let a := nNext (mem s) in
          let s := set_mem (bump (put a new_variable (mem s))) s in
          let* s := store_entry sd t key a s in
          Ok (Some a, s)) = Ok (o, s') ∧ inv sd 0 E s' ∧ grows s0 s' ∧
    (true = false → s' = s0 ∧ o = entry_of t key s0) ∧
    match o with Some a => entry_of t key s' = Some a ∧ is_Some (heap (mem s') !! a) | None => True end.
Proof.
  intros H HE Ht Hk G. destruct (ask_env AVariable s) as (ok & i & ->). destruct ok; cbn [negb].
  2: { exists None, (set_env i s). split_and!; [done|by apply inv_env|by eapply grows_trans; [|apply grows_env]|done|done]. }
  cbv zeta. set (s1 := set_env i s). assert (H1 : inv sd 0 E s1) by by apply inv_env.
  assert (G1 : grows s s1) by apply grows_env. assert (Ht1 : table_at t s1 = Ok h) by (unfold s1; by rewrite table_env).
  set (a := nNext (mem s1)). pose proof (new_var_ok sd E s1 H1) as H2. pose proof (grows_new E s1 H1) as G2.
  fold a in H2, G2. set (s2 := set_mem _ s1) in *.
  assert (Ht2 : table_at t s2 = Ok h) by exact (table_new_var E s1 t h H1 Ht1).
  unfold store_entry. rewrite Ht2. cbn [res_bind].
  destruct (table_ok_at sd 0 _ s2 t h H2 Ht2) as [[Hh Hpos] Hel]. destruct (t_set sd h key 0 a Hh Hk) as [Hh' Hd'].
  pose proof (next_pos sd 0 E s1 H1) as Ha. fold a in Ha.
  destruct (put_table_ok sd 0 _ E s2 t h (set_data sd h key a) H2 Ht2) as (s3 & E3 & H3).
  { split; [done|]. intros k d. rewrite Hd'. intros [[<- <-]|[_ Hk']]%lookup_insert_Some; [lia|by apply (Hpos k)]. }
  { intros k d. rewrite Hd'. intros [[<- <-]|[_ Hk']]%lookup_insert_Some; [|by apply (Hel k)].
    destruct t as [j|b|b]; cbn [elder]; [done..|]. right. cbn [table_at] in Ht1. unfold deref in Ht1.
    destruct (b =? 0); [done|]. destruct (heap (mem s1) !! b) as [w|] eqn:Ew; [|done].
    apply (h_addr _ _ _ _ (i_heap _ _ _ _ H1) b w Ew). }
  { intros c Hc. rewrite Hd', (count_update _ _ _ _ _ Hk). rewrite (decide_False (P := 0 = c)) by done.
    unfold a. repeat case_decide; subst; lia || congruence. }
  { done. }
  rewrite E3. cbn [res_bind]. exists (Some a), s3. split; [done|]. split; [done|].
  assert (Ht3 : table_at t s3 = Ok (set_data sd h key a)) by by eapply put_table_get.
  assert (Hk3 : dict (set_data sd h key a) !! key = Some a) by by rewrite Hd', lookup_insert_eq.
  split_and!; [|done| |by eapply entry_live; [| | |exact Hk3|lia]].
  - repeat (eapply grows_trans; [eassumption|]). eapply put_table_grows; [exact Ht2|exact E3|].
    intros k d Hkd Hd. rewrite Hd'. destruct (decide (key = k)) as [<-|]; [congruence|by rewrite lookup_insert_ne].
  - unfold entry_of. rewrite Ht3, Hk3. cbn [mbind option_bind]. by rewrite (proj2 (Z.eqb_neq _ _)) by lia.
Qed.

(** The variable of an entry, made if it is missing. *)
Lemma find_in_ok E s t h key b : inv sd 0 E s → (∀ a, 0 < a → 0 <= E a) → table_at t s = Ok h →
  ∃ o s', find_in sd t key b s = Ok (o, s') ∧ inv sd 0 E s' ∧ grows s s' ∧
    (b = false → s' = s ∧ o = entry_of t key s) ∧ (∀ a, entry_of t key s = Some a → o = Some a) ∧
    match o with Some a => entry_of t key s' = Some a ∧ is_Some (heap (mem s') !! a) | None => True end.
Proof.
  intros H HE Ht. unfold find_in.
  assert (He : entry_of t key s = (d ← dict h !! key; if d =? 0 then None else Some d)) by (unfold entry_of; by rewrite Ht).
  destruct b.
  - destruct (insert_entry_ok E s t h key H HE Ht) as (o & s1 & -> & H1 & G1 & _ & h1 & Ht1 & Hd & _ & Hold & _).
    assert (Hfind : ∀ a, entry_of t key s = Some a → o = Some a ∧ a ≠ 0).
    { intros a. rewrite He. destruct (dict h !! key) as [d|]; [|done]. cbn [mbind option_bind].
      destruct (d =? 0) eqn:E0; [done|]. intros [= <-]. bool_to_prop. by rewrite (Hold d). }
    cbn [res_bind]. destruct o as [d|].
    2: { exists None, s1. split_and!; try done. intros a Ha. by destruct (Hfind a Ha). }
    destruct (d =? 0) eqn:E0; bool_to_prop; cbn [negb].
    2: { exists (Some d), s1. split_and!; [done..| | |by eapply entry_live]; [by apply Hfind|].
         unfold entry_of. rewrite Ht1, Hd. cbn [mbind option_bind]. by rewrite (proj2 (Z.eqb_neq _ _) E0). }
    subst d. destruct (find_new E s s1 t h1 key H1 HE Ht1 Hd G1) as (o & s' & Ef & H' & G & Hb & Ho).
    exists o, s'. split; [exact Ef|]. split_and!; [done..| |done]. intros a Ha. destruct (Hfind a Ha). congruence.
  - rewrite (lookup_entry_ok E s t h key H Ht). cbn [res_bind].
    pose proof (grows_refl s). destruct (dict h !! key) as [d|] eqn:Ed; cbn [mbind option_bind] in *.
    + destruct (d =? 0) eqn:E0; cbn [negb]; [exists None, s; split_and!; (done || by rewrite He)|]. bool_to_prop. exists (Some d), s.
      assert (is_Some (heap (mem s) !! d)) by by eapply entry_live. split_and!; (done || by rewrite He).
    + exists None, s. split_and!; (done || by rewrite He).
Qed.

(** ** Arrays *)

Lemma grows_write s b v v' : heap (mem s) !! b = Some v → zData v' = zData v → nData v' = nData v →
  pHash v' = pHash v → grows s (set_mem (put b v' (mem s)) s).
Proof.
  intros Hv Hz Hn Hp. split; [by split|..].
  - intros a w Ha. fields. destruct (decide (b = a)) as [<-|Hne]; [|by rewrite lookup_insert_ne by done; eauto].
    rewrite lookup_insert_eq. exists v'. assert (w = v) as -> by congruence. by rewrite Hp.
  - intros t h Ht. exists h. split; [|done]. destruct t as [k|a|a]; cbn [table_at] in *; [done..|].
    unfold deref in *. fields. destruct (a =? 0); [done|]. destruct (decide (b = a)) as [<-|Hne].
    + rewrite lookup_insert_eq. cbn [res_bind]. rewrite Hv in Ht. by rewrite Hp.
    + by rewrite lookup_insert_ne.
  - intros a n Ha. eauto.
Qed.

(** A variable without a value becomes an empty array. *)
Lemma make_array_ok E s b v n : inv sd 0 E s → heap (mem s) !! b = Some v → pHash v = None → zData v = None →
  let s' := set_iArrayHashGeneration n (set_mem (put b (set_nGeneration n (set_pHash Th8_HashNew v)) (mem s)) s) in
  inv sd 0 E s' ∧ grows s s' ∧ table_at (TVar b) s' = Ok Th8_HashNew.
Proof.
  intros H Hv Hp Hz s'. set (v' := set_nGeneration n (set_pHash Th8_HashNew v)) in *.
  pose proof (h_addr _ _ _ _ (i_heap _ _ _ _ H) b v Hv) as Hb. pose proof (proj1 (table_new sd)) as Hok.
  pose proof (proj2 (table_new sd)) as Hd. split_and!.
  - pose proof (i_live _ _ _ _ H b v Hv) as Hn. destruct H as [H1 H2 H3 H4 H5 H6 H7 H8].
    destruct (h_vars _ _ _ _ H1 b v Hv) as (Hn0 & Hval & _). unfold s'. split; fields; [| |done..].
    + eapply heap_put; [exact H1|exact Hv|done|done| |intros a Ha|exact (h_pos _ _ _ _ H1)].
      * intros h [= <-]. split_and!; [done..|]. intros k d. by rewrite Hd.
      * assert (Hw : weight a v = 0) by (unfold weight; rewrite Hp; by destruct (0 <? nRef v)).
        assert (Hw' : weight a v' = 0) by (unfold weight, v'; cbn [set_nGeneration set_pHash nRef pHash]; rewrite Hd, count_empty; by destruct (0 <? nRef v)).
        unfold all_frames. fields. rewrite Hw, Hw'. unfold v'. cbn [set_nGeneration set_pHash nRef]. case_decide; lia.
    + intros a w [[<- <-]|[_ Ha]]%lookup_insert_Some; [done|by apply (H2 a w)].
  - split; [by split|..].
    + intros a w Ha. unfold s'. fields. destruct (decide (b = a)) as [<-|Hne]; [|by rewrite lookup_insert_ne by done; eauto].
      rewrite lookup_insert_eq. exists v'. assert (w = v) as -> by congruence. split_and!; eauto.
    + intros t h Ht. exists h. split; [|done]. destruct t as [k|a|a]; cbn [table_at] in *; [done..|].
      unfold deref, s' in *. fields. destruct (a =? 0); [done|]. destruct (decide (b = a)) as [<-|Hne].
      * rewrite Hv in Ht. cbn [res_bind] in Ht. by rewrite Hp in Ht.
      * by rewrite lookup_insert_ne.
    + intros a m Ha. eauto.
  - cbn [table_at]. unfold deref, s'. fields. rewrite (proj2 (Z.eqb_neq _ _)) by lia. by rewrite lookup_insert_eq.
Qed.

(** What a search leaves: the state is as it was, unless it may create. *)
Definition found (t : tref) (key : bytes) (b : bool) E s (o : option Z) s' : Prop :=
  inv sd 0 E s' ∧ grows s s' ∧ (b = false → s' = s ∧ o = entry_of t key s) ∧ (∀ a, entry_of t key s = Some a → o = Some a) ∧
  match o with Some a => entry_of t key s' = Some a ∧ is_Some (heap (mem s') !! a) | None => True end.

(** The element of an array; the epoch goes up where elements may be made. *)
Lemma element_ok E s a z (b : bool) h : inv sd 0 E s → (∀ a, 0 < a → 0 <= E a) → table_at (TVar a) s = Ok h →
  ∃ o s', (let* (e, s) := find_in sd (TVar a) z b s in
           match e with
           | None => Ok (None, s)
           | Some e => if b then let* m := alter_var bump_nEpoch a (mem s) in Ok (Some e, set_mem m s) else Ok (Some e, s)
           end) = Ok (o, s') ∧ found (TVar a) z b E s o s'.
Proof.
  intros H HE Ht. destruct (find_in_ok E s (TVar a) h z b H HE Ht) as (o & s1 & -> & H1 & G1 & Hb & Hold & Ho). cbn [res_bind].
  destruct o as [e|]; [|by exists None, s1]. destruct b; [|by exists (Some e), s1].
  destruct (gr_table _ _ G1 _ _ Ht) as (h1 & Ht1 & _). cbn [table_at] in Ht1. unfold alter_var.
  destruct (deref a (mem s1)) as [v|] eqn:Ed; [|done]. cbn [res_bind].
  assert (Hv : heap (mem s1) !! a = Some v) by (unfold deref in Ed; destruct (a =? 0), (heap (mem s1) !! a); congruence).
  pose proof (grows_write s1 a v (bump_nEpoch v) Hv eq_refl eq_refl eq_refl) as G2.
  destruct Ho as [Ho [w Hw]]. destruct (gr_var _ _ G2 e w Hw) as (w' & Hw' & _).
  eexists _, _. split; [done|]. split_and!; [|by eapply grows_trans|done|done|by eapply entry_grows|by eexists].
  eapply write_content_ok; [exact H1|exact Hv|done|done|apply (h_vars _ _ _ _ (i_heap _ _ _ _ H1) a v Hv)|].
  intros [h2 Hh]. destruct (h_vars _ _ _ _ (i_heap _ _ _ _ H1) a v Hv) as (_ & _ & Harr). apply (Harr h2 Hh).
Qed.

(** A search in a table that was made on the way. *)
Lemma found_later E s0 s t key o s' : grows s0 s → entry_of t key s0 = None → found t key true E s o s' →
  found t key true E s0 o s'.
Proof.
  intros G Hno (H1 & G' & _ & _ & H3). split_and!; [done|by eapply grows_trans|done|intros a; by rewrite Hno|done].
Qed.

Lemma found_none E s t key s' : inv sd 0 E s' → grows s s' → entry_of t key s = None → found t key true E s None s'.
Proof. intros H G Hno. split_and!; [done..| |done]. intros a. by rewrite Hno. Qed.

Lemma find_element_ok E s a v nm z b : inv sd 0 E s → (∀ a, 0 < a → 0 <= E a) → heap (mem s) !! a = Some v →
  ∃ o s', find_element sd a nm z b s = Ok (o, s') ∧ found (TVar a) z b E s o s'.
Proof.
  intros H HE Hv. pose proof (h_addr _ _ _ _ (i_heap _ _ _ _ H) a v Hv) as Ha. unfold find_element.
  rewrite (deref_ok _ _ _ Hv) by lia. cbn [res_bind]. destruct (pHash v) as [h|] eqn:Ep.
  { cbn [res_bind negb]. apply element_ok with h; [done..|]. cbn [table_at]. rewrite (deref_ok _ _ _ Hv) by lia. cbn [res_bind]. by rewrite Ep. }
  assert (Hno : ∀ s, heap (mem s) !! a = Some v → entry_of (TVar a) z s = None).
  { intros s1 Hv1. unfold entry_of. cbn [table_at]. rewrite (deref_ok _ _ _ Hv1) by lia. cbn [res_bind]. by rewrite Ep. }
  destruct b; cbn [negb].
  2: { cbn [res_bind negb]. exists None, s. split; [done|]. split; [done|]. split; [apply grows_refl|]. by rewrite (Hno s Hv). }
  specialize (Hno s Hv).
  case_bool_decide as Hz.
  { cbn [res_bind negb]. eexists None, _. split; [done|]. apply found_none; [by apply inv_env|apply grows_env|done]. }
  destruct (ask_env ATable s) as (ok & i & ->). destruct ok; cbn [negb res_bind].
  2: { eexists None, _. split; [done|]. apply found_none; [by apply inv_env|apply grows_env|done]. }
  unfold alter_var. rewrite (deref_ok _ a v) by (done || lia). cbn [res_bind negb].
  destruct (make_array_ok E (set_env i s) a v (next_int (iArrayHashGeneration (set_env i s)))) as (H1 & G1 & Ht1);
    [by apply inv_env|done|done|by destruct (zData v); [destruct Hz; eauto|]|].
  destruct (element_ok E _ a z true _ H1 HE Ht1) as (o & s' & Es & F). exists o, s'. split; [exact Es|].
  eapply found_later; [|done|exact F]. eapply grows_trans; [apply grows_env|exact G1].
Qed.

(** ** The whole search *)

(** No fault but, in a debug build, a failed [ALWAYS]. *)
Definition safe {A} (r : res fault A) (P : A → Prop) : Prop :=
  match r with Ok x => P x | Err AssertFailed => debug = true | Err _ => False end.

Lemma safe_ok {A} (r : res fault A) x (P : A → Prop) : r = Ok x → P x → safe r P.
Proof. by intros ->. Qed.

Lemma safe_mono {A} (r : res fault A) (P Q : A → Prop) : safe r P → (∀ x, P x → Q x) → safe r Q.
Proof. destruct r as [|[]]; simpl; eauto. Qed.

Lemma safe_bind {A B} (m : res fault A) (k : A → res fault B) P Q :
  safe m P → (∀ x, P x → safe (k x) Q) → safe (let* x := m in k x) Q.
Proof. destruct m as [|[]]; simpl; eauto. Qed.

Lemma safe_always b : safe (ALWAYS debug b) (λ r, r = b).
Proof. unfold ALWAYS. by destruct b, debug eqn:E. Qed.

(** Frames, namespaces and variables are where they were. *)
Lemma outside_grows s s' : outside s s' → tree_sub (namespaces s) (namespaces s') → grows s s'.
Proof.
  intros [O1 O2 O3 O4 O5 O6 O7 O8 O9 O10] Hs. split.
  - split; [congruence..|]. intros _ a. by apply sub_live.
  - intros a v Hv. rewrite O1. eauto.
  - intros t h Ht. exists h. split; [|done]. destruct t as [k|a|a]; cbn [table_at] in *.
    + by rewrite O3.
    + unfold ns_at in *. destruct (a =? 0); [done|]. destruct (namespaces s !! a) as [n|] eqn:En; [|done].
      destruct (Hs a n En) as (n' & -> & Hv & _). cbn [res_bind] in *. by rewrite Hv.
    + unfold deref in *. by rewrite O1.
  - by apply tree_sub_kids.
Qed.

Lemma append_all_text apps : ∀ (i i' : I) str z,
  append_all i str apps = (Some z, i') → fst z = fst str ++ concat (map fst apps).
Proof.
  induction apps as [|app apps IH]; intros i i' str z; cbn [append_all map concat].
  - intros [= <- <-]. by rewrite app_nil_r.
  - unfold Th8_StringAppend. destruct (th8CheckResultSize _ _) as [rc i1]. destruct (negb _); [done|].
    destruct (th8BufferAlloc _ _) as [[] i2]; [|done]. intros Ha. apply IH in Ha. by rewrite Ha, app_assoc.
Qed.

Lemma back_up_last z n : (n <= length z)%nat → last (take (back_up z n) z) ≠ Some COLON.
Proof.
  induction n as [|n IH]; intros Hn; cbn [back_up]; [done|].
  destruct (nth n z 0 =? COLON) eqn:E; [apply IH; lia|]. bool_to_prop.
  rewrite last_lookup, length_take, Nat.min_l by lia. cbn [Nat.pred].
  rewrite lookup_take_lt by lia. intros Hz. apply E.
  by rewrite nth_lookup, Hz.
Qed.

Lemma last_sep_lt z i : last_sep z = Some i → (i < length z)%nat.
Proof.
  revert i. induction z as [|c z IH]; intros i; cbn [last_sep]; [done|].
  destruct (last_sep z) as [j|]; [intros [= <-]; cbn; pose proof (IH j eq_refl); lia|].
  destruct (_ && _); [|done]. intros [= <-]. cbn. lia.
Qed.

Definition qualified (nm : var_name) : bool := bGlobal nm && has_sep (zOuter nm).

Lemma path_last z path tail : th8SplitQualName z = (path, tail) → 0 ∉ z → path_ok (default [] path).
Proof.
  unfold th8SplitQualName. destruct (last_sep z) as [i|] eqn:Ei.
  2: { intros [= <- <-] _. split; [done|apply not_elem_of_nil]. }
  intros [= <- <-] Hz. cbn [default from_option]. split; [|by apply nul_take]. apply back_up_last. pose proof (last_sep_lt z i Ei). lia.
Qed.

Lemma entry_env s i t key : entry_of t key (set_env i s) = entry_of t key s.
Proof. unfold entry_of. by rewrite table_env. Qed.

Lemma slot_env s i k nm : slot_of k nm (set_env i s) = slot_of k nm s.
Proof. done. Qed.

Lemma var_env s i k nm : var_of k nm (set_env i s) = var_of k nm s.
Proof.
  unfold var_of, outer_of. rewrite slot_env. destruct (slot_of k nm s) as [slot|]; [|done]. cbn [mbind option_bind].
  rewrite entry_env. destruct (entry_of _ _ s) as [a|]; [|done]. cbn [mbind option_bind].
  destruct (zInner nm); [apply entry_env|done].
Qed.

Lemma kept_env s i s' : names_kept (set_env i s) s' → names_kept s s'.
Proof. intros K k nm a w Ha Hw. apply (K k nm a w); [by rewrite var_env|exact Hw]. Qed.

Lemma undone_shape E s s' : undone sd E s s' → inv sd 0 E s' ∧ shape s s'.
Proof.
  intros (H & H1 & H2 & H3 & H4 & H5 & H6 & H7). split; [done|]. split; [congruence..|]. intros _ a. by apply sub_live.
Qed.

Lemma undone_entry E s s' t h key a : undone sd E s s' → (∀ a, 0 < a → 0 <= E a) → entry_of t key s = Some a →
  table_at t s = Ok h → table_at t s' = Ok h →
  entry_of t key s' = Some a ∧ ∃ w w', heap (mem s) !! a = Some w ∧ heap (mem s') !! a = Some w' ∧
    zData w' = zData w ∧ nData w' = nData w ∧ pHash w' = pHash w.
Proof.
  intros (H & _ & _ & _ & _ & _ & _ & Hthin) HE He Ht Ht'. assert (He' : entry_of t key s' = Some a).
  { unfold entry_of in *. rewrite Ht in He. by rewrite Ht'. }
  split; [done|]. unfold entry_of in He'. rewrite Ht' in He'. destruct (dict h !! key) as [d|] eqn:Ed; [|done].
  cbn [mbind option_bind] in He'. destruct (d =? 0) eqn:E0; [done|]. injection He' as ->. bool_to_prop.
  destruct (entry_live E s' t h key a H HE Ht' Ed E0) as [w' Hw']. destruct (Hthin a w' Hw') as (w & Hw & ?). eauto.
Qed.

(** A failed walk leaves every name its variable. *)
Lemma undone_kept E s s' : (∀ a, 0 < a → 0 <= E a) → undone sd E s s' → names_kept s s'.
Proof.
  intros HE U k nm a w Ha Hw. pose proof U as (H & Hf & Hsv & Hg & _ & _ & Hs & _).
  assert (Hout : ∀ b, outer_of k nm s = Some b → outer_of k nm s' = Some b ∧ ∃ w w', heap (mem s) !! b = Some w ∧
    heap (mem s') !! b = Some w' ∧ zData w' = zData w ∧ nData w' = nData w ∧ pHash w' = pHash w).
  { intros b. unfold outer_of. destruct (slot_of k nm s) as [[t key]|] eqn:Es; [|done]. cbn [mbind option_bind fst snd]. intros Hb.
    assert (Es' : slot_of k nm s' = Some (t, key)).
    { unfold slot_of, global_frame in *. rewrite Hf, Hg. destruct (_ && _); [|done]. destruct (th8SplitQualName _) as [path tail].
      destruct (ns_lookup _ (pGlobalNs s) _ (namespaces s)) as [c|] eqn:Ec; [|done].
      by rewrite (ns_lookup_sub _ _ _ _ _ _ (tree_sub_kids _ _ Hs) Ec). }
    rewrite Es'. cbn [mbind option_bind fst snd]. destruct (table_at t s) as [h|] eqn:Et; [|unfold entry_of in Hb; by rewrite Et in Hb].
    apply (undone_entry E s s' t h key b U HE Hb Et). unfold slot_of in Es.
    destruct (_ && _).
    - destruct (th8SplitQualName _) as [path tail]. destruct (ns_lookup _ _ _ _) as [c|]; [|done]. injection Es as <- <-.
      cbn [table_at] in *. unfold ns_at in *. destruct (c =? 0); [done|]. destruct (namespaces s !! c) as [n|] eqn:En; [|done].
      destruct (Hs c n En) as (n' & -> & Hv & _). cbn [res_bind] in *. by rewrite Hv.
    - injection Es as <- <-. cbn [table_at] in *. by rewrite Hf. }
  unfold var_of in *. destruct (outer_of k nm s) as [b|]; [|done]. cbn [mbind option_bind] in Ha.
  destruct (Hout b eq_refl) as (Hb & v & v' & Hv & Hv' & E1 & E2 & E3). rewrite Hb. cbn [mbind option_bind].
  destruct (zInner nm) as [z|].
  - destruct (table_at (TVar b) s) as [h|] eqn:Et; [|unfold entry_of in Ha; by rewrite Et in Ha].
    destruct (undone_entry E s s' (TVar b) h z a U HE Ha Et) as (Ha' & w0 & w' & Hw0 & Hw' & F1 & F2 & _).
    { cbn [table_at] in *. unfold deref in *. destruct (b =? 0); [done|]. rewrite Hv in Et. rewrite Hv'. cbn [res_bind] in *. by rewrite E3. }
    split; [done|]. exists w'. assert (w0 = w) as -> by congruence. done.
  - injection Ha as ->. split; [done|]. exists v'. assert (v = w) as -> by congruence. done.
Qed.

(** The text of the path of a qualified name is put together first: that it
    was is the one thing that the search for such a name may lack. *)
Definition path_text (nm : var_name) s : option (bytes * Z) * I :=
  append_all (env s) ([], 0)
    ((text "::", 2) :: match fst (th8SplitQualName (zOuter nm)) with Some (c :: z) => [(c :: z, zlen (c :: z))] | _ => [] end).
Definition path_built (nm : var_name) s : bool := negb (qualified nm) || bool_decide (is_Some (fst (path_text nm s))).
Definition path_env (nm : var_name) s : I := if qualified nm then snd (path_text nm s) else env s.

(** What the search for a table leaves. *)
Definition table_found (k : nat) (nm : var_name) (b : bool) E s (o : option (tref * bytes)) s' : Prop :=
  inv sd 0 E s' ∧ shape s s' ∧ names_kept s s' ∧
  (path_built nm s = false → o = None) ∧
  (path_built nm s = true → ∀ slot, slot_of k nm s = Some slot → o = Some slot) ∧
  (b = false → s' = set_env (path_env nm s) s ∧ (path_built nm s = true → o = slot_of k nm s)) ∧
  match o with
  | Some (t, key) => grows s s' ∧ slot_of k nm s' = Some (t, key) ∧ ∃ h, table_at t s' = Ok h
  | None => True
  end.

Lemma find_absolute E s p b : inv sd 0 E s → (∀ a, 0 < a → 0 <= E a) → (b = true → path_ok p) →
  ∃ o s', th8FindNamespace sd (text "::" ++ p) b s = Ok (o, s') ∧ inv sd 0 E s' ∧ shape s s' ∧ names_kept s s' ∧
    (b = false → s' = s ∧ o = ns_lookup (3 + length p) (pGlobalNs s) p (namespaces s)) ∧
    (∀ c, ns_lookup (3 + length p) (pGlobalNs s) p (namespaces s) = Some c → o = Some c) ∧
    match o with
    | Some c => grows s s' ∧ ns_lookup (3 + length p) (pGlobalNs s) p (namespaces s') = Some c ∧ is_Some (namespaces s' !! c)
    | None => True
    end.
Proof.
  intros H HE Hp. unfold th8FindNamespace.
  assert (th8FindNamespaceEx sd (text "::" ++ p) b s = ns_walk sd (3 + length p) b (pGlobalNs s) None p s) as -> by done.
  destruct (walk_ok sd (3 + length p) b E s (pGlobalNs s) p s None) as (o & r & s' & Ew & Hb & Hf & Ho); try done.
  { split_and!; [done|apply outside_refl|apply tree_sub_refl|done]. }
  { apply (i_here _ _ _ _ H). }
  { lia. }
  rewrite Ew. exists o, s'. split; [done|].
  destruct o as [c|].
  - destruct Ho as ((W1 & W2 & W3 & _) & Hs & Hl & Hc). pose proof (outside_grows _ _ W2 Hs) as G.
    split_and!; [done|apply G|by apply grows_kept|done..].
  - destruct (undone_shape _ _ _ Ho). split_and!; [done|done|by eapply undone_kept|done..].
Qed.

Lemma outer_table_ok E s k nm b : inv sd 0 E s → (∀ a, 0 < a → 0 <= E a) → (k < length (frames s))%nat →
  (b = true → qualified nm = true → 0 ∉ zOuter nm) →
  safe (outer_table debug sd k nm b s) (λ '(o, s'), table_found k nm b E s o s').
Proof.
  intros H HE Hk Hnul. unfold outer_table. assert (Hg : (global_frame s < length (frames s))%nat) by (unfold global_frame; lia).
  destruct (bGlobal nm && has_sep (zOuter nm)) eqn:Eq.
  2: { cbn [safe]. assert (Hs : slot_of k nm s = Some (TFrame (if bGlobal nm then global_frame s else k), zOuter nm))
         by (unfold slot_of; by rewrite Eq).
       assert (Hp : path_built nm s = true ∧ path_env nm s = env s) by (unfold path_built, path_env, qualified; by rewrite Eq).
       destruct Hp as [Hp He].
       split_and!; [done|done|by apply grows_kept, grows_refl|by rewrite Hp|intros _ slot; by rewrite Hs| |apply grows_refl|done|].
       - intros _. split; [|by rewrite Hs]. rewrite He. by destruct s as [[]].
       - cbn [table_at]. destruct (frames s !! _) as [f|] eqn:Ef; [eauto|]. apply lookup_ge_None in Ef. destruct (bGlobal nm); lia. }
  destruct (th8SplitQualName (zOuter nm)) as [path tail] eqn:Esp. pose proof (λ Hb, path_last _ _ _ Esp (Hnul Hb Eq)) as Hl.
  eapply safe_bind; [apply safe_always|]. intros c ->.
  assert (Hpieces : (if bool_decide (is_Some path) && (0 <? zlen (default [] path)) then [(default [] path, zlen (default [] path))] else []) =
    match fst (th8SplitQualName (zOuter nm)) with Some (c :: z) => [(c :: z, zlen (c :: z))] | _ => [] end).
  { rewrite Esp. cbn [fst]. destruct path as [p|]; [|done]. rewrite bool_decide_true by by eexists. by destruct p. }
  rewrite Hpieces. destruct (append_all (env s) _ _) as [zFull i] eqn:Ea.
  assert (Hp : path_built nm s = bool_decide (is_Some zFull) ∧ path_env nm s = i).
  { unfold path_built, path_env, path_text, qualified. rewrite Eq. cbn [negb orb]. by rewrite Ea. }
  destruct Hp as [Hp He].
  destruct zFull as [zFull|].
  2: { cbn [safe]. rewrite bool_decide_false in Hp by by intros []. split_and!; [by apply inv_env|by apply grows_env|apply grows_kept, grows_env|done|by rewrite Hp| |done].
       intros _. split; [by rewrite He|by rewrite Hp]. }
  rewrite bool_decide_true in Hp by by eexists.
  apply append_all_text in Ea. assert (Ez : fst zFull = text "::" ++ default [] path).
  { rewrite Ea, Esp. cbn [fst]. destruct path as [[|x p]|]; [done| |done]. cbn [map concat fst app default from_option id]. by rewrite app_nil_r. }
  rewrite Ez. destruct (find_absolute E (set_env i s) (default [] path) b) as (o & s' & -> & H' & Hsh & Hn & Hb & Hf & Ho); [by apply inv_env|done|done|].
  assert (Hslot : slot_of k nm s = (λ a, (TNs a, tail)) <$> ns_lookup (3 + length (default [] path)) (pGlobalNs s) (default [] path) (namespaces s))
    by (unfold slot_of; by rewrite Eq, Esp).
  cbn [res_bind safe]. split_and!; [done|eapply shape_trans; [apply (grows_env s i)|done]|by eapply kept_env|by rewrite Hp| | |].
  - intros _ slot. rewrite Hslot. destruct (ns_lookup _ (pGlobalNs s) _ (namespaces s)) as [c|] eqn:Ec; [|done].
    cbn [fmap option_fmap option_map]. intros [= <-]. by rewrite (Hf c Ec).
  - intros Eb. destruct (Hb Eb) as [-> ->]. split; [by rewrite He|]. intros _. by rewrite Hslot.
  - destruct o as [n|]; [|done]. cbn [fmap option_fmap option_map]. destruct Ho as (G & Hlk & [m Hm]).
    split; [by eapply grows_trans; [apply grows_env|]|]. split.
    + unfold slot_of. rewrite Eq, Esp. rewrite (sh_glob _ _ Hsh). change (pGlobalNs (set_env i s)) with (pGlobalNs s) in *. by rewrite Hlk.
    + cbn [table_at]. unfold ns_at. pose proof (n_addr _ _ _ _ _ (i_ns _ _ _ _ H') n m Hm).
      rewrite (proj2 (Z.eqb_neq _ _)), Hm by lia. cbn. eauto.
Qed.

(** The search of a name: what it finds is what the name denotes; without
    [bCreate] it changes nothing; with it, it keeps every other variable. *)
Definition value_found (k : nat) (nm : var_name) (b : bool) E s (o : option Z) s' : Prop :=
  inv sd 0 E s' ∧ shape s s' ∧ names_kept s s' ∧
  (path_built nm s = false → o = None) ∧
  (path_built nm s = true → ∀ a, var_of k nm s = Some a → o = Some a) ∧
  (b = false → s' = set_env (path_env nm s) s ∧ (path_built nm s = true → o = var_of k nm s)) ∧
  match o with
  | Some a => grows s s' ∧ var_of k nm s' = Some a ∧ is_Some (heap (mem s') !! a)
  | None => True
  end.

Lemma slot_grows s s' k nm slot : grows s s' → slot_of k nm s = Some slot → slot_of k nm s' = Some slot.
Proof.
  intros G. unfold slot_of, global_frame. destruct (gr_shape _ _ G) as [-> _ -> _ _].
  destruct (bGlobal nm && has_sep (zOuter nm)); [|done]. destruct (th8SplitQualName (zOuter nm)) as [path tail].
  destruct (ns_lookup _ (pGlobalNs s) _ (namespaces s)) as [c|] eqn:Ec; [|done].
  by rewrite (ns_lookup_sub _ _ _ _ _ _ (gr_tree _ _ G) Ec).
Qed.

(** The search in a table that was found. *)
Lemma find_rest_ok E s k n b t s1 : (∀ a, 0 < a → 0 <= E a) → table_found k n b E s t s1 →
  ∃ o s', match t with
          | None => Ok (None, s1)
          | Some (t, key) =>
              let* (d, s) := find_in sd t key b s1 in
              match d with
              | None => Ok (None, s)
              | Some d =>
                  match zInner n with
                  | Some zInner => find_element sd d n zInner b s
                  | None =>
                      let* v := deref d (mem s) in
                      let* _ := match pHash v with
                                | Some _ => ALWAYS debug (bool_decide (zData v = None))
                                | None => Ok true
                                end in
                      Ok (Some d, s)
                  end
              end
          end = Ok (o, s') ∧ value_found k n b E s o s'.
Proof.
  intros HE (H1 & S1 & K1 & N1 & F1 & B1 & T1).
  destruct t as [[t key]|].
  2: { exists None, s1. split; [done|]. split_and!; [done|done|done|done| | |done].
       - intros Hp a. unfold var_of, outer_of. destruct (slot_of k n s) as [slot|]; [|done]. by specialize (F1 Hp slot eq_refl).
       - intros Hb. destruct (B1 Hb) as [Hi Ht]. split; [done|]. intros Hp. unfold var_of, outer_of. by rewrite <- Ht. }
  assert (Hp : path_built n s = true) by by destruct (path_built n s); [|by specialize (N1 eq_refl)].
  destruct T1 as (G1 & Hs1 & h & Ht).
  destruct (find_in_ok E s1 t h key b H1 HE Ht) as (o & s2 & -> & H2 & G2 & B2 & F2 & V2).
  cbn [res_bind]. pose proof (grows_trans _ _ _ G1 G2) as G12. pose proof (slot_grows _ _ _ _ _ G2 Hs1) as Hs2.
  assert (Hslot : ∀ slot, slot_of k n s = Some slot → slot = (t, key)).
  { intros slot Hs. specialize (F1 Hp slot Hs). congruence. }
  assert (Hfirst : ∀ a, outer_of k n s = Some a → o = Some a).
  { intros a. unfold outer_of. destruct (slot_of k n s) as [slot|] eqn:Es; [|done]. rewrite (Hslot slot eq_refl).
    cbn [mbind option_bind fst snd]. intros Ha. apply F2. by eapply entry_grows. }
  assert (Hout : b = false → s2 = set_env (path_env n s) s ∧ o = outer_of k n s).
  { intros Hb. destruct (B1 Hb) as [-> Hs]. destruct (B2 Hb) as [-> ->]. split; [done|].
    unfold outer_of. rewrite <- Hs by done. cbn [mbind option_bind]. by rewrite entry_env. }
  destruct o as [d|].
  2: { exists None, s2. split; [done|]. split_and!; [done|apply G12|by apply grows_kept|by rewrite Hp| | |done].
       - intros _ a. unfold var_of. destruct (outer_of k n s) as [d|]; [|done]. by specialize (Hfirst d eq_refl).
       - intros Hb. destruct (Hout Hb) as [Hi Ho]. split; [done|]. intros _. unfold var_of. by rewrite <- Ho. }
  destruct V2 as [V2 [v Hv]]. assert (Hd : d ≠ 0).
  { pose proof (h_addr _ _ _ _ (i_heap _ _ _ _ H2) d v Hv). lia. }
  assert (Ho2 : outer_of k n s2 = Some d) by (unfold outer_of; by rewrite Hs2).
  assert (Hd1 : ∀ a, outer_of k n s = Some a → a = d) by (intros a Ha; specialize (Hfirst a Ha); congruence).
  destruct (zInner n) as [z|] eqn:Ez.
  - destruct (find_element_ok E s2 d v n z b H2 HE Hv) as (e & s3 & -> & H3 & G3 & B3 & F3 & V3).
    pose proof (grows_trans _ _ _ G12 G3) as G13. exists e, s3. split; [done|].
    split_and!; [done|apply G13|by apply grows_kept|by rewrite Hp| | |].
    + intros _ a. unfold var_of. destruct (outer_of k n s) as [d0|]; [|done]. rewrite (Hd1 d0 eq_refl), Ez.
      cbn [mbind option_bind]. intros Ha. apply F3. by eapply entry_grows.
    + intros Hb. destruct (Hout Hb) as [-> Ho]. destruct (B3 Hb) as [-> ->]. split; [done|]. intros _.
      unfold var_of. rewrite <- Ho, Ez. cbn [mbind option_bind]. apply entry_env.
    + destruct e as [e|]; [|done]. destruct V3 as [V3 Hl]. split_and!; [done| |done].
      unfold var_of. rewrite (outer_grows _ _ _ _ _ G3 Ho2), Ez. done.
  - rewrite (deref_ok _ _ _ Hv Hd). cbn [res_bind].
    assert (Hal : match pHash v with Some _ => ALWAYS debug (bool_decide (zData v = None)) | None => Ok true end = Ok true).
    { destruct (pHash v) as [hv|] eqn:Eh; [|done].
      destruct (h_vars _ _ _ _ (i_heap _ _ _ _ H2) d v Hv) as (_ & _ & Ha). destruct (Ha hv Eh) as [-> _]. done. }
    rewrite Hal. cbn [res_bind]. exists (Some d), s2. split; [done|].
    split; [done|]. split; [apply G12|]. split; [by apply grows_kept|]. split; [by rewrite Hp|]. split; [|split].
    + intros _ a. unfold var_of. destruct (outer_of k n s) as [d0|]; [|done]. rewrite (Hd1 d0 eq_refl), Ez.
      cbn [mbind option_bind]. by intros [= <-].
    + intros Hb. destruct (Hout Hb) as [Hi Ho]. split; [done|]. intros _. unfold var_of. by rewrite <- Ho, Ez.
    + split_and!; [done| |by eexists]. unfold var_of. by rewrite Ho2, Ez.
Qed.

Lemma th8FindValue_ok E s k nm n b : inv sd 0 E s → (∀ a, 0 < a → 0 <= E a) → (k < length (frames s))%nat →
  th8AnalyzeVarName nm = Ok n → (b = true → qualified n = true → 0 ∉ zOuter n) →
  safe (th8FindValue debug sd k nm b s) (λ '(o, s'), value_found k n b E s o s').
Proof.
  intros H HE Hk Hn Hnul. unfold th8FindValue. rewrite Hn. cbn [res_bind].
  eapply safe_bind; [by apply outer_table_ok|]. intros [t s1] T. destruct (find_rest_ok E s k n b t s1 HE T) as (o & s' & -> & V). done.
Qed.

(** A name whose namespaces have names fails no assertion. *)
Definition path_named (nm : var_name) : bool :=
  negb (qualified nm) || match fst (th8SplitQualName (zOuter nm)) with Some (_ :: _) => true | _ => false end.

Lemma outer_table_named E s k nm b : inv sd 0 E s → (∀ a, 0 < a → 0 <= E a) → (k < length (frames s))%nat →
  (b = true → qualified nm = true → 0 ∉ zOuter nm) → path_named nm = true →
  ∃ o s', outer_table debug sd k nm b s = Ok (o, s') ∧ table_found k nm b E s o s'.
Proof.
  intros H HE Hk Hnul Hp. pose proof (outer_table_ok E s k nm b H HE Hk Hnul) as T.
  destruct (outer_table debug sd k nm b s) as [[o s']|e] eqn:Eo; [by exists o, s'|exfalso]. destruct e; try done. clear T.
  unfold outer_table, path_named, qualified in *. destruct (bGlobal nm && has_sep (zOuter nm)) eqn:Eq; [|done]. cbn [negb orb] in Hp.
  destruct (th8SplitQualName (zOuter nm)) as [[[|c path]|] tail] eqn:Esp; [done| |done]. cbn [default from_option id] in Eo.
  rewrite bool_decide_true in Eo by by eexists. change (0 <? zlen (c :: path)) with true in Eo. cbn [andb ALWAYS res_bind] in Eo.
  destruct (append_all (env s) _ _) as [[zFull|] i] eqn:Ea; [|done]. apply append_all_text in Ea.
  assert (Ez : fst zFull = text "::" ++ c :: path) by (rewrite Ea; cbn [map concat fst app]; by rewrite app_nil_r).
  rewrite Ez in Eo. destruct (find_absolute E (set_env i s) (c :: path) b) as (o & s' & Ef & _); [by apply inv_env|done| |by rewrite Ef in Eo].
  intros Hb. apply (path_last _ _ _ Esp). by apply Hnul.
Qed.

(** The others stop a debug build. *)
Lemma th8FindValue_asserts s k nm n b : th8AnalyzeVarName nm = Ok n → debug = true → path_named n = false →
  th8FindValue debug sd k nm b s = Err AssertFailed.
Proof.
  intros Hn -> Hp. unfold th8FindValue. rewrite Hn. cbn [res_bind]. unfold outer_table, path_named, qualified in *.
  destruct (bGlobal n && has_sep (zOuter n)); [|done]. cbn [negb orb] in Hp.
  destruct (th8SplitQualName (zOuter n)) as [[[|c p]|] tail]; done.
Qed.

Lemma th8FindValue_named E s k nm n b : inv sd 0 E s → (∀ a, 0 < a → 0 <= E a) → (k < length (frames s))%nat →
  th8AnalyzeVarName nm = Ok n → (b = true → qualified n = true → 0 ∉ zOuter n) → path_named n = true →
  ∃ o s', th8FindValue debug sd k nm b s = Ok (o, s') ∧ value_found k n b E s o s'.
Proof.
  intros H HE Hk Hn Hnul Hp. unfold th8FindValue. rewrite Hn. cbn [res_bind].
  destruct (outer_table_named E s k n b) as (t & s1 & -> & T); [done..|]. cbn [res_bind]. by apply find_rest_ok.
Qed.
End resolve.
