(* ===== verification/VarSteps.v ===== *)
(** * VarSteps: the steps of an operation on a variable.

    Between operations the invariant holds with no reference in the hands of
    the code; a write touches one variable and nothing that names resolve
    through. *)

From S2P Require Import Prelude Memory Strings Hash Lists VarTables VarState VarRefs Namespaces Vars VarInv NsTree VarResolve.
From stdpp Require Import gmap.
#[local] Open Scope Z_scope.
#[local] Open Scope res_scope.

Section steps.
Context (debug : bool) (sd : seeds) {I : Type} `{VE : VarEnv I}.
Implicit Types (s : interp I).

(** The invariant between operations. *)
Definition wf s : Prop := inv sd 0 (λ _, 0) s.

Lemma none_held a : 0 < a → 0 <= (λ _ : Z, 0) a.
Proof. done. Qed.

(** Only the variable [a] changed, and its elements did not. *)
Record touched (a : Z) s s' : Prop := {
  to_frames : frames s' = frames s;
  to_saved : saved s' = saved s;
  to_ns : namespaces s' = namespaces s;
  to_glob : pGlobalNs s' = pGlobalNs s;
  to_cur : pCurrentNs s' = pCurrentNs s;
  to_depth : nEvalDepth s' = nEvalDepth s;
  to_heap : ∀ b, b ≠ a → heap (mem s') !! b = heap (mem s) !! b;
  to_hash : pHash <$> heap (mem s') !! a = pHash <$> heap (mem s) !! a
}.

Lemma touched_refl a s : touched a s s.
Proof. by split. Qed.
Lemma touched_trans a s1 s2 s3 : touched a s1 s2 → touched a s2 s3 → touched a s1 s3.
Proof. intros [] []. split; try congruence. intros b Hb. etrans; auto. Qed.
Lemma touched_env a s i : touched a s (set_env i s).
Proof. by split. Qed.

Lemma touched_shape a s s' : touched a s s' → shape s s'.
Proof. intros []. split; [congruence..|]. intros _ b. by rewrite to_ns0. Qed.

Lemma touched_deref a b s s' : touched a s s' →
  (let* v := deref b (mem s') in Ok (pHash v)) = (let* v := deref b (mem s) in Ok (pHash v)).
Proof.
  intros [_ _ _ _ _ _ Hh Ha]. unfold deref. destruct (b =? 0); [done|]. destruct (decide (b = a)) as [->|Hne].
  - destruct (heap (mem s') !! a), (heap (mem s) !! a); try done. cbn in *. by injection Ha as ->.
  - by rewrite Hh.
Qed.

(** Names resolve as before. *)
Lemma touched_table a t s s' : touched a s s' → table_at t s' = table_at t s.
Proof.
  intros H. destruct t as [k|b|b]; cbn [table_at].
  - by rewrite (to_frames _ _ _ H).
  - unfold ns_at. by rewrite (to_ns _ _ _ H).
  - pose proof (touched_deref a b s s' H) as Hd.
    destruct (deref b (mem s')) as [v'|], (deref b (mem s)) as [v|]; cbn [res_bind] in *; try congruence. by injection Hd as ->.
Qed.

Lemma touched_entry a t key s s' : touched a s s' → entry_of t key s' = entry_of t key s.
Proof. intros H. unfold entry_of. by rewrite (touched_table a t s s' H). Qed.

Lemma touched_var a k nm s s' : touched a s s' → var_of k nm s' = var_of k nm s.
Proof.
  intros H. assert (Hs : slot_of k nm s' = slot_of k nm s).
  { unfold slot_of, global_frame. by rewrite (to_frames _ _ _ H), (to_ns _ _ _ H), (to_glob _ _ _ H). }
  unfold var_of, outer_of. rewrite Hs. destruct (slot_of k nm s) as [slot|]; [|done]. cbn [mbind option_bind].
  rewrite (touched_entry a _ _ _ _ H). destruct (entry_of _ _ s) as [b|]; [|done]. cbn [mbind option_bind].
  destruct (zInner nm); [by apply (touched_entry a)|done].
Qed.

Lemma live_pos s a v : wf s → heap (mem s) !! a = Some v → a ≠ 0.
Proof. intros H Hv. pose proof (h_addr _ _ _ _ (i_heap _ _ _ _ H) a v Hv). lia. Qed.

Lemma live_value s a v : wf s → heap (mem s) !! a = Some v → value_ok v.
Proof. intros H Hv. apply (h_vars _ _ _ _ (i_heap _ _ _ _ H) a v Hv). Qed.

(** An array has no value. *)
Lemma live_array s a v h : wf s → heap (mem s) !! a = Some v → pHash v = Some h → zData v = None ∧ table_ok sd h.
Proof.
  intros H Hv Hh. destruct (h_vars _ _ _ _ (i_heap _ _ _ _ H) a v Hv) as (_ & _ & Ha).
  destruct (Ha h Hh) as (? & ? & _). done.
Qed.

(** A write to one variable. *)
Definition writes (a : Z) (v' : Th8_Variable) s s' : Prop :=
  wf s' ∧ touched a s s' ∧ heap (mem s') !! a = Some v'.

Lemma writes_put s a v v' : wf s → heap (mem s) !! a = Some v → nRef v' = nRef v → pHash v' = pHash v →
  value_ok v' → (is_Some (pHash v) → zData v' = None) → writes a v' s (set_mem (put a v' (mem s)) s).
Proof.
  intros H Hv Hn Hp Hval Ha. split; [by eapply write_content_ok|]. split; [split|]; fields; try done.
  - intros b Hb. by rewrite lookup_insert_ne.
  - rewrite lookup_insert_eq, Hv. cbn. by rewrite Hp.
  - by rewrite lookup_insert_eq.
Qed.

Lemma writes_env a v s i : wf s → heap (mem s) !! a = Some v → writes a v s (set_env i s).
Proof. intros H Hv. split; [by apply inv_env|]. split; [apply touched_env|done]. Qed.

Lemma writes_trans a v1 v2 s1 s2 s3 : writes a v1 s1 s2 → writes a v2 s2 s3 → writes a v2 s1 s3.
Proof. intros (_ & T1 & _) (W & T2 & Hv). split_and!; [done|by eapply touched_trans|done]. Qed.

Lemma write_step f s a v : wf s → heap (mem s) !! a = Some v → nRef (f v) = nRef v → pHash (f v) = pHash v →
  value_ok (f v) → (is_Some (pHash v) → zData (f v) = None) →
  ∃ s', write_var f a s = Ok s' ∧ writes a (f v) s s' ∧ env s' = env s.
Proof.
  intros H Hv Hn Hp Hval Ha. unfold write_var, alter_var. rewrite (deref_ok _ _ _ Hv) by by eapply live_pos.
  cbn [res_bind]. eexists. split; [done|]. split; [|done]. by eapply writes_put.
Qed.

(** Another value of a scalar. *)
Lemma write_value s a v b n al z : wf s → heap (mem s) !! a = Some v → pHash v = None →
  value_ok (set_value b n al z v) →
  ∃ s', write_var (set_value b n al z) a s = Ok s' ∧ writes a (set_value b n al z v) s s' ∧ env s' = env s.
Proof. intros H Hv Hp Hval. apply write_step; [done..|]. rewrite Hp. by intros []. Qed.

Lemma signal_step s a v : wf s → heap (mem s) !! a = Some v →
  ∃ s', signal a s = Ok s' ∧ writes a (bump_nWait v) s s'.
Proof.
  intros H Hv. unfold signal, alter_var. rewrite (deref_ok _ _ _ Hv) by by eapply live_pos. cbn [res_bind].
  eexists. split; [done|]. destruct (writes_put s a v (bump_nWait v)) as (W & T & Hw); [done|done|done|done|exact (live_value s a v H Hv)| |].
  { intros [h Hh]. by apply (live_array s a v h). }
  eapply writes_trans; [split_and!; [exact W|exact T|exact Hw]|]. by apply writes_env.
Qed.

Lemma release_step s a v : wf s → heap (mem s) !! a = Some v → ∃ i, release_value v s = Ok (set_env i s).
Proof.
  intros H Hv. unfold release_value. destruct (drop_ok v (env s) (live_value s a v H Hv)) as [i ->]. by eexists.
Qed.

(** ** Finding *)

(** A name that can be read. *)
Definition named (nm : cstring) (n : var_name) : Prop := th8AnalyzeVarName nm = Ok n.

(** The namespaces of a qualified name have no NUL in their names. *)
Definition nul_free (n : var_name) : Prop := qualified n = true → 0 ∉ zOuter n.

(** The state the operation goes on with. *)
Definition keeps s s' : Prop := wf s' ∧ shape s s'.

Lemma keeps_state_refl s : wf s → keeps s s.
Proof. intros H. split; [done|apply shape_refl]. Qed.
Lemma keeps_state_trans s1 s2 s3 : keeps s1 s2 → keeps s2 s3 → keeps s1 s3.
Proof. intros [] []. split; [done|by eapply shape_trans]. Qed.
Lemma keeps_env s i : wf s → keeps s (set_env i s).
Proof. intros H. split; [by apply inv_env|apply (grows_env s i)]. Qed.
Lemma keeps_env_at s0 s i : keeps s0 s → keeps s0 (set_env i s).
Proof. intros H. eapply keeps_state_trans; [done|]. apply keeps_env, H. Qed.
Lemma writes_keeps a v s0 s s' : keeps s0 s → writes a v s s' → keeps s0 s'.
Proof. intros [W0 S0] (W & T & _). split; [done|]. eapply shape_trans; [done|by eapply touched_shape]. Qed.

Lemma find_safe s k nm n b : wf s → (k < length (frames s))%nat → named nm n → (b = true → nul_free n) →
  safe debug (th8FindValue debug sd k nm b s) (λ '(o, s'), value_found sd k n b (λ _, 0) s o s').
Proof. intros H Hk Hn Hnul. by apply th8FindValue_ok. Qed.

Lemma frames_pos s : wf s → (0 < length (frames s))%nat.
Proof. intros H. pose proof (i_global _ _ _ _ H). destruct (frames s); [done|cbn; lia]. Qed.

Lemma found_keeps k n b s o s' : value_found sd k n b (λ _, 0) s o s' → keeps s s'.
Proof. intros (H & S & _). by split. Qed.

Lemma found_made k n b s a s' : value_found sd k n b (λ _, 0) s (Some a) s' →
  wf s' ∧ grows s s' ∧ var_of k n s' = Some a ∧ ∃ v, heap (mem s') !! a = Some v.
Proof. by intros (H & _ & _ & _ & _ & _ & G & Hv & [v Hh]); eauto. Qed.

Lemma found_read k n s a s' : value_found sd k n false (λ _, 0) s (Some a) s' →
  wf s' ∧ s' = set_env (path_env n s) s ∧ var_of k n s = Some a ∧ ∃ v, heap (mem s') !! a = Some v.
Proof.
  intros (H & _ & _ & N & _ & F & _ & _ & [v Hh]). destruct (F eq_refl) as [Hi Hv]. split_and!; [done|done| |by exists v].
  destruct (path_built n s); [by rewrite Hv|by specialize (N eq_refl)].
Qed.

Lemma found_nothing k n s s' : value_found sd k n false (λ _, 0) s None s' →
  s' = set_env (path_env n s) s ∧ (path_built n s = true → var_of k n s = None).
Proof. intros (_ & _ & _ & _ & _ & F & _). destruct (F eq_refl) as [Hi Hv]. split; [done|]. intros Hp. by rewrite <- Hv. Qed.

Lemma lookup_safe s t h key : wf s → table_at t s = Ok h → lookup_entry sd t key s = Ok (dict h !! key).
Proof. by apply lookup_entry_ok. Qed.

Lemma scope_table s nm : wf s → ∃ h, table_at (scope nm s) s = Ok h.
Proof.
  intros H. unfold scope. cbn [table_at]. pose proof (frames_pos s H).
  destruct (frames s !! _) as [f|] eqn:Ef; [eauto|]. apply lookup_ge_None in Ef. unfold global_frame in Ef.
  destruct (bGlobal nm); lia.
Qed.

Lemma find_bare_ok s nm : wf s → find_bare sd nm s = Ok (entry_of (scope nm s) (zOuter nm) s).
Proof.
  intros H. unfold find_bare. destruct (scope_table s nm H) as [h Ht]. rewrite (lookup_safe s _ h _ H Ht). cbn [res_bind].
  unfold entry_of. by rewrite Ht.
Qed.

Lemma entry_var s t key a : wf s → entry_of t key s = Some a → ∃ h v, table_at t s = Ok h ∧ dict h !! key = Some a ∧
  heap (mem s) !! a = Some v.
Proof.
  intros H. unfold entry_of. destruct (table_at t s) as [h|] eqn:Et; [|done].
  destruct (dict h !! key) as [d|] eqn:Ed; [|done]. cbn [mbind option_bind]. destruct (d =? 0) eqn:E0; [done|].
  intros [= <-]. bool_to_prop. destruct (entry_live sd _ s t h key d H none_held Et Ed E0) as [v Hv]. eauto.
Qed.

(** A search that may not create is exact. *)
Lemma find_exact s k nm n : wf s → (k < length (frames s))%nat → named nm n → path_built n s = true →
  th8FindValue debug sd k nm false s =
    if debug && negb (path_named n) then Err AssertFailed else Ok (var_of k n s, set_env (path_env n s) s).
Proof.
  intros H Hk Hn Hb. destruct (debug && negb (path_named n)) eqn:E.
  - apply andb_true_iff in E as [Hd Hp]. apply negb_true_iff in Hp. by eapply th8FindValue_asserts.
  - assert (F : ∃ o s', th8FindValue debug sd k nm false s = Ok (o, s') ∧ value_found sd k n false (λ _, 0) s o s').
    { apply andb_false_iff in E as [Hd|Hp]; [|apply negb_false_iff in Hp; by eapply th8FindValue_named].
      pose proof (find_safe s k nm n false H Hk Hn (λ E, False_ind _ (diff_false_true E))) as F. destruct (th8FindValue debug sd k nm false s) as [[o s']|e].
      - exists o, s'. split; [done|]. by apply F.
      - destruct e; cbn [safe] in F; try done. congruence. }
    destruct F as (o & s' & -> & (_ & _ & _ & _ & _ & F & _)). destruct (F eq_refl) as [-> ->]; [done|done].
Qed.

(** The other variables of names that resolve. *)
Definition others_kept (a : Z) s s' : Prop :=
  ∀ k n b w, var_of k n s = Some b → heap (mem s) !! b = Some w → b ≠ a →
    var_of k n s' = Some b ∧ ∃ w', heap (mem s') !! b = Some w' ∧ zData w' = zData w ∧ nData w' = nData w.

Lemma grows_others a s s1 s2 : grows s s1 → touched a s1 s2 → others_kept a s s2.
Proof.
  intros G T k n b w Hb Hw Hne. rewrite (touched_var a _ _ _ _ T). split; [by eapply var_grows|].
  destruct (gr_var _ _ G b w Hw) as (w' & Hw' & Hz & Hd & _). exists w'. by rewrite (to_heap _ _ _ T) by done.
Qed.
End steps.
