(* ===== verification/VarWrites.v ===== *)
(** * VarWrites: reading and writing variables keeps the invariant.

    No read or write faults in a state that satisfies the invariant, and each
    leaves such a state; what a store leaves is what it was given. *)

From S2P Require Import Prelude Memory Strings Hash Lists VarTables VarState VarRefs Namespaces Vars VarInv NsTree VarResolve VarSteps.
From stdpp Require Import gmap.
#[local] Open Scope Z_scope.
#[local] Open Scope res_scope.

(** The bytes and the tagged length that a store takes from its argument. *)
Definition value_text (zVal : option bytes) (nVal : Z) : res fault (bytes * Z) :=
  let* (n, t) := if nVal =? TH8_NOLEN then let* n := Th8_Strlen (default [0] zVal) in Ok (n, 0)
                 else Ok (TH8_LEN nVal, Z.land nVal TH8_TAG_BITS) in
  let* z := match zVal with Some z => read z n | None => Ok (replicate (Z.to_nat n) 0) end in
  Ok (z, Z.lor n t).

Lemma read_ok z n : 0 <= n <= zlen z → read z n = Ok (take (Z.to_nat n) z).
Proof. intros Hn. unfold read. by replace (zlen z <? n) with false by lia. Qed.

Lemma read_len z n d : 0 <= n → read z n = Ok d → zlen d = n.
Proof.
  unfold read. intros Hn. destruct (zlen z <? n) eqn:E; [done|]. bool_to_prop. intros [= <-].
  unfold zlen in *. rewrite length_take. lia.
Qed.

Lemma strlen_pos z n : Th8_Strlen z = Ok n → 0 <= n.
Proof. unfold Th8_Strlen. case_match; [|done]. intros [= <-]. lia. Qed.

Lemma LEN_le n : 0 <= n → TH8_LEN n <= n.
Proof. intros Hn. rewrite len_mask_mod. apply Z.mod_le; lia. Qed.

Lemma value_text_len zVal nVal d nd : value_text zVal nVal = Ok (d, nd) → TH8_LEN nd <= zlen d.
Proof.
  unfold value_text. set (m := if nVal =? TH8_NOLEN then _ else _).
  assert (Hm : ∀ n t, m = Ok (n, t) → 0 <= n ∧ TH8_LEN (Z.lor n t) <= n).
  { intros n t. unfold m. destruct (nVal =? TH8_NOLEN).
    - destruct (Th8_Strlen _) as [n'|] eqn:E; [|done]. intros [= -> <-]. apply strlen_pos in E.
      rewrite Z.lor_0_r. by auto using LEN_le.
    - intros [= <- <-]. pose proof (TH8_LEN_range nVal). fold (tag_of nVal). rewrite LEN_with_tag by done. lia. }
  destruct m as [[n t]|]; [|done]. destruct (Hm n t eq_refl) as [Hn Hl]. cbn [res_bind].
  destruct zVal as [z|].
  - destruct (read z n) as [z'|] eqn:Er; [|done]. intros [= <- <-]. by rewrite (read_len z n z' Hn Er).
  - intros [= <- <-]. unfold zlen. rewrite length_replicate. lia.
Qed.

Section writes.
Context (debug : bool) (sd : seeds) {I : Type} `{VE : VarEnv I}.
Implicit Types (s : interp I).

(** ** Reading *)

Lemma is_array_ok s a v : wf sd s → heap (mem s) !! a = Some v →
  is_array debug v = Ok (bool_decide (is_Some (pHash v))).
Proof.
  intros H Hv. unfold is_array. destruct (pHash v) as [h|] eqn:Eh; [|done].
  destruct (live_array sd s a v h H Hv Eh) as [-> _]. done.
Qed.

(** A read complains, or gives the variable. *)
Definition scalar_read (n : var_name) s (o : option Th8_Variable) s' : Prop :=
  keeps sd s s' ∧ (∃ i, s' = set_env i s) ∧
  match o with
  | Some v => ∃ a, var_of 0 n s = Some a ∧ heap (mem s) !! a = Some v ∧ pHash v = None
  | None => path_built n s = false ∨ ∀ a v, var_of 0 n s = Some a → heap (mem s) !! a = Some v → is_Some (pHash v)
  end.

Lemma find_scalar_ok s nm n : wf sd s → named nm n →
  safe debug (find_scalar debug sd nm s) (λ '(o, s'), scalar_read n s o s').
Proof.
  intros H Hn. unfold find_scalar. eapply safe_bind; [by apply (find_safe debug sd s 0 nm n false H (frames_pos sd s H) Hn)|].
  intros [o s'] F. pose proof (found_keeps sd _ _ _ _ _ _ F) as K. destruct o as [a|].
  - apply found_read in F as (H' & -> & Hvar & [v Hv]). rewrite (deref_ok _ _ _ Hv) by by eapply live_pos. cbn [res_bind]. rewrite (is_array_ok _ a v H' Hv). cbn [res_bind].
    case_bool_decide as Ha; cbn [safe].
    + split_and!; [by apply keeps_env_at|by eexists|]. right. intros b w Hb' Hw. fields. assert (b = a) as -> by congruence.
      cbn in Hv. assert (w = v) as -> by congruence. done.
    + split_and!; [done|by eexists|]. exists a. split_and!; [done|done|]. by destruct (pHash v); [destruct Ha; eauto|].
  - apply found_nothing in F as [-> Hvar]. cbn [safe]. split_and!; [by apply keeps_env_at|by eexists|].
    destruct (path_built n s); [right|by left]. intros b w Hb'. by rewrite Hvar in Hb'.
Qed.

Lemma Th8_GetVar_ok s nm n : wf sd s → named nm n → safe debug (Th8_GetVar debug sd nm s) (λ '(_, s'), keeps sd s s').
Proof.
  intros H Hn. unfold Th8_GetVar. eapply safe_bind; [by apply (find_scalar_ok s nm n)|]. intros [[v|] s'] (K & _).
  - destruct (if th8IsSecureVar (env s') (fst nm) (snd nm) then _ else _) as [rc i]. cbn [safe]. by apply keeps_env_at.
  - done.
Qed.

Lemma Th8_ExistsVar_ok s nm n : wf sd s → named nm n → safe debug (Th8_ExistsVar debug sd nm s) (λ '(_, s'), keeps sd s s').
Proof.
  intros H Hn. unfold Th8_ExistsVar. eapply safe_bind; [by apply (find_safe debug sd s 0 nm n false H (frames_pos sd s H) Hn)|].
  intros [o s'] F. pose proof (found_keeps sd _ _ _ _ _ _ F) as K. destruct o as [a|].
  - apply found_made in F as (H' & _ & _ & [v Hv]). rewrite (deref_ok _ _ _ Hv) by by eapply live_pos. done.
  - cbn [safe]. by apply keeps_env_at.
Qed.

(** ** Writing *)

(** The value of a secure variable goes to its cipher. *)
Lemma secure_var_ok s0 s nm a v rel : keeps sd s0 s → heap (mem s) !! a = Some v → pHash v = None → is_Some (zData v) →
  ∃ rc s', secure_var nm a rel s = Ok (rc, s') ∧ keeps sd s0 s'.
Proof.
  intros [H S] Hv Hp [z Hz]. assert (K : keeps sd s0 s) by done. unfold secure_var.
  rewrite (deref_ok _ _ _ Hv) by by eapply live_pos. cbn [res_bind]. rewrite Hz.
  destruct (live_value sd s a v H Hv) as (_ & _ & Hval). rewrite Hz in Hval. pose proof (TH8_LEN_range (nData v)).
  rewrite read_ok by lia. cbn [res_bind]. destruct (th8SecureSetVar _ _ _ _) as [rc i]. unfold wipe.
  replace (zlen z <? TH8_LEN (nData v) + 1) with false by lia. cbn [res_bind]. set (s1 := set_env _ s).
  assert (W1 : writes sd a v s s1) by by apply writes_env. destruct (ask_env (ABytes 1) s1) as (ok & i2 & ->).
  assert (W2 : writes sd a v s (set_env i2 s1)).
  { eapply writes_trans; [exact W1|]. apply writes_env; apply W1. }
  destruct W2 as (H2 & T2 & Hv2).
  assert (K2 : keeps sd s0 (set_env i2 s1)) by (eapply writes_keeps; [exact K|by split_and!]).
  destruct ok.
  - destruct (write_value sd (set_env i2 s1) a v false 0 0 (Some [0])) as (s' & -> & W & _); [done..|by repeat split|].
    cbn [res_bind]. eexists _, _. split; [done|]. by eapply writes_keeps.
  - destruct (write_value sd (set_env i2 s1) a v false (nData v) 0 None) as (s' & -> & W & _); [done..|by repeat split|].
    cbn [res_bind]. eexists _, _. split; [done|]. apply keeps_env_at. by eapply writes_keeps.
Qed.

(** What a store leaves: the name denotes a scalar with the value, and the
    other variables are as the search left them. *)
Definition stored (n : var_name) (z : bytes) (nz : Z) s s' : Prop :=
  ∃ a s1 v, grows s s1 ∧ touched a s1 s' ∧ var_of 0 n s' = Some a ∧ heap (mem s') !! a = Some v ∧
    pHash v = None ∧ zData v = Some z ∧ nData v = nz.

Lemma Th8_SetVar_ok s nm n zVal nVal d nd : wf sd s → named nm n → nul_free n → value_text zVal nVal = Ok (d, nd) →
  safe debug (Th8_SetVar debug sd nm zVal nVal s) (λ '(rc, s'), keeps sd s s' ∧
    (rc = TH8_OK → (∀ i, th8IsSecureVar i (fst nm) (snd nm) = false) → stored n (d ++ [0]) nd s s')).
Proof.
  intros H Hn Hnul Hval. pose proof (value_text_len _ _ _ _ Hval) as Hlen. unfold Th8_SetVar.
  eapply safe_bind; [by apply (find_safe debug sd s 0 nm n true H (frames_pos sd s H) Hn)|].
  intros [o s1] F. pose proof (found_keeps sd _ _ _ _ _ _ F) as K. destruct o as [a|]; [|done].
  apply found_made in F as (H1 & G1 & Hvar & [v Hv]). rewrite (deref_ok _ _ _ Hv) by by eapply live_pos. cbn [res_bind].
  case_bool_decide as Ha.
  { cbn [safe]. split; [by apply keeps_env_at|done]. }
  assert (Hp : pHash v = None) by by destruct (pHash v); [destruct Ha; eauto|].
  unfold value_text in Hval. destruct (if nVal =? TH8_NOLEN then _ else _) as [[m t]|]; [|done]. cbn [res_bind] in *.
  set (s2 := on_env _ s1). assert (W2 : writes sd a v s1 s2) by by apply writes_env.
  destruct (release_step sd s2 a v) as [i ->]; [apply W2..|]. cbn [res_bind].
  destruct (ask_env (AString m) (set_env i s2)) as (ok & i2 & ->). set (s3 := set_env i2 _).
  assert (W3 : writes sd a v s1 s3).
  { eapply writes_trans; [exact W2|]. eapply writes_trans; [apply writes_env; apply W2|].
    apply writes_env; [apply inv_env|]; apply W2. }
  destruct W3 as (H3 & T3 & Hv3). assert (K3 : keeps sd s s3) by (eapply writes_keeps; [exact K|by split_and!]).
  destruct ok; cbn [negb].
  2: { destruct (write_value sd s3 a v false (Z.lor m t) 0 None) as (s' & -> & W & _); [done..|by repeat split|].
       cbn [res_bind safe]. split; [|done]. apply keeps_env_at. by eapply writes_keeps. }
  destruct (match zVal with Some z => _ | None => _ end) as [z|]; [|done]. cbn [res_bind] in *. injection Hval as -> <-.
  destruct (write_value sd s3 a v false (Z.lor m t) 0 (Some (d ++ [0]))) as (s4 & -> & W4 & _); [done..| |].
  { split_and!; cbn; [done..|]. unfold zlen in *. rewrite length_app. cbn. lia. }
  cbn [res_bind]. pose proof (writes_keeps sd _ _ _ _ _ K3 W4) as K4. destruct W4 as (H4 & T4 & Hv4).
  destruct (signal_step sd s4 a _ H4 Hv4) as (s5 & -> & W5). cbn [res_bind].
  pose proof (writes_keeps sd _ _ _ _ _ K4 W5) as K5. destruct W5 as (H5 & T5 & Hv5).
  destruct (th8IsSecureVar (env s5) (fst nm) (snd nm)) eqn:Es.
  - destruct (secure_var_ok s s5 nm a _ true K5 Hv5) as (rc & s' & -> & K'); [done|by eexists|].
    cbn [safe]. split; [done|]. intros _ Hs. congruence.
  - cbn [safe]. split; [done|]. intros _ _. exists a, s1, (bump_nWait (set_value false (Z.lor m t) 0 (Some (d ++ [0])) v)).
    assert (T : touched a s1 s5) by (repeat (eapply touched_trans; [eassumption|]); apply touched_refl).
    split_and!; [done|done|by rewrite (touched_var a _ _ _ _ T)|done..].
Qed.

(** A buffer of the pool, with room for the final NUL. *)
Definition buffer_ok (b : th8_buffer) : Prop :=
  match pBuffer b with
  | Some z => TH8_LEN (nUsed b) < nCapacity b <= zlen z
  | None => True
  end.

Lemma named_len nm n : named nm n → ∃ nVar, (if snd nm =? TH8_NOLEN then Th8_Strlen (fst nm) else Ok (snd nm)) = Ok nVar.
Proof. unfold named, th8AnalyzeVarName. intros Hn. destruct (if snd nm =? TH8_NOLEN then _ else _) as [nVar|]; [eauto|done]. Qed.

Lemma set_byte_ok z n c : 0 <= n < zlen z → set_byte z n c = Ok (<[Z.to_nat n := c]> z) ∧ zlen (<[Z.to_nat n := c]> z) = zlen z.
Proof.
  intros Hn. unfold set_byte. replace ((0 <=? n) && (n <? zlen z)) with true by lia.
  unfold zlen. by rewrite length_insert.
Qed.

Lemma LEN_retag n : TH8_LEN (Z.lor (TH8_LEN n) (Z.land n TH8_TAG_BITS)) = TH8_LEN n.
Proof. fold (tag_of n). apply LEN_with_tag, TH8_LEN_range. Qed.

Lemma th8SetVarValue_ok s nm n b : wf sd s → named nm n → nul_free n → buffer_ok b →
  safe debug (th8SetVarValue debug sd nm b s) (λ '(rc, _, s'), keeps sd s s' ∧
    (rc = TH8_OK → (∀ i k, th8IsSecureVar i (fst nm) k = false) →
     ∃ z, pBuffer b = Some z ∧ stored n (<[Z.to_nat (TH8_LEN (nUsed b)) := 0]> z)
       (Z.lor (TH8_LEN (nUsed b)) (Z.land (nUsed b) TH8_TAG_BITS)) s s')).
Proof.
  intros H Hn Hnul Hb. unfold th8SetVarValue, buffer_ok in *. destruct (pBuffer b) as [z|].
  2: { cbn [safe]. split; [by apply keeps_state_refl|done]. }
  eapply safe_bind; [by apply (find_safe debug sd s 0 nm n true H (frames_pos sd s H) Hn)|].
  intros [o s1] F. pose proof (found_keeps sd _ _ _ _ _ _ F) as K. destruct o as [a|]; [|done].
  apply found_made in F as (H1 & G1 & Hvar & [v Hv]). rewrite (deref_ok _ _ _ Hv) by by eapply live_pos. cbn [res_bind].
  case_bool_decide as Ha.
  { cbn [safe]. split; [by apply keeps_env_at|done]. }
  assert (Hp : pHash v = None) by by destruct (pHash v); [destruct Ha; eauto|].
  destruct (named_len nm n Hn) as [nVar ->]. cbn [res_bind]. pose proof (TH8_LEN_range (nUsed b)) as Hr.
  destruct (set_byte_ok z (TH8_LEN (nUsed b)) 0) as [-> Hz]; [lia|]. cbn [res_bind].
  set (z' := <[_ := 0]> z) in *. set (m := Z.lor _ _) in *.
  destruct (release_step sd s1 a v H1 Hv) as [i ->]. cbn [res_bind].
  assert (W2 : writes sd a v s1 (set_env i s1)) by by apply writes_env. destruct W2 as (H2 & T2 & Hv2).
  destruct (write_value sd _ a v true m (nCapacity b) (Some z') H2 Hv2 Hp) as (s3 & -> & W3 & _).
  { split_and!; cbn; [lia|lia|]. unfold m. rewrite LEN_retag. lia. }
  cbn [res_bind]. destruct W3 as (H3 & T3 & Hv3). destruct (signal_step sd s3 a _ H3 Hv3) as (s4 & -> & (H4 & T4 & Hv4)).
  cbn [res_bind]. assert (T : touched a s1 s4) by (repeat (eapply touched_trans; [eassumption|]); apply touched_refl).
  assert (K4 : keeps sd s s4) by (eapply writes_keeps; [exact K|split_and!; [exact H4|exact T|exact Hv4]]).
  destruct (th8IsSecureVar (env s4) (fst nm) nVar) eqn:Es.
  - destruct (secure_var_ok s s4 (fst nm, nVar) a _ false K4 Hv4) as (rc & s' & -> & K'); [done|by eexists|].
    cbn [res_bind safe]. split; [done|]. intros _ Hs. congruence.
  - cbn [safe]. split; [done|]. intros _ _. exists z. split; [done|]. exists a, s1. eexists.
    split_and!; [done|done|by rewrite (touched_var a _ _ _ _ T)|exact Hv4|done..].
Qed.

(** The new block has room for what the variable's says. *)
Lemma th8SetVarLength_ok s nm n z nLen : wf sd s → named nm n → TH8_LEN nLen + 1 <= zlen z →
  (∀ a v, var_of 0 n s = Some a → heap (mem s) !! a = Some v → nAlloc v <= zlen z) →
  safe debug (th8SetVarLength debug sd nm z nLen s) (λ '(_, s'), keeps sd s s').
Proof.
  intros H Hn Hlen Hal. unfold th8SetVarLength.
  eapply safe_bind; [by apply (find_safe debug sd s 0 nm n false H (frames_pos sd s H) Hn)|].
  intros [o s1] F. pose proof (found_keeps sd _ _ _ _ _ _ F) as K. destruct o as [a|]; [|done].
  apply found_read in F as (H1 & -> & Hvar & [v Hv]). set (i := path_env n s) in *.
  rewrite (deref_ok _ _ _ Hv) by by eapply live_pos. cbn [res_bind].
  destruct (bBorrowed v) eqn:Eb; [|done]. cbn [negb]. destruct (live_value sd _ a v H1 Hv) as (Hn0 & Hpos & Hval).
  assert (Hp : pHash v = None).
  { destruct (pHash v) as [h|] eqn:Eh; [|done]. destruct (live_array sd _ a v h H1 Hv Eh) as [Hz _].
    rewrite Hz in Hval. congruence. }
  destruct (write_value sd _ a v true (TH8_LEN nLen) (nAlloc v) (Some z) H1 Hv Hp) as (s2 & -> & W & _).
  { pose proof (TH8_LEN_range nLen) as Hr. split_and!; cbn; [lia|auto|]. split; [|by apply (Hal a)]. rewrite TH8_LEN_small; lia. }
  cbn [res_bind]. pose proof (writes_keeps sd _ _ _ _ _ K W) as K2. destruct W as (H2 & T2 & Hv2).
  destruct (signal_step sd s2 a _ H2 Hv2) as (s3 & -> & W3). cbn [res_bind safe]. by eapply writes_keeps.
Qed.

(** ** Appending in place *)

Definition arg_text (arg : cstring) : bytes := take (Z.to_nat (TH8_LEN (snd arg))) (fst arg).
Definition args_ok (args : list cstring) : Prop := Forall (λ arg, TH8_LEN (snd arg) <= zlen (fst arg)) args.

Lemma args_len_pos args : 0 <= args_len args.
Proof. induction args as [|arg args IH]; cbn [args_len foldr]; [done|]. pose proof (TH8_LEN_range (snd arg)). unfold args_len in IH. lia. Qed.

Lemma args_tag_len args : TH8_LEN (args_tag args) = 0.
Proof. induction args as [|arg args IH]; [done|]. cbn [args_tag foldr]. rewrite LEN_lor. fold (tag_of (snd arg)). by rewrite LEN_tag_of. Qed.

Lemma copy_at_ok z n bs : 0 <= n → n + zlen bs <= zlen z →
  ∃ z', copy_at z n bs = Ok z' ∧ zlen z' = zlen z ∧ take (Z.to_nat (n + zlen bs)) z' = take (Z.to_nat n) z ++ bs.
Proof.
  intros Hn Hb. unfold copy_at. replace (zlen z <? n + zlen bs) with false by lia. eexists. split; [done|].
  unfold zlen in *. rewrite !length_app, length_take, length_drop. split; [lia|].
  rewrite app_assoc, take_app_length'; [done|]. rewrite length_app, length_take. lia.
Qed.

Lemma append_args_ok args : ∀ z n, args_ok args → 0 <= n → n + args_len args <= zlen z →
  ∃ z', append_args z n args = Ok (z', n + args_len args) ∧ zlen z' = zlen z ∧
    take (Z.to_nat (n + args_len args)) z' = take (Z.to_nat n) z ++ concat (map arg_text args).
Proof.
  induction args as [|arg args IH]; intros z n Hargs Hn Hlen; cbn [append_args].
  - exists z. rewrite Z.add_0_r, app_nil_r. done.
  - apply Forall_cons in Hargs as [Ha Hargs]. pose proof (TH8_LEN_range (snd arg)) as Hr. pose proof (args_len_pos args) as Hp.
    assert (El : args_len (arg :: args) = TH8_LEN (snd arg) + args_len args) by done. rewrite El in *.
    rewrite read_ok by lia. cbn [res_bind]. fold (arg_text arg).
    assert (Hz : zlen (arg_text arg) = TH8_LEN (snd arg)) by (unfold arg_text, zlen in *; rewrite length_take; lia).
    destruct (copy_at_ok z n (arg_text arg)) as (z1 & -> & Hz1 & Ht1); [lia|lia|]. cbn [res_bind].
    destruct (IH z1 (n + TH8_LEN (snd arg)) Hargs) as (z2 & -> & Hz2 & Ht2); [lia|lia|].
    exists z2. split; [f_equal; f_equal; lia|]. split; [lia|]. cbn [map concat]. rewrite Z.add_assoc, Ht2.
    rewrite <- Hz, Ht1. by rewrite app_assoc.
Qed.

(** The variable's value and the pieces, one after the other, in its block. *)
Definition appended (n : var_name) (args : list cstring) s s' : Prop :=
  ∃ a v z v' z', var_of 0 n s = Some a ∧ heap (mem s) !! a = Some v ∧ zData v = Some z ∧
    touched a s s' ∧ heap (mem s') !! a = Some v' ∧ zData v' = Some z' ∧ zlen z' = zlen z ∧
    let m := TH8_LEN (nData v) + args_len args in
    take (Z.to_nat m) z' = take (Z.to_nat (TH8_LEN (nData v))) z ++ concat (map arg_text args) ∧
    z' !! Z.to_nat m = Some 0 ∧
    nData v' = Z.lor m (Z.lor (Z.land (nData v) TH8_TAG_BITS) (args_tag args)).

Lemma th8AppendInPlace_ok s nm n args : wf sd s → named nm n → args_ok args →
  safe debug (th8AppendInPlace debug sd nm args s) (λ '(rc, s'), keeps sd s s' ∧ (rc = TH8_OK → appended n args s s')).
Proof.
  intros H Hn Hargs. unfold th8AppendInPlace.
  eapply safe_bind; [by apply (find_safe debug sd s 0 nm n false H (frames_pos sd s H) Hn)|].
  intros [o s1] F. pose proof (found_keeps sd _ _ _ _ _ _ F) as K. destruct o as [a|]; [|done].
  apply found_read in F as (H1 & -> & Hvar & [v Hv]). set (i := path_env n s) in *.
  rewrite (deref_ok _ _ _ Hv) by by eapply live_pos. cbn [res_bind].
  destruct (bBorrowed v) eqn:Eb; [|done]. cbn [negb orb]. destruct (nAlloc v =? 0); [done|].
  destruct (live_value sd _ a v H1 Hv) as (Hn0 & Hpos & Hval).
  destruct (zData v) as [z|] eqn:Ez; [|congruence].
  assert (Hp : pHash v = None).
  { destruct (pHash v) as [h|] eqn:Eh; [|done]. destruct (live_array sd _ a v h H1 Hv Eh). congruence. }
  pose proof (args_len_pos args) as Hal. pose proof (TH8_LEN_range (nData v)) as Hr.
  unfold TH8_SAFE_ADD_SIZE. destruct (SIZE_MAX - args_len args <? TH8_LEN (nData v)); [done|]. cbn [orb].
  destruct (nAlloc v <=? _) eqn:Eo; [done|]. bool_to_prop. set (m := TH8_LEN (nData v) + args_len args) in *.
  destruct (append_args_ok args z (TH8_LEN (nData v)) Hargs) as (z1 & -> & Hz1 & Ht1); [lia|unfold m in *; lia|]. fold m in Ht1 |- *.
  cbn [res_bind]. destruct (set_byte_ok z1 m 0) as [-> Hz2]; [unfold m in *; lia|]. cbn [res_bind].
  set (z2 := <[_ := 0]> z1) in *. set (nt := Z.lor m _).
  destruct (write_value sd _ a v true nt (nAlloc v) (Some z2) H1 Hv Hp) as (s2 & -> & W & _).
  { split_and!; cbn; [lia|auto|]. split; [|lia]. unfold nt. rewrite !LEN_lor. fold (tag_of (nData v)).
    rewrite LEN_tag_of, args_tag_len, !Z.lor_0_r. pose proof (LEN_le m). unfold m in *. lia. }
  cbn [res_bind safe]. pose proof (writes_keeps sd _ _ _ _ _ K W) as K2. split; [by apply keeps_env_at|]. intros _.
  destruct W as (H2 & T2 & Hv2). exists a, v, z. eexists. exists z2. unfold nt in Hv2.
  split_and!; [done|done|done| |exact Hv2|done|lia|].
  - eapply touched_trans; [apply (touched_env a s i)|]. eapply touched_trans; [exact T2|apply touched_env].
  - cbv zeta. fold m. split_and!; [|apply list_lookup_insert_eq; unfold m, zlen in *; lia|done].
    unfold z2. rewrite take_insert_ge by lia. exact Ht1.
Qed.
End writes.
