(* ===== verification/VarUnset.v ===== *)
(** * VarUnset: removing variables.

    Th8_UnsetVar releases what it removes exactly once, and no frame of the
    chain keeps a name of a variable that was removed. *)

From S2P Require Import Prelude Memory Strings Hash Lists VarTables VarState VarRefs Namespaces Vars VarInv NsTree VarResolve VarSteps.
From stdpp Require Import gmap.
#[local] Open Scope Z_scope.
#[local] Open Scope res_scope.

Section unset.
Context (debug : bool) (sd : seeds) {I : Type} `{VE : VarEnv I}.
Implicit Types (s : interp I).

Lemma dict_entry h k d : table_ok sd h → dict h !! k = Some d → ∃ p, p ∈ entries h ∧ zKey p = k ∧ pData p = d.
Proof.
  intros _ Hd%elem_of_list_to_map_2. apply list_elem_of_fmap in Hd as (p & [= -> ->] & Hp). eauto.
Qed.

(** Frames and variables go, the rest stays. *)
Record slim s s' : Prop := {
  sl_shape : shape s s';
  sl_ns : namespaces s' = namespaces s;
  sl_freed : freed (mem s) (mem s')
}.

Lemma slim_refl s : slim s s.
Proof. split; [apply shape_refl|done|apply freed_refl]. Qed.
Lemma slim_trans s1 s2 s3 : slim s1 s2 → slim s2 s3 → slim s1 s3.
Proof. intros [] []. split; [by eapply shape_trans|congruence|by eapply freed_trans]. Qed.
Lemma slim_env s i : slim s (set_env i s).
Proof. split; [by split|done|]. split; [done|]. intros b v Hv. exists v. by rewrite set_nRef_id. Qed.

(** A reference that an entry holds is released, and the entry goes. *)
Lemma release_entry s t h key a : wf sd s → table_at t s = Ok h → dict h !! key = Some a → a ≠ 0 →
  (∀ m', freed (mem s) m' → inv sd a (less a (λ _, 0)) (set_mem m' s) → table_at t (set_mem m' s) = Ok h) →
  ∃ m' s', free_variable a (mem s) = Ok m' ∧ freed (mem s) m' ∧ table_at t (set_mem m' s) = Ok h ∧
    remove_entry sd t key (set_mem m' s) = Ok s' ∧
    put_table t (Th8_HashRemove sd h key) (set_mem m' s) = Ok s' ∧ wf sd s'.
Proof.
  intros H Ht Hk Ha Hm. destruct (entry_live sd _ s t h key a H (none_held) Ht Hk Ha) as [v Hv].
  pose proof (h_addr _ _ _ _ (i_heap _ _ _ _ H) a v Hv) as Hpos.
  destruct (free_var_ok sd a (λ _, 0) s a v) as (m' & Ef & H' & Hfr); [by eapply inv_floor; [|exact H]; lia|done|lia|lia|].
  pose proof (Hm m' Hfr H') as Ht'. destruct (table_ok_at sd 0 _ s t h H Ht) as [[Hh Hp] He].
  destruct (t_remove sd h key Hh) as [Hh' Hd].
  destruct (put_table_ok sd a _ (λ _, 0) _ t h (Th8_HashRemove sd h key) H' Ht') as (s' & Ep & Hs').
  - split; [done|]. intros k d. rewrite Hd. intros [_ Hkd]%lookup_delete_Some. by apply (Hp k).
  - intros k d. rewrite Hd. intros [_ Hkd]%lookup_delete_Some. by apply (He k).
  - intros b Hb. unfold less. rewrite Hd, (count_delete _ _ _ _ Hk). lia.
  - done.
  - exists m', s'. split_and!; [done|done|done| |done|done]. unfold remove_entry. by rewrite Ht'.
Qed.

Lemma put_frame_slim s s' j h : put_table (TFrame j) h s = Ok s' → slim s s'.
Proof.
  intros Hp. split; [by eapply put_table_shape|by injection Hp as <-|]. injection Hp as <-. apply freed_refl.
Qed.

Lemma slim_mem s m' : freed (mem s) m' → slim s (set_mem m' s).
Proof. intros Hf. by split. Qed.

(** ** The other frames *)

(** The tables of frames other than [j] stay. *)
Definition frames_but (j : nat) s s' : Prop := ∀ i, i ≠ j → table_at (TFrame i) s' = table_at (TFrame i) s.

Lemma unlink_entries_ok j k a hk key l : j ≠ k → a ≠ 0 → dict hk !! key = Some a → ∀ s h, wf sd s →
  table_at (TFrame k) s = Ok hk → table_at (TFrame j) s = Ok h → NoDup (map zKey l) →
  (∀ p, p ∈ l → dict h !! zKey p = Some (pData p)) →
  ∃ s' h', unlink_entries sd j a l s = Ok s' ∧ wf sd s' ∧ slim s s' ∧ frames_but j s s' ∧ table_at (TFrame j) s' = Ok h' ∧
    (∀ p, p ∈ l → pData p = a → dict h' !! zKey p = None) ∧
    (∀ z, (∀ p, p ∈ l → zKey p = z → pData p ≠ a) → dict h' !! z = dict h !! z).
Proof.
  intros Hjk Ha Hk. induction l as [|p l IH]; intros s h H Htk Htj Hnd Hl; cbn [unlink_entries].
  { exists s, h. split_and!; [done|done|apply slim_refl|done|done|by intros p ?%elem_of_nil|done]. }
  cbn [map] in Hnd. apply NoDup_cons in Hnd as [Hp Hnd].
  destruct (pData p =? a) eqn:E; bool_to_prop.
  - destruct (release_entry s (TFrame j) h (zKey p) a H Htj) as (m' & s1 & -> & Hfr & Htj' & Er & Ep & H1).
    { rewrite Hl by by left. by rewrite E. }
    { done. }
    { done. }
    cbn [res_bind]. rewrite Er. cbn [res_bind]. destruct (table_ok_at sd 0 _ s _ h H Htj) as [[Hh _] _].
    destruct (t_remove sd h (zKey p) Hh) as [_ Hd].
    assert (Ht1 : table_at (TFrame j) s1 = Ok (Th8_HashRemove sd h (zKey p))) by by eapply (put_table_get _ s1); [exact Htj'|exact Ep].
    assert (Hb1 : frames_but j s s1).
    { intros i Hi. rewrite (put_table_other _ _ _ (TFrame i) _ _ Htj' Ep) by congruence. done. }
    destruct (IH s1 (Th8_HashRemove sd h (zKey p)) H1) as (s2 & h2 & -> & H2 & S2 & B2 & T2 & D2 & D2'); [rewrite Hb1 by congruence; exact Htk|exact Ht1|done| |].
    { intros q Hq. rewrite Hd, lookup_delete_ne; [by apply Hl; right|]. intros Heq. apply Hp. rewrite Heq. by apply list_elem_of_fmap_2. }
    exists s2, h2. split_and!; [done|done| | |done| |].
    + eapply slim_trans; [|exact S2]. eapply slim_trans; [by apply (slim_mem s m')|by eapply put_frame_slim].
    + intros i Hi. rewrite B2, Hb1 by done. done.
    + intros q [->|Hq]%elem_of_cons Hqa; [|by apply D2].
      rewrite D2', Hd by (intros q Hq Hqz; exfalso; apply Hp; rewrite <- Hqz; by apply list_elem_of_fmap_2).
      by rewrite lookup_delete_eq.
    + intros z Hz. rewrite D2' by (intros q Hq; apply Hz; by right). rewrite Hd, lookup_delete_ne; [done|].
      intros <-. apply (Hz p); [by left|done|done].
  - destruct (IH s h H Htk Htj Hnd) as (s2 & h2 & -> & H2 & S2 & B2 & T2 & D2 & D2'); [intros q Hq; apply Hl; by right|].
    exists s2, h2. split_and!; [done..| |].
    + intros q [->|Hq]%elem_of_cons Hqa; [done|by apply D2].
    + intros z Hz. apply D2'. intros q Hq. apply Hz. by right.
Qed.

(** What is left of a frame's names. *)
Definition unnamed (a : Z) (hit : nat → bytes → Prop) s s' : Prop :=
  ∀ i h, table_at (TFrame i) s = Ok h → ∃ h', table_at (TFrame i) s' = Ok h' ∧ ∀ z,
    (hit i z → dict h !! z = Some a → dict h' !! z = None) ∧ (¬ (hit i z ∧ dict h !! z = Some a) → dict h' !! z = dict h !! z).

Lemma unlink_frames_ok k a hk key n : a ≠ 0 → dict hk !! key = Some a → ∀ j s, wf sd s →
  table_at (TFrame k) s = Ok hk → (j + n = length (frames s))%nat →
  ∃ s', unlink_frames sd n j k a s = Ok s' ∧ wf sd s' ∧ slim s s' ∧ table_at (TFrame k) s' = Ok hk ∧
    unnamed a (λ i _, (j <= i)%nat ∧ i ≠ k) s s'.
Proof.
  intros Ha Hk. induction n as [|n IH]; intros j s H Htk Hn; cbn [unlink_frames].
  { exists s. split_and!; [done|done|apply slim_refl|done|]. intros i h Ht. exists h. split; [done|]. intros z. split; [|done].
    intros [Hi _]. cbn [table_at] in Ht. rewrite lookup_ge_None_2 in Ht by lia. done. }
  destruct (Nat.eqb_spec j k) as [E|E].
  - destruct (IH (S j) s H Htk) as (s' & -> & H' & S' & T' & U'); [lia|]. exists s'. split_and!; [done..|].
    intros i h Ht. destruct (U' i h Ht) as (h' & Ht' & Hu). exists h'. split; [done|]. intros z. destruct (Hu z) as [A B].
    split; [intros [? ?]; apply A; lia|]. intros Hno. apply B. intros [[? ?] ?]. apply Hno. split; [lia|done].
  - destruct (frames s !! j) as [f|] eqn:Ef; [|apply lookup_ge_None in Ef; lia].
    assert (Htj : table_at (TFrame j) s = Ok (paVar f)) by (cbn [table_at]; by rewrite Ef).
    destruct (table_ok_at sd 0 _ s _ _ H Htj) as [[Hh _] _]. rewrite Htj. cbn [res_bind].
    destruct (unlink_entries_ok j k a hk key (entries (paVar f)) E Ha Hk s (paVar f)) as (s1 & h1 & E1 & H1 & S1 & B1 & T1 & D1 & D1');
      [done..|apply (t_keys _ _ Hh)|intros p Hp; by apply (entry_dict sd)|].
    fold (entries (paVar f)). rewrite E1. cbn [res_bind].
    destruct (IH (S j) s1 H1) as (s2 & -> & H2 & S2 & T2 & U2); [by rewrite B1|rewrite (sh_frames _ _ (sl_shape _ _ S1)); lia|].
    exists s2. split_and!; [done|done|by eapply slim_trans|done|].
    intros i h Ht. destruct (decide (i = j)) as [->|Hi].
    + assert (h = paVar f) as -> by congruence. destruct (U2 j h1 T1) as (h2 & Ht2 & Hu). exists h2. split; [done|]. intros z.
      destruct (Hu z) as [_ B]. rewrite B by lia. split.
      * intros _ Hz. destruct (dict_entry _ z a Hh Hz) as (p & Hp & <- & Hpa). by apply D1.
      * intros Hno. apply D1'. intros p Hp <- Hpa. apply Hno. split; [lia|]. rewrite (entry_dict sd _ p Hh Hp). congruence.
    + destruct (U2 i h) as (h2 & Ht2 & Hu); [by rewrite B1|]. exists h2. split; [done|]. intros z. destruct (Hu z) as [A B].
      split; [intros [? ?]; apply A; lia|]. intros Hno. apply B. intros [[? ?] ?]. apply Hno. split; [lia|done].
Qed.

(** A variable with one reference has one name in the chain. *)
Lemma sole_name s i k hi hk z key a v : wf sd s → heap (mem s) !! a = Some v → nRef v <= 1 → i ≠ k →
  table_at (TFrame i) s = Ok hi → table_at (TFrame k) s = Ok hk → dict hi !! z = Some a → dict hk !! key = Some a → False.
Proof.
  intros H Hv Hn Hik Hti Htk Hi Hk. cbn [table_at] in *.
  destruct (frames s !! i) as [fi|] eqn:Ei; [|done]. destruct (frames s !! k) as [fk|] eqn:Ek; [|done].
  injection Hti as <-. injection Htk as <-. pose proof (live_pos sd s a v H Hv) as Ha.
  pose proof (h_refs _ _ _ _ (i_heap _ _ _ _ H) a Ha) as Hr. rewrite Hv in Hr.
  pose proof (count_positive _ _ _ Hi). pose proof (count_positive _ _ _ Hk).
  pose proof (refs_in_alter (frames s) i fi Th8_HashNew a Ei) as R1.
  set (fs := alter (λ f, mkFrame Th8_HashNew (pNs f)) i (frames s)) in *.
  assert (Ek' : fs !! k = Some fk) by (unfold fs; by rewrite list_lookup_alter_ne).
  pose proof (refs_in_alter fs k fk Th8_HashNew a Ek') as R2. rewrite (proj2 (table_new sd)), count_empty in R1, R2.
  pose proof (refs_in_nonneg (alter (λ f, mkFrame Th8_HashNew (pNs f)) k fs) a).
  pose proof (ns_vars_nonneg a (namespaces s)). pose proof (elem_refs_nonneg a (heap (mem s))).
  unfold all_frames in Hr. rewrite refs_in_app in Hr. pose proof (refs_in_nonneg (concat (saved s)) a). lia.
Qed.

(** ** What a removal leaves *)

(** Tables of names lose entries, variables are as they were or went, and
    elements are as they were but those of [P]. *)
Record pruned (P : Z → bytes → Prop) s s' : Prop := {
  pr_shape : shape s s';
  pr_ns : namespaces s' = namespaces s;
  pr_value : ∀ b v', heap (mem s') !! b = Some v' → ∃ v, heap (mem s) !! b = Some v ∧ zData v' = zData v ∧ nData v' = nData v;
  pr_elem : ∀ b key, is_Some (heap (mem s') !! b) → ¬ P b key → entry_of (TVar b) key s' = entry_of (TVar b) key s
}.

Lemma pruned_trans P s1 s2 s3 : pruned P s1 s2 → pruned P s2 s3 → pruned P s1 s3.
Proof.
  intros [A1 A2 A3 A4] [B1 B2 B3 B4]. split; [by eapply shape_trans|congruence| |].
  - intros b v3 Hv3. destruct (B3 b v3 Hv3) as (v2 & Hv2 & E1 & E2). destruct (A3 b v2 Hv2) as (v1 & Hv1 & F1 & F2).
    exists v1. split_and!; [done|congruence..].
  - intros b key [v3 Hv3] Hp. destruct (B3 b v3 Hv3) as (v2 & Hv2 & _). rewrite B4, A4; [done|by eexists|done|by eexists|done].
Qed.

Lemma thinned_table s s' b v' : thinned s s' → heap (mem s') !! b = Some v' → table_at (TVar b) s' = table_at (TVar b) s.
Proof.
  intros Ht Hv'. destruct (Ht b v' Hv') as (v & Hv & _ & _ & E). cbn [table_at]. unfold deref. rewrite Hv', Hv.
  destruct (b =? 0); [done|]. cbn [res_bind]. by rewrite E.
Qed.

Lemma thinned_pruned P s s' : shape s s' → namespaces s' = namespaces s → thinned s s' → pruned P s s'.
Proof.
  intros H1 H2 Ht. split; [done|done| |].
  - intros b v' Hv'. destruct (Ht b v' Hv') as (v & ? & ? & ? & _). eauto.
  - intros b key [v' Hv'] _. unfold entry_of. by rewrite (thinned_table s s' b v').
Qed.

Lemma slim_pruned P s s' : slim s s' → pruned P s s'.
Proof. intros [H1 H2 H3]. apply thinned_pruned; [done|done|by apply thinned_freed]. Qed.

Lemma writes_pruned P a v v' s s' : heap (mem s) !! a = Some v → zData v' = zData v → nData v' = nData v →
  writes sd a v' s s' → pruned P s s'.
Proof.
  intros Hv E1 E2 (_ & T & Hv'). apply thinned_pruned; [by eapply touched_shape|apply T|]. intros b w Hw.
  pose proof (to_hash _ _ _ T) as Hh. rewrite Hv, Hv' in Hh. injection Hh as Hh. destruct (decide (b = a)) as [->|Hne].
  - assert (w = v') as -> by congruence. eauto.
  - rewrite (to_heap _ _ _ T b Hne) in Hw. eauto.
Qed.

Lemma signal_pruned P s s' a v : heap (mem s) !! a = Some v → writes sd a (bump_nWait v) s s' → pruned P s s'.
Proof. intros Hv W. exact (writes_pruned P a v (bump_nWait v) s s' Hv eq_refl eq_refl W). Qed.

(** A variable that is there before and after, with its value. *)
Definition same_value (a : Z) s s' : Prop :=
  ∃ v v', heap (mem s) !! a = Some v ∧ heap (mem s') !! a = Some v' ∧ zData v' = zData v ∧ nData v' = nData v.

Lemma pruned_slot P s s' k nm : pruned P s s' → slot_of k nm s' = slot_of k nm s.
Proof. intros [S N _ _]. unfold slot_of, global_frame. by rewrite (sh_frames _ _ S), (sh_glob _ _ S), N. Qed.

Lemma pruned_value P s s' t key a : wf sd s' → pruned P s s' → entry_of t key s' = Some a → same_value a s s'.
Proof.
  intros H Hp He. destruct (entry_var sd s' t key a H He) as (_ & v' & _ & _ & Hv').
  destruct (pr_value P s s' Hp a v' Hv') as (v & Hv & E1 & E2). by exists v, v'.
Qed.

(** A name whose outer name is as it was. *)
Lemma pruned_var P s s' k nm : wf sd s' → pruned P s s' → outer_of k nm s' = outer_of k nm s →
  (∀ b z, outer_of k nm s = Some b → zInner nm = Some z → ¬ P b z) →
  var_of k nm s' = var_of k nm s ∧ ∀ a, var_of k nm s = Some a → same_value a s s'.
Proof.
  intros H Hp Ho HP. unfold var_of. rewrite Ho. destruct (outer_of k nm s) as [b|] eqn:Eb; [|done].
  cbn [mbind option_bind]. pose proof Ho as He. unfold outer_of in He. destruct (slot_of k nm s') as [[t key]|]; [|done].
  cbn [mbind option_bind fst snd] in He. pose proof (pruned_value P s s' t key b H Hp He) as Hb.
  destruct (zInner nm) as [z|] eqn:Ez; [|by split; [done|intros a [= <-]]].
  assert (Hz : entry_of (TVar b) z s' = entry_of (TVar b) z s).
  { destruct Hb as (_ & v' & _ & Hv' & _). apply (pr_elem _ _ _ Hp); [by eexists|by apply HP]. }
  split; [done|]. rewrite <- Hz. intros a. by apply (pruned_value P).
Qed.

(** The names that a removal takes away: of an element those of the array with
    its subscript; of another name every name of the variable in the other
    frames of the chain, and that one in its own frame. *)
Definition gone (n : var_name) (a : Z) s (k : nat) (nm : var_name) : Prop :=
  outer_of k nm s = Some a ∧
  match zInner n with
  | Some z => zInner nm = Some z
  | None => ∃ i key, slot_of k nm s = Some (TFrame i, key) ∧ (TFrame i ≠ scope n s ∨ key = zOuter n)
  end.

(** Those names denote nothing any more; every other name denotes what it
    denoted, with its value. *)
Definition removed (n : var_name) s s' : Prop :=
  ∃ a, entry_of (scope n s) (zOuter n) s = Some a ∧ ∀ k nm,
    (gone n a s k nm → var_of k nm s' = None) ∧
    (¬ gone n a s k nm → var_of k nm s' = var_of k nm s ∧ ∀ b, var_of k nm s = Some b → same_value b s s').

Lemma freed_live (m m' : store I) a v : freed m m' → heap m' !! a = Some v → ∃ v0, heap m !! a = Some v0 ∧ pHash v0 = pHash v.
Proof. intros [_ Hf] Hv. destruct (Hf a v Hv) as (v0 & Hv0 & -> & _). eauto. Qed.

(** The array outlives its element. *)
Lemma array_stays s t h key a v ha e m' : wf sd s → table_at t s = Ok h → dict h !! key = Some a → heap (mem s) !! a = Some v →
  pHash v = Some ha → a < e → (∀ b, t ≠ TVar b) → freed (mem s) m' → inv sd e (less e (λ _, 0)) (set_mem m' s) →
  table_at (TVar a) (set_mem m' s) = Ok ha.
Proof.
  intros H Ht Hk Hv Hh Hae Htv Hfr H'. pose proof (live_pos sd s a v H Hv) as Ha.
  pose proof (h_refs _ _ _ _ (i_heap _ _ _ _ H') a Ha) as Hr. pose proof (count_positive _ _ _ Hk) as Hc. fields.
  assert (Hroot : 1 <= refs_in (all_frames s) a + ns_vars a (namespaces s)).
  { pose proof (refs_in_nonneg (all_frames s) a). pose proof (ns_vars_nonneg a (namespaces s)). destruct t as [k|b|b]; [| |by destruct (Htv b)].
    - cbn [table_at] in Ht. destruct (frames s !! k) as [f|] eqn:Ef; [|done]. injection Ht as <-.
      pose proof (refs_in_alter (frames s) k f Th8_HashNew a Ef) as R. rewrite (proj2 (table_new sd)), count_empty in R.
      pose proof (refs_in_nonneg (alter (λ f, mkFrame Th8_HashNew (pNs f)) k (frames s)) a).
      unfold all_frames in *. rewrite refs_in_app in *. pose proof (refs_in_nonneg (concat (saved s)) a). lia.
    - cbn [table_at] in Ht. unfold ns_at in Ht. destruct (b =? 0); [done|]. destruct (namespaces s !! b) as [n|] eqn:En; [|done].
      injection Ht as <-. unfold ns_vars in *. rewrite (msum_delete _ _ b n En) in *.
      pose proof (ns_vars_nonneg a (delete b (namespaces s))). unfold ns_vars in *. lia. }
  pose proof (elem_refs_nonneg a (heap m')). unfold less in Hr. rewrite decide_False in Hr by lia. unfold all_frames in *. fields.
  destruct (heap m' !! a) as [v'|] eqn:Hv'; [|lia]. destruct (freed_live _ _ _ _ Hfr Hv') as (v0 & Hv0 & Hp0).
  cbn [table_at]. unfold deref. fields. rewrite (proj2 (Z.eqb_neq _ _) Ha), Hv'. cbn [res_bind].
  assert (v0 = v) as -> by congruence. by rewrite <- Hp0, Hh.
Qed.

(** The state after an element and its entry went. *)
Definition element_gone (a : Z) (z : bytes) s s' : Prop :=
  pruned (λ b key, b = a ∧ key = z) s s' ∧ frames s' = frames s ∧ wf sd s'.

Lemma remove_pruned s s' a h z : table_at (TVar a) s = Ok h → table_ok sd h →
  put_table (TVar a) (Th8_HashRemove sd h z) s = Ok s' →
  pruned (λ b key, b = a ∧ key = z) s s' ∧ frames s' = frames s ∧ entry_of (TVar a) z s' = None.
Proof.
  intros Ht Hh Ep. pose proof (put_table_get s s' _ _ _ Ht Ep) as Ht'. destruct (t_remove sd h z Hh) as [_ Hd].
  assert (Hn : namespaces s' = namespaces s ∧ frames s' = frames s ∧ ∀ b v', heap (mem s') !! b = Some v' →
    ∃ v, heap (mem s) !! b = Some v ∧ zData v' = zData v ∧ nData v' = nData v).
  { cbn [put_table] in Ep. unfold alter_var, deref in Ep. destruct (a =? 0); [done|]. destruct (heap (mem s) !! a) as [w|] eqn:Hw; [|done].
    cbn [res_bind] in Ep. injection Ep as <-. split_and!; [done|done|]. fields. intros b v' [[<- <-]|[_ Hb]]%lookup_insert_Some; eauto. }
  destruct Hn as (H1 & H2 & H3). split_and!; [split; [by eapply put_table_shape|done|done|]|done|].
  - intros b key _ Hp. unfold entry_of. destruct (decide (b = a)) as [->|Hne].
    + rewrite Ht, Ht', Hd, lookup_delete_ne; [done|]. intros ->. by apply Hp.
    + by rewrite (put_table_other _ _ _ (TVar b) _ _ Ht Ep) by congruence.
  - unfold entry_of. by rewrite Ht', Hd, lookup_delete_eq.
Qed.

(** The last steps: the entry goes, and the epoch goes up. *)
Lemma removed_gone a z s s1 s2 h : pruned (λ b key, b = a ∧ key = z) s s1 → frames s1 = frames s →
  table_at (TVar a) s1 = Ok h → table_ok sd h → put_table (TVar a) (Th8_HashRemove sd h z) s1 = Ok s2 → wf sd s2 →
  ∃ s3, write_var bump_nEpoch a s2 = Ok s3 ∧ element_gone a z s s3 ∧ entry_of (TVar a) z s3 = None.
Proof.
  intros P1 F1 Ht Hh Ep H2. destruct (remove_pruned s1 s2 a h z Ht Hh Ep) as (P2 & F2 & N2).
  pose proof (put_table_get s1 s2 _ _ _ Ht Ep) as Ht2.
  assert (Hv : ∃ v, heap (mem s2) !! a = Some v).
  { cbn [table_at] in Ht2. unfold deref in Ht2. destruct (a =? 0); [done|]. destruct (heap (mem s2) !! a); [eauto|done]. }
  destruct Hv as [v Hv]. destruct (write_step sd bump_nEpoch s2 a v) as (s3 & -> & W & _);
    [done|done|done|done|exact (live_value sd s2 a v H2 Hv)|by intros [h' Hh']; apply (live_array sd s2 a v h')|].
  exists s3. split; [done|]. pose proof (writes_pruned (λ b key, b = a ∧ key = z) a v (bump_nEpoch v) s2 s3 Hv eq_refl eq_refl W) as P3.
  destruct W as (H3 & T3 & _). split; [|by rewrite (touched_entry a _ _ _ _ T3)].
  split_and!; [eapply pruned_trans; [exact P1|by eapply pruned_trans]|rewrite (to_frames _ _ _ T3); congruence|done].
Qed.

Lemma drop_element_ok s t key a v ha z e : wf sd s → entry_of t key s = Some a → (∀ b, t ≠ TVar b) → heap (mem s) !! a = Some v →
  pHash v = Some ha → dict ha !! z = Some e →
  ∃ s', (let* s := if e =? 0 then Ok s
                   else let* s := signal e s in let* m := free_variable e (mem s) in Ok (set_mem m s) in
         let* s := remove_entry sd (TVar a) z s in
         let* s := write_var bump_nEpoch a s in Ok (TH8_OK, s)) = Ok (TH8_OK, s') ∧
    element_gone a z s s' ∧ entry_of (TVar a) z s' = None.
Proof.
  intros H He Htv Hv Hh Hz. pose proof (live_pos sd s a v H Hv) as Ha.
  assert (Hta : table_at (TVar a) s = Ok ha) by (cbn [table_at]; rewrite (deref_ok _ _ _ Hv Ha); cbn [res_bind]; by rewrite Hh).
  destruct (table_ok_at sd 0 _ s _ _ H Hta) as [[Hok Hpos] Hel]. destruct (t_remove sd ha z Hok) as [Hok' Hd].
  destruct (e =? 0) eqn:E0; bool_to_prop; cbn [res_bind].
  - subst e. destruct (put_table_ok sd 0 (λ _, 0) (λ _, 0) s _ ha (Th8_HashRemove sd ha z) H Hta) as (s2 & Ep & H2).
    { split; [done|]. intros j d. rewrite Hd. intros [_ ?]%lookup_delete_Some. by apply (Hpos j). }
    { intros j d. rewrite Hd. intros [_ ?]%lookup_delete_Some. by apply (Hel j). }
    { intros b Hb. rewrite Hd, (count_delete _ _ _ _ Hz), decide_False by done. lia. }
    { done. }
    unfold remove_entry. rewrite Hta. cbn [res_bind]. rewrite Ep. cbn [res_bind].
    destruct (removed_gone a z s s s2 ha) as (s3 & -> & G); [by apply slim_pruned, slim_refl|done..|]. by exists s3.
  - destruct (entry_live sd _ s _ ha z e H (none_held) Hta Hz E0) as [w Hw].
    destruct (signal_step sd s e w H Hw) as (s1 & -> & W1). cbn [res_bind]. pose proof W1 as (H1 & T1 & Hw1).
    assert (Hta1 : table_at (TVar a) s1 = Ok ha) by by rewrite (touched_table e _ _ _ T1).
    assert (Hae : a < e) by (destruct (Hel z e Hz); [done|lia]).
    rewrite <- (touched_entry e _ _ _ _ T1) in He. destruct (entry_var sd s1 _ _ _ H1 He) as (hk & v1 & Htk & Hk & Hv1).
    assert (Hh1 : pHash v1 = Some ha).
    { cbn [table_at] in Hta1. rewrite (deref_ok _ _ _ Hv1 Ha) in Hta1. cbn [res_bind] in Hta1. destruct (pHash v1); congruence. }
    destruct (release_entry s1 (TVar a) ha z e H1 Hta1 Hz E0) as (m' & s2 & -> & Hfr & Hta2 & Er & Ep & H2).
    { intros m' Hfr H'. by eapply array_stays. }
    cbn [res_bind]. rewrite Er. cbn [res_bind].
    destruct (removed_gone a z s (set_mem m' s1) s2 ha) as (s3 & -> & G); [| |exact Hta2|done|done|done|by exists s3].
    + eapply pruned_trans; [by eapply signal_pruned|]. by apply slim_pruned, slim_mem.
    + apply (to_frames _ _ _ T1).
Qed.

(** A variable whose name has no subscript goes with its names in the chain. *)
Lemma unset_whole_ok s k key a v hk : wf sd s → table_at (TFrame k) s = Ok hk → dict hk !! key = Some a → a ≠ 0 →
  heap (mem s) !! a = Some v →
  ∃ s', (let* s := if 1 <? nRef v then unlink_frames sd (length (frames s)) 0 k a s else Ok s in
         let s := on_env (λ i, th8RemoveFromCache i key (zlen key)) s in
         let* s := signal a s in
         let* m := free_variable a (mem s) in
         let* s := remove_entry sd (TFrame k) key (set_mem m s) in
         Ok (TH8_OK, s)) = Ok (TH8_OK, s') ∧ wf sd s' ∧ pruned (λ _ _, False) s s' ∧ unnamed a (λ i z, i ≠ k ∨ z = key) s s'.
Proof.
  intros H Htk Hk Ha Hv.
  assert (Hun : ∃ s1, (if 1 <? nRef v then unlink_frames sd (length (frames s)) 0 k a s else Ok s) = Ok s1 ∧ wf sd s1 ∧
    slim s s1 ∧ table_at (TFrame k) s1 = Ok hk ∧ unnamed a (λ i _, i ≠ k) s s1).
  { destruct (1 <? nRef v) eqn:En; bool_to_prop.
    - destruct (unlink_frames_ok k a hk key (length (frames s)) Ha Hk 0 s H Htk eq_refl) as (s1 & E1 & H1 & S1 & T1 & U1).
      exists s1. split_and!; [done..|]. intros i h Ht. destruct (U1 i h Ht) as (h' & Ht' & Hu). exists h'. split; [done|].
      intros z. destruct (Hu z) as [A B]. split; [intros ?; apply A; lia|]. intros Hno. apply B. intros [[_ ?] ?]. by apply Hno.
    - exists s. split_and!; [done|done|apply slim_refl|done|]. intros i h Ht. exists h. split; [done|]. intros z. split; [|done].
      intros Hi Hz. exfalso. by eapply (sole_name s i k). }
  destruct Hun as (s1 & -> & H1 & S1 & Tk1 & U1). cbn [res_bind]. set (s2 := on_env _ s1).
  destruct (entry_live sd _ s2 (TFrame k) hk key a (inv_env sd 0 _ s1 _ H1) (none_held) Tk1 Hk Ha) as [v2 Hv2].
  destruct (signal_step sd s2 a v2 (inv_env sd 0 _ s1 _ H1) Hv2) as (s3 & -> & W3). cbn [res_bind]. pose proof W3 as (H3 & T3 & Hv3).
  assert (Tk3 : table_at (TFrame k) s3 = Ok hk) by by rewrite (touched_table a _ _ _ T3).
  destruct (release_entry s3 (TFrame k) hk key a H3 Tk3 Hk Ha) as (m' & s4 & -> & Hfr & Tk4 & Er & Ep & H4); [done|].
  cbn [res_bind]. rewrite Er. cbn [res_bind]. exists s4. split; [done|]. split; [done|]. split.
  - apply (pruned_trans _ _ s2); [apply slim_pruned; eapply slim_trans; [exact S1|apply slim_env]|].
    eapply pruned_trans; [by eapply signal_pruned|]. apply slim_pruned.
    eapply slim_trans; [by apply (slim_mem s3 m')|by eapply put_frame_slim].
  - destruct (table_ok_at sd 0 _ s3 _ _ H3 Tk3) as [[Hh _] _]. destruct (t_remove sd hk key Hh) as [_ Hd].
    assert (Hsame : ∀ i, table_at (TFrame i) (set_mem m' s3) = table_at (TFrame i) s1).
    { intros i. change (table_at (TFrame i) (set_mem m' s3)) with (table_at (TFrame i) s3).
      rewrite (touched_table a _ _ _ T3). done. }
    intros i h Ht. destruct (U1 i h Ht) as (h1 & Ht1 & Hu). destruct (decide (i = k)) as [->|Hi].
    + assert (h1 = hk) as -> by congruence. exists (Th8_HashRemove sd hk key).
      split; [by eapply put_table_get; [exact Tk4|exact Ep]|]. intros z. destruct (Hu z) as [_ B]. rewrite Hd.
      assert (Hz : dict hk !! z = dict h !! z) by (apply B; naive_solver). split.
      * intros [? | ->]; [done|]. by rewrite lookup_delete_eq.
      * intros Hno. destruct (decide (key = z)) as [->|Hne]; [|by rewrite lookup_delete_ne].
        exfalso. apply Hno. split; [by right|congruence].
    + exists h1. split; [by rewrite (put_table_other _ _ _ (TFrame i) _ _ Tk4 Ep), Hsame by congruence|].
      intros z. destruct (Hu z) as [A B]. split; [intros _; by apply A|]. intros Hno. apply B. intros [_ Hz]. apply Hno. by split; [left|].
Qed.

(** What names denote after an element went. *)
Lemma element_removed s s' n a z : entry_of (scope n s) (zOuter n) s = Some a → zInner n = Some z →
  element_gone a z s s' → entry_of (TVar a) z s' = None → removed n s s'.
Proof.
  intros He Ez (Hp & Hf & H') Hz. exists a. split; [done|]. intros k nm.
  assert (Ho : outer_of k nm s' = outer_of k nm s).
  { unfold outer_of. rewrite (pruned_slot _ _ _ k nm Hp). destruct (slot_of k nm s) as [[t key]|] eqn:Es; [|done].
    cbn [mbind option_bind fst snd]. unfold entry_of. assert (table_at t s' = table_at t s) as ->; [|done].
    destruct t as [i|c|b]; cbn [table_at]; [by rewrite Hf|unfold ns_at; by rewrite (pr_ns _ _ _ Hp)|].
    unfold slot_of in Es. destruct (_ && _); [|done]. destruct (th8SplitQualName _). by destruct (ns_lookup _ _ _ _). }
  unfold gone. rewrite Ez. split.
  - intros [Hout Hin]. unfold var_of. rewrite Ho, Hout, Hin. done.
  - intros Hng. apply (pruned_var _ s s' k nm H' Hp Ho). intros b key Hb Hk [-> ->]. by apply Hng.
Qed.

(** And after a variable went. *)
Lemma whole_removed s s' n k a : scope n s = TFrame k → entry_of (TFrame k) (zOuter n) s = Some a → a ≠ 0 → zInner n = None →
  wf sd s' → pruned (λ _ _, False) s s' → unnamed a (λ i z, i ≠ k ∨ z = zOuter n) s s' → removed n s s'.
Proof.
  intros Hsc He Ha Ez H' Hp U. exists a. rewrite Hsc. split; [done|]. intros k2 nm. unfold gone. rewrite Ez, Hsc.
  assert (Hout : (outer_of k2 nm s = Some a ∧ (∃ i key, slot_of k2 nm s = Some (TFrame i, key) ∧ (TFrame i ≠ TFrame k ∨ key = zOuter n)) →
      outer_of k2 nm s' = None) ∧
    (¬ (outer_of k2 nm s = Some a ∧ ∃ i key, slot_of k2 nm s = Some (TFrame i, key) ∧ (TFrame i ≠ TFrame k ∨ key = zOuter n)) →
      outer_of k2 nm s' = outer_of k2 nm s)).
  { unfold outer_of. rewrite (pruned_slot _ _ _ k2 nm Hp). destruct (slot_of k2 nm s) as [[[i|c|b] key]|] eqn:Es;
      cbn [mbind option_bind fst snd]; [|split; [by intros [_ (? & ? & [=] & _)]|intros _]..|split; [by intros [? _]|done]].
    - destruct (table_at (TFrame i) s) as [h|e] eqn:Et.
      + destruct (U i h Et) as (h' & Et' & Hu). destruct (Hu key) as [A B]. unfold entry_of. rewrite Et, Et'. split.
        * intros [Hda (i2 & key2 & [= <- <-] & Hd)]. destruct (dict h !! key) as [d|] eqn:Ed; [|done]. cbn [mbind option_bind] in Hda.
          destruct (d =? 0); [done|]. injection Hda as ->. rewrite A; [done| |done]. destruct Hd as [Hd|Hd]; [left; congruence|by right].
        * intros Hno. destruct (dict h !! key) as [d|] eqn:Ed.
          -- cbn [mbind option_bind] in Hno. rewrite B; [done|]. intros [Hd [= ->]]. apply Hno. split; [|exists i, key; split; [done|]].
             ++ cbn [mbind option_bind]. by rewrite (proj2 (Z.eqb_neq _ _) Ha).
             ++ destruct Hd as [Hd|Hd]; [left; congruence|by right].
          -- rewrite B; [done|]. by intros [_ ?].
      + assert (table_at (TFrame i) s' = Err e) as Et'.
        { cbn [table_at] in *. destruct (frames s !! i) as [f|] eqn:Ef; [done|]. apply lookup_ge_None in Ef.
          rewrite lookup_ge_None_2; [congruence|]. by rewrite (sh_frames _ _ (pr_shape _ _ _ Hp)). }
        unfold entry_of. rewrite Et, Et'. by split.
    - unfold entry_of. cbn [table_at]. unfold ns_at. by rewrite (pr_ns _ _ _ Hp).
    - unfold slot_of in Es. destruct (_ && _); [|done]. destruct (th8SplitQualName _). by destruct (ns_lookup _ _ _ _). }
  destruct Hout as [Hout Hkeep]. split.
  - intros Hg. unfold var_of. by rewrite Hout.
  - intros Hng. apply (pruned_var _ s s' k2 nm H' Hp); [by apply Hkeep|by intros ? ? _ _ []].
Qed.

Lemma Th8_UnsetVar_ok s nm n : wf sd s → named nm n →
  ∃ rc s', Th8_UnsetVar sd nm s = Ok (rc, s') ∧ keeps sd s s' ∧ (rc = TH8_OK → removed n s s').
Proof.
  unfold named. intros H Hn. unfold Th8_UnsetVar. rewrite Hn. cbn [res_bind]. rewrite (find_bare_ok sd s n H). cbn [res_bind].
  set (k := if bGlobal n then global_frame s else 0%nat). fold (scope n s).
  assert (Hk : scope n s = TFrame k) by done. rewrite Hk.
  destruct (entry_of (TFrame k) (zOuter n) s) as [a|] eqn:Ea.
  2: { eexists _, _. split; [done|]. split; [by apply keeps_env|done]. }
  destruct (entry_var sd s _ _ _ H Ea) as (hk & v & Htk & Hkey & Hv). pose proof (live_pos sd s a v H Hv) as Ha.
  rewrite (deref_ok _ _ _ Hv Ha). cbn [res_bind]. destruct (zInner n) as [z|] eqn:Ez.
  - destruct (pHash v) as [ha|] eqn:Eh.
    2: { eexists _, _. split; [done|]. split; [by apply keeps_env|done]. }
    assert (Hta : table_at (TVar a) s = Ok ha) by (cbn [table_at]; rewrite (deref_ok _ _ _ Hv Ha); cbn [res_bind]; by rewrite Eh).
    rewrite (lookup_safe sd s _ ha z H Hta). cbn [res_bind]. destruct (dict ha !! z) as [e|] eqn:Ee.
    2: { eexists _, _. split; [done|]. split; [by apply keeps_env|done]. }
    destruct (drop_element_ok s (TFrame k) (zOuter n) a v ha z e H Ea) as (s' & Es & G & Hz); [done..|].
    exists TH8_OK, s'. split; [exact Es|]. split; [split; [apply G|apply G]|]. intros _.
    apply (element_removed s s' n a z); [by rewrite Hk|done..].
  - destruct (unset_whole_ok s k (zOuter n) a v hk H Htk Hkey Ha Hv) as (s' & Es & H' & Hp & U).
    exists TH8_OK, s'. split; [exact Es|]. split; [split; [done|apply Hp]|]. intros _. by apply (whole_removed s s' n k a).
Qed.
End unset.
