(* ===== verification/VarFrames.v ===== *)
(** * VarFrames: links, frames and namespaces keep the invariant. *)

From S2P Require Import Prelude Memory Strings Hash Lists VarTables VarState VarRefs Namespaces Vars VarInv NsTree VarResolve VarSteps.
From stdpp Require Import gmap.
#[local] Open Scope Z_scope.
#[local] Open Scope res_scope.

Section frames.
Context (debug : bool) (sd : seeds) {I : Type} `{VE : VarEnv I}.
Implicit Types (s : interp I).

(** ** Links *)

Lemma link_target k i s : th8LinkTarget i s = Some k → (k < length (frames s))%nat.
Proof. unfold th8LinkTarget. case_match eqn:E; [|done]. apply Nat.ltb_lt in E. by intros [= <-]. Qed.

(** The local name and the remote one are one variable; other names are as they
    were. *)
Definition linked (key : bytes) (k : nat) (n : var_name) s s' : Prop :=
  names_kept s s' ∧ ∃ r, var_of k n s' = Some r ∧ entry_of (TFrame 0) key s' = Some r.

(** The new entry takes its reference. *)
Lemma store_link s key r v h : wf sd s → heap (mem s) !! r = Some v → table_at (TFrame 0) s = Ok h → dict h !! key = Some 0 →
  ∃ s1 s', write_var (λ v, set_nRef (nRef v + 1) v) r s = Ok s1 ∧ store_entry sd (TFrame 0) key r s1 = Ok s' ∧
    keeps sd s s' ∧ grows s s' ∧ entry_of (TFrame 0) key s' = Some r.
Proof.
  intros H Hv Ht Hk. pose proof (live_pos sd s r v H Hv) as Hr.
  unfold write_var, alter_var. rewrite (deref_ok _ _ _ Hv Hr). cbn [res_bind].
  pose proof (grab_ok sd _ s r v H Hv) as H1. pose proof (grows_write s r v (set_nRef (nRef v + 1) v) Hv eq_refl eq_refl eq_refl) as G1.
  set (s1 := set_mem _ s) in *. assert (Ht1 : table_at (TFrame 0) s1 = Ok h) by exact Ht.
  destruct (table_ok_at sd 0 _ s _ h H Ht) as [[Hh Hpos] _]. destruct (t_set sd h key 0 r Hh Hk) as [Hh' Hd].
  destruct (put_table_ok sd 0 _ (λ _, 0) s1 _ h (set_data sd h key r) H1 Ht1) as (s' & Ep & H').
  { split; [done|]. intros z d. rewrite Hd. intros [[<- <-]|[_ Hz]]%lookup_insert_Some; [|by apply (Hpos z)].
    pose proof (h_addr _ _ _ _ (i_heap _ _ _ _ H) r v Hv). lia. }
  { done. }
  { intros a Ha. rewrite Hd, (count_update _ _ _ _ _ Hk). rewrite (decide_False (P := 0 = a)) by done.
    repeat case_decide; subst; lia || congruence. }
  { done. }
  exists s1, s'. split; [done|]. unfold store_entry. rewrite Ht1. cbn [res_bind]. split; [done|].
  assert (G2 : grows s1 s').
  { eapply put_table_grows; [exact Ht1|exact Ep|]. intros z d Hz Hd0. rewrite Hd.
    destruct (decide (key = z)) as [<-|]; [congruence|by rewrite lookup_insert_ne]. }
  assert (G : grows s s') by by eapply grows_trans. split; [split; [exact H'|apply G]|]. split; [exact G|].
  unfold entry_of. rewrite (put_table_get s1 s' _ _ _ Ht1 Ep), Hd, lookup_insert_eq. cbn [mbind option_bind].
  by rewrite (proj2 (Z.eqb_neq _ _) Hr).
Qed.

(** The memory for the entry of the local name is granted; Th8_LinkVar does not
    look whether it is. *)
Definition link_granted (iFrame : Z) (remote : cstring) s : Prop :=
  ∀ k r s1, th8LinkTarget iFrame s = Some k → th8FindValue debug sd k remote true s = Ok (Some r, s1) →
    (var_alloc (env s1) AEntry).1 = true.

Lemma granted_insert s t h key : (var_alloc (env s) AEntry).1 = true → wf sd s → table_at t s = Ok h → dict h !! key = None →
  ∃ s', insert_entry sd t key s = Ok (Some 0, s') ∧ keeps sd s s' ∧ grows s s' ∧
    ∃ h', table_at t s' = Ok h' ∧ dict h' !! key = Some 0.
Proof.
  intros Hg H Ht Hk. destruct (insert_entry_ok sd _ s t h key H (none_held) Ht) as (o & s' & Ei & H' & G & _ & h' & Ht' & Hd & _ & _ & Hn).
  destruct (Hn Hk) as [-> | ->]; [exfalso|].
  - unfold insert_entry in Ei. rewrite Ht in Ei. cbn [res_bind] in Ei.
    destruct (table_ok_at sd 0 _ s t h H Ht) as [[Hh _] _]. destruct (t_find sd h key true Hh) as (o & Eo & Ho).
    rewrite Eo in Ei. destruct o; [cbn in Ho; congruence|]. cbn [fst] in Ei. unfold ask in Ei.
    destruct (var_alloc (env s) AEntry) as [ok i]. cbn in Hg. subst ok.
    destruct (t_insert sd h key Hh Hk) as (_ & p & h1 & Ef & _). rewrite Ef in Ei.
    destruct (put_table t h1 (set_env i s)); [|done]. by injection Ei.
  - exists s'. split; [done|]. split; [split; [exact H'|apply G]|]. split; [done|]. exists h'. done.
Qed.

Lemma Th8_LinkVar_ok s local iFrame remote n nLocal key : link_granted iFrame remote s → wf sd s → named remote n → nul_free n →
  (if snd local =? TH8_NOLEN then Th8_Strlen (fst local) else Ok (snd local)) = Ok nLocal → read (fst local) nLocal = Ok key →
  safe debug (Th8_LinkVar debug sd local iFrame remote s) (λ '(rc, s'), keeps sd s s' ∧
    (rc = TH8_OK → ∃ k, th8LinkTarget iFrame s = Some k ∧ linked key k n s s')).
Proof.
  intros Hg H Hn Hnul Hl Hkey. unfold link_granted in Hg. unfold Th8_LinkVar. destruct (th8LinkTarget iFrame s) as [k|] eqn:Ek.
  2: { cbn [safe]. split; [by apply keeps_env|done]. }
  pose proof (find_safe debug sd s k remote n true H (link_target k iFrame s Ek) Hn (λ _, Hnul)) as F.
  destruct (th8FindValue debug sd k remote true s) as [[o s1]|[]] eqn:Ef; try done. cbn [safe res_bind] in *.
  pose proof (found_keeps sd _ _ _ _ _ _ F) as K. destruct o as [r|].
  2: { split; [by apply keeps_env_at|done]. }
  specialize (Hg k r s1 eq_refl Ef). apply found_made in F as (H1 & G1 & Hvar & [v Hv]). rewrite Hl. cbn [res_bind]. rewrite Hkey. cbn [res_bind].
  destruct (scope_table sd s1 (mkName [] None false) H1) as [h Ht]. unfold scope in Ht. cbn [bGlobal] in Ht.
  rewrite (lookup_safe sd s1 _ h key H1 Ht). cbn [res_bind].
  assert (Hfin : ∀ s2 h2, keeps sd s s2 → grows s1 s2 → table_at (TFrame 0) s2 = Ok h2 → dict h2 !! key = Some 0 →
    ∃ s', (let* s := write_var (λ v, set_nRef (nRef v + 1) v) r s2 in
           let* s := store_entry sd (TFrame 0) key r s in Ok (TH8_OK, s)) = Ok (TH8_OK, s') ∧ keeps sd s s' ∧ linked key k n s s').
  { intros s2 h2 [H2 S2] G Ht2 Hk2. destruct (gr_var _ _ G r v Hv) as (v2 & Hv2 & _).
    destruct (store_link s2 key r v2 h2 H2 Hv2 Ht2 Hk2) as (s3 & s' & -> & E' & K' & G' & He). cbn [res_bind]. rewrite E'. cbn [res_bind].
    exists s'. split; [done|]. split; [by eapply keeps_state_trans; [split|]|]. split; [apply grows_kept, (grows_trans _ s1); [exact G1|]; by eapply grows_trans|].
    exists r. split; [|done].
    eapply var_grows; [exact G'|]. by eapply var_grows. }
  destruct (dict h !! key) as [d|] eqn:Ed.
  - eapply safe_bind; [apply safe_always|]. intros b ->. destruct (d =? 0) eqn:E0; cbn [negb].
    2: { cbn [safe]. split; [by apply keeps_env_at|done]. }
    bool_to_prop. subst d.
    destruct (table_ok_at sd 0 _ s1 _ h H1 Ht) as [[Hh _] _]. destruct (t_find sd h key true Hh) as (o & Eo & Ho).
    unfold insert_entry. rewrite Ht. cbn [res_bind]. rewrite Eo. cbn [fst]. destruct o as [p|]; [|cbn in Ho; congruence].
    cbn [res_bind]. destruct (Hfin s1 h K (grows_refl s1) Ht Ed) as (s' & Es & K' & L). rewrite Es. cbn [safe]. split; [done|]. eauto.
  - cbn [res_bind]. destruct (granted_insert s1 _ h key Hg H1 Ht Ed) as (s2 & -> & K2 & G2 & h2 & Ht2 & Hk2). cbn [res_bind].
    destruct (Hfin s2 h2) as (s' & Es & K' & L); [by eapply keeps_state_trans|done..|]. rewrite Es. cbn [safe]. split; [done|]. eauto.
Qed.

(** ** Frames *)

(** What a change of frames leaves. *)
Record stays s s' : Prop := {
  st_glob : pGlobalNs s' = pGlobalNs s;
  st_depth : nEvalDepth s' = nEvalDepth s;
  st_ns : 0 < nEvalDepth s → ∀ a, is_Some (namespaces s !! a) → is_Some (namespaces s' !! a)
}.

Lemma stays_refl s : stays s s.
Proof. by split. Qed.
Lemma stays_trans s1 s2 s3 : stays s1 s2 → stays s2 s3 → stays s1 s3.
Proof. intros [A1 A2 A3] [B1 B2 B3]. split; [congruence..|]. intros Hd a Ha. apply B3; [congruence|auto]. Qed.
Lemma stays_same s s' : pGlobalNs s' = pGlobalNs s → nEvalDepth s' = nEvalDepth s → namespaces s' = namespaces s → stays s s'.
Proof. intros A B C. split; [done|done|]. by rewrite C. Qed.
Lemma stays_shape s s' : shape s s' → stays s s'.
Proof. intros []. by split. Qed.

(** The frames change, with the same references. *)
Lemma wf_frames s fs sv : wf sd s → fs ≠ [] → (∀ a, refs_in (fs ++ concat sv) a = refs_in (all_frames s) a) →
  Forall (frame_ok sd s) (fs ++ concat sv) → wf sd (set_frames fs sv s).
Proof.
  intros [H1 H2 H3 H4 H5 H6 H7 H8] Hfs Hr Hok. split; fields; [|done|exact Hok|done..].
  eapply heap_ext; [|exact H1]. intros a _. cbn beta. unfold all_frames in *. fields. by rewrite Hr.
Qed.

Lemma th8PushFrame_ok s : wf sd s → ∃ ok s', th8PushFrame s = (ok, s') ∧ wf sd s' ∧ stays s s' ∧
  frames s' = (if ok then mkFrame Th8_HashNew (pCurrentNs s) :: frames s else frames s) ∧ saved s' = saved s ∧ pCurrentNs s' = pCurrentNs s ∧ namespaces s' = namespaces s.
Proof.
  intros H. unfold th8PushFrame. destruct (ask_env ATable s) as (ok & i & ->). destruct ok.
  - eexists _, _. split; [done|]. split; [|split_and!; [by split|done..]].
    assert (H' : wf sd (set_env i s)) by by apply inv_env. apply wf_frames; [done|done| |].
    + intros a. unfold all_frames. fields. cbn [app]. change (refs_in (?f :: ?l) a) with (count a (dict (paVar f)) + refs_in l a).
      cbn [paVar]. rewrite (proj2 (table_new sd)), count_empty. done.
    + cbn [app]. apply Forall_cons. split; [split; [apply tbl_new|apply (i_here _ _ _ _ H')]|apply (i_frames _ _ _ _ H')].
  - eexists _, _. split; [done|]. split; [by apply inv_env|split_and!; [by split|done..]].
Qed.

Lemma enter_frame_ok s : wf sd s → ∃ ok s', enter_frame s = (ok, s') ∧ wf sd s' ∧ stays s s' ∧
  frames s' = (if ok then mkFrame Th8_HashNew (pCurrentNs s) :: frames s else frames s) ∧ saved s' = saved s ∧ pCurrentNs s' = pCurrentNs s ∧ namespaces s' = namespaces s.
Proof.
  intros H. unfold enter_frame. destruct (ask_env AFrame s) as (ok & i & ->). destruct ok.
  - destruct (th8PushFrame_ok (set_env i s)) as (ok & s' & -> & H' & S & F & V & C & N); [by apply inv_env|].
    eexists ok, _. split; [done|]. destruct ok.
    + split_and!; [done|by eapply stays_trans; [|exact S]; apply stays_same|done..].
    + split_and!; [by apply inv_env|eapply stays_trans; [|eapply stays_trans; [exact S|]]; by apply stays_same|done..].
  - eexists false, _. split; [done|]. split_and!; [by apply inv_env, inv_env|by apply stays_same|done..].
Qed.

Lemma th8PopFrame_ok s f fs : wf sd s → frames s = f :: fs → fs ≠ [] → ∃ m', th8PopFrame s = Ok (set_frames fs (saved s) (set_mem m' s)) ∧
  wf sd (set_frames fs (saved s) (set_mem m' s)) ∧ freed (mem s) m'.
Proof.
  intros H Ef Hfs. unfold th8PopFrame. rewrite Ef. pose proof H as [H1 H2 H3 H4 H5 H6 H7 H8].
  assert (Hall : ∀ a, refs_in (all_frames s) a = count a (dict (paVar f)) + refs_in (fs ++ concat (saved s)) a)
    by (intros a; unfold all_frames; by rewrite Ef).
  unfold all_frames in H3. rewrite Ef in H3. apply Forall_cons in H3 as [[[Hf Hpos] _] H3].
  destruct (free_table_ok sd (mem s) _ (paVar f) H1 Hf) as (m' & -> & H1' & Hfr); [|exact Hpos|].
  { intros a Ha. cbn beta. rewrite Hall. pose proof (refs_in_nonneg (fs ++ concat (saved s)) a). pose proof (ns_vars_nonneg a (namespaces s)). lia. }
  cbn [res_bind]. exists m'. split_and!; [done| |done]. split; fields; [| |exact H3|done| |done..].
  - eapply heap_ext; [|exact H1']. intros a _. unfold all_frames. fields. rewrite Hall. lia.
  - intros a v Hv. pose proof Hfr as [_ Hfr']. destruct (Hfr' a v Hv) as (v0 & Hv0 & _ & _ & Hz). pose proof (H2 a v0 Hv0).
    destruct (h_vars _ _ _ _ H1' a v Hv). lia.
  - destruct Hfr as [-> _]. exact H5.
Qed.

Lemma switch_target k i s : th8SwitchTarget i s = Some k → (k < length (frames s))%nat.
Proof. unfold th8SwitchTarget. case_match eqn:E; [|done]. apply Nat.ltb_lt in E. by intros [= <-]. Qed.

Lemma wf_current s a : wf sd s → is_Some (namespaces s !! a) → wf sd (set_pCurrentNs a s).
Proof. intros [H1 H2 H3 H4 H5 [_ H6] H7 H8] Ha. split; try done. Qed.

Lemma Th8_NREvalInFrame_ok s iFrame : wf sd s → ∃ rc s', Th8_NREvalInFrame iFrame s = (rc, s') ∧ wf sd s' ∧ stays s s'.
Proof.
  intros H. unfold Th8_NREvalInFrame. destruct (th8SwitchTarget iFrame s) as [k|] eqn:Ek.
  2: { eexists _, _. split; [done|]. split; [by apply inv_env|by apply stays_same]. }
  apply switch_target in Ek. set (s1 := set_frames _ _ s).
  assert (H1 : wf sd s1).
  { apply wf_frames; [done| | |].
    - intros Hn. apply (f_equal length) in Hn. rewrite length_drop in Hn. cbn in Hn. lia.
    - intros a. cbn [concat]. unfold all_frames. rewrite <- (take_drop k (frames s)) at 3. rewrite !refs_in_app. lia.
    - cbn [concat]. pose proof (i_frames _ _ _ _ H) as Hf. unfold all_frames in Hf. rewrite <- (take_drop k (frames s)) in Hf.
      rewrite !Forall_app in *. naive_solver. }
  eexists _, _. split; [done|]. pose proof (i_frames _ _ _ _ H1) as Hf. destruct (frames s1) as [|f fs] eqn:Ef.
  { by destruct (i_global _ _ _ _ H1). }
  unfold all_frames in Hf. rewrite Ef in Hf. apply Forall_cons in Hf as [[_ Hf] _].
  destruct (pNs f =? pCurrentNs s1); (split; [|by apply stays_same]); [done|by apply wf_current].
Qed.

Lemma th8FrameRestoreCallback_ok s : wf sd s → wf sd (th8FrameRestoreCallback s) ∧ stays s (th8FrameRestoreCallback s).
Proof.
  intros H. unfold th8FrameRestoreCallback. destruct (saved s) as [|top sv] eqn:Es; [split; [done|apply stays_refl]|].
  split; [|by apply stays_same]. pose proof (i_frames _ _ _ _ H) as Hf. unfold all_frames in Hf. rewrite Es in Hf. cbn [concat] in Hf.
  apply wf_frames; [done| | |].
  - intros Hn. apply app_eq_nil in Hn as [_ Hn]. by apply (i_global _ _ _ _ H).
  - intros a. unfold all_frames. rewrite Es. cbn [concat]. rewrite !refs_in_app. lia.
  - rewrite !Forall_app in *. naive_solver.
Qed.
End frames.
