(* ===== verification/VarNs.v ===== *)
(** * VarNs: entering, deleting and draining namespaces keeps the invariant. *)

From S2P Require Import Prelude Memory Strings Hash Lists VarTables VarState VarRefs Namespaces Vars VarInv NsTree VarResolve VarSteps VarFrames.
From stdpp Require Import gmap.
#[local] Open Scope Z_scope.
#[local] Open Scope res_scope.

Section namespaces.
Context (debug : bool) (sd : seeds) {I : Type} `{VE : VarEnv I}.
Implicit Types (s : interp I).

(** ** Finding *)

Lemma lookup_parent fuel nss : ∀ a z c, ns_lookup fuel a z nss = Some c → c = a ∨ has_parent nss c.
Proof.
  induction fuel as [|fuel IH]; intros a z c; cbn [ns_lookup]; [done|]. destruct z as [|x z]; [intros [= ->]; by left|].
  set (zz := x :: z). destruct (comp_len zz) as [|k]; cbv zeta; [by apply IH|].
  destruct (nss !! a) as [n|] eqn:En; [|done]. cbn [mbind option_bind].
  destruct (dict (paChild n) !! take (S k) zz) as [d|] eqn:Ed; [|done]. cbn [mbind option_bind].
  intros Hl. apply IH in Hl as [->|Hl]; right; [|done]. by exists a, n, (take (S k) zz).
Qed.

(** A relative name that is not empty has a first component. *)
Lemma lookup_below fuel nss a z c : z ≠ [] → is_absolute z = false → ns_lookup fuel a z nss = Some c → has_parent nss c.
Proof.
  intros Hz Hr. destruct fuel as [|fuel]; [done|]. cbn [ns_lookup]. destruct z as [|x z]; [done|]. set (zz := x :: z) in *.
  destruct (comp_len zz) as [|k] eqn:Ek.
  { exfalso. unfold zz in *. cbn [comp_len] in Ek. destruct ((x =? COLON) && next_is COLON z) eqn:E; [|done].
    assert (Ha : is_absolute (x :: z) = (2 <=? S (length z))%nat && ((x =? COLON) && next_is COLON z)) by by rewrite andb_assoc.
    rewrite Ha, E in Hr. destruct z; [by rewrite andb_false_r in E|done]. }
  destruct (nss !! a) as [n|] eqn:En; [|done]. cbn [mbind option_bind].
  destruct (dict (paChild n) !! take (S k) zz) as [d|] eqn:Ed; [|done]. cbn [mbind option_bind].
  intros Hl. apply lookup_parent in Hl as [->|Hl]; [|done]. by exists a, n, (take (S k) zz).
Qed.

Lemma outside_stays s s' : outside s s' → tree_sub (namespaces s) (namespaces s') → stays s s'.
Proof. intros O T. by apply stays_shape, outside_grows. Qed.

(** What finding a namespace leaves of frames and namespaces. *)
Definition found_ns (b : bool) s (o : option Z) s' : Prop :=
  wf sd s' ∧ stays s s' ∧ frames s' = frames s ∧ saved s' = saved s ∧ pCurrentNs s' = pCurrentNs s ∧
  match o with
  | Some c => is_Some (namespaces s' !! c) ∧ tree_sub (namespaces s) (namespaces s') ∧
      (b = false → s' = s ∧ (c = pGlobalNs s ∨ has_parent (namespaces s) c))
  | None => b = false → s' = s
  end.

Lemma find_namespace_ok s z b : wf sd s → (b = true → path_ok z) →
  ∃ o s', th8FindNamespace sd z b s = Ok (o, s') ∧ found_ns b s o s'.
Proof.
  intros H Hl. unfold th8FindNamespace, th8FindNamespaceEx. destruct (length z =? 0)%nat eqn:E0.
  { eexists _, _. split; [done|]. split_and!; [done|apply stays_refl|done..|apply (i_here _ _ _ _ H)|apply tree_sub_refl|intros _; split; [done|by left]]. }
  apply Nat.eqb_neq in E0.
  assert (Hw : ∀ a z', is_Some (namespaces s !! a) → (b = true → path_ok z') → (length z' <= length z)%nat →
    (∀ c, ns_lookup (S (length z)) a z' (namespaces s) = Some c → c = pGlobalNs s ∨ has_parent (namespaces s) c) →
    ∃ o s', (let* (pNs, _, s) := ns_walk sd (S (length z)) b a None z' s in Ok (pNs, s)) = Ok (o, s') ∧ found_ns b s o s').
  { intros a z' Ha Hl' Hlen Hc. destruct (walk_ok sd (S (length z)) b (λ _, 0) s a z' s None) as (o & r & s' & -> & Hb & _ & Ho); try done.
    { split_and!; [done|apply outside_refl|apply tree_sub_refl|done]. }
    { lia. }
    cbn [res_bind]. exists o, s'. split; [done|]. destruct o as [c|].
    - destruct Ho as ((W1 & W2 & W3 & _) & Hs & _ & Hlive). pose proof (outside_stays _ _ W2 Hs). destruct W2.
      split; [exact W1|]. split_and!; [done..|]. intros Eb. destruct (Hb Eb) as [-> Hlk]. split; [done|]. by apply Hc.
    - destruct Ho as (W1 & E1 & E2 & E3 & E4 & E5 & E6 & _). split; [exact W1|].
      split; [split; [done|done|intros _ c; by apply sub_live]|]. split_and!; [done..|]. intros Eb. by destruct (Hb Eb). }
  destruct (is_absolute z) eqn:Ea.
  - destruct (Hw (pGlobalNs s) (drop 2 z)) as (o & s' & Ew & F); [apply (i_here _ _ _ _ H)| |rewrite length_drop; lia|apply lookup_parent|].
    { intros Hb. by apply path_drop, Hl. }
    exists o, s'. split; [|done]. rewrite <- Ew. by destruct (ns_walk _ _ _ _ _ _ _) as [[[]]|].
  - destruct (Hw (pCurrentNs s) z) as (o & s' & Ew & F); [apply (i_here _ _ _ _ H)|done|done| |].
    { intros c Hc. right. eapply lookup_below; [|done|exact Hc]. by intros ->. }
    exists o, s'. split; [|done]. rewrite <- Ew. by destruct (ns_walk _ _ _ _ _ _ _) as [[[]]|].
Qed.

(** ** Evaluating in a namespace *)

Lemma ns_enter_ok s z : wf sd s → path_ok z → ∃ ok pSaved s', ns_enter sd z s = Ok (ok, pSaved, s') ∧
  wf sd s' ∧ stays s s' ∧ is_Some (namespaces s' !! pSaved) ∧ saved s' = saved s ∧
  length (frames s') = ((if ok then 1 else 0) + length (frames s))%nat.
Proof.
  intros H Hl. unfold ns_enter. destruct (find_namespace_ok s z true H (λ _, Hl)) as (o & s1 & -> & H1 & S1 & F1 & V1 & C1 & Ho).
  cbn [res_bind]. pose proof (i_here _ _ _ _ H1) as [Hcur _]. destruct o as [c|].
  - destruct Ho as (Hc & _ & _). destruct (enter_frame_ok sd (set_pCurrentNs c s1)) as (ok & s2 & -> & H2 & S2 & F2 & V2 & C2 & N2);
      [by apply wf_current|].
    eexists ok, _, _. split; [done|]. assert (Hcur2 : is_Some (namespaces s2 !! pCurrentNs s1)) by by rewrite N2. destruct ok.
    + split_and!; [done| |exact Hcur2| |].
      * eapply stays_trans; [exact S1|]. eapply stays_trans; [|exact S2]. by apply stays_same.
      * by rewrite V2, <- V1.
      * rewrite F2. cbn [set_pCurrentNs frames length]. by rewrite F1.
    + split_and!; [by apply wf_current| |exact Hcur2| |].
      * eapply stays_trans; [exact S1|]. eapply stays_trans; [|eapply stays_trans; [exact S2|]]; by apply stays_same.
      * by rewrite <- V1.
      * cbn [set_pCurrentNs frames]. rewrite F2. cbn [set_pCurrentNs frames]. by rewrite F1.
  - destruct (Th8_GetResult (env s1)) as [zMsg nMsg]. eexists false, _, _. split; [done|].
    case_match; [by split_and!; [..|rewrite F1]|].
    split_and!; [by apply inv_env|eapply stays_trans; [exact S1|by apply stays_same]|done..|cbn [frames]; by rewrite <- F1].
Qed.

Lemma ns_leave_ok s a f fs : wf sd s → frames s = f :: fs → fs ≠ [] → is_Some (namespaces s !! a) →
  ∃ s', ns_leave a s = Ok s' ∧ wf sd s' ∧ stays s s' ∧ frames s' = fs ∧ saved s' = saved s.
Proof.
  intros H Ef Hfs Ha. unfold ns_leave. destruct (th8PopFrame_ok sd s f fs H Ef Hfs) as (m' & -> & H' & _). cbn [res_bind].
  eexists. split; [done|]. split; [by apply wf_current|]. split; [by apply stays_same|done].
Qed.

(** ** Deleting *)

(** A namespace other than the global one, while something is evaluated. *)
Lemma Th8_DeleteNamespace_ok s z : wf sd s → 0 < nEvalDepth s →
  (∀ s', th8FindNamespace sd z false s = Ok (Some (pGlobalNs s), s') → False) →
  ∃ rc s', Th8_DeleteNamespace sd z s = Ok (rc, s') ∧ wf sd s' ∧ stays s s' ∧ frames s' = frames s ∧ saved s' = saved s.
Proof.
  intros H Hd Hz. unfold Th8_DeleteNamespace. destruct (find_namespace_ok s z false H) as (o & s1 & E1 & H1 & S1 & F1 & V1 & C1 & Ho); [done|].
  rewrite E1. cbn [res_bind]. destruct o as [c|].
  2: { rewrite (Ho eq_refl). eexists _, _. split; [done|]. split_and!; [by apply inv_env|by apply stays_same|done..]. }
  destruct Ho as (_ & _ & Ho). destruct (Ho eq_refl) as [-> Hc]. set (s2 := if c =? pCurrentNs s then _ else s).
  assert (H2 : wf sd s2 ∧ stays s s2 ∧ frames s2 = frames s ∧ saved s2 = saved s ∧ pGlobalNs s2 = pGlobalNs s ∧ namespaces s2 = namespaces s).
  { unfold s2. destruct (c =? _); [|by split_and!; [|apply stays_refl|..]].
    split_and!; [apply wf_current; [done|apply (i_here _ _ _ _ H)]|by apply stays_same|done..]. }
  destruct H2 as (H2 & S2 & F2 & V2 & G2 & N2). rewrite G2. destruct (c =? pGlobalNs s) eqn:Eg; bool_to_prop.
  { subst c. by destruct (Hz s). }
  destruct Hc as [->|Hc]; [done|].
  destruct (unlink_ok sd (λ _, 0) s2 c H2 (none_held)) as (s3 & -> & H3 & E3 & E4 & E5 & E6 & E7 & _ & E8 & _).
  { by rewrite N2. }
  { left. by rewrite (st_depth _ _ S2). }
  cbn [res_bind]. eexists _, _. split; [done|]. split_and!; [done| |congruence..].
  eapply stays_trans; [exact S2|]. by split.
Qed.

(** ** Draining *)

(** Nothing but the global namespace is in use. *)
Definition idle s : Prop := saved s = [] ∧ pCurrentNs s = pGlobalNs s ∧ ∃ f, frames s = [f] ∧ pNs f = pGlobalNs s.

Lemma free_pending_ok s a l : wf sd s → idle s → pPendingNs s = a :: l →
  ∃ s', free_namespace a (set_pPendingNs l s) = Ok s' ∧ wf sd s' ∧ idle s' ∧ pPendingNs s' = l ∧ nEvalDepth s' = nEvalDepth s.
Proof.
  intros H (Hsv & Hcur & f & Hf & Hg) Hp. pose proof H as [H1 H2 H3 H4 H5 H6 H7 H8].
  set (s1 := set_pPendingNs l s). set (F := λ b, refs_in (all_frames s) b).
  assert (Hone : 1 <= ns_roots s a).
  { unfold ns_roots. rewrite Hp. unfold waiting. rewrite filter_cons_True by done. cbn [length]. case_decide; lia. }
  assert (Ha : a ≠ 0) by (pose proof (n_pos _ _ _ _ _ H5 a); lia).
  assert (Hw : world_ok sd [] (ns_roots s) F s1).
  { split_and!; [|intros; apply refs_in_nonneg|exact H5]. eapply heap_ext; [|exact H1]. intros b _. unfold F, s1. fields. lia. }
  destruct (free_namespace_ok sd (S (Z.to_nat (nNext (mem s)))) s1 [] (ns_roots s) F a Hw Ha Hone) as (m' & nss' & Ef & (G1 & _ & G3) & Hs & _ & Hfr).
  { destruct (ns_live _ _ _ _ _ _ H5 Ha Hone) as [[n Hn] _]. pose proof (n_addr _ _ _ _ _ H5 a n Hn). unfold s1. fields. lia. }
  set (s' := set_namespaces nss' (set_mem m' s1)) in *. exists s'. split; [exact Ef|].
  assert (Hns : ns_ok sd [] (ns_roots s') nss' (nNext m')).
  { eapply ns_ext; [|exact G3]. intros b. unfold ns_roots, less. rewrite Hp. unfold s', s1, waiting. fields.
    destruct (decide (a = b)) as [->|Hne]; [rewrite filter_cons_True by done|rewrite filter_cons_False by done]; cbn [length]; lia. }
  assert (Hglob : is_Some (nss' !! pGlobalNs s)).
  { apply (ns_live _ _ _ _ _ _ Hns).
    - pose proof (n_pos _ _ _ _ _ H5 (pGlobalNs s)) as Hpos. unfold ns_roots, waiting in Hpos. rewrite decide_True in Hpos by done. lia.
    - unfold ns_roots, waiting. unfold s', s1. fields. rewrite decide_True by done. lia. }
  split; [|split_and!; [|done|done]].
  - split; unfold s', s1; fields; [| | |done|exact Hns|by rewrite Hcur|done|].
    + eapply heap_ext; [|exact G1]. intros b _. unfold F, s', s1, all_frames. fields. lia.
    + intros b v Hv. destruct Hfr as [_ Hfr]. destruct (Hfr b v Hv) as (v0 & Hv0 & _ & _ & Hz). pose proof (H2 b v0 Hv0).
      destruct (h_vars _ _ _ _ G1 b v Hv). lia.
    + unfold all_frames in *. fields. rewrite Hsv, Hf in *. cbn [concat app] in *. apply Forall_cons in H3 as [[Hft _] _].
      apply Forall_cons. split; [|by apply Forall_nil]. split; [done|]. fields. by rewrite Hg.
    + intros b n Hb. apply (H8 b n). by eapply lookup_weaken.
  - split_and!; [done|done|by exists f].
Qed.

Lemma drain_ok l : ∀ s, wf sd s → idle s → pPendingNs s = l →
  ∃ s', drain l s = Ok s' ∧ wf sd s' ∧ idle s' ∧ pPendingNs s' = [] ∧ nEvalDepth s' = nEvalDepth s.
Proof.
  induction l as [|a l IH]; intros s H Hi Hp; cbn [drain].
  - by exists s.
  - destruct (free_pending_ok s a l H Hi Hp) as (s1 & -> & H1 & I1 & P1 & D1). cbn [res_bind].
    destruct (IH s1 H1 I1 P1) as (s2 & -> & H2 & I2 & P2 & D2). exists s2. split_and!; (done || congruence).
Qed.
End namespaces.
