(* ===== verification/VarHistory.v ===== *)
(** * VarHistory: every history of operations on variables.

    A history starts in a new interpreter and goes on with reads, stores,
    removals, links, calls, [uplevel]s, namespace evaluations and deletions, in
    any order that the rest of the interpreter keeps: what is entered is left,
    namespaces are entered and deleted while something is evaluated.

    The code has faults that scripts can reach; [avoids_faults] names the
    operations that show them, and the histories here are those without. *)

From S2P Require Import Prelude Memory Strings Hash Lists VarTables VarState VarRefs Namespaces Vars VarInv NsTree VarResolve VarSteps VarWrites VarUnset VarFrames VarNs.
From stdpp Require Import gmap.
#[local] Open Scope Z_scope.
#[local] Open Scope res_scope.

Inductive var_op : Type :=
| OpGet (nm : cstring)
| OpExists (nm : cstring)
| OpSet (nm : cstring) (zVal : option bytes) (nVal : Z)
| OpSetValue (nm : cstring) (b : th8_buffer)
| OpSetLength (nm : cstring) (z : bytes) (nLen : Z)
| OpAppend (nm : cstring) (args : list cstring)
| OpUnset (nm : cstring)
| OpLink (local : cstring) (iFrame : Z) (remote : cstring)
| OpCall
| OpReturn
| OpUplevel (iFrame : Z)
| OpDownlevel
| OpNsEnter (z : bytes)
| OpNsLeave
| OpNsRestore
| OpNsDelete (z : bytes)
| OpEvalEnter
| OpEvalLeave.

Section history.
Context (debug : bool) (sd : seeds) {I : Type} `{VE : VarEnv I}.
Implicit Types (s : interp I).

(** An interpreter, and the namespaces that calls in progress will restore. *)
Definition config : Type := (interp I * list Z)%type.

Definition state_of {A} (st : list Z) (r : res fault (A * interp I)) : res fault config :=
  let* (_, s) := r in Ok (s, st).

Definition exec (o : var_op) (c : config) : res fault config :=
  let '(s, st) := c in
  match o with
  | OpGet nm => state_of st (Th8_GetVar debug sd nm s)
  | OpExists nm => state_of st (Th8_ExistsVar debug sd nm s)
  | OpSet nm z n => state_of st (Th8_SetVar debug sd nm z n s)
  | OpSetValue nm b => state_of st (th8SetVarValue debug sd nm b s)
  | OpSetLength nm z n => state_of st (th8SetVarLength debug sd nm z n s)
  | OpAppend nm args => state_of st (th8AppendInPlace debug sd nm args s)
  | OpUnset nm => state_of st (Th8_UnsetVar sd nm s)
  | OpLink local i remote => state_of st (Th8_LinkVar debug sd local i remote s)
  | OpCall => Ok (snd (enter_frame s), st)
  | OpReturn => let* s := th8PopFrame s in Ok (s, st)
  | OpUplevel i =>
      let s' := snd (Th8_NREvalInFrame i s) in
      Ok (s', if pCurrentNs s' =? pCurrentNs s then st else pCurrentNs s :: st)
  | OpDownlevel => Ok (th8FrameRestoreCallback s, st)
  | OpNsEnter z => let* (ok, a, s) := ns_enter sd z s in Ok (s, if ok then a :: st else st)
  | OpNsLeave => match st with a :: st => let* s := ns_leave a s in Ok (s, st) | [] => Ok (s, []) end
  | OpNsRestore => match st with a :: st => Ok (th8NsRestoreCallback a s, st) | [] => Ok (s, []) end
  | OpNsDelete z => state_of st (Th8_DeleteNamespace sd z s)
  | OpEvalEnter => Ok (snd (eval_enter s), st)
  | OpEvalLeave => let* s := eval_cleanup s in Ok (s, st)
  end.

(** A frame besides the global one. *)
Definition called s : Prop := (1 < length (frames s))%nat.

(** What the callers of an operation ensure: names, values and pieces that can
    be read; buffers of the pool with room for the final NUL; frames, levels and
    namespaces that were entered before they are left; namespaces used while
    something is evaluated; a link whose local name can be read. *)
Definition legal (o : var_op) (c : config) : Prop :=
  let '(s, st) := c in
  match o with
  | OpGet nm | OpExists nm | OpUnset nm => ∃ n, named nm n
  | OpSet nm z n => (∃ n, named nm n) ∧ ∃ d, value_text z n = Ok d
  | OpSetValue nm b => (∃ n, named nm n) ∧ buffer_ok b
  | OpSetLength nm z nLen => ∃ n, named nm n ∧ TH8_LEN nLen + 1 <= zlen z ∧
      ∀ a v, var_of 0 n s = Some a → heap (mem s) !! a = Some v → nAlloc v <= zlen z
  | OpAppend nm args => (∃ n, named nm n) ∧ args_ok args
  | OpLink local _ remote => (∃ n, named remote n) ∧
      ∃ nLocal key, (if snd local =? TH8_NOLEN then Th8_Strlen (fst local) else Ok (snd local)) = Ok nLocal ∧
        read (fst local) nLocal = Ok key
  | OpReturn => called s
  | OpNsLeave => called s ∧ st ≠ []
  | OpNsRestore => st ≠ []
  | OpUplevel _ | OpNsEnter _ | OpNsDelete _ => 0 < nEvalDepth s
  | OpEvalLeave => 0 < nEvalDepth s ∧ (nEvalDepth s = 1 → idle s ∧ st = [])
  | OpCall | OpDownlevel | OpEvalEnter => True
  end.

(** What scripts can do and the code does not bear: creating a namespace with a
    NUL in its name or a colon at its end ([nul_namespace_dangles],
    [colon_namespace_dangles] of VarHost), deleting the global namespace while
    others are in use ([delete_global_dangles]), and linking a name whose entry
    finds no memory ([link_without_memory]). *)
Definition avoids_faults (o : var_op) (c : config) : Prop :=
  let '(s, _) := c in
  match o with
  | OpSet nm _ _ | OpSetValue nm _ => ∀ n, named nm n → nul_free n
  | OpLink _ i remote => (∀ n, named remote n → nul_free n) ∧ link_granted debug sd i remote s
  | OpNsEnter z => path_ok z
  | OpNsDelete z => ∀ s', th8FindNamespace sd z false s ≠ Ok (Some (pGlobalNs s), s')
  | _ => True
  end.

Inductive reachable : config → Prop :=
| reach_new i : reachable (create_interp i, [])
| reach_op c o c' : reachable c → legal o c → avoids_faults o c → exec o c = Ok c' → reachable c'.

(** The invariant of a history. *)
Definition good (c : config) : Prop :=
  let '(s, st) := c in
  wf sd s ∧ Forall (λ a, is_Some (namespaces s !! a)) st ∧ (st ≠ [] → 0 < nEvalDepth s) ∧ 0 <= nEvalDepth s.

Lemma create_good i : good (create_interp i, []).
Proof.
  destruct (table_new sd) as [Ht Hd]. split_and!; [|by apply Forall_nil|done|done].
  assert (Hz : ∀ a, ns_vars a (namespaces (create_interp i)) = 0 ∧ kids [] a (namespaces (create_interp i)) = 0).
  { intros a. unfold ns_vars, kids, create_interp. fields. rewrite <- insert_empty, !msum_insert by apply lookup_empty.
    unfold msum, kid. rewrite !map_fold_empty, bool_decide_false by apply not_elem_of_nil. cbn [nsVar paChild].
    by rewrite Hd, count_empty. }
  pose proof (tbl_new sd) as Htbl.
  split; unfold create_interp; fields.
  - split; fields; [by intros a v Ha%lookup_empty_Some..| |].
    + intros a Ha. destruct (Hz a) as [Hv _]. unfold create_interp in Hv. fields.  rewrite Hv, lookup_empty.
      unfold elem_refs, msum. rewrite map_fold_empty. unfold all_frames. fields. cbn [app concat refs_in foldr paVar].
      rewrite Hd, count_empty. lia.
    + intros a Ha _. pose proof (refs_in_nonneg (all_frames (create_interp i)) a).
      pose proof (ns_vars_nonneg a (namespaces (create_interp i))). unfold create_interp in *. fields.  lia.
  - by intros a v Ha%lookup_empty_Some.
  - unfold all_frames. fields. cbn [app concat]. apply Forall_cons. split; [|by apply Forall_nil]. split; [done|]. fields.
    rewrite lookup_singleton_eq. by eexists.
  - done.
  - split; [|intros a m [<- <-]%lookup_singleton_Some; split; cbn [paChild nsVar]; [done|done|..]| |].
    + intros a m [<- <-]%lookup_singleton_Some. lia.
    + intros k d. by rewrite Hd, lookup_empty.
    + intros k d c. by rewrite Hd, lookup_empty.
    + intros a _. destruct (Hz a) as [_ Hk]. unfold create_interp in Hk. fields.  rewrite Hk.
      unfold ns_roots, waiting. fields. cbn [filter list_filter length]. destruct (decide (a = 1)) as [->|Hne].
      * rewrite bool_decide_true; [done|]. rewrite lookup_singleton_eq. split; [by eexists|apply not_elem_of_nil].
      * rewrite bool_decide_false; [done|]. rewrite lookup_singleton_ne by done. by intros [[? ?] _].
    + intros a. unfold ns_roots, waiting. fields. cbn [filter list_filter length]. case_decide; lia.
  - rewrite lookup_singleton_eq. split; by eexists.
  - done.
  - by intros a m [<- <-]%lookup_singleton_Some.
Qed.

(** ** An operation keeps the invariant, and does not fault *)

(** Namespaces that live on. *)
Lemma good_stays s s' st : good (s, st) → wf sd s' → stays s s' → good (s', st).
Proof.
  intros (H & Hst & Hd & Hn) H' [G1 G2 G3]. split_and!; [done| |by rewrite G2|by rewrite G2].
  destruct st as [|a st]; [by apply Forall_nil|]. eapply Forall_impl; [exact Hst|]. intros b. apply G3. by apply Hd.
Qed.

Lemma good_shape {A} s st (r : res fault (A * interp I)) (Q : A * interp I → Prop) : good (s, st) → safe debug r Q →
  (∀ x, Q x → keeps sd s (snd x)) → safe debug (state_of st r) good.
Proof.
  intros H Hr HQ. unfold state_of. eapply safe_bind; [exact Hr|]. intros [x s'] Hx. destruct (HQ _ Hx) as [W S]. cbn [safe].
  eapply good_stays; [exact H|exact W|]. by apply stays_shape.
Qed.

Lemma variable_op_good o s st : good (s, st) → legal o (s, st) → avoids_faults o (s, st) →
  match o with
  | OpGet _ | OpExists _ | OpSet _ _ _ | OpSetValue _ _ | OpSetLength _ _ _ | OpAppend _ _ | OpUnset _ | OpLink _ _ _ => True
  | _ => False
  end → safe debug (exec o (s, st)) good.
Proof.
  intros Hg Hl Hf Ho. pose proof Hg as (H & _). destruct o; try done; cbn [exec legal avoids_faults] in *.
  - destruct Hl as [n Hn]. eapply good_shape; [done|by apply (Th8_GetVar_ok debug sd s nm n)|]. by intros [].
  - destruct Hl as [n Hn]. eapply good_shape; [done|by apply (Th8_ExistsVar_ok debug sd s nm n)|]. by intros [].
  - destruct Hl as [[n Hn] [[d nd] Hv]]. eapply good_shape; [done|by apply (Th8_SetVar_ok debug sd s nm n zVal nVal d nd); auto|].
    by intros [] [].
  - destruct Hl as [[n Hn] Hb]. eapply good_shape; [done|by apply (th8SetVarValue_ok debug sd s nm n b); auto|]. by intros [[]] [].
  - destruct Hl as (n & Hn & Hz & Ha). eapply good_shape; [done|by apply (th8SetVarLength_ok debug sd s nm n z nLen)|]. by intros [].
  - destruct Hl as [[n Hn] Ha]. eapply good_shape; [done|by apply (th8AppendInPlace_ok debug sd s nm n args)|]. by intros [] [].
  - destruct Hl as [n Hn]. destruct (Th8_UnsetVar_ok sd s nm n H Hn) as (rc & s' & E & K & _).
    eapply (good_shape _ _ _ (λ x, keeps sd s (snd x))); [done|by rewrite E|done].
  - destruct Hl as ([n Hn] & nLocal & key & Hlen & Hkey). destruct Hf as [Hnul Hgr].
    eapply good_shape; [done|by apply (Th8_LinkVar_ok debug sd s local iFrame remote n nLocal key); auto|]. by intros [] [].
Qed.

Lemma wf_depth s n : wf sd s → wf sd (set_nEvalDepth n s).
Proof. by intros [H1 H2 H3 H4 H5 H6 H7 H8]. Qed.

Lemma eval_leave_good s st : good (s, st) → 0 < nEvalDepth s → (nEvalDepth s = 1 → idle s ∧ st = []) →
  safe debug (exec OpEvalLeave (s, st)) good.
Proof.
  intros (H & Hst & Hd & Hn) Hpos Hidle. cbn [exec]. unfold eval_cleanup. set (s1 := set_nEvalDepth _ s).
  assert (H1 : wf sd s1) by by apply wf_depth. destruct (nEvalDepth s1 =? 0) eqn:E; bool_to_prop; unfold s1 in E; cbn [set_nEvalDepth nEvalDepth] in E.
  - destruct Hidle as [Hi ->]; [lia|]. unfold th8DrainPendingDeletes.
    destruct (drain_ok sd (pPendingNs s1) s1 H1 Hi eq_refl) as (s' & -> & H' & _ & _ & D). cbn [res_bind safe].
    split_and!; [done|by apply Forall_nil|done|]. rewrite D. unfold s1. cbn. lia.
  - cbn [res_bind safe]. split_and!; [done|exact Hst| |]; unfold s1; cbn [set_nEvalDepth nEvalDepth]; lia.
Qed.

Lemma uplevel_good s st i : good (s, st) → 0 < nEvalDepth s → safe debug (exec (OpUplevel i) (s, st)) good.
Proof.
  intros Hg Hpos. pose proof Hg as (H & _). cbn [exec]. destruct (Th8_NREvalInFrame_ok sd s i H) as (rc & s' & -> & H' & S).
  cbn [snd safe]. pose proof (good_stays s s' st Hg H' S) as (_ & Hst & Hd & Hn). destruct (_ =? _); [by split_and!|].
  split_and!; [done| |intros _; by rewrite (st_depth _ _ S)|done]. apply Forall_cons. split; [|done].
  apply (st_ns _ _ S); [done|]. apply (i_here _ _ _ _ H).
Qed.

Lemma control_op_good o s st : good (s, st) → legal o (s, st) → avoids_faults o (s, st) →
  match o with
  | OpCall | OpReturn | OpDownlevel | OpNsEnter _ | OpNsLeave | OpNsRestore | OpNsDelete _ | OpEvalEnter => True
  | _ => False
  end → safe debug (exec o (s, st)) good.
Proof.
  intros Hg Hl Hf Ho. pose proof Hg as (H & Hst & Hd & Hn). destruct o; try done; cbn [exec legal avoids_faults] in *.
  - destruct (enter_frame_ok sd s H) as (ok & s' & -> & H' & S & _). by eapply good_stays.
  - unfold called in Hl. destruct (frames s) as [|f [|f' fs]] eqn:Ef; [cbn in Hl; lia..|].
    destruct (th8PopFrame_ok sd s f (f' :: fs) H Ef) as (m' & -> & H' & _); [done|]. cbn [res_bind safe].
    eapply good_stays; [exact Hg|exact H'|]. by apply stays_same.
  - destruct (th8FrameRestoreCallback_ok sd s H). by eapply good_stays.
  - destruct (ns_enter_ok sd s z H Hf) as (ok & a & s' & -> & H' & S & Ha & _). cbn [res_bind safe].
    pose proof (good_stays s s' st Hg H' S) as Hg'. destruct ok; [|done]. destruct Hg' as (_ & Hst' & _ & Hn').
    split_and!; [done|by apply Forall_cons|intros _; by rewrite (st_depth _ _ S)|done].
  - destruct Hl as [Hl Hne]. destruct st as [|a st]; [done|]. apply Forall_cons in Hst as [Ha Hst]. unfold called in Hl.
    destruct (frames s) as [|f [|f' fs]] eqn:Ef; [cbn in Hl; lia..|].
    destruct (ns_leave_ok sd s a f (f' :: fs) H Ef) as (s' & -> & H' & S & _); [done..|]. cbn [res_bind safe].
    eapply good_stays; [|exact H'|exact S]. split_and!; [done|done|intros _; by apply Hd|done].
  - destruct st as [|a st]; [done|]. apply Forall_cons in Hst as [Ha Hst]. cbn [safe].
    split_and!; [by apply wf_current|done|intros _; by apply Hd|done].
  - destruct (Th8_DeleteNamespace_ok sd s z H Hl) as (rc & s' & -> & H' & S & _); [by intros s'; apply Hf|].
    cbn [state_of res_bind safe]. by eapply good_stays.
  - cbn [safe]. unfold eval_enter. destruct (1000 <? nEvalDepth s); cbn [snd].
    + eapply good_stays; [exact Hg|by apply inv_env|by apply stays_same].
    + split_and!; [by apply wf_depth|exact Hst| |]; cbn [set_nEvalDepth nEvalDepth]; lia.
Qed.

Lemma exec_good o c : good c → legal o c → avoids_faults o c → safe debug (exec o c) good.
Proof.
  destruct c as [s st]. intros Hg Hl Hf. destruct o; try (by apply variable_op_good); try (by apply control_op_good).
  - by apply uplevel_good.
  - destruct Hl. by apply eval_leave_good.
Qed.

Lemma reachable_good c : reachable c → good c.
Proof.
  induction 1 as [i|c o c' _ IH Hl Hf He]; [apply create_good|]. pose proof (exec_good o c IH Hl Hf) as Hs. by rewrite He in Hs.
Qed.
End history.
