(* ===== verification/VarHost.v ===== *)
(** * VarHost: a small interpreter around the variables.

    Concrete runs: the histories of the witnesses, and what the code does
    outside the histories that VarHistory admits. *)

From S2P Require Import Prelude Memory Strings Hash Lists VarTables VarState VarRefs Namespaces Vars VarInv NsTree VarResolve VarSteps VarWrites VarUnset VarFrames VarNs VarHistory.
From stdpp Require Import gmap.
#[local] Open Scope Z_scope.
#[local] Open Scope res_scope.

(** The result and the last complaint; [hs_deny] is the site whose requests
    are refused. *)
Record host : Type := mkHost { hs_result : bytes * Z; hs_error : bytes; hs_deny : option alloc_site }.
Definition set_result (r : bytes * Z) (i : host) : host := mkHost r (hs_error i) (hs_deny i).

#[export] Instance site_dec : EqDecision alloc_site.
Proof. solve_decision. Defined.

#[export] Instance host_strings : StringInterp host := {
  th8OversizeString i := i; nResultLimit _ := 0; th8BufferAlloc i _ := (true, i);
  set_limit_exceeded i := i; set_append_failed i := i
}.
#[export] Instance host_lists : ListInterp host := {
  list_alloc i _ := (true, i); find_list i _ := (Some None, i); store_list i _ _ := i; report_split i _ := i
}.

(** [deny] says whether a request may be refused. *)
Definition host_env (deny : bool) : VarEnv host := {|
  var_alloc i site := (negb (deny && bool_decide (hs_deny i = Some site)), i);
  Th8_ErrorMessage i pre z n := mkHost (hs_result i) (pre ++ take (Z.to_nat n) z) (hs_deny i);
  Th8_SetResult i z n := (TH8_OK, set_result (take (Z.to_nat (TH8_LEN n)) (default [] z), n) i);
  Th8_GetResult i := hs_result i;
  Th8_Free i _ := i; th8BufferFree i _ _ := i; th8RemoveFromCache i _ _ := i; th8SignalAllStates i := i;
  th8IsSecureVar _ _ _ := false; th8SecureSetVar i _ _ _ := (TH8_OK, i); th8SecureGetVar i _ _ := (TH8_OK, i);
  th8FreeCommands i _ := i
|}.
#[export] Instance calm : VarEnv host := host_env false.

Definition new_host : host := mkHost ([], 0) [] None.

(** A name or a value as the commands pass it. *)
Definition str (z : string) : cstring := (text z, zlen (text z)).
Definition set_op (nm v : string) : var_op := OpSet (str nm) (Some (text v)) (zlen (text v)).
Definition link_op (local : string) (i : Z) (remote : string) : var_op := OpLink (str local) i (str remote).

Fixpoint run `{VE : VarEnv host} (debug : bool) (ops : list var_op) (c : config (I := host)) : res fault config :=
  match ops with
  | [] => Ok c
  | o :: ops => let* c := exec debug seeds_init o c in run debug ops c
  end.

Definition start : config (I := host) := (create_interp new_host, []).
Definition reads (nm : string) (c : config (I := host)) : res fault (Z * bytes) :=
  let* (rc, s) := Th8_GetVar false seeds_init (str nm) (fst c) in Ok (rc, fst (hs_result (env s))).
Definition reads_after (ops : list var_op) (nm : string) : res fault (Z * bytes) :=
  let* c := run false ops start in reads nm c.

(** ** Runs that the histories admit *)

Fixpoint legal_all (ops : list var_op) (c : config (I := host)) : Prop :=
  match ops with
  | [] => True
  | o :: ops => legal o c ∧ avoids_faults false seeds_init o c ∧ ∀ c', exec false seeds_init o c = Ok c' → legal_all ops c'
  end.

Lemma run_reach ops : ∀ c, reachable false seeds_init c → legal_all ops c →
  ∃ c', run false ops c = Ok c' ∧ reachable false seeds_init c'.
Proof.
  induction ops as [|o ops IH]; intros c Hr Hl; cbn [run]; [by exists c|]. destruct Hl as (Hl & Hf & Hs).
  pose proof (exec_good false seeds_init o c (reachable_good false seeds_init c Hr) Hl Hf) as Hg. unfold safe in Hg.
  destruct (exec false seeds_init o c) as [c1|e] eqn:E; [|by destruct e].
  cbn [res_bind]. apply IH; [by eapply reach_op|by apply Hs].
Qed.

(** Where a run ends. *)
Definition end_of (ops : list var_op) : config (I := host) :=
  match run false ops start with Ok c => c | Err _ => start end.

Lemma end_reachable ops : legal_all ops start → reachable false seeds_init (fst (end_of ops), snd (end_of ops)).
Proof.
  intros Hl. destruct (run_reach ops start) as (c & E & Hr); [apply reach_new|done|].
  unfold end_of. rewrite E. by destruct c.
Qed.

(** The state of an operation that succeeded. *)
Definition ok_of {A} (r : res fault (Z * A)) : bool := match r with Ok (rc, _) => rc =? TH8_OK | Err _ => false end.
Definition state_after {A} (d : A) (r : res fault (Z * A)) : A := match r with Ok (_, s) => s | Err _ => d end.
Lemma ok_after {A} (d : A) r : ok_of r = true → r = Ok (TH8_OK, state_after d r).
Proof. unfold ok_of, state_after. destruct r as [[rc s]|]; [|done]. intros H. apply Z.eqb_eq in H. by rewrite H. Qed.

Lemma calm_link i remote s : link_granted (VE := calm) false seeds_init i remote s.
Proof. done. Qed.

Lemma plain_free n : qualified n = false → nul_free n.
Proof. intros H Hq. congruence. Qed.

(** A call that links a global variable, and an array. *)
Definition demo : list var_op := [set_op "a" "1"; set_op "b(x)" "2"; OpCall; link_op "p" 0 "a"].

Ltac plain_name := intros ? [= <-]; by apply plain_free.
Ltac step_legal := split; [cbn [legal]|split; [cbn [avoids_faults]|intros [? ?] _]].

Lemma demo_legal : legal_all demo start.
Proof.
  unfold start. step_legal; [by split; [eexists|eexists]|plain_name|]. step_legal; [by split; [eexists|eexists]|plain_name|].
  step_legal; [done..|]. step_legal; [|split; [plain_name|apply calm_link]|done]. split; [by eexists|]. by eexists _, _.
Qed.

Lemma demo_reachable : reachable false seeds_init (fst (end_of demo), snd (end_of demo)).
Proof. apply end_reachable, demo_legal. Qed.

(** ** Outside the histories *)

Definition fault_of {A} (r : res fault A) : option fault := match r with Ok _ => None | Err e => Some e end.
Definition denying (site : alloc_site) (s : interp host) : interp host :=
  on_env (λ i, mkHost (hs_result i) (hs_error i) (Some site)) s.

(** Th8_LinkVar writes through the entry that it could not make. *)
Example link_without_memory :
  fault_of (let* c := run false [set_op "a" "1"; OpCall] start in
    Th8_LinkVar (VE := host_env true) false seeds_init (str "b") 0 (str "a") (denying AEntry (fst c))) = Some NullDeref.
Proof. vm_compute. reflexivity. Qed.

(** The local name of a link is not resolved: with a subscript it names no
    element afterwards, and a qualified one stays what it was. *)
Example link_element_unreadable :
  reads_after [set_op "a" "1"; OpCall; link_op "q(z)" 0 "a"] "q(z)" = Ok (TH8_ERROR, []) ∧
  reads_after [set_op "a" "1"; set_op "b" "2"; OpCall; link_op "::b" 0 "a"] "::b" = Ok (TH8_OK, text "2").
Proof. split; vm_compute; reflexivity. Qed.

(** A name with an empty namespace stops a debug build. *)
Example empty_namespace_asserts : fault_of (run true [set_op "::::x" "1"] start) = Some AssertFailed.
Proof. vm_compute. reflexivity. Qed.

(** Two links in one frame: removing one leaves the other, with its value. *)
Example unset_leaves_alias :
  reads_after [set_op "a" "1"; OpCall; link_op "p" 0 "a"; link_op "q" 0 "a"; OpUnset (str "p")] "q" = Ok (TH8_OK, text "1").
Proof. vm_compute. reflexivity. Qed.

(** A variable of a namespace cannot be removed. *)
Example unset_ignores_namespace :
  reads_after [OpEvalEnter; OpNsEnter (text "n"); set_op "::n::x" "1"; OpUnset (str "::n::x")] "::n::x" = Ok (TH8_OK, text "1").
Proof. vm_compute. reflexivity. Qed.

(** The child of a namespace whose name ends in a colon stays in its table
    after it was freed. *)
Example colon_namespace_dangles :
  fault_of (run false [OpEvalEnter; OpNsEnter (text "a:"); OpNsEnter (text "b"); OpNsLeave; OpNsDelete (text "b"); OpNsLeave;
    OpEvalLeave; OpEvalEnter; OpNsEnter (text "a:"); OpNsEnter (text "b"); OpNsEnter (text "c")] start) = Some UseAfterFree.
Proof. vm_compute. reflexivity. Qed.

(** Nor is one whose name holds a NUL unlinked. *)
Example nul_namespace_dangles :
  (let z := text "a" ++ [0] ++ text "b" in
   fault_of (run false [OpEvalEnter; OpNsEnter z; OpNsLeave; OpNsDelete z; OpEvalLeave; OpEvalEnter; OpNsEnter z; OpNsEnter (text "c")] start)) =
    Some UseAfterFree.
Proof. vm_compute. reflexivity. Qed.

(** Deleting the global namespace frees the ones that are in use. *)
Example delete_global_dangles :
  fault_of (run false [OpEvalEnter; OpNsEnter (text "a"); OpNsDelete (text "::"); OpUplevel 0; OpNsEnter (text "b")] start) =
    Some UseAfterFree.
Proof. vm_compute. reflexivity. Qed.

(** A system variable is protected under the name it was declared with only. *)
Example system_variable_bypass :
  (let* c := run false [set_op "::s" "1"] start in
   let* (_, s) := Th8_DeclareSystemVar seeds_init (str "::s") (fst c) in
   let* b1 := Th8_IsSystemVar seeds_init (str "::s") s in
   let* b2 := Th8_IsSystemVar seeds_init (str "s") s in
   let* c := run false [set_op "s" "2"] (s, []) in
   let* r := reads "::s" c in Ok (b1, b2, r)) = Ok (true, false, (TH8_OK, text "2")).
Proof. vm_compute. reflexivity. Qed.

(** A name with a taint tag is read past its end. *)
Example system_name_overread :
  fault_of (let* (_, s) := Th8_DeclareSystemVar seeds_init (str "::s") (fst start) in
    Th8_IsSystemVar seeds_init (text "ab", Z.lor 2 TH8_TAINT_BIT) s) = Some OutOfBounds.
Proof. vm_compute. reflexivity. Qed.

(** A store that finds no memory has released the old value. *)
Example failed_store_loses_value :
  (let* c := run false [set_op "a" "1"] start in
   let* (rc, s) := Th8_SetVar (VE := host_env true) false seeds_init (str "a") (Some (text "2")) 1 (denying (AString 1) (fst c)) in
   let* r := reads "a" (s, []) in Ok (rc, r)) = Ok (TH8_ERROR, (TH8_OK, [])).
Proof. vm_compute. reflexivity. Qed.
