(* ===== verification/VarTheorems.v ===== *)
(** * VarTheorems: what is proved of variables, frames and namespaces. *)

From S2P Require Import Prelude Memory Strings Hash Lists VarTables VarState VarRefs Namespaces Vars VarInv NsTree VarResolve VarSteps VarWrites VarUnset VarFrames VarNs VarHistory VarHost.
From stdpp Require Import gmap.
#[local] Open Scope Z_scope.
#[local] Open Scope res_scope.

Section theorems.
Context (debug : bool) (sd : seeds) {I : Type} `{VE : VarEnv I}.
Implicit Types (s : interp I).

(** The table entries that hold the address: in the frames of the chain and
    those an [uplevel] left, in namespaces, in arrays. *)
Definition references s (a : Z) : Z :=
  refs_in (all_frames s) a + ns_vars a (namespaces s) + elem_refs a (heap (mem s)).

(** A variable is a scalar, whose value lies in its block with a NUL, or an
    array, whose elements are younger variables, or nothing yet. *)
Definition typed s (a : Z) (v : Th8_Variable) : Prop :=
  match pHash v with
  | Some h => zData v = None ∧ ∀ k d, dict h !! k = Some d → d = 0 ∨ (a < d ∧ is_Some (heap (mem s) !! d))
  | None =>
      match zData v with
      | Some z => TH8_LEN (nData v) < zlen z ∧ nAlloc v <= zlen z ∧ (bBorrowed v = true → 0 < nAlloc v)
      | None => bBorrowed v = false
      end
  end.

Lemma reachable_wf s st : reachable debug sd (s, st) → wf sd s.
Proof. intros H. apply (reachable_good debug sd _ H). Qed.

(** ** Safety *)


(** C6.  In every state that a history as in C5 reaches, every variable in memory is
    counted exactly and referred to; what is referred to is in memory. *)
Theorem references_exact s st : reachable debug sd (s, st) →
  (∀ a, a ≠ 0 → references s a = match heap (mem s) !! a with Some v => nRef v | None => 0 end) ∧
  (∀ a v, heap (mem s) !! a = Some v → 1 <= references s a) ∧
  (∀ t key a, entry_of t key s = Some a → is_Some (heap (mem s) !! a)).
Proof.
  intros Hr. pose proof (reachable_wf s st Hr) as H. split_and!.
  - intros a Ha. unfold references. pose proof (h_refs _ _ _ _ (i_heap _ _ _ _ H) a Ha). cbn beta in *. lia.
  - intros a v Hv. pose proof (h_refs _ _ _ _ (i_heap _ _ _ _ H) a (live_pos sd s a v H Hv)) as Hc.
    rewrite Hv in Hc. pose proof (i_live _ _ _ _ H a v Hv). unfold references. lia.
  - intros t key a He. destruct (entry_var sd s t key a H He) as (_ & v & _ & _ & Hv). by eexists.
Qed.

(** C9.  In every state that a history as in C5 reaches, a variable is a scalar whose value lies in its block, an array of younger
    variables without a value, or nothing yet. *)
Theorem variables_typed s st a v : reachable debug sd (s, st) → heap (mem s) !! a = Some v → typed s a v.
Proof.
  intros Hr Hv. pose proof (reachable_wf s st Hr) as H. unfold typed. pose proof (live_pos sd s a v H Hv) as Ha.
  destruct (h_vars _ _ _ _ (i_heap _ _ _ _ H) a v Hv) as (_ & (_ & Hb & Hval) & Harr). destruct (pHash v) as [h|] eqn:Eh.
  - destruct (Harr h Eh) as (Hz & Hh & Hy). split; [done|]. intros k d Hk. destruct (Hy k d Hk) as [->|Hd]; [by left|right].
    split; [done|]. assert (Ht : table_at (TVar a) s = Ok h) by (cbn [table_at]; rewrite (deref_ok _ _ _ Hv Ha); cbn [res_bind]; by rewrite Eh).
    pose proof (h_addr _ _ _ _ (i_heap _ _ _ _ H) a v Hv). destruct (entry_live sd _ s _ h k d H none_held Ht Hk) as [w Hw]; [lia|by eexists].
  - destruct (zData v) as [z|]; [|done]. destruct Hval. split_and!; [lia|done|done].
Qed.

(** C10.  After a history that avoids the faults of [avoids_faults], which excludes
    names of namespaces with a NUL or a colon at the end, a namespace is the
    global one, waits to be freed, or is the child of an older one under the
    tail of its name. *)
Theorem namespaces_rooted s st a n : reachable debug sd (s, st) → namespaces s !! a = Some n →
  a = pGlobalNs s ∨ a ∈ pPendingNs s ∨
  ∃ p, namespaces s !! pParent n = Some p ∧ pParent n < a ∧ dict (paChild p) !! snd (th8SplitQualName (zName n)) = Some a.
Proof.
  intros Hr Hn. pose proof (reachable_wf s st Hr) as H. pose proof (i_ns _ _ _ _ H) as Hns.
  pose proof (n_addr _ _ _ _ _ Hns a n Hn) as Ha. pose proof (n_refs _ _ _ _ _ Hns a ltac:(lia)) as Hc.
  rewrite bool_decide_true in Hc by (split; [by eexists|apply not_elem_of_nil]).
  destruct (decide (a = pGlobalNs s)) as [->|Hg]; [by left|right]. destruct (decide (a ∈ pPendingNs s)) as [Hp|Hp]; [by left|right].
  assert (Hw : waiting (pPendingNs s) a = 0).
  { unfold waiting. assert (filter (λ b, b = a) (pPendingNs s) = []) as ->; [|done].
    apply elem_of_nil_inv. by intros b [-> Hb]%list_elem_of_filter. }
  unfold ns_roots in Hc. rewrite decide_False, Hw in Hc by done.
  destruct (msum_witness (kid [] a) (namespaces s)) as (p & pn & Hpn & Hk); [unfold kids in Hc; lia|].
  unfold kid in Hk. rewrite bool_decide_false in Hk by apply not_elem_of_nil. destruct (count_witness _ _ Hk) as [k Hkd].
  destruct (nn_link _ _ _ _ (n_node _ _ _ _ _ Hns p pn Hpn) k a n Hkd Hn) as [-> <-]. exists pn.
  pose proof (nn_young _ _ _ _ (n_node _ _ _ _ _ Hns p pn Hpn) _ a Hkd). done.
Qed.

(** ** Names *)

(** C8.  In every state that a history as in C5 reaches, th8FindValue computes what
    a name denotes in frames, namespaces and arrays, and changes nothing, if it may not create; if it may, it finds what
    the name denotes or makes it denote what it finds, and whether it succeeds
    or not every name keeps its variable and value.  The search for a qualified
    name finds nothing where the text of its path could not be put together
    ([path_built]); in a debug build a name with an empty path fails an
    assertion. *)
Theorem find_value_refines s st k nm n b : reachable debug sd (s, st) → (k < length (frames s))%nat → named nm n →
  (b = true → nul_free n) →
  (debug = true ∧ path_named n = false ∧ th8FindValue debug sd k nm b s = Err AssertFailed) ∨
  ∃ o s', th8FindValue debug sd k nm b s = Ok (o, s') ∧ names_kept s s' ∧
    (path_built n s = true → ∀ a, var_of k n s = Some a → o = Some a) ∧
    (path_built n s = false → o = None) ∧
    (b = false → s' = set_env (path_env n s) s ∧ (path_built n s = true → o = var_of k n s)) ∧
    (∀ a, o = Some a → var_of k n s' = Some a ∧ is_Some (heap (mem s') !! a)).
Proof.
  intros Hr Hk Hn Hnul. pose proof (reachable_wf s st Hr) as H.
  pose proof (find_safe debug sd s k nm n b H Hk Hn Hnul) as F. destruct (path_named n) eqn:Ep.
  2: { destruct debug eqn:Ed; [left|right].
       - split_and!; [done|done|]. by eapply th8FindValue_asserts.
       - destruct (th8FindValue false sd k nm b s) as [[o s']|[]]; try done. destruct F as (_ & _ & F1 & F2 & F3 & F4 & F5).
         exists o, s'. split_and!; [done..|]. intros a ->. by destruct F5. }
  right. destruct (th8FindValue_named debug sd _ s k nm n b H (none_held) Hk Hn Hnul Ep) as (o & s' & -> & (_ & _ & F1 & F2 & F3 & F4 & F5)).
  exists o, s'. split_and!; [done..|]. intros a ->. by destruct F5.
Qed.

(** C7.  In every state that a history as in C5 reaches, what is stored under a
    name, qualified or not, that is not of a secure variable is read back, and the other variables stay; the read needs the
    text of the path of a qualified name. *)
Theorem set_then_get s st nm n zVal nVal d nd s' : reachable debug sd (s, st) → named nm n → nul_free n →
  (∀ i, th8IsSecureVar i (fst nm) (snd nm) = false) → value_text zVal nVal = Ok (d, nd) →
  Th8_SetVar debug sd nm zVal nVal s = Ok (TH8_OK, s') → path_built n s' = true →
  (∃ a, var_of 0 n s' = Some a ∧ others_kept a s s') ∧
  Th8_GetVar debug sd nm s' =
    let '(rc, i) := Th8_SetResult (path_env n s') (Some (d ++ [0])) nd in Ok (rc, set_env i s').
Proof.
  intros Hr Hn Hnul Hsec Hval He Hb. pose proof (reachable_wf s st Hr) as H.
  assert (Hd0 : debug && negb (path_named n) = false).
  { destruct debug eqn:Ed, (path_named n) eqn:Ep; try done. unfold Th8_SetVar in He.
    rewrite (th8FindValue_asserts true sd s 0 nm n true Hn eq_refl Ep) in He. done. }
  pose proof (Th8_SetVar_ok debug sd s nm n zVal nVal d nd H Hn Hnul Hval) as F. rewrite He in F.
  destruct F as [[H' _] F]. destruct (F eq_refl Hsec) as (a & s1 & v & G & T & Hv & Hw & Hp & Hz & Hd). split.
  - exists a. split; [done|]. by eapply grows_others.
  - unfold Th8_GetVar, find_scalar. rewrite (find_exact debug sd s' 0 nm n H' (frames_pos sd s' H') Hn Hb), Hd0, Hv. cbn [res_bind].
    assert (Hw' : heap (mem (set_env (path_env n s') s')) !! a = Some v) by done.
    rewrite (deref_ok _ _ _ Hw') by by eapply live_pos. cbn [res_bind].
    rewrite (is_array_ok debug sd _ a v (inv_env sd 0 _ s' _ H') Hw'), Hp. cbn [res_bind].
    rewrite bool_decide_false by by intros []. cbn [res_bind]. by rewrite Hsec, Hz, Hd.
Qed.

(** C11.  In every state that a history as in C5 reaches: after a link under a plain local name - no subscript, not global - that
    name denotes the remote variable, and every other name what it denoted.
    Names of other forms are linked and not found again
    (VarHost.link_element_unreadable). *)
Theorem link_aliases s st local iFrame remote n nLocal key s' : reachable debug sd (s, st) →
  named remote n → nul_free n → link_granted debug sd iFrame remote s →
  named local (mkName key None false) →
  (if snd local =? TH8_NOLEN then Th8_Strlen (fst local) else Ok (snd local)) = Ok nLocal → read (fst local) nLocal = Ok key →
  Th8_LinkVar debug sd local iFrame remote s = Ok (TH8_OK, s') →
  names_kept s s' ∧ ∃ k, th8LinkTarget iFrame s = Some k ∧ is_Some (var_of k n s') ∧ var_of 0 (mkName key None false) s' = var_of k n s'.
Proof.
  intros Hr Hn Hnul Hg _ Hl Hk He. pose proof (reachable_wf s st Hr) as H.
  pose proof (Th8_LinkVar_ok debug sd s local iFrame remote n nLocal key Hg H Hn Hnul Hl Hk) as F. rewrite He in F.
  destruct F as [_ F]. destruct (F eq_refl) as (k & Ht & Hkept & r & Hr' & He'). split; [done|]. exists k. rewrite Hr'. split_and!; [done|by eexists|].
  unfold var_of, outer_of, slot_of. cbn [bGlobal zOuter zInner andb fst snd mbind option_bind]. by rewrite He'.
Qed.

(** C12.  In every state that a history as in C5 reaches: a removed variable has no name left in the other frames of the chain and
    not the one it was removed by in its own, an element none with its subscript;
    every other name, in frames, namespaces and arrays, denotes the variable it
    denoted, with the same value. *)
Theorem unset_removes s st nm n s' : reachable debug sd (s, st) → named nm n → Th8_UnsetVar sd nm s = Ok (TH8_OK, s') →
  removed n s s'.
Proof.
  intros Hr Hn He. pose proof (reachable_wf s st Hr) as H. destruct (Th8_UnsetVar_ok sd s nm n H Hn) as (rc & s2 & E & _ & F).
  rewrite He in E. injection E as <- <-. by apply F.
Qed.

(** C13.  In every state that a history as in C5 reaches: the pieces come after the value, in the block it has, and no other variable
    is touched. *)
Theorem append_in_place s st nm n args s' : reachable debug sd (s, st) → named nm n → args_ok args →
  th8AppendInPlace debug sd nm args s = Ok (TH8_OK, s') → appended n args s s'.
Proof.
  intros Hr Hn Ha He. pose proof (th8AppendInPlace_ok debug sd s nm n args (reachable_wf s st Hr) Hn Ha) as F.
  rewrite He in F. by apply F.
Qed.
End theorems.

(** ** Witnesses *)

Abbreviation demo_state := (fst (end_of demo)) (only parsing).
Abbreviation origin := (fst start) (only parsing).


(** The global variable is referred to by its name and by the link. *)
Lemma references_exact_witness : references demo_state 2 = 2.
Proof.
  rewrite (proj1 (references_exact false seeds_init demo_state (snd (end_of demo)) demo_reachable) 2 ltac:(done)).
  vm_compute. reflexivity.
Defined.

Lemma variables_typed_witness : ∃ v, heap (mem demo_state) !! 3 = Some v ∧ is_Some (pHash v) ∧ typed demo_state 3 v.
Proof.
  destruct (heap (mem demo_state) !! 3) as [v|] eqn:E; [exists v|exfalso].
  - split; [exact eq_refl|]. split; [|exact (variables_typed false seeds_init demo_state (snd (end_of demo)) 3 v demo_reachable E)].
    assert (Hb : match heap (mem demo_state) !! 3 with Some v => bool_decide (is_Some (pHash v)) | None => false end = true)
      by (vm_compute; reflexivity).
    rewrite E in Hb. exact (bool_decide_eq_true_1 _ Hb).
  - assert (Hb : bool_decide (is_Some (heap (mem demo_state) !! 3)) = true) by (vm_compute; reflexivity).
    rewrite E in Hb. discriminate Hb.
Defined.

(** After [namespace eval n] has made its namespace. *)
Definition ns_demo : list var_op := [OpEvalEnter; OpNsEnter (text "n")].

Lemma ns_demo_reachable : reachable false seeds_init (fst (end_of ns_demo), snd (end_of ns_demo)).
Proof.
  apply end_reachable. unfold start. split; [done|]. split; [done|]. intros c Hc. injection Hc as <-. split; [done|].
  split; [|done]. split; [discriminate|by apply (bool_decide_unpack (0 ∉ text "n"))].
Qed.

Lemma namespaces_rooted_witness : ∃ n, namespaces (fst (end_of ns_demo)) !! 2 = Some n ∧ ∃ p,
  namespaces (fst (end_of ns_demo)) !! pParent n = Some p ∧ dict (paChild p) !! snd (th8SplitQualName (zName n)) = Some 2.
Proof.
  destruct (namespaces (fst (end_of ns_demo)) !! 2) as [n|] eqn:E.
  - exists n. split; [exact eq_refl|]. destruct (namespaces_rooted false seeds_init _ _ 2 n ns_demo_reachable E) as [H|[H|(p & H1 & _ & H2)]].
    + assert (Hg : pGlobalNs (fst (end_of ns_demo)) = 1) by (vm_compute; reflexivity). rewrite Hg in H. discriminate H.
    + assert (Hp : pPendingNs (fst (end_of ns_demo)) = []) by (vm_compute; reflexivity). rewrite Hp in H. exfalso. exact (not_elem_of_nil 2 H).
    + exists p. split; [exact H1|exact H2].
  - exfalso. assert (Hb : bool_decide (is_Some (namespaces (fst (end_of ns_demo)) !! 2)) = true) by (vm_compute; reflexivity).
    rewrite E in Hb. discriminate Hb.
Defined.

(** [::n::x] after [namespace eval n {set ::n::x 1}] is under way. *)
Definition ns_var_demo : list var_op := ns_demo ++ [set_op "::n::x" "1"].
Abbreviation ns_x := (mkName (text "n::x") None true) (only parsing).

Lemma ns_x_free : nul_free ns_x.
Proof. intros _. by apply (bool_decide_unpack (0 ∉ text "n::x")). Qed.

Lemma ns_var_reachable : reachable false seeds_init (fst (end_of ns_var_demo), snd (end_of ns_var_demo)).
Proof.
  apply end_reachable. unfold start. split; [done|]. split; [done|]. intros c Hc. injection Hc as <-. split; [done|].
  split; [split; [discriminate|by apply (bool_decide_unpack (0 ∉ text "n"))]|]. intros c Hc. clear Hc.
  destruct c as [s st]. split; [by split; [eexists|eexists]|]. split; [|done]. intros n [= <-]. exact ns_x_free.
Qed.

Lemma find_value_refines_witness :
  th8FindValue false seeds_init 1 (str "::n::x") false (fst (end_of ns_var_demo)) =
    Ok (var_of 1 ns_x (fst (end_of ns_var_demo)), set_env (path_env ns_x (fst (end_of ns_var_demo))) (fst (end_of ns_var_demo))) ∧
  is_Some (var_of 1 ns_x (fst (end_of ns_var_demo))).
Proof.
  assert (Hs : bool_decide (is_Some (var_of 1 ns_x (fst (end_of ns_var_demo)))) = true) by (vm_compute; reflexivity).
  split; [|exact (bool_decide_eq_true_1 _ Hs)].
  destruct (find_value_refines false seeds_init (fst (end_of ns_var_demo)) (snd (end_of ns_var_demo)) 1 (str "::n::x") ns_x false
    ns_var_reachable) as [[H _]|(o & s' & E & _ & _ & _ & F & _)].
  - apply Nat.ltb_lt. vm_compute. reflexivity.
  - reflexivity.
  - discriminate.
  - discriminate H.
  - destruct (F eq_refl) as [Hs' Ho]. rewrite E, Hs', Ho; [reflexivity|vm_compute; reflexivity].
Defined.

Abbreviation ns_state := (fst (end_of ns_var_demo)) (only parsing).
Abbreviation store_x := (Th8_SetVar false seeds_init (str "::n::x") (Some (text "2")) 1 ns_state) (only parsing).

(** The variable of a namespace is written and read by its full name. *)
Lemma set_then_get_witness :
  Th8_GetVar false seeds_init (str "::n::x") (state_after ns_state store_x) =
    Ok (TH8_OK, set_env (set_result (text "2", 1) (path_env ns_x (state_after ns_state store_x))) (state_after ns_state store_x)).
Proof.
  assert (H : store_x = Ok (TH8_OK, state_after ns_state store_x)) by (apply ok_after; vm_compute; reflexivity).
  assert (Hp : path_built ns_x (state_after ns_state store_x) = true) by (vm_compute; reflexivity).
  exact (proj2 (set_then_get false seeds_init ns_state (snd (end_of ns_var_demo)) (str "::n::x") ns_x (Some (text "2")) 1
    (text "2") 1 _ ns_var_reachable eq_refl ns_x_free (λ _, eq_refl) eq_refl H Hp)).
Defined.

Abbreviation link_q := (Th8_LinkVar false seeds_init (str "q") 0 (str "b(x)") demo_state) (only parsing).

Lemma link_aliases_witness : ∃ k, th8LinkTarget 0 demo_state = Some k ∧
  is_Some (var_of k (mkName (text "b") (Some (text "x")) false) (state_after demo_state link_q)) ∧
  var_of 0 (mkName (text "q") None false) (state_after demo_state link_q) =
    var_of k (mkName (text "b") (Some (text "x")) false) (state_after demo_state link_q).
Proof.
  assert (H : link_q = Ok (TH8_OK, state_after demo_state link_q)) by (apply ok_after; vm_compute; reflexivity).
  apply (link_aliases false seeds_init demo_state (snd (end_of demo)) (str "q") 0 (str "b(x)") _ 1 (text "q")).
  - exact demo_reachable.
  - reflexivity.
  - by apply plain_free.
  - exact (calm_link 0 (str "b(x)") demo_state).
  - reflexivity.
  - reflexivity.
  - reflexivity.
  - exact H.
Defined.

Abbreviation unset_p := (Th8_UnsetVar seeds_init (str "p") demo_state) (only parsing).

Lemma unset_removes_witness : removed (mkName (text "p") None false) demo_state (state_after demo_state unset_p).
Proof.
  assert (H : unset_p = Ok (TH8_OK, state_after demo_state unset_p)) by (apply ok_after; vm_compute; reflexivity).
  apply (unset_removes false seeds_init demo_state (snd (end_of demo)) (str "p")).
  - exact demo_reachable.
  - reflexivity.
  - exact H.
Defined.

(** A buffer of eight bytes that holds one. *)
Definition buffer_demo : list var_op := [OpSetValue (str "a") (mkBuf (Some (text "1234567" ++ [0])) 1 8)].
Abbreviation append_a := (th8AppendInPlace false seeds_init (str "a") [str "xy"; str "z"] (fst (end_of buffer_demo))) (only parsing).

Lemma buffer_demo_reachable : reachable false seeds_init (fst (end_of buffer_demo), snd (end_of buffer_demo)).
Proof. apply end_reachable. unfold start. step_legal; [split; [by eexists|done]|plain_name|done]. Qed.

Lemma append_in_place_witness : appended (mkName (text "a") None false) [str "xy"; str "z"]
  (fst (end_of buffer_demo)) (state_after (fst (end_of buffer_demo)) append_a).
Proof.
  assert (H : append_a = Ok (TH8_OK, state_after (fst (end_of buffer_demo)) append_a)) by (apply ok_after; vm_compute; reflexivity).
  apply (append_in_place false seeds_init (fst (end_of buffer_demo)) (snd (end_of buffer_demo)) (str "a")).
  - exact buffer_demo_reachable.
  - reflexivity.
  - by repeat constructor.
  - exact H.
Defined.
