(* ===== verification/Cache.v ===== *)
(** * Cache: the cache of internal representations and the buffer pool.

    src/src/th8_cache.c.  A value is kept under its kind and the hash of its
    text, with a copy of the text to tell collisions; the pool keeps one freed
    buffer of each size class in the same cache.  The blocks that the cache owns
    are explicit: an entry, the copy of its text, the arrays of a list, a buffer.
    A platform may answer a refused allocation by clearing the cache
    (th8_mem.c), also in the middle of an operation of the cache. *)

From S2P Require Import Prelude Memory Strings Hash Lists VarTables.
From stdpp Require Import gmap.
#[local] Open Scope Z_scope.
#[local] Open Scope res_scope.

(** Undefined behaviour of C, a lock that its owner waits for, a member of the
    union that was not stored, and a failed [ALWAYS] of a debug build. *)
Inductive cache_fault : Type :=
| UseAfterFree | DoubleFree | NullDeref | OutOfBounds | Deadlock | WrongMember | AssertFailed.

Definition TH8_CACHE_INT : Z := 1.
Definition TH8_CACHE_WIDE : Z := 2.
Definition TH8_CACHE_DOUBLE : Z := 3.
Definition TH8_CACHE_BIGINT : Z := 4.
Definition TH8_CACHE_BOOL : Z := 5.
Definition TH8_CACHE_STRING : Z := 7.
Definition TH8_CACHE_LIST : Z := 8.
Definition TH8_CACHE_COMMAND : Z := 9.
Definition TH8_CACHE_DICT : Z := 10.
Definition TH8_CACHE_BUFFER : Z := 11.

(** ** Keys *)

(** FNV-1a. *)
Definition th8CacheHashBytes (z : bytes) : Z :=
  fold_left (λ h c, wrap 64 (Z.lxor h c * 1099511628211)) z 14695981039346656037.

Definition th8CacheHashList (es : list bytes) : Z :=
  fold_left (λ h e, Z.lxor (rotl64 5 h) (th8CacheHashBytes e)) es (wrap 32 (zlen es)).

Definition key_byte (x : Z) (k : Z) : Z := Z.land (Z.shiftr x (8 * k)) 255.

Definition th8CacheEncodeKey (cacheType hashCode : Z) : bytes :=
  map (key_byte cacheType) [0; 1; 2; 3] ++ map (key_byte hashCode) [0; 1; 2; 3; 4; 5; 6; 7].

Definition text_key (t : Z) (z : bytes) : bytes := th8CacheEncodeKey t (th8CacheHashBytes z).
Definition list_key (t : Z) (es : list bytes) : bytes := th8CacheEncodeKey t (th8CacheHashList es).

(** ** Data *)

(** The union of a value: zeroed, the member of a conversion to a number, of a
    split list, of a big integer, of a buffer.  A member but the last is stored
    together with its flag. *)
Inductive rep : Type :=
| RNone
| RNumber (cacheType iValue : Z)
| RSplit (azElem nElem : Z)
| RBigint (pBigint : Z)
| RBuffer (pBuffer nUsed nCapacity : Z).

Record Th8_Value : Type := mkValue { zData : Z; nData : Z; u : rep }.

(** Pointers are addresses of blocks; 0 is NULL.  The lengths of the elements lie in
    the block of their pointers. *)
Record Th8_CacheEntry : Type := mkCache {
  cacheType : Z; zOriginal : Z; nOriginal : Z; value : Th8_Value; azListElem : Z; nListElem : Z
}.
Definition set_value (v : Th8_Value) (e : Th8_CacheEntry) : Th8_CacheEntry :=
  mkCache (cacheType e) (zOriginal e) (nOriginal e) v (azListElem e) (nListElem e).
Definition set_rep (r : rep) (e : Th8_CacheEntry) : Th8_CacheEntry :=
  set_value (mkValue (zData (value e)) (nData (value e)) r) e.

(** The arrays of a list hold pointers, lengths and texts in one block. *)
Inductive block : Type :=
| BEntry (e : Th8_CacheEntry)
| BBytes (z : bytes)
| BArrays (es : list bytes)
| BBigint
| BValue (v : Th8_Value).

#[export] Instance rep_eq_dec : EqDecision rep.
Proof. solve_decision. Defined.
#[export] Instance value_eq_dec : EqDecision Th8_Value.
Proof. solve_decision. Defined.
#[export] Instance cache_entry_eq_dec : EqDecision Th8_CacheEntry.
Proof. solve_decision. Defined.
#[export] Instance block_eq_dec : EqDecision block.
Proof. solve_decision. Defined.

Inductive cache_site : Type :=
| CTable | CSlot | CEntry | CBytes (n : Z) | CArrays (n : Z) | CBigint | CValue.

Class CacheEnv (I : Type) : Type := {
  cache_lists :: ListInterp I;
  cache_alloc : I → cache_site → bool * I;
  cache_result : I → option bytes → Z → I          (* Th8_SetResult *)
}.

Record cache (I : Type) : Type := mkState {
  paCache : option Th8_Hash;
  nTable : Z;                       (* counts the tables that were deleted *)
  blocks : gmap Z block;
  nNext : Z;
  nLocked : Z;                      (* how often the mutex is held *)
  env : I
}.
Arguments mkState {I}.
Arguments paCache {I}.
Arguments nTable {I}.
Arguments blocks {I}.
Arguments nNext {I}.
Arguments nLocked {I}.
Arguments env {I}.

Definition cstring : Type := (bytes * Z)%type.
Definition TH8_NOLEN : Z := 2 ^ 64 - 1.

Definition Th8_Strlen (z : bytes) : res cache_fault Z :=
  let n := span (λ c, negb (c =? 0)) z in
  if (n <? length z)%nat then Ok (Z.of_nat n) else Err OutOfBounds.

Definition read (z : bytes) (n : Z) : res cache_fault bytes :=
  if zlen z <? n then Err OutOfBounds else Ok (take (Z.to_nat n) z).

Section cache.
Context (debug need_memory ready recursive : bool) (sd : seeds) {I : Type} `{CE : CacheEnv I}.
Implicit Types c : cache I.

Definition ALWAYS (b : bool) : res cache_fault bool :=
  if b then Ok true else if debug then Err AssertFailed else Ok false.

Definition set_table (h : option Th8_Hash) (n : Z) c : cache I :=
  mkState h n (blocks c) (nNext c) (nLocked c) (env c).
Definition set_blocks (m : gmap Z block) c : cache I :=
  mkState (paCache c) (nTable c) m (nNext c) (nLocked c) (env c).
Definition set_locked (n : Z) c : cache I :=
  mkState (paCache c) (nTable c) (blocks c) (nNext c) n (env c).
Definition set_env (i : I) c : cache I :=
  mkState (paCache c) (nTable c) (blocks c) (nNext c) (nLocked c) i.

(** ** Blocks *)

Definition put (p : Z) (b : block) c : cache I := set_blocks (<[p := b]> (blocks c)) c.
Definition new_block (b : block) c : Z * cache I :=
  (nNext c, mkState (paCache c) (nTable c) (<[nNext c := b]> (blocks c)) (nNext c + 1) (nLocked c) (env c)).

Definition block_at (p : Z) c : res cache_fault block :=
  if p =? 0 then Err NullDeref else match blocks c !! p with Some b => Ok b | None => Err UseAfterFree end.
Definition entry_at (p : Z) c : res cache_fault Th8_CacheEntry :=
  let* b := block_at p c in match b with BEntry e => Ok e | _ => Err UseAfterFree end.
Definition bytes_at (p : Z) c : res cache_fault bytes :=
  let* b := block_at p c in match b with BBytes z => Ok z | _ => Err UseAfterFree end.
Definition arrays_at (p : Z) c : res cache_fault (list bytes) :=
  let* b := block_at p c in match b with BArrays es => Ok es | _ => Err UseAfterFree end.

Definition Th8_Free (p : Z) c : res cache_fault (cache I) :=
  if p =? 0 then Ok c
  else match blocks c !! p with
       | Some _ => Ok (set_blocks (delete p (blocks c)) c)
       | None => Err DoubleFree
       end.

(** ** The lock *)

Definition th8CacheMutexEnter c : res cache_fault (cache I) :=
  if ready then
    if (0 <? nLocked c) && negb recursive then Err Deadlock else Ok (set_locked (nLocked c + 1) c)
  else Ok c.
Definition th8CacheMutexLeave c : cache I := if ready then set_locked (nLocked c - 1) c else c.

(** ** Releasing *)

(** The pointer that the union owns, by the kind of the entry. *)
Definition owned_rep (e : Th8_CacheEntry) : res cache_fault Z :=
  if (cacheType e =? TH8_CACHE_LIST) || (cacheType e =? TH8_CACHE_DICT) then
    match u (value e) with
    | RNone => Ok 0
    | RSplit az _ => let* b := ALWAYS (negb (az =? 0)) in Ok (if b then az else 0)
    | _ => Err WrongMember
    end
  else if cacheType e =? TH8_CACHE_BIGINT then
    match u (value e) with RNone => Ok 0 | RBigint p => Ok p | _ => Err WrongMember end
  else if cacheType e =? TH8_CACHE_BUFFER then
    match u (value e) with RNone => Ok 0 | RBuffer p _ _ => Ok p | _ => Err WrongMember end
  else Ok 0.

Definition th8CacheEntryFree (p : Z) c : res cache_fault (cache I) :=
  let* e := entry_at p c in
  let* c := Th8_Free (azListElem e) c in
  let* q := owned_rep e in
  let* c := Th8_Free q c in
  let* c := Th8_Free (zOriginal e) c in
  Th8_Free p c.

(** The entries of the table are about to be deleted with it. *)
Definition th8CacheFreeCallback (p : Th8_HashEntry) (m : res cache_fault (cache I)) : Z * res cache_fault (cache I) :=
  (TH8_OK, let* c := m in if pData p =? 0 then Ok c else th8CacheEntryFree (pData p) c).

Definition th8ClearCache c : res cache_fault (cache I) :=
  let* c := th8CacheMutexEnter c in
  let* c :=
    match paCache c with
    | Some h =>
        let* c := Th8_HashIterate th8CacheFreeCallback (Some h) (Ok c) in
        Ok (set_table None (nTable c + 1) c)
    | None => Ok c
    end in
  Ok (th8CacheMutexLeave c).

(** ** Allocating *)

Definition ask (site : cache_site) c : bool * cache I :=
  let '(ok, i) := cache_alloc (env c) site in (ok, set_env i c).

(** Where the platform says so, a refusal clears the cache and is asked again. *)
Definition TH8_ALLOC (site : cache_site) c : res cache_fault (bool * cache I) :=
  let '(ok, c) := ask site c in
  if ok then Ok (true, c)
  else if need_memory then let* c := th8ClearCache c in Ok (ask site c)
  else Ok (false, c).

(** ** Finding *)

Definition th8CacheGetHash c : res cache_fault (bool * cache I) :=
  match paCache c with
  | Some _ => Ok (true, c)
  | None =>
      let* (ok, c) := TH8_ALLOC CTable c in
      Ok (ok, if ok then set_table (Some Th8_HashNew) (nTable c) c else c)
  end.

(** The entry of a key in the table, made if it is missing: the table it is in and
    its data.  A new one is linked after it was allocated. *)
Definition find_slot (key : bytes) c : res cache_fault (option (Z * Z) * cache I) :=
  match paCache c with
  | None => Err NullDeref
  | Some h =>
      match fst (Th8_HashFind sd h key 0 true) with
      | Some p => Ok (Some (nTable c, pData p), c)
      | None =>
          let n := nTable c in
          let* (ok, c) := TH8_ALLOC CSlot c in
          if negb ok then Ok (None, c)
          else match paCache c with
               | Some h =>
                   if nTable c =? n then
                     Ok (Some (n, 0), set_table (Some (snd (Th8_HashFind sd h key 1 true))) n c)
                   else Err UseAfterFree
               | None => Err UseAfterFree
               end
      end
  end.

(** A store through the pointer to a table entry. *)
Definition slot_write (n : Z) (key : bytes) (d : Z) c : res cache_fault (cache I) :=
  match paCache c with
  | Some h => if nTable c =? n then Ok (set_table (Some (set_data sd h key d)) n c) else Err UseAfterFree
  | None => Err UseAfterFree
  end.

(** The common part of both ways to find a value: a match is a hit, anything else
    is evicted, and a new entry takes its place.  The address of the entry, 0 for
    NULL. *)
Definition find_locked (matches : Th8_CacheEntry → cache I → res cache_fault bool)
    (create : cache I → res cache_fault (Z * cache I)) (key : bytes) c : res cache_fault (Z * cache I) :=
  let* (ok, c) := th8CacheGetHash c in
  if negb ok then Ok (0, c)
  else
    let* (s, c) := find_slot key c in
    match s with
    | None => Ok (0, c)
    | Some (n, p) =>
        let* (hit, c) :=
          if p =? 0 then Ok (false, c)
          else
            let* e := entry_at p c in
            let* m := matches e c in
            if m then Ok (true, c)
            else
              let* c := th8CacheEntryFree p c in
              let* c := slot_write n key 0 c in
              Ok (false, c) in
        if hit then Ok (p, c)
        else
          let* (p, c) := create c in
          if p =? 0 then Ok (0, c) else let* c := slot_write n key p c in Ok (p, c)
    end.

Definition text_matches (t : Z) (z : bytes) (e : Th8_CacheEntry) c : res cache_fault bool :=
  if (cacheType e =? t) && (nOriginal e =? zlen z) then
    if zlen z =? 0 then Ok true
    else
      let* b := bytes_at (zOriginal e) c in
      let* b := read b (zlen z) in
      Ok (bool_decide (b = z))
  else Ok false.

(** A new entry with the copy of its text. *)
Definition create_text (t : Z) (z : bytes) c : res cache_fault (Z * cache I) :=
  let* (ok, c) := TH8_ALLOC CEntry c in
  if negb ok then Ok (0, c)
  else
    let '(p, c) := new_block (BEntry (mkCache t 0 0 (mkValue 0 0 RNone) 0 0)) c in
    let* (ok, c) := TH8_ALLOC (CBytes (zlen z + 1)) c in
    if negb ok then let* c := Th8_Free p c in Ok (0, c)
    else
      let '(q, c) := new_block (BBytes (z ++ [0])) c in
      Ok (p, put p (BEntry (mkCache t q (zlen z) (mkValue q (zlen z) RNone) 0 0)) c).

Definition Th8_FindInCache (t : Z) (str : cstring) c : res cache_fault (Z * cache I) :=
  let* n := if snd str =? TH8_NOLEN then Th8_Strlen (fst str) else Ok (snd str) in
  let* z := read (fst str) n in
  let* c := th8CacheMutexEnter c in
  let* (p, c) := find_locked (text_matches t z) (create_text t z) (text_key t z) c in
  Ok (p, th8CacheMutexLeave c).

Definition th8RemoveFromCache (t : Z) (str : cstring) c : res cache_fault (cache I) :=
  let* n := if snd str =? TH8_NOLEN then Th8_Strlen (fst str) else Ok (snd str) in
  let* z := read (fst str) n in
  let key := text_key t z in
  let* c := th8CacheMutexEnter c in
  let* c :=
    match paCache c with
    | Some h =>
        match fst (Th8_HashFind sd h key 0 true) with
        | Some p =>
            if pData p =? 0 then Ok c
            else
              let* c := th8CacheEntryFree (pData p) c in
              Ok (set_table (Some (Th8_HashRemove sd h key)) (nTable c) c)
        | None => Ok c
        end
    | None => Ok c
    end in
  Ok (th8CacheMutexLeave c).

(** ** Lists as keys *)

(** The elements, without the tags of their lengths. *)
Fixpoint raw_elements (es : list cstring) : res cache_fault (list bytes) :=
  match es with
  | [] => Ok []
  | e :: es => let* z := read (fst e) (TH8_LEN (snd e)) in let* l := raw_elements es in Ok (z :: l)
  end.

Definition list_matches (t : Z) (es : list bytes) (e : Th8_CacheEntry) c : res cache_fault bool :=
  if (cacheType e =? t) && (nListElem e =? zlen es) then
    let* l := arrays_at (azListElem e) c in Ok (bool_decide (l = es))
  else Ok false.

(** The string is for the caller to set. *)
Definition create_list (t : Z) (es : list bytes) c : res cache_fault (Z * cache I) :=
  let* (ok, c) := TH8_ALLOC CEntry c in
  if negb ok then Ok (0, c)
  else
    let '(p, c) := new_block (BEntry (mkCache t 0 0 (mkValue 0 0 RNone) 0 0)) c in
    match arrays_size (zlen es) (text_size es) with
    | None => let* c := Th8_Free p c in Ok (0, c)
    | Some nAlloc =>
        let* (ok, c) := TH8_ALLOC (CArrays nAlloc) c in
        if negb ok then let* c := Th8_Free p c in Ok (0, c)
        else
          let '(q, c) := new_block (BArrays es) c in
          Ok (p, put p (BEntry (mkCache t 0 0 (mkValue 0 0 RNone) q (zlen es))) c)
    end.

Definition th8FindListInCache (t : Z) (elems : list cstring) c : res cache_fault (Z * cache I) :=
  match elems with
  | [] => Th8_FindInCache t ([], 0) c
  | _ =>
      let* es := raw_elements elems in
      let* c := th8CacheMutexEnter c in
      let* (p, c) := find_locked (list_matches t es) (create_list t es) (list_key t es) c in
      Ok (p, th8CacheMutexLeave c)
  end.

(** The string of an entry that has none. *)
Definition th8SetCacheString (p : Z) (str : cstring) c : res cache_fault (cache I) :=
  let* e := entry_at p c in
  if negb (zData (value e) =? 0) then Ok c
  else
    let* n := if snd str =? TH8_NOLEN then Th8_Strlen (fst str) else Ok (TH8_LEN (snd str)) in
    let* (ok, c) := TH8_ALLOC (CBytes (n + 1)) c in
    if negb ok then Ok c
    else
      let* z := read (fst str) n in
      let '(q, c) := new_block (BBytes (z ++ [0])) c in
      let* e := entry_at p c in
      Ok (put p (BEntry (mkCache (cacheType e) q n (mkValue q n (u (value e))) (azListElem e) (nListElem e))) c).

(** ** Copies of values *)

Definition th8CopyValue (src : Th8_Value) c : res cache_fault (Z * cache I) :=
  let* (ok, c) := TH8_ALLOC CValue c in
  if negb ok then Ok (0, c)
  else
    let '(p, c) := new_block (BValue (mkValue 0 0 RNone)) c in
    if negb (zData src =? 0) && (0 <? nData src) then
      let* (ok, c) := TH8_ALLOC (CBytes (nData src + 1)) c in
      if negb ok then let* c := Th8_Free p c in Ok (0, c)
      else
        let* b := bytes_at (zData src) c in
        let* z := read b (nData src) in
        let '(q, c) := new_block (BBytes (z ++ [0])) c in
        Ok (p, put p (BValue (mkValue q (nData src) RNone)) c)
    else Ok (p, c).

Definition th8FreeValue (p : Z) c : res cache_fault (cache I) :=
  if p =? 0 then Ok c
  else
    let* b := block_at p c in
    match b with
    | BValue v => let* c := Th8_Free (zData v) c in Th8_Free p c
    | _ => Err UseAfterFree
    end.

(** ** The pool *)

Definition TH8_POOL_MIN_CLASS : Z := 32.
Definition TH8_POOL_NUM_CLASSES : Z := 12.

(** The loop ends at the last class. *)
Fixpoint class_loop (fuel : nat) (nBytes nClass idx : Z) : Z * Z :=
  match fuel with
  | O => (nClass, idx)
  | S fuel =>
      if (nClass <? nBytes) && (idx <? TH8_POOL_NUM_CLASSES - 1) then class_loop fuel nBytes (nClass * 2) (idx + 1)
      else (nClass, idx)
  end.

(** The class and its size; [None] for what is too large. *)
Definition th8BufferClassIndex (nBytes : Z) : option (Z * Z) :=
  let '(nClass, idx) := class_loop 12 nBytes TH8_POOL_MIN_CLASS 0 in
  if nClass <? nBytes then None else Some (idx, nClass).

Definition th8BufferPoolKey (idx : Z) : bytes := [0; "P"%ch; 48 + idx / 10; 48 + idx mod 10].

Definition buffer_of (e : Th8_CacheEntry) : res cache_fault (Z * Z * Z) :=
  match u (value e) with
  | RNone => Ok (0, 0, 0)
  | RBuffer p n k => Ok (p, n, k)
  | _ => Err WrongMember
  end.

Definition zeros (n : Z) : bytes := replicate (Z.to_nat n) 0.

Definition fresh_buffer (n : Z) c : res cache_fault (Z * cache I) :=
  let* (ok, c) := TH8_ALLOC (CBytes n) c in
  Ok (if ok then new_block (BBytes (zeros n)) c else (0, c)).

Definition th8BufferAlloc (nBytes : Z) c : res cache_fault (Z * cache I) :=
  let nBytes := if nBytes =? 0 then 1 else nBytes in
  match th8BufferClassIndex nBytes with
  | None => fresh_buffer nBytes c
  | Some (idx, nClass) =>
      let* (p, c) := Th8_FindInCache TH8_CACHE_BUFFER (th8BufferPoolKey idx, 4) c in
      if p =? 0 then fresh_buffer nClass c
      else
        let* e := entry_at p c in
        let* (q, _, nCapacity) := buffer_of e in
        if negb (q =? 0) && (nBytes <=? nCapacity) then
          let c := put p (BEntry (set_rep (RBuffer 0 0 nCapacity) e)) c in
          let* b := bytes_at q c in
          if zlen b <? nClass then Err OutOfBounds
          else Ok (q, put q (BBytes (zeros nClass ++ drop (Z.to_nat nClass) b)) c)
        else fresh_buffer nClass c
  end.

(** The size is the one the buffer was asked with. *)
Definition th8BufferFree (p nBytes : Z) c : res cache_fault (cache I) :=
  if p =? 0 then Ok c
  else
    let nBytes := if nBytes =? 0 then 1 else nBytes in
    match th8BufferClassIndex nBytes with
    | None => Th8_Free p c
    | Some (idx, nClass) =>
        let* (e0, c) := Th8_FindInCache TH8_CACHE_BUFFER (th8BufferPoolKey idx, 4) c in
        if e0 =? 0 then Th8_Free p c
        else
          let* e := entry_at e0 c in
          let* (q, _, _) := buffer_of e in
          if q =? 0 then Ok (put e0 (BEntry (set_rep (RBuffer p 0 nClass) e)) c)
          else Th8_Free p c
    end.

(** ** What the conversions and the lists keep *)

Definition number_of (t : Z) (r : rep) : res cache_fault (option Z) :=
  match r with
  | RNone => Ok None
  | RNumber t' v => if t' =? t then Ok (Some v) else Err WrongMember
  | _ => Err WrongMember
  end.

(** The value of a conversion, [None] if it is not there; and its store. *)
Definition find_number (t : Z) (str : cstring) c : res cache_fault (option (option Z) * cache I) :=
  let* (p, c) := Th8_FindInCache t str c in
  if p =? 0 then Ok (None, c)
  else let* e := entry_at p c in let* v := number_of t (u (value e)) in Ok (Some v, c).

Definition store_number (t : Z) (str : cstring) (v : Z) c : res cache_fault (cache I) :=
  let* (p, c) := Th8_FindInCache t str c in
  if p =? 0 then Ok c
  else let* e := entry_at p c in Ok (put p (BEntry (set_rep (RNumber t v) e)) c).

Definition split_of (r : rep) : res cache_fault (option (Z * Z)) :=
  match r with
  | RNone => Ok None
  | RSplit az n => Ok (Some (az, n))
  | _ => Err WrongMember
  end.

(** A hit of Th8_SplitList: the elements of a valid entry are copied for the
    caller.  Whether the entry is valid, and the copy, 0 without one. *)
Definition copy_split (str : cstring) c : res cache_fault (bool * Z * cache I) :=
  let* (p, c) := Th8_FindInCache TH8_CACHE_LIST str c in
  if p =? 0 then Ok (false, 0, c)
  else
    let* e := entry_at p c in
    let* v := split_of (u (value e)) in
    match v with
    | None => Ok (false, 0, c)
    | Some (az, nE) =>
        if TH8_MAX_LIST_ELEMENTS <? nE then Ok (true, 0, c)
        else
          let* es := if nE =? 0 then Ok [] else arrays_at az c in
          match arrays_size nE (text_size es) with
          | None => Ok (true, 0, c)
          | Some nAlloc =>
              if nAlloc =? 0 then Ok (true, 0, c)
              else
                let* (ok, c) := TH8_ALLOC (CArrays nAlloc) c in
                if negb ok then Ok (true, 0, c)
                else
                  let* es := arrays_at az c in
                  let '(q, c) := new_block (BArrays es) c in Ok (true, q, c)
          end
    end.

(** The end of Th8_SplitList: the elements of a text that was split are kept,
    unless they are; none, where the caller did not ask for their number. *)
Definition store_split (str : cstring) (es : list bytes) c : res cache_fault (cache I) :=
  let* (p, c) := Th8_FindInCache TH8_CACHE_LIST str c in
  if p =? 0 then Ok c
  else
    let* e := entry_at p c in
    let* v := split_of (u (value e)) in
    match v, es with
    | Some _, _ => Ok c
    | None, [] => Ok (put p (BEntry (set_rep (RSplit 0 0) e)) c)
    | None, _ =>
        match arrays_size (zlen es) (text_size es) with
        | None => Ok c
        | Some nAlloc =>
            let* (ok, c) := TH8_ALLOC (CArrays nAlloc) c in
            if negb ok then Ok c
            else
              let '(q, c) := new_block (BArrays es) c in
              let* e := entry_at p c in
              Ok (put p (BEntry (set_rep (RSplit q (zlen es)) e)) c)
        end
    end.

(** ** Joining a list *)

(** A failure to append is not looked at. *)
Fixpoint append_all_args (char_signed : bool) (spilornis_ok : Z → bool) (i : I) (list : bytes * Z) (args : Datatypes.list cstring)
    : (bytes * Z) * I :=
  match args with
  | [] => (list, i)
  | arg :: args =>
      let '(_, list, i) := Th8_ListAppend char_signed spilornis_ok i list arg in
      append_all_args char_signed spilornis_ok i list args
  end.

Definition args_tag (args : list cstring) : Z := foldr (λ a t, Z.lor (Z.land (snd a) TH8_TAG_BITS) t) 0 args.

(** The string of the elements comes from the cache, or is built and kept. *)
Definition list_command (char_signed : bool) (spilornis_ok : Z → bool) (args : list cstring) c : res cache_fault (Z * cache I) :=
  let nTag := args_tag args in
  let* (hit, c) :=
    match args with
    | [] => Ok (None, c)
    | _ =>
        let* (p, c) := th8FindListInCache TH8_CACHE_STRING args c in
        if p =? 0 then Ok (None, c)
        else
          let* e := entry_at p c in
          if zData (value e) =? 0 then Ok (None, c)
          else
            let* b := bytes_at (zData (value e)) c in
            let* z := read b (nData (value e)) in
            Ok (Some (z, nData (value e)), c)
    end in
  match hit with
  | Some (z, n) => Ok (TH8_OK, set_env (cache_result (env c) (Some z) (Z.lor n nTag)) c)
  | None =>
      let '(list, i) := append_all_args char_signed spilornis_ok (env c) ([], 0) args in
      let c := set_env i c in
      let* c :=
        match args, fst list with
        | _ :: _, _ :: _ =>
            let* (p, c) := th8FindListInCache TH8_CACHE_STRING args c in
            if p =? 0 then Ok c else th8SetCacheString p list c
        | _, _ => Ok c
        end in
      Ok (TH8_OK, set_env (cache_result (env c) (match fst list with [] => None | z => Some z end) (Z.lor (snd list) nTag)) c)
  end.
End cache.
