(* ===== verification/CacheInv.v ===== *)
(** * CacheInv: who owns the blocks of the cache.

    Every block has one owner: the table, for an entry; the entry, for the copy of
    its text, its arrays and what its union points to; the caller, for what was
    handed out. *)

From stdpp Require Import gmap.
From S2P Require Import Prelude Memory Strings Hash Lists VarTables Cache.
#[local] Open Scope Z_scope.
#[local] Open Scope res_scope.

Definition one (a x : Z) : Z := if decide (x = a) then 1 else 0.

(** What the union owns. *)
Definition rep_ptr (r : rep) : Z :=
  match r with RSplit az _ => az | RBigint p => p | RBuffer p _ _ => p | _ => 0 end.

Definition block_refs (a : Z) (b : block) : Z :=
  match b with
  | BEntry e => one a (azListElem e) + one a (rep_ptr (u (value e))) + one a (zOriginal e)
  | BValue v => one a (zData v)
  | _ => 0
  end.

Definition child (e : Th8_CacheEntry) (x : Z) : Prop :=
  x ≠ 0 ∧ (x = azListElem e ∨ x = rep_ptr (u (value e)) ∨ x = zOriginal e).

(** ** A well-formed entry *)

Definition text_is (bl : gmap Z block) (e : Th8_CacheEntry) (z : bytes) : Prop :=
  zOriginal e ≠ 0 ∧ bl !! zOriginal e = Some (BBytes (z ++ [0])) ∧ nOriginal e = zlen z ∧
  zData (value e) = zOriginal e ∧ nData (value e) = zlen z.

Definition no_text (e : Th8_CacheEntry) : Prop := zOriginal e = 0 ∧ nOriginal e = 0 ∧ zData (value e) = 0 ∧ nData (value e) = 0.

Definition elements_are (bl : gmap Z block) (e : Th8_CacheEntry) (es : list bytes) : Prop :=
  azListElem e ≠ 0 ∧ bl !! azListElem e = Some (BArrays es) ∧ nListElem e = zlen es.

Definition is_number (t : Z) : Prop :=
  t = TH8_CACHE_INT ∨ t = TH8_CACHE_WIDE ∨ t = TH8_CACHE_DOUBLE ∨ t = TH8_CACHE_BOOL.

(** The size of the buffers of a class. *)
Definition class_size (idx : Z) : Z := TH8_POOL_MIN_CLASS * 2 ^ idx.

(** The member of the union is the one of the kind. *)
Definition rep_ok (bl : gmap Z block) (e : Th8_CacheEntry) : Prop :=
  match u (value e) with
  | RNone => True
  | RNumber t _ => t = cacheType e ∧ is_number t
  | RSplit az n => cacheType e = TH8_CACHE_LIST ∧ az ≠ 0 ∧ ∃ es, bl !! az = Some (BArrays es) ∧ n = zlen es
  | RBigint p => cacheType e = TH8_CACHE_BIGINT ∧ (p ≠ 0 → bl !! p = Some BBigint)
  | RBuffer p _ _ => cacheType e = TH8_CACHE_BUFFER ∧ (p ≠ 0 → ∃ b, bl !! p = Some (BBytes b) ∧
      ∀ idx, 0 <= idx < 12 → bl !! zOriginal e = Some (BBytes (th8BufferPoolKey idx ++ [0])) → class_size idx <= zlen b)
  end.

(** It is found under its text, or under its elements. *)
Definition entry_ok (bl : gmap Z block) (k : bytes) (e : Th8_CacheEntry) : Prop :=
  1 <= cacheType e <= 11 ∧ rep_ok bl e ∧
  ((azListElem e = 0 ∧ nListElem e = 0 ∧ ∃ z, text_is bl e z ∧ k = text_key (cacheType e) z) ∨
   (cacheType e = TH8_CACHE_STRING ∧ ∃ es, es ≠ [] ∧ elements_are bl e es ∧ k = list_key (cacheType e) es ∧
     ((∃ z, text_is bl e z) ∨ no_text e))).

(** ** Ownership *)

Definition mine (U : gset Z) (a : Z) : Z := if decide (a ∈ U) then 1 else 0.
Definition alive (bl : gmap Z block) (a : Z) : Z := if decide (is_Some (bl !! a)) then 1 else 0.
Definition refs (D : gmap bytes Z) (bl : gmap Z block) (a : Z) : Z := count a D + msum (λ _, block_refs a) bl.

(** A block that owns nothing. *)
Definition leaf (b : block) : Prop := match b with BBytes _ | BArrays _ | BBigint => True | _ => False end.

(** [U] are the caller's blocks, [D] the entries under their keys. *)
Record good (U : gset Z) (D : gmap bytes Z) (bl : gmap Z block) (nx : Z) : Prop := {
  g_next : 0 < nx;
  g_addr : ∀ a b, bl !! a = Some b → 0 < a < nx;
  g_mine : ∀ a, a ∈ U → 0 < a;
  g_refs : ∀ a, 0 < a → refs D bl a + mine U a = alive bl a;
  g_top : ∀ a b, bl !! a = Some b → leaf b ∨ a ∈ U ∨ ∃ k, D !! k = Some a;
  g_entries : ∀ k a, D !! k = Some a → a = 0 ∨ ∃ e, bl !! a = Some (BEntry e) ∧ entry_ok bl k e
}.

Lemma one_nonneg a x : 0 <= one a x.
Proof. unfold one. case_decide; lia. Qed.
Lemma one_eq a : one a a = 1.
Proof. unfold one. by rewrite decide_True. Qed.
Lemma one_ne a x : x ≠ a → one a x = 0.
Proof. intros H. unfold one. by rewrite decide_False. Qed.

Lemma block_refs_nonneg a b : 0 <= block_refs a b.
Proof. destruct b; cbn; rewrite ?Z.add_0_r; pose proof one_nonneg; try lia; repeat apply Z.add_nonneg_nonneg; apply one_nonneg. Qed.

Lemma refs_nonneg a bl : 0 <= msum (λ _, block_refs a) bl.
Proof. apply msum_nonneg. intros. apply block_refs_nonneg. Qed.

Lemma refs_split a bl p b : bl !! p = Some b →
  msum (λ _, block_refs a) bl = block_refs a b + msum (λ _, block_refs a) (delete p bl).
Proof. apply (msum_delete (λ _, block_refs a)). Qed.

Lemma mine_bounds U a : 0 <= mine U a <= 1.
Proof. unfold mine. case_decide; lia. Qed.

Lemma alive_some bl a b : bl !! a = Some b → alive bl a = 1.
Proof. intros H. unfold alive. rewrite decide_True; [done|by eexists]. Qed.
Lemma alive_none bl a : bl !! a = None → alive bl a = 0.
Proof. intros H. unfold alive. rewrite decide_False; [done|]. rewrite H. by intros []. Qed.

Lemma child_refs e x : child e x → 1 <= block_refs x (BEntry e).
Proof.
  intros [Hx Hc]. cbn. pose proof (one_nonneg x (azListElem e)). pose proof (one_nonneg x (rep_ptr (u (value e)))).
  pose proof (one_nonneg x (zOriginal e)). destruct Hc as [E|[E|E]]; rewrite <- E, one_eq in *; lia.
Qed.

Lemma refs_child e x : x ≠ 0 → 1 <= block_refs x (BEntry e) → child e x.
Proof.
  intros Hx. cbn. unfold one. intros H. split; [done|]. repeat case_decide; first [lia|by eauto].
Qed.

(** ** Facts of a good cache *)

Section good.
Context (U : gset Z) (D : gmap bytes Z) (bl : gmap Z block) (nx : Z) (H : good U D bl nx).

Lemma good_fresh : bl !! nx = None.
Proof. destruct (bl !! nx) eqn:E; [|done]. pose proof (g_addr _ _ _ _ H nx _ E). lia. Qed.

Lemma fresh_refs : refs D bl nx = 0 ∧ (nx ∉ U).
Proof.
  pose proof (g_refs _ _ _ _ H nx (g_next _ _ _ _ H)) as Hr. rewrite (alive_none _ _ good_fresh) in Hr.
  pose proof (mine_bounds U nx). pose proof (count_nonneg nx D). pose proof (refs_nonneg nx bl).
  unfold refs in *. split; [lia|]. intros Hu. unfold mine in Hr. rewrite decide_True in Hr by done. lia.
Qed.

Lemma mine_live a : a ∈ U → ∃ b, bl !! a = Some b.
Proof.
  intros Ha. pose proof (g_refs _ _ _ _ H a (g_mine _ _ _ _ H a Ha)) as Hr. unfold mine in Hr. rewrite decide_True in Hr by done.
  pose proof (count_nonneg a D). pose proof (refs_nonneg a bl). unfold refs, alive in Hr. case_decide as Hl; [exact Hl|lia].
Qed.

(** A block that the caller owns is nobody's else. *)
Lemma mine_only a : a ∈ U → count a D = 0 ∧ ∀ p b, bl !! p = Some b → block_refs a b = 0.
Proof.
  intros Ha. pose proof (g_mine _ _ _ _ H a Ha) as Hp. pose proof (g_refs _ _ _ _ H a Hp) as Hr.
  destruct (mine_live a Ha) as [b0 Hb0]. rewrite (alive_some _ _ _ Hb0) in Hr. unfold mine in Hr. rewrite decide_True in Hr by done.
  pose proof (count_nonneg a D). pose proof (refs_nonneg a bl). unfold refs in Hr. split; [lia|].
  intros p b Hb. pose proof (refs_split a bl p b Hb). pose proof (refs_nonneg a (delete p bl)).
  pose proof (block_refs_nonneg a b). lia.
Qed.

(** Neither is one that a block owns. *)
Lemma owned_only p b x : bl !! p = Some b → 0 < x → 1 <= block_refs x b →
  block_refs x b = 1 ∧ is_Some (bl !! x) ∧ count x D = 0 ∧ (x ∉ U) ∧ ∀ p' b', bl !! p' = Some b' → p' ≠ p → block_refs x b' = 0.
Proof.
  intros Hb Hx Hr. pose proof (g_refs _ _ _ _ H x Hx) as Hc. unfold refs in Hc.
  pose proof (refs_split x bl p b Hb) as Hd. pose proof (refs_nonneg x (delete p bl)).
  pose proof (count_nonneg x D). pose proof (mine_bounds U x). unfold alive in Hc. case_decide as Hl; [|lia].
  split; [lia|]. split; [done|]. split; [lia|]. split.
  - intros Hu. unfold mine in Hc. rewrite decide_True in Hc by done. lia.
  - intros p' b' Hb' Hne. pose proof (refs_split x (delete p bl) p' b') as Hd'.
    rewrite lookup_delete_ne in Hd' by done. specialize (Hd' Hb'). pose proof (refs_nonneg x (delete p' (delete p bl))).
    pose proof (block_refs_nonneg x b'). lia.
Qed.

(** An entry is nobody's but the table's. *)
Lemma entry_only k a : D !! k = Some a → a ≠ 0 → count a D = 1 ∧ (a ∉ U) ∧ ∀ p b, bl !! p = Some b → block_refs a b = 0.
Proof.
  intros Hk Ha. destruct (g_entries _ _ _ _ H k a Hk) as [?|(e & He & _)]; [done|].
  pose proof (g_addr _ _ _ _ H a _ He) as Hp. pose proof (g_refs _ _ _ _ H a ltac:(lia)) as Hr.
  rewrite (alive_some _ _ _ He) in Hr. pose proof (count_positive a D k Hk). pose proof (refs_nonneg a bl).
  pose proof (mine_bounds U a). unfold refs in Hr. split; [lia|]. split.
  - intros Hu. unfold mine in Hr. rewrite decide_True in Hr by done. lia.
  - intros p b Hb. pose proof (refs_split a bl p b Hb). pose proof (refs_nonneg a (delete p bl)).
    pose proof (block_refs_nonneg a b). lia.
Qed.

(** It is under one key. *)
Lemma entry_key k1 k2 a : D !! k1 = Some a → D !! k2 = Some a → a ≠ 0 → k1 = k2.
Proof.
  intros H1 H2 Ha. destruct (decide (k1 = k2)) as [|Hne]; [done|]. destruct (entry_only k1 a H1 Ha) as [Hc _].
  pose proof (count_delete a D k1 a H1) as Hd. rewrite decide_True in Hd by done.
  assert (1 <= count a (delete k1 D)) by (apply (count_positive a _ k2); by rewrite lookup_delete_ne). lia.
Qed.
End good.

(** An entry depends on what it owns. *)
Lemma entry_ok_ext bl bl' k e : (∀ x b, child e x → bl !! x = Some b → bl' !! x = Some b) → 
  (∀ x b, child e x → bl' !! x = Some b → bl !! x = Some b) → entry_ok bl k e → entry_ok bl' k e.
Proof.
  intros Hx Hx' (Ht & Hr & Hk).
  assert (Htext : ∀ z, text_is bl e z → text_is bl' e z).
  { intros z (H1 & H2 & H3). split; [done|]. split; [|done]. apply Hx; [|done]. split; [done|by right; right]. }
  split; [done|]. split.
  - unfold rep_ok in *. destruct (u (value e)) as [|t v|az n|p|p n k'] eqn:E; [done|done|..].
    + destruct Hr as (? & Hz & es & Hes & ?). split; [done|]. split; [done|]. exists es. split; [|done].
      apply Hx; [|done]. split; [done|]. right; left. by rewrite E.
    + destruct Hr as (? & Hp). split; [done|]. intros Hz. apply Hx; [|by apply Hp]. split; [done|]. right; left. by rewrite E.
    + destruct Hr as (? & Hp). split; [done|]. intros Hz. destruct (Hp Hz) as (b & Hb & Hsz). exists b. split.
      * apply Hx; [|done]. split; [done|]. right; left. by rewrite E.
      * intros idx Hi Hbl. apply (Hsz idx Hi). destruct (decide (zOriginal e = 0)) as [Ez|Ez].
        -- exfalso. destruct Hk as [(_ & _ & z & (? & _) & _)|(Hs & es & _ & _ & _ & [[z (? & _)]|_])]; [done..|].
           unfold TH8_CACHE_BUFFER, TH8_CACHE_STRING in *. lia.
        -- apply Hx'; [|done]. split; [done|]. by right; right.
  - destruct Hk as [(? & ? & z & Hz & ?)|(? & es & ? & (H1 & H2 & H3) & ? & Hz)]; [left|right].
    + split_and!; [done|done|]. exists z. split; [by apply Htext|done].
    + split; [done|]. exists es. split_and!; [done| |done|].
      * split; [done|]. split; [|done]. apply Hx; [|done]. split; [done|by left].
      * destruct Hz as [[z Hz]|Hz]; [left|by right]. exists z. by apply Htext.
Qed.

(** What an entry owns is in memory and owns nothing. *)

Lemma leaf_refs b a : leaf b → block_refs a b = 0.
Proof. by destruct b. Qed.

Lemma child_leaf bl k e x : entry_ok bl k e → child e x → ∃ b, bl !! x = Some b ∧ leaf b.
Proof.
  intros (_ & Hr & Hk) [Hx Hc].
  assert (Ht : ∀ z, text_is bl e z → x = zOriginal e → ∃ b, bl !! x = Some b ∧ leaf b).
  { intros z (_ & Hz & _) ->. by eexists. }
  destruct Hc as [Hc|[Hc|Hc]].
  - destruct Hk as [(E & _)|(_ & es & _ & (_ & Hes & _) & _)]; [congruence|]. rewrite Hc. by eexists.
  - unfold rep_ok in Hr. destruct (u (value e)); cbn in Hc; subst x; [done|done|..].
    + destruct Hr as (_ & _ & es & Hes & _). by eexists.
    + destruct Hr as [_ Hp]. specialize (Hp Hx). by eexists.
    + destruct Hr as [_ Hp]. destruct (Hp Hx) as (b & Hb & _). by eexists.
  - destruct Hk as [(_ & _ & z & Hz & _)|(_ & es & _ & _ & _ & [[z Hz]|(E & _)])]; [by eapply Ht..|congruence].
Qed.

(** ** Steps *)

(** A change that leaves what the entries own. *)
Lemma entries_ext (D : gmap bytes Z) bl bl' :
  (∀ k a, D !! k = Some a → a = 0 ∨ ∃ e, bl !! a = Some (BEntry e) ∧ entry_ok bl k e) →
  (∀ k a e, D !! k = Some a → a ≠ 0 → bl !! a = Some (BEntry e) → bl' !! a = Some (BEntry e) ∧ ∀ x, child e x → bl' !! x = bl !! x) →
  ∀ k a, D !! k = Some a → a = 0 ∨ ∃ e, bl' !! a = Some (BEntry e) ∧ entry_ok bl' k e.
Proof.
  intros H Hext k a Hk. destruct (decide (a = 0)) as [|Ha]; [by left|right].
  destruct (H k a Hk) as [?|(e & He & Hok)]; [done|]. destruct (Hext k a e Hk Ha He) as [He' Hx]. exists e. split; [done|].
  eapply entry_ok_ext; [| |exact Hok]; intros x b Hc Hb; [by rewrite Hx|by rewrite <- Hx].
Qed.

Lemma alive_insert bl p b a : alive (<[p := b]> bl) a = if decide (a = p) then 1 else alive bl a.
Proof.
  unfold alive. destruct (decide (a = p)) as [->|Hne].
  - rewrite lookup_insert_eq. by rewrite decide_True by by eexists.
  - by rewrite lookup_insert_ne by done.
Qed.

Lemma alive_delete bl p a : alive (delete p bl) a = if decide (a = p) then 0 else alive bl a.
Proof.
  unfold alive. destruct (decide (a = p)) as [->|Hne].
  - rewrite lookup_delete_eq. rewrite decide_False; [done|by intros []].
  - by rewrite lookup_delete_ne by done.
Qed.

Lemma mine_union U p a : p ∉ U → mine ({[p]} ∪ U) a = mine U a + one a p.
Proof.
  intros Hp. unfold mine, one. repeat case_decide; try lia; exfalso; set_solver.
Qed.

Lemma mine_diff U p a : p ∈ U → mine (U ∖ {[p]}) a = mine U a - one a p.
Proof.
  intros Hp. unfold mine, one. repeat case_decide; try lia; exfalso; set_solver.
Qed.

(** A new block is the caller's. *)
Lemma good_alloc U D bl nx b : good U D bl nx → (∀ a, 0 < a → block_refs a b = 0) →
  good ({[nx]} ∪ U) D (<[nx := b]> bl) (nx + 1).
Proof.
  intros H Hb. pose proof (good_fresh U D bl nx H) as Hn. destruct (fresh_refs U D bl nx H) as [Hr Hu].
  pose proof (g_next _ _ _ _ H). split.
  - lia.
  - intros a b' [[<- _]|[_ Ha]]%lookup_insert_Some; [lia|]. pose proof (g_addr _ _ _ _ H a b' Ha). lia.
  - intros a [->%elem_of_singleton|Ha]%elem_of_union; [done|by eapply g_mine].
  - intros a Ha. unfold refs. rewrite msum_insert, alive_insert, mine_union by done. rewrite (Hb a Ha).
    pose proof (g_refs _ _ _ _ H a Ha) as Hc. unfold refs in Hc, Hr. destruct (decide (a = nx)) as [->|Hne].
    + rewrite one_eq. rewrite (alive_none _ _ Hn) in Hc. lia.
    + rewrite one_ne by done. lia.
  - intros a b' [[<- _]|[_ Ha]]%lookup_insert_Some; [right; left; set_solver|]. pose proof (g_top _ _ _ _ H a b' Ha). set_solver.
  - eapply entries_ext; [apply H|]. intros k a e Hk Ha He. split; [rewrite lookup_insert_ne; [done|congruence]|].
    intros x Hx. destruct (g_entries _ _ _ _ H k a Hk) as [?|(e' & He' & Hok)]; [done|]. assert (e' = e) as -> by congruence.
    destruct (child_leaf bl k e x Hok Hx) as (b' & Hb' & _). rewrite lookup_insert_ne; [done|congruence].
Qed.

(** A block of the caller that owns nothing is freed. *)
Lemma good_free U D bl nx p b : good U D bl nx → p ∈ U → bl !! p = Some b → (∀ a, 0 < a → block_refs a b = 0) →
  good (U ∖ {[p]}) D (delete p bl) nx.
Proof.
  intros H Hp Hb Hl. destruct (mine_only U D bl nx H p Hp) as [Hc Ho]. split.
  - apply H.
  - intros a b' [_ Ha]%lookup_delete_Some. by eapply g_addr.
  - intros a Ha. apply (g_mine _ _ _ _ H). set_solver.
  - intros a Ha. rewrite alive_delete, mine_diff by done. pose proof (g_refs _ _ _ _ H a Ha) as Hr. unfold refs in *.
    rewrite (refs_split a bl p b Hb), (Hl a Ha) in Hr. destruct (decide (a = p)) as [->|Hne].
    + rewrite (alive_some _ _ _ Hb) in Hr. rewrite one_eq. lia.
    + rewrite one_ne by done. lia.
  - intros a b' [Hne Ha]%lookup_delete_Some. pose proof (g_top _ _ _ _ H a b' Ha). set_solver.
  - eapply entries_ext; [apply H|]. intros k a e Hk Ha He.
    assert (Hap : a ≠ p). { intros ->. pose proof (count_positive p D k Hk). lia. }
    split; [by rewrite lookup_delete_ne by done|]. intros x Hx. apply lookup_delete_ne. intros <-.
    pose proof (child_refs e p Hx) as Hr. rewrite (Ho a _ He) in Hr. lia.
Qed.

(** The caller writes to a block of his. *)
Lemma good_write U D bl nx p b b' : good U D bl nx → p ∈ U → bl !! p = Some b → (∀ a, 0 < a → block_refs a b' = block_refs a b) →
  good U D (<[p := b']> bl) nx.
Proof.
  intros H Hp Hb Hl. destruct (mine_only U D bl nx H p Hp) as [Hc Ho]. split.
  - apply H.
  - intros a b2 [[<- _]|[_ Ha]]%lookup_insert_Some; by eapply g_addr.
  - apply H.
  - intros a Ha. rewrite alive_insert. pose proof (g_refs _ _ _ _ H a Ha) as Hr. unfold refs in *.
    rewrite (msum_update _ bl p b) by done. rewrite (Hl a Ha). destruct (decide (a = p)) as [->|Hne]; [|lia].
    rewrite (alive_some _ _ _ Hb) in Hr. lia.
  - intros a b2 [[<- _]|[_ Ha]]%lookup_insert_Some; [by right; left|by eapply g_top].
  - eapply entries_ext; [apply H|]. intros k a e Hk Ha He.
    assert (Hap : a ≠ p). { intros ->. pose proof (count_positive p D k Hk). lia. }
    split; [by rewrite lookup_insert_ne by done|]. intros x Hx. apply lookup_insert_ne. intros <-.
    pose proof (child_refs e p Hx) as Hr. rewrite (Ho a _ He) in Hr. lia.
Qed.

(** An entry without a value comes and goes. *)
Lemma good_slot U D bl nx k : good U D bl nx → D !! k = None → good U (<[k := 0]> D) bl nx.
Proof.
  intros H Hk. split; [apply H..| | |].
  - intros a Ha. unfold refs. rewrite count_insert by done. rewrite decide_False by lia.
    pose proof (g_refs _ _ _ _ H a Ha). unfold refs in *. lia.
  - intros a b Ha. destruct (g_top _ _ _ _ H a b Ha) as [?|[?|[k' Hk']]]; [by left|by right; left|right; right].
    exists k'. rewrite lookup_insert_ne; [done|congruence].
  - intros k' a [[<- <-]|[_ Hk']]%lookup_insert_Some; [by left|by apply H].
Qed.

Lemma good_unslot U D bl nx k : good U D bl nx → D !! k = Some 0 → good U (delete k D) bl nx.
Proof.
  intros H Hk. split; [apply H..| | |].
  - intros a Ha. unfold refs. rewrite (count_delete a D k 0) by done. rewrite decide_False by lia.
    pose proof (g_refs _ _ _ _ H a Ha). unfold refs in *. lia.
  - intros a b Ha. destruct (g_top _ _ _ _ H a b Ha) as [?|[?|[k' Hk']]]; [by left|by right; left|right; right].
    exists k'. rewrite lookup_delete_ne; [done|]. intros <-. pose proof (g_addr _ _ _ _ H a b Ha).
    assert (a = 0) by congruence. lia.
  - intros k' a [_ Hk']%lookup_delete_Some. by apply H.
Qed.

(** A block of the caller becomes an entry of the table, and an entry the caller's. *)
Lemma good_link U D bl nx k p e : good U D bl nx → D !! k = Some 0 → p ∈ U → bl !! p = Some (BEntry e) → entry_ok bl k e →
  good (U ∖ {[p]}) (<[k := p]> D) bl nx.
Proof.
  intros H Hk Hp He Hok. pose proof (g_mine _ _ _ _ H p Hp) as Hp0. split; [apply H..| | | |].
  - intros a Ha. apply (g_mine _ _ _ _ H). set_solver.
  - intros a Ha. rewrite mine_diff by done. unfold refs. rewrite (count_update a D k 0) by done. rewrite decide_False by lia.
    pose proof (g_refs _ _ _ _ H a Ha). unfold refs, one in *. repeat case_decide; lia.
  - intros a b Ha. destruct (decide (a = p)) as [->|Hne]; [right; right; exists k; apply lookup_insert_eq|].
    destruct (g_top _ _ _ _ H a b Ha) as [?|[?|[k' Hk']]]; [by left|right; left; set_solver|right; right].
    exists k'. rewrite lookup_insert_ne; [done|]. intros <-. pose proof (g_addr _ _ _ _ H a b Ha). assert (a = 0) by congruence. lia.
  - intros k' a [[<- <-]|[_ Hk']]%lookup_insert_Some; [right; by exists e|by apply H].
Qed.

Lemma good_unlink U D bl nx k p : good U D bl nx → D !! k = Some p → p ≠ 0 → good ({[p]} ∪ U) (<[k := 0]> D) bl nx.
Proof.
  intros H Hk Hp. destruct (entry_only U D bl nx H k p Hk Hp) as (_ & Hu & _). split; [apply H..| | | |].
  - intros a [->%elem_of_singleton|Ha]%elem_of_union; [|by eapply g_mine].
    destruct (g_entries _ _ _ _ H k p Hk) as [?|(e & He & _)]; [done|]. pose proof (g_addr _ _ _ _ H p _ He). lia.
  - intros a Ha. rewrite mine_union by done. unfold refs. rewrite (count_update a D k p) by done. rewrite (decide_False (P := 0 = a)) by lia.
    pose proof (g_refs _ _ _ _ H a Ha). unfold refs, one in *. repeat case_decide; lia.
  - intros a b Ha. destruct (decide (a = p)) as [->|Hne]; [right; left; set_solver|].
    destruct (g_top _ _ _ _ H a b Ha) as [?|[?|[k' Hk']]]; [by left|right; left; set_solver|right; right].
    exists k'. rewrite lookup_insert_ne; [done|congruence].
  - intros k' a [[<- <-]|[_ Hk']]%lookup_insert_Some; [by left|by apply H].
Qed.

(** An entry changes hands of what it owns. *)
Lemma good_entry U U' D bl nx p e e' : good U D bl nx → bl !! p = Some (BEntry e) →
  (∀ a, a ∈ U' → 0 < a) →
  (∀ a, 0 < a → block_refs a (BEntry e') + mine U' a = block_refs a (BEntry e) + mine U a) →
  (∀ k, D !! k = Some p → p ≠ 0 → entry_ok bl k e') →
  (∀ a, a ∈ U → a ∉ U' → ∃ b, bl !! a = Some b ∧ leaf b) →
  good U' D (<[p := BEntry e']> bl) nx.
Proof.
  intros H He HU Hr Hok Hleaf. pose proof (g_addr _ _ _ _ H p _ He) as Hp. split.
  - apply H.
  - intros a b [[<- _]|[_ Ha]]%lookup_insert_Some; by eapply g_addr.
  - done.
  - intros a Ha. rewrite alive_insert. pose proof (g_refs _ _ _ _ H a Ha) as Hc. unfold refs in *.
    rewrite (msum_update _ bl p (BEntry e)) by done. specialize (Hr a Ha).
    destruct (decide (a = p)) as [->|Hne]; [|lia]. rewrite (alive_some _ _ _ He) in Hc. lia.
  - assert (Htop : ∀ a b, bl !! a = Some b → leaf b ∨ a ∈ U' ∨ ∃ k, D !! k = Some a).
    { intros a b Ha. destruct (g_top _ _ _ _ H a b Ha) as [?|[Hu|?]]; [by left| |by right; right].
      destruct (decide (a ∈ U')) as [|Hn]; [by right; left|left]. destruct (Hleaf a Hu Hn) as (b' & Hb' & Hl). by simplify_eq. }
    intros a b [[<- <-]|[_ Ha]]%lookup_insert_Some; [|by apply (Htop a b)]. by destruct (Htop p _ He) as [[]|?]; right.
  - intros k a Hk. destruct (decide (a = 0)) as [|Ha]; [by left|right].
    assert (Hx : ∀ e2 k2 x, entry_ok bl k2 e2 → child e2 x → <[p := BEntry e']> bl !! x = bl !! x).
    { intros e2 k2 x Ho Hx. apply lookup_insert_ne. intros <-. destruct (child_leaf bl k2 e2 p Ho Hx) as (b & Hb & Hl).
      rewrite He in Hb. injection Hb as <-. done. }
    destruct (decide (a = p)) as [->|Hne].
    + exists e'. rewrite lookup_insert_eq. split; [done|]. pose proof (Hok k Hk ltac:(lia)) as Ho.
      eapply entry_ok_ext; [| |exact Ho]; intros x b Hc Hb; [by rewrite (Hx e' k)|by rewrite <- (Hx e' k)].
    + destruct (g_entries _ _ _ _ H k a Hk) as [?|(e2 & He2 & Ho)]; [done|]. exists e2. rewrite lookup_insert_ne by done.
      split; [done|]. eapply entry_ok_ext; [| |exact Ho]; intros x b Hc Hb; [by rewrite (Hx e2 k)|by rewrite <- (Hx e2 k)].
Qed.

(** ** Evicting *)

Definition drop_ptr (x : Z) (bl : gmap Z block) : gmap Z block := if decide (x = 0) then bl else delete x bl.
Definition ptr_set (x : Z) : gset Z := if decide (x = 0) then ∅ else {[x]}.

Lemma drop_ptr_ne x y bl : y ≠ x → drop_ptr x bl !! y = bl !! y.
Proof. intros H. unfold drop_ptr. case_decide; [done|]. by rewrite lookup_delete_ne. Qed.

Lemma drop_ptr_insert x p b bl : p ≠ x → drop_ptr x (<[p := b]> bl) = <[p := b]> (drop_ptr x bl).
Proof. intros H. unfold drop_ptr. case_decide; [done|]. by apply delete_insert_ne. Qed.

Lemma mine_ptr U x a : 0 < a → (x = 0 ∨ x ∉ U) → mine (ptr_set x ∪ U) a = mine U a + one a x.
Proof.
  intros Ha Hx. unfold ptr_set. case_decide as E.
  - rewrite one_ne by lia. rewrite (left_id_L ∅ (∪)). lia.
  - apply mine_union. naive_solver.
Qed.

Lemma good_drop U D bl nx x : good (ptr_set x ∪ U) D bl nx → (x = 0 ∨ (x ∉ U) ∧ ∃ b, bl !! x = Some b ∧ ∀ a, 0 < a → block_refs a b = 0) →
  good U D (drop_ptr x bl) nx.
Proof.
  intros H Hx. unfold ptr_set, drop_ptr in *. case_decide as E.
  - by rewrite (left_id_L ∅ (∪)) in H.
  - destruct Hx as [?|[Hu (b & Hb & Hl)]]; [done|]. eapply (good_free _ _ _ _ x) in H; [|set_solver|exact Hb|exact Hl].
    replace (({[x]} ∪ U) ∖ {[x]}) with U in H by set_solver. done.
Qed.

Definition blank (e : Th8_CacheEntry) : Th8_CacheEntry :=
  mkCache (cacheType e) 0 0 (mkValue 0 0 RNone) 0 0.

(** The children of an entry are three different blocks. *)
Lemma children_distinct U D bl nx p k e : good U D bl nx → bl !! p = Some (BEntry e) → entry_ok bl k e →
  let az := azListElem e in let q := rep_ptr (u (value e)) in let zo := zOriginal e in
  (∀ x, child e x → (x ∉ U) ∧ x ≠ p) ∧ (az ≠ 0 → az ≠ q ∧ az ≠ zo) ∧ (q ≠ 0 → q ≠ zo).
Proof.
  intros H He Hok. cbv zeta. assert (Hc : ∀ x, child e x → (x ∉ U) ∧ x ≠ p ∧ block_refs x (BEntry e) = 1).
  { intros x Hx. destruct (child_leaf bl k e x Hok Hx) as (b & Hb & Hl). pose proof (g_addr _ _ _ _ H x b Hb).
    destruct (owned_only U D bl nx H p _ x He ltac:(lia) (child_refs e x Hx)) as (H1 & _ & _ & H2 & _).
    split; [done|]. split; [|done]. intros ->. rewrite He in Hb. by injection Hb as <-. }
  split; [intros x Hx; by destruct (Hc x Hx) as (? & ? & _)|]. unfold block_refs in Hc. split.
  - intros Ha. destruct (Hc (azListElem e)) as (_ & _ & Hr); [split; [done|by left]|]. rewrite one_eq in Hr.
    pose proof (one_nonneg (azListElem e) (rep_ptr (u (value e)))). pose proof (one_nonneg (azListElem e) (zOriginal e)).
    split; intros E; rewrite <- E, one_eq in Hr; lia.
  - intros Hq E. destruct (Hc (rep_ptr (u (value e)))) as (_ & _ & Hr); [split; [done|by right; left]|]. rewrite <- E, !one_eq in Hr.
    pose proof (one_nonneg (rep_ptr (u (value e))) (azListElem e)). lia.
Qed.

Lemma ptr_set_spec x y : x ∈ ptr_set y ↔ x = y ∧ y ≠ 0.
Proof. unfold ptr_set. case_decide; set_solver. Qed.

Lemma good_evict U D bl nx k p e : good U D bl nx → D !! k = Some p → p ≠ 0 → bl !! p = Some (BEntry e) → entry_ok bl k e →
  good U (<[k := 0]> D) (delete p (drop_ptr (zOriginal e) (drop_ptr (rep_ptr (u (value e))) (drop_ptr (azListElem e) bl)))) nx.
Proof.
  intros H Hk Hp He Hok. destruct (children_distinct U D bl nx p k e H He Hok) as (Hc & Haz & Hq).
  destruct (entry_only U D bl nx H k p Hk Hp) as (_ & Hu & _).
  pose proof (λ x, child_leaf bl k e x Hok) as Hleaf. pose proof (g_addr _ _ _ _ H p _ He) as Hp0.
  pose proof (good_unlink U D bl nx k p H Hk Hp) as G. pose proof (g_mine _ _ _ _ G) as Hpos.
  unfold child in *. set (az := azListElem e) in *. set (q := rep_ptr _) in *. set (zo := zOriginal e) in *.
  assert (Hlive : ∀ x, x ≠ 0 → x = az ∨ x = q ∨ x = zo → (x ∉ U) ∧ x ≠ p ∧ 0 < x ∧
    ∃ b, <[p := BEntry (blank e)]> bl !! x = Some b ∧ ∀ a, 0 < a → block_refs a b = 0).
  { intros x Hx Hor. destruct (Hc x (conj Hx Hor)) as [H1 H2]. destruct (Hleaf x (conj Hx Hor)) as (b & Hb & Hl).
    pose proof (g_addr _ _ _ _ H x b Hb). split_and!; [done|done|lia|]. exists b. rewrite lookup_insert_ne by done.
    split; [done|]. intros a _. by apply leaf_refs. }
  apply (good_entry _ (ptr_set az ∪ (ptr_set q ∪ (ptr_set zo ∪ ({[p]} ∪ U)))) _ _ _ p e (blank e)) in G; [|done|..].
  - apply good_drop in G; [apply good_drop in G; [apply good_drop in G|]|].
    + rewrite !drop_ptr_insert in G; [|intros E; destruct (Hlive p); [lia|rewrite E; auto|tauto]..].
      eapply (good_free _ _ _ _ p) in G; [|set_solver|apply lookup_insert_eq|by intros a Ha; cbn; rewrite !one_ne by lia].
      rewrite delete_insert_eq in G. replace (({[p]} ∪ U) ∖ {[p]}) with U in G by set_solver. exact G.
    + destruct (decide (zo = 0)) as [|Hz]; [by left|right]. destruct (Hlive zo Hz) as (H1 & H2 & _ & b & Hb & Hl); [auto|].
      split; [set_solver|]. exists b. rewrite !drop_ptr_ne; [done| |]; intros E.
      * rewrite E in Hz. destruct (Haz Hz). congruence.
      * rewrite E in Hz. destruct (Hq Hz). congruence.
    + destruct (decide (q = 0)) as [|Hz]; [by left|right]. destruct (Hlive q Hz) as (H1 & H2 & _ & b & Hb & Hl); [auto|].
      split; [rewrite !elem_of_union, ptr_set_spec, elem_of_singleton; naive_solver|].
      exists b. rewrite drop_ptr_ne; [done|]. intros E. rewrite E in Hz. destruct (Haz Hz). congruence.
    + destruct (decide (az = 0)) as [|Hz]; [by left|right]. destruct (Hlive az Hz) as (H1 & H2 & _ & b & Hb & Hl); [auto|].
      split; [rewrite !elem_of_union, !ptr_set_spec, elem_of_singleton; naive_solver|]. by exists b.
  - intros a. rewrite !elem_of_union, !ptr_set_spec. intros [[-> Hz]|[[-> Hz]|[[-> Hz]|Ha]]]; [by destruct (Hlive _ Hz) as (_ & _ & ? & _); auto..|].
    apply Hpos. set_solver.
  - intros a Ha. rewrite !mine_ptr; [|done|..].
    + cbn. rewrite !one_ne by lia. fold az q zo. lia.
    + destruct (decide (zo = 0)) as [|Hz]; [by left|right]. destruct (Hlive zo Hz) as (? & ? & _); [auto|]. set_solver.
    + done.
    + destruct (decide (q = 0)) as [|Hz]; [by left|right]. destruct (Hlive q Hz) as (? & ? & _); [auto|].
      rewrite !elem_of_union, ptr_set_spec, elem_of_singleton; naive_solver.
    + done.
    + destruct (decide (az = 0)) as [|Hz]; [by left|right]. destruct (Hlive az Hz) as (? & ? & _); [auto|].
      rewrite !elem_of_union, !ptr_set_spec, elem_of_singleton; naive_solver.
  - intros k' Hk' _. exfalso. apply lookup_insert_Some in Hk' as [[_ ?]|[Hne Hk']]; [done|].
    by apply Hne, (entry_key U D bl nx H k k' p).
  - intros a Ha Hn. set_solver.
Qed.
