(* ===== verification/CacheFind.v ===== *)
(** * CacheFind: finding a value keeps the cache, and finds it.

    For a platform without th8_mem.c; with it, a refused allocation clears the
    cache that is being searched (CacheHost). *)

From stdpp Require Import gmap.
From S2P Require Import Prelude Memory Strings Hash Lists VarTables Cache CacheInv.
#[local] Open Scope Z_scope.
#[local] Open Scope res_scope.

(** An operation that ends, with its result. *)
Definition ends {A} (m : res cache_fault A) (Q : A → Prop) : Prop :=
  match m with Ok a => Q a | Err _ => False end.

Lemma ends_bind {A B} (m : res cache_fault A) (k : A → res cache_fault B) Q R :
  ends m Q → (∀ a, Q a → ends (k a) R) → ends (res_bind m k) R.
Proof. destruct m as [a|]; [|done]. intros HQ Hk. by apply Hk. Qed.

Lemma ends_weaken {A} (m : res cache_fault A) (Q R : A → Prop) : ends m Q → (∀ a, Q a → R a) → ends m R.
Proof. destruct m as [a|]; [|done]. intros HQ Hk. by apply Hk. Qed.

Section find.
Context (debug ready recursive : bool) (sd : seeds) {I : Type} `{CE : CacheEnv I}.
Implicit Types c : cache I.

#[local] Abbreviation TH8_ALLOC := (TH8_ALLOC debug false ready recursive).
#[local] Abbreviation th8CacheEntryFree := (th8CacheEntryFree debug).
#[local] Abbreviation find_locked := (find_locked debug false ready recursive sd).

Definition dict_of c : gmap bytes Z := match paCache c with Some h => dict h | None => ∅ end.

Record inv (L : Z) (U : gset Z) c : Prop := {
  i_good : good U (dict_of c) (blocks c) (nNext c);
  i_table : ∀ h, paCache c = Some h → table_ok sd h;
  i_lock : nLocked c = L
}.

(** The entry of a key. *)
Definition entry_of c (k : bytes) : option (Z * Th8_CacheEntry) :=
  match dict_of c !! k with
  | Some a => match blocks c !! a with Some (BEntry e) => Some (a, e) | _ => None end
  | None => None
  end.

(** What stays: the entries of other keys, with what they own, and the caller's
    blocks. *)
Record kept (U : gset Z) (k : bytes) c c' : Prop := {
  k_entry : ∀ k', k' ≠ k → entry_of c' k' = entry_of c k';
  k_child : ∀ k' a e x, k' ≠ k → entry_of c k' = Some (a, e) → child e x → blocks c' !! x = blocks c !! x;
  k_mine : ∀ x, x ∈ U → blocks c' !! x = blocks c !! x
}.

Lemma kept_refl U k c : kept U k c c.
Proof. done. Qed.

Lemma kept_trans U k c1 c2 c3 : kept U k c1 c2 → kept U k c2 c3 → kept U k c1 c3.
Proof.
  intros [E1 C1 M1] [E2 C2 M2]. split.
  - intros k' Hk. by rewrite E2, E1.
  - intros k' a e x Hk He Hx. transitivity (blocks c2 !! x); [apply (C2 k' a e); [done|by rewrite E1|done]|by apply (C1 k' a e)].
  - intros x Hx. by rewrite M2, M1.
Qed.

(** Only the environment is different. *)
Definition same_memory c c' : Prop :=
  paCache c' = paCache c ∧ nTable c' = nTable c ∧ blocks c' = blocks c ∧ nNext c' = nNext c ∧ nLocked c' = nLocked c.

Lemma same_inv L U c c' : same_memory c c' → inv L U c → inv L U c'.
Proof. intros (E1 & _ & E3 & E4 & E5) [H1 H2 H3]. split; unfold dict_of in *; rewrite ?E1, ?E3, ?E4, ?E5; done. Qed.

Lemma same_kept U k c c' : same_memory c c' → kept U k c c'.
Proof. intros (E1 & _ & E3 & _). split; unfold entry_of, dict_of; rewrite ?E1, ?E3; try done; intros; by rewrite ?E3. Qed.

Lemma alloc_ok site c : ∃ ok c', TH8_ALLOC site c = Ok (ok, c') ∧ same_memory c c'.
Proof.
  unfold Cache.TH8_ALLOC, ask. destruct (cache_alloc (env c) site) as [[] i]; eexists _, _; by split.
Qed.

Lemma live_entry L U c k a e : inv L U c → entry_of c k = Some (a, e) → dict_of c !! k = Some a ∧ a ≠ 0 ∧
  blocks c !! a = Some (BEntry e) ∧ entry_ok (blocks c) k e.
Proof.
  intros H. unfold entry_of. destruct (dict_of c !! k) as [b|] eqn:E; [|done].
  destruct (blocks c !! b) as [bk|] eqn:Eb; [|done]. destruct bk; try done. intros [= -> ->].
  pose proof (g_addr _ _ _ _ (i_good _ _ _ H) a _ Eb).
  destruct (g_entries _ _ _ _ (i_good _ _ _ H) k a E) as [?|(e' & He' & Hok)]; [lia|].
  assert (e' = e) as -> by congruence. split_and!; [done|lia|done|done].
Qed.

Lemma entry_here L U c k a : inv L U c → dict_of c !! k = Some a → a ≠ 0 → ∃ e, entry_of c k = Some (a, e).
Proof.
  intros H Hk Ha. destruct (g_entries _ _ _ _ (i_good _ _ _ H) k a Hk) as [?|(e & He & _)]; [done|].
  exists e. unfold entry_of. by rewrite Hk, He.
Qed.

Lemma no_entry c k : (∀ a, dict_of c !! k = Some a → a = 0) → (∀ a b, blocks c !! a = Some b → 0 < a) → entry_of c k = None.
Proof.
  intros H Hp. unfold entry_of. destruct (dict_of c !! k) as [a|] eqn:E; [|done]. rewrite (H a eq_refl).
  destruct (blocks c !! 0) eqn:E0; [|done]. pose proof (Hp _ _ E0). lia.
Qed.

Lemma block_pos L U c a b : inv L U c → blocks c !! a = Some b → 0 < a.
Proof. intros H Hb. pose proof (g_addr _ _ _ _ (i_good _ _ _ H) a b Hb). lia. Qed.

Lemma block_at_ok c p b : blocks c !! p = Some b → p ≠ 0 → block_at p c = Ok b.
Proof. intros H Hp. unfold block_at. rewrite (proj2 (Z.eqb_neq p 0) Hp). by rewrite H. Qed.

Lemma entry_at_ok c p e : blocks c !! p = Some (BEntry e) → p ≠ 0 → entry_at p c = Ok e.
Proof. intros H Hp. unfold entry_at. by rewrite (block_at_ok c p _ H Hp). Qed.

(** What an entry owns is no other's, and not the caller's. *)
Lemma others_stay L U c k p e k' a e' : inv L U c → k' ≠ k → entry_of c k = Some (p, e) → entry_of c k' = Some (a, e') →
  (a ≠ p ∧ ¬ child e a) ∧ ∀ x, child e' x → x ≠ p ∧ ¬ child e x.
Proof.
  intros H Hk He Ha. destruct (live_entry L U c k p e H He) as (Hd1 & Hz1 & Hbl1 & Hok1).
  destruct (live_entry L U c k' a e' H Ha) as (Hda & Hz & Hbl & Hok).
  assert (Hne : p ≠ a). { intros ->. by apply Hk, (entry_key _ _ _ _ (i_good _ _ _ H) k' k a). }
  split; [split; [done|]|].
  - intros Hc. destruct (child_leaf _ _ _ _ Hok1 Hc) as (b & Hb1 & Hl). rewrite Hbl in Hb1. by injection Hb1 as <-.
  - intros x Hx. destruct (child_leaf _ _ _ _ Hok Hx) as (b & Hb1 & Hl). split.
    + intros ->. rewrite Hbl1 in Hb1. by injection Hb1 as <-.
    + intros Hc. pose proof (g_addr _ _ _ _ (i_good _ _ _ H) x b Hb1) as Hx0.
      destruct (owned_only _ _ _ _ (i_good _ _ _ H) a _ x Hbl ltac:(lia) (child_refs e' x Hx)) as (_ & _ & _ & _ & Ho).
      pose proof (child_refs e x Hc) as Hr. rewrite (Ho p _ Hbl1 Hne) in Hr. lia.
Qed.

Lemma mine_stays L U c k p e x : inv L U c → entry_of c k = Some (p, e) → x ∈ U → x ≠ p ∧ ¬ child e x.
Proof.
  intros H He Hx. destruct (live_entry L U c k p e H He) as (Hd1 & Hz1 & Hbl1 & Hok1).
  destruct (children_distinct _ _ _ _ p k e (i_good _ _ _ H) Hbl1 Hok1) as (Hc & _).
  destruct (entry_only _ _ _ _ (i_good _ _ _ H) k p Hd1 Hz1) as (_ & Hu & _). split; [congruence|]. intros Hcx. by destruct (Hc x Hcx).
Qed.

(** ** Evicting *)

Lemma Free_ok x c : x = 0 ∨ is_Some (blocks c !! x) → Th8_Free x c = Ok (set_blocks (drop_ptr x (blocks c)) c).
Proof.
  intros H. unfold Th8_Free, drop_ptr. destruct (Z.eqb_spec x 0) as [->|Hx].
  - rewrite decide_True by done. by destruct c.
  - rewrite decide_False by done. destruct H as [?|[b ->]]; done.
Qed.

Lemma owned_rep_ok bl e k : entry_ok bl k e → owned_rep debug e = Ok (rep_ptr (u (value e))).
Proof.
  intros (_ & Hr & _). unfold rep_ok, owned_rep, is_number in *.
  destruct (u (value e)) as [|t v|az n|p|p n m]; cbn [rep_ptr].
  - by repeat case_if.
  - destruct Hr as [<- Hn]. unfold TH8_CACHE_LIST, TH8_CACHE_DICT, TH8_CACHE_BIGINT, TH8_CACHE_BUFFER, TH8_CACHE_INT, TH8_CACHE_WIDE,
      TH8_CACHE_DOUBLE, TH8_CACHE_BOOL in *. destruct Hn as [->|[->|[->| ->]]]; done.
  - destruct Hr as (-> & Hz & _). cbn. unfold ALWAYS. by rewrite (proj2 (Z.eqb_neq az 0) Hz).
  - by destruct Hr as [-> _].
  - by destruct Hr as [-> _].
Qed.

Definition evicted (p : Z) (e : Th8_CacheEntry) (bl : gmap Z block) : gmap Z block :=
  delete p (drop_ptr (zOriginal e) (drop_ptr (rep_ptr (u (value e))) (drop_ptr (azListElem e) bl))).

Lemma entry_free_ok U D bl nx k p e c : good U D bl nx → blocks c = bl → D !! k = Some p → p ≠ 0 → bl !! p = Some (BEntry e) → entry_ok bl k e →
  th8CacheEntryFree p c = Ok (set_blocks (evicted p e bl) c).
Proof.
  intros H <- Hk Hp He Hok. destruct (children_distinct _ _ _ _ p k e H He Hok) as (Hc & Haz & Hq).
  pose proof (λ x, child_leaf (blocks c) k e x Hok) as Hleaf. unfold child in *.
  assert (Hl : ∀ x, x = azListElem e ∨ x = rep_ptr (u (value e)) ∨ x = zOriginal e → x = 0 ∨ is_Some (blocks c !! x)).
  { intros x Hx. destruct (decide (x = 0)) as [|Hz]; [by left|right]. destruct (Hleaf x (conj Hz Hx)) as (b & Hb & _). by eexists. }
  unfold Cache.th8CacheEntryFree. rewrite (entry_at_ok c p e He Hp). cbn [res_bind].
  rewrite (Free_ok (azListElem e)) by (apply Hl; auto). cbn [res_bind]. rewrite (owned_rep_ok _ _ _ Hok). cbn [res_bind].
  rewrite (Free_ok (rep_ptr (u (value e)))).
  2: { cbn [blocks set_blocks]. destruct (Hl (rep_ptr (u (value e)))) as [?|Hs]; [auto|by left|].
       destruct (decide (rep_ptr (u (value e)) = 0)); [by left|right]. rewrite drop_ptr_ne; [done|]. intros E.
       rewrite E in *. by destruct Haz. }
  cbn [res_bind]. rewrite (Free_ok (zOriginal e)).
  2: { cbn [blocks set_blocks]. destruct (Hl (zOriginal e)) as [?|Hs]; [auto|by left|].
       destruct (decide (zOriginal e = 0)); [by left|right]. rewrite !drop_ptr_ne; [done| |]; intros E; rewrite E in *.
       - by destruct Haz. - by apply Hq. }
  cbn [res_bind]. rewrite (Free_ok p).
  2: { right. cbn [blocks set_blocks]. rewrite !drop_ptr_ne; [by eexists|..]; intros E.
       all: destruct (Hc p) as [_ ?]; [split; [done|]|done]; rewrite E; auto. }
  unfold evicted. cbn [blocks set_blocks]. unfold drop_ptr at 1. rewrite decide_False by done. by destruct c.
Qed.

Lemma evicted_ne p e bl x : x ≠ p → ¬ child e x → evicted p e bl !! x = bl !! x.
Proof.
  intros Hp Hc. unfold evicted, child in *. rewrite lookup_delete_ne by done.
  assert (H : ∀ y, y = azListElem e ∨ y = rep_ptr (u (value e)) ∨ y = zOriginal e → ∀ m : gmap Z block, drop_ptr y m !! x = m !! x).
  { intros y Hy m. destruct (decide (x = y)) as [->|]; [|by apply drop_ptr_ne].
    unfold drop_ptr. case_decide; [done|]. exfalso. by apply Hc. }
  by rewrite !H by auto.
Qed.

(** ** The table *)

(** A state with this table, these blocks and the lock as it was. *)
Record looks (D : gmap bytes Z) (bl : gmap Z block) (nx L : Z) c : Prop := {
  l_dict : dict_of c = D;
  l_blocks : blocks c = bl;
  l_next : nNext c = nx;
  l_lock : nLocked c = L;
  l_table : ∃ h, paCache c = Some h ∧ table_ok sd h
}.

Lemma looks_inv D bl nx L U c : looks D bl nx L c → good U D bl nx → inv L U c.
Proof. intros [<- <- <- <- (h & Hh & Ht)] H. split; [done| |done]. intros h' Hh'. rewrite Hh in Hh'. by injection Hh' as <-. Qed.

Lemma inv_looks L U c : inv L U c → is_Some (paCache c) → looks (dict_of c) (blocks c) (nNext c) L c.
Proof. intros H [h Hh]. split; [done..|apply H|]. exists h. split; [done|by apply (i_table _ _ _ H)]. Qed.

Lemma get_hash_ok L U c : inv L U c → ends (th8CacheGetHash debug false ready recursive c) (λ '(ok, c'),
  inv L U c' ∧ dict_of c' = dict_of c ∧ blocks c' = blocks c ∧ nNext c' = nNext c ∧
  if ok then is_Some (paCache c') else dict_of c' = ∅).
Proof.
  intros H. unfold th8CacheGetHash. destruct (paCache c) as [h|] eqn:E.
  - cbn. split_and!; [done..|]. rewrite E. by eexists.
  - destruct (alloc_ok CTable c) as (ok & c' & -> & Hs). cbn [res_bind ends]. pose proof (same_inv _ _ _ _ Hs H) as H'.
    destruct Hs as (E1 & _ & E3 & E4 & E5). destruct ok.
    + assert (Hd : dict_of (set_table (Some Th8_HashNew) (nTable c') c') = dict_of c).
      { unfold dict_of, set_table. cbn [paCache]. rewrite E. apply (table_new sd). }
      split_and!; [|done|done|done|by eexists]. split; [|intros h [= <-]; apply (table_new sd)|apply H'].
      rewrite Hd. cbn [set_table blocks nNext]. rewrite E3, E4. apply H.
    + split_and!; try done; unfold dict_of; by rewrite E1, ?E.
Qed.

Lemma find_slot_ok D bl nx L key c : looks D bl nx L c → ends (find_slot debug false ready recursive sd key c) (λ '(s, c'),
  match s with
  | None => looks D bl nx L c' ∧ D !! key = None
  | Some (n, p) => nTable c' = n ∧
      (D !! key = Some p ∧ looks D bl nx L c' ∨ D !! key = None ∧ p = 0 ∧ looks (<[key := 0]> D) bl nx L c')
  end).
Proof.
  intros H. pose proof H as [Hd Hb Hn Hl (h & Hh & Ht)]. unfold find_slot. rewrite Hh.
  assert (Hdh : dict h = D) by (rewrite <- Hd; unfold dict_of; by rewrite Hh).
  destruct (t_find sd h key true Ht) as (o & -> & Ho). cbn [fst]. destruct o as [p|].
  - cbn [ends]. split; [done|]. left. split; [|done]. rewrite <- Hdh, <- Ho. done.
  - destruct (alloc_ok CSlot c) as (ok & c' & -> & (E1 & E2 & E3 & E4 & E5)). cbn [res_bind].
    assert (Hk : D !! key = None) by (rewrite <- Hdh, <- Ho; done).
    destruct ok; cbn [negb].
    + rewrite E1, Hh, E2, Z.eqb_refl. cbn [ends]. split; [done|]. right. split_and!; [done|done|].
      rewrite <- Hdh in Hk. destruct (t_insert sd h key Ht Hk) as (_ & p & h' & Hf & _ & Ht' & Hd'). rewrite Hf. cbn [snd].
      split; unfold dict_of, set_table; cbn; [by rewrite <- Hdh|congruence..|]. by exists h'.
    + cbn [ends]. split; [|done]. split; unfold dict_of; rewrite ?E1, ?E3, ?E4, ?E5; try done. by exists h.
Qed.

Lemma slot_write_ok D bl nx L key d d' c : looks D bl nx L c → D !! key = Some d →
  ends (slot_write sd (nTable c) key d' c) (λ c', looks (<[key := d']> D) bl nx L c' ∧ nTable c' = nTable c).
Proof.
  intros [Hd Hb Hn Hl (h & Hh & Ht)] Hk. unfold slot_write. rewrite Hh, Z.eqb_refl. cbn [ends].
  assert (Hdh : dict h = D) by (rewrite <- Hd; unfold dict_of; by rewrite Hh).
  rewrite <- Hdh in Hk. destruct (t_set sd h key d d' Ht Hk) as [Ht' Hd']. split; [|done].
  split; unfold dict_of, set_table; cbn; [rewrite <- Hdh; exact Hd'|done..|]. by eexists.
Qed.

(** ** Finding *)

(** A new entry: nothing in its union, and a list has no string. *)
Definition unset (e : Th8_CacheEntry) : Prop :=
  u (value e) = RNone ∧ (azListElem e ≠ 0 → zData (value e) = 0).

(** [M] is what an entry must be to be a hit; a new entry is one. *)
Definition finds (M : gmap Z block → Th8_CacheEntry → Prop) (key : bytes) (U : gset Z) c (p : Z) c' : Prop :=
  if decide (p = 0) then entry_of c' key = None
  else ∃ e, entry_of c' key = Some (p, e) ∧ M (blocks c') e ∧
    (entry_of c key = Some (p, e) ∧ blocks c' = blocks c ∨
     unset e ∧ ∀ a e0, entry_of c key = Some (a, e0) → ¬ M (blocks c) e0).

Context (M : gmap Z block → Th8_CacheEntry → Prop) (key : bytes).
Context (matches : Th8_CacheEntry → cache I → res cache_fault bool) (create : cache I → res cache_fault (Z * cache I)).

Hypothesis matches_ok : ∀ e c, entry_ok (blocks c) key e → ∃ b, matches e c = Ok b ∧ (b = true ↔ M (blocks c) e).
Hypothesis create_ok : ∀ U D bl nx L c, looks D bl nx L c → good U D bl nx → ends (create c) (λ '(p, c'),
  nTable c' = nTable c ∧
  if decide (p = 0) then looks D bl (nNext c') L c' ∧ good U D bl (nNext c')
  else ∃ e bl', looks D bl' (nNext c') L c' ∧ good ({[p]} ∪ U) D bl' (nNext c') ∧ (p ∉ U) ∧ bl' !! p = Some (BEntry e) ∧
    entry_ok bl' key e ∧ M bl' e ∧ unset e ∧ ∀ x b, bl !! x = Some b → bl' !! x = Some b).

(** Where the table has no value for the key, one is made. *)
Lemma create_slot_ok L U D bl nx c : looks D bl nx L c → good U D bl nx → D !! key = Some 0 →
  ends (let* (p, c2) := create c in if p =? 0 then Ok (0, c2) else let* c2 := slot_write sd (nTable c) key p c2 in Ok (p, c2))
  (λ '(p, c'), inv L U c' ∧ (∀ x b, bl !! x = Some b → blocks c' !! x = Some b) ∧
     ∃ p', dict_of c' = <[key := p']> D ∧ (p = 0 → p' = 0 ∧ entry_of c' key = None) ∧
       (p ≠ 0 → ∃ e, entry_of c' key = Some (p, e) ∧ M (blocks c') e ∧ unset e)).
Proof.
  intros Hl Hg Hk. eapply ends_bind; [by apply (create_ok U D bl nx L)|]. intros [p c2] [Hn Hc]. case_decide as Hp.
  - subst p. cbn [Z.eqb ends]. destruct Hc as [Hl' Hg']. pose proof (looks_inv _ _ _ _ _ _ Hl' Hg') as H'. split; [done|].
    split; [intros x b Hb; by rewrite (l_blocks _ _ _ _ _ Hl')|]. exists 0.
    assert (Hd : dict_of c2 = D) by apply Hl'. split; [by rewrite Hd, insert_id|]. split; [|done]. intros _. split; [done|].
    apply no_entry; [rewrite Hd; intros a; congruence|]. intros a b. by apply (block_pos L U).
  - rewrite (proj2 (Z.eqb_neq p 0) Hp). destruct Hc as (e & bl' & Hl' & Hg' & Hu & He & Hok & HM & Hr & Hold).
    eapply ends_bind; [rewrite <- Hn; by apply (slot_write_ok _ _ _ _ _ 0 p _ Hl')|]. intros c3 [Hl3 _]. cbn [ends].
    pose proof (good_link _ _ _ _ key p e Hg' Hk ltac:(set_solver) He Hok) as Hg3.
    replace (({[p]} ∪ U) ∖ {[p]}) with U in Hg3 by set_solver.
    split; [by eapply looks_inv|]. destruct Hl3 as [Hd3 Hb3 _ _ _]. split; [by rewrite Hb3|]. exists p. split; [done|].
    split; [done|]. intros _. exists e. rewrite Hb3. split; [|done]. unfold entry_of. by rewrite Hd3, Hb3, lookup_insert_eq, He.
Qed.

Lemma kept_intro L U c c' : inv L U c → inv L U c' → (∀ k', k' ≠ key → dict_of c' !! k' = dict_of c !! k') →
  (∀ k' a e, k' ≠ key → entry_of c k' = Some (a, e) → blocks c' !! a = Some (BEntry e) ∧ ∀ x, child e x → blocks c' !! x = blocks c !! x) →
  (∀ x, x ∈ U → blocks c' !! x = blocks c !! x) → kept U key c c'.
Proof.
  intros H H' Hd He Hu. split; [|by intros k' a e x Hk Ha; apply (He k' a e Hk Ha)|done].
  intros k' Hk. destruct (entry_of c k') as [[a e]|] eqn:E.
  - destruct (He k' a e Hk E) as [Hb _]. destruct (live_entry L U c k' a e H E) as (Hda & _). unfold entry_of. by rewrite Hd, Hda, Hb.
  - apply no_entry; [|intros a b; by apply (block_pos L U)]. intros a Ha. rewrite Hd in Ha by done.
    destruct (decide (a = 0)) as [|Hz]; [done|]. destruct (entry_here L U c k' a H Ha Hz) as [e He']. congruence.
Qed.

(** What a new value leaves of the state before. *)
Lemma made_kept L U c c' p' : inv L U c → inv L U c' → dict_of c' = <[key := p']> (dict_of c) →
  (∀ x b, (∀ a e, entry_of c key = Some (a, e) → x ≠ a ∧ ¬ child e x) → blocks c !! x = Some b → blocks c' !! x = Some b) → kept U key c c'.
Proof.
  intros H H' Hd Hb. apply (kept_intro L); [done|done|intros k' Hk; by rewrite Hd, lookup_insert_ne|..].
  - intros k' a e Hk Ha. destruct (live_entry L U c k' a e H Ha) as (_ & _ & Hbl & Hok). split.
    + apply Hb; [|done]. intros a1 e1 H1. by destruct (others_stay L U c key a1 e1 k' a e H Hk H1 Ha) as [Hs _].
    + intros x Hx. destruct (child_leaf _ _ _ _ Hok Hx) as (b & Hb1 & _). rewrite Hb1. apply Hb; [|done].
      intros a1 e1 H1. destruct (others_stay L U c key a1 e1 k' a e H Hk H1 Ha) as [_ Hs]. by apply Hs.
  - intros x Hx. destruct (mine_live _ _ _ _ (i_good _ _ _ H) x Hx) as [b Hb1]. rewrite Hb1. apply Hb; [|done].
    intros a1 e1 H1. by apply (mine_stays L U c key).
Qed.

Lemma find_locked_ok L U c : inv L U c →
  ends (find_locked matches create key c) (λ '(p, c'), inv L U c' ∧ kept U key c c' ∧ finds M key U c p c').
Proof.
  intros H. unfold Cache.find_locked. eapply ends_bind; [by apply (get_hash_ok L U)|]. intros [ok c1] (H1 & Hd1 & Hb1 & Hn1 & Hok).
  assert (Hsame : kept U key c c1 ∧ entry_of c1 = entry_of c).
  { split; [split|]; unfold entry_of; rewrite ?Hd1, ?Hb1; try done; by rewrite Hd1, Hb1. }
  destruct Hsame as [Hk1 He1]. destruct ok; cbn [negb].
  2: { cbn [ends]. split_and!; [done..|]. unfold finds. rewrite decide_True by done. apply no_entry; [by rewrite Hok|]. intros a b. by apply (block_pos L U). }
  pose proof (inv_looks L U c1 H1 Hok) as Hl. eapply ends_bind; [by apply (find_slot_ok _ _ _ _ key _ Hl)|].
  intros [s c2]. destruct s as [[n p]|].
  2: { intros [Hl2 Hk2]. cbn [ends]. pose proof (looks_inv _ _ _ _ _ _ Hl2 (i_good _ _ _ H1)) as H2.
       assert (Ed : dict_of c2 = dict_of c1) by apply Hl2. assert (Eb : blocks c2 = blocks c1) by apply Hl2.
       split; [done|]. split.
       - eapply kept_trans; [exact Hk1|]. split; unfold entry_of; rewrite ?Ed, ?Eb; try done; by rewrite Ed, Eb.
       - unfold finds. rewrite decide_True by done. apply no_entry; [rewrite Ed; intros a; congruence|]. intros a b. by apply (block_pos L U). }
  assert (Hmake : ∀ D0 c3, looks D0 (blocks c3) (nNext c3) L c3 → good U D0 (blocks c3) (nNext c3) → D0 !! key = Some 0 → nTable c3 = n →
    (∀ p', <[key := p']> D0 = <[key := p']> (dict_of c1)) →
    (∀ x b, (∀ a e, entry_of c1 key = Some (a, e) → x ≠ a ∧ ¬ child e x) → blocks c1 !! x = Some b → blocks c3 !! x = Some b) →
    (∀ a e0, entry_of c key = Some (a, e0) → ¬ M (blocks c) e0) →
    ends (let* (p, c) := create c3 in if p =? 0 then Ok (0, c) else let* c := slot_write sd n key p c in Ok (p, c))
      (λ '(p, c'), inv L U c' ∧ kept U key c c' ∧ finds M key U c p c')).
  { intros D0 c3 Hl3 Hg3 Hk3 Hn3 Hd3 Hb3 Hmiss. rewrite <- Hn3. eapply ends_weaken; [by apply (create_slot_ok L U D0 (blocks c3) (nNext c3))|].
    intros [q c4] (H4 & Hb4 & p' & Hd4 & Hz4 & He4). split; [done|]. split.
    - eapply kept_trans; [exact Hk1|]. apply (made_kept L U c1 c4 p'); [done|done|by rewrite Hd4, Hd3|]. intros x b Hx Hb. by apply Hb4, Hb3.
    - unfold finds. case_decide as Hq; [by apply Hz4|]. destruct (He4 Hq) as (e & He & HM & Hr). exists e. split; [done|]. split; [done|]. by right. }
  intros [Hn [[Hk2 Hl2]|(Hk2 & -> & Hl2)]].
  - destruct Hl2 as [Ed Eb En El Et]. assert (Hl2 : looks (dict_of c1) (blocks c2) (nNext c2) L c2) by by split.
    assert (Hg2 : good U (dict_of c1) (blocks c2) (nNext c2)) by (rewrite Eb, En; apply H1).
    destruct (Z.eqb_spec p 0) as [->|Hp]; cbn [res_bind].
    + apply (Hmake (dict_of c1)); [done..| |].
      * intros x b _. by rewrite Eb.
      * intros a e0 He0. exfalso. rewrite <- He1 in He0. destruct (live_entry L U c1 key a e0 H1 He0) as (Ha & ? & _). congruence.
    + destruct (entry_here L U c1 key p H1 Hk2 Hp) as [e He]. destruct (live_entry L U c1 key p e H1 He) as (_ & _ & Hbl & Hok2).
      rewrite <- Eb in Hbl, Hok2. rewrite (entry_at_ok c2 p e Hbl Hp). cbn [res_bind].
      destruct (matches_ok e c2 Hok2) as (b & -> & Hm). cbn [res_bind]. destruct b; cbn [res_bind].
      * cbn [ends]. pose proof (looks_inv _ _ _ _ _ _ Hl2 Hg2) as H2. split; [done|].
        assert (Ee : entry_of c2 = entry_of c1) by (unfold entry_of; by rewrite Ed, Eb). split.
        -- eapply kept_trans; [exact Hk1|]. split; [by rewrite Ee|intros; by rewrite Eb..].
        -- unfold finds. rewrite decide_False by done. exists e. rewrite Ee. split; [done|]. split; [by apply Hm|]. left. by rewrite <- He1, Eb, Hb1.
      * rewrite (entry_free_ok _ _ _ _ key p e c2 Hg2 eq_refl Hk2 Hp Hbl Hok2). cbn [res_bind].
        pose proof (good_evict _ _ _ _ key p e Hg2 Hk2 Hp Hbl Hok2) as Hg3. fold (evicted p e (blocks c2)) in Hg3.
        set (c3 := set_blocks (evicted p e (blocks c2)) c2).
        assert (Hl3 : looks (dict_of c1) (blocks c3) (nNext c3) L c3) by (destruct Hl2; split; done).
        assert (Hn3 : nTable c3 = n) by done. rewrite <- Hn3 at 1.
        destruct (slot_write sd (nTable c3) key 0 c3) as [c4|] eqn:Ew;
          pose proof (slot_write_ok _ _ _ _ key p 0 c3 Hl3 Hk2) as Hw; rewrite Ew in Hw; [|done]. cbn [res_bind].
        destruct Hw as [Hl4 Hn4]. assert (Eb4 : blocks c4 = evicted p e (blocks c2)) by apply Hl4.
        assert (En4 : nNext c4 = nNext c2) by apply Hl4. rewrite <- Eb4 in Hg3. rewrite <- En4 in Hg3.
        apply (Hmake (<[key := 0]> (dict_of c1))); [destruct Hl4; by split|done|apply lookup_insert_eq|congruence|intros p'; apply insert_insert_eq|..].
        -- intros x b Hx Hb. destruct (Hx p e He) as [Hxp Hxc]. rewrite Eb4, evicted_ne by done. by rewrite Eb.
        -- intros a e0 He0 HM. rewrite <- He1 in He0. rewrite He in He0. injection He0 as <- <-.
           rewrite <- Hb1, <- Eb in HM. apply Hm in HM. done.
  - cbn [Z.eqb res_bind]. destruct Hl2 as [Ed Eb En El Et].
    apply (Hmake (<[key := 0]> (dict_of c1))).
    + by split.
    + rewrite Eb, En. apply good_slot; [apply H1|done].
    + apply lookup_insert_eq.
    + done.
    + intros p'. apply insert_insert_eq.
    + intros x b _. by rewrite Eb.
    + intros a e0 He0. exfalso. rewrite <- He1 in He0. destruct (live_entry L U c1 key a e0 H1 He0) as (Ha & _). congruence.
Qed.
End find.
