(* ===== verification/CacheOps.v ===== *)
(** * CacheOps: the operations of the cache.

    Texts and lists as keys, removal, clearing, and the numbers and lists that the
    conversions keep. *)

From stdpp Require Import gmap.
From S2P Require Import Prelude Memory Strings Hash Lists VarTables Cache CacheInv CacheFind.
#[local] Open Scope Z_scope.
#[local] Open Scope res_scope.

Section ops.
Context (debug ready recursive : bool) (sd : seeds) {I : Type} `{CE : CacheEnv I}.
Implicit Types c : cache I.

#[local] Abbreviation TH8_ALLOC := (TH8_ALLOC debug false ready recursive).
#[local] Abbreviation Th8_FindInCache := (Th8_FindInCache debug false ready recursive sd).
#[local] Abbreviation th8FindListInCache := (th8FindListInCache debug false ready recursive sd).
#[local] Abbreviation inv := (inv sd).
#[local] Abbreviation looks := (looks sd).

(** ** New blocks *)

Lemma new_block_looks D bl nx L c b : looks D bl nx L c → fst (new_block b c) = nx ∧ looks D (<[nx := b]> bl) (nx + 1) L (snd (new_block b c)) ∧ nTable (snd (new_block b c)) = nTable c.
Proof. intros [<- <- <- <- Ht]. split_and!; [done| |done]. by split. Qed.

Lemma put_looks D bl nx L c p b : looks D bl nx L c → looks D (<[p := b]> bl) nx L (put p b c).
Proof. intros [<- <- <- <- Ht]. by split. Qed.

Lemma same_looks D bl nx L c c' : same_memory c c' → looks D bl nx L c → looks D bl nx L c'.
Proof.
  intros (E1 & _ & E3 & E4 & E5) [<- <- <- <- Ht]. split; unfold dict_of; rewrite ?E1, ?E3, ?E4, ?E5; done.
Qed.

Lemma alloc_looks D bl nx L c site : looks D bl nx L c → ends (TH8_ALLOC site c) (λ '(ok, c'), looks D bl nx L c' ∧ nTable c' = nTable c).
Proof.
  intros H. destruct (alloc_ok debug ready recursive site c) as (ok & c' & -> & Hs). cbn [ends].
  split; [by eapply same_looks|by destruct Hs as (_ & ? & _)].
Qed.

Lemma free_looks D bl nx L c p : looks D bl nx L c → p ≠ 0 → is_Some (bl !! p) →
  ends (Th8_Free p c) (λ c', looks D (delete p bl) nx L c' ∧ nTable c' = nTable c).
Proof.
  intros [<- <- <- <- Ht] Hp Hb. rewrite (Free_ok p c) by by right. cbn [ends]. split; [|done].
  unfold drop_ptr. rewrite decide_False by done. by split.
Qed.

(** A block that was asked for and goes back. *)
Lemma good_undo U D bl nx b : good U D bl nx → (∀ a, 0 < a → block_refs a b = 0) → good U D (delete nx (<[nx := b]> bl)) (nx + 1).
Proof.
  intros H Hb. destruct (fresh_refs U D bl nx H) as [_ Hu]. pose proof (good_alloc U D bl nx b H Hb) as G.
  eapply (good_free _ _ _ _ nx) in G; [|set_solver|apply lookup_insert_eq|done]. by replace (({[nx]} ∪ U) ∖ {[nx]}) with U in G by set_solver.
Qed.

(** The new entry [e] with the block [b] it owns. *)
Lemma good_create U D bl nx e0 e b : good U D bl nx → (∀ a, 0 < a → block_refs a (BEntry e0) = 0) → leaf b →
  (∀ a, 0 < a → block_refs a (BEntry e) = one a (nx + 1)) →
  let bl' := <[nx := BEntry e]> (<[nx + 1 := b]> (<[nx := BEntry e0]> bl)) in
  good ({[nx]} ∪ U) D bl' (nx + 2) ∧ (nx ∉ U) ∧ bl' !! nx = Some (BEntry e) ∧ bl' !! (nx + 1) = Some b ∧
  ∀ x b, bl !! x = Some b → bl' !! x = Some b.
Proof.
  intros H H0 Hl He bl'. destruct (fresh_refs U D bl nx H) as [_ Hu]. pose proof (g_next _ _ _ _ H) as Hn.
  pose proof (good_alloc U D bl nx _ H H0) as G1. destruct (fresh_refs _ _ _ _ G1) as [_ Hu1].
  pose proof (good_alloc _ _ _ _ b G1 (λ a _, leaf_refs b a Hl)) as G2.
  assert (Hx : <[nx + 1 := b]> (<[nx := BEntry e0]> bl) !! nx = Some (BEntry e0)) by (rewrite lookup_insert_ne by lia; apply lookup_insert_eq).
  split; [|split; [done|split; [apply lookup_insert_eq|split]]].
  - replace (nx + 2) with (nx + 1 + 1) by lia. apply (good_entry _ ({[nx]} ∪ U) _ _ _ nx e0 e) in G2; [done|done|..].
    + intros a Ha. apply (g_mine _ _ _ _ G1 a Ha).
    + intros a Ha. rewrite (H0 a Ha), (He a Ha), (mine_union ({[nx]} ∪ U)) by done. lia.
    + intros k Hk _. exfalso. destruct (entry_only _ _ _ _ G1 k nx Hk ltac:(lia)) as (_ & Hc & _). set_solver.
    + intros a [->%elem_of_singleton|?]%elem_of_union Hna; [|done]. exists b. by rewrite lookup_insert_eq.
  - subst bl'. rewrite lookup_insert_ne by lia. apply lookup_insert_eq.
  - intros x b' Hb. subst bl'. pose proof (g_addr _ _ _ _ H x b' Hb). by rewrite !lookup_insert_ne by lia.
Qed.

(** ** Texts *)

Definition text_M (t : Z) (z : bytes) (bl : gmap Z block) (e : Th8_CacheEntry) : Prop :=
  cacheType e = t ∧ nOriginal e = zlen z ∧ (z ≠ [] → text_is bl e z).

(** A caller's string: its length is known or measured. *)
Definition text_of (str : cstring) : res cache_fault bytes :=
  let* n := if snd str =? TH8_NOLEN then Th8_Strlen (fst str) else Ok (snd str) in read (fst str) n.

Lemma zlen_0 {A} (z : list A) : zlen z = 0 → z = [].
Proof. by destruct z. Qed.

Lemma read_own z (k : Z) : k = zlen z → read (z ++ [0]) k = Ok z.
Proof.
  intros ->. unfold read. rewrite (proj2 (Z.ltb_ge _ _)) by (rewrite zlen_app; change (zlen [0]) with 1; lia).
  unfold zlen. rewrite Nat2Z.id, take_app_length. done.
Qed.

Lemma text_matches_ok t z e c : entry_ok (blocks c) (text_key t z) e → ∃ b, text_matches t z e c = Ok b ∧ (b = true ↔ text_M t z (blocks c) e).
Proof.
  intros (_ & _ & Hk). unfold text_matches, text_M.
  destruct (Z.eqb_spec (cacheType e) t) as [Ht|Ht]; cbn [andb]; [|exists false; split; [done|naive_solver]].
  destruct (Z.eqb_spec (nOriginal e) (zlen z)) as [Hn|Hn]; [|exists false; split; [done|naive_solver]].
  destruct (Z.eqb_spec (zlen z) 0) as [Hz|Hz].
  { exists true. split; [done|]. apply zlen_0 in Hz. split; [|done]. intros _. split_and!; [done..|]. by intros []. }
  assert (Htext : ∃ z', text_is (blocks c) e z').
  { destruct Hk as [(_ & _ & z' & Hz' & _)|(_ & es & _ & _ & _ & [Hz'|(_ & E & _)])]; [by eexists|done|congruence]. }
  destruct Htext as [z' Hz']. pose proof Hz' as (H1 & H2 & H3 & _). unfold bytes_at. rewrite (block_at_ok c _ _ H2 H1). cbn [res_bind].
  rewrite (read_own z') by congruence. cbn [res_bind]. eexists. split; [done|]. rewrite bool_decide_eq_true. split.
  - intros <-. split_and!; [done|done|]. by intros _.
  - intros (_ & _ & Hz2). destruct (Hz2 ltac:(intros ->; done)) as (_ & H4 & _). rewrite H2 in H4. injection H4 as H4. by apply app_inv_tail in H4.
Qed.

Lemma create_text_ok t z U D bl nx L c : 1 <= t <= 11 → looks D bl nx L c → good U D bl nx →
  ends (create_text debug false ready recursive t z c) (λ '(p, c'), nTable c' = nTable c ∧
    if decide (p = 0) then looks D bl (nNext c') L c' ∧ good U D bl (nNext c')
    else ∃ e bl', looks D bl' (nNext c') L c' ∧ good ({[p]} ∪ U) D bl' (nNext c') ∧ (p ∉ U) ∧ bl' !! p = Some (BEntry e) ∧
      entry_ok bl' (text_key t z) e ∧ text_M t z bl' e ∧ unset e ∧ ∀ x b, bl !! x = Some b → bl' !! x = Some b).
Proof.
  intros Ht Hl Hg. pose proof (g_next _ _ _ _ Hg) as Hn. unfold create_text.
  eapply ends_bind; [by apply (alloc_looks _ _ _ _ _ _ Hl)|]. intros [ok c1] [Hl1 Hn1]. destruct ok; cbn [negb].
  2: { cbn [ends]. split; [done|]. rewrite decide_True by done. assert (E : nNext c1 = nx) by apply Hl1. by rewrite E. }
  set (e0 := mkCache t 0 0 (mkValue 0 0 RNone) 0 0). assert (H0 : ∀ a, 0 < a → block_refs a (BEntry e0) = 0) by (intros a Ha; cbn; by rewrite !one_ne by lia).
  destruct (new_block_looks D bl nx L c1 (BEntry e0) Hl1) as (Hp & Hl2 & Hn2). destruct (new_block (BEntry e0) c1) as [p c2].
  cbn [fst snd] in Hp, Hl2, Hn2. subst p.
  eapply ends_bind; [by apply (alloc_looks _ _ _ _ _ _ Hl2)|]. intros [ok c3] [Hl3 Hn3]. destruct ok; cbn [negb].
  2: { eapply ends_bind; [apply (free_looks _ _ _ _ _ nx Hl3); [lia|rewrite lookup_insert_eq; by eexists]|].
       intros c4 [Hl4 Hn4]. cbn [ends]. split; [congruence|]. rewrite decide_True by done. assert (E : nNext c4 = nx + 1) by apply Hl4. rewrite E.
       pose proof (good_undo U D bl nx _ Hg H0) as G. rewrite delete_insert_id in G, Hl4 by by apply (good_fresh U D bl nx). done. }
  destruct (new_block_looks D _ _ L c3 (BBytes (z ++ [0])) Hl3) as (Hq & Hl4 & Hn4). destruct (new_block (BBytes (z ++ [0])) c3) as [q c4].
  cbn [fst snd] in Hq, Hl4, Hn4. subst q. cbn [ends]. rewrite decide_False by lia.
  set (e := mkCache t (nx + 1) (zlen z) (mkValue (nx + 1) (zlen z) RNone) 0 0).
  destruct (good_create U D bl nx e0 e (BBytes (z ++ [0])) Hg H0) as (G & Hu & Hb & Hbt & Hold); [done|intros a Ha; cbn; rewrite !(one_ne a 0) by lia; lia|].
  split; [cbn; congruence|]. exists e, (<[nx := BEntry e]> (<[nx + 1 := BBytes (z ++ [0])]> (<[nx := BEntry e0]> bl))).
  pose proof (put_looks _ _ _ _ _ nx (BEntry e) Hl4) as Hl5. assert (E : nNext (put nx (BEntry e) c4) = nx + 2) by (rewrite (l_next _ _ _ _ _ _ Hl5); lia).
  rewrite E. replace (nx + 1 + 1) with (nx + 2) in Hl5 by lia.
  assert (Htx : text_is (<[nx := BEntry e]> (<[nx + 1 := BBytes (z ++ [0])]> (<[nx := BEntry e0]> bl))) e z).
  { split; [cbn; lia|]. split; [exact Hbt|done]. }
  split_and!; [exact Hl5|exact G|exact Hu|exact Hb| |by split_and!|done|exact Hold].
  split; [done|]. split; [done|]. left. split_and!; [done|done|]. by exists z.
Qed.

(** ** The lock *)

Definition held : Z := if ready then 1 else 0.

Lemma enter_ok U c : inv 0 U c → ends (th8CacheMutexEnter ready recursive c) (λ c', inv held U c' ∧ entry_of c' = entry_of c ∧ blocks c' = blocks c ∧ paCache c' = paCache c ∧ nTable c' = nTable c).
Proof.
  intros [H1 H2 H3]. unfold th8CacheMutexEnter, held. rewrite H3. destruct ready; cbn; split_and!; try done; by split.
Qed.

Lemma leave_ok U c : inv held U c → inv 0 U (th8CacheMutexLeave ready c) ∧ entry_of (th8CacheMutexLeave ready c) = entry_of c ∧ blocks (th8CacheMutexLeave ready c) = blocks c.
Proof.
  intros [H1 H2 H3]. unfold th8CacheMutexLeave, held in *. destruct ready; [|done]. split_and!; [|done|done]. split; [done|done|]. cbn. lia.
Qed.

Lemma kept_ext U k c1 c2 c1' c2' : entry_of c1 = entry_of c1' → entry_of c2 = entry_of c2' → blocks c1 = blocks c1' → blocks c2 = blocks c2' →
  kept U k c1 c2 → kept U k c1' c2'.
Proof. intros E1 E2 B1 B2 [H1 H2 H3]. rewrite E1 in *. rewrite E2, B1, B2 in *. by split. Qed.

Lemma finds_ext (M : gmap Z block → Th8_CacheEntry → Prop) key U c1 c2 c1' c2' p : entry_of c1 = entry_of c1' → entry_of c2 = entry_of c2' →
  blocks c1 = blocks c1' → blocks c2 = blocks c2' → finds M key U c1 p c2 → finds M key U c1' p c2'.
Proof. unfold finds. intros E1 E2 B1 B2. by rewrite E1, E2, B1, B2. Qed.

(** ** Finding *)

Lemma FindInCache_ok U c t str z : inv 0 U c → 1 <= t <= 11 → text_of str = Ok z →
  ends (Th8_FindInCache t str c) (λ '(p, c'), inv 0 U c' ∧ kept U (text_key t z) c c' ∧ finds (text_M t z) (text_key t z) U c p c').
Proof.
  intros H Ht Hz. unfold Cache.Th8_FindInCache. unfold text_of in Hz. destruct (if snd str =? TH8_NOLEN then _ else _) as [n|]; [|done].
  cbn [res_bind] in Hz |- *. rewrite Hz. cbn [res_bind]. eapply ends_bind; [by apply (enter_ok U)|]. intros c1 (H1 & E1 & B1 & _).
  eapply ends_bind; [apply (find_locked_ok debug ready recursive sd (text_M t z) (text_key t z)); [by intros; apply text_matches_ok| |exact H1]|].
  { intros. by eapply create_text_ok. }
  intros [p c2] (H2 & Hk & Hf). cbn [ends]. destruct (leave_ok U c2 H2) as (H3 & E3 & B3). split; [done|].
  split; [by eapply kept_ext; [..|exact Hk]|by eapply finds_ext; [..|exact Hf]].
Qed.

(** ** Lists *)

Definition list_M (es : list bytes) (bl : gmap Z block) (e : Th8_CacheEntry) : Prop :=
  cacheType e = TH8_CACHE_STRING ∧ elements_are bl e es.

Lemma arrays_at_ok c p es : blocks c !! p = Some (BArrays es) → p ≠ 0 → arrays_at p c = Ok es.
Proof. intros H Hp. unfold arrays_at. by rewrite (block_at_ok c p _ H Hp). Qed.

Lemma bytes_at_ok c p z : blocks c !! p = Some (BBytes z) → p ≠ 0 → bytes_at p c = Ok z.
Proof. intros H Hp. unfold bytes_at. by rewrite (block_at_ok c p _ H Hp). Qed.

Lemma list_matches_ok k es e c : es ≠ [] → entry_ok (blocks c) k e →
  ∃ b, list_matches TH8_CACHE_STRING es e c = Ok b ∧ (b = true ↔ list_M es (blocks c) e).
Proof.
  intros Hne (_ & _ & Hk). unfold list_matches, list_M, elements_are.
  destruct (Z.eqb_spec (cacheType e) TH8_CACHE_STRING) as [Ht|Ht]; cbn [andb]; [|exists false; split; [done|naive_solver]].
  destruct (Z.eqb_spec (nListElem e) (zlen es)) as [Hn|Hn]; [|exists false; split; [done|naive_solver]].
  destruct Hk as [(_ & E & _)|(_ & l & _ & (H1 & H2 & _) & _)]; [rewrite E in Hn; symmetry in Hn; by apply zlen_0 in Hn|].
  rewrite (arrays_at_ok c _ l H2 H1). cbn [res_bind]. eexists. split; [done|]. rewrite bool_decide_eq_true. split; [by intros <-|].
  intros (_ & _ & H4 & _). rewrite H2 in H4. by injection H4.
Qed.

Lemma create_list_ok es U D bl nx L c : es ≠ [] → looks D bl nx L c → good U D bl nx →
  ends (create_list debug false ready recursive TH8_CACHE_STRING es c) (λ '(p, c'), nTable c' = nTable c ∧
    if decide (p = 0) then looks D bl (nNext c') L c' ∧ good U D bl (nNext c')
    else ∃ e bl', looks D bl' (nNext c') L c' ∧ good ({[p]} ∪ U) D bl' (nNext c') ∧ (p ∉ U) ∧ bl' !! p = Some (BEntry e) ∧
      entry_ok bl' (list_key TH8_CACHE_STRING es) e ∧ list_M es bl' e ∧ unset e ∧ ∀ x b, bl !! x = Some b → bl' !! x = Some b).
Proof.
  intros Hne Hl Hg. pose proof (g_next _ _ _ _ Hg) as Hn. unfold create_list.
  eapply ends_bind; [by apply (alloc_looks _ _ _ _ _ _ Hl)|]. intros [ok c1] [Hl1 Hn1]. destruct ok; cbn [negb].
  2: { cbn [ends]. split; [done|]. rewrite decide_True by done. assert (E : nNext c1 = nx) by apply Hl1. by rewrite E. }
  set (e0 := mkCache TH8_CACHE_STRING 0 0 (mkValue 0 0 RNone) 0 0).
  assert (H0 : ∀ a, 0 < a → block_refs a (BEntry e0) = 0) by (intros a Ha; cbn; by rewrite !one_ne by lia).
  destruct (new_block_looks D bl nx L c1 (BEntry e0) Hl1) as (Hp & Hl2 & Hn2). destruct (new_block (BEntry e0) c1) as [p c2].
  cbn [fst snd] in Hp, Hl2, Hn2. subst p.
  assert (Hback : ∀ c3, looks D (<[nx := BEntry e0]> bl) (nx + 1) L c3 → nTable c3 = nTable c →
    ends (let* c := Th8_Free nx c3 in Ok (0, c)) (λ '(p, c'), nTable c' = nTable c ∧ if decide (p = 0) then looks D bl (nNext c') L c' ∧ good U D bl (nNext c')
    else ∃ e bl', looks D bl' (nNext c') L c' ∧ good ({[p]} ∪ U) D bl' (nNext c') ∧ (p ∉ U) ∧ bl' !! p = Some (BEntry e) ∧
      entry_ok bl' (list_key TH8_CACHE_STRING es) e ∧ list_M es bl' e ∧ unset e ∧ ∀ x b, bl !! x = Some b → bl' !! x = Some b)).
  { intros c3 Hl3 Hn3. eapply ends_bind; [apply (free_looks _ _ _ _ _ nx Hl3); [lia|rewrite lookup_insert_eq; by eexists]|].
    intros c4 [Hl4 Hn4]. cbn [ends]. split; [congruence|]. rewrite decide_True by done. assert (E : nNext c4 = nx + 1) by apply Hl4. rewrite E.
    pose proof (good_undo U D bl nx _ Hg H0) as G. rewrite delete_insert_id in G, Hl4 by by apply (good_fresh U D bl nx). done. }
  destruct (arrays_size (zlen es) (text_size es)) as [nAlloc|]; [|apply Hback; [done|congruence]].
  eapply ends_bind; [by apply (alloc_looks _ _ _ _ _ _ Hl2)|]. intros [ok c3] [Hl3 Hn3]. destruct ok; cbn [negb]; [|apply Hback; [done|congruence]].
  destruct (new_block_looks D _ _ L c3 (BArrays es) Hl3) as (Hq & Hl4 & Hn4). destruct (new_block (BArrays es) c3) as [q c4].
  cbn [fst snd] in Hq, Hl4, Hn4. subst q. cbn [ends]. rewrite decide_False by lia.
  set (e := mkCache TH8_CACHE_STRING 0 0 (mkValue 0 0 RNone) (nx + 1) (zlen es)).
  destruct (good_create U D bl nx e0 e (BArrays es) Hg H0) as (G & Hu & Hb & Hbt & Hold); [done|intros a Ha; cbn; rewrite !(one_ne a 0) by lia; lia|].
  split; [cbn; congruence|]. exists e, (<[nx := BEntry e]> (<[nx + 1 := BArrays es]> (<[nx := BEntry e0]> bl))).
  pose proof (put_looks _ _ _ _ _ nx (BEntry e) Hl4) as Hl5. assert (E : nNext (put nx (BEntry e) c4) = nx + 2) by (rewrite (l_next _ _ _ _ _ _ Hl5); lia).
  rewrite E. replace (nx + 1 + 1) with (nx + 2) in Hl5 by lia.
  assert (Hel : elements_are (<[nx := BEntry e]> (<[nx + 1 := BArrays es]> (<[nx := BEntry e0]> bl))) e es).
  { split; [cbn; lia|]. split; [exact Hbt|done]. }
  split_and!; [exact Hl5|exact G|exact Hu|exact Hb| |by split_and!|done|exact Hold].
  split; [done|]. split; [done|]. right. split; [done|]. exists es. split_and!; [done|done|done|]. by right.
Qed.

Lemma FindListInCache_ok U c elems es : inv 0 U c → elems ≠ [] → raw_elements elems = Ok es →
  ends (th8FindListInCache TH8_CACHE_STRING elems c) (λ '(p, c'), inv 0 U c' ∧
    kept U (list_key TH8_CACHE_STRING es) c c' ∧ finds (list_M es) (list_key TH8_CACHE_STRING es) U c p c').
Proof.
  intros H Hne Hes. assert (Hes0 : es ≠ []).
  { destruct elems as [|a elems]; [done|]. cbn in Hes. destruct (read _ _); [|done]. cbn in Hes. destruct (raw_elements elems); [|done]. by injection Hes as <-. }
  assert (E : th8FindListInCache TH8_CACHE_STRING elems c = let* es := raw_elements elems in let* c := th8CacheMutexEnter ready recursive c in
    let* (p, c) := find_locked debug false ready recursive sd (list_matches TH8_CACHE_STRING es) (create_list debug false ready recursive TH8_CACHE_STRING es) (list_key TH8_CACHE_STRING es) c in
    Ok (p, th8CacheMutexLeave ready c)) by (destruct elems; [by destruct Hne|reflexivity]).
  rewrite E, Hes. cbn [res_bind]. eapply ends_bind; [by apply (enter_ok U)|]. intros c1 (H1 & E1 & B1 & _).
  eapply ends_bind; [apply (find_locked_ok debug ready recursive sd (list_M es)); [by intros; eapply list_matches_ok| |exact H1]|].
  { intros. by eapply create_list_ok. }
  intros [p c2] (H2 & Hk & Hf). cbn [ends]. destruct (leave_ok U c2 H2) as (H3 & E3 & B3). split; [done|].
  split; [by eapply kept_ext; [..|exact Hk]|by eapply finds_ext; [..|exact Hf]].
Qed.

(** ** Removing *)

Lemma RemoveFromCache_ok U c t str z : inv 0 U c → text_of str = Ok z →
  ends (th8RemoveFromCache debug ready recursive sd t str c) (λ c', inv 0 U c' ∧ kept U (text_key t z) c c' ∧ entry_of c' (text_key t z) = None).
Proof.
  intros H Hz. unfold th8RemoveFromCache. unfold text_of in Hz. destruct (if snd str =? TH8_NOLEN then _ else _) as [n|]; [|done].
  cbn [res_bind] in Hz |- *. rewrite Hz. cbn [res_bind]. set (key := text_key t z). eapply ends_bind; [by apply (enter_ok U)|].
  intros c1 (H1 & E1 & B1 & P1 & _).
  assert (Hout : ∀ c2, inv held U c2 → kept U key c1 c2 → entry_of c2 key = None →
    ends (Ok (th8CacheMutexLeave ready c2)) (λ c', inv 0 U c' ∧ kept U key c c' ∧ entry_of c' key = None)).
  { intros c2 H2 Hk Hn. cbn [ends]. destruct (leave_ok U c2 H2) as (H3 & E3 & B3). split; [done|]. split; [by eapply kept_ext; [..|exact Hk]|by rewrite E3]. }
  assert (Hsame : (∀ a, dict_of c1 !! key = Some a → a = 0) → ends (Ok (th8CacheMutexLeave ready c1)) (λ c', inv 0 U c' ∧ kept U key c c' ∧ entry_of c' key = None)).
  { intros Hd. apply Hout; [done|apply kept_refl|]. apply no_entry; [done|]. intros a b. by apply (block_pos sd held U). }
  destruct (paCache c1) as [h|] eqn:Eh; [|apply Hsame; intros a; unfold dict_of; by rewrite Eh, lookup_empty].
  pose proof (i_table _ _ _ _ H1 h Eh) as Ht. destruct (t_find sd h key true Ht) as (o & Ho & Hd). rewrite Ho. cbn [fst].
  assert (Ed : dict_of c1 = dict h) by (unfold dict_of; by rewrite Eh).
  destruct o as [p|]; [|apply Hsame; rewrite Ed; intros a Ha; rewrite Ha in Hd; done].
  cbn [fmap option_fmap option_map] in Hd. destruct (Z.eqb_spec (pData p) 0) as [Hp|Hp].
  { apply Hsame. rewrite Ed. intros a Ha. rewrite Ha in Hd. injection Hd as <-. done. }
  assert (Hd1 : dict_of c1 !! key = Some (pData p)) by by rewrite Ed.
  destruct (entry_here sd held U c1 key _ H1 Hd1 Hp) as [e He]. destruct (live_entry sd held U c1 key _ e H1 He) as (_ & _ & Hbl & Hok).
  rewrite (entry_free_ok debug U _ _ _ key _ e c1 (i_good _ _ _ _ H1) eq_refl Hd1 Hp Hbl Hok). cbn [res_bind].
  pose proof (good_evict _ _ _ _ key _ e (i_good _ _ _ _ H1) Hd1 Hp Hbl Hok) as Hg. fold (evicted (pData p) e (blocks c1)) in Hg.
  apply (good_unslot _ _ _ _ key) in Hg; [|apply lookup_insert_eq]. rewrite delete_insert_eq in Hg. rewrite Ed in Hg.
  destruct (t_remove sd h key Ht) as [Ht' Hdr].
  set (c2 := set_table _ _ _). assert (Ed2 : dict_of c2 = delete key (dict_of c1)) by (rewrite Ed; exact Hdr).
  assert (H2 : inv held U c2).
  { split; [|intros h' [= <-]; exact Ht'|apply H1]. rewrite Ed2, Ed. exact Hg. }
  apply Hout; [done| |].
  - eapply kept_intro; [exact H1|exact H2|intros k' Hk'; by rewrite Ed2, lookup_delete_ne|..].
    + intros k' a e' Hk' Ha. destruct (live_entry sd held U c1 k' a e' H1 Ha) as (_ & _ & Hbl' & _).
      destruct (others_stay sd held U c1 key _ e k' a e' H1 Hk' He Ha) as [[Ha1 Ha2] Hx].
      cbn [c2 set_table set_blocks blocks]. split; [by rewrite evicted_ne|]. intros x Hc. destruct (Hx x Hc). by apply evicted_ne.
    + intros x Hx. destruct (mine_stays sd held U c1 key _ e x H1 He Hx). by apply evicted_ne.
  - apply no_entry; [intros a; by rewrite Ed2, lookup_delete_eq|]. intros a b. by apply (block_pos sd held U).
Qed.
End ops.
