(* ===== verification/CacheKeep.v ===== *)
(** * CacheKeep: the cache as a map from kinds and texts to values.

    What is kept for a text is found again under it, whatever other texts have
    the same hash; the numbers, the lists and the strings that the interpreter
    keeps; clearing. *)

From stdpp Require Import gmap.
From S2P Require Import Prelude Memory Strings Hash Lists VarTables VarRefs Cache CacheInv CacheFind CacheOps.
#[local] Open Scope Z_scope.
#[local] Open Scope res_scope.

Section keep.
Context (debug ready recursive : bool) (sd : seeds) {I : Type} `{CE : CacheEnv I}.
Implicit Types c : cache I.

#[local] Abbreviation TH8_ALLOC := (TH8_ALLOC debug false ready recursive).
#[local] Abbreviation Th8_FindInCache := (Th8_FindInCache debug false ready recursive sd).
#[local] Abbreviation inv := (inv sd).
#[local] Abbreviation join_key := (list_key TH8_CACHE_STRING).

(** What the union of an entry holds, with the block it points to. *)
Definition held_by c (e : Th8_CacheEntry) : rep * option block :=
  (u (value e), blocks c !! rep_ptr (u (value e))).
Definition nothing : rep * option block := (RNone, None).

(** What is kept for a text. *)
Definition value_of c (t : Z) (z : bytes) : option (rep * option block) :=
  match entry_of c (text_key t z) with
  | Some (_, e) =>
      if bool_decide (cacheType e = t ∧ nOriginal e = zlen z ∧ blocks c !! zOriginal e = Some (BBytes (z ++ [0])))
      then Some (held_by c e) else None
  | None => None
  end.

Lemma value_match L U c t z p e : inv L U c → t ≠ TH8_CACHE_STRING → entry_of c (text_key t z) = Some (p, e) → text_M t z (blocks c) e →
  value_of c t z = Some (held_by c e).
Proof.
  intros H Ht He (H1 & H2 & H3). unfold value_of. rewrite He. rewrite bool_decide_true; [done|]. split; [done|]. split; [done|].
  destruct (live_entry sd L U c _ p e H He) as (_ & _ & _ & _ & _ & Hk).
  destruct Hk as [(_ & _ & z' & (_ & Hz & Hn & _) & _)|(E & _)]; [|congruence].
  destruct (decide (z = [])) as [->|Hne]; [|by apply H3]. rewrite Hn in H2. apply zlen_0 in H2. by subst z'.
Qed.

Lemma value_none c t z : entry_of c (text_key t z) = None → value_of c t z = None.
Proof. intros H. unfold value_of. by rewrite H. Qed.

(** A value that is there is the entry's. *)
Lemma value_some L U c t z v : inv L U c → t ≠ TH8_CACHE_STRING → value_of c t z = Some v →
  ∃ p e, entry_of c (text_key t z) = Some (p, e) ∧ text_M t z (blocks c) e ∧ v = held_by c e.
Proof.
  intros H Ht Hv. unfold value_of in Hv. destruct (entry_of c (text_key t z)) as [[a e]|] eqn:E; [|done].
  case_bool_decide as Hb; [|done]. destruct Hb as (H1 & H2 & H3). injection Hv as <-. exists a, e. split; [done|]. split; [|done].
  split; [done|]. split; [done|]. intros _. destruct (live_entry sd L U c _ a e H E) as (_ & _ & _ & _ & _ & Hke).
  destruct Hke as [(_ & _ & z' & Hz & _)|(E1 & _)]; [|congruence]. pose proof Hz as (_ & Hz1 & _). rewrite H3 in Hz1. injection Hz1 as Hz1.
  apply app_inv_tail in Hz1. by subst z'.
Qed.

(** The entry of one text is not that of another. *)
Lemma value_other c t z p e t' z' : entry_of c (text_key t z) = Some (p, e) → text_M t z (blocks c) e →
  text_key t' z' = text_key t z → (t', z') ≠ (t, z) → value_of c t' z' = None.
Proof.
  intros He (H1 & H2 & H3) Hk Hne. unfold value_of. rewrite Hk, He. rewrite bool_decide_false; [done|].
  intros (E1 & E2 & E3). destruct (decide (z = [])) as [->|Hz].
  - rewrite E2 in H2. apply zlen_0 in H2. congruence.
  - destruct (H3 Hz) as (_ & H4 & _). rewrite H4 in E3. injection E3 as E3. apply app_inv_tail in E3. congruence.
Qed.

Lemma no_null L U c : inv L U c → blocks c !! 0 = None.
Proof. intros H. destruct (blocks c !! 0) eqn:E; [|done]. pose proof (block_pos sd L U c 0 _ H E). lia. Qed.

Lemma kept_value L L' U U' V key c c' t z : inv L U c → inv L' U' c' → kept V key c c' → text_key t z ≠ key → value_of c' t z = value_of c t z.
Proof.
  intros H H' [H1 H2 _] Hk. unfold value_of, held_by. rewrite H1 by done. destruct (entry_of c (text_key t z)) as [[p e]|] eqn:E; [|done].
  assert (Hx : ∀ x, x = zOriginal e ∨ x = rep_ptr (u (value e)) → blocks c' !! x = blocks c !! x).
  { intros x Hx. destruct (decide (x = 0)) as [->|Hz]; [by rewrite (no_null L U c), (no_null L' U' c')|].
    apply (H2 (text_key t z) p e); [done..|]. split; [done|]. destruct Hx; auto. }
  by rewrite (Hx (zOriginal e)), (Hx (rep_ptr (u (value e)))) by auto.
Qed.

(** What is kept for a list. *)
Definition join_kept c (es : list bytes) : option bytes :=
  match entry_of c (join_key es) with
  | Some (_, e) =>
      if bool_decide (cacheType e = TH8_CACHE_STRING ∧ blocks c !! azListElem e = Some (BArrays es))
      then match blocks c !! zData (value e) with Some (BBytes z) => Some (take (Z.to_nat (nData (value e))) z) | _ => None end
      else None
  | None => None
  end.

Lemma join_none c es : entry_of c (join_key es) = None → join_kept c es = None.
Proof. intros H. unfold join_kept. by rewrite H. Qed.

Lemma kept_join L L' U U' V key c c' es : inv L U c → inv L' U' c' → kept V key c c' → join_key es ≠ key → join_kept c' es = join_kept c es.
Proof.
  intros H H' [H1 H2 _] Hk. unfold join_kept. rewrite H1 by done. destruct (entry_of c (join_key es)) as [[p e]|] eqn:E; [|done].
  assert (Hx : ∀ x, x = azListElem e ∨ x = zOriginal e → blocks c' !! x = blocks c !! x).
  { intros x Hx. destruct (decide (x = 0)) as [->|Hz]; [by rewrite (no_null L U c), (no_null L' U' c')|].
    apply (H2 (join_key es) p e); [done..|]. split; [done|]. destruct Hx; auto. }
  rewrite (Hx (azListElem e)) by auto.
  assert (Ez : zData (value e) = 0 ∨ zData (value e) = zOriginal e).
  { destruct (live_entry sd L U c _ p e H E) as (_ & _ & _ & _ & _ & Hke).
    destruct Hke as [(_ & _ & z & (_ & _ & _ & ? & _) & _)|(_ & es' & _ & _ & _ & [[z (_ & _ & _ & ? & _)]|(_ & _ & ? & _)])]; [by right..|by left]. }
  destruct Ez as [E0|E0]; rewrite E0; [by rewrite (no_null L U c), (no_null L' U' c')|by rewrite (Hx (zOriginal e)) by auto].
Qed.

(** An entry with other elements, or of another kind. *)
Lemma join_other c es p e : entry_of c (join_key es) = Some (p, e) → (cacheType e = TH8_CACHE_STRING → blocks c !! azListElem e ≠ Some (BArrays es)) → join_kept c es = None.
Proof. intros He H. unfold join_kept. rewrite He, bool_decide_false; [done|]. intros [H1 H2]. by apply H. Qed.

(** What a search makes of the values: the one of the text is there, as it was or
    new; another with the same hash is lost. *)
Definition apart (t : Z) (z : bytes) c c' : Prop :=
  (∀ t' z', (t', z') ≠ (t, z) → value_of c' t' z' = value_of c t' z' ∨ value_of c' t' z' = None ∧ text_key t' z' = text_key t z) ∧
  ∀ es, join_kept c' es = join_kept c es ∨ join_kept c' es = None.

Definition searched (t : Z) (z : bytes) c (p : Z) c' : Prop :=
  apart t z c c' ∧
  if decide (p = 0) then value_of c' t z = None
  else value_of c' t z = Some (default nothing (value_of c t z)) ∧
    ∃ e, entry_of c' (text_key t z) = Some (p, e) ∧ text_M t z (blocks c') e ∧ value_of c' t z = Some (held_by c' e).

Lemma finds_searched U c c' t z p : inv 0 U c → inv 0 U c' → t ≠ TH8_CACHE_STRING →
  kept U (text_key t z) c c' → finds (text_M t z) (text_key t z) U c p c' → searched t z c p c'.
Proof.
  intros H H' Ht Hk Hf. unfold finds in Hf. split.
  - split; [intros t' z' Hne|intros es].
    + destruct (decide (text_key t' z' = text_key t z)) as [E|E]; [right|left; by eapply (kept_value 0 0 U U U)].
      split; [|done]. case_decide as Hp; [apply value_none; by rewrite E|]. destruct Hf as (e & He & HM & _). by eapply value_other.
    + destruct (decide (join_key es = text_key t z)) as [E|E]; [right|left; by eapply (kept_join 0 0 U U U)].
      case_decide as Hp; [apply join_none; by rewrite E|]. destruct Hf as (e & He & (Hte & _) & _). apply (join_other _ _ p e); [by rewrite E|]. congruence.
  - case_decide as Hp; [by apply value_none|]. destruct Hf as (e & He & HM & Hor).
    pose proof (value_match 0 U c' t z p e H' Ht He HM) as Hv. split; [|by exists e]. rewrite Hv. f_equal.
    destruct Hor as [[He0 Hb]|[[Hr _] Hmiss]].
    + unfold held_by. rewrite Hb in HM |- *. by rewrite (value_match 0 U c t z p e H Ht He0 HM).
    + destruct (value_of c t z) as [r|] eqn:E; [|cbn; unfold held_by; rewrite Hr; cbn [rep_ptr]; by rewrite (no_null 0 U)].
      exfalso. destruct (value_some 0 U c t z r H Ht E) as (a & e0 & E0 & HM0 & _). by apply (Hmiss a e0).
Qed.

Lemma search_ok U c t str z : inv 0 U c → 1 <= t <= 11 → t ≠ TH8_CACHE_STRING → text_of str = Ok z →
  ends (Th8_FindInCache t str c) (λ '(p, c'), inv 0 U c' ∧ kept U (text_key t z) c c' ∧ searched t z c p c').
Proof.
  intros H Ht Hs Hz. eapply ends_weaken; [by apply (FindInCache_ok debug ready recursive sd U c t str z)|].
  intros [p c'] (H1 & H2 & H3). split; [done|]. split; [done|]. by apply (finds_searched U).
Qed.

(** ** Storing in an entry *)

Lemma update_ok L U U' c k p e e' : inv L U c → entry_of c k = Some (p, e) → entry_ok (blocks c) k e' → (∀ a, a ∈ U' → 0 < a) →
  (∀ a, 0 < a → block_refs a (BEntry e') + mine U' a = block_refs a (BEntry e) + mine U a) →
  (∀ a, a ∈ U → a ∉ U' → ∃ b, blocks c !! a = Some b ∧ leaf b) →
  inv L U' (put p (BEntry e') c) ∧ entry_of (put p (BEntry e') c) k = Some (p, e') ∧ kept U k c (put p (BEntry e') c).
Proof.
  intros H He Hok HU Hr Hleaf. destruct (live_entry sd L U c k p e H He) as (Hd & Hp & Hbl & Hok0).
  assert (H' : inv L U' (put p (BEntry e') c)).
  { split; [|apply H|apply H]. apply (good_entry U U' _ _ _ p e e' (i_good _ _ _ _ H)); [done..| |done]. intros k' Hk' _.
    assert (k' = k) as -> by by apply (entry_key _ _ _ _ (i_good _ _ _ _ H) k' k p). done. }
  split; [done|]. split.
  - unfold entry_of. change (dict_of (put p (BEntry e') c)) with (dict_of c). rewrite Hd. cbn. by rewrite lookup_insert_eq.
  - split.
    + intros k' Hk'. unfold entry_of. change (dict_of (put p (BEntry e') c)) with (dict_of c). destruct (dict_of c !! k') as [a|] eqn:Ea; [|done].
      cbn. rewrite lookup_insert_ne; [done|]. intros <-. by apply Hk', (entry_key _ _ _ _ (i_good _ _ _ _ H) k' k p).
    + intros k' a e2 x Hk' Ha Hx. destruct (others_stay sd L U c k p e k' a e2 H Hk' He Ha) as [_ Hs]. destruct (Hs x Hx) as [Hne _]. cbn. by rewrite lookup_insert_ne.
    + intros x Hx. destruct (mine_stays sd L U c k p e x H He Hx) as [Hne _]. cbn. by rewrite lookup_insert_ne.
Qed.

Lemma set_rep_ok bl k e r : entry_ok bl k e → rep_ok bl (set_rep r e) → entry_ok bl k (set_rep r e).
Proof. intros (H1 & _ & H3) Hr. split; [done|]. split; [done|]. exact H3. Qed.

(** A search, and a store in the entry it found. *)
Lemma entry_store_ok U U' c c1 t z p e r : inv 0 U c1 → t ≠ TH8_CACHE_STRING → searched t z c p c1 → p ≠ 0 → entry_of c1 (text_key t z) = Some (p, e) →
  rep_ok (blocks c1) (set_rep r e) → (∀ a, a ∈ U' → 0 < a) →
  (∀ a, 0 < a → one a (rep_ptr r) + mine U' a = one a (rep_ptr (u (value e))) + mine U a) →
  (∀ a, a ∈ U → a ∉ U' → ∃ b, blocks c1 !! a = Some b ∧ leaf b) →
  let c2 := put p (BEntry (set_rep r e)) c1 in
  inv 0 U' c2 ∧ kept U (text_key t z) c1 c2 ∧ apart t z c c2 ∧ entry_of c2 (text_key t z) = Some (p, set_rep r e) ∧ value_of c2 t z = Some (held_by c2 (set_rep r e)).
Proof.
  intros H Ht [Ha Hp] Hz He Hr HU Hsum Hleaf c2. rewrite decide_False in Hp by done. destruct Hp as (_ & e' & He' & HM & _).
  assert (e' = e) as -> by congruence. destruct (live_entry sd 0 U c1 _ p e H He) as (_ & _ & Hbl & Hok).
  destruct (update_ok 0 U U' c1 _ p e (set_rep r e) H He (set_rep_ok _ _ _ _ Hok Hr) HU) as (H2 & He2 & Hk2).
  { intros a Ha0. specialize (Hsum a Ha0). cbn. lia. }
  { done. }
  fold c2 in H2, He2, Hk2. split; [done|]. split; [done|].
  assert (HM2 : text_M t z (blocks c2) (set_rep r e)).
  { destruct HM as (H1 & H3 & H4). split; [done|]. split; [done|]. intros Hne. destruct (H4 Hne) as (H5 & H6 & H7).
    split; [done|]. split; [|done]. subst c2. cbn. rewrite lookup_insert_ne; [done|]. intros E. rewrite <- E, Hbl in H6. done. }
  split_and!; [|done|by eapply value_match].
  split; [intros t' z' Hne; destruct (decide (text_key t' z' = text_key t z)) as [E|E]|intros es; destruct (decide (join_key es = text_key t z)) as [E|E]].
  - right. split; [by eapply value_other|done].
  - rewrite (kept_value 0 0 U U' U _ c1 c2 t' z' H H2 Hk2 E). by apply Ha.
  - right. apply (join_other _ _ p (set_rep r e)); [by rewrite E|]. destruct HM as (HMt & _). cbn. congruence.
  - rewrite (kept_join 0 0 U U' U _ c1 c2 es H H2 Hk2 E). by apply Ha.
Qed.

(** ** Numbers *)

Definition number_kept c (t : Z) (z : bytes) : option Z :=
  match value_of c t z with Some (RNumber _ v, _) => Some v | _ => None end.

Lemma number_type t : is_number t → 1 <= t <= 11 ∧ t ≠ TH8_CACHE_STRING.
Proof. unfold is_number, TH8_CACHE_INT, TH8_CACHE_WIDE, TH8_CACHE_DOUBLE, TH8_CACHE_BOOL, TH8_CACHE_STRING. lia. Qed.

Lemma number_rep bl k e t : entry_ok bl k e → cacheType e = t → is_number t → u (value e) = RNone ∨ ∃ v, u (value e) = RNumber t v.
Proof.
  unfold is_number, TH8_CACHE_INT, TH8_CACHE_WIDE, TH8_CACHE_DOUBLE, TH8_CACHE_BOOL.
  intros (_ & Hr & _) Ht Hn. unfold rep_ok, TH8_CACHE_LIST, TH8_CACHE_BIGINT, TH8_CACHE_BUFFER in Hr.
  destruct (u (value e)); [by left|right|exfalso; lia..]. destruct Hr as [-> _]. rewrite Ht. by eexists.
Qed.

Lemma find_number_ok U c t str z : inv 0 U c → is_number t → text_of str = Ok z →
  ends (find_number debug false ready recursive sd t str c) (λ '(o, c'), inv 0 U c' ∧ kept U (text_key t z) c c' ∧ ∃ p, searched t z c p c' ∧
    o = if decide (p = 0) then None else Some (number_kept c t z)).
Proof.
  intros H Hn Hz. destruct (number_type t Hn) as [Ht Hs]. unfold find_number. eapply ends_bind; [by apply (search_ok U c t str z)|].
  intros [p c1] (H1 & Hk & Hf). destruct (Z.eqb_spec p 0) as [->|Hp].
  - cbn [ends]. split; [done|]. split; [done|]. by exists 0.
  - pose proof Hf as [_ Hv]. rewrite decide_False in Hv by done. destruct Hv as (Hv & e & He & HM & Hv2).
    destruct (live_entry sd 0 U c1 _ p e H1 He) as (_ & _ & Hbl & Hok). rewrite (entry_at_ok c1 p e Hbl Hp). cbn [res_bind].
    destruct HM as (HMt & _). rewrite Hv2 in Hv. injection Hv as Hv. unfold held_by in Hv.
    destruct (number_rep _ _ e t Hok HMt Hn) as [E|[v E]]; rewrite E in Hv |- *; cbn [number_of res_bind].
    + cbn [ends]. split; [done|]. split; [done|]. exists p. split; [done|]. rewrite decide_False by done. f_equal. unfold number_kept.
      destruct (value_of c t z) as [[r b]|]; [|done]. cbn in Hv. by injection Hv as <- _.
    + rewrite Z.eqb_refl. cbn [res_bind ends]. split; [done|]. split; [done|]. exists p. split; [done|]. rewrite decide_False by done. f_equal. unfold number_kept.
      destruct (value_of c t z) as [[r b]|]; [|done]. cbn in Hv. by injection Hv as <- _.
Qed.

Lemma store_number_ok U c t str z v : inv 0 U c → is_number t → text_of str = Ok z →
  ends (store_number debug false ready recursive sd t str v c) (λ c', inv 0 U c' ∧ kept U (text_key t z) c c' ∧ apart t z c c' ∧
    (number_kept c' t z = Some v ∨ value_of c' t z = None)).
Proof.
  intros H Hn Hz. destruct (number_type t Hn) as [Ht Hs]. unfold store_number. eapply ends_bind; [by apply (search_ok U c t str z)|].
  intros [p c1] (H1 & Hk & Hf). destruct (Z.eqb_spec p 0) as [->|Hp].
  - cbn [ends]. destruct Hf as [Ha Hv]. split_and!; [done..|]. by right.
  - pose proof Hf as [_ Hv]. rewrite decide_False in Hv by done. destruct Hv as (_ & e & He & HM & _).
    destruct (live_entry sd 0 U c1 _ p e H1 He) as (_ & _ & Hbl & Hok). rewrite (entry_at_ok c1 p e Hbl Hp). cbn [res_bind ends].
    destruct HM as (HMt & _).
    destruct (entry_store_ok U U c c1 t z p e (RNumber t v) H1 Hs Hf Hp He) as (H2 & Hk2 & Ha2 & _ & Hv2); [by split|apply H1| |done|].
    { intros a _. destruct (number_rep _ _ e t Hok HMt Hn) as [E|[v' E]]; by rewrite E. }
    split; [done|]. split; [by eapply kept_trans|]. split; [done|]. left. unfold number_kept. by rewrite Hv2.
Qed.
End keep.
