(* ===== verification/CacheLists.v ===== *)
(** * CacheLists: lists in the cache, clearing it, and its promise to Lists.

    The elements of a text that was split are found again as they were; the
    string of a list is the one that was set.  The interface [ListInterp] of
    Lists, with its laws, is given by the cache. *)

From stdpp Require Import gmap.
From S2P Require Import Prelude Memory Strings Hash Lists VarTables VarRefs Cache CacheInv CacheFind CacheOps CacheKeep.
#[local] Open Scope Z_scope.
#[local] Open Scope res_scope.

Section lists.
Context (debug ready recursive : bool) (sd : seeds) {I : Type} `{CE : CacheEnv I}.
Implicit Types c : cache I.

#[local] Abbreviation inv := (inv sd).

(** ** Allocating in between *)

Lemma same_entries c c' k : same_memory c c' → entry_of c' k = entry_of c k.
Proof. intros (E1 & _ & E3 & _). unfold entry_of, dict_of. by rewrite E1, E3. Qed.

Lemma same_value c c' t z : same_memory c c' → value_of c' t z = value_of c t z.
Proof. intros Hs. pose proof Hs as (_ & _ & E3 & _). unfold value_of, held_by. by rewrite (same_entries c c' _ Hs), E3. Qed.

Lemma join_same c c' es : same_memory c c' → join_kept c' es = join_kept c es.
Proof. intros Hs. pose proof Hs as (_ & _ & E & _). unfold join_kept. by rewrite (same_entries c c' _ Hs), E. Qed.

(** What every key has stays. *)
Lemma kept_everywhere L L' U U' V c c' t z : inv L U c → inv L' U' c' → (∀ k, kept V k c c') → value_of c' t z = value_of c t z.
Proof.
  intros H H' Hk. apply (kept_value sd L L' U U' V (0 :: text_key t z) c c' t z H H' (Hk _)). intros E.
  apply (f_equal length) in E. cbn in E. lia.
Qed.

Lemma kept_all_join L L' U U' V c c' es : inv L U c → inv L' U' c' → (∀ k, kept V k c c') → join_kept c' es = join_kept c es.
Proof.
  intros H H' Hk. apply (kept_join sd L L' U U' V (0 :: list_key TH8_CACHE_STRING es) c c' es H H' (Hk _)). intros E.
  apply (f_equal length) in E. cbn in E. lia.
Qed.

Lemma kept_all_entry V c c' k : (∀ k, kept V k c c') → entry_of c' k = entry_of c k.
Proof. intros Hk. apply (k_entry _ _ _ _ (Hk (0 :: k))). intros E. apply (f_equal length) in E. cbn in E. lia. Qed.

(** A new block of the caller. *)
Lemma grow_ok L U c b : inv L U c → leaf b → let '(q, c') := new_block b c in
  q ≠ 0 ∧ inv L ({[q]} ∪ U) c' ∧ (q ∉ U) ∧ blocks c' !! q = Some b ∧
  (∀ k, kept U k c c') ∧ ∀ x b, blocks c !! x = Some b → blocks c' !! x = Some b.
Proof.
  intros H Hl. pose proof (i_good _ _ _ _ H) as Hg. pose proof (g_next _ _ _ _ Hg) as Hn. destruct (fresh_refs _ _ _ _ Hg) as [_ Hu].
  pose proof (good_fresh _ _ _ _ Hg) as Hf. cbn. set (c' := mkState _ _ _ _ _ _).
  assert (Hold : ∀ x b, blocks c !! x = Some b → blocks c' !! x = Some b).
  { intros x b' Hb. cbn. rewrite lookup_insert_ne; [done|congruence]. }
  assert (H' : inv L ({[nNext c]} ∪ U) c').
  { split; [|apply H|apply H]. apply (good_alloc _ _ _ _ b Hg). intros a _. by apply leaf_refs. }
  assert (He : ∀ k, entry_of c' k = entry_of c k).
  { intros k. destruct (entry_of c k) as [[a e]|] eqn:E.
    - destruct (live_entry sd L U c k a e H E) as (Hd & _ & Hb & _). unfold entry_of. change (dict_of c') with (dict_of c). by rewrite Hd, (Hold a _ Hb).
    - apply no_entry; [|intros a b'; by apply (block_pos sd L ({[nNext c]} ∪ U))]. change (dict_of c') with (dict_of c). intros a Ha.
      destruct (decide (a = 0)) as [|Hz]; [done|]. destruct (entry_here sd L U c k a H Ha Hz). congruence. }
  assert (Hk : ∀ k, kept U k c c').
  { intros k. split; [done|..].
    - intros k' a e x _ Ha Hx. destruct (live_entry sd L U c k' a e H Ha) as (_ & _ & _ & Hok).
      destruct (child_leaf _ _ _ _ Hok Hx) as (b' & Hb & _). rewrite Hb. by apply Hold.
    - intros x Hx. destruct (mine_live _ _ _ _ Hg x Hx) as [b' Hb]. rewrite Hb. by apply Hold. }
  split_and!; [lia|done|done|apply lookup_insert_eq|done|done].
Qed.

Lemma leave_U U c p b : inv 0 U c → p ∈ U → blocks c !! p = Some b → leaf b → inv 0 (U ∖ {[p]}) (set_blocks (delete p (blocks c)) c).
Proof.
  intros H Hp Hb Hl. split; [|apply H|apply H]. apply (good_free _ _ _ _ p b (i_good _ _ _ _ H) Hp Hb). intros a _. by apply leaf_refs.
Qed.

Lemma alloc_ends L U site c : inv L U c → ends (TH8_ALLOC debug false ready recursive site c) (λ '(ok, c'),
  inv L U c' ∧ same_memory c c').
Proof. intros H. destruct (alloc_ok debug ready recursive site c) as (ok & c' & -> & Hs). cbn [ends]. split; [by eapply same_inv|done]. Qed.

Lemma same_apart t z c c1 c2 : apart t z c c1 → (∀ t z, value_of c2 t z = value_of c1 t z) → (∀ es, join_kept c2 es = join_kept c1 es) → apart t z c c2.
Proof. intros [H1 H2] E1 E2. split; [intros t' z' Hne; rewrite E1; by apply H1|intros es; rewrite E2; by apply H2]. Qed.

(** ** The elements of a text *)

Definition list_kept c (z : bytes) : option (list bytes) :=
  match value_of c TH8_CACHE_LIST z with Some (RSplit _ _, Some (BArrays es)) => Some es | _ => None end.

Lemma list_rep U c k p e : inv 0 U c → entry_of c k = Some (p, e) → cacheType e = TH8_CACHE_LIST →
  u (value e) = RNone ∨ ∃ az es, u (value e) = RSplit az (zlen es) ∧ az ≠ 0 ∧ blocks c !! az = Some (BArrays es).
Proof.
  intros H He Ht. destruct (live_entry sd 0 U c k p e H He) as (_ & _ & _ & _ & Hr & _). unfold rep_ok in Hr.
  unfold is_number, TH8_CACHE_LIST, TH8_CACHE_BIGINT, TH8_CACHE_BUFFER, TH8_CACHE_INT, TH8_CACHE_WIDE, TH8_CACHE_DOUBLE, TH8_CACHE_BOOL in *.
  destruct (u (value e)) as [|t v|az n|q|q n m]; [by left|lia|right|lia..].
  destruct Hr as (_ & Hz & es & Hes & ->). by exists az, es.
Qed.

Lemma list_type : 1 <= TH8_CACHE_LIST <= 11 ∧ TH8_CACHE_LIST ≠ TH8_CACHE_STRING.
Proof. by unfold TH8_CACHE_LIST, TH8_CACHE_STRING. Qed.

(** A search for a list, and what its entry holds. *)
Lemma split_search U c str z : inv 0 U c → text_of str = Ok z →
  ends (Th8_FindInCache debug false ready recursive sd TH8_CACHE_LIST str c) (λ '(p, c'), inv 0 U c' ∧ kept U (text_key TH8_CACHE_LIST z) c c' ∧
    searched TH8_CACHE_LIST z c p c' ∧
    if decide (p = 0) then True
    else ∃ e, entry_at p c' = Ok e ∧ entry_of c' (text_key TH8_CACHE_LIST z) = Some (p, e) ∧ cacheType e = TH8_CACHE_LIST ∧
      match list_kept c z with
      | None => u (value e) = RNone ∧ list_kept c' z = None
      | Some es => ∃ az, u (value e) = RSplit az (zlen es) ∧ az ≠ 0 ∧ blocks c' !! az = Some (BArrays es) ∧ list_kept c' z = Some es
      end).
Proof.
  intros H Hz. destruct list_type as [Ht Hs]. eapply ends_weaken; [by apply (search_ok debug ready recursive sd U c _ str z)|].
  intros [p c1] (H1 & Hk & Hf). split; [done|]. split; [done|]. split; [done|]. case_decide as Hp; [done|].
  destruct Hf as [_ Hv]. rewrite decide_False in Hv by done. destruct Hv as (Hv & e & He & (HMt & _) & Hv2).
  destruct (live_entry sd 0 U c1 _ p e H1 He) as (_ & _ & Hbl & _). exists e. split; [by apply entry_at_ok|]. split; [done|]. split; [done|].
  assert (E : list_kept c1 z = list_kept c z).
  { unfold list_kept. rewrite Hv. by destruct (value_of c TH8_CACHE_LIST z) as [[]|]. }
  rewrite <- E. unfold list_kept. rewrite Hv2. unfold held_by. destruct (list_rep U c1 _ p e H1 He HMt) as [->|(az & es & -> & Haz & Hb)].
  - done.
  - cbn [rep_ptr]. rewrite Hb. by exists az.
Qed.

(** What a hit gives: a copy that is the caller's. *)
Definition copied (U : gset Z) (z : bytes) c (valid : bool) (q : Z) c' : Prop :=
  inv 0 (ptr_set q ∪ U) c' ∧ kept U (text_key TH8_CACHE_LIST z) c c' ∧ apart TH8_CACHE_LIST z c c' ∧
  (list_kept c' z = list_kept c z ∨ list_kept c' z = None) ∧
  (valid = true → is_Some (list_kept c z)) ∧
  (q ≠ 0 → valid = true ∧ (q ∉ U) ∧ ∃ es, list_kept c z = Some es ∧ blocks c' !! q = Some (BArrays es)).

Lemma copied_nothing U c c1 c2 z valid : inv 0 U c1 → kept U (text_key TH8_CACHE_LIST z) c c1 → apart TH8_CACHE_LIST z c c1 → same_memory c1 c2 →
  (list_kept c1 z = list_kept c z ∨ list_kept c1 z = None) → (valid = true → is_Some (list_kept c z)) → copied U z c valid 0 c2.
Proof.
  intros H1 Hk Ha Hs Hl Hvalid. assert (E : ∀ t z, value_of c2 t z = value_of c1 t z) by (intros; by apply same_value).
  assert (Ej : ∀ es, join_kept c2 es = join_kept c1 es) by (intros; by apply join_same).
  split_and!; [|by eapply kept_trans, same_kept|by eapply same_apart| |done|done].
  - unfold ptr_set. rewrite decide_True, (left_id_L ∅ (∪)) by done. by eapply same_inv.
  - unfold list_kept at 1 3. rewrite !E. exact Hl.
Qed.

Lemma copy_split_ok U c str z : inv 0 U c → text_of str = Ok z →
  ends (copy_split debug false ready recursive sd str c) (λ '(valid, q, c'), copied U z c valid q c').
Proof.
  intros H Hz. unfold copy_split. eapply ends_bind; [by apply (split_search U c str z)|]. intros [p c1] (H1 & Hk & [Ha Hv] & Hp).
  pose proof (copied_nothing U c c1) as Hstop.
  destruct (Z.eqb_spec p 0) as [->|Hpz].
  { rewrite decide_True in Hv by done. apply Hstop; [done..| |done]. right. unfold list_kept. by rewrite Hv. }
  rewrite decide_False in Hp by done. destruct Hp as (e & -> & He & Ht & Hes). cbn [res_bind].
  destruct (list_kept c z) as [es|] eqn:El.
  2: { destruct Hes as [-> Hes]. cbn [split_of res_bind]. apply Hstop; try done. by right. }
  destruct Hes as (az & -> & Haz & Hb & Hes). cbn [split_of res_bind].
  assert (Hstop' : ∀ c2, same_memory c1 c2 → copied U z c true 0 c2).
  { intros c2 Hs. apply (Hstop c2); try done; first [left; congruence|rewrite El; by eexists]. }
  destruct (TH8_MAX_LIST_ELEMENTS <? zlen es); [by apply Hstop'|].
  assert (E0 : (if zlen es =? 0 then Ok [] else arrays_at az c1) = Ok es).
  { destruct (Z.eqb_spec (zlen es) 0) as [E|E]; [apply zlen_0 in E; by subst|by apply arrays_at_ok]. }
  rewrite E0. cbn [res_bind]. destruct (arrays_size _ _) as [n|]; [|by apply Hstop']. destruct (n =? 0); [by apply Hstop'|].
  eapply ends_bind; [by apply (alloc_ends 0 U _ c1)|]. intros [ok c2] [H2 Hs]. destruct ok; cbn [negb]; [|by apply Hstop'].
  assert (Hb2 : blocks c2 !! az = Some (BArrays es)) by (destruct Hs as (_ & _ & -> & _); done).
  rewrite (arrays_at_ok c2 az es Hb2 Haz). cbn [res_bind]. pose proof (grow_ok 0 U c2 (BArrays es) H2 Logic.I) as Hg.
  destruct (new_block (BArrays es) c2) as [q c3]. destruct Hg as (Hq & H3 & Hu & Hb3 & Hk3 & _). cbn [ends].
  assert (E : ∀ t z, value_of c3 t z = value_of c1 t z).
  { intros t' z'. rewrite (kept_everywhere 0 0 U ({[q]} ∪ U) U c2 c3 t' z' H2 H3 Hk3). by apply same_value. }
  assert (Ej : ∀ es, join_kept c3 es = join_kept c1 es).
  { intros es'. rewrite (kept_all_join 0 0 U ({[q]} ∪ U) U c2 c3 es' H2 H3 Hk3). by apply join_same. }
  split_and!; [|eapply kept_trans; [by eapply kept_trans, same_kept|done]|by eapply same_apart| |by eexists|].
  - unfold ptr_set. by rewrite decide_False.
  - left. unfold list_kept at 1. rewrite E. rewrite El. exact Hes.
  - intros _. split; [done|]. split; [done|]. by exists es.
Qed.

(** ** Keeping them *)

Lemma same_searched t z c p c1 c2 : searched t z c p c1 → same_memory c1 c2 → searched t z c p c2.
Proof.
  intros [Ha Hp] Hs. assert (E : ∀ t z, value_of c2 t z = value_of c1 t z) by (intros; by apply same_value).
  assert (Eb : blocks c2 = blocks c1) by apply Hs.
  split; [eapply same_apart; [exact Ha|done|intros; by apply join_same]|]. rewrite !E. unfold held_by in *. by rewrite (same_entries c1 c2), Eb.
Qed.

(** The elements are put in an entry that holds none. *)
Lemma keep_here_ok U c c2 z p e l : inv 0 U c2 → searched TH8_CACHE_LIST z c p c2 → p ≠ 0 → entry_of c2 (text_key TH8_CACHE_LIST z) = Some (p, e) → u (value e) = RNone →
  let '(q, c3) := new_block (BArrays l) c2 in let c4 := put p (BEntry (set_rep (RSplit q (zlen l)) e)) c3 in
  entry_at p c3 = Ok e ∧ inv 0 U c4 ∧ kept U (text_key TH8_CACHE_LIST z) c2 c4 ∧ apart TH8_CACHE_LIST z c c4 ∧ list_kept c4 z = Some l.
Proof.
  intros H2 [Ha Hf] Hpz He Hr. pose proof (grow_ok 0 U c2 (BArrays l) H2 Logic.I) as Hg. destruct (new_block (BArrays l) c2) as [q c3].
  destruct Hg as (Hq & H3 & Hu & Hb3 & Hk3 & Hold).
  assert (Ej3 : ∀ es, join_kept c3 es = join_kept c2 es) by (intros; by rewrite (kept_all_join 0 0 U ({[q]} ∪ U) U c2 c3) by done).
  assert (E3 : ∀ t z, value_of c3 t z = value_of c2 t z) by (intros; by rewrite (kept_everywhere 0 0 U ({[q]} ∪ U) U c2 c3) by done).
  assert (He3 : entry_of c3 (text_key TH8_CACHE_LIST z) = Some (p, e)) by by rewrite (kept_all_entry U c2 c3 _ Hk3).
  destruct (live_entry sd 0 _ c3 _ p e H3 He3) as (_ & _ & Hbl & _). split; [by apply entry_at_ok|].
  assert (Ht : cacheType e = TH8_CACHE_LIST).
  { rewrite decide_False in Hf by done. destruct Hf as (_ & e' & He' & (Ht & _) & _). congruence. }
  assert (Hf3 : searched TH8_CACHE_LIST z c p c3).
  { split; [by eapply same_apart|]. rewrite decide_False by done. rewrite decide_False in Hf by done.
    destruct Hf as (Hf1 & e' & He' & HM & _). split; [by rewrite E3|]. exists e. split; [done|].
    assert (e' = e) as -> by congruence. assert (HM3 : text_M TH8_CACHE_LIST z (blocks c3) e).
    { destruct HM as (M1 & M2 & M3). split; [done|]. split; [done|]. intros Hz0. destruct (M3 Hz0) as (T1 & T2 & T3). split; [done|]. split; [by apply Hold|done]. }
    split; [done|]. by apply (value_match sd 0 ({[q]} ∪ U) c3 _ z p e). }
  destruct (entry_store_ok sd ({[q]} ∪ U) U c c3 _ z p e (RSplit q (zlen l)) H3 (proj2 list_type) Hf3 Hpz He3) as (H4 & Hk4 & Ha4 & _ & Hv4).
  { split; [done|]. split; [done|]. by exists l. }
  { apply H2. }
  { intros a Ha0. rewrite Hr. cbn [rep_ptr]. rewrite mine_union, (one_ne a 0) by (done || lia). lia. }
  { intros a [->%elem_of_singleton|?]%elem_of_union Hna; [|done]. by exists (BArrays l). }
  split_and!; [done| |done|].
  - eapply kept_trans; [apply Hk3|]. destruct Hk4 as [K1 K2 K3]. split; [done|done|]. intros x Hx. apply K3. set_solver.
  - unfold list_kept. rewrite Hv4. unfold held_by. cbn [set_rep set_value value u rep_ptr].
    assert (p ≠ q). { intros ->. rewrite Hb3 in Hbl. done. }
    cbn. rewrite lookup_insert_ne by done. by rewrite Hb3.
Qed.

Lemma store_split_ok U c str z es : inv 0 U c → text_of str = Ok z → es ≠ [] →
  ends (store_split debug false ready recursive sd str es c) (λ c', inv 0 U c' ∧ kept U (text_key TH8_CACHE_LIST z) c c' ∧
    apart TH8_CACHE_LIST z c c' ∧
    (list_kept c' z = list_kept c z ∨ list_kept c z = None ∧ list_kept c' z = Some es ∨ list_kept c' z = None)).
Proof.
  intros H Hz Hne. unfold store_split. eapply ends_bind; [by apply (split_search U c str z)|]. intros [p c1] (H1 & Hk & Hf & Hp).
  pose proof Hf as [Ha Hv]. destruct (Z.eqb_spec p 0) as [->|Hpz].
  { cbn [ends]. rewrite decide_True in Hv by done. split_and!; [done..|]. right; right. unfold list_kept. by rewrite Hv. }
  rewrite decide_False in Hp by done. destruct Hp as (e & -> & He & Ht & Hes). cbn [res_bind].
  destruct (list_kept c z) as [es0|] eqn:El.
  { destruct Hes as (az & -> & Haz & Hb & Hes). cbn [split_of res_bind ends]. split_and!; [done..|]. by left. }
  destruct Hes as [Hr Hes]. rewrite Hr. cbn [split_of res_bind]. destruct es as [|e0 es]; [done|]. set (l := e0 :: es) in *.
  destruct (arrays_size _ _) as [n|]; [|cbn [ends]; split_and!; [done..|]; by left].
  eapply ends_bind; [by apply (alloc_ends 0 U _ c1)|]. intros [ok c2] [H2 Hs].
  destruct ok; cbn [negb].
  2: { cbn [ends]. split_and!; [done|by eapply kept_trans, same_kept|eapply same_apart; [done|intros; by apply same_value|intros; by apply join_same]|].
       left. unfold list_kept at 1. by rewrite (same_value c1). }
  assert (He2 : entry_of c2 (text_key TH8_CACHE_LIST z) = Some (p, e)) by by rewrite (same_entries c1 c2).
  pose proof (keep_here_ok U c c2 z p e l H2 (same_searched _ _ _ _ _ _ Hf Hs) Hpz He2 Hr) as Hkeep.
  destruct (new_block (BArrays l) c2) as [q c3]. destruct Hkeep as (-> & H4 & Hk4 & Ha4 & Hl4). cbn [res_bind ends].
  split_and!; [done| |done|by right; left]. eapply kept_trans; [by eapply kept_trans, same_kept|done].
Qed.
End lists.
