(* ===== verification/CacheClear.v ===== *)
(** * CacheClear: clearing the cache, and the pool of buffers.

    Clearing leaves what the caller owns and nothing of the cache.  A buffer of the
    pool is zeroed, large enough, and nobody's else until it is freed. *)

From stdpp Require Import gmap.
From S2P Require Import Prelude Memory Strings Hash Lists VarTables VarRefs Cache CacheInv CacheFind CacheOps CacheKeep CacheLists.
#[local] Open Scope Z_scope.
#[local] Open Scope res_scope.

Section clear.
Context (debug ready recursive : bool) (sd : seeds) {I : Type} `{CE : CacheEnv I}.
Implicit Types c : cache I.

#[local] Abbreviation inv := (inv sd).

(** ** Clearing *)

Lemma visit_free U nx (l : list Th8_HashEntry) : ∀ bl c, NoDup (map zKey l) → good U (map_of l) bl nx →
  ∃ bl', visit (th8CacheFreeCallback debug) l (Ok (set_blocks bl c)) = Ok (set_blocks bl' c) ∧ good U ∅ bl' nx ∧ ∀ x, x ∈ U → bl' !! x = bl !! x.
Proof.
  induction l as [|p l IH]; intros bl c Hn H; cbn [visit].
  { by exists bl. }
  cbn [map] in Hn. apply NoDup_cons in Hn as [Hk Hn]. rewrite map_of_cons in H.
  assert (Hnew : map_of l !! zKey p = None).
  { apply dict_rest. intros q Hq E. apply Hk. rewrite <- E. by apply (list_elem_of_fmap_2 zKey). }
  unfold th8CacheFreeCallback at 1. cbn [res_bind]. change (TH8_OK =? TH8_OK) with true. cbn iota.
  destruct (Z.eqb_spec (pData p) 0) as [E|Hp].
  - rewrite E in H. apply (good_unslot _ _ _ _ (zKey p)) in H; [|apply lookup_insert_eq]. rewrite delete_insert_eq, delete_id in H by done. by apply IH.
  - assert (Hd : <[zKey p := pData p]> (map_of l) !! zKey p = Some (pData p)) by apply lookup_insert_eq.
    destruct (g_entries _ _ _ _ H _ _ Hd) as [?|(e & He & Hok)]; [done|].
    rewrite (entry_free_ok debug U _ bl nx (zKey p) (pData p) e (set_blocks bl c) H eq_refl Hd Hp He Hok).
    pose proof (good_evict _ _ _ _ _ _ e H Hd Hp He Hok) as Hg. fold (evicted (pData p) e bl) in Hg.
    apply (good_unslot _ _ _ _ (zKey p)) in Hg; [|apply lookup_insert_eq]. rewrite delete_insert_eq, delete_insert_eq, delete_id in Hg by done.
    destruct (IH _ c Hn Hg) as (bl' & E & Hg' & Hu). exists bl'. split; [exact E|]. split; [done|]. intros x Hx. rewrite (Hu x Hx).
    destruct (children_distinct _ _ _ _ _ _ e H He Hok) as (Hc & _). destruct (entry_only _ _ _ _ H _ _ Hd Hp) as (_ & Hpu & _).
    apply evicted_ne; [congruence|]. intros Hcx. by destruct (Hc x Hcx).
Qed.

Lemma ClearCache_ok U c : inv 0 U c →
  ends (th8ClearCache debug ready recursive c) (λ c', inv 0 U c' ∧ paCache c' = None ∧ ∀ x, x ∈ U → blocks c' !! x = blocks c !! x).
Proof.
  intros H. unfold th8ClearCache. eapply ends_bind; [by apply (enter_ok ready recursive sd U)|]. intros c1 (H1 & _ & B1 & P1 & _).
  destruct (paCache c1) as [h|] eqn:Eh.
  - unfold Th8_HashIterate. pose proof (i_table _ _ _ _ H1 h Eh) as Ht. pose proof (i_good _ _ _ _ H1) as Hg.
    destruct (visit_free U (nNext c1) (entries h) (blocks c1) c1) as (bl' & E & Hg' & Hu); [apply Ht| |].
    { replace (map_of (entries h)) with (dict_of c1); [done|]. unfold dict_of. by rewrite Eh. }
    replace (set_blocks (blocks c1) c1) with c1 in E by by destruct c1. unfold entries in E. rewrite E. cbn [res_bind ends].
    set (c2 := set_table None _ _). assert (H2 : inv (held ready) U c2) by (split; [exact Hg'|done|apply H1]).
    destruct (leave_ok ready sd U c2 H2) as (H3 & _ & B3). split; [done|]. split; [by unfold th8CacheMutexLeave; destruct ready|].
    intros x Hx. rewrite B3. cbn. rewrite Hu by done. by rewrite B1.
  - cbn [res_bind ends]. destruct (leave_ok ready sd U c1 H1) as (H3 & _ & B3). split; [done|].
    split; [unfold th8CacheMutexLeave; by destruct ready|]. intros x Hx. by rewrite B3, B1.
Qed.

(** Without entries, a block is the caller's, or owned by one that is. *)
Lemma cleared_blocks L U c : inv L U c → paCache c = None → ∀ a b, blocks c !! a = Some b →
  a ∈ U ∨ leaf b ∧ ∃ p b', p ∈ U ∧ blocks c !! p = Some b' ∧ block_refs a b' = 1.
Proof.
  intros [Hg _ _] Hn a b Hb. unfold dict_of in Hg. rewrite Hn in Hg.
  assert (Htop : ∀ a b, blocks c !! a = Some b → leaf b ∨ a ∈ U).
  { intros x y Hx. destruct (g_top _ _ _ _ Hg x y Hx) as [?|[?|[k Hk]]]; [by left|by right|done]. }
  destruct (Htop a b Hb) as [Hl|?]; [|by left]. destruct (decide (a ∈ U)) as [|Hu]; [by left|right]. split; [done|].
  pose proof (g_addr _ _ _ _ Hg a b Hb) as Ha. pose proof (g_refs _ _ _ _ Hg a ltac:(lia)) as Hr.
  rewrite (alive_some _ _ _ Hb) in Hr. unfold refs, mine in Hr. rewrite decide_False, count_empty in Hr by done.
  destruct (msum_witness (λ _, block_refs a) (blocks c)) as (p & b' & Hp & H1); [lia|]. exists p, b'.
  destruct (owned_only _ _ _ _ Hg p b' a Hp ltac:(lia) H1) as (H2 & _). split; [|done].
  destruct (Htop p b' Hp) as [Hl'|?]; [|done]. rewrite (leaf_refs b' a Hl') in H1. lia.
Qed.

(** ** Writing to a block of the caller *)

Lemma buffer_write_ok L U c p b b' : inv L U c → p ∈ U → blocks c !! p = Some b → leaf b → leaf b' →
  inv L U (put p b' c) ∧ ∀ k, kept (U ∖ {[p]}) k c (put p b' c).
Proof.
  intros H Hp Hb Hl Hl'. assert (H' : inv L U (put p b' c)).
  { split; [|apply H|apply H]. apply (good_write _ _ _ _ p b b' (i_good _ _ _ _ H) Hp Hb).
    intros a _. by rewrite !leaf_refs. }
  split; [done|]. intros k. split.
  - intros k' _. destruct (entry_of c k') as [[a e]|] eqn:E.
    + destruct (live_entry sd L U c k' a e H E) as (Hd & _ & Hbl & _). unfold entry_of. change (dict_of (put p b' c)) with (dict_of c). rewrite Hd.
      destruct (mine_stays sd L U c k' a e p H E Hp). cbn. rewrite lookup_insert_ne by done. by rewrite Hbl.
    + apply no_entry; [|intros a b2; by apply (block_pos sd L U)]. change (dict_of (put p b' c)) with (dict_of c). intros a Ha.
      destruct (decide (a = 0)) as [|Hz]; [done|]. destruct (entry_here sd L U c k' a H Ha Hz). congruence.
  - intros k' a e x _ E Hx. destruct (mine_stays sd L U c k' a e p H E Hp) as [_ Hc]. cbn. apply lookup_insert_ne. by intros ->.
  - intros x Hx. cbn. apply lookup_insert_ne. set_solver.
Qed.

(** ** Size classes *)

Lemma class_size_double i : 0 <= i → class_size i * 2 = class_size (i + 1).
Proof. intros Hi. unfold class_size. rewrite Z.pow_add_r by lia. lia. Qed.

Lemma class_loop_ok fuel : ∀ n i, 0 <= i < 12 → let '(nClass, idx) := class_loop fuel n (class_size i) i in nClass = class_size idx ∧ i <= idx < 12.
Proof.
  unfold TH8_POOL_NUM_CLASSES. induction fuel as [|fuel IH]; intros n i Hi; cbn [class_loop]; [lia|].
  unfold TH8_POOL_NUM_CLASSES. destruct ((class_size i <? n) && (i <? 12 - 1)) eqn:E; [|lia].
  apply andb_prop in E as [_ E]. rewrite class_size_double by lia. pose proof (IH n (i + 1) ltac:(lia)) as H. destruct (class_loop _ _ _ _). lia.
Qed.

Lemma class_ok n idx k : th8BufferClassIndex n = Some (idx, k) → k = class_size idx ∧ 0 <= idx < 12 ∧ n <= k.
Proof.
  unfold th8BufferClassIndex. pose proof (class_loop_ok 12 n 0 ltac:(lia)) as H. change (class_size 0) with TH8_POOL_MIN_CLASS in H.
  destruct (class_loop _ _ _ _) as [k' i']. destruct (k' <? n) eqn:E; [done|]. intros [= -> ->]. lia.
Qed.

Lemma class_size_pos i : 0 <= i → 32 <= class_size i.
Proof. intros Hi. unfold class_size, TH8_POOL_MIN_CLASS. pose proof (Z.pow_pos_nonneg 2 i). lia. Qed.

(** The smallest class that fits. *)
Lemma class_loop_least fuel : ∀ n i, (∀ j, 0 <= j < i → class_size j < n) → 0 <= i < 12 →
  let '(_, idx) := class_loop fuel n (class_size i) i in ∀ j, 0 <= j < idx → class_size j < n.
Proof.
  unfold TH8_POOL_NUM_CLASSES. induction fuel as [|fuel IH]; intros n i Hs Hi; cbn [class_loop]; [done|].
  unfold TH8_POOL_NUM_CLASSES. destruct ((class_size i <? n) && (i <? 12 - 1)) eqn:E; [|done].
  apply andb_prop in E as [E1 E]. rewrite class_size_double by lia. apply (IH n (i + 1)); [|lia].
  intros j Hj. destruct (decide (j = i)) as [->|]; [lia|apply Hs; lia].
Qed.
End clear.
