(* ===== verification/CachePool.v ===== *)
(** * CachePool: the pool of buffers.

    A buffer is zeroed, at least as large as it was asked for, and nobody's else
    until it is freed; a freed one may be kept for the next of its class. *)

From stdpp Require Import gmap.
From S2P Require Import Prelude Memory Strings Hash Lists VarTables VarRefs Cache CacheInv CacheFind CacheOps CacheKeep CacheLists CacheClear.
#[local] Open Scope Z_scope.
#[local] Open Scope res_scope.

Section pool.
Context (debug ready recursive : bool) (sd : seeds) {I : Type} `{CE : CacheEnv I}.
Implicit Types c : cache I.

#[local] Abbreviation inv := (inv sd).

Definition pool_key (idx : Z) : bytes := text_key TH8_CACHE_BUFFER (th8BufferPoolKey idx).

Lemma pool_text idx : text_of (th8BufferPoolKey idx, 4) = Ok (th8BufferPoolKey idx).
Proof. reflexivity. Qed.

Lemma PoolKey_inj i j : th8BufferPoolKey i ++ [0] = th8BufferPoolKey j ++ [0] → i = j.
Proof.
  unfold th8BufferPoolKey. cbn [app]. intros E. injection E as E1 E2.
  pose proof (Z.div_mod i 10). pose proof (Z.div_mod j 10). lia.
Qed.

Lemma buffer_type : 1 <= TH8_CACHE_BUFFER <= 11 ∧ TH8_CACHE_BUFFER ≠ TH8_CACHE_STRING.
Proof. by unfold TH8_CACHE_BUFFER, TH8_CACHE_STRING. Qed.

(** What the entry of a class holds. *)
Lemma buffer_rep U c k p e idx : inv 0 U c → entry_of c k = Some (p, e) → text_M TH8_CACHE_BUFFER (th8BufferPoolKey idx) (blocks c) e → 0 <= idx < 12 →
  ∃ q n cap, buffer_of e = Ok (q, n, cap) ∧ rep_ptr (u (value e)) = q ∧
    (q ≠ 0 → (q ∉ U) ∧ ∃ b, blocks c !! q = Some (BBytes b) ∧ class_size idx <= zlen b).
Proof.
  intros H He (Ht & _ & Hz) Hi. destruct (live_entry sd 0 U c k p e H He) as (_ & _ & Hbl & Hok). pose proof Hok as (_ & Hr & _).
  destruct (children_distinct _ _ _ _ p k e (i_good _ _ _ _ H) Hbl Hok) as (Hc & _).
  destruct (Hz ltac:(done)) as (_ & Hzo & _). unfold rep_ok, buffer_of, child in *.
  unfold is_number, TH8_CACHE_LIST, TH8_CACHE_BIGINT, TH8_CACHE_BUFFER, TH8_CACHE_INT, TH8_CACHE_WIDE, TH8_CACHE_DOUBLE, TH8_CACHE_BOOL in *.
  destruct (u (value e)) as [|t v|az n|q|q n m]; [|lia|lia|lia|].
  - exists 0, 0, 0. by split_and!.
  - exists q, n, m. split; [done|]. split; [done|]. intros Hq. destruct Hr as [_ Hr]. destruct (Hr Hq) as (b & Hb & Hs).
    split; [apply Hc; split; [done|by right; left]|]. exists b. split; [done|]. by apply Hs.
Qed.

(** A search for the entry of a class. *)
Lemma pool_search U c idx : inv 0 U c → 0 <= idx < 12 →
  ends (Th8_FindInCache debug false ready recursive sd TH8_CACHE_BUFFER (th8BufferPoolKey idx, 4) c) (λ '(p, c'), inv 0 U c' ∧ kept U (pool_key idx) c c' ∧
    searched TH8_CACHE_BUFFER (th8BufferPoolKey idx) c p c' ∧
    (p ≠ 0 → ∃ e q n cap, entry_of c' (pool_key idx) = Some (p, e) ∧ entry_at p c' = Ok e ∧ cacheType e = TH8_CACHE_BUFFER ∧
      buffer_of e = Ok (q, n, cap) ∧ rep_ptr (u (value e)) = q ∧ blocks c' !! zOriginal e = Some (BBytes (th8BufferPoolKey idx ++ [0])) ∧
      (q ≠ 0 → (q ∉ U) ∧ ∃ b, blocks c' !! q = Some (BBytes b) ∧ class_size idx <= zlen b))).
Proof.
  intros H Hi. destruct buffer_type as [Ht Hs].
  eapply ends_weaken; [apply (search_ok debug ready recursive sd U c _ _ _ H Ht Hs (pool_text idx))|].
  intros [p c1] (H1 & Hk & Hf). split; [done|]. split; [done|]. split; [done|]. intros Hp. destruct Hf as [_ Hv]. rewrite decide_False in Hv by done.
  destruct Hv as (_ & e & He & HM & _). destruct (buffer_rep U c1 _ p e idx H1 He HM Hi) as (q & n & cap & Hb & Hr & Hq).
  destruct (live_entry sd 0 U c1 _ p e H1 He) as (_ & Hpz & Hbl & _). exists e, q, n, cap. destruct HM as (HMt & _ & HMz).
  destruct (HMz ltac:(done)) as (_ & Hzo & _). split_and!; try done. by apply entry_at_ok.
Qed.

(** What the pool leaves of the values and the lists: some may be lost. *)
Definition fades c c' : Prop :=
  (∀ t z, t ≠ TH8_CACHE_BUFFER → value_of c' t z = value_of c t z ∨ value_of c' t z = None) ∧
  ∀ es, join_kept c' es = join_kept c es ∨ join_kept c' es = None.

Lemma fades_same c c' : same_memory c c' → fades c c'.
Proof. intros Hs. split; intros; left; [by apply same_value|by apply join_same]. Qed.

Lemma fades_all L L' U U' V c c' : inv L U c → inv L' U' c' → (∀ k, kept V k c c') → fades c c'.
Proof. intros H H' Hk. split; intros; left; [by eapply (kept_everywhere sd L L' U U')|by eapply (kept_all_join sd L L' U U')]. Qed.

Lemma fades_trans c1 c2 c3 : fades c1 c2 → fades c2 c3 → fades c1 c3.
Proof.
  intros [A1 A2] [B1 B2]. split.
  - intros t z Ht. destruct (B1 t z Ht) as [->|?]; [by apply A1|by right].
  - intros es. destruct (B2 es) as [->|?]; [by apply A2|by right].
Qed.

Lemma apart_fades z c c' : apart TH8_CACHE_BUFFER z c c' → fades c c'.
Proof.
  intros [H1 H2]. split; [|done]. intros t z' Ht. destruct (H1 t z') as [?|[? _]]; [congruence|by left|by right].
Qed.

(** A buffer for the caller: [n] bytes or more, of which those of its class are zero. *)
Definition handed (U : gset Z) (k : option bytes) (n : Z) c (q : Z) c' : Prop :=
  inv 0 (ptr_set q ∪ U) c' ∧ (∀ k', k = None ∨ k = Some k' → kept U k' c c') ∧
  (q ≠ 0 → (q ∉ U) ∧ ∃ z, blocks c' !! q = Some (BBytes (zeros n ++ z))) ∧ fades c c'.

Lemma fresh_buffer_ok U c n : inv 0 U c → ends (fresh_buffer debug false ready recursive n c) (λ '(q, c'), handed U None n c q c').
Proof.
  intros H. unfold fresh_buffer. eapply ends_bind; [by apply (alloc_ends debug ready recursive sd 0 U _ c)|]. intros [ok c1] [H1 Hs]. destruct ok.
  - pose proof (grow_ok sd 0 U c1 (BBytes (zeros n)) H1 Logic.I) as Hg. destruct (new_block _ c1) as [q c2].
    destruct Hg as (Hq & H2 & Hu & Hb & Hk & _). cbn [ends]. split_and!.
    + unfold ptr_set. by rewrite decide_False.
    + intros k' _. by eapply kept_trans, Hk; apply same_kept.
    + intros _. split; [done|]. exists []. by rewrite app_nil_r.
    + eapply fades_trans; [by apply fades_same|]. by apply (fades_all 0 0 U ({[q]} ∪ U) U).
  - cbn [ends]. split_and!; [|intros; by apply same_kept|done|by apply fades_same]. unfold ptr_set. by rewrite decide_True, (left_id_L ∅ (∪)).
Qed.

Definition wanted (n : Z) : Z := if n =? 0 then 1 else n.
Definition pool_class (n : Z) : option bytes := pool_key ∘ fst <$> th8BufferClassIndex (wanted n).
Definition buffer_size (n : Z) : Z := match th8BufferClassIndex (wanted n) with Some (_, k) => k | None => wanted n end.

Lemma handed_trans U k n c c1 q c2 : inv 0 U c1 → (∀ k', k = Some k' → kept U k' c c1) → is_Some k → fades c c1 → handed U k n c1 q c2 → handed U k n c q c2.
Proof.
  intros H1 Hk [k0 ->] Hf (H2 & Hk2 & Hq & Hf2). split; [done|]. split; [|split; [done|by eapply fades_trans]]. intros k' [?|[= ->]]; [done|].
  eapply kept_trans; [by apply Hk|by apply Hk2; right].
Qed.

Lemma handed_weaken U k n c q c' : handed U None n c q c' → handed U k n c q c'.
Proof. intros (H & Hk & Hq & Hf). split; [done|]. split; [|done]. intros k' _. apply Hk. by left. Qed.

Lemma BufferAlloc_ok U c n : inv 0 U c →
  ends (th8BufferAlloc debug false ready recursive sd n c) (λ '(q, c'), handed U (pool_class n) (buffer_size n) c q c').
Proof.
  intros H. unfold th8BufferAlloc, pool_class, buffer_size. fold (wanted n). set (m := wanted n).
  destruct (th8BufferClassIndex m) as [[idx k]|] eqn:E; [|by apply fresh_buffer_ok]. destruct (class_ok m idx k E) as (Ek & Hi & Hm).
  eapply ends_bind; [by apply (pool_search U c idx)|]. intros [p c1] (H1 & Hk1 & Hf & Hp). cbn [fmap option_fmap option_map compose fst].
  assert (Hfresh : ends (fresh_buffer debug false ready recursive k c1) (λ '(q, c'), handed U (Some (pool_key idx)) k c q c')).
  { eapply ends_weaken; [by apply (fresh_buffer_ok U c1)|]. intros [q c2] Hh. apply (handed_trans U _ k c c1); [done|by intros k' [= <-]|by eexists|by eapply apart_fades, Hf|].
    by apply handed_weaken. }
  destruct (Z.eqb_spec p 0) as [->|Hpz]; [done|].
  destruct (Hp Hpz) as (e & q & n0 & cap & He & -> & Ht & Hb & Hr & Hzo & Hq). cbn [res_bind]. rewrite Hb. cbn [res_bind].
  destruct (negb (q =? 0) && (m <=? cap)) eqn:Eq; [|done]. apply andb_prop in Eq as [Eq _]. apply negb_true_iff, Z.eqb_neq in Eq.
  destruct (Hq Eq) as (Hu & b & Hbq & Hsz).
  destruct (entry_store_ok sd U ({[q]} ∪ U) c c1 _ _ p e (RBuffer 0 0 cap) H1 (proj2 buffer_type) Hf Hpz He) as (H2 & Hk2 & Hap & _).
  { by split. }
  { intros a [->%elem_of_singleton|Ha]%elem_of_union; [by apply (block_pos sd 0 U c1 q _ H1 Hbq)|by apply (g_mine _ _ _ _ (i_good _ _ _ _ H1))]. }
  { intros a Ha. rewrite Hr, mine_union by done. cbn [rep_ptr]. rewrite (one_ne a 0) by lia. lia. }
  { set_solver. }
  set (c2 := put p _ c1) in *. assert (Hne : p ≠ q).
  { intros ->. destruct (live_entry sd 0 U c1 _ q e H1 He) as (_ & _ & Hbl & _). congruence. }
  assert (Hbq2 : blocks c2 !! q = Some (BBytes b)) by (cbn; by rewrite lookup_insert_ne).
  rewrite (bytes_at_ok c2 q b Hbq2 Eq). cbn [res_bind]. rewrite (proj2 (Z.ltb_ge _ _)) by lia. cbn [ends].
  destruct (buffer_write_ok sd 0 ({[q]} ∪ U) c2 q (BBytes b) (BBytes (zeros k ++ drop (Z.to_nat k) b)) H2) as [H3 Hk3]; [set_solver|done|done|done|].
  split_and!.
  - unfold ptr_set. by rewrite decide_False.
  - intros k' [?|[= <-]]; [done|]. eapply kept_trans; [exact Hk1|]. eapply kept_trans; [exact Hk2|].
    destruct (Hk3 (pool_key idx)) as [K1 K2 K3]. split; [done|done|]. intros x Hx. apply K3. set_solver.
  - intros _. split; [done|]. eexists. cbn. by rewrite lookup_insert_eq.
  - eapply fades_trans; [by eapply apart_fades|]. by eapply (fades_all 0 0 ({[q]} ∪ U) ({[q]} ∪ U)).
Qed.

(** ** Freeing *)

(** Whether the caller may free the buffer with this size. *)
Definition fits (c : cache I) (q n : Z) : Prop :=
  ∃ b, blocks c !! q = Some (BBytes b) ∧ (is_Some (th8BufferClassIndex (wanted n)) → buffer_size n <= zlen b).

Lemma free_ok_kept L U c p b : inv L U c → p ∈ U → blocks c !! p = Some b → leaf b →
  ends (Th8_Free p c) (λ c', inv L (U ∖ {[p]}) c' ∧ ∀ k, kept (U ∖ {[p]}) k c c').
Proof.
  intros H Hp Hb Hl. pose proof (block_pos sd L U c p b H Hb) as Hpz. rewrite (Free_ok p c) by (right; by eexists). cbn [ends].
  unfold drop_ptr. rewrite decide_False by lia. set (c' := set_blocks _ c).
  assert (H' : inv L (U ∖ {[p]}) c').
  { split; [|apply H|apply H]. apply (good_free _ _ _ _ p b (i_good _ _ _ _ H) Hp Hb). intros a _. by apply leaf_refs. }
  split; [done|]. intros k. split.
  - intros k' _. destruct (entry_of c k') as [[a e]|] eqn:E.
    + destruct (live_entry sd L U c k' a e H E) as (Hd & _ & Hbl & _). unfold entry_of. change (dict_of c') with (dict_of c). rewrite Hd.
      destruct (mine_stays sd L U c k' a e p H E Hp). cbn. rewrite lookup_delete_ne by done. by rewrite Hbl.
    + apply no_entry; [|intros a b2; by apply (block_pos sd L (U ∖ {[p]}))]. change (dict_of c') with (dict_of c). intros a Ha.
      destruct (decide (a = 0)) as [|Hz]; [done|]. destruct (entry_here sd L U c k' a H Ha Hz). congruence.
  - intros k' a e x _ E Hx. destruct (mine_stays sd L U c k' a e p H E Hp) as [_ Hc]. cbn. apply lookup_delete_ne. by intros ->.
  - intros x Hx. cbn. apply lookup_delete_ne. set_solver.
Qed.

Lemma BufferFree_ok U c p n : inv 0 U c → p ∈ U → fits c p n →
  ends (th8BufferFree debug false ready recursive sd p n c) (λ c', inv 0 (U ∖ {[p]}) c' ∧
    (∀ k, pool_class n = None ∨ pool_class n = Some k → kept (U ∖ {[p]}) k c c') ∧ fades c c').
Proof.
  intros H Hp (b & Hb & Hsz). pose proof (block_pos sd 0 U c p _ H Hb) as Hpz. unfold th8BufferFree, pool_class, buffer_size in *.
  rewrite (proj2 (Z.eqb_neq p 0)) by lia. fold (wanted n). set (m := wanted n) in *.
  destruct (th8BufferClassIndex m) as [[idx k]|] eqn:E; cbn [fmap option_fmap option_map compose fst] in *.
  2: { eapply ends_weaken; [by apply (free_ok_kept 0 U c p _ H Hp Hb)|]. intros c' [H' Hk]. split; [done|]. split; [done|]. by eapply (fades_all 0 0 U (U ∖ {[p]})). }
  destruct (class_ok m idx k E) as (Ek & Hi & Hm). specialize (Hsz ltac:(by eexists)).
  eapply ends_bind; [by apply (pool_search U c idx)|]. intros [e0 c1] (H1 & Hk1 & Hf & He0).
  assert (Hb1 : blocks c1 !! p = Some (BBytes b)) by (rewrite (k_mine _ _ _ _ Hk1 p Hp); done).
  assert (Hkm : kept (U ∖ {[p]}) (pool_key idx) c c1).
  { destruct Hk1 as [K1 K2 K3]. split; [done|done|]. intros x Hx. apply K3. set_solver. }
  assert (Hfree : ends (Th8_Free p c1) (λ c', inv 0 (U ∖ {[p]}) c' ∧ (∀ k, Some (pool_key idx) = None ∨ Some (pool_key idx) = Some k → kept (U ∖ {[p]}) k c c') ∧ fades c c')).
  { eapply ends_weaken; [by apply (free_ok_kept 0 U c1 p _ H1 Hp Hb1)|]. intros c' [H' Hk]. split; [done|]. split.
    - intros k' [?|[= <-]]; [done|]. eapply kept_trans; [exact Hkm|apply Hk].
    - eapply fades_trans; [by eapply apart_fades, Hf|]. by eapply (fades_all 0 0 U (U ∖ {[p]})). }
  destruct (Z.eqb_spec e0 0) as [->|Hez]; [done|].
  destruct (He0 Hez) as (e & q & n0 & cap & He & -> & Ht & Hbuf & Hr & Hzo & Hq). cbn [res_bind]. rewrite Hbuf. cbn [res_bind].
  destruct (Z.eqb_spec q 0) as [Hqz|Hqz]; [|done]. cbn [ends].
  destruct (entry_store_ok sd U (U ∖ {[p]}) c c1 _ _ e0 e (RBuffer p 0 k) H1 (proj2 buffer_type) Hf Hez He) as (H2 & Hk2 & Hap & _).
  { split; [done|]. intros _. exists b. split; [done|]. intros idx' Hi'. change (zOriginal (set_rep (RBuffer p 0 k) e)) with (zOriginal e). rewrite Hzo. intros E'.
    assert (idx' = idx) as ->; [|lia]. symmetry. apply PoolKey_inj. congruence. }
  { intros a Ha. apply (g_mine _ _ _ _ (i_good _ _ _ _ H1)). set_solver. }
  { intros a Ha. rewrite Hr, Hqz, mine_diff by done. cbn [rep_ptr]. rewrite (one_ne a 0) by lia. lia. }
  { intros a Ha Hna. apply not_elem_of_difference in Hna as [?| ->%elem_of_singleton]; [done|]. by exists (BBytes b). }
  split; [done|]. split; [|by eapply apart_fades]. intros k' [?|[= <-]]; [done|]. eapply kept_trans; [exact Hkm|].
  destruct Hk2 as [K1 K2 K3]. split; [done|done|]. intros x Hx. apply K3. set_solver.
Qed.
End pool.
