(* ===== verification/CacheJoin.v ===== *)
(** * CacheJoin: the string of a list in the cache.

    The list command finds the string of its arguments in the cache, or builds and
    keeps it. *)

From stdpp Require Import gmap.
From S2P Require Import Prelude Memory Strings Hash Lists VarTables VarRefs Cache CacheInv CacheFind CacheOps CacheKeep CacheLists CacheClear.
#[local] Open Scope Z_scope.
#[local] Open Scope res_scope.

(** A caller's string whose length may have tags. *)
Definition masked_text (str : cstring) : res cache_fault bytes :=
  let* n := if snd str =? TH8_NOLEN then Th8_Strlen (fst str) else Ok (TH8_LEN (snd str)) in read (fst str) n.

Lemma read_length (z w : bytes) n : 0 <= n → read z n = Ok w → zlen w = n.
Proof.
  unfold read, zlen. intros Hn H. destruct (Z.ltb_spec (Z.of_nat (length z)) n) as [|Hle]; [done|]. injection H as <-.
  rewrite length_take. lia.
Qed.

Lemma masked_length str z : masked_text str = Ok z →
  (if snd str =? TH8_NOLEN then Th8_Strlen (fst str) else Ok (TH8_LEN (snd str))) = Ok (zlen z) ∧ read (fst str) (zlen z) = Ok z.
Proof.
  unfold masked_text. destruct (if snd str =? TH8_NOLEN then _ else _) as [n|] eqn:E; [|done]. cbn [res_bind]. intros Hr.
  assert (Hn : 0 <= n).
  { destruct (snd str =? TH8_NOLEN); [|injection E as <-; apply TH8_LEN_range]. unfold Th8_Strlen in E. destruct (_ <? _)%nat; [|done]. injection E as <-. lia. }
  by rewrite (read_length _ z n Hn Hr).
Qed.

Section join.
Context (debug ready recursive : bool) (sd : seeds) {I : Type} `{CE : CacheEnv I}.
Implicit Types c : cache I.

#[local] Abbreviation inv := (inv sd).
#[local] Abbreviation join_key := (list_key TH8_CACHE_STRING).

Lemma take_own (z : bytes) n : n = zlen z → take (Z.to_nat n) (z ++ [0]) = z.
Proof. intros ->. unfold zlen. by rewrite Nat2Z.id, take_app_length. Qed.

Lemma join_entry L U c es p e : inv L U c → entry_of c (join_key es) = Some (p, e) → list_M es (blocks c) e →
  (join_kept c es = None ∧ no_text e) ∨ ∃ z, join_kept c es = Some z ∧ text_is (blocks c) e z.
Proof.
  intros H He (Ht & Haz & Hb & Hn). unfold join_kept. rewrite He, bool_decide_true by done.
  destruct (live_entry sd L U c _ p e H He) as (_ & _ & _ & _ & _ & Hk).
  destruct Hk as [(E & _)|(_ & es' & _ & _ & _ & [[z Hz]|Hz])]; [congruence|right|left].
  - exists z. split; [|done]. destruct Hz as (_ & Hz & _ & -> & Hd). by rewrite Hz, take_own.
  - destruct Hz as (H1 & H2 & H3 & H4). split; [|done]. by rewrite H3, (no_null sd L U c).
Qed.

Lemma join_some L U c es z : inv L U c → es ≠ [] → join_kept c es = Some z → ∃ p e, entry_of c (join_key es) = Some (p, e) ∧ list_M es (blocks c) e ∧ text_is (blocks c) e z.
Proof.
  intros H Hne Hj. pose proof Hj as Hj0. unfold join_kept in Hj. destruct (entry_of c (join_key es)) as [[p e]|] eqn:He; [|done].
  case_bool_decide as Hb; [|done]. destruct Hb as [Ht Hb]. clear Hj. exists p, e.
  assert (HM : list_M es (blocks c) e).
  { split; [done|]. destruct (live_entry sd L U c _ p e H He) as (_ & _ & _ & _ & _ & Hk). destruct Hk as [(E & _)|(_ & es' & _ & Hel & _)].
    - rewrite E in Hb. by rewrite (no_null sd L U c) in Hb.
    - pose proof Hel as (H1 & H2 & H3). rewrite Hb in H2. injection H2 as <-. done. }
  split; [done|]. split; [done|]. destruct (join_entry L U c es p e H He HM) as [[E _]|(z' & E & Hz')]; congruence.
Qed.

(** ** Searching *)

Definition joins_apart (es : list bytes) c c' : Prop :=
  ∀ es', es' ≠ es → join_kept c' es' = join_kept c es' ∨ join_kept c' es' = None.

Definition join_searched (es : list bytes) c (p : Z) c' : Prop :=
  joins_apart es c c' ∧
  (if decide (p = 0) then join_kept c' es = None
   else join_kept c' es = join_kept c es ∧ ∃ e, entry_of c' (join_key es) = Some (p, e) ∧ list_M es (blocks c') e).

Lemma join_search U c elems es : inv 0 U c → elems ≠ [] → raw_elements elems = Ok es →
  ends (th8FindListInCache debug false ready recursive sd TH8_CACHE_STRING elems c) (λ '(p, c'), inv 0 U c' ∧ kept U (join_key es) c c' ∧
    join_searched es c p c' ∧ ∀ t z, t ≠ TH8_CACHE_STRING → value_of c' t z = value_of c t z ∨ value_of c' t z = None).
Proof.
  intros H Hne Hes. assert (Hes0 : es ≠ []).
  { destruct elems as [|a elems]; [done|]. cbn in Hes. destruct (read _ _); [|done]. cbn in Hes. destruct (raw_elements elems); [|done]. by injection Hes as <-. }
  eapply ends_weaken; [by apply (FindListInCache_ok debug ready recursive sd U c elems es)|]. intros [p c1] (H1 & Hk & Hf).
  assert (Hmine : p ≠ 0 → ∃ e, entry_of c1 (join_key es) = Some (p, e) ∧ list_M es (blocks c1) e).
  { intros Hp. unfold finds in Hf. rewrite decide_False in Hf by done. destruct Hf as (e & He & HM & _). by exists e. }
  assert (Hnone : p = 0 → entry_of c1 (join_key es) = None) by (intros Hp; unfold finds in Hf; by rewrite decide_True in Hf).
  split; [done|]. split; [done|]. split; [split|].
  - intros es' Hne'. destruct (decide (join_key es' = join_key es)) as [E|E]; [right|left; by eapply (kept_join sd 0 0 U U U)].
    destruct (decide (p = 0)) as [Hp|Hp]; [apply join_none; rewrite E; by apply Hnone|].
    destruct (Hmine Hp) as (e & He & _ & _ & Hb & _). apply (join_other _ _ p e); [by rewrite E|]. intros _ E2. congruence.
  - case_decide as Hp; [by apply join_none, Hnone|]. destruct (Hmine Hp) as (e & He & HM). split; [|by exists e].
    unfold finds in Hf. rewrite decide_False in Hf by done. destruct Hf as (e' & He' & _ & [[He0 Hb]|[Hr Hmiss]]).
    + unfold join_kept. by rewrite He', He0, Hb.
    + destruct (join_kept c es) as [z|] eqn:E.
      { exfalso. destruct (join_some 0 U c es z H Hes0 E) as (a & e0 & E0 & HM0 & _). by apply (Hmiss a e0). }
      assert (e' = e) as -> by congruence. destruct (join_entry 0 U c1 es p e H1 He HM) as [[? _]|(z & _ & Hz)]; [done|]. exfalso.
      destruct Hr as [_ Hr]. destruct HM as (_ & Haz & _). specialize (Hr Haz). destruct Hz as (Hz & _ & _ & Hd & _). congruence.
  - intros t z Ht. destruct (decide (text_key t z = join_key es)) as [E|E]; [right|left; by eapply (kept_value sd 0 0 U U U)].
    destruct (decide (p = 0)) as [Hp|Hp]; [apply value_none; rewrite E; by apply Hnone|]. destruct (Hmine Hp) as (e & He & HM & _).
    unfold value_of. rewrite E, He, bool_decide_false; [done|]. intros (E1 & _). congruence.
Qed.

(** ** Setting the string *)

Lemma same_kept_trans U k c c1 c2 : kept U k c c1 → same_memory c1 c2 → kept U k c c2.
Proof. intros Hk Hs. by eapply kept_trans, same_kept. Qed.

Lemma SetCacheString_ok U c p e es str z : inv 0 U c → entry_of c (join_key es) = Some (p, e) → list_M es (blocks c) e → masked_text str = Ok z →
  ends (th8SetCacheString debug false ready recursive p str c) (λ c', inv 0 U c' ∧ kept U (join_key es) c c' ∧
    (join_kept c' es = join_kept c es ∨ join_kept c' es = Some z) ∧
    ∃ e', entry_of c' (join_key es) = Some (p, e') ∧ list_M es (blocks c') e').
Proof.
  intros H He HM Hz. destruct (live_entry sd 0 U c _ p e H He) as (_ & Hp & Hbl & Hok). unfold th8SetCacheString. rewrite (entry_at_ok c p e Hbl Hp). cbn [res_bind].
  destruct (Z.eqb_spec (zData (value e)) 0) as [Hd|Hd]; cbn [negb]; [|cbn [ends]; split_and!; [done|by apply kept_refl|by left|by exists e]].
  destruct (masked_length str z Hz) as [-> Hread]. cbn [res_bind].
  eapply ends_bind; [by apply (alloc_ends debug ready recursive sd 0 U _ c)|]. intros [ok c1] [H1 Hs]. assert (Eb : blocks c1 = blocks c) by apply Hs. destruct ok; cbn [negb].
  2: { cbn [ends]. split_and!; [done|by apply same_kept|left; by apply join_same|]. exists e. rewrite (same_entries c c1 _ Hs). split; [done|]. by rewrite Eb. }
  rewrite Hread. cbn [res_bind]. pose proof (grow_ok sd 0 U c1 (BBytes (z ++ [0])) H1 Logic.I) as Hg. destruct (new_block _ c1) as [q c2].
  destruct Hg as (Hq & H2 & Hu & Hbq & Hk2 & Hold).
  assert (He2 : entry_of c2 (join_key es) = Some (p, e)) by (rewrite (kept_all_entry U c1 c2 _ Hk2); by rewrite (same_entries c c1)).
  destruct (live_entry sd 0 _ c2 _ p e H2 He2) as (_ & _ & Hbl2 & Hok2). rewrite (entry_at_ok c2 p e Hbl2 Hp). cbn [res_bind ends].
  destruct HM as (Ht & Haz & Hb & Hne). assert (Hb2 : blocks c2 !! azListElem e = Some (BArrays es)) by (apply Hold; by rewrite Eb).
  pose proof Hok2 as (Hkind & Hrep & Hkk). destruct Hkk as [(E & _)|(_ & es' & Hes' & Hel & Ek & Htx)]; [done|].
  assert (es' = es) as ->. { destruct Hel as (_ & E & _). congruence. }
  assert (Hno : no_text e) by (destruct Htx as [[z' (E1 & _ & _ & E2 & _)]|]; [congruence|done]). destruct Hno as (Hzo & _).
  set (e' := mkCache _ _ _ _ _ _). assert (Htext : text_is (blocks c2) e' z) by by split_and!.
  destruct (update_ok sd 0 ({[q]} ∪ U) U c2 (join_key es) p e e' H2 He2) as (H3 & He3 & Hk3).
  { split; [done|]. split.
    - revert Hrep. unfold rep_ok. cbn [e' value u cacheType zOriginal]. rewrite Ht. destruct (u (value e)); try done. by intros [? _].
    - right. split; [done|]. exists es. split; [done|]. split; [done|]. split; [done|]. left. by exists z. }
  { apply (g_mine _ _ _ _ (i_good _ _ _ _ H1)). }
  { intros a Ha. rewrite mine_union by done. cbn [block_refs e' azListElem value u zOriginal]. rewrite Hzo, (one_ne a 0) by lia. lia. }
  { intros a [->%elem_of_singleton|?]%elem_of_union Hna; [|done]. by exists (BBytes (z ++ [0])). }
  assert (Hpq : p ≠ q) by congruence. assert (Hpe : p ≠ azListElem e) by (intros E; rewrite <- E in Hb2; congruence).
  set (c3 := put p (BEntry e') c2) in *.
  assert (HM3 : list_M es (blocks c3) e').
  { split; [done|]. split; [done|]. split; [|done]. cbn. by rewrite lookup_insert_ne. }
  split; [done|]. split; [|split; [right|by exists e']].
  - eapply kept_trans; [by apply same_kept|]. eapply kept_trans; [apply Hk2|].
    destruct Hk3 as [K1 K2 K3]. split; [done|done|]. intros x Hx. apply K3. set_solver.
  - destruct (join_entry 0 U c3 es p e' H3 He3 HM3) as [[_ (E & _)]|(z' & E & (_ & Hz' & _))]; [done|]. rewrite E. f_equal.
    revert Hz'. cbn. rewrite lookup_insert_ne, Hbq by done. intros [= Hz']. by apply app_inv_tail in Hz'.
Qed.
End join.
