(* ===== verification/CacheCalm.v ===== *)
(** * CacheCalm: memory that is never short.

    The platform of src/src/th8_mem.c clears the cache where an allocation is
    refused, also one that the cache itself asks for.  Where no allocation is
    refused it does not matter whether the platform is of that kind. *)

From stdpp Require Import gmap.
From S2P Require Import Prelude Memory Strings Hash Lists Cache.
#[local] Open Scope Z_scope.
#[local] Open Scope res_scope.

Section calm.
Context (debug need_memory ready recursive : bool) (sd : seeds) {I : Type} `{CE : CacheEnv I}.
Implicit Types c : cache I.

(** No refusal clears the cache: the platform is not of that kind, or grants
    everything. *)
Definition no_pressure : Prop := need_memory = true → ∀ (i : I) site, fst (cache_alloc i site) = true.

Context (Hcalm : no_pressure).

Lemma alloc_unpressed site c : TH8_ALLOC debug need_memory ready recursive site c = TH8_ALLOC debug false ready recursive site c.
Proof.
  unfold TH8_ALLOC, ask. destruct need_memory eqn:E; [|done]. pose proof (Hcalm E (env c) site) as Ha.
  destruct (cache_alloc (env c) site) as [ok i]. cbn in Ha. by subst ok.
Qed.

(** Two runs that differ in the next step only. *)
Lemma bind_calm {A B} (m : res cache_fault A) (k k' : A → res cache_fault B) :
  (∀ x, k x = k' x) → (let* x := m in k x) = (let* x := m in k' x).
Proof. intros H. destruct m; cbn; [apply H|done]. Qed.

Ltac calm_step := first
  [ reflexivity | assumption
  | rewrite alloc_unpressed
  | apply bind_calm; intros ?
  | match goal with |- context [match ?x with _ => _ end] => destruct x end ].
Ltac calm := repeat calm_step.

Lemma get_hash_calm c : th8CacheGetHash debug need_memory ready recursive c = th8CacheGetHash debug false ready recursive c.
Proof. unfold th8CacheGetHash. calm. Qed.

Lemma find_slot_calm key c : find_slot debug need_memory ready recursive sd key c = find_slot debug false ready recursive sd key c.
Proof. unfold find_slot. calm. Qed.

Lemma find_locked_calm matches create create' key c : (∀ c, create c = create' c) →
  find_locked debug need_memory ready recursive sd matches create key c = find_locked debug false ready recursive sd matches create' key c.
Proof.
  intros Hc. unfold find_locked. rewrite get_hash_calm. apply bind_calm. intros [ok c1]. destruct ok; [|done].
  cbn [negb]. rewrite find_slot_calm. apply bind_calm. intros [[[n p]|] c2]; [|done]. apply bind_calm. intros [[] c3]; [done|]. by rewrite Hc.
Qed.

Lemma create_text_calm t z c : create_text debug need_memory ready recursive t z c = create_text debug false ready recursive t z c.
Proof. unfold create_text. calm. Qed.

Lemma create_list_calm t es c : create_list debug need_memory ready recursive t es c = create_list debug false ready recursive t es c.
Proof. unfold create_list. calm. Qed.

Lemma find_calm t str c : Th8_FindInCache debug need_memory ready recursive sd t str c = Th8_FindInCache debug false ready recursive sd t str c.
Proof.
  unfold Th8_FindInCache. apply bind_calm; intros n. apply bind_calm; intros z. apply bind_calm; intros c1.
  by rewrite (find_locked_calm _ _ _ _ _ (create_text_calm t z)).
Qed.

Lemma find_list_calm t es c : th8FindListInCache debug need_memory ready recursive sd t es c = th8FindListInCache debug false ready recursive sd t es c.
Proof.
  unfold th8FindListInCache. destruct es; [apply find_calm|]. apply bind_calm; intros l. apply bind_calm; intros c1.
  by rewrite (find_locked_calm _ _ _ _ _ (create_list_calm t l)).
Qed.

Lemma set_string_calm p str c : th8SetCacheString debug need_memory ready recursive p str c = th8SetCacheString debug false ready recursive p str c.
Proof. unfold th8SetCacheString. calm. Qed.

Lemma fresh_calm n c : fresh_buffer debug need_memory ready recursive n c = fresh_buffer debug false ready recursive n c.
Proof. unfold fresh_buffer. calm. Qed.

Lemma buffer_alloc_calm n c : th8BufferAlloc debug need_memory ready recursive sd n c = th8BufferAlloc debug false ready recursive sd n c.
Proof.
  unfold th8BufferAlloc. destruct (th8BufferClassIndex _) as [[]|]; [|apply fresh_calm]. rewrite find_calm. apply bind_calm. intros [p c1].
  by rewrite fresh_calm.
Qed.

Lemma buffer_free_calm p n c : th8BufferFree debug need_memory ready recursive sd p n c = th8BufferFree debug false ready recursive sd p n c.
Proof. unfold th8BufferFree. destruct (p =? 0); [done|]. destruct (th8BufferClassIndex _) as [[]|]; [|done]. by rewrite find_calm. Qed.

Lemma find_number_calm t str c : find_number debug need_memory ready recursive sd t str c = find_number debug false ready recursive sd t str c.
Proof. unfold find_number. by rewrite find_calm. Qed.

Lemma store_number_calm t str v c : store_number debug need_memory ready recursive sd t str v c = store_number debug false ready recursive sd t str v c.
Proof. unfold store_number. by rewrite find_calm. Qed.

Lemma copy_split_calm str c : copy_split debug need_memory ready recursive sd str c = copy_split debug false ready recursive sd str c.
Proof. unfold copy_split. rewrite find_calm. calm. Qed.

Lemma store_split_calm str es c : store_split debug need_memory ready recursive sd str es c = store_split debug false ready recursive sd str es c.
Proof. unfold store_split. rewrite find_calm. calm. Qed.

Lemma list_command_calm char_signed spilornis_ok args c :
  list_command debug need_memory ready recursive sd char_signed spilornis_ok args c = list_command debug false ready recursive sd char_signed spilornis_ok args c.
Proof.
  unfold list_command. rewrite find_list_calm. apply bind_calm. intros [[[z n]|] c1]; [done|].
  destruct (append_all_args _ _ _ _ _) as [l i]. destruct args; [done|]. destruct (fst l); [done|]. rewrite find_list_calm.
  set (m := th8FindListInCache debug false ready recursive sd _ _ _). destruct m as [[p c2]|]; [|done]. cbn [res_bind].
  by rewrite set_string_calm.
Qed.
End calm.
