(* ===== verification/ListCommand.v ===== *)
(** * ListCommand: the list command gives the same list with the cache and without.

    The string that Th8_ListAppend builds depends on the bytes of the elements only,
    which are the key of the cache. *)

From stdpp Require Import gmap.
From S2P Require Import Prelude Memory Strings Hash Spilornis Lists VarTables VarRefs Cache CacheInv CacheFind CacheOps CacheKeep CacheLists CacheClear CacheJoin CacheCalm.
#[local] Open Scope Z_scope.
#[local] Open Scope res_scope.

(** ** Strings with the length that they have *)

Section append.
Context {I : Type} `{StI : StringInterp I}.

(** A host that sets a limit sets one that the lengths can hold. *)
Definition bounded_results : Prop := ∀ i : I, nResultLimit i <= TH8_MX_STRLEN.

Definition counted (s : bytes * Z) : Prop :=
  zlen (fst s) <= TH8_MX_STRLEN ∧ (∃ t, snd s = Z.lor (zlen (fst s)) (tag_of t)) ∧ (fst s = [] → snd s = 0).

Lemma counted_len s : counted s → TH8_LEN (snd s) = zlen (fst s).
Proof.
  intros (Hn & (t & ->) & _). apply LEN_with_tag. pose proof (zlen_nonneg (fst s)). assert (TH8_MX_STRLEN <= TH8_LEN_MASK) by done. lia.
Qed.

Lemma lor_positive n t : 0 <= n → (n ≠ 0 → 0 < Z.lor n (tag_of t)) ∧ 0 <= Z.lor n (tag_of t).
Proof.
  intros Hn. assert (Ht : 0 <= tag_of t) by (apply Z.land_nonneg; by right).
  assert (H0 : 0 <= Z.lor n (tag_of t)) by by apply Z.lor_nonneg.
  split; [|done]. intros Hz. assert (Z.lor n (tag_of t) ≠ 0) by (intros E; apply Z.lor_eq_0_iff in E; lia). lia.
Qed.

Lemma counted_positive s : counted s → (0 <? snd s) = negb (bool_decide (fst s = [])).
Proof.
  intros (Hn & (t & Ht) & Hz). destruct (lor_positive (zlen (fst s)) t (zlen_nonneg _)) as [Hp _]. case_bool_decide as E.
  - rewrite (Hz E). done.
  - apply Z.ltb_lt. rewrite Ht. apply Hp. destruct (fst s); [done|]. rewrite zlen_cons. pose proof (zlen_nonneg l). lia.
Qed.

Lemma counted_nil : counted ([], 0).
Proof. split; [by vm_compute|]. split; [by exists 0|done]. Qed.

(** The bytes after an append, if it fits. *)
Lemma StringAppend_counted i s a : bounded_results → counted s → snd a = zlen (fst a) → zlen (fst a) <= TH8_LEN_MASK →
  match fst (Th8_StringAppend i s a) with Some s' => counted s' ∧ fst s' = fst s ++ fst a ∧ tag_of (snd s') = tag_of (snd s) | None => True end.
Proof.
  intros Hb Hs Ha Hm. unfold Th8_StringAppend, TH8_SIZECHECK, th8CheckResultSize. rewrite (counted_len s Hs), Ha, (TH8_LEN_small (zlen (fst a))) by (pose proof (zlen_nonneg (fst a)); lia).
  set (n := zlen (fst s) + zlen (fst a)). set (i1 := if TH8_MX_STRLEN <? n then _ else _). set (lim := if nResultLimit i1 =? 0 then _ else _).
  assert (Hl : lim <= TH8_MX_STRLEN) by (subst lim; case_if; [lia|apply Hb]).
  destruct (Z.ltb_spec lim n) as [|Hn]; cbn [negb Z.eqb]; [done|]. change (negb (TH8_OK =? TH8_OK)) with false. cbn iota.
  destruct (Strings.th8BufferAlloc i1 (n + 1)) as [[] i2]; [|done]. cbn [fst snd].
  pose proof Hs as (Hs1 & (t & Ht) & Hz). fold (tag_of (snd s)) (tag_of (zlen (fst a))). pose proof (zlen_nonneg (fst a)). pose proof (zlen_nonneg (fst s)).
  assert (TH8_MX_STRLEN <= TH8_LEN_MASK) by done. rewrite (tag_of_small (zlen (fst a))), Z.lor_0_r by lia.
  assert (Et : tag_of (snd s) = tag_of t) by (rewrite Ht; apply tag_with_tag; lia). rewrite Et.
  split; [|split; [done|apply tag_with_tag; lia]]. split; cbn [fst snd]; [rewrite zlen_app; lia|]. split.
  - exists t. by rewrite zlen_app.
  - intros E. apply app_eq_nil in E as [E1 E2]. specialize (Hz E1). rewrite Hz in Et. rewrite <- Et. subst n. rewrite E1, E2. done.
Qed.

(** Without limits and with memory, whether it fits does not depend on the interpreter. *)
Lemma StringAppend_same i i' s s' a : unlimited (I := I) → counted s → counted s' → fst s = fst s' → snd a = zlen (fst a) → 
  option_map fst (fst (Th8_StringAppend i s a)) = option_map fst (fst (Th8_StringAppend i' s' a)).
Proof.
  intros [Hu Hl] Hs Hs' E Ha. unfold Th8_StringAppend, TH8_SIZECHECK, th8CheckResultSize. rewrite (counted_len s Hs), (counted_len s' Hs'), E, !Hl. cbn [Z.eqb].
  set (n := _ + _). destruct (TH8_MX_STRLEN <? n); [done|]. cbn [negb]. change (negb (TH8_OK =? TH8_OK)) with false. cbn iota.
  pose proof (Hu i (n + 1)) as H1. pose proof (Hu i' (n + 1)) as H2. destruct (Strings.th8BufferAlloc i _) as [ok i1]. destruct (Strings.th8BufferAlloc i' _) as [ok' i2].
  cbn in H1, H2. subst ok ok'. done.
Qed.
End append.

Section list_append.
Context {I : Type} `{LI : ListInterp I} (char_signed : bool) (spilornis_ok : Z → bool).

#[local] Abbreviation Th8_ListAppend := (Th8_ListAppend char_signed spilornis_ok).

(** Pieces without tags. *)
Definition plain_piece (a : bytes * Z) : Prop := snd a = zlen (fst a) ∧ zlen (fst a) <= TH8_LEN_MASK.

Lemma append_some_counted apps : bounded_results (I := I) → Forall plain_piece apps → ∀ i s, counted s →
  let '(ok, s', i') := append_some i s apps in counted s' ∧ (ok = true → fst s' = fst s ++ concat (map fst apps)) ∧ tag_of (snd s') = tag_of (snd s).
Proof.
  intros Hb. induction 1 as [|a apps [Ha Hm] _ IH]; intros i s Hs; cbn [append_some].
  { split; [done|]. split; [|done]. intros _. cbn. by rewrite app_nil_r. }
  pose proof (StringAppend_counted i s a Hb Hs Ha Hm) as Hc. destruct (Th8_StringAppend i s a) as [[s1|] i1]; cbn [fst] in Hc; [|by split].
  destruct Hc as (Hs1 & E1 & T1). specialize (IH i1 s1 Hs1). destruct (append_some i1 s1 apps) as [[ok s'] i']. destruct IH as (Hs' & E' & T'). split; [done|]. split; [|congruence].
  intros Hok. rewrite (E' Hok), E1. cbn. by rewrite <- app_assoc.
Qed.

Lemma append_some_same apps : unlimited (I := I) → bounded_results (I := I) → Forall plain_piece apps → ∀ i i' s s', counted s → counted s' → fst s = fst s' →
  let '(ok, r, _) := append_some i s apps in let '(ok', r', _) := append_some i' s' apps in ok = ok' ∧ fst r = fst r'.
Proof.
  intros Hu Hb. induction 1 as [|a apps [Ha Hm] _ IH]; intros i i' s s' Hs Hs' E; cbn [append_some]; [done|].
  pose proof (StringAppend_counted i s a Hb Hs Ha Hm) as Hc. pose proof (StringAppend_counted i' s' a Hb Hs' Ha Hm) as Hc'.
  pose proof (StringAppend_same i i' s s' a Hu Hs Hs' E Ha) as He.
  destruct (Th8_StringAppend i s a) as [[s1|] i1], (Th8_StringAppend i' s' a) as [[s1'|] i1']; cbn in He, Hc, Hc'; try done.
  destruct Hc as [Hc _], Hc' as [Hc' _]. injection He as He. by apply IH.
Qed.

(** An element of a list, with the length it has. *)
Definition element (e : bytes * Z) : Prop := TH8_LEN (snd e) = zlen (fst e) ∧ zlen (fst e) <= TH8_MX_STRLEN.

(** What Th8_ListAppend appends. *)
Definition pieces (sep : bool) (z : bytes) : list (bytes * Z) :=
  (if sep then [([" "%ch], 1)] else []) ++
  match Eagle_JoinList char_signed spilornis_ok [z] with
  | Ok zJoined => [(zJoined, zlen zJoined)]
  | Err _ => [(["{"%ch], 1); (z, zlen z); (["}"%ch], 1)]
  end.

Lemma JoinList_text z t : Eagle_JoinList char_signed spilornis_ok [z] = Ok t → t = converted char_signed true z.
Proof.
  unfold Eagle_JoinList. cbv zeta. repeat (case_match; [done|]). intros E. assert (join_text char_signed true [z] = t) as <- by congruence. rewrite join_text_list. cbn. by rewrite app_nil_r.
Qed.

Lemma pieces_plain sep z : zlen z <= TH8_MX_STRLEN → Forall plain_piece (pieces sep z).
Proof.
  intros Hz. assert (HM : 2 * TH8_MX_STRLEN + 2 <= TH8_LEN_MASK) by (unfold TH8_MX_STRLEN, TH8_LEN_MASK; lia).
  pose proof (zlen_nonneg z). apply Forall_app. split; [destruct sep; repeat constructor; done|].
  destruct (Eagle_JoinList _ _ [z]) as [t|] eqn:E.
  - apply JoinList_text in E as ->. repeat constructor; cbn [fst snd].
    assert (zlen (converted char_signed true z) <= 2 * zlen z + 2) by apply convert_length. lia.
  - repeat constructor; cbn [fst snd]; (done || lia).
Qed.

Lemma pieces_nonempty sep z : concat (map fst (pieces sep z)) ≠ [].
Proof.
  unfold pieces. rewrite map_app, concat_app. intros E. apply app_eq_nil in E as [_ E].
  destruct (Eagle_JoinList _ _ [z]) as [t|] eqn:Ej; [|done]. apply JoinList_text in Ej. cbn in E. rewrite app_nil_r in E.
  destruct (quoted_head _ _ _ (converted_quoted char_signed true z)) as (h & r & Eh & _). congruence.
Qed.

Lemma ListAppend_pieces i s e : counted s → element e →
  Th8_ListAppend i s e = let '(ok, s, i) := append_some i s (pieces (negb (bool_decide (fst s = []))) (fst e)) in
    if ok then (TH8_OK, (fst s, Z.lor (snd s) (tag_of (snd e))), i) else (TH8_ERROR, s, i).
Proof.
  intros Hs [He _]. unfold Lists.Th8_ListAppend, pieces. rewrite (counted_positive s Hs), He. done.
Qed.

Lemma ListAppend_counted i s e : bounded_results (I := I) → counted s → element e →
  counted (snd (fst (Th8_ListAppend i s e))) ∧
  (tag_of (snd (snd (fst (Th8_ListAppend i s e)))) = tag_of (snd s) ∨ tag_of (snd (snd (fst (Th8_ListAppend i s e)))) = Z.lor (tag_of (snd s)) (tag_of (snd e))).
Proof.
  intros Hb Hs He. rewrite (ListAppend_pieces i s e Hs He). destruct He as [_ Hz].
  set (sep := negb _). pose proof (append_some_counted _ Hb (pieces_plain sep _ Hz) i s Hs) as H.
  destruct (append_some i s _) as [[[] s'] i']; cbn [fst snd]; [|destruct H as (? & _ & ?); by split; [|left]]. destruct H as ((Hn & (t & Ht) & Hnil) & E & T). specialize (E eq_refl).
  split; [|right; by rewrite tag_of_lor, tag_of_idem, T].
  split; [done|]. cbn [fst snd]. split.
  - exists (Z.lor t (snd e)). by rewrite Ht, <- Z.lor_assoc, <- tag_of_lor.
  - intros E2. rewrite E2 in E. symmetry in E. apply app_eq_nil in E as [_ E]. by apply pieces_nonempty in E.
Qed.

Lemma ListAppend_same i i' s s' e e' : unlimited (I := I) → bounded_results (I := I) → counted s → counted s' → fst s = fst s' → element e → element e' → fst e = fst e' →
  fst (snd (fst (Th8_ListAppend i s e))) = fst (snd (fst (Th8_ListAppend i' s' e'))).
Proof.
  intros Hu Hb Hs Hs' E He He' Ee. rewrite (ListAppend_pieces i s e Hs He), (ListAppend_pieces i' s' e' Hs' He'). rewrite <- Ee, <- E.
  destruct He as [_ Hz]. set (sep := negb _).
  pose proof (append_some_same _ Hu Hb (pieces_plain sep _ Hz) i i' s s' Hs Hs' E) as H.
  destruct (append_some i s _) as [[ok r] j], (append_some i' s' _) as [[ok' r'] j']. destruct H as [<- Hr]. by destruct ok.
Qed.

Lemma element_read e : element e → read (fst e) (TH8_LEN (snd e)) = Ok (fst e).
Proof. intros [He _]. unfold read. rewrite He, Z.ltb_irrefl. unfold zlen. by rewrite Nat2Z.id, firstn_all. Qed.

Lemma elements_raw args : Forall element args → raw_elements args = Ok (map fst args).
Proof. induction 1 as [|e args He _ IH]; [done|]. cbn [raw_elements]. rewrite (element_read e He). cbn [res_bind]. by rewrite IH. Qed.
End list_append.

Section list_command.
Context (debug ready recursive : bool) (sd : seeds) {I : Type} `{CE : CacheEnv I} (char_signed : bool) (spilornis_ok : Z → bool).
Implicit Types c : cache I.

#[local] Abbreviation Th8_ListAppend := (Th8_ListAppend char_signed spilornis_ok).
#[local] Abbreviation append_all_args := (append_all_args char_signed spilornis_ok).

Lemma args_counted args : bounded_results (I := I) → Forall element args → ∀ i s, counted s → counted (fst (append_all_args i s args)).
Proof.
  intros Hb. induction 1 as [|e args He _ IH]; intros i s Hs; cbn [Cache.append_all_args]; [done|].
  pose proof (ListAppend_counted char_signed spilornis_ok i s e Hb Hs He) as [Hc _]. destruct (Th8_ListAppend i s e) as [[rc s1] i1]. by apply IH.
Qed.

Lemma args_same args : unlimited (I := I) → bounded_results (I := I) → Forall element args → ∀ args', Forall element args' → map fst args = map fst args' →
  ∀ i i' s s', counted s → counted s' → fst s = fst s' → fst (fst (append_all_args i s args)) = fst (fst (append_all_args i' s' args')).
Proof.
  intros Hu Hb. induction 1 as [|e args He _ IH]; intros args' Ha' E i i' s s' Hs Hs' Es; destruct args' as [|e' args']; try done; cbn [Cache.append_all_args].
  apply Forall_cons in Ha' as [He' Ha']. cbn [map] in E. injection E as Ee E.
  pose proof (ListAppend_counted char_signed spilornis_ok i s e Hb Hs He) as [Hc _]. pose proof (ListAppend_counted char_signed spilornis_ok i' s' e' Hb Hs' He') as [Hc' _].
  pose proof (ListAppend_same char_signed spilornis_ok i i' s s' e e' Hu Hb Hs Hs' Es He He' Ee) as Hm.
  destruct (Th8_ListAppend i s e) as [[rc s1] i1]. destruct (Th8_ListAppend i' s' e') as [[rc' s1'] i1']. by apply IH.
Qed.

(** The bytes of a list of these elements. *)
Definition joined (i : I) (es : list bytes) : bytes := fst (fst (append_all_args i ([], 0) (map (λ e, (e, zlen e)) es))).

Lemma joined_args i i' args : unlimited (I := I) → bounded_results (I := I) → Forall element args →
  fst (fst (append_all_args i ([], 0) args)) = joined i' (map fst args).
Proof.
  intros Hu Hb Ha. apply args_same; try done; [|rewrite map_map; cbn; by rewrite map_map|apply counted_nil..].
  rewrite !Forall_map. eapply Forall_impl; [exact Ha|]. intros e [He Hm]. split; cbn; [|done]. apply TH8_LEN_small.
  pose proof (zlen_nonneg (fst e)). assert (TH8_MX_STRLEN <= TH8_LEN_MASK) by done. lia.
Qed.

(** The tags of a list, with those of its elements. *)
Lemma args_tags args : bounded_results (I := I) → Forall element args → ∀ i s, counted s →
  Z.lor (tag_of (snd (fst (append_all_args i s args)))) (args_tag args) = Z.lor (tag_of (snd s)) (args_tag args).
Proof.
  intros Hb. induction 1 as [|e args He _ IH]; intros i s Hs; cbn [Cache.append_all_args]; [done|].
  pose proof (ListAppend_counted char_signed spilornis_ok i s e Hb Hs He) as [Hc Ht].
  destruct (Th8_ListAppend i s e) as [[rc s1] i1]. cbn [fst snd] in Hc, Ht. specialize (IH i1 s1 Hc).
  cbn [args_tag foldr]. fold (args_tag args) (tag_of (snd e)). set (x := tag_of (snd (fst _))) in *.
  assert (E : ∀ y, Z.lor y (Z.lor (tag_of (snd e)) (args_tag args)) = Z.lor (Z.lor y (args_tag args)) (tag_of (snd e))).
  { intros y. by rewrite (Z.lor_comm (tag_of (snd e))), Z.lor_assoc. }
  rewrite !E, IH. destruct Ht as [->| ->]; [done|]. apply Z.bits_inj'. intros k _. rewrite !Z.lor_spec. by destruct (Z.testbit (tag_of (snd s)) k), (Z.testbit (tag_of (snd e)) k), (Z.testbit (args_tag args) k).
Qed.

(** ** The command *)

Lemma counted_masked s : counted s → masked_text s = Ok (fst s).
Proof.
  intros Hs. pose proof (counted_len s Hs) as Hl. unfold masked_text. destruct (Z.eqb_spec (snd s) TH8_NOLEN) as [E|_].
  - exfalso. rewrite E in Hl. change (TH8_LEN TH8_NOLEN) with TH8_LEN_MASK in Hl. destruct Hs as (Hn & _). rewrite <- Hl in Hn. done.
  - cbn [res_bind]. rewrite Hl. unfold read. rewrite Z.ltb_irrefl. unfold zlen. by rewrite Nat2Z.id, firstn_all.
Qed.

Definition opt_bytes (z : bytes) : option bytes := match z with [] => None | _ => Some z end.

(** What the command does: the string that is kept is the result, or one is built
    and, perhaps, kept. *)
Definition listed (args : list cstring) c c' : Prop :=
  let es := map fst args in
  (∃ i z, args ≠ [] ∧ join_kept c es = Some z ∧ env c' = cache_result i (Some z) (Z.lor (zlen z) (args_tag args)) ∧ join_kept c' es = Some z) ∨
  (∃ i0 i, let list := fst (append_all_args i0 ([], 0) args) in
     env c' = cache_result i (opt_bytes (fst list)) (Z.lor (snd list) (args_tag args)) ∧
     (args ≠ [] → join_kept c' es = None ∨ fst list ≠ [] ∧ join_kept c' es = Some (fst list))).

Lemma same_trans c1 c2 c3 : same_memory c1 c2 → same_memory c2 c3 → same_memory c1 c3.
Proof. intros (A1 & A2 & A3 & A4 & A5) (B1 & B2 & B3 & B4 & B5). repeat split; congruence. Qed.

Lemma env_same i c : same_memory c (set_env i c).
Proof. by repeat split. Qed.

(** What a list operation keeps of the rest. *)
Definition around (U : gset Z) (args : list cstring) c c' : Prop :=
  inv sd 0 U c' ∧ (args ≠ [] → kept U (list_key TH8_CACHE_STRING (map fst args)) c c') ∧ (args = [] → same_memory c c') ∧
  (∀ t z, t ≠ TH8_CACHE_STRING → value_of c' t z = value_of c t z ∨ value_of c' t z = None) ∧ joins_apart (map fst args) c c'.

Lemma around_refl U args c : inv sd 0 U c → around U args c c.
Proof. intros H. split_and!; [done|done|done|by left|intros es _; by left]. Qed.

Lemma or_none {A} (a b d : option A) : (b = a ∨ b = None) → (d = b ∨ d = None) → d = a ∨ d = None.
Proof. intros [->| ->] [->| ->]; auto. Qed.

Lemma around_trans U args c1 c2 c3 : around U args c1 c2 → around U args c2 c3 → around U args c1 c3.
Proof.
  intros (A1 & A2 & A3 & A4 & A5) (B1 & B2 & B3 & B4 & B5). split; [done|]. split; [intros Hn; eapply kept_trans; [by apply A2|by apply B2]|].
  split; [intros Hn; eapply same_trans; [by apply A3|by apply B3]|]. split.
  - intros t z Ht. by eapply or_none; [apply A4|apply B4].
  - intros es Hes. by eapply or_none; [apply A5|apply B5].
Qed.

Lemma around_same U args c c' : inv sd 0 U c → same_memory c c' → around U args c c'.
Proof.
  intros H Hs. split; [by eapply same_inv|]. split; [intros _; by apply same_kept|]. split; [done|].
  split; [intros t z _; left; by apply same_value|intros es _; left; by apply join_same].
Qed.

Lemma search_around U args c : inv sd 0 U c → args ≠ [] → Forall element args →
  ends (th8FindListInCache debug false ready recursive sd TH8_CACHE_STRING args c) (λ '(p, c'), around U args c c' ∧
    if decide (p = 0) then join_kept c' (map fst args) = None
    else join_kept c' (map fst args) = join_kept c (map fst args) ∧ ∃ e, entry_of c' (list_key TH8_CACHE_STRING (map fst args)) = Some (p, e) ∧ list_M (map fst args) (blocks c') e).
Proof.
  intros H Hne Ha. eapply ends_weaken; [apply (join_search debug ready recursive sd U c args _ H Hne (elements_raw args Ha))|].
  intros [p c1] (H1 & Hk & [Hap Hp] & Hv). split; [|done]. by split_and!.
Qed.

Lemma set_around U c p e args str z : inv sd 0 U c → args ≠ [] → entry_of c (list_key TH8_CACHE_STRING (map fst args)) = Some (p, e) → list_M (map fst args) (blocks c) e → masked_text str = Ok z →
  ends (th8SetCacheString debug false ready recursive p str c) (λ c', around U args c c' ∧
    (join_kept c' (map fst args) = join_kept c (map fst args) ∨ join_kept c' (map fst args) = Some z)).
Proof.
  intros H Hne He HM Hz. eapply ends_weaken; [by apply (SetCacheString_ok debug ready recursive sd U c p e (map fst args) str z)|].
  intros c' (H' & Hk & Hj & (e' & He' & HM')). split; [|done]. split; [done|]. split; [done|]. split; [done|].
  assert (Hel : e' = e' ∧ cacheType e' = TH8_CACHE_STRING) by (split; [done|apply HM']). destruct Hel as [_ Ht]. split.
  - intros t w Htw. destruct (decide (text_key t w = list_key TH8_CACHE_STRING (map fst args))) as [E|E]; [right|left; by eapply (kept_value sd 0 0 U U U)].
    unfold value_of. rewrite E, He', bool_decide_false; [done|]. intros (E1 & _). congruence.
  - intros es Hes. destruct (decide (list_key TH8_CACHE_STRING es = list_key TH8_CACHE_STRING (map fst args))) as [E|E]; [right|left; by eapply (kept_join sd 0 0 U U U)].
    apply (join_other _ _ p e'); [by rewrite E|]. destruct HM' as (_ & _ & Hb & _). intros _ E2. congruence.
Qed.

(** The first search, and the string it gives. *)
Lemma list_hit U args c : inv sd 0 U c → Forall element args → args ≠ [] →
  ends (let* (p, c) := th8FindListInCache debug false ready recursive sd TH8_CACHE_STRING args c in
        if p =? 0 then Ok (None, c)
        else
          let* e := entry_at p c in
          if zData (value e) =? 0 then Ok (None, c)
          else
            let* b := bytes_at (zData (value e)) c in
            let* z := read b (nData (value e)) in
            Ok (Some (z, nData (value e)), c))
    (λ '(hit, c'), around U args c c' ∧ match hit with
      | Some (z, n) => n = zlen z ∧ join_kept c (map fst args) = Some z ∧ join_kept c' (map fst args) = Some z
      | None => join_kept c' (map fst args) = None end).
Proof.
  intros H Ha Hne. eapply ends_bind; [by apply (search_around U args c H Hne Ha)|]. intros [p c1] [Hc1 Hp].
  destruct (Z.eqb_spec p 0) as [->|Hpz]; [rewrite decide_True in Hp by done; cbn [ends]; by split|].
  rewrite decide_False in Hp by done. destruct Hp as (Hj & e & He & HM). assert (H1 : inv sd 0 U c1) by apply Hc1.
  destruct (live_entry sd 0 U c1 _ p e H1 He) as (_ & _ & Hbl & _). rewrite (entry_at_ok c1 p e Hbl Hpz). cbn [res_bind].
  destruct (join_entry sd 0 U c1 _ p e H1 He HM) as [[E (_ & _ & Hd & _)]|(z & E & (Ho & Hb & _ & Hd & Hn))].
  - rewrite Hd. cbn [Z.eqb ends]. by split.
  - rewrite <- Hd in Ho, Hb. rewrite (proj2 (Z.eqb_neq _ 0) Ho), (bytes_at_ok c1 _ _ Hb Ho). cbn [res_bind].
    rewrite (read_own z (nData (value e)) Hn). cbn [res_bind ends]. split; [done|]. split_and!; [done|congruence|done].
Qed.

(** The string that was built is kept, if it can be. *)
Lemma list_keep U args c list : inv sd 0 U c → Forall element args → counted list → (args ≠ [] → join_kept c (map fst args) = None) →
  ends (match args, fst list with
        | _ :: _, _ :: _ =>
            let* (p, c) := th8FindListInCache debug false ready recursive sd TH8_CACHE_STRING args c in
            if p =? 0 then Ok c else th8SetCacheString debug false ready recursive p list c
        | _, _ => Ok c
        end) (λ c', around U args c c' ∧
    (args ≠ [] → join_kept c' (map fst args) = None ∨ fst list ≠ [] ∧ join_kept c' (map fst args) = Some (fst list))).
Proof.
  intros H Ha Hlist Hnone. destruct args as [|a args]; [cbn [ends]; by split; [apply around_refl|]|].
  specialize (Hnone ltac:(done)). set (l := a :: args) in *. assert (Hne : l ≠ []) by done.
  destruct (fst list) as [|b z] eqn:Ez; [cbn [ends]; split; [by apply around_refl|by left]|].
  eapply ends_bind; [by apply (search_around U l c)|]. intros [p c1] [Hc1 Hp].
  destruct (Z.eqb_spec p 0) as [->|Hpz]; [rewrite decide_True in Hp by done; cbn [ends]; split; [done|by left]|].
  rewrite decide_False in Hp by done. destruct Hp as (Hj & e & He & HM).
  eapply ends_weaken; [apply (set_around U c1 p e l list (fst list) (proj1 Hc1) Hne He HM)|]; [by apply counted_masked|].
  intros c2 [Hc2 Hj2]. split; [by eapply around_trans|]. intros _. rewrite Ez in Hj2. destruct Hj2 as [E|E]; [left; congruence|by right].
Qed.

Lemma list_command_ok U args c : bounded_results (I := I) → inv sd 0 U c → Forall element args →
  ends (list_command debug false ready recursive sd char_signed spilornis_ok args c) (λ '(rc, c'), rc = TH8_OK ∧ around U args c c' ∧ listed args c c').
Proof.
  intros Hb H Ha. unfold list_command.
  eapply (ends_bind _ _ (λ '(hit, c'), around U args c c' ∧ match hit with
      | Some (z, n) => args ≠ [] ∧ n = zlen z ∧ join_kept c (map fst args) = Some z ∧ join_kept c' (map fst args) = Some z
      | None => args ≠ [] → join_kept c' (map fst args) = None end)).
  { destruct args as [|a args]; [cbn [ends]; by split; [apply around_refl|]|].
    eapply ends_weaken; [by apply (list_hit U (a :: args) c)|]. intros [[[z n]|] c'] [Hc Hj]; split; [done| |done|done]. by destruct Hj as (? & ? & ?). }
  intros [hit c1] [Hc1 Hhit]. destruct hit as [[z n]|].
  { destruct Hhit as (Hne & -> & Hj & Hj1). cbn [ends]. split; [done|]. split; [eapply around_trans; [exact Hc1|apply around_same; [apply Hc1|apply env_same]]|].
    left. exists (env c1), z. split; [done|]. split; [done|]. split; [done|]. by rewrite (join_same _ _ _ (env_same _ c1)). }
  pose proof (args_counted args Hb Ha (env c1) ([], 0) counted_nil) as Hlist.
  set (built := append_all_args (env c1) ([], 0) args) in *.
  assert (Eb : built = append_all_args (env c1) ([], 0) args) by done. destruct built as [list i]. cbn [fst] in Hlist.
  set (c2 := set_env i c1). assert (Hc2 : around U args c c2) by (eapply around_trans; [exact Hc1|apply around_same; [apply Hc1|apply env_same]]).
  eapply ends_bind; [apply (list_keep U args c2 list (proj1 Hc2) Ha Hlist); intros Hne; rewrite (join_same _ _ _ (env_same i c1)); by apply Hhit|].
  intros c3 [Hc3 Hj3]. cbn [ends]. split; [done|].
  split; [eapply around_trans; [exact Hc2|]; eapply around_trans; [exact Hc3|apply around_same; [apply Hc3|apply env_same]]|].
  right. exists (env c1), (env c3). fold append_all_args. rewrite <- Eb. cbn [fst]. split; [by destruct (fst list)|]. intros Hne.
  rewrite (join_same _ _ _ (env_same _ c3)). by apply Hj3.
Qed.

(** ** Whatever the cache holds *)

(** Every string in the cache is the one of its elements. *)
Definition joins_coherent c : Prop := ∀ i es z, es ≠ [] → join_kept c es = Some z → z = joined i es ∧ z ≠ [].

Lemma lor_tags n t u : Z.lor (tag_of t) u = u → Z.lor (Z.lor n (tag_of t)) u = Z.lor n u.
Proof. intros E. by rewrite <- Z.lor_assoc, E. Qed.

(** C17.  Where the memory for the string is granted and no limit is set for results,
    the list command gives the list of its arguments, tainted as they are, whether
    or not its string is in the cache, and keeps the cache as it should be.  The
    memory of the cache itself may be refused.  A string whose appends fail is cut
    short and kept so (CacheHost.short_list_is_kept). *)
Theorem list_command_same need_memory U args c (Hn : no_pressure need_memory (I := I)) (Hu : unlimited (I := I)) (H : inv sd 0 U c)
    (Ha : Forall element args) (Hc : joins_coherent c) :
  ∃ c' i, list_command debug need_memory ready recursive sd char_signed spilornis_ok args c = Ok (TH8_OK, c') ∧ inv sd 0 U c' ∧ joins_coherent c' ∧
    let z := joined i (map fst args) in env c' = cache_result i (opt_bytes z) (Z.lor (zlen z) (args_tag args)).
Proof.
  rewrite list_command_calm by done. clear Hn.
  assert (Hb : bounded_results (I := I)) by (intros i; destruct Hu as [_ ->]; done).
  pose proof (list_command_ok U args c Hb H Ha) as Ho. destruct (list_command _ _ _ _ _ _ _ args c) as [[rc c']|]; [|done]. cbn [ends] in Ho.
  destruct Ho as (-> & (H' & _ & Hs & _ & Hap) & Hl). exists c'.
  assert (Hco : ∀ j z, args ≠ [] → join_kept c' (map fst args) = Some z → z = joined j (map fst args) ∧ z ≠ []).
  { intros j z Hne Hz. destruct Hl as [(i & z' & _ & Hj & _ & Hj')|(i0 & i & _ & Hk)].
    - rewrite Hj' in Hz. injection Hz as <-. apply Hc; [by destruct args|done].
    - destruct (Hk Hne) as [?|[Hn Hj]]; [congruence|]. rewrite Hj in Hz. injection Hz as <-. split; [|done]. by apply joined_args. }
  assert (Hc' : joins_coherent c').
  { intros j es z Hes Hz. destruct args as [|a args]; [rewrite (join_same _ _ es (Hs eq_refl)) in Hz; by apply Hc|].
    destruct (decide (es = map fst (a :: args))) as [->|Hne]; [by apply Hco|]. destruct (Hap es Hne) as [E|E]; [|congruence].
    apply Hc; [done|congruence]. }
  destruct Hl as [(i & z & Hne & Hj & He & _)|(i0 & i & He & _)]; exists i; (split; [done|]; split; [done|]; split; [done|]); cbv zeta.
  - destruct (Hc i (map fst args) z ltac:(by destruct args) Hj) as [<- Hz]. rewrite He. f_equal. by destruct z.
  - rewrite He. pose proof (joined_args i0 i args Hu Hb Ha) as Ej. pose proof (args_tags args Hb Ha i0 ([], 0) counted_nil) as Ht.
    destruct (args_counted args Hb Ha i0 ([], 0) counted_nil) as (Hn & (t & Et) & _). rewrite <- Ej. f_equal.
    rewrite Et in Ht |- *. rewrite tag_with_tag in Ht by (pose proof (zlen_nonneg (fst (fst (append_all_args i0 ([], 0) args)))); assert (TH8_MX_STRLEN <= TH8_LEN_MASK) by done; lia).
    by apply lor_tags.
Qed.
End list_command.
