(* ===== verification/CacheHistory.v ===== *)
(** * CacheHistory: every history of operations on the cache.

    A history starts with an empty cache and goes on with searches, stores,
    removals and clearings, lists, and buffers that are allocated, written and
    freed, in any order.  The specification is a memo: what is found is what was
    stored, though anything may be forgotten.

    The code has faults that a history can reach; [cache_avoids_faults] and
    [no_pressure] (CacheCalm) name what shows them. *)

From stdpp Require Import gmap.
From S2P Require Import Prelude Memory Strings Hash Lists VarTables VarRefs Cache CacheInv CacheFind CacheOps CacheKeep CacheLists CacheClear CachePool CacheJoin ListCommand CacheCalm.
#[local] Open Scope Z_scope.
#[local] Open Scope res_scope.

Inductive cache_op : Type :=
| OpFind (t : Z) (str : cstring)
| OpRemove (t : Z) (str : cstring)
| OpClear
| OpNumber (t : Z) (str : cstring)
| OpKeepNumber (t : Z) (str : cstring) (v : Z)
| OpSplit (str : cstring)
| OpKeepSplit (str : cstring) (es : list bytes)
| OpList (args : list cstring)
| OpAlloc (n : Z)
| OpWrite (q : Z) (z : bytes)
| OpRelease (q n : Z)
| OpFree (q : Z).

Inductive answer : Type :=
| Done
| Number (o : option (option Z))
| Copy (valid : bool) (o : option (list bytes))
| Buffer (o : option bytes).

(** ** The memo *)

Record memo : Type := mkMemo {
  m_number : Z → bytes → option Z; m_list : bytes → option (list bytes); m_join : list bytes → option bytes
}.

Inductive target : Type := TNone | TNumber (t : Z) (z : bytes) | TList (z : bytes) | TJoin (es : list bytes).

(** Everything but the target is as it was or forgotten. *)
Record forgets (x : target) (A A' : memo) : Prop := {
  f_number : ∀ t z, is_number t → x ≠ TNumber t z → m_number A' t z = m_number A t z ∨ m_number A' t z = None;
  f_list : ∀ z, x ≠ TList z → m_list A' z = m_list A z ∨ m_list A' z = None;
  f_join : ∀ es, es ≠ [] → x ≠ TJoin es → m_join A' es = m_join A es ∨ m_join A' es = None
}.

Section history.
Context (debug need_memory ready recursive : bool) (sd : seeds) {I : Type} `{CE : CacheEnv I} (char_signed : bool) (spilornis_ok : Z → bool).
Implicit Types c : cache I.

Definition create_cache (i : I) : cache I := mkState None 0 ∅ 1 0 i.

(** A cache, and the blocks that the callers own. *)
Definition cache_config : Type := (cache I * gset Z)%type.

Definition exec_cache (o : cache_op) (x : cache_config) : res cache_fault (answer * cache_config) :=
  let '(c, U) := x in
  match o with
  | OpFind t str => let* (_, c) := Th8_FindInCache debug need_memory ready recursive sd t str c in Ok (Done, (c, U))
  | OpRemove t str => let* c := th8RemoveFromCache debug ready recursive sd t str c in Ok (Done, (c, U))
  | OpClear => let* c := th8ClearCache debug ready recursive c in Ok (Done, (c, U))
  | OpNumber t str => let* (r, c) := find_number debug need_memory ready recursive sd t str c in Ok (Number r, (c, U))
  | OpKeepNumber t str v => let* c := store_number debug need_memory ready recursive sd t str v c in Ok (Done, (c, U))
  | OpSplit str =>
      let* (valid, q, c) := copy_split debug need_memory ready recursive sd str c in
      Ok (Copy valid (match blocks c !! q with Some (BArrays es) => Some es | _ => None end), (c, ptr_set q ∪ U))
  | OpKeepSplit str es => let* c := store_split debug need_memory ready recursive sd str es c in Ok (Done, (c, U))
  | OpList args => let* (_, c) := list_command debug need_memory ready recursive sd char_signed spilornis_ok args c in Ok (Done, (c, U))
  | OpAlloc n =>
      let* (q, c) := th8BufferAlloc debug need_memory ready recursive sd n c in
      Ok (Buffer (match blocks c !! q with Some (BBytes z) => Some z | _ => None end), (c, ptr_set q ∪ U))
  | OpWrite q z => Ok (Done, (put q (BBytes z) c, U))
  | OpRelease q n => let* c := th8BufferFree debug need_memory ready recursive sd q n c in Ok (Done, (c, U ∖ {[q]}))
  | OpFree q => let* c := Th8_Free q c in Ok (Done, (c, U ∖ {[q]}))
  end.

(** What the callers of an operation ensure: strings that can be read, blocks that
    they own, a buffer freed with a size that it has. *)
Definition legal_cache (o : cache_op) (x : cache_config) : Prop :=
  let '(c, U) := x in
  match o with
  | OpFind t str => 1 <= t <= 11 ∧ t ≠ TH8_CACHE_STRING ∧ ∃ z, text_of str = Ok z
  | OpSplit str | OpKeepSplit str _ => ∃ z, text_of str = Ok z
  | OpNumber t str | OpKeepNumber t str _ => is_number t ∧ ∃ z, text_of str = Ok z
  | OpList args => bounded_results (I := I) ∧ Forall element args
  | OpClear | OpAlloc _ | OpRemove _ _ => True
  | OpWrite q z => q ∈ U ∧ ∃ b, blocks c !! q = Some (BBytes b) ∧ zlen z = zlen b
  | OpRelease q n => q ∈ U ∧ fits c q n
  | OpFree q => q ∈ U
  end.

(** What callers do and the code does not bear: a split whose elements were not
    counted is kept with NULL arrays, which a debug build refuses to free
    ([uncounted_split_asserts] of CacheHost); Th8_SetVar removes a name with the
    tags of its length, which is read past its end ([tagged_name_overreads]). *)
Definition cache_avoids_faults (o : cache_op) : Prop :=
  match o with
  | OpKeepSplit _ es => es ≠ []
  | OpRemove _ str => ∃ z, text_of str = Ok z
  | _ => True
  end.

Inductive reachable_cache : cache_config → Prop :=
| reach_empty i : reachable_cache (create_cache i, ∅)
| reach_exec o x a x' : reachable_cache x → legal_cache o x → cache_avoids_faults o → exec_cache o x = Ok (a, x') → reachable_cache x'.

Definition view c : memo := mkMemo (number_kept c) (list_kept c) (join_kept c).

(** The steps of the memo. *)
Definition memo_step (o : cache_op) (A : memo) (a : answer) (A' : memo) : Prop :=
  match o with
  | OpNumber t str => ∃ z r, text_of str = Ok z ∧ a = Number r ∧ forgets TNone A A' ∧ (r = None ∨ r = Some (m_number A t z))
  | OpKeepNumber t str v => ∃ z, text_of str = Ok z ∧ forgets (TNumber t z) A A' ∧ (m_number A' t z = Some v ∨ m_number A' t z = None)
  | OpSplit str => ∃ z valid r, text_of str = Ok z ∧ a = Copy valid r ∧ forgets TNone A A' ∧
      (valid = true → is_Some (m_list A z)) ∧ (∀ es, r = Some es → valid = true ∧ m_list A z = Some es)
  | OpKeepSplit str es => ∃ z, text_of str = Ok z ∧ forgets (TList z) A A' ∧
      (m_list A' z = m_list A z ∨ m_list A z = None ∧ m_list A' z = Some es ∨ m_list A' z = None)
  | OpList args => forgets (TJoin (map fst args)) A A' ∧
      (args ≠ [] → m_join A' (map fst args) = None ∨ m_join A' (map fst args) = m_join A (map fst args) ∨
        ∃ i, m_join A' (map fst args) = Some (fst (fst (append_all_args char_signed spilornis_ok i ([], 0) args))))
  | _ => forgets TNone A A'
  end.

End history.

(** ** The invariant *)

Section invariant.
Context (debug ready recursive : bool) (sd : seeds) {I : Type} `{CE : CacheEnv I} (char_signed : bool) (spilornis_ok : Z → bool).
Implicit Types c : cache I.
#[local] Abbreviation cache_config := (cache_config (I := I)).
#[local] Abbreviation calm_exec := (exec_cache debug false ready recursive sd char_signed spilornis_ok).
#[local] Abbreviation memo_step := (memo_step char_signed spilornis_ok).

Definition in_order (x : cache_config) : Prop :=
  let '(c, U) := x in inv sd 0 U c ∧ ∀ p, p ∈ U → ∃ b, blocks c !! p = Some b ∧ leaf b.

(** The blocks of the callers stay as they are, but the one that is written; a new
    one is theirs alone. *)
Definition holds_on (o : cache_op) (x x' : cache_config) : Prop :=
  ∀ p, p ∈ x.2 → p ∈ x'.2 → (∀ z, o ≠ OpWrite p z) → blocks x'.1 !! p = blocks x.1 !! p.

(** Losing values. *)
Lemma number_same c c' t z : value_of c' t z = value_of c t z ∨ value_of c' t z = None → number_kept c' t z = number_kept c t z ∨ number_kept c' t z = None.
Proof. unfold number_kept. intros [->| ->]; [by left|by right]. Qed.

Lemma list_same c c' z : value_of c' TH8_CACHE_LIST z = value_of c TH8_CACHE_LIST z ∨ value_of c' TH8_CACHE_LIST z = None → list_kept c' z = list_kept c z ∨ list_kept c' z = None.
Proof. unfold list_kept. intros [->| ->]; [by left|by right]. Qed.

Lemma forgets_all c c' : (∀ t z, t ≠ TH8_CACHE_STRING → t ≠ TH8_CACHE_BUFFER → value_of c' t z = value_of c t z ∨ value_of c' t z = None) →
  (∀ es, es ≠ [] → join_kept c' es = join_kept c es ∨ join_kept c' es = None) → forgets TNone (view c) (view c').
Proof.
  intros H1 H2. split; [|intros z _; by apply list_same, H1|by intros es Hes _; apply H2].
  intros t z Ht _. apply number_same, H1; unfold is_number, TH8_CACHE_INT, TH8_CACHE_WIDE, TH8_CACHE_DOUBLE, TH8_CACHE_BOOL in Ht;
    unfold TH8_CACHE_STRING, TH8_CACHE_BUFFER; lia.
Qed.

(** A step at a text. *)
Lemma apart_forgets c c' t z x : apart t z c c' → (is_number t → x = TNumber t z ∨ number_kept c' t z = number_kept c t z ∨ number_kept c' t z = None) →
  (t = TH8_CACHE_LIST → x = TList z ∨ list_kept c' z = list_kept c z ∨ list_kept c' z = None) → forgets x (view c) (view c').
Proof.
  intros [H1 H2] Hn Hl. split; [| |intros es _ _; apply H2].
  - intros t' z' Ht Hx. destruct (decide ((t', z') = (t, z))) as [[= -> ->]|Hne].
    + by destruct (Hn Ht) as [?|?].
    + apply number_same. destruct (H1 t' z' Hne) as [?|[? _]]; [by left|by right].
  - intros z' Hx. destruct (decide ((TH8_CACHE_LIST, z') = (t, z))) as [[= <- ->]|Hne].
    + by destruct (Hl eq_refl) as [?|?].
    + apply list_same. destruct (H1 _ z' Hne) as [?|[? _]]; [by left|by right].
Qed.

Lemma searched_forgets c c' t z p : searched t z c p c' → forgets TNone (view c) (view c').
Proof.
  intros [Ha Hp]. apply (apart_forgets c c' t z); [done|..].
  - intros _. right. unfold number_kept. case_decide; [rewrite Hp; by right|]. destruct Hp as (-> & _). left. by destruct (value_of c t z) as [[[] ?]|].
  - intros ->. right. unfold list_kept. case_decide; [rewrite Hp; by right|]. destruct Hp as (-> & _). left. by destruct (value_of c TH8_CACHE_LIST z) as [[[] ?]|].
Qed.

Lemma in_order_kept U k c c' : in_order (c, U) → inv sd 0 U c' → kept U k c c' → in_order (c', U).
Proof. intros [_ Hl] H' Hk. split; [done|]. intros p Hp. rewrite (k_mine _ _ _ _ Hk p Hp). by apply Hl. Qed.

(** With a new block of the caller. *)
Lemma in_order_new U k c c' q : in_order (c, U) → inv sd 0 (ptr_set q ∪ U) c' → kept U k c c' → (q ≠ 0 → ∃ b, blocks c' !! q = Some b ∧ leaf b) →
  in_order (c', ptr_set q ∪ U).
Proof.
  intros [_ Hl] H' Hk Hq. split; [done|]. intros p [Hp|Hp]%elem_of_union.
  - apply ptr_set_spec in Hp as [-> Hz]. by apply Hq.
  - rewrite (k_mine _ _ _ _ Hk p Hp). by apply Hl.
Qed.

Definition step_good (o : cache_op) (x : cache_config) : Prop :=
  ends (calm_exec o x) (λ '(a, x'), in_order x' ∧ memo_step o (view x.1) a (view x'.1) ∧ holds_on o x x').

(** Operations that leave the blocks of the callers. *)
Lemma same_blocks o U k c c' : in_order (c, U) → inv sd 0 U c' → kept U k c c' → in_order (c', U) ∧ holds_on o (c, U) (c', U).
Proof. intros H H' Hk. split; [by eapply in_order_kept|]. intros p Hp _ _. by apply (k_mine _ _ _ _ Hk). Qed.

Lemma find_good c U t str : in_order (c, U) → legal_cache (OpFind t str) (c, U) → step_good (OpFind t str) (c, U).
Proof.
  intros H (Ht & Hs & z & Hz). unfold step_good, exec_cache. eapply ends_bind; [apply (search_ok debug ready recursive sd U c t str z (proj1 H) Ht Hs Hz)|].
  intros [p c'] (H' & Hk & Hf). cbn [ends fst]. destruct (same_blocks (OpFind t str) U _ c c' H H' Hk) as [Ho Hh]. split; [done|]. split; [|done]. by eapply searched_forgets.
Qed.

Lemma remove_good c U t str : in_order (c, U) → cache_avoids_faults (OpRemove t str) → step_good (OpRemove t str) (c, U).
Proof.
  intros H (z & Hz). unfold step_good, exec_cache. eapply ends_bind; [apply (RemoveFromCache_ok debug ready recursive sd U c t str z (proj1 H) Hz)|].
  intros c' (H' & Hk & He). cbn [ends fst]. destruct (same_blocks (OpRemove t str) U _ c c' H H' Hk) as [Ho Hh]. split; [done|]. split; [|done]. apply forgets_all.
  - intros t' z' _ _. destruct (decide (text_key t' z' = text_key t z)) as [E|E]; [right; apply value_none; by rewrite E|left; eapply (kept_value sd 0 0 U U U); [apply H|done..]].
  - intros es _. destruct (decide (list_key TH8_CACHE_STRING es = text_key t z)) as [E|E]; [right; apply join_none; by rewrite E|left; eapply (kept_join sd 0 0 U U U); [apply H|done..]].
Qed.

Lemma clear_good c U : in_order (c, U) → step_good OpClear (c, U).
Proof.
  intros H. unfold step_good, exec_cache. eapply ends_bind; [apply (ClearCache_ok debug ready recursive sd U c (proj1 H))|].
  intros c' (H' & Hn & Hb). cbn [ends fst]. split; [|split].
  - split; [done|]. intros p Hp. rewrite (Hb p Hp). by apply H.
  - assert (He : ∀ k, entry_of c' k = None) by (intros k; unfold entry_of, dict_of; by rewrite Hn). apply forgets_all; intros; right; [by apply value_none|by apply join_none].
  - intros p Hp _ _. by apply Hb.
Qed.

Lemma number_good c U t str : in_order (c, U) → legal_cache (OpNumber t str) (c, U) → step_good (OpNumber t str) (c, U).
Proof.
  intros H (Ht & z & Hz). unfold step_good, exec_cache. eapply ends_bind; [apply (find_number_ok debug ready recursive sd U c t str z (proj1 H) Ht Hz)|].
  intros [r c'] (H' & Hk & p & Hf & ->). cbn [ends fst]. destruct (same_blocks (OpNumber t str) U _ c c' H H' Hk) as [Ho Hh]. split; [done|]. split; [|done].
  exists z, (if decide (p = 0) then None else Some (number_kept c t z)). split; [done|]. split; [done|]. split; [by eapply searched_forgets|]. case_decide; [by left|by right].
Qed.

Lemma keep_number_good c U t str v : in_order (c, U) → legal_cache (OpKeepNumber t str v) (c, U) → step_good (OpKeepNumber t str v) (c, U).
Proof.
  intros H (Ht & z & Hz). unfold step_good, exec_cache. eapply ends_bind; [apply (store_number_ok debug ready recursive sd U c t str z v (proj1 H) Ht Hz)|].
  intros c' (H' & Hk & Ha & Hv). cbn [ends fst]. destruct (same_blocks (OpKeepNumber t str v) U _ c c' H H' Hk) as [Ho Hh]. split; [done|]. split; [|done].
  exists z. split; [done|]. split.
  - apply (apart_forgets c c' t z); [done|by left|]. intros ->. exfalso. revert Ht. unfold is_number, TH8_CACHE_LIST, TH8_CACHE_INT, TH8_CACHE_WIDE, TH8_CACHE_DOUBLE, TH8_CACHE_BOOL. lia.
  - cbn. destruct Hv as [?|E]; [by left|right]. unfold number_kept. by rewrite E.
Qed.

Lemma list_apart_forgets c c' z x : apart TH8_CACHE_LIST z c c' → (x = TList z ∨ list_kept c' z = list_kept c z ∨ list_kept c' z = None) → forgets x (view c) (view c').
Proof.
  intros Ha Hl. apply (apart_forgets c c' TH8_CACHE_LIST z); [done| |done]. intros Ht. exfalso.
  revert Ht. unfold is_number, TH8_CACHE_LIST, TH8_CACHE_INT, TH8_CACHE_WIDE, TH8_CACHE_DOUBLE, TH8_CACHE_BOOL. lia.
Qed.

Lemma split_good c U str : in_order (c, U) → legal_cache (OpSplit str) (c, U) → step_good (OpSplit str) (c, U).
Proof.
  intros H (z & Hz). unfold step_good, exec_cache. eapply ends_bind; [apply (copy_split_ok debug ready recursive sd U c str z (proj1 H) Hz)|].
  intros [[valid q] c'] (H' & Hk & Ha & Hl & Hv & Hq). cbn [ends fst snd]. split; [|split].
  - eapply in_order_new; [exact H|exact H'|exact Hk|]. intros Hz0. destruct (Hq Hz0) as (_ & _ & es & _ & Hb). by eexists.
  - exists z, valid. eexists. split; [done|]. split; [done|]. split; [by apply (list_apart_forgets c c' z); [|right]|]. split; [exact Hv|].
    intros es Hr. destruct (decide (q = 0)) as [->|Hz0]; [by rewrite (no_null sd 0 (ptr_set 0 ∪ U) c' H') in Hr|].
    destruct (Hq Hz0) as (Hv' & _ & es' & Hes & Hb). rewrite Hb in Hr. injection Hr as <-. done.
  - intros p Hp _ _. by apply (k_mine _ _ _ _ Hk).
Qed.

Lemma keep_split_good c U str es : in_order (c, U) → legal_cache (OpKeepSplit str es) (c, U) → cache_avoids_faults (OpKeepSplit str es) → step_good (OpKeepSplit str es) (c, U).
Proof.
  intros H (z & Hz) Hne. unfold step_good, exec_cache. eapply ends_bind; [apply (store_split_ok debug ready recursive sd U c str z es (proj1 H) Hz Hne)|].
  intros c' (H' & Hk & Ha & Hl). cbn [ends fst]. destruct (same_blocks (OpKeepSplit str es) U _ c c' H H' Hk) as [Ho Hh]. split; [done|]. split; [|done].
  exists z. split; [done|]. split; [by apply (list_apart_forgets c c' z); [|left]|done].
Qed.

Lemma list_good c U args : in_order (c, U) → legal_cache (OpList args) (c, U) → step_good (OpList args) (c, U).
Proof.
  intros H (Hb & Ha). unfold step_good, exec_cache. eapply ends_bind; [apply (list_command_ok debug ready recursive sd char_signed spilornis_ok U args c Hb (proj1 H) Ha)|].
  intros [rc c'] (_ & (H' & Hk & Hs & Hv & Hj) & Hl). cbn [ends fst].
  assert (Hblocks : ∀ p, p ∈ U → blocks c' !! p = blocks c !! p).
  { intros p Hp. destruct args as [|a args]; [by destruct (Hs eq_refl) as (_ & _ & -> & _)|]. by apply (k_mine _ _ _ _ (Hk ltac:(done))). }
  split; [split; [done|]; intros p Hp; rewrite Hblocks by done; by apply H|]. split; [|intros p Hp _ _; by apply Hblocks].
  split.
  - split.
    + intros t z Ht _. apply number_same, Hv. by destruct (number_type t Ht).
    + intros z _. by apply list_same, Hv.
    + intros es _ Hx. apply Hj. congruence.
  - intros Hne. cbn. destruct Hl as [(i & z & _ & E & _ & E')|(i0 & i & _ & Hm)]; [right; left; congruence|].
    destruct (Hm Hne) as [?|[_ E]]; [by left|right; right]. by exists i0.
Qed.

Lemma fades_forgets c c' : fades c c' → forgets TNone (view c) (view c').
Proof. intros [H1 H2]. apply forgets_all; [intros t z _; by apply H1|intros es _; by apply H2]. Qed.

Lemma alloc_good c U n : in_order (c, U) → step_good (OpAlloc n) (c, U).
Proof.
  intros H. unfold step_good, exec_cache. eapply ends_bind; [apply (BufferAlloc_ok debug ready recursive sd U c n (proj1 H))|].
  intros [q c'] (H' & Hk & Hq & Hf). cbn [ends fst snd].
  assert (Hkk : ∃ k, kept U k c c') by (destruct (pool_class n) as [k|] eqn:E; [exists k; apply Hk; by right|exists []; apply Hk; by left]).
  destruct Hkk as [k Hkk]. split; [|split].
  - eapply in_order_new; [exact H|exact H'|exact Hkk|]. intros Hz. destruct (Hq Hz) as (_ & z & Hb). by eexists.
  - by apply fades_forgets.
  - intros p Hp _ _. by apply (k_mine _ _ _ _ Hkk).
Qed.

Lemma write_good c U q z : in_order (c, U) → legal_cache (OpWrite q z) (c, U) → step_good (OpWrite q z) (c, U).
Proof.
  intros H (Hq & b & Hb & _). unfold step_good, exec_cache. cbn [ends fst].
  destruct (buffer_write_ok sd 0 U c q (BBytes b) (BBytes z) (proj1 H) Hq Hb Logic.I Logic.I) as [H' Hk]. split; [|split].
  - split; [done|]. intros p Hp. cbn. destruct (decide (p = q)) as [->|Hne]; [rewrite lookup_insert_eq; by eexists|].
    rewrite lookup_insert_ne by done. by apply H.
  - apply fades_forgets. by eapply (fades_all sd 0 0 U U); [apply H|..].
  - intros p Hp _ Hw. cbn. apply lookup_insert_ne. intros <-. by apply (Hw z).
Qed.

(** A block that goes. *)
Lemma gone_good c c' U q o : in_order (c, U) → inv sd 0 (U ∖ {[q]}) c' → (∃ k, kept (U ∖ {[q]}) k c c') → fades c c' →
  in_order (c', U ∖ {[q]}) ∧ forgets TNone (view c) (view c') ∧ holds_on o (c, U) (c', U ∖ {[q]}).
Proof.
  intros H H' [k Hk] Hf. split; [|split; [by apply fades_forgets|]].
  - split; [done|]. intros p Hp. rewrite (k_mine _ _ _ _ Hk p Hp). apply H. set_solver.
  - intros p _ Hp _. by apply (k_mine _ _ _ _ Hk).
Qed.

Lemma release_good c U q n : in_order (c, U) → legal_cache (OpRelease q n) (c, U) → step_good (OpRelease q n) (c, U).
Proof.
  intros H (Hq & Hfit). unfold step_good, exec_cache. eapply ends_bind; [apply (BufferFree_ok debug ready recursive sd U c q n (proj1 H) Hq Hfit)|].
  intros c' (H' & Hk & Hf). cbn [ends fst]. apply gone_good; [done|done| |done].
  destruct (pool_class n) as [k|] eqn:E; [exists k; apply Hk; by right|exists []; apply Hk; by left].
Qed.

Lemma free_good c U q : in_order (c, U) → legal_cache (OpFree q) (c, U) → step_good (OpFree q) (c, U).
Proof.
  intros H Hq. unfold step_good, exec_cache. destruct (proj2 H q Hq) as (b & Hb & Hl).
  eapply ends_bind; [apply (free_ok_kept sd 0 U c q b (proj1 H) Hq Hb Hl)|].
  intros c' (H' & Hk). cbn [ends fst]. apply gone_good; [done|done|by exists []|]. by eapply (fades_all sd 0 0 U (U ∖ {[q]})); [apply H|..].
Qed.

Lemma exec_cache_good o x : in_order x → legal_cache o x → cache_avoids_faults o → step_good o x.
Proof.
  destruct x as [c U]. intros H Hl Hf. destruct o.
  - by apply find_good. - by apply remove_good. - by apply clear_good. - by apply number_good. - by apply keep_number_good.
  - by apply split_good. - by apply keep_split_good. - by apply list_good. - by apply alloc_good. - by apply write_good.
  - by apply release_good. - by apply free_good.
Qed.

Lemma create_cache_in_order i : in_order (create_cache i, ∅).
Proof.
  split; [|set_solver]. split; [|done|done]. split; cbn.
  - lia.
  - done.
  - set_solver.
  - intros a Ha. unfold refs, mine, alive. rewrite count_empty. unfold msum. rewrite map_fold_empty, decide_False, decide_False; [done| |set_solver].
    rewrite lookup_empty. by intros [].
  - done.
  - done.
Qed.
End invariant.

(** ** Whatever kind the platform is of *)

Section platform.
Context (debug need_memory ready recursive : bool) (sd : seeds) {I : Type} `{CE : CacheEnv I} (char_signed : bool) (spilornis_ok : Z → bool).
Context (Hcalm : no_pressure need_memory (I := I)).

Lemma exec_cache_calm o x :
  exec_cache debug need_memory ready recursive sd char_signed spilornis_ok o x = exec_cache debug false ready recursive sd char_signed spilornis_ok o x.
Proof.
  destruct x as [c U]. destruct o; cbn [exec_cache]; try done.
  - by rewrite find_calm. - by rewrite find_number_calm. - by rewrite store_number_calm. - by rewrite copy_split_calm.
  - by rewrite store_split_calm. - by rewrite list_command_calm. - by rewrite buffer_alloc_calm. - by rewrite buffer_free_calm.
Qed.

Lemma reachable_in_order x : reachable_cache debug need_memory ready recursive sd char_signed spilornis_ok x → in_order sd x.
Proof.
  induction 1 as [i|o x a x' _ IH Hl Hf He]; [apply create_cache_in_order|].
  pose proof (exec_cache_good debug ready recursive sd char_signed spilornis_ok o x IH Hl Hf) as Hg. unfold step_good in Hg.
  rewrite <- exec_cache_calm, He in Hg. cbn [ends] in Hg. apply Hg.
Qed.

Lemma exec_cache_ends o x : reachable_cache debug need_memory ready recursive sd char_signed spilornis_ok x → legal_cache o x →
  cache_avoids_faults o → ends (exec_cache debug need_memory ready recursive sd char_signed spilornis_ok o x)
    (λ '(a, x'), in_order sd x' ∧ memo_step char_signed spilornis_ok o (view x.1) a (view x'.1) ∧ holds_on o x x').
Proof.
  intros Hx Hl Hf. rewrite exec_cache_calm. exact (exec_cache_good debug ready recursive sd char_signed spilornis_ok o x (reachable_in_order x Hx) Hl Hf).
Qed.
End platform.
