(* ===== verification/CacheInterp.v ===== *)
(** * CacheInterp: the cache gives Lists the interface it asks for.

    ListInterp and its laws (Lists.v), over the caches that keep the invariant: a
    step of the cache that ends is a function on them. *)

From stdpp Require Import gmap.
From S2P Require Import Prelude Memory Strings Hash Lists VarTables VarRefs Cache CacheInv CacheFind CacheOps CacheKeep CacheLists.
#[local] Open Scope Z_scope.
#[local] Open Scope res_scope.

(** The result of an operation that ends. *)
Definition outcome {A} {Q : A → Prop} (m : res cache_fault A) : ends m Q → {a : A | Q a} :=
  match m return ends m Q → {a : A | Q a} with
  | Ok a => λ H, exist _ a H
  | Err _ => λ H, match H with end
  end.

Section interp.
Context (debug ready recursive : bool) (sd : seeds) {I : Type} `{CE : CacheEnv I}.
Implicit Types c : cache I.

Record tidy : Type := mkTidy { tidy_cache : cache I; tidy_ok : inv sd 0 ∅ tidy_cache }.

(** A step of the rest of the interpreter. *)
Definition with_env (i : I) (t : tidy) : tidy :=
  mkTidy (set_env i (tidy_cache t)) (same_inv sd 0 ∅ (tidy_cache t) (set_env i (tidy_cache t)) (conj eq_refl (conj eq_refl (conj eq_refl (conj eq_refl eq_refl)))) (tidy_ok t)).
Definition env_of (t : tidy) : I := env (tidy_cache t).

Definition tidy_strings : StringInterp tidy := {|
  th8OversizeString t := with_env (th8OversizeString (env_of t)) t;
  nResultLimit t := nResultLimit (env_of t);
  Strings.th8BufferAlloc t n := let '(ok, i) := Strings.th8BufferAlloc (env_of t) n in (ok, with_env i t);
  set_limit_exceeded t := with_env (set_limit_exceeded (env_of t)) t;
  set_append_failed t := with_env (set_append_failed (env_of t)) t
|}.

Lemma own_text z : zlen z < TH8_NOLEN → text_of (z, zlen z) = Ok z.
Proof.
  intros Hz. unfold text_of. cbn [fst snd]. rewrite (proj2 (Z.eqb_neq _ _)) by lia. cbn [res_bind]. unfold read.
  rewrite Z.ltb_irrefl. unfold zlen. by rewrite Nat2Z.id, firstn_all.
Qed.

(** The elements that an entry holds. *)
Definition entry_list (p : Z) c : option (list bytes) :=
  match entry_at p c with
  | Ok e => match u (value e) with RSplit az _ => match blocks c !! az with Some (BArrays es) => Some es | _ => None end | _ => None end
  | Err _ => None
  end.

Definition lookup_post (z : bytes) (t : tidy) (x : Z * cache I) : Prop :=
  inv sd 0 ∅ (snd x) ∧ (∀ es, fst x ≠ 0 → entry_list (fst x) (snd x) = Some es → list_kept (tidy_cache t) z = Some es) ∧
  ∀ z' es, list_kept (snd x) z' = Some es → list_kept (tidy_cache t) z' = Some es.

Lemma lookup_ends z t : zlen z < TH8_NOLEN → ends (Th8_FindInCache debug false ready recursive sd TH8_CACHE_LIST (z, zlen z) (tidy_cache t)) (lookup_post z t).
Proof.
  intros Hz. eapply ends_weaken; [apply (split_search debug ready recursive sd ∅ _ _ z (tidy_ok t) (own_text z Hz))|].
  intros [p c'] (H' & _ & [[Ha _] Hv] & Hp). split; [done|]. split.
  - cbn [fst snd]. intros es Hpz Hes. rewrite decide_False in Hp by done. destruct Hp as (e & He & _ & _ & Hl). unfold entry_list in Hes. rewrite He in Hes.
    destruct (list_kept (tidy_cache t) z) as [es'|]; [|destruct Hl as [Hr _]; by rewrite Hr in Hes]. destruct Hl as (az & Hr & _ & Hb & _). rewrite Hr, Hb in Hes. done.
  - cbn [snd]. intros z' es Hes. destruct (decide (z' = z)) as [->|Hne].
    + unfold list_kept in *. case_decide; [by rewrite Hv in Hes|]. destruct Hv as (E & _). rewrite E in Hes. by destruct (value_of (tidy_cache t) TH8_CACHE_LIST z) as [[]|].
    + destruct (Ha TH8_CACHE_LIST z') as [E|[E _]]; [congruence|..]; unfold list_kept in *; by rewrite E in Hes.
Qed.

Definition tidy_find (t : tidy) (z : bytes) : option (option (list bytes)) * tidy :=
  match decide (zlen z < TH8_NOLEN) with
  | left Hz =>
      let o := outcome _ (lookup_ends z t Hz) in
      let p := fst (proj1_sig o) in
      ((if p =? 0 then None else Some (entry_list p (snd (proj1_sig o)))), mkTidy (snd (proj1_sig o)) (proj1 (proj2_sig o)))
  | right _ => (None, t)
  end.

(** The entry that was found, and holds nothing, is given its elements; a caller
    who counts them does not keep none. *)
Definition put_list c (z : bytes) (es : list bytes) : cache I :=
  match es, entry_of c (text_key TH8_CACHE_LIST z) with
  | _ :: _, Some (p, e) =>
      if bool_decide (value_of c TH8_CACHE_LIST z = Some nothing) then
        let '(q, c) := new_block (BArrays es) c in put p (BEntry (set_rep (RSplit q (zlen es)) e)) c
      else c
  | _, _ => c
  end.

Lemma put_list_ok c z es : inv sd 0 ∅ c → inv sd 0 ∅ (put_list c z es) ∧
  ∀ z' es', list_kept (put_list c z es) z' = Some es' → list_kept c z' = Some es' ∨ (z' = z ∧ es' = es).
Proof.
  intros H. unfold put_list. destruct es as [|e0 es]; [split; [done|by left]|]. set (l := e0 :: es).
  destruct (entry_of c (text_key TH8_CACHE_LIST z)) as [[p e]|] eqn:He; [|split; [done|by left]].
  case_bool_decide as Hv; [|split; [done|by left]].
  destruct (value_some sd 0 ∅ c _ z _ H (proj2 list_type) Hv) as (p' & e' & He' & HM & Hn).
  assert (p' = p ∧ e' = e) as [-> ->] by (split; congruence). destruct (live_entry sd 0 ∅ c _ p e H He) as (_ & Hp & _ & _).
  assert (Hs : searched TH8_CACHE_LIST z c p c).
  { split; [split; [intros; by left|intros; by left]|]. rewrite decide_False by done. rewrite Hv. split; [done|]. exists e. by rewrite <- Hn. }
  pose proof (keep_here_ok sd ∅ c c z p e l H Hs Hp He) as Hkeep. destruct (new_block (BArrays l) c) as [q c3].
  destruct Hkeep as (_ & H4 & _ & [Ha _] & Hl); [unfold nothing, held_by in Hn; congruence|]. split; [done|].
  intros z' es' Hes. destruct (decide (z' = z)) as [->|Hne]; [right; split; [done|congruence]|left].
  destruct (Ha TH8_CACHE_LIST z') as [E|[E _]]; [congruence|..]; unfold list_kept in *; by rewrite E in Hes.
Qed.

Definition tidy_lists : ListInterp tidy := {|
  list_strings := tidy_strings;
  list_alloc t n := let '(ok, i) := cache_alloc (env_of t) (CArrays n) in (ok, with_env i t);
  find_list := tidy_find;
  store_list t z es := mkTidy (put_list (tidy_cache t) z es) (proj1 (put_list_ok _ z es (tidy_ok t)));
  report_split t e := with_env (report_split (env_of t) e) t
|}.

#[local] Existing Instance tidy_lists.

Lemma with_env_kept i t z : list_kept (tidy_cache (with_env i t)) z = list_kept (tidy_cache t) z.
Proof. reflexivity. Qed.

#[global, program] Instance tidy_laws : ListLaws tidy := {
  in_cache t z es := list_kept (tidy_cache t) z = Some es
}.
Next Obligation.
  intros t z es. cbn [find_list tidy_lists]. unfold tidy_find. destruct (decide _) as [Hz|]; [|done]. set (o := outcome _ _). cbn [fst].
  destruct (Z.eqb_spec (fst (proj1_sig o)) 0) as [|Hp]; [done|]. intros [= Hes]. by apply (proj1 (proj2 (proj2_sig o))).
Qed.
Next Obligation.
  intros t z z' es. cbn [find_list tidy_lists]. unfold tidy_find. destruct (decide _) as [Hz|]; [|done]. set (o := outcome _ _). cbn [snd tidy_cache].
  apply (proj2 (proj2 (proj2_sig o))).
Qed.
Next Obligation. intros t z es z' es'. cbn [store_list tidy_lists tidy_cache]. apply put_list_ok, tidy_ok. Qed.
Next Obligation. intros t n z es. cbn [list_alloc tidy_lists]. by destruct (cache_alloc _ _) as [ok i]. Qed.
Next Obligation. done. Qed.
End interp.
