(* ===== verification/CacheHost.v ===== *)
(** * CacheHost: a small interpreter around the cache.

    Concrete runs: the histories of the witnesses, and what the code does
    outside the histories that CacheHistory admits. *)

From stdpp Require Import gmap.
From S2P Require Import Prelude Memory Strings Hash Spilornis Lists VarTables VarRefs Cache CacheInv CacheFind CacheOps CacheKeep CacheLists CacheClear CachePool CacheJoin CacheCalm ListCommand CacheHistory CacheInterp.
#[local] Open Scope Z_scope.
#[local] Open Scope res_scope.

(** What the next allocations are told, and the result; then there is memory. *)
Record teller : Type := mkTeller { tl_answers : list bool; tl_result : option bytes * Z }.

#[export] Instance teller_strings : StringInterp teller := {
  th8OversizeString i := i; nResultLimit _ := 0;
  th8BufferAlloc i _ := (match tl_answers i with b :: _ => b | [] => true end, mkTeller (tl (tl_answers i)) (tl_result i));
  set_limit_exceeded i := i; set_append_failed i := i
}.
#[export] Instance teller_lists : ListInterp teller := {
  list_alloc i _ := (true, i); find_list i _ := (Some None, i); store_list i _ _ := i; report_split i _ := i
}.
#[export] Instance teller_env : CacheEnv teller := {
  cache_alloc i _ := (match tl_answers i with b :: _ => b | [] => true end, mkTeller (tl (tl_answers i)) (tl_result i));
  cache_result i z n := mkTeller (tl_answers i) (z, n)
}.

(** With memory for everything. *)
Definition plenty_strings : StringInterp teller := {|
  th8OversizeString i := i; nResultLimit _ := 0; Strings.th8BufferAlloc i _ := (true, i); set_limit_exceeded i := i; set_append_failed i := i
|}.
Definition plenty_lists : ListInterp teller := {|
  list_strings := plenty_strings; list_alloc i _ := (true, i); find_list i _ := (Some None, i); store_list i _ _ := i; report_split i _ := i
|}.
Definition plenty : CacheEnv teller := {|
  cache_lists := plenty_lists; cache_alloc i _ := (true, i); cache_result i z n := mkTeller (tl_answers i) (z, n)
|}.

Definition tells (answers : list bool) : teller := mkTeller answers (None, 0).
Definition told (z : string) : cstring := (bytes_of_string z, zlen (bytes_of_string z)).

Fixpoint run_cache (ops : list cache_op) (x : cache_config (I := teller)) : res cache_fault (list answer * cache_config (I := teller)) :=
  match ops with
  | [] => Ok ([], x)
  | o :: ops =>
      let* (a, x) := exec_cache true false true false seeds_init true granted o x in
      let* (l, x) := run_cache ops x in Ok (a :: l, x)
  end.

Definition fresh_start : cache_config (I := teller) := (create_cache (tells []), ∅).
Definition answers_of (ops : list cache_op) : res cache_fault (list answer) := let* (l, _) := run_cache ops fresh_start in Ok l.

(** ** Runs that the histories admit *)

(** A number is found as it was stored, lists and buffers likewise. *)
Example cache_run :
  answers_of [OpKeepNumber TH8_CACHE_INT (told "42") 42; OpNumber TH8_CACHE_INT (told "42"); OpNumber TH8_CACHE_WIDE (told "42");
              OpKeepSplit (told "a b") [bytes_of_string "a"; bytes_of_string "b"]; OpSplit (told "a b"); OpAlloc 40; OpList [told "a"; told "{"]] =
  Ok [Done; Number (Some (Some 42)); Number (Some None); Done; Copy true (Some [bytes_of_string "a"; bytes_of_string "b"]);
      Buffer (Some (zeros 64)); Done].
Proof. vm_compute. reflexivity. Qed.

(** A freed buffer is the next one of its class, zeroed. *)
Definition pool_ops : list cache_op := [OpAlloc 40; OpWrite 3 (replicate 64 7); OpRelease 3 40; OpAlloc 50].

Example pool_reuses :
  (let* (l, (c, U)) := run_cache pool_ops fresh_start in Ok (l, elements U, nNext c)) = Ok ([Buffer (Some (zeros 64)); Done; Done; Buffer (Some (zeros 64))], [3], 4).
Proof. vm_compute. reflexivity. Qed.

(** A copy of a value outlives its entry, and goes with its text. *)
Example copied_value :
  (let* (p, c) := Th8_FindInCache true false true false seeds_init TH8_CACHE_INT (told "42") (create_cache (tells [])) in
   let* e := entry_at p c in
   let* (q, c) := th8CopyValue true false true false (value e) c in
   let* c := th8RemoveFromCache true true false seeds_init TH8_CACHE_INT (told "42") c in
   let* b := block_at q c in
   let* z := match b with BValue v => bytes_at (zData v) c | _ => Err WrongMember end in
   let* c := th8FreeValue q c in Ok (z, map_to_list (blocks c))) = Ok (bytes_of_string "42" ++ [0], []).
Proof. vm_compute. reflexivity. Qed.

(** ** What the histories leave out *)

Section excluded.
#[local] Abbreviation find need_memory recursive t str c := (Th8_FindInCache true need_memory true recursive seeds_init t str c).

(** A cache with one number in it, and what the next allocations are told. *)
Definition one_number (answers : list bool) : res cache_fault (cache teller) :=
  let* c := store_number true false true false seeds_init TH8_CACHE_INT (told "42") 42 (create_cache (tells [])) in
  Ok (set_env (tells answers) c).

(** Where memory is asked for by clearing the cache (th8_mem.c), an allocation
    that is refused during a search clears the cache that is being searched: the
    search waits for its own lock, *)
Example pressure_deadlocks :
  (let* c := one_number [false] in find true false TH8_CACHE_INT (told "43") c) = Err Deadlock.
Proof. vm_compute. reflexivity. Qed.

(** or, with a lock that may be taken twice, writes to the table that is gone. *)
Example pressure_frees_table :
  (let* c := one_number [false] in find true true TH8_CACHE_INT (told "43") c) = Err UseAfterFree.
Proof. vm_compute. reflexivity. Qed.

(** Without it, the search gives up and leaves the cache as it was. *)
Example pressure_alone :
  (let* c := one_number [false] in let* (p, c) := find false false TH8_CACHE_INT (told "43") c in
   let* (r, c) := find_number true false true false seeds_init TH8_CACHE_INT (told "42") c in Ok (p, r)) = Ok (0, Some (Some 42)).
Proof. vm_compute. reflexivity. Qed.

(** A list that is found is copied from an entry that the allocation for the copy
    has freed. *)
Example pressure_frees_list :
  (let* c := store_split true false true false seeds_init (told "a b") [bytes_of_string "a"; bytes_of_string "b"] (create_cache (tells [])) in
   let* (_, _, c) := copy_split true true true true seeds_init (told "a b") (set_env (tells [false]) c) in Ok tt) = Err UseAfterFree.
Proof. vm_compute. reflexivity. Qed.

(** A caller who does not count the elements leaves an entry whose arrays are NULL,
    which a debug build refuses to free. *)
Example uncounted_split_asserts :
  (let* c := store_split true false true false seeds_init (told "a b") [] (create_cache (tells [])) in
   let* c := th8RemoveFromCache true true false seeds_init TH8_CACHE_LIST (told "a b") c in Ok tt) = Err AssertFailed.
Proof. vm_compute. reflexivity. Qed.

(** A length with a tag is taken as it is, and the text is read past its end. *)
Example tagged_name_overreads :
  (let* c := one_number [] in
   th8RemoveFromCache true true false seeds_init TH8_CACHE_INT (bytes_of_string "42", Z.lor 2 TH8_TAINT_BIT) c) = Err OutOfBounds.
Proof. vm_compute. reflexivity. Qed.

Definition listing (answers : list bool) (c : cache teller) : res cache_fault (option bytes * Z * cache teller) :=
  let* (_, c) := list_command true false true false seeds_init true granted [told "a"; told "b"] (set_env (tells answers) c) in
  Ok (tl_result (env c), c).

(** An append that fails is reported for this command by its caller
    (bResultBuildFailed), but the list that was cut short is kept: the same command
    gives the short list when there is memory again. *)
Example short_list_is_kept :
  (let* (r1, c) := listing [true; true; true; true; true; false] (create_cache (tells [])) in
   let* (r2, _) := listing [] c in Ok (r1, r2)) = Ok ((Some (bytes_of_string "a"), 1), (Some (bytes_of_string "a"), 1)).
Proof. vm_compute. reflexivity. Qed.
End excluded.
