(* ===== verification/CacheTheorems.v ===== *)
(** * CacheTheorems: the theorems about the cache and the pool of buffers. *)

From stdpp Require Import gmap.
From S2P Require Import Prelude Memory Strings Hash Spilornis Lists VarTables VarRefs Cache CacheInv CacheFind CacheOps CacheKeep CacheLists CacheClear CachePool CacheJoin CacheCalm ListCommand CacheHistory CacheInterp CacheHost.
#[local] Open Scope Z_scope.
#[local] Open Scope res_scope.

Section claims.
Context (debug need_memory ready recursive : bool) (sd : seeds) {I : Type} `{CE : CacheEnv I} (char_signed : bool) (spilornis_ok : Z → bool).

#[local] Abbreviation exec := (exec_cache debug need_memory ready recursive sd char_signed spilornis_ok).
#[local] Abbreviation reachable := (reachable_cache debug need_memory ready recursive sd char_signed spilornis_ok).

(** C14.  Unless a refused allocation makes the platform clear the cache
    ([no_pressure]: it is not of that kind, or grants everything), whichever
    allocations are refused, no operation of a history of the cache that avoids
    the faults of [cache_avoids_faults] - elements kept that were not counted, a
    name removed with the tags of its length - reads freed memory, frees twice,
    reads past a block, waits for its own lock or fails an assertion; the lock is
    free afterwards; and clearing the cache leaves exactly the blocks that its
    callers own.  The examples of CacheHost show what happens otherwise. *)
Theorem cache_safe (o : cache_op) (x : cache_config (I := I)) (Hn : no_pressure need_memory (I := I)) (Hx : reachable x)
    (Hl : legal_cache o x) (Hf : cache_avoids_faults o) :
  ∃ a x', exec o x = Ok (a, x') ∧ nLocked (fst x') = 0 ∧
    (o = OpClear → ∀ p, is_Some (blocks (fst x') !! p) ↔ p ∈ snd x').
Proof.
  pose proof (reachable_in_order _ _ _ _ _ _ _ Hn x Hx) as Hi.
  pose proof (exec_cache_ends debug need_memory ready recursive sd char_signed spilornis_ok Hn o x Hx Hl Hf) as Hg.
  destruct (exec o x) as [[a x']|] eqn:E; [|done]. destruct Hg as (Hi' & _ & _). exists a, x'. split; [done|].
  destruct x' as [c' U']. split; [apply Hi'|]. intros ->. cbn [fst snd]. destruct x as [c U]. unfold exec_cache in E.
  pose proof (ClearCache_ok debug ready recursive sd U c (proj1 Hi)) as Hc. destruct (th8ClearCache _ _ _ c) as [c2|]; [|done]. cbn [res_bind ends] in E, Hc.
  injection E as <- <- <-. destruct Hc as (H' & Hnone & _). intros p. split.
  - intros [b Hb]. destruct (cleared_blocks sd 0 U c2 H' Hnone p b Hb) as [|(_ & q & b' & Hq & Hb' & H1)]; [done|].
    destruct (proj2 Hi' q Hq) as (b2 & Hb2 & Hlf). rewrite Hb' in Hb2. injection Hb2 as <-. rewrite (leaf_refs b' p Hlf) in H1. done.
  - intros Hp. destruct (proj2 Hi' p Hp) as (b & Hb & _). by eexists.
Qed.

(** C15.  The cache is a memo: an operation of a history as in C14 is a step of a map
    from kinds and texts to numbers, from texts to lists and from lists to strings.
    What is found is what was stored last under that very text, whatever other texts
    have its hash; another text is as it was, or forgotten. *)
Theorem cache_refines_memo (o : cache_op) (x : cache_config (I := I)) (a : answer) (x' : cache_config (I := I))
  (Hn : no_pressure need_memory (I := I)) (Hx : reachable x) (Hl : legal_cache o x) (Hf : cache_avoids_faults o) (He : exec o x = Ok (a, x')) :
  memo_step char_signed spilornis_ok o (view (fst x)) a (view (fst x')).
Proof.
  pose proof (exec_cache_ends debug need_memory ready recursive sd char_signed spilornis_ok Hn o x Hx Hl Hf) as Hg.
  rewrite He in Hg. apply Hg.
Qed.

(** C16.  What the cache hands out, in a history as in C14, is the caller's alone: no
    entry points to it, and it keeps its bytes until its owner writes to it or gives
    it back.  A buffer of the pool is new to the callers, as large as its size class,
    and zeroed. *)
Theorem handed_out_exclusive (o : cache_op) (x : cache_config (I := I)) (a : answer) (x' : cache_config (I := I))
  (Hn : no_pressure need_memory (I := I)) (Hx : reachable x) (Hl : legal_cache o x) (Hf : cache_avoids_faults o) (He : exec o x = Ok (a, x')) :
  (∀ p, p ∈ snd x' → ∀ q b, blocks (fst x') !! q = Some b → block_refs p b = 0) ∧
  (∀ p, p ∈ snd x → p ∈ snd x' → (∀ z, o ≠ OpWrite p z) → blocks (fst x') !! p = blocks (fst x) !! p) ∧
  (∀ p n, o = OpAlloc n → p ∈ snd x' → p ∉ snd x → ∃ z, blocks (fst x') !! p = Some (BBytes (zeros (buffer_size n) ++ z)) ∧ wanted n <= buffer_size n).
Proof.
  pose proof (reachable_in_order _ _ _ _ _ _ _ Hn x Hx) as Hi.
  pose proof (exec_cache_ends debug need_memory ready recursive sd char_signed spilornis_ok Hn o x Hx Hl Hf) as Hg.
  rewrite He in Hg. destruct Hg as (Hi' & _ & Hh). split; [|split; [done|]].
  - intros p Hp. destruct x' as [c' U']. by destruct (mine_only _ _ _ _ (i_good _ _ _ _ (proj1 Hi')) p Hp).
  - intros p n -> Hp Hnp. destruct x as [c U]. rewrite exec_cache_calm in He by done. unfold exec_cache in He.
    pose proof (BufferAlloc_ok debug ready recursive sd U c n (proj1 Hi)) as Ha. destruct (th8BufferAlloc _ _ _ _ _ n c) as [[q c2]|]; [|done].
    cbn [res_bind ends] in He, Ha. injection He as <- <-. cbn [fst snd] in *. apply elem_of_union in Hp as [Hp|Hp]; [|done].
    apply ptr_set_spec in Hp as [-> Hq]. destruct Ha as (_ & _ & Hz & _). destruct (Hz Hq) as (_ & z & Hb). exists z. split; [done|].
    unfold buffer_size. destruct (th8BufferClassIndex (wanted n)) as [[idx k]|] eqn:E; [|done]. by apply class_ok in E as (_ & _ & ?).
Qed.
End claims.

(** ** Witnesses *)

(** Whether an operation is legal, computed. *)
Definition readable (r : res cache_fault bytes) : bool := match r with Ok _ => true | Err _ => false end.
Definition number_check (t : Z) : bool := (t =? TH8_CACHE_INT) || (t =? TH8_CACHE_WIDE) || (t =? TH8_CACHE_DOUBLE) || (t =? TH8_CACHE_BOOL).

Definition legal_check (o : cache_op) (x : cache_config (I := teller)) : bool :=
  let '(c, U) := x in
  match o with
  | OpFind t str => (1 <=? t) && (t <=? 11) && negb (t =? TH8_CACHE_STRING) && readable (text_of str)
  | OpRemove _ str | OpSplit str => readable (text_of str)
  | OpNumber t str | OpKeepNumber t str _ => number_check t && readable (text_of str)
  | OpKeepSplit str es => negb (bool_decide (es = [])) && readable (text_of str)
  | OpList args => forallb (λ e, (TH8_LEN (snd e) =? zlen (fst e)) && (zlen (fst e) <=? TH8_MX_STRLEN)) args
  | OpClear | OpAlloc _ => true
  | OpWrite q z => bool_decide (q ∈ U) && match blocks c !! q with Some (BBytes b) => zlen z =? zlen b | _ => false end
  | OpRelease q n => bool_decide (q ∈ U) && match blocks c !! q with Some (BBytes b) => buffer_size n <=? zlen b | _ => false end
  | OpFree q => bool_decide (q ∈ U)
  end.

Lemma readable_ok r : readable r = true → ∃ z, r = Ok z.
Proof. destruct r as [z|]; [|done]. by exists z. Qed.

Lemma number_check_ok t : number_check t = true → is_number t.
Proof. unfold number_check, is_number. intros H. bool_to_prop. lia. Qed.

Lemma legal_check_ok o x : legal_check o x = true → legal_cache o x ∧ cache_avoids_faults o.
Proof.
  destruct x as [c U]. destruct o; cbn [legal_check legal_cache cache_avoids_faults]; intros H.
  - apply andb_prop in H as [H Hr]. apply readable_ok in Hr. bool_to_prop. split; [|done]. split; [lia|]. split; [lia|done].
  - split; [done|by apply readable_ok].
  - done.
  - apply andb_prop in H as [H Hr]. split; [|done]. split; [by apply number_check_ok|by apply readable_ok].
  - apply andb_prop in H as [H Hr]. split; [|done]. split; [by apply number_check_ok|by apply readable_ok].
  - split; [by apply readable_ok|done].
  - apply andb_prop in H as [H Hr]. split; [by apply readable_ok|]. apply negb_true_iff in H. by apply bool_decide_eq_false in H.
  - split; [|done]. split; [done|]. apply Forall_forall. intros e He. rewrite forallb_forall in H. specialize (H e (proj1 (list_elem_of_In _ _) He)). bool_to_prop. split; lia.
  - done.
  - split; [|done]. apply andb_prop in H as [H Hr]. split; [by apply bool_decide_eq_true in H|]. destruct (blocks c !! q) as [[]|]; try done. eexists. split; [done|lia].
  - split; [|done]. apply andb_prop in H as [H Hr]. split; [by apply bool_decide_eq_true in H|]. destruct (blocks c !! q) as [[]|] eqn:E; try done. eexists. split; [done|]. intros _. lia.
  - split; [by apply bool_decide_eq_true in H|done].
Qed.

Fixpoint legal_run (ops : list cache_op) (x : cache_config (I := teller)) : bool :=
  match ops with
  | [] => true
  | o :: ops => legal_check o x && match exec_cache true false true false seeds_init true granted o x with Ok (_, x) => legal_run ops x | Err _ => false end
  end.

Lemma run_reaches ops : ∀ x, reachable_cache true false true false seeds_init true granted x → legal_run ops x = true →
  match run_cache ops x with Ok (_, x') => reachable_cache true false true false seeds_init true granted x' | Err _ => False end.
Proof.
  induction ops as [|o ops IH]; intros x Hx H; [done|]. cbn [legal_run run_cache] in *. apply andb_prop in H as [Hl H].
  destruct (exec_cache _ _ _ _ _ _ _ o x) as [[a x']|] eqn:E; [|done]. cbn [res_bind].
  assert (Hx' : reachable_cache true false true false seeds_init true granted x') by (eapply reach_exec; [exact Hx|by apply legal_check_ok|by apply (legal_check_ok o x)|exact E]).
  specialize (IH x' Hx' H). destruct (run_cache ops x') as [[l x2]|]; [|done]. exact IH.
Qed.

(** Numbers, a list that is kept and copied, a string, buffers of the pool. *)
Definition busy : list cache_op :=
  [OpKeepNumber TH8_CACHE_INT (told "42") 42; OpFind TH8_CACHE_COMMAND (told "42"); OpKeepSplit (told "a b") [bytes_of_string "a"; bytes_of_string "b"];
   OpSplit (told "a b"); OpList [told "a"; told "{"]; OpAlloc 40; OpRemove TH8_CACHE_INT (told "7")].

Definition final (r : res cache_fault (list answer * cache_config (I := teller))) : cache_config (I := teller) :=
  match r with Ok p => snd p | Err _ => fresh_start end.
Definition busy_state : cache_config (I := teller) := final (run_cache busy fresh_start).

Lemma busy_reachable : reachable_cache true false true false seeds_init true granted busy_state.
Proof.
  pose proof (run_reaches busy fresh_start (reach_empty _ _ _ _ _ _ _ _) ltac:(vm_compute; reflexivity)) as H. unfold busy_state.
  destruct (run_cache busy fresh_start) as [[l x]|]; [exact H|done].
Qed.


(** One more operation. *)
Definition answer_in (r : res cache_fault (answer * cache_config (I := teller))) : answer := match r with Ok p => fst p | Err _ => Done end.
Definition state_in (r : res cache_fault (answer * cache_config (I := teller))) : cache_config (I := teller) :=
  match r with Ok p => snd p | Err _ => fresh_start end.
(** The platform does not clear the cache. *)
Lemma never_cleared {CE : CacheEnv teller} : no_pressure false (I := teller).
Proof. done. Qed.
Lemma clear_legal x : legal_cache (I := teller) OpClear x.
Proof. by destruct x. Qed.
Lemma alloc_legal n x : legal_cache (I := teller) (OpAlloc n) x.
Proof. by destruct x. Qed.
Definition next (o : cache_op) : res cache_fault (answer * cache_config (I := teller)) := exec_cache true false true false seeds_init true granted o busy_state.
Definition next_answer (o : cache_op) : answer := answer_in (next o).
Definition next_state (o : cache_op) : cache_config (I := teller) := state_in (next o).

Lemma next_is o : is_ok (next o) = true → next o = Ok (next_answer o, next_state o).
Proof. unfold next_answer, next_state. generalize (next o). by intros [[a x]|]. Qed.

Definition ask_42 : cache_op := OpNumber TH8_CACHE_INT (told "42").

Lemma ask_42_legal : legal_cache ask_42 busy_state ∧ cache_avoids_faults ask_42.
Proof. apply legal_check_ok. vm_compute. reflexivity. Qed.
Lemma ask_42_ends : next ask_42 = Ok (next_answer ask_42, next_state ask_42).
Proof. apply next_is. vm_compute. reflexivity. Qed.
Lemma alloc_50_ends : next (OpAlloc 50) = Ok (next_answer (OpAlloc 50), next_state (OpAlloc 50)).
Proof. apply next_is. vm_compute. reflexivity. Qed.

Lemma cache_safe_witness :
  ∃ a x', next OpClear = Ok (a, x') ∧ nLocked (fst x') = 0 ∧ (OpClear = OpClear → ∀ p, is_Some (blocks (fst x') !! p) ↔ p ∈ snd x').
Proof. exact (cache_safe true false true false seeds_init true granted OpClear busy_state never_cleared busy_reachable (clear_legal busy_state) Logic.I). Defined.

Lemma cache_refines_memo_witness :
  next_answer ask_42 = Number (Some (Some 42)) ∧ memo_step true granted ask_42 (view (fst busy_state)) (next_answer ask_42) (view (fst (next_state ask_42))).
Proof.
  split; [vm_compute; reflexivity|].
  exact (cache_refines_memo true false true false seeds_init true granted ask_42 busy_state _ _ never_cleared busy_reachable (proj1 ask_42_legal) (proj2 ask_42_legal) ask_42_ends).
Defined.

(** The buffer of this class that is in use is another. *)
Lemma handed_out_exclusive_witness :
  (∀ p, p ∈ snd (next_state (OpAlloc 50)) → ∀ q b, blocks (fst (next_state (OpAlloc 50))) !! q = Some b → block_refs p b = 0) ∧
  (∀ p, p ∈ snd busy_state → p ∈ snd (next_state (OpAlloc 50)) → (∀ z, OpAlloc 50 ≠ OpWrite p z) →
     blocks (fst (next_state (OpAlloc 50))) !! p = blocks (fst busy_state) !! p) ∧
  (∀ p n, OpAlloc 50 = OpAlloc n → p ∈ snd (next_state (OpAlloc 50)) → p ∉ snd busy_state →
     ∃ z, blocks (fst (next_state (OpAlloc 50))) !! p = Some (BBytes (zeros (buffer_size n) ++ z)) ∧ wanted n <= buffer_size n).
Proof. exact (handed_out_exclusive true false true false seeds_init true granted (OpAlloc 50) busy_state _ _ never_cleared busy_reachable (alloc_legal 50 busy_state) Logic.I alloc_50_ends). Defined.

(** The second time the string is found. *)
Lemma list_command_same_witness :
  let args := [told "a"; told "{"] in
  let run := list_command (CE := plenty) true false true false seeds_init true granted args in
  match run (create_cache (tells [])) with
  | Ok (_, c) =>
      join_kept c (map fst args) = Some (bytes_of_string "a \{") ∧
      ∃ c' i, run c = Ok (TH8_OK, c') ∧ inv seeds_init 0 ∅ c' ∧ joins_coherent (CE := plenty) true granted c' ∧
        let z := joined (CE := plenty) true granted i (map fst args) in
        env c' = cache_result (CacheEnv := plenty) i (opt_bytes z) (Z.lor (zlen z) (args_tag args))
  | Err _ => False
  end.
Proof.
  cbv zeta. assert (Hu : unlimited (I := teller) (StI := list_strings (ListInterp := cache_lists (CacheEnv := plenty)))) by (split; done).
  assert (Ha : Forall element [told "a"; told "{"]) by (repeat constructor; vm_compute; done).
  assert (H0 : inv seeds_init 0 ∅ (create_cache (tells []))) by apply (create_cache_in_order seeds_init (tells [])).
  assert (Hc0 : joins_coherent (CE := plenty) true granted (create_cache (tells []))) by (intros i es z _ Hj; exfalso; revert Hj; done).
  destruct (list_command_same (CE := plenty) true true false seeds_init true granted false ∅ [told "a"; told "{"] (create_cache (tells [])) never_cleared Hu H0 Ha Hc0) as (c & i & E & H1 & Hc1 & _).
  rewrite E. split.
  - assert (E2 := E). vm_compute in E2. injection E2 as <-. vm_compute. reflexivity.
  - apply (list_command_same (CE := plenty) true true false seeds_init true granted false ∅ [told "a"; told "{"] c never_cleared Hu H1 Ha Hc1).
Defined.

(** ** Splitting *)

Section splits.
Context (debug ready recursive : bool) (sd : seeds) {I : Type} `{CE : CacheEnv I} (char_signed : bool) (spilornis_ok : Z → bool).

#[local] Abbreviation tidy := (tidy sd (I := I)).
#[local] Existing Instance tidy_lists.

Definition tidy_start (i : I) : tidy := mkTidy sd (create_cache i) (proj1 (create_cache_in_order sd i)).

(** Lists split one after another, each through the cache as the ones before left it. *)
Fixpoint split_all (t : tidy) (l : list (bytes * Z)) : list (Z * split_out) :=
  match l with
  | [] => []
  | s :: l =>
      let '(rc, out, t) := Th8_SplitList (LI := tidy_lists debug ready recursive sd) char_signed spilornis_ok true true true true t s in
      (rc, out) :: split_all t l
  end.

(** What the list parser gives for a text. *)
Definition split_answer (s : bytes * Z) (r : Z * split_out) : Prop :=
  match fst s with
  | [] => r = (TH8_OK, full_out (tag_of (snd s)) [])
  | z =>
      match Eagle_SplitList char_signed spilornis_ok z with
      | Ok es => if zlen es <=? TH8_MAX_LIST_ELEMENTS then r = (TH8_OK, full_out (tag_of (snd s)) es) else fst r = TH8_ERROR
      | Err _ => r = (TH8_ERROR, untouched)
      end
  end.

(** C18.  Splitting through the cache of th8_cache.c gives what the list parser gives:
    in any sequence of lists, each is split into its own elements, with every length
    carrying the tags of the whole list, or is an error that leaves the caller's
    variables alone, unless it has more than a million elements; no call sees the
    elements of another list, whatever the hashes of their texts.  The callers ask
    for the elements, their lengths and their number, as the documentation has it,
    lengths are those of the bytes with their tags, and the memory for the arrays
    is granted. *)
Theorem SplitList_cached (i : I) (l : list (bytes * Z)) (Hn : Forall (λ s, TH8_LEN (snd s) = zlen (fst s)) l)
  (Ha : ∀ (i : I) n, fst (cache_alloc i (CArrays n)) = true) :
  Forall2 split_answer l (split_all (tidy_start i) l).
Proof.
  assert (Hgo : ∀ t : tidy, coherent (LL := tidy_laws debug ready recursive sd) char_signed spilornis_ok t → Forall2 split_answer l (split_all t l)).
  { induction Hn as [|[z n] l Hz _ IH]; intros t Ht; cbn [split_all]; [constructor|].
    destruct (SplitList_spec (LL := tidy_laws debug ready recursive sd) char_signed spilornis_ok true t z n Ht Hz) as [Hc Hs].
    { intros t' n'. cbn. pose proof (Ha (env_of sd t') n') as Hok. destruct (cache_alloc _ _). exact Hok. }
    destruct (Th8_SplitList _ _ _ _ _ _ t (z, n)) as [[rc out] t']. cbn [snd] in Hc. constructor; [|by apply IH].
    unfold split_answer. cbn [fst snd]. destruct z as [|b z]; [by injection Hs as -> -> _|]. unfold split_spec in Hs.
    destruct (Eagle_SplitList _ _ _) as [es|]; [|by destruct Hs as [-> ->]]. case_match; [by destruct Hs as [-> ->]|done]. }
  apply Hgo. intros z es Hz. exfalso. revert Hz. cbn. unfold list_kept, value_of, entry_of, dict_of. cbn. done.
Qed.
End splits.

(** A list is split again after another, and a tainted text after a clean one. *)
Lemma SplitList_cached_witness :
  let l := [told "a {b c}"; told "x y"; (bytes_of_string "a {b c}", Z.lor 7 TH8_TAINT_BIT); told "{"] in
  Forall2 (split_answer true granted) l (split_all (CE := plenty) true true false seeds_init true granted (tidy_start seeds_init (tells [])) l).
Proof.
  cbv zeta. apply (SplitList_cached (CE := plenty) true true false seeds_init true granted (tells [])); [|done].
  repeat constructor.
Defined.
